(* ===== verification/_CoqProject ===== *)
-Q . S2P
Prelude.v
GoStrings.v
GoPath.v
OS.v
Registrar.v
Layer.v
LayerInv.v
LayerSafe.v
LayerRestore.v
LayerWitness.v
Tree.v
FileStore.v
FileStoreInv.v
ImageStore.v
ImageInv.v
ImageLayer.v
ImageFamily.v
ImageFS.v
ImageWitness.v
RefStore.v
RefInv.v
RefWitness.v
StdCopy.v
StdCopyInv.v
BytesPipe.v
BytesPipeInv.v
RestartManager.v
Container.v
IDTools.v
Symlink.v
RefCounter.v
Locker.v
MountSpec.v
Volume.v
Xfer.v
MultiReader.v
TailFile.v
ShellWord.v
ShellWordInv.v
Changes.v
ChangesInv.v
ChangesWalk.v
ChangesWalkInv.v
TruncIndex.v
GoUTF8.v
Dockerfile.v
DockerfileInv.v
DockerfileLines.v
DockerfileTrip.v
DockerfileWitness.v
ImageDelete.v
ImageDeleteInv.v
ImageDeleteWitness.v
HostFS.v
HostFSInv.v
Archive.v
ArchiveInv.v
ArchiveTrip.v
ArchiveWitness.v
PubSub.v
PubSubInv.v
Events.v
EventsInv.v
EventsWitness.v
StatsCollector.v
StatsInv.v
MFlag.v
MFlagInv.v
MFlagWitness.v
TarExport.v
TarExportInv.v
TarExportLegacy.v
TarExportLayer.v
TarExportPath.v
TarExportLoad.v
TarExportItems.v
TarExportSave.v
TarExportTrip.v
TarExportWitness.v
TarExportTripWitness.v
