(* ===== verification/Prelude.v ===== *)
(** * A verification development for the Docker engine

    The program is the Docker engine under src/docker, written in Go.  The daemon
    keeps images and containers on the host.  Images are made of layers, which the
    layer store shares between images and containers and counts references to; the
    image store maps image identifiers to configurations and holds the layers they
    name; the tag store maps references such as name:tag to images.  Containers have
    a state, a restart manager, names in a registrar and an index by identifier
    prefixes, volumes from the volume store, and output that goes through pipes and
    multiplexed streams.  Layers are transferred by the transfer manager; the layer of
    a container is the list of changes between two directory trees, which is packed
    into tar entries and unpacked again over a parent.  Deleting an image combines the
    tag store, the image store and the containers; saving and loading images combine
    all three stores.  The builder parses a Dockerfile into a tree of instructions and
    expands the words of each.  Events and statistics go to their subscribers through
    publishers, and every command reads its flags with the same package.

    ** What is modelled, and where

    Every file models one component, or holds the proofs about one.  Go functions are
    functions on explicit states, with the result type [outcome] of this file: a
    value, an error, a panic, or fuel used up.  Interfaces of the source, and code
    that is not in the repository, are type classes; their calls may fail whenever
    the interface allows it.  Pointers that matter are addresses in a heap.  Shared
    memory is modelled by step relations over the critical sections that the locks
    of the source delimit.

    - Prelude: outcomes with their sequencing [let!], total-correctness triples
      ([safe]), counting in maps and lists, arithmetic of 64 bits.
    - GoStrings, GoPath: the functions of Go's packages strings, strconv and
      path/filepath that the components use.
    - OS, Tree: two file systems whose calls fail as a script says: one of files
      only, for the image backend, and one with directories, renames and partial
      removals, for the layer metadata.
    - Registrar: pkg/registrar.
    - Layer, LayerInv, LayerSafe, LayerRestore, LayerWitness: the layer store
      (layer/layer_store.go, ro_layer.go, mounted_layer.go, layer.go), over any graph
      driver and metadata store (classes [Driver] and [MetadataStore]).
    - FileStore, FileStoreInv: the metadata store on files (layer/filestore.go), an
      instance of [MetadataStore].
    - ImageStore, ImageInv, ImageFamily, ImageLayer, ImageFS, ImageWitness: the image
      store (image/store.go, rootfs.go) over a backend and a layer store; the file
      backend (image/fs.go) and the layer store of Layer are shown to implement what
      it relies on (classes [BackendSafe], [ReliableBackend], [LayerHolder]).
    - RefStore, RefInv, RefWitness: references and the tag store (reference/).
    - Container, RestartManager: container/state.go, health.go, memory_store.go and
      history.go; restartmanager/.
    - MountSpec: the mount specifications of volume/ (volume.go, volume_unix.go,
      volume_propagation_linux.go, volume_copy.go).
    - Volume, Locker: volume/store and pkg/locker.
    - Xfer: distribution/xfer/transfer.go.
    - StdCopy, StdCopyInv, BytesPipe, BytesPipeInv, MultiReader, TailFile: the streams
      of pkg/stdcopy, pkg/ioutils and pkg/tailfile.
    - Symlink, IDTools, RefCounter, TruncIndex: pkg/symlink, pkg/idtools,
      daemon/graphdriver/counter.go, pkg/truncindex.
    - ShellWord, ShellWordInv: builder/dockerfile/shell_parser.go.
    - Changes, ChangesInv, ChangesWalk, ChangesWalkInv: the comparison of directory
      trees in pkg/archive (changes.go, changes_unix.go, changes_linux.go,
      changes_other.go).
    - HostFS, HostFSInv: the file system of a host as packing and unpacking of layers
      use it: names that link to inodes with type, owner, mode and times.
    - Archive, ArchiveInv, ArchiveTrip, ArchiveWitness: packing of changes and
      unpacking of layers (pkg/archive/diff.go, changes.go, archive.go,
      archive_unix.go, archive_linux.go and the calls of pkg/system under them).
    - ImageDelete, ImageDeleteInv, ImageDeleteWitness: the deletion of images
      (daemon/image_delete.go, image.go, errors.go, events.go), over the tag store and
      the image store.
    - GoUTF8: bytes and their decoding into runes, as Go's packages unicode/utf8,
      strings and bytes have them.
    - Dockerfile, DockerfileInv, DockerfileLines, DockerfileTrip, DockerfileWitness:
      the parser of Dockerfiles (builder/dockerfile/parser) and the arguments of an
      instruction (builder/dockerfile/evaluator.go).
    - PubSub, PubSubInv, Events, EventsInv, EventsWitness: publishers and their
      subscribers (pkg/pubsub) and the events of the daemon (daemon/events,
      daemon/events.go), as steps that interleave at locks and channels.
    - StatsCollector, StatsInv: the collector of container statistics
      (daemon/stats_collector_unix.go), over the publishers.
    - MFlag, MFlagInv, MFlagWitness: command-line flags (pkg/mflag).
    - TarExport: saving and loading of images (image/tarexport, image/v1/imagev1.go,
      the detection of compression in pkg/archive), over the image store, the tag store
      and a layer store.  TarExportInv and TarExportLegacy account for the layers when
      anything may fail, for any layer store with the laws of [LayerClient], which the
      layer store of Layer has by TarExportLayer.  TarExportPath, TarExportLoad,
      TarExportItems, TarExportSave and TarExportTrip follow images from one daemon to
      another when nothing fails ([ReliableLayers]).  TarExportWitness,
      TarExportTripWitness: both on concrete daemons and archives.

    ** What the theorems show

    The comment before a theorem names its conditions, which are those of the code's
    callers and environment; where a plausible input outside of them is handled badly,
    a lemma of the same component shows it on an example.

    - Layers: after any calls, and in any interleaving of critical sections, the
      reference count of every live layer is exact, whatever the driver and the
      metadata store answer; Release removes exactly the unused layers of a chain;
      Register returns the layer of the extended chain identifier; chains are at most
      125 layers deep; a store opened from metadata with consistent chain identifiers
      satisfies the same invariant and has exactly the readable layers.  Writing the
      metadata of a layer to files is atomic under any failure.
    - Images: with configurations that have a rootfs, every image holds its own
      reference on its layer; Delete gives back exactly this one; with a backend without
      I/O errors the children sets are the inverse of the parents, and survive a restart
      on a backend with nothing but the images.
    - References: the reverse index is exact; adding, getting and deleting a tag;
      reloading from the file; normal forms of names, with the exceptions.
    - Containers: waiters of a state are woken; restarts are counted exactly and granted
      as the policies say, with doubling delays; the name registrar is one map; the
      memory store lists by age; the prefix index is a set with the documented errors.
    - Volumes, locks, transfers: references of volumes are exact; locks of a name
      exclude each other; active transfers stay within the limits that were set and those
      that wait start in order.
    - Streams: demultiplexing inverts multiplexing for every way to cut the stream;
      the pipe is a bounded queue in every interleaving; the multi-reader is a reader
      of the concatenation, for reads into slices without spare capacity; the tail of
      a file is its last lines.
    - Paths and identifiers: resolution of links never leaves its scope, with its
      bound; identifier maps are inverse to each other; mounts are counted.
    - Words of Dockerfiles: processing ends on every input, and on the words of a
      grammar with quotes, escapes and nested substitutions it gives their value and
      their fields.
    - Changes: the changes between two trees are exactly the additions, deletions and
      modifications, each once and directories first; leaving out equal inodes, as on
      Linux, does not alter them.
    - Packing: unpacking the archive of the changes between two trees over a copy of
      the first tree, inside of its chroot, gives the second, with owners, modes, times
      and hard links.
    - Deletion of images: whatever the force and prune flags and the failures of
      saving the tags, images of running containers and images with children are kept;
      on success the given reference is gone and the answer names every image that went.
    - Loading of images: whatever the archive holds and whatever fails, Load does not
      panic and accounts for every layer reference (one may be left over when an archive
      of the old format fails); it ends unless an archive of the old format makes an
      image its own ancestor.  When nothing fails, images that are saved by one daemon
      and loaded by another arrive with their identifiers, configurations, layers,
      parents and tags.
    - Publishers, events and statistics: a call of Publish can always end; the events
      have no gap between the answer of a subscription and its channel; subscribers of
      statistics are served until the container goes.
    - Mount specifications and flags: mount points are written and parsed back; parsing
      a command line is the same as setting its flags one after the other.
    - Dockerfiles: the lines of the nodes of a parsed file are within the file and in
      order; a statement broken by continuations, comments and empty lines parses as
      the statement on one line; the names and values written to an ENV instruction
      are the ones the builder reads back.

    ** Bounds and fuel

    Integers are unbounded where the source cannot reach the bounds of their type,
    and wrap around where it can ([wrap64], [wrap32]).  Recursion that is not
    structural has fuel, and the theorems include that the fuel given is enough:
    the heap's size for the parent chains of layers ([heap_fuel]), one unit per rune
    for words, one per block for the tail, the sum of the sizes for the walk of two
    trees, the number of components and 255 links for symbolic links, the number of
    images for the deletion of an image with its parents, the length of a line for
    nested ONBUILD instructions, one unit per argument for flags, and for images of the
    old format one more than there are files and one for the first, beyond which an image
    is its own ancestor and the source does not return.  Restoring a layer store takes
    its fuel as an argument, which has to exceed the depth of the recorded chains.

    ** What is not modelled

    The operating system beyond OS, Tree and HostFS, encoding/json, compression, the
    bytes of tar streams (archives are lists of entries, saved images directories), the
    digest functions and the grammar of references of docker/distribution, the trie of
    go-patricia and the tables of package unicode are parameters with the properties
    that are used, or are left out.  Regular expressions are written out as functions.
    Of the builder, the instructions themselves are not modelled; of the flags, the
    usage texts and the merging of flag sets; of the mount points, the setup on the
    host.  Log messages are left out.  Of the repository, the HTTP API, the command
    line, the graph drivers, networking, containerd, registries, plugins, clustering,
    logging drivers and migration are not modelled: they are input and output around
    packages that are not part of the sources.  Vendored code, tests and scripts are not
    modelled.

    ** Plan

    Next are the changes of a read-write layer as the aufs and overlay drivers report
    them, the layer store of Layer with a driver that does not fail as an instance of
    [ReliableLayers], the conversion of images for old registries
    (distribution/push_v1.go), the flags of builder instructions
    (builder/dockerfile/bflag.go), unpacking with whiteouts of other formats
    (pkg/archive/archive.go, Unpack), and the queue of log messages of a container. *)

From stdpp Require Export base tactics option list gmap strings sorting relations.
From Stdlib Require Export Ascii ZArith Lia.

Declare Scope go_scope.
Delimit Scope go_scope with go.
#[global] Open Scope go_scope.

(** ** Outcomes of Go functions

    A Go function of result type [(A, error)] ends in one of four ways: it
    returns a value with a nil error, it returns a non-nil error, it panics, or
    (in the model only) the fuel bounding a loop or a recursion is used up. *)
Inductive outcome (E A : Type) : Type :=
| Ok (a : A)
| Err (e : E)
| Panic (msg : string)
| Diverge.
Arguments Ok {E A} a.
Arguments Err {E A} e.
Arguments Panic {E A} msg.
Arguments Diverge {E A}.

#[global] Instance outcome_eq_dec {E A} `{EqDecision E, EqDecision A} :
  EqDecision (outcome E A).
Proof. solve_decision. Defined.

(** Sequencing with early return: [let! (s, x) := r in k] runs [r] and, when it
    ends in [Ok], continues with its state and value; any other ending is the
    ending of the whole. *)
Definition and_then {S E A B : Type} (r : S * outcome E A)
    (k : S → A → S * outcome E B) : S * outcome E B :=
  match r with
  | (s, Ok a) => k s a
  | (s, Err e) => (s, Err e)
  | (s, Panic m) => (s, Panic m)
  | (s, Diverge) => (s, Diverge)
  end.

Notation "'let!' ( s , x ) := r 'in' k" :=
  (and_then r (λ s x, k))
  (at level 10, s name, x name, r at level 200, k at level 200) : go_scope.
Notation "'let!' ( s , '_' ) := r 'in' k" :=
  (and_then r (λ s _, k))
  (at level 10, s name, r at level 200, k at level 200) : go_scope.

(** An [error] result (nil or not) as an outcome without a value. *)
Definition of_error {E : Type} (e : option E) : outcome E unit :=
  match e with None => Ok tt | Some e => Err e end.

(** ** Total-correctness triples

    [safe r Q R] says that [r] neither panics nor runs out of fuel, that its
    final state and value satisfy [Q] when it succeeds and that its final state
    and error satisfy [R] when it fails. *)
Definition safe {S E A : Type} (r : S * outcome E A)
    (Q : S → A → Prop) (R : S → E → Prop) : Prop :=
  match r with
  | (s, Ok a) => Q s a
  | (s, Err e) => R s e
  | (_, Panic _) | (_, Diverge) => False
  end.

Section safe.
Context {S E A B : Type}.
Implicit Types (r : S * outcome E A) (Q : S → A → Prop) (R : S → E → Prop).

Lemma safe_mono r Q Q' R R' :
  safe r Q R → (∀ s a, Q s a → Q' s a) → (∀ s e, R s e → R' s e) →
  safe r Q' R'.
Proof. destruct r as [s []]; simpl; auto. Qed.

Lemma safe_mono_err r Q R R' :
  safe r Q R → (∀ s e, R s e → R' s e) → safe r Q R'.
Proof. intros Hr HR. by eapply safe_mono. Qed.

Lemma safe_bind r (k : S → A → S * outcome E B) (Q' : S → B → Prop) R :
  safe r (λ s a, safe (k s a) Q' R) R → safe (and_then r k) Q' R.
Proof. by destruct r as [s []]. Qed.

Lemma safe_no_panic r Q R :
  safe r Q R → (∀ m, r.2 ≠ Panic m) ∧ r.2 ≠ Diverge.
Proof. by destruct r as [s []]. Qed.

Lemma safe_state r (P : S → Prop) :
  safe r (λ s _, P s) (λ s _, P s) → P r.1.
Proof. by destruct r as [s []]. Qed.
End safe.

(** The end of a call, without its value. *)
Definition void {E A : Type} (o : outcome E A) : outcome E unit :=
  match o with
  | Ok _ => Ok tt
  | Err e => Err e
  | Panic m => Panic m
  | Diverge => Diverge
  end.

Definition no_crash {E A : Type} (o : outcome E A) : Prop :=
  (∀ msg, o ≠ Panic msg) ∧ o ≠ Diverge.

Lemma no_crash_void {E A} (o : outcome E A) :
  (∀ msg, o ≠ Panic msg) ∧ o ≠ Diverge → no_crash (void o).
Proof. unfold no_crash. destruct o; naive_solver. Qed.

Lemma safe_void {S E A} (r : S * outcome E A) (P : S → Prop) :
  safe r (λ s _, P s) (λ s _, P s) →
  safe (let '(s, o) := r in (s, void o)) (λ s _, P s) (λ s _, P s).
Proof. by destruct r as [s []]. Qed.

(** ** Runs: the calls of a list one after the other, with the end of each *)
Section run_calls.
Context {S O E : Type} (call : S → O → S * outcome E unit) (valid : S → O → Prop).

Fixpoint run_calls (s : S) (ops : list O) : S * list (outcome E unit) :=
  match ops with
  | [] => (s, [])
  | op :: ops =>
      let '(s, o) := call s op in
      let '(s, os) := run_calls s ops in (s, o :: os)
  end.

Fixpoint valid_calls (s : S) (ops : list O) : Prop :=
  match ops with
  | [] => True
  | op :: ops => valid s op ∧ valid_calls (call s op).1 ops
  end.

Lemma run_calls_inv (I : S → Prop) s ops :
  (∀ s op, I s → valid s op → safe (call s op) (λ s' _, I s') (λ s' _, I s')) →
  I s → valid_calls s ops →
  I (run_calls s ops).1 ∧ Forall no_crash (run_calls s ops).2.
Proof.
  intros Hcall. revert s. induction ops as [|op ops IH]; intros s Hs Hv; [done|].
  destruct Hv as [Hv Hvs]. simpl. specialize (Hcall s op Hs Hv).
  pose proof (safe_no_panic _ _ _ Hcall) as Hno. pose proof (safe_state _ _ Hcall) as Hs'.
  destruct (call s op) as [s' o]; simpl in *. destruct (IH s' Hs' Hvs) as [HI Hos].
  destruct (run_calls s' ops) as [s'' os]; simpl in *. split; [done|]. by constructor.
Qed.
End run_calls.

(** ** Reachability *)

Lemma rtc_invariant {S : Type} (R : relation S) (P : S → Prop) s0 s :
  (∀ s s', P s → R s s' → P s') → P s0 → rtc R s0 s → P s.
Proof. intros Hstep H0 Hr. induction Hr; eauto. Qed.

(** ** Machine integers *)

(** The value an [int64] holds after arithmetic whose exact result is [z]. *)
Definition wrap64 (z : Z) : Z := (z + 2^63) `mod` 2^64 - 2^63.

Lemma wrap64_id z : (-2^63 ≤ z < 2^63)%Z → wrap64 z = z.
Proof. intros. unfold wrap64. rewrite Z.mod_small; lia. Qed.

Lemma wrap64_range z : (-2^63 ≤ wrap64 z < 2^63)%Z.
Proof. unfold wrap64. pose proof (Z.mod_pos_bound (z + 2^63) (2^64)). lia. Qed.

Lemma wrap64_add a b : wrap64 (wrap64 a + b) = wrap64 (a + b).
Proof.
  unfold wrap64. f_equal.
  replace ((a + 2 ^ 63) `mod` 2 ^ 64 - 2 ^ 63 + b + 2 ^ 63)%Z
    with ((a + 2 ^ 63) `mod` 2 ^ 64 + b)%Z by lia.
  rewrite Zplus_mod_idemp_l. f_equal. lia.
Qed.

(** ** Counting in maps *)

(** How many entries of [m] are sent to [x] by [f]. *)
Definition count_uses {A B : Type} `{EqDecision B} (f : A → option B)
    (m : gmap string A) (x : B) : nat :=
  size (filter (λ kv : string * A, f kv.2 = Some x) m).

Section count_uses.
Context {A B : Type} `{EqDecision B}.
Implicit Types (f : A → option B) (m : gmap string A) (x : B).

Lemma count_uses_insert f m k v x :
  m !! k = None →
  count_uses f (<[k := v]> m) x =
    (if decide (f v = Some x) then 1 else 0) + count_uses f m x.
Proof.
  intros Hk. unfold count_uses. rewrite map_filter_insert; simpl.
  case_decide; simpl.
  - rewrite map_size_insert_None; [done|]. apply map_lookup_filter_None. by left.
  - by rewrite delete_id.
Qed.

Lemma count_uses_delete f m k v x :
  m !! k = Some v →
  count_uses f m x =
    (if decide (f v = Some x) then 1 else 0) + count_uses f (delete k m) x.
Proof.
  intros Hk. rewrite <- (count_uses_insert f (delete k m) k v x) by apply lookup_delete_eq.
  rewrite insert_delete_eq, insert_id by done. done.
Qed.

Lemma count_uses_ext f g m x :
  (∀ k v, m !! k = Some v → f v = g v) → count_uses f m x = count_uses g m x.
Proof.
  intros Hfg. unfold count_uses. f_equal. apply map_filter_ext; simpl.
  intros k v Hk. by rewrite (Hfg k v Hk).
Qed.

Lemma count_uses_zero f m x :
  count_uses f m x = 0 → ∀ k v, m !! k = Some v → f v ≠ Some x.
Proof.
  unfold count_uses. intros Hz%map_size_empty_inv k v Hk Hf.
  assert (filter (λ kv : string * A, f kv.2 = Some x) m !! k = Some v) as Hl.
  { by apply map_lookup_filter_Some. }
  rewrite Hz in Hl. set_solver.
Qed.

Lemma count_uses_none f m x :
  (∀ k v, m !! k = Some v → f v ≠ Some x) → count_uses f m x = 0.
Proof.
  intros Hf. unfold count_uses. apply map_size_empty_iff, map_empty. intros k.
  apply map_lookup_filter_None. right; simpl. intros v Hv. by apply (Hf k).
Qed.

Lemma count_uses_empty f x : count_uses f ∅ x = 0.
Proof. unfold count_uses. by rewrite map_filter_empty, map_size_empty. Qed.
End count_uses.

(** Occurrences in a list. *)
Definition occurrences {B : Type} `{EqDecision B} (x : B) (l : list B) : nat :=
  length (filter (x =.) l).

Lemma occurrences_cons {B : Type} `{EqDecision B} (x y : B) l :
  occurrences x (y :: l) = (if decide (x = y) then 1 else 0) + occurrences x l.
Proof.
  unfold occurrences. rewrite filter_cons. by case_decide.
Qed.

Lemma occurrences_zero {B : Type} `{EqDecision B} (x : B) l :
  occurrences x l = 0 → x ∉ l.
Proof.
  unfold occurrences. intros Hz%length_zero_iff_nil Hin.
  assert (x ∈ filter (x =.) l) as Hf by (by apply list_elem_of_filter).
  rewrite Hz in Hf. set_solver.
Qed.

Lemma occurrences_none {B : Type} `{EqDecision B} (x : B) l :
  x ∉ l → occurrences x l = 0.
Proof.
  induction l as [|y l IH]; [done|]. rewrite not_elem_of_cons, occurrences_cons.
  intros [Hne Hx]. by rewrite decide_False, IH.
Qed.

(** ** Strings *)

(** Cut a string at the first occurrence of a character: what [strings.Index] and
    slicing give. *)
Fixpoint cut_at (c : ascii) (s : string) : option (string * string) :=
  match s with
  | EmptyString => None
  | String a s =>
      if decide (a = c) then Some (EmptyString, s)
      else (λ p, (String a p.1, p.2)) <$> cut_at c s
  end.

Lemma cut_at_Some c s a b :
  cut_at c s = Some (a, b) → s = String.append a (String c b) ∧ cut_at c a = None.
Proof.
  revert a. induction s as [|x s IH]; intros a; simpl; [done|].
  case_decide as Hx; [by intros [= <- <-]; subst|].
  intros ([a' b'] & Hcut & [= -> ->])%fmap_Some. simpl.
  destruct (IH a' Hcut) as [-> Ha]. rewrite decide_False by done. by rewrite Ha.
Qed.

Lemma cut_at_append c a b :
  cut_at c a = None → cut_at c (String.append a (String c b)) = Some (a, b).
Proof.
  induction a as [|x a IH]; simpl; [by rewrite decide_True|].
  case_decide; [done|]. intros Hn%fmap_None. by rewrite (IH Hn).
Qed.

(** ** Counting the entries of a map *)

Section count.
Context {K A : Type} `{Countable K}.
Implicit Types (f : A → bool) (m : gmap K A).

Definition count f m : nat := size (filter (λ kv, f kv.2 = true) m).

Lemma count_new f m k a :
  m !! k = None → count f (<[k := a]> m) = count f m + (if f a then 1 else 0).
Proof.
  intros Hk. unfold count.
  assert (Hn : filter (λ kv, f kv.2 = true) m !! k = None)
    by (apply map_lookup_filter_None; by left).
  destruct (f a) eqn:Hf.
  - rewrite map_filter_insert_True by done. rewrite map_size_insert_None by done. lia.
  - rewrite map_filter_insert_False by (simpl; congruence). rewrite delete_id; [lia|done].
Qed.

Lemma count_insert f m k a a' :
  m !! k = Some a →
  Z.of_nat (count f (<[k := a']> m)) =
    (Z.of_nat (count f m) - (if f a then 1 else 0) + (if f a' then 1 else 0))%Z.
Proof.
  intros Hk. rewrite <- (insert_delete_id m k a Hk) at 2. rewrite <- insert_delete_eq.
  rewrite !count_new by apply lookup_delete_eq. destruct (f a), (f a'); lia.
Qed.

Lemma count_bound f m : count f m ≤ size m.
Proof. apply map_size_filter. Qed.

Lemma count_pos f m : 0 < count f m → ∃ k a, m !! k = Some a ∧ f a = true.
Proof.
  intros Hpos. destruct (map_choose (filter (λ kv, f kv.2 = true) m)) as (k & a & Hk).
  - intros Hempty. unfold count in Hpos. rewrite Hempty, map_size_empty in Hpos. lia.
  - apply map_lookup_filter_Some in Hk as [Hk Ha]. eauto.
Qed.

Lemma count_zero f m : (∀ k a, m !! k = Some a → f a = false) → count f m = 0.
Proof.
  intros H0. unfold count. rewrite (proj2 (map_empty_filter _ _)); [done|].
  intros k a Hk. simpl. by rewrite (H0 k a Hk).
Qed.
End count.

(** ** Automation *)

Create HintDb docker discriminated.

(** Case analysis on the scrutinee of an innermost match of the goal. *)
Ltac split_match :=
  match goal with
  | |- context [match ?x with _ => _ end] =>
      lazymatch x with
      | context [match _ with _ => _ end] => fail
      | _ => destruct x eqn:?
      end
  end.

Ltac split_match_in H :=
  match type of H with
  | context [match ?x with _ => _ end] =>
      lazymatch x with
      | context [match _ with _ => _ end] => fail
      | _ => destruct x eqn:?
      end
  end.
