(* ===== verification/GoStrings.v ===== *)
(** * The functions of Go's package strings that the components use

    Strings are sequences of bytes, as in Go. *)

From stdpp Require Export pretty.
From S2P Require Import Prelude.

(** [strip_prefix p s] is the rest of [s] after the prefix [p]. *)
Fixpoint strip_prefix (p s : string) : option string :=
  match p, s with
  | EmptyString, _ => Some s
  | String a p, String b s => if decide (a = b) then strip_prefix p s else None
  | _, _ => None
  end.

Definition HasPrefix (s p : string) : bool :=
  match strip_prefix p s with Some _ => true | None => false end.
Definition TrimPrefix (s p : string) : string := default s (strip_prefix p s).

Lemma strip_prefix_Some p s r : strip_prefix p s = Some r ↔ s = p +:+ r.
Proof.
  revert s. induction p as [|a p IH]; intros s; simpl; [naive_solver|].
  destruct s as [|b s]; [done|]. case_decide as Hab.
  - subst. rewrite IH. split; [by intros ->|by intros [= ->]].
  - split; [done|]. by intros [= <- _].
Qed.

Lemma strip_prefix_app p r : strip_prefix p (p +:+ r) = Some r.
Proof. by apply strip_prefix_Some. Qed.

Lemma HasPrefix_spec s p : HasPrefix s p = true ↔ ∃ r, s = p +:+ r.
Proof.
  unfold HasPrefix. destruct (strip_prefix p s) as [r|] eqn:Hp.
  - apply strip_prefix_Some in Hp as ->. split; eauto.
  - split; [done|]. intros [r ->]. by rewrite strip_prefix_app in Hp.
Qed.

(** A character occurs in a string. *)
Fixpoint contains_char (c : ascii) (s : string) : bool :=
  match s with
  | EmptyString => false
  | String a s => bool_decide (a = c) || contains_char c s
  end.

Lemma cut_at_None c s : cut_at c s = None ↔ contains_char c s = false.
Proof.
  induction s as [|a s IH]; simpl; [done|]. rewrite orb_false_iff, bool_decide_eq_false.
  case_decide; [naive_solver|]. rewrite fmap_None. naive_solver.
Qed.

Lemma contains_char_app c s t :
  contains_char c (s +:+ t) = contains_char c s || contains_char c t.
Proof. induction s as [|a s IH]; simpl; [done|]. by rewrite IH, orb_assoc. Qed.

(** [strings.ContainsAny]. *)
Fixpoint ContainsAny (s chars : string) : bool :=
  match chars with
  | EmptyString => false
  | String c cs => contains_char c s || ContainsAny s cs
  end.

Lemma append_assoc (a b c : string) : (a +:+ b) +:+ c = a +:+ (b +:+ c).
Proof. induction a as [|x a IH]; [done|]. exact (f_equal (String x) IH). Qed.

Lemma append_nil_r (a : string) : a +:+ "" = a.
Proof. induction a as [|x a IH]; [done|]. exact (f_equal (String x) IH). Qed.

Lemma append_cons x (a b : string) : String x a +:+ b = String x (a +:+ b).
Proof. done. Qed.

(** [strings.ToLower] on ASCII text. *)
Definition lower_char (c : ascii) : ascii :=
  let n := nat_of_ascii c in
  if decide (65 ≤ n ≤ 90) then ascii_of_nat (n + 32) else c.
Fixpoint ToLower (s : string) : string :=
  match s with
  | EmptyString => EmptyString
  | String c s => String (lower_char c) (ToLower s)
  end.

Lemma ToLower_app s t : ToLower (s +:+ t) = ToLower s +:+ ToLower t.
Proof. induction s as [|a s IH]; simpl; [done|]. by rewrite IH. Qed.

Lemma ToLower_app_fixed s t :
  ToLower (s +:+ t) = s +:+ t → ToLower s = s ∧ ToLower t = t.
Proof.
  rewrite ToLower_app. revert t. induction s as [|a s IH]; intros t; simpl; [by auto|].
  intros [= Ha Hst]. destruct (IH t Hst) as [Hs Ht]. split; congruence.
Qed.

(** Every character of a string satisfies [f]. *)
Fixpoint forall_chars (f : ascii → bool) (s : string) : bool :=
  match s with
  | EmptyString => true
  | String c s => f c && forall_chars f s
  end.

(** [strings.Split] at a character. *)
Fixpoint Split (c : ascii) (s : string) : list string :=
  match s with
  | EmptyString => [EmptyString]
  | String a s =>
      match Split c s with
      | [] => []
      | w :: ws => if decide (a = c) then EmptyString :: w :: ws else String a w :: ws
      end
  end.

Lemma Split_non_empty c s : Split c s ≠ [].
Proof. induction s as [|a s IH]; simpl; [done|]. destruct (Split c s); [done|]. by case_decide. Qed.

(** The pieces, joined by the separator, are the string. *)
Fixpoint Join (ws : list string) (sep : string) : string :=
  match ws with
  | [] => EmptyString
  | [w] => w
  | w :: ws => w +:+ sep +:+ Join ws sep
  end.

Lemma Join_cons w x ws sep : Join (w :: x :: ws) sep = w +:+ sep +:+ Join (x :: ws) sep.
Proof. done. Qed.

Lemma Join_Split c s : Join (Split c s) (String c "") = s.
Proof.
  induction s as [|a s IH]; [done|]. cbn [Split].
  destruct (Split c s) as [|w ws] eqn:Hs; [by destruct (Split_non_empty c s)|].
  case_decide as Ha; [by rewrite Ha, Join_cons, IH|].
  destruct ws as [|x ws]; [exact (f_equal (String a) IH)|].
  rewrite Join_cons. rewrite Join_cons in IH. exact (f_equal (String a) IH).
Qed.

(** Spaces, and [strings.TrimSpace], on ASCII text. *)
Definition is_space (c : ascii) : bool :=
  let n := nat_of_ascii c in bool_decide (n = 32) || bool_decide (9 ≤ n ≤ 13).
Fixpoint TrimLeft (f : ascii → bool) (s : string) : string :=
  match s with
  | EmptyString => EmptyString
  | String c s' => if f c then TrimLeft f s' else s
  end.
Fixpoint TrimRight (f : ascii → bool) (s : string) : string :=
  match s with
  | EmptyString => EmptyString
  | String c s =>
      match TrimRight f s with
      | EmptyString => if f c then EmptyString else String c EmptyString
      | t => String c t
      end
  end.
Definition TrimSpace (s : string) : string := TrimRight is_space (TrimLeft is_space s).

(** [strconv.Atoi]: an optional sign, decimal digits, and the range of an int. *)
Definition digit_value (c : ascii) : option Z :=
  let n := nat_of_ascii c in
  if decide (48 ≤ n ≤ 57) then Some (Z.of_nat n - 48)%Z else None.
Fixpoint parse_digits (acc : Z) (s : string) : option Z :=
  match s with
  | EmptyString => Some acc
  | String c s => d ← digit_value c; parse_digits (acc * 10 + d)%Z s
  end.
Definition in_int64 (z : Z) : option Z :=
  if decide (-2 ^ 63 ≤ z < 2 ^ 63)%Z then Some z else None.
Definition Atoi (s : string) : option Z :=
  match s with
  | EmptyString => None
  | String "-" EmptyString | String "+" EmptyString => None
  | String "-" ds => z ← parse_digits 0 ds; in_int64 (- z)%Z
  | String "+" ds => z ← parse_digits 0 ds; in_int64 z
  | ds => z ← parse_digits 0 ds; in_int64 z
  end.

(** [fmt.Sprintf("%d", z)]. *)
Definition Sprintf_d (z : Z) : string := pretty z.

Lemma digit_value_pretty x :
  (x < 10)%N → digit_value (pretty_N_char x) = Some (Z.of_N x).
Proof.
  intros Hx.
  assert (x = 0 ∨ x = 1 ∨ x = 2 ∨ x = 3 ∨ x = 4 ∨ x = 5 ∨ x = 6 ∨ x = 7 ∨ x = 8 ∨ x = 9)%N
    by lia.
  naive_solver.
Qed.

Lemma parse_digits_pretty x s :
  parse_digits 0 (pretty_N_go x s) = parse_digits (Z.of_N x) s.
Proof.
  revert s. induction (N.lt_wf_0 x) as [x _ IH]; intros s.
  destruct (decide (x = 0)%N) as [->|Hx]; [done|].
  rewrite pretty_N_go_step by lia. rewrite IH by (apply N.div_lt; lia).
  cbn [parse_digits]. rewrite digit_value_pretty by (apply N.mod_lt; done). simpl.
  f_equal. pose proof (N.div_mod x 10 ltac:(done)). lia.
Qed.

Lemma pretty_pos_non_empty x s : (0 < x)%N → pretty_N_go x s ≠ "".
Proof.
  revert s. induction (N.lt_wf_0 x) as [x _ IH]; intros s Hx.
  rewrite pretty_N_go_step by done. destruct (decide (x / 10 = 0)%N) as [->|Hd]; [done|].
  apply IH; [apply N.div_lt; lia|by apply N.neq_0_lt_0].
Qed.

Lemma Atoi_unsigned s z : parse_digits 0 s = Some z → s ≠ "" → Atoi s = in_int64 z.
Proof.
  destruct s as [|c s]; [done|]. intros Hs _.
  assert (c ≠ "-"%char ∧ c ≠ "+"%char) as [Hm Hp] by (split; intros ->; done).
  assert (Ha : Atoi (String c s) = parse_digits 0 (String c s) ≫= in_int64).
  { destruct c as [[] [] [] [] [] [] [] []]; first [done | by destruct s]. }
  by rewrite Ha, Hs.
Qed.

Lemma Atoi_Sprintf z : (-2 ^ 63 ≤ z < 2 ^ 63)%Z → Atoi (Sprintf_d z) = Some z.
Proof.
  intros Hz. assert (Hi : in_int64 z = Some z) by (unfold in_int64; by rewrite decide_True).
  assert (Hd : ∀ p, parse_digits 0 (pretty p) = Some (Z.pos p)).
  { intros p. exact (parse_digits_pretty (N.pos p) ""). }
  destruct z as [|p|p]; [done| |].
  - rewrite <- Hi. apply Atoi_unsigned; [apply Hd|]. by apply pretty_pos_non_empty.
  - unfold Sprintf_d, pretty, pretty_Z. rewrite <- Hi.
    assert (He : pretty p ≠ "") by by apply pretty_pos_non_empty.
    specialize (Hd p). destruct (pretty p) as [|c s]; [done|].
    transitivity (parse_digits 0 (String c s) ≫= λ z, in_int64 (- z)); [done|]. by rewrite Hd.
Qed.

(** A string without spaces is trimmed already. *)
Lemma TrimSpace_id s : forall_chars (λ c, negb (is_space c)) s = true → TrimSpace s = s.
Proof.
  intros Hs. unfold TrimSpace.
  assert (Hl : TrimLeft is_space s = s).
  { destruct s as [|c s]; [done|]. simpl in *. apply andb_true_iff in Hs as [Hc _].
    by destruct (is_space c). }
  rewrite Hl. clear Hl. induction s as [|c s IH]; [done|]. simpl in *.
  apply andb_true_iff in Hs as [Hc Hs]. rewrite IH by done. destruct s; [|done].
  by destruct (is_space c).
Qed.
