(* ===== verification/GoPath.v ===== *)
(** * Go's package path/filepath on Unix

    [filepath.Clean] is modelled by what its documentation says it computes: the
    components of the path are put on a stack; an empty component and "." are
    dropped, ".." takes the last component off.  At the root ".." is dropped, in a
    relative path it is kept. *)

From S2P Require Import Prelude GoStrings.

Definition slash : ascii := "/".
Definition IsAbs (p : string) : bool := HasPrefix p "/".

(** The stack is kept with its top first. *)
Definition push (rooted : bool) (st : list string) (c : string) : list string :=
  if decide (c = "" ∨ c = ".") then st
  else if decide (c = "..") then
    match st with
    | [] => if rooted then [] else [".."]
    | top :: st' => if decide (top = "..") then ".." :: st else st'
    end
  else c :: st.

Definition walk (rooted : bool) (st : list string) (p : string) : list string :=
  foldl (push rooted) st (Split slash p).

Definition Clean (p : string) : string :=
  if IsAbs p then "/" +:+ Join (rev (walk true [] p)) "/"
  else
    match walk false [] p with
    | [] => "."
    | st => Join (rev st) "/"
    end.

(** ** Joining and taking apart *)

Definition HasSuffix_slash (p : string) : bool := bool_decide (List.last (Split slash p) "" = "" ∧ p ≠ "").

(** [filepath.Join] of two elements. *)
Definition filepath_Join (a b : string) : string :=
  if decide (a = "") then if decide (b = "") then "" else Clean b
  else Clean (a +:+ "/" +:+ b).

(** [filepath.Split]: what is up to and with the last separator, and the rest. *)
Definition filepath_Split (p : string) : string * string :=
  match Split slash p with
  | [w] => ("", w)
  | ws => (Join (removelast ws) "/" +:+ "/", List.last ws "")
  end.
Definition filepath_Dir (p : string) : string := Clean (filepath_Split p).1.

Definition filepath_Base (p : string) : string :=
  if decide (p = "") then "."
  else
    let p := TrimRight (λ c, bool_decide (c = slash)) p in
    if decide (p = "") then "/" else (filepath_Split p).2.

(** [filepath.Rel]: the elements that the two paths share are dropped, the others of
    the base become "..". *)
Definition elements (p : string) : list string :=
  if decide (p = ".") then [] else filter (λ c, c ≠ "") (Split slash p).
Fixpoint drop_shared (b t : list string) : list string * list string :=
  match b, t with
  | x :: b', y :: t' => if decide (x = y) then drop_shared b' t' else (b, t)
  | _, _ => (b, t)
  end.
Definition filepath_Rel (basepath targpath : string) : outcome string string :=
  let base := Clean basepath in
  let targ := Clean targpath in
  if decide (base = targ) then Ok "."
  else if negb (eqb (IsAbs base) (IsAbs targ)) then Err "Rel: can't make relative"
  else
    let '(b, t) := drop_shared (elements base) (elements targ) in
    if decide (head b = Some "..") then Err "Rel: can't make relative"
    else Ok (Join (((λ _, "..") <$> b) ++ t) "/").

(** ** Paths below the root *)

Lemma Split_app_sep c s t : Split c (s +:+ String c t) = Split c s ++ Split c t.
Proof.
  induction s as [|a s IH].
  - change ("" +:+ String c t) with (String c t). cbn [Split].
    destruct (Split c t) eqn:Ht; [by destruct (Split_non_empty c t)|].
    by rewrite decide_True.
  - change (String a s +:+ String c t) with (String a (s +:+ String c t)). cbn [Split].
    rewrite IH. destruct (Split c s) as [|w ws] eqn:Hs; [by destruct (Split_non_empty c s)|].
    cbn [app]. by case_decide.
Qed.

Lemma Split_no_sep c s : contains_char c s = false → Split c s = [s].
Proof.
  induction s as [|a s IH]; [done|]. simpl. intros [Ha Hs]%orb_false_iff.
  rewrite bool_decide_eq_false in Ha. rewrite IH by done. by rewrite decide_False.
Qed.

Lemma Split_pieces c s w : w ∈ Split c s → contains_char c w = false.
Proof.
  revert w. induction s as [|a s IH]; intros w; cbn [Split].
  - by intros ->%list_elem_of_singleton.
  - destruct (Split c s) as [|x ws]; [by intros ?%not_elem_of_nil|].
    case_decide as Ha.
    + intros [->|Hin]%elem_of_cons; [done|by apply IH].
    + intros [->|Hin]%elem_of_cons; [|by apply IH; right].
      simpl. rewrite bool_decide_false by done. apply IH. left.
Qed.

Lemma Split_Join c ws :
  ws ≠ [] → Forall (λ w, contains_char c w = false) ws →
  Split c (Join ws (String c "")) = ws.
Proof.
  induction ws as [|w ws IH]; [done|]. intros _ [Hw Hws]%Forall_cons.
  destruct ws as [|x ws]; [by apply Split_no_sep|].
  rewrite Join_cons. change (String c "" +:+ Join (x :: ws) (String c ""))
    with (String c (Join (x :: ws) (String c ""))).
  by rewrite Split_app_sep, Split_no_sep, IH.
Qed.

(** A component as it stands on the stack of a rooted path. *)
Definition normal (c : string) : Prop :=
  c ≠ "" ∧ c ≠ "." ∧ c ≠ ".." ∧ contains_char slash c = false.

Lemma push_normal st c :
  Forall normal st → contains_char slash c = false → Forall normal (push true st c).
Proof.
  intros Hst Hc. unfold push. case_decide as H1; [done|]. case_decide as H2.
  - destruct st as [|top st]; [done|]. apply Forall_cons in Hst as [Ht Hst].
    case_decide as H3; [|done]. destruct Ht as (_ & _ & Ht & _). done.
  - constructor; [|done]. split_and!; try done; naive_solver.
Qed.

Lemma walk_normal st p : Forall normal st → Forall normal (walk true st p).
Proof.
  intros Hst. unfold walk.
  assert (Hps : Forall (λ w, contains_char slash w = false) (Split slash p)).
  { apply Forall_forall. intros w. apply Split_pieces. }
  revert st Hst. induction Hps as [|w ws Hw Hws IH]; intros st Hst; [done|].
  apply IH. by apply push_normal.
Qed.

Lemma walk_sep rooted st p q :
  walk rooted st (p +:+ String slash q) = walk rooted (walk rooted st p) q.
Proof. unfold walk. by rewrite Split_app_sep, foldl_app. Qed.

(** The path of a stack. *)
Definition abs_path (st : list string) : string := "/" +:+ Join (rev st) "/".

Lemma Clean_abs p : Clean (String slash p) = abs_path (walk true [] p).
Proof.
  unfold Clean. change (IsAbs (String slash p)) with true. cbn iota. unfold abs_path.
  change (String slash p) with ("" +:+ String slash p). by rewrite walk_sep.
Qed.

Lemma foldl_push_normal st ws : Forall normal ws → foldl (push true) st ws = rev ws ++ st.
Proof.
  revert st. induction ws as [|w ws IH]; intros st Hws; [done|].
  apply Forall_cons in Hws as [(H1 & H2 & H3 & _) Hws]. cbn [foldl rev].
  rewrite IH by done. unfold push at 1. rewrite decide_False by naive_solver.
  rewrite decide_False by done. by rewrite <- app_assoc.
Qed.

Lemma walk_abs_path st st' : Forall normal st → walk true st' (abs_path st) = st ++ st'.
Proof.
  intros Hst. unfold abs_path.
  change ("/" +:+ Join (rev st) "/") with ("" +:+ String slash (Join (rev st) "/")).
  rewrite walk_sep. change (walk true st' "") with st'.
  destruct (decide (st = [])) as [->|Hne]; [done|]. unfold walk.
  rewrite (Split_Join slash).
  - rewrite foldl_push_normal by by apply Forall_rev. by rewrite rev_involutive.
  - intros Hr. apply Hne. rewrite <- (rev_involutive st). by rewrite Hr.
  - apply Forall_rev. eapply Forall_impl; [done|]. by intros x (_ & _ & _ & Hx).
Qed.

Lemma abs_path_inj st st' : Forall normal st → Forall normal st' →
  abs_path st = abs_path st' → st = st'.
Proof.
  intros H H' Heq. apply (f_equal (walk true [])) in Heq.
  rewrite !walk_abs_path, !app_nil_r in Heq by done. done.
Qed.

Lemma Clean_abs_path st : Forall normal st → Clean (abs_path st) = abs_path st.
Proof.
  intros Hst. unfold abs_path at 1. change ("/" +:+ Join (rev st) "/") with
    (String slash (Join (rev st) "/")). rewrite Clean_abs. f_equal.
  pose proof (walk_abs_path st [] Hst) as Hw. unfold abs_path in Hw.
  change ("/" +:+ Join (rev st) "/") with ("" +:+ String slash (Join (rev st) "/")) in Hw.
  by rewrite walk_sep, app_nil_r in Hw.
Qed.
