(* ===== verification/OS.v ===== *)
(** * The file system that the stores use

    A path is the list of its components.  The disk is a finite map from the paths
    of files to their contents; directories are implicit.  [d_faults] scripts the
    failures of the operating system: each call takes the next entry, and fails
    with its error if there is one; after the end of the script no call fails.  A
    failing [os.RemoveAll] may have removed any part of what it was asked to. *)

From S2P Require Import Prelude.

Abbreviation path := (list string).

(** ** The operating system *)

Record fault := mkFault { fault_err : string; fault_removed : gset (list string) }.
Record disk := mkDisk { d_files : gmap (list string) string; d_faults : list (option fault) }.

Definition next_fault (d : disk) : disk * option fault :=
  match d_faults d with
  | [] => (d, None)
  | f :: fs => (mkDisk (d_files d) fs, f)
  end.

Definition under (p q : path) : Prop := p `prefix_of` q.
#[global] Instance under_dec p q : Decision (under p q).
Proof. unfold under. apply _. Defined.

Definition with_files (d : disk) (m : gmap (list string) string) : disk :=
  mkDisk m (d_faults d).

Definition os_ReadFile (d : disk) (p : path) : disk * outcome string string :=
  match next_fault d with
  | (d, Some f) => (d, Err (fault_err f))
  | (d, None) => (d, from_option Ok (Err "no such file or directory") (d_files d !! p))
  end.

Definition os_MkdirAll (d : disk) (p : path) : disk * outcome string unit :=
  match next_fault d with
  | (d, Some f) => (d, Err (fault_err f))
  | (d, None) => (d, Ok tt)
  end.

(** [ioutils.AtomicWriteFile]: all or nothing. *)
Definition AtomicWriteFile (d : disk) (p : path) (data : string) : disk * outcome string unit :=
  match next_fault d with
  | (d, Some f) => (d, Err (fault_err f))
  | (d, None) => (with_files d (<[p := data]> (d_files d)), Ok tt)
  end.

Definition os_Remove (d : disk) (p : path) : disk * outcome string unit :=
  match next_fault d with
  | (d, Some f) => (d, Err (fault_err f))
  | (d, None) =>
      match d_files d !! p with
      | None => (d, Err "no such file or directory")
      | Some _ => (with_files d (delete p (d_files d)), Ok tt)
      end
  end.

Definition os_RemoveAll (d : disk) (p : path) : disk * outcome string unit :=
  match next_fault d with
  | (d, Some f) =>
      (with_files d
         (filter (λ kv, ¬ (under p kv.1 ∧ kv.1 ∈ fault_removed f)) (d_files d)),
       Err (fault_err f))
  | (d, None) => (with_files d (filter (λ kv, ¬ under p kv.1) (d_files d)), Ok tt)
  end.

(** The names of the files of a directory, in order. *)
Definition dir_names (m : gmap (list string) string) (p : path) : list string :=
  merge_sort String.le
    (elements (set_omap (λ q : list string,
       if decide (length q = S (length p) ∧ under p q) then last q else None)
       (dom m) : gset string)).

Definition ioutil_ReadDir (d : disk) (p : path) : disk * outcome string (list string) :=
  match next_fault d with
  | (d, Some f) => (d, Err (fault_err f))
  | (d, None) => (d, Ok (dir_names (d_files d) p))
  end.

Lemma dir_names_NoDup m p : NoDup (dir_names m p).
Proof.
  unfold dir_names. rewrite merge_sort_Permutation. apply NoDup_elements.
Qed.

Lemma elem_of_dir_names m p name :
  name ∈ dir_names m p ↔ is_Some (m !! (p ++ [name])).
Proof.
  unfold dir_names. rewrite merge_sort_Permutation, elem_of_elements, elem_of_set_omap.
  rewrite <- elem_of_dom. split.
  - intros (q & Hq & Hlast). case_decide as Hl; [|done]. destruct Hl as [Hlen [r ->]].
    rewrite length_app in Hlen. destruct r as [|x [|]]; simpl in Hlen; [lia| |lia].
    rewrite last_snoc in Hlast. by simplify_eq.
  - intros Hq. exists (p ++ [name]). split; [done|]. rewrite last_snoc, decide_True; [done|].
    split; [rewrite length_app; simpl; lia|by exists [name]].
Qed.
