(* ===== verification/Registrar.v ===== *)
(** * pkg/registrar: the registry of container names

    [Registrar] (pkg/registrar/registrar.go) keeps two maps: [names], from a
    name to the key it is reserved for, and [idx], from a key to the list of its
    names.  The operations keep the two maps inverse to each other. *)

From S2P Require Import Prelude.

(** ** The data and the operations *)

Record Registrar := mkRegistrar {
  reg_idx : gmap string (list string);
  reg_names : gmap string string
}.

Inductive registrar_error := ErrNameReserved | ErrNameNotReserved | ErrNoSuchKey.

Definition NewRegistrar : Registrar := mkRegistrar ∅ ∅.

(** [r.idx[key]] on a missing key is Go's nil slice. *)
Definition reg_slice (r : Registrar) (key : string) : list string :=
  default [] (reg_idx r !! key).

Definition registrar_Reserve (r : Registrar) (name key : string) :
    Registrar * outcome registrar_error unit :=
  match reg_names r !! name with
  | Some k =>
      if decide (k ≠ key) then (r, Err ErrNameReserved) else (r, Ok tt)
  | None =>
      (mkRegistrar (<[key := reg_slice r key ++ [name]]> (reg_idx r))
                   (<[name := key]> (reg_names r)), Ok tt)
  end.

(** The search loop of [Release]: the first entry equal to [name] is cut out. *)
Fixpoint remove_first (name : string) (l : list string) : list string :=
  match l with
  | [] => []
  | n :: l => if decide (n ≠ name) then n :: remove_first name l else l
  end.

Definition registrar_Release (r : Registrar) (name : string) : Registrar :=
  match reg_names r !! name with
  | None => r
  | Some key =>
      let l := remove_first name (reg_slice r key) in
      let idx :=
        if decide (name ∈ reg_slice r key) then <[key := l]> (reg_idx r)
        else reg_idx r in
      let names := delete name (reg_names r) in
      if decide (length (default [] (idx !! key)) = 0)
      then mkRegistrar (delete key idx) names
      else mkRegistrar idx names
  end.

Definition registrar_Delete (r : Registrar) (key : string) : Registrar :=
  mkRegistrar (delete key (reg_idx r))
    (foldl (λ names name, delete name names) (reg_names r) (reg_slice r key)).

Definition registrar_GetNames (r : Registrar) (key : string) :
    outcome registrar_error (list string) :=
  match reg_idx r !! key with
  | Some names => Ok names
  | None => Err ErrNoSuchKey
  end.

Definition registrar_Get (r : Registrar) (name : string) :
    outcome registrar_error string :=
  match reg_names r !! name with
  | Some key => Ok key
  | None => Err ErrNameNotReserved
  end.

Definition registrar_GetAll (r : Registrar) : gmap string (list string) :=
  map_fold (λ id names out, <[id := names]> out) ∅ (reg_idx r).

(** ** The invariant: the two maps are inverse to each other *)

Record registrar_wf (r : Registrar) : Prop := {
  reg_wf_inverse name key :
    reg_names r !! name = Some key ↔ name ∈ reg_slice r key;
  reg_wf_nodup key : NoDup (reg_slice r key);
  reg_wf_nonempty key : reg_idx r !! key ≠ Some []
}.

(** ** Lemmas on the list and map helpers *)

Lemma elem_of_remove_first n name l :
  NoDup l → n ∈ remove_first name l ↔ n ∈ l ∧ n ≠ name.
Proof.
  induction l as [|x l IH]; simpl; [set_solver|].
  rewrite NoDup_cons. intros [Hx Hl]. case_decide as Hn; set_solver.
Qed.

Lemma NoDup_remove_first name l : NoDup l → NoDup (remove_first name l).
Proof.
  induction l as [|x l IH]; simpl; [done|].
  rewrite !NoDup_cons. intros [Hx Hl]. case_decide; [|done].
  rewrite NoDup_cons, elem_of_remove_first by done. naive_solver.
Qed.

Lemma lookup_delete_all {A} (l : list string) (m : gmap string A) i :
  foldl (λ m k, delete k m) m l !! i = if decide (i ∈ l) then None else m !! i.
Proof.
  revert m; induction l as [|x l IH]; intros m; cbn [foldl].
  - by rewrite decide_False by set_solver.
  - rewrite IH. destruct (decide (i ∈ l)).
    + by rewrite decide_True by set_solver.
    + destruct (decide (i = x)) as [->|].
      * rewrite lookup_delete_eq. by rewrite decide_True by set_solver.
      * rewrite lookup_delete_ne by done. by rewrite decide_False by set_solver.
Qed.

(** The slices after each update, by key. *)
Lemma reg_slice_insert key l idx names key' :
  reg_slice (mkRegistrar (<[key := l]> idx) names) key' =
    if decide (key = key') then l else default [] (idx !! key').
Proof. unfold reg_slice; simpl. rewrite lookup_insert. by case_decide. Qed.

Lemma reg_slice_delete key idx names key' :
  reg_slice (mkRegistrar (delete key idx) names) key' =
    if decide (key = key') then [] else default [] (idx !! key').
Proof. unfold reg_slice; simpl. rewrite lookup_delete. by case_decide. Qed.

(** What [Release] of a reserved name does to the slices of a consistent
    registry. *)
Lemma registrar_Release_slices r name key key' :
  registrar_wf r → reg_names r !! name = Some key →
  reg_slice (registrar_Release r name) key' =
    if decide (key = key') then remove_first name (reg_slice r key)
    else reg_slice r key'.
Proof.
  intros Hwf Hn. pose proof (proj1 (reg_wf_inverse r Hwf name key) Hn) as Hin.
  unfold registrar_Release. rewrite Hn, (decide_True (P := name ∈ reg_slice r key)) by done.
  rewrite lookup_insert_eq; simpl. case_decide as Hlen.
  - apply length_zero_iff_nil in Hlen. rewrite reg_slice_delete.
    case_decide; [by rewrite Hlen|]. by rewrite lookup_insert_ne.
  - by rewrite reg_slice_insert.
Qed.

Lemma registrar_Release_names r name :
  reg_names (registrar_Release r name) = delete name (reg_names r).
Proof.
  unfold registrar_Release. destruct (reg_names r !! name) eqn:Hn.
  - by case_decide.
  - by rewrite delete_id.
Qed.

(** ** Preservation *)

Lemma NewRegistrar_wf : registrar_wf NewRegistrar.
Proof. split; unfold reg_slice; simpl; intros; rewrite ?lookup_empty; [set_solver|constructor|done]. Qed.

Lemma registrar_Reserve_preserves r name key :
  registrar_wf r → registrar_wf (registrar_Reserve r name key).1.
Proof.
  intros Hwf. unfold registrar_Reserve.
  destruct (reg_names r !! name) as [k|] eqn:Hn; [by case_decide|simpl].
  assert (∀ k, name ∉ reg_slice r k) as Hfresh.
  { intros k Hk%(reg_wf_inverse r Hwf). congruence. }
  split.
  - intros n k. rewrite reg_slice_insert; simpl. rewrite lookup_insert.
    pose proof (reg_wf_inverse r Hwf n k) as Hinv.
    specialize (Hfresh k). unfold reg_slice in *.
    repeat case_decide; subst; set_solver.
  - intros k. rewrite reg_slice_insert. case_decide; [|apply (reg_wf_nodup r Hwf)].
    apply NoDup_app. repeat split; [apply (reg_wf_nodup r Hwf)|set_solver|].
    apply NoDup_singleton.
  - intros k; simpl. rewrite lookup_insert. case_decide; [|apply (reg_wf_nonempty r Hwf)].
    intros [=Hnil]. by apply app_eq_nil in Hnil as [_ ?].
Qed.

Lemma registrar_Release_preserves r name :
  registrar_wf r → registrar_wf (registrar_Release r name).
Proof.
  intros Hwf. destruct (reg_names r !! name) as [key|] eqn:Hn.
  2: { unfold registrar_Release. by rewrite Hn. }
  split.
  - intros n k. rewrite registrar_Release_names.
    rewrite (registrar_Release_slices r name key k Hwf Hn).
    rewrite lookup_delete. pose proof (reg_wf_inverse r Hwf n k) as Hinv.
    pose proof (proj1 (reg_wf_inverse r Hwf name k)) as Hk.
    destruct (decide (key = k)) as [->|].
    + rewrite elem_of_remove_first by apply (reg_wf_nodup r Hwf).
      case_decide; naive_solver.
    + rewrite <- Hinv. case_decide; naive_solver congruence.
  - intros k. rewrite (registrar_Release_slices r name key k Hwf Hn).
    case_decide; [apply NoDup_remove_first|]; apply (reg_wf_nodup r Hwf).
  - intros k. unfold registrar_Release. rewrite Hn.
    pose proof (proj1 (reg_wf_inverse r Hwf name key) Hn) as Hin.
    rewrite (decide_True (P := name ∈ reg_slice r key)) by done.
    rewrite lookup_insert_eq; simpl.
    pose proof (reg_wf_nonempty r Hwf k) as Hk.
    case_decide as Hlen; simpl.
    + rewrite lookup_delete. case_decide; [done|]. by rewrite lookup_insert_ne.
    + rewrite lookup_insert. case_decide; [|done]. intros [= Hnil].
      by rewrite Hnil in Hlen.
Qed.

Lemma registrar_Delete_preserves r key :
  registrar_wf r → registrar_wf (registrar_Delete r key).
Proof.
  intros Hwf. unfold registrar_Delete. split.
  - intros n k. rewrite reg_slice_delete; simpl. rewrite lookup_delete_all.
    pose proof (reg_wf_inverse r Hwf n k) as Hk.
    pose proof (reg_wf_inverse r Hwf n key) as Hkey.
    fold (reg_slice r k).
    destruct (decide (key = k)) as [->|]; case_decide as Hn.
    + set_solver.
    + split; [by intros ?%Hk|set_solver].
    + apply Hkey in Hn. split; [done|]. intros Hin%Hk. congruence.
    + done.
  - intros k. rewrite reg_slice_delete. case_decide; [constructor|].
    apply (reg_wf_nodup r Hwf).
  - intros k; simpl. rewrite lookup_delete. case_decide; [done|].
    apply (reg_wf_nonempty r Hwf).
Qed.

#[export] Hint Resolve NewRegistrar_wf registrar_Reserve_preserves
  registrar_Release_preserves registrar_Delete_preserves : docker.

(** ** The abstract specification: one finite map from names to keys *)

Inductive registrar_op :=
| OpReserve (name key : string)
| OpRelease (name : string)
| OpDelete (key : string)
| OpGetNames (key : string)
| OpGet (name : string)
| OpGetAll.

Inductive registrar_res :=
| ResError (o : outcome registrar_error unit)
| ResNames (o : outcome registrar_error (list string))
| ResKey (o : outcome registrar_error string)
| ResAll (all : gmap string (list string)).

(** A call of the implementation. *)
Definition registrar_call (r : Registrar) (op : registrar_op) :
    Registrar * registrar_res :=
  match op with
  | OpReserve name key =>
      let '(r, o) := registrar_Reserve r name key in (r, ResError o)
  | OpRelease name => (registrar_Release r name, ResError (Ok tt))
  | OpDelete key => (registrar_Delete r key, ResError (Ok tt))
  | OpGetNames key => (r, ResNames (registrar_GetNames r key))
  | OpGet name => (r, ResKey (registrar_Get r name))
  | OpGetAll => (r, ResAll (registrar_GetAll r))
  end.

Fixpoint registrar_run (r : Registrar) (ops : list registrar_op) :
    list registrar_res :=
  match ops with
  | [] => []
  | op :: ops => let '(r, res) := registrar_call r op in res :: registrar_run r ops
  end.

(** [names_of m key l]: [l] lists, without repetition, the names that [m]
    reserves for [key]. *)
Definition names_of (m : gmap string string) (key : string) (l : list string) : Prop :=
  NoDup l ∧ ∀ n, n ∈ l ↔ m !! n = Some key.

(** What each call may do to, and observe of, the abstract registry. *)
Inductive registrar_spec (m : gmap string string) :
    registrar_op → registrar_res → gmap string string → Prop :=
| SpecReserveNew name key :
    m !! name = None →
    registrar_spec m (OpReserve name key) (ResError (Ok tt)) (<[name := key]> m)
| SpecReserveSame name key :
    m !! name = Some key →
    registrar_spec m (OpReserve name key) (ResError (Ok tt)) m
| SpecReserveTaken name key k :
    m !! name = Some k → k ≠ key →
    registrar_spec m (OpReserve name key) (ResError (Err ErrNameReserved)) m
| SpecRelease name :
    registrar_spec m (OpRelease name) (ResError (Ok tt)) (delete name m)
| SpecDelete key :
    registrar_spec m (OpDelete key) (ResError (Ok tt)) (filter (λ nk, nk.2 ≠ key) m)
| SpecGetNames key l :
    l ≠ [] → names_of m key l →
    registrar_spec m (OpGetNames key) (ResNames (Ok l)) m
| SpecGetNamesNone key :
    names_of m key [] →
    registrar_spec m (OpGetNames key) (ResNames (Err ErrNoSuchKey)) m
| SpecGet name key :
    m !! name = Some key →
    registrar_spec m (OpGet name) (ResKey (Ok key)) m
| SpecGetNone name :
    m !! name = None →
    registrar_spec m (OpGet name) (ResKey (Err ErrNameNotReserved)) m
| SpecGetAll all :
    (∀ key l, all !! key = Some l → l ≠ []) →
    (∀ key, names_of m key (default [] (all !! key))) →
    registrar_spec m OpGetAll (ResAll all) m.

Inductive registrar_spec_run : gmap string string → list registrar_op →
    list registrar_res → Prop :=
| SpecRunNil m : registrar_spec_run m [] []
| SpecRunCons m m' op ops res rs :
    registrar_spec m op res m' → registrar_spec_run m' ops rs →
    registrar_spec_run m (op :: ops) (res :: rs).

(** ** The refinement *)

Lemma reg_slice_names_of r key :
  registrar_wf r → names_of (reg_names r) key (reg_slice r key).
Proof.
  intros Hwf. split; [apply (reg_wf_nodup r Hwf)|].
  intros n. by rewrite (reg_wf_inverse r Hwf).
Qed.

Lemma registrar_GetAll_idx r : registrar_GetAll r = reg_idx r.
Proof.
  unfold registrar_GetAll. apply (map_fold_weak_ind (λ out m, out = m)); [done|].
  by intros i x m out Hi ->.
Qed.

Lemma registrar_Delete_names r key :
  registrar_wf r →
  reg_names (registrar_Delete r key) = filter (λ nk, nk.2 ≠ key) (reg_names r).
Proof.
  intros Hwf. apply map_eq. intros n. simpl. rewrite lookup_delete_all.
  pose proof (reg_wf_inverse r Hwf n key) as Hinv. symmetry.
  case_decide as Hin.
  - apply Hinv in Hin. apply map_lookup_filter_None. right. simpl.
    intros k. rewrite Hin. naive_solver.
  - destruct (reg_names r !! n) as [k|] eqn:Hk.
    + apply map_lookup_filter_Some. split; [done|]. simpl. naive_solver.
    + apply map_lookup_filter_None. by left.
Qed.

Lemma registrar_call_refines r op :
  registrar_wf r →
  registrar_wf (registrar_call r op).1 ∧
  registrar_spec (reg_names r) op (registrar_call r op).2
    (reg_names (registrar_call r op).1).
Proof.
  intros Hwf. destruct op as [name key|name|key|key|name|]; simpl.
  - pose proof (registrar_Reserve_preserves r name key Hwf) as Hp.
    unfold registrar_Reserve in *. destruct (reg_names r !! name) as [k|] eqn:Hn.
    + destruct (decide (k ≠ key)) as [|Heq]; simpl; split; auto.
      * by econstructor.
      * apply dec_stable in Heq as ->. by constructor.
    + simpl in *; split; [done|]. by constructor.
  - split; [auto with docker|]. rewrite registrar_Release_names. constructor.
  - split; [auto with docker|].
    change (foldl _ _ _) with (reg_names (registrar_Delete r key)).
    rewrite (registrar_Delete_names r key Hwf). constructor.
  - split; [done|]. unfold registrar_GetNames.
    pose proof (reg_slice_names_of r key Hwf) as Hnames. unfold reg_slice in Hnames.
    destruct (reg_idx r !! key) as [l|] eqn:Hl; constructor; [|done..].
    intros ->. by apply (reg_wf_nonempty r Hwf key).
  - split; [done|]. unfold registrar_Get.
    destruct (reg_names r !! name) eqn:?; by constructor.
  - split; [done|]. rewrite registrar_GetAll_idx. constructor.
    + intros key l Hl ->. by apply (reg_wf_nonempty r Hwf key).
    + intros key. by apply reg_slice_names_of.
Qed.

Lemma registrar_run_refines r ops :
  registrar_wf r → registrar_spec_run (reg_names r) ops (registrar_run r ops).
Proof.
  revert r; induction ops as [|op ops IH]; intros r Hwf; simpl; [constructor|].
  destruct (registrar_call_refines r op Hwf) as [Hwf' Hspec].
  destruct (registrar_call r op) as [r' res]; simpl in *.
  econstructor; eauto.
Qed.

(** C15: The registrar, started empty, behaves on every sequence of calls as a
    single finite map from names to keys: a name belongs to one key at a time, a
    reservation by another key fails, [GetNames] and [GetAll] list exactly the
    names of each key without repetition. *)
Theorem registrar_refines_name_map (ops : list registrar_op) :
  registrar_spec_run ∅ ops (registrar_run NewRegistrar ops).
Proof. apply (registrar_run_refines NewRegistrar), NewRegistrar_wf. Qed.
