(* ===== verification/Layer.v ===== *)
(** * layer: the layer store

    The model of layer/layer_store.go, layer/ro_layer.go,
    layer/mounted_layer.go and the chain identifiers of layer/layer.go.

    Layers are shared by pointer: a child holds a pointer to its parent, the
    store's [layerMap] points to every live layer, and a client holds pointers to
    [referencedCacheLayer] objects.  The model keeps the pointers: [ls_ro] and
    [ls_rw] are the heaps of [roLayer] and [mountedLayer] objects, and a layer
    that is no longer in [layerMap] stays in the heap as an object a stale
    pointer may still refer to.

    The graph driver and the metadata store are interfaces of the source
    ([graphdriver.Driver], [layer.MetadataStore]); here they are the type classes
    [Driver] and [MetadataStore].  Any of their calls may fail. *)

From S2P Require Import Prelude.

(** ** Interfaces *)

(** graphdriver.Driver: [D] is the driver's own state, [Tar] a tar stream; each
    call returns the new state and a nil or non-nil error. *)
Class Driver (D Tar : Type) := {
  Driver_Create : D → string → string → string → gmap string string → D * option string;
  Driver_CreateReadWrite :
    D → string → string → string → gmap string string → D * option string;
  Driver_Remove : D → string → D * option string;
  Driver_Get : D → string → string → D * (string + string);
  Driver_Put : D → string → D * option string;
  Driver_ApplyDiff : D → string → string → Tar → D * (string + Z)
}.

(** layer.MetadataStore and layer.MetadataTransaction: [M] is the state of the
    store with its open transactions, [T] the handle of a transaction, [Desc]
    the type of distribution.Descriptor. *)
Class MetadataStore (M T Desc : Type) := {
  Meta_StartTransaction : M → M * (string + T);
  Tx_SetSize : M → T → Z → M * option string;
  Tx_SetParent : M → T → string → M * option string;
  Tx_SetDiffID : M → T → string → M * option string;
  Tx_SetCacheID : M → T → string → M * option string;
  Tx_SetDescriptor : M → T → Desc → M * option string;
  Tx_TarSplitWriter : M → T → bool → M * option string;
  Tx_Commit : M → T → string → M * option string;
  Tx_Cancel : M → T → M * option string;
  Meta_GetSize : M → string → string + Z;
  Meta_GetParent : M → string → string + string;
  Meta_GetDiffID : M → string → string + string;
  Meta_GetCacheID : M → string → string + string;
  Meta_GetDescriptor : M → string → string + Desc;
  Meta_SetMountID : M → string → string → M * option string;
  Meta_SetInitID : M → string → string → M * option string;
  Meta_SetMountParent : M → string → string → M * option string;
  Meta_GetMountID : M → string → string + string;
  Meta_GetInitID : M → string → string + string;
  Meta_GetMountParent : M → string → string + string;
  Meta_List : M → string + (list string * list string);
  Meta_Remove : M → string → M * option string;
  Meta_RemoveMount : M → string → M * option string
}.

(** Code outside the repository's own sources: the digest functions of
    docker/distribution, the tar-split input stream, the random identifiers of
    crypto/rand ([GenerateRandomID n] is the n-th one drawn) and the
    descriptor type. *)
Class LayerExt (Tar Desc : Type) := {
  digest_FromBytes : string → string;
  tar_Digest : Tar → string;
  NewInputTarStream : Tar → option string;
  GenerateRandomID : nat → string;
  empty_Descriptor : Desc;
  Descriptor_Digest : Desc → string
}.

(** ** Data *)

(** An address of the heap. *)
Abbreviation loc := nat (only parsing).

Inductive layer_error :=
| ErrLayerDoesNotExist
| ErrLayerNotRetained
| ErrMountDoesNotExist
| ErrMountNameConflict
| ErrMaxDepthExceeded
| ErrExternal (msg : string).

(** A value of the interface type [Layer]: a [*referencedCacheLayer] (its own
    address and the roLayer it embeds) or a bare [*roLayer]. *)
Inductive Layer :=
| referencedCacheLayer (ref : loc) (rl : loc)
| bareLayer (rl : loc).

#[global] Instance Layer_eq_dec : EqDecision Layer.
Proof. solve_decision. Defined.
#[global] Instance Layer_countable : Countable Layer.
Proof.
  refine (inj_countable'
    (λ l, match l with referencedCacheLayer r l => inl (r, l) | bareLayer l => inr l end)
    (λ s, match s with inl (r, l) => referencedCacheLayer r l | inr l => bareLayer l end) _).
  by intros [].
Defined.

(** A value of the interface type [RWLayer]. *)
Inductive RWLayer :=
| referencedRWLayer (ref : loc) (ml : loc)
| bareRWLayer (ml : loc).

#[global] Instance RWLayer_eq_dec : EqDecision RWLayer.
Proof. solve_decision. Defined.
#[global] Instance RWLayer_countable : Countable RWLayer.
Proof.
  refine (inj_countable'
    (λ l, match l with referencedRWLayer r l => inl (r, l) | bareRWLayer l => inr l end)
    (λ s, match s with inl (r, l) => referencedRWLayer r l | inr l => bareRWLayer l end) _).
  by intros [].
Defined.

Record roLayer {Desc : Type} := mkRoLayer {
  rl_chainID : string;
  rl_diffID : string;
  rl_parent : option loc;
  rl_cacheID : string;
  rl_size : Z;
  rl_descriptor : Desc;
  rl_referenceCount : Z;
  rl_references : gset Layer
}.
Arguments roLayer : clear implicits.

Record mountedLayer := mkMountedLayer {
  ml_name : string;
  ml_mountID : string;
  ml_initID : string;
  ml_parent : option loc;
  ml_references : gset RWLayer
}.

Record Metadata := mkMetadata {
  md_ChainID : string;
  md_DiffID : string;
  md_Size : Z;
  md_DiffSize : Z
}.

Record layerStore {D M Desc : Type} := mkLayerStore {
  ls_store : M;
  ls_driver : D;
  ls_layerMap : gmap string loc;
  ls_mounts : gmap string loc;
  ls_ro : gmap loc (roLayer Desc);
  ls_rw : gmap loc mountedLayer;
  ls_next : loc;
  ls_rand : nat
}.
Arguments layerStore : clear implicits.

Definition maxLayerDepth : nat := 125.

(** ** Chain identifiers (layer/layer.go) *)

Section chain_id.
Context {Tar Desc : Type} {ext : LayerExt Tar Desc}.

Fixpoint createChainIDFromParent (parent : string) (dgsts : list string) : string :=
  match dgsts with
  | [] => parent
  | d :: ds =>
      if decide (parent = "") then createChainIDFromParent d ds
      else createChainIDFromParent
             (digest_FromBytes (String.append parent (String.append " " d))) ds
  end.

Definition CreateChainID (dgsts : list string) : string :=
  createChainIDFromParent "" dgsts.
End chain_id.

(** ** Operations *)

Section layer_store.
Context {D M T Tar Desc : Type}.
Context {drv : Driver D Tar} {meta : MetadataStore M T Desc} {ext : LayerExt Tar Desc}.

Abbreviation store := (layerStore D M Desc).
Implicit Types (ls : store) (l p : loc) (rl : roLayer Desc).

(** Field updates. *)
Definition with_store ls (m : M) : store :=
  mkLayerStore D M Desc m (ls_driver ls) (ls_layerMap ls) (ls_mounts ls)
    (ls_ro ls) (ls_rw ls) (ls_next ls) (ls_rand ls).
Definition with_driver ls (d : D) : store :=
  mkLayerStore D M Desc (ls_store ls) d (ls_layerMap ls) (ls_mounts ls)
    (ls_ro ls) (ls_rw ls) (ls_next ls) (ls_rand ls).
Definition with_layerMap ls (lm : gmap string loc) : store :=
  mkLayerStore D M Desc (ls_store ls) (ls_driver ls) lm (ls_mounts ls)
    (ls_ro ls) (ls_rw ls) (ls_next ls) (ls_rand ls).
Definition with_mounts ls (mm : gmap string loc) : store :=
  mkLayerStore D M Desc (ls_store ls) (ls_driver ls) (ls_layerMap ls) mm
    (ls_ro ls) (ls_rw ls) (ls_next ls) (ls_rand ls).
Definition with_ro ls (h : gmap loc (roLayer Desc)) : store :=
  mkLayerStore D M Desc (ls_store ls) (ls_driver ls) (ls_layerMap ls)
    (ls_mounts ls) h (ls_rw ls) (ls_next ls) (ls_rand ls).
Definition with_rw ls (h : gmap loc mountedLayer) : store :=
  mkLayerStore D M Desc (ls_store ls) (ls_driver ls) (ls_layerMap ls)
    (ls_mounts ls) (ls_ro ls) h (ls_next ls) (ls_rand ls).
Definition with_next ls (n : loc) : store :=
  mkLayerStore D M Desc (ls_store ls) (ls_driver ls) (ls_layerMap ls)
    (ls_mounts ls) (ls_ro ls) (ls_rw ls) n (ls_rand ls).
Definition with_rand ls (n : nat) : store :=
  mkLayerStore D M Desc (ls_store ls) (ls_driver ls) (ls_layerMap ls)
    (ls_mounts ls) (ls_ro ls) (ls_rw ls) (ls_next ls) n.

Definition set_referenceCount rl (n : Z) : roLayer Desc :=
  mkRoLayer Desc (rl_chainID rl) (rl_diffID rl) (rl_parent rl) (rl_cacheID rl)
    (rl_size rl) (rl_descriptor rl) n (rl_references rl).
Definition set_references rl (r : gset Layer) : roLayer Desc :=
  mkRoLayer Desc (rl_chainID rl) (rl_diffID rl) (rl_parent rl) (rl_cacheID rl)
    (rl_size rl) (rl_descriptor rl) (rl_referenceCount rl) r.
Definition set_ml_references (ml : mountedLayer) (r : gset RWLayer) : mountedLayer :=
  mkMountedLayer (ml_name ml) (ml_mountID ml) (ml_initID ml) (ml_parent ml) r.

(** Calls of the two interfaces, with the error as an outcome. *)
Definition call_driver ls (f : D → D * option string) : store * outcome layer_error unit :=
  let '(d, e) := f (ls_driver ls) in
  (with_driver ls d, of_error (ErrExternal <$> e)).
Definition call_store ls (f : M → M * option string) : store * outcome layer_error unit :=
  let '(m, e) := f (ls_store ls) in
  (with_store ls m, of_error (ErrExternal <$> e)).
Definition random_id ls : store * string :=
  (with_rand ls (S (ls_rand ls)), GenerateRandomID (ls_rand ls)).

Definition nil_pointer {A} ls : store * outcome layer_error A :=
  (ls, Panic "invalid memory address or nil pointer dereference").

(** *** roLayer (layer/ro_layer.go) *)

(** [Size] and [depth] recurse along the parent pointers; [fuel] bounds the
    recursion. *)
Fixpoint roLayer_Size (fuel : nat) (h : gmap loc (roLayer Desc)) l : option Z :=
  match fuel with
  | 0 => None
  | S fuel =>
      rl ← h !! l;
      match rl_parent rl with
      | None => Some (wrap64 (0 + rl_size rl))
      | Some p => size ← roLayer_Size fuel h p; Some (wrap64 (size + rl_size rl))
      end
  end.

Fixpoint roLayer_depth (fuel : nat) (h : gmap loc (roLayer Desc)) l : option nat :=
  match fuel with
  | 0 => None
  | S fuel =>
      rl ← h !! l;
      match rl_parent rl with
      | None => Some 1
      | Some p => d ← roLayer_depth fuel h p; Some (d + 1)
      end
  end.

Definition heap_fuel ls : nat := S (size (ls_ro ls)).

Definition roLayer_getReference ls l : store * Layer :=
  let ref := referencedCacheLayer (ls_next ls) l in
  (with_next
     (with_ro ls (alter (λ rl, set_references rl ({[ref]} ∪ rl_references rl)) l (ls_ro ls)))
     (S (ls_next ls)), ref).

Definition roLayer_hasReference rl (ref : Layer) : bool :=
  bool_decide (ref ∈ rl_references rl).
Definition roLayer_hasReferences rl : bool :=
  bool_decide (0 < size (rl_references rl)).
Definition roLayer_deleteReference ls l (ref : Layer) : store :=
  with_ro ls (alter (λ rl, set_references rl (rl_references rl ∖ {[ref]})) l (ls_ro ls)).

(** [l.ChainID()] of an interface value. *)
Definition Layer_loc (l : Layer) : loc :=
  match l with referencedCacheLayer _ rl => rl | bareLayer rl => rl end.

Definition storeLayer ls (tx : T) rl : store * outcome layer_error unit :=
  let! (ls, _) := call_store ls (λ m, Tx_SetDiffID m tx (rl_diffID rl)) in
  let! (ls, _) := call_store ls (λ m, Tx_SetSize m tx (rl_size rl)) in
  let! (ls, _) := call_store ls (λ m, Tx_SetCacheID m tx (rl_cacheID rl)) in
  let! (ls, _) :=
    (if decide (Descriptor_Digest (rl_descriptor rl) ≠ "")
     then call_store ls (λ m, Tx_SetDescriptor m tx (rl_descriptor rl))
     else (ls, Ok tt)) in
  match rl_parent rl with
  | None => (ls, Ok tt)
  | Some p =>
      match ls_ro ls !! p with
      | None => nil_pointer ls
      | Some prl => call_store ls (λ m, Tx_SetParent m tx (rl_chainID prl))
      end
  end.

(** *** layerStore (layer/layer_store.go) *)

Definition getWithoutLock ls (layer : string) : store * option loc :=
  match ls_layerMap ls !! layer with
  | None => (ls, None)
  | Some l =>
      (with_ro ls
         (alter (λ rl, set_referenceCount rl (rl_referenceCount rl + 1)) l (ls_ro ls)),
       Some l)
  end.

(** [get] is [getWithoutLock] under the lock. *)
Definition layerStore_get ls (l : string) : store * option loc := getWithoutLock ls l.

Definition layerStore_Get ls (l : string) : store * outcome layer_error Layer :=
  match getWithoutLock ls l with
  | (ls, None) => (ls, Err ErrLayerDoesNotExist)
  | (ls, Some layer) => let '(ls, ref) := roLayer_getReference ls layer in (ls, Ok ref)
  end.

Definition deleteLayer ls rl l : store * outcome layer_error Metadata :=
  let! (ls, _) := call_driver ls (λ d, Driver_Remove d (rl_cacheID rl)) in
  let! (ls, _) := call_store ls (λ m, Meta_Remove m (rl_chainID rl)) in
  match roLayer_Size (heap_fuel ls) (ls_ro ls) l with
  | None => (ls, Diverge)
  | Some size => (ls, Ok (mkMetadata (rl_chainID rl) (rl_diffID rl) size (rl_size rl)))
  end.

(** The loop of [releaseLayer]: [depth] and [removed] are its local variables. *)
Fixpoint releaseLayer_loop (fuel : nat) ls l (depth : nat) (removed : list Metadata) :
    store * outcome layer_error (list Metadata) :=
  match fuel with
  | 0 => (ls, Diverge)
  | S fuel =>
      match ls_ro ls !! l with
      | None => nil_pointer ls
      | Some rl =>
          if decide (rl_referenceCount rl = 0%Z) then (ls, Panic "layer not retained")
          else
            let rl := set_referenceCount rl (rl_referenceCount rl - 1) in
            let ls := with_ro ls (<[l := rl]> (ls_ro ls)) in
            if decide (rl_referenceCount rl ≠ 0%Z) then (ls, Ok removed)
            else if decide (length removed = 0 ∧ 0 < depth)
            then (ls, Panic "cannot remove layer with child")
            else if roLayer_hasReferences rl
            then (ls, Panic "cannot delete referenced layer")
            else
              let! (ls, metadata) := deleteLayer ls rl l in
              let ls := with_layerMap ls (delete (rl_chainID rl) (ls_layerMap ls)) in
              let removed := removed ++ [metadata] in
              match rl_parent rl with
              | None => (ls, Ok removed)
              | Some p => releaseLayer_loop fuel ls p (S depth) removed
              end
      end
  end.

Definition releaseLayer ls l : store * outcome layer_error (list Metadata) :=
  releaseLayer_loop (heap_fuel ls) ls l 0 [].

Definition layerStore_Release ls (l : Layer) : store * outcome layer_error (list Metadata) :=
  match ls_ro ls !! Layer_loc l with
  | None => nil_pointer ls
  | Some lrl =>
      match ls_layerMap ls !! rl_chainID lrl with
      | None => (ls, Ok [])
      | Some layer =>
          match ls_ro ls !! layer with
          | None => nil_pointer ls
          | Some rl =>
              if roLayer_hasReference rl l
              then releaseLayer (roLayer_deleteReference ls layer l) layer
              else (ls, Err ErrLayerNotRetained)
          end
      end
  end.

(** [applyTar] sets the size and the diffID of the layer it is given.  The
    digester reads the stream through a tee, and the stream is drained after
    [ApplyDiff], so that the digest is that of the whole stream. *)
Definition applyTar ls (tx : T) (ts : Tar) (parent : string) rl :
    store * outcome layer_error (roLayer Desc) :=
  let! (ls, _) := call_store ls (λ m, Tx_TarSplitWriter m tx true) in
  match NewInputTarStream ts with
  | Some e => (ls, Err (ErrExternal e))
  | None =>
      let '(d, r) := Driver_ApplyDiff (ls_driver ls) (rl_cacheID rl) parent ts in
      let ls := with_driver ls d in
      match r with
      | inl e => (ls, Err (ErrExternal e))
      | inr applySize =>
          (ls, Ok (mkRoLayer Desc (rl_chainID rl) (tar_Digest ts) (rl_parent rl)
                     (rl_cacheID rl) applySize (rl_descriptor rl)
                     (rl_referenceCount rl) (rl_references rl)))
      end
  end.

(** The deferred functions of [registerWithDescriptor] and [CreateRWLayer] test
    the variable [err], which is non-nil when the function returns an error and
    also when the layer already existed; the body's outcome carries that case as
    a boolean beside the returned value. *)
Definition err_set {A} (o : outcome layer_error (A * bool)) : bool :=
  match o with
  | Ok (_, b) => b
  | Err _ => true
  | Panic _ | Diverge => false
  end.

(** A deferred call whose own result is dropped; only a panic gets out. *)
Definition deferred {A B} (r : store * outcome layer_error B)
    (o : outcome layer_error A) : store * outcome layer_error A :=
  match r with
  | (ls, Panic m) => (ls, Panic m)
  | (ls, Diverge) => (ls, Diverge)
  | (ls, _) => (ls, o)
  end.

(** [defer func() { if err != nil { releaseLayer(p) } }()] *)
Definition defer_release {A} (p : loc) (r : store * outcome layer_error (A * bool)) :
    store * outcome layer_error (A * bool) :=
  let '(ls, o) := r in
  if err_set o then deferred (releaseLayer ls p) o else (ls, o).

(** [defer func() { if err != nil { driver.Remove; tx.Cancel } }()] *)
Definition defer_cleanup {A} (tx : T) (cacheID : string)
    (r : store * outcome layer_error (A * bool)) :
    store * outcome layer_error (A * bool) :=
  let '(ls, o) := r in
  if err_set o then
    let '(ls, _) := call_driver ls (λ d, Driver_Remove d cacheID) in
    let '(ls, _) := call_store ls (λ m, Tx_Cancel m tx) in
    (ls, o)
  else (ls, o).

(** The part of [registerWithDescriptor] under [layerL]: return the layer of the
    same chain that another registration stored first, or commit and publish the
    new one. *)
Definition register_publish ls (tx : T) rl :
    store * outcome layer_error (Layer * bool) :=
  match getWithoutLock ls (rl_chainID rl) with
  | (ls, Some existingLayer) =>
      let '(ls, ref) := roLayer_getReference ls existingLayer in (ls, Ok (ref, true))
  | (ls, None) =>
      let! (ls, _) := call_store ls (λ m, Tx_Commit m tx (rl_chainID rl)) in
      let layer := ls_next ls in
      let ls := with_next (with_ro ls (<[layer := rl]> (ls_ro ls))) (S layer) in
      let ls := with_layerMap ls (<[rl_chainID rl := layer]> (ls_layerMap ls)) in
      let '(ls, ref) := roLayer_getReference ls layer in
      (ls, Ok (ref, false))
  end.

Definition set_chainID rl (c : string) : roLayer Desc :=
  mkRoLayer Desc c (rl_diffID rl) (rl_parent rl) (rl_cacheID rl) (rl_size rl)
    (rl_descriptor rl) (rl_referenceCount rl) (rl_references rl).

(** The part of [registerWithDescriptor] between starting the transaction and
    taking the lock: unpack the tar, compute the chain identifier, write the
    metadata. *)
Definition register_prepare ls (tx : T) (ts : Tar) (pid : string) rl :
    store * outcome layer_error (roLayer Desc) :=
  let! (ls, rl) := applyTar ls tx ts pid rl in
  match rl_parent rl with
  | None =>
      let rl := set_chainID rl (rl_diffID rl) in
      let! (ls, _) := storeLayer ls tx rl in (ls, Ok rl)
  | Some p =>
      match ls_ro ls !! p with
      | None => nil_pointer ls
      | Some prl =>
          let rl := set_chainID rl
                      (createChainIDFromParent (rl_chainID prl) [rl_diffID rl]) in
          let! (ls, _) := storeLayer ls tx rl in (ls, Ok rl)
      end
  end.

(** Everything after the parent has been retained. *)
Definition register_body ls (ts : Tar) (p : option loc) (pid : string) (descriptor : Desc) :
    store * outcome layer_error (Layer * bool) :=
  let '(ls, cacheID) := random_id ls in
  let layer := mkRoLayer Desc "" "" p cacheID 0 descriptor 1 ∅ in
  let! (ls, _) := call_driver ls (λ d, Driver_Create d cacheID pid "" ∅) in
  match Meta_StartTransaction (ls_store ls) with
  | (m, inl e) => (with_store ls m, Err (ErrExternal e))
  | (m, inr tx) =>
      let ls := with_store ls m in
      defer_cleanup tx cacheID
        (let! (ls, layer) := register_prepare ls tx ts pid layer in
         register_publish ls tx layer)
  end.

Definition registerWithDescriptor ls (ts : Tar) (parent : string) (descriptor : Desc) :
    store * outcome layer_error Layer :=
  let! (ls, r) :=
    (if decide (parent ≠ "") then
       match layerStore_get ls parent with
       | (ls, None) => (ls, Err ErrLayerDoesNotExist)
       | (ls, Some p) =>
           match ls_ro ls !! p, roLayer_depth (heap_fuel ls) (ls_ro ls) p with
           | Some prl, Some depth =>
               defer_release p
                 (if decide (maxLayerDepth ≤ depth) then (ls, Err ErrMaxDepthExceeded)
                  else register_body ls ts (Some p) (rl_cacheID prl) descriptor)
           | None, _ => nil_pointer ls
           | _, None => (ls, Diverge)
           end
       end
     else register_body ls ts None "" descriptor) in
  (ls, Ok r.1).

Definition layerStore_Register ls (ts : Tar) (parent : string) :
    store * outcome layer_error Layer :=
  registerWithDescriptor ls ts parent empty_Descriptor.

(** *** mountedLayer (layer/mounted_layer.go) *)

Definition mountedLayer_cacheParent ls (ml : mountedLayer) : option string :=
  if decide (ml_initID ml ≠ "") then Some (ml_initID ml)
  else match ml_parent ml with
       | Some p => rl ← ls_ro ls !! p; Some (rl_cacheID rl)
       | None => Some ""
       end.

Definition mountedLayer_getReference ls (m : loc) : store * RWLayer :=
  let ref := referencedRWLayer (ls_next ls) m in
  (with_next
     (with_rw ls
        (alter (λ ml, set_ml_references ml ({[ref]} ∪ ml_references ml)) m (ls_rw ls)))
     (S (ls_next ls)), ref).

Definition mountedLayer_hasReferences (ml : mountedLayer) : bool :=
  bool_decide (0 < size (ml_references ml)).

Definition mountedLayer_deleteReference ls (m : loc) (ml : mountedLayer) (ref : RWLayer) :
    store * outcome layer_error unit :=
  if decide (ref ∈ ml_references ml)
  then (with_rw ls (<[m := set_ml_references ml (ml_references ml ∖ {[ref]})]> (ls_rw ls)),
        Ok tt)
  else (ls, Err ErrLayerNotRetained).

Definition mountedLayer_retakeReference ls (m : loc) (r : RWLayer) : store :=
  match r with
  | referencedRWLayer _ _ =>
      with_rw ls
        (alter (λ ml, set_ml_references ml ({[r]} ∪ ml_references ml)) m (ls_rw ls))
  | bareRWLayer _ => ls
  end.

Definition RWLayer_loc (l : RWLayer) : loc :=
  match l with referencedRWLayer _ ml => ml | bareRWLayer ml => ml end.

(** *** Read-write layers of the store (layer/layer_store.go) *)

Definition layerStore_initMount ls (graphID parent mountLabel : string)
    (initFunc : string → option string) (storageOpt : gmap string string) :
    store * outcome layer_error string :=
  let initID := String.append graphID "-init" in
  let! (ls, _) := call_driver ls (λ d, Driver_Create d initID parent mountLabel storageOpt) in
  match Driver_Get (ls_driver ls) initID "" with
  | (d, inl e) => (with_driver ls d, Err (ErrExternal e))
  | (d, inr p) =>
      let ls := with_driver ls d in
      match initFunc p with
      | Some e =>
          let '(ls, _) := call_driver ls (λ d, Driver_Put d initID) in
          (ls, Err (ErrExternal e))
      | None =>
          let! (ls, _) := call_driver ls (λ d, Driver_Put d initID) in (ls, Ok initID)
      end
  end.

(** [saveMount] publishes the mount in [ls.mounts]; the [*mountedLayer] gets its
    address there. *)
Definition layerStore_saveMount ls (mount : mountedLayer) :
    store * outcome layer_error loc :=
  let! (ls, _) :=
    call_store ls (λ m, Meta_SetMountID m (ml_name mount) (ml_mountID mount)) in
  let! (ls, _) :=
    (if decide (ml_initID mount ≠ "")
     then call_store ls (λ m, Meta_SetInitID m (ml_name mount) (ml_initID mount))
     else (ls, Ok tt)) in
  let! (ls, _) :=
    match ml_parent mount with
    | None => (ls, Ok tt)
    | Some p =>
        match ls_ro ls !! p with
        | None => nil_pointer ls
        | Some prl =>
            call_store ls (λ m, Meta_SetMountParent m (ml_name mount) (rl_chainID prl))
        end
    end in
  let m := ls_next ls in
  let ls := with_next (with_rw ls (<[m := mount]> (ls_rw ls))) (S m) in
  (with_mounts ls (<[ml_name mount := m]> (ls_mounts ls)), Ok m).

(** [CreateRWLayer] after the parent has been retained.  [initFunc] is nil or a
    function of the mount point. *)
Definition createRW_body ls (name : string) (p : option loc) (pid mountLabel : string)
    (initFunc : option (string → option string)) (storageOpt : gmap string string) :
    store * outcome layer_error (RWLayer * bool) :=
  let '(ls, mountID) := random_id ls in
  let! (ls, initID) :=
    match initFunc with
    | Some f => layerStore_initMount ls mountID pid mountLabel f storageOpt
    | None => (ls, Ok "")
    end in
  let pid := match initFunc with Some _ => initID | None => pid end in
  let! (ls, _) :=
    call_driver ls (λ d, Driver_CreateReadWrite d mountID pid "" storageOpt) in
  let! (ls, m) := layerStore_saveMount ls (mkMountedLayer name mountID initID p ∅) in
  let '(ls, ref) := mountedLayer_getReference ls m in
  (ls, Ok (ref, false)).

Definition layerStore_CreateRWLayer ls (name parent mountLabel : string)
    (initFunc : option (string → option string)) (storageOpt : gmap string string) :
    store * outcome layer_error RWLayer :=
  match ls_mounts ls !! name with
  | Some _ => (ls, Err ErrMountNameConflict)
  | None =>
      let! (ls, r) :=
        (if decide (parent ≠ "") then
           match layerStore_get ls parent with
           | (ls, None) => (ls, Err ErrLayerDoesNotExist)
           | (ls, Some p) =>
               match ls_ro ls !! p with
               | None => nil_pointer ls
               | Some prl =>
                   defer_release p
                     (createRW_body ls name (Some p) (rl_cacheID prl) mountLabel
                        initFunc storageOpt)
               end
           end
         else createRW_body ls name None "" mountLabel initFunc storageOpt) in
      (ls, Ok r.1)
  end.

Definition layerStore_GetRWLayer ls (id : string) : store * outcome layer_error RWLayer :=
  match ls_mounts ls !! id with
  | None => (ls, Err ErrMountDoesNotExist)
  | Some mount => let '(ls, ref) := mountedLayer_getReference ls mount in (ls, Ok ref)
  end.

Definition layerStore_GetMountID ls (id : string) : store * outcome layer_error string :=
  match ls_mounts ls !! id with
  | None => (ls, Err ErrMountDoesNotExist)
  | Some mount =>
      match ls_rw ls !! mount with
      | None => nil_pointer ls
      | Some ml => (ls, Ok (ml_mountID ml))
      end
  end.

(** A call that fails puts the reference back before its error is returned. *)
Definition or_retake (m : loc) (l : RWLayer) (r : store * outcome layer_error unit) :
    store * outcome layer_error unit :=
  match r with
  | (ls, Err e) => (mountedLayer_retakeReference ls m l, Err e)
  | _ => r
  end.

Definition layerStore_ReleaseRWLayer ls (l : RWLayer) :
    store * outcome layer_error (list Metadata) :=
  match ls_rw ls !! RWLayer_loc l with
  | None => nil_pointer ls
  | Some lml =>
      match ls_mounts ls !! ml_name lml with
      | None => (ls, Ok [])
      | Some m =>
          match ls_rw ls !! m with
          | None => nil_pointer ls
          | Some ml =>
              let! (ls, _) := mountedLayer_deleteReference ls m ml l in
              match ls_rw ls !! m with
              | None => nil_pointer ls
              | Some ml =>
                  if mountedLayer_hasReferences ml then (ls, Ok [])
                  else
                    let! (ls, _) :=
                      or_retake m l
                        (call_driver ls (λ d, Driver_Remove d (ml_mountID ml))) in
                    let! (ls, _) :=
                      (if decide (ml_initID ml ≠ "") then
                         or_retake m l
                           (call_driver ls (λ d, Driver_Remove d (ml_initID ml)))
                       else (ls, Ok tt)) in
                    let! (ls, _) :=
                      or_retake m l
                        (call_store ls (λ s, Meta_RemoveMount s (ml_name ml))) in
                    let ls := with_mounts ls (delete (ml_name ml) (ls_mounts ls)) in
                    match ml_parent ml with
                    | Some p => releaseLayer ls p
                    | None => (ls, Ok [])
                    end
              end
          end
      end
  end.

(** *** Restoring a store from its metadata *)

Definition of_sum {A} ls (r : string + A) : store * outcome layer_error A :=
  match r with inl e => (ls, Err (ErrExternal e)) | inr a => (ls, Ok a) end.

Fixpoint loadLayer (fuel : nat) ls (layer : string) : store * outcome layer_error loc :=
  match fuel with
  | 0 => (ls, Diverge)
  | S fuel =>
      match ls_layerMap ls !! layer with
      | Some cl => (ls, Ok cl)
      | None =>
          let! (ls, diff) := of_sum ls (Meta_GetDiffID (ls_store ls) layer) in
          let! (ls, size) := of_sum ls (Meta_GetSize (ls_store ls) layer) in
          let! (ls, cacheID) := of_sum ls (Meta_GetCacheID (ls_store ls) layer) in
          let! (ls, parent) := of_sum ls (Meta_GetParent (ls_store ls) layer) in
          let! (ls, descriptor) := of_sum ls (Meta_GetDescriptor (ls_store ls) layer) in
          let! (ls, p) :=
            (if decide (parent ≠ "") then
               let! (ls, p) := loadLayer fuel ls parent in (ls, Ok (Some p))
             else (ls, Ok None)) in
          let cl := mkRoLayer Desc layer diff p cacheID size descriptor 0 ∅ in
          let l := ls_next ls in
          let ls := with_next (with_ro ls (<[l := cl]> (ls_ro ls))) (S l) in
          (with_layerMap ls (<[layer := l]> (ls_layerMap ls)), Ok l)
      end
  end.

(** [l.referenceCount++] *)
Definition incr_referenceCount ls l : store :=
  with_ro ls (alter (λ rl, set_referenceCount rl (rl_referenceCount rl + 1)) l (ls_ro ls)).

Definition loadMount (fuel : nat) ls (mount : string) : store * outcome layer_error unit :=
  match ls_mounts ls !! mount with
  | Some _ => (ls, Ok tt)
  | None =>
      let! (ls, mountID) := of_sum ls (Meta_GetMountID (ls_store ls) mount) in
      let! (ls, initID) := of_sum ls (Meta_GetInitID (ls_store ls) mount) in
      let! (ls, parent) := of_sum ls (Meta_GetMountParent (ls_store ls) mount) in
      let! (ls, p) :=
        (if decide (parent ≠ "") then
           let! (ls, p) := loadLayer fuel ls parent in
           (incr_referenceCount ls p, Ok (Some p))
         else (ls, Ok None)) in
      let m := ls_next ls in
      let ls := with_next
        (with_rw ls (<[m := mkMountedLayer mount mountID initID p ∅]> (ls_rw ls))) (S m) in
      (with_mounts ls (<[mount := m]> (ls_mounts ls)), Ok tt)
  end.

(** The first loop of [NewStoreFromGraphDriver]: a layer that cannot be loaded is
    skipped, and each loaded layer counts once in its parent. *)
Definition load_id (fuel : nat) (r : store * outcome layer_error unit) (id : string) :
    store * outcome layer_error unit :=
  let! (ls, _) := r in
  match loadLayer fuel ls id with
  | (ls, Ok l) =>
      match ls_ro ls !! l with
      | None => nil_pointer ls
      | Some rl =>
          (match rl_parent rl with
           | Some p => incr_referenceCount ls p
           | None => ls
           end, Ok tt)
      end
  | (ls, Err _) => (ls, Ok tt)
  | (ls, Panic m) => (ls, Panic m)
  | (ls, Diverge) => (ls, Diverge)
  end.

Definition load_mount (fuel : nat) (r : store * outcome layer_error unit) (mount : string) :
    store * outcome layer_error unit :=
  let! (ls, _) := r in
  match loadMount fuel ls mount with
  | (ls, Err _) => (ls, Ok tt)
  | r => r
  end.

Definition NewStoreFromGraphDriver (fuel : nat) (m : M) (d : D) :
    store * outcome layer_error unit :=
  let ls := mkLayerStore D M Desc m d ∅ ∅ ∅ ∅ 0 0 in
  match Meta_List m with
  | inl e => (ls, Err (ErrExternal e))
  | inr (ids, mounts) =>
      foldl (load_mount fuel) (foldl (load_id fuel) (ls, Ok tt) ids) mounts
  end.

End layer_store.
