(* ===== verification/LayerInv.v ===== *)
(** * The invariant of the layer store

    The reference count of every live layer is the number of client references
    to it, plus the live layers built on it, plus the mounts built on it, plus
    the temporary holds of operations in progress.  The parents of a live layer
    are live and its parent chain is finite.  Under this invariant no operation
    panics or loops, whatever the driver and the metadata store answer, and every
    operation keeps it. *)

From S2P Require Import Prelude Layer.

Section layer_inv.
Context {D M T Tar Desc : Type}.
Context {drv : Driver D Tar} {meta : MetadataStore M T Desc} {ext : LayerExt Tar Desc}.

Abbreviation store := (layerStore D M Desc).
Abbreviation heap := (gmap loc (roLayer Desc)).
Implicit Types (ls : store) (l p : loc) (rl : roLayer Desc) (h : heap) (held : list loc).

(** ** Definitions *)

Definition live ls l : Prop := ∃ c, ls_layerMap ls !! c = Some l.

Definition parent_of h l : option loc := h !! l ≫= rl_parent.
Definition mount_parent (rw : gmap loc mountedLayer) (m : loc) : option loc :=
  rw !! m ≫= ml_parent.

(** The live layers and the mounts built directly on a layer. *)
Definition children ls l : nat := count_uses (parent_of (ls_ro ls)) (ls_layerMap ls) l.
Definition mount_uses ls l : nat := count_uses (mount_parent (ls_rw ls)) (ls_mounts ls) l.

(** [chain h l ps]: following the parent pointers from [l] visits [ps], [l]
    first, and ends at a layer without a parent. *)
Inductive chain h : loc → list loc → Prop :=
| chain_root l rl :
    h !! l = Some rl → rl_parent rl = None → chain h l [l]
| chain_step l rl p ps :
    h !! l = Some rl → rl_parent rl = Some p → chain h p ps → chain h l (l :: ps).

(** The diff identifiers along a chain, the root's first. *)
Definition chain_diffIDs h (ps : list loc) : list string :=
  reverse ((λ l, from_option rl_diffID "" (h !! l)) <$> ps).

Record layer_inv held ls : Prop := {
  inv_map c l : ls_layerMap ls !! c = Some l →
    ∃ rl, ls_ro ls !! l = Some rl ∧ rl_chainID rl = c;
  inv_parent l p : live ls l → parent_of (ls_ro ls) l = Some p → live ls p;
  inv_chain l : live ls l → ∃ ps, chain (ls_ro ls) l ps ∧ length ps ≤ maxLayerDepth ∧
    from_option rl_chainID "" (ls_ro ls !! l) =
      CreateChainID (chain_diffIDs (ls_ro ls) ps);
  inv_mounts n m : ls_mounts ls !! n = Some m →
    ∃ ml, ls_rw ls !! m = Some ml ∧ ml_name ml = n ∧
      ∀ p, ml_parent ml = Some p → live ls p;
  inv_held l : l ∈ held → live ls l;
  inv_fresh l : is_Some (ls_ro ls !! l) → l < ls_next ls;
  inv_fresh_rw m : is_Some (ls_rw ls !! m) → m < ls_next ls;
  inv_refs l rl r : live ls l → ls_ro ls !! l = Some rl → r ∈ rl_references rl →
    ∃ n, r = referencedCacheLayer n l ∧ n < ls_next ls;
  inv_rw_refs m ml r : ls_rw ls !! m = Some ml → r ∈ ml_references ml →
    ∃ n, r = referencedRWLayer n m ∧ n < ls_next ls;
  inv_count l rl : live ls l → ls_ro ls !! l = Some rl →
    rl_referenceCount rl =
      Z.of_nat (size (rl_references rl) + children ls l + mount_uses ls l
                + occurrences l held)
}.

(** ** Heaps with the same skeleton

    Counting and referencing a layer changes neither its identifiers nor its
    parent. *)

Definition skel rl : string * string * option loc :=
  (rl_chainID rl, rl_diffID rl, rl_parent rl).

Definition same_skel h h' : Prop := ∀ l, skel <$> h !! l = skel <$> h' !! l.

#[global] Instance same_skel_equiv : Equivalence same_skel.
Proof.
split; [done|by intros h h' Hs l; rewrite Hs|].
intros h1 h2 h3 H1 H2 l. by rewrite H1.
Qed.

Lemma same_skel_alter f l h :
  (∀ rl, skel (f rl) = skel rl) → same_skel (alter f l h) h.
Proof.
  intros Hf l'. rewrite lookup_alter. case_decide; [subst|done].
  destruct (h !! l'); simpl; [by rewrite Hf|done].
Qed.

Lemma same_skel_insert l rl rl' h :
  h !! l = Some rl → skel rl' = skel rl → same_skel (<[l := rl']> h) h.
Proof.
  intros Hl Hs l'. rewrite lookup_insert. case_decide; [subst|done].
  by rewrite Hl; simpl; rewrite Hs.
Qed.

Lemma same_skel_lookup h h' l rl :
  same_skel h h' → h !! l = Some rl →
  ∃ rl', h' !! l = Some rl' ∧ rl_chainID rl' = rl_chainID rl ∧
    rl_diffID rl' = rl_diffID rl ∧ rl_parent rl' = rl_parent rl.
Proof.
  intros Hs Hl. specialize (Hs l). rewrite Hl in Hs.
  destruct (h' !! l) as [rl'|]; [|done]. apply (inj Some) in Hs.
  exists rl'. unfold skel in Hs. naive_solver.
Qed.

Lemma parent_of_skel h h' l : same_skel h h' → parent_of h l = parent_of h' l.
Proof.
  intros Hs. unfold parent_of. specialize (Hs l).
  destruct (h !! l), (h' !! l); simplify_eq/=; done.
Qed.

Lemma chain_skel h h' l ps : same_skel h h' → chain h l ps → chain h' l ps.
Proof.
  intros Hs. induction 1 as [l rl Hl Hp|l rl p ps Hl Hp _ IH];
    destruct (same_skel_lookup h h' l rl Hs Hl) as (rl' & Hl' & _ & _ & Hp').
  - eapply chain_root; [done|congruence].
  - apply (chain_step _ l rl' p); [done|congruence|done].
Qed.

Lemma chain_diffIDs_skel h h' ps :
  same_skel h h' → chain_diffIDs h ps = chain_diffIDs h' ps.
Proof.
  intros Hs. unfold chain_diffIDs. f_equal.
  apply list_fmap_ext. intros _ l _. specialize (Hs l).
  destruct (h !! l), (h' !! l); simplify_eq/=; congruence.
Qed.

Lemma chainID_skel h h' l :
  same_skel h h' →
  from_option rl_chainID "" (h !! l) = from_option rl_chainID "" (h' !! l).
Proof. intros Hs. specialize (Hs l). destruct (h !! l), (h' !! l); simplify_eq/=; done. Qed.

Lemma parent_of_Some h l rl : h !! l = Some rl → parent_of h l = rl_parent rl.
Proof. unfold parent_of. by intros ->. Qed.

(** ** Chains *)

Lemma chain_head h l ps : chain h l ps → ∃ ps', ps = l :: ps'.
Proof. destruct 1; eauto. Qed.

Lemma chain_fun h l ps ps' : chain h l ps → chain h l ps' → ps = ps'.
Proof.
  intros H. revert ps'. induction H as [l rl Hl Hp|l rl p ps Hl Hp _ IH];
    intros ps' H'; inversion H'; simplify_eq; [done|].
  f_equal. eauto.
Qed.

(** Along a chain the heap is defined and every suffix is the chain of its head. *)
Lemma chain_elem h l ps l' :
  chain h l ps → l' ∈ ps → ∃ ps', chain h l' ps' ∧ length ps' ≤ length ps.
Proof.
  induction 1 as [l rl Hl Hp|l rl p ps Hl Hp Hc IH].
  - intros ->%list_elem_of_singleton. eexists; split; [by eapply chain_root|done].
  - intros [->|Hin]%elem_of_cons.
    + eexists; split; [by eapply chain_step|done].
    + destruct (IH Hin) as (ps' & ? & ?). exists ps'. split; [done|simpl; lia].
Qed.

Lemma chain_NoDup h l ps : chain h l ps → NoDup ps.
Proof.
  induction 1 as [l rl Hl Hp|l rl p ps Hl Hp Hc IH]; [apply NoDup_singleton|].
  apply NoDup_cons. split; [|done]. intros Hin.
  destruct (chain_elem h p ps l Hc Hin) as (ps' & Hc' & Hlen).
  assert (ps' = l :: ps) as -> by (eapply chain_fun; [done|by eapply chain_step]).
  simpl in Hlen. lia.
Qed.

Lemma chain_dom h l ps : chain h l ps → list_to_set ps ⊆ (dom h : gset loc).
Proof.
  induction 1 as [l rl Hl Hp|l rl p ps Hl Hp Hc IH]; simpl;
    apply elem_of_dom_2 in Hl; set_solver.
Qed.

(** The heap's size bounds every chain: the fuel of the model is enough. *)
Lemma chain_length h l ps : chain h l ps → length ps ≤ size h.
Proof.
  intros Hc. rewrite <- size_dom.
  rewrite <- (size_list_to_set (C := gset loc) ps) by (by eapply chain_NoDup).
  apply subseteq_size. by eapply chain_dom.
Qed.

Lemma roLayer_depth_chain fuel h l ps :
  chain h l ps → length ps ≤ fuel → roLayer_depth fuel h l = Some (length ps).
Proof.
  intros Hc. revert fuel.
  induction Hc as [l rl Hl Hp|l rl p ps Hl Hp Hc IH]; intros [|fuel] Hf;
    simpl in *; try lia; rewrite Hl; simpl; rewrite Hp; [done|].
  rewrite IH by lia. simpl. f_equal. lia.
Qed.

Lemma roLayer_Size_chain fuel h l ps :
  chain h l ps → length ps ≤ fuel → is_Some (roLayer_Size fuel h l).
Proof.
  intros Hc. revert fuel.
  induction Hc as [l rl Hl Hp|l rl p ps Hl Hp Hc IH]; intros [|fuel] Hf;
    simpl in *; try lia; rewrite Hl; simpl; rewrite Hp; [done|].
  destruct (IH fuel) as [s ->]; [lia|done].
Qed.

(** ** Framing *)

(** The invariant is about the in-memory part of the store only. *)
Definition same_memory ls ls' : Prop :=
  ls_layerMap ls = ls_layerMap ls' ∧ ls_mounts ls = ls_mounts ls' ∧
  ls_ro ls = ls_ro ls' ∧ ls_rw ls = ls_rw ls' ∧ ls_next ls = ls_next ls'.

#[global] Instance same_memory_equiv : Equivalence same_memory.
Proof.
split; [done|by intros ls ls' (?&?&?&?&?)|].
intros ls1 ls2 ls3 (?&?&?&?&?) (?&?&?&?&?). unfold same_memory. split_and!; congruence.
Qed.

Lemma inv_same_memory held ls ls' :
  same_memory ls ls' → layer_inv held ls → layer_inv held ls'.
Proof.
  destruct ls, ls'. intros (?&?&?&?&?) Hinv; simpl in *; simplify_eq.
  constructor; apply Hinv.
Qed.

Lemma call_driver_memory ls f : same_memory ls (call_driver ls f).1.
Proof. unfold call_driver. by destruct (f (ls_driver ls)). Qed.

Lemma call_store_memory ls f : same_memory ls (call_store ls f).1.
Proof. unfold call_store. by destruct (f (ls_store ls)). Qed.

Lemma alter_Some {A} (f : A → A) l (h : gmap loc A) x :
  h !! l = Some x → alter f l h = <[l := f x]> h.
Proof.
  intros Hl. apply map_eq. intros l'. rewrite lookup_alter, lookup_insert.
  case_decide; [subst; by rewrite Hl|done].
Qed.

Lemma live_lookup held ls l :
  layer_inv held ls → live ls l → ∃ rl, ls_ro ls !! l = Some rl.
Proof. intros Hinv [c Hc]. destruct (inv_map _ _ Hinv c l Hc) as (rl & ? & _). eauto. Qed.

Lemma inv_map_key held ls c l rl :
  layer_inv held ls → ls_layerMap ls !! c = Some l → ls_ro ls !! l = Some rl →
  rl_chainID rl = c.
Proof.
  intros Hinv Hc Hl. destruct (inv_map _ _ Hinv c l Hc) as (rl' & ? & ?). congruence.
Qed.

(** Changing the counters and the references of one live layer, with the holds
    of the operations in progress, as long as the balance is kept. *)
Lemma inv_update held held' ls l rl rl' next' :
  layer_inv held ls → live ls l → ls_ro ls !! l = Some rl → skel rl' = skel rl →
  ls_next ls ≤ next' →
  (∀ r, r ∈ rl_references rl' →
     r ∈ rl_references rl ∨ ∃ n, r = referencedCacheLayer n l ∧ n < next') →
  (∀ x, x ∈ held' → live ls x) →
  (∀ x, x ≠ l → occurrences x held' = occurrences x held) →
  (rl_referenceCount rl' - Z.of_nat (size (rl_references rl')) - Z.of_nat (occurrences l held')
   = rl_referenceCount rl - Z.of_nat (size (rl_references rl)) - Z.of_nat (occurrences l held))%Z →
  layer_inv held' (with_next (with_ro ls (<[l := rl']> (ls_ro ls))) next').
Proof.
  intros Hinv Hlive Hl Hsk Hnext Hrefs Hheld Hocc Hbal.
  pose proof (same_skel_insert l rl rl' (ls_ro ls) Hl Hsk) as Hss.
  split; simpl.
  - intros c l' Hc. destruct (inv_map _ _ Hinv c l' Hc) as (rl0 & Hl0 & Hid).
    symmetry in Hss. destruct (same_skel_lookup _ _ _ _ Hss Hl0) as (rl1 & ? & ? & _).
    exists rl1. split; [done|congruence].
  - intros l' p Hl'. rewrite (parent_of_skel _ _ _ Hss). apply (inv_parent _ _ Hinv l' p Hl').
  - intros l' Hl'. destruct (inv_chain _ _ Hinv l' Hl') as (ps & Hc & Hlen & Hid).
    exists ps. split_and!; [by eapply chain_skel; [symmetry|]|done|].
    rewrite (chainID_skel _ _ _ Hss), (chain_diffIDs_skel _ _ _ Hss). done.
  - apply (inv_mounts _ _ Hinv).
  - apply Hheld.
  - intros l'. rewrite lookup_insert. case_decide.
    + subst. intros _. assert (l' < ls_next ls); [|lia].
      apply (inv_fresh _ _ Hinv). by rewrite Hl.
    + intros Hs%(inv_fresh _ _ Hinv). lia.
  - intros m Hm%(inv_fresh_rw _ _ Hinv). lia.
  - intros l' rl0 r Hl'. rewrite lookup_insert. case_decide; [subst|].
    + intros [= <-] [Hr|?]%Hrefs; [|done].
      destruct (inv_refs _ _ Hinv l' rl r Hl' Hl Hr) as (n & ? & ?). exists n. split; [done|lia].
    + intros Hl0 Hr. destruct (inv_refs _ _ Hinv l' rl0 r Hl' Hl0 Hr) as (n & ? & ?).
      exists n. split; [done|lia].
  - intros m ml r Hm Hr. destruct (inv_rw_refs _ _ Hinv m ml r Hm Hr) as (n & ? & ?).
    exists n. split; [done|lia].
  - intros l' rl0 Hl' Hl0.
    assert (children (with_next (with_ro ls (<[l := rl']> (ls_ro ls))) next') l'
            = children ls l') as ->.
    { apply count_uses_ext. intros c x _. by apply parent_of_skel. }
    change (mount_uses _ l') with (mount_uses ls l').
    destruct (decide (l' = l)) as [->|Hne].
    + rewrite lookup_insert_eq in Hl0. injection Hl0 as <-.
      pose proof (inv_count _ _ Hinv l rl Hl' Hl). lia.
    + rewrite lookup_insert_ne in Hl0 by done. rewrite Hocc by done.
      apply (inv_count _ _ Hinv l' rl0 Hl' Hl0).
Qed.

(** The same without an allocation. *)
Lemma inv_update_ro held held' ls l rl rl' :
  layer_inv held ls → live ls l → ls_ro ls !! l = Some rl → skel rl' = skel rl →
  rl_references rl' ⊆ rl_references rl →
  (∀ x, x ∈ held' → live ls x) →
  (∀ x, x ≠ l → occurrences x held' = occurrences x held) →
  (rl_referenceCount rl' - Z.of_nat (size (rl_references rl')) - Z.of_nat (occurrences l held')
   = rl_referenceCount rl - Z.of_nat (size (rl_references rl)) - Z.of_nat (occurrences l held))%Z →
  layer_inv held' (with_ro ls (<[l := rl']> (ls_ro ls))).
Proof.
  intros Hinv Hlive Hl Hsk Hrefs Hheld Hocc Hbal.
  apply (inv_same_memory _ (with_next (with_ro ls (<[l := rl']> (ls_ro ls))) (ls_next ls)));
    [done|].
  apply (inv_update held held' ls l rl rl'); auto with lia.
Qed.

(** ** The atomic updates *)

Lemma layerMap_inj held ls c c' l :
  layer_inv held ls → ls_layerMap ls !! c = Some l → ls_layerMap ls !! c' = Some l →
  c = c'.
Proof.
  intros Hinv Hc Hc'. destruct (inv_map _ _ Hinv c l Hc) as (rl & Hl & <-).
  symmetry. symmetry. by apply (inv_map_key held ls c' l rl Hinv).
Qed.

Lemma getWithoutLock_inv held ls ls' c l :
  layer_inv held ls → getWithoutLock ls c = (ls', Some l) →
  layer_inv (l :: held) ls' ∧ live ls' l.
Proof.
  unfold getWithoutLock. intros Hinv. destruct (ls_layerMap ls !! c) as [l'|] eqn:Hc; [|done].
  intros [= <- <-]. assert (live ls l') as Hlive by (by exists c).
  destruct (live_lookup held ls l' Hinv Hlive) as [rl Hl].
  split; [|by exists c]. rewrite (alter_Some _ _ _ _ Hl).
  apply (inv_update_ro held _ ls l' rl); simpl; auto.
  - intros x [->|Hx]%elem_of_cons; [done|]. by apply (inv_held _ _ Hinv).
  - intros x Hx. rewrite occurrences_cons. by rewrite decide_False.
  - rewrite occurrences_cons, decide_True by done. lia.
Qed.

(** A hold becomes a client's reference. *)
Lemma getReference_inv held ls l :
  layer_inv (l :: held) ls → layer_inv held (roLayer_getReference ls l).1.
Proof.
  intros Hinv. assert (live ls l) as Hlive by (apply (inv_held _ _ Hinv); set_solver).
  destruct (live_lookup _ ls l Hinv Hlive) as [rl Hl].
  unfold roLayer_getReference; simpl. rewrite (alter_Some _ _ _ _ Hl).
  assert (referencedCacheLayer (ls_next ls) l ∉ rl_references rl) as Hfresh.
  { intros Hr. destruct (inv_refs _ _ Hinv l rl _ Hlive Hl Hr) as (n & [=] & ?). lia. }
  apply (inv_update (l :: held) held ls l rl); simpl; auto.
  - intros r [->%elem_of_singleton|Hr]%elem_of_union; [right|by left]. eauto.
  - intros x Hx. apply (inv_held _ _ Hinv). set_solver.
  - intros x Hx. rewrite occurrences_cons. by rewrite decide_False.
  - rewrite occurrences_cons, decide_True by done.
    rewrite size_union, size_singleton by set_solver. lia.
Qed.

(** A client's reference becomes a hold. *)
Lemma deleteReference_inv held ls l rl r :
  layer_inv held ls → live ls l → ls_ro ls !! l = Some rl → r ∈ rl_references rl →
  layer_inv (l :: held) (roLayer_deleteReference ls l r).
Proof.
  intros Hinv Hlive Hl Hr. unfold roLayer_deleteReference.
  rewrite (alter_Some _ _ _ _ Hl).
  apply (inv_update_ro held _ ls l rl); simpl; auto; [set_solver|..].
  - intros x [->|Hx]%elem_of_cons; [done|]. by apply (inv_held _ _ Hinv).
  - intros x Hx. rewrite occurrences_cons. by rewrite decide_False.
  - rewrite occurrences_cons, decide_True by done.
    rewrite size_difference by set_solver. rewrite size_singleton.
    assert (size (rl_references rl) ≠ 0); [|lia].
    intros Hz%size_empty_inv. set_solver.
Qed.

(** Dropping a hold. *)
Lemma decrement_inv held ls l rl :
  layer_inv (l :: held) ls → ls_ro ls !! l = Some rl →
  layer_inv held
    (with_ro ls (<[l := set_referenceCount rl (rl_referenceCount rl - 1)]> (ls_ro ls))).
Proof.
  intros Hinv Hl. assert (live ls l) as Hlive by (apply (inv_held _ _ Hinv); set_solver).
  apply (inv_update_ro (l :: held) held ls l rl); simpl; auto.
  - intros x Hx. apply (inv_held _ _ Hinv). set_solver.
  - intros x Hx. rewrite occurrences_cons. by rewrite decide_False.
  - rewrite occurrences_cons, decide_True by done. lia.
Qed.

Lemma held_count_pos held ls l rl :
  layer_inv (l :: held) ls → ls_ro ls !! l = Some rl → (0 < rl_referenceCount rl)%Z.
Proof.
  intros Hinv Hl. assert (live ls l) as Hlive by (apply (inv_held _ _ Hinv); set_solver).
  rewrite (inv_count _ _ Hinv l rl Hlive Hl), occurrences_cons, decide_True by done. lia.
Qed.

Lemma live_remove held ls l rl x :
  layer_inv held ls → live ls l → ls_ro ls !! l = Some rl →
  live (with_layerMap ls (delete (rl_chainID rl) (ls_layerMap ls))) x ↔
    live ls x ∧ x ≠ l.
Proof.
  intros Hinv [c Hc] Hl. rewrite (inv_map_key held ls c l rl Hinv Hc Hl).
  unfold live; simpl. split.
  - intros [c' [Hne Hc']%lookup_delete_Some]. split; [by exists c'|].
    intros ->. by apply Hne, (layerMap_inj held ls c c' l).
  - intros [[c' Hc'] Hne]. exists c'. apply lookup_delete_Some. split; [|done].
    intros ->. congruence.
Qed.

(** The holds after a layer, or a mount, with parent [p] is gone. *)
Definition hold (p : option loc) held : list loc := option_list p ++ held.

Lemma occurrences_hold (x : loc) (p : option loc) held :
  occurrences x (hold p held) =
    (if decide (p = Some x) then 1 else 0) + occurrences x held.
Proof.
  destruct p as [p|]; simpl; [|done]. unfold hold; simpl. rewrite occurrences_cons.
  repeat case_decide; congruence.
Qed.

Lemma elem_of_hold (x : loc) (p : option loc) held :
  x ∈ hold p held ↔ p = Some x ∨ x ∈ held.
Proof. destruct p; unfold hold; simpl; set_solver. Qed.

(** A layer nobody uses is taken out of the map; its use of its parent becomes a
    hold, which the next round of the loop releases. *)
Lemma inv_remove held ls l rl :
  layer_inv held ls → live ls l → ls_ro ls !! l = Some rl →
  rl_referenceCount rl = 0%Z →
  layer_inv (hold (rl_parent rl) held)
    (with_layerMap ls (delete (rl_chainID rl) (ls_layerMap ls))).
Proof.
  intros Hinv Hlive Hl Hzero.
  pose proof (inv_count _ _ Hinv l rl Hlive Hl) as Hcount.
  assert (children ls l = 0 ∧ mount_uses ls l = 0 ∧ occurrences l held = 0)
    as (Hch & Hmu & Hoc) by lia.
  assert (∀ x, live ls x → x ≠ l →
    live (with_layerMap ls (delete (rl_chainID rl) (ls_layerMap ls))) x) as Hstay.
  { intros x ??. by apply (live_remove held ls l rl x). }
  assert (∀ x, live (with_layerMap ls (delete (rl_chainID rl) (ls_layerMap ls))) x →
    live ls x ∧ x ≠ l) as Hold.
  { intros x. by apply (live_remove held ls l rl x). }
  assert (∀ x, live ls x → parent_of (ls_ro ls) x ≠ Some l) as Hnochild.
  { intros x [c Hc]. by apply (count_uses_zero _ _ _ Hch c). }
  split; simpl.
  - intros c x [_ Hc]%lookup_delete_Some. by apply (inv_map _ _ Hinv).
  - intros x p [Hx _]%Hold Hp. apply Hstay; [by apply (inv_parent _ _ Hinv x)|].
    intros ->. by apply (Hnochild x).
  - intros x [Hx _]%Hold. by apply (inv_chain _ _ Hinv).
  - intros n m Hm. destruct (inv_mounts _ _ Hinv n m Hm) as (ml & Hml & Hn & Hp).
    exists ml. split_and!; [done..|]. intros p Hpar. apply Hstay; [by apply Hp|].
    intros ->. apply (count_uses_zero _ _ _ Hmu n m Hm).
    unfold mount_parent. by rewrite Hml.
  - intros x [Hx|Hx]%elem_of_hold.
    + apply Hstay.
      * apply (inv_parent _ _ Hinv l); [done|]. by rewrite (parent_of_Some _ _ _ Hl).
      * intros ->. apply (Hnochild l Hlive). by rewrite (parent_of_Some _ _ _ Hl).
    + apply Hstay; [by apply (inv_held _ _ Hinv)|]. intros ->.
      by apply (occurrences_zero l held).
  - apply (inv_fresh _ _ Hinv).
  - apply (inv_fresh_rw _ _ Hinv).
  - intros x rl0 r [Hx _]%Hold. by apply (inv_refs _ _ Hinv).
  - apply (inv_rw_refs _ _ Hinv).
  - intros x rl0 [Hx Hne]%Hold Hrl0. rewrite (inv_count _ _ Hinv x rl0 Hx Hrl0).
    rewrite occurrences_hold. change (mount_uses _ x) with (mount_uses ls x) at 2.
    destruct Hlive as [c Hc]. pose proof (inv_map_key held ls c l rl Hinv Hc Hl) as <-.
    unfold children. rewrite (count_uses_delete _ _ _ _ x Hc); simpl.
    rewrite (parent_of_Some _ _ _ Hl). lia.
Qed.

(** ** Releasing a layer *)

Lemma deleteLayer_safe ls rl l ps :
  chain (ls_ro ls) l ps →
  safe (deleteLayer ls rl l)
    (λ ls' md, same_memory ls ls' ∧ md_ChainID md = rl_chainID rl)
    (λ ls' _, same_memory ls ls').
Proof.
  intros Hc. unfold deleteLayer, call_driver, call_store.
  destruct (Driver_Remove _ _) as [d [e|]]; simpl; [done|].
  destruct (Meta_Remove _ _) as [m [e|]]; simpl; [done|].
  destruct (roLayer_Size_chain (heap_fuel ls) (ls_ro ls) l ps Hc) as [s Hs].
  { pose proof (chain_length _ _ _ Hc). unfold heap_fuel. lia. }
  unfold heap_fuel in *; simpl in *. by rewrite Hs.
Qed.

(** Heaps that differ at most in the reference counts. *)
Definition same_upto_count h h' : Prop :=
  ∀ l, (λ rl, (skel rl, rl_references rl)) <$> h !! l =
       (λ rl, (skel rl, rl_references rl)) <$> h' !! l.

#[global] Instance same_upto_count_equiv : Equivalence same_upto_count.
Proof.
split; [done|by intros h h' Hs l; rewrite Hs|].
intros h1 h2 h3 H1 H2 l. by rewrite H1.
Qed.

Lemma same_upto_count_skel h h' : same_upto_count h h' → same_skel h h'.
Proof.
  intros Hs l. specialize (Hs l). destruct (h !! l), (h' !! l); simpl in *; congruence.
Qed.

Lemma same_upto_count_refs h h' l rl :
  same_upto_count h h' → h !! l = Some rl →
  ∃ rl', h' !! l = Some rl' ∧ rl_references rl' = rl_references rl.
Proof.
  intros Hs Hl. specialize (Hs l). rewrite Hl in Hs.
  destruct (h' !! l) as [rl'|]; [|done]. exists rl'. simpl in Hs. naive_solver.
Qed.

Lemma same_upto_count_set h l rl n :
  h !! l = Some rl → same_upto_count (<[l := set_referenceCount rl n]> h) h.
Proof.
  intros Hl l'. rewrite lookup_insert. case_decide; [subst; by rewrite Hl|done].
Qed.

(** What releasing may do to the rest of the store, also when it fails half way:
    the map only loses layers, never one that a client still references. *)
Definition release_frame ls ls' : Prop :=
  (∀ c x, ls_layerMap ls' !! c = Some x → ls_layerMap ls !! c = Some x) ∧
  (∀ c x rl, ls_layerMap ls !! c = Some x → ls_ro ls !! x = Some rl →
     rl_references rl ≠ ∅ → ls_layerMap ls' !! c = Some x) ∧
  ls_mounts ls' = ls_mounts ls ∧ ls_rw ls' = ls_rw ls ∧ ls_next ls' = ls_next ls ∧
  same_upto_count (ls_ro ls') (ls_ro ls).

Lemma release_frame_trans ls1 ls2 ls3 :
  release_frame ls1 ls2 → release_frame ls2 ls3 → release_frame ls1 ls3.
Proof.
  intros (Ha1 & Hb1 & Hc1 & Hd1 & He1 & Hf1) (Ha2 & Hb2 & Hc2 & Hd2 & He2 & Hf2).
  split_and!; [by auto| |congruence..|by etrans].
  intros c x rl Hc Hx Hr. symmetry in Hf1.
  destruct (same_upto_count_refs _ _ _ _ Hf1 Hx) as (rl2 & Hx2 & Hr2).
  apply (Hb2 c x rl2); [by apply (Hb1 c x rl)|done|congruence].
Qed.

(** The layer at [x] is counted [n] times. *)
Definition counted ls x (n : Z) : Prop :=
  ∃ rl, ls_ro ls !! x = Some rl ∧ rl_referenceCount rl = n.

Lemma counted_insert ls ls' l rl x n :
  ls_ro ls' = <[l := rl]> (ls_ro ls) → x ≠ l → counted ls' x n → counted ls x n.
Proof. unfold counted. intros -> Hx. by rewrite lookup_insert_ne. Qed.

(** The layers [gone], a prefix of the chain [ps], have left the map and are
    reported in order; each of them was counted once, for the release or for the
    child that went before it; the layer after them, if any, was counted more than
    once, has lost one of its counts, and is still in use. *)
Definition release_post ls ps ls' (reported : list Metadata) : Prop :=
  ∃ gone rest, ps = gone ++ rest ∧
    md_ChainID <$> reported = (λ x, from_option rl_chainID "" (ls_ro ls !! x)) <$> gone ∧
    (∀ c x, ls_layerMap ls' !! c = Some x ↔ ls_layerMap ls !! c = Some x ∧ x ∉ gone) ∧
    Forall (λ x, counted ls x 1) gone ∧
    (∀ x, head rest = Some x → live ls' x ∧
       ∃ n, (0 < n)%Z ∧ counted ls' x n ∧ counted ls x (n + 1)).

(** One layer, without references, has left the map. *)
Definition removed_one ls rl ls' : Prop :=
  rl_references rl = ∅ ∧
  ls_layerMap ls' = delete (rl_chainID rl) (ls_layerMap ls) ∧
  ls_mounts ls' = ls_mounts ls ∧ ls_rw ls' = ls_rw ls ∧ ls_next ls' = ls_next ls ∧
  same_upto_count (ls_ro ls') (ls_ro ls).

Lemma removed_one_frame held ls l rl ls' :
  layer_inv held ls → ls_ro ls !! l = Some rl → live ls l →
  removed_one ls rl ls' → release_frame ls ls'.
Proof.
  intros Hinv Hl [c0 Hc0] (Hr & Hm & ? & ? & ? & ?).
  rewrite (inv_map_key held ls c0 l rl Hinv Hc0 Hl) in Hm.
  split_and!; [..|done|done|done|done]; rewrite Hm.
  - by intros c x [_ ?]%lookup_delete_Some.
  - intros c x rlx Hc Hx Hrx. rewrite lookup_delete_ne; [done|]. intros ->. congruence.
Qed.

(** The last use of a layer goes: the count drops to zero, the driver and the
    metadata store have removed it. *)
Lemma release_zero held ls ls2 l rl :
  layer_inv (l :: held) ls → ls_ro ls !! l = Some rl → rl_referenceCount rl = 1%Z →
  same_memory
    (with_ro ls (<[l := set_referenceCount rl (rl_referenceCount rl - 1)]> (ls_ro ls))) ls2 →
  layer_inv (hold (rl_parent rl) held)
    (with_layerMap ls2 (delete (rl_chainID rl) (ls_layerMap ls2))) ∧
  removed_one ls rl (with_layerMap ls2 (delete (rl_chainID rl) (ls_layerMap ls2))).
Proof.
  intros Hinv Hl Hone Hmem. pose proof (decrement_inv held ls l rl Hinv Hl) as Hinv1.
  set (rl1 := set_referenceCount rl (rl_referenceCount rl - 1)) in *.
  assert (live ls l) as Hlive by (apply (inv_held _ _ Hinv); set_solver).
  pose proof (inv_same_memory _ _ _ Hmem Hinv1) as Hinv2.
  destruct Hmem as (Hm1 & Hm2 & Hm3 & Hm4 & Hm5); simpl in *.
  assert (ls_ro ls2 !! l = Some rl1) as Hl2 by (by rewrite <- Hm3, lookup_insert_eq).
  assert (live ls2 l) as Hlive2 by (destruct Hlive as [c0 ?]; exists c0; by rewrite <- Hm1).
  assert (rl_referenceCount rl1 = 0%Z) as Hzero by (simpl; lia).
  split; [by apply (inv_remove held ls2 l rl1)|].
  unfold removed_one; simpl. rewrite <- Hm1, <- Hm3. split_and!; [|done..|].
  - pose proof (inv_count _ _ Hinv2 l rl1 Hlive2 Hl2) as Hcnt. rewrite Hzero in Hcnt.
    apply leibniz_equiv, size_empty_inv. simpl in Hcnt. lia.
  - by apply same_upto_count_set.
Qed.

Lemma release_post_keep ls l ps rl :
  live ls l → ls_ro ls !! l = Some rl → (0 < rl_referenceCount rl - 1)%Z →
  release_post ls (l :: ps)
    (with_ro ls (<[l := set_referenceCount rl (rl_referenceCount rl - 1)]> (ls_ro ls))) [].
Proof.
  intros Hlive Hl Hpos. exists [], (l :: ps). split_and!; simpl; [done|done| | |].
  - intros c x. set_solver.
  - done.
  - intros x [= <-]. split; [done|]. eexists. split; [exact Hpos|]. split.
    + eexists. split; [by apply lookup_insert_eq|done].
    + exists rl. split; [done|lia].
Qed.

Lemma release_frame_keep ls l rl n :
  ls_ro ls !! l = Some rl →
  release_frame ls (with_ro ls (<[l := set_referenceCount rl n]> (ls_ro ls))).
Proof. intros Hl. split_and!; simpl; [done..|]. by apply same_upto_count_set. Qed.

Lemma release_frame_memory ls ls1 ls2 :
  release_frame ls ls1 → same_memory ls1 ls2 → release_frame ls ls2.
Proof.
  unfold release_frame. intros (Ha & Hb & Hc & Hd & He & Hf) (Hm1 & Hm2 & Hm3 & Hm4 & Hm5).
  rewrite <- Hm1, <- Hm2, <- Hm3, <- Hm4, <- Hm5. done.
Qed.

Lemma release_post_cons held ls ls1 ls' l ps rl md reported :
  layer_inv held ls → live ls l → ls_ro ls !! l = Some rl →
  md_ChainID md = rl_chainID rl → rl_referenceCount rl = 1%Z → l ∉ ps →
  (∃ rl', ls_ro ls1 = <[l := rl']> (ls_ro ls)) → removed_one ls rl ls1 →
  release_post ls1 ps ls' reported → release_post ls (l :: ps) ls' (md :: reported).
Proof.
  intros Hinv [c0 Hc0] Hl Hmd Hone Hnin [rl' Hro] (_ & Hmap & _ & _ & _ & Hsk)
    (gone & rest & -> & Hids & Hlm & Hgone & Hrest).
  pose proof (inv_map_key held ls c0 l rl Hinv Hc0 Hl) as Hkey.
  exists (l :: gone), rest. split_and!; csimpl; [done| | | |].
  - rewrite Hl; simpl. f_equal; [done|]. rewrite Hids. apply list_fmap_ext.
    intros _ x _. by apply chainID_skel, same_upto_count_skel.
  - intros c x. rewrite Hlm, Hmap, lookup_delete_Some, not_elem_of_cons. split.
    + intros [[Hne Hc] Hx]. split_and!; [done| |done]. intros ->.
      apply Hne. rewrite Hkey. by apply (layerMap_inj held ls c0 c l).
    + intros (Hc & Hne & Hx). split_and!; [|done..]. intros <-. rewrite Hkey in *. congruence.
  - constructor; [by exists rl|]. apply Forall_forall. intros x Hx.
    eapply counted_insert, (proj1 (Forall_forall _ _) Hgone x Hx); [done|set_solver].
  - intros x Hx. destruct (Hrest x Hx) as (? & n & ? & ? & ?). split; [done|].
    exists n. split_and!; [done..|]. eapply counted_insert; [done| |done].
    destruct rest; simplify_eq/=. set_solver.
Qed.

Lemma release_post_nil ls : release_post ls [] ls [].
Proof. exists [], []. split_and!; [done..| |done|]; set_solver. Qed.

Lemma releaseLayer_loop_safe fuel held ls l ps depth removed :
  layer_inv (l :: held) ls → chain (ls_ro ls) l ps → length ps ≤ fuel →
  (0 < depth → removed ≠ []) →
  safe (releaseLayer_loop fuel ls l depth removed)
    (λ ls' removed', layer_inv held ls' ∧ release_frame ls ls' ∧
       ∃ new, removed' = removed ++ new ∧ release_post ls ps ls' new)
    (λ ls' _, layer_inv held ls' ∧ release_frame ls ls').
Proof.
  revert held ls l ps depth removed.
  induction fuel as [|fuel IH]; intros held ls l ps depth removed Hinv Hc Hlen Hdep.
  { destruct (chain_head _ _ _ Hc) as [? ->]. simpl in Hlen. lia. }
  assert (live ls l) as Hlive by (apply (inv_held _ _ Hinv); set_solver).
  destruct (live_lookup _ _ _ Hinv Hlive) as [rl Hl].
  pose proof (held_count_pos held ls l rl Hinv Hl) as Hpos.
  pose proof (decrement_inv held ls l rl Hinv Hl) as Hinv1.
  pose proof (release_frame_keep ls l rl (rl_referenceCount rl - 1) Hl) as Hf1.
  simpl. rewrite Hl, decide_False by lia. simpl. case_decide as Hnz.
  { simpl. split_and!; [done..|]. exists []. rewrite app_nil_r. split; [done|].
    destruct (chain_head _ _ _ Hc) as [ps' ->]. apply release_post_keep; [done..|lia]. }
  assert (rl_referenceCount rl = 1%Z) as Hone by lia.
  rewrite decide_False by (intros [Hr%length_zero_iff_nil Hd]; naive_solver).
  assert (roLayer_hasReferences rl = false) as Hnoref.
  { apply bool_decide_eq_false_2.
    destruct (release_zero held ls _ l rl Hinv Hl Hone ltac:(reflexivity)) as [_ [-> _]].
    rewrite size_empty. lia. }
  change (roLayer_hasReferences (set_referenceCount rl _)) with (roLayer_hasReferences rl).
  rewrite Hnoref. apply safe_bind.
  eapply safe_mono; [apply (deleteLayer_safe _ _ _ ps)|..].
  { eapply chain_skel; [|done]. symmetry. by apply (same_skel_insert l rl). }
  2: { intros ls2 e Hmem. split; [by apply (inv_same_memory _ _ _ Hmem)|].
       by apply (release_frame_memory _ _ _ Hf1). }
  intros ls2 md [Hmem Hmd].
  destruct (release_zero held ls ls2 l rl Hinv Hl Hone Hmem) as [Hinv3 Hrem].
  pose proof (removed_one_frame _ _ _ _ _ Hinv Hl Hlive Hrem) as Hf3.
  assert (∃ rl', ls_ro ls2 = <[l := rl']> (ls_ro ls)) as Hro.
  { destruct Hmem as (_ & _ & <- & _). by eexists. }
  assert (∀ ps', ps = l :: ps' → l ∉ ps') as Hnin.
  { intros ps' ->. by apply chain_NoDup, NoDup_cons in Hc as [? _]. }
  set (ls3 := with_layerMap ls2 _) in *.
  inversion Hc as [? rl0 Hl0 Hp0|? rl0 p ps' Hl0 Hp0 Hc0]; subst; simplify_eq;
    rewrite Hp0 in *; simpl.
  - split_and!; [done..|]. exists [md]. split; [done|].
    apply (release_post_cons (l :: held) ls ls3 ls3 l [] rl); auto using release_post_nil.
  - eapply safe_mono; [apply (IH held ls3 p ps'); [exact Hinv3| | |]|..].
    + eapply chain_skel; [symmetry|done]. apply same_upto_count_skel, Hrem.
    + simpl in Hlen. lia.
    + intros _. by destruct removed.
    + intros ls' removed' (Hinv' & Hf & new & -> & Hpost).
      split_and!; [done|by eapply release_frame_trans|].
      exists (md :: new). split; [by rewrite <- app_assoc|].
      by apply (release_post_cons (l :: held) ls ls3 ls' l ps' rl); auto.
    + intros ls' e [? ?]. split; [done|by eapply release_frame_trans].
Qed.

Lemma releaseLayer_safe held ls l :
  layer_inv (l :: held) ls →
  safe (releaseLayer ls l)
    (λ ls' removed, layer_inv held ls' ∧ release_frame ls ls' ∧
       ∃ ps, chain (ls_ro ls) l ps ∧ release_post ls ps ls' removed)
    (λ ls' _, layer_inv held ls' ∧ release_frame ls ls').
Proof.
  intros Hinv. assert (live ls l) as Hlive by (apply (inv_held _ _ Hinv); set_solver).
  destruct (inv_chain _ _ Hinv l Hlive) as (ps & Hc & _ & _).
  eapply safe_mono; [apply (releaseLayer_loop_safe _ held ls l ps); [done..| |]| |].
  - pose proof (chain_length _ _ _ Hc). unfold heap_fuel. lia.
  - lia.
  - simpl. intros ls' removed (? & ? & new & -> & ?). eauto.
  - done.
Qed.

(** ** Publishing a layer *)

Lemma createChainIDFromParent_app parent (a b : list string) :
  createChainIDFromParent parent (a ++ b) =
    createChainIDFromParent (createChainIDFromParent parent a) b.
Proof.
  revert parent; induction a as [|d a IH]; intros parent; simpl; [done|].
  case_decide; apply IH.
Qed.

Lemma chain_insert h l rl x ps :
  h !! l = None → chain h x ps → chain (<[l := rl]> h) x ps.
Proof.
  intros Hl. induction 1 as [x rl0 Hx Hp|x rl0 p ps Hx Hp _ IH].
  - apply (chain_root _ x rl0); [|done]. rewrite lookup_insert_ne; congruence.
  - apply (chain_step _ x rl0 p); [|done..]. rewrite lookup_insert_ne; congruence.
Qed.

Lemma chain_diffIDs_insert h l rl ps :
  l ∉ ps → chain_diffIDs (<[l := rl]> h) ps = chain_diffIDs h ps.
Proof.
  intros Hl. unfold chain_diffIDs. f_equal. apply list_fmap_ext.
  intros i x Hx%list_elem_of_lookup_2. rewrite lookup_insert_ne; [done|congruence].
Qed.

Lemma chain_not_fresh h l ps x : chain h l ps → h !! x = None → x ∉ ps.
Proof.
  intros Hc Hx Hin. pose proof (chain_dom _ _ _ Hc) as Hd.
  assert (x ∈ (dom h : gset loc)) as Hdx by set_solver.
  apply elem_of_dom in Hdx as [? ?]. congruence.
Qed.

(** The parent a new layer is built on leaves room for one more. *)
Definition depth_room h (p : option loc) : Prop :=
  ∀ q ps, p = Some q → chain h q ps → length ps < maxLayerDepth.

(** The chain identifier a new layer gets from its parent. *)
Definition chain_id_of h rl : string :=
  match rl_parent rl with
  | None => rl_diffID rl
  | Some p => createChainIDFromParent (from_option rl_chainID "" (h !! p)) [rl_diffID rl]
  end.

Lemma chain_new held ls rl l :
  layer_inv (hold (rl_parent rl) held) ls → ls_ro ls !! l = None →
  depth_room (ls_ro ls) (rl_parent rl) →
  rl_chainID rl = chain_id_of (ls_ro ls) rl →
  ∃ ps, chain (<[l := rl]> (ls_ro ls)) l ps ∧ length ps ≤ maxLayerDepth ∧
    rl_chainID rl = CreateChainID (chain_diffIDs (<[l := rl]> (ls_ro ls)) ps).
Proof.
  intros Hinv Hl Hroom Hid. unfold chain_id_of in Hid.
  destruct (rl_parent rl) as [p|] eqn:Hp.
  - assert (live ls p) as Hlive by (apply (inv_held _ _ Hinv); set_solver).
    destruct (inv_chain _ _ Hinv p Hlive) as (ps & Hc & Hlen & Hpid).
    exists (l :: ps). split_and!.
    + apply (chain_step _ l rl p); [by rewrite lookup_insert_eq|done|].
      by apply chain_insert.
    + pose proof (Hroom p ps eq_refl Hc). simpl. lia.
    + unfold chain_diffIDs. rewrite fmap_cons, reverse_cons, lookup_insert_eq; simpl.
      change (reverse _) with (chain_diffIDs (<[l := rl]> (ls_ro ls)) ps).
      rewrite chain_diffIDs_insert by (by eapply chain_not_fresh).
      unfold CreateChainID. rewrite createChainIDFromParent_app.
      unfold CreateChainID in Hpid. by rewrite <- Hpid.
  - exists [l]. split_and!; [apply (chain_root _ l rl); [by rewrite lookup_insert_eq|done]| |].
    { unfold maxLayerDepth. simpl. lia. }
    unfold chain_diffIDs; simpl. by rewrite lookup_insert_eq.
Qed.

Definition publish ls rl : store :=
  with_layerMap (with_next (with_ro ls (<[ls_next ls := rl]> (ls_ro ls))) (S (ls_next ls)))
    (<[rl_chainID rl := ls_next ls]> (ls_layerMap ls)).

Lemma ls_next_fresh held ls : layer_inv held ls → ls_ro ls !! ls_next ls = None.
Proof.
  intros Hinv. apply eq_None_not_Some. intros Hs%(inv_fresh _ _ Hinv). lia.
Qed.

Lemma live_publish ls rl x :
  ls_layerMap ls !! rl_chainID rl = None →
  live (publish ls rl) x ↔ live ls x ∨ x = ls_next ls.
Proof.
  intros Hnone. unfold live, publish; simpl. split.
  - intros [c [[_ <-]|[_ Hc]]%lookup_insert_Some]; [by right|left; by exists c].
  - intros [[c Hc]| ->].
    + exists c. rewrite lookup_insert_ne; [done|congruence].
    + eexists. by rewrite lookup_insert_eq.
Qed.

Lemma live_not_next held ls x : layer_inv held ls → live ls x → x ≠ ls_next ls.
Proof.
  intros Hinv Hx ->. destruct (live_lookup _ _ _ Hinv Hx) as [rl Hl].
  by rewrite (ls_next_fresh _ _ Hinv) in Hl.
Qed.

(** Nothing refers to an address that is not allocated yet. *)
Lemma next_unused held ls :
  layer_inv held ls →
  children ls (ls_next ls) = 0 ∧ mount_uses ls (ls_next ls) = 0 ∧
  occurrences (ls_next ls) held = 0.
Proof.
  intros Hinv. pose proof (live_not_next held ls (ls_next ls) Hinv) as Hne.
  split_and!.
  - apply count_uses_none. intros c x Hc Hx. apply Hne; [|done].
    apply (inv_parent _ _ Hinv x); [by exists c|done].
  - apply count_uses_none. intros n m Hm. unfold mount_parent.
    destruct (inv_mounts _ _ Hinv n m Hm) as (ml & -> & _ & Hp). simpl. intros Hx.
    apply Hne; [by apply Hp|done].
  - apply occurrences_none. intros Hin. apply Hne; [|done]. by apply (inv_held _ _ Hinv).
Qed.

Lemma publish_lookup_old held ls rl x :
  layer_inv held ls → live ls x → ls_ro (publish ls rl) !! x = ls_ro ls !! x.
Proof.
  intros Hinv Hx. simpl. rewrite lookup_insert_ne; [done|].
  symmetry. by apply (live_not_next held).
Qed.

Lemma publish_children held ls rl x :
  layer_inv held ls → ls_layerMap ls !! rl_chainID rl = None →
  children (publish ls rl) x =
    (if decide (rl_parent rl = Some x) then 1 else 0) + children ls x.
Proof.
  intros Hinv Hnone. unfold children at 1.
  change (ls_layerMap (publish ls rl)) with
    (<[rl_chainID rl := ls_next ls]> (ls_layerMap ls)).
  rewrite count_uses_insert by done.
  rewrite (parent_of_Some _ _ rl) by apply lookup_insert_eq. f_equal.
  apply count_uses_ext. intros c y Hc. unfold parent_of.
  by rewrite (publish_lookup_old held) by (done || by exists c).
Qed.

Lemma publish_count held ls rl l rl0 :
  layer_inv (hold (rl_parent rl) held) ls →
  ls_layerMap ls !! rl_chainID rl = None →
  rl_referenceCount rl = 1%Z → rl_references rl = ∅ →
  live (publish ls rl) l → ls_ro (publish ls rl) !! l = Some rl0 →
  rl_referenceCount rl0 =
    Z.of_nat (size (rl_references rl0) + children (publish ls rl) l
              + mount_uses (publish ls rl) l + occurrences l (ls_next ls :: held)).
Proof.
  intros Hinv Hnone Hrc Hrefs Hl Hl0.
  rewrite (publish_children _ _ _ _ Hinv Hnone).
  change (mount_uses (publish ls rl) l) with (mount_uses ls l).
  rewrite occurrences_cons. apply (live_publish ls rl l Hnone) in Hl as [Hl| ->].
  - rewrite (publish_lookup_old _ _ _ _ Hinv Hl) in Hl0.
    pose proof (inv_count _ _ Hinv l rl0 Hl Hl0) as Hcnt.
    rewrite occurrences_hold in Hcnt.
    rewrite (decide_False (P := l = ls_next ls)) by (by apply (live_not_next _ _ _ Hinv)).
    lia.
  - simpl in Hl0. rewrite lookup_insert_eq in Hl0. injection Hl0 as <-.
    destruct (next_unused _ _ Hinv) as (-> & -> & Hocc).
    rewrite occurrences_hold in Hocc.
    rewrite Hrc, Hrefs, size_empty, (decide_True (P := ls_next ls = ls_next ls)) by done.
    lia.
Qed.

Lemma inv_publish held ls rl :
  layer_inv (hold (rl_parent rl) held) ls →
  ls_layerMap ls !! rl_chainID rl = None →
  rl_referenceCount rl = 1%Z → rl_references rl = ∅ →
  depth_room (ls_ro ls) (rl_parent rl) →
  rl_chainID rl = chain_id_of (ls_ro ls) rl →
  layer_inv (ls_next ls :: held) (publish ls rl).
Proof.
  intros Hinv Hnone Hrc Hrefs Hroom Hid.
  pose proof (live_publish ls rl) as Hpub. pose proof (ls_next_fresh _ _ Hinv) as Hfresh.
  split.
  - intros c l Hc. simpl in Hc. apply lookup_insert_Some in Hc as [[<- <-]|[Hcne Hc]].
    + exists rl. simpl. by rewrite lookup_insert_eq.
    + rewrite (publish_lookup_old _ _ _ _ Hinv) by (by exists c).
      by apply (inv_map _ _ Hinv).
  - intros l p. rewrite !Hpub by done. intros [Hl| ->].
    + unfold parent_of. rewrite (publish_lookup_old _ _ _ _ Hinv Hl). left.
      by apply (inv_parent _ _ Hinv l).
    + rewrite (parent_of_Some _ _ rl) by apply lookup_insert_eq. intros Hp. left.
      apply (inv_held _ _ Hinv), elem_of_hold. by left.
  - intros l. rewrite Hpub by done. intros [Hl| ->].
    + destruct (inv_chain _ _ Hinv l Hl) as (ps & Hc & Hlen & Hcid). exists ps.
      rewrite (publish_lookup_old _ _ _ _ Hinv Hl). simpl.
      rewrite chain_diffIDs_insert by (by eapply chain_not_fresh).
      split_and!; [by apply chain_insert|done|done].
    + simpl. rewrite lookup_insert_eq. by apply (chain_new held).
  - intros n m Hm. destruct (inv_mounts _ _ Hinv n m Hm) as (ml & ? & ? & Hp).
    exists ml. split_and!; [done..|]. intros p Hmp. rewrite Hpub by done.
    left. by apply Hp.
  - intros l. rewrite Hpub by done. intros [->|Hl]%elem_of_cons; [by right|left].
    apply (inv_held _ _ Hinv), elem_of_hold. by right.
  - intros l. simpl. rewrite lookup_insert. case_decide; [lia|].
    intros Hs%(inv_fresh _ _ Hinv). lia.
  - intros m Hs%(inv_fresh_rw _ _ Hinv). simpl. lia.
  - intros l rl0 r. rewrite Hpub by done. intros [Hl| ->].
    + rewrite (publish_lookup_old _ _ _ _ Hinv Hl). intros Hl0 Hr.
      destruct (inv_refs _ _ Hinv l rl0 r Hl Hl0 Hr) as (n & ? & ?).
      exists n. simpl. split; [done|lia].
    + simpl. rewrite lookup_insert_eq. intros [= <-]. rewrite Hrefs. set_solver.
  - intros m ml r Hm Hr. destruct (inv_rw_refs _ _ Hinv m ml r Hm Hr) as (n & ? & ?).
    exists n. simpl. split; [done|lia].
  - intros l rl0. by apply publish_count.
Qed.

(** ** Mounts *)

Lemma mount_parent_Some (rw : gmap loc mountedLayer) m ml :
  rw !! m = Some ml → mount_parent rw m = ml_parent ml.
Proof. unfold mount_parent. by intros ->. Qed.

(** Changing the references of a mount. *)
Lemma inv_rw_update held ls m ml r next' :
  layer_inv held ls → ls_rw ls !! m = Some ml → ls_next ls ≤ next' →
  (∀ x, x ∈ r → x ∈ ml_references ml ∨ ∃ n, x = referencedRWLayer n m ∧ n < next') →
  layer_inv held (with_next (with_rw ls (<[m := set_ml_references ml r]> (ls_rw ls))) next').
Proof.
  intros Hinv Hm Hnext Hr. split; simpl.
  - apply (inv_map _ _ Hinv).
  - apply (inv_parent _ _ Hinv).
  - apply (inv_chain _ _ Hinv).
  - intros n m' Hm'. destruct (inv_mounts _ _ Hinv n m' Hm') as (ml' & Hml' & Hn & Hp).
    rewrite lookup_insert. case_decide; [subst|by exists ml'].
    eexists. split_and!; [done|..]; simpl; congruence || (intros; apply Hp; congruence).
  - apply (inv_held _ _ Hinv).
  - intros l Hs%(inv_fresh _ _ Hinv). lia.
  - intros m'. rewrite lookup_insert. case_decide; [subst|].
    + intros _. assert (m' < ls_next ls); [|lia]. apply (inv_fresh_rw _ _ Hinv). by rewrite Hm.
    + intros Hs%(inv_fresh_rw _ _ Hinv). lia.
  - intros l rl x Hl Hrl Hx. destruct (inv_refs _ _ Hinv l rl x Hl Hrl Hx) as (n & ? & ?).
    exists n. split; [done|lia].
  - intros m' ml' x. rewrite lookup_insert. case_decide; [subst|].
    + intros [= <-] [Hx|?]%Hr; [|done].
      destruct (inv_rw_refs _ _ Hinv m' ml x Hm Hx) as (n & ? & ?). exists n. split; [done|lia].
    + intros Hm' Hx. destruct (inv_rw_refs _ _ Hinv m' ml' x Hm' Hx) as (n & ? & ?).
      exists n. split; [done|lia].
  - intros l rl Hl Hrl. rewrite (inv_count _ _ Hinv l rl Hl Hrl).
    enough (mount_uses (with_next (with_rw ls (<[m := set_ml_references ml r]> (ls_rw ls)))
              next') l = mount_uses ls l) as -> by done.
    apply count_uses_ext. intros n m' Hm'. simpl. unfold mount_parent.
    rewrite lookup_insert. case_decide; [subst; by rewrite Hm|done].
Qed.

Lemma inv_rw_update_refs held ls m ml r :
  layer_inv held ls → ls_rw ls !! m = Some ml → r ⊆ ml_references ml →
  layer_inv held (with_rw ls (<[m := set_ml_references ml r]> (ls_rw ls))).
Proof.
  intros Hinv Hm Hr.
  apply (inv_same_memory _
    (with_next (with_rw ls (<[m := set_ml_references ml r]> (ls_rw ls))) (ls_next ls))); [done|].
  apply inv_rw_update; auto.
Qed.

Lemma mount_getReference_inv held ls n m :
  layer_inv held ls → ls_mounts ls !! n = Some m →
  layer_inv held (mountedLayer_getReference ls m).1.
Proof.
  intros Hinv Hn. destruct (inv_mounts _ _ Hinv n m Hn) as (ml & Hm & _).
  unfold mountedLayer_getReference; simpl. rewrite (alter_Some _ _ _ _ Hm).
  apply inv_rw_update; auto. intros x [->%elem_of_singleton|Hx]%elem_of_union; eauto.
Qed.

Definition add_mount ls (ml : mountedLayer) : store :=
  with_mounts (with_next (with_rw ls (<[ls_next ls := ml]> (ls_rw ls))) (S (ls_next ls)))
    (<[ml_name ml := ls_next ls]> (ls_mounts ls)).

(** A hold on the parent becomes its use by the new mount. *)
Lemma inv_add_mount held ls ml :
  layer_inv (hold (ml_parent ml) held) ls → ls_mounts ls !! ml_name ml = None →
  ml_references ml = ∅ → layer_inv held (add_mount ls ml).
Proof.
  intros Hinv Hnone Hrefs.
  assert (∀ n m, ls_mounts ls !! n = Some m → m ≠ ls_next ls) as Hne.
  { intros n m Hm ->. destruct (inv_mounts _ _ Hinv n _ Hm) as (ml' & Hml' & _).
    assert (ls_next ls < ls_next ls); [|lia]. apply (inv_fresh_rw _ _ Hinv). by rewrite Hml'. }
  split; simpl.
  - apply (inv_map _ _ Hinv).
  - apply (inv_parent _ _ Hinv).
  - apply (inv_chain _ _ Hinv).
  - intros n m [[<- <-]|[_ Hm]]%lookup_insert_Some.
    + exists ml. rewrite lookup_insert_eq. split_and!; [done..|]. intros p Hp.
      apply (inv_held _ _ Hinv), elem_of_hold. by left.
    + rewrite lookup_insert_ne by (symmetry; by apply (Hne n)).
      by apply (inv_mounts _ _ Hinv).
  - intros l Hl. apply (inv_held _ _ Hinv), elem_of_hold. by right.
  - intros l Hs%(inv_fresh _ _ Hinv). lia.
  - intros m. rewrite lookup_insert. case_decide; [lia|].
    intros Hs%(inv_fresh_rw _ _ Hinv). lia.
  - intros l rl x Hl Hrl Hx. destruct (inv_refs _ _ Hinv l rl x Hl Hrl Hx) as (n & ? & ?).
    exists n. split; [done|lia].
  - intros m ml' x. rewrite lookup_insert. case_decide; [subst|].
    + intros [= <-]. rewrite Hrefs. set_solver.
    + intros Hm' Hx. destruct (inv_rw_refs _ _ Hinv m ml' x Hm' Hx) as (n & ? & ?).
      exists n. split; [done|lia].
  - intros l rl Hl Hrl. rewrite (inv_count _ _ Hinv l rl Hl Hrl), occurrences_hold.
    change (children (add_mount ls ml) l) with (children ls l).
    enough (mount_uses (add_mount ls ml) l =
      (if decide (ml_parent ml = Some l) then 1 else 0) + mount_uses ls l) as -> by lia.
    unfold mount_uses at 1. simpl. rewrite count_uses_insert by done.
    rewrite (mount_parent_Some _ _ ml) by apply lookup_insert_eq. f_equal.
    apply count_uses_ext. intros n m Hm. unfold mount_parent.
    by rewrite lookup_insert_ne by (symmetry; by apply (Hne n)).
Qed.

(** A mount's use of its parent becomes a hold. *)
Lemma inv_remove_mount held ls n m ml :
  layer_inv held ls → ls_mounts ls !! n = Some m → ls_rw ls !! m = Some ml →
  layer_inv (hold (ml_parent ml) held) (with_mounts ls (delete n (ls_mounts ls))).
Proof.
  intros Hinv Hn Hm. split; simpl; try apply Hinv.
  - intros n' m' [_ Hm']%lookup_delete_Some. by apply (inv_mounts _ _ Hinv).
  - intros l [Hp|Hl]%elem_of_hold; [|by apply (inv_held _ _ Hinv)].
    destruct (inv_mounts _ _ Hinv n m Hn) as (ml' & Hm' & _ & Hlive).
    simplify_eq. by apply Hlive.
  - intros l rl Hl Hrl. rewrite (inv_count _ _ Hinv l rl Hl Hrl), occurrences_hold.
    change (children (with_mounts ls _) l) with (children ls l).
    unfold mount_uses. rewrite (count_uses_delete _ _ _ _ l Hn). simpl.
    rewrite (mount_parent_Some _ _ _ Hm). lia.
Qed.

End layer_inv.
