(* ===== verification/LayerSafe.v ===== *)
(** * Safety of the layer store's operations

    Every operation of the store, run in a state that satisfies the invariant of
    LayerInv, neither panics nor loops and leaves the invariant true, whatever the
    driver and the metadata store answer: one operation at a time, any sequence
    of operations, and any interleaving of the atomic sections that the locks
    [layerL] and [mountL] delimit. *)

From S2P Require Import Prelude Layer LayerInv.

Section layer_safe.
Context {D M T Tar Desc : Type}.
Context {drv : Driver D Tar} {meta : MetadataStore M T Desc} {ext : LayerExt Tar Desc}.

Abbreviation store := (layerStore D M Desc).
Implicit Types (ls : store) (l p : loc) (rl : roLayer Desc) (held : list loc).

(** The invariant does not depend on the order of the holds. *)
#[global] Instance layer_inv_proper :
  Proper ((≡ₚ) ==> (=) ==> iff) (@layer_inv D M Tar Desc ext).
Proof.
  assert (∀ held held' ls, held ≡ₚ held' → layer_inv held ls → layer_inv held' ls) as H.
  { intros held held' ls Hp Hinv. split; try apply Hinv.
    - intros l. rewrite <- Hp. apply (inv_held _ _ Hinv).
    - intros l rl Hl Hrl. rewrite (inv_count _ _ Hinv l rl Hl Hrl).
      unfold occurrences. by rewrite Hp. }
  intros held held' Hp ls _ <-. split; by apply H.
Qed.

(** ** Calls of the interfaces *)

(** [memory_only r]: the call [r] from [ls] leaves the memory alone. *)
Lemma call_driver_safe ls f :
  safe (call_driver ls f) (λ ls' _, same_memory ls ls') (λ ls' _, same_memory ls ls').
Proof. unfold call_driver. by destruct (f (ls_driver ls)) as [d [e|]]. Qed.

Lemma call_store_safe ls f :
  safe (call_store ls f) (λ ls' _, same_memory ls ls') (λ ls' _, same_memory ls ls').
Proof. unfold call_store. by destruct (f (ls_store ls)) as [d [e|]]. Qed.

(** Sequencing after a call that leaves the memory alone. *)
Lemma safe_bind_memory {A B} ls0 ls (r : store * outcome layer_error A)
    (k : store → A → store * outcome layer_error B) (Q : store → B → Prop) (P : A → Prop) :
  same_memory ls0 ls →
  safe r (λ ls' a, same_memory ls ls' ∧ P a) (λ ls' _, same_memory ls ls') →
  (∀ ls' a, same_memory ls0 ls' → P a →
     safe (k ls' a) Q (λ ls'' _, same_memory ls0 ls'')) →
  safe (and_then r k) Q (λ ls' _, same_memory ls0 ls').
Proof.
  intros H0 Hr Hk. apply safe_bind. eapply safe_mono; [exact Hr| |].
  - intros ls' a [H1 Ha]. apply Hk; [by etrans|done].
  - intros ls' e H1. simpl in *. by etrans.
Qed.

Lemma safe_memory_call {A} ls (r : store * outcome layer_error A) :
  safe r (λ ls' _, same_memory ls ls') (λ ls' _, same_memory ls ls') →
  safe r (λ ls' a, same_memory ls ls' ∧ True) (λ ls' _, same_memory ls ls').
Proof. intros H. eapply safe_mono; [exact H|by auto|by auto]. Qed.

(** Step over the next interface call of the goal. *)
Ltac step_call :=
  eapply (safe_bind_memory _ _ _ _ _ (λ _, True));
    [eassumption || reflexivity
    |apply safe_memory_call;
       first [apply call_store_safe|apply call_driver_safe|simpl; reflexivity]
    |intros ? _ ? _].

Lemma storeLayer_safe ls tx rl :
  (∀ p, rl_parent rl = Some p → is_Some (ls_ro ls !! p)) →
  safe (storeLayer ls tx rl) (λ ls' _, same_memory ls ls') (λ ls' _, same_memory ls ls').
Proof.
  intros Hp. unfold storeLayer. do 3 step_call.
  eapply (safe_bind_memory _ _ _ _ _ (λ _, True)); [eassumption| |].
  { case_decide; [apply safe_memory_call, call_store_safe|simpl; done]. }
  intros ls4 _ Hm _. destruct (rl_parent rl) as [p|]; [|done].
  destruct (Hp p eq_refl) as [prl Hprl].
  assert (ls_ro ls4 !! p = Some prl) as -> by (by destruct Hm as (_ & _ & <- & _)).
  eapply safe_mono; [apply call_store_safe|..]; intros ? ? ?; by etrans.
Qed.

(** ** Registering a layer *)

(** Two descriptions of a layer that differ at most in what unpacking sets. *)
Definition same_place rl rl' : Prop :=
  rl_parent rl' = rl_parent rl ∧ rl_referenceCount rl' = rl_referenceCount rl ∧
  rl_references rl' = rl_references rl.

Lemma applyTar_safe ls tx ts pid rl :
  safe (applyTar ls tx ts pid rl)
    (λ ls' rl', same_memory ls ls' ∧ same_place rl rl' ∧ rl_diffID rl' = tar_Digest ts)
    (λ ls' _, same_memory ls ls').
Proof.
  unfold applyTar. step_call. destruct (NewInputTarStream ts); [done|].
  destruct (Driver_ApplyDiff _ _ _ _) as [d [e|size]]; simpl; done.
Qed.

Lemma register_prepare_safe ls tx ts pid rl :
  (∀ p, rl_parent rl = Some p → is_Some (ls_ro ls !! p)) →
  safe (register_prepare ls tx ts pid rl)
    (λ ls' rl', same_memory ls ls' ∧ same_place rl rl' ∧
       rl_diffID rl' = tar_Digest ts ∧ rl_chainID rl' = chain_id_of (ls_ro ls) rl')
    (λ ls' _, same_memory ls ls').
Proof.
  intros Hp. unfold register_prepare.
  apply (safe_bind_memory _ ls _ _ _
    (λ rl', same_place rl rl' ∧ rl_diffID rl' = tar_Digest ts)); [done|apply applyTar_safe|].
  intros ls1 rl1 Hm ((Hpar & Hrc & Hrefs) & Hdiff).
  assert (ls_ro ls1 = ls_ro ls) as Hro by (by destruct Hm as (_ & _ & -> & _)).
  rewrite Hro. rewrite Hpar. destruct (rl_parent rl) as [p|] eqn:Hrl.
  - destruct (Hp p eq_refl) as [prl Hprl]. rewrite Hprl.
    apply (safe_bind_memory _ ls1 _ _ _ (λ _, True)); [done| |].
    + apply safe_memory_call, storeLayer_safe. simpl. rewrite Hpar, Hro. naive_solver.
    + intros ls2 _ Hm2 _. simpl. unfold same_place, chain_id_of; simpl.
      rewrite Hpar, Hrl, Hprl. done.
  - apply (safe_bind_memory _ ls1 _ _ _ (λ _, True)); [done| |].
    + apply safe_memory_call, storeLayer_safe. simpl. rewrite Hpar. naive_solver.
    + intros ls2 _ Hm2 _. simpl. unfold same_place, chain_id_of; simpl.
      by rewrite Hpar, Hrl.
Qed.

(** The invariant after a body that may have left a hold to its deferred release,
    and a property of the value it returns. *)
Definition inv_after {A} (p : option loc) held (P : store → A → Prop) ls (r : A * bool) :
    Prop :=
  layer_inv (if r.2 then hold p held else held) ls ∧ P ls r.1.

(** A property of states that releasing other layers does not disturb. *)
Definition stable {A} (P : store → A → Prop) : Prop :=
  ∀ ls ls' a, release_frame ls ls' → P ls a → P ls' a.

Lemma same_memory_frame ls ls' : same_memory ls ls' → release_frame ls ls'.
Proof.
  intros Hm. eapply release_frame_memory; [|exact Hm]. split_and!; done.
Qed.

(** [r] is a reference the client holds on the live layer of chain [c]. *)
Definition returns_ref (c : string) ls (r : Layer) : Prop :=
  ∃ n l rl, r = referencedCacheLayer n l ∧ ls_layerMap ls !! c = Some l ∧
    ls_ro ls !! l = Some rl ∧ r ∈ rl_references rl.

Lemma returns_ref_stable c : stable (returns_ref c).
Proof.
  intros ls ls' r (_ & Hkeep & _ & _ & _ & Hro) (n & l & rl & -> & Hc & Hl & Hr).
  symmetry in Hro. destruct (same_upto_count_refs _ _ _ _ Hro Hl) as (rl' & Hl' & Hrefs).
  exists n, l, rl'. split_and!; [done| |done|by rewrite Hrefs].
  apply (Hkeep c l rl); [done..|set_solver].
Qed.

Lemma returns_ref_get held ls l c :
  layer_inv (l :: held) ls → ls_layerMap ls !! c = Some l →
  returns_ref c (roLayer_getReference ls l).1 (roLayer_getReference ls l).2.
Proof.
  intros Hinv Hc. destruct (live_lookup _ ls l Hinv) as [rl Hl]; [by exists c|].
  unfold roLayer_getReference; simpl. eexists _, l, _. split_and!; [done..| |].
  - simpl. by rewrite lookup_alter_eq, Hl.
  - simpl. set_solver.
Qed.

(** [r] is a reference the client holds on the mount [name]. *)
Definition returns_rw (name : string) ls (r : RWLayer) : Prop :=
  ∃ n m ml, r = referencedRWLayer n m ∧ ls_mounts ls !! name = Some m ∧
    ls_rw ls !! m = Some ml ∧ r ∈ ml_references ml.

Lemma returns_rw_stable name : stable (returns_rw name).
Proof.
  intros ls ls' r (_ & _ & Hm & Hrw & _) (n & m & ml & -> & Hn & Hml & Hr).
  exists n, m, ml. rewrite Hm, Hrw. done.
Qed.

Lemma returns_rw_get held ls name m :
  layer_inv held ls → ls_mounts ls !! name = Some m →
  returns_rw name (mountedLayer_getReference ls m).1 (mountedLayer_getReference ls m).2.
Proof.
  intros Hinv Hm. destruct (inv_mounts _ _ Hinv name m Hm) as (ml & Hml & _).
  unfold mountedLayer_getReference; simpl. eexists _, m, _. split_and!; [done..| |].
  - simpl. by rewrite lookup_alter_eq, Hml.
  - simpl. set_solver.
Qed.

Lemma register_publish_safe held ls tx rl :
  layer_inv (hold (rl_parent rl) held) ls →
  rl_referenceCount rl = 1%Z → rl_references rl = ∅ →
  depth_room (ls_ro ls) (rl_parent rl) →
  rl_chainID rl = chain_id_of (ls_ro ls) rl →
  safe (register_publish ls tx rl)
    (inv_after (rl_parent rl) held (returns_ref (rl_chainID rl)))
    (λ ls' _, layer_inv (hold (rl_parent rl) held) ls').
Proof.
  intros Hinv Hrc Hrefs Hroom Hid. unfold register_publish.
  destruct (getWithoutLock ls (rl_chainID rl)) as [ls1 [l|]] eqn:Hget.
  - destruct (getWithoutLock_inv _ _ _ _ _ Hinv Hget) as [Hinv1 Hlive].
    split; [by apply getReference_inv|]. eapply returns_ref_get; [exact Hinv1|].
    unfold getWithoutLock in Hget. by destruct (ls_layerMap ls !! _) eqn:?; simplify_eq/=.
  - unfold getWithoutLock in Hget.
    destruct (ls_layerMap ls !! rl_chainID rl) eqn:Hnone; [done|]. injection Hget as <-.
    apply safe_bind. eapply safe_mono; [apply call_store_safe| |].
    2: { intros ls' e Hm. by apply (inv_same_memory _ ls). }
    intros ls' [] Hm. pose proof Hm as (Hm1 & _ & Hm3 & _).
    apply (inv_same_memory _ _ _ Hm) in Hinv.
    assert (layer_inv (ls_next ls' :: held) (publish ls' rl)) as Hpub.
    { apply inv_publish; [done| |done|done| |]; rewrite <- ?Hm1, <- ?Hm3; done. }
    split; [by apply getReference_inv in Hpub|].
    apply (returns_ref_get held (publish ls' rl)); [done|]. simpl. apply lookup_insert_eq.
Qed.

Lemma defer_cleanup_safe {A} tx cacheID (r : store * outcome layer_error (A * bool))
    (Q : store → A * bool → Prop) (R : store → layer_error → Prop) :
  (∀ ls ls' a, same_memory ls ls' → Q ls a → Q ls' a) →
  (∀ ls ls' e, same_memory ls ls' → R ls e → R ls' e) →
  safe r Q R → safe (defer_cleanup tx cacheID r) Q R.
Proof.
  intros HQ HR Hr. destruct r as [ls o]. unfold defer_cleanup.
  destruct (err_set o); [|done]. unfold call_driver, call_store.
  destruct (Driver_Remove _ _) as [d e1]. simpl. destruct (Tx_Cancel _ _) as [m e2].
  destruct o as [a|e|msg|]; simpl in *; [by apply (HQ ls)|by apply (HR ls)|done|done].
Qed.

(** The chain identifier of the layer that [Register] of [ts] on [p] returns. *)
Definition chain_id (p : option loc) ls (ts : Tar) : string :=
  match p with
  | None => tar_Digest ts
  | Some p =>
      createChainIDFromParent (from_option rl_chainID "" (ls_ro ls !! p)) [tar_Digest ts]
  end.

Lemma register_body_safe held ls ts (p : option loc) pid descriptor :
  layer_inv (hold p held) ls → depth_room (ls_ro ls) p →
  safe (register_body ls ts p pid descriptor)
    (inv_after p held (returns_ref (chain_id p ls ts))) (λ ls' _, layer_inv (hold p held) ls').
Proof.
  intros Hinv Hroom. unfold register_body. simpl.
  apply safe_bind. eapply safe_mono; [apply call_driver_safe| |].
  2: { intros ls1 e Hm. by apply (inv_same_memory _ _ _ Hm), (inv_same_memory _ ls). }
  intros ls1 [] Hm. apply (inv_same_memory _ ls ls1) in Hinv; [|exact Hm].
  assert (ls_ro ls1 = ls_ro ls) as Hro by (by destruct Hm as (_ & _ & ? & _)).
  clear Hm. destruct (Meta_StartTransaction _) as [m [e|tx]]; simpl.
  { by apply (inv_same_memory _ ls1). }
  apply defer_cleanup_safe.
  - intros lsa lsb a Hm [??]. split; [by apply (inv_same_memory _ lsa)|].
    by apply (returns_ref_stable _ lsa), H0; apply same_memory_frame.
  - intros lsa lsb e. apply inv_same_memory.
  - set (ls2 := with_store ls1 m).
    assert (layer_inv (hold p held) ls2) as Hinv2 by (by apply (inv_same_memory _ ls1)).
    apply safe_bind. eapply safe_mono; [apply register_prepare_safe| |].
    + simpl. intros q ->. destruct (live_lookup _ ls2 q Hinv2); [|eauto].
      apply (inv_held _ _ Hinv2), elem_of_hold. by left.
    + intros ls3 rl (Hm & (Hpar & Hrc & Hrefs) & Hdiff & Hid). simpl in *.
      assert (chain_id p ls ts = rl_chainID rl) as ->.
      { rewrite Hid. unfold chain_id, chain_id_of. by rewrite Hpar, Hdiff, Hro. }
      rewrite <- Hpar in *.
      apply register_publish_safe; [by apply (inv_same_memory _ ls2)|done|done|..];
        destruct Hm as (_ & _ & <- & _); simpl; [by rewrite Hro|done].
    + intros ls3 e Hm. by apply (inv_same_memory _ ls2).
Qed.

(** The deferred release gives the hold back on the failing paths. *)
Lemma defer_release_safe {A} held p P (r : store * outcome layer_error (A * bool)) :
  stable P →
  safe r (inv_after (Some p) held P) (λ ls' _, layer_inv (p :: held) ls') →
  safe (defer_release p r) (λ ls' a, layer_inv held ls' ∧ P ls' a.1)
    (λ ls' _, layer_inv held ls').
Proof.
  intros HP. destruct r as [ls o]. unfold defer_release, inv_after.
  assert (layer_inv (p :: held) ls →
    ∃ ls' res, releaseLayer ls p = (ls', res) ∧ layer_inv held ls' ∧ release_frame ls ls' ∧
      (∀ m, res ≠ Panic m) ∧ res ≠ Diverge) as Hrel.
  { intros Hinv. pose proof (releaseLayer_safe held ls p Hinv) as Hs.
    destruct (releaseLayer ls p) as [ls' res]. exists ls', res. split; [done|].
    destruct res; simpl in *; naive_solver. }
  destruct o as [[a [|]]|e|m|]; simpl; [intros [H Ha]|done|intros H|done..];
    destruct (Hrel H) as (ls' & res & -> & Hinv & Hf & Hp & Hd);
    destruct res; simpl; naive_solver.
Qed.

Lemma registerWithDescriptor_safe held ls ts parent descriptor :
  layer_inv held ls →
  safe (registerWithDescriptor ls ts parent descriptor)
    (λ ls' r, layer_inv held ls' ∧
       returns_ref (createChainIDFromParent parent [tar_Digest ts]) ls' r)
    (λ ls' _, layer_inv held ls').
Proof.
  intros Hinv. unfold registerWithDescriptor. apply safe_bind.
  apply safe_mono with
    (Q := λ ls' a, layer_inv held ls' ∧
            returns_ref (createChainIDFromParent parent [tar_Digest ts]) ls' a.1)
    (R := λ ls' _, layer_inv held ls'); [|done..].
  destruct (decide (parent ≠ "")) as [Hpar|Hpar]; unfold layerStore_get.
  - destruct (getWithoutLock ls parent) as [ls1 [p|]] eqn:Hget.
    + destruct (getWithoutLock_inv _ _ _ _ _ Hinv Hget) as [Hinv1 Hlive].
      destruct (live_lookup _ _ _ Hinv1 Hlive) as [prl Hprl]. rewrite Hprl.
      destruct (inv_chain _ _ Hinv1 p Hlive) as (ps & Hc & _ & _).
      rewrite (roLayer_depth_chain _ _ _ ps Hc).
      2: { pose proof (chain_length _ _ _ Hc). unfold heap_fuel. lia. }
      apply defer_release_safe; [apply returns_ref_stable|].
      case_decide; [done|].
      assert (createChainIDFromParent parent [tar_Digest ts] = chain_id (Some p) ls1 ts) as ->.
      { unfold chain_id. rewrite Hprl. simpl from_option.
        rewrite (inv_map_key _ _ parent p prl Hinv1); [done| |done].
        unfold getWithoutLock in Hget. by destruct (ls_layerMap ls !! parent) eqn:?; simplify_eq/=. }
      apply (register_body_safe held ls1 ts (Some p)); [done|].
      intros q ps' [= <-] Hc'. rewrite (chain_fun _ _ _ _ Hc' Hc). lia.
    + unfold getWithoutLock in Hget. by destruct (ls_layerMap ls !! parent); simplify_eq.
  - apply dec_stable in Hpar as ->.
    eapply safe_mono; [by apply (register_body_safe held ls ts None)|..].
    + intros ls' [a []]; done.
    + done.
Qed.

(** ** Getting and releasing references *)

Lemma layerStore_Get_safe held ls c :
  layer_inv held ls →
  safe (layerStore_Get ls c)
    (λ ls' r, layer_inv held ls' ∧
       ∃ l rl, r = referencedCacheLayer (ls_next ls) l ∧ ls_layerMap ls !! c = Some l ∧
         ls_ro ls' !! l = Some rl ∧ r ∈ rl_references rl)
    (λ ls' e, ls' = ls ∧ e = ErrLayerDoesNotExist ∧ ls_layerMap ls !! c = None).
Proof.
  intros Hinv. unfold layerStore_Get.
  destruct (getWithoutLock ls c) as [ls1 [l|]] eqn:Hget.
  - destruct (getWithoutLock_inv _ _ _ _ _ Hinv Hget) as [Hinv1 Hlive1].
    pose proof (getReference_inv _ _ _ Hinv1) as Hinv2.
    destruct (live_lookup _ _ _ Hinv1 Hlive1) as [rl Hrl].
    unfold getWithoutLock in Hget. destruct (ls_layerMap ls !! c); simplify_eq/=.
    split; [done|]. eexists _, _. split_and!; [done..| |].
    + rewrite lookup_alter_eq. by rewrite Hrl.
    + simpl. set_solver.
  - unfold getWithoutLock in Hget. by destruct (ls_layerMap ls !! c) eqn:?; simplify_eq/=.
Qed.

(** The layer store's [Release]: a client's pointer [l] to an allocated layer. *)
Lemma layerStore_Release_safe held ls (l : Layer) :
  layer_inv held ls → is_Some (ls_ro ls !! Layer_loc l) →
  safe (layerStore_Release ls l)
    (λ ls' _, layer_inv held ls')
    (λ ls' e, layer_inv held ls').
Proof.
  intros Hinv [lrl Hl]. unfold layerStore_Release. rewrite Hl.
  destruct (ls_layerMap ls !! rl_chainID lrl) as [layer|] eqn:Hc; [|done].
  assert (live ls layer) as Hlive by (by eexists).
  destruct (live_lookup _ _ _ Hinv Hlive) as [rl Hrl]. rewrite Hrl.
  unfold roLayer_hasReference. destruct (bool_decide_reflect (l ∈ rl_references rl)); [|done].
  eapply safe_mono; [by apply releaseLayer_safe; eapply deleteReference_inv|..]; naive_solver.
Qed.

(** ** Read-write layers *)

Lemma layerStore_initMount_safe ls graphID parent label f opts :
  safe (layerStore_initMount ls graphID parent label f opts)
    (λ ls' _, same_memory ls ls') (λ ls' _, same_memory ls ls').
Proof.
  unfold layerStore_initMount. step_call.
  match goal with H : same_memory ls ?x |- _ => rename x into ls1, H into Hm end.
  destruct (Driver_Get _ _ _) as [d [e|path]]; [done|].
  destruct (f path) as [e|].
  - unfold call_driver. by destruct (Driver_Put _ _).
  - eapply (safe_bind_memory _ (with_driver ls1 d) _ _ _ (λ _, True)); [done| |].
    + apply safe_memory_call, call_driver_safe.
    + by intros.
Qed.

Lemma layerStore_saveMount_safe held ls ml :
  layer_inv (hold (ml_parent ml) held) ls → ls_mounts ls !! ml_name ml = None →
  ml_references ml = ∅ →
  safe (layerStore_saveMount ls ml)
    (λ ls' m, layer_inv held ls' ∧ ls_mounts ls' !! ml_name ml = Some m)
    (λ ls' _, layer_inv (hold (ml_parent ml) held) ls').
Proof.
  intros Hinv Hnone Hrefs.
  apply safe_mono_err with (R := λ ls' _, same_memory ls ls').
  2: { intros ls' e Hm. by apply (inv_same_memory _ ls). }
  unfold layerStore_saveMount. step_call.
  eapply (safe_bind_memory _ _ _ _ _ (λ _, True)); [eassumption| |].
  { case_decide; [apply safe_memory_call, call_store_safe|simpl; done]. }
  intros ls2 _ Hm2 _.
  eapply (safe_bind_memory _ _ _ _ _ (λ _, True)); [eassumption| |].
  { destruct (ml_parent ml) as [p|] eqn:Hp; [|simpl; done].
    destruct (live_lookup _ ls p Hinv) as [prl Hprl].
    { apply (inv_held _ _ Hinv), elem_of_hold. by left. }
    assert (ls_ro ls2 !! p = Some prl) as -> by (by destruct Hm2 as (_ & _ & <- & _)).
    apply safe_memory_call, call_store_safe. }
  intros ls3 _ Hm3 _. split.
  - change (layer_inv held (add_mount ls3 ml)).
    apply inv_add_mount; [by apply (inv_same_memory _ ls)| |done].
    by destruct Hm3 as (_ & <- & _).
  - simpl. by rewrite lookup_insert_eq.
Qed.

Lemma createRW_body_safe held ls name (p : option loc) pid label initFunc opts :
  layer_inv (hold p held) ls → ls_mounts ls !! name = None →
  safe (createRW_body ls name p pid label initFunc opts)
    (inv_after p held (returns_rw name)) (λ ls' _, layer_inv (hold p held) ls').
Proof.
  intros Hinv Hnone. unfold createRW_body. simpl.
  set (ls0 := with_rand ls (S (ls_rand ls))).
  assert (∀ ls', same_memory ls0 ls' →
    layer_inv (hold p held) ls' ∧ ls_mounts ls' !! name = None) as Hframe.
  { intros ls' Hm. split; [by apply (inv_same_memory _ _ _ Hm), (inv_same_memory _ ls)|].
    by destruct Hm as (_ & <- & _). }
  apply safe_bind. eapply safe_mono with
    (Q := λ ls' _, same_memory ls0 ls') (R := λ ls' _, same_memory ls0 ls').
  { destruct initFunc; [apply layerStore_initMount_safe|done]. }
  2: { intros ls' e Hm. by apply Hframe. }
  intros ls1 initID Hm1. apply safe_bind. eapply safe_mono; [apply call_driver_safe| |].
  2: { intros ls2 e Hm2. apply Hframe. by etrans. }
  intros ls2 [] Hm2. destruct (Hframe ls2) as [Hinv2 Hnone2]; [by etrans|].
  apply safe_bind. eapply safe_mono; [by apply (layerStore_saveMount_safe held)| |done].
  intros ls3 m [Hinv3 Hm3]. split.
  - by apply (mount_getReference_inv held ls3 name m).
  - by apply (returns_rw_get held).
Qed.

Lemma layerStore_CreateRWLayer_safe held ls name parent label initFunc opts :
  layer_inv held ls →
  safe (layerStore_CreateRWLayer ls name parent label initFunc opts)
    (λ ls' r, layer_inv held ls' ∧ returns_rw name ls' r) (λ ls' _, layer_inv held ls').
Proof.
  intros Hinv. unfold layerStore_CreateRWLayer.
  destruct (ls_mounts ls !! name) eqn:Hname; [done|]. apply safe_bind.
  apply safe_mono with (Q := λ ls' a, layer_inv held ls' ∧ returns_rw name ls' a.1)
    (R := λ ls' _, layer_inv held ls'); [|done..].
  case_decide; unfold layerStore_get.
  - destruct (getWithoutLock ls parent) as [ls1 [p|]] eqn:Hget.
    + destruct (getWithoutLock_inv _ _ _ _ _ Hinv Hget) as [Hinv1 Hlive].
      destruct (live_lookup _ _ _ Hinv1 Hlive) as [prl ->].
      apply defer_release_safe; [apply returns_rw_stable|].
      apply (createRW_body_safe held ls1 name (Some p)); [done|].
      unfold getWithoutLock in Hget. by destruct (ls_layerMap ls !! parent); simplify_eq/=.
    + unfold getWithoutLock in Hget. by destruct (ls_layerMap ls !! parent); simplify_eq.
  - eapply safe_mono; [by apply (createRW_body_safe held ls name None)|..]; [|done].
    by intros ls' [a []].
Qed.

Lemma layerStore_GetRWLayer_safe held ls id :
  layer_inv held ls →
  safe (layerStore_GetRWLayer ls id) (λ ls' _, layer_inv held ls') (λ ls' _, layer_inv held ls').
Proof.
  intros Hinv. unfold layerStore_GetRWLayer. destruct (ls_mounts ls !! id) eqn:Hm; [|done].
  simpl. by apply (mount_getReference_inv held ls id).
Qed.

Lemma layerStore_GetMountID_safe held ls id :
  layer_inv held ls →
  safe (layerStore_GetMountID ls id) (λ ls' _, layer_inv held ls') (λ ls' _, layer_inv held ls').
Proof.
  intros Hinv. unfold layerStore_GetMountID. destruct (ls_mounts ls !! id) eqn:Hm; [|done].
  by destruct (inv_mounts _ _ Hinv _ _ Hm) as (ml & -> & _).
Qed.

Lemma retake_inv held ls m ml n :
  layer_inv held ls → ls_rw ls !! m = Some ml → n < ls_next ls →
  layer_inv held (mountedLayer_retakeReference ls m (referencedRWLayer n m)).
Proof.
  intros Hinv Hm Hn. simpl. rewrite (alter_Some _ _ _ _ Hm).
  apply (inv_same_memory _ (with_next (with_rw ls (<[m := set_ml_references ml
    ({[referencedRWLayer n m]} ∪ ml_references ml)]> (ls_rw ls))) (ls_next ls))); [done|].
  apply inv_rw_update; [done..|]. intros x [->%elem_of_singleton|Hx]%elem_of_union; eauto.
Qed.

(** A driver or metadata call that puts the reference back when it fails. *)
Lemma or_retake_safe held ls ls0 m ml n r :
  layer_inv held ls → ls_rw ls !! m = Some ml → n < ls_next ls →
  same_memory ls ls0 →
  safe r (λ ls' _, same_memory ls0 ls') (λ ls' _, same_memory ls0 ls') →
  safe (or_retake m (referencedRWLayer n m) r)
    (λ ls' _, same_memory ls ls') (λ ls' _, layer_inv held ls').
Proof.
  intros Hinv Hm Hn Hm0. destruct r as [ls' [[]|e|msg|]]; simpl; [by etrans| |done..].
  intros Hm'. assert (same_memory ls ls') as Hm1 by (by etrans).
  destruct Hm1 as (? & ? & ? & Hrw & Hnext).
  apply (retake_inv held ls' m ml n); [by apply (inv_same_memory _ ls)|by rewrite <- Hrw|].
  by rewrite <- Hnext.
Qed.

Lemma layerStore_ReleaseRWLayer_safe held ls (l : RWLayer) :
  layer_inv held ls → is_Some (ls_rw ls !! RWLayer_loc l) →
  safe (layerStore_ReleaseRWLayer ls l)
    (λ ls' _, layer_inv held ls') (λ ls' _, layer_inv held ls').
Proof.
  intros Hinv [lml Hl]. unfold layerStore_ReleaseRWLayer. rewrite Hl.
  destruct (ls_mounts ls !! ml_name lml) as [m|] eqn:Hmnt; [|done].
  destruct (inv_mounts _ _ Hinv _ _ Hmnt) as (ml & Hml & Hname & _). rewrite Hml.
  unfold mountedLayer_deleteReference. case_decide as Hin; [|done].
  destruct (inv_rw_refs _ _ Hinv m ml l Hml Hin) as (n & -> & Hn).
  cbn [and_then]. set (ml1 := set_ml_references ml _).
  set (ls1 := with_rw ls (<[m := ml1]> (ls_rw ls))).
  assert (layer_inv held ls1) as Hinv1 by (apply inv_rw_update_refs; [done..|set_solver]).
  assert (ls_rw ls1 !! m = Some ml1) as Hml1 by apply lookup_insert_eq.
  change (ls_rw (with_rw ls _)) with (ls_rw ls1). rewrite Hml1.
  destruct (mountedLayer_hasReferences ml1); [done|].
  apply safe_bind. eapply safe_mono; [by eapply (or_retake_safe held ls1 ls1), call_driver_safe| |done].
  intros ls2 [] Hm2. apply safe_bind.
  eapply safe_mono with (Q := λ ls' _, same_memory ls1 ls') (R := λ ls' _, layer_inv held ls').
  { case_decide; [by eapply (or_retake_safe held ls1 ls2), call_driver_safe|done]. }
  2: done.
  intros ls3 [] Hm3. apply safe_bind.
  eapply safe_mono; [by eapply (or_retake_safe held ls1 ls3), call_store_safe| |done].
  intros ls4 [] Hm4. pose proof (inv_same_memory _ _ _ Hm4 Hinv1) as Hinv4.
  destruct Hm4 as (_ & Hmm & _ & Hrw & _).
  change (ml_name ml1) with (ml_name ml). rewrite Hname.
  pose proof (inv_remove_mount held ls4 (ml_name lml) m ml1 Hinv4) as Hinv5.
  change (ml_parent ml1) with (ml_parent ml) in *.
  rewrite <- Hrw, <- Hmm in Hinv5. specialize (Hinv5 Hmnt Hml1).
  destruct (ml_parent ml) as [p|]; rewrite Hmm in Hinv5; [|exact Hinv5].
  eapply safe_mono; [exact (releaseLayer_safe held _ p Hinv5)|..]; naive_solver.
Qed.

(** ** The empty store *)

Definition empty_store (m : M) (d : D) : store :=
  mkLayerStore D M Desc m d ∅ ∅ ∅ ∅ 0 0.

Lemma empty_store_inv m d : layer_inv [] (empty_store m d).
Proof.
  assert (∀ l, ¬ live (empty_store m d) l) as Hno.
  { intros l [c Hc]. simpl in Hc. by rewrite lookup_empty in Hc. }
  split; simpl; try (intros; exfalso; eapply Hno; eassumption).
  - intros c l. by rewrite lookup_empty.
  - intros n x. by rewrite lookup_empty.
  - intros l. set_solver.
  - intros l. rewrite lookup_empty. by intros [? ?].
  - intros l. rewrite lookup_empty. by intros [? ?].
  - intros x ml r. by rewrite lookup_empty.
Qed.

(** ** Calls of the store's interface *)

Inductive layer_op :=
| LRegister (ts : Tar) (parent : string) (descriptor : Desc)
| LGet (c : string)
| LRelease (l : Layer)
| LCreateRW (name parent label : string) (initFunc : option (string → option string))
    (opts : gmap string string)
| LGetRW (id : string)
| LGetMountID (id : string)
| LReleaseRW (l : RWLayer).

Definition layer_call ls (op : layer_op) : store * outcome layer_error unit :=
  match op with
  | LRegister ts parent descriptor =>
      let '(ls, o) := registerWithDescriptor ls ts parent descriptor in (ls, void o)
  | LGet c => let '(ls, o) := layerStore_Get ls c in (ls, void o)
  | LRelease l => let '(ls, o) := layerStore_Release ls l in (ls, void o)
  | LCreateRW name parent label initFunc opts =>
      let '(ls, o) := layerStore_CreateRWLayer ls name parent label initFunc opts in
      (ls, void o)
  | LGetRW id => let '(ls, o) := layerStore_GetRWLayer ls id in (ls, void o)
  | LGetMountID id => let '(ls, o) := layerStore_GetMountID ls id in (ls, void o)
  | LReleaseRW l => let '(ls, o) := layerStore_ReleaseRWLayer ls l in (ls, void o)
  end.

(** The pointers a client passes are pointers to allocated objects. *)
Definition valid_op ls (op : layer_op) : Prop :=
  match op with
  | LRelease l => is_Some (ls_ro ls !! Layer_loc l)
  | LReleaseRW l => is_Some (ls_rw ls !! RWLayer_loc l)
  | _ => True
  end.

#[global] Instance valid_op_dec ls op : Decision (valid_op ls op).
Proof. destruct op; simpl; apply _. Defined.

Lemma layer_call_safe held ls op :
  layer_inv held ls → valid_op ls op →
  safe (layer_call ls op) (λ ls' _, layer_inv held ls') (λ ls' _, layer_inv held ls').
Proof.
  intros Hinv Hop. destruct op; simpl in *; apply safe_void.
  - eapply safe_mono; [by apply registerWithDescriptor_safe|..]; naive_solver.
  - eapply safe_mono; [by apply layerStore_Get_safe|..]; naive_solver.
  - by apply layerStore_Release_safe.
  - eapply safe_mono; [by apply layerStore_CreateRWLayer_safe|..]; naive_solver.
  - by apply layerStore_GetRWLayer_safe.
  - by apply layerStore_GetMountID_safe.
  - by apply layerStore_ReleaseRWLayer_safe.
Qed.

(** A run: the calls of a list one after the other, with the end of each. *)
Definition layer_run ls (ops : list layer_op) : store * list (outcome layer_error unit) :=
  run_calls layer_call ls ops.
Definition valid_run ls (ops : list layer_op) : Prop := valid_calls layer_call valid_op ls ops.

Lemma layer_run_inv ls ops :
  layer_inv [] ls → valid_run ls ops →
  layer_inv [] (layer_run ls ops).1 ∧ Forall no_crash (layer_run ls ops).2.
Proof. apply run_calls_inv. intros. by apply layer_call_safe. Qed.

(** ** Interleavings

    [layerL] protects the layer map, the counts and the references; [mountL] the
    mounts.  Between their critical sections the operations of several
    goroutines interleave.  A configuration is a store with the parents that
    operations in progress have retained ([held]); a step is one critical
    section, or calls of the driver and of the metadata store outside of them. *)
Inductive atomic_section : store → list loc → store → outcome layer_error unit →
    list loc → Prop :=
| sec_calls ls ls' held :
    same_memory ls ls' → atomic_section ls held ls' (Ok tt) held
| sec_retain_parent ls ls' held c p :
    layerStore_get ls c = (ls', Some p) → atomic_section ls held ls' (Ok tt) (p :: held)
| sec_release_parent ls ls' held held' p o :
    held ≡ₚ p :: held' → releaseLayer ls p = (ls', o) →
    atomic_section ls held ls' (void o) held'
| sec_publish ls ls' held held' tx rl o :
    held ≡ₚ hold (rl_parent rl) held' →
    rl_referenceCount rl = 1%Z → rl_references rl = ∅ →
    depth_room (ls_ro ls) (rl_parent rl) → rl_chainID rl = chain_id_of (ls_ro ls) rl →
    register_publish ls tx rl = (ls', o) →
    atomic_section ls held ls' (void o)
      (match o with Ok (_, false) => held' | _ => held end)
| sec_Get ls ls' held c o :
    layerStore_Get ls c = (ls', o) → atomic_section ls held ls' (void o) held
| sec_Release ls ls' held (l : Layer) o :
    is_Some (ls_ro ls !! Layer_loc l) → layerStore_Release ls l = (ls', o) →
    atomic_section ls held ls' (void o) held
| sec_add_mount ls held held' ml :
    held ≡ₚ hold (ml_parent ml) held' → ls_mounts ls !! ml_name ml = None →
    ml_references ml = ∅ → atomic_section ls held (add_mount ls ml) (Ok tt) held'
| sec_mount_reference ls held n m :
    ls_mounts ls !! n = Some m →
    atomic_section ls held (mountedLayer_getReference ls m).1 (Ok tt) held
| sec_mount_unreference ls ls' held n m ml r o :
    ls_mounts ls !! n = Some m → ls_rw ls !! m = Some ml →
    mountedLayer_deleteReference ls m ml r = (ls', o) →
    atomic_section ls held ls' o held
| sec_mount_retake ls held m ml n :
    ls_rw ls !! m = Some ml → n < ls_next ls →
    atomic_section ls held (mountedLayer_retakeReference ls m (referencedRWLayer n m))
      (Ok tt) held
| sec_remove_mount ls held n m ml :
    ls_mounts ls !! n = Some m → ls_rw ls !! m = Some ml →
    atomic_section ls held (with_mounts ls (delete n (ls_mounts ls))) (Ok tt)
      (hold (ml_parent ml) held).

Lemma atomic_section_safe ls held ls' o held' :
  layer_inv held ls → atomic_section ls held ls' o held' →
  layer_inv held' ls' ∧ no_crash o.
Proof.
  intros Hinv Hsec.
  destruct Hsec as [ls ls' held Hm|ls ls' held c p Hget|ls ls' held held' p o Hperm Hrel
    |ls ls' held held' tx rl o Hperm Hrc Hrefs Hroom Hid Hpub|ls ls' held c o Hget
    |ls ls' held l o Hl Hrel|ls held held' ml Hperm Hnone Hrefs|ls held n m Hm
    |ls ls' held n m ml r o Hm Hml Hdel|ls held m ml n Hml Hn|ls held n m ml Hm Hml].
  - split; [by apply (inv_same_memory _ ls)|done].
  - split; [|done]. by apply (getWithoutLock_inv held ls ls' c p).
  - rewrite Hperm in Hinv. pose proof (releaseLayer_safe held' ls p Hinv) as Hs.
    rewrite Hrel in Hs. split; [|by apply no_crash_void, (safe_no_panic _ _ _ Hs)].
    destruct o; simpl in Hs; naive_solver.
  - pose proof Hinv as Hinv'. rewrite Hperm in Hinv'.
    pose proof (register_publish_safe held' ls tx rl Hinv' Hrc Hrefs Hroom Hid) as Hs.
    rewrite Hpub in Hs. split; [|by apply no_crash_void, (safe_no_panic _ _ _ Hs)].
    destruct o as [[r []]|e|msg|]; simpl in Hs; try rewrite Hperm; try apply Hs; done.
  - pose proof (layerStore_Get_safe held ls c Hinv) as Hs. rewrite Hget in Hs.
    split; [|by apply no_crash_void, (safe_no_panic _ _ _ Hs)].
    destruct o; simpl in Hs; naive_solver.
  - pose proof (layerStore_Release_safe held ls l Hinv Hl) as Hs. rewrite Hrel in Hs.
    split; [|by apply no_crash_void, (safe_no_panic _ _ _ Hs)]. by destruct o.
  - rewrite Hperm in Hinv. split; [by apply inv_add_mount|done].
  - split; [by apply (mount_getReference_inv held ls n)|done].
  - unfold mountedLayer_deleteReference in Hdel. case_decide; simplify_eq; split; try done.
    apply inv_rw_update_refs; [done..|set_solver].
  - split; [by apply (retake_inv held ls m ml)|done].
  - split; [by apply (inv_remove_mount held ls n m)|done].
Qed.

Inductive interleaved (m : M) (d : D) : store → list loc → Prop :=
| interleaved_start : interleaved m d (empty_store m d) []
| interleaved_step ls held ls' o held' :
    interleaved m d ls held → atomic_section ls held ls' o held' →
    interleaved m d ls' held'.

Lemma interleaved_inv m d ls held : interleaved m d ls held → layer_inv held ls.
Proof.
  induction 1 as [|ls held ls' o held' _ IH Hsec]; [apply empty_store_inv|].
  by apply (atomic_section_safe ls held ls' o held').
Qed.

(** ** The theorems *)

(** C1: Reference counting of the layer store, for any graph driver and any
    metadata store, with any of their calls failing: after any sequence of
    Register, Get, Release, CreateRWLayer, GetRWLayer, GetMountID and
    ReleaseRWLayer calls, the count of every live layer is the number of its
    client references, live children and mounts, the parents of live layers are
    live, and none of the calls hit one of the panics "layer not retained",
    "cannot remove layer with child" and "cannot delete referenced layer" or
    failed to terminate. *)
Theorem layer_store_reference_counts (m : M) (d : D) (ops : list layer_op) :
  valid_run (empty_store m d) ops →
  layer_inv [] (layer_run (empty_store m d) ops).1 ∧
  Forall no_crash (layer_run (empty_store m d) ops).2.
Proof. apply layer_run_inv, empty_store_inv. Qed.

(** C2: The reference counting survives concurrency: in every interleaving of
    the critical sections of the store's operations, with the parents retained
    by operations in progress counted as holds, the invariant holds and no
    critical section panics or loops. *)
Theorem layer_store_interleaving_safe (m : M) (d : D) ls held :
  interleaved m d ls held →
  layer_inv held ls ∧
  ∀ ls' o held', atomic_section ls held ls' o held' → no_crash o.
Proof.
  intros Hrun%interleaved_inv. split; [done|]. intros ls' o held' Hsec.
  by apply (atomic_section_safe ls held ls' o held').
Qed.

(** The map has gained nothing, and every layer with a reference other than [r]
    is still in it. *)
Definition keeps_referenced ls r ls' : Prop :=
  (∀ c x, ls_layerMap ls' !! c = Some x → ls_layerMap ls !! c = Some x) ∧
  ∀ c x rlx, ls_layerMap ls !! c = Some x → ls_ro ls !! x = Some rlx →
    rl_references rlx ∖ {[r]} ≠ ∅ → ls_layerMap ls' !! c = Some x.

Lemma frame_keeps_referenced ls l rl r ls' :
  ls_ro ls !! l = Some rl →
  release_frame (roLayer_deleteReference ls l r) ls' → keeps_referenced ls r ls'.
Proof.
  intros Hl (Hsub & Hkeep & _). split; [exact Hsub|]. intros c x rlx Hc Hx Hne.
  destruct (decide (x = l)) as [->|Hxl].
  - eapply Hkeep; [done| |]; [simpl; by rewrite lookup_alter_eq, Hl|]. simpl. congruence.
  - eapply Hkeep; [done| |]; [simpl; by rewrite lookup_alter_ne|]. set_solver.
Qed.

Lemma counted_deleteReference ls l r x n :
  counted (roLayer_deleteReference ls l r) x n → counted ls x n.
Proof.
  intros (rl & Hx & Hn). simpl in Hx. destruct (decide (x = l)) as [->|Hxl].
  - rewrite lookup_alter_eq in Hx. apply fmap_Some in Hx as (rl0 & ? & ->). by exists rl0.
  - rewrite lookup_alter_ne in Hx by done. by exists rl.
Qed.

Lemma release_post_deleteReference ls l r ps ls' removed :
  release_post (roLayer_deleteReference ls l r) ps ls' removed →
  release_post ls ps ls' removed.
Proof.
  intros (gone & rest & -> & Hids & Hlm & Hgone & Hrest).
  exists gone, rest. split_and!; [done| |done| |].
  - rewrite Hids. apply list_fmap_ext. intros _ x _. apply chainID_skel.
    by apply same_skel_alter.
  - eapply Forall_impl; [done|]. intros x. apply counted_deleteReference.
  - intros x Hx. destruct (Hrest x Hx) as (? & n & ? & ? & ?%counted_deleteReference). eauto.
Qed.

(** C6: Releasing a reference that is held removes exactly the layers nobody else
    uses: on success the layers that leave the map are the longest prefix of the
    released layer's parent chain in which every layer was counted once, and they
    are the ones reported, in order; the next layer of the chain, if any, was
    counted more than once, has lost one of its counts and stays live. Whether the
    release succeeds or the driver or the metadata store fails half way, the map
    gains nothing, no layer leaves it that a client still references other than by
    the released reference, and the reference-count invariant holds again. *)
Theorem Release_removes_unused_prefix held ls l rl r :
  layer_inv held ls → live ls l → ls_ro ls !! l = Some rl → r ∈ rl_references rl →
  safe (layerStore_Release ls r)
    (λ ls' removed, layer_inv held ls' ∧ keeps_referenced ls r ls' ∧
       ∃ ps, chain (ls_ro ls) l ps ∧ release_post ls ps ls' removed)
    (λ ls' _, layer_inv held ls' ∧ keeps_referenced ls r ls').
Proof.
  intros Hinv [c Hc] Hl Hr. assert (live ls l) as Hlive by (by exists c).
  destruct (inv_refs _ _ Hinv l rl r Hlive Hl Hr) as (n & -> & _).
  unfold layerStore_Release; simpl. rewrite Hl, (inv_map_key _ _ _ _ _ Hinv Hc Hl), Hc, Hl.
  unfold roLayer_hasReference. rewrite bool_decide_eq_true_2 by done.
  set (ls1 := roLayer_deleteReference ls l _).
  assert (same_skel (ls_ro ls1) (ls_ro ls)) as Hsk by (by apply same_skel_alter).
  eapply safe_mono.
  - apply (releaseLayer_safe held). by eapply deleteReference_inv.
  - intros ls' removed (Hinv' & Hf & ps & Hch & Hpost).
    split_and!; [done|by eapply frame_keeps_referenced|].
    exists ps. split; [by eapply chain_skel|by eapply release_post_deleteReference].
  - intros ls' e (Hinv' & Hf). split; [done|by eapply frame_keeps_referenced].
Qed.

(** C13: Register returns a reference, held by the caller, to the live layer
    whose identifier is the chain identifier of the parent's chain extended with
    the digest of the tar stream, whether it stored the layer itself or found the
    same chain already stored. *)
Theorem Register_returns_chain held ls ts parent :
  layer_inv held ls →
  safe (layerStore_Register ls ts parent)
    (λ ls' r, layer_inv held ls' ∧
       returns_ref (createChainIDFromParent parent [tar_Digest ts]) ls' r)
    (λ ls' _, layer_inv held ls').
Proof. apply registerWithDescriptor_safe. Qed.

(** C14: Identifiers and depth: after any sequence of calls, every live layer is
    stored under the chain identifier [CreateChainID] of the diff identifiers
    from the root of its parent chain down to it, and no chain is longer than the
    maximum depth of 125. *)
Theorem live_layer_chain_ids (m : M) (d : D) (ops : list layer_op) c l :
  valid_run (empty_store m d) ops →
  ls_layerMap (layer_run (empty_store m d) ops).1 !! c = Some l →
  let h := ls_ro (layer_run (empty_store m d) ops).1 in
  ∃ ps, chain h l ps ∧ length ps ≤ 125 ∧ c = CreateChainID (chain_diffIDs h ps).
Proof.
  intros Hrun Hc. simpl.
  destruct (layer_run_inv _ ops (empty_store_inv m d) Hrun) as [Hinv _].
  destruct (inv_chain _ _ Hinv l) as (ps & Hch & Hlen & Hid); [by exists c|].
  exists ps. split_and!; [done..|]. rewrite <- Hid.
  by destruct (inv_map _ _ Hinv c l Hc) as (rl & -> & <-).
Qed.

End layer_safe.
