(* ===== verification/LayerRestore.v ===== *)
(** * Restoring the layer store from its metadata

    [NewStoreFromGraphDriver] rebuilds the layers and the mounts from what the
    metadata store lists, and counts the uses of every layer again.  While layers
    are being loaded the count of a parent lags behind: a layer that was loaded as
    somebody's parent is counted only when its own identifier comes up in the list.
    [loading] says that the invariant of LayerInv holds once the outstanding uses,
    the [debts], are added. *)

From S2P Require Import Prelude Layer LayerInv LayerSafe.

Section layer_restore.
Context {D M T Tar Desc : Type}.
Context {drv : Driver D Tar} {meta : MetadataStore M T Desc} {ext : LayerExt Tar Desc}.

Abbreviation store := (layerStore D M Desc).
Abbreviation heap := (gmap loc (roLayer Desc)).
Implicit Types (ls : store) (l p : loc) (rl : roLayer Desc) (h : heap).

(** ** What the metadata says *)

Definition right {A : Type} (r : string + A) : option A :=
  match r with inl _ => None | inr a => Some a end.

(** The record of one layer, if all of it can be read: diff identifier, size, cache
    identifier, parent and descriptor. *)
Definition layer_record (m : M) (id : string) : option (string * Z * string * string * Desc) :=
  diff ← right (Meta_GetDiffID m id);
  size ← right (Meta_GetSize m id);
  cacheID ← right (Meta_GetCacheID m id);
  parent ← right (Meta_GetParent m id);
  descriptor ← right (Meta_GetDescriptor m id);
  Some (diff, size, cacheID, parent, descriptor).

(** The diff identifiers from the root to [id] along the recorded parents; [Some None]
    if a record on the way cannot be read, [None] if the fuel is used up. *)
Fixpoint recorded (fuel : nat) (m : M) (id : string) : option (option (list string)) :=
  match fuel with
  | 0 => None
  | S fuel =>
      match layer_record m id with
      | None => Some None
      | Some (diff, _, _, parent, _) =>
          if decide (parent ≠ "") then
            match recorded fuel m parent with
            | Some (Some ds) => Some (Some (ds ++ [diff]))
            | r => r
            end
          else Some (Some [diff])
      end
  end.

(** The record of a mount: its identifier, the one of its init layer, its parent. *)
Definition mount_record (m : M) (name : string) : option (string * string * string) :=
  mountID ← right (Meta_GetMountID m name);
  initID ← right (Meta_GetInitID m name);
  parent ← right (Meta_GetMountParent m name);
  Some (mountID, initID, parent).

Definition mount_recorded (fuel : nat) (m : M) (name : string) : Prop :=
  ∃ mountID initID parent, mount_record m name = Some (mountID, initID, parent) ∧
    (parent ≠ "" → ∃ ds, recorded fuel m parent = Some (Some ds)).

(** ** Outstanding uses *)

Definition incr_count rl : roLayer Desc := set_referenceCount rl (rl_referenceCount rl + 1).
Definition bump (δ : list loc) h : heap := foldr (alter incr_count) h δ.
Definition bumped ls (δ : list loc) : store := with_ro ls (bump δ (ls_ro ls)).
Definition debts ls (U : list string) : list loc :=
  omap (λ c, ls_layerMap ls !! c ≫= parent_of (ls_ro ls)) U.

Lemma bump_skel δ h : same_skel (bump δ h) h.
Proof.
  induction δ as [|l δ IH]; simpl; [done|]. etrans; [|exact IH]. by apply same_skel_alter.
Qed.

Lemma bump_perm δ δ' h : δ ≡ₚ δ' → bump δ h = bump δ' h.
Proof.
  induction 1 as [|x δ δ' _ IH|x y δ|δ1 δ2 δ3 _ IH1 _ IH2]; simpl; [done|by rewrite IH| |congruence].
  destruct (decide (x = y)) as [->|Hne]; [done|]. by rewrite alter_alter_ne.
Qed.

Lemma bump_insert δ l rl h : l ∉ δ → bump δ (<[l := rl]> h) = <[l := rl]> (bump δ h).
Proof.
  induction δ as [|x δ IH]; simpl; [done|]. intros [Hne Hl]%not_elem_of_cons.
  rewrite IH by done. by rewrite alter_insert_ne.
Qed.

Lemma bump_alter δ l h : bump δ (alter incr_count l h) = alter incr_count l (bump δ h).
Proof.
  change (bump δ (bump [l] h) = bump [l] (bump δ h)). unfold bump.
  rewrite <- !foldr_app. by apply bump_perm, Permutation_app_comm.
Qed.

Lemma bumped_nil ls : bumped ls [] = ls.
Proof. by destruct ls. Qed.

Lemma incr_bumped ls l δ : bumped (incr_referenceCount ls l) δ = bumped ls (l :: δ).
Proof. unfold bumped, incr_referenceCount. simpl. f_equal. apply bump_alter. Qed.

Lemma omap_ext_in {A B} (f g : A → option B) (l : list A) :
  (∀ x, x ∈ l → f x = g x) → omap f l = omap g l.
Proof.
  induction l as [|x l IH]; intros Hfg; [done|]. cbn. rewrite (Hfg x) by left.
  rewrite IH; [done|]. intros y Hy. apply Hfg. by right.
Qed.

(** ** The state while loading *)

Section with_metadata.
Context (F : nat) (m : M).
Hypothesis chain_ids : ∀ id ds, recorded F m id = Some (Some ds) →
  id = CreateChainID ds ∧ length ds ≤ maxLayerDepth.

(** The chain identifier of a parent, "" for none. *)
Definition parent_id h (p : option loc) : string :=
  match p with Some p => from_option rl_chainID "" (h !! p) | None => "" end.

(** The layer [rl] is what the metadata of [c] says. *)
Definition restored h (c : string) rl : Prop :=
  rl_chainID rl = c ∧ rl_references rl = ∅ ∧
  layer_record m c = Some (rl_diffID rl, rl_size rl, rl_cacheID rl,
    parent_id h (rl_parent rl), rl_descriptor rl).

Record loading (U : list string) ls : Prop := {
  ld_store : ls_store ls = m;
  ld_inv : layer_inv [] (bumped ls (debts ls U));
  ld_NoDup : NoDup U;
  ld_loaded c : c ∈ U → is_Some (ls_layerMap ls !! c);
  ld_data c l : ls_layerMap ls !! c = Some l → ∃ rl ds ps,
    ls_ro ls !! l = Some rl ∧ restored (ls_ro ls) c rl ∧
    recorded F m c = Some (Some ds) ∧ chain (ls_ro ls) l ps ∧ chain_diffIDs (ls_ro ls) ps = ds
}.

Lemma loading_live U ls l : loading U ls → live (bumped ls (debts ls U)) l ↔ live ls l.
Proof. done. Qed.

Lemma loading_fresh U ls : loading U ls → ls_ro ls !! ls_next ls = None.
Proof.
  intros HL. pose proof (ls_next_fresh _ _ (ld_inv _ _ HL)) as Hn. simpl in Hn.
  pose proof (bump_skel (debts ls U) (ls_ro ls) (ls_next ls)) as Hs. rewrite Hn in Hs.
  by destruct (ls_ro ls !! ls_next ls).
Qed.

Lemma loading_loc U ls c l : loading U ls → ls_layerMap ls !! c = Some l → l ≠ ls_next ls.
Proof.
  intros HL Hc ->. destruct (ld_data _ _ HL c _ Hc) as (rl & _ & _ & Hl & _).
  by rewrite (loading_fresh _ _ HL) in Hl.
Qed.

Lemma loading_parent U ls c l p :
  loading U ls → ls_layerMap ls !! c = Some l → parent_of (ls_ro ls) l = Some p → live ls p.
Proof.
  intros HL Hc Hp. apply (inv_parent _ _ (ld_inv _ _ HL) l p); [by exists c|].
  simpl. by rewrite (parent_of_skel _ _ l (bump_skel _ _)).
Qed.

(** A new layer without counted uses is one more debt to its parent. *)
Lemma debts_publish U ls rl :
  loading U ls → ls_layerMap ls !! rl_chainID rl = None →
  debts (publish ls rl) (rl_chainID rl :: U) = option_list (rl_parent rl) ++ debts ls U.
Proof.
  intros HL Hnone. unfold debts.
  assert (omap (λ c, ls_layerMap (publish ls rl) !! c ≫= parent_of (ls_ro (publish ls rl))) U
          = omap (λ c, ls_layerMap ls !! c ≫= parent_of (ls_ro ls)) U) as E.
  { apply omap_ext_in. intros c Hc. destruct (ld_loaded _ _ HL c Hc) as [l Hl]. simpl.
    rewrite lookup_insert_ne by congruence. rewrite Hl. simpl. unfold parent_of.
    by rewrite lookup_insert_ne by (symmetry; by eapply loading_loc). }
  cbn. rewrite lookup_insert_eq. simpl. rewrite (parent_of_Some _ _ rl) by apply lookup_insert_eq.
  cbn in E. rewrite E. by destruct (rl_parent rl).
Qed.

Lemma debts_live U ls l : loading U ls → l ∈ debts ls U → live ls l.
Proof.
  intros HL Hl. unfold debts in Hl. apply list_elem_of_omap in Hl as (c & Hc & Hp).
  destruct (ls_layerMap ls !! c) as [x|] eqn:Ec; [|done]. simpl in Hp.
  by eapply loading_parent.
Qed.

Lemma live_not_fresh U ls l : loading U ls → live ls l → l ≠ ls_next ls.
Proof. intros HL [c Hc]. by eapply loading_loc. Qed.

(** The record of a new layer, its parent being loaded. *)
Definition new_layer (id diff : string) (p : option loc) (cacheID : string) (size : Z)
    (descriptor : Desc) : roLayer Desc :=
  mkRoLayer Desc id diff p cacheID size descriptor 0 ∅.

Lemma publish_debt U ls rl :
  loading U ls → ls_layerMap ls !! rl_chainID rl = None →
  rl_referenceCount rl = 0%Z → rl_references rl = ∅ →
  (∀ q, rl_parent rl = Some q → live ls q) →
  depth_room (ls_ro ls) (rl_parent rl) → rl_chainID rl = chain_id_of (ls_ro ls) rl →
  layer_inv [] (bumped (publish ls rl) (option_list (rl_parent rl) ++ debts ls U)).
Proof.
  intros HL Hnone Hrc Hrefs Hlive Hroom Hid. set (δ := debts ls U).
  set (ls1 := bumped ls (option_list (rl_parent rl) ++ δ)).
  assert (layer_inv (hold (rl_parent rl) []) ls1) as H1.
  { unfold ls1. destruct (rl_parent rl) as [q|]; [|by apply (ld_inv _ _ HL)].
    destruct (Hlive q eq_refl) as [c Hc].
    apply (getWithoutLock_inv [] (bumped ls δ) _ c q); [by apply (ld_inv _ _ HL)|].
    unfold getWithoutLock. simpl. by rewrite Hc. }
  pose proof (bump_skel (option_list (rl_parent rl) ++ δ) (ls_ro ls)) as Hsk.
  set (rl1 := set_referenceCount rl 1).
  assert (layer_inv [ls_next ls] (publish ls1 rl1)) as H2.
  { apply (inv_publish [] ls1 rl1); [done|done|done|done|..].
    - intros q ps Hq Hc. simpl in Hc. eapply Hroom; [done|]. by eapply chain_skel.
    - change (rl_chainID rl1) with (rl_chainID rl). rewrite Hid. unfold chain_id_of.
      change (rl_parent rl1) with (rl_parent rl). change (rl_diffID rl1) with (rl_diffID rl).
      destruct (rl_parent rl) as [q|]; [|done]. f_equal. symmetry. by apply chainID_skel. }
  pose proof (decrement_inv [] _ (ls_next ls) rl1 H2 ltac:(simpl; by rewrite lookup_insert_eq)) as H3.
  eapply inv_same_memory; [|exact H3]. unfold same_memory. simpl. split_and!; try done.
  rewrite insert_insert_eq, bump_insert.
  - f_equal. unfold rl1, set_referenceCount. simpl. destruct rl; simpl in *. by subst.
  - intros Hin. apply elem_of_app in Hin as [Hin|Hin].
    + apply (live_not_fresh U ls (ls_next ls) HL); [|done]. apply Hlive.
      destruct (rl_parent rl); simpl in Hin; [|by apply not_elem_of_nil in Hin].
      by apply list_elem_of_singleton in Hin as ->.
    + apply (live_not_fresh U ls (ls_next ls) HL); [|done]. by apply (debts_live U).
Qed.
(** ** Loading one layer *)

Lemma recorded_mono f f' id r : recorded f m id = Some r → f ≤ f' → recorded f' m id = Some r.
Proof.
  revert f' id r. induction f as [|f IH]; intros f' id r Hr Hle; [done|].
  destruct f' as [|f']; [lia|]. cbn [recorded] in *.
  destruct (layer_record m id) as [[[[[diff size] cacheID] parent] descriptor]|]; [|done].
  case_decide; [|done]. destruct (recorded f m parent) as [r'|] eqn:E; [|done].
  by rewrite (IH f' parent r' E) by lia.
Qed.

Lemma restored_parent_live U ls c l rl p :
  loading U ls → ls_layerMap ls !! c = Some l → ls_ro ls !! l = Some rl → rl_parent rl = Some p →
  live ls p.
Proof. intros HL Hc Hl Hp. eapply loading_parent; [done|done|]. by rewrite (parent_of_Some _ _ rl). Qed.

(** What is needed of the parent of a new layer. *)
Definition parent_loaded ls (parent diff : string) (ds : list string) (p : option loc) : Prop :=
  match p with
  | None => parent = "" ∧ ds = [diff]
  | Some q => ls_layerMap ls !! parent = Some q ∧
      ∃ ds', recorded F m parent = Some (Some ds') ∧ ds = ds' ++ [diff]
  end.

Section new_layer.
Context (U : list string) (ls : store) (HL : loading U ls).
Context (id diff cacheID parent : string) (size : Z) (descriptor : Desc) (ds : list string).
Context (p : option loc).
Hypothesis Hnone : ls_layerMap ls !! id = None.
Hypothesis Hrecord : layer_record m id = Some (diff, size, cacheID, parent, descriptor).
Hypothesis Hds : recorded F m id = Some (Some ds).
Hypothesis Hparent : parent_loaded ls parent diff ds p.
Local Notation rl := (new_layer id diff p cacheID size descriptor).

Lemma new_chain : ∃ ps,
  chain (<[ls_next ls := rl]> (ls_ro ls)) (ls_next ls) ps ∧
  chain_diffIDs (<[ls_next ls := rl]> (ls_ro ls)) ps = ds.
Proof using HL Hds Hparent.
  pose proof (loading_fresh _ _ HL) as Hfresh. destruct p as [q|]; simpl in Hparent.
  - destruct Hparent as (Hq & ds' & Hds' & ->).
    destruct (ld_data _ _ HL parent q Hq) as (qrl & ds0 & ps & Hqrl & _ & Hds0 & Hc & Hdiff).
    assert (ds0 = ds') as -> by congruence. exists (ls_next ls :: ps). split.
    + eapply chain_step; [apply lookup_insert_eq|done|]. by apply chain_insert.
    + unfold chain_diffIDs. rewrite fmap_cons, reverse_cons, lookup_insert_eq. simpl. f_equal.
      change (reverse _) with (chain_diffIDs (<[ls_next ls := new_layer id diff (Some q) cacheID size descriptor]> (ls_ro ls)) ps).
      by rewrite chain_diffIDs_insert by (by eapply chain_not_fresh).
  - destruct Hparent as [_ ->]. exists [ls_next ls]. split.
    + eapply chain_root; [apply lookup_insert_eq|done].
    + unfold chain_diffIDs. simpl. by rewrite lookup_insert_eq.
Qed.

Lemma parent_chain q : p = Some q → ∃ qrl ds' ps,
  ls_ro ls !! q = Some qrl ∧ rl_chainID qrl = parent ∧ parent = CreateChainID ds' ∧
  chain (ls_ro ls) q ps ∧ length ps = length ds' ∧ ds = ds' ++ [diff].
Proof using HL Hds Hparent chain_ids.
  intros ->. destruct Hparent as (Hq & ds' & Hds' & Hds0).
  destruct (ld_data _ _ HL parent q Hq) as (qrl & ds0 & ps & Hqrl & [Hc _] & Hds1 & Hch & Hdiff).
  assert (ds0 = ds') as -> by congruence. exists qrl, ds', ps. split_and!; try done.
  - by apply chain_ids.
  - rewrite <- Hdiff. unfold chain_diffIDs. by rewrite length_reverse, length_fmap.
Qed.

Lemma loading_publish : loading (id :: U) (publish ls rl).
Proof using HL Hnone Hrecord Hds Hparent chain_ids.
  pose proof (loading_fresh _ _ HL) as Hfresh. pose proof parent_chain as Hpc.
  pose proof new_chain as Hnc.
  destruct (chain_ids id ds Hds) as [Hid Hlen].
  assert (∀ q, p = Some q → live ls q) as Hplive.
  { intros q ->. exists parent. by destruct Hparent. }
  split.
  - apply (ld_store _ _ HL).
  - pose proof (debts_publish U ls rl HL Hnone) as Hdebts. simpl rl_chainID in Hdebts. rewrite Hdebts.
    apply publish_debt; [done|done|done|done|done|..].
    + intros q ps Hq Hc. destruct (Hpc q Hq) as (qrl & ds' & ps' & _ & _ & _ & Hc' & Hl & ->).
      rewrite (chain_fun _ _ _ _ Hc Hc'). rewrite length_app in Hlen. simpl in Hlen. lia.
    + unfold chain_id_of. cbn [new_layer rl_chainID rl_parent rl_diffID]. destruct p as [q|] eqn:Ep.
      * destruct (Hpc q eq_refl) as (qrl & ds' & ps' & -> & Hqc & Hqd & _ & _ & Hd).
        cbn [from_option]. rewrite Hqc, Hid, Hqd, Hd. unfold CreateChainID. apply createChainIDFromParent_app.
      * destruct Hparent as [_ Hd]. by rewrite Hid, Hd.
  - constructor; [|by apply (ld_NoDup _ _ HL)]. intros Hin%(ld_loaded _ _ HL).
    rewrite Hnone in Hin. by destruct Hin.
  - intros c [->|Hc]%elem_of_cons; simpl; [by rewrite lookup_insert_eq|].
    destruct (decide (id = c)) as [->|Hne]; [by rewrite lookup_insert_eq|].
    rewrite lookup_insert_ne by done. by apply (ld_loaded _ _ HL).
  - intros c l. simpl. intros [[<- <-]|[Hne Hc]]%lookup_insert_Some.
    + destruct Hnc as (ps & Hch & Hdiff). exists rl, ds, ps.
      split; [apply lookup_insert_eq|]. split; [|done]. split; [done|]. split; [done|]. simpl.
      rewrite Hrecord. repeat f_equal. destruct p as [q|] eqn:Ep; simpl.
      * destruct (Hpc q eq_refl) as (qrl & ds' & ps' & Hq & Hqc & _).
        rewrite lookup_insert_ne by (symmetry; apply (live_not_fresh U ls); [done|by apply Hplive]).
        by rewrite Hq.
      * by destruct Hparent.
    + destruct (ld_data _ _ HL c l Hc) as (rl0 & ds0 & ps & Hl & (R1 & R2 & R3) & Hd0 & Hch & Hdiff).
      exists rl0, ds0, ps. rewrite lookup_insert_ne by (symmetry; by eapply loading_loc).
      split; [done|]. split; [|split; [done|split; [by apply chain_insert|]]].
      * split; [done|]. split; [done|]. rewrite R3. do 3 f_equal.
        destruct (rl_parent rl0) as [q|] eqn:Ep; [|done]. simpl.
        rewrite lookup_insert_ne; [done|]. symmetry. apply (live_not_fresh U ls); [done|].
        by eapply restored_parent_live.
      * rewrite chain_diffIDs_insert; [done|]. by eapply chain_not_fresh.
Qed.
End new_layer.

Lemma loadLayer_unreadable f ls id :
  ls_layerMap ls !! id = None → layer_record (ls_store ls) id = None →
  ∃ e, loadLayer (S f) ls id = (ls, Err e).
Proof.
  intros Hn Hr. cbn [loadLayer]. rewrite Hn. unfold layer_record in Hr.
  destruct (Meta_GetDiffID _ id); cbn [of_sum and_then]; [by eexists|]. destruct (Meta_GetSize _ id); cbn [of_sum and_then]; [by eexists|].
  destruct (Meta_GetCacheID _ id); cbn [of_sum and_then]; [by eexists|]. destruct (Meta_GetParent _ id); cbn [of_sum and_then]; [by eexists|].
  destruct (Meta_GetDescriptor _ id); cbn [of_sum and_then]; [by eexists|]. done.
Qed.

Lemma loadLayer_readable f ls id diff size cacheID parent descriptor :
  ls_layerMap ls !! id = None →
  layer_record (ls_store ls) id = Some (diff, size, cacheID, parent, descriptor) →
  loadLayer (S f) ls id =
    let! (ls, p) :=
      (if decide (parent ≠ "") then let! (ls, p) := loadLayer f ls parent in (ls, Ok (Some p))
       else (ls, Ok None)) in
    (publish ls (new_layer id diff p cacheID size descriptor), Ok (ls_next ls)).
Proof.
  intros Hn Hr. cbn [loadLayer]. rewrite Hn. unfold layer_record in Hr.
  destruct (Meta_GetDiffID _ id); cbn [of_sum and_then]; [done|]. destruct (Meta_GetSize _ id); cbn [of_sum and_then]; [done|].
  destruct (Meta_GetCacheID _ id); cbn [of_sum and_then]; [done|]. destruct (Meta_GetParent _ id); cbn [of_sum and_then]; [done|].
  destruct (Meta_GetDescriptor _ id); cbn [of_sum and_then]; [done|]. simpl in Hr. simplify_eq. done.
Qed.

(** What loading layers leaves alone. *)
Record extends (new : list string) ls ls' : Prop := {
  ext_map c : is_Some (ls_layerMap ls' !! c) ↔ c ∈ new ∨ is_Some (ls_layerMap ls !! c);
  ext_new c : c ∈ new → ls_layerMap ls !! c = None;
  ext_mounts : ls_mounts ls' = ls_mounts ls
}.

Lemma extends_refl ls : extends [] ls ls.
Proof. split; [|by intros c ?%not_elem_of_nil|done]. intros c. rewrite elem_of_nil. tauto. Qed.

Lemma extends_publish new ls ls' rl :
  ls_layerMap ls !! rl_chainID rl = None → extends new ls ls' →
  extends (rl_chainID rl :: new) ls (publish ls' rl).
Proof.
  intros Hn [E1 E2 E3]. split; [| |done].
  - intros c. simpl. rewrite elem_of_cons, lookup_insert_is_Some, E1.
    destruct (decide (rl_chainID rl = c)) as [->|]; naive_solver.
  - intros c [->|Hc]%elem_of_cons; [done|by apply E2].
Qed.

Lemma loadLayer_spec f id ls U r :
  f ≤ F → recorded f m id = Some r → loading U ls →
  match r with
  | Some ds => ∃ ls' l new, loadLayer f ls id = (ls', Ok l) ∧ loading (new ++ U) ls' ∧
      ls_layerMap ls' !! id = Some l ∧ extends new ls ls' ∧
      (∀ c dsc, c ∈ new → recorded F m c = Some (Some dsc) → length dsc ≤ length ds)
  | None => ls_layerMap ls !! id = None ∧ ∃ e, loadLayer f ls id = (ls, Err e)
  end.
Proof using chain_ids.
  revert id ls U r. induction f as [|f IH]; intros id ls U r Hf Hr HL; [done|].
  pose proof (recorded_mono _ F _ _ Hr Hf) as HrF.
  destruct (ls_layerMap ls !! id) as [l|] eqn:Hm.
  { destruct (ld_data _ _ HL id l Hm) as (rl & ds & _ & _ & _ & Hds & _).
    assert (r = Some ds) as -> by congruence. exists ls, l, []. cbn [loadLayer]. rewrite Hm.
    split_and!; [done|done|done|apply extends_refl|by intros ? ? ?%not_elem_of_nil]. }
  pose proof (ld_store _ _ HL) as Hst. cbn [recorded] in Hr.
  destruct (layer_record m id) as [[[[[diff size] cacheID] parent] descriptor]|] eqn:Hrec.
  2:{ injection Hr as <-. split; [done|]. apply loadLayer_unreadable; [done|by rewrite Hst]. }
  rewrite (loadLayer_readable f ls id diff size cacheID parent descriptor Hm) by (by rewrite Hst).
  case_decide as Hp.
  - destruct (recorded f m parent) as [rp|] eqn:Hrp; [|done].
    pose proof (IH parent ls U rp ltac:(lia) Hrp HL) as Hload. destruct rp as [ds'|].
    + injection Hr as <-. destruct Hload as (ls1 & q & new & Hl & HL1 & Hq & Hext & Hlen).
      rewrite Hl. cbn [and_then]. eexists _, _, (id :: new). split; [done|].
      assert (ls_layerMap ls1 !! id = None) as Hid1.
      { apply eq_None_not_Some. intros Hs. apply (ext_map _ _ _ Hext) in Hs as [Hin|[? ?]]; [|congruence].
        pose proof (Hlen id _ Hin HrF) as Hle. rewrite length_app in Hle. simpl in Hle. lia. }
      split_and!.
      * eapply loading_publish; [done|done|done|done|]. split; [done|]. exists ds'.
        split; [|done]. eapply recorded_mono; [done|lia].
      * simpl. by rewrite lookup_insert_eq.
      * by apply (extends_publish new ls ls1 (new_layer id _ _ _ _ _)).
      * intros c dsc [->|Hc]%elem_of_cons Hd.
        -- rewrite HrF in Hd. by injection Hd as <-.
        -- rewrite length_app. pose proof (Hlen c dsc Hc Hd). lia.
    + injection Hr as <-. destruct Hload as (_ & e & ->). split; [done|]. by exists e.
  - injection Hr as <-. subst parent. cbn [and_then].
    eexists _, _, [id]. split; [done|]. split_and!.
    + eapply loading_publish; [done|done|done|done|]. by split.
    + simpl. by rewrite lookup_insert_eq.
    + apply (extends_publish [] ls ls (new_layer id _ _ _ _ _)); [done|apply extends_refl].
    + intros c dsc ->%list_elem_of_singleton Hd. rewrite HrF in Hd. by injection Hd as <-.
Qed.

(** Counting a use changes nothing else. *)
Lemma incr_skel ls p : same_skel (ls_ro (incr_referenceCount ls p)) (ls_ro ls).
Proof. by apply same_skel_alter. Qed.

Lemma parent_id_skel h h' q : same_skel h h' → parent_id h q = parent_id h' q.
Proof. intros Hsk. destruct q as [q|]; [|done]. by apply chainID_skel. Qed.

Lemma data_incr U ls p c x :
  loading U ls → ls_layerMap ls !! c = Some x → ∃ rl ds ps,
    ls_ro (incr_referenceCount ls p) !! x = Some rl ∧
    restored (ls_ro (incr_referenceCount ls p)) c rl ∧
    recorded F m c = Some (Some ds) ∧ chain (ls_ro (incr_referenceCount ls p)) x ps ∧
    chain_diffIDs (ls_ro (incr_referenceCount ls p)) ps = ds.
Proof.
  intros HL Hx. pose proof (incr_skel ls p) as Hsk.
  destruct (ld_data _ _ HL c x Hx) as (rl0 & ds & ps & Hx0 & (R1 & R2 & R3) & Hds & Hch & Hdf).
  destruct (same_skel_lookup _ _ x rl0 (symmetry Hsk) Hx0) as (rl1 & Hx1 & _).
  exists rl1, ds, ps. split; [done|]. split; [|split; [done|split]].
  - assert (rl1 = rl0 ∨ rl1 = incr_count rl0) as Hor.
    { simpl in Hx1. rewrite lookup_alter in Hx1. case_decide as E; [|left; congruence].
      subst x. rewrite Hx0 in Hx1. right. by injection Hx1. }
    unfold restored. rewrite (parent_id_skel _ _ _ Hsk). by destruct Hor as [->| ->].
  - by apply (chain_skel _ _ _ _ (symmetry Hsk)).
  - by rewrite (chain_diffIDs_skel _ _ ps Hsk).
Qed.

(** ** The first loop *)

Lemma loading_pay id U ls l rl :
  loading (id :: U) ls → ls_layerMap ls !! id = Some l → ls_ro ls !! l = Some rl →
  loading U (match rl_parent rl with Some p => incr_referenceCount ls p | None => ls end).
Proof.
  intros HL Hid Hl. pose proof (NoDup_cons_1_2 _ _ (ld_NoDup _ _ HL)) as Hnd.
  assert (debts ls (id :: U) = option_list (rl_parent rl) ++ debts ls U) as Hd.
  { unfold debts. cbn. rewrite Hid. simpl. rewrite (parent_of_Some _ _ rl) by done.
    by destruct (rl_parent rl). }
  pose proof (ld_inv _ _ HL) as Hinv. rewrite Hd in Hinv.
  destruct (rl_parent rl) as [p|].
  2:{ split; [apply (ld_store _ _ HL)|done|done| |apply (ld_data _ _ HL)].
      intros c Hc. apply (ld_loaded _ _ HL). by right. }
  assert (same_skel (ls_ro (incr_referenceCount ls p)) (ls_ro ls)) as Hsk
    by (by apply same_skel_alter).
  split.
  - apply (ld_store _ _ HL).
  - assert (debts (incr_referenceCount ls p) U = debts ls U) as ->.
    { apply omap_ext_in. intros c _. simpl. destruct (ls_layerMap ls !! c); [|done]. simpl.
      by apply parent_of_skel. }
    by rewrite incr_bumped.
  - done.
  - intros c Hc. apply (ld_loaded _ _ HL). by right.
  - intros c x Hx. by apply (data_incr (id :: U) ls p c x HL).
Qed.

Lemma loading_perm U U' ls : U ≡ₚ U' → loading U ls → loading U' ls.
Proof.
  intros Hp HL. split; [apply (ld_store _ _ HL)| | | |apply (ld_data _ _ HL)].
  - pose proof (ld_inv _ _ HL) as Hinv. unfold bumped in *.
    rewrite (bump_perm (debts ls U') (debts ls U)); [done|]. unfold debts. by rewrite Hp.
  - rewrite <- Hp. apply (ld_NoDup _ _ HL).
  - intros c. rewrite <- Hp. apply (ld_loaded _ _ HL).
Qed.

(** The state after the identifiers [processed]: what is loaded and not processed is
    not counted yet. *)
Record progress (processed : list string) ls : Prop := {
  pr_loading : ∃ U, loading U ls ∧ (∀ c, c ∈ U → c ∉ processed) ∧
    (∀ c, is_Some (ls_layerMap ls !! c) → c ∈ U ∨ c ∈ processed);
  pr_complete c ds : c ∈ processed → recorded F m c = Some (Some ds) → is_Some (ls_layerMap ls !! c);
  pr_mounts : ls_mounts ls = ∅
}.

Lemma load_id_spec processed ls id :
  progress processed ls → id ∉ processed → recorded F m id ≠ None →
  ∃ ls', load_id F (ls, Ok tt) id = (ls', Ok tt) ∧ progress (id :: processed) ls'.
Proof using chain_ids.
  intros [(U & HL & HU & Hmap) Hcomp Hmounts] Hid Hrec.
  destruct (recorded F m id) as [r|] eqn:Er; [|done]. clear Hrec.
  unfold load_id. cbn [and_then].
  pose proof (loadLayer_spec F id ls U r (le_n F) Er HL) as Hload. destruct r as [ds|].
  - destruct Hload as (ls1 & l & new & -> & HL1 & Hl & Hext & _).
    destruct (ld_data _ _ HL1 id l Hl) as (rl & _ & _ & Hrl & _). rewrite Hrl.
    assert (∀ c, c ∈ new ++ U → c ∉ processed) as HU1.
    { intros c [Hc|Hc]%elem_of_app; [|by apply HU]. intros Hin.
      assert (is_Some (ls_layerMap ls1 !! c)) as [x Hx] by (apply (ext_map _ _ _ Hext); by left).
      destruct (ld_data _ _ HL1 c x Hx) as (_ & dsc & _ & _ & _ & Hdsc & _).
      destruct (Hcomp c dsc Hin Hdsc) as [y Hy]. rewrite (ext_new _ _ _ Hext c Hc) in Hy. done. }
    assert (∀ c, is_Some (ls_layerMap ls1 !! c) → c ∈ new ++ U ∨ c ∈ processed) as Hmap1.
    { intros c Hs. rewrite elem_of_app.
      apply (ext_map _ _ _ Hext) in Hs as [Hc|Hs]; [tauto|]. apply Hmap in Hs. tauto. }
    assert (id ∈ new ++ U) as Hin by (destruct (Hmap1 id ltac:(by exists l)); done).
    apply elem_of_Permutation in Hin as [U' HU'].
    assert (loading (id :: U') ls1) as HL2 by (by eapply loading_perm).
    pose proof (loading_pay id U' ls1 l rl HL2 Hl Hrl) as HL3.
    assert (∀ x, ls_layerMap (match rl_parent rl with Some p => incr_referenceCount ls1 p | None => ls1 end) !! x
      = ls_layerMap ls1 !! x ∧
      ls_mounts (match rl_parent rl with Some p => incr_referenceCount ls1 p | None => ls1 end) = ls_mounts ls1) as Hsame
      by (by destruct (rl_parent rl)).
    eexists. split; [done|]. split.
    + exists U'. split; [done|]. split.
      * intros c Hc. rewrite not_elem_of_cons. split; [|apply HU1; rewrite HU'; by right].
        intros ->. by apply (NoDup_cons_1_1 _ _ (ld_NoDup _ _ HL2)).
      * intros c. rewrite (proj1 (Hsame c)). intros Hs%Hmap1. rewrite HU', elem_of_cons in Hs.
        rewrite elem_of_cons. tauto.
    + intros c dsc Hc Hdsc. rewrite (proj1 (Hsame c)). apply (ext_map _ _ _ Hext).
      apply elem_of_cons in Hc as [->|Hc]; [|right; by eapply Hcomp].
      apply (ext_map _ _ _ Hext). by exists l.
    + rewrite (proj2 (Hsame id)), (ext_mounts _ _ _ Hext). done.
  - destruct Hload as (Hnone & e & ->). exists ls. split; [done|]. split.
    + exists U. split; [done|]. split.
      * intros c Hc. rewrite not_elem_of_cons. split; [|by apply HU]. intros ->.
        destruct (ld_loaded _ _ HL id Hc) as [x Hx]. congruence.
      * intros c Hs. rewrite elem_of_cons. destruct (Hmap c Hs); tauto.
    + intros c dsc [->|Hc]%elem_of_cons Hdsc; [congruence|by eapply Hcomp].
    + done.
Qed.

Lemma load_ids_spec ids processed ls :
  progress processed ls → NoDup ids → (∀ id, id ∈ ids → id ∉ processed) →
  (∀ id, id ∈ ids → recorded F m id ≠ None) →
  ∃ ls', foldl (load_id F) (ls, Ok tt) ids = (ls', Ok tt) ∧ progress (rev ids ++ processed) ls'.
Proof using chain_ids.
  revert processed ls. induction ids as [|id ids IH]; intros processed ls HP Hnd Hfresh Hrec.
  { by exists ls. }
  apply NoDup_cons in Hnd as [Hid Hnd].
  destruct (load_id_spec processed ls id) as (ls1 & E & HP1); [done|apply Hfresh; left|apply Hrec; left|].
  cbn [foldl]. rewrite E. destruct (IH (id :: processed) ls1 HP1 Hnd) as (ls2 & E2 & HP2).
  - intros c Hc. rewrite not_elem_of_cons. split; [by intros ->|]. apply Hfresh. by right.
  - intros c Hc. apply Hrec. by right.
  - exists ls2. split; [done|]. simpl. by rewrite <- (assoc_L (++)).
Qed.

(** ** The second loop *)

(** Every layer that can be read is loaded and counted; the mounts are those of
    [processed] that can be read. *)
Record mounting (processed : list string) ls : Prop := {
  mg_loading : loading [] ls;
  mg_complete c ds : recorded F m c = Some (Some ds) → is_Some (ls_layerMap ls !! c);
  mg_mounts n : is_Some (ls_mounts ls !! n) ↔ n ∈ processed ∧ mount_recorded F m n;
  mg_data n x : ls_mounts ls !! n = Some x → ∃ ml, ls_rw ls !! x = Some ml ∧ ml_references ml = ∅ ∧
    mount_record m n = Some (ml_mountID ml, ml_initID ml, parent_id (ls_ro ls) (ml_parent ml))
}.

Lemma loading_inv ls : loading [] ls → layer_inv [] ls.
Proof. intros HL. pose proof (ld_inv _ _ HL) as Hinv. by rewrite bumped_nil in Hinv. Qed.

Lemma loadMount_unreadable ls n :
  ls_mounts ls !! n = None → mount_record (ls_store ls) n = None →
  ∃ e, loadMount F ls n = (ls, Err e).
Proof.
  intros Hn Hr. unfold loadMount. rewrite Hn. unfold mount_record in Hr.
  destruct (Meta_GetMountID _ n); cbn [of_sum and_then]; [by eexists|].
  destruct (Meta_GetInitID _ n); cbn [of_sum and_then]; [by eexists|].
  destruct (Meta_GetMountParent _ n); cbn [of_sum and_then]; [by eexists|]. done.
Qed.

Lemma loadMount_readable ls n mountID initID parent :
  ls_mounts ls !! n = None → mount_record (ls_store ls) n = Some (mountID, initID, parent) →
  loadMount F ls n =
    let! (ls, p) :=
      (if decide (parent ≠ "") then
         let! (ls, p) := loadLayer F ls parent in (incr_referenceCount ls p, Ok (Some p))
       else (ls, Ok None)) in
    (add_mount ls (mkMountedLayer n mountID initID p ∅), Ok tt).
Proof.
  intros Hn Hr. unfold loadMount. rewrite Hn. unfold mount_record in Hr.
  destruct (Meta_GetMountID _ n); cbn [of_sum and_then]; [done|].
  destruct (Meta_GetInitID _ n); cbn [of_sum and_then]; [done|].
  destruct (Meta_GetMountParent _ n); cbn [of_sum and_then]; [done|]. simpl in Hr. by simplify_eq.
Qed.

(** The state with one more use of [p]. *)
Definition use_parent ls (p : option loc) : store :=
  match p with Some p => incr_referenceCount ls p | None => ls end.

Lemma mounting_add processed ls n mountID initID parent (p : option loc) :
  mounting processed ls → ls_mounts ls !! n = None →
  mount_record m n = Some (mountID, initID, parent) → mount_recorded F m n →
  match p with Some q => ls_layerMap ls !! parent = Some q | None => parent = "" end →
  mounting (n :: processed) (add_mount (use_parent ls p) (mkMountedLayer n mountID initID p ∅)).
Proof.
  intros [HL Hcomp Hm Hdata] Hn Hrec Hmr Hp. pose proof (loading_inv _ HL) as Hinv.
  assert (layer_inv (hold p []) (use_parent ls p)) as Hinv1.
  { destruct p as [q|]; [|done]. apply (getWithoutLock_inv [] ls _ parent q Hinv).
    unfold getWithoutLock. by rewrite Hp. }
  assert (same_skel (ls_ro (use_parent ls p)) (ls_ro ls)) as Hsk
    by (destruct p; [apply incr_skel|done]).
  assert (ls_layerMap (use_parent ls p) = ls_layerMap ls ∧ ls_mounts (use_parent ls p) = ls_mounts ls ∧
    ls_rw (use_parent ls p) = ls_rw ls ∧ ls_store (use_parent ls p) = ls_store ls ∧
    ls_next (use_parent ls p) = ls_next ls) as (Emap & Emounts & Erw & Est & Enext) by (by destruct p).
  split.
  - split.
    + simpl. rewrite Est. apply (ld_store _ _ HL).
    + unfold debts. simpl. rewrite bumped_nil. apply inv_add_mount; simpl; [done|by rewrite Emounts|done].
    + constructor.
    + by intros c ?%not_elem_of_nil.
    + intros c x. simpl. rewrite Emap. intros Hx. destruct p as [q|]; [by apply (data_incr [] ls q c x HL)|].
      by apply (ld_data _ _ HL).
  - intros c ds Hds. simpl. rewrite Emap. by eapply Hcomp.
  - intros n'. simpl. rewrite Emounts, lookup_insert_is_Some, Hm, elem_of_cons.
    destruct (decide (n = n')) as [->|]; naive_solver.
  - intros n' x. simpl. rewrite Emounts, Erw, Enext. intros [[<- <-]|[Hne Hx]]%lookup_insert_Some.
    + eexists. rewrite lookup_insert_eq. split; [done|]. split; [done|]. cbn [ml_mountID ml_initID ml_parent].
      rewrite Hrec. do 2 f_equal. rewrite (parent_id_skel _ _ p Hsk). destruct p as [q|]; [|done].
      destruct (ld_data _ _ HL parent q Hp) as (rl & _ & _ & Hrl & [Hc _] & _). simpl. by rewrite Hrl.
    + destruct (Hdata n' x Hx) as (ml & Hml & Href & Hr). exists ml.
      rewrite lookup_insert_ne; [|intros <-; assert (ls_next ls < ls_next ls); [|lia];
        apply (inv_fresh_rw _ _ Hinv); by rewrite Hml].
      split; [done|]. split; [done|]. by rewrite (parent_id_skel _ _ _ Hsk).
Qed.

Lemma load_mount_spec processed ls n :
  (∀ id, recorded F m id ≠ None) → mounting processed ls →
  ∃ ls', load_mount F (ls, Ok tt) n = (ls', Ok tt) ∧ mounting (n :: processed) ls'.
Proof using chain_ids.
  intros Htotal HM. pose proof HM as [HL Hcomp Hm Hdata].
  assert (¬ mount_recorded F m n ∨ is_Some (ls_mounts ls !! n) → mounting (n :: processed) ls) as Hskip.
  { intros Hor. split; [done|done| |done]. intros n'. rewrite Hm, elem_of_cons.
    split; [tauto|]. intros [[->|Hin] Hr]; [|done]. destruct Hor as [|Hs]; [done|]. by apply Hm in Hs. }
  unfold load_mount. cbn [and_then].
  destruct (ls_mounts ls !! n) as [x|] eqn:En.
  { exists ls. unfold loadMount. rewrite En. split; [done|]. apply Hskip. by right. }
  destruct (mount_record m n) as [[[mountID initID] parent]|] eqn:Hrec.
  2:{ destruct (loadMount_unreadable ls n) as [e ->]; [done|by rewrite (ld_store _ _ HL)|].
      exists ls. split; [done|]. apply Hskip. left. intros (? & ? & ? & ? & _). congruence. }
  rewrite (loadMount_readable ls n mountID initID parent En) by (by rewrite (ld_store _ _ HL)).
  case_decide as Hp.
  - destruct (recorded F m parent) as [r|] eqn:Er; [|by destruct (Htotal parent)].
    pose proof (loadLayer_spec F parent ls [] r (le_n F) Er HL) as Hload. destruct r as [ds|].
    + destruct (Hcomp parent ds Er) as [q Hq].
      assert (loadLayer F ls parent = (ls, Ok q)) as ->.
      { destruct F as [|f]; [done|]. cbn [loadLayer]. by rewrite Hq. }
      cbn [and_then]. eexists. split; [done|].
      apply (mounting_add processed ls n mountID initID parent (Some q)); [done|done|done| |done].
      exists mountID, initID, parent. split; [done|]. by exists ds.
    + destruct Hload as (_ & e & ->). cbn [and_then]. exists ls. split; [done|]. apply Hskip. left.
      intros (? & ? & ? & Hr & Hpar). rewrite Hrec in Hr. injection Hr as <- <- <-.
      destruct (Hpar Hp) as [ds Hds]. congruence.
  - subst parent. cbn [and_then]. eexists. split; [done|].
    apply (mounting_add processed ls n mountID initID "" None); [done|done|done| |done].
    exists mountID, initID, "". split; [done|]. done.
Qed.

Lemma load_mounts_spec names processed ls :
  (∀ id, recorded F m id ≠ None) → mounting processed ls →
  ∃ ls', foldl (load_mount F) (ls, Ok tt) names = (ls', Ok tt) ∧ mounting (rev names ++ processed) ls'.
Proof using chain_ids.
  intros Htotal. revert processed ls. induction names as [|n names IH]; intros processed ls HM.
  { by exists ls. }
  destruct (load_mount_spec processed ls n Htotal HM) as (ls1 & E & HM1).
  cbn [foldl]. rewrite E. destruct (IH (n :: processed) ls1 HM1) as (ls2 & E2 & HM2).
  exists ls2. split; [done|]. simpl. by rewrite <- (assoc_L (++)).
Qed.
End with_metadata.

Lemma elem_of_rev {A} (x : A) (xs : list A) : x ∈ rev xs ↔ x ∈ xs.
Proof. rewrite !list_elem_of_In. symmetry. apply in_rev. Qed.

Lemma empty_progress F m d : progress F m [] (empty_store m d).
Proof.
  assert (loading F m [] (empty_store m d)) as HL.
  { split; simpl; [done| |constructor|by intros c ?%not_elem_of_nil|by intros c l; rewrite lookup_empty].
    unfold debts. simpl. rewrite bumped_nil. apply empty_store_inv. }
  split; [|by intros c ds ?%not_elem_of_nil|done].
  exists []. split; [done|]. split; [by intros c ?%not_elem_of_nil|].
  intros c. simpl. rewrite lookup_empty. by intros [? ?].
Qed.

(** C8: Suppose the metadata store can be listed and lists no identifier twice, every
    parent chain that it records is finite, and every layer that can be read with all
    its ancestors is listed, is recorded under the chain identifier of its chain, and
    is at most 125 deep.  Then NewStoreFromGraphDriver, whatever records cannot be
    read, returns a store that satisfies the reference-count invariant without client
    references, whose layers are exactly those that can be read together with all
    their ancestors, and whose mounts are the listed ones that can be read and whose
    parent is such a layer, each with the data of its record. *)
Theorem NewStoreFromGraphDriver_restores F m d ids mounts :
  Meta_List m = inr (ids, mounts) → NoDup ids →
  (∀ id, recorded F m id ≠ None) →
  (∀ id ds, recorded F m id = Some (Some ds) →
     id ∈ ids ∧ id = CreateChainID ds ∧ length ds ≤ maxLayerDepth) →
  ∃ ls : store, NewStoreFromGraphDriver F m d = (ls, Ok tt) ∧ layer_inv [] ls ∧
    (∀ c, is_Some (ls_layerMap ls !! c) ↔ ∃ ds, recorded F m c = Some (Some ds)) ∧
    (∀ c l, ls_layerMap ls !! c = Some l → ∃ rl,
       ls_ro ls !! l = Some rl ∧ restored m (ls_ro ls) c rl) ∧
    (∀ n, is_Some (ls_mounts ls !! n) ↔ n ∈ mounts ∧ mount_recorded F m n) ∧
    (∀ n x, ls_mounts ls !! n = Some x → ∃ ml, ls_rw ls !! x = Some ml ∧ ml_references ml = ∅ ∧
       mount_record m n = Some (ml_mountID ml, ml_initID ml, parent_id (ls_ro ls) (ml_parent ml))).
Proof.
  intros Hlist Hnd Htotal Hok.
  assert (∀ id ds, recorded F m id = Some (Some ds) → id = CreateChainID ds ∧ length ds ≤ maxLayerDepth)
    as Hids by (intros id ds Hr; by apply Hok).
  unfold NewStoreFromGraphDriver. rewrite Hlist. fold (empty_store m d : store).
  destruct (load_ids_spec F m Hids ids [] (empty_store m d)) as (ls1 & -> & HP);
    [apply empty_progress|done|by intros id _ ?%not_elem_of_nil|done|].
  destruct HP as [(U & HL & HU & Hmap) Hcomp Hmounts]. rewrite app_nil_r in *.
  assert (U = []) as ->.
  { destruct U as [|c U]; [done|]. exfalso. apply (HU c); [left|].
    destruct (ld_loaded _ _ _ _ HL c) as [l Hl]; [left|].
    destruct (ld_data _ _ _ _ HL c l Hl) as (_ & ds & _ & _ & _ & Hds & _).
    apply elem_of_rev. by apply (Hok c ds). }
  assert (∀ c ds, recorded F m c = Some (Some ds) → is_Some (ls_layerMap ls1 !! c)) as Hall.
  { intros c ds Hds. eapply Hcomp; [|done]. apply elem_of_rev. by apply (Hok c ds). }
  destruct (load_mounts_spec F m Hids mounts [] ls1 Htotal) as (ls & E & HM).
  { split; [done|done| |].
    - intros n. rewrite Hmounts, lookup_empty. split; [by intros [? ?]|].
      by intros [?%not_elem_of_nil _].
    - intros n x. by rewrite Hmounts, lookup_empty. }
  exists ls. split; [done|]. destruct HM as [HL' Hcomp' Hm' Hdata']. split_and!.
  - by eapply loading_inv.
  - intros c. split; [|by intros [ds Hds]; eapply Hcomp'].
    intros [l Hl]. destruct (ld_data _ _ _ _ HL' c l Hl) as (_ & ds & _ & _ & _ & Hds & _). by exists ds.
  - intros c l Hl. destruct (ld_data _ _ _ _ HL' c l Hl) as (rl & _ & _ & Hrl & Hres & _). by exists rl.
  - intros n. by rewrite Hm', app_nil_r, elem_of_rev.
  - done.
Qed.
End layer_restore.
