(* ===== verification/LayerWitness.v ===== *)
(** * The layer store on concrete inputs

    A driver and a metadata store kept in memory, with which the definitions of
    Layer are run, and the theorems of LayerSafe applied to the results. *)

From S2P Require Import Prelude Layer LayerInv LayerSafe LayerRestore.

(** The driver's state is the list of the identifiers it stores; a metadata
    store that counts the transactions it starts. *)
#[export] Instance demo_driver : Driver (list string) string := {|
  Driver_Create d id _ _ _ := (id :: d, None);
  Driver_CreateReadWrite d id _ _ _ := (id :: d, None);
  Driver_Remove d id := (filter (λ x, x ≠ id) d, None);
  Driver_Get d id _ := (d, inr id);
  Driver_Put d _ := (d, None);
  Driver_ApplyDiff d _ _ ts := (d, inr (Z.of_nat (String.length ts)))
|}.

#[export] Instance demo_meta : MetadataStore nat nat unit := {|
  Meta_StartTransaction m := (S m, inr m);
  Tx_SetSize m _ _ := (m, None);
  Tx_SetParent m _ _ := (m, None);
  Tx_SetDiffID m _ _ := (m, None);
  Tx_SetCacheID m _ _ := (m, None);
  Tx_SetDescriptor m _ _ := (m, None);
  Tx_TarSplitWriter m _ _ := (m, None);
  Tx_Commit m _ _ := (m, None);
  Tx_Cancel m _ := (m, None);
  Meta_GetSize _ _ := inl "none";
  Meta_GetParent _ _ := inl "none";
  Meta_GetDiffID _ _ := inl "none";
  Meta_GetCacheID _ _ := inl "none";
  Meta_GetDescriptor _ _ := inl "none";
  Meta_SetMountID m _ _ := (m, None);
  Meta_SetInitID m _ _ := (m, None);
  Meta_SetMountParent m _ _ := (m, None);
  Meta_GetMountID _ _ := inl "none";
  Meta_GetInitID _ _ := inl "none";
  Meta_GetMountParent _ _ := inl "none";
  Meta_List _ := inr ([], []);
  Meta_Remove m _ := (m, None);
  Meta_RemoveMount m _ := (m, None)
|}.

#[export] Instance demo_ext : LayerExt string unit := {|
  digest_FromBytes s := String.append "sha256:" s;
  tar_Digest s := String.append "d:" s;
  NewInputTarStream _ := None;
  GenerateRandomID n := String (Ascii.ascii_of_nat (97 + n)) "";
  empty_Descriptor := tt;
  Descriptor_Digest _ := ""
|}.

Definition demo_store : layerStore (list string) nat unit := empty_store 0 [].

(** Two layers, the second registered twice, a mount on it, and one of its two
    references released. *)
Definition demo_ops : list (@layer_op string unit) :=
  [ LRegister "base" "" tt;
    LRegister "app" "d:base" tt;
    LRegister "app" "d:base" tt;
    LCreateRW "c1" "sha256:d:base d:app" "" (Some (λ _, None)) ∅;
    LRelease (referencedCacheLayer 3 2) ].

Lemma demo_valid : valid_run demo_store demo_ops.
Proof. vm_compute. repeat split; eauto. Defined.

Lemma layer_store_reference_counts_witness :
  valid_run demo_store demo_ops ∧
  layer_inv [] (layer_run demo_store demo_ops).1 ∧
  Forall no_crash (layer_run demo_store demo_ops).2 ∧
  (layer_run demo_store demo_ops).2 = [Ok tt; Ok tt; Ok tt; Ok tt; Ok tt].
Proof.
  split; [exact demo_valid|].
  destruct (layer_store_reference_counts 0 [] demo_ops demo_valid) as [H1 H2].
  split; [exact H1|]. split; [exact H2|]. vm_compute. reflexivity.
Defined.

Definition demo_layer : roLayer unit :=
  mkRoLayer unit "d:base" "d:base" None "a" 4 tt 1 ∅.

Lemma layer_store_interleaving_safe_witness :
  ∃ ls held, interleaved 0 [] ls held ∧ held = [0] ∧
    layer_inv held ls ∧ (∀ ls' o held', atomic_section ls held ls' o held' → no_crash o).
Proof.
  assert (interleaved 0 []
    (register_publish demo_store 0 demo_layer).1 []) as H1.
  { eapply interleaved_step; [apply interleaved_start|].
    apply (sec_publish _ _ [] [] 0 demo_layer (Ok (referencedCacheLayer 1 0, false)));
      [reflexivity..| |reflexivity|vm_compute; reflexivity].
    intros q ps. simpl. congruence. }
  assert (interleaved 0 []
    (layerStore_get (register_publish demo_store 0 demo_layer).1 "d:base").1 [0]) as H2.
  { eapply interleaved_step; [exact H1|].
    apply (sec_retain_parent _ _ [] "d:base" 0). vm_compute. reflexivity. }
  eexists _, _. split; [exact H2|]. split; [reflexivity|].
  exact (layer_store_interleaving_safe 0 [] _ _ H2).
Defined.

(** The state before the release of the only reference to the layer of "app",
    built on "base", which has a reference of its own. *)
Definition demo_before : layerStore (list string) nat unit :=
  (layer_run demo_store (take 2 demo_ops)).1.

Definition demo_app : roLayer unit :=
  default demo_layer (ls_ro demo_before !! 2).

Lemma Release_removes_unused_prefix_witness :
  live demo_before 2 ∧ ls_ro demo_before !! 2 = Some demo_app ∧
  referencedCacheLayer 3 2 ∈ rl_references demo_app ∧
  (∃ md, (layerStore_Release demo_before (referencedCacheLayer 3 2)).2 = Ok [md] ∧
     md_ChainID md = "sha256:d:base d:app") ∧
  layer_inv [] (layerStore_Release demo_before (referencedCacheLayer 3 2)).1 ∧
  keeps_referenced demo_before (referencedCacheLayer 3 2)
    (layerStore_Release demo_before (referencedCacheLayer 3 2)).1.
Proof.
  assert (live demo_before 2) as H1.
  { exists "sha256:d:base d:app". vm_compute. reflexivity. }
  assert (ls_ro demo_before !! 2 = Some demo_app) as H2 by (vm_compute; reflexivity).
  assert (referencedCacheLayer 3 2 ∈ rl_references demo_app) as H3.
  { apply (bool_decide_eq_true_1 _). vm_compute. reflexivity. }
  assert (layer_inv [] demo_before) as H0.
  { apply (layer_run_inv demo_store (take 2 demo_ops)); [apply empty_store_inv|].
    vm_compute. repeat split. }
  assert (∃ md, (layerStore_Release demo_before (referencedCacheLayer 3 2)).2 = Ok [md] ∧
     md_ChainID md = "sha256:d:base d:app") as H4
    by (eexists; split; vm_compute; reflexivity).
  pose proof (Release_removes_unused_prefix [] demo_before 2 demo_app
                (referencedCacheLayer 3 2) H0 H1 H2 H3) as Hs.
  split_and!; [exact H1|exact H2|exact H3|exact H4| |].
  - destruct H4 as (md & H4 & _).
    destruct (layerStore_Release demo_before (referencedCacheLayer 3 2)) as [ls' o].
    simpl in H4. subst o. simpl in Hs. simpl. exact (proj1 Hs).
  - destruct H4 as (md & H4 & _).
    destruct (layerStore_Release demo_before (referencedCacheLayer 3 2)) as [ls' o].
    simpl in H4. subst o. simpl in Hs. simpl. exact (proj1 (proj2 Hs)).
Defined.

Lemma Register_returns_chain_witness :
  layer_inv [] demo_store ∧
  ∃ r, (layerStore_Register demo_store "base" "").2 = Ok r ∧
    returns_ref "d:base" (layerStore_Register demo_store "base" "").1 r.
Proof.
  assert (layer_inv [] demo_store) as H0 by apply empty_store_inv.
  split; [exact H0|]. exists (referencedCacheLayer 1 0).
  pose proof (Register_returns_chain [] demo_store "base" "" H0) as Hs.
  assert ((layerStore_Register demo_store "base" "").2 = Ok (referencedCacheLayer 1 0)) as H1
    by (vm_compute; reflexivity).
  split; [exact H1|].
  destruct (layerStore_Register demo_store "base" "") as [ls' o].
  simpl in H1. subst o. simpl in Hs. simpl. exact (proj2 Hs).
Defined.

Lemma live_layer_chain_ids_witness :
  valid_run demo_store demo_ops ∧
  ∃ ps, chain (ls_ro (layer_run demo_store demo_ops).1) 2 ps ∧ length ps ≤ 125 ∧
    "sha256:d:base d:app" =
      CreateChainID (chain_diffIDs (ls_ro (layer_run demo_store demo_ops).1) ps).
Proof.
  split; [exact demo_valid|].
  refine (live_layer_chain_ids 0 [] demo_ops "sha256:d:base d:app" 2 demo_valid _).
  vm_compute. reflexivity.
Defined.

(** ** A store opened again *)

(** A metadata store in memory: the layers with their diff identifier and parent,
    and the mounts with their parent; it cannot be written to. *)
Abbreviation records := (list (string * (string * string)) * list (string * string))%type.

Fixpoint find_record {A} (k : string) (l : list (string * A)) : string + A :=
  match l with
  | [] => inl "not found"
  | (k', a) :: l => if decide (k = k') then inr a else find_record k l
  end.
Definition map_right {A B} (f : A → B) (r : string + A) : string + B :=
  match r with inl e => inl e | inr a => inr (f a) end.
Definition read_only (m : records) : records * option string := (m, Some "read-only").

#[export] Instance records_meta : MetadataStore records nat unit := {|
  Meta_StartTransaction m := (m, inl "read-only");
  Tx_SetSize m _ _ := read_only m;
  Tx_SetParent m _ _ := read_only m;
  Tx_SetDiffID m _ _ := read_only m;
  Tx_SetCacheID m _ _ := read_only m;
  Tx_SetDescriptor m _ _ := read_only m;
  Tx_TarSplitWriter m _ _ := read_only m;
  Tx_Commit m _ _ := read_only m;
  Tx_Cancel m _ := read_only m;
  Meta_GetSize m id := map_right (λ _, 1%Z) (find_record id m.1);
  Meta_GetParent m id := map_right snd (find_record id m.1);
  Meta_GetDiffID m id := map_right fst (find_record id m.1);
  Meta_GetCacheID m id := map_right (λ _, String.append "cache:" id) (find_record id m.1);
  Meta_GetDescriptor m id := map_right (λ _, tt) (find_record id m.1);
  Meta_SetMountID m _ _ := read_only m;
  Meta_SetInitID m _ _ := read_only m;
  Meta_SetMountParent m _ _ := read_only m;
  Meta_GetMountID m n := map_right (λ _, "mount") (find_record n m.2);
  Meta_GetInitID m n := map_right (λ _, "") (find_record n m.2);
  Meta_GetMountParent m n := map_right (λ p, p) (find_record n m.2);
  Meta_List m := inr (m.1.*1, m.2.*1);
  Meta_Remove m _ := read_only m;
  Meta_RemoveMount m _ := read_only m
|}.

(** The child is listed before its parent; the third layer has lost its parent. *)
Definition demo_records : records :=
  ([("sha256:d:base d:app", ("d:app", "d:base")); ("d:base", ("d:base", ""));
    ("sha256:d:gone d:x", ("d:x", "d:gone"))],
   [("c1", "sha256:d:base d:app"); ("c2", "d:gone")]).

Lemma demo_recorded id r :
  recorded 3 demo_records id = r →
  r = Some None ∨ id = "d:base" ∧ r = Some (Some ["d:base"]) ∨
  id = "sha256:d:base d:app" ∧ r = Some (Some ["d:base"; "d:app"]).
Proof.
  intros <-. destruct (decide (id = "sha256:d:base d:app")) as [->|H1]; [by right; right|].
  destruct (decide (id = "d:base")) as [->|H2]; [by right; left|].
  destruct (decide (id = "sha256:d:gone d:x")) as [->|H3]; [by left|].
  left. assert (find_record id demo_records.1 = inl "not found") as E.
  { unfold demo_records. cbn [fst find_record]. by rewrite !decide_False. }
  unfold recorded, layer_record. cbn [Meta_GetDiffID records_meta]. by rewrite E.
Qed.

Lemma demo_chains id ds :
  recorded 3 demo_records id = Some (Some ds) →
  id ∈ demo_records.1.*1 ∧ id = CreateChainID ds ∧ length ds ≤ maxLayerDepth.
Proof.
  intros [?|[[-> [= ->]]|[-> [= ->]]]]%demo_recorded; [done|..]; (split; [cbn; set_solver|]);
    (split; [reflexivity|unfold maxLayerDepth; simpl; lia]).
Qed.

Lemma NewStoreFromGraphDriver_restores_witness :
  ∃ ls : layerStore (list string) records unit,
    NewStoreFromGraphDriver 3 demo_records [] = (ls, Ok tt) ∧ layer_inv [] ls ∧
    (∀ c, is_Some (ls_layerMap ls !! c) ↔ ∃ ds, recorded 3 demo_records c = Some (Some ds)).
Proof.
  destruct (NewStoreFromGraphDriver_restores 3 demo_records ([] : list string)
    demo_records.1.*1 demo_records.2.*1) as (ls & H1 & H2 & H3 & _).
  - reflexivity.
  - apply (bool_decide_unpack _). vm_compute. exact I.
  - intros id Hr. destruct (demo_recorded id _ Hr) as [?|[[_ ?]|[_ ?]]]; done.
  - exact demo_chains.
  - exists ls. exact (conj H1 (conj H2 H3)).
Defined.
