(* ===== verification/Tree.v ===== *)
(** * A file system with directories

    The operating system as the layer metadata store uses it: unlike the disk of
    OS, directories are nodes of their own, so that an empty directory, the
    rename of a directory and a missing parent directory behave as they do on
    disk.  [t_faults] scripts the failures of the calls that write (each call
    takes the next entry, and what a failing call did before it failed is part of
    the entry); [t_unreadable] gives the paths that cannot be read. *)

From S2P Require Import Prelude.

Abbreviation path := (list string).

Inductive node := Dir | File (content : string).
#[global] Instance node_eq_dec : EqDecision node.
Proof. solve_decision. Defined.

(** A failing call: its error, how many directories [os.MkdirAll] made, what
    [ioutil.WriteFile] had written, what [os.RemoveAll] had removed. *)
Record tfault := mkTFault {
  tf_err : string; tf_made : nat; tf_partial : option string; tf_removed : gset (list string)
}.
Record tree := mkTree {
  t_nodes : gmap (list string) node;
  t_faults : list (option tfault);
  t_unreadable : gmap (list string) string
}.
Implicit Types (t : tree) (m : gmap (list string) node) (p q src dst : path).

Definition ENOENT : string := "no such file or directory".
Definition IsNotExist (e : string) : bool := bool_decide (e = ENOENT).

Definition tree_fault t : tree * option tfault :=
  match t_faults t with
  | [] => (t, None)
  | f :: fs => (mkTree (t_nodes t) fs (t_unreadable t), f)
  end.
Definition with_nodes t m : tree := mkTree m (t_faults t) (t_unreadable t).

Definition below p q : Prop := p `prefix_of` q.
#[global] Instance below_dec p q : Decision (below p q).
Proof. unfold below. apply _. Defined.

Definition is_dir m p : bool := bool_decide (m !! p = Some Dir).
Definition is_file m p : bool := match m !! p with Some (File _) => true | _ => false end.

Lemma is_file_same m m' p : m !! p = m' !! p → is_file m p = is_file m' p.
Proof. unfold is_file. by intros ->. Qed.

(** The directory of a path. *)
Definition parent_dir p : path := take (length p - 1) p.

(** The path and the directories above it, from the root on. *)
Definition ancestors p : list path := (λ n, take n p) <$> seq 0 (S (length p)).

Definition make_dir m p : gmap (list string) node :=
  match m !! p with None => <[p := Dir]> m | Some _ => m end.

(** [os.MkdirAll]. *)
Definition tree_MkdirAll t p : tree * outcome string unit :=
  let '(t, f) := tree_fault t in
  if existsb (is_file (t_nodes t)) (ancestors p) then (t, Err "not a directory")
  else
    match f with
    | Some f =>
        (with_nodes t (foldl make_dir (t_nodes t) (take (tf_made f) (ancestors p))),
         Err (tf_err f))
    | None => (with_nodes t (foldl make_dir (t_nodes t) (ancestors p)), Ok tt)
    end.

(** [ioutil.WriteFile], and [os.OpenFile] with O_TRUNC and O_CREATE. *)
Definition tree_WriteFile t p (data : string) : tree * outcome string unit :=
  match tree_fault t with
  | (t, f) =>
      if negb (is_dir (t_nodes t) (parent_dir p)) then (t, Err ENOENT)
      else if is_dir (t_nodes t) p then (t, Err "is a directory")
      else
        match f with
        | Some f =>
            (match tf_partial f with
             | Some written => with_nodes t (<[p := File written]> (t_nodes t))
             | None => t
             end, Err (tf_err f))
        | None => (with_nodes t (<[p := File data]> (t_nodes t)), Ok tt)
        end
  end.

(** [ioutil.ReadFile]. *)
Definition tree_ReadFile t p : outcome string string :=
  match t_unreadable t !! p with
  | Some e => Err e
  | None =>
      match t_nodes t !! p with
      | Some (File content) => Ok content
      | Some Dir => Err "is a directory"
      | None => Err ENOENT
      end
  end.

(** [os.RemoveAll] removes a directory after what is in it. *)
Definition removed_by (f : tfault) m p : Prop :=
  set_Forall (λ q, below p q → q ∈ tf_removed f) (dom m).
#[global] Instance removed_by_dec f m p : Decision (removed_by f m p).
Proof. unfold removed_by. apply _. Defined.

Definition tree_RemoveAll t p : tree * outcome string unit :=
  match tree_fault t with
  | (t, Some f) =>
      (with_nodes t (filter (λ kv, ¬ (below p kv.1 ∧ removed_by f (t_nodes t) kv.1)) (t_nodes t)),
       Err (tf_err f))
  | (t, None) => (with_nodes t (filter (λ kv, ¬ below p kv.1) (t_nodes t)), Ok tt)
  end.

(** The names in a directory. *)
Definition entries m p : gset string :=
  set_omap (λ q : list string,
    if decide (length q = S (length p) ∧ below p q) then last q else None) (dom m).

(** [ioutil.ReadDir]: the names in order, with [IsDir]. *)
Definition tree_ReadDir t p : outcome string (list (string * bool)) :=
  match t_unreadable t !! p with
  | Some e => Err e
  | None =>
      match t_nodes t !! p with
      | None => Err ENOENT
      | Some (File _) => Err "not a directory"
      | Some Dir =>
          Ok ((λ name, (name, is_dir (t_nodes t) (p ++ [name]))) <$>
              merge_sort String.le (elements (entries (t_nodes t) p)))
      end
  end.

(** [ioutil.TempDir] in [dir]: [pick] is the choice of a name that is not taken. *)
Definition tree_TempDir (pick : gset string → string) t (dir : path) :
    tree * outcome string path :=
  match tree_fault t with
  | (t, Some f) => (t, Err (tf_err f))
  | (t, None) =>
      if is_dir (t_nodes t) dir then
        let name := dir ++ [pick (entries (t_nodes t) dir)] in
        (with_nodes t (<[name := Dir]> (t_nodes t)), Ok name)
      else (t, Err ENOENT)
  end.

(** [os.Rename] of a directory: the new name may be that of an empty one. *)
Definition move_path src dst p : path :=
  if decide (below src p) then dst ++ drop (length src) p else p.
Definition move_dir src dst m : gmap (list string) node :=
  list_to_map (prod_map (move_path src dst) id <$> map_to_list (delete dst m)).
Definition has_below m p : bool :=
  bool_decide (filter (λ kv, below p kv.1 ∧ kv.1 ≠ p) m ≠ ∅).

Definition tree_Rename t src dst : tree * outcome string unit :=
  match tree_fault t with
  | (t, Some f) => (t, Err (tf_err f))
  | (t, None) =>
      if negb (is_dir (t_nodes t) src) then (t, Err ENOENT)
      else if negb (is_dir (t_nodes t) (parent_dir dst)) then (t, Err ENOENT)
      else if bool_decide (below src dst) then (t, Err "invalid argument")
      else if is_file (t_nodes t) dst then (t, Err "not a directory")
      else if has_below (t_nodes t) dst then (t, Err "directory not empty")
      else (with_nodes t (move_dir src dst (t_nodes t)), Ok tt)
  end.

(** ** What the calls do to a path *)

Lemma make_dir_lookup m p q :
  make_dir m p !! q = match m !! q with Some n => Some n
                      | None => if decide (p = q) then Some Dir else None end.
Proof.
  unfold make_dir. destruct (m !! p) as [n|] eqn:Hp.
  - destruct (m !! q) eqn:Hq; [done|]. rewrite decide_False; congruence.
  - destruct (decide (p = q)) as [->|Hpq].
    + by rewrite lookup_insert_eq, Hp.
    + rewrite lookup_insert_ne by done. by destruct (m !! q).
Qed.

Lemma make_dirs_lookup m ps q :
  foldl make_dir m ps !! q = match m !! q with Some n => Some n
                             | None => if decide (q ∈ ps) then Some Dir else None end.
Proof.
  revert m. induction ps as [|p ps IH]; intros m; cbn [foldl].
  - destruct (m !! q); [done|]. rewrite decide_False; [done|set_solver].
  - rewrite IH, make_dir_lookup. destruct (m !! q); [done|].
    destruct (decide (p = q)) as [->|Hpq].
    + rewrite decide_True; [done|set_solver].
    + apply decide_ext. set_solver.
Qed.

Lemma elem_of_ancestors q p : q ∈ ancestors p ↔ below q p.
Proof.
  unfold ancestors. rewrite list_elem_of_fmap. split.
  - intros (n & -> & _). exists (drop n p). by rewrite take_drop.
  - intros [r ->]. exists (length q). split; [by rewrite take_app_length|].
    apply elem_of_seq. rewrite length_app. lia.
Qed.

Lemma below_app p q : below p (p ++ q).
Proof. by exists q. Qed.

Lemma below_refl p : below p p.
Proof. exists []. by rewrite app_nil_r. Qed.

Lemma below_drop p q : below p q → q = p ++ drop (length p) q.
Proof. intros [r ->]. by rewrite drop_app_length. Qed.

Lemma below_or_below q p1 p2 : below p1 q → below p2 q → below p1 p2 ∨ below p2 p1.
Proof. intros H1 H2. by apply (prefix_weak_total p1 p2 q). Qed.

Lemma is_Some_is_dir m p : is_dir m p = true → is_Some (m !! p).
Proof. unfold is_dir. rewrite bool_decide_eq_true. intros ->. by eexists. Qed.

Lemma elem_of_entries m p name : name ∈ entries m p ↔ is_Some (m !! (p ++ [name])).
Proof.
  unfold entries. rewrite elem_of_set_omap, <- elem_of_dom. split.
  - intros (q & Hq & Hlast). case_decide as Hl; [|done]. destruct Hl as [Hlen [r ->]].
    rewrite length_app in Hlen. destruct r as [|x [|]]; simpl in Hlen; [lia| |lia].
    rewrite last_snoc in Hlast. by simplify_eq.
  - intros Hq. exists (p ++ [name]). split; [done|]. rewrite last_snoc, decide_True; [done|].
    split; [rewrite length_app; simpl; lia|apply below_app].
Qed.

Lemma has_below_false m p q :
  has_below m p = false → is_Some (m !! q) → below p q → q = p.
Proof.
  unfold has_below. rewrite bool_decide_eq_false. intros H [n Hq] Hpq.
  apply dec_stable in H. destruct (decide (q = p)) as [|Hne]; [done|].
  exfalso. apply (map_filter_empty_not_lookup _ _ q n H); [|done]. by split.
Qed.

Section move.
Context (m : gmap (list string) node) (src dst : path).
Hypothesis dst_not_in_src : ¬ below src dst.
Hypothesis dst_empty : ∀ q, is_Some (m !! q) → below dst q → q = dst.

Lemma move_path_inj q r :
  is_Some (delete dst m !! q) → is_Some (delete dst m !! r) →
  move_path src dst q = move_path src dst r → q = r.
Proof.
  assert (Hd : ∀ q, is_Some (delete dst m !! q) → ¬ below dst q).
  { intros x Hx Hb. destruct (decide (x = dst)) as [->|Hne].
    - rewrite lookup_delete_eq in Hx. by destruct Hx.
    - rewrite lookup_delete_ne in Hx by done. by apply Hne, dst_empty. }
  intros Hq Hr. unfold move_path.
  destruct (decide (below src q)), (decide (below src r)).
  - intros Heq%app_inv_head. rewrite (below_drop src q), (below_drop src r) by done. by rewrite Heq.
  - intros <-. destruct (Hd _ Hr). apply below_app.
  - intros ->. destruct (Hd _ Hq). apply below_app.
  - done.
Qed.

Lemma move_dir_Some q n :
  move_dir src dst m !! q = Some n ↔
  ∃ r, delete dst m !! r = Some n ∧ q = move_path src dst r.
Proof.
  unfold move_dir. rewrite <- elem_of_list_to_map.
  - rewrite list_elem_of_fmap. split.
    + intros ([r x] & [= -> ->] & Hr%elem_of_map_to_list). eauto.
    + intros (r & Hr & ->). exists (r, n). split; [done|]. by apply elem_of_map_to_list.
  - rewrite <- list_fmap_compose. apply NoDup_fmap_2_strong.
    + intros [q1 n1] [q2 n2] H1%elem_of_map_to_list H2%elem_of_map_to_list Heq.
      simpl in Heq. apply move_path_inj in Heq; [|by eexists..]. subst. congruence.
    + apply NoDup_map_to_list.
Qed.

Lemma option_eq_ext {A} (a b : option A) : (∀ x, a = Some x ↔ b = Some x) → a = b.
Proof. intros H. apply option_eq. exact H. Qed.

(** Below the new name are the files of the old one. *)
Lemma move_dir_dst rest : move_dir src dst m !! (dst ++ rest) = m !! (src ++ rest).
Proof.
  apply option_eq_ext. intros n. rewrite move_dir_Some. split.
  - intros (r & Hr & Heq). unfold move_path in Heq. case_decide as Hb.
    + apply app_inv_head in Heq. rewrite Heq, <- below_drop by done.
      by apply lookup_delete_Some in Hr as [_ Hr].
    + apply lookup_delete_Some in Hr as [Hne Hr]. destruct Hne. symmetry.
      apply dst_empty; [by eexists|]. rewrite <- Heq. apply below_app.
  - intros Hr. exists (src ++ rest). split.
    + rewrite lookup_delete_ne; [done|]. intros Heq. apply dst_not_in_src. rewrite Heq.
      apply below_app.
    + unfold move_path. rewrite decide_True by apply below_app. by rewrite drop_app_length.
Qed.

(** The paths below neither name are left alone. *)
Lemma move_dir_other q :
  ¬ below src q → ¬ below dst q → move_dir src dst m !! q = m !! q.
Proof.
  intros Hs Hd. apply option_eq_ext. intros n. rewrite move_dir_Some. split.
  - intros (r & Hr & ->). unfold move_path in *. case_decide.
    + destruct Hd. apply below_app.
    + by apply lookup_delete_Some in Hr as [_ Hr].
  - intros Hq. exists q. unfold move_path. rewrite decide_False by done. split; [|done].
    rewrite lookup_delete_ne; [done|]. intros ->. apply Hd, below_refl.
Qed.
End move.

(** ** Frames: which paths a call leaves alone, whatever happens *)

Definition same_on (P : path → Prop) t t' : Prop :=
  (∀ q, P q → t_nodes t' !! q = t_nodes t !! q) ∧ t_unreadable t' = t_unreadable t.

Lemma same_on_refl P t : same_on P t t.
Proof. done. Qed.

Lemma same_on_trans P t1 t2 t3 : same_on P t1 t2 → same_on P t2 t3 → same_on P t1 t3.
Proof.
  intros [H1 U1] [H2 U2]. split; [|congruence]. intros q Hq. by rewrite H2, H1.
Qed.

Lemma same_on_mono (P Q : path → Prop) t t' :
  same_on P t t' → (∀ q, Q q → P q) → same_on Q t t'.
Proof. intros [H U] HQ. split; [|done]. intros q Hq. by apply H, HQ. Qed.

Lemma same_on_read P t t' q : same_on P t t' → P q → tree_ReadFile t' q = tree_ReadFile t q.
Proof. intros [H U] Hq. unfold tree_ReadFile. by rewrite U, H. Qed.

Lemma tree_fault_nodes t : ∀ t' f, tree_fault t = (t', f) →
  t_nodes t' = t_nodes t ∧ t_unreadable t' = t_unreadable t.
Proof. unfold tree_fault. intros t' f. destruct (t_faults t) as [|g fs]; by intros [= <- <-]. Qed.

(** The nodes of a tree after a scripted failure was taken. *)
Ltac take_fault t :=
  let H := fresh "Hf" in
  destruct (tree_fault t) as [? [?|]] eqn:H;
  destruct (tree_fault_nodes _ _ _ H) as [?Hn ?Hu].

Lemma MkdirAll_frame t p : same_on (λ q, ¬ below q p) t (tree_MkdirAll t p).1.
Proof.
  assert (Hmk : ∀ m ps q, ps ⊆ ancestors p → ¬ below q p → foldl make_dir m ps !! q = m !! q).
  { intros m ps q Hps Hq. rewrite make_dirs_lookup. destruct (m !! q); [done|].
    rewrite decide_False; [done|]. intros Hin. by apply Hq, elem_of_ancestors, Hps. }
  unfold tree_MkdirAll. take_fault t; (destruct (existsb _ _); [by split; [intros; cbn; rewrite ?Hn|]|]);
    (split; [|done]); intros q Hq; cbn [fst with_nodes t_nodes]; rewrite Hmk; try done;
    [by rewrite Hn|apply subseteq_take|by rewrite Hn].
Qed.

Lemma WriteFile_frame t p data : same_on (λ q, q ≠ p) t (tree_WriteFile t p data).1.
Proof.
  unfold tree_WriteFile. take_fault t; repeat case_match; (split; [|done]); intros q Hq;
    cbn [fst with_nodes t_nodes]; rewrite ?lookup_insert_ne by done; by rewrite Hn.
Qed.

Lemma RemoveAll_frame t p : same_on (λ q, ¬ below p q) t (tree_RemoveAll t p).1.
Proof.
  unfold tree_RemoveAll. take_fault t; (split; [|done]); intros q Hq;
    cbn [fst with_nodes t_nodes]; rewrite Hn; apply option_eq_ext; intros n;
    rewrite map_lookup_filter_Some; naive_solver.
Qed.

Lemma TempDir_spec pick t dir :
  (∀ X, pick X ∉ X) →
  match tree_TempDir pick t dir with
  | (t', Ok name) =>
      ∃ x, name = dir ++ [x] ∧ t_nodes t !! name = None ∧ is_dir (t_nodes t) dir = true ∧
        t_nodes t' = <[name := Dir]> (t_nodes t) ∧ t_unreadable t' = t_unreadable t
  | (t', _) => same_on (λ _, True) t t'
  end.
Proof.
  intros Hpick. unfold tree_TempDir. take_fault t; [by split; [intros; rewrite Hn|]|].
  destruct (is_dir (t_nodes t0) dir) eqn:Hd; [|by split; [intros; rewrite Hn|]].
  rewrite Hn in *. eexists. split_and!; [done| |done|done|done].
  apply eq_None_not_Some. rewrite <- elem_of_entries. apply Hpick.
Qed.

Lemma Rename_spec t src dst :
  match tree_Rename t src dst with
  | (t', Ok _) =>
      (∀ rest, t_nodes t' !! (dst ++ rest) = t_nodes t !! (src ++ rest)) ∧
      same_on (λ q, ¬ below src q ∧ ¬ below dst q) t t' ∧
      (∀ q, below src q → t_nodes t' !! q = None) ∧
      is_dir (t_nodes t) (parent_dir dst) = true ∧ ¬ below src dst ∧
      (∀ q, is_Some (t_nodes t !! q) → below dst q → q = dst)
  | (t', Err _) => same_on (λ _, True) t t'
  | _ => False
  end.
Proof.
  unfold tree_Rename. take_fault t; [by split; [intros; rewrite Hn|]|]. rewrite Hn.
  destruct (is_dir _ src) eqn:Hs; [|by split; [intros; rewrite Hn|]].
  destruct (is_dir _ (parent_dir dst)) eqn:Hpd; [|by split; [intros; rewrite Hn|]].
  cbn [negb]. case_bool_decide as Hb; [by split; [intros; rewrite Hn|]|].
  destruct (is_file _ dst) eqn:Hfd; [by split; [intros; rewrite Hn|]|].
  destruct (has_below _ dst) eqn:Hbd; [by split; [intros; rewrite Hn|]|].
  assert (Hempty : ∀ q, is_Some (t_nodes t !! q) → below dst q → q = dst)
    by eauto using has_below_false.
  split_and!; [by apply move_dir_dst| | |done|done|done].
  - split; [|done]. intros q [H1 H2]. by apply move_dir_other.
  - intros q Hq. apply eq_None_not_Some. intros [n Hn'].
    apply move_dir_Some in Hn' as (r & Hr & ->); [|done].
    apply lookup_delete_Some in Hr as [_ Hr]. unfold move_path in Hq. case_decide as Hbr; [|done].
    destruct (below_or_below _ _ _ Hq (below_app dst _)) as [H|H]; [done|].
    apply is_Some_is_dir in Hs. specialize (Hempty _ Hs H) as ->. by apply Hb, below_refl.
Qed.

(** ** Trees: every node but the root is in a directory *)

Definition tree_wf t : Prop :=
  ∀ q x, is_Some (t_nodes t !! (q ++ [x])) → t_nodes t !! q = Some Dir.

Lemma tree_wf_nodes t t' : tree_wf t → t_nodes t' = t_nodes t → tree_wf t'.
Proof. unfold tree_wf. by intros H ->. Qed.

(** Nothing is below a path that is not there. *)
Lemma tree_wf_below t p q : tree_wf t → t_nodes t !! p = None → below p q → t_nodes t !! q = None.
Proof.
  intros Hwf Hp [r ->]. induction r as [|x r IH] using rev_ind; [by rewrite app_nil_r|].
  apply eq_None_not_Some. rewrite app_assoc. intros Hs. apply Hwf in Hs. congruence.
Qed.

Lemma parent_dir_snoc q x : parent_dir (q ++ [x]) = q.
Proof. unfold parent_dir. rewrite length_app. simpl. by rewrite Nat.add_sub, take_app_length. Qed.

Lemma below_snoc p q x : below p (q ++ [x]) → p = q ++ [x] ∨ below p q.
Proof.
  intros [r Hr]. destruct r as [|y r _] using rev_ind; [left; by rewrite app_nil_r in Hr|].
  right. rewrite app_assoc in Hr. apply app_inj_2 in Hr as [-> _]; [|done]. apply below_app.
Qed.

Lemma below_trans p q r : below p q → below q r → below p r.
Proof. apply (transitivity (R := prefix)). Qed.

Lemma below_length p q : below p q → length p ≤ length q.
Proof. intros [r ->]. rewrite length_app. lia. Qed.

(** Making directories, in an order in which each one's parent comes first. *)
Lemma make_dirs_wf t ps :
  tree_wf t →
  (∀ q, q ∈ ps → is_file (t_nodes t) q = false) →
  (∀ q x, q ++ [x] ∈ ps → q ∈ ps) →
  tree_wf (with_nodes t (foldl make_dir (t_nodes t) ps)).
Proof.
  intros Hwf Hnf Hps q x. cbn [t_nodes with_nodes]. rewrite !make_dirs_lookup.
  destruct (t_nodes t !! (q ++ [x])) as [n|] eqn:Hq.
  - intros _. by rewrite (Hwf q x) by (by eexists).
  - case_decide as Hin; [intros _|by intros []]. apply Hps in Hin as Hq'.
    specialize (Hnf q Hq'). unfold is_file in Hnf. destruct (t_nodes t !! q) as [[]|]; [done..|].
    by rewrite decide_True.
Qed.

Lemma ancestors_closed p n q x : q ++ [x] ∈ take n (ancestors p) → q ∈ take n (ancestors p).
Proof.
  unfold ancestors. rewrite <- fmap_take, take_seq, !list_elem_of_fmap.
  intros (k & Heq & Hk%elem_of_seq). exists (length q).
  assert (Hb : below (q ++ [x]) p) by (rewrite Heq; exists (drop k p); by rewrite take_drop).
  assert (Hl : length (q ++ [x]) ≤ k) by (rewrite Heq, length_take; lia).
  rewrite length_app in Hl. simpl in Hl. split; [|apply elem_of_seq; lia].
  destruct Hb as [r ->]. by rewrite <- app_assoc, take_app_length.
Qed.

Lemma MkdirAll_wf t p : tree_wf t → tree_wf (tree_MkdirAll t p).1.
Proof.
  intros Hwf. unfold tree_MkdirAll.
  take_fault t; pose proof (tree_wf_nodes _ _ Hwf Hn) as Hwf';
    (destruct (existsb _ _) eqn:He; [done|]);
    assert (Hnf : ∀ q, q ∈ ancestors p → is_file (t_nodes t0) q = false).
  1,3: intros q Hq; apply not_true_is_false; intros Hf';
    rewrite (proj2 (existsb_exists _ _)) in He; [done|];
    exists q; split; [by apply list_elem_of_In|done].
  - apply make_dirs_wf; [done| |apply ancestors_closed].
    intros q Hq. by apply Hnf, (subseteq_take (tf_made t1)).
  - apply make_dirs_wf; [done..|]. intros q x. rewrite !elem_of_ancestors.
    apply below_trans, below_app.
Qed.

Lemma insert_file_wf t p content :
  tree_wf t → is_dir (t_nodes t) (parent_dir p) = true → is_dir (t_nodes t) p = false →
  tree_wf (with_nodes t (<[p := File content]> (t_nodes t))).
Proof.
  intros Hwf Hd Hnd q x. unfold is_dir in *. rewrite bool_decide_eq_true in Hd.
  rewrite bool_decide_eq_false in Hnd. cbn [t_nodes with_nodes].
  destruct (decide (p = q ++ [x])) as [->|Hne].
  - intros _. rewrite parent_dir_snoc in Hd. rewrite lookup_insert_ne; [done|].
    intros Heq. by rewrite Heq in Hnd.
  - rewrite lookup_insert_ne by done. intros Hs%Hwf. rewrite lookup_insert_ne; [done|].
    by intros ->.
Qed.

Lemma WriteFile_wf t p data : tree_wf t → tree_wf (tree_WriteFile t p data).1.
Proof.
  intros Hwf. unfold tree_WriteFile.
  take_fault t; pose proof (tree_wf_nodes _ _ Hwf Hn) as Hwf';
    (destruct (is_dir _ (parent_dir p)) eqn:Hd; [|done]); cbn [negb];
    (destruct (is_dir _ p) eqn:Hnd; [done|]); [destruct (tf_partial _)|]; cbn [fst]; [|done|];
    by apply insert_file_wf.
Qed.

Lemma RemoveAll_wf t p : tree_wf t → tree_wf (tree_RemoveAll t p).1.
Proof.
  intros Hwf. unfold tree_RemoveAll.
  take_fault t; pose proof (tree_wf_nodes _ _ Hwf Hn) as Hwf'; intros q x;
    cbn [fst t_nodes with_nodes];
    intros [n [Hq Hk]%map_lookup_filter_Some]; apply map_lookup_filter_Some;
    (split; [by apply (Hwf' q x); eexists|]); cbn [fst] in *.
  - intros [Hb Hr]. apply Hk. split; [by eapply below_trans, below_app|].
    intros r Hr' Hbr. apply Hr; [done|]. eapply below_trans; [apply below_app|done].
  - intros Hb. apply Hk. by eapply below_trans, below_app.
Qed.

Lemma TempDir_wf pick t dir : (∀ X, pick X ∉ X) → tree_wf t → tree_wf (tree_TempDir pick t dir).1.
Proof.
  intros Hpick Hwf. pose proof (TempDir_spec pick t dir Hpick) as Hs.
  destruct (tree_TempDir pick t dir) as [t' [name|e|e|]]; cbn [fst];
    [|destruct Hs as [Hs _]; intros q x; rewrite !Hs by done; apply Hwf..].
  destruct Hs as (y & -> & Hnone & Hd & Hn & _). unfold is_dir in Hd.
  rewrite bool_decide_eq_true in Hd. intros q x. rewrite Hn.
  destruct (decide (dir ++ [y] = q)) as [<-|Hne]; [by rewrite lookup_insert_eq|].
  rewrite (lookup_insert_ne _ _ q) by done.
  destruct (decide (dir ++ [y] = q ++ [x])) as [[-> _]%app_inj_2|Hne']; [done|done|].
  rewrite lookup_insert_ne by done. apply Hwf.
Qed.

Lemma Rename_wf t src dst : tree_wf t → tree_wf (tree_Rename t src dst).1.
Proof.
  intros Hwf. pose proof (Rename_spec t src dst) as Hs.
  destruct (tree_Rename t src dst) as [t' [u|e|e|]]; cbn [fst];
    [|destruct Hs as [Hs _]; intros q x; rewrite !Hs by done; apply Hwf|done..].
  destruct Hs as (Hdst & [Hother _] & Hsrc & Hd & Hsd & _). unfold is_dir in Hd.
  rewrite bool_decide_eq_true in Hd. intros q x Hq.
  destruct (decide (below dst (q ++ [x]))) as [Hb|Hb].
  - apply below_snoc in Hb as [->|[r ->]].
    + rewrite parent_dir_snoc in Hd. rewrite Hother; [done|]. split.
      * intros Hs. by apply Hsd, (below_trans _ q), below_app.
      * intros Hl%below_length. rewrite length_app in Hl. simpl in Hl. lia.
    + rewrite <- app_assoc, Hdst in Hq. rewrite Hdst. apply (Hwf _ x). by rewrite <- app_assoc.
  - destruct (decide (below src (q ++ [x]))) as [Hs|Hs]; [by rewrite Hsrc in Hq; destruct Hq|].
    rewrite Hother in Hq by done. rewrite Hother; [by apply (Hwf q x)|].
    split; intros H; [apply Hs|apply Hb]; by eapply below_trans, below_app.
Qed.

(** ** Without scripted failures *)

Definition no_faults t : Prop := Forall (λ f, f = None) (t_faults t).

Lemma tree_fault_clean t t' f : tree_fault t = (t', f) → no_faults t → f = None ∧ no_faults t'.
Proof.
  unfold tree_fault, no_faults. intros Hf Hn. destruct (t_faults t) as [|g fs] eqn:Ht.
  - simplify_eq. by rewrite Ht.
  - apply Forall_cons in Hn as [-> Hn]. by simplify_eq.
Qed.

(** What [os.MkdirAll] promises: it fails only at a file or by a failure of the
    script, it makes directories and never files. *)
Lemma MkdirAll_spec t p :
  let '(t', r) := tree_MkdirAll t p in
  (∀ q, is_file (t_nodes t') q = is_file (t_nodes t) q) ∧
  (no_faults t → no_faults t') ∧
  match r with
  | Ok _ => is_dir (t_nodes t') p = true
  | Err _ => no_faults t → ∃ q, below q p ∧ is_file (t_nodes t) q = true
  | _ => False
  end.
Proof.
  assert (Hfile : ∀ m ps q, is_file (foldl make_dir m ps) q = is_file m q).
  { intros m ps q. unfold is_file. rewrite make_dirs_lookup. destruct (m !! q); [done|].
    by case_decide. }
  unfold tree_MkdirAll. destruct (tree_fault t) as [t0 f] eqn:Hf.
  destruct (tree_fault_nodes _ _ _ Hf) as [Hn _]. pose proof (tree_fault_clean _ _ _ Hf) as Hc.
  rewrite Hn. destruct (existsb _ _) eqn:He.
  - rewrite Hn. split_and!; [done|by intros [_ ?]%Hc|]. intros _.
    apply existsb_exists in He as (q & Hq%list_elem_of_In%elem_of_ancestors & Hq'). eauto.
  - destruct f as [f|]; cbn [t_nodes with_nodes]; (split; [intros q; apply Hfile|]).
    + split; [by intros [? _]%Hc|]. by intros [? _]%Hc.
    + split; [by intros [_ ?]%Hc|]. unfold is_dir. apply bool_decide_eq_true.
      rewrite make_dirs_lookup. assert (Hp : p ∈ ancestors p) by apply elem_of_ancestors, below_refl.
      assert (Hpf : is_file (t_nodes t) p = false).
      { apply not_true_is_false. intros Hpf. apply not_true_iff_false in He. apply He.
        apply existsb_exists. exists p. by rewrite <- list_elem_of_In. }
      unfold is_file in Hpf. destruct (t_nodes t !! p) as [[]|]; [done..|].
      by rewrite decide_True.
Qed.

(** [ioutil.WriteFile] of a file in a directory. *)
Lemma WriteFile_spec t dir name data :
  is_dir (t_nodes t) dir = true → is_dir (t_nodes t) (dir ++ [name]) = false →
  let '(t', r) := tree_WriteFile t (dir ++ [name]) data in
  (no_faults t → no_faults t') ∧
  match r with
  | Ok _ => t_nodes t' = <[dir ++ [name] := File data]> (t_nodes t)
  | Err _ => ¬ no_faults t
  | _ => False
  end.
Proof.
  intros Hd Hnd. unfold tree_WriteFile. destruct (tree_fault t) as [t0 f] eqn:Hf.
  destruct (tree_fault_nodes _ _ _ Hf) as [Hn _]. pose proof (tree_fault_clean _ _ _ Hf) as Hc.
  rewrite Hn, parent_dir_snoc, Hd, Hnd. cbn [negb]. destruct f as [f|].
  - split; [by intros [? _]%Hc|]. by intros [? _]%Hc.
  - split; [by intros [_ ?]%Hc|done].
Qed.

Lemma TempDir_clean pick t dir :
  is_dir (t_nodes t) dir = true →
  let '(t', r) := tree_TempDir pick t dir in
  (no_faults t → no_faults t') ∧
  match r with Ok _ => True | Err _ => ¬ no_faults t | _ => False end.
Proof.
  intros Hd. unfold tree_TempDir. destruct (tree_fault t) as [t0 f] eqn:Hf.
  destruct (tree_fault_nodes _ _ _ Hf) as [Hn _]. pose proof (tree_fault_clean _ _ _ Hf) as Hc.
  destruct f as [f|]; [by split; [intros [? _]%Hc|intros [? _]%Hc]|].
  rewrite Hn, Hd. split; [by intros [_ ?]%Hc|done].
Qed.

(** [os.Rename] onto a name that is not taken. *)
Lemma Rename_clean t src dst :
  tree_wf t → is_dir (t_nodes t) src = true → is_dir (t_nodes t) (parent_dir dst) = true →
  ¬ below src dst → t_nodes t !! dst = None → no_faults t →
  ∃ u, (tree_Rename t src dst).2 = Ok u.
Proof.
  intros Hwf Hs Hd Hb Hnone Hc. unfold tree_Rename. destruct (tree_fault t) as [t0 f] eqn:Hf.
  destruct (tree_fault_nodes _ _ _ Hf) as [Hn _].
  destruct (tree_fault_clean _ _ _ Hf Hc) as [-> _].
  rewrite Hn, Hs, Hd, bool_decide_false by done. cbn [negb].
  unfold is_file. rewrite Hnone.
  destruct (has_below (t_nodes t) dst) eqn:Hh; [|by eexists].
  unfold has_below in Hh. rewrite bool_decide_eq_true in Hh. destruct Hh.
  apply map_empty_filter. intros q n Hq [Hbq _].
  by rewrite (tree_wf_below t dst q) in Hq.
Qed.
