(* ===== verification/FileStore.v ===== *)
(** * layer: the metadata store on files

    The model of layer/filestore.go over the file system of Tree.  A layer's
    metadata is a directory named by its chain identifier; a transaction writes a
    temporary directory, and [Commit] renames it.  Any call that writes may fail,
    and any path may be unreadable.  [file_MetadataStore] is the store as an
    instance of the interface that the layer store uses. *)

From S2P Require Import Prelude GoStrings Tree Layer.

Section file_store.
(** [digest.ParseDigest] of docker/distribution, and [encoding/json] on a
    distribution.Descriptor. *)
Context {Desc : Type}.
Context (ParseDigest : string → string + string).
Context (marshal : Desc → string + string) (unmarshal : string → string + Desc).
Context (empty_desc : Desc).
(** The name that [ioutil.TempDir] draws, given the names that are taken. *)
Context (temp_name : gset string → string).

Record fileMetadataStore := mkFms { fms_root : path; fms_tree : tree }.
Implicit Types (fms : fileMetadataStore) (layer mount : string) (tx : path).

Definition fms_call {A} fms (f : tree → tree * outcome string A) :
    fileMetadataStore * outcome string A :=
  let '(t, r) := f (fms_tree fms) in (mkFms (fms_root fms) t, r).

Definition NewFSMetadataStore (root : path) (t : tree) : fileMetadataStore * outcome string unit :=
  fms_call (mkFms root t) (λ t, tree_MkdirAll t root).

(** [Digest.Algorithm] and [Digest.Hex] panic on a string without a colon. *)
Definition getLayerDirectory fms layer : outcome string path :=
  match cut_at ":" layer with
  | Some (alg, hex) => Ok (fms_root fms ++ [alg; hex])
  | None => Panic (String.append "could not find ':' in digest: " layer)
  end.

Definition getMountDirectory fms mount : path := fms_root fms ++ ["mounts"; mount].

(** The state-passing form of a pure outcome. *)
Definition with_dir {A B} fms (o : outcome string A) (k : A → fileMetadataStore * outcome string B) :
    fileMetadataStore * outcome string B :=
  match o with
  | Ok a => k a
  | Err e => (fms, Err e)
  | Panic m => (fms, Panic m)
  | Diverge => (fms, Diverge)
  end.

Definition StartTransaction fms : fileMetadataStore * outcome string path :=
  let tmpDir := fms_root fms ++ ["tmp"] in
  let! (fms, _) := fms_call fms (λ t, tree_MkdirAll t tmpDir) in
  fms_call fms (λ t, tree_TempDir temp_name t tmpDir).

Definition tx_write fms tx (name content : string) : fileMetadataStore * outcome string unit :=
  fms_call fms (λ t, tree_WriteFile t (tx ++ [name]) content).

Definition tx_SetSize fms tx (size : Z) := tx_write fms tx "size" (Sprintf_d size).
Definition tx_SetParent fms tx (parent : string) := tx_write fms tx "parent" parent.
Definition tx_SetDiffID fms tx (diff : string) := tx_write fms tx "diff" diff.
Definition tx_SetCacheID fms tx (cacheID : string) := tx_write fms tx "cache-id" cacheID.
Definition tx_SetDescriptor fms tx (ref : Desc) : fileMetadataStore * outcome string unit :=
  match marshal ref with
  | inl e => (fms, Err e)
  | inr json => tx_write fms tx "descriptor.json" json
  end.
(** The file is created empty; the stream is written to it later. *)
Definition tx_TarSplitWriter fms tx := tx_write fms tx "tar-split.json.gz" "".

Definition tx_Commit fms tx layer : fileMetadataStore * outcome string unit :=
  with_dir fms (getLayerDirectory fms layer) (λ finalDir,
  let! (fms, _) := fms_call fms (λ t, tree_MkdirAll t (parent_dir finalDir)) in
  fms_call fms (λ t, tree_Rename t tx finalDir)).

Definition tx_Cancel fms tx : fileMetadataStore * outcome string unit :=
  fms_call fms (λ t, tree_RemoveAll t tx).

Definition layer_file fms layer (name : string) : outcome string string :=
  match getLayerDirectory fms layer with
  | Ok dir => tree_ReadFile (fms_tree fms) (dir ++ [name])
  | Err e => Err e
  | Panic m => Panic m
  | Diverge => Diverge
  end.

Definition GetSize fms layer : outcome string Z :=
  match layer_file fms layer "size" with
  | Ok content =>
      match Atoi content with
      | Some size => Ok size
      | None => Err "strconv.ParseInt: invalid syntax"
      end
  | Err e => Err e
  | Panic m => Panic m
  | Diverge => Diverge
  end.

Definition parse_digest (content : string) : outcome string string :=
  match ParseDigest (TrimSpace content) with inr d => Ok d | inl e => Err e end.

(** A missing file is read as [""]. *)
Definition or_empty {A} (r : outcome string string) (empty : A)
    (k : string → outcome string A) : outcome string A :=
  match r with
  | Ok content => k content
  | Err e => if IsNotExist e then Ok empty else Err e
  | Panic m => Panic m
  | Diverge => Diverge
  end.

Definition and_parse {A} (r : outcome string string) (k : string → outcome string A) :
    outcome string A :=
  match r with
  | Ok content => k content
  | Err e => Err e
  | Panic m => Panic m
  | Diverge => Diverge
  end.

Definition GetParent fms layer : outcome string string :=
  or_empty (layer_file fms layer "parent") "" parse_digest.
Definition GetDiffID fms layer : outcome string string :=
  and_parse (layer_file fms layer "diff") parse_digest.

(** [stringIDRegexp]: 64 lower-case hexadecimal characters, then "-init" or
    nothing. *)
Definition is_lower_hex (c : ascii) : bool :=
  let n := nat_of_ascii c in bool_decide (48 ≤ n ≤ 57) || bool_decide (97 ≤ n ≤ 102).
Definition stringID (s : string) : bool :=
  let cs := String.list_ascii_of_string s in
  bool_decide (length (take 64 cs) = 64) && forallb is_lower_hex (take 64 cs) &&
  (bool_decide (drop 64 cs = []) || bool_decide (drop 64 cs = String.list_ascii_of_string "-init")).

Definition parse_stringID (what content : string) : outcome string string :=
  let content := TrimSpace content in
  if stringID content then Ok content else Err ("invalid " +:+ what +:+ " id value").

Definition GetCacheID fms layer : outcome string string :=
  and_parse (layer_file fms layer "cache-id") (parse_stringID "cache").

Definition GetDescriptor fms layer : outcome string Desc :=
  or_empty (layer_file fms layer "descriptor.json") empty_desc
    (λ content, match unmarshal content with inr d => Ok d | inl e => Err e end).

Definition mount_file fms mount (name : string) : outcome string string :=
  tree_ReadFile (fms_tree fms) (getMountDirectory fms mount ++ [name]).

Definition mount_write fms mount (name content : string) :
    fileMetadataStore * outcome string unit :=
  let! (fms, _) := fms_call fms (λ t, tree_MkdirAll t (getMountDirectory fms mount)) in
  fms_call fms (λ t, tree_WriteFile t (getMountDirectory fms mount ++ [name]) content).

Definition SetMountID fms mount (mountID : string) := mount_write fms mount "mount-id" mountID.
Definition SetInitID fms mount (init : string) := mount_write fms mount "init-id" init.
Definition SetMountParent fms mount (parent : string) := mount_write fms mount "parent" parent.
Definition GetMountID fms mount : outcome string string :=
  and_parse (mount_file fms mount "mount-id") (parse_stringID "mount").
Definition GetInitID fms mount : outcome string string :=
  or_empty (mount_file fms mount "init-id") "" (parse_stringID "init").
Definition GetMountParent fms mount : outcome string string :=
  or_empty (mount_file fms mount "parent") "" parse_digest.

(** The names of the directories in a directory, none if it is not there. *)
Definition subdirs fms (p : path) : outcome string (list string) :=
  match tree_ReadDir (fms_tree fms) p with
  | Ok infos => Ok (fst <$> filter (λ fi : string * bool, fi.2 = true) infos)
  | Err e => if IsNotExist e then Ok [] else Err e
  | Panic m => Panic m
  | Diverge => Diverge
  end.

Definition valid_digest (dgst : string) : bool :=
  match ParseDigest dgst with inr _ => true | inl _ => false end.

(** [supportedAlgorithms] has one element; [NewDigestFromHex] puts the colon in,
    and an identifier that is not valid is skipped. *)
Definition fms_List fms : outcome string (list string * list string) :=
  match subdirs fms (fms_root fms ++ ["sha256"]) with
  | Ok names =>
      let ids := filter (λ dgst, valid_digest dgst = true)
        ((λ name, "sha256" +:+ String ":" name) <$> filter (λ name, name ≠ "mounts") names) in
      match subdirs fms (fms_root fms ++ ["mounts"]) with
      | Ok mounts => Ok (ids, mounts)
      | Err e => Err e
      | Panic m => Panic m
      | Diverge => Diverge
      end
  | Err e => Err e
  | Panic m => Panic m
  | Diverge => Diverge
  end.

Definition fms_Remove fms layer : fileMetadataStore * outcome string unit :=
  with_dir fms (getLayerDirectory fms layer) (λ dir, fms_call fms (λ t, tree_RemoveAll t dir)).
Definition fms_RemoveMount fms mount : fileMetadataStore * outcome string unit :=
  fms_call fms (λ t, tree_RemoveAll t (getMountDirectory fms mount)).

(** *** The interface of the layer store

    The interface has no panics: a panic is given as its message.  Only an
    identifier without a colon panics; chain identifiers are digests, which have
    one. *)
Definition err_of (fr : fileMetadataStore * outcome string unit) :
    fileMetadataStore * option string :=
  (fr.1, match fr.2 with
         | Ok _ => None
         | Err e => Some e
         | Panic m => Some m
         | Diverge => Some ""
         end).
Definition sum_of {A} (r : outcome string A) : string + A :=
  match r with Ok a => inr a | Err e => inl e | Panic m => inl m | Diverge => inl "" end.

#[local] Instance file_MetadataStore : MetadataStore fileMetadataStore path Desc := {|
  Meta_StartTransaction fms := let '(fms, r) := StartTransaction fms in (fms, sum_of r);
  Tx_SetSize fms tx size := err_of (tx_SetSize fms tx size);
  Tx_SetParent fms tx parent := err_of (tx_SetParent fms tx parent);
  Tx_SetDiffID fms tx diff := err_of (tx_SetDiffID fms tx diff);
  Tx_SetCacheID fms tx cacheID := err_of (tx_SetCacheID fms tx cacheID);
  Tx_SetDescriptor fms tx ref := err_of (tx_SetDescriptor fms tx ref);
  Tx_TarSplitWriter fms tx _ := err_of (tx_TarSplitWriter fms tx);
  Tx_Commit fms tx layer := err_of (tx_Commit fms tx layer);
  Tx_Cancel fms tx := err_of (tx_Cancel fms tx);
  Meta_GetSize fms layer := sum_of (GetSize fms layer);
  Meta_GetParent fms layer := sum_of (GetParent fms layer);
  Meta_GetDiffID fms layer := sum_of (GetDiffID fms layer);
  Meta_GetCacheID fms layer := sum_of (GetCacheID fms layer);
  Meta_GetDescriptor fms layer := sum_of (GetDescriptor fms layer);
  Meta_SetMountID fms mount mountID := err_of (SetMountID fms mount mountID);
  Meta_SetInitID fms mount init := err_of (SetInitID fms mount init);
  Meta_SetMountParent fms mount parent := err_of (SetMountParent fms mount parent);
  Meta_GetMountID fms mount := sum_of (GetMountID fms mount);
  Meta_GetInitID fms mount := sum_of (GetInitID fms mount);
  Meta_GetMountParent fms mount := sum_of (GetMountParent fms mount);
  Meta_List fms := sum_of (fms_List fms);
  Meta_Remove fms layer := err_of (fms_Remove fms layer);
  Meta_RemoveMount fms mount := err_of (fms_RemoveMount fms mount)
|}.
End file_store.
