(* ===== verification/FileStoreInv.v ===== *)
(** * layer: what the file metadata store guarantees

    Writing a layer's metadata with [storeLayer] in a transaction is atomic:
    whatever fails, every other layer and mount reads as before, and the layer
    itself reads either as before or exactly as it was written. *)

From S2P Require Import Prelude GoStrings Tree Layer FileStore.

(** ** Identifiers *)

Lemma forall_chars_list f s : forall_chars f s = forallb f (String.list_ascii_of_string s).
Proof. induction s as [|c s IH]; simpl; [done|]. by rewrite IH. Qed.

Lemma lower_hex_not_space c : is_lower_hex c = true → negb (is_space c) = true.
Proof. destruct c as [[] [] [] [] [] [] [] []]; vm_compute; done. Qed.

Lemma stringID_trimmed s : stringID s = true → TrimSpace s = s.
Proof.
  unfold stringID. intros [[_ Hhex]%andb_true_iff Hrest]%andb_true_iff.
  apply TrimSpace_id. rewrite forall_chars_list.
  rewrite <- (take_drop 64 (String.list_ascii_of_string s)), forallb_app. apply andb_true_iff.
  split.
  - rewrite forallb_forall in *. intros c Hc. by apply lower_hex_not_space, Hhex.
  - apply orb_true_iff in Hrest as [Hr|Hr]; apply bool_decide_eq_true in Hr; by rewrite Hr.
Qed.

Section file_store_inv.
Context {D Tar Desc : Type} {drv : Driver D Tar} {ext : LayerExt Tar Desc}.
Context (ParseDigest : string → string + string).
Context (marshal : Desc → string + string) (unmarshal : string → string + Desc).
Context (temp_name : gset string → string).

(** [digest.ParseDigest] returns its argument, and accepts no spaces. *)
Hypothesis ParseDigest_same : ∀ s d, ParseDigest s = inr d → d = s ∧ TrimSpace s = s.
(** [json.Unmarshal] reads what [json.Marshal] wrote. *)
Hypothesis json_roundtrip : ∀ d j, marshal d = inr j → unmarshal j = inr d.
(** [ioutil.TempDir] draws a new name. *)
Hypothesis temp_name_fresh : ∀ X, temp_name X ∉ X.

#[local] Instance fms_MetadataStore : MetadataStore fileMetadataStore path Desc :=
  file_MetadataStore ParseDigest marshal unmarshal empty_Descriptor temp_name.

Abbreviation lstore := (layerStore D fileMetadataStore Desc).
Implicit Types (ls : lstore) (rl : roLayer Desc) (fms : fileMetadataStore) (tx : path).

Definition or_cancel tx (r : lstore * outcome layer_error unit) :
    lstore * outcome layer_error unit :=
  match r with
  | (ls, Err e) => ((call_store ls (λ m, Tx_Cancel m tx)).1, Err e)
  | r => r
  end.

(** The metadata part of [registerWithDescriptor]: a transaction in which the
    layer is stored and committed, cancelled when that fails. *)
Definition persist ls rl : lstore * outcome layer_error unit :=
  match Meta_StartTransaction (ls_store ls) with
  | (m, inl e) => (with_store ls m, Err (ErrExternal e))
  | (m, inr tx) =>
      or_cancel tx
        (let! (ls, _) := storeLayer (with_store ls m) tx rl in
         call_store ls (λ m, Tx_Commit m tx (rl_chainID rl)))
  end.

(** The file [name] of the layer [b] with algorithm [a], or of the mount [b] when
    [a] is "mounts". *)
Definition stored fms (a b name : string) : outcome string string :=
  tree_ReadFile (fms_tree fms) (fms_root fms ++ [a; b; name]).

(** ** Transactions *)

Abbreviation tmp_dir fms := (fms_root fms ++ ["tmp"]).

(** [fms] is reached from [fms0], whose transaction writes in [tx]. *)
Record tx_frame fms0 tx fms : Prop := {
  fr_root : fms_root fms = fms_root fms0;
  fr_wf : tree_wf (fms_tree fms);
  fr_same : same_on (λ q, ¬ below tx q ∧ ¬ below q (tmp_dir fms0)) (fms_tree fms0) (fms_tree fms);
  fr_file : ∀ q, ¬ below tx q → is_file (t_nodes (fms_tree fms)) q = true →
    is_file (t_nodes (fms_tree fms0)) q = true;
  fr_clean : no_faults (fms_tree fms0) → no_faults (fms_tree fms)
}.

(** The transaction has written the files [M]. *)
Definition tx_holds tx fms (M : gmap string string) : Prop :=
  is_dir (t_nodes (fms_tree fms)) tx = true ∧
  ∀ name, t_nodes (fms_tree fms) !! (tx ++ [name]) = File <$> M !! name.

(** A call on the tree as a call on the store. *)
Lemma fms_call_eq {A} fms (f : tree → tree * outcome string A) :
  fms_call fms f = (mkFms (fms_root fms) (f (fms_tree fms)).1, (f (fms_tree fms)).2).
Proof. unfold fms_call. by destruct (f (fms_tree fms)). Qed.

Lemma tx_write_spec fms0 tx fms M name content :
  tx_frame fms0 tx fms → tx_holds tx fms M →
  safe (tx_write fms tx name content)
    (λ fms' _, tx_frame fms0 tx fms' ∧ tx_holds tx fms' (<[name := content]> M))
    (λ fms' _, tx_frame fms0 tx fms' ∧ ¬ no_faults (fms_tree fms0)).
Proof.
  intros [Hroot Hwf Hsame Hfile Hclean] [Hd HM]. unfold tx_write. rewrite fms_call_eq.
  set (p := tx ++ [name]).
  assert (Hnd : is_dir (t_nodes (fms_tree fms)) p = false).
  { unfold is_dir. apply bool_decide_eq_false. unfold p. rewrite HM. by destruct (M !! name). }
  pose proof (WriteFile_spec _ _ _ content Hd Hnd) as Hs. fold p in Hs.
  pose proof (WriteFile_frame (fms_tree fms) p content) as Hfr.
  pose proof (WriteFile_wf _ p content Hwf) as Hwf'.
  destruct (tree_WriteFile (fms_tree fms) p content) as [t' r]; cbn [fst snd] in *.
  destruct Hs as [Hc Hs].
  assert (Hfms : tx_frame fms0 tx (mkFms (fms_root fms) t')).
  { constructor; cbn [fms_root fms_tree]; [done|done| | |naive_solver].
    - eapply same_on_trans; [done|]. eapply same_on_mono; [exact Hfr|].
      intros q [Hq _] ->. apply Hq, below_app.
    - intros q Hq. rewrite (is_file_same _ (t_nodes (fms_tree fms))); [by apply Hfile|].
      apply Hfr. intros ->. apply Hq, below_app. }
  destruct r as [u|e|m|]; cbn [safe]; [|by split; [|naive_solver]|done|done].
  split; [done|]. split; cbn [fms_tree]; rewrite Hs.
  - unfold is_dir in *. rewrite bool_decide_eq_true in *. rewrite lookup_insert_ne; [done|].
    intros Heq. apply (f_equal length) in Heq. unfold p in Heq. rewrite length_app in Heq.
    simpl in Heq. lia.
  - intros n. destruct (decide (name = n)) as [<-|Hne].
    + by rewrite !lookup_insert_eq.
    + rewrite !lookup_insert_ne; [done|done|]. unfold p. intros Heq.
      by apply app_inj_2 in Heq as [_ [= ?]].
Qed.

Lemma tx_frame_start fms0 t' tx :
  tree_wf t' →
  same_on (λ q, ¬ below tx q ∧ ¬ below q (tmp_dir fms0)) (fms_tree fms0) t' →
  (∀ q, ¬ below tx q → is_file (t_nodes t') q = true → is_file (t_nodes (fms_tree fms0)) q = true) →
  (no_faults (fms_tree fms0) → no_faults t') → tx_frame fms0 tx (mkFms (fms_root fms0) t').
Proof. by constructor. Qed.

Lemma StartTransaction_spec fms0 :
  tree_wf (fms_tree fms0) →
  safe (StartTransaction temp_name fms0)
    (λ fms tx, (∃ x, tx = fms_root fms0 ++ ["tmp"; x]) ∧
       tx_frame fms0 tx fms ∧ tx_holds tx fms ∅)
    (λ fms _, (∀ tx, tx_frame fms0 tx fms) ∧
       (no_faults (fms_tree fms0) →
        ∃ q, below q (tmp_dir fms0) ∧ is_file (t_nodes (fms_tree fms0)) q = true)).
Proof.
  intros Hwf. unfold StartTransaction. rewrite fms_call_eq. set (t := fms_tree fms0).
  pose proof (MkdirAll_spec t (tmp_dir fms0)) as Hmk.
  pose proof (MkdirAll_frame t (tmp_dir fms0)) as Hfr.
  pose proof (MkdirAll_wf t (tmp_dir fms0) Hwf) as Hwf1.
  destruct (tree_MkdirAll t (tmp_dir fms0)) as [t1 r]; cbn [fst snd] in *.
  destruct Hmk as (Hfile & Hc & Hr).
  assert (Hall : ∀ tx, same_on (λ q, ¬ below tx q ∧ ¬ below q (tmp_dir fms0)) t t1)
    by (intros; eapply same_on_mono; [exact Hfr|naive_solver]).
  assert (H1 : ∀ tx, tx_frame fms0 tx (mkFms (fms_root fms0) t1)).
  { intros tx. apply tx_frame_start; [done|done| |done]. intros q _. by rewrite Hfile. }
  destruct r as [u|e|m|]; cbn [and_then safe]; [|done|done|done].
  rewrite fms_call_eq. cbn [fms_tree fms_root].
  pose proof (TempDir_spec temp_name t1 (tmp_dir fms0) temp_name_fresh) as Ht.
  pose proof (TempDir_clean temp_name t1 _ Hr) as Hc2.
  pose proof (TempDir_wf temp_name t1 (tmp_dir fms0) temp_name_fresh Hwf1) as Hwf2.
  destruct (tree_TempDir temp_name t1 (tmp_dir fms0)) as [t2 [tx|e|m|]]; cbn [fst snd safe] in *.
  - destruct Ht as (x & -> & Hnone & _ & Hn & Hu). rewrite <- app_assoc in *. cbn [app] in *.
    set (tx := fms_root fms0 ++ ["tmp"; x]) in *. split; [by exists x|]. split.
    + apply tx_frame_start; [done| | |naive_solver].
      * eapply same_on_trans; [apply Hall|]. split; [|done]. intros q [Hq _]. rewrite Hn.
        apply lookup_insert_ne. intros <-. apply Hq, below_refl.
      * intros q Hq. rewrite (is_file_same (t_nodes t2) (t_nodes t1)), Hfile; [done|].
        rewrite Hn. apply lookup_insert_ne. intros <-. apply Hq, below_refl.
    + split; cbn [fms_tree]; rewrite Hn.
      * unfold is_dir. apply bool_decide_eq_true. by rewrite lookup_insert_eq.
      * intros name. rewrite lookup_empty, lookup_insert_ne.
        -- apply (tree_wf_below t1 tx); [done|done|apply below_app].
        -- intros Heq. apply (f_equal length) in Heq. rewrite length_app in Heq. simpl in Heq. lia.
  - split; [|naive_solver]. intros tx. apply tx_frame_start; [done| | |naive_solver].
    + eapply same_on_trans; [apply Hall|]. by eapply same_on_mono.
    + intros q _. rewrite (is_file_same (t_nodes t2) (t_nodes t1)), Hfile; [done|].
      by apply Ht.
  - naive_solver.
  - naive_solver.
Qed.

(** ** What other layers read *)

Definition reads_same (X : string → string → Prop) fms0 fms : Prop :=
  fms_root fms = fms_root fms0 ∧ tree_wf (fms_tree fms) ∧
  ∀ a b name, a ≠ "tmp" → X a b → stored fms a b name = stored fms0 a b name.

Lemma below_root root p q : below (root ++ p) (root ++ q) ↔ below p q.
Proof. split; [apply prefix_app_inv|apply prefix_app]. Qed.

Lemma below_cons a b (p q : path) : below (a :: p) (b :: q) ↔ a = b ∧ below p q.
Proof.
  split; [|by intros [-> [r ->]]; exists r]. intros [r [= -> ->]]. by split; [|exists r].
Qed.

Lemma not_below_nil a (p : path) : ¬ below (a :: p) [].
Proof. by intros [r Hr]. Qed.

(** [below] between paths under the root is decided by their components. *)
Ltac below_tac :=
  rewrite ?below_root, ?below_cons;
  intuition (first [congruence | eapply not_below_nil; eassumption]).

Lemma tx_frame_reads fms0 x fms :
  tx_frame fms0 (fms_root fms0 ++ ["tmp"; x]) fms → reads_same (λ _ _, True) fms0 fms.
Proof.
  intros [Hroot Hwf Hsame _ _]. split; [done|]. split; [done|].
  intros a b name Ha _. unfold stored. rewrite Hroot. eapply same_on_read; [done|].
  split; below_tac.
Qed.

Lemma getLayerDirectory_cut fms layer alg hex :
  cut_at ":" layer = Some (alg, hex) →
  getLayerDirectory fms layer = Ok (fms_root fms ++ [alg; hex]).
Proof. unfold getLayerDirectory. by intros ->. Qed.

Lemma parent_dir_two (r : path) a b : parent_dir (r ++ [a; b]) = r ++ [a].
Proof. change [a; b] with ([a] ++ [b]). by rewrite app_assoc, parent_dir_snoc. Qed.

(** A commit fails on a clean disk only at a file that is in the way, or for a
    layer that is stored already. *)
Definition commit_blocked fms0 (alg hex : string) : Prop :=
  (∃ q, below q (fms_root fms0 ++ [alg]) ∧ is_file (t_nodes (fms_tree fms0)) q = true) ∨
  is_Some (t_nodes (fms_tree fms0) !! (fms_root fms0 ++ [alg; hex])).

Lemma tx_Commit_spec fms0 x fms M layer alg hex :
  let tx := fms_root fms0 ++ ["tmp"; x] in
  tx_frame fms0 tx fms → tx_holds tx fms M →
  cut_at ":" layer = Some (alg, hex) → alg ≠ "tmp" →
  safe (tx_Commit fms tx layer)
    (λ fms' _, reads_same (λ a b, (a, b) ≠ (alg, hex)) fms0 fms' ∧
       t_unreadable (fms_tree fms') = t_unreadable (fms_tree fms0) ∧
       ∀ name, t_nodes (fms_tree fms') !! (fms_root fms0 ++ [alg; hex; name]) = File <$> M !! name)
    (λ fms' _, reads_same (λ _ _, True) fms0 fms' ∧
       (no_faults (fms_tree fms0) → commit_blocked fms0 alg hex)).
Proof.
  intros tx Hfms [Hdir HM] Hcut Halg. unfold tx_Commit.
  rewrite (getLayerDirectory_cut _ _ _ _ Hcut). cbn [with_dir].
  destruct Hfms as [Hroot Hwf Hsame Hfile Hclean]. rewrite Hroot, fms_call_eq, parent_dir_two.
  set (t := fms_tree fms) in *. set (adir := fms_root fms0 ++ [alg]).
  set (final := fms_root fms0 ++ [alg; hex]).
  pose proof (MkdirAll_spec t adir) as Hmk. pose proof (MkdirAll_frame t adir) as Hfr.
  pose proof (MkdirAll_wf t adir Hwf) as Hwf1.
  destruct (tree_MkdirAll t adir) as [t1 r]; cbn [fst snd] in *.
  destruct Hmk as (Hfile1 & Hc1 & Hr).
  assert (H1 : same_on (λ q, ¬ below tx q ∧ ¬ below q (tmp_dir fms0) ∧ ¬ below q adir)
                 (fms_tree fms0) t1).
  { eapply same_on_trans; (eapply same_on_mono; [eassumption|naive_solver]). }
  assert (Hreads : ∀ a b name, a ≠ "tmp" → tree_ReadFile t1 (fms_root fms0 ++ [a; b; name]) =
            stored fms0 a b name).
  { intros a b name Ha. eapply same_on_read; [exact H1|]. unfold tx, adir. split_and!; below_tac. }
  destruct r as [u|e|m|]; cbn [and_then safe]; [| |done|done]; cycle 1.
  { split; [split_and!; [done|done|]; intros; unfold stored; cbn; rewrite Hroot; by apply Hreads|].
    intros Hc. left. destruct (Hr (Hclean Hc)) as (q & Hq & Hqf). exists q. split; [done|].
    apply Hfile; [|done]. intros Hb. pose proof (below_trans _ _ _ Hb Hq) as Hbad.
    revert Hbad. unfold tx, adir. below_tac. }
  rewrite fms_call_eq. cbn [fms_tree fms_root].
  pose proof (Rename_spec t1 tx final) as Hren. pose proof (Rename_wf t1 tx final Hwf1) as Hwf2.
  assert (Htx : ∀ rest, t_nodes t1 !! (tx ++ rest) = t_nodes t !! (tx ++ rest)).
  { intros rest. apply Hfr. intros Hb. pose proof (below_trans _ _ _ (below_app tx rest) Hb) as Hbad.
    revert Hbad. unfold tx, adir. below_tac. }
  assert (Hok : no_faults (fms_tree fms0) → t_nodes (fms_tree fms0) !! final = None →
            ∃ u, (tree_Rename t1 tx final).2 = Ok u).
  { intros Hc Hb. apply Rename_clean; [done| | | | |naive_solver].
    - unfold is_dir in *. specialize (Htx []). rewrite app_nil_r in Htx. by rewrite Htx.
    - unfold final. by rewrite parent_dir_two.
    - unfold tx, final. below_tac.
    - destruct H1 as [H1 _]. rewrite H1; [done|]. unfold tx, adir, final. split_and!; below_tac. }
  destruct (tree_Rename t1 tx final) as [t2 [u'|e|m|]]; cbn [fst snd safe] in *; [| |done|done].
  - destruct Hren as (Hdst & Hother & _). split; [split_and!; [done|done|]|split].
    + intros a b name Ha Hab. unfold stored at 1. cbn [fms_root fms_tree]. rewrite Hroot.
      rewrite <- Hreads by done. eapply same_on_read; [exact Hother|]. unfold tx, final.
      split; below_tac.
    + cbn [fms_tree]. destruct Hother as [_ ->]. by destruct H1 as [_ ->].
    + intros name. cbn [fms_tree]. change [alg; hex; name] with ([alg; hex] ++ [name]).
      rewrite app_assoc. fold final. by rewrite Hdst, Htx, HM.
  - split.
    + split_and!; [done|done|]. intros a b name Ha _. unfold stored at 1. cbn [fms_root fms_tree].
      rewrite Hroot, <- Hreads by done. by eapply same_on_read.
    + intros Hc. destruct (decide (is_Some (t_nodes (fms_tree fms0) !! final))) as [Hs|Hs].
      { by right. }
      apply eq_None_not_Some in Hs. by destruct (Hok Hc Hs).
Qed.

Lemma tx_Cancel_spec fms0 X fms x :
  reads_same X fms0 fms →
  reads_same X fms0 (tx_Cancel fms (fms_root fms0 ++ ["tmp"; x])).1.
Proof.
  intros (Hroot & Hwf & Hs). unfold tx_Cancel. rewrite fms_call_eq. cbn [fst].
  pose proof (RemoveAll_frame (fms_tree fms) (fms_root fms0 ++ ["tmp"; x])) as Hfr.
  split_and!; [done|by apply RemoveAll_wf|]. intros a b name Ha Hx.
  rewrite <- Hs by done. unfold stored. cbn [fms_root fms_tree].
  eapply same_on_read; [done|]. rewrite Hroot. below_tac.
Qed.

(** ** Storing a layer *)

(** The files that [storeLayer] writes. *)
Definition layer_files ls rl : gmap string string :=
  let M := <["cache-id" := rl_cacheID rl]>
           (<["size" := Sprintf_d (rl_size rl)]> {["diff" := rl_diffID rl]}) in
  let M := if decide (Descriptor_Digest (rl_descriptor rl) ≠ "") then
             match marshal (rl_descriptor rl) with
             | inr j => <["descriptor.json" := j]> M
             | inl _ => M
             end
           else M in
  match rl_parent rl ≫= λ p, ls_ro ls !! p with
  | Some prl => <["parent" := rl_chainID prl]> M
  | None => M
  end.

(** A call on the metadata store as a call of the layer store. *)
Lemma fms_call_store_safe {R Q} ls (f : fileMetadataStore → fileMetadataStore * outcome string unit) :
  safe (f (ls_store ls)) Q R →
  safe (call_store ls (λ m, err_of (f m)))
    (λ ls' _, ∃ m, ls' = with_store ls m ∧ Q m tt)
    (λ ls' _, ∃ m e, ls' = with_store ls m ∧ R m e).
Proof.
  unfold call_store, err_of. destruct (f (ls_store ls)) as [m [[]|e|e|]]; simpl; [|eauto..].
  - eauto.
  - done.
  - done.
Qed.

Section store_layer.
Context (fms0 : fileMetadataStore) (tx : path) (ls : lstore).

(** Only the metadata changed since [ls], and the transaction holds [M]. *)
Definition at_files (M : gmap string string) (ls' : lstore) : Prop :=
  ∃ m, ls' = with_store ls m ∧ tx_frame fms0 tx m ∧ tx_holds tx m M.
Definition failed (because : Prop) (ls' : lstore) : Prop :=
  ∃ m, ls' = with_store ls m ∧ tx_frame fms0 tx m ∧ (no_faults (fms_tree fms0) → because).

Lemma store_file_spec M because ls1 name content :
  at_files M ls1 →
  safe (call_store ls1 (λ m, err_of (tx_write m tx name content)))
    (λ ls' _, at_files (<[name := content]> M) ls') (λ ls' _, failed because ls').
Proof.
  intros (m & -> & Hfr & Hh).
  eapply safe_mono; [eapply fms_call_store_safe, tx_write_spec; eassumption| |].
  - intros ls' _ (m' & -> & Hfr' & Hh'). by exists m'.
  - intros ls' e (m' & e' & -> & Hfr' & Hc). exists m'. by split_and!.
Qed.

Lemma storeLayer_spec rl :
  at_files ∅ ls → (∀ p, rl_parent rl = Some p → is_Some (ls_ro ls !! p)) →
  safe (storeLayer ls tx rl)
    (λ ls' _, at_files (layer_files ls rl) ls')
    (λ ls' _, failed (Descriptor_Digest (rl_descriptor rl) ≠ "" ∧
                      ∃ e, marshal (rl_descriptor rl) = inl e) ls').
Proof.
  intros H0 Hp. unfold storeLayer, layer_files. cbn [Tx_SetDiffID Tx_SetSize Tx_SetCacheID
    Tx_SetDescriptor Tx_SetParent fms_MetadataStore file_MetadataStore].
  set (because := Descriptor_Digest (rl_descriptor rl) ≠ "" ∧
                  ∃ e, marshal (rl_descriptor rl) = inl e).
  apply safe_bind. eapply safe_mono; [exact (store_file_spec _ because _ _ _ H0)| |done].
  intros ls1 [] H1. cbn beta in H1. apply safe_bind.
  eapply safe_mono; [exact (store_file_spec _ because _ _ _ H1)| |done].
  intros ls2 [] H2. cbn beta in H2. apply safe_bind.
  eapply safe_mono; [exact (store_file_spec _ because _ _ _ H2)| |done].
  intros ls3 [] H3. cbn beta in H3. apply safe_bind.
  rewrite insert_empty in H3.
  set (M := <["cache-id" := _]> _) in *.
  apply (safe_mono _ (λ ls' _, at_files
    (if decide (Descriptor_Digest (rl_descriptor rl) ≠ "")
     then match marshal (rl_descriptor rl) with
          | inr j => <["descriptor.json" := j]> M | inl _ => M end else M) ls') _
    (λ ls' _, failed because ls')); [| |done].
  - destruct (decide (Descriptor_Digest (rl_descriptor rl) ≠ "")); [|done].
    unfold tx_SetDescriptor. destruct (marshal (rl_descriptor rl)) as [e|j].
    + destruct H3 as (m & -> & Hfr & _). exists m. split_and!; [done|done|]. intros _. split; [done|by exists e].
    + by apply store_file_spec.
  - intros ls4 [] H4. cbn beta in H4. destruct (rl_parent rl) as [p|] eqn:Hpar; [|done]. simpl.
    destruct (Hp p eq_refl) as [prl Hprl]. destruct H4 as (m & -> & H4).
    cbn [ls_ro with_store]. rewrite Hprl. apply store_file_spec. by exists m.
Qed.
End store_layer.

(** ** The guarantee *)

(** A layer whose fields have the form that the getters accept. *)
Record storable ls rl (alg hex : string) : Prop := {
  st_chain : cut_at ":" (rl_chainID rl) = Some (alg, hex);
  st_alg : alg ≠ "tmp";
  st_diff : ParseDigest (rl_diffID rl) = inr (rl_diffID rl);
  st_cache : stringID (rl_cacheID rl) = true;
  st_size : (-2 ^ 63 ≤ rl_size rl < 2 ^ 63)%Z;
  st_parent : ∀ p, rl_parent rl = Some p →
    ∃ prl, ls_ro ls !! p = Some prl ∧ ParseDigest (rl_chainID prl) = inr (rl_chainID prl);
  st_descriptor : Descriptor_Digest (rl_descriptor rl) ≠ "" →
    ∃ j, marshal (rl_descriptor rl) = inr j;
  st_readable : ∀ name,
    t_unreadable (fms_tree (ls_store ls)) !! (fms_root (ls_store ls) ++ [alg; hex; name]) = None
}.

(** What [loadLayer] reads back. *)
Definition reads_layer ls rl fms : Prop :=
  let c := rl_chainID rl in
  GetDiffID ParseDigest fms c = Ok (rl_diffID rl) ∧
  GetSize fms c = Ok (rl_size rl) ∧
  GetCacheID fms c = Ok (rl_cacheID rl) ∧
  GetParent ParseDigest fms c =
    Ok (from_option rl_chainID "" (rl_parent rl ≫= λ p, ls_ro ls !! p)) ∧
  GetDescriptor unmarshal empty_Descriptor fms c =
    Ok (if decide (Descriptor_Digest (rl_descriptor rl) ≠ "") then rl_descriptor rl
        else empty_Descriptor).

Lemma committed_reads ls rl alg hex fms :
  storable ls rl alg hex → fms_root fms = fms_root (ls_store ls) →
  t_unreadable (fms_tree fms) = t_unreadable (fms_tree (ls_store ls)) →
  (∀ name, t_nodes (fms_tree fms) !! (fms_root (ls_store ls) ++ [alg; hex; name]) =
     File <$> layer_files ls rl !! name) →
  reads_layer ls rl fms.
Proof.
  intros [Hcut _ Hdiff Hcache Hsize Hpar Hdesc Hr] Hroot Hu Hn.
  assert (Hlf : ∀ name, layer_file fms (rl_chainID rl) name =
            from_option Ok (Err ENOENT) (layer_files ls rl !! name)).
  { intros name. unfold layer_file. rewrite (getLayerDirectory_cut _ _ _ _ Hcut).
    rewrite <- app_assoc. unfold tree_ReadFile. cbn [app]. rewrite Hroot, Hu, Hr, Hn.
    by destruct (layer_files ls rl !! name). }
  assert (Hother : ∀ name, name ≠ "parent" → name ≠ "descriptor.json" →
            layer_files ls rl !! name =
            (<["cache-id" := rl_cacheID rl]>
              (<["size" := Sprintf_d (rl_size rl)]> {["diff" := rl_diffID rl]}) :
              gmap string string) !! name).
  { intros name H1 H2. unfold layer_files. repeat case_match; by rewrite ?lookup_insert_ne by done. }
  unfold reads_layer, GetDiffID, GetSize, GetCacheID, GetParent, GetDescriptor, parse_digest.
  rewrite !Hlf, !Hother by done. split_and!.
  - rewrite !lookup_insert_ne, lookup_singleton_eq by done. cbn.
    destruct (ParseDigest_same _ _ Hdiff) as [_ ->]. by rewrite Hdiff.
  - rewrite lookup_insert_ne, lookup_insert_eq by done. cbn. by rewrite Atoi_Sprintf.
  - rewrite lookup_insert_eq. cbn. unfold parse_stringID. by rewrite stringID_trimmed, Hcache.
  - unfold layer_files. destruct (rl_parent rl) as [p|]; cbn [mbind option_bind].
    + destruct (Hpar p eq_refl) as (prl & -> & Hprl). rewrite lookup_insert_eq. cbn.
      destruct (ParseDigest_same _ _ Hprl) as [_ ->]. by rewrite Hprl.
    + repeat case_match; by rewrite ?lookup_insert_ne by done.
  - unfold layer_files. match goal with |- context [from_option _ _ ?o] => assert (Ho : o =
      if decide (Descriptor_Digest (rl_descriptor rl) ≠ "") then
        match marshal (rl_descriptor rl) with inr j => Some j | inl _ => None end else None) end.
    { case_match; [rewrite lookup_insert_ne by done|]; case_decide;
        [case_match| |case_match|]; rewrite ?lookup_insert_eq, ?lookup_insert_ne; done. }
    rewrite Ho. case_decide as Hd; [|done]. destruct (Hdesc Hd) as [j Hj]. rewrite Hj. cbn.
    by rewrite (json_roundtrip _ _ Hj).
Qed.

Lemma safe_cancel fms0 x (P : Prop) (r : lstore * outcome layer_error unit)
    (Q : lstore → unit → Prop) :
  safe r Q (λ ls' _, reads_same (λ _ _, True) fms0 (ls_store ls') ∧ P) →
  safe (or_cancel (fms_root fms0 ++ ["tmp"; x]) r) Q (λ ls' _, reads_same (λ _ _, True) fms0 (ls_store ls') ∧ P).
Proof.
  destruct r as [ls [u|e|e|]]; cbn [safe]; [done| |done..]. intros [Hr HP]. split; [|done].
  exact (tx_Cancel_spec fms0 _ (ls_store ls) x Hr).
Qed.

(** C7: Storing a layer's metadata on files is atomic.  Whatever the file system
    does, the transaction that stores a layer ends without a panic.  If it
    succeeds, the getters return exactly the layer's fields and every other layer
    and mount reads as before; if it fails, everything reads as before.  Without
    failures of the file system it succeeds, unless a file is where a directory
    has to be or the layer is stored already. *)
Theorem layer_metadata_atomic ls rl alg hex :
  tree_wf (fms_tree (ls_store ls)) → storable ls rl alg hex →
  safe (persist ls rl)
    (λ ls' _, reads_same (λ a b, (a, b) ≠ (alg, hex)) (ls_store ls) (ls_store ls') ∧
       reads_layer ls rl (ls_store ls'))
    (λ ls' _, reads_same (λ _ _, True) (ls_store ls) (ls_store ls') ∧
       (no_faults (fms_tree (ls_store ls)) →
        (∃ q, below q (tmp_dir (ls_store ls)) ∧
              is_file (t_nodes (fms_tree (ls_store ls))) q = true) ∨
        commit_blocked (ls_store ls) alg hex)).
Proof.
  intros Hwf Hst. unfold persist. cbn [Meta_StartTransaction fms_MetadataStore file_MetadataStore].
  pose proof (StartTransaction_spec _ Hwf) as Hs.
  destruct (StartTransaction temp_name (ls_store ls)) as [m [tx|e|e|]]; cbn [sum_of safe] in *;
    [|by destruct Hs as [Hs Hc]; split; [apply (tx_frame_reads _ ""), Hs|auto]|done..].
  destruct Hs as ([x ->] & Hfr & Hh).
  apply safe_cancel. apply safe_bind.
  eapply safe_mono; [apply (storeLayer_spec (ls_store ls) _ (with_store ls m))| |].
  - exists m. by destruct ls.
  - intros p Hp. destruct (st_parent _ _ _ _ Hst p Hp) as (prl & Hprl & _). by exists prl.
  - intros ls1 [] (m1 & -> & Hfr1 & Hh1).
    pose proof (tx_Commit_spec _ _ _ _ _ _ _ Hfr1 Hh1 (st_chain _ _ _ _ Hst) (st_alg _ _ _ _ Hst))
      as Hc.
    eapply safe_mono; [exact (fms_call_store_safe (with_store _ m1)
      (λ m, tx_Commit m (fms_root (ls_store ls) ++ ["tmp"; x]) (rl_chainID rl)) Hc)| |]; cbn beta.
    + intros ls2 [] (m2 & -> & Hreads & Hu & Hn). split; [done|].
      eapply committed_reads; [done|apply Hreads|done|]. exact Hn.
    + intros ls2 e (m2 & e' & -> & Hreads & Hblocked). split; [done|]. auto.
  - intros ls1 e (m1 & -> & Hfr1 & Hbecause). split; [exact (tx_frame_reads _ _ _ Hfr1)|].
    intros Hc. destruct (Hbecause Hc) as [Hd [e' He']].
    destruct (st_descriptor _ _ _ _ Hst Hd) as [j Hj]. congruence.
Qed.
End file_store_inv.

(** ** A concrete store

    Digests are the strings without spaces, descriptors are strings and their
    JSON text is themselves. *)

Definition demo_ParseDigest (s : string) : string + string :=
  if forall_chars (λ c, negb (is_space c)) s then inr s else inl "invalid digest".

Lemma demo_ParseDigest_same s d : demo_ParseDigest s = inr d → d = s ∧ TrimSpace s = s.
Proof.
  unfold demo_ParseDigest. destruct (forall_chars _ s) eqn:Hs; [|done]. intros [= <-].
  split; [done|by apply TrimSpace_id].
Qed.

(** A name that is longer than all names that are taken. *)
Definition demo_temp_name (X : gset string) : string :=
  "layer-" +:+ foldr String.append "" (elements X).

Lemma demo_temp_name_fresh X : demo_temp_name X ∉ X.
Proof.
  assert (Hlen : ∀ a b : string, String.length (a +:+ b) = String.length a + String.length b)
    by (induction a as [|c a IH]; intros b; [done|exact (f_equal S (IH b))]).
  assert (Hle : ∀ x l, x ∈ l → String.length x ≤ String.length (foldr String.append "" l)).
  { intros x l. induction 1 as [|y x l _ IH]; simpl; rewrite Hlen; lia. }
  intros Hin%elem_of_elements%Hle. unfold demo_temp_name in Hin. rewrite Hlen in Hin.
  simpl in Hin. lia.
Qed.

#[local] Instance demo_driver : Driver unit unit := {|
  Driver_Create d _ _ _ _ := (d, None); Driver_CreateReadWrite d _ _ _ _ := (d, None);
  Driver_Remove d _ := (d, None); Driver_Get d _ _ := (d, inr ""); Driver_Put d _ := (d, None);
  Driver_ApplyDiff d _ _ _ := (d, inr 0%Z)
|}.
#[local] Instance demo_ext : LayerExt unit string := {|
  digest_FromBytes s := s; tar_Digest _ := "sha256:tar"; NewInputTarStream _ := None;
  GenerateRandomID _ := ""; empty_Descriptor := ""; Descriptor_Digest d := d
|}.

Definition demo_id : string :=
  "0123456789abcdef0123456789abcdef0123456789abcdef0123456789abcdef".
Definition demo_rl : roLayer string :=
  mkRoLayer string "sha256:child" "sha256:diff" (Some 7) demo_id 42 "" 1 ∅.
Definition demo_parent : roLayer string :=
  mkRoLayer string "sha256:parent" "sha256:parent" None demo_id 1 "" 1 ∅.
Definition demo_tree : tree := mkTree {[ [] := Dir ]} [None; None] ∅.
Definition demo_ls : layerStore unit fileMetadataStore string :=
  mkLayerStore unit fileMetadataStore string (mkFms ["layerdb"] demo_tree) tt ∅ ∅
    {[ 7 := demo_parent ]} ∅ 8 0.

Definition demo_persist := persist demo_ParseDigest inr inr demo_temp_name demo_ls demo_rl.

Lemma layer_metadata_atomic_witness :
  demo_persist.2 = Ok tt ∧
  reads_layer demo_ParseDigest inr demo_ls demo_rl (ls_store demo_persist.1).
Proof.
  assert (Hwf : tree_wf (fms_tree (ls_store demo_ls))).
  { intros q x [n Hn]. cbn [fms_tree ls_store demo_ls t_nodes demo_tree] in Hn.
    apply lookup_singleton_Some in Hn as [Hn _]. by destruct q. }
  assert (Hst : storable demo_ParseDigest inr demo_ls demo_rl "sha256" "child").
  { split; try done. intros p [= <-]. by exists demo_parent. }
  pose proof (layer_metadata_atomic demo_ParseDigest inr inr demo_temp_name
    demo_ParseDigest_same (λ d j H, eq_sym H) demo_temp_name_fresh demo_ls demo_rl _ _ Hwf Hst) as Hs.
  assert (Hok : demo_persist.2 = Ok tt) by (vm_compute; reflexivity).
  split; [exact Hok|]. unfold demo_persist in Hok |- *.
  destruct (persist _ _ _ _ _ _) as [ls' r]. cbn [snd] in Hok. subst r. exact (proj2 Hs).
Defined.
