(* ===== verification/ImageStore.v ===== *)
(** * image: the image store

    The model of image/store.go, image/rootfs.go, image/rootfs_unix.go and
    [NewFromJSON] of image/image.go.  The store keeps, for every image, the
    reference it holds on the image's top layer and the set of its children; the
    configurations and the parent pointers live in a [StoreBackend].

    [is.images] maps an identifier to a pointer to an [imageMeta].  No operation
    keeps such a pointer after it returns, and inside an operation the pointed
    object stays in the map, so the map holds the records themselves.

    The interfaces of the source are type classes: [StoreBackend] (implemented by
    image/fs.go, see ImageFS), [LayerGetReleaser] (implemented by the layer store)
    and [DigestSet] for [digest.Set] of docker/distribution.  [encoding/json] on
    the type [Image] is the parameter [json_Unmarshal]. *)

From S2P Require Import Prelude Layer.

(** ** Data *)

Record RootFS := mkRootFS { rfs_Type : string; rfs_DiffIDs : list string }.

(** [History], with the time as a text, and [Image] with the fields that the store
    reads. *)
Record History := mkHistory {
  h_Created : string;
  h_Author : string;
  h_CreatedBy : string;
  h_Comment : string;
  h_EmptyLayer : bool
}.
#[global] Instance History_eq_dec : EqDecision History.
Proof. solve_decision. Defined.
Record Image := mkImage {
  img_Parent : string;
  img_RootFS : option RootFS;
  img_History : list History;
  img_rawJSON : string;
  img_computedID : string
}.

Record imageMeta := mkImageMeta {
  im_layer : option Layer;
  im_children : gset string
}.

(** ** Interfaces *)

(** image.StoreBackend: [F] is its state.  [be_Walk] gives the identifiers that
    [Walk] passes to its callback, in order: [Walk] reads the directory before it
    calls back. *)
Class StoreBackend (F : Type) := {
  be_Walk : F → F * outcome string (list string);
  be_Get : F → string → F * outcome string string;
  be_Set : F → string → F * outcome string string;
  be_Delete : F → string → F * outcome string unit;
  be_SetMetadata : F → string → string → string → F * outcome string unit;
  be_GetMetadata : F → string → string → F * outcome string string;
  be_DeleteMetadata : F → string → string → F * outcome string unit
}.

(** image.LayerGetReleaser: [L] is the state of the layer store. *)
Class LayerGetReleaser (L : Type) := {
  lg_Get : L → string → L * outcome string Layer;
  lg_Release : L → Layer → L * outcome string (list Metadata)
}.

(** [digest.Set] of docker/distribution. *)
Inductive lookup_error := ErrDigestNotFound | ErrDigestAmbiguous.
Definition lookup_error_string (e : lookup_error) : string :=
  match e with
  | ErrDigestNotFound => "digest not found"
  | ErrDigestAmbiguous => "ambiguous digest string"
  end.

Class DigestSet (DS : Type) := {
  ds_NewSet : DS;
  ds_Add : DS → string → DS * option string;
  ds_Remove : DS → string → DS * option string;
  ds_Lookup : DS → string → lookup_error + string
}.

(** [encoding/json] on [Image], and [Digest.Validate] of docker/distribution. *)
Class ImageExt := {
  json_Unmarshal : string → string + Image;
  digest_Validate : string → option string
}.

(** ** Operations *)

Definition NewRootFS : RootFS := mkRootFS "layers" [].
Definition RootFS_Append (r : RootFS) (id : string) : RootFS :=
  mkRootFS (rfs_Type r) (rfs_DiffIDs r ++ [id]).

Section image_store.
Context {F L DS Tar Desc : Type}.
Context {be : StoreBackend F} {lg : LayerGetReleaser L} {dset : DigestSet DS}.
Context {ext : LayerExt Tar Desc} {iext : ImageExt}.

Record imageStore := mkImageStore {
  is_ls : L;
  is_images : gmap string imageMeta;
  is_fs : F;
  is_digestSet : DS
}.

Implicit Types (st : imageStore) (id parent : string).

Definition with_ls st (l : L) : imageStore :=
  mkImageStore l (is_images st) (is_fs st) (is_digestSet st).
Definition with_images st (i : gmap string imageMeta) : imageStore :=
  mkImageStore (is_ls st) i (is_fs st) (is_digestSet st).
Definition with_fs st (f : F) : imageStore :=
  mkImageStore (is_ls st) (is_images st) f (is_digestSet st).
Definition with_digestSet st (d : DS) : imageStore :=
  mkImageStore (is_ls st) (is_images st) (is_fs st) d.

(** A call of the backend, of the layer store. *)
Definition call_fs {A} st (f : F → F * outcome string A) : imageStore * outcome string A :=
  let '(s, r) := f (is_fs st) in (with_fs st s, r).
Definition call_ls {A} st (f : L → L * outcome string A) : imageStore * outcome string A :=
  let '(s, r) := f (is_ls st) in (with_ls st s, r).

(** An error that the caller drops. *)
Definition ignore_error {S} (r : S * outcome string unit) : S * outcome string unit :=
  match r with (s, Err _) => (s, Ok tt) | _ => r end.

(** An error that the caller turns into nil. *)
Definition or_none {S A} (r : S * outcome string A) : S * outcome string (option A) :=
  match r with
  | (s, Ok a) => (s, Ok (Some a))
  | (s, Err _) => (s, Ok None)
  | (s, Panic m) => (s, Panic m)
  | (s, Diverge) => (s, Diverge)
  end.

(** [r.ChainID()]. *)
Definition RootFS_ChainID (r : RootFS) : string := CreateChainID (rfs_DiffIDs r).

Definition NewFromJSON (src : string) : outcome string Image :=
  match json_Unmarshal src with
  | inl e => Err e
  | inr img =>
      match img_RootFS img with
      | None => Err "Invalid image JSON, no RootFS key."
      | Some _ =>
          Ok (mkImage (img_Parent img) (img_RootFS img) (img_History img) src
                (img_computedID img))
      end
  end.

Definition imageStore_GetParent st id : imageStore * outcome string string :=
  call_fs st (λ f, be_GetMetadata f id "parent").

Definition imageStore_Get st id : imageStore * outcome string Image :=
  let! (st, config) := call_fs st (λ f, be_Get f id) in
  let! (st, img) := (st, NewFromJSON config) in
  let! (st, parent) := or_none (imageStore_GetParent st id) in
  (st, Ok (mkImage (default "" parent) (img_RootFS img) (img_History img)
             (img_rawJSON img) id)).

(** [is.ls.Get], skipped for an image without layers. *)
Definition retain_layer st (chainID : string) : imageStore * outcome string (option Layer) :=
  if decide (chainID = "") then (st, Ok None)
  else let! (st, l) := call_ls st (λ s, lg_Get s chainID) in (st, Ok (Some l)).

(** The children of the entry [p] change by [f]. *)
Definition update_children (f : gset string → gset string) (p : string) st : imageStore :=
  with_images st
    (alter (λ m, mkImageMeta (im_layer m) (f (im_children m))) p (is_images st)).

(** The callback that [restore] gives to [Walk], for one identifier. *)
Definition restore_id st id : imageStore * outcome string unit :=
  let! (st, oimg) := or_none (imageStore_Get st id) in
  match oimg with
  | None => (st, Ok tt)
  | Some img =>
      match img_RootFS img with
      | None => (st, Panic "invalid memory address or nil pointer dereference")
      | Some rootFS =>
          let! (st, l) := retain_layer st (RootFS_ChainID rootFS) in
          match ds_Add (is_digestSet st) id with
          | (d, Some e) => (with_digestSet st d, Err e)
          | (d, None) =>
              let st := with_digestSet st d in
              (with_images st (<[id := mkImageMeta l ∅]> (is_images st)), Ok tt)
          end
      end
  end.

Fixpoint restore_walk st (ids : list string) : imageStore * outcome string unit :=
  match ids with
  | [] => (st, Ok tt)
  | id :: ids => let! (st, _) := restore_id st id in restore_walk st ids
  end.

(** The second pass of [restore], for one identifier. *)
Definition restore_child st id : imageStore * outcome string unit :=
  let! (st, parent) := or_none (imageStore_GetParent st id) in
  match parent with
  | None => (st, Ok tt)
  | Some parent => (update_children (λ c, {[id]} ∪ c) parent st, Ok tt)
  end.

Fixpoint restore_children st (ids : list string) : imageStore * outcome string unit :=
  match ids with
  | [] => (st, Ok tt)
  | id :: ids => let! (st, _) := restore_child st id in restore_children st ids
  end.

Definition imageStore_restore st : imageStore * outcome string unit :=
  let! (st, ids) := call_fs st be_Walk in
  let! (st, _) := restore_walk st ids in
  restore_children st (elements (dom (is_images st))).

Definition NewImageStore (fs : F) (ls : L) : imageStore * outcome string unit :=
  imageStore_restore (mkImageStore ls ∅ fs ds_NewSet).

Definition non_empty_layers (hs : list History) : nat :=
  length (filter (λ h, h_EmptyLayer h = false) hs).

(** The part of [Create] under the lock. *)
Definition create_locked st (rootFS : RootFS) (imageID : string) :
    imageStore * outcome string string :=
  if decide (is_Some (is_images st !! imageID)) then (st, Ok imageID)
  else
    let! (st, l) := retain_layer st (RootFS_ChainID rootFS) in
    let st := with_images st (<[imageID := mkImageMeta l ∅]> (is_images st)) in
    match ds_Add (is_digestSet st) imageID with
    | (d, Some e) =>
        let st := with_digestSet st d in
        (with_images st (delete imageID (is_images st)), Err e)
    | (d, None) => (with_digestSet st d, Ok imageID)
    end.

Definition imageStore_Create st (config : string) : imageStore * outcome string string :=
  match json_Unmarshal config with
  | inl e => (st, Err e)
  | inr img =>
      match img_RootFS img with
      | None => (st, Panic "invalid memory address or nil pointer dereference")
      | Some rootFS =>
          if decide (length (rfs_DiffIDs rootFS) < non_empty_layers (img_History img))
          then (st, Err "too many non-empty layers in History section")
          else
            let! (st, imageID) := call_fs st (λ f, be_Set f config) in
            create_locked st rootFS imageID
      end
  end.

Definition imageStore_Search st (term : string) : outcome string string :=
  match ds_Lookup (is_digestSet st) term with
  | inr dgst => Ok dgst
  | inl ErrDigestNotFound => Err (String.append "No such image: " term)
  | inl e => Err (lookup_error_string e)
  end.

(** The loop of [Delete] over the children. *)
Fixpoint delete_parents st (ids : list string) : imageStore * outcome string unit :=
  match ids with
  | [] => (st, Ok tt)
  | id :: ids =>
      let! (st, _) := ignore_error (call_fs st (λ f, be_DeleteMetadata f id "parent")) in
      delete_parents st ids
  end.

(** [delete(is.images[parent].children, id)] for the current parent of [id]. *)
Definition unlink_parent st id : imageStore * outcome string unit :=
  let! (st, parent) := or_none (imageStore_GetParent st id) in
  match parent with
  | None => (st, Ok tt)
  | Some parent => (update_children (λ c, c ∖ {[id]}) parent st, Ok tt)
  end.

Definition imageStore_Delete st id : imageStore * outcome string (list Metadata) :=
  match is_images st !! id with
  | None => (st, Err (String.append "unrecognized image ID " id))
  | Some meta =>
      let! (st, _) := delete_parents st (elements (im_children meta)) in
      let! (st, _) := unlink_parent st id in
      let st := with_digestSet st (ds_Remove (is_digestSet st) id).1 in
      let st := with_images st (delete id (is_images st)) in
      let! (st, _) := ignore_error (call_fs st (λ f, be_Delete f id)) in
      match im_layer meta with
      | Some l => call_ls st (λ s, lg_Release s l)
      | None => (st, Ok [])
      end
  end.

Definition imageStore_SetParent st id parent : imageStore * outcome string unit :=
  match is_images st !! parent with
  | None => (st, Err (String.append "unknown parent image ID " parent))
  | Some _ =>
      let! (st, _) := unlink_parent st id in
      let st := update_children (λ c, {[id]} ∪ c) parent st in
      call_fs st (λ f, be_SetMetadata f id "parent" parent)
  end.

(** [children] and [Children]: the order of the result is that of a Go map. *)
Definition imageStore_children st id : list string :=
  match is_images st !! id with
  | Some m => elements (im_children m)
  | None => []
  end.

(** The loop of [imagesMap] over the identifiers of [is.images]. *)
Fixpoint imagesMap_loop (all : bool) st (ids : list string) (images : gmap string Image) :
    imageStore * outcome string (gmap string Image) :=
  match ids with
  | [] => (st, Ok images)
  | id :: ids =>
      if decide (all = false ∧ 0 < length (imageStore_children st id))
      then imagesMap_loop all st ids images
      else
        let! (st, oimg) := or_none (imageStore_Get st id) in
        imagesMap_loop all st ids
          (match oimg with Some img => <[id := img]> images | None => images end)
  end.

Definition imageStore_imagesMap st (all : bool) :
    imageStore * outcome string (gmap string Image) :=
  imagesMap_loop all st (elements (dom (is_images st))) ∅.
Definition imageStore_Map st := imageStore_imagesMap st true.
Definition imageStore_Heads st := imageStore_imagesMap st false.
End image_store.
Arguments imageStore : clear implicits.
