(* ===== verification/ImageInv.v ===== *)
(** * Invariants of the image store

    What the image store expects of its backend, of the layer store and of the
    digest set is stated by the classes [BackendSafe], [LayerHolder] and
    [DigestSetLaws]; the layer store is shown to implement [LayerHolder] in
    ImageLayer, image/fs.go to implement [BackendSafe] and [ReliableBackend] in
    ImageFS.

    [image_inv] is the invariant that holds whatever the backend and the layer
    store answer: every image of the store holds its own reference on the layer
    that its configuration names.  [family_inv] relates the children sets to the
    parent pointers of the backend, and needs a backend without I/O errors. *)

From S2P Require Import Prelude Layer ImageStore.

Definition valid_id `{ImageExt} (id : string) : Prop := digest_Validate id = None.

(** ** What the image store relies on *)

(** A backend may fail at any call; a call on a valid digest does not panic, and
    content is stored under its digest. *)
Class BackendSafe (F : Type) `{StoreBackend F} {Tar Desc : Type} `{LayerExt Tar Desc}
    `{ImageExt} := {
  bs_Walk f : safe (be_Walk f) (λ _ ids, Forall valid_id ids ∧ NoDup ids) (λ _ _, True);
  bs_Get f id : valid_id id →
    safe (be_Get f id) (λ _ c, digest_FromBytes c = id) (λ _ _, True);
  bs_Set f c :
    safe (be_Set f c) (λ _ id, id = digest_FromBytes c ∧ valid_id id) (λ _ _, True);
  bs_Delete f id : valid_id id → safe (be_Delete f id) (λ _ _, True) (λ _ _, True);
  bs_SetMetadata f id k v : valid_id id →
    safe (be_SetMetadata f id k v) (λ _ _, True) (λ _ _, True);
  bs_GetMetadata f id k : valid_id id →
    safe (be_GetMetadata f id k) (λ _ _, True) (λ _ _, True);
  bs_DeleteMetadata f id k : valid_id id →
    safe (be_DeleteMetadata f id k) (λ _ _, True) (λ _ _, True)
}.

(** [lg_ref s c r]: in the state [s], [r] is a reference that a client holds on
    the live layer with chain identifier [c].  [Get] hands out a new reference,
    [Release] ends the one it is given, and both leave all others alone. *)
Class LayerHolder (L : Type) `{LayerGetReleaser L} := {
  lg_ok : L → Prop;
  lg_ref : L → string → Layer → Prop;
  lg_Get_spec s c : lg_ok s →
    safe (lg_Get s c)
      (λ s' r, lg_ok s' ∧ lg_ref s' c r ∧
         ∀ c' r', lg_ref s c' r' → lg_ref s' c' r' ∧ r' ≠ r)
      (λ s' _, lg_ok s' ∧ ∀ c' r', lg_ref s c' r' → lg_ref s' c' r');
  lg_Release_spec s c r : lg_ok s → lg_ref s c r →
    let post s' := lg_ok s' ∧ (∀ c', ¬ lg_ref s' c' r) ∧
      ∀ c' r', lg_ref s c' r' → r' ≠ r → lg_ref s' c' r' in
    safe (lg_Release s r) (λ s' _, post s') (λ s' _, post s')
}.

(** A digest set holds valid digests and finds a member by its full name. *)
Class DigestSetLaws (DS : Type) `{DigestSet DS} `{ImageExt} := {
  ds_elems : DS → gset string;
  ds_NewSet_elems : ds_elems ds_NewSet = ∅;
  ds_Add_valid d x : valid_id x →
    (ds_Add d x).2 = None ∧ ds_elems (ds_Add d x).1 = {[x]} ∪ ds_elems d;
  ds_Remove_valid d x : valid_id x →
    (ds_Remove d x).2 = None ∧ ds_elems (ds_Remove d x).1 = ds_elems d ∖ {[x]};
  ds_Lookup_elem d t x : ds_Lookup d t = inr x → x ∈ ds_elems d;
  ds_Lookup_full d x : x ∈ ds_elems d → valid_id x → ds_Lookup d x = inr x
}.

Section image_inv.
Context {F L DS Tar Desc : Type}.
Context {be : StoreBackend F} {lg : LayerGetReleaser L} {dset : DigestSet DS}.
Context {ext : LayerExt Tar Desc} {iext : ImageExt}.
Context {holder : LayerHolder L} {dlaws : DigestSetLaws DS} {bsafe : BackendSafe F}.

Abbreviation store := (imageStore F L DS).
Implicit Types (st : store) (id p c : string) (m : imageMeta).

(** The image [id] has a configuration, and holds a reference on the layer with
    the chain identifier of its layers, when it has layers. *)
Definition image_layer (s : L) id (l : option Layer) : Prop :=
  ∃ config img r, digest_FromBytes config = id ∧ json_Unmarshal config = inr img ∧
    img_RootFS img = Some r ∧
    match l with
    | None => RootFS_ChainID r = ""
    | Some l => RootFS_ChainID r ≠ "" ∧ lg_ref s (RootFS_ChainID r) l
    end.

Record image_inv st : Prop := {
  ii_ls : lg_ok (is_ls st);
  ii_digests : ds_elems (is_digestSet st) = dom (is_images st);
  ii_valid id m : is_images st !! id = Some m →
    valid_id id ∧ set_Forall valid_id (im_children m);
  ii_layer id m : is_images st !! id = Some m → image_layer (is_ls st) id (im_layer m);
  ii_distinct id id' m m' l :
    is_images st !! id = Some m → is_images st !! id' = Some m' →
    im_layer m = Some l → im_layer m' = Some l → id = id'
}.

(** ** Frames *)

(** Same images, same layer store. *)
Definition same_mem st st' : Prop := is_images st' = is_images st ∧ is_ls st' = is_ls st.

#[local] Instance same_mem_preorder : PreOrder same_mem.
Proof. split; [by split|]. intros ? ? ? [] []. split; congruence. Qed.

(** [r] ends normally or with an error, in a state with the invariant and the
    same images. *)
Definition keeps {A} st (r : store * outcome string A) (P : A → Prop) : Prop :=
  safe r (λ st' a, P a ∧ image_inv st' ∧ same_mem st st')
    (λ st' _, image_inv st' ∧ same_mem st st').

Lemma keeps_bind {A B} st (r : store * outcome string A)
    (k : store → A → store * outcome string B) (P : A → Prop) (Q : B → Prop) :
  keeps st r P →
  (∀ st' a, P a → image_inv st' → same_mem st st' → keeps st' (k st' a) Q) →
  keeps st (and_then r k) Q.
Proof.
  intros Hr Hk. apply safe_bind. eapply safe_mono; [exact Hr| |done].
  intros st' a (Ha & Hinv & Himg). specialize (Hk st' a Ha Hinv Himg).
  eapply safe_mono; [exact Hk| |].
  - intros st2 b (Hb & Hinv2 & Himg2). split_and!; [done..|by etrans].
  - intros st2 e [Hinv2 Himg2]. split; [done|by etrans].
Qed.

(** The same, for a continuation that changes the images. *)
Lemma keeps_then {A B} st (r : store * outcome string A)
    (k : store → A → store * outcome string B) (P : A → Prop) (Q : store → B → Prop) :
  keeps st r P →
  (∀ st' a, P a → image_inv st' → same_mem st st' →
     safe (k st' a) Q (λ st'' _, image_inv st'')) →
  safe (and_then r k) Q (λ st'' _, image_inv st'').
Proof.
  intros Hr Hk. apply safe_bind. eapply safe_mono; [exact Hr| |].
  - intros st' a (Ha & Hinv & Himg). eauto.
  - intros st' e [Hinv _]. done.
Qed.

Lemma keeps_ret {A} st (a : A) (P : A → Prop) :
  image_inv st → P a → keeps st (st, Ok a) P.
Proof. done. Qed.

Lemma inv_with_fs st f : image_inv st → image_inv (with_fs st f).
Proof. intros []. by split. Qed.

Lemma keeps_call_fs {A} st (g : F → F * outcome string A) (P : A → Prop) :
  image_inv st → safe (g (is_fs st)) (λ _ a, P a) (λ _ _, True) → keeps st (call_fs st g) P.
Proof.
  intros Hinv Hg. unfold keeps, call_fs. destruct (g (is_fs st)) as [f []]; simpl in *;
    [split_and!; [done|by apply inv_with_fs|done]|split; [by apply inv_with_fs|done]|done..].
Qed.

(** A call whose error is dropped does not fail. *)
Definition keeps_ok {A} st (r : store * outcome string A) (P : A → Prop) : Prop :=
  safe r (λ st' a, P a ∧ image_inv st' ∧ same_mem st st') (λ _ _, False).

Lemma keeps_or_none {A} st (r : store * outcome string A) (P : A → Prop) :
  keeps st r P → keeps_ok st (or_none r) (λ o, ∀ a, o = Some a → P a).
Proof. unfold keeps, keeps_ok. destruct r as [st' []]; simpl; naive_solver. Qed.

Lemma keeps_ignore_error st (r : store * outcome string unit) P :
  keeps st r P → keeps_ok st (ignore_error r) (λ _, True).
Proof. unfold keeps, keeps_ok. destruct r as [st' []]; simpl; naive_solver. Qed.

Lemma keeps_ok_then {A B} st (r : store * outcome string A)
    (k : store → A → store * outcome string B) (P : A → Prop) (Q : store → B → Prop) R :
  keeps_ok st r P →
  (∀ st' a, P a → image_inv st' → same_mem st st' → safe (k st' a) Q R) →
  safe (and_then r k) Q R.
Proof.
  intros Hr Hk. apply safe_bind. eapply safe_mono; [exact Hr| |done].
  intros st' a (Ha & Hinv & Himg). eauto.
Qed.

Lemma keeps_of_ok {A} st (r : store * outcome string A) P : keeps_ok st r P → keeps st r P.
Proof. intros Hr. by eapply safe_mono_err. Qed.

Lemma update_children_lookup st f p id m :
  is_images (update_children f p st) !! id = Some m →
  ∃ m0, is_images st !! id = Some m0 ∧ im_layer m = im_layer m0 ∧
    im_children m = if decide (p = id) then f (im_children m0) else im_children m0.
Proof.
  simpl. destruct (decide (p = id)) as [->|Hne].
  - rewrite lookup_alter_eq. intros (m0 & Hm0 & ->)%fmap_Some. by exists m0.
  - rewrite lookup_alter_ne by done. eauto.
Qed.

Lemma inv_update_children st f p :
  image_inv st → (∀ cs, set_Forall valid_id cs → set_Forall valid_id (f cs)) →
  image_inv (update_children f p st).
Proof.
  intros [] Hf. split; [done| | | |].
  - simpl. by rewrite dom_alter_L.
  - intros id m (m0 & Hm0 & _ & ->)%update_children_lookup.
    destruct (ii_valid0 _ _ Hm0). case_decide; auto.
  - intros id m (m0 & Hm0 & -> & _)%update_children_lookup. eauto.
  - intros id id' m m' l (m0 & ? & -> & _)%update_children_lookup
      (m0' & ? & -> & _)%update_children_lookup. eauto.
Qed.

(** The layer store moves on while keeping the references of the images. *)
Lemma inv_with_ls st s :
  image_inv st → lg_ok s →
  (∀ id m l c, is_images st !! id = Some m → im_layer m = Some l →
     lg_ref (is_ls st) c l → lg_ref s c l) →
  image_inv (with_ls st s).
Proof.
  intros [] Hok Hkeep. split; try done; simpl.
  intros id m Hm. destruct (ii_layer0 id m Hm) as (config & img & r & ? & ? & ? & Hl).
  exists config, img, r. split_and!; [done..|].
  destruct (im_layer m) as [l|] eqn:?; [|done]. destruct Hl. split; [done|eauto].
Qed.

(** A new image, whose layer no other image holds. *)
Lemma inv_insert st id l d :
  image_inv st → valid_id id → image_layer (is_ls st) id l →
  (∀ id' m' r, is_images st !! id' = Some m' → im_layer m' = Some r → l ≠ Some r) →
  ds_elems d = {[id]} ∪ ds_elems (is_digestSet st) →
  image_inv (with_images (with_digestSet st d) (<[id := mkImageMeta l ∅]> (is_images st))).
Proof.
  intros [] Hid Hl Hfresh Hd. split; simpl; [done| | | |].
  - rewrite Hd, dom_insert_L. congruence.
  - intros id' m. rewrite lookup_insert. case_decide; intros; simplify_eq/=; [|by eauto].
    split; [done|]. apply set_Forall_empty.
  - intros id' m. rewrite lookup_insert. case_decide; intros; simplify_eq/=; eauto.
  - intros i i' m m' r. rewrite !lookup_insert.
    do 2 case_decide; intros; simplify_eq/=; naive_solver.
Qed.

(** An image leaves the store. *)
Lemma inv_delete st id d :
  image_inv st → ds_elems d = ds_elems (is_digestSet st) ∖ {[id]} →
  image_inv (with_images (with_digestSet st d) (delete id (is_images st))).
Proof.
  intros [] Hd. split; simpl; [done| | | |].
  - rewrite Hd, dom_delete_L. congruence.
  - intros i m [_ Hm]%lookup_delete_Some. eauto.
  - intros i m [_ Hm]%lookup_delete_Some. eauto.
  - intros i i' m m' r [_ Hm]%lookup_delete_Some [_ Hm']%lookup_delete_Some. eauto.
Qed.

(** ** Operations *)

Lemma GetParent_keeps st id :
  image_inv st → valid_id id → keeps st (imageStore_GetParent st id) (λ _, True).
Proof. intros. apply keeps_call_fs; [done|]. by apply bs_GetMetadata. Qed.

Lemma NewFromJSON_Ok config img :
  NewFromJSON config = Ok img →
  ∃ img0 r, json_Unmarshal config = inr img0 ∧ img_RootFS img0 = Some r ∧
    img_RootFS img = Some r.
Proof.
  unfold NewFromJSON. destruct (json_Unmarshal config) as [|img0]; [done|].
  destruct (img_RootFS img0) eqn:?; [|done]. intros; simplify_eq/=. eauto.
Qed.

(** What [Get] returns was decoded from the content stored under [id]. *)
Definition decoded id (img : Image) : Prop :=
  ∃ config img0 r, digest_FromBytes config = id ∧ json_Unmarshal config = inr img0 ∧
    img_RootFS img0 = Some r ∧ img_RootFS img = Some r ∧ img_computedID img = id.

Lemma imageStore_Get_keeps st id :
  image_inv st → valid_id id → keeps st (imageStore_Get st id) (decoded id).
Proof.
  intros Hinv Hid. unfold imageStore_Get.
  eapply keeps_bind; [by apply keeps_call_fs; [|apply bs_Get]|].
  intros st1 config Hconfig Hinv1 _; simpl.
  destruct (NewFromJSON config) as [img| | |] eqn:Hj; simpl; [|done|..].
  2-3: unfold NewFromJSON in Hj; repeat case_match; done.
  destruct (NewFromJSON_Ok _ _ Hj) as (img0 & r & Hdec & Hr0 & Hr).
  eapply keeps_bind; [by apply keeps_of_ok, keeps_or_none, GetParent_keeps|].
  intros st2 parent _ Hinv2 _. apply keeps_ret; [done|].
  exists config, img0, r. done.
Qed.

(** The layer of a configuration is retained with a reference of its own. *)
Lemma retain_layer_safe st c :
  image_inv st →
  safe (retain_layer st c)
    (λ st' l, image_inv st' ∧ is_images st' = is_images st ∧
       match l with
       | None => c = ""
       | Some l => c ≠ "" ∧ lg_ref (is_ls st') c l ∧
           ∀ id m r, is_images st !! id = Some m → im_layer m = Some r → l ≠ r
       end)
    (λ st' _, image_inv st').
Proof.
  intros Hinv. unfold retain_layer. case_decide as Hc; [done|].
  apply safe_bind. unfold call_ls.
  pose proof (lg_Get_spec (is_ls st) c (ii_ls _ Hinv)) as Hget.
  destruct (lg_Get (is_ls st) c) as [s [l|e| |]]; simpl in *; [| |done..].
  - destruct Hget as (Hok & Hl & Hkeep).
    assert (∀ id m r, is_images st !! id = Some m → im_layer m = Some r → l ≠ r).
    { intros id m r Hm Hr <-. destruct (ii_layer _ Hinv id m Hm) as (? & ? & ? & _ & _ & _ & H).
      rewrite Hr in H. destruct H as [_ H]. by destruct (Hkeep _ _ H). }
    split_and!; try done. apply inv_with_ls; [done..|]. intros; by apply Hkeep.
  - destruct Hget as [Hok Hkeep]. apply inv_with_ls; [done..|]. eauto.
Qed.

Lemma image_layer_intro s id config img r l :
  digest_FromBytes config = id → json_Unmarshal config = inr img → img_RootFS img = Some r →
  match l with
  | None => RootFS_ChainID r = ""
  | Some l => RootFS_ChainID r ≠ "" ∧ lg_ref s (RootFS_ChainID r) l
  end → image_layer s id l.
Proof. intros. by exists config, img, r. Qed.

Lemma inv_add_image st id config img r l P :
  image_inv st → valid_id id →
  digest_FromBytes config = id → json_Unmarshal config = inr img → img_RootFS img = Some r →
  match l with
  | None => RootFS_ChainID r = ""
  | Some l => RootFS_ChainID r ≠ "" ∧ lg_ref (is_ls st) (RootFS_ChainID r) l ∧
      ∀ id m r, is_images st !! id = Some m → im_layer m = Some r → l ≠ r
  end →
  (∀ d, (ds_Add (is_digestSet st) id) = (d, None) →
     image_inv (with_images (with_digestSet st d)
       (<[id := mkImageMeta l ∅]> (is_images st))) → P) → P.
Proof.
  intros Hinv Hid Hc Hj Hr Hl HP. destruct (ds_Add_valid (is_digestSet st) id Hid) as [Ha Hd].
  destruct (ds_Add (is_digestSet st) id) as [d e]; simpl in *; subst e. apply (HP d); [done|].
  apply inv_insert; [done..| | |done].
  - eapply image_layer_intro; [done..|]. destruct l; naive_solver.
  - intros id' m' r' Hm' Hr' ->. naive_solver.
Qed.

Lemma create_locked_safe st config img r :
  image_inv st → valid_id (digest_FromBytes config) →
  json_Unmarshal config = inr img → img_RootFS img = Some r →
  safe (create_locked st r (digest_FromBytes config))
    (λ st' id, image_inv st' ∧ id = digest_FromBytes config ∧ is_Some (is_images st' !! id))
    (λ st' _, image_inv st').
Proof.
  intros Hinv Hid Hj Hr. unfold create_locked. case_decide as Hin; [done|].
  apply safe_bind.
  eapply safe_mono; [by apply retain_layer_safe| |done].
  intros st1 l (Hinv1 & Himg & Hl). simpl. rewrite <- Himg in Hl.
  eapply (inv_add_image st1 _ config img r l); [done..|].
  intros d -> Hinv'. split_and!; [done..|]. simpl. rewrite lookup_insert_eq. eauto.
Qed.

(** A configuration without a rootfs would be dereferenced. *)
Definition has_rootfs (config : string) : Prop :=
  ∀ img, json_Unmarshal config = inr img → is_Some (img_RootFS img).

Lemma imageStore_Create_safe st config :
  image_inv st → has_rootfs config →
  safe (imageStore_Create st config)
    (λ st' id, image_inv st' ∧ id = digest_FromBytes config ∧ is_Some (is_images st' !! id))
    (λ st' _, image_inv st').
Proof.
  intros Hinv Hroot. unfold imageStore_Create.
  destruct (json_Unmarshal config) as [|img] eqn:Hj; [done|].
  destruct (Hroot img Hj) as [r Hr]. rewrite Hr. case_decide; [done|].
  eapply keeps_then; [apply keeps_call_fs; [done|]; apply bs_Set|].
  simpl. intros st1 id [-> Hid] Hinv1 _. by eapply create_locked_safe.
Qed.

Lemma restore_id_safe st id :
  image_inv st → valid_id id → is_images st !! id = None →
  safe (restore_id st id)
    (λ st' _, image_inv st' ∧ ∀ id', id' ≠ id → is_images st' !! id' = is_images st !! id')
    (λ st' _, image_inv st').
Proof.
  intros Hinv Hid Hnew. unfold restore_id.
  eapply keeps_ok_then; [by apply keeps_or_none, imageStore_Get_keeps|].
  intros st1 [img|] Hdec Hinv1 [Himg1 _]; simpl; [|by rewrite Himg1].
  destruct (Hdec _ eq_refl) as (config & img0 & r & Hc & Hj & Hr0 & Hr & _).
  rewrite Hr. apply safe_bind. eapply safe_mono; [by apply retain_layer_safe| |done].
  intros st2 l (Hinv2 & Himg2 & Hl). simpl. rewrite <- Himg2 in Hl.
  eapply (inv_add_image st2 id config img0 r l); [done..|].
  intros d -> Hinv'. split; [done|]. simpl. intros id' Hne.
  rewrite lookup_insert_ne by done. congruence.
Qed.

Lemma restore_walk_safe st ids :
  image_inv st → Forall valid_id ids → NoDup ids →
  (∀ id, id ∈ ids → is_images st !! id = None) →
  safe (restore_walk st ids) (λ st' _, image_inv st') (λ st' _, image_inv st').
Proof.
  revert st. induction ids as [|id ids IH]; intros st Hinv Hids Hnd Hnew; [done|]; simpl.
  apply Forall_cons in Hids as [Hid Hids]. apply NoDup_cons in Hnd as [Hnid Hnd].
  apply safe_bind. eapply safe_mono; [apply restore_id_safe; [done..|]| |done].
  { apply Hnew. by left. }
  intros st1 _ [Hinv1 Hsame]. apply IH; [done..|]. intros id' Hid'.
  rewrite Hsame by set_solver. apply Hnew. by right.
Qed.

Lemma set_Forall_valid_add id (cs : gset string) :
  valid_id id → set_Forall valid_id cs → set_Forall valid_id ({[id]} ∪ cs).
Proof. intros. apply set_Forall_union; [by apply set_Forall_singleton|done]. Qed.

Lemma update_children_dom f p st :
  dom (is_images (update_children f p st)) = dom (is_images st).
Proof. simpl. by rewrite dom_alter_L. Qed.

Lemma restore_children_safe st ids :
  image_inv st → Forall valid_id ids →
  safe (restore_children st ids) (λ st' _, image_inv st') (λ st' _, image_inv st').
Proof.
  revert st. induction ids as [|id ids IH]; intros st Hinv Hids; [done|]; cbn [restore_children].
  apply Forall_cons in Hids as [Hid Hids]. unfold restore_child.
  apply safe_bind.
  eapply (safe_mono _ (λ st' _, image_inv st') _ (λ st' _, image_inv st'));
    [|intros st' _ Hinv'; by apply IH|done].
  eapply keeps_ok_then; [by apply keeps_or_none, GetParent_keeps|].
  intros st1 [p|] _ Hinv1 _; [|done].
  apply inv_update_children; [done|]. auto using set_Forall_valid_add.
Qed.

Lemma delete_parents_keeps st ids :
  image_inv st → Forall valid_id ids → keeps_ok st (delete_parents st ids) (λ _, True).
Proof.
  revert st. induction ids as [|id ids IH]; intros st Hinv Hids; [done|]; simpl.
  apply Forall_cons in Hids as [Hid Hids]. unfold keeps_ok. eapply keeps_ok_then.
  { eapply keeps_ignore_error, keeps_call_fs; [done|by apply bs_DeleteMetadata]. }
  intros st1 _ _ Hinv1 Himg. eapply safe_mono; [by apply IH| |done].
  intros st2 u (_ & Hinv2 & Hm2). split_and!; [done..|by etrans].
Qed.

Definition same_layers st st' : Prop :=
  ∀ i, im_layer <$> is_images st' !! i = im_layer <$> is_images st !! i.

Lemma unlink_parent_safe st id :
  image_inv st → valid_id id →
  safe (unlink_parent st id) (λ st' _, image_inv st' ∧ same_layers st st' ∧ is_ls st' = is_ls st) (λ _ _, False).
Proof.
  intros Hinv Hid. unfold unlink_parent.
  eapply keeps_ok_then; [by apply keeps_or_none, GetParent_keeps|].
  intros st1 [p|] _ Hinv1 [Himg Hls]; [|simpl; unfold same_layers; by rewrite Himg]. split_and!.
  - apply inv_update_children; [done|]. intros cs Hcs x Hx. apply Hcs. set_solver.
  - intros i. simpl. rewrite Himg. destruct (decide (p = i)) as [->|Hne].
    + rewrite lookup_alter_eq. by destruct (is_images st !! i).
    + by rewrite lookup_alter_ne.
  - done.
Qed.

(** Deleting an image drops it from the store, whatever fails, and gives back
    its reference, which no image holds any more. *)
Definition deleted id st st' : Prop :=
  image_inv st' ∧ is_images st' !! id = None ∧
  (∀ i, i ≠ id → im_layer <$> is_images st' !! i = im_layer <$> is_images st !! i) ∧
  (∀ m l c, is_images st !! id = Some m → im_layer m = Some l → ¬ lg_ref (is_ls st') c l).

Lemma release_safe st0 st id meta :
  image_inv st → is_images st0 !! id = Some meta → is_images st !! id = None →
  (∀ i, i ≠ id → im_layer <$> is_images st !! i = im_layer <$> is_images st0 !! i) →
  (∀ l, im_layer meta = Some l → (∃ c, lg_ref (is_ls st) c l) ∧
     ∀ i m, is_images st !! i = Some m → im_layer m ≠ Some l) →
  safe (match im_layer meta with
        | Some l => call_ls st (λ s, lg_Release s l)
        | None => (st, Ok [])
        end)
    (λ st' _, deleted id st0 st') (λ st' _, deleted id st0 st').
Proof.
  intros Hinv Hid Hgone Hsame Hl. unfold deleted.
  destruct (im_layer meta) as [l|] eqn:Hlm; [|simpl; split_and!; [done..|congruence]].
  destruct (Hl l eq_refl) as [[c Hc] Hfree]. unfold call_ls.
  pose proof (lg_Release_spec (is_ls st) c l (ii_ls _ Hinv) Hc) as Hrel; simpl in Hrel.
  assert (∀ s, lg_ok s ∧ (∀ c', ¬ lg_ref s c' l) ∧
     (∀ c' r', lg_ref (is_ls st) c' r' → r' ≠ l → lg_ref s c' r') →
     deleted id st0 (with_ls st s)) as Hpost.
  { intros s (Hok & Hno & Hkeep). split_and!; [|done..|].
    - apply inv_with_ls; [done..|]. intros i m r c' Hm Hr Hc'. apply Hkeep; [done|].
      intros ->. by eapply Hfree.
    - intros m l' c' Hm Hl'. simplify_eq. by simpl. }
  destruct (lg_Release (is_ls st) l) as [s []]; simpl in *; [by apply Hpost..|done|done].
Qed.

Lemma imageStore_Delete_safe st id meta :
  image_inv st → is_images st !! id = Some meta →
  safe (imageStore_Delete st id) (λ st' _, deleted id st st') (λ st' _, deleted id st st').
Proof.
  intros Hinv Hid. unfold imageStore_Delete. rewrite Hid.
  destruct (ii_valid _ Hinv id meta Hid) as [Hvid Hvc].
  eapply keeps_ok_then.
  { apply delete_parents_keeps; [done|]. apply Forall_forall.
    intros c Hc%elem_of_elements. by apply Hvc. }
  intros st1 _ _ Hinv1 [Himg1 Hls1]. apply safe_bind.
  eapply safe_mono; [by apply unlink_parent_safe| |done].
  intros st2 _ (Hinv2 & Hsame2 & Hls2). unfold same_layers in Hsame2. rewrite Himg1 in Hsame2.
  destruct (ds_Remove_valid (is_digestSet st2) id Hvid) as [_ Hrem].
  pose proof (inv_delete st2 id _ Hinv2 Hrem) as Hinv3.
  eapply keeps_ok_then; [eapply keeps_ignore_error, keeps_call_fs; [exact Hinv3|by apply bs_Delete]|].
  intros st4 _ _ Hinv4 [Himg4 Hls4]. apply release_safe; [done..| | |].
  - rewrite Himg4. apply lookup_delete_eq.
  - intros i Hi. rewrite Himg4; simpl. by rewrite lookup_delete_ne.
  - intros l Hl. rewrite Hls4, Himg4; simpl. rewrite Hls2, Hls1. split.
    + destruct (ii_layer _ Hinv id meta Hid) as (? & ? & r & _ & _ & _ & H).
      rewrite Hl in H. naive_solver.
    + intros i m [Hne Hm]%lookup_delete_Some Hml. apply Hne.
      assert (im_layer <$> is_images st !! i = Some (Some l)) as (m0 & Hm0 & Hl0)%fmap_Some.
      { rewrite <- Hsame2, Hm. simpl. by rewrite Hml. }
      by eapply (ii_distinct _ Hinv).
Qed.

Lemma imageStore_SetParent_safe st id p :
  image_inv st → valid_id id →
  safe (imageStore_SetParent st id p) (λ st' _, image_inv st' ∧ same_layers st st')
    (λ st' _, image_inv st' ∧ same_layers st st').
Proof.
  intros Hinv Hid. unfold imageStore_SetParent.
  destruct (is_images st !! p) as [pm|]; [|done].
  apply safe_bind. eapply safe_mono; [by apply unlink_parent_safe| |done].
  intros st1 _ (Hinv1 & Hsame1 & _).
  set (st2 := update_children _ _ _).
  assert (image_inv st2) as Hinv2.
  { apply inv_update_children; [done|]. auto using set_Forall_valid_add. }
  assert (same_layers st st2) as Hsame2.
  { intros i. rewrite <- Hsame1. subst st2. simpl. destruct (decide (p = i)) as [->|Hne].
    + rewrite lookup_alter_eq. by destruct (is_images st1 !! i).
    + by rewrite lookup_alter_ne. }
  eapply safe_mono; [apply (keeps_call_fs st2 _ (λ _, True)); [done|by apply bs_SetMetadata]|..].
  - intros st3 _ (_ & Hinv3 & Himg3 & _). unfold same_layers. by rewrite Himg3.
  - intros st3 e (Hinv3 & Himg3 & _). unfold same_layers. by rewrite Himg3.
Qed.

Lemma imagesMap_loop_keeps all st ids acc :
  image_inv st → Forall valid_id ids → keeps_ok st (imagesMap_loop all st ids acc) (λ _, True).
Proof.
  revert st acc. induction ids as [|id ids IH]; intros st acc Hinv Hids; [done|].
  cbn [imagesMap_loop]. apply Forall_cons in Hids as [Hid Hids].
  case_decide; [by apply IH|]. unfold keeps_ok.
  eapply keeps_ok_then; [by apply keeps_or_none, imageStore_Get_keeps|].
  intros st1 o _ Hinv1 Hm1. eapply safe_mono; [by apply IH| |done].
  intros st2 u (_ & Hinv2 & Hm2). split_and!; [done..|by etrans].
Qed.

(** ** Starting and running the store *)

Lemma images_valid st : image_inv st → Forall valid_id (elements (dom (is_images st))).
Proof.
  intros Hinv. apply Forall_forall. intros id [m Hm]%elem_of_elements%elem_of_dom.
  by destruct (ii_valid _ Hinv id m Hm).
Qed.

Lemma empty_image_inv (fs : F) (ls : L) :
  lg_ok ls → image_inv (mkImageStore ls ∅ fs ds_NewSet).
Proof.
  intros Hok. split; simpl; [done| |by intros; simplify_map_eq..].
  by rewrite ds_NewSet_elems, dom_empty_L.
Qed.

Lemma NewImageStore_safe (fs : F) (ls : L) :
  lg_ok ls → safe (NewImageStore fs ls) (λ st' _, image_inv st') (λ st' _, image_inv st').
Proof.
  intros Hok. unfold NewImageStore, imageStore_restore.
  eapply keeps_then; [apply keeps_call_fs; [by apply empty_image_inv|apply bs_Walk]|].
  intros st1 ids [Hids Hnd] Hinv1 [Himg1 _]. simpl. apply safe_bind.
  eapply (safe_mono _ (λ st' _, image_inv st')); [apply restore_walk_safe; [done..|]| |by auto].
  { intros id _. by rewrite Himg1. }
  intros st2 _ Hinv2. by apply restore_children_safe, images_valid.
Qed.

Inductive image_op :=
| ICreate (config : string)
| IGet (id : string)
| IDelete (id : string)
| ISetParent (id parent : string)
| IMap (all : bool).

Definition image_call st (op : image_op) : store * outcome string unit :=
  match op with
  | ICreate config => let '(st, o) := imageStore_Create st config in (st, void o)
  | IGet id => let '(st, o) := imageStore_Get st id in (st, void o)
  | IDelete id => let '(st, o) := imageStore_Delete st id in (st, void o)
  | ISetParent id parent => imageStore_SetParent st id parent
  | IMap all => let '(st, o) := imageStore_imagesMap st all in (st, void o)
  end.

(** The callers pass configurations with a rootfs, and well-formed digests. *)
Definition valid_image_op (op : image_op) : Prop :=
  match op with
  | ICreate config => has_rootfs config
  | IGet id => valid_id id
  | ISetParent id _ => valid_id id
  | IDelete _ | IMap _ => True
  end.

Definition image_run st (ops : list image_op) : store * list (outcome string unit) :=
  run_calls image_call st ops.

Lemma image_call_safe st op :
  image_inv st → valid_image_op op →
  safe (image_call st op) (λ st' _, image_inv st') (λ st' _, image_inv st').
Proof.
  intros Hinv Hop. destruct op as [config|id|id|id p|all]; simpl in *; try apply safe_void.
  - eapply safe_mono; [by apply imageStore_Create_safe|by intros ? ? H; apply H|done].
  - eapply safe_mono; [by apply imageStore_Get_keeps|by intros ? ? H; apply H..].
  - destruct (is_images st !! id) as [meta|] eqn:Hid.
    + eapply safe_mono; [by eapply imageStore_Delete_safe|by intros ? ? H; apply H..].
    + unfold imageStore_Delete. by rewrite Hid.
  - eapply safe_mono; [by apply imageStore_SetParent_safe|by intros ? ? H; apply H..].
  - eapply safe_mono; [by apply imagesMap_loop_keeps, images_valid|by intros ? ? H; apply H|done].
Qed.

Lemma image_run_inv st ops :
  image_inv st → Forall valid_image_op ops →
  image_inv (image_run st ops).1 ∧ Forall no_crash (image_run st ops).2.
Proof.
  intros Hinv Hops. apply (run_calls_inv _ (λ _, valid_image_op) image_inv); [|done|].
  - intros. by apply image_call_safe.
  - clear Hinv. revert st. induction Hops; intros st; simpl; auto.
Qed.

(** C9: A store was opened on any backend, and then called in any sequence with
    configurations that have a rootfs and identifiers that are valid digests, while
    the backend and the layer store may fail at any point.  Then every image of the
    store holds a reference of its own on the live layer that the chain of diff
    identifiers of its configuration names (and holds none exactly when the
    configuration has no layers); the digest set that [Search] consults holds exactly
    the images, each found under its full identifier; and no call panics or loops. *)
Theorem image_store_retains_layers (fs : F) (ls : L) (ops : list image_op) st :
  lg_ok ls → NewImageStore fs ls = (st, Ok tt) → Forall valid_image_op ops →
  let st' := (image_run st ops).1 in
  (∀ id m, is_images st' !! id = Some m →
     image_layer (is_ls st') id (im_layer m) ∧ imageStore_Search st' id = Ok id) ∧
  (∀ id id' m m' l, is_images st' !! id = Some m → is_images st' !! id' = Some m' →
     im_layer m = Some l → im_layer m' = Some l → id = id') ∧
  (∀ t id, imageStore_Search st' t = Ok id → is_Some (is_images st' !! id)) ∧
  Forall no_crash (image_run st ops).2.
Proof.
  intros Hok Hnew Hops st'. pose proof (NewImageStore_safe fs ls Hok) as Hst.
  rewrite Hnew in Hst. destruct (image_run_inv st ops Hst Hops) as [Hinv Hno].
  fold st' in Hinv. split_and!; [| |..].
  - intros id m Hm. split; [by apply ii_layer|]. unfold imageStore_Search.
    rewrite ds_Lookup_full; [done| |by destruct (ii_valid _ Hinv id m Hm)].
    rewrite (ii_digests _ Hinv). by apply elem_of_dom_2 in Hm.
  - apply (ii_distinct _ Hinv).
  - intros t id. unfold imageStore_Search.
    destruct (ds_Lookup _ t) as [[]|x] eqn:Hl; [done..|]. intros [= ->].
    apply elem_of_dom. rewrite <- (ii_digests _ Hinv). by eapply ds_Lookup_elem.
  - done.
Qed.

(** Deleting a stored image removes it and gives back exactly its own
    reference: afterwards nobody holds that reference, the other images keep
    their layers, and this also when the release, or any call of the backend,
    fails. *)
Theorem Delete_releases_reference st id meta :
  image_inv st → is_images st !! id = Some meta →
  safe (imageStore_Delete st id) (λ st' _, deleted id st st') (λ st' _, deleted id st st').
Proof. apply imageStore_Delete_safe. Qed.

(** [Create] dereferences the rootfs of the configuration it is given without
    checking that there is one, which [NewFromJSON] does check. *)
Lemma Create_without_rootfs_panics st config img :
  json_Unmarshal config = inr img → img_RootFS img = None →
  (∃ msg, (imageStore_Create st config).2 = Panic msg) ∧
  (∃ e, NewFromJSON config = Err e).
Proof.
  intros Hj Hr. unfold imageStore_Create, NewFromJSON. rewrite Hj, Hr. by split; eexists.
Qed.
End image_inv.
Arguments image_op : clear implicits.
