(* ===== verification/ImageLayer.v ===== *)
(** * The layer store as the image store's [LayerGetReleaser]

    In the daemon the interface [image.LayerGetReleaser] is implemented by the
    layer store of package layer.  Here the layer store of Layer, under its
    reference-count invariant, is shown to keep what the image store relies on. *)

From S2P Require Import Prelude Layer LayerInv LayerSafe ImageStore ImageInv.

Definition layer_error_string (e : layer_error) : string :=
  match e with
  | ErrLayerDoesNotExist => "layer does not exist"
  | ErrLayerNotRetained => "layer not retained"
  | ErrMountDoesNotExist => "mount does not exist"
  | ErrMountNameConflict => "mount already exists with name"
  | ErrMaxDepthExceeded => "max depth exceeded"
  | ErrExternal msg => msg
  end.

Definition map_error {S E E' A} (f : E → E') (r : S * outcome E A) : S * outcome E' A :=
  match r with
  | (s, Ok a) => (s, Ok a)
  | (s, Err e) => (s, Err (f e))
  | (s, Panic m) => (s, Panic m)
  | (s, Diverge) => (s, Diverge)
  end.

Lemma safe_map_error {S E E' A} (f : E → E') (r : S * outcome E A) Q R R' :
  safe r Q R → (∀ s e, R s e → R' s (f e)) → safe (map_error f r) Q R'.
Proof. destruct r as [s []]; simpl; auto. Qed.

Section image_layer.
Context {D M T Tar Desc : Type}.
Context {drv : Driver D Tar} {meta : MetadataStore M T Desc} {ext : LayerExt Tar Desc}.

Abbreviation store := (layerStore D M Desc).
Implicit Types (ls : store).

#[global] Instance layerStore_GetReleaser : LayerGetReleaser store := {|
  lg_Get ls c := map_error layer_error_string (layerStore_Get ls c);
  lg_Release ls l := map_error layer_error_string (layerStore_Release ls l)
|}.

(** [Get] leaves the references of others alone and returns a new one. *)
Lemma Get_other_refs ls ls' c r c' r' :
  layer_inv [] ls → layerStore_Get ls c = (ls', Ok r) →
  returns_ref c' ls r' → returns_ref c' ls' r' ∧ r' ≠ r.
Proof.
  intros Hinv. unfold layerStore_Get, getWithoutLock.
  destruct (ls_layerMap ls !! c) as [l|] eqn:Hc; [|done]. simpl.
  intros Hget (n & l' & rl' & -> & Hc' & Hl' & Hr'). simplify_eq.
  assert (live ls l') as Hlive by (by eexists).
  destruct (inv_refs _ _ Hinv l' rl' _ Hlive Hl' Hr') as (n' & [= <-] & Hn).
  split; [|intros [= Heq _]; lia].
  destruct (decide (l = l')) as [->|Hne].
  - eexists n, l', _. split_and!; [done..| |]; simpl.
    + by rewrite lookup_alter_eq, lookup_alter_eq, Hl'.
    + simpl. set_solver.
  - exists n, l', rl'. split_and!; [done..| |done]. simpl.
    by rewrite !lookup_alter_ne.
Qed.

(** What [Release] of the reference [r] leaves. *)
Definition release_refs ls r ls' : Prop :=
  (∀ c', ¬ returns_ref c' ls' r) ∧
  (∀ c' r', returns_ref c' ls r' → r' ≠ r → returns_ref c' ls' r').

Lemma frame_release_refs ls c n l rl ls' :
  let r := referencedCacheLayer n l in
  ls_layerMap ls !! c = Some l → ls_ro ls !! l = Some rl →
  release_frame (roLayer_deleteReference ls l r) ls' → release_refs ls r ls'.
Proof.
  intros r Hc Hl Hf. split.
  - intros c' (n' & l' & rl' & Heq & _ & Hl' & Hr'). injection Heq as <- <-.
    destruct Hf as (_ & _ & _ & _ & _ & Hro).
    destruct (same_upto_count_refs _ _ _ _ Hro Hl') as (rl'' & Hl'' & Hrefs).
    simpl in Hl''. rewrite lookup_alter_eq, Hl in Hl''. injection Hl'' as <-.
    simpl in Hrefs. rewrite <- Hrefs in Hr'. set_solver.
  - intros c' r' (n' & l' & rl' & -> & Hc' & Hl' & Hr') Hne.
    apply (returns_ref_stable c' (roLayer_deleteReference ls l r) ls'); [done|].
    destruct (decide (l = l')) as [->|Hll].
    + eexists n', l', _. split_and!; [done..| |].
      * simpl. by rewrite lookup_alter_eq, Hl'.
      * simpl. set_solver.
    + exists n', l', rl'. split_and!; [done..| |done]. simpl. by rewrite lookup_alter_ne.
Qed.

Lemma Release_refs ls c r :
  layer_inv [] ls → returns_ref c ls r →
  safe (layerStore_Release ls r)
    (λ ls' _, layer_inv [] ls' ∧ release_refs ls r ls')
    (λ ls' _, layer_inv [] ls' ∧ release_refs ls r ls').
Proof.
  intros Hinv (n & l & rl & -> & Hc & Hl & Hr).
  unfold layerStore_Release; simpl. rewrite Hl, (inv_map_key _ _ _ _ _ Hinv Hc Hl), Hc, Hl.
  unfold roLayer_hasReference. rewrite bool_decide_eq_true_2 by done.
  eapply safe_mono.
  - apply (releaseLayer_safe []). eapply deleteReference_inv; [done| |done..]. by exists c.
  - intros ls' removed (Hinv' & Hf & _). split; [done|]. by eapply frame_release_refs.
  - intros ls' e (Hinv' & Hf). split; [done|]. by eapply frame_release_refs.
Qed.

#[global] Program Instance layerStore_Holder : LayerHolder store := {|
  lg_ok := layer_inv [];
  lg_ref ls c r := returns_ref c ls r
|}.
Next Obligation.
  intros ls c Hinv. cbn [lg_Get layerStore_GetReleaser].
  pose proof (λ ls' r c' r', Get_other_refs ls ls' c r c' r' Hinv) as Hother.
  pose proof (layerStore_Get_safe [] ls c Hinv) as Hs.
  destruct (layerStore_Get ls c) as [ls' [r|e| |]] eqn:Hget; simpl in *; [| |done..].
  - destruct Hs as (Hinv' & l & rl & -> & Hc & Hl & Hr). split_and!; [done| |by eauto].
    exists (ls_next ls), l, rl. split_and!; [done| |done|done].
    unfold layerStore_Get, getWithoutLock in Hget. rewrite Hc in Hget. by simplify_eq/=.
  - by destruct Hs as (-> & _ & _).
Qed.
Next Obligation.
  intros ls c r Hinv Hr. cbn [lg_Release layerStore_GetReleaser]. simpl.
  eapply safe_map_error; [exact (Release_refs ls c r Hinv Hr)|]. simpl. by intros ? _.
Qed.

(** A stored layer can be retained, and retaining removes no layer. *)
Lemma layerStore_Get_available ls c :
  lg_ok ls → is_Some (ls_layerMap ls !! c) →
  ∃ ls' r, lg_Get ls c = (ls', Ok r) ∧
    ∀ c', is_Some (ls_layerMap ls !! c') → is_Some (ls_layerMap ls' !! c').
Proof.
  intros _ [l Hc]. simpl. unfold layerStore_Get, getWithoutLock. rewrite Hc.
  simpl. eexists _, _. by split.
Qed.
End image_layer.
