(* ===== verification/ImageFamily.v ===== *)
(** * Parents and children of images

    The parent of an image is metadata of the backend; the children of an image
    are a set in the store's memory.  With a backend whose calls do not fail
    ([ReliableBackend]), the sets are exactly the inverse of the parent pointers,
    and a store opened again on the same backend has the same images and the same
    children. *)

From S2P Require Import Prelude Layer ImageStore ImageInv.

(** A backend without I/O errors: [rb_content f id] is the content stored under
    [id] and [rb_parent f id] the value of its metadata key "parent". *)
Class ReliableBackend (F : Type) `{StoreBackend F} {Tar Desc : Type} `{LayerExt Tar Desc}
    `{ImageExt} := {
  rb_ok : F → Prop;
  rb_content : F → string → option string;
  rb_parent : F → string → option string;
  rb_parent_content f id : rb_ok f → is_Some (rb_parent f id) → is_Some (rb_content f id);
  rb_valid f id : rb_ok f → is_Some (rb_content f id) → valid_id id;
  rb_Walk f : rb_ok f → ∃ ids, be_Walk f = (f, Ok ids) ∧ NoDup ids ∧
    ∀ id, id ∈ ids ↔ is_Some (rb_content f id);
  rb_Get f id : rb_ok f → valid_id id →
    ∃ e, be_Get f id = (f, from_option Ok (Err e) (rb_content f id));
  rb_Set f c : rb_ok f →
    (c = "" ∧ ∃ e, be_Set f c = (f, Err e)) ∨
    ∃ f', be_Set f c = (f', Ok (digest_FromBytes c)) ∧ rb_ok f' ∧
      (∀ i, rb_content f' i =
         if decide (i = digest_FromBytes c) then Some c else rb_content f i) ∧
      (∀ i, rb_parent f' i = rb_parent f i);
  rb_Delete f id : rb_ok f → valid_id id →
    ∃ f' o, be_Delete f id = (f', o) ∧ no_crash o ∧ rb_ok f' ∧
      (∀ i, rb_content f' i = if decide (i = id) then None else rb_content f i) ∧
      (∀ i, rb_parent f' i = if decide (i = id) then None else rb_parent f i);
  rb_SetMetadata f id v : rb_ok f → is_Some (rb_content f id) →
    ∃ f', be_SetMetadata f id "parent" v = (f', Ok tt) ∧ rb_ok f' ∧
      (∀ i, rb_content f' i = rb_content f i) ∧
      (∀ i, rb_parent f' i = if decide (i = id) then Some v else rb_parent f i);
  rb_GetMetadata f id : rb_ok f → valid_id id →
    ∃ e, be_GetMetadata f id "parent" = (f, from_option Ok (Err e) (rb_parent f id));
  rb_DeleteMetadata f id : rb_ok f → valid_id id →
    ∃ f', be_DeleteMetadata f id "parent" = (f', Ok tt) ∧ rb_ok f' ∧
      (∀ i, rb_content f' i = rb_content f i) ∧
      (∀ i, rb_parent f' i = if decide (i = id) then None else rb_parent f i)
}.

Section image_family.
Context {F L DS Tar Desc : Type}.
Context {be : StoreBackend F} {lg : LayerGetReleaser L} {dset : DigestSet DS}.
Context {ext : LayerExt Tar Desc} {iext : ImageExt}.
Context {holder : LayerHolder L} {dlaws : DigestSetLaws DS} {bsafe : BackendSafe F}.
Context {rel : ReliableBackend F}.

Abbreviation store := (imageStore F L DS).
Implicit Types (st : store) (id p c : string) (m : imageMeta).

Abbreviation parent_in st := (rb_parent (is_fs st)).
Abbreviation content_in st := (rb_content (is_fs st)).

Definition decodes (config : string) : Prop := ∃ img, NewFromJSON config = Ok img.

Record family_inv st : Prop := {
  fi_ok : rb_ok (is_fs st);
  fi_content id : is_Some (is_images st !! id) →
    ∃ config, content_in st id = Some config ∧ decodes config;
  fi_parent c p : parent_in st c = Some p → is_Some (is_images st !! p);
  fi_children p m c : is_images st !! p = Some m →
    c ∈ im_children m ↔ parent_in st c = Some p
}.

(** ** Reading *)

Lemma GetParent_reliable st id :
  rb_ok (is_fs st) → valid_id id →
  or_none (imageStore_GetParent st id) = (st, Ok (parent_in st id)).
Proof.
  intros Hok Hid. unfold imageStore_GetParent, call_fs.
  destruct (rb_GetMetadata (is_fs st) id Hok Hid) as [e ->].
  destruct st. by destruct (rb_parent _ id).
Qed.

Lemma Get_reliable st id :
  rb_ok (is_fs st) → valid_id id →
  or_none (imageStore_Get st id) =
    (st, Ok (config ← content_in st id;
             match NewFromJSON config with
             | Ok img => Some (mkImage (default "" (parent_in st id)) (img_RootFS img)
                                 (img_History img) (img_rawJSON img) id)
             | _ => None
             end)).
Proof.
  intros Hok Hid. unfold imageStore_Get, call_fs.
  destruct (rb_Get (is_fs st) id Hok Hid) as [e ->].
  assert (with_fs st (is_fs st) = st) as Hfs by (by destruct st).
  destruct (rb_content _ id) as [config|]; simpl; [|by rewrite Hfs].
  rewrite Hfs. destruct (NewFromJSON config) eqn:Hj; simpl; [|done|..].
  2-3: unfold NewFromJSON in Hj; repeat case_match; done.
  by rewrite (GetParent_reliable st id Hok Hid).
Qed.

Lemma or_none_state {S A} (r : S * outcome string A) : (or_none r).1 = r.1.
Proof. by destruct r as [s []]. Qed.

Lemma with_fs_id st : with_fs st (is_fs st) = st.
Proof. by destruct st. Qed.

(** ** Changing *)

Lemma unlink_parent_reliable st id :
  rb_ok (is_fs st) → valid_id id →
  unlink_parent st id =
    (match parent_in st id with
     | Some p => update_children (λ cs, cs ∖ {[id]}) p st
     | None => st
     end, Ok tt).
Proof.
  intros Hok Hid. unfold unlink_parent. rewrite GetParent_reliable by done. simpl.
  by destruct (rb_parent _ id).
Qed.

Lemma delete_parents_reliable st ids :
  rb_ok (is_fs st) → Forall valid_id ids →
  ∃ f', delete_parents st ids = (with_fs st f', Ok tt) ∧ rb_ok f' ∧
    (∀ i, rb_content f' i = content_in st i) ∧
    (∀ i, rb_parent f' i = if decide (i ∈ ids) then None else parent_in st i).
Proof.
  revert st. induction ids as [|id ids IH]; intros st Hok Hids.
  { exists (is_fs st). by rewrite with_fs_id. }
  apply Forall_cons in Hids as [Hid Hids]. simpl. unfold call_fs.
  destruct (rb_DeleteMetadata (is_fs st) id Hok Hid) as (f & -> & Hok1 & Hc1 & Hp1). simpl.
  destruct (IH (with_fs st f) Hok1 Hids) as (f' & -> & Hok' & Hc' & Hp').
  exists f'. split_and!; [done..| |].
  - intros i. rewrite Hc'. apply Hc1.
  - intros i. rewrite Hp'; simpl. rewrite Hp1.
    destruct (decide (i ∈ ids)) as [Hin|Hin]; [by rewrite decide_True by set_solver|].
    destruct (decide (i = id)); [by rewrite decide_True by set_solver|].
    by rewrite decide_False by set_solver.
Qed.

Lemma family_fs st st' :
  is_fs st' = is_fs st →
  (∀ p, im_children <$> is_images st' !! p = im_children <$> is_images st !! p) →
  family_inv st → family_inv st'.
Proof.
  intros Hfs Himg [Hok Hc Hp Hch].
  assert (∀ p, is_Some (is_images st' !! p) ↔ is_Some (is_images st !! p)) as Hdom.
  { intros p. specialize (Himg p). destruct (is_images st' !! p), (is_images st !! p);
      simpl in *; done. }
  split; rewrite ?Hfs; [done|..].
  - intros id Hid. apply Hc. by apply Hdom.
  - intros c p Hcp. apply Hdom. eauto.
  - intros p m c Hm. specialize (Himg p). rewrite Hm in Himg. simpl in Himg.
    symmetry in Himg. apply fmap_Some in Himg as (m0 & Hm0 & ->). by apply Hch.
Qed.

(** The memory of an image that leaves the store. *)
Lemma family_delete st st' id meta :
  family_inv st → is_images st !! id = Some meta →
  rb_ok (is_fs st') →
  (∀ i, content_in st' i = if decide (i = id) then None else content_in st i) →
  (∀ i, parent_in st' i = if decide (i = id) then None
     else if decide (i ∈ im_children meta) then None else parent_in st i) →
  (∀ p m', is_images st' !! p = Some m' → p ≠ id ∧ ∃ m, is_images st !! p = Some m ∧
     ∀ c, c ∈ im_children m' ↔ c ∈ im_children m ∧ c ≠ id) →
  (∀ p, p ≠ id → is_Some (is_images st !! p) → is_Some (is_images st' !! p)) →
  family_inv st'.
Proof.
  intros [_ Hc Hp Hch] Hid Hok' Hc' Hp' Himg Hkeep. split; [done|..].
  - intros i [m' Hm']. destruct (Himg i m' Hm') as (Hi & m & Hm & _).
    rewrite Hc'. rewrite decide_False by done. eauto.
  - intros c p. rewrite Hp'. destruct (decide (c = id)); [done|].
    destruct (decide (c ∈ im_children meta)) as [|Hnc]; [done|]. intros Hcp.
    apply Hkeep; [|by eapply Hp]. intros ->. apply Hnc. by eapply Hch.
  - intros p m' c Hm'. destruct (Himg p m' Hm') as (Hpi & m & Hm & Hcm).
    rewrite Hcm, Hp', (Hch p m c Hm). destruct (decide (c = id)) as [->|Hne]; [naive_solver|].
    destruct (decide (c ∈ im_children meta)) as [Hin|]; [|naive_solver].
    split; [|done]. intros [Hcp _]. apply (Hch id meta c Hid) in Hin. congruence.
Qed.

Lemma unlink_children st id p m' :
  is_images (match parent_in st id with
             | Some p => update_children (λ cs, cs ∖ {[id]}) p st
             | None => st
             end) !! p = Some m' →
  ∃ m, is_images st !! p = Some m ∧
    im_children m' =
      if decide (parent_in st id = Some p) then im_children m ∖ {[id]} else im_children m.
Proof.
  destruct (rb_parent _ id) as [q|]; [|by eauto].
  intros (m & Hm & _ & Hcs)%update_children_lookup. exists m. split; [done|]. rewrite Hcs.
  destruct (decide (q = p)) as [->|Hne]; [by rewrite decide_True|].
  rewrite decide_False; [done|]. congruence.
Qed.

Lemma unlink_dom st id p :
  is_Some (is_images st !! p) →
  is_Some (is_images (match parent_in st id with
             | Some p => update_children (λ cs, cs ∖ {[id]}) p st
             | None => st
             end) !! p).
Proof.
  rewrite <- !elem_of_dom. destruct (rb_parent _ id); [|done].
  by rewrite update_children_dom.
Qed.

(** What [Delete] does to the backend and to the children, whether or not the
    release of the layer succeeds. *)
Lemma Delete_effect st id meta :
  image_inv st → family_inv st → is_images st !! id = Some meta →
  let st' := (imageStore_Delete st id).1 in
  rb_ok (is_fs st') ∧
  (∀ i, content_in st' i = if decide (i = id) then None else content_in st i) ∧
  (∀ i, parent_in st' i = if decide (i = id) then None
     else if decide (i ∈ im_children meta) then None else parent_in st i) ∧
  (∀ p m', is_images st' !! p = Some m' → p ≠ id ∧ ∃ m, is_images st !! p = Some m ∧
     ∀ c, c ∈ im_children m' ↔ c ∈ im_children m ∧ c ≠ id) ∧
  (∀ p, p ≠ id → is_Some (is_images st !! p) → is_Some (is_images st' !! p)).
Proof.
  intros Hinv Hfam Hid. cbn zeta. unfold imageStore_Delete. rewrite Hid.
  destruct (ii_valid _ Hinv id meta Hid) as [Hvid Hvc].
  destruct (delete_parents_reliable st (elements (im_children meta))) as
    (f1 & -> & Hok1 & Hc1 & Hp1); [apply Hfam|by apply Forall_forall; set_solver|]. simpl.
  rewrite (unlink_parent_reliable (with_fs st f1) id) by done. simpl.
  set (st1 := match rb_parent f1 id with Some _ => _ | None => _ end).
  assert (is_fs st1 = f1) as Hfs1 by (unfold st1; by destruct (rb_parent f1 id)).
  unfold call_fs; simpl. rewrite Hfs1.
  destruct (rb_Delete f1 id Hok1 Hvid) as (f2 & o & -> & Ho & Hok2 & Hc2 & Hp2).
  match goal with |- context [and_then (ignore_error (?s, o)) ?k] =>
    set (st2 := s); set (kont := k) end.
  assert (∀ st', is_fs st' = f2 → is_images st' = is_images st2 →
    rb_ok (is_fs st') ∧
    (∀ i, content_in st' i = if decide (i = id) then None else content_in st i) ∧
    (∀ i, parent_in st' i = if decide (i = id) then None
       else if decide (i ∈ im_children meta) then None else parent_in st i) ∧
    (∀ p m', is_images st' !! p = Some m' → p ≠ id ∧ ∃ m, is_images st !! p = Some m ∧
       ∀ c, c ∈ im_children m' ↔ c ∈ im_children m ∧ c ≠ id) ∧
    (∀ p, p ≠ id → is_Some (is_images st !! p) → is_Some (is_images st' !! p))) as Hall.
  { intros st' -> ->. simpl. split_and!; [done|..].
    - intros i. rewrite Hc2, Hc1. done.
    - intros i. rewrite Hp2, Hp1. destruct (decide (i = id)); [done|].
      destruct (decide (i ∈ im_children meta)); [by rewrite decide_True by set_solver|].
      by rewrite decide_False by set_solver.
    - intros p m' [Hne Hm']%lookup_delete_Some. split; [done|].
      destruct (unlink_children (with_fs st f1) id p m' Hm') as (m & Hm & ->).
      exists m. split; [done|]. intros c. simpl. case_decide as Hpar; [set_solver|].
      split; [|by intros []]. intros Hc. split; [done|]. intros ->. apply Hpar.
      rewrite Hp1. apply (fi_children _ Hfam p m id Hm) in Hc. rewrite decide_False; [done|].
      intros Hin%elem_of_elements. apply (fi_children _ Hfam id meta id Hid) in Hin. congruence.
    - intros p Hp Hin. rewrite lookup_delete_ne by done.
      by apply (unlink_dom (with_fs st f1)). }
  destruct Ho as [Hno1 Hno2]. destruct o; [| |by destruct (Hno1 msg)|done]; subst kont; simpl.
  all: destruct (im_layer meta); [|by apply Hall]; unfold call_ls.
  all: match goal with |- context [lg_Release ?a ?b] => destruct (lg_Release a b) end;
    by apply Hall.
Qed.

Lemma family_Delete st id :
  image_inv st → family_inv st → family_inv (imageStore_Delete st id).1.
Proof.
  intros Hinv Hfam. destruct (is_images st !! id) as [meta|] eqn:Hid.
  - destruct (Delete_effect st id meta Hinv Hfam Hid) as (? & ? & ? & ? & ?).
    by apply (family_delete st _ id meta).
  - unfold imageStore_Delete. by rewrite Hid.
Qed.

(** [SetParent] of an image whose content the backend has. *)
Lemma family_SetParent st id p :
  image_inv st → family_inv st → is_Some (content_in st id) →
  family_inv (imageStore_SetParent st id p).1.
Proof.
  intros Hinv Hfam Hcid. unfold imageStore_SetParent.
  destruct (is_images st !! p) as [pm|] eqn:Hp; [|done].
  assert (valid_id id) as Hvid by (eapply rb_valid; [apply Hfam|done]).
  rewrite unlink_parent_reliable by (done || apply Hfam). simpl.
  set (st1 := match parent_in st id with Some _ => _ | None => _ end).
  assert (is_fs st1 = is_fs st) as Hfs1 by (unfold st1; by destruct (rb_parent _ id)).
  unfold call_fs; simpl. rewrite Hfs1.
  destruct (rb_SetMetadata (is_fs st) id p) as (f & -> & Hok & Hc & Hpar);
    [apply Hfam|done|]. simpl.
  split; simpl; [done|..].
  - intros i Hi. rewrite Hc. apply (fi_content _ Hfam).
    apply elem_of_dom in Hi. rewrite dom_alter_L in Hi. apply elem_of_dom.
    revert Hi. unfold st1. destruct (rb_parent _ id); [|done]. by rewrite update_children_dom.
  - intros c q. rewrite Hpar. intros Hcq. apply elem_of_dom. rewrite dom_alter_L, elem_of_dom.
    apply unlink_dom. destruct (decide (c = id)); [by simplify_eq; eauto|].
    by eapply (fi_parent _ Hfam).
  - intros q m c. rewrite Hpar.
    intros (m1 & Hm1 & _ & Hcs)%(update_children_lookup st1 (λ cs, {[id]} ∪ cs) p).
    destruct (unlink_children st id q m1 Hm1) as (m0 & Hm0 & Hcs1).
    pose proof (fi_children _ Hfam q m0 c Hm0) as Hch.
    pose proof (fi_children _ Hfam q m0 id Hm0) as Hchid.
    rewrite Hcs, Hcs1. destruct (decide (c = id)) as [->|Hne].
    + repeat case_decide; simplify_eq; set_solver.
    + rewrite <- Hch. repeat case_decide; simplify_eq; set_solver.
Qed.

(** The backend stored a configuration that decodes. *)
Lemma family_set st f config :
  family_inv st → decodes config → rb_ok f →
  (∀ i, rb_content f i =
     if decide (i = digest_FromBytes config) then Some config else content_in st i) →
  (∀ i, rb_parent f i = parent_in st i) →
  family_inv (with_fs st f).
Proof.
  intros [_ Hc Hp Hch] Hdec Hok Hcf Hpf. split; simpl; [done|..].
  - intros i Hi. rewrite Hcf. case_decide; [by eauto|]. by apply Hc.
  - intros c p. rewrite Hpf. apply Hp.
  - intros p m c. rewrite Hpf. apply Hch.
Qed.

(** A new image has no children yet. *)
Lemma family_insert st id l :
  family_inv st → is_images st !! id = None →
  (∃ config, content_in st id = Some config ∧ decodes config) →
  family_inv (with_images st (<[id := mkImageMeta l ∅]> (is_images st))).
Proof.
  intros [Hok Hc Hp Hch] Hid Hcid. split; simpl; [done|..].
  - intros i. rewrite lookup_insert. case_decide; [by intros; simplify_eq|]. apply Hc.
  - intros c p Hcp. rewrite lookup_insert. case_decide; [by eauto|]. by eapply Hp.
  - intros p m c. rewrite lookup_insert. case_decide; [|apply Hch].
    intros; simplify_eq/=. split; [set_solver|]. intros Hcp%Hp.
    rewrite Hid in Hcp. by destruct Hcp.
Qed.

Lemma family_digestSet st d : family_inv st → family_inv (with_digestSet st d).
Proof. by apply family_fs. Qed.
Lemma family_ls st s : family_inv st → family_inv (with_ls st s).
Proof. by apply family_fs. Qed.

Lemma family_create_locked st r id :
  family_inv st → (∃ config, content_in st id = Some config ∧ decodes config) →
  family_inv (create_locked st r id).1.
Proof.
  intros Hfam Hc. unfold create_locked.
  destruct (is_images st !! id) as [m|] eqn:Hid.
  { by rewrite decide_True by eauto. }
  rewrite decide_False by (by intros []). unfold retain_layer.
  assert (∀ st' l, family_inv st' → is_images st' = is_images st → is_fs st' = is_fs st →
    family_inv (let st := with_images st' (<[id := mkImageMeta l ∅]> (is_images st')) in
       match ds_Add (is_digestSet st) id with
       | (d, Some e) =>
           let st := with_digestSet st d in
           (with_images st (delete id (is_images st)), Err e)
       | (d, None) => (with_digestSet st d, Ok id)
       end).1) as Hins.
  { intros st' l Hfam' Himg Hfs. simpl. destruct (ds_Add _ id) as [d [e|]]; simpl.
    - apply (family_fs (with_digestSet st' d)); [done| |by apply family_digestSet].
      intros p. simpl. rewrite delete_insert_id; [done|]. by rewrite Himg.
    - apply (family_digestSet (with_images st' _)), family_insert; [done| |].
      + by rewrite Himg.
      + by rewrite Hfs. }
  case_decide; [by apply Hins|]. unfold call_ls.
  destruct (lg_Get _ _) as [s [l| | |]]; cbn [and_then]; try by apply family_ls.
  apply (Hins (with_ls st s) (Some l)); [by apply family_ls|done..].
Qed.

Lemma family_Create st config :
  family_inv st → has_rootfs config → family_inv (imageStore_Create st config).1.
Proof.
  intros Hfam Hroot. unfold imageStore_Create.
  destruct (json_Unmarshal config) as [|img] eqn:Hj; [done|].
  destruct (Hroot img Hj) as [r Hr]. rewrite Hr. case_decide; [done|].
  assert (decodes config) as Hdec by (unfold decodes, NewFromJSON; rewrite Hj, Hr; eauto).
  unfold call_fs. destruct (rb_Set (is_fs st) config (fi_ok _ Hfam)) as
    [(-> & e & ->)|(f & -> & Hok & Hc & Hp)]; simpl; [by rewrite with_fs_id|].
  apply family_create_locked; [by eapply family_set|]. simpl. rewrite Hc.
  rewrite decide_True by done. eauto.
Qed.

(** ** Runs *)

Definition valid_family_op st (op : image_op) : Prop :=
  valid_image_op op ∧
  match op with ISetParent id _ => is_Some (content_in st id) | _ => True end.

Lemma imagesMap_loop_state all st ids acc :
  rb_ok (is_fs st) → Forall valid_id ids → (imagesMap_loop all st ids acc).1 = st.
Proof.
  intros Hok. revert acc. induction ids as [|id ids IH]; intros acc Hids; [done|].
  cbn [imagesMap_loop]. apply Forall_cons in Hids as [Hid Hids].
  case_decide; [by apply IH|]. rewrite Get_reliable by done. simpl. by apply IH.
Qed.

Lemma fst_let_void {S A} (r : S * outcome string A) :
  (let '(s, o) := r in (s, void o)).1 = r.1.
Proof. by destruct r. Qed.

Lemma family_call st op :
  image_inv st → family_inv st → valid_family_op st op → family_inv (image_call st op).1.
Proof.
  intros Hinv Hfam [Hop Hc].
  destruct op as [config|id|id|id p|all]; simpl in *; rewrite ?fst_let_void.
  - by apply family_Create.
  - by rewrite <- or_none_state, Get_reliable by (done || apply Hfam).
  - by apply family_Delete.
  - by apply family_SetParent.
  - unfold imageStore_imagesMap. rewrite imagesMap_loop_state; [done|apply Hfam|].
    by apply images_valid.
Qed.

Lemma family_run st ops :
  image_inv st → family_inv st → valid_calls image_call valid_family_op st ops →
  image_inv (image_run st ops).1 ∧ family_inv (image_run st ops).1.
Proof.
  intros Hinv Hfam Hops.
  apply (run_calls_inv image_call valid_family_op (λ st, image_inv st ∧ family_inv st));
    [|done|done].
  intros st' op [Hinv' Hfam'] Hop. pose proof (family_call st' op Hinv' Hfam' Hop) as H.
  pose proof (image_call_safe st' op Hinv' (proj1 Hop)) as Hs.
  by destruct (image_call st' op) as [st'' []].
Qed.

(** ** Heads *)

Lemma imagesMap_loop_spec all st ids acc :
  rb_ok (is_fs st) → Forall valid_id ids → NoDup ids →
  (∀ id, id ∈ ids → ∃ config, content_in st id = Some config ∧ decodes config) →
  ∃ images, imagesMap_loop all st ids acc = (st, Ok images) ∧
    ∀ id, is_Some (images !! id) ↔ is_Some (acc !! id) ∨
      id ∈ ids ∧ ¬ (all = false ∧ 0 < length (imageStore_children st id)).
Proof.
  intros Hok. revert acc. induction ids as [|id ids IH]; intros acc Hids Hnd Hc.
  { exists acc. split; [done|]. set_solver. }
  cbn [imagesMap_loop]. apply Forall_cons in Hids as [Hid Hids].
  apply NoDup_cons in Hnd as [Hnid Hnd].
  case_decide as Hskip.
  - destruct (IH acc Hids Hnd) as (images & -> & Him); [set_solver|]. exists images.
    split; [done|]. intros i. rewrite Him. set_solver.
  - destruct (Hc id) as (config & Hconf & img & Himg); [set_solver|].
    rewrite Get_reliable by done. rewrite Hconf; simpl. rewrite Himg; simpl.
    edestruct IH as (images & -> & Him); [done..|set_solver|]. exists images.
    split; [done|]. intros i. rewrite Him, lookup_insert.
    destruct (decide (id = i)) as [->|Hne]; set_solver.
Qed.

Lemma children_spec st p c :
  family_inv st → is_Some (is_images st !! p) →
  c ∈ imageStore_children st p ↔ parent_in st c = Some p.
Proof.
  intros Hfam [m Hm]. unfold imageStore_children. rewrite Hm, elem_of_elements.
  by apply (fi_children _ Hfam).
Qed.

Lemma Heads_spec st :
  image_inv st → family_inv st →
  ∃ heads, imageStore_Heads st = (st, Ok heads) ∧
    ∀ id, is_Some (heads !! id) ↔
      is_Some (is_images st !! id) ∧ ∀ c, parent_in st c ≠ Some id.
Proof.
  intros Hinv Hfam. unfold imageStore_Heads, imageStore_imagesMap.
  destruct (imagesMap_loop_spec false st (elements (dom (is_images st))) ∅) as
    (heads & -> & Hh); [apply Hfam|by apply images_valid|apply NoDup_elements| |].
  { intros id Hid%elem_of_elements%elem_of_dom. by apply (fi_content _ Hfam). }
  exists heads. split; [done|]. intros id.
  rewrite Hh, elem_of_elements, elem_of_dom, lookup_empty. split.
  - intros [[]|[Hid Hno]]; [done|]. split; [done|]. intros c Hc. apply Hno. split; [done|].
    apply (children_spec st id c Hfam Hid) in Hc.
    by destruct (imageStore_children st id); [apply elem_of_nil in Hc|simpl; lia].
  - intros [Hid Hno]. right. split; [done|]. intros [_ Hlen].
    destruct (imageStore_children st id) as [|c cs] eqn:Hcs; [simpl in Hlen; lia|].
    apply (Hno c). apply (children_spec st id c Hfam Hid). rewrite Hcs. by left.
Qed.

(** ** Opening the store again *)

Section restart.
(** The layers a layer store can hand out. *)
Context (avail : L → string → Prop).
Hypothesis avail_Get : ∀ s c, lg_ok s → avail s c →
  ∃ s' r, lg_Get s c = (s', Ok r) ∧ ∀ c', avail s c' → avail s' c'.

(** The configuration decodes, and the layer it names is there. *)
Definition restorable (s : L) (config : string) : Prop :=
  ∃ img r, NewFromJSON config = Ok img ∧ img_RootFS img = Some r ∧
    (RootFS_ChainID r ≠ "" → avail s (RootFS_ChainID r)).

Lemma retain_layer_avail st c :
  lg_ok (is_ls st) → (c ≠ "" → avail (is_ls st) c) →
  ∃ s l, retain_layer st c = (with_ls st s, Ok l) ∧ lg_ok s ∧
    ∀ c', avail (is_ls st) c' → avail s c'.
Proof.
  intros Hok Hav. unfold retain_layer. case_decide as Hc.
  { exists (is_ls st), None. by destruct st. }
  destruct (avail_Get (is_ls st) c Hok (Hav Hc)) as (s & r & Hget & Hkeep).
  pose proof (lg_Get_spec (is_ls st) c Hok) as Hs. unfold call_ls. rewrite Hget in *.
  exists s, (Some r). split_and!; [done|apply Hs|done].
Qed.

Lemma restore_id_reliable st id config :
  rb_ok (is_fs st) → lg_ok (is_ls st) → valid_id id →
  content_in st id = Some config → restorable (is_ls st) config →
  ∃ st', restore_id st id = (st', Ok tt) ∧ is_fs st' = is_fs st ∧ lg_ok (is_ls st') ∧
    (∀ c, avail (is_ls st) c → avail (is_ls st') c) ∧
    ∀ i, im_children <$> is_images st' !! i =
      if decide (i = id) then Some ∅ else im_children <$> is_images st !! i.
Proof.
  intros Hrb Hok Hid Hc (img & r & Himg & Hr & Hav). unfold restore_id.
  rewrite Get_reliable by done. rewrite Hc; simpl. rewrite Himg; simpl. rewrite Hr.
  destruct (retain_layer_avail st (RootFS_ChainID r) Hok Hav) as (s & l & -> & Hok' & Hkeep).
  simpl. destruct (ds_Add_valid (is_digestSet st) id Hid) as [Hadd _].
  destruct (ds_Add _ id) as [d e]; simpl in Hadd; subst e.
  eexists. split_and!; [done..|]. simpl. intros i. rewrite lookup_insert.
  destruct (decide (i = id)) as [->|Hne]; [by rewrite decide_True|].
  by rewrite decide_False by congruence.
Qed.

Lemma restore_walk_reliable st ids :
  rb_ok (is_fs st) → lg_ok (is_ls st) → Forall valid_id ids →
  (∀ id, id ∈ ids → ∃ config, content_in st id = Some config ∧
     restorable (is_ls st) config) →
  ∃ st', restore_walk st ids = (st', Ok tt) ∧ is_fs st' = is_fs st ∧ lg_ok (is_ls st') ∧
    ∀ i, im_children <$> is_images st' !! i =
      if decide (i ∈ ids) then Some ∅ else im_children <$> is_images st !! i.
Proof.
  revert st. induction ids as [|id ids IH]; intros st Hrb Hok Hids Hc; [by exists st|].
  apply Forall_cons in Hids as [Hid Hids]. cbn [restore_walk].
  destruct (Hc id) as (config & Hconf & Hres); [set_solver|].
  destruct (restore_id_reliable st id config Hrb Hok Hid Hconf Hres) as
    (st1 & -> & Hfs1 & Hok1 & Hkeep & Him1).
  destruct (IH st1) as (st' & Hst' & Hfs' & Hok' & Him'); [by rewrite Hfs1|done..| |].
  { rewrite Hfs1. intros i Hi. destruct (Hc i) as (ci & Hci & (img & r & ? & ? & ?));
      [set_solver|]. exists ci. split; [done|]. exists img, r. auto. }
  exists st'. split_and!; [done|congruence|done|]. intros i. rewrite Him', Him1.
  repeat case_decide; set_solver.
Qed.

Lemma restore_children_reliable st ids :
  rb_ok (is_fs st) → Forall valid_id ids →
  ∃ st', restore_children st ids = (st', Ok tt) ∧ is_fs st' = is_fs st ∧
    dom (is_images st') = dom (is_images st) ∧
    ∀ p m', is_images st' !! p = Some m' → ∃ m, is_images st !! p = Some m ∧
      ∀ c, c ∈ im_children m' ↔ c ∈ im_children m ∨ c ∈ ids ∧ parent_in st c = Some p.
Proof.
  revert st. induction ids as [|id ids IH]; intros st Hrb Hids.
  { exists st. split_and!; [done..|]. intros p m Hm. exists m. set_solver. }
  apply Forall_cons in Hids as [Hid Hids]. cbn [restore_children]. unfold restore_child.
  rewrite GetParent_reliable by done. simpl.
  destruct (rb_parent (is_fs st) id) as [q|] eqn:Hq; simpl.
  - destruct (IH (update_children (λ cs, {[id]} ∪ cs) q st) Hrb Hids) as
      (st' & -> & Hfs & Hdom & Him). exists st'.
    split_and!; [done..|by rewrite Hdom, update_children_dom|].
    intros p m' Hm'. destruct (Him p m' Hm') as (m1 & Hm1 & Hc1).
    destruct (update_children_lookup _ _ _ _ _ Hm1) as (m & Hm & _ & Hcs).
    exists m. split; [done|]. intros c. rewrite Hc1, Hcs. simpl.
    destruct (decide (q = p)) as [->|Hne]; [set_solver|]. set_solver by congruence.
  - destruct (IH st Hrb Hids) as (st' & -> & Hfs & Hdom & Him). exists st'.
    split_and!; [done..|]. intros p m' Hm'. destruct (Him p m' Hm') as (m & Hm & Hc).
    exists m. split; [done|]. intros c. rewrite Hc. set_solver by congruence.
Qed.

(** C17: Opening the store again: a consistent store whose backend has no I/O errors
    and no other contents than its images, and whose configurations all name a rootfs
    with an available layer, is restored by [NewImageStore] on the same backend with
    the same images and the same children of each. *)
Theorem restart_restores_images st (ls : L) :
  family_inv st → lg_ok ls →
  (∀ id, is_Some (content_in st id) → is_Some (is_images st !! id)) →
  (∀ id config, content_in st id = Some config → restorable ls config) →
  ∃ st', NewImageStore (is_fs st) ls = (st', Ok tt) ∧ is_fs st' = is_fs st ∧
    ∀ p, im_children <$> is_images st' !! p = im_children <$> is_images st !! p.
Proof.
  intros Hfam Hok Honly Hres. unfold NewImageStore, imageStore_restore, call_fs; simpl.
  destruct (rb_Walk (is_fs st) (fi_ok _ Hfam)) as (ids & -> & _ & Hids). simpl.
  set (st0 := with_fs _ _).
  assert (Forall valid_id ids) as Hvids.
  { apply Forall_forall. intros id Hid%Hids. eapply rb_valid; [apply Hfam|done]. }
  destruct (restore_walk_reliable st0 ids) as (st1 & -> & Hfs1 & _ & Him1);
    [apply Hfam|done..| |].
  { intros id [config Hc]%Hids. exists config. split; [done|]. by eapply Hres. }
  assert (∀ id, id ∈ dom (is_images st1) ↔ id ∈ ids) as Hdom1.
  { intros id. specialize (Him1 id). rewrite elem_of_dom.
    destruct (is_images st1 !! id); case_decide; simpl in *; naive_solver. }
  cbn [and_then]. destruct (restore_children_reliable st1 (elements (dom (is_images st1)))) as
    (st' & -> & Hfs' & Hdom' & Him'); [rewrite Hfs1; apply Hfam| |].
  { apply Forall_forall. intros id Hid%elem_of_elements%Hdom1.
    by eapply Forall_forall in Hvids. }
  exists st'. split_and!; [done|by rewrite Hfs', Hfs1|]. intros p.
  assert (is_Some (is_images st' !! p) ↔ is_Some (is_images st !! p)) as Hp.
  { rewrite <- !elem_of_dom, Hdom', Hdom1, Hids, elem_of_dom. split; [apply Honly|].
    intros (config & Hc & _)%(fi_content _ Hfam). by rewrite Hc. }
  destruct (is_images st' !! p) as [m'|] eqn:Hm', (is_images st !! p) as [m|] eqn:Hm;
    [|by destruct Hp as [[] _]; eauto|by destruct Hp as [_ []]; eauto|done].
  simpl. f_equal. apply set_eq. intros c. destruct (Him' p m' Hm') as (m1 & Hm1 & Hc1).
  rewrite Hc1, (fi_children _ Hfam p m c Hm), elem_of_elements, Hdom1, Hfs1, Hids.
  specialize (Him1 p). rewrite Hm1 in Him1. rewrite decide_True in Him1.
  - simpl in Him1. injection Him1 as ->. split; [set_solver|]. intros Hpc. right.
    split; [|done]. eapply rb_parent_content; [apply Hfam|by eexists].
  - apply Hdom1. by apply elem_of_dom_2 in Hm1.
Qed.
End restart.

(** C16: With a backend without I/O errors, from a consistent store and after any
    sequence of calls whose configurations have a rootfs, whose identifiers are valid
    and which set the parent only of images that the backend has: the children the
    store reports for an image are exactly those whose parent is that image, every
    parent is an image of the store, and [Heads] returns exactly the images that are
    no image's parent. *)
Theorem children_inverse_of_parents st ops :
  image_inv st → family_inv st → valid_calls image_call valid_family_op st ops →
  let st' := (image_run st ops).1 in
  (∀ p c, is_Some (is_images st' !! p) →
     c ∈ imageStore_children st' p ↔ parent_in st' c = Some p) ∧
  (∀ c p, parent_in st' c = Some p → is_Some (is_images st' !! p)) ∧
  ∃ heads, imageStore_Heads st' = (st', Ok heads) ∧
    ∀ id, is_Some (heads !! id) ↔
      is_Some (is_images st' !! id) ∧ ∀ c, parent_in st' c ≠ Some id.
Proof.
  intros Hinv Hfam Hops st'. destruct (family_run st ops Hinv Hfam Hops) as [Hinv' Hfam'].
  split_and!.
  - intros p c. by apply children_spec.
  - apply (fi_parent _ Hfam').
  - by apply Heads_spec.
Qed.

(** ** Two behaviours of the code to note *)

(** A [SetParent] that fails because the backend has no content for [id] still
    enters [id] among the children of the new parent, which is then no head. *)
Lemma SetParent_failure_keeps_child st id p m e :
  image_inv st → family_inv st → valid_id id →
  is_images st !! p = Some m →
  be_SetMetadata (is_fs st) id "parent" p = (is_fs st, Err e) →
  content_in st id = None →
  ∃ st', imageStore_SetParent st id p = (st', Err e) ∧ id ∈ imageStore_children st' p ∧
    parent_in st' id = None.
Proof.
  intros Hinv Hfam Hid Hp Hset Hc. unfold imageStore_SetParent. rewrite Hp.
  rewrite unlink_parent_reliable by (done || apply Hfam).
  assert (parent_in st id = None) as Hpar.
  { destruct (rb_parent _ id) eqn:Hpa; [|done].
    destruct (rb_parent_content (is_fs st) id (fi_ok _ Hfam)) as [? Hn]; [by rewrite Hpa|].
    congruence. }
  rewrite Hpar. simpl. unfold call_fs; simpl. rewrite Hset. eexists.
  split_and!; [done| |by simpl]. unfold imageStore_children; simpl.
  rewrite lookup_alter_eq, Hp. simpl. set_solver.
Qed.

(** [restore] gives up on the first configuration whose layer is missing: as
    [Create] writes the configuration before it asks for the layer, a [Create]
    that failed for a missing layer keeps the store from being opened again. *)
Lemma restore_walk_missing_layer st ids id config img r :
  rb_ok (is_fs st) → Forall valid_id ids → id ∈ ids →
  content_in st id = Some config → NewFromJSON config = Ok img → img_RootFS img = Some r →
  RootFS_ChainID r ≠ "" →
  (∀ s, ∃ s' e, lg_Get s (RootFS_ChainID r) = (s', Err e)) →
  (restore_walk st ids).2 ≠ Ok tt.
Proof.
  intros Hrb Hids Hin Hc Himg Hr Hne Hget. revert st Hrb Hc.
  induction ids as [|i ids IH]; intros st Hrb Hc; [set_solver|].
  apply Forall_cons in Hids as [Hi Hids]. cbn [restore_walk]. unfold restore_id.
  rewrite Get_reliable by done. destruct (decide (i = id)) as [->|Hii].
  - rewrite Hc; simpl. rewrite Himg; simpl. rewrite Hr. unfold retain_layer, call_ls.
    rewrite decide_False by done. by destruct (Hget (is_ls st)) as (s' & e & ->).
  - assert (id ∈ ids) as Hin' by set_solver. cbn [and_then].
    destruct (_ ≫= _) as [img'|]; [|by apply IH].
    destruct (img_RootFS img') as [r'|]; [|done]. unfold retain_layer, call_ls.
    case_decide; cbn [and_then].
    + destruct (ds_Add _ i) as [d []]; [done|]. cbn [and_then]. by apply IH.
    + destruct (lg_Get _ _) as [s' []]; [|done..]. cbn [and_then].
      destruct (ds_Add _ i) as [d []]; [done|]. cbn [and_then]. by apply IH.
Qed.
End image_family.
