(* ===== verification/ImageFS.v ===== *)
(** * image: the file-system backend of the image store

    The model of image/fs.go, and the proof that it implements what the image
    store relies on: [BackendSafe] whatever the operating system answers, and
    [ReliableBackend] as long as no call of the operating system fails.

    The disk and the operating system are those of OS. *)

From S2P Require Import Prelude OS Layer ImageStore ImageInv ImageFamily.

(** ** image/fs.go *)

Record fsBackend := mkFs { fs_root : string; fs_disk : disk }.

Definition contentDirName : string := "content".
Definition metadataDirName : string := "metadata".
Definition Canonical : string := "sha256".

(** A call of the operating system. *)
Definition call_os {A} (s : fsBackend) (f : disk → disk * outcome string A) :
    fsBackend * outcome string A :=
  let '(d, r) := f (fs_disk s) in (mkFs (fs_root s) d, r).

Definition newFSStore (root : string) (d : disk) : fsBackend * outcome string unit :=
  let s := mkFs root d in
  let! (s, _) := call_os s (λ d, os_MkdirAll d [root; contentDirName; Canonical]) in
  call_os s (λ d, os_MkdirAll d [root; metadataDirName; Canonical]).

(** [Digest.Algorithm] and [Digest.Hex] panic on a string without a colon. *)
Definition digest_path (s : fsBackend) (dir id : string) : outcome string path :=
  match cut_at ":" id with
  | Some (alg, hex) => Ok [fs_root s; dir; alg; hex]
  | None => Panic (String.append "could not find ':' in digest: " id)
  end.
Definition fs_contentFile (s : fsBackend) (id : string) := digest_path s contentDirName id.
Definition fs_metadataDir (s : fsBackend) (id : string) := digest_path s metadataDirName id.

(** [digest.NewDigestFromHex]. *)
Definition NewDigestFromHex (alg hex : string) : string :=
  String.append alg (String ":" hex).

Section image_fs.
Context {Tar Desc : Type} {ext : LayerExt Tar Desc} {iext : ImageExt}.
Implicit Types (s : fsBackend) (id : string).

Definition fs_Walk s : fsBackend * outcome string (list string) :=
  let! (s, names) :=
    call_os s (λ d, ioutil_ReadDir d [fs_root s; contentDirName; Canonical]) in
  (s, Ok (filter (λ dgst, digest_Validate dgst = None) (NewDigestFromHex Canonical <$> names))).

Definition fs_get s id : fsBackend * outcome string string :=
  let! (s, p) := (s, fs_contentFile s id) in
  let! (s, content) := call_os s (λ d, os_ReadFile d p) in
  if decide (digest_FromBytes content = id) then (s, Ok content)
  else (s, Err (String.append "failed to verify image: " id)).

(** [Get] is [get] under the lock. *)
Definition fs_Get s id := fs_get s id.

Definition fs_Set s (data : string) : fsBackend * outcome string string :=
  if decide (data = "") then (s, Err "Invalid empty data")
  else
    let id := digest_FromBytes data in
    let! (s, p) := (s, fs_contentFile s id) in
    let! (s, _) := call_os s (λ d, AtomicWriteFile d p data) in
    (s, Ok id).

Definition fs_Delete s id : fsBackend * outcome string unit :=
  let! (s, mp) := (s, fs_metadataDir s id) in
  let! (s, _) := call_os s (λ d, os_RemoveAll d mp) in
  let! (s, cp) := (s, fs_contentFile s id) in
  call_os s (λ d, os_Remove d cp).

Definition fs_SetMetadata s id (key data : string) : fsBackend * outcome string unit :=
  let! (s, _) := fs_get s id in
  let! (s, baseDir) := (s, fs_metadataDir s id) in
  let! (s, _) := call_os s (λ d, os_MkdirAll d baseDir) in
  call_os s (λ d, AtomicWriteFile d (baseDir ++ [key]) data).

Definition fs_GetMetadata s id (key : string) : fsBackend * outcome string string :=
  let! (s, _) := fs_get s id in
  let! (s, mp) := (s, fs_metadataDir s id) in
  call_os s (λ d, os_ReadFile d (mp ++ [key])).

Definition fs_DeleteMetadata s id (key : string) : fsBackend * outcome string unit :=
  let! (s, mp) := (s, fs_metadataDir s id) in
  call_os s (λ d, os_RemoveAll d (mp ++ [key])).

#[global] Instance fs_StoreBackend : StoreBackend fsBackend := {|
  be_Walk := fs_Walk;
  be_Get := fs_Get;
  be_Set := fs_Set;
  be_Delete := fs_Delete;
  be_SetMetadata := fs_SetMetadata;
  be_GetMetadata := fs_GetMetadata;
  be_DeleteMetadata := fs_DeleteMetadata
|}.

(** ** Whatever the operating system answers *)

(** What is documented of digests: [FromBytes] uses the canonical algorithm and
    gives a valid digest; a valid digest has a colon. *)
Class DigestLaws := {
  dl_FromBytes c : valid_id (digest_FromBytes c);
  dl_canonical c : ∃ hex, digest_FromBytes c = NewDigestFromHex Canonical hex;
  dl_colon id : valid_id id → is_Some (cut_at ":" id)
}.
Context {dl : DigestLaws}.

Lemma NewDigestFromHex_inj alg hex hex' :
  NewDigestFromHex alg hex = NewDigestFromHex alg hex' → hex = hex'.
Proof. unfold NewDigestFromHex. by intros [= ?]%(inj (String.append alg)). Qed.

(** Calls of the operating system do not panic. *)
Lemma call_os_safe {A} s (f : disk → disk * outcome string A) (P : A → Prop) :
  (∀ d, safe (f d) (λ _ a, P a) (λ _ _, True)) →
  safe (call_os s f) (λ s' a, fs_root s' = fs_root s ∧ P a) (λ _ _, True).
Proof. intros Hf. unfold call_os. specialize (Hf (fs_disk s)). by destruct (f _) as [d []]. Qed.

Ltac os_safe :=
  intros d; unfold os_ReadFile, os_MkdirAll, AtomicWriteFile, os_Remove, os_RemoveAll,
    from_option;
  destruct (next_fault d) as [? []]; simpl; try done; by repeat case_match.

Lemma digest_path_valid s dir id :
  valid_id id → ∃ alg hex, cut_at ":" id = Some (alg, hex) ∧
    digest_path s dir id = Ok [fs_root s; dir; alg; hex].
Proof.
  intros [[alg hex] Hc]%dl_colon. exists alg, hex. unfold digest_path. by rewrite Hc.
Qed.

Lemma fs_get_safe s id :
  valid_id id →
  safe (fs_get s id) (λ _ c, digest_FromBytes c = id) (λ _ _, True).
Proof.
  intros Hid. unfold fs_get, fs_contentFile.
  destruct (digest_path_valid s contentDirName id Hid) as (alg & hex & _ & ->). simpl.
  apply safe_bind. eapply safe_mono; [apply (call_os_safe _ _ (λ _, True))| |done]; [os_safe|].
  intros s' c _. by case_decide.
Qed.

Ltac fs_step :=
  apply safe_bind;
  eapply safe_mono; [apply (call_os_safe _ _ (λ _, True)); os_safe| |done]; intros ? _ _.

Ltac fs_last :=
  eapply safe_mono; [apply (call_os_safe _ _ (λ _, True)); os_safe|done|done].

#[global] Program Instance fs_BackendSafe : BackendSafe fsBackend.
Next Obligation.
  intros s. cbn. unfold fs_Walk. apply safe_bind.
  eapply safe_mono; [apply (call_os_safe _ _ (λ names, NoDup names))| |done].
  { intros d. unfold ioutil_ReadDir. destruct (next_fault d) as [d' []]; simpl; [done|].
    apply dir_names_NoDup. }
  intros s' names [_ Hnd]. simpl. split.
  - apply Forall_forall. intros x [Hx _]%list_elem_of_filter. done.
  - apply NoDup_filter. apply NoDup_fmap_2; [|done]. intros a b. apply NewDigestFromHex_inj.
Qed.
Next Obligation. intros s id Hid. by apply fs_get_safe. Qed.
Next Obligation.
  intros s c. cbn. unfold fs_Set, fs_contentFile. case_decide; [done|].
  destruct (digest_path_valid s contentDirName (digest_FromBytes c)) as (alg & hex & _ & ->);
    [apply dl_FromBytes|]. cbn [and_then]. fs_step. split; [done|apply dl_FromBytes].
Qed.
Next Obligation.
  intros s id Hid. cbn. unfold fs_Delete, fs_metadataDir, fs_contentFile.
  destruct (digest_path_valid s metadataDirName id Hid) as (alg & hex & _ & ->).
  cbn [and_then]. fs_step.
  match goal with |- context [digest_path ?s ?d id] =>
    destruct (digest_path_valid s d id Hid) as (alg' & hex' & _ & ->) end.
  cbn [and_then]. fs_last.
Qed.
Next Obligation.
  intros s id k v Hid. cbn. unfold fs_SetMetadata, fs_metadataDir.
  apply safe_bind. eapply safe_mono; [by apply fs_get_safe| |done]. intros s1 c _.
  destruct (digest_path_valid s1 metadataDirName id Hid) as (alg & hex & _ & ->).
  cbn [and_then]. fs_step. fs_last.
Qed.
Next Obligation.
  intros s id k Hid. cbn. unfold fs_GetMetadata, fs_metadataDir.
  apply safe_bind. eapply safe_mono; [by apply fs_get_safe| |done]. intros s1 c _.
  destruct (digest_path_valid s1 metadataDirName id Hid) as (alg & hex & _ & ->).
  cbn [and_then]. fs_last.
Qed.
Next Obligation.
  intros s id k Hid. cbn. unfold fs_DeleteMetadata, fs_metadataDir.
  destruct (digest_path_valid s metadataDirName id Hid) as (alg & hex & _ & ->).
  cbn [and_then]. fs_last.
Qed.

(** ** When the operating system does not fail *)

Definition content_path s (alg hex : string) : path := [fs_root s; contentDirName; alg; hex].
Definition meta_path s (alg hex key : string) : path :=
  [fs_root s; metadataDirName; alg; hex; key].

Abbreviation files s := (d_files (fs_disk s)).

(** The disk holds the contents, each under its digest, and metadata of
    contents. *)
Definition fs_ok s : Prop :=
  d_faults (fs_disk s) = [] ∧
  ∀ p data, files s !! p = Some data →
    (∃ hex, p = content_path s Canonical hex ∧
       digest_FromBytes data = NewDigestFromHex Canonical hex) ∨
    (∃ hex key, p = meta_path s Canonical hex key ∧
       is_Some (files s !! content_path s Canonical hex)).

Definition fs_content s id : option string :=
  '(alg, hex) ← cut_at ":" id; files s !! content_path s alg hex.
Definition fs_parent s id : option string :=
  '(alg, hex) ← cut_at ":" id; files s !! meta_path s alg hex "parent".

Lemma cut_canonical hex : cut_at ":" (NewDigestFromHex Canonical hex) = Some (Canonical, hex).
Proof. by apply cut_at_append. Qed.

Lemma cut_eq id alg hex : cut_at ":" id = Some (alg, hex) → id = NewDigestFromHex alg hex.
Proof. by intros [-> _]%cut_at_Some. Qed.

Lemma cut_inj id id' x : cut_at ":" id = Some x → cut_at ":" id' = Some x → id = id'.
Proof. destruct x. intros ->%cut_eq ->%cut_eq. done. Qed.

Lemma fs_content_Some s id data :
  fs_ok s → fs_content s id = Some data →
  ∃ hex, id = NewDigestFromHex Canonical hex ∧ digest_FromBytes data = id ∧
    cut_at ":" id = Some (Canonical, hex).
Proof.
  intros [_ Hok]. unfold fs_content. destruct (cut_at ":" id) as [[alg hex]|] eqn:Hc; [|done].
  simpl. intros Hd. apply cut_eq in Hc as ->.
  destruct (Hok _ _ Hd) as [(hex' & Heq & Hdig)|(hex' & key & Heq & _)]; [|done].
  injection Heq as -> ->. by exists hex'.
Qed.

Lemma fs_parent_content s id :
  fs_ok s → is_Some (fs_parent s id) → is_Some (fs_content s id).
Proof.
  intros [_ Hok] [v Hv]. unfold fs_parent, fs_content in *.
  destruct (cut_at ":" id) as [[alg hex]|]; [|done]. simpl in *.
  destruct (Hok _ _ Hv) as [(hex' & Heq & _)|(hex' & key & Heq & Hc)]; [done|].
  injection Heq as -> -> _. done.
Qed.

(** A call that does not fail. *)
Lemma no_fault s : fs_ok s → next_fault (fs_disk s) = (fs_disk s, None).
Proof. intros [Hf _]. unfold next_fault. by rewrite Hf. Qed.

Lemma mkFs_eta s : mkFs (fs_root s) (fs_disk s) = s.
Proof. by destruct s. Qed.

Lemma fs_get_ok s id :
  fs_ok s → valid_id id →
  ∃ e, fs_get s id = (s, from_option Ok (Err e) (fs_content s id)).
Proof.
  intros Hok Hid. unfold fs_get, fs_contentFile, call_os, os_ReadFile.
  destruct (digest_path_valid s contentDirName id Hid) as (alg & hex & Hc & ->). simpl.
  rewrite no_fault by done. rewrite mkFs_eta.
  destruct (fs_content s id) as [data|] eqn:Hd.
  - destruct (fs_content_Some s id data Hok Hd) as (_ & _ & Hdig & _).
    unfold fs_content in Hd. rewrite Hc in Hd. simpl in Hd. unfold content_path in Hd.
    rewrite Hd. simpl. exists "". by rewrite decide_True.
  - unfold fs_content in Hd. rewrite Hc in Hd. simpl in Hd. unfold content_path in Hd.
    rewrite Hd. simpl. eauto.
Qed.

Lemma fs_Walk_ok s :
  fs_ok s → ∃ ids, fs_Walk s = (s, Ok ids) ∧ NoDup ids ∧
    ∀ id, id ∈ ids ↔ is_Some (fs_content s id).
Proof.
  intros Hok. unfold fs_Walk, call_os, ioutil_ReadDir. rewrite no_fault by done.
  simpl. rewrite mkFs_eta. eexists. split_and!; [done|..].
  - apply NoDup_filter, NoDup_fmap_2; [|apply dir_names_NoDup].
    intros a b. apply NewDigestFromHex_inj.
  - intros id. rewrite list_elem_of_filter, list_elem_of_fmap. split.
    + intros (_ & name & -> & Hn%elem_of_dir_names). unfold fs_content.
      by rewrite cut_canonical.
    + intros [data Hd]. destruct (fs_content_Some s id data Hok Hd) as (hex & Hid & Hdig & Hc).
      split; [rewrite <- Hdig; apply dl_FromBytes|]. exists hex. split; [done|].
      apply elem_of_dir_names. unfold fs_content in Hd. rewrite Hc in Hd. simpl in Hd.
      by eexists.
Qed.

Lemma fs_Set_ok s c :
  fs_ok s → c ≠ "" →
  ∃ s', fs_Set s c = (s', Ok (digest_FromBytes c)) ∧ fs_ok s' ∧
    (∀ i, fs_content s' i =
       if decide (i = digest_FromBytes c) then Some c else fs_content s i) ∧
    (∀ i, fs_parent s' i = fs_parent s i).
Proof.
  intros Hok Hc. unfold fs_Set, fs_contentFile, call_os, AtomicWriteFile, digest_path.
  rewrite decide_False by done. destruct (dl_canonical c) as [hex Hdig]. rewrite Hdig.
  rewrite cut_canonical. cbn [and_then]. rewrite no_fault by done. eexists.
  split_and!; [done|split; [apply Hok|]|..]; simpl.
  - intros p data. rewrite lookup_insert. case_decide as Hp.
    + intros [= <-]. left. exists hex. by subst p.
    + intros [?|(hex' & key & ? & Hin)]%(proj2 Hok); [by left|]. right.
      exists hex', key. split; [done|]. simpl. rewrite lookup_insert. case_decide; [by eauto|done].
  - intros i. unfold fs_content; simpl.
    destruct (cut_at ":" i) as [[alg h]|] eqn:Hi; simpl.
    + rewrite lookup_insert. unfold content_path; simpl.
      case_decide as He; [injection He as -> ->; by apply cut_eq in Hi as ->; rewrite decide_True|].
      rewrite decide_False; [done|]. intros ->. rewrite cut_canonical in Hi. by simplify_eq.
    + rewrite decide_False; [done|]. intros ->. by rewrite cut_canonical in Hi.
  - intros i. unfold fs_parent; simpl. destruct (cut_at ":" i) as [[alg h]|]; [|done]. simpl.
    by rewrite lookup_insert_ne.
Qed.

Lemma fs_SetMetadata_ok s id v :
  fs_ok s → is_Some (fs_content s id) →
  ∃ s', fs_SetMetadata s id "parent" v = (s', Ok tt) ∧ fs_ok s' ∧
    (∀ i, fs_content s' i = fs_content s i) ∧
    (∀ i, fs_parent s' i = if decide (i = id) then Some v else fs_parent s i).
Proof.
  intros Hok [data Hd]. destruct (fs_content_Some s id data Hok Hd) as (hex & Hid & Hdig & Hc).
  assert (valid_id id) as Hv by (rewrite <- Hdig; apply dl_FromBytes).
  unfold fs_SetMetadata. destruct (fs_get_ok s id Hok Hv) as [e ->]. rewrite Hd; simpl.
  unfold fs_metadataDir, digest_path. rewrite Hc. cbn [and_then].
  unfold call_os, os_MkdirAll, AtomicWriteFile. rewrite no_fault by done. cbn [and_then fs_disk].
  rewrite no_fault by done. eexists. split_and!; [done|split; [apply Hok|]|..]; simpl.
  - intros p x. rewrite lookup_insert. case_decide as Hp.
    + intros _. right. exists hex, "parent". split; [done|].
      rewrite lookup_insert_ne by done. unfold fs_content in Hd. rewrite Hc in Hd. by exists data.
    + intros [?|(hex' & key & ? & Hin)]%(proj2 Hok); [by left|]. right.
      exists hex', key. split; [done|]. simpl. by rewrite lookup_insert_ne.
  - intros i. unfold fs_content; simpl. destruct (cut_at ":" i) as [[alg h]|]; [|done]. simpl.
    by rewrite lookup_insert_ne.
  - intros i. unfold fs_parent; simpl.
    destruct (cut_at ":" i) as [[alg h]|] eqn:Hi; simpl.
    + rewrite lookup_insert. unfold meta_path; simpl.
      case_decide as He; [injection He as ? ?; subst alg h; by rewrite decide_True by (by eapply cut_inj)|].
      rewrite decide_False; [done|]. intros ->. by simplify_eq.
    + rewrite decide_False; [done|]. intros ->. by simplify_eq.
Qed.

(** The disk after some metadata, and then possibly one content, was removed. *)
Lemma fs_remove s id alg hex (Q : path → Prop) `{!∀ p, Decision (Q p)} (del : bool) :
  let s' := mkFs (fs_root s) (with_files (fs_disk s)
    (let m := filter (λ kv, ¬ Q kv.1) (files s) in
     if del then delete (content_path s alg hex) m else m)) in
  fs_ok s → cut_at ":" id = Some (alg, hex) →
  (∀ a h, ¬ Q (content_path s a h)) →
  (∀ a h, Q (meta_path s a h "parent") ↔ a = alg ∧ h = hex) →
  (del = true → ∀ key, Q (meta_path s alg hex key)) →
  fs_ok s' ∧
  (∀ i, fs_content s' i = if decide (del = true ∧ i = id) then None else fs_content s i) ∧
  (∀ i, fs_parent s' i = if decide (i = id) then None else fs_parent s i).
Proof.
  intros s' Hok Hid Hcont Hmeta Hall.
  assert (∀ p x, files s' !! p = Some x → files s !! p = Some x ∧ ¬ Q p ∧
    ¬ (del = true ∧ p = content_path s alg hex)) as Hback.
  { intros p x. simpl. destruct del.
    - intros [? [? ?]%map_lookup_filter_Some]%lookup_delete_Some. naive_solver.
    - intros [? ?]%map_lookup_filter_Some. naive_solver. }
  assert (∀ p x, files s !! p = Some x → ¬ Q p → ¬ (del = true ∧ p = content_path s alg hex) →
    files s' !! p = Some x) as Hforth.
  { intros p x Hp HQ Hne. simpl. destruct del.
    - rewrite lookup_delete_ne by naive_solver. by apply map_lookup_filter_Some.
    - by apply map_lookup_filter_Some. }
  split_and!.
  - split; [apply Hok|]. intros p x (Hp & HnQ & Hne)%Hback.
    destruct (proj2 Hok _ _ Hp) as [?|(h & key & -> & [y Hy])]; [by left|]. right.
    exists h, key. split; [done|]. exists y. apply Hforth; [done|apply Hcont|].
    intros [Hdel Heq]. injection Heq as <- <-. apply HnQ. by apply Hall.
  - intros i. unfold fs_content. destruct (cut_at ":" i) as [[a h]|] eqn:Hi; simpl.
    + apply option_eq. intros x. case_decide as Hdi.
      * destruct Hdi as [Hdel ->]. simplify_eq. split; [|done].
        intros (_ & _ & Hne)%Hback. by destruct Hne.
      * split; [by intros []%Hback|]. intros Hx. apply Hforth; [done|apply Hcont|].
        intros [Hdel Heq]. injection Heq as -> ->. apply Hdi. split; [done|]. by eapply cut_inj.
    + by case_decide.
  - intros i. unfold fs_parent. destruct (cut_at ":" i) as [[a h]|] eqn:Hi; simpl.
    + apply option_eq. intros x. case_decide as Hdi.
      * subst i. simplify_eq. split; [|done]. intros (_ & HnQ & _)%Hback.
        destruct HnQ. by apply Hmeta.
      * split; [by intros []%Hback|]. intros Hx. apply Hforth; [done| |by intros [_ ?]].
        intros [-> ->]%Hmeta. apply Hdi. by eapply cut_inj.
    + by case_decide.
Qed.

Lemma fs_Delete_ok s id :
  fs_ok s → valid_id id →
  ∃ s' o, fs_Delete s id = (s', o) ∧ no_crash o ∧ fs_ok s' ∧
    (∀ i, fs_content s' i = if decide (i = id) then None else fs_content s i) ∧
    (∀ i, fs_parent s' i = if decide (i = id) then None else fs_parent s i).
Proof.
  intros Hok [[alg hex] Hc]%dl_colon. unfold fs_Delete, fs_metadataDir, fs_contentFile.
  unfold digest_path. rewrite Hc. cbn [and_then]. unfold call_os, os_RemoveAll, os_Remove.
  rewrite no_fault by done. cbn [and_then fs_disk fs_root].
  set (Q := λ p : path, under [fs_root s; metadataDirName; alg; hex] p).
  assert (∀ a h, ¬ Q (content_path s a h)) as Hcont.
  { intros a h [k Hk]. unfold content_path in Hk. by simplify_eq/=. }
  assert (∀ a h k, Q (meta_path s a h k) ↔ a = alg ∧ h = hex) as Hmeta.
  { intros a h k. split; [intros [t Ht]; unfold meta_path in Ht; by simplify_eq/=|].
    intros [-> ->]. by exists [k]. }
  unfold next_fault, with_files; cbn [d_faults]. rewrite (proj1 Hok). cbn [d_files].
  destruct (filter _ _ !! _) as [x|] eqn:Hx.
  - destruct (fs_remove s id alg hex Q true Hok Hc Hcont) as (Hok' & Hc' & Hp');
      [by intros; apply Hmeta|by intros; apply Hmeta|].
    eexists _, _. split_and!; [done|by split|..]; unfold with_files in *;
      rewrite ?(proj1 Hok) in *; [exact Hok'| |exact Hp'].
    intros i. etrans; [apply Hc'|]. by repeat case_decide; naive_solver.
  - destruct (fs_remove s id alg hex Q false Hok Hc Hcont) as (Hok' & Hc' & Hp');
      [by intros; apply Hmeta|done|].
    eexists _, _. split_and!; [done|by split|..]; unfold with_files in *;
      rewrite ?(proj1 Hok) in *; [exact Hok'| |exact Hp'].
    intros i. etrans; [apply Hc'|]. rewrite decide_False by naive_solver.
    destruct (decide (i = id)) as [->|]; [|done]. unfold fs_content. rewrite Hc. simpl.
    apply map_lookup_filter_None in Hx as [Hx|Hx]; [done|].
    destruct (files s !! content_path s alg hex) as [y|] eqn:Hy; [|done].
    destruct (Hx y Hy). intros HQ. by eapply Hcont.
Qed.

Lemma fs_DeleteMetadata_ok s id :
  fs_ok s → valid_id id →
  ∃ s', fs_DeleteMetadata s id "parent" = (s', Ok tt) ∧ fs_ok s' ∧
    (∀ i, fs_content s' i = fs_content s i) ∧
    (∀ i, fs_parent s' i = if decide (i = id) then None else fs_parent s i).
Proof.
  intros Hok [[alg hex] Hc]%dl_colon. unfold fs_DeleteMetadata, fs_metadataDir.
  unfold digest_path. rewrite Hc. cbn [and_then]. unfold call_os, os_RemoveAll.
  rewrite no_fault by done.
  destruct (fs_remove s id alg hex
    (λ p, under ([fs_root s; metadataDirName; alg; hex] ++ ["parent"]) p) false Hok Hc)
    as (Hok' & Hc' & Hp').
  - intros a h [k Hk]. unfold content_path in Hk. by simplify_eq/=.
  - intros a h. split; [intros [t Ht]; unfold meta_path in Ht; by simplify_eq/=|].
    intros [-> ->]. by exists [].
  - done.
  - eexists. split_and!; [done|exact Hok'| |exact Hp'].
    intros i. etrans; [apply Hc'|]. by rewrite decide_False by naive_solver.
Qed.

Lemma fs_GetMetadata_ok s id :
  fs_ok s → valid_id id →
  ∃ e, fs_GetMetadata s id "parent" = (s, from_option Ok (Err e) (fs_parent s id)).
Proof.
  intros Hok Hid. unfold fs_GetMetadata. destruct (fs_get_ok s id Hok Hid) as [e ->].
  destruct (fs_content s id) as [data|] eqn:Hd; simpl.
  - destruct (fs_content_Some s id data Hok Hd) as (hex & _ & _ & Hc).
    unfold fs_metadataDir, digest_path, call_os, os_ReadFile. rewrite Hc. cbn [and_then].
    rewrite no_fault by done. rewrite mkFs_eta. unfold fs_parent. rewrite Hc. by eexists.
  - exists e. destruct (fs_parent s id) eqn:Hp; [|done].
    destruct (fs_parent_content s id Hok) as [? Hn]; [by eexists|]. congruence.
Qed.

#[global] Program Instance fs_Reliable : ReliableBackend fsBackend := {|
  rb_ok := fs_ok;
  rb_content := fs_content;
  rb_parent := fs_parent
|}.
Next Obligation. apply fs_parent_content. Qed.
Next Obligation.
  intros s id Hok [data Hd]. destruct (fs_content_Some s id data Hok Hd) as (_ & _ & Hdig & _).
  rewrite <- Hdig. apply dl_FromBytes.
Qed.
Next Obligation. apply fs_Walk_ok. Qed.
Next Obligation. apply fs_get_ok. Qed.
Next Obligation.
  intros s c Hok. destruct (decide (c = "")) as [->|Hc]; [left|right; by apply fs_Set_ok].
  split; [done|]. by eexists.
Qed.
Next Obligation. apply fs_Delete_ok. Qed.
Next Obligation. apply fs_SetMetadata_ok. Qed.
Next Obligation. apply fs_GetMetadata_ok. Qed.
Next Obligation. apply fs_DeleteMetadata_ok. Qed.

Lemma newFSStore_ok root :
  newFSStore root (mkDisk ∅ []) = (mkFs root (mkDisk ∅ []), Ok tt) ∧
  fs_ok (mkFs root (mkDisk ∅ [])).
Proof. split; [done|]. split; [done|]. intros p data. simpl. by rewrite lookup_empty. Qed.
End image_fs.
