(* ===== verification/ImageWitness.v ===== *)
(** * The image store on concrete inputs

    The image store over the file-system backend of ImageFS, the layer store of
    LayerWitness, a digest set kept as a finite set and a toy decoder of
    configurations; the theorems on the image store applied to it. *)

From S2P Require Import Prelude OS Layer LayerInv LayerSafe LayerWitness.
From S2P Require Import ImageStore ImageInv ImageLayer ImageFamily ImageFS.

(** Digests are "sha256:" followed by the bytes themselves. *)
Definition demo_validate (d : string) : option string :=
  match cut_at ":" d with
  | Some (alg, _) => if decide (alg = Canonical) then None else Some "unsupported digest algorithm"
  | None => Some "invalid checksum digest format"
  end.

(** A configuration is "no rootfs", "scratch", or lists the layer "base". *)
Definition demo_decode (c : string) : string + Image :=
  if decide (c = "") then inl "unexpected end of JSON input"
  else if decide (c = "no rootfs") then inr (mkImage "" None [] "" "")
  else if decide (c = "scratch") then inr (mkImage "" (Some NewRootFS) [] "" "")
  else inr (mkImage "" (Some (RootFS_Append NewRootFS "d:base")) [mkHistory "" "" "ADD" "" false] "" "").

#[export] Instance demo_iext : ImageExt := {|
  json_Unmarshal := demo_decode;
  digest_Validate := demo_validate
|}.

#[export] Instance demo_digest_laws : DigestLaws.
Proof.
  split.
  - intros c. unfold valid_id; simpl. done.
  - intros c. by exists c.
  - intros id. unfold valid_id; simpl. unfold demo_validate.
    destruct (cut_at ":" id); [by eauto|done].
Qed.

#[export] Instance demo_digest_set : DigestSet (gset string) := {|
  ds_NewSet := ∅;
  ds_Add d x := if decide (demo_validate x = None) then ({[x]} ∪ d, None) else (d, Some "invalid");
  ds_Remove d x := if decide (demo_validate x = None) then (d ∖ {[x]}, None) else (d, Some "invalid");
  ds_Lookup d t :=
    if decide (t ∈ d) then inr t
    else if decide (("sha256:" +:+ t)%string ∈ d) then inr ("sha256:" +:+ t)%string
    else inl ErrDigestNotFound
|}.

#[export] Program Instance demo_digest_set_laws : DigestSetLaws (gset string) :=
  {| ds_elems d := d |}.
Next Obligation. done. Qed.
Next Obligation. intros d x Hx. simpl. by rewrite decide_True. Qed.
Next Obligation. intros d x Hx. simpl. by rewrite decide_True. Qed.
Next Obligation. intros d t x. simpl. repeat case_decide; intros; simplify_eq; done. Qed.
Next Obligation. intros d x Hx _. simpl. by rewrite decide_True. Qed.

Abbreviation demo_istore := (imageStore fsBackend (layerStore (list string) nat unit) (gset string)).

(** A layer store with the layer "base", and an empty backend. *)
Definition demo_layers : layerStore (list string) nat unit :=
  (layer_run demo_store [LRegister "base" "" tt]).1.
Definition demo_fs (faults : list (option fault)) : fsBackend :=
  mkFs "/var/lib/docker/image" (mkDisk ∅ faults).
Definition demo_images (faults : list (option fault)) : demo_istore :=
  (NewImageStore (demo_fs faults) demo_layers).1.

Lemma demo_layers_ok : lg_ok demo_layers.
Proof. apply layer_run_inv; [apply empty_store_inv|]. vm_compute. done. Qed.

Definition demo_image_ops : list image_op :=
  [ ICreate "parent"; ICreate "child"; ISetParent "sha256:child" "sha256:parent";
    ICreate "scratch"; IGet "sha256:child"; IMap false; IDelete "sha256:parent" ].

Lemma demo_has_rootfs c : c ≠ "no rootfs" → has_rootfs c.
Proof.
  intros Hc img. simpl. unfold demo_decode. repeat case_decide; intros; simplify_eq/=; eauto.
Qed.

Lemma demo_image_ops_valid : Forall valid_image_op demo_image_ops.
Proof. repeat constructor; simpl; try apply demo_has_rootfs; done. Qed.

(** One write of the backend fails on the way. *)
Definition demo_faults : list (option fault) :=
  [None; None; None; None; None; Some (mkFault "no space left on device" ∅)].

Lemma image_store_retains_layers_witness :
  let st := demo_images demo_faults in
  let st' := (image_run st demo_image_ops).1 in
  elements (dom (is_images st')) = ["sha256:scratch"; "sha256:child"] ∧
  (∀ id m, is_images st' !! id = Some m →
     image_layer (is_ls st') id (im_layer m) ∧ imageStore_Search st' id = Ok id).
Proof.
  split; [vm_compute; reflexivity|].
  refine (proj1 (image_store_retains_layers (demo_fs demo_faults) demo_layers demo_image_ops
    (demo_images demo_faults) demo_layers_ok _ demo_image_ops_valid)).
  vm_compute. reflexivity.
Defined.

(** A store with a parent and a child. *)
Definition demo_setup : list image_op :=
  [ICreate "parent"; ICreate "child"; ISetParent "sha256:child" "sha256:parent"].
Definition demo_family : demo_istore := (image_run (demo_images []) demo_setup).1.

Lemma demo_images_inv : image_inv (demo_images []) ∧ family_inv (demo_images []).
Proof.
  split.
  - pose proof (NewImageStore_safe (DS := gset string) (demo_fs []) demo_layers demo_layers_ok) as H.
    apply (safe_state _ _ H).
  - split; simpl.
    + apply (proj2 (newFSStore_ok "/var/lib/docker/image")).
    + by intros id [].
    + intros c p. unfold fs_parent; simpl. destruct (cut_at ":" c) as [[]|]; [|done]. by simpl.
    + done.
Qed.

Lemma demo_setup_valid : valid_calls image_call valid_family_op (demo_images []) demo_setup.
Proof.
  split; [split; [by apply demo_has_rootfs|done]|].
  split; [split; [by apply demo_has_rootfs|done]|].
  split; [split; [done|vm_compute; by eexists]|]. done.
Qed.

Lemma demo_family_inv : image_inv demo_family ∧ family_inv demo_family.
Proof.
  destruct demo_images_inv. apply family_run; [done..|exact demo_setup_valid].
Qed.

Lemma Delete_releases_reference_witness :
  (im_layer <$> is_images demo_family !! "sha256:parent") =
    Some (Some (referencedCacheLayer 2 0)) ∧
  safe (imageStore_Delete demo_family "sha256:parent")
    (λ st' _, deleted "sha256:parent" demo_family st')
    (λ st' _, deleted "sha256:parent" demo_family st').
Proof.
  split; [vm_compute; reflexivity|].
  eapply (Delete_releases_reference demo_family "sha256:parent").
  - apply demo_family_inv.
  - vm_compute. reflexivity.
Defined.

Lemma demo_no_grandchild c : rb_parent (is_fs demo_family) c ≠ Some "sha256:child".
Proof.
  intros Hc. destruct demo_family_inv as [_ Hfam].
  assert (imageStore_children demo_family "sha256:child" = []) as Hnil
    by (vm_compute; reflexivity).
  pose proof (proj2 (children_spec demo_family "sha256:child" c Hfam
    (fi_parent _ Hfam _ _ Hc)) Hc) as Hin.
  rewrite Hnil in Hin. by apply elem_of_nil in Hin.
Qed.

Lemma children_inverse_of_parents_witness :
  imageStore_children demo_family "sha256:parent" = ["sha256:child"] ∧
  ∃ heads, imageStore_Heads demo_family = (demo_family, Ok heads) ∧
    is_Some (heads !! "sha256:child") ∧ ¬ is_Some (heads !! "sha256:parent").
Proof.
  split; [vm_compute; reflexivity|].
  destruct (children_inverse_of_parents (demo_images []) demo_setup
    (proj1 demo_images_inv) (proj2 demo_images_inv) demo_setup_valid) as (_ & _ & heads & Hh & Hi).
  exists heads. split; [exact Hh|]. split.
  - apply Hi. split; [vm_compute; by eexists|]. exact demo_no_grandchild.
  - intros [_ Hno]%Hi. apply (Hno "sha256:child"). vm_compute. reflexivity.
Defined.

(** What the files of the demo backend are, checked by computation. *)
Definition demo_file_ok (p : path) (data : string) : bool :=
  match p with
  | [_; _; alg; hex] =>
      bool_decide (is_Some (is_images demo_family !! NewDigestFromHex alg hex)) &&
      bool_decide (data = "parent" ∨ data = "child")
  | _ => true
  end.

Lemma demo_files_ok :
  map_Forall (λ p data, demo_file_ok p data = true) (d_files (fs_disk (is_fs demo_family))).
Proof. apply (bool_decide_unpack _). vm_compute. exact I. Qed.

Lemma demo_content id data :
  rb_content (is_fs demo_family) id = Some data →
  is_Some (is_images demo_family !! id) ∧ (data = "parent" ∨ data = "child").
Proof.
  intros Hd. change (fs_content (is_fs demo_family) id = Some data) in Hd.
  unfold fs_content in Hd. destruct (cut_at ":" id) as [[alg hex]|] eqn:Hc; [|discriminate Hd].
  cbn [mbind option_bind] in Hd. pose proof (demo_files_ok _ _ Hd) as Hok.
  unfold demo_file_ok, content_path in Hok. apply andb_true_iff in Hok as [H1 H2].
  apply bool_decide_eq_true in H1, H2. apply cut_eq in Hc. subst id.
  exact (conj H1 H2).
Qed.

Lemma restart_restores_images_witness :
  ∃ st', NewImageStore (is_fs demo_family) demo_layers = (st', Ok tt) ∧
    is_fs st' = is_fs demo_family ∧
    ∀ p, im_children <$> is_images st' !! p = im_children <$> is_images demo_family !! p.
Proof.
  apply (restart_restores_images (λ ls c, is_Some (ls_layerMap ls !! c))
           layerStore_Get_available demo_family demo_layers).
  - apply demo_family_inv.
  - exact demo_layers_ok.
  - intros id [data Hd]. exact (proj1 (demo_content id data Hd)).
  - intros id data Hd. destruct (proj2 (demo_content id data Hd)) as [-> | ->];
      eexists _, _; (split; [vm_compute; reflexivity|]);
      (split; [vm_compute; reflexivity|]); intros _; vm_compute; by eexists.
Defined.
