(* ===== verification/RefStore.v ===== *)
(** * reference: image references and the tag store

    The model of reference/reference.go, reference/utils.go and
    reference/store.go, with [ValidateID] of image/v1.  The syntax of names, tags
    and digests is that of docker/distribution/reference, the class [RefExt].

    The store keeps the repositories, a map from repository names to maps from
    references (as strings) to image identifiers, and a cache of the references of
    each image; every change is saved to a file.  The maps of the source are
    shared by pointer only between [store.Repositories] and a local variable of
    the same operation.  The file is the last value of [Repositories] that was
    saved; a scripted failure may make a save or the reading fail. *)

From S2P Require Import Prelude GoStrings.

(** ** References (reference/reference.go) *)

Inductive Named :=
| namedRef (name : string)
| taggedRef (name tag : string)
| canonicalRef (name digest : string).

#[global] Instance Named_eq_dec : EqDecision Named.
Proof. solve_decision. Defined.

Definition Named_Name (r : Named) : string :=
  match r with namedRef n | taggedRef n _ | canonicalRef n _ => n end.
Definition Named_String (r : Named) : string :=
  match r with
  | namedRef n => n
  | taggedRef n t => n +:+ ":" +:+ t
  | canonicalRef n d => n +:+ "@" +:+ d
  end.

(** docker/distribution/reference: the checks of [WithName], [WithTag] and
    [WithDigest], and [ParseNamed], which returns the name, the tag and the digest
    it found ("" for none). *)
Class RefExt := {
  dist_WithName : string → option string;
  dist_valid_tag : string → bool;
  dist_valid_digest : string → bool;
  dist_ParseNamed : string → string + (string * string * string);
  dist_SplitHostname : string → string * string
}.

Definition DefaultTag : string := "latest".
Definition DefaultHostname : string := "docker.io".
Definition LegacyDefaultHostname : string := "index.docker.io".
Definition DefaultRepoPrefix : string := "library/".

Definition is_hex (c : ascii) : bool :=
  let n := nat_of_ascii c in
  bool_decide (48 ≤ n ≤ 57) || bool_decide (97 ≤ n ≤ 102).

(** v1.ValidateID: 64 lower-case hexadecimal characters. *)
Definition ValidateID (id : string) : bool :=
  bool_decide (String.length id = 64) && forall_chars is_hex id.

Definition splitHostname (name : string) : string * string :=
  let '(hostname, remoteName) :=
    match cut_at "/" name with
    | None => ("", name)
    | Some (h, r) =>
        if negb (ContainsAny h ".:") && bool_decide (h ≠ "localhost")
        then ("", name) else (h, r)
    end in
  let hostname :=
    if decide (hostname = LegacyDefaultHostname) then DefaultHostname else hostname in
  let remoteName :=
    if decide (hostname = DefaultHostname ∧ contains_char "/" remoteName = false)
    then DefaultRepoPrefix +:+ remoteName else remoteName in
  (hostname, remoteName).

Definition Named_FullName (r : Named) : string :=
  let '(hostname, remoteName) := splitHostname (Named_Name r) in
  if decide (hostname = "") then remoteName else hostname +:+ "/" +:+ remoteName.
Definition Named_Hostname (r : Named) : string := (splitHostname (Named_Name r)).1.
Definition Named_RemoteName (r : Named) : string := (splitHostname (Named_Name r)).2.

Definition normalize (name : string) : outcome string string :=
  let '(host, remoteName) := splitHostname name in
  if decide (ToLower remoteName ≠ remoteName)
  then Err "invalid reference format: repository name must be lowercase"
  else if decide (host = DefaultHostname)
  then Ok (host +:+ "/" +:+ TrimPrefix remoteName DefaultRepoPrefix)
  else Ok name.

Definition validateName (name : string) : outcome string unit :=
  if ValidateID (TrimPrefix name (DefaultHostname +:+ "/"))
  then Err ("Invalid repository name (" +:+ name +:+
            "), cannot specify 64-byte hexadecimal strings")
  else Ok tt.

(** Sequencing of pure calls that may fail. *)
Definition obind {E A B} (r : outcome E A) (k : A → outcome E B) : outcome E B :=
  match r with
  | Ok a => k a
  | Err e => Err e
  | Panic m => Panic m
  | Diverge => Diverge
  end.

Section references.
Context {rext : RefExt}.

Definition WithName (name : string) : outcome string Named :=
  obind (normalize name) (λ name,
  obind (validateName name) (λ _,
  match dist_WithName name with Some e => Err e | None => Ok (namedRef name) end)).

Definition WithTag (name : Named) (tag : string) : outcome string Named :=
  if dist_valid_tag tag then Ok (taggedRef (Named_Name name) tag)
  else Err "invalid tag format".

Definition WithDigest (name : Named) (digest : string) : outcome string Named :=
  if dist_valid_digest digest then Ok (canonicalRef (Named_Name name) digest)
  else Err "invalid digest format".

Definition ParseNamed (s : string) : outcome string Named :=
  match dist_ParseNamed s with
  | inl _ => Err ("Error parsing reference: " +:+ s +:+ " is not a valid repository/tag")
  | inr (name, tag, digest) =>
      obind (WithName name) (λ r,
      if decide (digest ≠ "") then WithDigest r digest
      else if decide (tag ≠ "") then WithTag r tag
      else Ok r)
  end.

Definition IsNameOnly (r : Named) : bool :=
  match r with namedRef _ => true | _ => false end.

(** The error of [WithTag] is dropped, and a nil reference then returned: [None]. *)
Definition WithDefaultTag (r : Named) : option Named :=
  if IsNameOnly r
  then match WithTag r DefaultTag with Ok r => Some r | _ => None end
  else Some r.

(** ** reference/utils.go *)

Definition SubstituteReferenceName (ref : Named) (reposName : string) :
    outcome string Named :=
  obind (WithName reposName) (λ reposNameRef,
  match ref with
  | taggedRef _ tag => WithTag reposNameRef tag
  | canonicalRef _ digest => WithDigest reposNameRef digest
  | namedRef _ => Ok reposNameRef
  end).

Definition isValidHostname (hostname : string) : bool :=
  bool_decide (hostname ≠ "") && negb (contains_char "/" hostname) &&
  (contains_char "." hostname || contains_char ":" hostname ||
   bool_decide (hostname = "localhost")).

Definition SplitReposName (reposName : Named) : string * outcome string Named :=
  let '(indexName, remoteNameStr) := dist_SplitHostname (Named_Name reposName) in
  if isValidHostname indexName then (indexName, WithName remoteNameStr)
  else ("", Ok reposName).

Definition IsReferenceFullyQualified (reposName : Named) : bool :=
  bool_decide ((SplitReposName reposName).1 ≠ "").

Definition QualifyUnqualifiedReference (ref : Named) (indexName : string) :
    outcome string Named :=
  if isValidHostname indexName then
    let '(orig, remoteName) := SplitReposName ref in
    obind remoteName (λ remoteName,
    if decide (orig = "")
    then SubstituteReferenceName ref (indexName +:+ "/" +:+ Named_Name remoteName)
    else Ok ref)
  else Err ("Invalid hostname " +:+ indexName).

Definition UnqualifyReference (ref : Named) : Named :=
  match (SplitReposName ref).2 with
  | Ok remoteName =>
      match SubstituteReferenceName ref (Named_Name remoteName) with
      | Ok newRef => newRef
      | _ => ref
      end
  | _ => ref
  end.
End references.

(** ** Maps of maps

    [store.Repositories] and [store.referencesByIDCache]: an inner map is created
    when it is first needed and dropped when it becomes empty. *)
Section map2.
Context {A : Type}.
Implicit Types (m : gmap string (gmap string A)).

Definition lookup2 m (k s : string) : option A := m !! k ≫= λ i, i !! s.
Definition insert2 (k s : string) (x : A) m : gmap string (gmap string A) :=
  <[k := <[s := x]> (default ∅ (m !! k))]> m.
Definition delete2 (k s : string) m : gmap string (gmap string A) :=
  match m !! k with
  | None => m
  | Some i =>
      let i := delete s i in
      if decide (size i = 0) then delete k m else <[k := i]> m
  end.
Definition no_empty m : Prop := ∀ k i, m !! k = Some i → i ≠ ∅.

Lemma lookup2_insert2 k s x m k' s' :
  lookup2 (insert2 k s x m) k' s' =
    if decide (k' = k ∧ s' = s) then Some x else lookup2 m k' s'.
Proof.
  unfold lookup2, insert2. destruct (decide (k' = k)) as [->|Hk].
  - rewrite lookup_insert_eq. simpl. destruct (decide (s' = s)) as [->|Hs].
    + by rewrite lookup_insert_eq, decide_True.
    + rewrite lookup_insert_ne by done. rewrite decide_False by naive_solver.
      by destruct (m !! k).
  - rewrite lookup_insert_ne by done. by rewrite decide_False by naive_solver.
Qed.

Lemma lookup2_delete2 k s m k' s' :
  lookup2 (delete2 k s m) k' s' =
    if decide (k' = k ∧ s' = s) then None else lookup2 m k' s'.
Proof.
  unfold lookup2, delete2. destruct (m !! k) as [i|] eqn:Hm.
  - destruct (decide (k' = k)) as [->|Hk].
    + rewrite Hm. simpl. case_decide as Hz.
      * rewrite lookup_delete_eq. simpl. apply map_size_empty_inv in Hz.
        case_decide as Hs; [done|]. rewrite <- (lookup_delete_ne i s s') by naive_solver.
        by rewrite Hz, lookup_empty.
      * rewrite lookup_insert_eq. simpl. rewrite lookup_delete.
        repeat case_decide; naive_solver.
    + rewrite (decide_False (P := k' = k ∧ s' = s)) by naive_solver.
      case_decide; [by rewrite lookup_delete_ne|by rewrite lookup_insert_ne].
  - destruct (decide (k' = k ∧ s' = s)) as [[-> ->]|]; [by rewrite Hm|done].
Qed.

Lemma no_empty_insert2 k s x m : no_empty m → no_empty (insert2 k s x m).
Proof.
  intros Hm k' i. unfold insert2. rewrite lookup_insert. case_decide; [|by apply Hm].
  intros [= <-]. apply insert_non_empty.
Qed.

Lemma no_empty_delete2 k s m : no_empty m → no_empty (delete2 k s m).
Proof.
  intros Hm k' i. unfold delete2. destruct (m !! k) as [j|] eqn:Hk; [|by apply Hm].
  case_decide as Hz.
  - intros [_ Hi]%lookup_delete_Some. by eapply Hm.
  - rewrite lookup_insert. case_decide; [|by apply Hm]. intros [= <-] He.
    apply Hz. by rewrite He, map_size_empty.
Qed.
End map2.

(** ** The store (reference/store.go) *)

Inductive ref_error := ErrDoesNotExist | ErrRef (msg : string).

Abbreviation repositories := (gmap string (gmap string string)).

Record refStore := mkRefStore {
  rs_defaultRegistries : list string;
  rs_Repositories : repositories;
  rs_cache : gmap string (gmap string Named);
  rs_file : option repositories;
  rs_faults : list (option string)
}.

Section ref_store.
Context {rext : RefExt}.
Implicit Types (st : refStore) (ref : Named) (id : string).

Definition with_maps st (r : repositories) (c : gmap string (gmap string Named)) : refStore :=
  mkRefStore (rs_defaultRegistries st) r c (rs_file st) (rs_faults st).

(** [save]: the file is replaced, or the call fails. *)
Definition refStore_save st : refStore * option ref_error :=
  match rs_faults st with
  | Some e :: fs =>
      (mkRefStore (rs_defaultRegistries st) (rs_Repositories st) (rs_cache st)
         (rs_file st) fs, Some (ErrRef e))
  | fs =>
      (mkRefStore (rs_defaultRegistries st) (rs_Repositories st) (rs_cache st)
         (Some (rs_Repositories st)) (tail fs), None)
  end.

Definition addReference st ref id (force : bool) : refStore * outcome ref_error unit :=
  if decide (Named_Name ref = "sha256")
  then (st, Err (ErrRef "refusing to create an ambiguous tag using digest algorithm as name"))
  else
    let refStr := Named_String ref in
    let commit st :=
      let st := with_maps st (insert2 (Named_Name ref) refStr id (rs_Repositories st))
                  (insert2 id refStr ref (rs_cache st)) in
      let '(st, e) := refStore_save st in (st, of_error e) in
    match lookup2 (rs_Repositories st) (Named_Name ref) refStr with
    | None => commit st
    | Some oldID =>
        match ref with
        | canonicalRef _ digest => (st, Err (ErrRef ("Cannot overwrite digest " +:+ digest)))
        | _ =>
            if negb force
            then (st, Err (ErrRef ("Conflict: Tag " +:+ refStr +:+
                   " is already set to image " +:+ oldID +:+
                   ", if you want to replace it, please use -f option")))
            else commit (with_maps st (rs_Repositories st) (delete2 oldID refStr (rs_cache st)))
        end
    end.

Definition nil_ref {A} st : refStore * outcome ref_error A :=
  (st, Panic "invalid memory address or nil pointer dereference").

Definition refStore_AddTag st ref id (force : bool) : refStore * outcome ref_error unit :=
  match ref with
  | canonicalRef _ _ => (st, Err (ErrRef "refusing to create a tag with a digest reference"))
  | _ =>
      match WithDefaultTag ref with
      | None => nil_ref st
      | Some ref => addReference st ref id force
      end
  end.

(** [AddDigest]: its argument has the type [Canonical]. *)
Definition refStore_AddDigest st (name digest id : string) (force : bool) :=
  addReference st (canonicalRef name digest) id force.

(** [addResult] of [getMatchingReferenceList]. *)
Definition addResult (result : list (string * gmap string string)) (name : string)
    (repo : gmap string string) : list (string * gmap string string) :=
  if decide (name ∈ result.*1) then result else result ++ [(name, repo)].

Definition add_existing st (result : list (string * gmap string string)) (name : string) :
    list (string * gmap string string) :=
  match rs_Repositories st !! name with
  | Some r => addResult result name r
  | None => result
  end.

Definition getMatchingReferenceList st ref : list (string * gmap string string) :=
  let result := add_existing st [] (Named_Name ref) in
  if IsReferenceFullyQualified ref then result
  else
    foldl (λ result indexName,
      match QualifyUnqualifiedReference ref indexName with
      | Ok fqRef => add_existing st result (Named_Name fqRef)
      | _ => result
      end) result (rs_defaultRegistries st).

(** The reference of the first matching repository that has [ref], with the name
    of that repository and the image. *)
Fixpoint first_match ref (matching : list (string * gmap string string)) :
    option (string * string * string) :=
  match matching with
  | [] => None
  | (name, repository) :: matching =>
      match SubstituteReferenceName ref name with
      | Ok tmpRef =>
          match repository !! Named_String tmpRef with
          | Some id => Some (name, Named_String tmpRef, id)
          | None => first_match ref matching
          end
      | _ => first_match ref matching
      end
  end.

(** [Delete] returns whether it deleted, and the error of saving. *)
Definition refStore_Delete st ref : refStore * outcome ref_error (bool * option ref_error) :=
  match WithDefaultTag ref with
  | None => nil_ref st
  | Some ref =>
      match first_match ref (getMatchingReferenceList st ref) with
      | Some (name, refStr, id) =>
          let st := with_maps st (delete2 name refStr (rs_Repositories st))
                      (delete2 id refStr (rs_cache st)) in
          let '(st, e) := refStore_save st in (st, Ok (true, e))
      | None => (st, Ok (false, Some ErrDoesNotExist))
      end
  end.

Definition refStore_Get st ref : outcome ref_error string :=
  match WithDefaultTag ref with
  | None => Panic "invalid memory address or nil pointer dereference"
  | Some ref =>
      match first_match ref (getMatchingReferenceList st ref) with
      | Some (_, _, id) => Ok id
      | None => Err ErrDoesNotExist
      end
  end.

Definition ref_le (a b : Named) : Prop := String.le (Named_String a) (Named_String b).
#[local] Instance ref_le_dec : RelDecision ref_le.
Proof. unfold ref_le. intros a b. apply _. Defined.

Definition refStore_References st id : list Named :=
  merge_sort ref_le (map_to_list (default ∅ (rs_cache st !! id))).*2.

Definition assoc_le (a b : Named * string) : Prop := ref_le a.1 b.1.
#[local] Instance assoc_le_dec : RelDecision assoc_le.
Proof. unfold assoc_le. intros a b. apply _. Defined.

(** A reference that does not parse makes [ReferencesByName] return nil. *)
Definition parse_entry (e : string * string) : option (Named * string) :=
  match ParseNamed e.1 with Ok ref => Some (ref, e.2) | _ => None end.

Definition refStore_ReferencesByName st ref : list (Named * string) :=
  match getMatchingReferenceList st ref with
  | [] => []
  | (_, repository) :: _ =>
      match mapM parse_entry (map_to_list repository) with
      | Some associations => merge_sort assoc_le associations
      | None => []
      end
  end.

(** One entry of [reload]'s loops. *)
Definition cache_entry (refStr refID : string) (cache : gmap string (gmap string Named)) :
    gmap string (gmap string Named) :=
  match ParseNamed refStr with
  | Ok ref => insert2 refID refStr ref cache
  | _ => cache
  end.

Definition rebuild_cache (r : repositories) (cache : gmap string (gmap string Named)) :
    gmap string (gmap string Named) :=
  map_fold (λ _ repository cache, map_fold cache_entry cache repository) cache r.

(** [reload]: [Ok false] when there is no file. *)
Definition refStore_reload st : refStore * outcome ref_error bool :=
  match rs_faults st with
  | Some e :: fs =>
      (mkRefStore (rs_defaultRegistries st) (rs_Repositories st) (rs_cache st)
         (rs_file st) fs, Err (ErrRef e))
  | fs =>
      match rs_file st with
      | None =>
          (mkRefStore (rs_defaultRegistries st) (rs_Repositories st) (rs_cache st)
             None (tail fs), Ok false)
      | Some r =>
          (mkRefStore (rs_defaultRegistries st) r (rebuild_cache r (rs_cache st))
             (Some r) (tail fs), Ok true)
      end
  end.

Definition NewReferenceStore (file : option repositories) (faults : list (option string))
    (defaultRegistries : list string) : refStore * outcome ref_error unit :=
  let st := mkRefStore defaultRegistries ∅ ∅ file faults in
  let! (st, found) := refStore_reload st in
  if found : bool then (st, Ok tt)
  else let '(st, e) := refStore_save st in (st, of_error e).
End ref_store.
