(* ===== verification/RefInv.v ===== *)
(** * Correctness of references and of the tag store

    Normalisation of repository names; the tag store as one finite map from
    references to images, with the reverse index [References] sorted and exact;
    opening the store again. *)

From S2P Require Import Prelude GoStrings RefStore.

(** ** Normalisation *)

Lemma splitHostname_default r :
  splitHostname (DefaultHostname +:+ "/" +:+ r) =
    (DefaultHostname, if contains_char "/" r then r else DefaultRepoPrefix +:+ r).
Proof.
  unfold splitHostname.
  change (DefaultHostname +:+ "/" +:+ r) with (DefaultHostname +:+ String "/" r).
  rewrite (cut_at_append "/" DefaultHostname r) by done. simpl.
  by destruct (contains_char "/" r).
Qed.

Lemma ToLower_trim r p : ToLower r = r → ToLower (TrimPrefix r p) = TrimPrefix r p.
Proof.
  unfold TrimPrefix. destruct (strip_prefix p r) as [r'|] eqn:Hp; [|done].
  apply strip_prefix_Some in Hp as ->. simpl. by intros [_ ?]%ToLower_app_fixed.
Qed.

Lemma TrimPrefix_no_prefix s p : HasPrefix s p = false → TrimPrefix s p = s.
Proof. unfold HasPrefix, TrimPrefix. by destruct (strip_prefix p s). Qed.

Lemma TrimPrefix_app p s : TrimPrefix (p +:+ s) p = s.
Proof. unfold TrimPrefix. by rewrite strip_prefix_app. Qed.

Lemma library_has_slash r :
  contains_char "/" r = false → HasPrefix r DefaultRepoPrefix = false.
Proof.
  intros Hr. destruct (HasPrefix r _) eqn:Hp; [|done].
  apply HasPrefix_spec in Hp as [r' ->]. by rewrite contains_char_app in Hr.
Qed.

(** The remote name does not start with "library/" twice. *)
Definition single_library (name : string) : Prop :=
  HasPrefix (splitHostname name).2 (DefaultRepoPrefix +:+ DefaultRepoPrefix) = false.

(** Trimming one "library/" leaves a name that does not start with it. *)
Lemma trimmed_library r :
  HasPrefix r (DefaultRepoPrefix +:+ DefaultRepoPrefix) = false →
  HasPrefix (TrimPrefix r DefaultRepoPrefix) DefaultRepoPrefix = false.
Proof.
  intros Hr. destruct (HasPrefix (TrimPrefix r _) _) eqn:Hp; [|done].
  unfold TrimPrefix in Hp. destruct (strip_prefix DefaultRepoPrefix r) as [r'|] eqn:Hs.
  - apply strip_prefix_Some in Hs as ->.
    change (HasPrefix r' DefaultRepoPrefix = true) in Hp. apply HasPrefix_spec in Hp as [r'' ->].
    rewrite <- Hr. symmetry. apply HasPrefix_spec. by exists r''.
  - change (HasPrefix r DefaultRepoPrefix = true) in Hp. unfold HasPrefix in Hp.
    by rewrite Hs in Hp.
Qed.

(** [normalize] of a default-registry name with the remote name [r]. *)
Lemma normalize_default r :
  ToLower r = r → HasPrefix r DefaultRepoPrefix = false →
  normalize (DefaultHostname +:+ "/" +:+ r) = Ok (DefaultHostname +:+ "/" +:+ r).
Proof.
  intros Hl Hp. unfold normalize. rewrite splitHostname_default.
  destruct (contains_char "/" r) eqn:Hs.
  - rewrite decide_False by (intros H; by apply H). rewrite decide_True by done.
    by rewrite TrimPrefix_no_prefix.
  - rewrite decide_False.
    + rewrite decide_True by done. by rewrite TrimPrefix_app.
    + intros H. apply H. rewrite ToLower_app, Hl. done.
Qed.

(** The full name of a name. *)
Definition full_name (name : string) : string := Named_FullName (namedRef name).

(** After "library/", the remote name has a single component. *)
Definition official_or_plain (name : string) : Prop :=
  ∀ r, (splitHostname name).2 = DefaultRepoPrefix +:+ r → contains_char "/" r = false.

(** A remote name of the default registry has a "/". *)
Lemma splitHostname_remote name r :
  splitHostname name = (DefaultHostname, r) → contains_char "/" r = true.
Proof.
  unfold splitHostname. destruct (match cut_at "/" name with None => _ | _ => _ end) as [h r0].
  intros [= -> <-]. destruct (contains_char "/" r0) eqn:Hr0.
  - by rewrite decide_False by (by intros [_ ?]).
  - by rewrite decide_True by done.
Qed.

(** Trimming "library/" off a remote name that then has a single component. *)
Lemma full_name_trimmed r :
  contains_char "/" r = true →
  (∀ r', r = DefaultRepoPrefix +:+ r' → contains_char "/" r' = false) →
  full_name (DefaultHostname +:+ "/" +:+ TrimPrefix r DefaultRepoPrefix) =
    DefaultHostname +:+ "/" +:+ r.
Proof.
  intros Hs Hplain. unfold full_name, Named_FullName; cbn [Named_Name].
  rewrite splitHostname_default. rewrite decide_False by done. do 2 f_equal.
  unfold TrimPrefix. destruct (strip_prefix DefaultRepoPrefix r) as [r'|] eqn:Hp.
  - apply strip_prefix_Some in Hp as ->. simpl. by rewrite Hplain.
  - simpl. by rewrite Hs.
Qed.

(** Normalising a repository name gives a normal form, unless the remote
    name starts with "library/" twice, and keeps the full name that the reference
    stands for, unless the remote name has further components after "library/". *)
Theorem normalize_normal_form name name' :
  normalize name = Ok name' →
  (single_library name → normalize name' = Ok name') ∧
  (official_or_plain name → full_name name' = full_name name).
Proof.
  unfold normalize at 1, single_library, official_or_plain.
  destruct (splitHostname name) as [h r] eqn:Hs.
  destruct (decide (ToLower r ≠ r)) as [|Hl]; [done|].
  destruct (decide (h = DefaultHostname)) as [->|Hh]; intros [= <-]; simpl.
  - apply dec_stable in Hl. split; intros Hlib.
    + apply normalize_default; [by apply ToLower_trim|by apply trimmed_library].
    + rewrite full_name_trimmed; [|by eapply splitHostname_remote|done].
      unfold full_name, Named_FullName; cbn [Named_Name]. by rewrite Hs.
  - split; [|done]. intros _. unfold normalize. rewrite Hs.
    rewrite decide_False by done. by rewrite decide_False.
Qed.

Lemma normalize_normal_form_witness :
  normalize "index.docker.io/ubuntu" = Ok "docker.io/ubuntu" ∧
  normalize "docker.io/ubuntu" = Ok "docker.io/ubuntu" ∧
  full_name "docker.io/ubuntu" = "docker.io/library/ubuntu".
Proof.
  destruct (normalize_normal_form "index.docker.io/ubuntu" "docker.io/ubuntu") as [H1 H2];
    [vm_compute; reflexivity|].
  split; [vm_compute; reflexivity|]. split; [apply H1; vm_compute; reflexivity|].
  vm_compute. reflexivity.
Defined.

(** The two exceptions are real: a second normalisation changes the first name,
    and the second name is taken for another repository. *)
Lemma normalize_exceptions :
  normalize "docker.io/library/library/a" = Ok "docker.io/library/a" ∧
  normalize "docker.io/library/a" = Ok "docker.io/a" ∧
  normalize "docker.io/library/a/b" = Ok "docker.io/a/b" ∧
  full_name "docker.io/library/a/b" ≠ full_name "docker.io/a/b".
Proof. vm_compute. done. Qed.

(** ** References as keys *)

(** What the grammar of docker/distribution/reference says of the separators:
    a name has no "@", a tag neither ":" nor "@"; "latest" is a tag. *)
Class RefLaws `{RefExt} := {
  rl_latest : dist_valid_tag DefaultTag = true;
  rl_name n : dist_WithName n = None → contains_char "@" n = false;
  rl_tag t : dist_valid_tag t = true →
    contains_char ":" t = false ∧ contains_char "@" t = false
}.

Section ref_inv.
Context {rext : RefExt} {rlaws : RefLaws}.
Implicit Types (st : refStore) (ref r : Named) (id s n : string).

(** A reference that the store may hold: it has a tag or a digest. *)
Definition storable ref : Prop :=
  match ref with
  | namedRef _ => False
  | taggedRef n t => dist_WithName n = None ∧ dist_valid_tag t = true
  | canonicalRef n d => dist_WithName n = None ∧ dist_valid_digest d = true
  end.

Lemma append_last_inj c (a a' b b' : string) :
  contains_char c b = false → contains_char c b' = false →
  a +:+ String c b = a' +:+ String c b' → a = a' ∧ b = b'.
Proof.
  intros Hb Hb'. revert a'. induction a as [|x a IH]; intros [|x' a'] Heq.
  - by injection Heq as ->.
  - injection Heq as -> Hb2. rewrite Hb2, contains_char_app in Hb. simpl in Hb.
    rewrite bool_decide_eq_true_2 in Hb by done. by rewrite orb_true_r in Hb.
  - injection Heq as -> Hb2. rewrite <- Hb2, contains_char_app in Hb'. simpl in Hb'.
    rewrite bool_decide_eq_true_2 in Hb' by done. by rewrite orb_true_r in Hb'.
  - injection Heq as -> Heq. destruct (IH a' Heq) as [-> ->]. done.
Qed.

Lemma append_first_inj c (a a' b b' : string) :
  contains_char c a = false → contains_char c a' = false →
  a +:+ String c b = a' +:+ String c b' → a = a' ∧ b = b'.
Proof.
  intros Ha%cut_at_None Ha'%cut_at_None Heq%(f_equal (cut_at c)).
  rewrite !cut_at_append in Heq by done. by simplify_eq.
Qed.

Lemma tagged_no_at n t :
  storable (taggedRef n t) → contains_char "@" (Named_String (taggedRef n t)) = false.
Proof.
  intros [Hn%rl_name [_ Ht]%rl_tag]. simpl. rewrite !contains_char_app, Hn, Ht. done.
Qed.

Lemma canonical_has_at n d : contains_char "@" (Named_String (canonicalRef n d)) = true.
Proof. simpl. rewrite !contains_char_app. simpl. by rewrite !orb_true_r. Qed.

(** References are determined by their strings. *)
Lemma Named_String_inj r r' :
  storable r → storable r' → Named_String r = Named_String r' → r = r'.
Proof.
  destruct r as [|n t|n d], r' as [|n' t'|n' d']; try done; intros Hr Hr' Heq.
  - destruct Hr as [_ [Ht _]%rl_tag], Hr' as [_ [Ht' _]%rl_tag].
    destruct (append_last_inj ":" n n' t t' Ht Ht' Heq) as [-> ->]. done.
  - apply tagged_no_at in Hr. by rewrite Heq, canonical_has_at in Hr.
  - apply tagged_no_at in Hr'. by rewrite <- Heq, canonical_has_at in Hr'.
  - destruct Hr as [Hn%rl_name _], Hr' as [Hn'%rl_name _].
    destruct (append_first_inj "@" n n' d d' Hn Hn' Heq) as [-> ->]. done.
Qed.

(** ** The invariant *)

Definition ref_lookup st ref : option string :=
  lookup2 (rs_Repositories st) (Named_Name ref) (Named_String ref).

(** The cache is exactly the reverse of the repositories, and no inner map is
    empty. *)
Record ref_inv st : Prop := {
  ri_cache id s r : lookup2 (rs_cache st) id s = Some r ↔
    storable r ∧ Named_String r = s ∧ ref_lookup st r = Some id;
  ri_repo n s id : lookup2 (rs_Repositories st) n s = Some id →
    ∃ r, storable r ∧ Named_Name r = n ∧ Named_String r = s;
  ri_no_empty : no_empty (rs_Repositories st) ∧ no_empty (rs_cache st)
}.

Lemma save_maps st :
  rs_Repositories (refStore_save st).1 = rs_Repositories st ∧
  rs_cache (refStore_save st).1 = rs_cache st ∧
  rs_defaultRegistries (refStore_save st).1 = rs_defaultRegistries st.
Proof. unfold refStore_save. by destruct (rs_faults st) as [|[]]. Qed.

Lemma ref_inv_maps st st' :
  rs_Repositories st' = rs_Repositories st → rs_cache st' = rs_cache st →
  ref_inv st → ref_inv st'.
Proof.
  intros Hr Hc [H1 H2 H3].
  split; unfold ref_lookup in *; rewrite ?Hr, ?Hc in *; done.
Qed.

Lemma inv_add st ref id old c :
  ref_inv st → storable ref → ref_lookup st ref = old →
  c = from_option (λ o, delete2 o (Named_String ref) (rs_cache st)) (rs_cache st) old →
  let st' := with_maps st
    (insert2 (Named_Name ref) (Named_String ref) id (rs_Repositories st))
    (insert2 id (Named_String ref) ref c) in
  ref_inv st' ∧
  ∀ r', storable r' → ref_lookup st' r' = if decide (r' = ref) then Some id else ref_lookup st r'.
Proof.
  intros Hinv Href Hold -> st'.
  assert (∀ r', storable r' →
    ref_lookup st' r' = if decide (r' = ref) then Some id else ref_lookup st r') as Hlook.
  { intros r' Hr'. unfold ref_lookup; simpl. rewrite lookup2_insert2.
    destruct (decide (r' = ref)) as [->|Hne]; [by rewrite decide_True|].
    rewrite decide_False; [done|]. intros [_ Hs]. by apply Hne, Named_String_inj. }
  split; [|done]. split.
  - intros id' s r. cbn [rs_cache with_maps st']. rewrite lookup2_insert2.
    destruct (decide (s = Named_String ref)) as [->|Hs].
    + destruct (decide (id' = id)) as [->|Hid].
      * rewrite decide_True by done. split; [intros [= <-]; split_and!; [done..|]|].
        -- rewrite Hlook by done. by rewrite decide_True.
        -- intros (Hr & Hstr & _). f_equal. symmetry. by apply Named_String_inj.
      * rewrite decide_False by naive_solver. split.
        -- intros Hc. exfalso. destruct old as [o|]; simpl in Hc.
           ++ rewrite lookup2_delete2 in Hc. case_decide as Hd; [done|].
              apply (ri_cache _ Hinv) in Hc as (Hr & Hstr & Hl).
              apply Named_String_inj in Hstr; [|done..]. subst r. naive_solver.
           ++ apply (ri_cache _ Hinv) in Hc as (Hr & Hstr & Hl).
              apply Named_String_inj in Hstr; [|done..]. subst r. congruence.
        -- intros (Hr & Hstr & Hl). apply Named_String_inj in Hstr; [|done..]. subst r.
           rewrite Hlook in Hl by done. rewrite decide_True in Hl by done. by simplify_eq.
    + rewrite decide_False by naive_solver.
      assert (lookup2 (from_option (λ o, delete2 o (Named_String ref) (rs_cache st))
        (rs_cache st) old) id' s = lookup2 (rs_cache st) id' s) as ->.
      { destruct old; simpl; [|done]. rewrite lookup2_delete2.
        by rewrite decide_False by naive_solver. }
      rewrite (ri_cache _ Hinv). split; intros (Hr & Hstr & Hl); split_and!; try done.
      all: rewrite Hlook in * by done; rewrite decide_False in * by congruence; done.
  - intros n s i. cbn. rewrite lookup2_insert2. case_decide as Hd; [|by apply ri_repo].
    destruct Hd as [-> ->]. by eauto.
  - destruct (ri_no_empty _ Hinv). split; cbn; apply no_empty_insert2; [done|].
    destruct old; simpl; [by apply no_empty_delete2|done].
Qed.

Lemma ref_inv_remove st ref id :
  ref_inv st → storable ref → ref_lookup st ref = Some id →
  let st' := with_maps st
    (delete2 (Named_Name ref) (Named_String ref) (rs_Repositories st))
    (delete2 id (Named_String ref) (rs_cache st)) in
  ref_inv st' ∧
  ∀ r', storable r' → ref_lookup st' r' = if decide (r' = ref) then None else ref_lookup st r'.
Proof.
  intros Hinv Href Hid st'.
  assert (∀ r', storable r' →
    ref_lookup st' r' = if decide (r' = ref) then None else ref_lookup st r') as Hlook.
  { intros r' Hr'. unfold ref_lookup; simpl. rewrite lookup2_delete2.
    destruct (decide (r' = ref)) as [->|Hne]; [by rewrite decide_True|].
    rewrite decide_False; [done|]. intros [_ Hs]. by apply Hne, Named_String_inj. }
  split; [|done]. split.
  - intros id' s r. cbn [rs_cache with_maps st']. rewrite lookup2_delete2.
    destruct (decide (id' = id ∧ s = Named_String ref)) as [[-> ->]|Hne].
    + split; [done|]. intros (Hr & Hstr & Hl). apply Named_String_inj in Hstr; [|done..].
      subst r. rewrite Hlook in Hl by done. by rewrite decide_True in Hl.
    + rewrite (ri_cache _ Hinv). split; intros (Hr & Hstr & Hl); split_and!; try done.
      * rewrite Hlook by done. rewrite decide_False; [done|]. intros ->. naive_solver.
      * rewrite Hlook in Hl by done. by case_decide.
  - intros n s i. cbn. rewrite lookup2_delete2. case_decide; [done|]. by apply ri_repo.
  - destruct (ri_no_empty _ Hinv). split; cbn; by apply no_empty_delete2.
Qed.

(** ** Adding *)

(** The store after [ref] was bound to [id]. *)
Definition bound st ref id st' : Prop :=
  ref_inv st' ∧ rs_defaultRegistries st' = rs_defaultRegistries st ∧
  ∀ r', storable r' → ref_lookup st' r' = if decide (r' = ref) then Some id else ref_lookup st r'.

Definition saved st : Prop := rs_file st = Some (rs_Repositories st).

Lemma save_result st :
  match (refStore_save st).2 with
  | None => saved (refStore_save st).1
  | Some _ => rs_file (refStore_save st).1 = rs_file st
  end.
Proof. unfold refStore_save, saved. by destruct (rs_faults st) as [|[]]. Qed.

Lemma bound_save st st0 ref id :
  bound st ref id st0 → bound st ref id (refStore_save st0).1.
Proof.
  intros (Hinv & Hdef & Hl). destruct (save_maps st0) as (Hr & Hc & Hd).
  split_and!; [by eapply ref_inv_maps|congruence|].
  intros r' Hr'. unfold ref_lookup. rewrite Hr. by apply Hl.
Qed.

Lemma addReference_spec st ref id force :
  ref_inv st → storable ref →
  let '(st', o) := addReference st ref id force in
  match o with
  | Ok _ => bound st ref id st' ∧ saved st' ∧
      (is_Some (ref_lookup st ref) → force = true ∧ ∃ n t, ref = taggedRef n t)
  | Err _ => st' = st ∨ (bound st ref id st' ∧ rs_file st' = rs_file st)
  | Panic _ | Diverge => False
  end.
Proof.
  intros Hinv Href. unfold addReference. case_decide as Hsha; [by left|].
  fold (ref_lookup st ref). destruct (ref_lookup st ref) as [old|] eqn:Hold.
  - destruct ref as [|n t|n d]; [done| |by left].
    destruct force; simpl negb; cbn match; [|by left].
    destruct (inv_add st (taggedRef n t) id (Some old) _ Hinv Href Hold eq_refl) as [Hinv' Hl].
    match goal with |- context [refStore_save ?s] => set (st0 := s) end.
    assert (bound st (taggedRef n t) id st0) as Hb by (by split_and!).
    pose proof (bound_save _ _ _ _ Hb) as Hb'. pose proof (save_result st0) as Hs.
    destruct (refStore_save st0) as [st' [e|]]; simpl in *; [right; done|].
    split_and!; [done..|]. intros _. eauto.
  - destruct (inv_add st ref id None _ Hinv Href Hold eq_refl) as [Hinv' Hl]. simpl in *.
    match goal with |- context [refStore_save ?s] => set (st0 := s) end.
    assert (bound st ref id st0) as Hb by (by split_and!).
    pose proof (bound_save _ _ _ _ Hb) as Hb'. pose proof (save_result st0) as Hs.
    destruct (refStore_save st0) as [st' [e|]]; simpl in *; [right; done|].
    split_and!; [done..|]. by intros [].
Qed.

(** ** Matching repositories *)

Definition matching_ok st (result : list (string * gmap string string)) : Prop :=
  NoDup result.*1 ∧ ∀ n repo, (n, repo) ∈ result → rs_Repositories st !! n = Some repo.

Lemma add_existing_ok st result name :
  matching_ok st result → matching_ok st (add_existing st result name).
Proof.
  intros [Hnd Hres]. unfold add_existing.
  destruct (rs_Repositories st !! name) as [r|] eqn:Hr; [|done]. split.
  - unfold addResult. case_decide; [done|]. rewrite fmap_app. apply NoDup_app.
    split_and!; [done|set_solver|apply NoDup_singleton].
  - intros n repo. unfold addResult. case_decide; [by auto|].
    rewrite elem_of_app, list_elem_of_singleton. intros [?|[= -> ->]]; auto.
Qed.

Lemma add_existing_prefix st result name :
  ∃ l, add_existing st result name = result ++ l.
Proof.
  unfold add_existing, addResult. destruct (rs_Repositories st !! name); [|by exists []; rewrite app_nil_r].
  case_decide; [by exists []; rewrite app_nil_r|by eexists].
Qed.

Lemma registries_ok st ref base xs cur :
  matching_ok st cur → (∃ l, cur = base ++ l) →
  let res := foldl (λ result indexName,
      match QualifyUnqualifiedReference ref indexName with
      | Ok fqRef => add_existing st result (Named_Name fqRef)
      | _ => result
      end) cur xs in
  matching_ok st res ∧ ∃ l, res = base ++ l.
Proof.
  revert cur. induction xs as [|x xs IH]; intros cur Hcur Hpre; [done|]. simpl.
  apply IH; destruct (QualifyUnqualifiedReference ref x) as [a| | |]; try done.
  - by apply add_existing_ok.
  - destruct Hpre as [l ->], (add_existing_prefix st (base ++ l) (Named_Name a)) as [l' ->].
    exists (l ++ l'). by rewrite app_assoc.
Qed.

Lemma getMatching_ok st ref :
  matching_ok st (getMatchingReferenceList st ref) ∧
  ∃ l, getMatchingReferenceList st ref = add_existing st [] (Named_Name ref) ++ l.
Proof.
  unfold getMatchingReferenceList. set (base := add_existing st [] (Named_Name ref)).
  assert (matching_ok st base) as Hbase.
  { apply add_existing_ok. split; [apply NoDup_nil_2|set_solver]. }
  assert (∃ l, base = base ++ l) as Hpre by (by exists []; rewrite app_nil_r).
  case_match; [done|]. by apply registries_ok.
Qed.

(** ** Looking up *)

(** The name of [ref] is its own normal form, as [ParseNamed] makes it. *)
Definition normal_ref ref : Prop :=
  WithName (Named_Name ref) = Ok (namedRef (Named_Name ref)).

Lemma Substitute_self ref :
  storable ref → normal_ref ref → SubstituteReferenceName ref (Named_Name ref) = Ok ref.
Proof.
  intros Href Hn. unfold SubstituteReferenceName. rewrite Hn. simpl.
  destruct ref as [|n t|n d]; [done|..]; destruct Href as [_ H].
  - unfold WithTag. by rewrite H.
  - unfold WithDigest. by rewrite H.
Qed.

Lemma first_match_sound st ref matching n s id :
  matching_ok st matching → first_match ref matching = Some (n, s, id) →
  lookup2 (rs_Repositories st) n s = Some id.
Proof.
  intros [_ Hok]. induction matching as [|[n' repo] l IH]; [done|]. simpl.
  assert (rs_Repositories st !! n' = Some repo) as Hr by (apply Hok; by left).
  assert (∀ n repo, (n, repo) ∈ l → rs_Repositories st !! n = Some repo) as Hl
    by (intros; apply Hok; by right).
  destruct (SubstituteReferenceName ref n') as [r'| | |]; try by apply IH.
  destruct (repo !! Named_String r') eqn:Hs; [|by apply IH].
  intros [= -> <- ->]. unfold lookup2. by rewrite Hr.
Qed.

(** A reference with a normal name that the store holds is found first. *)
Lemma first_match_self st ref id :
  storable ref → normal_ref ref → ref_lookup st ref = Some id →
  first_match ref (getMatchingReferenceList st ref) = Some (Named_Name ref, Named_String ref, id).
Proof.
  intros Href Hn Hl. destruct (getMatching_ok st ref) as [_ [l ->]].
  unfold add_existing. unfold ref_lookup, lookup2 in Hl.
  destruct (rs_Repositories st !! Named_Name ref) as [repo|]; [|done]. simpl in Hl.
  unfold addResult. rewrite decide_False by set_solver. simpl.
  rewrite Substitute_self by done. by rewrite Hl.
Qed.

Lemma WithDefaultTag_storable ref : storable ref → WithDefaultTag ref = Some ref.
Proof. unfold WithDefaultTag. by destruct ref. Qed.

(** A reference as [ParseNamed] returns it, with or without a tag. *)
Definition valid_ref ref : Prop :=
  match ref with
  | namedRef n => dist_WithName n = None
  | _ => storable ref
  end.

(** [ref], or [ref] with the default tag. *)
Definition tag_default ref : Named :=
  match ref with namedRef n => taggedRef n DefaultTag | _ => ref end.

Lemma WithDefaultTag_valid ref :
  valid_ref ref → WithDefaultTag ref = Some (tag_default ref) ∧ storable (tag_default ref).
Proof.
  destruct ref as [n|n t|n d]; [|done..]. simpl. intros Hn.
  unfold WithDefaultTag, WithTag; simpl. rewrite rl_latest. done.
Qed.

Lemma tag_default_normal ref : normal_ref ref → normal_ref (tag_default ref).
Proof. by destruct ref. Qed.

(** A match of the store is a reference that it holds. *)
Lemma first_match_ref st ref n s id :
  ref_inv st → first_match ref (getMatchingReferenceList st ref) = Some (n, s, id) →
  ∃ r, storable r ∧ n = Named_Name r ∧ s = Named_String r ∧ ref_lookup st r = Some id.
Proof.
  intros Hinv Hm. apply (first_match_sound st) in Hm; [|apply getMatching_ok].
  destruct (ri_repo _ Hinv n s id Hm) as (r & Hr & <- & <-). by exists r.
Qed.

(** The store after [ref] was removed. *)
Definition unbound st ref st' : Prop :=
  ref_inv st' ∧ rs_defaultRegistries st' = rs_defaultRegistries st ∧
  ∀ r', storable r' → ref_lookup st' r' = if decide (r' = ref) then None else ref_lookup st r'.

(** [r] is the stored reference that [ref] stands for: that of the tag or digest of
    [ref], or of the default tag when it has none, in the first repository that has
    it, of the one [ref] names and then those of the default registries. *)
Definition stands_for st ref r : Prop :=
  ∃ id, first_match (tag_default ref) (getMatchingReferenceList st (tag_default ref)) =
    Some (Named_Name r, Named_String r, id).

Lemma refStore_Delete_spec st ref :
  ref_inv st → valid_ref ref →
  match refStore_Get st ref with
  | Ok id => ∃ st' e r, refStore_Delete st ref = (st', Ok (true, e)) ∧
      storable r ∧ ref_lookup st r = Some id ∧ unbound st r st' ∧
      (if e then rs_file st' = rs_file st else saved st') ∧ stands_for st ref r ∧
      (normal_ref ref → is_Some (ref_lookup st (tag_default ref)) → r = tag_default ref)
  | Err e => e = ErrDoesNotExist ∧
      refStore_Delete st ref = (st, Ok (false, Some ErrDoesNotExist))
  | Panic _ | Diverge => False
  end.
Proof.
  intros Hinv Href. unfold refStore_Get, refStore_Delete.
  destruct (WithDefaultTag_valid ref Href) as [-> Hst].
  destruct (first_match _ _) as [[[n s] id]|] eqn:Hm; [|done].
  destruct (first_match_ref st _ n s id Hinv Hm) as (r & Hr & -> & -> & Hl).
  destruct (ref_inv_remove st r id Hinv Hr Hl) as [Hinv' Hl'].
  match goal with |- context [refStore_save ?s] => set (st0 := s) end.
  pose proof (save_result st0) as Hs. destruct (save_maps st0) as (Hrep & Hc & Hd).
  destruct (refStore_save st0) as [st' e]; simpl in *. exists st', e, r.
  split_and!; [done..| | | |].
  - split_and!; [by apply (ref_inv_maps st0)|done|]. intros r' Hr'. unfold ref_lookup.
    rewrite Hrep. by apply Hl'.
  - by destruct e.
  - by exists id.
  - intros Hn%tag_default_normal [i Hi].
    rewrite (first_match_self st _ i) in Hm by done. injection Hm as Hname Hstr _.
    symmetry. by apply Named_String_inj.
Qed.

(** ** The reverse index *)

#[local] Instance ref_le_total : Total ref_le.
Proof. intros a b. unfold ref_le. apply (total String.le). Qed.
#[local] Instance ref_le_trans : Transitive ref_le.
Proof. intros a b c. unfold ref_le. intros H1 H2. exact (transitivity H1 H2). Qed.

Lemma References_spec st id :
  ref_inv st →
  StronglySorted ref_le (refStore_References st id) ∧ NoDup (refStore_References st id) ∧
  ∀ r, r ∈ refStore_References st id ↔ storable r ∧ ref_lookup st r = Some id.
Proof.
  intros Hinv. unfold refStore_References. split_and!.
  - apply StronglySorted_merge_sort; apply _.
  - rewrite merge_sort_Permutation. apply NoDup_fmap_2_strong; [|apply NoDup_map_to_list].
    intros [s1 r1] [s2 r2] H1%elem_of_map_to_list H2%elem_of_map_to_list. simpl. intros ->.
    assert (∀ s r, default ∅ (rs_cache st !! id) !! s = Some r → Named_String r = s) as Hs.
    { intros s r Hsr. assert (lookup2 (rs_cache st) id s = Some r) as Hl.
      { unfold lookup2. by destruct (rs_cache st !! id). }
      by apply (ri_cache _ Hinv) in Hl as (_ & ? & _). }
    by rewrite <- (Hs s1 r2 H1), <- (Hs s2 r2 H2).
  - intros r. rewrite merge_sort_Permutation, list_elem_of_fmap. split.
    + intros ([s r'] & -> & Hin%elem_of_map_to_list). simpl.
      assert (lookup2 (rs_cache st) id s = Some r') as Hl.
      { unfold lookup2. by destruct (rs_cache st !! id). }
      by apply (ri_cache _ Hinv) in Hl as (? & _ & ?).
    + intros [Hr Hl]. exists (Named_String r, r). split; [done|].
      apply elem_of_map_to_list.
      assert (lookup2 (rs_cache st) id (Named_String r) = Some r) as Hc
        by (by apply (ri_cache _ Hinv)).
      unfold lookup2 in Hc. by destruct (rs_cache st !! id).
Qed.

(** ** Runs *)

Inductive ref_op :=
| RAddTag (ref : Named) (id : string) (force : bool)
| RAddDigest (name digest id : string) (force : bool)
| RDelete (ref : Named).

Definition ref_call st (op : ref_op) : refStore * outcome ref_error unit :=
  match op with
  | RAddTag ref id force => refStore_AddTag st ref id force
  | RAddDigest name digest id force => refStore_AddDigest st name digest id force
  | RDelete ref => let '(st, o) := refStore_Delete st ref in (st, void o)
  end.

Definition valid_ref_op (op : ref_op) : Prop :=
  match op with
  | RAddTag ref _ _ => valid_ref ref
  | RAddDigest name digest _ _ => storable (canonicalRef name digest)
  | RDelete ref => valid_ref ref
  end.

Lemma refStore_AddTag_spec st ref id force :
  ref_inv st → valid_ref ref →
  let '(st', o) := refStore_AddTag st ref id force in
  match o with
  | Ok _ => bound st (tag_default ref) id st' ∧ saved st' ∧
      (is_Some (ref_lookup st (tag_default ref)) → force = true)
  | Err _ => st' = st ∨ (bound st (tag_default ref) id st' ∧ rs_file st' = rs_file st)
  | Panic _ | Diverge => False
  end.
Proof.
  intros Hinv Href. destruct (WithDefaultTag_valid ref Href) as [Hd Hst].
  pose proof (addReference_spec st (tag_default ref) id force Hinv Hst) as Hadd.
  unfold refStore_AddTag. rewrite Hd.
  destruct ref as [n|n t|n d]; [| |by left].
  all: destruct (addReference _ _ _ _) as [st' []]; naive_solver.
Qed.

Lemma ref_call_safe st op :
  ref_inv st → valid_ref_op op →
  safe (ref_call st op) (λ st' _, ref_inv st') (λ st' _, ref_inv st').
Proof.
  intros Hinv Hop. destruct op as [ref id force|n d id force|ref]; simpl in *.
  - pose proof (refStore_AddTag_spec st ref id force Hinv Hop) as H.
    destruct (refStore_AddTag _ _ _ _) as [st' []]; simpl in *; [apply H| |done..].
    destruct H as [->|[H _]]; [done|apply H].
  - pose proof (addReference_spec st (canonicalRef n d) id force Hinv Hop) as H.
    unfold refStore_AddDigest.
    destruct (addReference _ _ _ _) as [st' []]; simpl in *; [apply H| |done..].
    destruct H as [->|[H _]]; [done|apply H].
  - pose proof (refStore_Delete_spec st ref Hinv Hop) as H.
    destruct (refStore_Get st ref); [|by destruct H as [_ ->]|done..].
    destruct H as (st' & e & r & -> & _ & _ & Hu & _). apply Hu.
Qed.

Definition ref_run st (ops : list ref_op) : refStore * list (outcome ref_error unit) :=
  run_calls ref_call st ops.

Lemma ref_run_inv st ops :
  ref_inv st → Forall valid_ref_op ops →
  ref_inv (ref_run st ops).1 ∧ Forall no_crash (ref_run st ops).2.
Proof.
  intros Hinv Hops. apply (run_calls_inv _ (λ _, valid_ref_op) ref_inv); [|done|].
  - intros. by apply ref_call_safe.
  - clear Hinv. revert st. induction Hops; intros st; simpl; auto.
Qed.

Lemma empty_ref_inv regs file faults : ref_inv (mkRefStore regs ∅ ∅ file faults).
Proof.
  split.
  - intros id s r. cbn. unfold ref_lookup, lookup2; cbn. rewrite !lookup_empty. naive_solver.
  - intros n s id. cbn. unfold lookup2. by rewrite lookup_empty.
  - split; intros k i; cbn; by rewrite lookup_empty.
Qed.

Lemma NewReferenceStore_empty regs faults :
  ref_inv (NewReferenceStore None faults regs).1.
Proof.
  unfold NewReferenceStore, refStore_reload; cbn [rs_faults rs_file].
  destruct faults as [|[e|] fs]; cbn [and_then tail]; [|apply empty_ref_inv|].
  - apply empty_ref_inv.
  - match goal with |- context [refStore_save ?s] => pose proof (save_maps s) as (Hr & Hc & _);
      destruct (refStore_save s) as [st' e] end.
    apply (ref_inv_maps (mkRefStore regs ∅ ∅ None fs)); [done..|apply empty_ref_inv].
Qed.

(** ** Opening the store again *)

Lemma map2_ext {A} (m m' : gmap string (gmap string A)) :
  no_empty m → no_empty m' → (∀ k s, lookup2 m k s = lookup2 m' k s) → m = m'.
Proof.
  intros Hm Hm' Heq. apply map_eq. intros k.
  assert (∀ m m' : gmap string (gmap string A), no_empty m → (∀ s, lookup2 m k s = lookup2 m' k s) →
    ∀ i, m !! k = Some i → m' !! k ≠ None) as Hdom.
  { clear. intros m m' Hm Heq i Hi Hn. destruct (map_choose i (Hm k i Hi)) as (s & x & Hx).
    specialize (Heq s). unfold lookup2 in Heq. rewrite Hi, Hn in Heq. simpl in Heq. congruence. }
  destruct (m !! k) as [i|] eqn:Hi, (m' !! k) as [i'|] eqn:Hi'; [| | |done].
  - f_equal. apply map_eq. intros s. specialize (Heq k s). unfold lookup2 in Heq.
    by rewrite Hi, Hi' in Heq.
  - by destruct (Hdom m m' Hm (Heq k) i Hi).
  - by destruct (Hdom m' m Hm' (λ s, eq_sym (Heq k s)) i' Hi').
Qed.

(** The entries of the cache come from parsing. *)
Definition parsed (cache : gmap string (gmap string Named)) : Prop :=
  ∀ id s r, lookup2 cache id s = Some r → ParseNamed s = Ok r.

Lemma cache_entry_spec s0 id0 cache :
  parsed cache → no_empty cache →
  parsed (cache_entry s0 id0 cache) ∧ no_empty (cache_entry s0 id0 cache) ∧
  ∀ id s r, lookup2 (cache_entry s0 id0 cache) id s = Some r ↔
    ParseNamed s = Ok r ∧ (is_Some (lookup2 cache id s) ∨ id = id0 ∧ s = s0).
Proof.
  intros Hp Hn. assert (∀ id s r, lookup2 (cache_entry s0 id0 cache) id s = Some r ↔
    ParseNamed s = Ok r ∧ (is_Some (lookup2 cache id s) ∨ id = id0 ∧ s = s0)) as Hspec.
  { intros id s r. unfold cache_entry.
    assert (∀ r, lookup2 cache id s = Some r ↔ ParseNamed s = Ok r ∧ is_Some (lookup2 cache id s))
      as Hold.
    { intros r'. split; [intros Hl; split; [by eapply Hp|by eauto]|].
      intros [Hr' [r'' Hl]]. apply Hp in Hl as Hr''. congruence. }
    destruct (ParseNamed s0) as [r0| | |] eqn:Hs0; [|rewrite Hold; naive_solver congruence..].
    rewrite lookup2_insert2. destruct (decide (id = id0 ∧ s = s0)) as [[-> ->]|Hne].
    - split; [intros [= <-]; split; [done|by right]|]. intros [Hr _]. congruence.
    - rewrite Hold. split; intros [? ?]; (split; [done|]); [by left|tauto]. }
  split_and!; [intros id s r; by intros [? _]%Hspec| |done].
  unfold cache_entry. destruct (ParseNamed s0); [by apply no_empty_insert2|done..].
Qed.

Lemma cache_repo_spec cache (repo : gmap string string) :
  parsed cache → no_empty cache →
  let cache' := map_fold cache_entry cache repo in
  parsed cache' ∧ no_empty cache' ∧
  ∀ id s r, lookup2 cache' id s = Some r ↔
    ParseNamed s = Ok r ∧ (is_Some (lookup2 cache id s) ∨ repo !! s = Some id).
Proof.
  intros Hp Hn. apply (map_fold_weak_ind (λ c m, parsed c ∧ no_empty c ∧
    ∀ id s r, lookup2 c id s = Some r ↔
      ParseNamed s = Ok r ∧ (is_Some (lookup2 cache id s) ∨ m !! s = Some id))).
  - split_and!; [done..|]. intros id s r. rewrite lookup_empty.
    split; [intros Hl; split; [by eapply Hp|by eauto]|].
    intros [Hr [[r' Hl]|?]]; [|done]. apply Hp in Hl as Hr'. congruence.
  - intros s0 id0 m c Hm (Hpc & Hnc & Hc).
    destruct (cache_entry_spec s0 id0 c Hpc Hnc) as (Hp' & Hn' & Hc').
    split_and!; [done..|]. intros id s r. rewrite Hc', lookup_insert.
    assert (ParseNamed s = Ok r → is_Some (lookup2 c id s) ↔
      is_Some (lookup2 cache id s) ∨ m !! s = Some id) as His.
    { intros Hr. split; [intros [r' Hr']; by apply Hc in Hr' as [_ ?]|].
      intros H. exists r. by apply Hc. }
    destruct (decide (s0 = s)) as [->|Hne].
    + split; intros [Hr H]; (split; [done|]).
      * destruct H as [H|[-> _]]; [|by right]. apply His in H; [|done].
        destruct H as [H|H]; [by left|]. congruence.
      * destruct H as [H|[= ->]]; [left; apply His; [done|by left]|by right].
    + split; intros [Hr H]; (split; [done|]).
      * destruct H as [H|[_ ->]]; [|done]. by apply His in H.
      * left. by apply His.
Qed.

Lemma rebuild_cache_spec (repos : repositories) :
  no_empty (rebuild_cache repos ∅) ∧
  ∀ id s r, lookup2 (rebuild_cache repos ∅) id s = Some r ↔
    ParseNamed s = Ok r ∧ ∃ n, lookup2 repos n s = Some id.
Proof.
  unfold rebuild_cache.
  assert (let c := map_fold (λ _ repository cache, map_fold cache_entry cache repository) ∅ repos in
    parsed c ∧ no_empty c ∧ ∀ id s r, lookup2 c id s = Some r ↔
      ParseNamed s = Ok r ∧ ∃ n, lookup2 repos n s = Some id) as (_ & H2 & H3); [|done].
  apply (map_fold_weak_ind (λ c m, parsed c ∧ no_empty c ∧
    ∀ id s r, lookup2 c id s = Some r ↔
      ParseNamed s = Ok r ∧ ∃ n, lookup2 m n s = Some id)).
  - split_and!; [by intros ???|by intros ??|]. intros id s r. unfold lookup2.
    rewrite lookup_empty. split; [done|]. intros (_ & n & Hn). by rewrite lookup_empty in Hn.
  - intros n0 repo m c Hm (Hpc & Hnc & Hc).
    destruct (cache_repo_spec c repo Hpc Hnc) as (Hp' & Hn' & Hc').
    split_and!; [done..|]. intros id s r. rewrite Hc'. split; intros [Hr H]; (split; [done|]).
    + destruct H as [[r' Hl]|Hl].
      * apply Hc in Hl as (_ & n & Hn). exists n. unfold lookup2 in *.
        rewrite lookup_insert_ne; [done|]. intros ->. by rewrite Hm in Hn.
      * exists n0. unfold lookup2. by rewrite lookup_insert_eq.
    + destruct H as [n Hn]. unfold lookup2 in Hn. rewrite lookup_insert in Hn.
      case_decide; [by right|]. left. exists r. apply Hc. split; [done|]. by exists n.
Qed.

Lemma rebuild_cache_id st :
  ref_inv st → (∀ r, storable r → is_Some (ref_lookup st r) → ParseNamed (Named_String r) = Ok r) →
  rebuild_cache (rs_Repositories st) ∅ = rs_cache st.
Proof.
  intros Hinv Hparse. destruct (rebuild_cache_spec (rs_Repositories st)) as [Hne Hspec].
  apply map2_ext; [done|apply (ri_no_empty _ Hinv)|]. intros id s. apply option_eq. intros r.
  rewrite Hspec, (ri_cache _ Hinv). split.
  - intros (Hp & n & Hn). destruct (ri_repo _ Hinv n s id Hn) as (r' & Hr' & <- & <-).
    rewrite Hparse in Hp by (by eauto). injection Hp as <-. done.
  - intros (Hr & <- & Hl). split; [apply Hparse; by eauto|]. by exists (Named_Name r).
Qed.

(** C18: After any sequence of calls on a new store, with any failure of saving,
    no call panics and, for every image, [References] lists exactly the references
    that the repositories bind to it, each once, sorted by their strings. *)
Theorem references_exact regs faults ops id :
  Forall valid_ref_op ops →
  let run := ref_run (NewReferenceStore None faults regs).1 ops in
  Forall no_crash run.2 ∧
  StronglySorted ref_le (refStore_References run.1 id) ∧
  NoDup (refStore_References run.1 id) ∧
  ∀ r, r ∈ refStore_References run.1 id ↔ storable r ∧ ref_lookup run.1 r = Some id.
Proof.
  intros Hops run. destruct (ref_run_inv _ ops (NewReferenceStore_empty regs faults) Hops)
    as [Hinv Hno].
  split; [done|]. by apply References_spec.
Qed.

(** Tagging: a tag that was added is the one [Get] finds; the other
    references are left alone; a tag that is already set is refused unless [force]
    is given; and when saving fails the file keeps its contents. *)
Theorem AddTag_Get st ref id force :
  ref_inv st → valid_ref ref → normal_ref ref →
  let '(st', o) := refStore_AddTag st ref id force in
  match o with
  | Ok _ => refStore_Get st' ref = Ok id ∧ saved st' ∧
      (∀ r, storable r → r ≠ tag_default ref → ref_lookup st' r = ref_lookup st r) ∧
      (is_Some (ref_lookup st (tag_default ref)) → force = true)
  | Err _ => rs_file st' = rs_file st ∧
      ∀ r, storable r → r ≠ tag_default ref → ref_lookup st' r = ref_lookup st r
  | Panic _ | Diverge => False
  end.
Proof.
  intros Hinv Href Hn. pose proof (refStore_AddTag_spec st ref id force Hinv Href) as H.
  destruct (refStore_AddTag _ _ _ _) as [st' [[]|e| |]]; [| |done..].
  - destruct H as ((Hinv' & _ & Hl) & Hsaved & Hforce).
    destruct (WithDefaultTag_valid ref Href) as [Hd Hst]. split_and!; [|done| |done].
    + unfold refStore_Get. rewrite Hd. rewrite (first_match_self st' _ id); [done..| |].
      * by apply tag_default_normal.
      * rewrite Hl by done. by rewrite decide_True.
    + intros r Hr Hne. rewrite Hl by done. by rewrite decide_False.
  - destruct H as [->|[(_ & _ & Hl) Hf]]; [done|]. split; [done|].
    intros r Hr Hne. rewrite Hl by done. by rewrite decide_False.
Qed.

(** Deleting: [Delete] removes exactly one reference, one that is bound to
    the image [Get] returns (the given reference itself when the store has it),
    and nothing when [Get] finds nothing. *)
Lemma Delete_removes_one st ref :
  ref_inv st → valid_ref ref →
  match refStore_Get st ref with
  | Ok id => ∃ st' e r, refStore_Delete st ref = (st', Ok (true, e)) ∧
      storable r ∧ ref_lookup st r = Some id ∧ unbound st r st' ∧
      (if e then rs_file st' = rs_file st else saved st') ∧ stands_for st ref r ∧
      (normal_ref ref → is_Some (ref_lookup st (tag_default ref)) → r = tag_default ref)
  | Err e => e = ErrDoesNotExist ∧
      refStore_Delete st ref = (st, Ok (false, Some ErrDoesNotExist))
  | Panic _ | Diverge => False
  end.
Proof. apply refStore_Delete_spec. Qed.

(** Opening the store again: from the file that was saved last, the same
    repositories and the same index of references are rebuilt, when the stored
    references parse back to themselves. *)
Theorem reload_restores_store st regs :
  ref_inv st → saved st →
  (∀ r, storable r → is_Some (ref_lookup st r) → ParseNamed (Named_String r) = Ok r) →
  NewReferenceStore (rs_file st) [] regs =
    (mkRefStore regs (rs_Repositories st) (rs_cache st) (rs_file st) [], Ok tt).
Proof.
  intros Hinv Hsaved Hparse. unfold NewReferenceStore, refStore_reload. rewrite Hsaved. simpl.
  by rewrite rebuild_cache_id.
Qed.
End ref_inv.
