(* ===== verification/RefWitness.v ===== *)
(** * The tag store on concrete inputs

    A small grammar of references, with which the definitions of RefStore are run
    and the theorems of RefInv applied. *)

From S2P Require Import Prelude GoStrings RefStore RefInv.

(** Names without ":" and "@", tags likewise. *)
Definition demo_word (s : string) : bool :=
  bool_decide (s ≠ "") && negb (contains_char ":" s) && negb (contains_char "@" s).

Definition demo_parse (s : string) : string + (string * string * string) :=
  match cut_at "@" s with
  | Some (n, d) => inr (n, "", d)
  | None =>
      match cut_at ":" s with
      | Some (n, t) => inr (n, t, "")
      | None => inr (s, "", "")
      end
  end.

#[export] Instance demo_rext : RefExt := {|
  dist_WithName n := if demo_word n then None else Some "invalid reference format";
  dist_valid_tag := demo_word;
  dist_valid_digest d := bool_decide (d ≠ "");
  dist_ParseNamed := demo_parse;
  dist_SplitHostname n := match cut_at "/" n with Some (h, r) => (h, r) | None => ("", n) end
|}.

Lemma demo_word_spec s :
  demo_word s = true → contains_char ":" s = false ∧ contains_char "@" s = false.
Proof. unfold demo_word. rewrite !andb_true_iff, !negb_true_iff. tauto. Qed.

#[export] Instance demo_ref_laws : RefLaws.
Proof.
  split.
  - vm_compute. reflexivity.
  - intros n. simpl. destruct (demo_word n) eqn:Hn; [|done].
    intros _. by destruct (demo_word_spec n Hn).
  - intros t. apply demo_word_spec.
Qed.

(** Two tags of an image, one moved by force, a digest, and an unqualified name
    that is found under the default registry. *)
Definition demo_ref_ops : list ref_op :=
  [ RAddTag (namedRef "docker.io/ubuntu") "img1" false;
    RAddTag (taggedRef "web" "v1") "img1" false;
    RAddTag (taggedRef "web" "v1") "img2" false;
    RAddTag (taggedRef "web" "v2") "img1" false;
    RAddDigest "web" "sha256:00" "img1" false;
    RDelete (namedRef "ubuntu") ].

Lemma demo_ref_ops_valid : Forall valid_ref_op demo_ref_ops.
Proof. repeat constructor. Qed.

Lemma references_exact_witness :
  let run := ref_run (NewReferenceStore None [None; Some "disk full"] ["docker.io"]).1 demo_ref_ops in
  refStore_References run.1 "img1" =
    [taggedRef "web" "v1"; taggedRef "web" "v2"; canonicalRef "web" "sha256:00"] ∧
  StronglySorted ref_le (refStore_References run.1 "img1").
Proof.
  split; [vm_compute; reflexivity|].
  exact (proj1 (proj2 (references_exact ["docker.io"] [None; Some "disk full"] demo_ref_ops "img1"
    demo_ref_ops_valid))).
Defined.

Definition demo_refs : refStore :=
  (ref_run (NewReferenceStore None [] ["docker.io"]).1
     [RAddTag (namedRef "docker.io/ubuntu") "img1" false]).1.

Lemma demo_refs_inv : ref_inv demo_refs.
Proof. apply ref_run_inv; [apply NewReferenceStore_empty|]. repeat constructor. Qed.

Lemma AddTag_Get_witness :
  let '(st', o) := refStore_AddTag demo_refs (namedRef "web") "img2" false in
  o = Ok tt ∧ refStore_Get st' (namedRef "web") = Ok "img2" ∧
  ref_lookup st' (taggedRef "docker.io/ubuntu" "latest") = Some "img1".
Proof.
  pose proof (AddTag_Get demo_refs (namedRef "web") "img2" false demo_refs_inv
    eq_refl eq_refl) as H.
  destruct (refStore_AddTag demo_refs (namedRef "web") "img2" false) as [st' [[]|e|m|]] eqn:Hadd;
    vm_compute in Hadd; try discriminate Hadd.
  destruct H as (Hget & _ & Hother & _). split; [reflexivity|]. split; [exact Hget|].
  rewrite Hother; [vm_compute; reflexivity|split; vm_compute; reflexivity|discriminate].
Defined.

Lemma Delete_removes_one_witness :
  refStore_Get demo_refs (namedRef "ubuntu") = Ok "img1" ∧
  ∃ st' e r, refStore_Delete demo_refs (namedRef "ubuntu") = (st', Ok (true, e)) ∧
    unbound demo_refs r st'.
Proof.
  split; [vm_compute; reflexivity|].
  pose proof (Delete_removes_one demo_refs (namedRef "ubuntu") demo_refs_inv eq_refl) as H.
  assert (refStore_Get demo_refs (namedRef "ubuntu") = Ok "img1") as Hget
    by (vm_compute; reflexivity).
  rewrite Hget in H. destruct H as (st' & e & r & Hd & _ & _ & Hu & _).
  exists st', e, r. split; [exact Hd|exact Hu].
Defined.

(** The demo grammar parses its own references back, for normal names. *)
Lemma demo_parse_back n t :
  storable (taggedRef n t) → normal_ref (taggedRef n t) →
  ParseNamed (Named_String (taggedRef n t)) = Ok (taggedRef n t).
Proof.
  intros Hs Hn. pose proof (tagged_no_at n t Hs) as Hat. apply cut_at_None in Hat.
  destruct Hs as [Hwn Hwt]. unfold ParseNamed. cbn [dist_ParseNamed demo_rext].
  unfold demo_parse. rewrite Hat. cbn in Hwn, Hwt.
  destruct (demo_word n) eqn:Hn'; [|done]. apply demo_word_spec in Hn' as [Hc _].
  apply cut_at_None in Hc.
  change (Named_String (taggedRef n t)) with (n +:+ String ":" t).
  rewrite cut_at_append by done. unfold normal_ref in Hn; cbn [Named_Name] in Hn. rewrite Hn.
  cbn [obind]. rewrite decide_False by (intros H; by apply H).
  destruct (decide (t ≠ "")) as [Ht|Ht].
  - unfold WithTag. cbn. by rewrite Hwt.
  - apply dec_stable in Ht. by subst t.
Qed.

Lemma demo_refs_only r :
  storable r → is_Some (ref_lookup demo_refs r) → r = taggedRef "docker.io/ubuntu" "latest".
Proof.
  intros Hr [id Hl]. unfold ref_lookup, lookup2 in Hl.
  assert (rs_Repositories demo_refs =
    {[ "docker.io/ubuntu" := {[ "docker.io/ubuntu:latest" := "img1" ]} ]}) as Hrep
    by (vm_compute; reflexivity).
  rewrite Hrep in Hl. destruct (decide (Named_Name r = "docker.io/ubuntu")) as [Hn|Hn].
  - rewrite Hn, lookup_singleton_eq in Hl. cbn in Hl.
    destruct (decide (Named_String r = "docker.io/ubuntu:latest")) as [Hs|Hs].
    + apply Named_String_inj; [done|by vm_compute|done].
    + by rewrite lookup_singleton_ne in Hl.
  - by rewrite lookup_singleton_ne in Hl.
Qed.

Lemma reload_restores_store_witness :
  NewReferenceStore (rs_file demo_refs) [] ["docker.io"] =
    (mkRefStore ["docker.io"] (rs_Repositories demo_refs) (rs_cache demo_refs)
       (rs_file demo_refs) [], Ok tt).
Proof.
  apply (reload_restores_store demo_refs ["docker.io"]).
  - exact demo_refs_inv.
  - vm_compute. reflexivity.
  - intros r Hr Hl. rewrite (demo_refs_only r Hr Hl).
    apply demo_parse_back; vm_compute; auto.
Defined.
