(* ===== verification/StdCopy.v ===== *)
(** * pkg/stdcopy: multiplexing of standard streams

    The model of pkg/stdcopy/stdcopy.go.  A byte is a [Z] between 0 and 255.
    An [io.Writer] is a function on its own state; an [io.Reader] is a script of
    what its calls find available: the n-th event gives data, and possibly an
    error that comes with the end of this data; a call with a smaller buffer
    takes a prefix of the data.  After the script, calls return [io.EOF]. *)

From S2P Require Import Prelude.
Open Scope Z_scope.

Abbreviation bytes := (list Z).

(** [StdType]. *)
Inductive StdType := Stdin | Stdout | Stderr.
Definition StdType_byte (t : StdType) : Z :=
  match t with Stdin => 0 | Stdout => 1 | Stderr => 2 end.

Definition stdWriterPrefixLen : nat := 8.
Definition startingBufLen : nat := 32 * 1024 + stdWriterPrefixLen + 1.

(** [binary.BigEndian.PutUint32] of [uint32(n)], and [binary.BigEndian.Uint32]. *)
Definition PutUint32 (n : Z) : bytes :=
  let v := n `mod` 2 ^ 32 in
  [Z.land (Z.shiftr v 24) 255; Z.land (Z.shiftr v 16) 255;
   Z.land (Z.shiftr v 8) 255; Z.land v 255].
Definition Uint32 (b : bytes) : Z :=
  match b with
  | [b0; b1; b2; b3] =>
      Z.lor (Z.lor (Z.lor b3 (Z.shiftl b2 8)) (Z.shiftl b1 16)) (Z.shiftl b0 24)
  | _ => 0
  end.

(** ** Writing *)

(** [io.Writer]: the number of bytes written, and an error. *)
Class Writer (W : Type) := {
  Writer_Write : W → bytes → W * (Z * option string)
}.

(** The frame that [Write] sends: [header] and [p]. *)
Definition frame (prefix : Z) (p : bytes) : bytes :=
  [prefix; 0; 0; 0] ++ PutUint32 (Z.of_nat (length p)) ++ p.

(** [w] is [None] for a nil writer, [p] is [None] for a nil slice. *)
Definition stdWriter_Write {W : Type} {writer : Writer W} (w : option W) (prefix : Z) (p : option bytes) :
    option W * (Z * option string) :=
  match w with
  | None => (None, (0, Some "Writer not instantiated"))
  | Some w =>
      match p with
      | None => (Some w, (0, None))
      | Some p =>
          let '(w, (n, err)) := Writer_Write w (frame prefix p) in
          let n := n - Z.of_nat stdWriterPrefixLen in
          (Some w, (if decide (n < 0) then 0 else n, err))
      end
  end.

(** ** Reading *)

Inductive read_error := EOF | ReadErr (msg : string).
#[global] Instance read_error_eq_dec : EqDecision read_error.
Proof. solve_decision. Defined.

Abbreviation script := (list (bytes * option read_error)).

(** [src.Read] with a buffer of [cap] bytes. *)
Definition Read (src : script) (cap : nat) : script * (bytes * option read_error) :=
  match src with
  | [] => ([], ([], Some EOF))
  | (data, err) :: src =>
      if decide (length data ≤ cap)%nat then (src, (data, err))
      else ((drop cap data, err) :: src, (take cap data, None))
  end.

Section stdcopy.
Context {W : Type} {writer : Writer W}.

(** What the copy loop keeps: [sc_buf] is [buf[:nr]], and [sc_bufLen] the length
    of [buf]. *)
Record copy_state := mkCopy {
  sc_src : script;
  sc_buf : bytes;
  sc_bufLen : nat;
  sc_out : W;
  sc_err : W;
  sc_written : Z
}.

(** How the loop that reads up to [want] bytes ends: with the bytes, at the end
    of the input without them, or with an error. *)
Inductive fill_end := Filled | Corrupted | Failed (msg : string) | OutOfFuel.

Fixpoint fill (fuel want : nat) (src : script) (buf : bytes) (bufLen : nat) :
    script * bytes * fill_end :=
  if decide (length buf < want)%nat then
    match fuel with
    | O => (src, buf, OutOfFuel)
    | S fuel =>
        let '(src, (data, er)) := Read src (bufLen - length buf) in
        let buf := buf ++ data in
        match er with
        | Some EOF =>
            if decide (length buf < want)%nat then (src, buf, Corrupted) else (src, buf, Filled)
        | Some (ReadErr e) => (src, buf, Failed e)
        | None => fill fuel want src buf bufLen
        end
    end
  else (src, buf, Filled).

(** The writer a frame goes to. *)
Definition select_fd (b : Z) : option bool :=
  if decide (b = StdType_byte Stdin) then Some false
  else if decide (b = StdType_byte Stdout) then Some false
  else if decide (b = StdType_byte Stderr) then Some true
  else None.

(** One iteration of the outer loop: [inl] to go on, [inr] to return. *)
Definition copy_frame (fuel : nat) (s : copy_state) :
    copy_state + copy_state * outcome string Z :=
  match fill fuel stdWriterPrefixLen (sc_src s) (sc_buf s) (sc_bufLen s) with
  | (src, buf, OutOfFuel) => inr (s, Diverge)
  | (src, buf, Corrupted) =>
      inr (mkCopy src buf (sc_bufLen s) (sc_out s) (sc_err s) (sc_written s), Ok (sc_written s))
  | (src, buf, Failed e) =>
      inr (mkCopy src buf (sc_bufLen s) (sc_out s) (sc_err s) (sc_written s), Err e)
  | (src, buf, Filled) =>
      match select_fd (nth 0 buf 0) with
      | None =>
          inr (mkCopy src buf (sc_bufLen s) (sc_out s) (sc_err s) (sc_written s),
               Err "Unrecognized input header")
      | Some to_err =>
          let frameSize := Z.to_nat (Uint32 (take 4 (drop 4 buf))) in
          let total := (frameSize + stdWriterPrefixLen)%nat in
          let bufLen :=
            if decide (sc_bufLen s < total)%nat then (sc_bufLen s + (total - sc_bufLen s + 1))%nat
            else sc_bufLen s in
          match fill fuel total src buf bufLen with
          | (src, buf, OutOfFuel) => inr (s, Diverge)
          | (src, buf, Corrupted) =>
              inr (mkCopy src buf bufLen (sc_out s) (sc_err s) (sc_written s), Ok (sc_written s))
          | (src, buf, Failed e) =>
              inr (mkCopy src buf bufLen (sc_out s) (sc_err s) (sc_written s), Err e)
          | (src, buf, Filled) =>
              let p := take frameSize (drop stdWriterPrefixLen buf) in
              let '(w, (nw, ew)) := Writer_Write (if to_err : bool then sc_err s else sc_out s) p in
              let out := if to_err then sc_out s else w in
              let err := if to_err then w else sc_err s in
              match ew with
              | Some e => inr (mkCopy src buf bufLen out err (sc_written s), Err e)
              | None =>
                  if decide (nw = Z.of_nat frameSize)
                  then inl (mkCopy src (drop total buf) bufLen out err (wrap64 (sc_written s + nw)))
                  else inr (mkCopy src buf bufLen out err (sc_written s), Err "short write")
              end
          end
      end
  end.

Fixpoint copy_loop (frames fuel : nat) (s : copy_state) : copy_state * outcome string Z :=
  match frames with
  | O => (s, Diverge)
  | S frames =>
      match copy_frame fuel s with
      | inl s => copy_loop frames fuel s
      | inr r => r
      end
  end.

(** The bound on the calls of [Read] and on the frames: every call takes a byte or
    an event of the script, and every frame has a header. *)
Definition script_size (src : script) : nat := sum_list ((λ e, S (length e.1)) <$> src).

Definition StdCopy (dstout dsterr : W) (src : script) : copy_state * outcome string Z :=
  copy_loop (S (script_size src)) (S (script_size src))
    (mkCopy src [] startingBufLen dstout dsterr 0).
End stdcopy.
Arguments copy_state : clear implicits.
