(* ===== verification/StdCopyInv.v ===== *)
(** * Correctness of stdcopy

    What is multiplexed by [stdWriter]s is demultiplexed by [StdCopy], however the
    reader cuts the stream into pieces. *)

From S2P Require Import Prelude StdCopy.
Open Scope Z_scope.

(** ** The frame size *)

Lemma lor_shiftl a b k : 0 ≤ k → 0 ≤ a < 2 ^ k → Z.lor a (Z.shiftl b k) = a + b * 2 ^ k.
Proof.
  intros Hk Ha. rewrite Z.shiftl_mul_pow2 by done.
  rewrite <- Z.lxor_lor, <- Z.add_nocarry_lxor; [done|..].
  all: apply Z.bits_inj'; intros n Hn; rewrite Z.land_spec, Z.bits_0.
  all: destruct (decide (n < k)) as [Hlt|Hge];
    [rewrite Z.mul_pow2_bits_low by done; apply andb_false_r|].
  all: rewrite <- (Z.mod_small a (2 ^ k)) by done.
  all: rewrite Z.mod_pow2_bits_high by lia; done.
Qed.

Lemma land_255 v : Z.land v 255 = v `mod` 256.
Proof. change 255 with (Z.ones 8). by rewrite Z.land_ones. Qed.

Lemma Uint32_PutUint32 n : 0 ≤ n < 2 ^ 32 → Uint32 (PutUint32 n) = n.
Proof.
  intros Hn. unfold PutUint32, Uint32. rewrite (Z.mod_small n) by done.
  rewrite !land_255, !Z.shiftr_div_pow2 by done.
  pose proof (Z.mod_pos_bound n 256). pose proof (Z.mod_pos_bound (n / 2 ^ 8) 256).
  pose proof (Z.mod_pos_bound (n / 2 ^ 16) 256). pose proof (Z.mod_pos_bound (n / 2 ^ 24) 256).
  rewrite (lor_shiftl (n `mod` 256) _ 8) by lia.
  rewrite (lor_shiftl (n `mod` 256 + _) _ 16) by lia.
  rewrite (lor_shiftl (n `mod` 256 + _ + _) _ 24) by lia.
  assert (n / 2 ^ 16 = n / 2 ^ 8 / 256) as -> by (rewrite Z.div_div by lia; done).
  assert (n / 2 ^ 24 = n / 2 ^ 8 / 256 / 256) as -> by (rewrite !Z.div_div by lia; done).
  change (2 ^ 8) with 256. change (2 ^ 16) with (256 * 256). change (2 ^ 24) with (256 * 256 * 256).
  pose proof (Z.div_mod n 256). pose proof (Z.div_mod (n / 256) 256).
  pose proof (Z.div_mod (n / 256 / 256) 256).
  rewrite (Z.mod_small (n / 256 / 256 / 256)); [lia|].
  rewrite !Z.div_div by lia. change (256 * 256 * 256) with (2 ^ 24). split.
  - apply Z.div_pos; lia.
  - apply Z.div_lt_upper_bound; lia.
Qed.

Lemma PutUint32_length n : length (PutUint32 n) = 4%nat.
Proof. done. Qed.

(** ** Filling the buffer *)

Definition script_data (src : script) : bytes := concat src.*1.

(** A reader that delivers its data and then the end of the input, which may
    come together with the last data. *)
Fixpoint clean (src : script) : Prop :=
  match src with
  | [] => True
  | [(_, e)] => e = None ∨ e = Some EOF
  | (_, e) :: src => e = None ∧ clean src
  end.

Lemma clean_cons_none d src : clean ((d, None) :: src) ↔ clean src.
Proof. destruct src; simpl; tauto. Qed.

Lemma clean_eof d src : clean ((d, Some EOF) :: src) → src = [].
Proof. destruct src; simpl; [done|]. by intros []. Qed.

Lemma clean_err d m src : ¬ clean ((d, Some (ReadErr m)) :: src).
Proof. destruct src; simpl; [by intros []|by intros []]. Qed.

Lemma clean_data d d' e src : clean ((d, e) :: src) → clean ((d', e) :: src).
Proof. by destruct src. Qed.

Lemma fill_spec fuel want src buf bufLen :
  clean src → (script_size src < fuel)%nat → (want ≤ bufLen)%nat →
  ∃ src' buf' e, fill fuel want src buf bufLen = (src', buf', e) ∧ clean src' ∧
    buf' ++ script_data src' = buf ++ script_data src ∧
    (script_size src' ≤ script_size src)%nat ∧
    if decide (want ≤ length (buf ++ script_data src))%nat
    then e = Filled ∧ (want ≤ length buf')%nat else e = Corrupted.
Proof.
  revert src buf. induction fuel as [|fuel IH]; intros src buf Hcl Hf Hw; [lia|]. cbn [fill].
  destruct (decide (length buf < want)%nat) as [Hlt|Hge].
  2: { exists src, buf, Filled. split_and!; [done..|]. rewrite length_app.
       rewrite decide_True by lia. split; [done|lia]. }
  destruct src as [|[d e] src]; cbn [Read].
  { exists [], (buf ++ []), Corrupted. rewrite app_nil_r, decide_True by done.
    rewrite decide_False by (cbn; rewrite app_nil_r; lia). done. }
  assert (script_size ((d, e) :: src) = S (length d) + script_size src)%nat as Hsz by done.
  assert (script_data ((d, e) :: src) = d ++ script_data src) as Hdata by done.
  destruct (decide (length d ≤ bufLen - length buf)%nat) as [Hd|Hd].
  - destruct e as [[|m]|].
    + apply clean_eof in Hcl as ->.
      assert (buf ++ script_data [(d, Some EOF)] = buf ++ d) as Hall
        by (unfold script_data; cbn; by rewrite app_nil_r).
      rewrite Hall.
      exists [], (buf ++ d),
        (if decide (length (buf ++ d) < want)%nat then Corrupted else Filled).
      split; [by destruct (decide (length (buf ++ d) < want)%nat)|].
      split_and!; [done|unfold script_data; cbn; by rewrite app_nil_r|lia|].
      destruct (decide (want ≤ length (buf ++ d))%nat), (decide (length (buf ++ d) < want)%nat);
        try lia; done.
    + by apply clean_err in Hcl.
    + apply clean_cons_none in Hcl. rewrite Hdata, app_assoc.
      destruct (IH src (buf ++ d) Hcl) as (src' & buf' & e & -> & Hcl' & Heq & Hsz' & He);
        [lia|done|]. exists src', buf', e. split_and!; [done..|lia|done].
  - set (k := (bufLen - length buf)%nat) in *.
    assert (clean ((drop k d, e) :: src)) as Hcl2 by (by eapply clean_data).
    assert (script_size ((drop k d, e) :: src) < script_size ((d, e) :: src))%nat as Hlt2.
    { unfold script_size; cbn. rewrite length_drop. lia. }
    destruct (IH ((drop k d, e) :: src) (buf ++ take k d) Hcl2) as
      (src' & buf' & e' & -> & Hcl' & Heq & Hsz' & He); [lia|done|].
    assert ((buf ++ take k d) ++ script_data ((drop k d, e) :: src) =
      buf ++ script_data ((d, e) :: src)) as Hall.
    { unfold script_data; cbn. rewrite <- !app_assoc. f_equal.
      by rewrite app_assoc, take_drop. }
    rewrite Hall in Heq, He. exists src', buf', e'. split_and!; [done..|lia|done].
Qed.

(** ** Copying *)

(** A writer that takes everything, and what it holds. *)
Class FullWriter (W : Type) `{Writer W} := {
  fw_content : W → bytes;
  fw_Write w p : ∃ w', Writer_Write w p = (w', (Z.of_nat (length p), None)) ∧
    fw_content w' = fw_content w ++ p
}.

Section copy.
Context {W : Type} {writer : Writer W} {full : FullWriter W}.

(** What a frame adds to each of the two outputs. *)
Definition for_err (t : StdType) : bool := match t with Stderr => true | _ => false end.
Definition stream (err : bool) (fs : list (StdType * bytes)) : bytes :=
  concat ((λ f, if bool_decide (for_err f.1 = err) then f.2 else []) <$> fs).
Definition total (fs : list (StdType * bytes)) : Z :=
  Z.of_nat (length (concat fs.*2)).

(** The multiplexed stream. *)
Definition mux (fs : list (StdType * bytes)) : bytes :=
  concat ((λ f, frame (StdType_byte f.1) f.2) <$> fs).

Definition small (f : StdType * bytes) : Prop := Z.of_nat (length f.2) < 2 ^ 32.

Lemma select_fd_type t : select_fd (StdType_byte t) = Some (for_err t).
Proof. by destruct t. Qed.

Lemma frame_length t p : length (frame t p) = (8 + length p)%nat.
Proof. done. Qed.

Lemma frame_size t p rest :
  Z.of_nat (length p) < 2 ^ 32 →
  Uint32 (take 4 (drop 4 (frame t p ++ rest))) = Z.of_nat (length p).
Proof. intros Hp. apply (Uint32_PutUint32 (Z.of_nat (length p))). lia. Qed.

(** The header of the frame is read whatever prefix of it [buf] already is. *)
Lemma app_header (buf data t4 rest : bytes) :
  buf ++ data = t4 ++ rest → (length t4 ≤ length buf)%nat →
  ∃ b, buf = t4 ++ b ∧ b ++ data = rest.
Proof.
  intros Heq Hlen. exists (drop (length t4) buf).
  assert (take (length t4) buf = t4) as Ht.
  { apply (f_equal (take (length t4))) in Heq. rewrite take_app_length in Heq.
    by rewrite take_app_le in Heq. }
  split; [by rewrite <- Ht at 1; rewrite take_drop|].
  apply (f_equal (drop (length t4))) in Heq. rewrite drop_app_length in Heq.
  by rewrite drop_app_le in Heq.
Qed.

Lemma copy_frame_full fuel (s : copy_state W) t p rest :
  clean (sc_src s) → (script_size (sc_src s) < fuel)%nat → (8 ≤ sc_bufLen s)%nat →
  Z.of_nat (length p) < 2 ^ 32 →
  sc_buf s ++ script_data (sc_src s) = frame (StdType_byte t) p ++ rest →
  ∃ s', copy_frame fuel s = inl s' ∧ clean (sc_src s') ∧
    (script_size (sc_src s') ≤ script_size (sc_src s))%nat ∧ (8 ≤ sc_bufLen s')%nat ∧
    sc_buf s' ++ script_data (sc_src s') = rest ∧
    fw_content (sc_out s') = fw_content (sc_out s) ++ (if for_err t then [] else p) ∧
    fw_content (sc_err s') = fw_content (sc_err s) ++ (if for_err t then p else []) ∧
    sc_written s' = wrap64 (sc_written s + Z.of_nat (length p)).
Proof.
  intros Hcl Hf Hbl Hp Hall. unfold copy_frame.
  destruct (fill_spec fuel stdWriterPrefixLen (sc_src s) (sc_buf s) (sc_bufLen s) Hcl Hf Hbl)
    as (src1 & buf1 & e1 & -> & Hcl1 & Hall1 & Hsz1 & He1).
  rewrite Hall in Hall1, He1. unfold stdWriterPrefixLen in *.
  rewrite decide_True in He1 by (rewrite length_app, frame_length; lia).
  destruct He1 as [-> Hlen1].
  set (hdr := [StdType_byte t; 0; 0; 0] ++ PutUint32 (Z.of_nat (length p))).
  assert (frame (StdType_byte t) p ++ rest = hdr ++ (p ++ rest)) as Hfr by done.
  rewrite Hfr in Hall1. destruct (app_header buf1 _ hdr _ Hall1 Hlen1) as (b & -> & Hb).
  replace (nth 0 (hdr ++ b) 0) with (StdType_byte t) by done. rewrite select_fd_type.
  replace (take 4 (drop 4 (hdr ++ b))) with (PutUint32 (Z.of_nat (length p))) by done.
  rewrite Uint32_PutUint32 by lia. rewrite Nat2Z.id.
  set (bl := if decide _ then _ else _).
  assert (length p + 8 ≤ bl ∧ 8 ≤ bl)%nat as [Hbl1 Hbl2].
  { unfold bl. case_decide; lia. }
  destruct (fill_spec fuel (length p + 8) src1 (hdr ++ b) bl Hcl1) as
    (src2 & buf2 & e2 & -> & Hcl2 & Hall2 & Hsz2 & He2); [lia|done|].
  rewrite <- app_assoc, Hb in Hall2, He2.
  rewrite decide_True in He2 by (rewrite !length_app; cbn; lia).
  destruct He2 as [-> Hlen2]. rewrite app_assoc in Hall2.
  destruct (app_header buf2 _ (hdr ++ p) rest Hall2) as (b2 & -> & Hb2).
  { rewrite length_app. cbn. lia. }
  rewrite <- app_assoc. change (drop 8 (hdr ++ p ++ b2)) with (p ++ b2).
  rewrite take_app_length.
  change (length p + 8)%nat with (length p + length hdr)%nat.
  rewrite app_assoc, (Nat.add_comm (length p)), <- length_app, drop_app_length.
  destruct t; simpl for_err; cbn match;
    match goal with |- context [Writer_Write ?w p] =>
      destruct (fw_Write w p) as (w' & -> & Hw') end;
    rewrite decide_True by done; eexists; (split_and!; [done|..]);
    cbn [sc_src sc_buf sc_bufLen sc_out sc_err sc_written];
    rewrite ?app_nil_r; done || lia.
Qed.

(** An incomplete frame: its header is missing bytes, or its payload is. *)
Definition incomplete (rest : bytes) : Prop :=
  (length rest < 8)%nat ∨
  ∃ t n p, (0 ≤ n < 2 ^ 32) ∧ rest = [StdType_byte t; 0; 0; 0] ++ PutUint32 n ++ p ∧
    Z.of_nat (length p) < n.

Lemma copy_frame_end fuel (s : copy_state W) rest :
  clean (sc_src s) → (script_size (sc_src s) < fuel)%nat → (8 ≤ sc_bufLen s)%nat →
  incomplete rest → sc_buf s ++ script_data (sc_src s) = rest →
  ∃ s', copy_frame fuel s = inr (s', Ok (sc_written s)) ∧
    sc_out s' = sc_out s ∧ sc_err s' = sc_err s.
Proof.
  intros Hcl Hf Hbl Hinc Hall. unfold copy_frame.
  destruct (fill_spec fuel stdWriterPrefixLen (sc_src s) (sc_buf s) (sc_bufLen s) Hcl Hf Hbl)
    as (src1 & buf1 & e1 & -> & Hcl1 & Hall1 & Hsz1 & He1).
  rewrite Hall in Hall1, He1. unfold stdWriterPrefixLen in *.
  destruct Hinc as [Hshort|(t & n & p & Hn & -> & Hp)].
  { rewrite decide_False in He1 by lia. subst e1. by eexists. }
  set (hdr := [StdType_byte t; 0; 0; 0] ++ PutUint32 n).
  rewrite decide_True in He1 by (cbn; lia). destruct He1 as [-> Hlen1].
  destruct (app_header buf1 _ hdr p Hall1 Hlen1) as (b & -> & Hb).
  replace (nth 0 (hdr ++ b) 0) with (StdType_byte t) by done. rewrite select_fd_type.
  replace (take 4 (drop 4 (hdr ++ b))) with (PutUint32 n) by done.
  rewrite Uint32_PutUint32 by done.
  set (bl := if decide _ then _ else _).
  assert (Z.to_nat n + 8 ≤ bl)%nat as Hbl1 by (unfold bl; case_decide; lia).
  destruct (fill_spec fuel (Z.to_nat n + 8) src1 (hdr ++ b) bl Hcl1) as
    (src2 & buf2 & e2 & -> & Hcl2 & Hall2 & Hsz2 & He2); [lia|done|].
  rewrite <- app_assoc, Hb in He2. rewrite decide_False in He2.
  - subst e2. by eexists.
  - rewrite length_app. change (length hdr) with 8%nat. lia.
Qed.

Lemma stream_cons err t p fs :
  stream err ((t, p) :: fs) = (if bool_decide (for_err t = err) then p else []) ++ stream err fs.
Proof. done. Qed.

Lemma total_cons t p fs : total ((t, p) :: fs) = Z.of_nat (length p) + total fs.
Proof. unfold total. cbn. rewrite length_app. lia. Qed.

Lemma copy_loop_mux fs : ∀ n fuel (s : copy_state W) rest,
  clean (sc_src s) → (script_size (sc_src s) < fuel)%nat → (8 ≤ sc_bufLen s)%nat →
  -2 ^ 63 ≤ sc_written s < 2 ^ 63 →
  Forall small fs → incomplete rest → (length fs < n)%nat →
  sc_buf s ++ script_data (sc_src s) = mux fs ++ rest →
  ∃ s', copy_loop n fuel s = (s', Ok (wrap64 (sc_written s + total fs))) ∧
    fw_content (sc_out s') = fw_content (sc_out s) ++ stream false fs ∧
    fw_content (sc_err s') = fw_content (sc_err s) ++ stream true fs.
Proof.
  induction fs as [|[t p] fs IH];
    intros n fuel s rest Hcl Hf Hbl Hwr Hsm Hinc Hn Hall.
  all: destruct n as [|n]; [simpl in Hn; lia|]; cbn [copy_loop].
  - destruct (copy_frame_end fuel s rest Hcl Hf Hbl Hinc Hall) as (s' & -> & Ho & He).
    exists s'. rewrite Ho, He. change (total []) with 0. rewrite Z.add_0_r, wrap64_id by done.
    unfold stream; cbn. by rewrite !app_nil_r.
  - apply Forall_cons in Hsm as [Hp Hsm].
    change (mux ((t, p) :: fs)) with (frame (StdType_byte t) p ++ mux fs) in Hall.
    rewrite <- app_assoc in Hall.
    destruct (copy_frame_full fuel s t p (mux fs ++ rest) Hcl Hf Hbl Hp Hall) as
      (s1 & -> & Hcl1 & Hsz1 & Hbl1 & Hall1 & Ho1 & He1 & Hw1).
    destruct (IH n fuel s1 rest) as (s' & -> & Ho & He); [done|lia|done| |done..|simpl in Hn; lia|done|].
    { rewrite Hw1. apply wrap64_range. }
    exists s'. rewrite Ho, He, Ho1, He1, Hw1, wrap64_add, !stream_cons, total_cons, <- !app_assoc.
    split_and!; [do 3 f_equal; lia|by destruct t..].
Qed.

Lemma script_data_length src : (length (script_data src) ≤ script_size src)%nat.
Proof.
  unfold script_data, script_size. induction src as [|[d e] src IH]; [done|].
  cbn. rewrite length_app. cbn in IH. lia.
Qed.

Lemma mux_length fs : (length fs ≤ length (mux fs))%nat.
Proof.
  induction fs as [|[t p] fs IH]; [done|].
  change (mux ((t, p) :: fs)) with (frame (StdType_byte t) p ++ mux fs).
  rewrite length_app, frame_length. cbn. lia.
Qed.

(** C19: Demultiplexing inverts multiplexing: from any reader that delivers the
    frames that [stdWriter]s wrote (each of less than 2^32 bytes), cut into any
    pieces, and then the end of the input, possibly in the middle of a frame,
    [StdCopy] returns, having written to standard output and to standard error
    exactly the bytes that were sent to each, in order, and it returns their
    number as an int64. *)
Theorem StdCopy_demultiplexes (dstout dsterr : W) src fs rest :
  clean src → Forall small fs → incomplete rest → script_data src = mux fs ++ rest →
  ∃ s', StdCopy dstout dsterr src = (s', Ok (wrap64 (total fs))) ∧
    fw_content (sc_out s') = fw_content dstout ++ stream false fs ∧
    fw_content (sc_err s') = fw_content dsterr ++ stream true fs.
Proof.
  intros Hcl Hsm Hinc Hall. unfold StdCopy.
  apply (copy_loop_mux fs _ _ (mkCopy src [] startingBufLen dstout dsterr 0) rest);
    cbn [sc_src sc_bufLen sc_written sc_buf]; try done; try lia.
  - apply Nat.leb_le. vm_compute. reflexivity.
  - pose proof (script_data_length src). pose proof (mux_length fs).
    rewrite Hall, length_app in H. lia.
Qed.
End copy.

(** A buffer is a full writer; the frames arrive in it as [mux] describes. *)
#[global] Instance buffer_Writer : Writer bytes := {|
  Writer_Write w p := (w ++ p, (Z.of_nat (length p), None))
|}.
#[global] Program Instance buffer_FullWriter : FullWriter bytes := {| fw_content w := w |}.
Next Obligation. intros w p. by eexists. Qed.

(** [stdWriter.Write] on a buffer appends one frame and reports the length
    of the payload. *)
Lemma stdWriter_Write_frame (w : bytes) t p :
  stdWriter_Write (Some w) (StdType_byte t) (Some p) =
    (Some (w ++ mux [(t, p)]), (Z.of_nat (length p), None)).
Proof.
  unfold stdWriter_Write, mux. cbn [Writer_Write buffer_Writer fmap list_fmap concat].
  rewrite app_nil_r, frame_length. rewrite decide_False.
  - do 2 f_equal. unfold stdWriterPrefixLen. lia.
  - unfold stdWriterPrefixLen. lia.
Qed.

Lemma StdCopy_demultiplexes_witness :
  let fs := [(Stdout, [104; 105]); (Stderr, [33]); (Stdin, [])] in
  let src := [(take 5 (mux fs), None); ([], None); (drop 5 (mux fs) ++ [1; 0], Some EOF)] in
  ∃ s', StdCopy [] [7] src = (s', Ok 3) ∧ sc_out s' = [104; 105] ∧ sc_err s' = [7; 33].
Proof.
  destruct (StdCopy_demultiplexes (W := bytes) [] [7]
    [(take 5 (mux [(Stdout, [104; 105]); (Stderr, [33]); (Stdin, [])]), None); ([], None);
     (drop 5 (mux [(Stdout, [104; 105]); (Stderr, [33]); (Stdin, [])]) ++ [1; 0], Some EOF)]
    [(Stdout, [104; 105]); (Stderr, [33]); (Stdin, [])] [1; 0]) as (s' & Hs & Ho & He).
  - vm_compute. auto.
  - repeat constructor.
  - left. cbn. lia.
  - vm_compute. reflexivity.
  - exists s'. split; [exact Hs|]. split; [exact Ho|exact He].
Defined.
