(* ===== verification/BytesPipe.v ===== *)
(** * pkg/ioutils: the bytes pipe

    The model of pkg/ioutils/buffer.go and pkg/ioutils/bytespipe.go.  A
    [fixedBuffer] is the list of the bytes written to it ([fb_data] is
    [buf[:pos]]), its capacity and the read position.  Buffers from the pools are
    empty: [returnBuffer] resets them.

    [Write] and [Read] hold the lock except while they wait, so each runs as a
    sequence of atomic sections: from the start, or from the return of [Wait], to
    the next [Wait] or to the end.  [pipe_step] interleaves the sections of any
    number of callers; a waiting caller may wake up at any time. *)

From S2P Require Import Prelude.
Open Scope Z_scope.

(** ** fixedBuffer *)

Record fixedBuffer := mkFixed { fb_data : list Z; fb_cap : Z; fb_lastRead : nat }.

Definition fb_pos (b : fixedBuffer) : nat := length (fb_data b).
Definition fb_Len (b : fixedBuffer) : nat := fb_pos b - fb_lastRead b.
Definition fb_unread (b : fixedBuffer) : list Z := drop (fb_lastRead b) (fb_data b).
Definition fb_room (b : fixedBuffer) : Z := fb_cap b - Z.of_nat (fb_pos b).

Inductive buffer_error := errBufferFull | ErrShortWrite.

(** [Write]: [copy(b.buf[b.pos:cap(b.buf)], p)]. *)
Definition fb_Write (b : fixedBuffer) (p : list Z) :
    fixedBuffer * nat * option buffer_error :=
  let n := Nat.min (Z.to_nat (fb_room b)) (length p) in
  let b := mkFixed (fb_data b ++ take n p) (fb_cap b) (fb_lastRead b) in
  if decide (n < length p)%nat then
    if decide (Z.of_nat (fb_pos b) = fb_cap b) then (b, n, Some errBufferFull)
    else (b, n, Some ErrShortWrite)
  else (b, n, None).

(** [Read] into a slice of [k] bytes. *)
Definition fb_Read (b : fixedBuffer) (k : nat) : fixedBuffer * list Z :=
  let d := take k (fb_unread b) in
  (mkFixed (fb_data b) (fb_cap b) (fb_lastRead b + length d), d).

(** ** BytesPipe *)

Definition maxCap : Z := 1000000.
Definition minCap : Z := 64.
Definition blockThreshold : Z := 1000000.

Record BytesPipe := mkPipe {
  bp_buf : list fixedBuffer;
  bp_bufLen : Z;
  bp_closeErr : option string
}.

Definition getBuffer (size : Z) : fixedBuffer := mkFixed [] size 0.

Definition NewBytesPipe : BytesPipe := mkPipe [getBuffer minCap] 0 None.

Definition CloseWithError (bp : BytesPipe) (err : option string) : BytesPipe :=
  mkPipe (bp_buf bp) (bp_bufLen bp) (Some (default "EOF" err)).

(** How a section of [Write] ends: it returns, or it waits with the rest of the
    data and the capacity of the buffer it filled last. *)
Inductive write_end :=
| WRet (written : nat) (err : option string)
| WWait (p : list Z) (written : nat) (cap : Z)
| WFuel.

Definition nextCap (cap : Z) : Z :=
  if decide (cap * 2 > maxCap) then maxCap else cap * 2.

Definition add_buffer (bp : BytesPipe) (size : Z) : BytesPipe :=
  mkPipe (bp_buf bp ++ [getBuffer size]) (bp_bufLen bp) (bp_closeErr bp).

(** [bp.buf] with its last buffer replaced. *)
Definition set_last (bs : list fixedBuffer) (b : fixedBuffer) : list fixedBuffer :=
  take (length bs - 1) bs ++ [b].

(** The loop of [Write] from its head. *)
Fixpoint write_loop (fuel : nat) (bp : BytesPipe) (p : list Z) (written : nat) :
    BytesPipe * write_end :=
  match fuel with
  | O => (bp, WFuel)
  | S fuel =>
      match bp_closeErr bp with
      | Some _ => (bp, WRet written (Some "write to closed BytesPipe"))
      | None =>
          let bp := if decide (length (bp_buf bp) = 0%nat) then add_buffer bp 64 else bp in
          match last (bp_buf bp) with
          | None => (bp, WFuel)
          | Some b =>
              let '(b, n, err) := fb_Write b p in
              let written := (written + n)%nat in
              let bp := mkPipe (set_last (bp_buf bp) b) (bp_bufLen bp + Z.of_nat n)
                          (bp_closeErr bp) in
              match err with
              | Some ErrShortWrite => (bp, WRet written (Some "short write"))
              | _ =>
                  if decide (length p = n) then (bp, WRet written None)
                  else
                    let p := drop n p in
                    if decide (bp_bufLen bp >= blockThreshold)
                    then (bp, WWait p written (fb_cap b))
                    else write_loop fuel (add_buffer bp (nextCap (fb_cap b))) p written
              end
          end
      end
  end.

Definition write_fuel (p : list Z) : nat := S (S (length p)).

Definition write_section (bp : BytesPipe) (p : list Z) (written : nat) : BytesPipe * write_end :=
  write_loop (write_fuel p) bp p written.

(** After [bp.wait.Wait()] in [Write]. *)
Definition write_resume (bp : BytesPipe) (p : list Z) (written : nat) (cap : Z) :
    BytesPipe * write_end :=
  match bp_closeErr bp with
  | Some _ => write_section bp p written
  | None =>
      if decide (bp_bufLen bp >= blockThreshold) then (bp, WWait p written cap)
      else write_section (add_buffer bp (nextCap cap)) p written
  end.

(** How a section of [Read] ends. *)
Inductive read_end :=
| RRet (data : list Z) (err : option string)
| RWait
| RPanic.

(** The loop of [Read]: [k] is the room left in the caller's slice.  The result is
    [None] where the code would panic (no buffer although bytes are counted), and
    in a case that cannot occur: [fixedBuffer.Read] fills the slice or empties the
    buffer. *)
Fixpoint read_loop (bs : list fixedBuffer) (bufLen : Z) (k : nat) :
    list fixedBuffer * Z * option (list Z) :=
  if decide (bufLen > 0) then
    match bs with
    | [] => (bs, bufLen, None)
    | b :: bs =>
        let '(b, d) := fb_Read b k in
        let bufLen := bufLen - Z.of_nat (length d) in
        if decide (fb_Len b = 0%nat) then
          if decide (k = length d) then (bs, bufLen, Some d)
          else
            let '(bs, bufLen, r) := read_loop bs bufLen (k - length d) in
            (bs, bufLen, (λ d', d ++ d') <$> r)
        else
          if decide (k = length d) then (b :: bs, bufLen, Some d)
          else (b :: bs, bufLen, None)
    end
  else (bs, bufLen, Some []).

Definition read_data (bp : BytesPipe) (k : nat) : BytesPipe * read_end :=
  let '(bs, bufLen, r) := read_loop (bp_buf bp) (bp_bufLen bp) k in
  (mkPipe bs bufLen (bp_closeErr bp),
   match r with Some d => RRet d None | None => RPanic end).

Definition read_section (bp : BytesPipe) (k : nat) : BytesPipe * read_end :=
  if decide (bp_bufLen bp = 0) then
    match bp_closeErr bp with
    | Some e => (bp, RRet [] (Some e))
    | None => (bp, RWait)
    end
  else read_data bp k.

(** After [bp.wait.Wait()] in [Read]: the length is not tested again in a loop. *)
Definition read_resume (bp : BytesPipe) (k : nat) : BytesPipe * read_end :=
  match bp_closeErr bp with
  | Some e => if decide (bp_bufLen bp = 0) then (bp, RRet [] (Some e)) else read_data bp k
  | None => read_data bp k
  end.
