(* ===== verification/BytesPipeInv.v ===== *)
(** * Correctness of the bytes pipe

    The pipe is a first-in first-out queue with a bounded amount of data, under
    any interleaving of the sections of its callers. *)

From S2P Require Import Prelude BytesPipe.
Open Scope Z_scope.

Definition contents (bs : list fixedBuffer) : list Z := concat (fb_unread <$> bs).

#[local] Arguments contents _ : simpl never.

Definition buffer_ok (b : fixedBuffer) : Prop :=
  Z.of_nat (fb_pos b) ≤ fb_cap b ∧ (fb_lastRead b ≤ fb_pos b)%nat ∧ 0 < fb_cap b ≤ maxCap.

(** What can be in the pipe when the last buffer is full. *)
Definition pipe_bound : Z := blockThreshold + maxCap.

Record pipe_ok (bp : BytesPipe) : Prop := {
  po_buffers : Forall buffer_ok (bp_buf bp);
  po_len : bp_bufLen bp = Z.of_nat (length (contents (bp_buf bp)));
  po_bound b : last (bp_buf bp) = Some b → bp_bufLen bp + fb_room b < pipe_bound
}.

Lemma contents_app bs bs' : contents (bs ++ bs') = contents bs ++ contents bs'.
Proof. unfold contents. by rewrite fmap_app, concat_app. Qed.

Lemma contents_singleton b : contents [b] = fb_unread b.
Proof. unfold contents. cbn. by rewrite app_nil_r. Qed.

Lemma getBuffer_ok size : 0 < size ≤ maxCap → buffer_ok (getBuffer size).
Proof. intros. unfold buffer_ok, fb_pos; cbn. lia. Qed.

Lemma nextCap_range cap : 0 < cap ≤ maxCap → 0 < nextCap cap ≤ maxCap.
Proof. unfold nextCap. case_decide; unfold maxCap in *; lia. Qed.

(** The last buffer and the others. *)
Lemma last_split {A} (l : list A) x :
  last l = Some x → l = take (length l - 1) l ++ [x].
Proof.
  intros [l' ->]%last_Some. rewrite length_app; cbn.
  replace (length l' + 1 - 1)%nat with (length l') by lia. by rewrite take_app_length.
Qed.

Lemma contents_set_last bs b b' d :
  last bs = Some b → fb_unread b' = fb_unread b ++ d →
  contents (set_last bs b') = contents bs ++ d.
Proof.
  intros Hb Hd. rewrite (last_split bs b Hb) at 2. unfold set_last.
  by rewrite !contents_app, !contents_singleton, Hd, app_assoc.
Qed.

Lemma fb_Write_spec b p :
  buffer_ok b →
  ∃ b' n, fb_Write b p = (b', n, if decide (n < length p)%nat then Some errBufferFull else None) ∧
    buffer_ok b' ∧ n = Nat.min (Z.to_nat (fb_room b)) (length p) ∧
    fb_unread b' = fb_unread b ++ take n p ∧ fb_cap b' = fb_cap b ∧
    fb_room b' = fb_room b - Z.of_nat n.
Proof.
  intros (Hpos & Hlr & Hcap). unfold fb_Write. set (n := Nat.min _ _).
  set (b' := mkFixed _ _ _).
  assert (fb_pos b' = fb_pos b + n)%nat as Hp'.
  { unfold fb_pos; cbn. rewrite length_app, length_take. lia. }
  assert (fb_room b' = fb_room b - Z.of_nat n) as Hroom.
  { unfold fb_room. rewrite Hp'. cbn. lia. }
  exists b', n. split_and!; [| |done| |done|done].
  - destruct (decide (n < length p)%nat) as [Hlt|]; [|done].
    rewrite decide_True; [done|]. unfold fb_room in *. cbn in Hroom |- *. lia.
  - split_and!; unfold fb_room in *; [|rewrite Hp'; cbn; lia|cbn; lia..]. cbn in *. lia.
  - unfold fb_unread; cbn. rewrite drop_app_le; [done|]. unfold fb_pos in Hlr. lia.
Qed.

(** Appending an empty buffer. *)
Lemma add_buffer_ok bp size :
  pipe_ok bp → 0 < size ≤ maxCap → bp_bufLen bp < blockThreshold →
  pipe_ok (add_buffer bp size) ∧ contents (bp_buf (add_buffer bp size)) = contents (bp_buf bp).
Proof.
  intros [Hb Hl Hbd] Hs Hlt.
  assert (contents (bp_buf (add_buffer bp size)) = contents (bp_buf bp)) as Hc.
  { cbn. rewrite contents_app, contents_singleton. cbn. by rewrite app_nil_r. }
  split; [|done]. split.
  - cbn. apply Forall_app. split; [done|]. constructor; [by apply getBuffer_ok|constructor].
  - rewrite Hc. cbn. done.
  - cbn. intros b. rewrite last_snoc. intros [= <-]. unfold fb_room, fb_pos, pipe_bound; cbn. lia.
Qed.

(** What a section of [Write] does: it appends the first [n] bytes of [p]. *)
Definition write_post (bp : BytesPipe) (p : list Z) (written : nat) (bp' : BytesPipe)
    (e : write_end) : Prop :=
  pipe_ok bp' ∧ bp_closeErr bp' = bp_closeErr bp ∧
  ∃ n, (n ≤ length p)%nat ∧ contents (bp_buf bp') = contents (bp_buf bp) ++ take n p ∧
    match e with
    | WRet w err => w = (written + n)%nat ∧ (err = None → n = length p) ∧
        (is_Some err → is_Some (bp_closeErr bp))
    | WWait p' w cap => p' = drop n p ∧ w = (written + n)%nat ∧
        bp_bufLen bp' >= blockThreshold ∧ 0 < cap ≤ maxCap
    | WFuel => False
    end.

(** The room of the last buffer, as a step of the measure. *)
Definition full_last (bp : BytesPipe) : nat :=
  match last (bp_buf bp) with
  | Some b => if decide (fb_room b = 0) then 1 else 0
  | None => 0
  end.

Lemma write_loop_spec fuel : ∀ bp p written,
  pipe_ok bp → (length p + full_last bp < fuel)%nat →
  write_post bp p written (write_loop fuel bp p written).1 (write_loop fuel bp p written).2.
Proof.
  induction fuel as [|fuel IH]; intros bp p written Hok Hf; [lia|]. cbn [write_loop].
  destruct (bp_closeErr bp) as [e|] eqn:Hclose.
  { split_and!; [done|by rewrite Hclose|]. exists 0%nat. split_and!; [lia| |done].
    by rewrite take_0, app_nil_r. }
  set (bp1 := if decide _ then _ else _).
  assert (pipe_ok bp1 ∧ contents (bp_buf bp1) = contents (bp_buf bp) ∧
    bp_closeErr bp1 = None ∧ full_last bp1 = full_last bp ∧ ∃ b, last (bp_buf bp1) = Some b)
    as (Hok1 & Hc1 & Hcl1 & Hfl1 & b & Hb).
  { unfold bp1. case_decide as Hnil; [apply length_zero_iff_nil in Hnil|].
    - destruct (add_buffer_ok bp 64 Hok) as [? ?]; [unfold maxCap; lia| |].
      { rewrite (po_len _ Hok), Hnil. cbn. done. }
      split_and!; try done.
      + unfold full_last. cbn. by rewrite Hnil.
      + cbn. rewrite last_snoc. eauto.
    - split_and!; try done. apply last_is_Some. intros Hn. by rewrite Hn in Hnil. }
  rewrite Hb. assert (buffer_ok b) as Hbok.
  { eapply Forall_forall; [apply (po_buffers _ Hok1)|]. rewrite (last_split _ _ Hb). set_solver. }
  destruct (fb_Write_spec b p Hbok) as (b' & n & -> & Hbok' & Hn & Hun & Hcap & Hroom).
  set (bp2 := mkPipe _ _ _).
  assert (contents (bp_buf bp2) = contents (bp_buf bp) ++ take n p) as Hc2.
  { cbn. by rewrite (contents_set_last _ _ _ _ Hb Hun), Hc1. }
  assert (pipe_ok bp2) as Hok2.
  { split.
    - cbn. unfold set_last. apply Forall_app. split; [apply Forall_take, Hok1|].
      by constructor.
    - rewrite Hc2, length_app, length_take. cbn. rewrite (po_len _ Hok1), Hc1. lia.
    - cbn. unfold set_last. intros x. rewrite last_snoc. intros [= <-].
      pose proof (po_bound _ Hok1 b Hb). lia. }
  assert (n ≤ length p)%nat as Hnp by lia.
  assert (bp_closeErr bp2 = bp_closeErr bp) as Hcl2 by (cbn; congruence).
  assert (∀ r, match (if decide (n < length p)%nat then Some errBufferFull else None) with
    | Some ErrShortWrite => (bp2, WRet (written + n) (Some "short write"))
    | _ => r end = r) as -> by (by intros r; case_decide).
  destruct (decide (length p = n)) as [Hpn|Hpn].
  { split_and!; [done..|]. exists n. cbn [fst snd]. split_and!; [done..|by intros []]. }
  destruct (decide (bp_bufLen bp2 >= blockThreshold)) as [Hth|Hth].
  { split_and!; [done..|]. exists n. cbn [fst snd]. split_and!; [done..| |].
    all: rewrite Hcap; apply Hbok. }
  destruct (add_buffer_ok bp2 (nextCap (fb_cap b')) Hok2) as [Hok3 Hc3];
    [rewrite Hcap; apply nextCap_range, Hbok|lia|].
  assert (full_last (add_buffer bp2 (nextCap (fb_cap b'))) = 0%nat) as Hfl3.
  { unfold full_last. cbn. rewrite last_snoc. rewrite decide_False; [done|].
    unfold fb_room, fb_pos; cbn. pose proof (nextCap_range (fb_cap b')). rewrite Hcap in *.
    destruct Hbok as (_ & _ & ?). lia. }
  assert (0 < n ∨ full_last bp = 1)%nat as Hprog.
  { unfold full_last in *. rewrite Hb in Hfl1. case_decide as Hr; [by right|]. left.
    destruct Hbok as (? & _ & _). unfold fb_room in *. lia. }
  destruct (IH (add_buffer bp2 (nextCap (fb_cap b'))) (drop n p) (written + n)%nat) as
    (Hok' & Hcl' & n' & Hn' & Hc' & He); [done|rewrite length_drop; lia|].
  split_and!; [done|by rewrite Hcl'|].
  rewrite length_drop in Hn'. exists (n + n')%nat. split_and!; [lia| |].
  - rewrite Hc', Hc3, Hc2, <- app_assoc. f_equal.
    by rewrite take_take_drop.
  - destruct ((write_loop _ _ _ _).2) as [w err|p' w cap|]; [| |done].
    + destruct He as (-> & Hall & Herr). split_and!; [lia| |].
      * intros He. specialize (Hall He). rewrite length_drop in Hall. lia.
      * intros He. apply Herr in He as [? He]. cbn in He. congruence.
    + destruct He as (-> & -> & Hth' & Hcap'). rewrite drop_drop.
      split; [done|]. split; [lia|]. by split.
Qed.

(** ** Reading *)

Lemma contents_cons b bs : contents (b :: bs) = fb_unread b ++ contents bs.
Proof. done. Qed.

Lemma fb_unread_length b :
  buffer_ok b → length (fb_unread b) = fb_Len b.
Proof. intros _. unfold fb_unread, fb_Len, fb_pos. apply length_drop. Qed.

Lemma fb_Read_spec b k :
  buffer_ok b →
  ∃ b', fb_Read b k = (b', take k (fb_unread b)) ∧ buffer_ok b' ∧
    fb_unread b' = drop k (fb_unread b) ∧ fb_room b' = fb_room b ∧
    fb_Len b' = (fb_Len b - k)%nat.
Proof.
  intros (Hpos & Hlr & Hcap). unfold fb_Read. set (b' := mkFixed _ _ _).
  assert (length (take k (fb_unread b)) = Nat.min k (fb_Len b)) as Hlen.
  { rewrite length_take. unfold fb_unread, fb_Len, fb_pos. by rewrite length_drop. }
  exists b'. split; [done|]. split; [|split; [|split; [done|]]].
  - split; [exact Hpos|]. split; [|exact Hcap]. cbn. rewrite Hlen. unfold fb_Len, fb_pos in *. lia.
  - unfold fb_unread at 1; cbn. rewrite Hlen, <- drop_drop.
    fold (fb_unread b). destruct (decide (k ≤ fb_Len b)%nat) as [Hk|Hk].
    + by rewrite Nat.min_l.
    + rewrite Nat.min_r by lia. rewrite !drop_ge; [done|..].
      all: unfold fb_unread, fb_Len, fb_pos in *; rewrite length_drop; lia.
  - unfold fb_Len at 1, fb_pos; cbn. rewrite Hlen. unfold fb_Len, fb_pos in *. lia.
Qed.

Lemma read_loop_spec bs : ∀ k,
  Forall buffer_ok bs →
  ∃ bs', read_loop bs (Z.of_nat (length (contents bs))) k =
      (bs', Z.of_nat (length (drop k (contents bs))), Some (take k (contents bs))) ∧
    contents bs' = drop k (contents bs) ∧ Forall buffer_ok bs' ∧
    ∀ b', last bs' = Some b' → ∃ b, last bs = Some b ∧ fb_room b' = fb_room b.
Proof.
  induction bs as [|b bs IH]; intros k Hok; cbn [read_loop].
  { exists []. change (contents []) with (@nil Z).
    rewrite decide_False by (cbn; lia). by rewrite !drop_nil, take_nil. }
  apply Forall_cons in Hok as [Hb Hbs].
  destruct (decide (Z.of_nat (length (contents (b :: bs))) > 0)) as [Hpos|Hpos].
  2: { assert (contents (b :: bs) = []) as Hnil by (apply length_zero_iff_nil; lia).
       exists (b :: bs). rewrite Hnil, drop_nil, take_nil. split_and!; [done..|by constructor|].
       eauto. }
  destruct (fb_Read_spec b k Hb) as (b' & -> & Hb' & Hun & Hroom & Hlen).
  pose proof (fb_unread_length b Hb) as Hul.
  rewrite contents_cons, length_app. rewrite Hlen.
  destruct (decide (fb_Len b - k = 0)%nat) as [Hz|Hz].
  - rewrite (take_ge (fb_unread b)) by lia. rewrite Hul.
    assert (∀ bs' : list fixedBuffer, (∀ b', last bs' = Some b' → ∃ b, last bs = Some b ∧ fb_room b' = fb_room b) →
      ∀ b', last bs' = Some b' → ∃ b0, last (b :: bs) = Some b0 ∧ fb_room b' = fb_room b0) as Hlast.
    { intros bs' Hl x Hx. destruct (Hl x Hx) as (y & Hy & ?). exists y. split; [|done].
      rewrite last_cons. by rewrite Hy. }
    replace (Z.of_nat (fb_Len b + length (contents bs)) - Z.of_nat (fb_Len b))
      with (Z.of_nat (length (contents bs))) by lia.
    destruct (decide (k = fb_Len b)) as [->|Hk].
    + exists bs. rewrite <- Hul, take_app_length, drop_app_length.
      split_and!; [done..|]. apply Hlast. eauto.
    + destruct (IH (k - fb_Len b)%nat Hbs) as (bs' & -> & Hc & Hok' & Hl').
      exists bs'. rewrite take_app_ge, drop_app_ge by lia. rewrite Hul.
      split_and!; [done..|]. by apply Hlast.
  - rewrite length_take, Hul, Nat.min_l by lia. rewrite decide_True by done.
    exists (b' :: bs). rewrite take_app_le, drop_app_le by lia.
    split_and!; [|by rewrite contents_cons, Hun|by constructor|].
    + rewrite length_app, length_drop. do 2 f_equal. lia.
    + intros x. rewrite !last_cons. destruct (last bs); [by eauto|]. naive_solver.
Qed.

Lemma read_data_spec bp k :
  pipe_ok bp →
  ∃ bp', read_data bp k = (bp', RRet (take k (contents (bp_buf bp))) None) ∧ pipe_ok bp' ∧
    bp_closeErr bp' = bp_closeErr bp ∧
    contents (bp_buf bp') = drop k (contents (bp_buf bp)).
Proof.
  intros [Hb Hl Hbd]. unfold read_data. rewrite Hl.
  destruct (read_loop_spec (bp_buf bp) k Hb) as (bs' & -> & Hc & Hok & Hlast).
  eexists. split_and!; [done| |done|done]. split; cbn; [done|by rewrite Hc|].
  intros b' Hb'. destruct (Hlast b' Hb') as (b & Hbl & ->). specialize (Hbd b Hbl).
  rewrite Hl in Hbd. rewrite length_drop. lia.
Qed.

(** What a section of [Read] does. *)
Definition read_post (bp : BytesPipe) (k : nat) (bp' : BytesPipe) (e : read_end) : Prop :=
  pipe_ok bp' ∧ bp_closeErr bp' = bp_closeErr bp ∧
  match e with
  | RRet d err => contents (bp_buf bp) = d ++ contents (bp_buf bp') ∧ (length d ≤ k)%nat ∧
      (err = None → d = take k (contents (bp_buf bp))) ∧
      (is_Some err → bp' = bp ∧ err = bp_closeErr bp ∧ contents (bp_buf bp) = [])
  | RWait => bp' = bp ∧ contents (bp_buf bp) = [] ∧ bp_closeErr bp = None
  | RPanic => False
  end.

Lemma read_data_post bp k :
  pipe_ok bp → read_post bp k (read_data bp k).1 (read_data bp k).2.
Proof.
  intros Hok. destruct (read_data_spec bp k Hok) as (bp' & -> & Hok' & Hcl & Hc).
  split_and!; [done..|]. cbn [fst snd]. rewrite Hc. split_and!; [by rewrite take_drop| |done|by intros []].
  rewrite length_take. lia.
Qed.

Lemma empty_contents bp : pipe_ok bp → bp_bufLen bp = 0 → contents (bp_buf bp) = [].
Proof. intros Hok Hz. apply length_zero_iff_nil. pose proof (po_len _ Hok). lia. Qed.

Lemma read_section_post bp k :
  pipe_ok bp → read_post bp k (read_section bp k).1 (read_section bp k).2.
Proof.
  intros Hok. unfold read_section. case_decide as Hz; [|by apply read_data_post].
  pose proof (empty_contents bp Hok Hz) as Hc.
  destruct (bp_closeErr bp) eqn:Hcl; (split_and!; [done|by rewrite Hcl|]); cbn;
    rewrite ?Hc, ?Hcl; split_and!; try done. lia.
Qed.

Lemma read_resume_post bp k :
  pipe_ok bp → read_post bp k (read_resume bp k).1 (read_resume bp k).2.
Proof.
  intros Hok. unfold read_resume. destruct (bp_closeErr bp) eqn:Hcl; [|by apply read_data_post].
  case_decide as Hz; [|by apply read_data_post].
  pose proof (empty_contents bp Hok Hz) as Hc.
  split_and!; [done|by rewrite Hcl|]; cbn; rewrite ?Hc, ?Hcl; split_and!; try done. lia.
Qed.

Lemma write_section_post bp p written :
  pipe_ok bp →
  write_post bp p written (write_section bp p written).1 (write_section bp p written).2.
Proof.
  intros Hok. unfold write_section. apply (write_loop_spec (write_fuel p)); [done|].
  unfold write_fuel, full_last. repeat case_match; lia.
Qed.

Lemma write_resume_post bp p written cap :
  pipe_ok bp → 0 < cap ≤ maxCap →
  write_post bp p written (write_resume bp p written cap).1 (write_resume bp p written cap).2.
Proof.
  intros Hok Hcap. unfold write_resume.
  destruct (bp_closeErr bp) as [e|] eqn:Hcl; [by apply write_section_post|].
  case_decide as Hth.
  - split_and!; [done..|]. exists 0%nat. cbn. rewrite app_nil_r.
    split_and!; [lia|done|done|lia|done|lia|lia].
  - destruct (add_buffer_ok bp (nextCap cap) Hok) as [Hok' Hc];
      [by apply nextCap_range|lia|].
    pose proof (write_section_post _ p written Hok') as H.
    unfold write_post in *. by rewrite Hc in H.
Qed.

(** ** Any number of callers *)

(** [ps_writers] gives, for every call of [Write], its data and where it stands;
    [ps_readers] the sizes of the slices of the waiting calls of [Read].
    [ps_enq] and [ps_deq] record the bytes that went into the pipe, with the call
    they come from, and the bytes that came out. *)
Record pipe_sys := mkSys {
  ps_pipe : BytesPipe;
  ps_writers : gmap nat (list Z * write_end);
  ps_readers : list nat;
  ps_enq : list (nat * Z);
  ps_deq : list Z
}.

Definition init_sys : pipe_sys := mkSys NewBytesPipe ∅ [] [] [].

Definition written_of (e : write_end) : nat :=
  match e with WRet w _ | WWait _ w _ => w | WFuel => 0 end.

(** The bytes of [d] between two counts, as sent by the call [t]. *)
Definition sent (t : nat) (d : list Z) (from to : nat) : list (nat * Z) :=
  pair t <$> take (to - from) (drop from d).

Definition returned (e : read_end) : list Z := match e with RRet d _ => d | _ => [] end.
Definition waiting (e : read_end) (k : nat) : list nat :=
  match e with RWait => [k] | _ => [] end.

Inductive pipe_step : pipe_sys → pipe_sys → Prop :=
| step_Write s t d bp e :
    ps_writers s !! t = None → write_section (ps_pipe s) d 0 = (bp, e) →
    pipe_step s (mkSys bp (<[t := (d, e)]> (ps_writers s)) (ps_readers s)
      (ps_enq s ++ sent t d 0 (written_of e)) (ps_deq s))
| step_Write_wake s t d p w cap bp e :
    ps_writers s !! t = Some (d, WWait p w cap) →
    write_resume (ps_pipe s) p w cap = (bp, e) →
    pipe_step s (mkSys bp (<[t := (d, e)]> (ps_writers s)) (ps_readers s)
      (ps_enq s ++ sent t d w (written_of e)) (ps_deq s))
| step_Read s k bp e :
    read_section (ps_pipe s) k = (bp, e) →
    pipe_step s (mkSys bp (ps_writers s) (waiting e k ++ ps_readers s)
      (ps_enq s) (ps_deq s ++ returned e))
| step_Read_wake s k rs bp e :
    ps_readers s ≡ₚ k :: rs → read_resume (ps_pipe s) k = (bp, e) →
    pipe_step s (mkSys bp (ps_writers s) (waiting e k ++ rs)
      (ps_enq s) (ps_deq s ++ returned e))
| step_Close s err :
    pipe_step s (mkSys (CloseWithError (ps_pipe s) err) (ps_writers s) (ps_readers s)
      (ps_enq s) (ps_deq s)).

(** The bytes that the call [t] put into the pipe. *)
Definition from_call (t : nat) (l : list (nat * Z)) : list Z :=
  (filter (λ x, x.1 = t) l).*2.

(** Where a call of [Write] with data [d] stands. *)
Definition writer_ok (enq : list (nat * Z)) (t : nat) (d : list Z) (e : write_end) : Prop :=
  from_call t enq = take (written_of e) d ∧ (written_of e ≤ length d)%nat ∧
  match e with
  | WRet w err => err = None → w = length d
  | WWait p w cap => p = drop w d ∧ 0 < cap ≤ maxCap
  | WFuel => False
  end.

Record sys_ok (s : pipe_sys) : Prop := {
  so_pipe : pipe_ok (ps_pipe s);
  so_fifo : (ps_enq s).*2 = ps_deq s ++ contents (bp_buf (ps_pipe s));
  so_writers t d e : ps_writers s !! t = Some (d, e) → writer_ok (ps_enq s) t d e;
  so_fresh t : ps_writers s !! t = None → from_call t (ps_enq s) = []
}.

Lemma from_call_app t l l' : from_call t (l ++ l') = from_call t l ++ from_call t l'.
Proof. unfold from_call. by rewrite filter_app, fmap_app. Qed.

Lemma from_call_sent t t' d a b :
  from_call t (sent t' d a b) = if decide (t' = t) then take (b - a) (drop a d) else [].
Proof.
  unfold from_call, sent. induction (take (b - a) (drop a d)) as [|x l IH].
  { by case_decide. }
  rewrite fmap_cons, filter_cons. cbn [fst]. case_decide; cbn; by rewrite IH.
Qed.

Lemma sent_snd t d a b : (sent t d a b).*2 = take (b - a) (drop a d).
Proof. unfold sent. rewrite <- list_fmap_compose. apply list_fmap_id. Qed.

(** A section of the writer [t], which had sent [w] bytes of [d]. *)
Lemma sys_ok_write s t d w p bp e :
  sys_ok s → p = drop w d → (w ≤ length d)%nat → from_call t (ps_enq s) = take w d →
  write_post (ps_pipe s) p w bp e →
  sys_ok (mkSys bp (<[t := (d, e)]> (ps_writers s)) (ps_readers s)
    (ps_enq s ++ sent t d w (written_of e)) (ps_deq s)).
Proof.
  intros [Hp Hf Hw Hfr] -> Hwd Hfrom (Hok & Hcl & n & Hn & Hc & He).
  rewrite length_drop in Hn.
  assert (written_of e = w + n)%nat as Hwn by (destruct e; naive_solver).
  assert (take (written_of e - w) (drop w d) = take n (drop w d)) as Htk
    by (f_equal; lia).
  split; cbn [ps_pipe ps_enq ps_deq ps_writers].
  - done.
  - rewrite fmap_app, sent_snd, Htk, Hc, Hf. by rewrite app_assoc.
  - intros t' d' e'. rewrite lookup_insert. unfold writer_ok.
    rewrite from_call_app, from_call_sent. case_decide as Htt.
    + intros [= <- <-]. subst t'. rewrite Hfrom, Htk, Hwn, take_take_drop. split_and!; [done|lia|].
      destruct e as [w' err|p' w' cap|]; [| |done].
      * intros Herr. destruct He as (-> & Hall & _). specialize (Hall Herr).
        rewrite length_drop in Hall. lia.
      * destruct He as (-> & -> & _ & Hcap). by rewrite drop_drop.
    + intros Ht'. rewrite app_nil_r. by apply Hw.
  - intros t'. rewrite lookup_insert. case_decide as Htt; [done|]. intros Ht'.
    rewrite from_call_app, from_call_sent, decide_False, app_nil_r by done. by apply Hfr.
Qed.

Lemma sys_ok_read s k rs bp e :
  sys_ok s → read_post (ps_pipe s) k bp e →
  sys_ok (mkSys bp (ps_writers s) rs (ps_enq s) (ps_deq s ++ returned e)).
Proof.
  intros [Hp Hf Hw Hfr] (Hok & Hcl & He). split; cbn; [done| |done..].
  rewrite Hf. destruct e as [d err| |]; cbn; [|by destruct He as [-> _]; rewrite app_nil_r|done].
  destruct He as [-> _]. by rewrite app_assoc.
Qed.

Lemma pipe_step_ok s s' : sys_ok s → pipe_step s s' → sys_ok s'.
Proof.
  intros Hok Hstep. destruct Hstep as [s t d bp e Ht Hsec|s t d p w cap bp e Ht Hsec
    |s k bp e Hsec|s k rs bp e Hrs Hsec|s err].
  - pose proof (write_section_post (ps_pipe s) d 0 (so_pipe _ Hok)) as H. rewrite Hsec in H.
    eapply (sys_ok_write s t d 0 d); [done..|lia| |exact H].
    rewrite take_0. by apply (so_fresh _ Hok).
  - destruct (so_writers _ Hok t d _ Ht) as (Hfrom & Hlen & -> & Hcap).
    pose proof (write_resume_post (ps_pipe s) (drop w d) w cap (so_pipe _ Hok) Hcap) as H.
    rewrite Hsec in H. by eapply (sys_ok_write s t d w).
  - pose proof (read_section_post (ps_pipe s) k (so_pipe _ Hok)) as H. rewrite Hsec in H.
    by eapply sys_ok_read.
  - pose proof (read_resume_post (ps_pipe s) k (so_pipe _ Hok)) as H. rewrite Hsec in H.
    by eapply sys_ok_read.
  - destruct Hok as [[Hb Hl Hbd] Hf Hw Hfr]. by split.
Qed.

Lemma init_sys_ok : sys_ok init_sys.
Proof.
  split; [|done|done|done]. split.
  - constructor; [|constructor]. apply getBuffer_ok. unfold minCap, maxCap. lia.
  - done.
  - cbn. intros b [= <-]. by vm_compute.
Qed.

Lemma pipe_reachable_ok s : rtc pipe_step init_sys s → sys_ok s.
Proof. apply rtc_invariant; [apply pipe_step_ok|apply init_sys_ok]. Qed.

Lemma room_nonneg b : buffer_ok b → 0 ≤ fb_room b.
Proof. unfold buffer_ok, fb_room. lia. Qed.

(** C20: The pipe is a bounded first-in first-out queue under any interleaving of
    readers, writers and closing: the bytes read so far followed by the bytes in
    the pipe are exactly the bytes written so far, in order; a call of [Write] has
    put in exactly as many bytes of its data, in order, as it reports, and all of
    them when it reports no error; the count of the bytes held is exact; no buffer
    is filled beyond its capacity, read beyond what was written to it or larger than
    the maximal capacity; the pipe always holds less than the threshold plus one
    buffer of maximal capacity; and no section of a call reads an absent buffer or
    loops. *)
Theorem BytesPipe_fifo s :
  rtc pipe_step init_sys s →
  (ps_enq s).*2 = ps_deq s ++ contents (bp_buf (ps_pipe s)) ∧
  (∀ t d e, ps_writers s !! t = Some (d, e) →
     from_call t (ps_enq s) = take (written_of e) d ∧
     (∀ w, e = WRet w None → w = length d) ∧ e ≠ WFuel) ∧
  bp_bufLen (ps_pipe s) = Z.of_nat (length (contents (bp_buf (ps_pipe s)))) ∧
  (∀ b, b ∈ bp_buf (ps_pipe s) →
     (fb_lastRead b ≤ fb_pos b)%nat ∧ Z.of_nat (fb_pos b) ≤ fb_cap b ≤ maxCap) ∧
  bp_bufLen (ps_pipe s) < blockThreshold + maxCap ∧
  (∀ k, (read_section (ps_pipe s) k).2 ≠ RPanic ∧ (read_resume (ps_pipe s) k).2 ≠ RPanic).
Proof.
  intros [Hp Hf Hw Hfr]%pipe_reachable_ok. split_and!; [done| |apply Hp| | |].
  - intros t d e Ht. destruct (Hw t d e Ht) as (H1 & H2 & H3).
    split_and!; [done|by intros w ->; apply H3|by intros ->].
  - intros b Hb. pose proof (proj1 (Forall_forall _ _) (po_buffers _ Hp) b Hb) as Hbok.
    unfold buffer_ok in Hbok. lia.
  - destruct (last (bp_buf (ps_pipe s))) as [b|] eqn:Hb.
    + pose proof (po_bound _ Hp b Hb). assert (buffer_ok b) as Hbok.
      { eapply Forall_forall; [apply (po_buffers _ Hp)|].
        rewrite (last_split _ _ Hb). set_solver. }
      pose proof (room_nonneg b Hbok). unfold pipe_bound, blockThreshold, maxCap in *. lia.
    + apply last_None in Hb. rewrite (po_len _ Hp), Hb. change (contents []) with (@nil Z).
      cbn. unfold blockThreshold, maxCap. lia.
  - intros k. pose proof (read_section_post _ k Hp) as (_ & _ & H).
    pose proof (read_resume_post _ k Hp) as (_ & _ & H').
    split; intros Hk; [by rewrite Hk in H|by rewrite Hk in H'].
Qed.

Lemma BytesPipe_fifo_witness :
  ∃ s, rtc pipe_step init_sys s ∧ ps_deq s = [1; 2] ∧
    (ps_enq s).*2 = ps_deq s ++ contents (bp_buf (ps_pipe s)).
Proof.
  set (s1 := mkSys (write_section NewBytesPipe [1; 2; 3] 0).1
    {[ 0%nat := ([1; 2; 3], WRet 3 None) ]} [] [(0%nat, 1); (0%nat, 2); (0%nat, 3)] []).
  set (s2 := mkSys (read_section (ps_pipe s1) 2).1
    {[ 0%nat := ([1; 2; 3], WRet 3 None) ]} [] [(0%nat, 1); (0%nat, 2); (0%nat, 3)] [1; 2]).
  assert (rtc pipe_step init_sys s2) as Hr.
  { eapply (rtc_l _ _ s1); [|eapply (rtc_l _ _ s2); [|reflexivity]].
    - apply (step_Write init_sys 0%nat [1; 2; 3] (ps_pipe s1) (WRet 3 None)); [done|].
      vm_compute. reflexivity.
    - apply (step_Read s1 2%nat (ps_pipe s2) (RRet [1; 2] None)). vm_compute. reflexivity. }
  exists s2. split; [exact Hr|]. split; [reflexivity|].
  exact (proj1 (BytesPipe_fifo s2 Hr)).
Defined.
