(* ===== verification/RestartManager.v ===== *)
(** * restartmanager: when a container is restarted

    The model of restartmanager/restartmanager.go.  Durations are int64 numbers of
    nanoseconds.  A call of [ShouldRestart] that answers yes starts a goroutine
    that waits for the delay or for the cancellation; [rm_step] interleaves the
    calls with these goroutines. *)

From S2P Require Import Prelude.
Open Scope Z_scope.

(** container.RestartPolicy of docker/engine-api. *)
Record RestartPolicy := mkPolicy { rp_Name : string; rp_MaximumRetryCount : Z }.
Definition rp_IsNone (p : RestartPolicy) : bool :=
  bool_decide (rp_Name p = "no") || bool_decide (rp_Name p = "").
Definition rp_IsAlways (p : RestartPolicy) : bool := bool_decide (rp_Name p = "always").
Definition rp_IsOnFailure (p : RestartPolicy) : bool := bool_decide (rp_Name p = "on-failure").
Definition rp_IsUnlessStopped (p : RestartPolicy) : bool :=
  bool_decide (rp_Name p = "unless-stopped").

Definition backoffMultiplier : Z := 2.
Definition defaultTimeout : Z := 100 * 1000000.

Record restartManager := mkRM {
  rm_policy : RestartPolicy;
  rm_restartCount : Z;
  rm_timeout : Z;
  rm_active : bool;
  rm_canceled : bool;
  rm_once : bool;         (* the [sync.Once] has run *)
  rm_cancel_closed : bool (* the channel [cancel] is closed *)
}.

Definition NewRestartManager (policy : RestartPolicy) (restartCount : Z) : restartManager :=
  mkRM policy restartCount 0 false false false false.

Definition rm_SetPolicy (rm : restartManager) (policy : RestartPolicy) : restartManager :=
  mkRM policy (rm_restartCount rm) (rm_timeout rm) (rm_active rm) (rm_canceled rm)
    (rm_once rm) (rm_cancel_closed rm).

Inductive restart_error := ErrRestartCanceled | ErrActiveManager.

(** The delay of the next restart: [executionDuration.Seconds() >= 10] resets it. *)
Definition next_timeout (timeout executionDuration : Z) : Z :=
  let timeout := if decide (executionDuration >= 10 * 1000000000) then 0 else timeout in
  if decide (timeout = 0) then defaultTimeout else wrap64 (timeout * backoffMultiplier).

(** The switch on the policy. *)
Definition policy_restarts (rm : restartManager) (exitCode : Z) (manuallyStopped : bool) : bool :=
  let p := rm_policy rm in
  if rp_IsAlways p then true
  else if rp_IsUnlessStopped p && negb manuallyStopped then true
  else if rp_IsOnFailure p then
    let max := rp_MaximumRetryCount p in
    if decide (max = 0 ∨ rm_restartCount rm < max) then bool_decide (exitCode ≠ 0) else false
  else false.

(** The part of [ShouldRestart] that holds the lock; with [true] comes the delay
    that the goroutine waits for. *)
Definition ShouldRestart_locked (rm : restartManager) (exitCode : Z) (manuallyStopped : bool)
    (executionDuration : Z) : restartManager * outcome restart_error (option Z) :=
  if rm_canceled rm then (rm, Err ErrRestartCanceled)
  else if rm_active rm then (rm, Err ErrActiveManager)
  else
    let timeout := next_timeout (rm_timeout rm) executionDuration in
    if policy_restarts rm exitCode manuallyStopped then
      (mkRM (rm_policy rm) (wrap64 (rm_restartCount rm + 1)) timeout true (rm_canceled rm)
         (rm_once rm) (rm_cancel_closed rm), Ok (Some timeout))
    else
      (mkRM (rm_policy rm) (rm_restartCount rm) timeout false (rm_canceled rm)
         (rm_once rm) (rm_cancel_closed rm), Ok None).

(** [ShouldRestart], when nothing comes between its two parts. *)
Definition rm_ShouldRestart (rm : restartManager) (exitCode : Z) (manuallyStopped : bool)
    (executionDuration : Z) : restartManager * outcome restart_error (option Z) :=
  if rp_IsNone (rm_policy rm) then (rm, Ok None)
  else ShouldRestart_locked rm exitCode manuallyStopped executionDuration.

(** [Cancel]: the function given to [rm.Do] runs once; closing a closed channel
    would panic. *)
Definition rm_Cancel (rm : restartManager) : restartManager * outcome restart_error unit :=
  if rm_once rm then (rm, Ok tt)
  else if rm_cancel_closed rm then (rm, Panic "close of closed channel")
  else
    (mkRM (rm_policy rm) (rm_restartCount rm) (rm_timeout rm) (rm_active rm) true true true,
     Ok tt).

(** The goroutine, when its timer fires. *)
Definition timer_fires (rm : restartManager) : restartManager :=
  mkRM (rm_policy rm) (rm_restartCount rm) (rm_timeout rm) false (rm_canceled rm)
    (rm_once rm) (rm_cancel_closed rm).

(** ** Interleavings *)

(** The manager, the number of goroutines that wait, the number of restarts that
    were granted, and whether a goroutine has reported the cancellation. *)
Record rm_sys := mkRMSys {
  rs_rm : restartManager;
  rs_waiting : nat;
  rs_granted : nat;
  rs_reported : bool
}.

(** The first test of [ShouldRestart] reads the policy before it takes the lock, so
    that [SetPolicy] may come in between: the part with the lock is a step of its
    own, taken whatever the policy was; without it the call changes nothing.
    [SetPolicy] is called with policies of [allowed]. *)
Inductive rm_step (allowed : RestartPolicy → Prop) : rm_sys → rm_sys → Prop :=
| step_refuse s rm exitCode stopped dur o :
    ShouldRestart_locked (rs_rm s) exitCode stopped dur = (rm, o) → (∀ t, o ≠ Ok (Some t)) →
    rm_step allowed s (mkRMSys rm (rs_waiting s) (rs_granted s) (rs_reported s))
| step_grant s rm exitCode stopped dur t :
    ShouldRestart_locked (rs_rm s) exitCode stopped dur = (rm, Ok (Some t)) →
    rm_step allowed s (mkRMSys rm (S (rs_waiting s)) (S (rs_granted s)) (rs_reported s))
| step_timer s n :
    rs_waiting s = S n →
    rm_step allowed s (mkRMSys (timer_fires (rs_rm s)) n (rs_granted s) (rs_reported s))
| step_observe_cancel s n :
    rs_waiting s = S n → rm_cancel_closed (rs_rm s) = true →
    rm_step allowed s (mkRMSys (rs_rm s) n (rs_granted s) true)
| step_cancel s rm o :
    rm_Cancel (rs_rm s) = (rm, o) →
    rm_step allowed s (mkRMSys rm (rs_waiting s) (rs_granted s) (rs_reported s))
| step_set_policy s policy :
    allowed policy →
    rm_step allowed s
      (mkRMSys (rm_SetPolicy (rs_rm s) policy) (rs_waiting s) (rs_granted s) (rs_reported s)).

Definition rm_init (policy : RestartPolicy) (count : Z) : rm_sys :=
  mkRMSys (NewRestartManager policy count) 0 0 false.

(** An on-failure policy with a maximum, of at most [max]. *)
Definition at_most (max : Z) (p : RestartPolicy) : Prop :=
  rp_IsOnFailure p = true ∧ 0 < rp_MaximumRetryCount p ≤ max.

Record rm_ok (allowed : RestartPolicy → Prop) (count : Z) (s : rm_sys) : Prop := {
  ro_policy : allowed (rm_policy (rs_rm s));
  ro_one : rs_waiting s = if rm_active (rs_rm s) && negb (rs_reported s) then 1%nat else 0%nat;
  ro_reported : rs_reported s = true → rm_canceled (rs_rm s) = true ∧ rm_active (rs_rm s) = true;
  ro_cancel : rm_canceled (rs_rm s) = rm_once (rs_rm s) ∧
    rm_cancel_closed (rs_rm s) = rm_once (rs_rm s);
  ro_count : rm_restartCount (rs_rm s) = wrap64 (count + Z.of_nat (rs_granted s));
  ro_max max : (∀ p, allowed p → at_most max p) → 0 ≤ count < 2 ^ 63 → max < 2 ^ 63 →
    Z.of_nat (rs_granted s) ≤ Z.max 0 (max - count)
}.

(** A granted restart: the manager was idle, and the policy allowed it. *)
Lemma ShouldRestart_granted rm exitCode stopped dur rm' t :
  ShouldRestart_locked rm exitCode stopped dur = (rm', Ok (Some t)) →
  rm_active rm = false ∧ rm_canceled rm = false ∧ policy_restarts rm exitCode stopped = true ∧
  t = next_timeout (rm_timeout rm) dur ∧
  rm' = mkRM (rm_policy rm) (wrap64 (rm_restartCount rm + 1)) t true false
          (rm_once rm) (rm_cancel_closed rm).
Proof.
  unfold ShouldRestart_locked.
  destruct (rm_canceled rm) eqn:?; [done|]. destruct (rm_active rm) eqn:?; [done|].
  destruct (policy_restarts rm exitCode stopped); [|done]. intros; simplify_eq. done.
Qed.

Lemma ShouldRestart_refused rm exitCode stopped dur rm' o :
  ShouldRestart_locked rm exitCode stopped dur = (rm', o) → (∀ t, o ≠ Ok (Some t)) →
  rm_policy rm' = rm_policy rm ∧ rm_restartCount rm' = rm_restartCount rm ∧
  rm_active rm' = rm_active rm ∧ rm_canceled rm' = rm_canceled rm ∧
  rm_once rm' = rm_once rm ∧ rm_cancel_closed rm' = rm_cancel_closed rm.
Proof.
  unfold ShouldRestart_locked.
  destruct (rm_canceled rm) eqn:?; [intros; by simplify_eq|].
  destruct (rm_active rm) eqn:?; [intros; by simplify_eq|].
  destruct (policy_restarts rm exitCode stopped); intros; simplify_eq; naive_solver.
Qed.

Lemma on_failure_below_max rm exitCode stopped :
  policy_restarts rm exitCode stopped = true → rp_IsOnFailure (rm_policy rm) = true →
  exitCode ≠ 0 ∧
  (rp_MaximumRetryCount (rm_policy rm) = 0 ∨
   rm_restartCount rm < rp_MaximumRetryCount (rm_policy rm)).
Proof.
  unfold policy_restarts, rp_IsOnFailure, rp_IsAlways, rp_IsUnlessStopped.
  intros Hp Hf. apply bool_decide_eq_true in Hf. rewrite Hf in Hp. simpl in Hp.
  case_decide; [|done]. by apply bool_decide_eq_true in Hp.
Qed.

Lemma rm_step_ok allowed count s s' :
  rm_ok allowed count s → rm_step allowed s s' → rm_ok allowed count s'.
Proof.
  intros [Hpol Hone Hrep [Hc1 Hc2] Hcnt Hmax] Hstep.
  destruct Hstep as [s rm ex st dur o Hs Ho|s rm ex st dur t Hs|s n Hw|s n Hw Hcl|s rm o Hs|s p Hal].
  - destruct (ShouldRestart_refused _ _ _ _ _ _ Hs Ho) as (H1 & H2 & H3 & H4 & H5 & H6).
    split; cbn; rewrite ?H1, ?H2, ?H3, ?H4, ?H5, ?H6; done.
  - destruct (ShouldRestart_granted _ _ _ _ _ _ Hs) as (Hact & Hcan & Hp & -> & ->).
    rewrite Hact in Hone. simpl in Hone.
    assert (rs_reported s = false) as Hnr.
    { destruct (rs_reported s); [|done]. destruct (Hrep eq_refl). congruence. }
    split; cbn; [done|by rewrite Hone, Hnr|by rewrite Hnr|split; congruence| |].
    + rewrite Hcnt, wrap64_add. f_equal. lia.
    + intros max Hall Hcount Hm63. specialize (Hmax max Hall Hcount Hm63).
      destruct (Hall _ Hpol) as [Hf Hm]. destruct (on_failure_below_max _ _ _ Hp Hf) as [_ Hlt].
      rewrite Hcnt, wrap64_id in Hlt by lia. lia.
  - split; cbn; try done.
    + rewrite Hone in Hw. destruct (rm_active _ && _); [by injection Hw as <-|done].
    + intros Hr. destruct (Hrep Hr) as [? Ha]. rewrite Ha, Hr in Hone. simpl in Hone. lia.
  - rewrite Hone in Hw. destruct (rm_active (rs_rm s)) eqn:Ha, (rs_reported s) eqn:Hr;
      simpl in Hw; try done. injection Hw as <-.
    split; cbn; try done; [by rewrite Ha|]. intros _. split; congruence.
  - unfold rm_Cancel in Hs. destruct (rm_once (rs_rm s)) eqn:Ho.
    { simplify_eq. split; cbn; rewrite ?Ho; done. }
    rewrite Hc2 in Hs. simplify_eq. split; cbn; try done.
    intros Hr. destruct (Hrep Hr) as [? Ha]. done.
  - by split.
Qed.

Lemma rm_reachable_ok allowed policy count s :
  allowed policy → -2 ^ 63 ≤ count < 2 ^ 63 →
  rtc (rm_step allowed) (rm_init policy count) s → rm_ok allowed count s.
Proof.
  intros Hal Hc. apply rtc_invariant; [apply rm_step_ok|].
  split; cbn; try done; [|lia]. by rewrite Z.add_0_r, wrap64_id.
Qed.

(** C21: Under any interleaving of decisions, timers, cancellations and changes of
    the policy: at most one restart is being waited for, and none is granted
    meanwhile; the restart count is the one given at the start plus the restarts
    granted, as an int64; cancelling twice does not panic; once cancelled, no restart
    is granted any more; and if all policies the manager is given are on-failure with
    a maximum of at most [max], never more restarts are granted than [max] leaves. *)
Theorem restart_manager_safe (allowed : RestartPolicy → Prop) policy count s :
  allowed policy → -2 ^ 63 ≤ count < 2 ^ 63 →
  rtc (rm_step allowed) (rm_init policy count) s →
  (rs_waiting s ≤ 1)%nat ∧
  rm_restartCount (rs_rm s) = wrap64 (count + Z.of_nat (rs_granted s)) ∧
  (∀ m, (rm_Cancel (rs_rm s)).2 ≠ Panic m) ∧
  (∀ exitCode stopped dur t,
     (0 < rs_waiting s)%nat ∨ rm_canceled (rs_rm s) = true →
     (ShouldRestart_locked (rs_rm s) exitCode stopped dur).2 ≠ Ok (Some t)) ∧
  (∀ max, (∀ p, allowed p → at_most max p) → max < 2 ^ 63 → 0 ≤ count →
     Z.of_nat (rs_granted s) ≤ Z.max 0 (max - count)).
Proof.
  intros Hal Hc Hr. destruct (rm_reachable_ok allowed policy count s Hal Hc Hr) as
    [Hpol Hone Hrep [Hc1 Hc2] Hcnt Hmax]. split_and!.
  - rewrite Hone. destruct (rm_active (rs_rm s) && negb (rs_reported s)); lia.
  - done.
  - intros m. unfold rm_Cancel. destruct (rm_once _) eqn:Ho; [done|]. by rewrite Hc2.
  - intros ex st dur t H Hgr. destruct (ShouldRestart_locked _ _ _ _) as [rm' o] eqn:Hs.
    simpl in Hgr. subst o. apply ShouldRestart_granted in Hs as (Hact & Hcan & _).
    rewrite Hact in Hone. simpl in Hone. destruct H as [H|H]; [lia|congruence].
  - intros max Hall Hm Hc0. apply Hmax; [done|lia..].
Qed.

Definition on_failure_2 : RestartPolicy := mkPolicy "on-failure" 2.

Lemma restart_manager_safe_witness :
  ∃ s, rtc (rm_step (λ p, p = on_failure_2)) (rm_init on_failure_2 1) s ∧
    rs_granted s = 1%nat ∧ rm_restartCount (rs_rm s) = 2 ∧
    Z.of_nat (rs_granted s) ≤ Z.max 0 (2 - 1).
Proof.
  set (s1 := mkRMSys (mkRM on_failure_2 2 defaultTimeout true false false false) 1 1 false).
  set (s2 := mkRMSys (mkRM on_failure_2 2 defaultTimeout false false false false) 0 1 false).
  assert (rtc (rm_step (λ p, p = on_failure_2)) (rm_init on_failure_2 1) s2) as Hr.
  { eapply (rtc_l _ _ s1); [|eapply (rtc_l _ _ s2); [|reflexivity]].
    - apply (step_grant _ (rm_init on_failure_2 1) (rs_rm s1) 137 false 5000000000 defaultTimeout).
      vm_compute. reflexivity.
    - apply (step_timer _ s1 0). reflexivity. }
  exists s2. split; [exact Hr|]. split; [reflexivity|]. split; [reflexivity|].
  assert (-2 ^ 63 ≤ 1 < 2 ^ 63) as Hc by lia.
  destruct (restart_manager_safe _ on_failure_2 1 s2 eq_refl Hc Hr) as (_ & _ & _ & _ & Hmax).
  apply (Hmax 2); [|lia..]. intros p ->. split; [reflexivity|cbn; lia].
Defined.

Lemma next_timeout_doubles k d :
  0 ≤ k ≤ 35 → d < 10 * 1000000000 →
  next_timeout (defaultTimeout * 2 ^ k) d = defaultTimeout * 2 ^ (k + 1).
Proof.
  intros Hk Hd. unfold next_timeout. rewrite (decide_False (P := d >= _)) by lia.
  assert (0 < 2 ^ k ≤ 2 ^ 35) as Hpow.
  { split; [apply Z.pow_pos_nonneg; lia|]. apply Z.pow_le_mono_r; lia. }
  unfold defaultTimeout, backoffMultiplier.
  rewrite (decide_False (P := _ = 0)) by lia. rewrite wrap64_id by lia.
  rewrite Z.pow_add_r by lia. lia.
Qed.

Lemma backoff_from k ds :
  0 ≤ k → k + Z.of_nat (length ds) ≤ 36 → Forall (λ x, x < 10 * 1000000000) ds →
  foldl next_timeout (defaultTimeout * 2 ^ k) ds =
    defaultTimeout * 2 ^ (k + Z.of_nat (length ds)).
Proof.
  intros Hk H36 Hds. revert k Hk H36.
  induction Hds as [|x ds Hx Hds IH]; intros k Hk H36; cbn [foldl length] in *.
  - by rewrite Z.add_0_r.
  - rewrite next_timeout_doubles by lia. rewrite IH by lia. do 2 f_equal. lia.
Qed.

(** The delay doubles with every execution that ends within ten seconds:
    after [n + 1] of them, from the default of 100 ms, it is 100 ms times 2^n, and
    the int64 does not overflow up to n = 36; an execution of ten seconds or more
    resets it. *)
Lemma backoff_doubles (ds : list Z) (d last : Z) :
  Forall (λ x, x < 10 * 1000000000) ds → (length ds ≤ 36)%nat →
  let timeout := foldl next_timeout 0 (d :: ds) in
  timeout = defaultTimeout * 2 ^ Z.of_nat (length ds) ∧ 0 < timeout < 2 ^ 63 ∧
  (last >= 10 * 1000000000 → next_timeout timeout last = defaultTimeout).
Proof.
  intros Hds Hlen timeout.
  assert (timeout = defaultTimeout * 2 ^ Z.of_nat (length ds)) as Ht.
  { subst timeout. cbn [foldl].
    assert (next_timeout 0 d = defaultTimeout * 2 ^ 0) as ->.
    { rewrite Z.pow_0_r, Z.mul_1_r. unfold next_timeout.
      destruct (decide (d >= _)); by rewrite (decide_True (P := 0 = 0)). }
    rewrite backoff_from by (done || lia). by rewrite Z.add_0_l. }
  assert (0 < 2 ^ Z.of_nat (length ds) ≤ 2 ^ 36) as Hpow.
  { split; [apply Z.pow_pos_nonneg; lia|]. apply Z.pow_le_mono_r; lia. }
  split_and!; [done|rewrite Ht; unfold defaultTimeout; lia..|].
  intros Hlast. unfold next_timeout. rewrite (decide_True (P := last >= _)) by done.
  by rewrite decide_True.
Qed.

Lemma backoff_doubles_witness :
  foldl next_timeout 0 [1; 2; 3] = 400000000 ∧
  next_timeout 400000000 10000000000 = defaultTimeout.
Proof.
  destruct (backoff_doubles [2; 3] 1 10000000000) as (H1 & _ & H2).
  - repeat constructor; lia.
  - cbn. lia.
  - split; [exact H1|]. rewrite H1 in H2. apply H2. lia.
Defined.

(** The doubling overflows at the thirty-eighth short execution. *)
Lemma backoff_overflows : next_timeout (defaultTimeout * 2 ^ 36) 0 < 0.
Proof. vm_compute. reflexivity. Qed.
