(* ===== verification/Container.v ===== *)
(** * container: the state of a container and the store of containers

    The model of container/state.go, container/state_unix.go,
    container/health.go, container/memory_store.go and container/history.go.

    Times are numbers of nanoseconds, 0 for the zero time; the current time is an
    argument.  A channel is a number; [cs_closed] is the set of the closed ones
    and [cs_nextChan] the next fresh one.  The methods of [State] run under the
    lock of the container; waiting happens outside of it, so a wait is two steps. *)

From stdpp Require Import pretty.
From S2P Require Import Prelude.
Open Scope Z_scope.

(** ** Health *)

Inductive health_status := Starting | Healthy | Unhealthy.
Definition health_status_string (s : health_status) : string :=
  match s with Starting => "starting" | Healthy => "healthy" | Unhealthy => "unhealthy" end.

(** [h_stop] is the monitor channel, nil when there is no monitor. *)
Record Health := mkHealth { h_Status : health_status; h_stop : option nat }.

Definition Health_String (h : Health) : string :=
  match h_stop h with
  | None => health_status_string Unhealthy
  | Some _ =>
      match h_Status h with
      | Starting => "health: starting"
      | s => health_status_string s
      end
  end.

(** [fresh] is the channel that [make] returns. *)
Definition OpenMonitorChannel (h : Health) (fresh : nat) : Health * option nat :=
  match h_stop h with
  | None => (mkHealth (h_Status h) (Some fresh), Some fresh)
  | Some _ => (h, None)
  end.

(** The send on the channel returns when the monitor has received: the result
    gives the channel on which this happened. *)
Definition CloseMonitorChannel (h : Health) : Health * option nat :=
  match h_stop h with
  | Some c => (mkHealth (h_Status h) None, Some c)
  | None => (h, None)
  end.

(** ** State *)

Record State := mkState {
  cs_Running : bool;
  cs_Paused : bool;
  cs_Restarting : bool;
  cs_OOMKilled : bool;
  cs_RemovalInProgress : bool;
  cs_Dead : bool;
  cs_Pid : Z;
  cs_exitCode : Z;
  cs_error : string;
  cs_StartedAt : Z;
  cs_FinishedAt : Z;
  cs_waitChan : nat;
  cs_Health : option Health;
  cs_closed : gset nat;
  cs_nextChan : nat
}.

Record ExitStatus := mkExit { es_ExitCode : Z; es_OOMKilled : bool }.

Definition NewState : State :=
  mkState false false false false false false 0 0 "" 0 0 0 None ∅ 1.

(** units.HumanDuration of docker/go-units. *)
Class Units := { HumanDuration : Z → string }.

Definition State_String `{Units} (s : State) (now : Z) : string :=
  if cs_Running s then
    if cs_Paused s
    then "Up " +:+ HumanDuration (now - cs_StartedAt s) +:+ " (Paused)"
    else if cs_Restarting s
    then "Restarting (" +:+ pretty (cs_exitCode s) +:+ ") " +:+
         HumanDuration (now - cs_FinishedAt s) +:+ " ago"
    else match cs_Health s with
         | Some h => "Up " +:+ HumanDuration (now - cs_StartedAt s) +:+
                     " (" +:+ Health_String h +:+ ")"
         | None => "Up " +:+ HumanDuration (now - cs_StartedAt s)
         end
  else if cs_RemovalInProgress s then "Removal In Progress"
  else if cs_Dead s then "Dead"
  else if decide (cs_StartedAt s = 0) then "Created"
  else if decide (cs_FinishedAt s = 0) then ""
  else "Exited (" +:+ pretty (cs_exitCode s) +:+ ") " +:+
       HumanDuration (now - cs_FinishedAt s) +:+ " ago".

Definition StateString (s : State) : string :=
  if cs_Running s then
    if cs_Paused s then "paused" else if cs_Restarting s then "restarting" else "running"
  else if cs_Dead s then "dead"
  else if decide (cs_StartedAt s = 0) then "created"
  else "exited".

Definition IsValidStateString (s : string) : bool :=
  if decide (s ≠ "paused" ∧ s ≠ "restarting" ∧ s ≠ "running" ∧ s ≠ "dead" ∧
             s ≠ "created" ∧ s ≠ "exited")
  then false else true.

(** Updates of the flags that a transition writes; the other fields stay. *)
Definition set_run (s : State) (running paused restarting : bool) (pid : Z) : State :=
  mkState running paused restarting (cs_OOMKilled s) (cs_RemovalInProgress s) (cs_Dead s)
    pid (cs_exitCode s) (cs_error s) (cs_StartedAt s) (cs_FinishedAt s) (cs_waitChan s)
    (cs_Health s) (cs_closed s) (cs_nextChan s).

Definition SetExitCode (s : State) (ec : Z) : State :=
  mkState (cs_Running s) (cs_Paused s) (cs_Restarting s) (cs_OOMKilled s)
    (cs_RemovalInProgress s) (cs_Dead s) (cs_Pid s) ec (cs_error s) (cs_StartedAt s)
    (cs_FinishedAt s) (cs_waitChan s) (cs_Health s) (cs_closed s) (cs_nextChan s).

Definition SetError (s : State) (err : string) : State :=
  mkState (cs_Running s) (cs_Paused s) (cs_Restarting s) (cs_OOMKilled s)
    (cs_RemovalInProgress s) (cs_Dead s) (cs_Pid s) (cs_exitCode s) err (cs_StartedAt s)
    (cs_FinishedAt s) (cs_waitChan s) (cs_Health s) (cs_closed s) (cs_nextChan s).

Definition set_StartedAt (s : State) (t : Z) : State :=
  mkState (cs_Running s) (cs_Paused s) (cs_Restarting s) (cs_OOMKilled s)
    (cs_RemovalInProgress s) (cs_Dead s) (cs_Pid s) (cs_exitCode s) (cs_error s) t
    (cs_FinishedAt s) (cs_waitChan s) (cs_Health s) (cs_closed s) (cs_nextChan s).

Definition SetRunning (s : State) (pid : Z) (initial : bool) (now : Z) : State :=
  let s := SetError s "" in
  let s := set_run s true false false pid in
  let s := SetExitCode s 0 in
  if initial then set_StartedAt s now else s.

(** [setFromExitStatus] (state_unix.go). *)
Definition setFromExitStatus (s : State) (e : ExitStatus) : State :=
  mkState (cs_Running s) (cs_Paused s) (cs_Restarting s) (es_OOMKilled e)
    (cs_RemovalInProgress s) (cs_Dead s) (cs_Pid s) (es_ExitCode e) (cs_error s)
    (cs_StartedAt s) (cs_FinishedAt s) (cs_waitChan s) (cs_Health s) (cs_closed s)
    (cs_nextChan s).

Definition set_FinishedAt (s : State) (t : Z) : State :=
  mkState (cs_Running s) (cs_Paused s) (cs_Restarting s) (cs_OOMKilled s)
    (cs_RemovalInProgress s) (cs_Dead s) (cs_Pid s) (cs_exitCode s) (cs_error s)
    (cs_StartedAt s) t (cs_waitChan s) (cs_Health s) (cs_closed s) (cs_nextChan s).

(** [close(s.waitChan); s.waitChan = make(chan struct{})]. *)
Definition fire_waiters (s : State) : State * outcome string unit :=
  if decide (cs_waitChan s ∈ cs_closed s) then (s, Panic "close of closed channel")
  else
    (mkState (cs_Running s) (cs_Paused s) (cs_Restarting s) (cs_OOMKilled s)
       (cs_RemovalInProgress s) (cs_Dead s) (cs_Pid s) (cs_exitCode s) (cs_error s)
       (cs_StartedAt s) (cs_FinishedAt s) (cs_nextChan s) (cs_Health s)
       ({[cs_waitChan s]} ∪ cs_closed s) (S (cs_nextChan s)), Ok tt).

Definition SetStopped (s : State) (e : ExitStatus) (now : Z) : State * outcome string unit :=
  let s := set_run s false false false 0 in
  let s := set_FinishedAt s now in
  fire_waiters (setFromExitStatus s e).

(** [SetRestarting] leaves [Paused] as it is. *)
Definition SetRestarting (s : State) (e : ExitStatus) (now : Z) : State * outcome string unit :=
  let s := set_run s true (cs_Paused s) true 0 in
  let s := set_FinishedAt s now in
  fire_waiters (setFromExitStatus s e).

Definition set_removal (s : State) (b : bool) : State :=
  mkState (cs_Running s) (cs_Paused s) (cs_Restarting s) (cs_OOMKilled s)
    b (cs_Dead s) (cs_Pid s) (cs_exitCode s) (cs_error s) (cs_StartedAt s)
    (cs_FinishedAt s) (cs_waitChan s) (cs_Health s) (cs_closed s) (cs_nextChan s).

Definition SetRemovalInProgress (s : State) : State * bool :=
  if cs_RemovalInProgress s then (s, true) else (set_removal s true, false).
Definition ResetRemovalInProgress (s : State) : State := set_removal s false.

Definition SetDead (s : State) : State :=
  mkState (cs_Running s) (cs_Paused s) (cs_Restarting s) (cs_OOMKilled s)
    (cs_RemovalInProgress s) true (cs_Pid s) (cs_exitCode s) (cs_error s) (cs_StartedAt s)
    (cs_FinishedAt s) (cs_waitChan s) (cs_Health s) (cs_closed s) (cs_nextChan s).

(** [WaitStop], before it waits: the exit code of a container that is not
    running, or the channel to wait for. *)
Definition WaitStop_begin (s : State) : Z + nat :=
  if cs_Running s then inr (cs_waitChan s) else inl (cs_exitCode s).

(** [WaitStop], after the channel was closed. *)
Definition WaitStop_end (s : State) : Z := cs_exitCode s.

(** ** Waiters *)

Record wait_sys := mkWaitSys {
  ws_state : State;
  ws_waiters : gmap nat nat (* the channel each blocked call waits for *)
}.

(** Calls on the state, and the steps of the calls of [WaitStop]; a blocked call
    returns when its channel is closed, or times out. *)
Inductive wait_step : wait_sys → wait_sys → Prop :=
| ws_SetRunning s pid initial now :
    wait_step s (mkWaitSys (SetRunning (ws_state s) pid initial now) (ws_waiters s))
| ws_SetStopped s e now st o :
    SetStopped (ws_state s) e now = (st, o) →
    wait_step s (mkWaitSys st (ws_waiters s))
| ws_SetRestarting s e now st o :
    SetRestarting (ws_state s) e now = (st, o) →
    wait_step s (mkWaitSys st (ws_waiters s))
| ws_SetExitCode s ec : wait_step s (mkWaitSys (SetExitCode (ws_state s) ec) (ws_waiters s))
| ws_SetError s e : wait_step s (mkWaitSys (SetError (ws_state s) e) (ws_waiters s))
| ws_SetDead s : wait_step s (mkWaitSys (SetDead (ws_state s)) (ws_waiters s))
| ws_removal s b : wait_step s (mkWaitSys (set_removal (ws_state s) b) (ws_waiters s))
| ws_begin s t c :
    ws_waiters s !! t = None → WaitStop_begin (ws_state s) = inr c →
    wait_step s (mkWaitSys (ws_state s) (<[t := c]> (ws_waiters s)))
| ws_return s t c :
    ws_waiters s !! t = Some c → c ∈ cs_closed (ws_state s) →
    wait_step s (mkWaitSys (ws_state s) (delete t (ws_waiters s)))
| ws_timeout s t c :
    ws_waiters s !! t = Some c →
    wait_step s (mkWaitSys (ws_state s) (delete t (ws_waiters s))).

Definition init_wait : wait_sys := mkWaitSys NewState ∅.

(** The channels closed are those before the current one, which is the last one
    made. *)
Record wait_ok (s : wait_sys) : Prop := {
  wo_chan : cs_nextChan (ws_state s) = S (cs_waitChan (ws_state s));
  wo_closed c : c ∈ cs_closed (ws_state s) ↔ (c < cs_waitChan (ws_state s))%nat;
  wo_waiters t c : ws_waiters s !! t = Some c → (c ≤ cs_waitChan (ws_state s))%nat;
  wo_idle : cs_Running (ws_state s) = false →
    cs_Pid (ws_state s) = 0 ∧ cs_Paused (ws_state s) = false ∧
    cs_Restarting (ws_state s) = false
}.

Lemma fire_waiters_spec s :
  cs_nextChan s = S (cs_waitChan s) →
  (∀ c, c ∈ cs_closed s ↔ (c < cs_waitChan s)%nat) →
  ∃ s', fire_waiters s = (s', Ok tt) ∧ cs_waitChan s' = S (cs_waitChan s) ∧
    cs_nextChan s' = S (cs_waitChan s') ∧
    (∀ c, c ∈ cs_closed s' ↔ (c < cs_waitChan s')%nat) ∧
    cs_Running s' = cs_Running s ∧ cs_Pid s' = cs_Pid s ∧ cs_Paused s' = cs_Paused s ∧
    cs_Restarting s' = cs_Restarting s ∧ cs_exitCode s' = cs_exitCode s.
Proof.
  intros Hn Hc. unfold fire_waiters. rewrite decide_False by (rewrite Hc; lia).
  eexists. split_and!; [done|..]; cbn; rewrite ?Hn; try done.
  intros c. rewrite elem_of_union, elem_of_singleton, Hc. lia.
Qed.

Lemma SetStopped_spec s e now :
  cs_nextChan s = S (cs_waitChan s) →
  (∀ c, c ∈ cs_closed s ↔ (c < cs_waitChan s)%nat) →
  ∃ s', SetStopped s e now = (s', Ok tt) ∧ cs_waitChan s' = S (cs_waitChan s) ∧
    cs_nextChan s' = S (cs_waitChan s') ∧
    (∀ c, c ∈ cs_closed s' ↔ (c < cs_waitChan s')%nat) ∧
    cs_Running s' = false ∧ cs_Pid s' = 0 ∧ cs_Paused s' = false ∧
    cs_Restarting s' = false ∧ cs_exitCode s' = es_ExitCode e.
Proof. intros Hn Hc. by apply fire_waiters_spec. Qed.

Lemma SetRestarting_spec s e now :
  cs_nextChan s = S (cs_waitChan s) →
  (∀ c, c ∈ cs_closed s ↔ (c < cs_waitChan s)%nat) →
  ∃ s', SetRestarting s e now = (s', Ok tt) ∧ cs_waitChan s' = S (cs_waitChan s) ∧
    cs_nextChan s' = S (cs_waitChan s') ∧
    (∀ c, c ∈ cs_closed s' ↔ (c < cs_waitChan s')%nat) ∧
    cs_Running s' = true ∧ cs_Pid s' = 0 ∧ cs_Paused s' = cs_Paused s ∧
    cs_Restarting s' = true ∧ cs_exitCode s' = es_ExitCode e.
Proof. intros Hn Hc. by apply fire_waiters_spec. Qed.

Lemma wait_step_ok s s' : wait_ok s → wait_step s s' → wait_ok s'.
Proof.
  intros [Hn Hc Hw Hi] Hstep. destruct Hstep as [s pid ini now|s e now st o Hs|s e now st o Hs
    |s ec|s e|s|s b|s t c Ht Hb|s t c Ht Hcl|s t c Ht].
  - split; destruct ini; cbn; done.
  - destruct (SetStopped_spec (ws_state s) e now Hn Hc) as (s' & Heq & H1 & H2 & H3 & H4 & H5 & H6 & H7 & _).
    rewrite Heq in Hs. injection Hs as <- <-. split; cbn; [done..| |done].
    intros t c Ht. rewrite H1. specialize (Hw t c Ht). lia.
  - destruct (SetRestarting_spec (ws_state s) e now Hn Hc) as (s' & Heq & H1 & H2 & H3 & H4 & _).
    rewrite Heq in Hs. injection Hs as <- <-. split; cbn; [done..| |congruence].
    intros t c Ht. rewrite H1. specialize (Hw t c Ht). lia.
  - by split.
  - by split.
  - by split.
  - by split.
  - split; cbn; [done..| |done]. unfold WaitStop_begin in Hb.
    destruct (cs_Running _); [|done]. injection Hb as <-.
    intros t' c. rewrite lookup_insert. case_decide; [intros [= <-]; lia|by apply Hw].
  - split; cbn; [done..| |done]. intros t' c' [_ Ht']%lookup_delete_Some. by eapply Hw.
  - split; cbn; [done..| |done]. intros t' c' [_ Ht']%lookup_delete_Some. by eapply Hw.
Qed.

Lemma wait_reachable_ok s : rtc wait_step init_wait s → wait_ok s.
Proof.
  apply rtc_invariant; [apply wait_step_ok|]. split; cbn; [done| |by intros|done].
  intros c. split; [set_solver|lia].
Qed.


Definition demo_running : wait_sys :=
  mkWaitSys (SetRunning NewState 42 true 5) (<[7%nat := 0%nat]> ∅).

Lemma demo_running_reachable : rtc wait_step init_wait demo_running.
Proof.
  eapply rtc_l; [apply (ws_SetRunning init_wait 42 true 5)|].
  eapply rtc_l; [|reflexivity].
  apply (ws_begin (mkWaitSys (SetRunning NewState 42 true 5) ∅) 7 0); reflexivity.
Defined.


(** A waiter reads the exit code after it was woken up: when the container was
    started again in between, it gets 0 and not the code of the stop. *)
Lemma WaitStop_reads_later_code :
  ∃ s s', SetStopped (ws_state demo_running) (mkExit 137 false) 9 = (s, Ok tt) ∧
    s' = SetRunning s 43 false 10 ∧ 0%nat ∈ cs_closed s' ∧ WaitStop_end s' = 0.
Proof.
  exists (SetStopped (ws_state demo_running) (mkExit 137 false) 9).1.
  exists (SetRunning (SetStopped (ws_state demo_running) (mkExit 137 false) 9).1 43 false 10).
  split; [vm_compute; reflexivity|]. split; [reflexivity|].
  split; [apply (bool_decide_unpack _); vm_compute; exact I|vm_compute; reflexivity].
Qed.

(** The single-word description of a state is always one of those that
    [IsValidStateString] accepts, and it is the right one. *)
Theorem StateString_valid s :
  IsValidStateString (StateString s) = true ∧
  (StateString s = "running" ↔
     cs_Running s = true ∧ cs_Paused s = false ∧ cs_Restarting s = false) ∧
  (StateString s = "created" ↔
     cs_Running s = false ∧ cs_Dead s = false ∧ cs_StartedAt s = 0).
Proof.
  unfold StateString, IsValidStateString.
  destruct (cs_Running s), (cs_Paused s), (cs_Restarting s), (cs_Dead s);
    destruct (decide (cs_StartedAt s = 0)); (split; [vm_compute; reflexivity|]); naive_solver.
Qed.

(** ** The store of containers *)

Section memory_store.
(** A container pointer, with the creation date that [List] sorts by. *)
Context {C : Type} (Created : C → Z).

Definition memoryStore := gmap string C.
Implicit Types (m : memoryStore).

Definition NewMemoryStore : memoryStore := ∅.
Definition memoryStore_Add m (id : string) (c : C) : memoryStore := <[id := c]> m.
Definition memoryStore_Get m (id : string) : option C := m !! id.
Definition memoryStore_Delete m (id : string) : memoryStore := delete id m.
Definition memoryStore_Size m : nat := size m.
(** [all]: the order is that of a Go map. *)
Definition memoryStore_all m : list C := (map_to_list m).*2.

(** [History] sorts the newest first. *)
Definition newer (a b : C) : Prop := Created b ≤ Created a.
#[global] Instance newer_dec : RelDecision newer.
Proof. intros a b. unfold newer. apply _. Defined.
#[local] Instance newer_total : Total newer.
Proof. intros a b. unfold newer. lia. Qed.
#[local] Instance newer_trans : Transitive newer.
Proof. intros a b c. unfold newer. lia. Qed.
Definition History_sort (l : list C) : list C := merge_sort newer l.
Definition memoryStore_List m : list C := History_sort (memoryStore_all m).

Fixpoint first_such (f : C → bool) (l : list C) : option C :=
  match l with
  | [] => None
  | c :: l => if f c then Some c else first_such f l
  end.
Definition memoryStore_First m (f : C → bool) : option C := first_such f (memoryStore_all m).

Lemma first_such_spec f l :
  match first_such f l with
  | Some c => c ∈ l ∧ f c = true
  | None => ∀ c, c ∈ l → f c = false
  end.
Proof using Type.
  induction l as [|x l IH]; cbn [first_such]; [by intros c ?%not_elem_of_nil|].
  destruct (f x) eqn:Hx; [by split; [left|]|].
  destruct (first_such f l).
  - destruct IH. by split; [right|].
  - intros c [->|Hc]%elem_of_cons; auto.
Qed.

Lemma elem_of_all m c : c ∈ memoryStore_all m ↔ ∃ id, m !! id = Some c.
Proof.
  unfold memoryStore_all. rewrite list_elem_of_fmap. split.
  - intros ([id c'] & -> & Hin%elem_of_map_to_list). by exists id.
  - intros [id Hid]. exists (id, c). split; [done|]. by apply elem_of_map_to_list.
Qed.

(** Listing the store gives every stored container, exactly as often as it is
    stored, newest first; [First] finds a container that satisfies the filter
    whenever there is one. *)
Lemma memoryStore_List_sorted m f :
  memoryStore_List m ≡ₚ memoryStore_all m ∧
  length (memoryStore_List m) = memoryStore_Size m ∧
  StronglySorted newer (memoryStore_List m) ∧
  match memoryStore_First m f with
  | Some c => (∃ id, memoryStore_Get m id = Some c) ∧ f c = true
  | None => ∀ id c, memoryStore_Get m id = Some c → f c = false
  end.
Proof.
  assert (memoryStore_List m ≡ₚ memoryStore_all m) as Hp by apply merge_sort_Permutation.
  split_and!; [done| | |].
  - rewrite Hp. unfold memoryStore_all. rewrite length_fmap. apply length_map_to_list.
  - apply StronglySorted_merge_sort; apply _.
  - unfold memoryStore_First. pose proof (first_such_spec f (memoryStore_all m)) as H.
    destruct (first_such f _) as [c|]; [by rewrite elem_of_all in H|].
    intros id c Hc. apply H, elem_of_all. by exists id.
Qed.
End memory_store.
