(* ===== verification/IDTools.v ===== *)
(** * pkg/idtools: mapping of user and group identifiers

    The model of pkg/idtools/idtools.go: the translation of identifiers between a
    container and the host, the maps made of subordinate ranges, and the parser of
    /etc/subuid and /etc/subgid.  An [int] is a [Z] that wraps around at 64 bits; a
    file is the list of its lines. *)

From S2P Require Import Prelude GoStrings.
Open Scope Z_scope.

Record IDMap := mkIDMap { im_ContainerID : Z; im_HostID : Z; im_Size : Z }.
Record subIDRange := mkRange { sr_Start : Z; sr_Length : Z }.

(** A nil map is [None]. *)
Fixpoint ToContainer_loop (hostID : Z) (idMap : list IDMap) : option Z :=
  match idMap with
  | [] => None
  | m :: idMap =>
      if decide (hostID >= im_HostID m ∧
                 hostID <= wrap64 (wrap64 (im_HostID m + im_Size m) - 1))
      then Some (wrap64 (im_ContainerID m + wrap64 (hostID - im_HostID m)))
      else ToContainer_loop hostID idMap
  end.

Fixpoint ToHost_loop (contID : Z) (idMap : list IDMap) : option Z :=
  match idMap with
  | [] => None
  | m :: idMap =>
      if decide (contID >= im_ContainerID m ∧
                 contID <= wrap64 (wrap64 (im_ContainerID m + im_Size m) - 1))
      then Some (wrap64 (im_HostID m + wrap64 (contID - im_ContainerID m)))
      else ToHost_loop contID idMap
  end.

Definition ToContainer (hostID : Z) (idMap : option (list IDMap)) : outcome string Z :=
  match idMap with
  | None => Ok hostID
  | Some l =>
      match ToContainer_loop hostID l with
      | Some c => Ok c
      | None => Err "Host ID cannot be mapped to a container ID"
      end
  end.

Definition ToHost (contID : Z) (idMap : option (list IDMap)) : outcome string Z :=
  match idMap with
  | None => Ok contID
  | Some l =>
      match ToHost_loop contID l with
      | Some h => Ok h
      | None => Err "Container ID cannot be mapped to a host ID"
      end
  end.

Definition GetRootUIDGID (uidMap gidMap : option (list IDMap)) : outcome string (Z * Z) :=
  match (if uidMap then ToHost 0 uidMap else Ok 0) with
  | Ok uid =>
      match (if gidMap then ToHost 0 gidMap else Ok 0) with
      | Ok gid => Ok (uid, gid)
      | Err e => Err e
      | Panic m => Panic m
      | Diverge => Diverge
      end
  | Err e => Err e
  | Panic m => Panic m
  | Diverge => Diverge
  end.

(** [ranges] sorts by the start. *)
Definition range_le (a b : subIDRange) : Prop := sr_Start a ≤ sr_Start b.
#[global] Instance range_le_dec : RelDecision range_le.
Proof. intros a b. unfold range_le. apply _. Defined.

Fixpoint createIDMap_loop (containerID : Z) (l : list subIDRange) : list IDMap :=
  match l with
  | [] => []
  | r :: l =>
      mkIDMap containerID (sr_Start r) (sr_Length r)
        :: createIDMap_loop (wrap64 (containerID + sr_Length r)) l
  end.

Definition createIDMap (subidRanges : list subIDRange) : list IDMap :=
  createIDMap_loop 0 (merge_sort range_le subidRanges).

(** The loop of [parseSubidFile] over the lines. *)
Fixpoint parse_lines (username : string) (lines : list string) (acc : list subIDRange) :
    outcome string (list subIDRange) :=
  match lines with
  | [] => Ok acc
  | line :: lines =>
      let text := TrimSpace line in
      if decide (text = "") then parse_lines username lines acc
      else if HasPrefix text "#" then parse_lines username lines acc
      else
        match Split ":" text with
        | [name; start; len] =>
            if decide (name = username ∨ username = "ALL") then
              match Atoi start with
              | None => Err "String to int conversion failed during subuid/gid parsing"
              | Some startid =>
                  match Atoi len with
                  | None => Err "String to int conversion failed during subuid/gid parsing"
                  | Some length => parse_lines username lines (acc ++ [mkRange startid length])
                  end
              end
            else parse_lines username lines acc
        | _ => Err "Cannot parse subuid/gid information: Format not correct"
        end
  end.

(** [file] is the error of opening the file, or its lines. *)
Definition parseSubidFile (file : string + list string) (username : string) :
    outcome string (list subIDRange) :=
  match file with
  | inl e => Err e
  | inr lines => parse_lines username lines []
  end.

Definition CreateIDMappings (subuid subgid : string + list string)
    (username groupname : string) : outcome string (list IDMap * list IDMap) :=
  match parseSubidFile subuid username with
  | Ok subuidRanges =>
      match parseSubidFile subgid groupname with
      | Ok subgidRanges =>
          if decide (length subuidRanges = 0%nat)
          then Err ("No subuid ranges found for user " +:+ username)
          else if decide (length subgidRanges = 0%nat)
          then Err ("No subgid ranges found for group " +:+ groupname)
          else Ok (createIDMap subuidRanges, createIDMap subgidRanges)
      | Err e => Err e
      | Panic m => Panic m
      | Diverge => Diverge
      end
  | Err e => Err e
  | Panic m => Panic m
  | Diverge => Diverge
  end.

(** ** The translation *)

Definition total_length (l : list subIDRange) : Z := foldr (λ r n, sr_Length r + n) 0 l.

(** A range of identifiers that an int can hold. *)
Definition range_ok (r : subIDRange) : Prop :=
  0 ≤ sr_Start r ∧ 0 < sr_Length r ∧ sr_Start r + sr_Length r < 2 ^ 63.

Definition in_range (h : Z) (r : subIDRange) : Prop :=
  sr_Start r ≤ h < sr_Start r + sr_Length r.

(** No identifier of the host is in two of the ranges. *)
Definition disjoint_ranges (l : list subIDRange) : Prop :=
  NoDup l ∧ ∀ h r r', r ∈ l → r' ∈ l → in_range h r → in_range h r' → r = r'.

Lemma total_length_perm l l' : l ≡ₚ l' → total_length l = total_length l'.
Proof. unfold total_length. induction 1; simpl; lia. Qed.

Lemma total_length_nonneg l : Forall range_ok l → 0 ≤ total_length l.
Proof.
  unfold total_length. induction 1 as [|x l [_ [Hx _]] Hl IH]; simpl; lia.
Qed.

(** What the map made of [l] from [k] on sends [c] to. *)
Lemma createIDMap_loop_ToHost l k c :
  Forall range_ok l → 0 ≤ k → k + total_length l < 2 ^ 63 → k ≤ c →
  match ToHost_loop c (createIDMap_loop k l) with
  | Some h => c < k + total_length l ∧ 0 ≤ h < 2 ^ 63 ∧ ∃ r, r ∈ l ∧ in_range h r
  | None => k + total_length l ≤ c
  end.
Proof.
  intros Hok. revert k. induction Hok as [|r l Hr Hok IH]; intros k Hk Ht Hc; simpl in *; [lia|].
  destruct Hr as (Hr0 & Hr1 & Hr2).
  pose proof (total_length_nonneg l Hok) as Hpos.
  rewrite !wrap64_id by (rewrite ?wrap64_id; lia).
  case_decide as Hin.
  - rewrite !wrap64_id by (rewrite ?wrap64_id; lia).
    split_and!; [lia..|]. exists r. split; [set_solver|]. unfold in_range. lia.
  - specialize (IH (k + sr_Length r)). destruct (ToHost_loop _ _) as [h|].
    + destruct IH as (? & ? & r' & Hr' & Hh); [lia..|].
      split_and!; [lia..|]. exists r'. split; [set_solver|done].
    + lia.
Qed.

Lemma createIDMap_loop_ToContainer l k c h :
  Forall range_ok l → disjoint_ranges l → 0 ≤ k → k + total_length l < 2 ^ 63 → k ≤ c →
  ToHost_loop c (createIDMap_loop k l) = Some h →
  ToContainer_loop h (createIDMap_loop k l) = Some c.
Proof.
  intros Hok. revert k. induction Hok as [|r l Hr Hok IH]; intros k Hdis Hk Ht Hc; simpl in *; [done|].
  destruct Hr as (Hr0 & Hr1 & Hr2). pose proof (total_length_nonneg l Hok) as Hpos.
  rewrite !(wrap64_id (k + sr_Length r)) by lia.
  rewrite !(wrap64_id (sr_Start r + sr_Length r)) by lia.
  rewrite (wrap64_id (k + sr_Length r - 1)) by lia.
  rewrite (wrap64_id (sr_Start r + sr_Length r - 1)) by lia.
  destruct Hdis as [[Hnr Hnd]%NoDup_cons Hdis].
  case_decide as Hin.
  - rewrite (wrap64_id (c - k)), wrap64_id by lia. intros [= <-].
    rewrite decide_True by lia. rewrite (wrap64_id (_ - sr_Start r)), wrap64_id by lia.
    f_equal. lia.
  - intros Hh. pose proof (createIDMap_loop_ToHost l (k + sr_Length r) c Hok) as Hto.
    rewrite Hh in Hto. destruct Hto as (_ & _ & r' & Hr' & Hhr'); [lia..|].
    rewrite decide_False.
    + apply IH; [|lia..|done]. split; [done|]. intros; eapply Hdis; [by right|by right|done..].
    + intros [Hge Hle]. destruct Hnr. rewrite (Hdis h r r'); [done|by left|by right| |done].
      unfold in_range. lia.
Qed.

(** The map made of disjoint subordinate ranges, of total length [n], sends
    exactly the container identifiers from 0 up to [n - 1] to identifiers of the
    ranges, and translating back gives the same identifier; the others are errors.
    In particular root of the container is mapped. *)
Theorem createIDMap_roundtrip l c :
  Forall range_ok l → disjoint_ranges l → total_length l < 2 ^ 63 → 0 ≤ c →
  match ToHost c (Some (createIDMap l)) with
  | Ok h => c < total_length l ∧ (∃ r, r ∈ l ∧ in_range h r) ∧
      ToContainer h (Some (createIDMap l)) = Ok c
  | Err _ => total_length l ≤ c
  | Panic _ | Diverge => False
  end.
Proof.
  intros Hok Hdis Ht Hc. unfold createIDMap. set (l' := merge_sort range_le l).
  assert (l' ≡ₚ l) as Hp by apply merge_sort_Permutation.
  assert (total_length l' = total_length l) as Htl by (by apply total_length_perm).
  assert (Forall range_ok l') as Hok' by (by rewrite Hp).
  assert (disjoint_ranges l') as Hdis'.
  { split; [rewrite Hp; apply Hdis|]. intros h r r'. rewrite !Hp. apply Hdis. }
  unfold ToHost, ToContainer.
  pose proof (createIDMap_loop_ToHost l' 0 c Hok') as Hto.
  pose proof (createIDMap_loop_ToContainer l' 0 c) as Hback.
  destruct (ToHost_loop c (createIDMap_loop 0 l')) as [h|].
  - rewrite (Hback h) by (done || lia). destruct Hto as (H1 & H2 & r & Hr & Hh); [lia..|].
    split_and!; [lia| |done]. exists r. by rewrite <- Hp.
  - rewrite <- Htl. apply Hto; lia.
Qed.

Lemma createIDMap_roundtrip_witness :
  let l := [mkRange 200000 10; mkRange 100000 65536] in
  ToHost 65540 (Some (createIDMap l)) = Ok 200004 ∧
  ToContainer 200004 (Some (createIDMap l)) = Ok 65540.
Proof.
  split; [vm_compute; reflexivity|].
  pose proof (createIDMap_roundtrip [mkRange 200000 10; mkRange 100000 65536] 65540) as H.
  assert (ToHost 65540 (Some (createIDMap [mkRange 200000 10; mkRange 100000 65536])) =
    Ok 200004) as Hh by (vm_compute; reflexivity).
  rewrite Hh in H. apply H.
  - repeat constructor; cbn; lia.
  - split; [repeat constructor; set_solver|].
    intros h r r' Hr Hr' Hin Hin'.
    apply elem_of_cons in Hr as [->|Hr%list_elem_of_singleton];
      apply elem_of_cons in Hr' as [->|Hr'%list_elem_of_singleton]; subst; try reflexivity;
      unfold in_range in *; cbn in *; lia.
  - cbn. lia.
  - lia.
Defined.

