(* ===== verification/Symlink.v ===== *)
(** * pkg/symlink: symbolic links in the scope of a directory

    The model of pkg/symlink/fs.go.  The file system at the time of the call is
    given by [Lstat] and [Readlink]; the working directory by [Getwd]. *)

From S2P Require Import Prelude GoStrings GoPath.

(** What [os.Lstat] tells of a path. *)
Inductive stat := NotExist | StatErr (e : string) | NotLink | IsLink.

Section symlink.
Context (Lstat : string → stat) (Readlink : string → string + string).
Context (Getwd : string + string).

Definition maxIter : nat := 255.

(** The loop: [fuel] is [maxIter + 1 - n], and the loop returns an error when it
    is used up, as the code does. *)
Fixpoint eval_loop (fuel : nat) (root b path : string) : outcome string string :=
  if decide (path = "") then Ok (Clean (root +:+ Clean ("/" +:+ b)))
  else
    match fuel with
    | 0 => Err "evalSymlinksInScope: too many links"
    | S fuel =>
        let '(p, path) := default (path, "") (cut_at slash path) in
        if decide (p = "") then eval_loop fuel root b path
        else
          let cleanP := Clean ("/" +:+ b +:+ p) in
          if decide (cleanP = "/") then eval_loop fuel root "" path
          else
            let fullP := Clean (root +:+ cleanP) in
            match Lstat fullP with
            | NotExist | NotLink => eval_loop fuel root (b +:+ p +:+ "/") path
            | StatErr e => Err e
            | IsLink =>
                match Readlink fullP with
                | inl e => Err e
                | inr dest =>
                    eval_loop fuel root (if IsAbs dest then "" else b) (dest +:+ "/" +:+ path)
                end
            end
    end.

Definition evalSymlinksInScope (path root : string) : outcome string string :=
  let root := Clean root in
  if decide (path = root) then Ok path
  else
    match strip_prefix root path with
    | None => Err "evalSymlinksInScope: not in the root"
    | Some rest =>
        let rest := if decide (root = "/") then "/" +:+ rest else rest in
        if HasPrefix rest "/" then eval_loop (S maxIter) root "" (Clean rest)
        else Err "evalSymlinksInScope: not in the root"
    end.

(** [filepath.Abs]; [filepath.FromSlash] is the identity. *)
Definition Abs (p : string) : outcome string string :=
  if IsAbs p then Ok (Clean p)
  else
    match Getwd with
    | inl e => Err e
    | inr wd => Ok (Clean (wd +:+ "/" +:+ p))
    end.

Definition FollowSymlinkInScope (path root : string) : outcome string string :=
  match Abs path with
  | Ok path =>
      match Abs root with
      | Ok root => evalSymlinksInScope path root
      | r => r
      end
  | r => r
  end.

(** ** Containment *)

(** Nothing on the way from the root [rst] to [st] is a symbolic link. *)
Definition no_links (rst st : list string) : Prop :=
  ∀ st', st' `suffix_of` st → st' ≠ [] →
    Lstat (abs_path (st' ++ rst)) = NotExist ∨ Lstat (abs_path (st' ++ rst)) = NotLink.

(** The path below the root, so far. *)
Record buffer_at (rst : list string) (b : string) (st : list string) : Prop := {
  ba_walk : ∀ q, walk true [] (b +:+ q) = walk true st q;
  ba_normal : Forall normal st;
  ba_links : no_links rst st
}.

Lemma walk_one st p : contains_char slash p = false → walk true st p = push true st p.
Proof. intros Hp. unfold walk. by rewrite Split_no_sep. Qed.

Lemma no_links_suffix rst st st' : no_links rst st → st' `suffix_of` st → no_links rst st'.
Proof. intros H Hs t Ht. apply H. by trans st'. Qed.

Lemma Clean_root_app rst st :
  Forall normal rst → Forall normal st → Clean (abs_path rst +:+ abs_path st) = abs_path (st ++ rst).
Proof.
  intros Hr Hs. unfold abs_path at 1. change (("/" +:+ Join (rev rst) "/") +:+ abs_path st) with
    (String slash (Join (rev rst) "/" +:+ abs_path st)). rewrite Clean_abs. f_equal.
  unfold abs_path. change ("/" +:+ Join (rev st) "/") with (String slash (Join (rev st) "/")).
  rewrite walk_sep.
  pose proof (walk_abs_path rst [] Hr) as H1. rewrite app_nil_r in H1. unfold abs_path in H1.
  change ("/" +:+ Join (rev rst) "/") with ("" +:+ String slash (Join (rev rst) "/")) in H1.
  rewrite walk_sep in H1. change (walk true [] "") with (@nil string) in H1. rewrite H1.
  pose proof (walk_abs_path st rst Hs) as H2. unfold abs_path in H2.
  change ("/" +:+ Join (rev st) "/") with ("" +:+ String slash (Join (rev st) "/")) in H2.
  by rewrite walk_sep in H2.
Qed.

Lemma buffer_clean rst b st q :
  buffer_at rst b st → Clean ("/" +:+ b +:+ q) = abs_path (walk true st q).
Proof. intros Hb. change ("/" +:+ b +:+ q) with (String slash (b +:+ q)).
  by rewrite Clean_abs, (ba_walk _ _ _ Hb).
Qed.

Lemma buffer_empty rst : buffer_at rst "" [].
Proof. split; [done|done|]. intros st' [k Hk] Hne. destruct st'; [done|]. by destruct k. Qed.

Lemma suffix_cons_inv (st' st : list string) (x : string) :
  st' `suffix_of` x :: st → st' = x :: st ∨ st' `suffix_of` st.
Proof.
  intros [[|y k] Hk]; [by left|]. right. injection Hk as -> ->. by exists k.
Qed.

(** Going into a component that is not a link. *)
Lemma buffer_push rst b st p :
  buffer_at rst b st → contains_char slash p = false →
  (Lstat (abs_path (walk true st p ++ rst)) = NotExist ∨
   Lstat (abs_path (walk true st p ++ rst)) = NotLink) →
  buffer_at rst (b +:+ p +:+ "/") (walk true st p).
Proof.
  intros [Hw Hn Hl] Hp Hstat. split.
  - intros q. rewrite !append_assoc. change ("/" +:+ q) with (String slash q).
    by rewrite <- append_assoc, walk_sep, Hw.
  - by apply walk_normal.
  - rewrite walk_one in * by done. unfold push in *. case_decide; [done|]. case_decide.
    + destruct st as [|top st]; [done|]. case_decide as Ht.
      * apply Forall_cons in Hn as [(_ & _ & Hn & _) _]. done.
      * eapply no_links_suffix; [done|]. by exists [top].
    + intros st' [->|Hs]%suffix_cons_inv Hne; [done|]. by apply Hl.
Qed.

Lemma eval_loop_contained fuel rst b st path r :
  Forall normal rst → buffer_at rst b st →
  eval_loop fuel (abs_path rst) b path = Ok r →
  ∃ st', Forall normal st' ∧ no_links rst st' ∧ r = abs_path (st' ++ rst).
Proof.
  intros Hr. revert b st path. induction fuel as [|fuel IH]; intros b st path Hb; cbn [eval_loop];
    (destruct (decide (path = "")) as [_|_];
     [intros [= <-]; exists st; destruct Hb as [Hw Hn Hl]; split_and!; [done|done|];
      rewrite <- Clean_root_app by done; do 2 f_equal;
      specialize (Hw ""); rewrite append_nil_r in Hw; change ("/" +:+ b) with (String slash b);
      by rewrite Clean_abs, Hw|]); [done|].
  destruct (default (path, "") (cut_at slash path)) as [p rest] eqn:Hcut.
  assert (Hp : contains_char slash p = false).
  { destruct (cut_at slash path) as [[p' r']|] eqn:Hc; simpl in Hcut; simplify_eq.
    - by apply cut_at_Some in Hc as [_ Hc%cut_at_None].
    - by apply cut_at_None. }
  destruct (decide (p = "")) as [_|_]; [by apply (IH _ st)|].
  rewrite (buffer_clean _ _ _ _ Hb). case_decide as Hroot; [by apply (IH _ []), buffer_empty|].
  pose proof (walk_normal st p (ba_normal _ _ _ Hb)) as Hn.
  rewrite Clean_root_app by done.
  destruct (Lstat (abs_path (walk true st p ++ rst))) eqn:Hstat; [|done| |].
  - apply (IH _ _ _ (buffer_push _ _ _ _ Hb Hp (or_introl Hstat))).
  - apply (IH _ _ _ (buffer_push _ _ _ _ Hb Hp (or_intror Hstat))).
  - destruct (Readlink _) as [e|dest]; [done|].
    destruct (IsAbs dest); [by apply (IH _ []), buffer_empty|by apply (IH _ st)].
Qed.

(** The working directory is an absolute path. *)
Hypothesis Getwd_abs : ∀ wd, Getwd = inr wd → IsAbs wd = true.

Lemma IsAbs_spec p : IsAbs p = true ↔ ∃ q, p = String slash q.
Proof. unfold IsAbs. rewrite HasPrefix_spec. by split; intros [q ->]; exists q. Qed.

Lemma Abs_stack p r : Abs p = Ok r → ∃ st, Forall normal st ∧ r = abs_path st.
Proof.
  unfold Abs. destruct (IsAbs p) eqn:Hp.
  - apply IsAbs_spec in Hp as [q ->]. intros [= <-]. rewrite Clean_abs. eexists.
    split; [|done]. by apply walk_normal.
  - destruct Getwd as [e|wd]; [done|]. intros [= <-].
    destruct (proj1 (IsAbs_spec wd) (Getwd_abs wd eq_refl)) as [q ->]. rewrite append_cons, Clean_abs. eexists.
    split; [|done]. by apply walk_normal.
Qed.

Lemma eval_loop_ends fuel root b path : no_crash (eval_loop fuel root b path).
Proof.
  revert b path. induction fuel as [|fuel IH]; intros b path; cbn [eval_loop];
    (destruct (decide (path = "")); [by split|]); [by split|].
  destruct (default (path, "") _) as [p rest]. case_decide; [apply IH|].
  cbn zeta. case_decide; [apply IH|]. destruct (Lstat _); [apply IH|by split|apply IH|].
  destruct (Readlink _); [by split|apply IH].
Qed.

Lemma FollowSymlinkInScope_ends path root : no_crash (FollowSymlinkInScope path root).
Proof.
  assert (Habs : ∀ p, no_crash (Abs p)).
  { intros p. unfold Abs. destruct (IsAbs p); [by split|]. by destruct Getwd; split. }
  unfold FollowSymlinkInScope. specialize (Habs path) as Hp. specialize (Habs root) as Hr.
  destruct (Abs path); [|done..]. destruct (Abs root); [|done..].
  unfold evalSymlinksInScope. case_decide; [by split|]. destruct (strip_prefix _ _); [|by split].
  destruct (HasPrefix _ _); [apply eval_loop_ends|by split].
Qed.

(** C23: [FollowSymlinkInScope] stays in its scope.  A path that it returns is the
    scope followed by normal components (neither empty, "." nor ".."), whatever the
    symbolic links point to, and no path on the way from the scope to it is a
    symbolic link.  The loop always ends; every failure is an error. *)
Theorem FollowSymlinkInScope_contained path root :
  no_crash (FollowSymlinkInScope path root) ∧
  ∀ r, FollowSymlinkInScope path root = Ok r →
  ∃ rst st, Abs root = Ok (abs_path rst) ∧ Forall normal (st ++ rst) ∧
    r = abs_path (st ++ rst) ∧ no_links rst st.
Proof.
  split; [apply FollowSymlinkInScope_ends|]. intros r. unfold FollowSymlinkInScope. destruct (Abs path) as [p|e|m|] eqn:Hp; try done.
  destruct (Abs root) as [r0|e|m|] eqn:Hr; try done.
  apply Abs_stack in Hp as (pst & Hpst & ->). apply Abs_stack in Hr as (rst & Hrst & ->).
  unfold evalSymlinksInScope. rewrite Clean_abs_path by done. case_decide as Heq.
  - intros [= <-]. exists rst, []. apply abs_path_inj in Heq as ->; [|done..].
    split_and!; [done..|apply (ba_links _ _ _ (buffer_empty rst))].
  - destruct (strip_prefix _ _) as [rest|]; [|done]. destruct (HasPrefix _ "/"); [|done].
    intros He. eapply eval_loop_contained in He as (st & Hst & Hl & ->); [|done|apply buffer_empty].
    exists rst, st. split_and!; [done|by apply Forall_app|done|done].
Qed.

(** ** Paths without links *)

Lemma cut_at_Join c x cs :
  normal c → cut_at slash (Join (c :: x :: cs) "/") = Some (c, Join (x :: cs) "/").
Proof.
  intros (_ & _ & _ & Hc). rewrite Join_cons.
  change ("/" +:+ Join (x :: cs) "/") with (String slash (Join (x :: cs) "/")).
  apply cut_at_append. by apply cut_at_None.
Qed.

Lemma eval_loop_free fuel rst b st cs :
  Forall normal rst → Forall normal cs → buffer_at rst b st → no_links rst (rev cs ++ st) →
  eval_loop fuel (abs_path rst) b (Join cs "/") =
    if decide (length cs ≤ fuel) then Ok (abs_path (rev cs ++ st ++ rst))
    else Err "evalSymlinksInScope: too many links".
Proof.
  intros Hr. revert fuel b st. induction cs as [|c cs IH]; intros fuel b st Hcs Hb Hl.
  { assert (Hd : Clean (abs_path rst +:+ Clean ("/" +:+ b)) = abs_path (st ++ rst)).
    { pose proof (buffer_clean _ _ _ "" Hb) as Hc. rewrite append_nil_r in Hc. rewrite Hc.
      apply Clean_root_app; [done|apply (ba_normal _ _ _ Hb)]. }
    rewrite decide_True by (simpl; lia). by destruct fuel; simpl; rewrite Hd. }
  apply Forall_cons in Hcs as [Hc Hcs]. pose proof Hc as (Hc1 & Hc2 & Hc3 & Hc4).
  assert (Hne : Join (c :: cs) "/" ≠ "").
  { destruct cs; [done|]. rewrite Join_cons. by destruct c. }
  assert (Hcut : default (Join (c :: cs) "/", "") (cut_at slash (Join (c :: cs) "/")) =
            (c, Join cs "/")).
  { destruct cs as [|x cs]; [|by rewrite cut_at_Join]. apply cut_at_None in Hc4.
    cbn [Join]. by rewrite Hc4. }
  assert (Hpush : walk true st c = c :: st).
  { rewrite walk_one by done. unfold push. rewrite !decide_False; naive_solver. }
  assert (Hstat : Lstat (abs_path ((c :: st) ++ rst)) = NotExist ∨
                  Lstat (abs_path ((c :: st) ++ rst)) = NotLink).
  { apply Hl; [|done]. exists (rev cs). simpl. by rewrite <- app_assoc. }
  destruct fuel as [|fuel]; cbn [eval_loop].
  { rewrite decide_False by done. rewrite decide_False; [done|simpl; lia]. }
  rewrite decide_False, Hcut, decide_False by done. cbn zeta.
  rewrite (buffer_clean _ _ _ _ Hb), Hpush.
  assert (Hn : Forall normal (c :: st)) by (constructor; [done|apply (ba_normal _ _ _ Hb)]).
  rewrite decide_False; cycle 1.
  { intros Heq. change "/" with (abs_path []) in Heq. by apply abs_path_inj in Heq. }
  rewrite Clean_root_app by done.
  assert (Hb' : buffer_at rst (b +:+ c +:+ "/") (c :: st)).
  { rewrite <- Hpush. apply buffer_push; [done|done|by rewrite Hpush]. }
  assert (Hl' : no_links rst (rev cs ++ c :: st)).
  { cbn [rev] in Hl. by rewrite <- app_assoc in Hl. }
  assert (Hgo : eval_loop fuel (abs_path rst) (b +:+ c +:+ "/") (Join cs "/") =
    if decide (length (c :: cs) ≤ S fuel) then Ok (abs_path (rev (c :: cs) ++ st ++ rst))
    else Err "evalSymlinksInScope: too many links").
  { rewrite (IH _ _ _ Hcs Hb' Hl'). cbn [length rev]. rewrite <- (app_assoc (rev cs)).
    apply decide_ext. lia. }
  by destruct Hstat as [->| ->].
Qed.

Lemma Join_app ws ws' sep :
  ws ≠ [] → ws' ≠ [] → Join (ws ++ ws') sep = Join ws sep +:+ sep +:+ Join ws' sep.
Proof.
  intros Hw Hw'. induction ws as [|w ws IH]; [done|]. destruct ws as [|x ws].
  - simpl. by destruct ws'.
  - cbn [app] in *. rewrite !Join_cons, IH by done. by rewrite !append_assoc.
Qed.

Lemma rev_ne_nil {A} (l : list A) : l ≠ [] → rev l ≠ [].
Proof. intros H Hr. apply H. rewrite <- (rev_involutive l). by rewrite Hr. Qed.

Lemma eval_loop_slash fuel root b st :
  eval_loop (S fuel) root b (abs_path st) = eval_loop fuel root b (Join (rev st) "/").
Proof. done. Qed.

(** A path below the scope that is clean and on which no symbolic link lies is
    returned as it is, if it has at most 255 components below the scope, and
    refused with "too many links" if it has more. *)
Theorem FollowSymlinkInScope_link_free rst st :
  Forall normal (st ++ rst) → no_links rst st → st ≠ [] →
  FollowSymlinkInScope (abs_path (st ++ rst)) (abs_path rst) =
    if decide (length st ≤ maxIter) then Ok (abs_path (st ++ rst))
    else Err "evalSymlinksInScope: too many links".
Proof.
  intros Hn Hl Hne. apply Forall_app in Hn as [Hst Hrst].
  unfold FollowSymlinkInScope, Abs. change (IsAbs (abs_path ?x)) with true. cbn iota.
  rewrite !Clean_abs_path by (try apply Forall_app; done).
  unfold evalSymlinksInScope. rewrite Clean_abs_path by done. rewrite decide_False; cycle 1.
  { intros Heq. apply abs_path_inj in Heq; [|by apply Forall_app|done].
    apply (f_equal length) in Heq. rewrite length_app in Heq. destruct st; [done|simpl in Heq; lia]. }
  assert (Hstart : eval_loop (S maxIter) (abs_path rst) "" (abs_path st) =
    if decide (length st ≤ maxIter) then Ok (abs_path (st ++ rst))
    else Err "evalSymlinksInScope: too many links").
  { rewrite eval_loop_slash, (eval_loop_free _ _ _ []), rev_involutive, length_rev; [done|done| |..].
    - by apply Forall_rev.
    - apply buffer_empty.
    - by rewrite rev_involutive, app_nil_r. }
  destruct (decide (rst = [])) as [->|Hrne].
  - rewrite app_nil_r in *. unfold abs_path at 2. rewrite strip_prefix_app.
    rewrite decide_True by done. change ("/" +:+ Join (rev st) "/") with (abs_path st).
    change (HasPrefix (abs_path st) "/") with true. cbn iota. by rewrite Clean_abs_path.
  - assert (Hpath : abs_path (st ++ rst) = abs_path rst +:+ abs_path st).
    { unfold abs_path. rewrite rev_app_distr, Join_app by by apply rev_ne_nil.
      by rewrite append_assoc. }
    rewrite Hpath at 1. rewrite strip_prefix_app. rewrite decide_False.
    + change (HasPrefix (abs_path st) "/") with true. cbn iota. by rewrite Clean_abs_path.
    + intros Heq. apply Hrne. by apply (abs_path_inj rst []).
Qed.
End symlink.

(** ** A concrete file system: /foo/bar is a link to ../../etc, /foo/baz one to /outside *)

Definition demo_Lstat (p : string) : stat :=
  if decide (p = "/foo/bar" ∨ p = "/foo/baz") then IsLink else NotExist.
Definition demo_Readlink (p : string) : string + string :=
  if decide (p = "/foo/bar") then inr "../../etc" else inr "/outside".

Example follow_relative :
  FollowSymlinkInScope demo_Lstat demo_Readlink (inr "/") "/foo/bar/passwd" "/foo" =
    Ok "/foo/etc/passwd".
Proof. vm_compute. reflexivity. Qed.

Example follow_absolute :
  FollowSymlinkInScope demo_Lstat demo_Readlink (inr "/") "foo/baz" "/foo/." = Ok "/foo/outside".
Proof. vm_compute. reflexivity. Qed.

Lemma FollowSymlinkInScope_contained_witness :
  ∃ rst st, Abs (inr "/") "/foo" = Ok (abs_path rst) ∧ Forall normal (st ++ rst) ∧
    "/foo/etc/passwd" = abs_path (st ++ rst) ∧ no_links demo_Lstat rst st.
Proof.
  apply (FollowSymlinkInScope_contained demo_Lstat demo_Readlink (inr "/")
    (λ wd H, match H in _ = y return match y with inr w => IsAbs w = true | _ => True end
             with eq_refl => eq_refl end) "/foo/bar/passwd" "/foo").
  vm_compute. reflexivity.
Defined.

Lemma FollowSymlinkInScope_link_free_witness :
  FollowSymlinkInScope demo_Lstat demo_Readlink (inl "") "/foo/a/b" "/foo" = Ok "/foo/a/b".
Proof.
  apply (FollowSymlinkInScope_link_free demo_Lstat demo_Readlink (inl "") ["foo"] ["b"; "a"]).
  - repeat constructor; done.
  - intros st' Hs Hne. left. apply suffix_cons_inv in Hs as [->|Hs]; [done|].
    apply suffix_cons_inv in Hs as [->|[k Hk]]; [done|]. by destruct k, st'.
  - done.
Defined.
