(* ===== verification/RefCounter.v ===== *)
(** * daemon/graphdriver: the reference counter of mounts

    The model of daemon/graphdriver/counter.go.  [IsMounted] is the checker's
    answer at the time of a call. *)

From S2P Require Import Prelude.
Open Scope Z_scope.

Record minfo := mkMinfo { mi_check : bool; mi_count : Z }.

Abbreviation RefCounter := (gmap string minfo).
Definition NewRefCounter : RefCounter := ∅.

(** The entry of [path], checked. *)
Definition checked_entry (c : RefCounter) (path : string) (IsMounted : bool) : minfo :=
  let m := default (mkMinfo false 0) (c !! path) in
  if mi_check m then m
  else mkMinfo true (if IsMounted then wrap64 (mi_count m + 1) else mi_count m).

Definition RefCounter_Increment (c : RefCounter) (path : string) (IsMounted : bool) :
    RefCounter * Z :=
  let m := checked_entry c path IsMounted in
  let m := mkMinfo (mi_check m) (wrap64 (mi_count m + 1)) in
  (<[path := m]> c, mi_count m).

Definition RefCounter_Decrement (c : RefCounter) (path : string) (IsMounted : bool) :
    RefCounter * Z :=
  let m := checked_entry c path IsMounted in
  let m := mkMinfo (mi_check m) (wrap64 (mi_count m - 1)) in
  (<[path := m]> c, mi_count m).

(** A call: the path, whether it is mounted then, and [true] for [Increment]. *)
Abbreviation counter_call := (string * bool * bool)%type.
Definition counter_step (c : RefCounter) (op : counter_call) : RefCounter :=
  let '(path, mounted, inc) := op in
  (if inc then RefCounter_Increment c path mounted
   else RefCounter_Decrement c path mounted).1.

(** What [path] should be counted as: one for a mount that was there at its first
    call, plus the increments, minus the decrements. *)
Definition calls_on (path : string) (ops : list counter_call) : list counter_call :=
  filter (λ op, op.1.1 = path) ops.
Definition net (ops : list counter_call) : Z :=
  foldr (λ op n, (if op.2 : bool then 1 else -1) + n) 0 ops.
Definition expected (ops : list counter_call) : Z :=
  match ops with
  | [] => 0
  | (_, mounted, _) :: _ => (if mounted : bool then 1 else 0) + net ops
  end.

Lemma net_app a b : net (a ++ b) = net a + net b.
Proof. unfold net. induction a as [|x a IH]; simpl; lia. Qed.

Lemma expected_snoc ops op :
  ops ≠ [] → expected (ops ++ [op]) = expected ops + (if op.2 : bool then 1 else -1).
Proof.
  destruct ops as [|[[p m] i] ops]; [done|]. intros _. cbn [app expected].
  rewrite app_comm_cons, net_app. cbn. lia.
Qed.

(** After any sequence of calls, the count of every path is the number of
    its increments minus the number of its decrements, plus one when the path was
    already mounted at its first call (as an int); and a path that was never
    counted has no entry. *)
Lemma RefCounter_counts ops path :
  (foldl counter_step NewRefCounter ops) !! path =
    match calls_on path ops with
    | [] => None
    | _ => Some (mkMinfo true (wrap64 (expected (calls_on path ops))))
    end.
Proof.
  induction ops as [|op ops IH] using rev_ind; [done|].
  rewrite foldl_snoc. set (c := foldl counter_step NewRefCounter ops) in *. clearbody c.
  unfold calls_on in *. rewrite filter_app.
  destruct op as [[p m] i]. rewrite filter_cons, filter_nil. cbn [fst snd].
  destruct (decide (p = path)) as [->|Hne].
  - assert (∀ (l : list counter_call) x, match l ++ [x] with [] => None | _ =>
      Some (mkMinfo true (wrap64 (expected (l ++ [x])))) end =
      Some (mkMinfo true (wrap64 (expected (l ++ [x]))))) as -> by (by intros []).
    unfold counter_step, RefCounter_Increment, RefCounter_Decrement, checked_entry. rewrite IH.
    destruct (filter _ ops) as [|x l] eqn:Hf.
    + destruct i, m; cbn [fst snd]; rewrite lookup_insert_eq; reflexivity.
    + rewrite expected_snoc by done.
      destruct i; cbn [default mi_check mi_count fst snd]; rewrite lookup_insert_eq;
        cbn; [by rewrite wrap64_add|]. f_equal. f_equal. apply wrap64_add.
  - rewrite app_nil_r, <- IH.
    unfold counter_step, RefCounter_Increment, RefCounter_Decrement.
    destruct i; cbn [fst snd]; by rewrite lookup_insert_ne.
Qed.
