(* ===== verification/Locker.v ===== *)
(** * pkg/locker: locks by name

    The model of pkg/locker/locker.go.  A [lockCtr] is an object of the heap: the
    table maps a name to its address, and a goroutine that waits for a lock keeps
    the address it read.  The parts of [Lock] and [Unlock] are the definitions
    below; the step relation interleaves them. *)

From S2P Require Import Prelude.

Abbreviation loc := nat (only parsing).
Abbreviation tid := nat (only parsing).

(** The arithmetic of int32. *)
Definition wrap32 (z : Z) : Z := ((z + 2 ^ 31) mod 2 ^ 32 - 2 ^ 31)%Z.
Lemma wrap32_id z : (- 2 ^ 31 ≤ z < 2 ^ 31)%Z → wrap32 z = z.
Proof. intros Hz. unfold wrap32. rewrite Z.mod_small; lia. Qed.

(** [lc_mu] is the goroutine that holds the mutex. *)
Record lockCtr := mkCtr { lc_mu : option tid; lc_waiters : Z }.
Record Locker := mkLocker {
  lk_locks : gmap string loc;
  lk_heap : gmap loc lockCtr;
  lk_next : loc
}.
Definition NewLocker : Locker := mkLocker ∅ ∅ 0.

Definition with_ctr (l : Locker) (a : loc) (c : lockCtr) : Locker :=
  mkLocker (lk_locks l) (<[a := c]> (lk_heap l)) (lk_next l).

Definition ctr_inc (c : lockCtr) : lockCtr := mkCtr (lc_mu c) (wrap32 (lc_waiters c + 1)).
Definition ctr_dec (c : lockCtr) : lockCtr := mkCtr (lc_mu c) (wrap32 (lc_waiters c - 1)).

(** [Lock], under the table's mutex. *)
Definition Lock_enter (l : Locker) (name : string) : Locker * loc :=
  let '(l, a) :=
    match lk_locks l !! name with
    | Some a => (l, a)
    | None =>
        let a := lk_next l in
        (mkLocker (<[name := a]> (lk_locks l)) (<[a := mkCtr None 0]> (lk_heap l)) (S a), a)
    end in
  (mkLocker (lk_locks l) (alter ctr_inc a (lk_heap l)) (lk_next l), a).

(** [nameLock.Lock()]: [None] while another goroutine holds the mutex. *)
Definition Lock_acquire (l : Locker) (t : tid) (a : loc) : option Locker :=
  match lk_heap l !! a with
  | Some (mkCtr None w) => Some (with_ctr l a (mkCtr (Some t) w))
  | _ => None
  end.

(** [nameLock.dec()]. *)
Definition Lock_leave (l : Locker) (a : loc) : Locker :=
  mkLocker (lk_locks l) (alter ctr_dec a (lk_heap l)) (lk_next l).

Definition Unlock (l : Locker) (name : string) : Locker * outcome string unit :=
  match lk_locks l !! name with
  | None => (l, Err "no such lock")
  | Some a =>
      match lk_heap l !! a with
      | None => (l, Panic "invalid memory address or nil pointer dereference")
      | Some c =>
          let l := if decide (lc_waiters c = 0%Z)
                   then mkLocker (delete name (lk_locks l)) (lk_heap l) (lk_next l) else l in
          match lc_mu c with
          | None => (l, Panic "sync: unlock of unlocked mutex")
          | Some _ => (with_ctr l a (mkCtr None (lc_waiters c)), Ok tt)
          end
      end
  end.

(** ** Goroutines *)

(** Where a goroutine is: outside, in [Lock] before and after it took the mutex, or
    holding the lock. *)
Inductive pc :=
| Idle
| Waiting (name : string) (a : loc)
| Acquired (name : string) (a : loc)
| Holding (name : string) (a : loc).

Record sys := mkSys { s_locker : Locker; s_threads : gmap tid pc }.

(** A goroutine unlocks only what it holds. *)
Inductive lock_step : sys → sys → Prop :=
| step_enter s t name l a :
    s_threads s !! t = Some Idle → Lock_enter (s_locker s) name = (l, a) →
    lock_step s (mkSys l (<[t := Waiting name a]> (s_threads s)))
| step_acquire s t name a l :
    s_threads s !! t = Some (Waiting name a) → Lock_acquire (s_locker s) t a = Some l →
    lock_step s (mkSys l (<[t := Acquired name a]> (s_threads s)))
| step_leave s t name a :
    s_threads s !! t = Some (Acquired name a) →
    lock_step s (mkSys (Lock_leave (s_locker s) a) (<[t := Holding name a]> (s_threads s)))
| step_unlock s t name a l o :
    s_threads s !! t = Some (Holding name a) → Unlock (s_locker s) name = (l, o) →
    lock_step s (mkSys l (<[t := Idle]> (s_threads s))).

(** [n] goroutines, and an empty table. *)
Definition init_sys (n : nat) : sys :=
  mkSys NewLocker (gset_to_gmap Idle (set_seq 0 n)).

(** The lock a goroutine uses, whether it is counted as a waiter, and whether it
    has the mutex. *)
Definition uses (p : pc) : option (string * loc) :=
  match p with
  | Idle => None
  | Waiting n a | Acquired n a | Holding n a => Some (n, a)
  end.
Definition counted (name : string) (p : pc) : bool :=
  match p with
  | Waiting n _ | Acquired n _ => bool_decide (n = name)
  | _ => false
  end.
Definition has_mutex (name : string) (p : pc) : bool :=
  match p with
  | Acquired n _ | Holding n _ => bool_decide (n = name)
  | _ => false
  end.
Abbreviation waiters_of name ths := (count (K := nat) (counted name) ths).

(** The table has exactly the locks that are used ([except] may be unused), each
    counts its waiters and knows its holder. *)
Record locker_inv (except : option string) (s : sys) : Prop := {
  lo_size : (Z.of_nat (size (s_threads s)) < 2 ^ 31)%Z;
  lo_uses : ∀ t p n a, s_threads s !! t = Some p → uses p = Some (n, a) →
    lk_locks (s_locker s) !! n = Some a;
  lo_used : ∀ n a, lk_locks (s_locker s) !! n = Some a → except ≠ Some n →
    ∃ t p, s_threads s !! t = Some p ∧ uses p = Some (n, a);
  lo_inj : ∀ n m a, lk_locks (s_locker s) !! n = Some a →
    lk_locks (s_locker s) !! m = Some a → n = m;
  lo_fresh : ∀ n a, lk_locks (s_locker s) !! n = Some a → a < lk_next (s_locker s);
  lo_ctr : ∀ n a, lk_locks (s_locker s) !! n = Some a →
    ∃ c, lk_heap (s_locker s) !! a = Some c ∧
      lc_waiters c = Z.of_nat (waiters_of n (s_threads s)) ∧
      ∀ t, lc_mu c = Some t ↔ ∃ p, s_threads s !! t = Some p ∧ has_mutex n p = true
}.
Abbreviation locker_ok := (locker_inv None).

(** ** The invariant *)

Definition ctr_ok (ths : gmap tid pc) (n : string) (c : lockCtr) : Prop :=
  lc_waiters c = Z.of_nat (waiters_of n ths) ∧
  ∀ t, lc_mu c = Some t ↔ ∃ p, ths !! t = Some p ∧ has_mutex n p = true.

(** A goroutine goes from [p] to [p'], and the lock from [c] to [c']. *)
Lemma ctr_ok_step ths t p p' n c c' :
  ths !! t = Some p → ctr_ok ths n c →
  lc_waiters c' = (lc_waiters c - (if counted n p then 1 else 0)
                   + (if counted n p' then 1 else 0))%Z →
  (lc_mu c' = Some t ↔ has_mutex n p' = true) →
  (∀ u, u ≠ t → lc_mu c' = Some u ↔ lc_mu c = Some u) →
  ctr_ok (<[t := p']> ths) n c'.
Proof.
  intros Ht [Hw Hm] Hw' Ht' Hu. split; [by rewrite (count_insert _ _ _ _ _ Ht), Hw', Hw|].
  intros u. destruct (decide (t = u)) as [<-|Hne].
  - rewrite lookup_insert_eq, Ht'. split; [by eauto|]. by intros (q & [= <-] & Hq).
  - rewrite lookup_insert_ne, Hu by done. apply Hm.
Qed.

Lemma ctr_ok_frame ths t p p' n c :
  ths !! t = Some p → (∀ a, uses p ≠ Some (n, a)) → (∀ a, uses p' ≠ Some (n, a)) →
  ctr_ok ths n c → ctr_ok (<[t := p']> ths) n c.
Proof.
  assert (Hnone : ∀ q, (∀ a, uses q ≠ Some (n, a)) →
            counted n q = false ∧ has_mutex n q = false).
  { intros [|m a|m a|m a] Hq; simpl in *; (split; [|]); try done;
      apply bool_decide_false; intros ->; by apply (Hq a). }
  intros Ht Hp Hp' Hc. destruct (Hnone p Hp) as [H1 H2], (Hnone p' Hp') as [H3 H4].
  eapply ctr_ok_step; [done|done| | |done].
  - rewrite H1, H3. lia.
  - rewrite H4. destruct Hc as [_ Hm]. rewrite Hm.
    split; [|done]. intros (q & Hq & Hq'). congruence.
Qed.

(** A step of goroutine [t] on the lock [name] at [a], which stays in the table. *)
Lemma locker_ok_step e l ths t p p' name a c' :
  locker_inv e (mkSys l ths) → (e = None ∨ e = Some name) → ths !! t = Some p →
  lk_locks l !! name = Some a → (∀ n b, uses p = Some (n, b) → n = name) →
  uses p' = Some (name, a) → ctr_ok (<[t := p']> ths) name c' →
  locker_ok (mkSys (with_ctr l a c') (<[t := p']> ths)).
Proof.
  intros [Hsz Huses Hused Hinj Hfresh Hctr] He Ht Ha Hp Hp' Hc'. simpl in *.
  split; cbn [s_locker s_threads with_ctr lk_locks lk_heap lk_next]; try done.
  - by rewrite map_size_insert_Some by (by eexists).
  - intros u q n b. rewrite lookup_insert_Some. intros [[-> <-]|[_ Hu]]; [congruence|eauto].
  - intros n b Hn _. destruct (decide (n = name)) as [->|Hne].
    + exists t, p'. rewrite lookup_insert_eq. split; [done|congruence].
    + destruct (Hused n b Hn) as (u & q & Hu & Hq); [by destruct He as [->| ->]; congruence|].
      exists u, q. split; [|done]. rewrite lookup_insert_ne; [done|]. intros ->.
      apply Hne, (Hp n b). congruence.
  - intros n b Hn. destruct (decide (n = name)) as [->|Hne].
    + replace b with a by congruence. exists c'. by rewrite lookup_insert_eq.
    + rewrite lookup_insert_ne by (intros ->; by apply Hne, (Hinj n name b)).
      destruct (Hctr n b Hn) as (c & Hc & Hok). exists c. split; [done|].
      eapply (ctr_ok_frame _ t p); [done| | |done]; intros b' Hb'; [|congruence].
      by apply Hne, (Hp n b').
Qed.

Lemma locker_inv_ctr e s n a :
  locker_inv e s → lk_locks (s_locker s) !! n = Some a →
  ∃ c, lk_heap (s_locker s) !! a = Some c ∧ ctr_ok (s_threads s) n c ∧
    (0 ≤ lc_waiters c < 2 ^ 31)%Z.
Proof.
  intros Hok Hn. destruct (lo_ctr _ s Hok n a Hn) as (c & Hc & Hw & Hm). exists c.
  split; [done|]. split; [done|]. pose proof (lo_size _ s Hok).
  pose proof (count_bound (counted n) (s_threads s)). lia.
Qed.

(** The counter of a lock stays in range when a goroutine is counted in. *)
Lemma waiters_room name ths t p :
  (Z.of_nat (size ths) < 2 ^ 31)%Z → ths !! t = Some p → counted name p = false →
  (Z.of_nat (waiters_of name ths) + 1 < 2 ^ 31)%Z.
Proof.
  intros Hsz Ht Hp. pose proof (count_bound (counted name) (<[t := Waiting name 0]> ths)) as Hb.
  rewrite map_size_insert_Some in Hb by (by eexists).
  pose proof (count_insert (counted name) ths t p (Waiting name 0) Ht) as Hw. simpl in Hw.
  rewrite Hp, bool_decide_true in Hw by done. lia.
Qed.

(** [Lock] on a lock of the table. *)
Lemma enter_existing e l ths t name a :
  locker_inv e (mkSys l ths) → (e = None ∨ e = Some name) → ths !! t = Some Idle →
  lk_locks l !! name = Some a →
  locker_ok (mkSys (mkLocker (lk_locks l) (alter ctr_inc a (lk_heap l)) (lk_next l))
    (<[t := Waiting name a]> ths)).
Proof.
  intros Hok He Ht Hn. destruct (locker_inv_ctr _ _ _ _ Hok Hn) as (c & Hc & Hcok & Hb).
  simpl in *. rewrite (alter_alt_Some ctr_inc _ _ _ Hc).
  eapply (locker_ok_step e l ths t Idle); [done|done|done|done|done|done|].
  eapply ctr_ok_step; [done|done| | |done]; simpl; rewrite ?bool_decide_true by done.
  - pose proof (waiters_room name ths t Idle (lo_size _ _ Hok) Ht eq_refl).
    destruct Hcok as [Hw _]. rewrite wrap32_id by lia. lia.
  - destruct Hcok as [_ Hm]. rewrite Hm. split; [|done]. intros (q & Hq & Hq').
    by simplify_eq.
Qed.

Lemma add_lock_inv l ths name :
  locker_ok (mkSys l ths) → lk_locks l !! name = None →
  locker_inv (Some name)
    (mkSys (mkLocker (<[name := lk_next l]> (lk_locks l))
              (<[lk_next l := mkCtr None 0]> (lk_heap l)) (S (lk_next l))) ths).
Proof.
  intros [Hsz Huses Hused Hinj Hfresh Hctr] Hn. simpl in *.
  split; cbn [s_locker s_threads lk_locks lk_heap lk_next]; [done|..].
  - intros t p n a Ht Hp. rewrite lookup_insert_ne; [eauto|]. intros ->.
    rewrite (Huses t p n a) in Hn; done.
  - intros n a. rewrite lookup_insert_Some. intros [[-> _]|[_ Ha]] Hne; [done|].
    by apply Hused.
  - intros n m a. rewrite !lookup_insert_Some.
    intros [[<- <-]|[_ H1]] [[<- Hm]|[_ H2]]; try done; [|apply Hfresh in H1|by eauto].
    + apply Hfresh in H2. lia.
    + lia.
  - intros n a. rewrite lookup_insert_Some. intros [[_ <-]|[_ Ha%Hfresh]]; lia.
  - intros n a. rewrite lookup_insert_Some. intros [[<- <-]|[Hne Ha]].
    + exists (mkCtr None 0). rewrite lookup_insert_eq. split; [done|].
      assert (Hnone : ∀ t p a, ths !! t = Some p → uses p ≠ Some (name, a)).
      { intros t p b Ht Hp. rewrite (Huses t p name b) in Hn; done. }
      split.
      * simpl. rewrite count_zero; [done|].
        intros t p Ht. destruct p as [|m b|m b|m b]; simpl; try done;
          rewrite bool_decide_false; try done; intros ->; by apply (Hnone t _ b Ht).
      * intros t. simpl. split; [done|]. intros (p & Ht & Hp). exfalso.
        destruct p as [|m b|m b|m b]; simpl in Hp; try done;
          apply bool_decide_eq_true in Hp as ->; by apply (Hnone t _ b Ht).
    + destruct (Hctr n a Ha) as (c & Hc & Hok). exists c. split; [|done].
      rewrite lookup_insert_ne; [done|]. apply Hfresh in Ha. lia.
Qed.

Lemma Lock_enter_ok l ths t name l' a :
  locker_ok (mkSys l ths) → ths !! t = Some Idle → Lock_enter l name = (l', a) →
  locker_ok (mkSys l' (<[t := Waiting name a]> ths)).
Proof.
  intros Hok Ht He. unfold Lock_enter in He. destruct (lk_locks l !! name) as [b|] eqn:Hn.
  - simplify_eq. by apply (enter_existing None _ _ _ _ _ Hok); [left|..].
  - simplify_eq. apply (add_lock_inv _ _ name) in Hok; [|done].
    apply (enter_existing _ _ _ _ _ _ Hok); [by right|done|]. apply lookup_insert_eq.
Qed.

Lemma Lock_acquire_ok l ths t name a l' :
  locker_ok (mkSys l ths) → ths !! t = Some (Waiting name a) → Lock_acquire l t a = Some l' →
  locker_ok (mkSys l' (<[t := Acquired name a]> ths)).
Proof.
  intros Hok Ht Ha. pose proof (lo_uses _ _ Hok t _ name a Ht eq_refl) as Hn.
  destruct (locker_inv_ctr _ _ _ _ Hok Hn) as ([mu w] & Hc & Hcok & Hb). simpl in *.
  unfold Lock_acquire in Ha. rewrite Hc in Ha. destruct mu; [done|]. simplify_eq.
  eapply (locker_ok_step None _ _ t (Waiting name a)); [done|by left|done|done| |done|].
  { intros n b. simpl. congruence. }
  eapply ctr_ok_step; [done|done| | |]; simpl; rewrite ?bool_decide_true by done; [lia|done|].
  intros u Hu. split; [|done]. intros [= ->]. done.
Qed.

Lemma Lock_leave_ok l ths t name a :
  locker_ok (mkSys l ths) → ths !! t = Some (Acquired name a) →
  locker_ok (mkSys (Lock_leave l a) (<[t := Holding name a]> ths)).
Proof.
  intros Hok Ht. pose proof (lo_uses _ _ Hok t _ name a Ht eq_refl) as Hn.
  destruct (locker_inv_ctr _ _ _ _ Hok Hn) as (c & Hc & Hcok & Hb). simpl in *.
  unfold Lock_leave. rewrite (alter_alt_Some ctr_dec _ _ _ Hc).
  eapply (locker_ok_step None _ _ t (Acquired name a)); [done|by left|done|done| |done|].
  { intros n b. simpl. congruence. }
  assert (Hcnt : (1 ≤ lc_waiters c)%Z).
  { destruct Hcok as [-> _]. pose proof (count_insert (counted name) ths t _ Idle Ht) as Hw. simpl in Hw.
    rewrite bool_decide_true in Hw by done. lia. }
  eapply ctr_ok_step; [done|done| | |done]; simpl; rewrite ?bool_decide_true by done.
  - rewrite wrap32_id by lia. lia.
  - destruct Hcok as [_ Hm]. rewrite Hm. split; [done|]. intros _. eexists. split; [done|].
    simpl. by rewrite bool_decide_true.
Qed.

(** Nobody uses the lock any more. *)
Lemma delete_lock_ok l ths t name a c :
  locker_ok (mkSys l ths) → ths !! t = Some (Holding name a) → lk_heap l !! a = Some c →
  lc_waiters c = 0%Z →
  locker_ok (mkSys (with_ctr (mkLocker (delete name (lk_locks l)) (lk_heap l) (lk_next l)) a
                      (mkCtr None 0)) (<[t := Idle]> ths)).
Proof.
  intros Hok Ht Hc Hw. pose proof (lo_uses _ _ Hok t _ name a Ht eq_refl) as Hn.
  destruct (lo_ctr _ _ Hok name a Hn) as (c' & Hc' & Hw' & Hm). simpl in *. simplify_eq.
  destruct Hok as [Hsz Huses Hused Hinj Hfresh Hctr]. simpl in *.
  assert (Hnobody : ∀ u p b, u ≠ t → ths !! u = Some p → uses p ≠ Some (name, b)).
  { intros u p b Hne Hu Hp.
    assert (Hcnt : counted name p = true → False).
    { intros Hcp. pose proof (count_insert (counted name) ths u p Idle Hu) as Hi. rewrite Hcp in Hi.
      simpl in Hi. lia. }
    assert (Hmx : has_mutex name p = true → False).
    { intros Hp'. assert (Hu' : lc_mu c = Some u) by (apply Hm; eauto).
      assert (Ht' : lc_mu c = Some t).
      { apply Hm. eexists. split; [done|]. simpl. by rewrite bool_decide_true. }
      congruence. }
    destruct p as [|m d|m d|m d]; simpl in *; simplify_eq; rewrite bool_decide_true in *; auto. }
  split; cbn [s_locker s_threads with_ctr lk_locks lk_heap lk_next].
  - by rewrite map_size_insert_Some by (by eexists).
  - intros u p n b. rewrite lookup_insert_Some. intros [[_ <-]|[Hne Hu]] Hp; [done|].
    rewrite lookup_delete_ne; [eauto|]. intros ->. by apply (Hnobody u p b).
  - intros n b [Hne Hb]%lookup_delete_Some _. destruct (Hused n b Hb) as (u & p & Hu & Hp); [done|].
    exists u, p. split; [|done]. rewrite lookup_insert_ne; [done|]. intros ->. by simplify_eq/=.
  - intros n m b [_ H1]%lookup_delete_Some [_ H2]%lookup_delete_Some. by apply (Hinj n m b).
  - intros n b [_ Hb]%lookup_delete_Some. by apply (Hfresh n b).
  - intros n b [Hne Hb]%lookup_delete_Some. destruct (Hctr n b Hb) as (c1 & Hc1 & Hok1).
    exists c1. rewrite lookup_insert_ne by (intros ->; by apply Hne, (Hinj name n b)).
    split; [done|]. eapply (ctr_ok_frame _ t (Holding name a)); [done| |done|done].
    intros b' [= Hb' _]. done.
Qed.

(** Somebody waits for the lock. *)
Lemma pass_lock_ok l ths t name a c :
  locker_ok (mkSys l ths) → ths !! t = Some (Holding name a) → lk_heap l !! a = Some c →
  lc_waiters c ≠ 0%Z →
  locker_ok (mkSys (with_ctr l a (mkCtr None (lc_waiters c))) (<[t := Idle]> ths)).
Proof.
  intros Hok Ht Hc Hw. pose proof (lo_uses _ _ Hok t _ name a Ht eq_refl) as Hn.
  destruct (lo_ctr _ _ Hok name a Hn) as (c' & Hc' & Hcok). simpl in *. simplify_eq.
  destruct (count_pos (counted name) ths) as (u & p & Hu & Hp); [destruct Hcok as [Hw' _]; lia|].
  assert (Hne : u ≠ t) by (intros ->; by simplify_eq).
  assert (Hup : ∃ b, uses p = Some (name, b)).
  { destruct p as [|m b|m b|m b]; simpl in Hp; try done; apply bool_decide_eq_true in Hp as ->; eauto. }
  destruct Hok as [Hsz Huses Hused Hinj Hfresh Hctr]. simpl in *.
  split; cbn [s_locker s_threads with_ctr lk_locks lk_heap lk_next]; [|..|done|done|].
  - by rewrite map_size_insert_Some by (by eexists).
  - intros v q n b. rewrite lookup_insert_Some. intros [[_ <-]|[_ Hv]] Hq; [done|eauto].
  - intros n b Hb _. destruct (decide (n = name)) as [->|Hnn].
    + destruct Hup as [b' Hb']. exists u, p. rewrite lookup_insert_ne by done. split; [done|].
      rewrite Hb'. specialize (Huses u p name b' Hu Hb'). congruence.
    + destruct (Hused n b Hb) as (v & q & Hv & Hq); [done|]. exists v, q. split; [|done].
      rewrite lookup_insert_ne; [done|]. intros ->. by simplify_eq/=.
  - intros n b Hb. destruct (decide (n = name)) as [->|Hnn].
    + replace b with a by congruence. exists (mkCtr None (lc_waiters c)).
      rewrite lookup_insert_eq. split; [done|].
      eapply (ctr_ok_step _ t (Holding name a)); [done|done|simpl; lia|done|].
      intros v Hv. simpl. split; [done|]. intros Hmv. destruct Hcok as [_ Hm].
      assert (Hmt : lc_mu c = Some t).
      { apply Hm. eexists. split; [done|]. simpl. by rewrite bool_decide_true. }
      congruence.
    + destruct (Hctr n b Hb) as (c1 & Hc1 & Hok1). exists c1.
      rewrite lookup_insert_ne by (intros ->; by apply Hnn, (Hinj n name b)).
      split; [done|]. eapply (ctr_ok_frame _ t (Holding name a)); [done| |done|done].
      intros b' [= Hb' _]. done.
Qed.

(** What [Unlock] does when its caller holds the lock. *)
Lemma Unlock_ok l ths t name a :
  locker_ok (mkSys l ths) → ths !! t = Some (Holding name a) →
  ∃ l', Unlock l name = (l', Ok tt) ∧ locker_ok (mkSys l' (<[t := Idle]> ths)).
Proof.
  intros Hok Ht. pose proof (lo_uses _ _ Hok t _ name a Ht eq_refl) as Hn.
  destruct (lo_ctr _ _ Hok name a Hn) as (c & Hc & Hw & Hm). simpl in *.
  assert (Hmu : lc_mu c = Some t).
  { apply Hm. eexists. split; [done|]. simpl. by rewrite bool_decide_true. }
  unfold Unlock. rewrite Hn, Hc, Hmu. eexists. split; [done|]. case_decide as Hz.
  - rewrite Hz. by eapply delete_lock_ok.
  - by eapply pass_lock_ok.
Qed.

Lemma lock_step_ok s s' : locker_ok s → lock_step s s' → locker_ok s'.
Proof.
  intros Hok Hstep. destruct Hstep as [[l ths] t name l' a Ht He|[l ths] t name a l' Ht Ha
    |[l ths] t name a Ht|[l ths] t name a l' o Ht Hu]; cbn [s_locker s_threads] in *.
  - by eapply Lock_enter_ok.
  - by eapply Lock_acquire_ok.
  - by eapply Lock_leave_ok.
  - destruct (Unlock_ok _ _ _ _ _ Hok Ht) as (l'' & Heq & Hok'). congruence.
Qed.

Lemma init_locks_ok n : (Z.of_nat n < 2 ^ 31)%Z → locker_ok (init_sys n).
Proof.
  intros Hn. split; cbn [s_locker s_threads init_sys lk_locks NewLocker]; try by intros.
  - rewrite <- size_dom, dom_gset_to_gmap, size_set_seq. done.
  - intros t p m a [_ <-]%lookup_gset_to_gmap_Some. done.
Qed.

(** C24: Locks by name exclude each other.  In every interleaving of goroutines
    that unlock only what they hold (fewer than 2^31 of them): two goroutines
    that have taken the lock of the same name are the same one; the table has an
    entry for exactly the names that some goroutine uses, so that no entry leaks
    and none is dropped while somebody waits; [Unlock] never fails; and when a
    goroutine waits for a lock that nobody has taken, it can take it. *)
Theorem locker_exclusion n s :
  (Z.of_nat n < 2 ^ 31)%Z → rtc lock_step (init_sys n) s →
  (∀ t u p q name, s_threads s !! t = Some p → s_threads s !! u = Some q →
     has_mutex name p = true → has_mutex name q = true → t = u) ∧
  (∀ name, is_Some (lk_locks (s_locker s) !! name) ↔
     ∃ t p a, s_threads s !! t = Some p ∧ uses p = Some (name, a)) ∧
  (∀ t name a, s_threads s !! t = Some (Holding name a) →
     (Unlock (s_locker s) name).2 = Ok tt) ∧
  (∀ t name a, s_threads s !! t = Some (Waiting name a) →
     (∀ u q, s_threads s !! u = Some q → has_mutex name q = false) →
     is_Some (Lock_acquire (s_locker s) t a)).
Proof.
  intros Hn Hreach.
  pose proof (rtc_invariant _ _ _ _ lock_step_ok (init_locks_ok n Hn) Hreach) as Hok.
  destruct s as [l ths]. split_and!; cbn [s_locker s_threads].
  - intros t u p q name Ht Hu Hp Hq.
    assert (Hname : ∃ a, uses p = Some (name, a)).
    { destruct p; simpl in *; try done; apply bool_decide_eq_true in Hp as ->; eauto. }
    destruct Hname as [a Ha]. destruct (lo_ctr _ _ Hok name a) as (c & _ & _ & Hm).
    { by apply (lo_uses _ _ Hok t p). }
    assert (lc_mu c = Some t) by (apply Hm; eauto). assert (lc_mu c = Some u) by (apply Hm; eauto).
    congruence.
  - intros name. split.
    + intros [a Ha]. destruct (lo_used _ _ Hok name a Ha) as (t & p & Ht & Hp); [done|]. eauto.
    + intros (t & p & a & Ht & Hp). exists a. by apply (lo_uses _ _ Hok t p).
  - intros t name a Ht. destruct (Unlock_ok _ _ _ _ _ Hok Ht) as (l' & -> & _). done.
  - intros t name a Ht Hfree. pose proof (lo_uses _ _ Hok t _ name a Ht eq_refl) as Hl.
    destruct (lo_ctr _ _ Hok name a Hl) as ([mu w] & Hc & _ & Hm). simpl in *.
    unfold Lock_acquire. rewrite Hc. destruct mu as [u|]; [|by eexists].
    destruct (proj1 (Hm u) eq_refl) as (q & Hq & Hmq). by rewrite (Hfree u q Hq) in Hmq.
Qed.

(** Two goroutines: the first holds the lock "a", the second waits for it. *)
Definition demo_sys : sys :=
  mkSys (mkLocker {["a" := 0]} {[0 := mkCtr (Some 0) 1]} 1)
    (<[1 := Waiting "a" 0]> (<[0 := Holding "a" 0]> (s_threads (init_sys 2)))).

Lemma demo_sys_reachable : rtc lock_step (init_sys 2) demo_sys.
Proof.
  eapply rtc_l; [eapply (step_enter _ 0 "a"); reflexivity|].
  eapply rtc_l; [eapply (step_acquire _ 0 "a" 0); reflexivity|].
  eapply rtc_l; [eapply (step_leave _ 0 "a" 0); reflexivity|].
  eapply rtc_l; [eapply (step_enter _ 1 "a"); reflexivity|].
  match goal with |- rtc _ ?s _ => replace s with demo_sys; [apply rtc_refl|] end.
  vm_compute. reflexivity.
Qed.

Lemma locker_exclusion_witness :
  (Unlock (s_locker demo_sys) "a").2 = Ok tt ∧
  is_Some (lk_locks (s_locker demo_sys) !! "a").
Proof.
  destruct (locker_exclusion 2 demo_sys ltac:(lia) demo_sys_reachable) as (_ & Hused & Hun & _).
  split; [by apply (Hun 0 "a" 0)|]. apply Hused. exists 1, (Waiting "a" 0), 0. by split.
Defined.
