(* ===== verification/MountSpec.v ===== *)
(** * Specifications of mounts

    Model of volume/volume.go, volume_unix.go, volume_propagation_linux.go and
    volume_copy.go: the texts source:destination:mode that name the volumes and the
    host directories of a container, and what the mode strings mean.  Setup, which
    calls volume drivers and the host, is not modelled. *)

From S2P Require Import Prelude GoStrings GoPath.

(** ** Modes *)

Definition DefaultDriverName : string := "local".
Definition DefaultPropagationMode : string := "rprivate".
Definition DefaultCopyMode : bool := true.

Definition rwModes (o : string) : bool := bool_decide (o ∈ ["rw"; "ro"]).
Definition labelModes (o : string) : bool := bool_decide (o ∈ ["Z"; "z"]).
Definition propagationModes (o : string) : bool :=
  bool_decide (o ∈ ["private"; "rprivate"; "slave"; "rslave"; "shared"; "rshared"]).

(** The map of copy modes. *)
Definition copyModes (o : string) : option bool :=
  if decide (o = "nocopy") then Some false else None.
Definition copyModeExists (o : string) : bool :=
  match copyModes o with Some _ => true | None => false end.

Definition mode_options (mode : string) : list string := Split "," mode.

(** The counts of read-write, label, propagation and copy modes, unless some option is
    none of them. *)
Fixpoint count_modes (os : list string) (rw label propagation copy : nat) :
    option (nat * nat * nat * nat) :=
  match os with
  | [] => Some (rw, label, propagation, copy)
  | o :: os =>
      if rwModes o then count_modes os (S rw) label propagation copy
      else if labelModes o then count_modes os rw (S label) propagation copy
      else if propagationModes o then count_modes os rw label (S propagation) copy
      else if copyModeExists o then count_modes os rw label propagation (S copy)
      else None
  end.

Definition ValidMountMode (mode : string) : bool :=
  match count_modes (mode_options mode) 0 0 0 0 with
  | None => false
  | Some (rw, label, propagation, copy) =>
      negb (bool_decide (1 < rw) || bool_decide (1 < label) ||
            bool_decide (1 < propagation) || bool_decide (1 < copy))
  end.

Definition ReadWrite (mode : string) : bool :=
  if negb (ValidMountMode mode) then false
  else negb (bool_decide ("ro" ∈ mode_options mode)).

Fixpoint find_propagation (os : list string) : option string :=
  match os with
  | [] => None
  | o :: os => if propagationModes o then Some o else find_propagation os
  end.

Definition GetPropagation (mode : string) : string :=
  default DefaultPropagationMode (find_propagation (mode_options mode)).
Definition HasPropagation (mode : string) : bool :=
  match find_propagation (mode_options mode) with Some _ => true | None => false end.

Fixpoint copy_mode_of (os : list string) : bool * bool :=
  match os with
  | [] => (DefaultCopyMode, false)
  | o :: os =>
      match copyModes o with
      | Some isEnabled => (isEnabled, true)
      | None => copy_mode_of os
      end
  end.
Definition getCopyMode (mode : string) : bool * bool := copy_mode_of (mode_options mode).

(** ** Mount points

    The fields Volume, Named and ID, which parsing leaves empty, are left out. *)

Record MountPoint := mkMountPoint {
  mp_Source : string;
  mp_Destination : string;
  mp_RW : bool;
  mp_Name : string;
  mp_Driver : string;
  mp_Mode : string;
  mp_Propagation : string;
  mp_CopyData : bool
}.

#[global] Instance MountPoint_eq_dec : EqDecision MountPoint.
Proof. solve_decision. Defined.

(** What the mount point type says about itself; [volume] is the path of its volume
    when it has one. *)
Definition MountPoint_Path (m : MountPoint) (volume : option string) : string :=
  match volume with Some path => path | None => mp_Source m end.
Definition MountPoint_Type (m : MountPoint) : string :=
  if decide (mp_Name m ≠ "") then "volume"
  else if decide (mp_Source m ≠ "") then "bind" else "ephemeral".
Definition BackwardsCompatible (m : MountPoint) : bool :=
  bool_decide (mp_Source m ≠ "") || bool_decide (mp_Driver m = DefaultDriverName).
Definition HasResource (m : MountPoint) (absolutePath : string) : bool :=
  match filepath_Rel (mp_Destination m) absolutePath with
  | Ok relPath => negb (bool_decide (relPath = "..")) && negb (HasPrefix relPath "../")
  | _ => false
  end.

(** ** Parsing *)

Definition errInvalidMode (mode : string) : string := "invalid mode: " +:+ mode.
Definition errInvalidSpec (spec : string) : string :=
  "Invalid volume specification: '" +:+ spec +:+ "'".

Definition ParseVolumeSource (spec : string) : string * string :=
  if negb (IsAbs spec) then (spec, "") else ("", spec).

(** [strings.SplitN]. *)
Definition SplitN (c : ascii) (s : string) (n : nat) : list string :=
  let ws := Split c s in
  if decide (length ws ≤ n) then ws
  else take (n - 1) ws ++ [Join (drop (n - 1) ws) (String c "")].

(** [strings.Count] of a character. *)
Definition Count (c : ascii) (s : string) : nat := length (Split c s) - 1.

(** The source, the destination and the mode with what it says, from the parts. *)
Definition spec_parts (spec : string) (arr : list string) :
    outcome string (string * string * string * bool * string) :=
  match arr with
  | [d] => Ok ("", Clean d, "", true, DefaultPropagationMode)
  | [s; d] =>
      if ValidMountMode d then Err (errInvalidSpec spec)
      else Ok (s, d, "", true, DefaultPropagationMode)
  | [s; d; mode] =>
      if negb (ValidMountMode mode) then Err (errInvalidMode mode)
      else Ok (s, d, mode, ReadWrite mode, GetPropagation mode)
  | _ => Err (errInvalidSpec spec)
  end.

(** The checks on the parts. *)
Definition make_mount (spec volumeDriver source destination mode : string) (rw : bool)
    (propagation : string) : outcome string MountPoint :=
  let destination := Clean destination in
  if negb (IsAbs destination) then
    Err ("Invalid volume destination path: '" +:+ destination +:+ "' mount path must be absolute.")
  else if decide (destination = "/") then
    Err ("Invalid specification: destination can't be '/' in '" +:+ spec +:+ "'")
  else
    let '(name, source) := ParseVolumeSource source in
    if decide (source = "" ∧ HasPropagation mode = true) then Err (errInvalidSpec spec)
    else
      let '(source, driver) :=
        if decide (source = "") then ("", volumeDriver) else (Clean source, "") in
      let '(copyData, isSet) := getCopyMode mode in
      if decide (name = "" ∧ isSet = true) then Err (errInvalidMode mode)
      else Ok (mkMountPoint source destination rw name driver mode propagation copyData).

Definition ParseMountSpec (spec volumeDriver : string) : outcome string MountPoint :=
  if decide (2 < Count ":" spec) then Err (errInvalidSpec spec)
  else
    let arr := SplitN ":" spec 3 in
    if decide (head arr = Some "") then Err (errInvalidSpec spec)
    else
      match spec_parts spec arr with
      | Ok (source, destination, mode, rw, propagation) =>
          make_mount spec volumeDriver source destination mode rw propagation
      | Err e => Err e
      | Panic m => Panic m
      | Diverge => Diverge
      end.

(** The container and the mode of --volumes-from. *)
Definition ParseVolumesFrom (spec : string) : outcome string (string * string) :=
  if decide (spec = "") then Err ("malformed volumes-from specification: " +:+ spec)
  else
    match cut_at ":" spec with
    | None => Ok (spec, "rw")
    | Some (id, mode) =>
        if negb (ValidMountMode mode) then Err (errInvalidMode mode)
        else if HasPropagation mode then Err (errInvalidMode mode)
        else if (getCopyMode mode).2 then Err (errInvalidMode mode)
        else Ok (id, mode)
    end.

(** ** Writing a mount point *)

Definition mount_text (m : MountPoint) : string :=
  let source := if decide (mp_Name m = "") then mp_Source m else mp_Name m in
  if decide (source = "") then mp_Destination m
  else if decide (mp_Mode m = "") then source +:+ ":" +:+ mp_Destination m
  else source +:+ ":" +:+ mp_Destination m +:+ ":" +:+ mp_Mode m.

(** ** Characters of cleaned paths *)

Lemma contains_char_Split c x s w :
  w ∈ Split c s → contains_char x w = true → contains_char x s = true.
Proof.
  revert w. induction s as [|a s IH]; intros w; cbn [Split]; [by intros ->%list_elem_of_singleton|].
  destruct (Split c s) as [|v vs] eqn:Hs; [by destruct (Split_non_empty c s)|]. simpl.
  case_decide as Ha.
  - rewrite elem_of_cons. intros [-> |Hw] Hx; [done|]. apply orb_true_iff. right. by apply (IH w).
  - rewrite elem_of_cons. intros [-> |Hw] Hx.
    + simpl in Hx. apply orb_true_iff in Hx as [Hx|Hx]; apply orb_true_iff; [by left|right].
      apply (IH v); [by left|done].
    + apply orb_true_iff. right. apply (IH w); [by right|done].
Qed.

Lemma contains_char_Join x sep ws :
  contains_char x sep = false → (∀ w, w ∈ ws → contains_char x w = false) →
  contains_char x (Join ws sep) = false.
Proof.
  intros Hsep. induction ws as [|w ws IH]; intros Hws; [done|].
  destruct ws as [|v vs]; [by apply Hws; left|]. rewrite Join_cons, !contains_char_app.
  rewrite (Hws w) by (by left). rewrite Hsep, IH; [done|]. intros u Hu. apply Hws. by right.
Qed.

Lemma walk_rooted_elem st p w : w ∈ walk true st p → w ∈ st ∨ w ∈ Split slash p.
Proof.
  unfold walk. generalize (Split slash p) as ws. intros ws. revert st.
  induction ws as [|v ws IH]; intros st; simpl; [by left|].
  intros [Hw|Hw]%IH; [|right; by right].
  unfold push in Hw. repeat case_decide; [by left| |].
  - destruct st as [|top st]; [by apply elem_of_nil in Hw|]. case_decide as Ht.
    + rewrite Ht in *. apply elem_of_cons in Hw as [-> |Hw]; [left; by left|by left].
    + left. by right.
  - apply elem_of_cons in Hw as [-> |Hw]; [right; by left|by left].
Qed.

Lemma contains_char_Clean x p :
  IsAbs p = true → x ≠ slash → contains_char x p = false → contains_char x (Clean p) = false.
Proof.
  intros Habs Hx Hp. unfold Clean. rewrite Habs. simpl.
  rewrite bool_decide_eq_false_2 by (by intros <-). simpl. apply contains_char_Join.
  - simpl. rewrite bool_decide_eq_false_2; [done|]. by intros <-.
  - intros w Hw. apply not_true_iff_false. intros Hc.
    rewrite list_elem_of_In, <- in_rev, <- list_elem_of_In in Hw. destruct (walk_rooted_elem [] p w Hw) as [Hn|Hs]; [by apply elem_of_nil in Hn|].
    by rewrite (contains_char_Split _ _ _ _ Hs Hc) in Hp.
Qed.

(** ** Modes that start like a path *)

Lemma not_mode w :
  rwModes (String slash w) = false ∧ labelModes (String slash w) = false ∧
  propagationModes (String slash w) = false ∧ copyModeExists (String slash w) = false.
Proof.
  unfold rwModes, labelModes, propagationModes, copyModeExists, copyModes.
  rewrite !bool_decide_eq_false, !elem_of_cons. rewrite decide_False by done.
  split_and!; [..|done]; intros Hin; repeat (destruct Hin as [?|Hin]; [done|]);
    by apply elem_of_nil in Hin.
Qed.

Lemma path_is_no_mode p : IsAbs p = true → ValidMountMode p = false.
Proof.
  intros [r ->]%HasPrefix_spec. unfold ValidMountMode, mode_options.
  change ("/" +:+ r) with (String slash r). cbn [Split].
  destruct (Split "," r) as [|w ws] eqn:Hs; [by destruct (Split_non_empty "," r)|].
  rewrite decide_False by done. cbn [count_modes].
  destruct (not_mode w) as (-> & -> & -> & ->). done.
Qed.

(** ** Well-formed mount points *)

(** A clean absolute path. *)
Definition clean_path (p : string) : Prop := IsAbs p = true ∧ Clean p = p.

Lemma Clean_clean p : IsAbs p = true → clean_path (Clean p).
Proof.
  intros Habs. pose proof Habs as [r ->]%HasPrefix_spec. change ("/" +:+ r) with (String slash r).
  rewrite Clean_abs. split; [done|]. by apply Clean_abs_path, walk_normal.
Qed.

Lemma walk_pieces ws st :
  Forall (λ v, contains_char slash v = false) ws →
  Forall (λ v, IsAbs v = false ∧ v ≠ "") st →
  Forall (λ v, IsAbs v = false ∧ v ≠ "") (foldl (push false) st ws).
Proof.
  intros Hws. revert st. induction Hws as [|v ws Hv _ IH]; intros st Hst; simpl; [done|].
  apply IH. unfold push. case_decide as Hd; [done|]. case_decide as Hdd.
  - destruct st as [|top st]; [by repeat constructor|].
    case_decide; [by constructor|by inversion Hst].
  - constructor; [|done]. split; [|by intros ->; apply Hd; left]. destruct v as [|a v]; [done|].
    unfold IsAbs, HasPrefix. simpl. destruct (decide ("/"%char = a)) as [<-|]; done.
Qed.

Lemma walk_relative p v : v ∈ walk false [] p → IsAbs v = false ∧ v ≠ "".
Proof.
  intros Hv. apply (Forall_forall (λ v, IsAbs v = false ∧ v ≠ "") (walk false [] p)); [|done].
  apply walk_pieces; [|constructor]. apply Forall_forall. intros w. apply Split_pieces.
Qed.

Lemma IsAbs_Clean p : IsAbs (Clean p) = true → IsAbs p = true.
Proof.
  unfold Clean. destruct (IsAbs p) eqn:Habs; [done|]. intros Hc. exfalso.
  destruct (walk false [] p) as [|w st] eqn:Hw; [done|].
  assert (∀ v, v ∈ w :: st → IsAbs v = false ∧ v ≠ "") as Hrel.
  { intros v Hv. rewrite <- Hw in Hv. by apply (walk_relative p). }
  assert (∃ v vs, rev (w :: st) = v :: vs ∧ v ∈ w :: st) as (v & vs & Hrev & Hin).
  { destruct (rev (w :: st)) as [|v vs] eqn:Hr.
    - apply (f_equal length) in Hr. by rewrite length_rev in Hr.
    - exists v, vs. split; [done|]. rewrite list_elem_of_In, in_rev, Hr. by left. }
  rewrite Hrev in Hc. destruct (Hrel v Hin) as [Ha Hne].
  destruct v as [|a v]; [done|]. destruct vs; [unfold Join in Hc; congruence|].
  rewrite Join_cons in Hc. unfold IsAbs, HasPrefix in *. simpl in *.
  by destruct (decide ("/"%char = a)).
Qed.

(** What mount points a specification can give. *)
Record wf_mount (driver : string) (m : MountPoint) : Prop := {
  wf_destination : clean_path (mp_Destination m) ∧ mp_Destination m ≠ "/" ∧
    contains_char ":" (mp_Destination m) = false;
  wf_source :
    (* a volume without a name *)
    (mp_Name m = "" ∧ mp_Source m = "" ∧ mp_Driver m = driver ∧ mp_Mode m = "") ∨
    (* a volume with a name *)
    (mp_Name m ≠ "" ∧ mp_Source m = "" ∧ mp_Driver m = driver ∧
      IsAbs (mp_Name m) = false ∧ contains_char ":" (mp_Name m) = false ∧
      HasPropagation (mp_Mode m) = false) ∨
    (* a directory of the host *)
    (mp_Name m = "" ∧ clean_path (mp_Source m) ∧ mp_Driver m = "" ∧
      contains_char ":" (mp_Source m) = false ∧ (getCopyMode (mp_Mode m)).2 = false);
  wf_mode :
    (mp_Mode m = "" ∧ mp_RW m = true ∧ mp_Propagation m = DefaultPropagationMode) ∨
    (mp_Mode m ≠ "" ∧ contains_char ":" (mp_Mode m) = false ∧ ValidMountMode (mp_Mode m) = true ∧
      mp_RW m = ReadWrite (mp_Mode m) ∧ mp_Propagation m = GetPropagation (mp_Mode m));
  wf_copy : mp_CopyData m = (getCopyMode (mp_Mode m)).1
}.

Lemma make_mount_spec spec driver s d mode rw propagation m :
  make_mount spec driver s d mode rw propagation = Ok m ↔
  IsAbs d = true ∧ Clean d ≠ "/" ∧
  (IsAbs s = false → HasPropagation mode = false) ∧
  (IsAbs s = true ∨ s = "" → (getCopyMode mode).2 = false) ∧
  m = mkMountPoint (if IsAbs s then Clean s else "") (Clean d) rw (if IsAbs s then "" else s)
        (if IsAbs s then "" else driver) mode propagation (getCopyMode mode).1.
Proof.
  assert (IsAbs (Clean d) = IsAbs d) as Hd.
  { destruct (IsAbs d) eqn:Hd; [by apply Clean_clean|].
    apply not_true_iff_false. intros Hc%IsAbs_Clean. congruence. }
  unfold make_mount, ParseVolumeSource. rewrite Hd. destruct (getCopyMode mode) as [copy set].
  destruct (IsAbs d); simpl; [|naive_solver]. case_decide as Hroot; [naive_solver|].
  destruct (IsAbs s) eqn:Hs; simpl.
  - assert (s ≠ "") as Hne by (by intros ->).
    destruct set; repeat case_decide; naive_solver.
  - destruct (HasPropagation mode), set, (decide (s = "")) as [-> |Hne];
      repeat case_decide; naive_solver.
Qed.

Lemma SplitN_pieces spec : ¬ 2 < Count ":" spec → SplitN ":" spec 3 = Split ":" spec.
Proof. unfold Count, SplitN. intros Hc. by rewrite decide_True by lia. Qed.

Lemma Split_two a b :
  contains_char ":" a = false → contains_char ":" b = false →
  Split ":" (a +:+ ":" +:+ b) = [a; b].
Proof.
  intros Ha Hb. change (":" +:+ b) with (String ":" b).
  by rewrite Split_app_sep, !Split_no_sep.
Qed.

Lemma Split_three a b c :
  contains_char ":" a = false → contains_char ":" b = false → contains_char ":" c = false →
  Split ":" (a +:+ ":" +:+ b +:+ ":" +:+ c) = [a; b; c].
Proof.
  intros Ha Hb Hc. change (":" +:+ b +:+ ":" +:+ c) with (String ":" (b +:+ ":" +:+ c)).
  by rewrite Split_app_sep, Split_two, Split_no_sep.
Qed.

(** Parsing from the pieces. *)
Lemma ParseMountSpec_pieces spec driver arr m :
  Split ":" spec = arr → length arr ≤ 3 → head arr ≠ Some "" →
  ParseMountSpec spec driver = Ok m ↔
  ∃ s d mode rw propagation, spec_parts spec arr = Ok (s, d, mode, rw, propagation) ∧
    make_mount spec driver s d mode rw propagation = Ok m.
Proof.
  intros <- Hlen Hhead. 
  assert (¬ 2 < Count ":" spec) as Hc by (unfold Count; lia).
  unfold ParseMountSpec. rewrite (decide_False (P := 2 < Count ":" spec)) by done.
  rewrite SplitN_pieces by done. rewrite (decide_False (P := head _ = _)) by done.
  destruct (spec_parts _ _) as [[[[[s d] mode] rw] propagation]| | |] eqn:Hp; [|naive_solver..].
  split; [eauto 10|]. naive_solver.
Qed.

Lemma clean_no_colon p :
  IsAbs p = true → contains_char ":" p = false → contains_char ":" (Clean p) = false.
Proof. intros Ha Hc. by apply contains_char_Clean. Qed.

(** A mount point made of parts is well-formed. *)
Lemma made_wf spec driver s d mode rw propagation m :
  make_mount spec driver s d mode rw propagation = Ok m →
  contains_char ":" s = false → contains_char ":" d = false →
  (s = "" → mode = "") →
  (mode = "" ∧ rw = true ∧ propagation = DefaultPropagationMode ∨
   mode ≠ "" ∧ contains_char ":" mode = false ∧ ValidMountMode mode = true ∧
     rw = ReadWrite mode ∧ propagation = GetPropagation mode) →
  wf_mount driver m.
Proof.
  intros (Hd & Hroot & Hprop & Hcopy & ->)%make_mount_spec Hs Hdc Hempty Hmode.
  split; simpl; [|..|done].
  - split; [by apply Clean_clean|]. split; [done|]. by apply clean_no_colon.
  - destruct (IsAbs s) eqn:Habs.
    + right. right. split; [done|]. split; [by apply Clean_clean|]. split; [done|].
      split; [by apply clean_no_colon|]. apply Hcopy. by left.
    + destruct (decide (s = "")) as [-> |Hne]; [left|right; left]; naive_solver.
  - done.
Qed.

Lemma ParseMountSpec_wf spec driver m :
  ParseMountSpec spec driver = Ok m → wf_mount driver m.
Proof.
  intros Hparse.
  assert (length (Split ":" spec) ≤ 3 ∧ head (Split ":" spec) ≠ Some "") as [Hlen Hhead].
  { unfold ParseMountSpec in Hparse. case_decide as Hc; [done|]. rewrite SplitN_pieces in Hparse by done.
    case_decide as Hh; [done|]. unfold Count in Hc. split; [lia|done]. }
  apply (ParseMountSpec_pieces spec driver _ m eq_refl Hlen Hhead) in Hparse
    as (s & d & mode & rw & propagation & Hparts & Hmake).
  assert (∀ w, w ∈ Split ":" spec → contains_char ":" w = false) as Hno
    by (intros w; apply Split_pieces).
  destruct (Split ":" spec) as [|a [|b [|c [|]]]] eqn:Hsplit; simpl in Hparts; [done|..|done].
  - injection Hparts as <- <- <- <- <-.
    apply make_mount_spec in Hmake as Hm. destruct Hm as (Habs & _).
    eapply made_wf; [exact Hmake|done| |done|by left].
    apply clean_no_colon; [by apply IsAbs_Clean|]. apply Hno. by left.
  - destruct (ValidMountMode b); [done|]. injection Hparts as <- <- <- <- <-.
    eapply made_wf; [exact Hmake|..|by left].
    + apply Hno. by left.
    + apply Hno. right. by left.
    + by intros ->.
  - destruct (ValidMountMode c) eqn:Hv; [|done]. injection Hparts as <- <- <- <- <-.
    eapply made_wf; [exact Hmake|..].
    + apply Hno. by left.
    + apply Hno. right. by left.
    + by intros ->.
    + right. split; [by intros ->|]. split; [apply Hno; right; right; by left|done].
Qed.

(** A well-formed mount point has its text for a specification. *)
Lemma mount_text_parses driver m :
  wf_mount driver m → ParseMountSpec (mount_text m) driver = Ok m.
Proof.
  destruct m as [source dest rw name drv mode propagation copy].
  intros [(Hdc & Hroot & Hdn) Hsrc Hmode Hcopy]; simpl in *. destruct Hdc as [Habs Hclean].
  assert (∀ s, name = (if IsAbs s then "" else s) → source = (if IsAbs s then Clean s else "") →
    drv = (if IsAbs s then "" else driver) →
    (IsAbs s = false → HasPropagation mode = false) →
    (IsAbs s = true ∨ s = "" → (getCopyMode mode).2 = false) →
    ∀ spec d, (d = dest ∨ d = Clean dest) →
    make_mount spec driver s d mode rw propagation =
      Ok (mkMountPoint source dest rw name drv mode propagation copy)) as Hmake.
  { intros s -> -> -> Hp Hc spec d Hd. assert (d = dest) as -> by (destruct Hd; congruence).
    apply make_mount_spec. rewrite Hclean, Hcopy. done. }
  unfold mount_text; simpl.
  set (s := if decide (name = "") then source else name).
  destruct (decide (s = "")) as [Hs|Hs].
  - assert (name = "" ∧ source = "" ∧ drv = driver ∧ mode = "") as (-> & -> & -> & ->).
    { subst s. case_decide as Hn; [|done]. subst source.
      destruct Hsrc as [?|[?|(_ & [? _] & _)]]; [done|naive_solver|done]. }
    apply (ParseMountSpec_pieces _ _ [dest]); [by apply Split_no_sep|simpl; lia| |].
    { simpl. intros [= ->]. done. }
    exists "", (Clean dest), "", true, DefaultPropagationMode. split; [done|].
    destruct Hmode as [(_ & -> & ->)|(? & _)]; [|done].
    apply Hmake; try done. by right.
  - assert (contains_char ":" s = false ∧ name = (if IsAbs s then "" else s) ∧
      source = (if IsAbs s then Clean s else "") ∧ drv = (if IsAbs s then "" else driver) ∧
      (IsAbs s = false → HasPropagation mode = false) ∧
      (IsAbs s = true ∨ s = "" → (getCopyMode mode).2 = false))
      as (Hsn & Hname & Hsource & Hdrv & Hprop & Hset).
    { subst s. destruct Hsrc as [(-> & -> & _)|[(Hn & -> & -> & Ha & Hc & Hp)|(-> & (Ha & Hcl) & -> & Hc & Hset)]].
      - done.
      - rewrite decide_False in Hs |- * by done. rewrite Ha. naive_solver.
      - rewrite decide_True in Hs |- * by done. rewrite Ha, Hcl. naive_solver. }
    clearbody s. destruct Hmode as [(-> & -> & ->)|(Hmne & Hmn & Hv & -> & ->)].
    + rewrite decide_True by done.
      apply (ParseMountSpec_pieces _ _ [s; dest]); [by apply Split_two|simpl; lia| |].
      { simpl. congruence. }
      exists s, dest, "", true, DefaultPropagationMode. simpl.
      rewrite path_is_no_mode by done. split; [done|]. apply Hmake; auto.
    + rewrite decide_False by done.
      apply (ParseMountSpec_pieces _ _ [s; dest; mode]); [by apply Split_three|simpl; lia| |].
      { simpl. congruence. }
      exists s, dest, mode, (ReadWrite mode), (GetPropagation mode). simpl.
      rewrite Hv. split; [done|]. apply Hmake; auto.
Qed.

(** C39: The mount points that specifications give are exactly the well-formed ones (an
    absolute clean destination that is not the root, a volume name or an absolute clean
    source but not both, one mode of each kind at most, no propagation for volumes and
    no copy mode for host directories), and each of them is given by its own text: to
    write a parsed mount point and to parse it again changes nothing. *)
Theorem ParseMountSpec_roundtrip driver m :
  ((∃ spec, ParseMountSpec spec driver = Ok m) ↔ wf_mount driver m) ∧
  ((∃ spec, ParseMountSpec spec driver = Ok m) → ParseMountSpec (mount_text m) driver = Ok m).
Proof.
  assert (∀ spec, ParseMountSpec spec driver = Ok m → wf_mount driver m) as Hwf
    by (intros spec; apply ParseMountSpec_wf).
  split; [split|].
  - intros [spec Hspec]. by apply (Hwf spec).
  - intros Hm. exists (mount_text m). by apply mount_text_parses.
  - intros [spec Hspec]. by apply mount_text_parses, (Hwf spec).
Qed.

Lemma ParseMountSpec_roundtrip_witness :
  ParseMountSpec "data:/var//lib/../db:ro,nocopy" "local" =
    Ok (mkMountPoint "" "/var/db" false "data" "local" "ro,nocopy" "rprivate" false) ∧
  ParseMountSpec "data:/var/db:ro,nocopy" "local" =
    Ok (mkMountPoint "" "/var/db" false "data" "local" "ro,nocopy" "rprivate" false).
Proof.
  assert (ParseMountSpec "data:/var//lib/../db:ro,nocopy" "local" =
    Ok (mkMountPoint "" "/var/db" false "data" "local" "ro,nocopy" "rprivate" false)) as Hp
    by (vm_compute; reflexivity).
  split; [exact Hp|].
  exact (proj2 (ParseMountSpec_roundtrip "local" _) (ex_intro _ _ Hp)).
Defined.
