(* ===== verification/Volume.v ===== *)
(** * volume/store: the volume store

    The model of volume/store/store.go.  Every operation holds the lock of the
    volume's name (Locker) from its start to its end, so that an operation is one
    step as far as its name is concerned.  The volume drivers and the database of
    labels are interfaces: their calls may fail and may change their own state. *)

From S2P Require Import Prelude MountSpec.

Abbreviation strmap := (gmap string string).

(** A volume: what its driver says, and the labels and scope of a volumeWrapper. *)
Record Volume := mkVolume {
  v_Name : string;
  v_DriverName : string;
  v_wrapper : option (strmap * string)
}.
#[global] Instance Volume_eq_dec : EqDecision Volume.
Proof. solve_decision. Defined.

Definition volumeWrapper (v : Volume) (labels : strmap) (scope : string) : Volume :=
  mkVolume (v_Name v) (v_DriverName v) (Some (labels, scope)).
Definition unwrapVolume (v : Volume) : Volume := mkVolume (v_Name v) (v_DriverName v) None.

(** The registry of volume drivers and the drivers in it; a driver is known by its
    name. *)
Class VolumeDrivers (DS : Type) := {
  GetDriver : DS → string → DS * (string + string);
  GetAllDrivers : DS → DS * (string + list string);
  drv_Get : DS → string → string → DS * (string + Volume);
  drv_Create : DS → string → string → strmap → DS * (string + Volume);
  drv_Remove : DS → string → Volume → DS * option string;
  drv_List : DS → string → DS * (string + list Volume);
  drv_Scope : DS → string → string
}.
(** The bucket of volume metadata in the database. *)
Class VolumeDB (DB : Type) := {
  db_Put : DB → string → strmap → DB * option string;
  db_Get : DB → string → DB * (string + option strmap)
}.

Inductive vol_error :=
| errVolumeInUse
| errNoSuchVolume
| errInvalidName
| errNameConflict
| ErrExternal (e : string)
| OpErr (err : vol_error) (op name : string) (refs : list string).
#[global] Instance vol_error_eq_dec : EqDecision vol_error.
Proof. solve_decision. Defined.

(** On Unix every name is valid, and names are not changed. *)
Definition IsVolumeNameValid (name : string) : bool * option string := (true, None).
Definition normaliseVolumeName (name : string) : string := name.

Section volume_store.
Context {DS DB : Type} {drv : VolumeDrivers DS} {dbi : VolumeDB DB}.

Record VolumeStore := mkVS {
  vs_names : gmap string Volume;
  vs_refs : gmap string (list string);
  vs_labels : gmap string strmap;
  vs_db : option DB;
  vs_drivers : DS
}.
Implicit Types (s : VolumeStore) (v : Volume) (name ref : string).

Definition NewVolumeStore (db : option DB) (ds : DS) : VolumeStore := mkVS ∅ ∅ ∅ db ds.

Definition with_drivers s (ds : DS) : VolumeStore :=
  mkVS (vs_names s) (vs_refs s) (vs_labels s) (vs_db s) ds.
Definition with_db s (db : option DB) : VolumeStore :=
  mkVS (vs_names s) (vs_refs s) (vs_labels s) db (vs_drivers s).

(** A call of a driver that returns a value or an error. *)
Definition call {A} s (f : DS → DS * (string + A)) : VolumeStore * outcome vol_error A :=
  let '(ds, r) := f (vs_drivers s) in
  (with_drivers s ds, match r with inl e => Err (ErrExternal e) | inr a => Ok a end).

Definition getNamed s name : option Volume := vs_names s !! name.

Definition refs_of s name : list string := default [] (vs_refs s !! name).
Definition labels_of s name : strmap := default ∅ (vs_labels s !! name).

Definition setNamed s v ref : VolumeStore :=
  mkVS (<[v_Name v := v]> (vs_names s))
    (if decide (ref = "") then vs_refs s
     else <[v_Name v := refs_of s (v_Name v) ++ [ref]]> (vs_refs s))
    (vs_labels s) (vs_db s) (vs_drivers s).

Definition purge s name : VolumeStore :=
  mkVS (delete name (vs_names s)) (delete name (vs_refs s)) (delete name (vs_labels s))
    (vs_db s) (vs_drivers s).

(** [getVolume]: the labels of the database first, then the driver. *)
Definition read_labels s name : VolumeStore * outcome vol_error strmap :=
  match vs_db s with
  | None => (s, Ok ∅)
  | Some db =>
      match db_Get db name with
      | (db, inl e) => (with_db s (Some db), Err (ErrExternal e))
      | (db, inr l) => (with_db s (Some db), Ok (default ∅ l))
      end
  end.

(** The first driver that has the volume. *)
Fixpoint probe s name (labels : strmap) (ds : list string) :
    VolumeStore * outcome vol_error Volume :=
  match ds with
  | [] => (s, Err errNoSuchVolume)
  | d :: ds =>
      match call s (λ st, drv_Get st d name) with
      | (s, Ok v) => (s, Ok (volumeWrapper v labels (drv_Scope (vs_drivers s) d)))
      | (s, _) => probe s name labels ds
      end
  end.

Definition getVolume s name : VolumeStore * outcome vol_error Volume :=
  let! (s, labels) := read_labels s name in
  match vs_names s !! name with
  | Some v =>
      let! (s, vd) := call s (λ ds, GetDriver ds (v_DriverName v)) in
      let! (s, vol) := call s (λ ds, drv_Get ds vd name) in
      (s, Ok (volumeWrapper vol labels (drv_Scope (vs_drivers s) vd)))
  | None =>
      let! (s, drivers) := call s GetAllDrivers in
      probe s name labels drivers
  end.

Definition put_labels s name (labels : strmap) : VolumeStore * outcome vol_error unit :=
  match vs_db s with
  | None => (s, Ok tt)
  | Some db =>
      let '(db, e) := db_Put db name labels in
      (with_db s (Some db), of_error (ErrExternal <$> e))
  end.

(** [create] with a driver: what is there already, or a new volume. *)
Definition create_with_driver s name (driverName : string) (opts labels : strmap) :
    VolumeStore * outcome vol_error Volume :=
  match call s (λ ds, GetDriver ds driverName) with
  | (s, Ok vd) =>
      match call s (λ ds, drv_Get ds vd name) with
      | (s, Ok v) => (s, Ok v)
      | (s, _) =>
          let! (s, v) := call s (λ ds, drv_Create ds vd name opts) in
          let s := mkVS (vs_names s) (vs_refs s) (<[name := labels]> (vs_labels s))
                     (vs_db s) (vs_drivers s) in
          let! (s, _) := put_labels s name labels in
          (s, Ok (volumeWrapper v labels (drv_Scope (vs_drivers s) vd)))
      end
  | (s, Err e) => (s, Err (OpErr e "create" name []))
  | (s, Panic m) => (s, Panic m)
  | (s, Diverge) => (s, Diverge)
  end.

Definition create s name (driverName : string) (opts labels : strmap) :
    VolumeStore * outcome vol_error Volume :=
  match IsVolumeNameValid name with
  | (_, Some e) => (s, Err (ErrExternal e))
  | (false, None) => (s, Err (OpErr errInvalidName "create" name []))
  | (true, None) =>
      match getNamed s name with
      | Some v =>
          if decide (v_DriverName v ≠ driverName ∧ driverName ≠ "" ∧
                     driverName ≠ DefaultDriverName)
          then (s, Err errNameConflict)
          else (s, Ok v)
      | None =>
          if decide (driverName = "") then
            match getVolume s name with
            | (s, Ok v) => (s, Ok v)
            | (s, _) => create_with_driver s name driverName opts labels
            end
          else create_with_driver s name driverName opts labels
      end
  end.

(** An error, wrapped in an OpErr. *)
Definition wrap_error {A} (op name : string) (r : VolumeStore * outcome vol_error A) :
    VolumeStore * outcome vol_error A :=
  match r with
  | (s, Err e) => (s, Err (OpErr e op name []))
  | r => r
  end.

Definition CreateWithRef s name (driverName ref : string) (opts labels : strmap) :
    VolumeStore * outcome vol_error Volume :=
  let name := normaliseVolumeName name in
  let! (s, v) := wrap_error "create" name (create s name driverName opts labels) in
  (setNamed s v ref, Ok v).

Definition Create s name (driverName : string) (opts labels : strmap) :
    VolumeStore * outcome vol_error Volume :=
  let name := normaliseVolumeName name in
  let! (s, v) := wrap_error "create" name (create s name driverName opts labels) in
  (setNamed s v "", Ok v).

Definition GetWithRef s name (driverName ref : string) : VolumeStore * outcome vol_error Volume :=
  let name := normaliseVolumeName name in
  let! (s, vd) := wrap_error "get" name (call s (λ ds, GetDriver ds driverName)) in
  let! (s, v) := wrap_error "get" name (call s (λ ds, drv_Get ds vd name)) in
  let s := setNamed s v ref in
  (s, Ok (volumeWrapper v (labels_of s name) (drv_Scope (vs_drivers s) vd))).

Definition Get s name : VolumeStore * outcome vol_error Volume :=
  let name := normaliseVolumeName name in
  let! (s, v) := wrap_error "get" name (getVolume s name) in
  (setNamed s v "", Ok v).

(** When the driver is not found, the error path calls [Name] on a nil driver. *)
Definition Remove s v : VolumeStore * outcome vol_error unit :=
  let name := normaliseVolumeName (v_Name v) in
  if decide (0 < length (refs_of s name))
  then (s, Err (OpErr errVolumeInUse "remove" (v_Name v) (refs_of s name)))
  else
    match call s (λ ds, GetDriver ds (v_DriverName v)) with
    | (s, Ok vd) =>
        let vol := unwrapVolume v in
        match drv_Remove (vs_drivers s) vd vol with
        | (ds, Some e) => (with_drivers s ds, Err (OpErr (ErrExternal e) "remove" name []))
        | (ds, None) => (purge (with_drivers s ds) name, Ok tt)
        end
    | (s, Err _) => (s, Panic "invalid memory address or nil pointer dereference")
    | (s, Panic m) => (s, Panic m)
    | (s, Diverge) => (s, Diverge)
    end.

Definition Dereference s v ref : VolumeStore :=
  mkVS (vs_names s)
    (<[v_Name v := filter (λ r, r ≠ ref) (refs_of s (v_Name v))]> (vs_refs s))
    (vs_labels s) (vs_db s) (vs_drivers s).

Definition Refs s v : list string := refs_of s (v_Name v).

(** [list]: the drivers answer one after the other; the volumes that the store
    knows stand for those of a driver that fails.  The drivers that failed are
    returned for the warnings. *)
Fixpoint list_drivers s (ds : list string) :
    VolumeStore * (list Volume * list string) :=
  match ds with
  | [] => (s, ([], []))
  | d :: ds =>
      match call s (λ st, drv_List st d) with
      | (s, Ok vs) =>
          let '(s', (ls, bad)) := list_drivers s ds in
          (s', (((λ v, volumeWrapper v (labels_of s (v_Name v)) (drv_Scope (vs_drivers s) d)) <$> vs)
               ++ ls, bad))
      | (s, _) =>
          let '(s', (ls, bad)) := list_drivers s ds in (s', (ls, d :: bad))
      end
  end.

Definition vs_list s : VolumeStore * outcome vol_error (list Volume * list string) :=
  let! (s, drivers) := call s GetAllDrivers in
  let '(s, (ls, bad)) := list_drivers s drivers in
  let known := filter (λ v, v_DriverName v ∈ bad) (snd <$> map_to_list (vs_names s)) in
  (s, Ok (ls ++ known, bad)).

Definition vs_List s : VolumeStore * outcome vol_error (list Volume * list string) :=
  let! (s, r) := wrap_error "list" "" (vs_list s) in
  let keep v :=
    match getNamed s (normaliseVolumeName (v_Name v)) with
    | Some w => bool_decide (v_DriverName w = v_DriverName v)
    | None => true
    end in
  (s, Ok (filter (λ v, keep v = true) r.1, r.2)).

Definition FilterByDriver s name : VolumeStore * outcome vol_error (list Volume) :=
  let! (s, vd) := wrap_error "list" name (call s (λ ds, GetDriver ds name)) in
  let! (s, ls) := wrap_error "list" name (call s (λ ds, drv_List ds vd)) in
  (s, Ok ((λ v, volumeWrapper v (labels_of s (v_Name v)) (drv_Scope (vs_drivers s) vd)) <$> ls)).

Definition FilterByUsed s (vols : list Volume) (used : bool) : list Volume :=
  filter (λ v, (used = true ∧ 0 < length (refs_of s (v_Name v))) ∨
               (used = false ∧ length (refs_of s (v_Name v)) = 0)) vols.

(** ** References *)

(** A driver returns the volume that it was asked for. *)
Hypothesis drv_Get_name : ∀ ds d n ds' v, drv_Get ds d n = (ds', inr v) → v_Name v = n.
Hypothesis drv_Create_name :
  ∀ ds d n o ds' v, drv_Create ds d n o = (ds', inr v) → v_Name v = n.

(** A call that leaves the names and the references alone. *)
Definition same_refs s s' : Prop := vs_names s' = vs_names s ∧ vs_refs s' = vs_refs s.

(** What a volume is looked up or created with: [s] is the store before. *)
Definition returns {A} s (P : A → Prop) (r : VolumeStore * outcome vol_error A) : Prop :=
  same_refs s r.1 ∧ match r.2 with Ok a => P a | Err _ => True | Panic _ | Diverge => False end.

Lemma same_refs_trans s1 s2 s3 : same_refs s1 s2 → same_refs s2 s3 → same_refs s1 s3.
Proof. intros [] []. split; congruence. Qed.

Lemma returns_bind {A B} s (P : A → Prop) (Q : B → Prop) r k :
  returns s P r → (∀ s' a, same_refs s s' → P a → returns s' Q (k s' a)) →
  returns s Q (and_then r k).
Proof.
  intros [Hs HP] Hk. destruct r as [s' [a|e|m|]]; simpl in *; [|by split|done|done].
  destruct (Hk s' a Hs HP) as [Hs' HQ]. split; [by eapply same_refs_trans|done].
Qed.

Lemma returns_mono {A} s (P Q : A → Prop) r :
  returns s P r → (∀ a, P a → Q a) → returns s Q r.
Proof. intros [Hs HP] HQ. split; [done|]. destruct r as [? []]; simpl in *; auto. Qed.

Lemma returns_wrap {A} s (P : A → Prop) op name r :
  returns s P r → returns s P (wrap_error op name r).
Proof. by destruct r as [? []]. Qed.

Lemma returns_trans {A} s s' (P : A → Prop) r :
  same_refs s s' → returns s' P r → returns s P r.
Proof. intros H1 [H2 HP]. split; [by eapply same_refs_trans|done]. Qed.

Lemma call_returns {A} s f (P : A → Prop) :
  (∀ ds a, f (vs_drivers s) = (ds, inr a) → P a) → returns s P (call s f).
Proof.
  intros HP. unfold call. destruct (f (vs_drivers s)) as [ds [e|a]] eqn:Hf; (split; [done|]);
    simpl; eauto.
Qed.

Lemma read_labels_returns s name : returns s (λ _, True) (read_labels s name).
Proof.
  unfold read_labels. destruct (vs_db s) as [db|]; [|done]. by destruct (db_Get db name) as [? []].
Qed.

Lemma probe_returns s name labels ds : returns s (λ v, v_Name v = name) (probe s name labels ds).
Proof.
  revert s. induction ds as [|d ds IH]; intros s; [done|]. cbn [probe].
  pose proof (call_returns s (λ st, drv_Get st d name) (λ v, v_Name v = name)) as [Hs Hv].
  { intros ds' a Ha. by eapply drv_Get_name. }
  destruct (call s _) as [s' [v|e|m|]]; cbn [fst snd] in *; [done| |done..].
  by eapply returns_trans.
Qed.

Lemma getVolume_returns s name : returns s (λ v, v_Name v = name) (getVolume s name).
Proof.
  unfold getVolume. eapply returns_bind; [apply read_labels_returns|]. intros s1 labels _ _.
  destruct (vs_names s1 !! name) as [v|].
  - eapply returns_bind; [apply (call_returns _ _ (λ _, True)); done|]. intros s2 vd _ _.
    eapply returns_bind; [apply (call_returns _ _ (λ v, v_Name v = name))|].
    { intros ds a Ha. by eapply drv_Get_name. }
    intros s3 vol _ Hvol. done.
  - eapply returns_bind; [apply (call_returns _ _ (λ _, True)); done|]. intros s2 ds _ _.
    apply probe_returns.
Qed.

Lemma create_with_driver_returns s name d opts labels :
  returns s (λ v, v_Name v = name) (create_with_driver s name d opts labels).
Proof.
  unfold create_with_driver.
  pose proof (call_returns s (λ ds, GetDriver ds d) (λ _, True)) as [Hs Hv]; [done|].
  destruct (call s _) as [s1 [vd|e|m|]]; cbn [fst snd] in *; [|done|done|done].
  pose proof (call_returns s1 (λ ds, drv_Get ds vd name) (λ v, v_Name v = name)) as [Hs1 Hv1].
  { intros ds a Ha. by eapply drv_Get_name. }
  destruct (call s1 _) as [s2 [v|e|m|]]; cbn [fst snd] in *; [|..|done|done].
  { split; [by eapply same_refs_trans|done]. }
  eapply returns_trans; [by eapply same_refs_trans|].
  eapply returns_bind; [apply (call_returns _ _ (λ v, v_Name v = name))|].
  { intros ds a Ha. by eapply drv_Create_name. }
  intros s3 v _ Hname. eapply (returns_bind _ (λ _, True)).
  - unfold put_labels. cbn [vs_db]. destruct (vs_db s3) as [db|]; [|done].
    by destruct (db_Put db name labels) as [? []].
  - done.
Qed.

(** The store knows a volume by its own name. *)
Definition names_ok s : Prop := ∀ n v, vs_names s !! n = Some v → v_Name v = n.

Lemma create_returns s name d opts labels :
  names_ok s → returns s (λ v, v_Name v = name) (create s name d opts labels).
Proof.
  intros Hn. unfold create. cbn [IsVolumeNameValid].
  destruct (getNamed s name) as [v|] eqn:Hv.
  - case_decide; [done|]. split; [done|]. by apply Hn.
  - case_decide as Hd; [|apply create_with_driver_returns].
    pose proof (getVolume_returns s name) as [Hs Hg].
    destruct (getVolume s name) as [s1 [v|e|m|]]; cbn [fst snd] in *; [done| |done|done].
    eapply returns_trans; [done|]. apply create_with_driver_returns.
Qed.

(** *** Histories *)

Inductive vop :=
| OpCreate (name driver : string) (opts labels : strmap)
| OpCreateWithRef (name driver ref : string) (opts labels : strmap)
| OpGet (name : string)
| OpGetWithRef (name driver ref : string)
| OpRemove (v : Volume)
| OpDereference (v : Volume) (ref : string)
| OpList.

Definition vol_call s (op : vop) : VolumeStore * outcome vol_error unit :=
  match op with
  | OpCreate n d o l => let '(s, r) := Create s n d o l in (s, void r)
  | OpCreateWithRef n d r o l => let '(s, r) := CreateWithRef s n d r o l in (s, void r)
  | OpGet n => let '(s, r) := Get s n in (s, void r)
  | OpGetWithRef n d r => let '(s, r) := GetWithRef s n d r in (s, void r)
  | OpRemove v => Remove s v
  | OpDereference v r => (Dereference s v r, Ok tt)
  | OpList => let '(s, r) := vs_List s in (s, void r)
  end.

(** The references of the volume [n]: those that were taken, without those that
    were given back since.  Removing volumes does not come into it. *)
Definition refs_after (n : string) (rs : list string) (x : vop * outcome vol_error unit) :
    list string :=
  match x with
  | (OpCreateWithRef m _ ref _ _, Ok _) | (OpGetWithRef m _ ref, Ok _) =>
      if decide (m = n ∧ ref ≠ "") then rs ++ [ref] else rs
  | (OpDereference v ref, _) => if decide (v_Name v = n) then filter (λ r, r ≠ ref) rs else rs
  | _ => rs
  end.
Definition held_refs (n : string) (h : list (vop * outcome vol_error unit)) : list string :=
  foldl (refs_after n) [] h.

(** Every volume that is referenced is known. *)
Definition store_ok s : Prop :=
  names_ok s ∧ ∀ n, refs_of s n ≠ [] → is_Some (vs_names s !! n).

(** A call that answers [o] keeps the invariant and changes the references as its
    history says. *)
Definition call_ok s (op : vop) (r : VolumeStore * outcome vol_error unit) : Prop :=
  store_ok r.1 ∧ (∀ n, refs_of r.1 n = refs_after n (refs_of s n) (op, r.2)).

Lemma same_refs_ok s s' : same_refs s s' → store_ok s → store_ok s'.
Proof. unfold store_ok, names_ok, refs_of. by intros [-> ->]. Qed.

Lemma same_refs_of s s' n : same_refs s s' → refs_of s' n = refs_of s n.
Proof. unfold refs_of. by intros [_ ->]. Qed.

Lemma setNamed_refs s v ref n :
  refs_of (setNamed s v ref) n =
    if decide (v_Name v = n ∧ ref ≠ "") then refs_of s n ++ [ref] else refs_of s n.
Proof.
  unfold refs_of at 1. cbn [setNamed vs_refs].
  destruct (decide (ref = "")) as [->|Hr].
  - rewrite decide_False by naive_solver. done.
  - destruct (decide (v_Name v = n)) as [<-|Hne].
    + rewrite decide_True by done. by rewrite lookup_insert_eq.
    + rewrite decide_False by naive_solver. by rewrite lookup_insert_ne.
Qed.

Lemma setNamed_ok s v ref : store_ok s → store_ok (setNamed s v ref).
Proof.
  intros [Hn Hr]. split.
  - intros n w. cbn [setNamed vs_names]. rewrite lookup_insert_Some.
    intros [[<- <-]|[_ Hw]]; [done|by apply Hn].
  - intros n. rewrite setNamed_refs. cbn [setNamed vs_names].
    destruct (decide (v_Name v = n)) as [<-|Hne]; [by rewrite lookup_insert_eq|].
    rewrite decide_False by naive_solver. rewrite lookup_insert_ne by done. apply Hr.
Qed.

(** A lookup or a creation, followed by [setNamed]. *)
Lemma named_call_ok s name ref (r : VolumeStore * outcome vol_error Volume)
    (k : VolumeStore → Volume → Volume) :
  store_ok s → returns s (λ v, v_Name v = name) r →
  let r' := and_then r (λ s v, (setNamed s v ref, Ok (k (setNamed s v ref) v))) in
  store_ok r'.1 ∧
  match r'.2 with
  | Ok _ => ∀ n, refs_of r'.1 n =
              if decide (name = n ∧ ref ≠ "") then refs_of s n ++ [ref] else refs_of s n
  | Err _ => ∀ n, refs_of r'.1 n = refs_of s n
  | _ => False
  end.
Proof.
  intros Hok [Hs HP]. destruct r as [s1 [v|e|m|]]; cbn [and_then fst snd] in *; [|..|done|done].
  - split; [by apply setNamed_ok, (same_refs_ok s)|]. intros n.
    by rewrite setNamed_refs, HP, (same_refs_of _ _ _ Hs).
  - split; [by apply (same_refs_ok s)|]. intros n. by apply same_refs_of.
Qed.

Lemma list_drivers_same s ds : same_refs s (list_drivers s ds).1.
Proof.
  revert s. induction ds as [|d ds IH]; intros s; [done|]. cbn [list_drivers].
  destruct (call_returns s (λ st, drv_List st d) (λ _, True)) as [Hs _]; [done|].
  destruct (call s _) as [s1 [vs|e|m|]]; cbn [fst] in Hs; specialize (IH s1);
    destruct (list_drivers s1 ds) as [s2 [ls bad]]; by eapply same_refs_trans.
Qed.

Lemma vs_List_returns s : returns s (λ _, True) (vs_List s).
Proof.
  unfold vs_List, vs_list. eapply (returns_bind _ (λ _, True)); [apply returns_wrap|done].
  eapply returns_bind; [by apply (call_returns _ _ (λ _, True))|]. intros s1 ds _ _.
  pose proof (list_drivers_same s1 ds) as Hs. by destruct (list_drivers s1 ds) as [s2 [ls bad]].
Qed.

Lemma purge_ok s name : store_ok s → refs_of s name = [] →
  store_ok (purge s name) ∧ ∀ n, refs_of (purge s name) n = refs_of s n.
Proof.
  intros [Hn Hr] Hempty.
  assert (Hrefs : ∀ n, refs_of (purge s name) n = refs_of s n).
  { intros n. unfold refs_of in *. cbn [purge vs_refs].
    destruct (decide (name = n)) as [<-|Hne]; [by rewrite lookup_delete_eq|].
    by rewrite lookup_delete_ne. }
  split; [|done]. split.
  - intros n v. cbn [purge vs_names]. intros [_ Hv]%lookup_delete_Some. by apply Hn.
  - intros n. rewrite Hrefs. cbn [purge vs_names]. intros Hne. rewrite lookup_delete_ne; [by apply Hr|].
    by intros <-.
Qed.

Lemma Remove_ok s v : store_ok s →
  store_ok (Remove s v).1 ∧ ∀ n, refs_of (Remove s v).1 n = refs_of s n.
Proof.
  intros Hok. unfold Remove, normaliseVolumeName. case_decide as Hlen; [done|].
  assert (Hempty : refs_of s (v_Name v) = [])
    by (destruct (refs_of s (v_Name v)); [done|simpl in Hlen; lia]).
  destruct (call_returns s (λ ds, GetDriver ds (v_DriverName v)) (λ _, True)) as [Hs _]; [done|].
  destruct (call s _) as [s1 [vd|e|m|]]; cbn [fst] in Hs;
    [|by split; [apply (same_refs_ok s)|intros; apply same_refs_of]..].
  destruct (drv_Remove _ _ _) as [ds [e|]]; cbn [fst].
  - split; [by apply (same_refs_ok s)|intros; by apply same_refs_of].
  - assert (Hs2 : same_refs s (with_drivers s1 ds)) by done.
    destruct (purge_ok (with_drivers s1 ds) (v_Name v)) as [H1 H2].
    + by apply (same_refs_ok s).
    + by rewrite (same_refs_of s).
    + split; [done|]. intros n. rewrite H2. by apply same_refs_of.
Qed.

(** A call that takes the reference [ref] of [name], if it succeeds and [ref] is
    not empty. *)
Definition takes s (name ref : string) {A} (r : VolumeStore * outcome vol_error A) : Prop :=
  store_ok r.1 ∧ ∀ n, refs_of r.1 n =
    match r.2 with
    | Ok _ => if decide (name = n ∧ ref ≠ "") then refs_of s n ++ [ref] else refs_of s n
    | _ => refs_of s n
    end.

Lemma takes_named s name ref (r : VolumeStore * outcome vol_error Volume)
    (k : VolumeStore → Volume → Volume) :
  store_ok s → returns s (λ v, v_Name v = name) r →
  takes s name ref (and_then r (λ s v, (setNamed s v ref, Ok (k (setNamed s v ref) v)))).
Proof.
  intros Hok Hr. destruct (named_call_ok s name ref r k Hok Hr) as [H1 H2].
  split; [done|]. by destruct (and_then _ _) as [s' []].
Qed.

Lemma Create_takes s n d o l : store_ok s → takes s n "" (Create s n d o l).
Proof.
  intros Hok. apply (takes_named s n "" _ (λ _ v, v)); [done|].
  apply returns_wrap, create_returns, Hok.
Qed.

Lemma CreateWithRef_takes s n d ref o l : store_ok s → takes s n ref (CreateWithRef s n d ref o l).
Proof.
  intros Hok. apply (takes_named s n ref _ (λ _ v, v)); [done|].
  apply returns_wrap, create_returns, Hok.
Qed.

Lemma Get_takes s n : store_ok s → takes s n "" (Get s n).
Proof.
  intros Hok. apply (takes_named s n "" _ (λ _ v, v)); [done|].
  apply returns_wrap, getVolume_returns.
Qed.

Lemma GetWithRef_takes s n d ref : store_ok s → takes s n ref (GetWithRef s n d ref).
Proof.
  intros Hok. unfold GetWithRef, normaliseVolumeName.
  pose proof (returns_wrap s _ "get" n _ (call_returns s (λ ds, GetDriver ds d) (λ _, True)
    (λ _ _ _, I))) as [Hs Hd].
  destruct (wrap_error "get" n (call s _)) as [s1 [vd|e|m|]]; cbn [and_then fst snd] in *;
    [|by split; [apply (same_refs_ok s)|intros; apply same_refs_of]|done|done].
  assert (Hret : returns s1 (λ v, v_Name v = n)
            (wrap_error "get" n (call s1 (λ ds, drv_Get ds vd n)))).
  { apply returns_wrap, call_returns. intros ds v Hv. by eapply drv_Get_name. }
  destruct (takes_named s1 n ref _
    (λ s v, volumeWrapper v (labels_of s n) (drv_Scope (vs_drivers s) vd))
    (same_refs_ok s s1 Hs Hok) Hret) as [H1 H2].
  split; [done|]. intros m. rewrite H2, (same_refs_of s s1 m Hs). done.
Qed.

Lemma vol_call_ok s op : store_ok s → call_ok s op (vol_call s op).
Proof.
  intros Hok. unfold call_ok. destruct op as [n d o l|n d ref o l|n|n d ref|v|v ref|]; cbn [vol_call].
  - destruct (Create_takes s n d o l Hok) as [H1 H2]. destruct (Create s n d o l) as [s' r].
    split; [done|]. intros m. rewrite H2, decide_False by naive_solver. by destruct r.
  - destruct (CreateWithRef_takes s n d ref o l Hok) as [H1 H2].
    destruct (CreateWithRef s n d ref o l) as [s' r].
    split; [done|]. intros m. rewrite H2. by destruct r.
  - destruct (Get_takes s n Hok) as [H1 H2]. destruct (Get s n) as [s' r].
    split; [done|]. intros m. rewrite H2, decide_False by naive_solver. by destruct r.
  - destruct (GetWithRef_takes s n d ref Hok) as [H1 H2]. destruct (GetWithRef s n d ref) as [s' r].
    split; [done|]. intros m. rewrite H2. by destruct r.
  - destruct (Remove_ok s v Hok) as [H1 H2]. by destruct (Remove s v) as [s' []].
  - assert (Hrefs : ∀ n, refs_of (Dereference s v ref) n =
      if decide (v_Name v = n) then filter (λ r, r ≠ ref) (refs_of s n) else refs_of s n).
    { intros n. unfold refs_of at 1. cbn [Dereference vs_refs].
      destruct (decide (v_Name v = n)) as [<-|Hne]; [by rewrite lookup_insert_eq|].
      by rewrite lookup_insert_ne. }
    split; [|exact Hrefs]. split; [apply Hok|]. intros n. cbn [fst]. rewrite Hrefs.
    intros Hne. apply Hok. intros Hempty. rewrite Hempty in Hne. by destruct (decide _).
  - destruct (vs_List_returns s) as [Hs _]. destruct (vs_List s) as [s' r]. cbn [fst snd] in *.
    split; [by apply (same_refs_ok s)|]. intros n. rewrite (same_refs_of s s' n Hs). by destruct r.
Qed.

Lemma run_vol_ok s ops n :
  store_ok s →
  let '(s', os) := run_calls vol_call s ops in
  store_ok s' ∧ refs_of s' n = foldl (refs_after n) (refs_of s n) (zip ops os).
Proof.
  revert s. induction ops as [|op ops IH]; intros s Hok; [done|]. cbn [run_calls].
  destruct (vol_call_ok s op Hok) as [Hok' Hrefs].
  destruct (vol_call s op) as [s1 o]; cbn [fst snd] in *. specialize (IH s1 Hok').
  destruct (run_calls vol_call s1 ops) as [s2 os]. destruct IH as [H1 H2].
  split; [done|]. cbn [zip zip_with foldl]. by rewrite <- Hrefs.
Qed.

(** C26: A volume that is in use is never removed.  After any calls on a new store,
    with any failures of the drivers and the database, the references of a volume
    are exactly those that successful calls have taken and that were not given
    back since; a volume with references is known to the store by its own name;
    and [Remove] of such a volume is refused without a call of its driver and
    changes nothing. *)
Theorem volume_references_exact db ds ops n :
  let '(s, os) := run_calls vol_call (NewVolumeStore db ds) ops in
  let held := held_refs n (zip ops os) in
  refs_of s n = held ∧
  (held ≠ [] →
     (∃ v, vs_names s !! n = Some v ∧ v_Name v = n) ∧
     ∀ v, v_Name v = n → Remove s v = (s, Err (OpErr errVolumeInUse "remove" n held))).
Proof.
  pose proof (run_vol_ok (NewVolumeStore db ds) ops n) as Hrun.
  destruct (run_calls _ _ ops) as [s os]. destruct Hrun as [[Hn Hr] Hrefs]; [by split|].
  change (refs_of s n = held_refs n (zip ops os)) in Hrefs. cbn zeta. rewrite <- Hrefs.
  split; [done|]. intros Hne.
  split.
  - destruct (Hr n Hne) as [v Hv]. exists v. split; [done|]. by apply Hn.
  - intros v <-. unfold Remove, normaliseVolumeName. rewrite decide_True; [done|].
    destruct (refs_of s (v_Name v)); [done|simpl; lia].
Qed.

(** When the driver of a volume cannot be found, [Remove] panics. *)
Lemma Remove_without_driver_panics s v ds e :
  refs_of s (v_Name v) = [] → GetDriver (vs_drivers s) (v_DriverName v) = (ds, inl e) →
  ∃ msg, (Remove s v).2 = Panic msg.
Proof.
  intros Hr Hd. unfold Remove, normaliseVolumeName.
  rewrite decide_False by (rewrite Hr; simpl; lia). unfold call. cbv beta. rewrite Hd. by eexists.
Qed.
End volume_store.

(** ** A concrete store: one driver, "local", that has every volume *)

#[local] Instance demo_drivers : VolumeDrivers unit := {|
  GetDriver ds _ := (ds, inr "local");
  GetAllDrivers ds := (ds, inr ["local"]);
  drv_Get ds d n := (ds, inr (mkVolume n d None));
  drv_Create ds d n _ := (ds, inr (mkVolume n d None));
  drv_Remove ds _ _ := (ds, None);
  drv_List ds _ := (ds, inr []);
  drv_Scope _ _ := "local"
|}.
#[local] Instance demo_db : VolumeDB unit := {|
  db_Put db _ _ := (db, None);
  db_Get db _ := (db, inr None)
|}.

Definition demo_ops : list vop :=
  [OpCreateWithRef "data" "local" "c1" ∅ ∅; OpGetWithRef "data" "local" "c2";
   OpRemove (mkVolume "data" "local" None); OpDereference (mkVolume "data" "local" None) "c1"].
Definition demo_store : VolumeStore := (run_calls vol_call (NewVolumeStore None tt) demo_ops).1.

Lemma volume_references_exact_witness :
  refs_of demo_store "data" = ["c2"] ∧
  Remove demo_store (mkVolume "data" "local" None) =
    (demo_store, Err (OpErr errVolumeInUse "remove" "data" ["c2"])).
Proof.
  pose proof (volume_references_exact (λ _ _ _ _ _ H, match H with eq_refl => eq_refl end)
    (λ _ _ _ _ _ _ H, match H with eq_refl => eq_refl end) None tt demo_ops "data") as H.
  unfold demo_store.
  assert (Hheld : held_refs "data" (zip demo_ops
    (run_calls vol_call (NewVolumeStore None tt) demo_ops).2) = ["c2"])
    by (vm_compute; reflexivity).
  destruct (run_calls vol_call (NewVolumeStore None tt) demo_ops) as [s os].
  cbn [fst snd] in *. rewrite Hheld in H. destruct H as [H1 H2]. split; [exact H1|].
  apply (proj2 (H2 ltac:(discriminate))). reflexivity.
Defined.
