(* ===== verification/Xfer.v ===== *)
(** * distribution/xfer: the transfer manager

    The model of distribution/xfer/transfer.go: the manager that shares transfers
    of the same key and limits how many are active, and the life of a transfer.
    Channels that are only ever closed are flags, and closing one twice is a
    panic.  Each definition is a critical section of [tm.mu] or [t.mu]; the step
    relation interleaves them.  Progress output and the watcher goroutines are not
    modelled. *)

From S2P Require Import Prelude.

Abbreviation id := nat (only parsing).

(** A transfer, with the channels the manager made for it: [x_start] and
    [x_running] are closed channels, [x_active] says that the manager's goroutine
    still has the channel [inactive]. *)
Record transfer := mkXfer {
  x_key : string;
  x_watchers : gset id;
  x_cancelled : bool;
  x_broadcastDone : bool;
  x_closed : bool;
  x_released : bool;
  x_start : bool;
  x_active : bool;
  x_removed : bool
}.

Definition NewTransfer (key : string) (start : bool) : transfer :=
  mkXfer key ∅ false false false false start true false.

Definition Watch (x : transfer) (w : id) : transfer :=
  mkXfer (x_key x) ({[w]} ∪ x_watchers x) (x_cancelled x) (x_broadcastDone x) (x_closed x)
    (x_released x) (x_start x) (x_active x) (x_removed x).

Definition set_released (x : transfer) : transfer :=
  mkXfer (x_key x) (x_watchers x) (x_cancelled x) (x_broadcastDone x) (x_closed x)
    true (x_start x) (x_active x) (x_removed x).

Definition Release (x : transfer) (w : id) : transfer :=
  let watchers := x_watchers x ∖ {[w]} in
  let x := mkXfer (x_key x) watchers (x_cancelled x) (x_broadcastDone x) (x_closed x)
             (x_released x) (x_start x) (x_active x) (x_removed x) in
  if decide (watchers = ∅) then
    if x_closed x then
      if x_released x then x else set_released x
    else
      mkXfer (x_key x) watchers true (x_broadcastDone x) (x_closed x)
        (x_released x) (x_start x) (x_active x) (x_removed x)
  else x.

Definition Close (x : transfer) : transfer * outcome string unit :=
  let x := mkXfer (x_key x) (x_watchers x) (x_cancelled x) (x_broadcastDone x) true
             (x_released x) (x_start x) (x_active x) (x_removed x) in
  if decide (x_watchers x = ∅) then
    if x_released x then (x, Panic "close of closed channel") else (set_released x, Ok tt)
  else (x, Ok tt).

(** The end of [Broadcast]: the progress channel was closed. *)
Definition Broadcast_end (x : transfer) : transfer :=
  mkXfer (x_key x) (x_watchers x) (x_cancelled x) true (x_closed x)
    (x_released x) (x_start x) (x_active x) (x_removed x).

(** ** The manager *)

Record transferManager := mkTM {
  tm_concurrencyLimit : Z;
  tm_activeTransfers : Z;
  tm_transfers : gmap string id;
  tm_waiting : list id;
  tm_heap : gmap id transfer;
  tm_next : id
}.
Implicit Types (tm : transferManager) (x : transfer) (i : id).

Definition NewTransferManager (limit : Z) : transferManager := mkTM limit 0 ∅ [] ∅ 0.

Definition SetConcurrency tm (limit : Z) : transferManager :=
  mkTM limit (tm_activeTransfers tm) (tm_transfers tm) (tm_waiting tm) (tm_heap tm) (tm_next tm).

Definition with_heap tm (h : gmap id transfer) : transferManager :=
  mkTM (tm_concurrencyLimit tm) (tm_activeTransfers tm) (tm_transfers tm) (tm_waiting tm)
    h (tm_next tm).

(** How a section of [Transfer] ends: with the transfer and a watcher, or waiting
    for a cancelled transfer to be done, to try again. *)
Inductive transfer_end := Watching (x w : id) | Retry (x : id).

Definition Transfer tm (key : string) : transferManager * outcome string transfer_end :=
  match tm_transfers tm !! key with
  | Some i =>
      match tm_heap tm !! i with
      | None => (tm, Panic "invalid memory address or nil pointer dereference")
      | Some x =>
          let w := tm_next tm in
          let tm := mkTM (tm_concurrencyLimit tm) (tm_activeTransfers tm) (tm_transfers tm)
                      (tm_waiting tm) (tm_heap tm) (S w) in
          let x := Watch x w in
          if x_cancelled x
          then (with_heap tm (<[i := Release x w]> (tm_heap tm)), Ok (Retry i))
          else (with_heap tm (<[i := x]> (tm_heap tm)), Ok (Watching i w))
      end
  | None =>
      let i := tm_next tm in
      let w := S i in
      let start :=
        bool_decide (tm_concurrencyLimit tm = 0%Z) ||
        bool_decide (tm_activeTransfers tm < tm_concurrencyLimit tm)%Z in
      let x := Watch (NewTransfer key start) w in
      (mkTM (tm_concurrencyLimit tm)
         (if start then tm_activeTransfers tm + 1 else tm_activeTransfers tm)
         (<[key := i]> (tm_transfers tm))
         (if start then tm_waiting tm else tm_waiting tm ++ [i])
         (<[i := x]> (tm_heap tm)) (S w), Ok (Watching i w))
  end.

Definition close_start x : transfer :=
  mkXfer (x_key x) (x_watchers x) (x_cancelled x) (x_broadcastDone x) (x_closed x)
    (x_released x) true (x_active x) (x_removed x).

(** [inactivate] of a transfer whose channel [start] is closed or not. *)
Definition inactivate tm (start : bool) : transferManager * outcome string unit :=
  if start then
    match tm_waiting tm with
    | i :: waiting =>
        match tm_heap tm !! i with
        | None => (tm, Panic "close of nil channel")
        | Some x =>
            if x_start x then (tm, Panic "close of closed channel")
            else
              (mkTM (tm_concurrencyLimit tm) (tm_activeTransfers tm) (tm_transfers tm) waiting
                 (<[i := close_start x]> (tm_heap tm)) (tm_next tm), Ok tt)
        end
    | [] =>
        (mkTM (tm_concurrencyLimit tm) (tm_activeTransfers tm - 1) (tm_transfers tm) []
           (tm_heap tm) (tm_next tm), Ok tt)
    end
  else (tm, Ok tt).

Definition set_inactive x : transfer :=
  mkXfer (x_key x) (x_watchers x) (x_cancelled x) (x_broadcastDone x) (x_closed x)
    (x_released x) (x_start x) false (x_removed x).
Definition set_removed x : transfer :=
  mkXfer (x_key x) (x_watchers x) (x_cancelled x) (x_broadcastDone x) (x_closed x)
    (x_released x) (x_start x) (x_active x) true.

(** The manager's goroutine: the transfer closed [inactive]. *)
Definition on_inactive tm i : transferManager * outcome string unit :=
  match tm_heap tm !! i with
  | None => (tm, Panic "invalid memory address or nil pointer dereference")
  | Some x => inactivate (with_heap tm (<[i := set_inactive x]> (tm_heap tm))) (x_start x)
  end.

(** The manager's goroutine: the transfer is done. *)
Definition on_done tm i : transferManager * outcome string unit :=
  match tm_heap tm !! i with
  | None => (tm, Panic "invalid memory address or nil pointer dereference")
  | Some x =>
      let tm := with_heap tm (<[i := set_removed x]> (tm_heap tm)) in
      let! (tm, _) := (if x_active x then inactivate tm (x_start x) else (tm, Ok tt)) in
      (mkTM (tm_concurrencyLimit tm) (tm_activeTransfers tm) (delete (x_key x) (tm_transfers tm))
         (tm_waiting tm) (tm_heap tm) (tm_next tm), Ok tt)
  end.

(** ** Interleavings

    A transfer function waits until its start channel is closed, as those of the
    package (in download.go and upload.go) do and as the documentation of [DoFunc]
    asks for: it closes [inactive] and ends only after that.  A watcher is released
    once.  [SetConcurrency] is called with limits of [allowed]. *)
Inductive xfer_step (allowed : Z → Prop) : transferManager → transferManager → Prop :=
| xs_transfer tm key tm' o :
    Transfer tm key = (tm', o) → xfer_step allowed tm tm'
| xs_watch tm i x :
    tm_heap tm !! i = Some x →
    xfer_step allowed tm
      (mkTM (tm_concurrencyLimit tm) (tm_activeTransfers tm) (tm_transfers tm) (tm_waiting tm)
         (<[i := Watch x (tm_next tm)]> (tm_heap tm)) (S (tm_next tm)))
| xs_release tm i x w :
    tm_heap tm !! i = Some x → w ∈ x_watchers x →
    xfer_step allowed tm (with_heap tm (<[i := Release x w]> (tm_heap tm)))
| xs_inactive tm i x tm' o :
    tm_heap tm !! i = Some x → x_start x = true → x_active x = true → x_removed x = false →
    on_inactive tm i = (tm', o) → xfer_step allowed tm tm'
| xs_broadcast_end tm i x :
    tm_heap tm !! i = Some x → x_start x = true → x_broadcastDone x = false →
    xfer_step allowed tm (with_heap tm (<[i := Broadcast_end x]> (tm_heap tm)))
| xs_done tm i x tm' o :
    tm_heap tm !! i = Some x → x_broadcastDone x = true → x_removed x = false →
    on_done tm i = (tm', o) → xfer_step allowed tm tm'
| xs_close tm i x x' o :
    tm_heap tm !! i = Some x → x_removed x = true → x_closed x = false →
    Close x = (x', o) → xfer_step allowed tm (with_heap tm (<[i := x']> (tm_heap tm)))
| xs_set_concurrency tm limit :
    allowed limit → xfer_step allowed tm (SetConcurrency tm limit).

(** A transfer that has a slot. *)
Definition has_slot x : bool := x_start x && x_active x && negb (x_removed x).

(** The life of one transfer. *)
Record transfer_ok x : Prop := {
  xo_unstarted : x_start x = false →
    x_active x = true ∧ x_removed x = false ∧ x_broadcastDone x = false;
  xo_removed : x_removed x = true → x_broadcastDone x = true;
  xo_closed : x_closed x = true → x_removed x = true;
  xo_released : x_released x = true → x_closed x = true;
  xo_last : x_closed x = true → x_watchers x = ∅ → x_released x = true;
  xo_cancelled : x_watchers x = ∅ → x_closed x = false → x_cancelled x = true
}.

(** The manager with [extra] slots that are counted but no longer used, and the
    transfer [gone], which is removed but still in the map. *)
Record xfer_inv (extra : Z) (gone : option id) (allowed : Z → Prop) tm : Prop := {
  xk_limit : allowed (tm_concurrencyLimit tm);
  xk_transfer : ∀ i x, tm_heap tm !! i = Some x → transfer_ok x;
  xk_fresh : ∀ i, is_Some (tm_heap tm !! i) → i < tm_next tm;
  xk_map : ∀ key i, tm_transfers tm !! key = Some i ↔
    ∃ x, tm_heap tm !! i = Some x ∧ x_key x = key ∧ (x_removed x = false ∨ gone = Some i);
  xk_waiting : ∀ i, i ∈ tm_waiting tm ↔ ∃ x, tm_heap tm !! i = Some x ∧ x_start x = false;
  xk_order : StronglySorted lt (tm_waiting tm);
  xk_active : tm_activeTransfers tm = (Z.of_nat (count has_slot (tm_heap tm)) + extra)%Z;
  xk_bound : ∀ max, (0 ≤ max)%Z → (∀ l, allowed l → l ≠ 0%Z ∧ (l ≤ max)%Z) →
    (tm_activeTransfers tm ≤ max)%Z;
  xk_full : tm_waiting tm ≠ [] → ∀ min, (∀ l, allowed l → l ≠ 0%Z → (min ≤ l)%Z) →
    (min ≤ tm_activeTransfers tm)%Z
}.
Abbreviation xfer_ok := (xfer_inv 0 None).

(** ** One transfer *)

Lemma NewTransfer_ok key start w : transfer_ok (Watch (NewTransfer key start) w).
Proof. split; simpl; try done. intros Hw. set_solver. Qed.

Lemma Watch_ok x w : transfer_ok x → transfer_ok (Watch x w).
Proof. intros []. split; simpl; try done; intros; set_solver. Qed.

Lemma Release_ok x w : transfer_ok x → transfer_ok (Release x w).
Proof.
  intros []. unfold Release. case_decide as He.
  - destruct (x_closed x) eqn:Hc; cbn [x_closed]; [destruct (x_released x) eqn:Hr|];
      split; simpl; rewrite ?Hc, ?Hr; try done; naive_solver.
  - split; simpl; try done.
Qed.

Lemma Release_fields x w :
  x_key (Release x w) = x_key x ∧ x_start (Release x w) = x_start x ∧
  x_active (Release x w) = x_active x ∧ x_removed (Release x w) = x_removed x.
Proof. unfold Release. repeat case_match; done. Qed.

Lemma Close_ok x :
  transfer_ok x → x_removed x = true → x_closed x = false →
  ∃ x', Close x = (x', Ok tt) ∧ transfer_ok x' ∧ x_key x' = x_key x ∧ x_start x' = x_start x ∧
    x_active x' = x_active x ∧ x_removed x' = x_removed x.
Proof.
  intros [Hu Hrm Hcl Hrel Hlast Hcan] Hr Hc.
  assert (Hnr : x_released x = false).
  { apply not_true_is_false. intros H. rewrite Hrel in Hc; done. }
  unfold Close. cbn [x_watchers x_released]. rewrite Hnr.
  case_decide as Hw; eexists; (split; [done|]); (split; [|done]); split; simpl; try done; naive_solver.
Qed.

Lemma Broadcast_end_ok x : transfer_ok x → x_start x = true → transfer_ok (Broadcast_end x).
Proof. intros [] Hs. split; simpl; try done. congruence. Qed.

Lemma set_inactive_ok x : transfer_ok x → x_start x = true → transfer_ok (set_inactive x).
Proof. intros [] Hs. split; simpl; try done. congruence. Qed.

Lemma set_removed_ok x :
  transfer_ok x → x_broadcastDone x = true → transfer_ok (set_removed x).
Proof.
  intros [Hu] Hb. split; simpl; try done. intros Hs. destruct (Hu Hs) as (_ & _ & ?). congruence.
Qed.

Lemma close_start_ok x : transfer_ok x → transfer_ok (close_start x).
Proof. intros []. by split. Qed.

(** ** The manager *)

(** A change of a transfer that the manager does not see. *)
Lemma xfer_ok_update allowed tm i x x' :
  xfer_ok allowed tm → tm_heap tm !! i = Some x → transfer_ok x' →
  x_key x' = x_key x → x_start x' = x_start x → x_active x' = x_active x →
  x_removed x' = x_removed x →
  xfer_ok allowed (with_heap tm (<[i := x']> (tm_heap tm))).
Proof.
  intros [Hlim Htr Hfr Hmap Hwait Hord Hact Hb Hfull] Hi Hx' Hk Hs Ha Hr.
  split; cbn [with_heap tm_concurrencyLimit tm_activeTransfers tm_transfers tm_waiting tm_heap tm_next];
    try done.
  - intros j y. rewrite lookup_insert_Some. intros [[<- <-]|[_ Hj]]; eauto.
  - intros j. rewrite lookup_insert_is_Some. intros [<-|[_ Hj]]; eauto.
  - intros key j. rewrite Hmap. destruct (decide (i = j)) as [<-|Hne].
    + rewrite lookup_insert_eq, Hi. split; intros (y & [= <-] & Hy); eexists; (split; [done|]);
        rewrite ?Hk, ?Hr in *; done.
    + by rewrite lookup_insert_ne.
  - intros j. rewrite Hwait. destruct (decide (i = j)) as [<-|Hne].
    + rewrite lookup_insert_eq, Hi. split; intros (y & [= <-] & Hy); eexists; (split; [done|]);
        congruence.
    + by rewrite lookup_insert_ne.
  - rewrite (count_insert _ _ _ _ _ Hi), Hact. unfold has_slot. rewrite Hs, Ha, Hr.
    destruct (_ && _); lia.
Qed.

(** The slot that became free goes to the transfer that waits longest. *)
Lemma inactivate_ok gone allowed tm :
  xfer_inv 1 gone allowed tm →
  ∃ tm', inactivate tm true = (tm', Ok tt) ∧ xfer_inv 0 gone allowed tm' ∧
    tm_transfers tm' = tm_transfers tm ∧
    (∀ i, is_Some (tm_heap tm' !! i) ↔ is_Some (tm_heap tm !! i)) ∧
    (∀ i x, tm_heap tm !! i = Some x → ∃ x', tm_heap tm' !! i = Some x' ∧
       x_key x' = x_key x ∧ x_removed x' = x_removed x).
Proof.
  intros [Hlim Htr Hfr Hmap Hwait Hord Hact Hb Hfull]. unfold inactivate.
  destruct (tm_waiting tm) as [|i waiting] eqn:Hw; rewrite ?Hw in *.
  - eexists. split; [done|]. split; [|split; [done|split; [done|by eauto]]].
    split; cbn; try done.
    + lia.
    + intros max H0 Hl. specialize (Hb max H0 Hl). lia.
  - destruct (proj1 (Hwait i) ltac:(left)) as (x & Hx & Hs). rewrite Hx, Hs.
    pose proof (Htr i x Hx) as Hxok. destruct (xo_unstarted x Hxok Hs) as (Ha & Hr & _).
    apply StronglySorted_inv in Hord as [Hord Hlt].
    assert (Hni : i ∉ waiting).
    { intros Hin. rewrite Forall_forall in Hlt. specialize (Hlt i Hin). lia. }
    eexists. split; [done|]. split; [|split; [done|split]]; cbn [tm_heap tm_transfers].
    + split; cbn [tm_concurrencyLimit tm_activeTransfers tm_transfers tm_waiting tm_heap tm_next];
        try done.
      * intros j y. rewrite lookup_insert_Some. intros [[<- <-]|[_ Hj]]; [|by eauto].
        by apply close_start_ok.
      * intros j. rewrite lookup_insert_is_Some. intros [<-|[_ Hj]]; [apply Hfr; by eexists|auto].
      * intros key j. rewrite Hmap. destruct (decide (i = j)) as [<-|Hne].
        -- rewrite lookup_insert_eq, Hx. split; intros (y & [= <-] & Hy); eauto.
        -- by rewrite lookup_insert_ne.
      * intros j. destruct (decide (i = j)) as [<-|Hne].
        -- rewrite lookup_insert_eq. split; [done|]. by intros (y & [= <-] & ?).
        -- rewrite lookup_insert_ne by done. rewrite <- Hwait, elem_of_cons. naive_solver.
      * rewrite (count_insert _ _ _ _ _ Hx), Hact. unfold has_slot. simpl. rewrite Hs, Ha, Hr.
        simpl. lia.
      * intros _. by apply Hfull.
    + intros j. rewrite lookup_insert_is_Some. split; [|destruct (decide (i = j)); auto].
      intros [<-|[_ Hj]]; [by eexists|done].
    + intros j y Hj. destruct (decide (i = j)) as [<-|Hne].
      * rewrite lookup_insert_eq. eexists. split; [done|]. simpl. by simplify_eq.
      * rewrite lookup_insert_ne by done. eauto.
Qed.

(** A transfer gives its slot back: [x'] is the transfer afterwards. *)
Lemma vacate_slot allowed tm i x x' gone :
  xfer_ok allowed tm → tm_heap tm !! i = Some x → has_slot x = true → has_slot x' = false →
  transfer_ok x' → x_key x' = x_key x → x_start x' = x_start x →
  (x_removed x' = false ∧ gone = None) ∨ gone = Some i →
  xfer_inv 1 gone allowed (with_heap tm (<[i := x']> (tm_heap tm))).
Proof.
  intros [Hlim Htr Hfr Hmap Hwait Hord Hact Hb Hfull] Hi Hsl Hsl' Hx' Hk Hs Hgone.
  assert (Hr : x_removed x = false).
  { unfold has_slot in Hsl. by destruct (x_removed x); rewrite ?andb_false_r in Hsl. }
  split; cbn [with_heap tm_concurrencyLimit tm_activeTransfers tm_transfers tm_waiting tm_heap tm_next];
    try done.
  - intros j y. rewrite lookup_insert_Some. intros [[<- <-]|[_ Hj]]; eauto.
  - intros j. rewrite lookup_insert_is_Some. intros [<-|[_ Hj]]; eauto.
  - intros key j. rewrite Hmap. destruct (decide (i = j)) as [<-|Hne].
    + rewrite lookup_insert_eq, Hi. split; intros (y & [= <-] & Hy & _); eexists; (split; [done|]);
        rewrite ?Hk in *; (split; [done|]); [|by left]. naive_solver.
    + rewrite lookup_insert_ne by done.
      split; intros (y & Hy & Hyk & Hyr); exists y; (split; [done|]); (split; [done|]); left; naive_solver.
  - intros j. rewrite Hwait. destruct (decide (i = j)) as [<-|Hne].
    + rewrite lookup_insert_eq, Hi. split; intros (y & [= <-] & Hy); eexists; (split; [done|]);
        congruence.
    + by rewrite lookup_insert_ne.
  - rewrite (count_insert _ _ _ _ _ Hi), Hact, Hsl, Hsl'. lia.
Qed.

Lemma on_inactive_ok allowed tm i x :
  xfer_ok allowed tm → tm_heap tm !! i = Some x → x_start x = true → x_active x = true →
  x_removed x = false → ∃ tm', on_inactive tm i = (tm', Ok tt) ∧ xfer_ok allowed tm'.
Proof.
  intros Hok Hi Hs Ha Hr. unfold on_inactive. rewrite Hi, Hs.
  destruct (inactivate_ok None allowed (with_heap tm (<[i := set_inactive x]> (tm_heap tm))))
    as (tm' & Heq & Hok' & _); [|by eauto].
  apply (vacate_slot _ _ _ x); [done|done| | | |done|done|by left].
  - unfold has_slot. by rewrite Hs, Ha, Hr.
  - unfold has_slot. simpl. by rewrite andb_false_r.
  - apply set_inactive_ok; [|done]. by eapply xk_transfer.
Qed.

(** The transfer [i], removed, leaves the map. *)
Lemma forget_ok allowed tm i x :
  xfer_inv 0 (Some i) allowed tm → tm_heap tm !! i = Some x → x_removed x = true →
  xfer_ok allowed (mkTM (tm_concurrencyLimit tm) (tm_activeTransfers tm)
    (delete (x_key x) (tm_transfers tm)) (tm_waiting tm) (tm_heap tm) (tm_next tm)).
Proof.
  intros [Hlim Htr Hfr Hmap Hwait Hord Hact Hb Hfull] Hi Hr.
  split; cbn [tm_concurrencyLimit tm_activeTransfers tm_transfers tm_waiting tm_heap tm_next]; try done.
  intros key j. rewrite lookup_delete_Some, Hmap. split.
  - intros (Hne & y & Hy & Hk & Hyr). exists y. split; [done|]. split; [done|]. left.
    destruct Hyr as [|[= <-]]; [done|]. congruence.
  - intros (y & Hy & Hk & [Hyr|]); [|done]. split; [|by eauto 6].
    intros Heq. assert (Hti : tm_transfers tm !! key = Some i) by (apply Hmap; eauto 6).
    assert (Htj : tm_transfers tm !! key = Some j) by (apply Hmap; eauto 6). congruence.
Qed.

Lemma removed_ok allowed tm i x :
  xfer_ok allowed tm → tm_heap tm !! i = Some x → x_broadcastDone x = true →
  x_removed x = false → x_active x = false →
  xfer_inv 0 (Some i) allowed (with_heap tm (<[i := set_removed x]> (tm_heap tm))).
Proof.
  intros [Hlim Htr Hfr Hmap Hwait Hord Hact Hb Hfull] Hi Hd Hr Ha.
  split; cbn [with_heap tm_concurrencyLimit tm_activeTransfers tm_transfers tm_waiting tm_heap tm_next];
    try done.
  - intros j y. rewrite lookup_insert_Some. intros [[<- <-]|[_ Hj]]; [|by eauto].
    apply set_removed_ok; eauto.
  - intros j. rewrite lookup_insert_is_Some. intros [<-|[_ Hj]]; eauto.
  - intros key j. rewrite Hmap. destruct (decide (i = j)) as [<-|Hne].
    + rewrite lookup_insert_eq, Hi. split; intros (y & [= <-] & Hy & _); eauto 6.
    + rewrite lookup_insert_ne by done.
      split; intros (y & Hy & Hyk & [Hyr|]); simplify_eq; eauto 6.
  - intros j. rewrite Hwait. destruct (decide (i = j)) as [<-|Hne].
    + rewrite lookup_insert_eq, Hi. split; intros (y & [= <-] & Hy); eauto.
    + by rewrite lookup_insert_ne.
  - rewrite (count_insert _ _ _ _ _ Hi), Hact. unfold has_slot. simpl. rewrite Ha.
    rewrite !andb_false_r. simpl. lia.
Qed.

Lemma on_done_ok allowed tm i x :
  xfer_ok allowed tm → tm_heap tm !! i = Some x → x_broadcastDone x = true →
  x_removed x = false → ∃ tm', on_done tm i = (tm', Ok tt) ∧ xfer_ok allowed tm'.
Proof.
  intros Hok Hi Hd Hr. unfold on_done. rewrite Hi. cbn zeta.
  pose proof (xk_transfer _ _ _ _ Hok i x Hi) as Hx.
  assert (Hs : x_start x = true).
  { destruct (x_start x) eqn:Hs; [done|]. destruct (xo_unstarted x Hx Hs) as (_ & _ & ?). congruence. }
  set (tm1 := with_heap tm (<[i := set_removed x]> (tm_heap tm))).
  assert (Hi1 : tm_heap tm1 !! i = Some (set_removed x)) by apply lookup_insert_eq.
  destruct (x_active x) eqn:Ha.
  - destruct (inactivate_ok (Some i) allowed tm1) as (tm' & Heq & Hok' & Htr & _ & Hkeep).
    { apply (vacate_slot _ _ _ x); [done|done| | | |done|done|by right].
      - unfold has_slot. by rewrite Hs, Ha, Hr.
      - unfold has_slot. simpl. by rewrite andb_false_r.
      - by apply set_removed_ok. }
    rewrite Hs, Heq. cbn [and_then]. destruct (Hkeep i _ Hi1) as (x' & Hx' & Hk & Hr').
    eexists. split; [done|]. change (x_key x) with (x_key (set_removed x)). rewrite <- Hk.
    by apply (forget_ok allowed tm' i x').
  - cbn [and_then]. eexists. split; [done|].
    change (x_key x) with (x_key (set_removed x)).
    apply (forget_ok allowed tm1 i); [by apply removed_ok|done|done].
Qed.

Lemma next_ok allowed tm :
  xfer_ok allowed tm →
  xfer_ok allowed (mkTM (tm_concurrencyLimit tm) (tm_activeTransfers tm) (tm_transfers tm)
    (tm_waiting tm) (tm_heap tm) (S (tm_next tm))).
Proof.
  intros [Hlim Htr Hfr Hmap Hwait Hord Hact Hb Hfull]. split; try done.
  intros j Hj. specialize (Hfr j Hj). simpl. lia.
Qed.

(** A new transfer starts if there is room, and waits behind the others if not. *)
Lemma new_transfer_ok allowed tm key (start := bool_decide (tm_concurrencyLimit tm = 0%Z) ||
    bool_decide (tm_activeTransfers tm < tm_concurrencyLimit tm)%Z) :
  xfer_ok allowed tm → tm_transfers tm !! key = None →
  xfer_ok allowed (mkTM (tm_concurrencyLimit tm)
    (if start then tm_activeTransfers tm + 1 else tm_activeTransfers tm)
    (<[key := tm_next tm]> (tm_transfers tm))
    (if start then tm_waiting tm else tm_waiting tm ++ [tm_next tm])
    (<[tm_next tm := Watch (NewTransfer key start) (S (tm_next tm))]> (tm_heap tm))
    (S (S (tm_next tm)))).
Proof.
  intros Hok Hk.
  destruct Hok as [Hlim Htr Hfr Hmap Hwait Hord Hact Hb Hfull].
  assert (Hnone : tm_heap tm !! tm_next tm = None).
  { apply eq_None_not_Some. intros Hs%Hfr. lia. }
  assert (Hnew : start = true → tm_concurrencyLimit tm ≠ 0%Z →
    (tm_activeTransfers tm + 1 ≤ tm_concurrencyLimit tm)%Z).
  { unfold start. rewrite orb_true_iff, !bool_decide_eq_true. lia. }
  assert (Hold : start = false → tm_concurrencyLimit tm ≠ 0%Z ∧
    (tm_concurrencyLimit tm ≤ tm_activeTransfers tm)%Z).
  { unfold start. rewrite orb_false_iff, !bool_decide_eq_false. lia. }
  split; cbn [tm_concurrencyLimit tm_activeTransfers tm_transfers tm_waiting tm_heap tm_next].
  - done.
  - intros j y. rewrite lookup_insert_Some. intros [[<- <-]|[_ Hj]]; [apply NewTransfer_ok|eauto].
  - intros j. rewrite lookup_insert_is_Some. intros [<-|[_ Hj%Hfr]]; lia.
  - intros k j. destruct (decide (tm_next tm = j)) as [<-|Hne].
    + rewrite lookup_insert_eq. split.
      * rewrite lookup_insert_Some. intros [[<- _]|[_ Hc]]; [eexists; split_and!; [done|done|by left]|].
         apply Hmap in Hc as (y & Hy & _). congruence.
      * intros (y & [= <-] & <- & _). simpl. by rewrite lookup_insert_eq.
    + rewrite (lookup_insert_ne (tm_heap tm)) by done. rewrite <- Hmap, lookup_insert_Some.
      split; [by intros [[_ ?]|[_ ?]]|]. intros Hj. right. split; [|done]. intros <-. congruence.
  - intros j. destruct (decide (tm_next tm = j)) as [<-|Hne].
    + rewrite lookup_insert_eq. destruct start; simpl.
      * split; [|by intros (y & [= <-] & ?)]. intros (y & Hy & _)%Hwait. congruence.
      * split; [intros _; by eexists|]. intros _. apply elem_of_app. right. by left.
    + rewrite lookup_insert_ne by done. rewrite <- Hwait. destruct start; [done|].
      rewrite elem_of_app, list_elem_of_singleton. naive_solver.
  - destruct start; [done|]. apply StronglySorted_app. split_and!; [|done|repeat constructor].
    intros j k Hj ->%list_elem_of_singleton. apply Hwait in Hj as (y & Hy & _).
    apply Hfr. by eexists.
  - rewrite count_new by done. unfold has_slot at 2. simpl. destruct start; simpl; lia.
  - intros max H0 Hall. destruct start; [|by apply Hb]. destruct (Hall _ Hlim) as [Hl Hle].
    specialize (Hnew eq_refl Hl). lia.
  - intros Hw min Hall. destruct start; [specialize (Hfull Hw min Hall); lia|].
    destruct (Hold eq_refl) as [Hl Hle]. specialize (Hall _ Hlim Hl). lia.
Qed.

Lemma Transfer_ok allowed tm key :
  xfer_ok allowed tm →
  ∃ tm' e, Transfer tm key = (tm', Ok e) ∧ xfer_ok allowed tm'.
Proof.
  intros Hok. unfold Transfer. destruct (tm_transfers tm !! key) as [i|] eqn:Hk.
  - destruct (proj1 (xk_map _ _ _ _ Hok key i) Hk) as (x & Hx & Hxk & _). rewrite Hx. cbn zeta.
    pose proof (xk_transfer _ _ _ _ Hok i x Hx) as Hxok.
    pose proof (next_ok _ _ Hok) as Hok1. set (tm1 := mkTM _ _ _ _ _ (S (tm_next tm))) in *.
    destruct (x_cancelled (Watch x (tm_next tm))); eexists _, _; (split; [done|]).
    + destruct (Release_fields (Watch x (tm_next tm)) (tm_next tm)) as (H1 & H2 & H3 & H4).
      apply (xfer_ok_update allowed tm1 i x); [done|done|by apply Release_ok, Watch_ok|done..].
    + apply (xfer_ok_update allowed tm1 i x); [done|done|by apply Watch_ok|done..].
  - eexists _, _. split; [done|]. by apply new_transfer_ok.
Qed.

Lemma SetConcurrency_ok allowed tm limit :
  xfer_ok allowed tm → allowed limit → xfer_ok allowed (SetConcurrency tm limit).
Proof. intros [] Hl. by split. Qed.

Lemma xfer_step_ok allowed tm tm' :
  xfer_ok allowed tm → xfer_step allowed tm tm' → xfer_ok allowed tm'.
Proof.
  intros Hok Hstep. pose proof (xk_transfer _ _ _ _ Hok) as Hx.
  destruct Hstep as [tm key tm' o Ht|tm i x Hi|tm i x w Hi Hw|tm i x tm' o Hi Hs Ha Hr Ho
    |tm i x Hi Hs Hb|tm i x tm' o Hi Hb Hr Ho|tm i x x' o Hi Hr Hc Ho|tm limit Hl].
  - destruct (Transfer_ok allowed tm key Hok) as (tm'' & e & Heq & Hok'). congruence.
  - apply (xfer_ok_update _ _ i x (Watch x (tm_next tm)) (next_ok _ _ Hok)); try done.
    by apply Watch_ok, (Hx i).
  - destruct (Release_fields x w) as (H1 & H2 & H3 & H4).
    apply (xfer_ok_update _ _ i x); try done. by apply Release_ok, (Hx i).
  - destruct (on_inactive_ok allowed tm i x Hok Hi Hs Ha Hr) as (tm'' & Heq & Hok'). congruence.
  - apply (xfer_ok_update _ _ i x); try done. apply Broadcast_end_ok; [by apply (Hx i)|done].
  - destruct (on_done_ok allowed tm i x Hok Hi Hb Hr) as (tm'' & Heq & Hok'). congruence.
  - destruct (Close_ok x (Hx i x Hi) Hr Hc) as (x'' & Heq & Hok' & H1 & H2 & H3 & H4).
    rewrite Heq in Ho. injection Ho as <- _. by apply (xfer_ok_update _ _ i x).
  - by apply SetConcurrency_ok.
Qed.

Lemma NewTransferManager_ok allowed limit :
  allowed limit → xfer_ok allowed (NewTransferManager limit).
Proof.
  intros Hl. split; simpl; try done.
  - intros i [x Hx]. by rewrite lookup_empty in Hx.
  - intros key i. rewrite lookup_empty. split; [done|]. intros (x & Hx & _).
    by rewrite lookup_empty in Hx.
  - intros i. split; [by intros ?%not_elem_of_nil|]. intros (x & Hx & _).
    by rewrite lookup_empty in Hx.
  - constructor.
Qed.

(** C27: The transfer manager keeps its limits.  In every interleaving of requests,
    watchers, changes of the limit, and transfers that go inactive, end and are closed,
    whose functions wait for their start: the number of active transfers is exact; it
    is never more than the largest limit the manager was given, when none of them is 0
    (no limit); the transfers that wait are those that were not started, in the order
    in which they came, and while some wait at least as many slots are taken as the
    smallest limit allows (so that, when the limit is never changed, all of them are);
    two transfers that are in progress have different keys; a transfer is released
    when it is closed and nobody watches it, and never before it is closed; and no
    channel is closed twice: none of the manager's steps panics. *)
Theorem transfer_manager_schedules (allowed : Z → Prop) limit tm :
  allowed limit → rtc (xfer_step allowed) (NewTransferManager limit) tm →
  tm_activeTransfers tm = Z.of_nat (count has_slot (tm_heap tm)) ∧
  (∀ max, (0 ≤ max)%Z → (∀ l, allowed l → l ≠ 0%Z ∧ (l ≤ max)%Z) →
     (tm_activeTransfers tm ≤ max)%Z) ∧
  (∀ i, i ∈ tm_waiting tm ↔ ∃ x, tm_heap tm !! i = Some x ∧ x_start x = false) ∧
  StronglySorted lt (tm_waiting tm) ∧
  (tm_waiting tm ≠ [] → ∀ min, (∀ l, allowed l → l ≠ 0%Z → (min ≤ l)%Z) →
     (min ≤ tm_activeTransfers tm)%Z) ∧
  (∀ i j x y, tm_heap tm !! i = Some x → tm_heap tm !! j = Some y →
     x_removed x = false → x_removed y = false → x_key x = x_key y → i = j) ∧
  (∀ i x, tm_heap tm !! i = Some x →
     (x_released x = true → x_closed x = true) ∧
     (x_closed x = true → x_watchers x = ∅ → x_released x = true) ∧
     (x_removed x = true → x_closed x = false → (Close x).2 = Ok tt) ∧
     (x_start x = true → x_active x = true → x_removed x = false → (on_inactive tm i).2 = Ok tt) ∧
     (x_broadcastDone x = true → x_removed x = false → (on_done tm i).2 = Ok tt)) ∧
  (∀ key, ∃ e, (Transfer tm key).2 = Ok e).
Proof.
  intros Hl Hreach.
  pose proof (rtc_invariant _ _ _ _ (xfer_step_ok allowed)
    (NewTransferManager_ok allowed limit Hl) Hreach) as Hok.
  split_and!.
  - rewrite (xk_active _ _ _ _ Hok). lia.
  - apply (xk_bound _ _ _ _ Hok).
  - apply (xk_waiting _ _ _ _ Hok).
  - apply (xk_order _ _ _ _ Hok).
  - apply (xk_full _ _ _ _ Hok).
  - intros i j x y Hi Hj Hrx Hry Hk.
    assert (Hmi : tm_transfers tm !! x_key x = Some i) by (apply (xk_map _ _ _ _ Hok); eauto 6).
    assert (Hmj : tm_transfers tm !! x_key x = Some j) by (apply (xk_map _ _ _ _ Hok); eauto 6).
    congruence.
  - intros i x Hi. pose proof (xk_transfer _ _ _ _ Hok i x Hi) as Hx.
    split_and!; [apply (xo_released x Hx)|apply (xo_last x Hx)| | |].
    + intros Hr Hc. by destruct (Close_ok x Hx Hr Hc) as (x' & -> & _).
    + intros Hs Ha Hr. by destruct (on_inactive_ok allowed tm i x Hok Hi Hs Ha Hr) as (tm' & -> & _).
    + intros Hb Hr. by destruct (on_done_ok allowed tm i x Hok Hi Hb Hr) as (tm' & -> & _).
  - intros key. destruct (Transfer_ok allowed tm key Hok) as (tm' & e & -> & _). by exists e.
Qed.

(** With one slot, the second of two transfers waits. *)
Definition demo_tm : transferManager :=
  (Transfer (Transfer (NewTransferManager 1) "a").1 "b").1.

Lemma transfer_manager_schedules_witness :
  tm_waiting demo_tm = [2] ∧ (1 ≤ tm_activeTransfers demo_tm ≤ 1)%Z ∧
  (on_inactive demo_tm 0).2 = Ok tt.
Proof.
  assert (Hreach : rtc (xfer_step (λ l, l = 1%Z)) (NewTransferManager 1) demo_tm).
  { eapply rtc_l; [eapply (xs_transfer _ _ "a"), surjective_pairing|].
    eapply rtc_l; [eapply (xs_transfer _ _ "b"), surjective_pairing|]. apply rtc_refl. }
  destruct (transfer_manager_schedules _ 1 demo_tm eq_refl Hreach)
    as (_ & Hmax & _ & _ & Hmin & _ & Hx & _).
  split; [vm_compute; reflexivity|]. split; [split|].
  - apply Hmin; [vm_compute; discriminate|]. intros l ->. lia.
  - apply Hmax; [lia|]. intros l ->. lia.
  - destruct (tm_heap demo_tm !! 0) as [x|] eqn:H0; [|vm_compute in H0; discriminate].
    destruct (Hx 0 x H0) as (_ & _ & _ & Hin & _).
    apply Hin; vm_compute in H0; injection H0 as <-; reflexivity.
Defined.

(** A limit that is raised does not start what waits: the next request overtakes it. *)
Lemma raised_limit_is_overtaken :
  let tm := (Transfer (SetConcurrency demo_tm 2) "c").1 in
  tm_waiting tm = [2] ∧ tm_activeTransfers tm = 2%Z.
Proof. vm_compute. done. Qed.

(** The slot of a transfer that ends before it was started is lost: its start
    channel stays in the queue, is closed in its turn, and nobody gives that slot
    back. *)
Lemma unstarted_end_loses_slot :
  let b_done := (on_done demo_tm 2).1 in
  let a_done := (on_done b_done 0).1 in
  tm_activeTransfers a_done = 1%Z ∧ tm_waiting a_done = [] ∧ count has_slot (tm_heap a_done) = 0.
Proof. vm_compute. done. Qed.
