(* ===== verification/MultiReader.v ===== *)
(** * pkg/ioutils: the concatenation of read-seekers

    The model of pkg/ioutils/multireader.go.  A component is a reader over bytes
    in memory (as bytes.Reader is): a read returns what is there, and seeking fails
    only before the start.  Components are known by their index: the map [posIdx]
    gives the index of a component, and 0 for a nil one.  Sizes and offsets are
    those of data in memory, far from the bounds of int64. *)

From S2P Require Import Prelude.
Open Scope Z_scope.

Record reader := mkReader { rd_data : list Z; rd_pos : Z }.

Inductive whence := SEEK_SET | SEEK_CUR | SEEK_END | SEEK_OTHER (n : Z).

(** The [Seek] of a component: the new position is returned, or an error. *)
Definition rd_size (r : reader) : Z := Z.of_nat (length (rd_data r)).
Definition rd_Seek (r : reader) (offset : Z) (w : whence) : reader * (string + Z) :=
  let abs :=
    match w with
    | SEEK_SET => Some offset
    | SEEK_CUR => Some (rd_pos r + offset)
    | SEEK_END => Some (rd_size r + offset)
    | SEEK_OTHER _ => None
    end in
  match abs with
  | None => (r, inl "invalid whence")
  | Some p => if decide (p < 0) then (r, inl "negative position") else (mkReader (rd_data r) p, inr p)
  end.

(** [io.CopyN] from a component: at most [n] bytes. *)
Definition rd_CopyN (r : reader) (n : nat) : reader * list Z :=
  let d := take n (drop (Z.to_nat (rd_pos r)) (rd_data r)) in
  (mkReader (rd_data r) (rd_pos r + Z.of_nat (length d)), d).

Record multiReadSeeker := mkMulti {
  mr_readers : list reader;
  mr_pos : option (nat * Z)
}.

(** [MultiReadSeeker] of at least two readers. *)
Definition MultiReadSeeker (rs : list reader) : multiReadSeeker := mkMulti rs None.

Definition reset (r : reader) : reader := (rd_Seek r 0 SEEK_SET).1.

(** The loop of [Seek] from the start: [before] is the index, [tmp] the sizes that
    were passed. *)
Fixpoint seek_set_loop (rs : list reader) (i : nat) (tmp offset : Z) :
    list reader * (string + (nat * Z) * Z) :=
  match rs with
  | [] => ([], inl "Error seeking")
  | rdr :: rest =>
      let '(rdr, e) := rd_Seek rdr 0 SEEK_END in
      match e with
      | inl e => (rdr :: rest, inl e)
      | inr s =>
          if decide (offset > tmp + s) then
            match rest with
            | [] =>
                let rdrOffset := s + (offset - tmp) in
                let '(rdr, e) := rd_Seek rdr rdrOffset SEEK_SET in
                match e with
                | inl e => ([rdr], inl e)
                | inr _ => ([rdr], inr ((i, rdrOffset), offset))
                end
            | _ =>
                let '(rest, e) := seek_set_loop rest (S i) (tmp + s) offset in
                (rdr :: rest, e)
            end
          else
            let rdrOffset := offset - tmp in
            let rdr := (rd_Seek rdr rdrOffset SEEK_SET).1 in
            let pos :=
              if decide (rdrOffset = s ∧ rest ≠ []) then (S i, 0) else (i, rdrOffset) in
            (rdr :: (reset <$> rest), inr (pos, offset))
      end
  end.

Definition seek_set (r : multiReadSeeker) (offset : Z) : multiReadSeeker * (string + Z) :=
  let '(rs, e) := seek_set_loop (mr_readers r) 0 0 offset in
  match e with
  | inl e => (mkMulti rs (mr_pos r), inl e)
  | inr (pos, off) => (mkMulti rs (Some pos), inr off)
  end.

(** [getReadSeekerSize] leaves the position as it was. *)
Definition getReadSeekerSize (rdr : reader) : Z := rd_size rdr.

Definition total_size (rs : list reader) : Z := foldr (λ r n, rd_size r + n) 0 rs.

(** [getCurOffset]: the sizes before the current reader, and the offset in it. *)
Definition getCurOffset (r : multiReadSeeker) (pos : nat * Z) : Z :=
  total_size (take pos.1 (mr_readers r)) + pos.2.

(** [getOffsetToReader] of the [i]-th reader adds the size of that reader, once for
    each reader before it. *)
Definition getOffsetToReader (r : multiReadSeeker) (i : nat) : Z :=
  match mr_readers r !! i with
  | None => 0
  | Some rdr => Z.of_nat i * getReadSeekerSize rdr
  end.

(** The loop of [getReaderForOffset].  Its variable [rdr] hides the function's
    result, which stays nil: only the offset is computed.  Before the first reader
    [r.readers[i-1]] panics. *)
Fixpoint for_offset_loop (r : multiReadSeeker) (n i : nat) (offset : Z) : outcome string Z :=
  match n with
  | O => Ok 0
  | S n =>
      let offsetTo := getOffsetToReader r i in
      if decide (offsetTo > offset) then
        match i with
        | O => Panic "index out of range"
        | S _ => Ok (offsetTo - offset)
        end
      else if decide (S i = length (mr_readers r)) then Ok (offsetTo + offset)
      else for_offset_loop r n (S i) offset
  end.
Definition getReaderForOffset (r : multiReadSeeker) (offset : Z) : outcome string Z :=
  for_offset_loop r (length (mr_readers r)) 0 offset.

Definition multi_Seek (r : multiReadSeeker) (offset : Z) (w : whence) :
    multiReadSeeker * outcome string Z :=
  let of_sum (x : multiReadSeeker * (string + Z)) :=
    (x.1, match x.2 with inl e => Err e | inr o => Ok o end) in
  match w with
  | SEEK_SET => of_sum (seek_set r offset)
  | SEEK_END =>
      let tmp := total_size (mr_readers r) in
      let r := mkMulti ((λ rdr, (rd_Seek rdr 0 SEEK_END).1) <$> mr_readers r) (mr_pos r) in
      ((seek_set r (tmp + offset)).1, Ok (tmp + offset))
  | SEEK_CUR =>
      match mr_pos r with
      | None => of_sum (seek_set r offset)
      | Some pos =>
          if decide (offset = 0) then (r, Ok (getCurOffset r pos))
          else
            let cur := getCurOffset r pos in
            match getReaderForOffset r (cur + offset) with
            | Ok rdrOffset => (mkMulti (mr_readers r) (Some (0%nat, rdrOffset)), Ok (cur + offset))
            | Err e => (r, Err e)
            | Panic m => (r, Panic m)
            | Diverge => (r, Diverge)
            end
      end
  | SEEK_OTHER _ => (r, Err "Invalid whence")
  end.

(** The loop of [Read] over the readers from the current one on: the bytes, and
    the index and position of the last reader that was used. *)
Fixpoint read_loop (rs : list reader) (i : nat) (bCap : nat) (used : option (nat * Z)) :
    list reader * list Z * option (nat * Z) :=
  match rs with
  | [] => ([], [], used)
  | rdr :: rest =>
      let '(rdr, d) := rd_CopyN rdr bCap in
      let used := Some (i, rd_pos rdr) in
      let bCap := (bCap - length d)%nat in
      if decide (bCap = 0%nat) then (rdr :: rest, d, used)
      else
        let '(rest, d', used) := read_loop rest (S i) bCap used in
        (rdr :: rest, d ++ d', used)
  end.

(** [Read] into a slice of length [len] and capacity [cap].  The result is the
    bytes that were read; [None] is [io.EOF]. *)
Definition multi_Read (r : multiReadSeeker) (len cap : nat) :
    multiReadSeeker * outcome string (option (list Z)) :=
  let pos := default (0%nat, 0) (mr_pos r) in
  let r := mkMulti (mr_readers r) (Some pos) in
  let '(rest, buf, used) := read_loop (drop pos.1 (mr_readers r)) pos.1 cap None in
  let rs := take pos.1 (mr_readers r) ++ rest in
  match used with
  | None => (mkMulti rs (Some pos), Panic "invalid memory address or nil pointer dereference")
  | Some p =>
      (mkMulti rs (Some p),
       Ok (if decide (buf = [] ∧ len ≠ 0%nat) then None else Some (take len buf)))
  end.

(** ** The specification: one reader over the concatenation *)

Definition contents (rs : list reader) : list Z := mjoin (rd_data <$> rs).

(** The multi-reader is at the offset [o] of the concatenation. *)
Record at_offset (r : multiReadSeeker) (ds : list (list Z)) (o : Z) : Prop := {
  ao_data : rd_data <$> mr_readers r = ds;
  ao_pos : ∃ pre rdr post,
    mr_readers r = pre ++ rdr :: post ∧
    default (0%nat, 0) (mr_pos r) = (length pre, rd_pos rdr) ∧
    0 ≤ rd_pos rdr ≤ rd_size rdr ∧
    Forall (λ x, rd_pos x = 0) post ∧
    o = total_size pre + rd_pos rdr
}.

(** The readers [rs], the first of which has the index [i]: the current reader is
    at the index [p.1] with the position [p.2], [o] bytes after the start. *)
Definition placed (rs : list reader) (i : nat) (p : nat * Z) (o : Z) : Prop :=
  ∃ pre rdr post, rs = pre ++ rdr :: post ∧ p = ((i + length pre)%nat, rd_pos rdr) ∧
    0 ≤ rd_pos rdr ≤ rd_size rdr ∧ Forall (λ x, rd_pos x = 0) post ∧
    o = total_size pre + rd_pos rdr.

Lemma placed_cons r rs i p o : placed rs (S i) p o → placed (r :: rs) i p (rd_size r + o).
Proof.
  intros (pre & rdr & post & -> & -> & Hb & Hp & ->). exists (r :: pre), rdr, post.
  split_and!; [done|simpl; f_equal; lia|lia|lia|done|unfold total_size; simpl; lia].
Qed.

Lemma at_offset_placed r ds o :
  at_offset r ds o ↔
  rd_data <$> mr_readers r = ds ∧ placed (mr_readers r) 0 (default (0%nat, 0) (mr_pos r)) o.
Proof.
  split; [by intros [Hd (pre & rdr & post & Hr)]; split; [|exists pre, rdr, post]|].
  intros [Hd (pre & rdr & post & Hr)]. split; [done|by exists pre, rdr, post].
Qed.

Lemma placed_bounds rs i p o : placed rs i p o → 0 ≤ o ≤ total_size rs.
Proof.
  intros (pre & rdr & post & -> & _ & Hb & _ & ->). unfold total_size.
  assert (Hnn : ∀ l n, 0 ≤ n → n ≤ foldr (λ r n, rd_size r + n) n l).
  { intros l n Hn. induction l as [|x l IH]; simpl; [lia|]. unfold rd_size in *. lia. }
  rewrite foldr_app. cbn [foldr].
  assert (Hsplit : ∀ l n, foldr (λ r n, rd_size r + n) n l = foldr (λ r n, rd_size r + n) 0 l + n).
  { induction l as [|x l IH]; intros n; simpl; [lia|]. rewrite IH. lia. }
  rewrite (Hsplit pre (_ + _)). pose proof (Hnn pre 0 ltac:(lia)). pose proof (Hnn post 0 ltac:(lia)). lia.
Qed.

(** ** Reading *)

(** What is left to read. *)
Definition remaining (rs : list reader) : list Z :=
  match rs with
  | [] => []
  | rdr :: post => drop (Z.to_nat (rd_pos rdr)) (rd_data rdr) ++ contents post
  end.

Lemma contents_zero rs : Forall (λ x, rd_pos x = 0) rs → contents rs = remaining rs.
Proof. intros Hz. destruct Hz as [|x l Hx _]; [done|]. simpl. by rewrite Hx. Qed.

Lemma read_loop_cons rdr rest i k u :
  read_loop (rdr :: rest) i k u =
    let d := take k (drop (Z.to_nat (rd_pos rdr)) (rd_data rdr)) in
    let rdr := mkReader (rd_data rdr) (rd_pos rdr + Z.of_nat (length d)) in
    if decide ((k - length d)%nat = 0%nat) then (rdr :: rest, d, Some (i, rd_pos rdr))
    else
      let '(rest, d', used) := read_loop rest (S i) (k - length d) (Some (i, rd_pos rdr)) in
      (rdr :: rest, d ++ d', used).
Proof. done. Qed.

Lemma multi_read_loop_spec rdr post i k u :
  0 ≤ rd_pos rdr ≤ rd_size rdr → Forall (λ x, rd_pos x = 0) post →
  ∃ rs' p, read_loop (rdr :: post) i k u = (rs', take k (remaining (rdr :: post)), Some p) ∧
    rd_data <$> rs' = rd_data <$> rdr :: post ∧
    placed rs' i p (rd_pos rdr + Z.of_nat (length (take k (remaining (rdr :: post))))).
Proof.
  revert rdr i k u. induction post as [|x post IH]; intros rdr i k u Hb Hz; rewrite read_loop_cons; cbn zeta;
    set (d := take k (drop (Z.to_nat (rd_pos rdr)) (rd_data rdr)));
    set (rdr' := mkReader (rd_data rdr) (rd_pos rdr + Z.of_nat (length d)));
    (assert (Hd : Z.of_nat (length d) ≤ rd_size rdr - rd_pos rdr)
       by (unfold d, rd_size in *; rewrite length_take, length_drop; lia));
    (assert (Hb' : 0 ≤ rd_pos rdr' ≤ rd_size rdr') by (unfold rdr', rd_size in *; simpl; lia)).
  - assert (Hrem : take k (remaining [rdr]) = d) by (simpl; by rewrite app_nil_r).
    rewrite Hrem. exists [rdr'], (i, rd_pos rdr'). split_and!.
    + case_decide; [done|]. simpl. by rewrite app_nil_r.
    + done.
    + exists [], rdr', []. split_and!; [done|simpl; f_equal; lia|lia|lia|done|unfold total_size; simpl; lia].
  - set (kd := (k - length d)%nat). case_decide as Hk.
    + assert (Hrem : take k (remaining (rdr :: x :: post)) = d).
      { cbn [remaining]. rewrite take_app_le; [done|]. unfold kd, d in Hk.
        rewrite length_take in Hk. lia. }
      rewrite Hrem. exists (rdr' :: x :: post), (i, rd_pos rdr'). split_and!; [done|done|].
      exists [], rdr', (x :: post). split_and!; [done|simpl; f_equal; lia|lia|lia|done|unfold total_size; simpl; lia].
    + pose proof Hz as [Hx Hz']%Forall_cons.
      assert (Hfull : d = drop (Z.to_nat (rd_pos rdr)) (rd_data rdr)).
      { unfold d in *. rewrite take_ge; [done|]. unfold kd in Hk. rewrite length_take in Hk. lia. }
      assert (Hend : rd_pos rdr' = rd_size rdr).
      { unfold rdr'. simpl. rewrite Hfull, length_drop. unfold rd_size in *. lia. }
      assert (Hrem : take k (remaining (rdr :: x :: post)) = d ++ take kd (remaining (x :: post))).
      { change (remaining (rdr :: x :: post)) with
          (drop (Z.to_nat (rd_pos rdr)) (rd_data rdr) ++ contents (x :: post)).
        rewrite <- Hfull. rewrite <- (contents_zero (x :: post) Hz).
        rewrite take_app_ge by (unfold kd in Hk; lia). done. }
      destruct (IH x (S i) kd (Some (i, rd_pos rdr'))) as (rs' & p & Hl & Hdata & Hp);
        [unfold rd_size; lia|done|].
      fold kd. rewrite Hl, Hrem. exists (rdr' :: rs'), p. split_and!; [done|by simpl; f_equal|].
      apply (placed_cons rdr') in Hp. rewrite length_app.
      replace (rd_pos rdr + Z.of_nat (length d + length (take kd (remaining (x :: post)))))
        with (rd_size rdr' + (rd_pos x + Z.of_nat (length (take kd (remaining (x :: post)))))); [done|].
      unfold rdr', rd_size in *. simpl in *. lia.
Qed.

Lemma join_cons (l : list Z) ls : mjoin (l :: ls) = l ++ mjoin ls.
Proof. done. Qed.

Lemma total_size_contents rs : total_size rs = Z.of_nat (length (contents rs)).
Proof.
  induction rs as [|r rs IH]; [done|]. unfold total_size, contents in *.
  rewrite fmap_cons, join_cons, length_app. cbn [foldr]. rewrite IH. unfold rd_size. lia.
Qed.

Lemma total_size_data rs rs' : rd_data <$> rs = rd_data <$> rs' → total_size rs = total_size rs'.
Proof. intros H. rewrite !total_size_contents. unfold contents. by rewrite H. Qed.

Lemma placed_remaining rs p o :
  placed rs 0 p o → remaining (drop p.1 rs) = drop (Z.to_nat o) (contents rs).
Proof.
  intros (pre & rdr & post & -> & -> & Hb & Hz & ->). cbn [fst]. rewrite Nat.add_0_l, drop_app_length.
  unfold contents. rewrite fmap_app, join_app, fmap_cons, join_cons.
  fold (contents pre). rewrite total_size_contents. cbn [remaining].
  rewrite Z2Nat.inj_add, Nat2Z.id by lia. rewrite <- drop_drop, drop_app_length.
  rewrite drop_app_le; [done|]. unfold rd_size in Hb. lia.
Qed.

Lemma multi_Read_spec r ds o k :
  at_offset r ds o →
  let d := take k (drop (Z.to_nat o) (mjoin ds)) in
  ∃ r', multi_Read r k k = (r', Ok (if decide (d = [] ∧ k ≠ 0%nat) then None else Some d)) ∧
    at_offset r' ds (o + Z.of_nat (length d)).
Proof.
  intros [Hds Hp]%at_offset_placed d. unfold multi_Read. set (pos := default _ _) in *.
  cbn [mr_readers]. pose proof (placed_remaining _ _ _ Hp) as Hrem.
  destruct Hp as (pre & rdr & post & Hrs & Hpos & Hb & Hz & Ho).
  rewrite Hpos in Hrem |- *. cbn [fst] in *. rewrite Nat.add_0_l in *.
  rewrite Hrs, drop_app_length in *. rewrite take_app_length.
  destruct (multi_read_loop_spec rdr post (length pre) k None Hb Hz) as (rs' & p & Hl & Hdata & Hp').
  rewrite Hl, Hrem in *. unfold contents in *. rewrite Hds in *. fold d in Hl, Hp' |- *.
  eexists. split.
  - f_equal. f_equal. destruct (decide (d = [] ∧ k ≠ 0%nat)); [done|]. f_equal.
    apply take_ge. unfold d. rewrite length_take. lia.
  - apply at_offset_placed. cbn [mr_readers mr_pos default]. split.
    + rewrite fmap_app, Hdata, <- fmap_app. done.
    + destruct Hp' as (pre' & rdr' & post' & -> & -> & Hb' & Hz' & Ho').
      exists (pre ++ pre'), rdr', post'. split_and!; [by rewrite <- app_assoc| |lia|lia|done|].
      * rewrite length_app. f_equal. 
      * rewrite !total_size_contents in *. unfold contents in *.
        rewrite fmap_app, join_app, length_app. lia.
Qed.

(** ** Seeking *)

Lemma reset_data (rs : list reader) : rd_data <$> (reset <$> rs) = rd_data <$> rs.
Proof. induction rs as [|r rs IH]; [done|]. rewrite !fmap_cons, IH. done. Qed.

Lemma reset_zero (rs : list reader) : Forall (λ x, rd_pos x = 0) (reset <$> rs).
Proof. induction rs; [done|]. by constructor. Qed.

Lemma rd_Seek_end r : rd_Seek r 0 SEEK_END = (mkReader (rd_data r) (rd_size r), inr (rd_size r)).
Proof. unfold rd_Seek. rewrite decide_False by (unfold rd_size; lia). by rewrite Z.add_0_r. Qed.

Lemma rd_Seek_set r o : 0 ≤ o → rd_Seek r o SEEK_SET = (mkReader (rd_data r) o, inr o).
Proof. intros Ho. unfold rd_Seek. by rewrite decide_False by lia. Qed.

Lemma seek_set_loop_cons rdr rest i tmp offset :
  tmp ≤ offset ≤ tmp + total_size (rdr :: rest) →
  seek_set_loop (rdr :: rest) i tmp offset =
    if decide (offset > tmp + rd_size rdr) then
      let '(rest, e) := seek_set_loop rest (S i) (tmp + rd_size rdr) offset in
      (mkReader (rd_data rdr) (rd_size rdr) :: rest, e)
    else
      (mkReader (rd_data rdr) (offset - tmp) :: (reset <$> rest),
       inr (if decide (offset - tmp = rd_size rdr ∧ rest ≠ []) then (S i, 0) else (i, offset - tmp),
            offset)).
Proof.
  intros Hb. cbn [seek_set_loop]. rewrite rd_Seek_end. case_decide as Hd.
  - destruct rest; [|done]. unfold total_size in Hb. simpl in Hb. lia.
  - by rewrite rd_Seek_set by lia.
Qed.

Lemma seek_set_loop_spec rs i tmp offset :
  rs ≠ [] → tmp ≤ offset ≤ tmp + total_size rs →
  ∃ rs' p, seek_set_loop rs i tmp offset = (rs', inr (p, offset)) ∧
    rd_data <$> rs' = rd_data <$> rs ∧ placed rs' i p (offset - tmp).
Proof.
  revert i tmp. induction rs as [|rdr rest IH]; intros i tmp; [done|]. intros _ Hb.
  rewrite seek_set_loop_cons by done. case_decide as Hd.
  - assert (Hne : rest ≠ []) by (intros ->; unfold total_size in Hb; simpl in Hb; lia).
    destruct (IH (S i) (tmp + rd_size rdr) Hne) as (rs' & p & -> & Hdata & Hp).
    { unfold total_size in *. simpl in Hb. lia. }
    eexists _, p. split; [done|]. split; [by simpl; f_equal|].
    replace (offset - tmp) with (rd_size (mkReader (rd_data rdr) (rd_size rdr)) +
      (offset - (tmp + rd_size rdr))) by (unfold rd_size; simpl; lia).
    by apply placed_cons.
  - eexists _, _. split; [done|]. split; [by simpl; f_equal; apply reset_data|].
    case_decide as He.
    + destruct He as [He Hne]. destruct rest as [|x rest]; [done|].
      exists [mkReader (rd_data rdr) (offset - tmp)], (reset x), (reset <$> rest).
      split_and!; [done|simpl; f_equal; lia|done|unfold rd_size; simpl; lia|apply reset_zero|].
      unfold total_size, rd_size in *. simpl in *. lia.
    + exists [], (mkReader (rd_data rdr) (offset - tmp)), (reset <$> rest).
      split_and!; [done|simpl; f_equal; lia|simpl; lia|unfold rd_size in *; simpl; lia|
        apply reset_zero|simpl; lia].
Qed.

Lemma seek_set_spec r rs0 offset :
  rd_data <$> mr_readers r = rd_data <$> rs0 → rs0 ≠ [] → 0 ≤ offset ≤ total_size rs0 →
  ∃ r', seek_set r offset = (r', inr offset) ∧ at_offset r' (rd_data <$> rs0) offset.
Proof.
  intros Hd Hne Hb. unfold seek_set.
  destruct (seek_set_loop_spec (mr_readers r) 0 0 offset) as (rs' & p & -> & Hd' & Hp).
  - intros Hr. rewrite Hr in Hd. destruct rs0; [done|]. discriminate Hd.
  - rewrite (total_size_data _ _ Hd). lia.
  - eexists. split; [done|]. apply at_offset_placed. cbn [mr_readers mr_pos default].
    rewrite Z.sub_0_r in Hp. split; [congruence|done].
Qed.

(** ** Refinement *)

Inductive mop := ORead (k : nat) | OSeek (offset : Z) (w : whence).

(** The answer of a call: an offset, or what was read. *)
Definition answer : Type := outcome string (Z + option (list Z)).
Definition answer_of {A} (f : A → Z + option (list Z)) (o : outcome string A) : answer :=
  match o with Ok a => Ok (f a) | Err e => Err e | Panic m => Panic m | Diverge => Diverge end.

Definition multi_call (r : multiReadSeeker) (op : mop) : multiReadSeeker * answer :=
  match op with
  | ORead k => let '(r, o) := multi_Read r k k in (r, answer_of inr o)
  | OSeek off w => let '(r, o) := multi_Seek r off w in (r, answer_of inl o)
  end.

(** The same call on one reader of bytes in memory. *)
Definition reader_call (a : reader) (op : mop) : reader * answer :=
  match op with
  | ORead k =>
      let '(a, d) := rd_CopyN a k in
      (a, Ok (inr (if decide (d = [] ∧ k ≠ 0%nat) then None else Some d)))
  | OSeek off w =>
      let '(a, o) := rd_Seek a off w in
      (a, match o with inl e => Err e | inr p => Ok (inl p) end)
  end.

Fixpoint answers {S} (call : S → mop → S * answer) (s : S) (ops : list mop) : list answer :=
  match ops with
  | [] => []
  | op :: ops => let '(s, a) := call s op in a :: answers call s ops
  end.

(** Seeking to a place between the start and the end, or asking where one is. *)
Definition in_range (total : Z) (op : mop) : Prop :=
  match op with
  | ORead _ => True
  | OSeek off SEEK_SET => 0 ≤ off ≤ total
  | OSeek off SEEK_END => - total ≤ off ≤ 0
  | OSeek off SEEK_CUR => off = 0
  | OSeek _ (SEEK_OTHER _) => False
  end.

Lemma getCurOffset_at r ds o : at_offset r ds o → ∀ pos, mr_pos r = Some pos → getCurOffset r pos = o.
Proof.
  intros [_ (pre & rdr & post & Hrs & Hpos & _ & _ & Ho)]%at_offset_placed pos Hp.
  rewrite Hp in Hpos. simpl in Hpos. subst pos. unfold getCurOffset. cbn [fst snd].
  by rewrite Hrs, take_app_length.
Qed.

Lemma multi_call_refines rs0 r o op :
  rs0 ≠ [] → at_offset r (rd_data <$> rs0) o → in_range (total_size rs0) op →
  ∃ r' o', multi_call r op = (r', (reader_call (mkReader (contents rs0) o) op).2) ∧
    (reader_call (mkReader (contents rs0) o) op).1 = mkReader (contents rs0) o' ∧
    at_offset r' (rd_data <$> rs0) o'.
Proof.
  intros Hne Hat Hv.
  assert (Hset : ∀ r off, rd_data <$> mr_readers r = rd_data <$> rs0 → 0 ≤ off ≤ total_size rs0 →
    ∃ r', seek_set r off = (r', inr off) ∧ at_offset r' (rd_data <$> rs0) off)
    by (intros; by apply seek_set_spec).
  pose proof (ao_data _ _ _ Hat) as Hdata. pose proof (total_size_data _ _ Hdata) as Htot.
  destruct op as [k|off w].
  - destruct (multi_Read_spec _ _ _ k Hat) as (r' & Hr & Hat'). unfold multi_call. rewrite Hr.
    exists r'. eexists. split; [done|]. split; [done|]. exact Hat'.
  - destruct w as [| | |n]; simpl in Hv; [| | |done].
    + destruct (Hset r off Hdata Hv) as (r' & Hs & Hat'). exists r', off.
      unfold multi_call, multi_Seek, reader_call. rewrite Hs, rd_Seek_set by lia. done.
    + subst off. unfold multi_call, multi_Seek, reader_call, rd_Seek. cbn [rd_pos].
      apply at_offset_placed in Hat as Hp. destruct Hp as [_ Hp]. pose proof (placed_bounds _ _ _ _ Hp).
      rewrite Z.add_0_r, decide_False by lia. destruct (mr_pos r) as [pos|] eqn:Hpos.
      * rewrite decide_True by done. rewrite (getCurOffset_at _ _ _ Hat _ Hpos). eauto.
      * assert (Ho : o = 0).
        { destruct Hp as (pre & rdr & post & _ & Hd & _ & _ & ->). simpl in Hd.
          injection Hd as Hl Hp0. destruct pre; [|done]. rewrite <- Hp0. done. }
        destruct (Hset r 0 Hdata) as (r' & Hs & Hat'); [lia|]. rewrite Hs, Ho. eauto.
    + unfold multi_call, multi_Seek, reader_call. rewrite Htot.
      destruct (Hset (mkMulti ((λ rdr, (rd_Seek rdr 0 SEEK_END).1) <$> mr_readers r) (mr_pos r))
        (total_size rs0 + off)) as (r' & Hs & Hat'); [|lia|].
      { cbn [mr_readers]. rewrite <- Hdata, <- list_fmap_compose. apply list_fmap_ext.
        intros i x _. simpl. by rewrite rd_Seek_end. }
      exists r', (total_size rs0 + off). rewrite Hs. cbn [fst].
      unfold rd_Seek, rd_size. cbn [rd_data]. rewrite <- total_size_contents.
      rewrite decide_False by lia. done.
Qed.

(** C25: A multi-reader over at least one component, all at their start, behaves as
    one reader over the concatenation of the components: every sequence of reads into
    slices without spare capacity, seeks from the start and from the end that stay
    inside, and queries of the current offset gives the same answers. *)
Theorem multi_reader_refines_concatenation rs ops :
  rs ≠ [] → Forall (λ r, rd_pos r = 0) rs → Forall (in_range (total_size rs)) ops →
  answers multi_call (MultiReadSeeker rs) ops =
    answers reader_call (mkReader (contents rs) 0) ops.
Proof.
  intros Hne Hz.
  assert (Hat : at_offset (MultiReadSeeker rs) (rd_data <$> rs) 0).
  { apply at_offset_placed. split; [done|]. destruct Hz as [|x l Hx Hl]; [done|].
    exists [], x, l. simpl. rewrite Hx. split_and!; [done|done|done|unfold rd_size; lia|done|done]. }
  clear Hz. revert Hat. generalize 0. generalize (MultiReadSeeker rs).
  induction ops as [|op ops IH]; intros r o Hat Hops; [done|].
  apply Forall_cons in Hops as [Hop Hops]. cbn [answers].
  destruct (multi_call_refines rs r o op Hne Hat Hop) as (r' & o' & Hm & Ha & Hat').
  rewrite Hm. destruct (reader_call _ op) as [a' ans]. cbn [fst snd] in *. subst a'.
  f_equal. by apply IH.
Qed.

(** ** Where it does not *)

Definition abc : list reader := [mkReader [1; 2; 3] 0; mkReader [4; 5; 6] 0].

Lemma multi_reader_refines_concatenation_witness :
  answers multi_call (MultiReadSeeker abc)
    [ORead 4; OSeek 0 SEEK_CUR; OSeek (-5) SEEK_END; ORead 3; OSeek 3 SEEK_SET; ORead 9; ORead 1] =
  [Ok (inr (Some [1; 2; 3; 4])); Ok (inl 4); Ok (inl 1); Ok (inr (Some [2; 3; 4])); Ok (inl 3);
   Ok (inr (Some [4; 5; 6])); Ok (inr None)].
Proof.
  rewrite (multi_reader_refines_concatenation abc).
  - vm_compute. reflexivity.
  - done.
  - repeat constructor.
  - repeat constructor; vm_compute; congruence.
Defined.

(** A relative seek returns the offset it was asked for, but the next read goes on
    where it was: after two bytes and a seek by one, the third byte is read, where
    the concatenation gives the fourth. *)
Lemma relative_seek_is_lost :
  answers multi_call (MultiReadSeeker abc) [ORead 2; OSeek 1 SEEK_CUR; ORead 1] =
    [Ok (inr (Some [1; 2])); Ok (inl 3); Ok (inr (Some [3]))] ∧
  answers reader_call (mkReader (contents abc) 0) [ORead 2; OSeek 1 SEEK_CUR; ORead 1] =
    [Ok (inr (Some [1; 2])); Ok (inl 3); Ok (inr (Some [4]))].
Proof. split; vm_compute; reflexivity. Qed.

(** A seek before the start succeeds. *)
Lemma negative_seek_succeeds : (multi_Seek (MultiReadSeeker abc) (-1) SEEK_SET).2 = Ok (-1).
Proof. vm_compute. reflexivity. Qed.

(** A read into a slice with spare capacity loses the bytes that do not fit its
    length. *)
Lemma spare_capacity_loses_bytes :
  let '(r, a) := multi_Read (MultiReadSeeker abc) 1 3 in
  a = Ok (Some [1]) ∧ (multi_Read r 1 1).2 = Ok (Some [4]).
Proof. vm_compute. by split. Qed.
