(* ===== verification/TailFile.v ===== *)
(** * pkg/tailfile: the last lines of a file

    The model of pkg/tailfile/tailfile.go over a reader in memory.  The file is
    read backwards in blocks until enough line ends were seen; what comes after the
    last line end is not a line. *)

From S2P Require Import Prelude MultiReader.
Open Scope Z_scope.

Definition blockSize : Z := 1024.
Definition eol : Z := 10.

(** [f.Read(b)] with a fresh slice of [n] bytes: what was not read stays 0. *)
Definition rd_Read (f : reader) (n : Z) : reader * outcome string (list Z) :=
  let '(f', d) := rd_CopyN f (Z.to_nat n) in
  if decide (0 < n ∧ d = []) then (f, Err "EOF")
  else (f', Ok (d ++ replicate (Z.to_nat n - length d) 0)).

(** A [Seek] whose position is not used. *)
Definition seek (f : reader) (offset : Z) (w : whence) : reader * outcome string Z :=
  match rd_Seek f offset w with
  | (f, inl e) => (f, Err e)
  | (f, inr p) => (f, Ok p)
  end.

(** [bytes.Count] and [bytes.Split] for the separator [eol]. *)
Fixpoint Count (b : list Z) : Z :=
  match b with
  | [] => 0
  | c :: b => (if decide (c = eol) then 1 else 0) + Count b
  end.

Fixpoint SplitLines (b : list Z) : list (list Z) :=
  match b with
  | [] => [[]]
  | c :: b =>
      match SplitLines b with
      | [] => [[]]
      | l :: ls => if decide (c = eol) then [] :: l :: ls else (c :: l) :: ls
      end
  end.

(** The loop over the blocks, [block] counting down from -1. *)
Fixpoint tail_loop (fuel : nat) (f : reader) (size n block : Z) (data : list Z) (cnt : Z) :
    reader * outcome string (list Z) :=
  match fuel with
  | O => (f, Diverge)
  | S fuel =>
      let step := block * blockSize in
      let rest := size + step in
      if decide (rest < 0) then
        let! (f, _) := seek f 0 SEEK_SET in
        let! (f, b) := rd_Read f (blockSize + rest) in
        (f, Ok (b ++ data))
      else
        let! (f, _) := seek f step SEEK_END in
        let! (f, b) := rd_Read f blockSize in
        let data := b ++ data in
        let cnt := cnt + Count b in
        if decide (cnt > n) then (f, Ok data)
        else tail_loop fuel f size n (block - 1) data cnt
  end.

(** The lines that are kept; the slice expressions panic out of range. *)
Definition slice_lines (lines : list (list Z)) (lo hi : Z) : outcome string (list (list Z)) :=
  if decide (0 ≤ lo ≤ hi ∧ hi ≤ Z.of_nat (length lines)) then
    Ok (take (Z.to_nat (hi - lo)) (drop (Z.to_nat lo) lines))
  else Panic "slice bounds out of range".

(** There are fewer than [size / blockSize + 2] blocks. *)
Definition TailFile (f : reader) (n : Z) : reader * outcome string (list (list Z)) :=
  if decide (n ≤ 0) then
    (f, Err "The number of lines to extract from the file must be positive")
  else
    let! (f, size) := seek f 0 SEEK_END in
    let! (f, data) := tail_loop (S (S (Z.to_nat (size / blockSize)))) f size n (-1) [] 0 in
    let lines := SplitLines data in
    let len := Z.of_nat (length lines) in
    (f, if decide (n < len) then slice_lines lines (len - n - 1) (len - 1)
        else slice_lines lines 0 (len - 1)).

(** ** The reference: the last [n] of the lines that a line end ends *)

Fixpoint complete_lines (b : list Z) : list (list Z) :=
  match b with
  | [] => []
  | c :: b =>
      if decide (c = eol) then [] :: complete_lines b
      else match complete_lines b with
           | [] => []
           | l :: ls => (c :: l) :: ls
           end
  end.

Definition last_lines {A} (n : Z) (ls : list A) : list A := drop (length ls - Z.to_nat n) ls.

(** ** Lines *)

Lemma SplitLines_spec b : ∃ partial, SplitLines b = complete_lines b ++ [partial].
Proof.
  induction b as [|c b [p IH]]; simpl; [by exists []|]. rewrite IH.
  destruct (complete_lines b) as [|l ls]; simpl; case_decide; eexists; done.
Qed.

Lemma Count_lines b : Count b = Z.of_nat (length (complete_lines b)).
Proof.
  induction b as [|c b IH]; simpl; [done|]. rewrite IH.
  case_decide; simpl; [lia|]. by destruct (complete_lines b).
Qed.

Lemma Count_app b1 b2 : Count (b1 ++ b2) = Count b1 + Count b2.
Proof. induction b1 as [|c b1 IH]; simpl; [done|]. rewrite IH. lia. Qed.

Lemma Count_nonneg b : 0 ≤ Count b.
Proof. rewrite Count_lines. lia. Qed.

(** The lines of a suffix, less the first one, are lines of the whole. *)
Lemma complete_lines_suffix pre suf :
  ∃ ls, complete_lines (pre ++ suf) = ls ++ drop 1 (complete_lines suf).
Proof.
  induction pre as [|c pre [ls IH]]; simpl.
  - destruct (complete_lines suf) as [|l t]; [by exists []|]. by exists [l].
  - case_decide; [exists ([] :: ls); by rewrite IH|].
    rewrite IH. destruct ls as [|l ls]; [|by exists ((c :: l) :: ls)]. simpl.
    destruct (complete_lines suf) as [|l [|l2 t]] eqn:E; simpl; [by exists []| by exists [] |].
    (* the whole has at least as many lines as the suffix *)
    exfalso. assert (Hc := Count_app pre suf).
    rewrite !Count_lines, IH, E in Hc. simpl in Hc. lia.
Qed.

(** ** The blocks *)

Lemma rd_Read_full d p n :
  0 ≤ p → 0 ≤ n → p + n ≤ Z.of_nat (length d) →
  ∃ p', rd_Read (mkReader d p) n = (mkReader d p', Ok (take (Z.to_nat n) (drop (Z.to_nat p) d))).
Proof.
  intros Hp Hn Hlen. unfold rd_Read, rd_CopyN. simpl.
  assert (length (take (Z.to_nat n) (drop (Z.to_nat p) d)) = Z.to_nat n) as Hl
    by (rewrite length_take, length_drop; lia).
  rewrite decide_False; [|intros [? H0]; rewrite H0 in Hl; simpl in Hl; lia].
  rewrite Hl, Nat.sub_diag. simpl. rewrite app_nil_r. by eexists.
Qed.

Lemma block_app (d : list Z) (a n : nat) :
  take n (drop a d) ++ drop (a + n) d = drop a d.
Proof. rewrite <- (drop_drop d). apply take_drop. Qed.

(** With the last [j] blocks read, the loop ends with a suffix of the file that is
    the whole file or has more than [n] line ends. *)
Lemma tail_loop_spec fuel d p n j :
  0 ≤ j → j * blockSize ≤ Z.of_nat (length d) →
  Z.of_nat (length d) < (j + Z.of_nat fuel - 1) * blockSize →
  ∃ p' a,
    tail_loop fuel (mkReader d p) (Z.of_nat (length d)) n (- (j + 1))
      (drop (Z.to_nat (Z.of_nat (length d) - j * blockSize)) d)
      (Count (drop (Z.to_nat (Z.of_nat (length d) - j * blockSize)) d)) =
      (mkReader d p', Ok (drop a d)) ∧
    (a = 0%nat ∨ n < Count (drop a d)).
Proof.
  unfold blockSize. revert p j.
  induction fuel as [|fuel IH]; intros p j Hj Hle Hf; [lia|].
  cbn [tail_loop]. unfold blockSize. case_decide as Hr.
  - unfold seek, rd_Seek. simpl.
    destruct (rd_Read_full d 0 (1024 + (Z.of_nat (length d) + - (j + 1) * 1024))) as [p' Hread];
      [lia..|].
    rewrite Hread. simpl. exists p', 0%nat. split; [|by left].
    do 2 f_equal.
    replace (Z.to_nat (Z.of_nat (length d) - j * 1024))
      with (0 + Z.to_nat (1024 + (Z.of_nat (length d) + - (j + 1) * 1024)))%nat by lia.
    apply (block_app d 0).
  - unfold seek, rd_Seek, rd_size. simpl. rewrite decide_False by lia. simpl.
    set (a := Z.to_nat (Z.of_nat (length d) + - (j + 1) * 1024)).
    destruct (rd_Read_full d (Z.of_nat (length d) + - (j + 1) * 1024) 1024) as [p' Hread]; [lia..|].
    rewrite Hread. fold a. cbv iota beta delta [and_then].
    assert (take (Z.to_nat 1024) (drop a d) ++ drop (Z.to_nat (Z.of_nat (length d) - j * 1024)) d
            = drop a d) as Hb.
    { replace (Z.to_nat (Z.of_nat (length d) - j * 1024)) with (a + Z.to_nat 1024)%nat
        by (unfold a; lia). apply block_app. }
    rewrite Z.add_comm, <- Count_app, Hb. case_decide.
    + exists p', a. split; [done|right; lia].
    + replace a with (Z.to_nat (Z.of_nat (length d) - (j + 1) * 1024)) by (unfold a; lia).
      replace (- (j + 1) - 1) with (- (j + 1 + 1)) by lia.
      apply IH; lia.
Qed.

Lemma last_lines_all {A} n (ls : list A) : Z.of_nat (length ls) ≤ n → last_lines n ls = ls.
Proof. intros. unfold last_lines. replace (_ - _)%nat with 0%nat by lia. done. Qed.

Lemma last_lines_app {A} n (l1 l2 : list A) :
  0 ≤ n ≤ Z.of_nat (length l2) → last_lines n (l1 ++ l2) = last_lines n l2.
Proof.
  intros. unfold last_lines. rewrite length_app.
  replace (length l1 + length l2 - Z.to_nat n)%nat
    with (length l1 + (length l2 - Z.to_nat n))%nat by lia.
  by rewrite <- drop_drop, drop_app_length.
Qed.

(** What the code keeps of the pieces of a suffix. *)
Lemma slice_last n data :
  0 < n →
  let lines := SplitLines data in
  let len := Z.of_nat (length lines) in
  (if decide (n < len) then slice_lines lines (len - n - 1) (len - 1)
   else slice_lines lines 0 (len - 1)) = Ok (last_lines n (complete_lines data)).
Proof.
  intros Hn. cbv zeta. destruct (SplitLines_spec data) as [p ->].
  rewrite length_app. cbn [length]. unfold slice_lines, last_lines.
  case_decide; rewrite decide_True by (rewrite length_app; simpl; lia); f_equal.
  - rewrite drop_app_le by lia. rewrite take_app_le by (rewrite length_drop; lia).
    rewrite take_ge by (rewrite length_drop; lia). f_equal. lia.
  - rewrite drop_0, take_app_le by lia. rewrite take_ge by lia.
    by replace (_ - _)%nat with 0%nat by lia.
Qed.

(** C28: For every file and every positive [n], TailFile returns the last [n] of the
    lines that end with a line end (all of them if there are fewer), in order,
    although it only reads blocks from the end; the loop always ends, no read fails
    and no slice is out of range. *)
Theorem TailFile_last_lines d p n :
  0 < n → (TailFile (mkReader d p) n).2 = Ok (last_lines n (complete_lines d)).
Proof.
  intros Hn. unfold TailFile. rewrite decide_False by lia.
  unfold seek, rd_Seek, rd_size. cbn [rd_data rd_pos]. rewrite decide_False by lia.
  cbv beta iota delta [and_then]. rewrite Z.add_0_r.
  destruct (tail_loop_spec (S (S (Z.to_nat (Z.of_nat (length d) / blockSize)))) d
    (Z.of_nat (length d)) n 0) as (p' & a & Hloop & Ha).
  - done.
  - lia.
  - unfold blockSize. pose proof (Z.mod_pos_bound (Z.of_nat (length d)) 1024 eq_refl).
    pose proof (Z.div_mod (Z.of_nat (length d)) 1024). lia.
  - replace (drop (Z.to_nat (Z.of_nat (length d) - 0 * blockSize)) d) with (@nil Z) in Hloop
      by (symmetry; apply drop_ge; lia).
    simpl Count in Hloop. change (- (0 + 1)) with (-1) in Hloop. rewrite Hloop.
    cbn [snd]. rewrite slice_last by done. f_equal.
    destruct Ha as [->|Ha]; [done|].
    destruct (complete_lines_suffix (take a d) (drop a d)) as [ls Hls].
    rewrite take_drop in Hls. rewrite Hls. rewrite Count_lines in Ha. clear Hls.
    destruct (complete_lines (drop a d)) as [|l t]; simpl in Ha; [lia|].
    cbn [drop]. rewrite drop_0, (last_lines_app n ls) by lia. apply (last_lines_app n [l]). lia.
Qed.

Example TailFile_last_lines_witness :
  (TailFile (mkReader [97; 10; 98; 10; 10; 99; 100] 0) 2).2 = Ok [[98]; []].
Proof. apply (TailFile_last_lines [97; 10; 98; 10; 10; 99; 100] 0 2). lia. Defined.
