(* ===== verification/ShellWord.v ===== *)
(** * builder/dockerfile: words with quotes and variables

    The model of builder/dockerfile/shell_parser.go.  A string is the list of its
    code points (runes), as the scanner delivers them; what the scanner has not read
    yet is the list of the remaining ones.  The letters and digits outside of ASCII
    are tables of package unicode, the class [UnicodeTables]. *)

From S2P Require Import Prelude.
Open Scope Z_scope.

Abbreviation rune := Z (only parsing).
Abbreviation runes := (list Z) (only parsing).

Class UnicodeTables := { table_letter : rune → bool; table_digit : rune → bool }.

Definition between (lo hi c : rune) : bool := bool_decide (lo ≤ c ≤ hi).
Definition IsDigit `{UnicodeTables} (c : rune) : bool :=
  if decide (c < 128) then between 48 57 c else table_digit c.
Definition IsLetter `{UnicodeTables} (c : rune) : bool :=
  if decide (c < 128) then between 65 90 c || between 97 122 c else table_letter c.
(** The property White_Space of Unicode. *)
Definition IsSpace (c : rune) : bool :=
  between 9 13 c || bool_decide (c ∈ [32; 133; 160; 5760; 8232; 8233; 8239; 8287; 12288])
  || between 8192 8202 c.

Definition backslash : rune := 92.
Definition single_quote : rune := 39.
Definition double_quote : rune := 34.
Definition dollar : rune := 36.
Definition lbrace : rune := 123.
Definition rbrace : rune := 125.
Definition colon : rune := 58.
Definition plus : rune := 43.
Definition minus : rune := 45.
Definition equals : rune := 61.
Definition underscore : rune := 95.
Definition BOM : rune := 65279.

(** [scanner.Init]: a byte order mark at the start is not read. *)
Definition scanner_Init (word : runes) : runes :=
  match word with
  | c :: rest => if decide (c = BOM) then rest else word
  | [] => []
  end.

Inductive sw_error :=
| MissingColon (word : runes)
| UnsupportedModifier (modifier : option rune) (word : runes).

#[global] Instance sw_error_eq_dec : EqDecision sw_error.
Proof. solve_decision. Defined.

(** ** The words split at spaces *)

Record wordsStruct := mkWords { ws_word : runes; ws_words : list runes; ws_inWord : bool }.

Definition addRawString (w : wordsStruct) (str : runes) : wordsStruct :=
  mkWords (ws_word w ++ str) (ws_words w) true.
Definition addRawChar (w : wordsStruct) (ch : rune) : wordsStruct :=
  mkWords (ws_word w ++ [ch]) (ws_words w) true.
Definition addChar (w : wordsStruct) (ch : rune) : wordsStruct :=
  if IsSpace ch && ws_inWord w then
    if decide (length (ws_word w) ≠ 0%nat) then mkWords [] (ws_words w ++ [ws_word w]) false else w
  else if negb (IsSpace ch) then addRawChar w ch else w.
Definition addString (w : wordsStruct) (str : runes) : wordsStruct :=
  foldl addChar w (scanner_Init str).
Definition getWords (w : wordsStruct) : list runes :=
  if decide (length (ws_word w) ≠ 0%nat) then ws_words w ++ [ws_word w] else ws_words w.

(** ** Variables *)

(** [strings.Index(env, "=")] as the parts before and after it. *)
Fixpoint cut_equals (env : runes) : option (runes * runes) :=
  match env with
  | [] => None
  | c :: rest =>
      if decide (c = equals) then Some ([], rest)
      else match cut_equals rest with
           | Some (k, v) => Some (c :: k, v)
           | None => None
           end
  end.

Fixpoint getEnv (envs : list runes) (name : runes) : runes :=
  match envs with
  | [] => []
  | env :: envs =>
      match cut_equals env with
      | None => if decide (name = env) then [] else getEnv envs name
      | Some (k, v) => if decide (name = k) then v else getEnv envs name
      end
  end.

Section shell_word.
Context `{UnicodeTables} (sw_word : runes) (envs : list runes).

(** [processName] with the name read so far: what is not read, and the name. *)
Fixpoint processName (name rest : runes) : runes * runes :=
  match rest with
  | [] => ([], name)
  | ch :: rest' =>
      if bool_decide (length name = 0%nat) && IsDigit ch then (rest', [ch])
      else if negb (IsLetter ch) && negb (IsDigit ch) && negb (bool_decide (ch = underscore)) then
        (rest, name)
      else processName (name ++ [ch]) rest'
  end.

(** The loop of [processSingleQuote], after the opening quote. *)
Fixpoint single_loop (result rest : runes) : runes * runes :=
  match rest with
  | [] => ([], result)
  | ch :: rest => if decide (ch = single_quote) then (rest, result)
                  else single_loop (result ++ [ch]) rest
  end.
Definition processSingleQuote (rest : runes) : runes * runes := single_loop [] (drop 1 rest).

(** What a modifier makes of the value of the variable. *)
Definition apply_modifier (modifier : option rune) (newValue word : runes) :
    outcome sw_error runes :=
  if decide (modifier = Some plus) then Ok (if decide (newValue ≠ []) then word else newValue)
  else if decide (modifier = Some minus) then Ok (if decide (newValue = []) then word else newValue)
  else Err (UnsupportedModifier modifier sw_word).

(** [stop_loop] is the loop of [processStopOn], [dq_loop] that of
    [processDoubleQuote] after the opening quote; [stopChar] is [None] for EOF. *)
Fixpoint stop_loop (fuel : nat) (stopChar : option rune) (rest : runes) (result : runes)
    (words : wordsStruct) : runes * outcome sw_error (runes * list runes) :=
  match fuel with
  | O => (rest, Diverge)
  | S fuel =>
      match rest with
      | [] => ([], Ok (result, getWords words))
      | ch :: rest' =>
          if decide (stopChar = Some ch) then (rest', Ok (result, getWords words))
          else if decide (ch = single_quote) then
            let '(rest, tmp) := processSingleQuote rest in
            stop_loop fuel stopChar rest (result ++ tmp) (addRawString words tmp)
          else if decide (ch = double_quote) then
            let! (rest, tmp) := dq_loop fuel rest' [] in
            stop_loop fuel stopChar rest (result ++ tmp) (addRawString words tmp)
          else if decide (ch = dollar) then
            let! (rest, tmp) := processDollar fuel rest in
            stop_loop fuel stopChar rest (result ++ tmp) (addString words tmp)
          else if decide (ch = backslash) then
            match rest' with
            | [] => ([], Ok (result, getWords words))
            | ch :: rest => stop_loop fuel stopChar rest (result ++ [ch]) (addRawChar words ch)
            end
          else stop_loop fuel stopChar rest' (result ++ [ch]) (addChar words ch)
      end
  end
with dq_loop (fuel : nat) (rest : runes) (result : runes) : runes * outcome sw_error runes :=
  match fuel with
  | O => (rest, Diverge)
  | S fuel =>
      match rest with
      | [] => ([], Ok result)
      | ch :: rest' =>
          if decide (ch = double_quote) then (rest', Ok result)
          else if decide (ch = dollar) then
            let! (rest, tmp) := processDollar fuel rest in
            dq_loop fuel rest (result ++ tmp)
          else if decide (ch = backslash) then
            match rest' with
            | [] => dq_loop fuel [] result
            | chNext :: rest'' =>
                if decide (chNext = double_quote ∨ chNext = dollar) then
                  dq_loop fuel rest'' (result ++ [chNext])
                else dq_loop fuel rest' (result ++ [ch])
            end
          else dq_loop fuel rest' (result ++ [ch])
      end
  end
with processDollar (fuel : nat) (rest : runes) : runes * outcome sw_error runes :=
  match fuel with
  | O => (rest, Diverge)
  | S fuel =>
      let rest := drop 1 rest in
      if decide (head rest = Some lbrace) then
        let '(rest, name) := processName [] (drop 1 rest) in
        if decide (head rest = Some rbrace) then (drop 1 rest, Ok (getEnv envs name))
        else if decide (head rest = Some colon) then
          let rest := drop 1 rest in
          let modifier := head rest in
          let! (rest, word) := stop_loop fuel (Some rbrace) (drop 1 rest) [] (mkWords [] [] false) in
          (rest, apply_modifier modifier (getEnv envs name) word.1)
        else (rest, Err (MissingColon sw_word))
      else
        let '(rest, name) := processName [] rest in
        if decide (name = []) then (rest, Ok [dollar]) else (rest, Ok (getEnv envs name))
  end.

(** Every iteration reads at least one rune, so that one unit of fuel per rune and
    one for the end are enough. *)
Definition process : outcome sw_error (runes * list runes) :=
  let rest := scanner_Init sw_word in
  (stop_loop (S (length rest)) None rest [] (mkWords [] [] false)).2.
End shell_word.

Definition ProcessWord `{UnicodeTables} (word : runes) (env : list runes) : outcome sw_error runes :=
  match process word env with
  | Ok (w, _) => Ok w
  | Err e => Err e
  | Panic m => Panic m
  | Diverge => Diverge
  end.

Definition ProcessWords `{UnicodeTables} (word : runes) (env : list runes) :
    outcome sw_error (list runes) :=
  match process word env with
  | Ok (_, ws) => Ok ws
  | Err e => Err e
  | Panic m => Panic m
  | Diverge => Diverge
  end.
