(* ===== verification/ShellWordInv.v ===== *)
(** * builder/dockerfile: what the processing of words guarantees

    The loops end on every input, and on the text of the words of a grammar they
    compute the words' value and fields. *)

From S2P Require Import Prelude ShellWord.
Open Scope Z_scope.

(** ** The equations of the loops *)

Section shell_word_equations.
Context `{UnicodeTables} (sw_word : runes) (envs : list runes).

Lemma stop_loop_nil fuel stop result words :
  stop_loop sw_word envs (S fuel) stop [] result words = ([], Ok (result, getWords words)).
Proof. done. Qed.

Lemma stop_loop_cons fuel stop ch rest result words :
  stop_loop sw_word envs (S fuel) stop (ch :: rest) result words =
    if decide (stop = Some ch) then (rest, Ok (result, getWords words))
    else if decide (ch = single_quote) then
      let '(rest, tmp) := single_loop [] rest in
      stop_loop sw_word envs fuel stop rest (result ++ tmp) (addRawString words tmp)
    else if decide (ch = double_quote) then
      let! (rest, tmp) := dq_loop sw_word envs fuel rest [] in
      stop_loop sw_word envs fuel stop rest (result ++ tmp) (addRawString words tmp)
    else if decide (ch = dollar) then
      let! (rest, tmp) := processDollar sw_word envs fuel (ch :: rest) in
      stop_loop sw_word envs fuel stop rest (result ++ tmp) (addString words tmp)
    else if decide (ch = backslash) then
      match rest with
      | [] => ([], Ok (result, getWords words))
      | ch :: rest =>
          stop_loop sw_word envs fuel stop rest (result ++ [ch]) (addRawChar words ch)
      end
    else stop_loop sw_word envs fuel stop rest (result ++ [ch]) (addChar words ch).
Proof. unfold processSingleQuote. simpl. by rewrite ?drop_0. Qed.

Lemma dq_loop_nil fuel result : dq_loop sw_word envs (S fuel) [] result = ([], Ok result).
Proof. done. Qed.

Lemma dq_loop_cons fuel ch rest result :
  dq_loop sw_word envs (S fuel) (ch :: rest) result =
    if decide (ch = double_quote) then (rest, Ok result)
    else if decide (ch = dollar) then
      let! (rest, tmp) := processDollar sw_word envs fuel (ch :: rest) in
      dq_loop sw_word envs fuel rest (result ++ tmp)
    else if decide (ch = backslash) then
      match rest with
      | [] => dq_loop sw_word envs fuel [] result
      | chNext :: rest' =>
          if decide (chNext = double_quote ∨ chNext = dollar) then
            dq_loop sw_word envs fuel rest' (result ++ [chNext])
          else dq_loop sw_word envs fuel rest (result ++ [ch])
      end
    else dq_loop sw_word envs fuel rest (result ++ [ch]).
Proof. done. Qed.

Lemma processDollar_brace fuel rest :
  processDollar sw_word envs (S fuel) (dollar :: lbrace :: rest) =
    let '(rest, name) := processName [] rest in
    if decide (head rest = Some rbrace) then (drop 1 rest, Ok (getEnv envs name))
    else if decide (head rest = Some colon) then
      let! (rest', word) :=
        stop_loop sw_word envs fuel (Some rbrace) (drop 2 rest) [] (mkWords [] [] false) in
      (rest', apply_modifier sw_word (head (drop 1 rest)) (getEnv envs name) word.1)
    else (rest, Err (MissingColon sw_word)).
Proof.
  simpl. rewrite ?drop_0. destruct (processName [] rest) as [rest1 name].
  repeat case_decide; try done. by rewrite drop_drop.
Qed.

Lemma processDollar_bare fuel rest :
  head rest ≠ Some lbrace →
  processDollar sw_word envs (S fuel) (dollar :: rest) =
    let '(rest, name) := processName [] rest in
    (rest, Ok (if decide (name = []) then [dollar] else getEnv envs name)).
Proof.
  intros Hb. simpl. rewrite ?drop_0, decide_False by done.
  destruct (processName [] rest). by case_decide.
Qed.
End shell_word_equations.

(** ** Termination *)

Definition error_word (e : sw_error) : runes :=
  match e with MissingColon w | UnsupportedModifier _ w => w end.

Section shell_word_total.
Context `{UnicodeTables} (sw_word : runes) (envs : list runes).

(** A call that read a part of [rest] and succeeded, or failed at a dollar sign. *)
Definition read_some {A} (rest : runes) (r : runes * outcome sw_error A) : Prop :=
  r.1 `suffix_of` rest ∧
  match r.2 with
  | Ok _ => True
  | Err e => error_word e = sw_word ∧ dollar ∈ rest
  | _ => False
  end.

Lemma read_some_mono {A} rest rest' (r : runes * outcome sw_error A) :
  rest' `suffix_of` rest → read_some rest' r → read_some rest r.
Proof.
  intros [k ->] [Hs Hr]. split; [by apply suffix_app_r|].
  destruct r.2; try done. destruct Hr. split; [done|]. apply elem_of_app. by right.
Qed.

Lemma read_some_bind {A B} rest (r : runes * outcome sw_error A)
    (f : runes → A → runes * outcome sw_error B) :
  read_some rest r → (∀ rest' a, r = (rest', Ok a) → read_some rest (f rest' a)) →
  read_some rest (and_then r f).
Proof. intros [Hs Hr] Hf. destruct r as [rest' [a|e|m|]]; simpl in *; try done. by apply Hf. Qed.

Lemma processName_suffix name rest : (processName name rest).1 `suffix_of` rest.
Proof.
  revert name. induction rest as [|c rest IH]; intros name; simpl; [done|].
  case_match; [simpl; by apply suffix_cons_r|]. case_match; [done|].
  apply suffix_cons_r, IH.
Qed.

Lemma single_loop_suffix result rest : (single_loop result rest).1 `suffix_of` rest.
Proof.
  revert result. induction rest as [|c rest IH]; intros result; simpl; [done|].
  case_decide; simpl; apply suffix_cons_r; [done|]. apply IH.
Qed.

Lemma drop_suffix {A} n (l : list A) : drop n l `suffix_of` l.
Proof. exists (take n l). by rewrite take_drop. Qed.

Lemma suffix_length_cons (l rest : runes) c : l `suffix_of` rest → (length l < length (c :: rest))%nat.
Proof. intros Hs%suffix_length. simpl. lia. Qed.

#[local] Hint Resolve suffix_cons_r drop_suffix processName_suffix single_loop_suffix : core.

Lemma loops_total fuel :
  (∀ stop rest result words, (length rest < fuel)%nat →
     read_some rest (stop_loop sw_word envs fuel stop rest result words)) ∧
  (∀ rest result, (length rest < fuel)%nat →
     read_some rest (dq_loop sw_word envs fuel rest result)) ∧
  (∀ rest, (length rest < fuel)%nat →
     read_some (dollar :: rest) (processDollar sw_word envs fuel (dollar :: rest)) ∧
     (processDollar sw_word envs fuel (dollar :: rest)).1 `suffix_of` rest).
Proof.
  induction fuel as [|fuel (IHs & IHd & IHv)]; [repeat split; intros; lia|].
  split; [|split].
  - intros stop [|c rest] result words Hlen; [done|]. rewrite stop_loop_cons.
    case_decide; [split; simpl; eauto|].
    case_decide.
    { pose proof (single_loop_suffix [] rest) as Hs.
      destruct (single_loop [] rest) as [rest' tmp]. simpl in Hs.
      apply (read_some_mono _ rest'); [by apply suffix_cons_r|].
      apply IHs. apply suffix_length in Hs. simpl in Hlen. lia. }
    case_decide.
    { apply (read_some_mono _ rest); [by eauto|]. simpl in Hlen.
      apply read_some_bind; [apply IHd; lia|]. intros rest' a E.
      destruct (IHd rest [] ltac:(lia)) as [Hs _]. rewrite E in Hs. simpl in Hs.
      apply (read_some_mono _ rest'); [done|]. apply IHs. apply suffix_length in Hs. lia. }
    case_decide.
    { subst c. simpl in Hlen. destruct (IHv rest ltac:(lia)) as [Hr Hs].
      apply read_some_bind; [done|]. intros rest' a E. rewrite E in Hs. simpl in Hs.
      apply (read_some_mono _ rest'); [by apply suffix_cons_r|].
      apply IHs. apply suffix_length in Hs. lia. }
    simpl in Hlen. case_decide.
    { destruct rest as [|c' rest]; [split; simpl; [by apply suffix_nil|done]|].
      apply (read_some_mono _ rest); [by eauto|]. apply IHs. simpl in Hlen. lia. }
    apply (read_some_mono _ rest); [by eauto|]. apply IHs. lia.
  - intros [|c rest] result Hlen; [done|]. rewrite dq_loop_cons. simpl in Hlen.
    case_decide; [split; simpl; eauto|].
    case_decide.
    { subst c. destruct (IHv rest ltac:(lia)) as [Hr Hs].
      apply read_some_bind; [done|]. intros rest' a E. rewrite E in Hs. simpl in Hs.
      apply (read_some_mono _ rest'); [by apply suffix_cons_r|].
      apply IHd. apply suffix_length in Hs. lia. }
    case_decide.
    { destruct rest as [|c' rest]; simpl in Hlen.
      - apply (read_some_mono _ []); [by apply suffix_nil|]. apply IHd. simpl. lia.
      - case_decide.
        + apply (read_some_mono _ rest); [by eauto|]. apply IHd. lia.
        + apply (read_some_mono _ (c' :: rest)); [by eauto|]. apply IHd. simpl. lia. }
    apply (read_some_mono _ rest); [by eauto|]. apply IHd. lia.
  - intros rest Hlen. assert (dollar ∈ dollar :: rest) as Hin by left.
    destruct (decide (head rest = Some lbrace)) as [Hb|Hb].
    + destruct rest as [|c rest]; [done|]. injection Hb as ->. simpl in Hlen.
      rewrite processDollar_brace. pose proof (processName_suffix [] rest) as H1.
      destruct (processName [] rest) as [rest1 name]. simpl in H1.
      assert (∀ A r1 (o : outcome sw_error A), r1 `suffix_of` rest1 →
        match o with Ok _ => True | Err e => error_word e = sw_word | _ => False end →
        read_some (dollar :: lbrace :: rest) (r1, o) ∧ r1 `suffix_of` lbrace :: rest) as Hend.
      { intros A r1 o Hr Ho. assert (r1 `suffix_of` lbrace :: rest) by (apply suffix_cons_r; by trans rest1).
        split; [split; [by apply suffix_cons_r|]|done]. by destruct o. }
      case_decide; [by apply Hend; [apply drop_suffix|]|]. case_decide; [|by apply Hend].
      destruct (IHs (Some rbrace) (drop 2 rest1) [] (mkWords [] [] false)) as [Hs Hr].
      { rewrite length_drop. apply suffix_length in H1. lia. }
      destruct (stop_loop _ _ _ _ _ _ _) as [rest2 o]. simpl in Hs, Hr.
      assert (rest2 `suffix_of` rest1) by (trans (drop 2 rest1); eauto).
      destruct o as [[w ws]|e|m|]; simpl; try done; apply Hend; try done; [|by destruct Hr].
      unfold apply_modifier. by repeat case_decide.
    + rewrite processDollar_bare by done. pose proof (processName_suffix [] rest) as H1.
      destruct (processName [] rest) as [rest1 name]. simpl in H1.
      split; [split; simpl; eauto|done].
Qed.
End shell_word_total.

(** C30: On every word and every environment ProcessWord and ProcessWords end, and
    either return a result or report, with the whole word, a substitution that is
    malformed; a word without a dollar sign is never refused. *)
Theorem ProcessWord_total `{UnicodeTables} word env :
  (∃ w ws, ProcessWord word env = Ok w ∧ ProcessWords word env = Ok ws) ∨
  (∃ e, ProcessWord word env = Err e ∧ ProcessWords word env = Err e ∧
        error_word e = word ∧ dollar ∈ word).
Proof.
  unfold ProcessWord, ProcessWords, process.
  destruct (loops_total word env (S (length (scanner_Init word)))) as [Hs _].
  destruct (Hs None (scanner_Init word) [] (mkWords [] [] false)) as [_ Hr]; [lia|].
  destruct (stop_loop _ _ _ _ _ _ _) as [rest [[w ws]|e|m|]]; simpl in *; try done.
  - left. by exists w, ws.
  - right. exists e. destruct Hr as [He Hin]. repeat split; [done|].
    unfold scanner_Init in Hin. destruct word as [|c word]; [done|].
    case_decide; [by right|done].
Qed.

(** ** The reference: the syntax of words and its meaning *)

Inductive piece :=
| Lit (c : rune)                                       (** a character of its own *)
| Esc (c : rune)                                       (** \c *)
| Backslash                                            (** a backslash inside quotes *)
| Single (s : runes)                                   (** 's' *)
| Double (ps : list piece)                             (** "ps" *)
| Bare (name : runes)                                  (** $name *)
| Lone                                                 (** a dollar sign of its own *)
| Braced (name : runes)                                (** ${name} *)
| Subst (alt : bool) (name : runes) (ps : list piece). (** ${name:+ps}, ${name:-ps} *)

Fixpoint show_piece (p : piece) : runes :=
  match p with
  | Lit c => [c]
  | Esc c => [backslash; c]
  | Backslash => [backslash]
  | Single s => single_quote :: s ++ [single_quote]
  | Double ps => double_quote :: flat_map show_piece ps ++ [double_quote]
  | Bare name => dollar :: name
  | Lone => [dollar]
  | Braced name => dollar :: lbrace :: name ++ [rbrace]
  | Subst alt name ps =>
      dollar :: lbrace :: name ++ colon :: (if alt then plus else minus)
        :: flat_map show_piece ps ++ [rbrace]
  end.
Definition show_word (ps : list piece) : runes := flat_map show_piece ps.

(** Where a piece stands. *)
Inductive context := Top | InBraces | InQuotes.

Section grammar.
Context `{UnicodeTables}.

Definition name_char (c : rune) : bool := IsLetter c || IsDigit c || bool_decide (c = underscore).

(** A name is one digit, or does not start with a digit. *)
Definition valid_name (name : runes) : bool :=
  match name with
  | [] => true
  | c :: rest => if IsDigit c then bool_decide (rest = []) else forallb name_char name
  end.
Definition ends_at (name next : runes) : bool :=
  match name, next with
  | [c], _ => if IsDigit c then true else negb (default false (name_char <$> head next))
  | _, _ => negb (default false (name_char <$> head next))
  end.

(** [valid_piece k p next]: [p] may stand in the context [k] before the text [next]. *)
Fixpoint valid_piece (k : context) (p : piece) (next : runes) {struct p} : bool :=
  let fix valid_list (k : context) (ps : list piece) (next : runes) : bool :=
    match ps with
    | [] => true
    | p :: ps => valid_piece k p (flat_map show_piece ps ++ next) && valid_list k ps next
    end in
  match p with
  | Lit c =>
      bool_decide (c ∉ match k with
                       | Top => [single_quote; double_quote; dollar; backslash]
                       | InBraces => [single_quote; double_quote; dollar; backslash; rbrace]
                       | InQuotes => [double_quote; dollar; backslash]
                       end)
  | Esc c => match k with InQuotes => bool_decide (c ∈ [double_quote; dollar]) | _ => true end
  | Backslash =>
      match k, next with
      | InQuotes, c :: _ => bool_decide (c ∉ [double_quote; dollar])
      | _, _ => false
      end
  | Single s => match k with InQuotes => false | _ => bool_decide (single_quote ∉ s) end
  | Double ps =>
      match k with InQuotes => false | _ => valid_list InQuotes ps (double_quote :: next) end
  | Bare name => bool_decide (name ≠ []) && valid_name name && ends_at name next
  | Lone => negb (default false (name_char <$> head next)) && bool_decide (head next ≠ Some lbrace)
  | Braced name => valid_name name
  | Subst _ name ps => valid_name name && valid_list InBraces ps (rbrace :: next)
  end.

Fixpoint valid_list (k : context) (ps : list piece) (next : runes) : bool :=
  match ps with
  | [] => true
  | p :: ps => valid_piece k p (show_word ps ++ next) && valid_list k ps next
  end.

(** A word of pieces, whose first character is not taken for a byte order mark. *)
Definition valid_word (ps : list piece) : bool :=
  valid_list Top ps [] && bool_decide (head (show_word ps) ≠ Some BOM).

(** The meaning of a piece. *)
Fixpoint piece_value (envs : list runes) (p : piece) : runes :=
  match p with
  | Lit c | Esc c => [c]
  | Backslash => [backslash]
  | Single s => s
  | Double ps => flat_map (piece_value envs) ps
  | Bare name | Braced name => getEnv envs name
  | Lone => [dollar]
  | Subst true name ps =>
      if decide (getEnv envs name = []) then [] else flat_map (piece_value envs) ps
  | Subst false name ps =>
      if decide (getEnv envs name = []) then flat_map (piece_value envs) ps else getEnv envs name
  end.
Definition word_value (envs : list runes) (ps : list piece) : runes :=
  flat_map (piece_value envs) ps.

(** What spaces split: [Soft] characters may, [Hard] text does not. *)
Inductive token := Soft (c : rune) | Hard (s : runes).

Definition piece_tokens (envs : list runes) (p : piece) : list token :=
  match p with
  | Lit c => [Soft c]
  | Esc _ | Backslash | Single _ | Double _ => [Hard (piece_value envs p)]
  | Bare _ | Lone | Braced _ | Subst _ _ _ => Soft <$> scanner_Init (piece_value envs p)
  end.

Definition app_head (s : runes) (ws : list runes) : list runes :=
  match ws with [] => [s] | w :: ws => (s ++ w) :: ws end.
Fixpoint split_tokens (ts : list token) : list runes :=
  match ts with
  | [] => [[]]
  | Soft c :: ts => if IsSpace c then [] :: split_tokens ts else app_head [c] (split_tokens ts)
  | Hard s :: ts => app_head s (split_tokens ts)
  end.

(** The fields of a word: the parts between spaces that are not empty. *)
Definition word_fields (envs : list runes) (ps : list piece) : list runes :=
  filter (λ w, w ≠ []) (split_tokens (flat_map (piece_tokens envs) ps)).
End grammar.

(** *** Splitting *)

Definition feed (w : wordsStruct) (t : token) : wordsStruct :=
  match t with Soft c => addChar w c | Hard s => addRawString w s end.

Definition words_ok (w : wordsStruct) : Prop := ws_inWord w = false → ws_word w = [].

Lemma feed_ok w t : words_ok w → words_ok (feed w t).
Proof.
  unfold words_ok. intros Hw. destruct t as [c|s]; simpl; [|done].
  unfold addChar. destruct (IsSpace c); simpl; [|done].
  destruct (ws_inWord w) eqn:E; simpl; [|by auto]. case_decide; simpl; [done|]. by rewrite E.
Qed.

Lemma split_tokens_non_empty ts : split_tokens ts ≠ [].
Proof. destruct ts as [|[c|s] ts]; simpl; try done; [destruct (IsSpace c); [done|]|];
  by destruct (split_tokens ts). Qed.

Lemma app_head_app s1 s2 ws : app_head (s1 ++ s2) ws = app_head s1 (app_head s2 ws).
Proof. destruct ws; simpl; [done|]. by rewrite <- (assoc_L (++)). Qed.

Lemma app_head_nil ws : ws ≠ [] → app_head [] ws = ws.
Proof. by destruct ws. Qed.

Lemma getWords_feed w ts :
  words_ok w →
  getWords (foldl feed w ts) =
    ws_words w ++ filter (λ w, w ≠ []) (app_head (ws_word w) (split_tokens ts)).
Proof.
  revert w. induction ts as [|t ts IH]; intros w Hw; simpl.
  - unfold getWords. rewrite app_nil_r. destruct (ws_word w) as [|c s]; simpl.
    + by rewrite app_nil_r.
    + done.
  - rewrite IH by (by apply feed_ok). destruct t as [c|s]; simpl.
    + unfold addChar. destruct (IsSpace c); simpl.
      * rewrite app_nil_r, filter_cons.
        destruct (ws_inWord w) eqn:E.
        -- destruct (ws_word w) as [|c' s] eqn:Ew; simpl.
           ++ rewrite Ew, app_head_nil by apply split_tokens_non_empty. done.
           ++ by rewrite app_head_nil, <- (assoc_L (++)) by apply split_tokens_non_empty.
        -- rewrite (Hw E). simpl. by rewrite app_head_nil by apply split_tokens_non_empty.
      * by rewrite app_head_app.
    + by rewrite app_head_app.
Qed.

(** *** Reading the text of a word *)

(** Compares lengths of concatenations. *)
Ltac lens :=
  unfold show_word in *; repeat (progress (rewrite ?length_app in *; cbn [length] in *)); lia.

Section grammar_lemmas.
Context `{UnicodeTables} (sw_word : runes) (envs : list runes).

Lemma processName_acc acc s next :
  acc ≠ [] → forallb name_char s = true → default false (name_char <$> head next) = false →
  processName acc (s ++ next) = (next, acc ++ s).
Proof.
  revert acc. induction s as [|c s IH]; intros acc Hacc Hs Hn; simpl in *.
  - rewrite app_nil_r. destruct next as [|c next]; [done|]. simpl in *.
    unfold name_char in Hn. apply orb_false_iff in Hn as [[-> ->]%orb_false_iff ->].
    rewrite andb_false_r. done.
  - apply andb_true_iff in Hs as [Hc Hs].
    rewrite (bool_decide_eq_false_2 (length acc = 0%nat)) by (by destruct acc). simpl.
    assert (negb (IsLetter c) && negb (IsDigit c) && negb (bool_decide (c = underscore)) = false)
      as ->.
    { unfold name_char in Hc. by destruct (IsLetter c), (IsDigit c), (bool_decide (c = underscore)). }
    rewrite IH; [by rewrite <- (assoc_L (++))|by destruct acc|done|done].
Qed.

Lemma processName_valid name next :
  valid_name name = true → ends_at name next = true → processName [] (name ++ next) = (next, name).
Proof.
  intros Hv He. destruct name as [|c s]; simpl in *.
  - destruct next as [|c next]; [done|]. simpl in *. apply negb_true_iff in He.
    unfold name_char in He. by apply orb_false_iff in He as [[-> ->]%orb_false_iff ->].
  - destruct (IsDigit c) eqn:Ed.
    + by apply bool_decide_eq_true in Hv as ->.
    + apply andb_true_iff in Hv as [Hc Hs]. unfold name_char in Hc. rewrite Ed in *.
      assert (negb (IsLetter c) && negb false && negb (bool_decide (c = underscore)) = false)
        as -> by (by destruct (IsLetter c), (bool_decide (c = underscore))).
      apply (processName_acc [c]); [done|done|]. apply negb_true_iff.
      by destruct s.
Qed.

(** No name goes on with the punctuation of a substitution. *)
Lemma ends_at_punctuation name c next : c ∈ [rbrace; colon] → ends_at name (c :: next) = true.
Proof.
  intros Hc. assert (name_char c = false) as Hn.
  { apply elem_of_cons in Hc as [->|Hc]; [done|]. by apply list_elem_of_singleton in Hc as ->. }
  destruct name as [|c1 [|c2 s]]; simpl; rewrite Hn; [done| |done]. by destruct (IsDigit c1).
Qed.

Lemma single_loop_valid acc s next :
  single_quote ∉ s → single_loop acc (s ++ single_quote :: next) = (next, acc ++ s).
Proof.
  revert acc. induction s as [|c s IH]; intros acc Hs; simpl.
  - by rewrite app_nil_r.
  - rewrite not_elem_of_cons in Hs. rewrite decide_False by naive_solver.
    rewrite IH by naive_solver. by rewrite <- (assoc_L (++)).
Qed.

Definition is_dollar (p : piece) : bool :=
  match p with Bare _ | Lone | Braced _ | Subst _ _ _ => true | _ => false end.
Definition stop_of (k : context) : option rune := match k with InBraces => Some rbrace | _ => None end.

Lemma show_piece_length p : (0 < length (show_piece p))%nat.
Proof. destruct p; simpl; lia. Qed.

Lemma show_word_cons p ps : show_word (p :: ps) = show_piece p ++ show_word ps.
Proof. done. Qed.

Lemma valid_list_cons k p ps next :
  valid_list k (p :: ps) next = valid_piece k p (show_word ps ++ next) && valid_list k ps next.
Proof. done. Qed.

Lemma valid_Double k ps next :
  valid_piece k (Double ps) next = true → k ≠ InQuotes ∧ valid_list InQuotes ps (double_quote :: next) = true.
Proof. destruct k; intros Hv; split; done. Qed.

Lemma valid_Subst k alt name ps next :
  valid_piece k (Subst alt name ps) next = true →
  valid_name name = true ∧ valid_list InBraces ps (rbrace :: next) = true.
Proof. intros Hv. by apply andb_true_iff in Hv. Qed.

(** What the functions do on the text of pieces of at most [n] runes, with enough
    fuel for the whole text. *)
Definition dollar_spec (n : nat) : Prop := ∀ k p next fuel,
  is_dollar p = true → (length (show_piece p) ≤ n)%nat → valid_piece k p next = true →
  (length (show_piece p ++ next) ≤ fuel)%nat →
  processDollar sw_word envs fuel (show_piece p ++ next) = (next, Ok (piece_value envs p)).
Definition stop_spec (n : nat) : Prop := ∀ k ps next fuel result words,
  k ≠ InQuotes → (length (show_word ps) ≤ n)%nat → valid_list k ps next = true →
  (length (show_word ps ++ next) < fuel)%nat →
  ∃ fuel', (length next < fuel')%nat ∧
    stop_loop sw_word envs fuel (stop_of k) (show_word ps ++ next) result words =
    stop_loop sw_word envs fuel' (stop_of k) next (result ++ word_value envs ps)
      (foldl feed words (flat_map (piece_tokens envs) ps)).
Definition dq_spec (n : nat) : Prop := ∀ ps next fuel result,
  (length (show_word ps) ≤ n)%nat → valid_list InQuotes ps next = true →
  (length (show_word ps ++ next) < fuel)%nat →
  ∃ fuel', (length next < fuel')%nat ∧
    dq_loop sw_word envs fuel (show_word ps ++ next) result =
    dq_loop sw_word envs fuel' next (result ++ word_value envs ps).

Lemma dollar_step n : (∀ m, (m < n)%nat → stop_spec m) → dollar_spec n.
Proof.
  intros IH k p next fuel Hd Hlen Hv Hf. destruct fuel as [|fuel].
  { pose proof (show_piece_length p). rewrite length_app in Hf. lia. }
  destruct p as [| | | | |name| |name|alt name ps]; try done.
  - simpl in Hv. apply andb_true_iff in Hv as [[Hne%bool_decide_eq_true Hv]%andb_true_iff He].
    cbn [show_piece app]. rewrite processDollar_bare.
    2:{ destruct name as [|c s]; [done|]. simpl. intros [= ->]. simpl in Hv. done. }
    rewrite processName_valid by done. by rewrite decide_False.
  - simpl in Hv. apply andb_true_iff in Hv as [Hn Hb%bool_decide_eq_true].
    cbn [show_piece app]. rewrite processDollar_bare by done.
    change next with ([] ++ next) at 1. by rewrite processName_valid.
  - cbn [show_piece app]. rewrite processDollar_brace, <- (assoc_L (++)). simpl ([rbrace] ++ next).
    rewrite processName_valid; [|done|apply ends_at_punctuation; left]. simpl.
    by rewrite ?drop_0.
  - apply valid_Subst in Hv as [Hv Hps]. cbn [show_piece app] in *.
    rewrite processDollar_brace, <- (assoc_L (++)). cbn [app]. rewrite <- (assoc_L (++)).
    rewrite processName_valid; [|done|apply ends_at_punctuation; right; left]. cbn [head].
    rewrite decide_False, decide_True by done. cbn [drop]. rewrite ?drop_0. cbn [head].
    destruct (IH (length (show_word ps)) ltac:(lens) InBraces ps (rbrace :: next) fuel []
      (mkWords [] [] false)) as (fuel' & Hf' & Heq); [done|lia|done|lens|].
    change (flat_map show_piece ps ++ [rbrace] ++ next) with (show_word ps ++ rbrace :: next).
    change (stop_of InBraces) with (Some rbrace) in Heq. rewrite Heq.
    destruct fuel' as [|fuel']; [simpl in Hf'; lia|].
    rewrite stop_loop_cons, decide_True by done. cbn [and_then fst app].
    f_equal. unfold apply_modifier. destruct alt; cbn [piece_value].
    + rewrite decide_True by done. f_equal. by repeat case_decide.
    + rewrite decide_False, decide_True by done. done.
Qed.

Lemma word_value_cons p ps : word_value envs (p :: ps) = piece_value envs p ++ word_value envs ps.
Proof. done. Qed.

Lemma dollar_show p next :
  is_dollar p = true → ∃ text, show_piece p ++ next = dollar :: text.
Proof. destruct p; intros; try done; by eexists. Qed.

(** One piece, then the others. *)
Lemma dq_step n : (∀ m, (m < n)%nat → dq_spec m) → dollar_spec n → dq_spec n.
Proof.
  intros IH Hdol ps next fuel result Hlen Hv Hf. destruct ps as [|p ps].
  { exists fuel. split; [done|]. unfold word_value. simpl. by rewrite app_nil_r. }
  rewrite valid_list_cons in Hv. apply andb_true_iff in Hv as [Hp Hps].
  rewrite show_word_cons, <- (assoc_L (++)) in *. rewrite length_app in Hlen.
  pose proof (show_piece_length p) as Hpos.
  assert (∀ f r, (length (show_word ps ++ next) < f)%nat → ∃ fuel', (length next < fuel')%nat ∧
    dq_loop sw_word envs f (show_word ps ++ next) (r ++ piece_value envs p) =
    dq_loop sw_word envs fuel' next (r ++ word_value envs (p :: ps))) as Hrest.
  { intros f r Hf'. rewrite word_value_cons, (assoc_L (++)).
    apply (IH (length (show_word ps))); [lia|done|done|done]. }
  destruct fuel as [|fuel]; [lia|].
  destruct (is_dollar p) eqn:Hd.
  - destruct (dollar_show p (show_word ps ++ next) Hd) as [text Ht].
    rewrite Ht, dq_loop_cons, decide_False, decide_True, <- Ht by done.
    rewrite (Hdol InQuotes) by (done || lia || lens). apply Hrest. lens.
  - destruct p as [c|c| | | | | | |]; try done; cbn [show_piece app] in *.
    + simpl in Hp. apply bool_decide_eq_true in Hp. rewrite !not_elem_of_cons in Hp.
      rewrite dq_loop_cons, !decide_False by naive_solver. apply Hrest. lens.
    + simpl in Hp. apply bool_decide_eq_true in Hp.
      rewrite dq_loop_cons, decide_False, decide_False, decide_True by done.
      rewrite !elem_of_cons in Hp. rewrite decide_True by (rewrite elem_of_nil in Hp; tauto).
      apply Hrest. lens.
    + rewrite dq_loop_cons, decide_False, decide_False, decide_True by done.
      simpl in Hp. destruct (show_word ps ++ next) as [|c text] eqn:E; [done|].
      apply bool_decide_eq_true in Hp. rewrite !not_elem_of_cons in Hp.
      rewrite decide_False by tauto. apply Hrest. lens.
Qed.

Lemma feed_tokens words p :
  is_dollar p = true →
  foldl feed words (piece_tokens envs p) = addString words (piece_value envs p).
Proof.
  intros Hd. unfold addString.
  assert (piece_tokens envs p = Soft <$> scanner_Init (piece_value envs p)) as -> by (by destruct p).
  generalize (scanner_Init (piece_value envs p)). intros s. revert words.
  induction s as [|c s IH]; intros words; simpl; [done|]. apply IH.
Qed.

Lemma stop_step n :
  (∀ m, (m < n)%nat → stop_spec m) → (∀ m, (m < n)%nat → dq_spec m) → dollar_spec n → stop_spec n.
Proof.
  intros IH IHd Hdol k ps next fuel result words Hk Hlen Hv Hf. destruct ps as [|p ps].
  { exists fuel. split; [done|]. unfold word_value. simpl. by rewrite app_nil_r. }
  rewrite valid_list_cons in Hv. apply andb_true_iff in Hv as [Hp Hps].
  rewrite show_word_cons, <- (assoc_L (++)) in *. rewrite length_app in Hlen.
  pose proof (show_piece_length p) as Hpos.
  assert (∀ f r, (length (show_word ps ++ next) < f)%nat → ∃ fuel', (length next < fuel')%nat ∧
    stop_loop sw_word envs f (stop_of k) (show_word ps ++ next) (r ++ piece_value envs p)
      (foldl feed words (piece_tokens envs p)) =
    stop_loop sw_word envs fuel' (stop_of k) next (r ++ word_value envs (p :: ps))
      (foldl feed words (flat_map (piece_tokens envs) (p :: ps)))) as Hrest.
  { intros f r Hf'. rewrite word_value_cons, (assoc_L (++)). cbn [flat_map]. rewrite foldl_app.
    apply (IH (length (show_word ps))); [lia|done|done|done|done]. }
  destruct fuel as [|fuel]; [lia|].
  assert (∀ c, c ∈ [single_quote; double_quote; dollar; backslash] → stop_of k ≠ Some c) as Hstop.
  { intros c Hc. destruct k; try done. simpl. intros [= <-].
    rewrite !elem_of_cons, elem_of_nil in Hc. naive_solver. }
  destruct (is_dollar p) eqn:Hd.
  - destruct (dollar_show p (show_word ps ++ next) Hd) as [text Ht].
    rewrite Ht, stop_loop_cons, decide_False by (apply Hstop; set_solver).
    rewrite !decide_False, decide_True, <- Ht by done.
    rewrite (Hdol k) by (done || lia || lens). cbn [and_then].
    rewrite <- feed_tokens by done. apply Hrest. lens.
  - destruct p as [c|c| |s|ds| | | |]; try done; cbn [show_piece app] in *.
    + simpl in Hp. apply bool_decide_eq_true in Hp.
      assert (stop_of k ≠ Some c ∧ c ≠ single_quote ∧ c ≠ double_quote ∧ c ≠ dollar ∧ c ≠ backslash)
        as (? & ? & ? & ? & ?).
      { destruct k; rewrite !not_elem_of_cons in Hp; simpl; naive_solver. }
      rewrite stop_loop_cons, !decide_False by done. apply Hrest. lens.
    + rewrite stop_loop_cons, decide_False by (apply Hstop; set_solver).
      rewrite !decide_False, decide_True by done. apply (Hrest fuel result). lens.
    + by destruct k.
    + assert (single_quote ∉ s) as Hs by (destruct k; [..|done]; by apply bool_decide_eq_true in Hp).
      rewrite stop_loop_cons, decide_False by (apply Hstop; set_solver).
      rewrite decide_True, <- (assoc_L (++)) by done. cbn [app].
      rewrite single_loop_valid by done. apply Hrest. lens.
    + apply valid_Double in Hp as [_ Hds].
      rewrite stop_loop_cons, decide_False by (apply Hstop; set_solver).
      rewrite decide_False, decide_True, <- (assoc_L (++)) by done. cbn [app].
      destruct (IHd (length (show_word ds)) ltac:(lens) ds (double_quote :: show_word ps ++ next) fuel [])
        as (fuel' & Hf' & Heq); [done|done|lens|].
      change (flat_map show_piece ds) with (show_word ds). rewrite Heq.
      destruct fuel' as [|fuel']; [lia|].
      rewrite dq_loop_cons, decide_True by done. cbn [and_then app]. apply Hrest. lens.
Qed.

Lemma loops_read_words n : dollar_spec n ∧ stop_spec n ∧ dq_spec n.
Proof.
  induction n as [n IH] using lt_wf_ind.
  assert (dollar_spec n) as Hd by (apply dollar_step; intros m Hm; apply (IH m Hm)).
  split; [done|split].
  - apply stop_step; [intros m Hm; apply (IH m Hm)..|done].
  - apply dq_step; [intros m Hm; apply (IH m Hm)|done].
Qed.
End grammar_lemmas.

Lemma ProcessWord_grammar `{UnicodeTables} ps env :
  valid_word ps = true →
  ProcessWord (show_word ps) env = Ok (word_value env ps) ∧
  ProcessWords (show_word ps) env = Ok (word_fields env ps).
Proof.
  intros [Hv Hbom%bool_decide_eq_true]%andb_true_iff.
  assert (scanner_Init (show_word ps) = show_word ps) as Hinit.
  { destruct (show_word ps) as [|c s]; [done|]. simpl in *. by rewrite decide_False by congruence. }
  destruct (loops_read_words (show_word ps) env (length (show_word ps))) as (_ & Hs & _).
  destruct (Hs Top ps [] (S (length (show_word ps))) [] (mkWords [] [] false))
    as (fuel & Hf & Heq); [done|done|done|rewrite app_nil_r; lia|].
  unfold ProcessWord, ProcessWords, process. rewrite Hinit.
  rewrite app_nil_r in Heq. change (stop_of Top) with (@None rune) in Heq. rewrite Heq.
  destruct fuel as [|fuel]; [lia|]. rewrite stop_loop_nil. cbn [snd].
  split; [done|]. rewrite getWords_feed by done. simpl.
  rewrite app_head_nil by apply split_tokens_non_empty. done.
Qed.

(** C29: On the text of every word of the grammar ProcessWord returns the word's
    value, with quotes and escapes removed and variables replaced (nested
    substitutions included), and ProcessWords the parts of this value between spaces,
    empty parts left out.  Spaces that are quoted or escaped outside of a substitution
    do not split; the value of a substitution that is not in double quotes splits at
    all of its spaces, also at those that are quoted inside of its braces, and loses a
    byte order mark at its start. *)
Theorem ProcessWord_value `{UnicodeTables} ps env :
  valid_word ps = true →
  ProcessWord (show_word ps) env = Ok (word_value env ps) ∧
  ProcessWords (show_word ps) env = Ok (word_fields env ps).
Proof. apply ProcessWord_grammar. Qed.

(** ASCII only, for the examples. *)
#[local] Instance ascii_tables : UnicodeTables := {| table_letter _ := false; table_digit _ := false |}.

(** [a "$b"\ ${c:-'x y' $b}] with [b=1 2] and [c] not set. *)
Definition demo_word : list piece :=
  [Lit 97; Lit 32; Double [Bare [98]]; Esc 32;
   Subst false [99] [Single [120; 32; 121]; Lit 32; Bare [98]]].
Definition demo_env : list runes := [[98; 61; 49; 32; 50]].

Example ProcessWord_value_witness :
  ProcessWord (show_word demo_word) demo_env =
    Ok [97; 32; 49; 32; 50; 32; 120; 32; 121; 32; 49; 32; 50] ∧
  ProcessWords (show_word demo_word) demo_env =
    Ok [[97]; [49; 32; 50; 32; 120]; [121]; [49]; [50]].
Proof. apply (ProcessWord_value demo_word demo_env). vm_compute. reflexivity. Defined.
