(* ===== verification/Changes.v ===== *)
(** * pkg/archive: the changes between two directory trees

    The model of the [FileInfo] trees of pkg/archive/changes.go and
    pkg/archive/changes_unix.go.  A path is the list of its components, "/" being
    the empty list.  A [FileInfo] of the source has a pointer to its parent, used
    only to compute its path and to recognise the root; here the path is an
    argument.  The map of the children is a list with the names as keys: its order
    is the order in which the map is ranged over, which is arbitrary.

    [added] is a flag of the node that the caller of [addChanges] sets just before
    the call that reads it; here it is an argument. *)

From S2P Require Import Prelude.
Open Scope Z_scope.

Abbreviation path := (list string) (only parsing).

Inductive ChangeType := ChangeModify | ChangeAdd | ChangeDelete.
Record Change := mkChange { ch_Path : list string; ch_Kind : ChangeType }.

#[global] Instance ChangeType_eq_dec : EqDecision ChangeType.
Proof. solve_decision. Defined.
#[global] Instance Change_eq_dec : EqDecision Change.
Proof. solve_decision. Defined.

(** [ChangeType.String] *)
Definition ChangeType_String (c : ChangeType) : string :=
  match c with ChangeModify => "C" | ChangeAdd => "A" | ChangeDelete => "D" end.

Record Timespec := mkTimespec { ts_Sec : Z; ts_Nsec : Z }.
Record StatT := mkStat {
  st_mode : Z; st_uid : Z; st_gid : Z; st_rdev : Z; st_size : Z; st_mtim : Timespec
}.
#[global] Instance Timespec_eq_dec : EqDecision Timespec.
Proof. solve_decision. Defined.
#[global] Instance StatT_eq_dec : EqDecision StatT.
Proof. solve_decision. Defined.

Definition sameFsTimeSpec (a b : Timespec) : bool :=
  bool_decide (ts_Sec a = ts_Sec b) &&
  (bool_decide (ts_Nsec a = ts_Nsec b) || bool_decide (ts_Nsec a = 0) || bool_decide (ts_Nsec b = 0)).

(** The type bits of a mode. *)
Definition S_IFMT : Z := 61440.
Definition S_IFDIR : Z := 16384.
Definition S_IFBLK : Z := 24576.
Definition S_IFREG : Z := 32768.

Definition statDifferent (oldStat newStat : StatT) : bool :=
  negb (bool_decide (st_mode oldStat = st_mode newStat)) ||
  negb (bool_decide (st_uid oldStat = st_uid newStat)) ||
  negb (bool_decide (st_gid oldStat = st_gid newStat)) ||
  negb (bool_decide (st_rdev oldStat = st_rdev newStat)) ||
  (negb (bool_decide (Z.land (st_mode oldStat) S_IFDIR = S_IFDIR)) &&
   (negb (sameFsTimeSpec (st_mtim oldStat) (st_mtim newStat)) ||
    negb (bool_decide (st_size oldStat = st_size newStat)))).

Inductive FileInfo := mkInfo {
  fi_stat : StatT;
  fi_capability : list Z;
  fi_children : list (string * FileInfo)
}.

(** The root has no [stat]; it is never read. *)
Definition nil_stat : StatT := mkStat 0 0 0 0 0 (mkTimespec 0 0).
Definition newRootFileInfo : FileInfo := mkInfo nil_stat [] [].

(** Lookup and removal in a map of children. *)
Fixpoint child (name : string) (cs : list (string * FileInfo)) : option FileInfo :=
  match cs with
  | [] => None
  | (n, c) :: cs => if decide (n = name) then Some c else child name cs
  end.
Definition without (name : string) (cs : list (string * FileInfo)) : list (string * FileInfo) :=
  filter (λ nc, nc.1 ≠ name) cs.

Fixpoint LookUp (info : FileInfo) (p : path) : option FileInfo :=
  match p with
  | [] => Some info
  | elem :: p =>
      match child elem (fi_children info) with
      | None => None
      | Some c => LookUp c p
      end
  end.

(** [isDir] of the node at the path [p]: a node without a parent is a directory. *)
Definition isDir (p : path) (info : FileInfo) : bool :=
  bool_decide (p = []) || negb (bool_decide (Z.land (st_mode (fi_stat info)) S_IFDIR = 0)).

(** Whether an old and a new node of the same path differ. *)
Definition differs (oldChild newChild : FileInfo) : bool :=
  statDifferent (fi_stat oldChild) (fi_stat newChild) ||
  negb (bool_decide (fi_capability oldChild = fi_capability newChild)).

Fixpoint addChanges (p : path) (added : bool) (info : FileInfo) (oldInfo : option FileInfo)
    (changes : list Change) {struct info} : list Change :=
  let sizeAtEntry := length changes in
  let changes :=
    match oldInfo with None => changes ++ [mkChange p ChangeAdd] | Some _ => changes end in
  let added := match oldInfo with None => true | Some _ => added end in
  let oldChildren :=
    match oldInfo with
    | Some o => if isDir p info then fi_children o else []
    | None => []
    end in
  let fix new_children (cs : list (string * FileInfo)) (oldChildren : list (string * FileInfo))
      (changes : list Change) : list (string * FileInfo) * list Change :=
    match cs with
    | [] => (oldChildren, changes)
    | (name, newChild) :: cs =>
        match child name oldChildren with
        | Some oldChild =>
            let changed := differs oldChild newChild in
            let changes :=
              if changed then changes ++ [mkChange (p ++ [name]) ChangeModify] else changes in
            new_children cs (without name oldChildren)
              (addChanges (p ++ [name]) changed newChild (Some oldChild) changes)
        | None =>
            new_children cs oldChildren (addChanges (p ++ [name]) false newChild None changes)
        end
    end in
  let '(oldChildren, changes) := new_children (fi_children info) oldChildren changes in
  let changes := changes ++ ((λ nc, mkChange (p ++ [nc.1]) ChangeDelete) <$> oldChildren) in
  if decide ((sizeAtEntry < length changes)%nat ∧ isDir p info = true ∧ added = false ∧ p ≠ []) then
    take sizeAtEntry changes ++ mkChange p ChangeModify :: drop sizeAtEntry changes
  else changes.

(** [Changes] of the root of the new tree. *)
Definition Changes (info : FileInfo) (oldInfo : option FileInfo) : list Change :=
  addChanges [] false info oldInfo [].
