(* ===== verification/ChangesInv.v ===== *)
(** * pkg/archive: which changes are reported

    [Changes] in terms of the paths of the two trees: what is added, deleted or
    modified, each path once, a directory before what is in it. *)

From S2P Require Import Prelude Changes.
Open Scope Z_scope.

(** Trees as file systems have them: the names of a directory are different, and
    only directories have children. *)
Inductive info_wf : path → FileInfo → Prop :=
| info_wf_intro p info :
    NoDup (fi_children info).*1 →
    (isDir p info = false → fi_children info = []) →
    (∀ name c, (name, c) ∈ fi_children info → info_wf (p ++ [name]) c) →
    info_wf p info.

(** ** What is to be reported *)

Definition old_at (old : option FileInfo) (q : path) : option FileInfo :=
  old ≫= λ o, LookUp o q.

(** Below, [pre] is the path of the two roots and [q] is relative to it. *)
Definition added_at (old : option FileInfo) (new : FileInfo) (q : path) : Prop :=
  is_Some (LookUp new q) ∧ old_at old q = None.
Definition deleted_at (pre : path) (old : option FileInfo) (new : FileInfo) (q : path) : Prop :=
  ∃ dir name d, q = dir ++ [name] ∧ is_Some (old_at old q) ∧ LookUp new q = None ∧
    LookUp new dir = Some d ∧ isDir (pre ++ dir) d = true.
Definition altered_at (old : option FileInfo) (new : FileInfo) (q : path) : Prop :=
  q ≠ [] ∧ ∃ o n, old_at old q = Some o ∧ LookUp new q = Some n ∧ differs o n = true.
Definition touched (pre : path) (old : option FileInfo) (new : FileInfo) (q : path) : Prop :=
  added_at old new q ∨ deleted_at pre old new q ∨ altered_at old new q.

(** A directory that is in both trees and has something touched inside. *)
Definition parent_at (pre : path) (old : option FileInfo) (new : FileInfo) (q : path) : Prop :=
  ∃ o n r, old_at old q = Some o ∧ LookUp new q = Some n ∧ isDir (pre ++ q) n = true ∧
    pre ++ q ≠ [] ∧ r ≠ [] ∧ touched pre old new (q ++ r).

Definition reported (pre : path) (old : option FileInfo) (new : FileInfo) (q : path)
    (k : ChangeType) : Prop :=
  match k with
  | ChangeAdd => added_at old new q
  | ChangeDelete => deleted_at pre old new q
  | ChangeModify => altered_at old new q ∨ parent_at pre old new q
  end.

(** ** Children *)

Lemma child_Some name cs c : NoDup cs.*1 → child name cs = Some c ↔ (name, c) ∈ cs.
Proof.
  induction cs as [|[n c'] cs IH]; simpl; [by rewrite elem_of_nil|].
  intros [Hn Hnd]%NoDup_cons. rewrite elem_of_cons. case_decide as E.
  - subst n. split; [intros [= ->]; by left|]. intros [[= ->]|Hin]; [done|].
    destruct Hn. apply list_elem_of_fmap. by exists (name, c).
  - rewrite IH by done. split; [by right|]. intros [[= -> ->]|]; [congruence|done].
Qed.

Lemma child_None name cs : child name cs = None ↔ name ∉ cs.*1.
Proof.
  induction cs as [|[n c'] cs IH]; simpl; [split; [intros _; apply not_elem_of_nil|done]|].
  rewrite not_elem_of_cons. case_decide; [naive_solver|]. rewrite IH. naive_solver.
Qed.

Lemma child_without name name' cs :
  child name' (without name cs) = if decide (name = name') then None else child name' cs.
Proof.
  unfold without. induction cs as [|[n c] cs IH]; [by case_decide|].
  rewrite filter_cons. cbn [fst]. destruct (decide (n ≠ name)) as [Hn|Hn]; cbn [child]; rewrite IH.
  - repeat case_decide; congruence.
  - apply dec_stable in Hn. subst n. repeat case_decide; congruence.
Qed.

(** ** The recursion of [addChanges] without the accumulator *)

Section children_loop.
Context (p : path).
Fixpoint children_loop (cs : list (string * FileInfo))
    (oldChildren : list (string * FileInfo)) (changes : list Change) :
    list (string * FileInfo) * list Change :=
  match cs with
  | [] => (oldChildren, changes)
  | (name, newChild) :: cs =>
      match child name oldChildren with
      | Some oldChild =>
          let changed := differs oldChild newChild in
          let changes :=
            if changed then changes ++ [mkChange (p ++ [name]) ChangeModify] else changes in
          children_loop cs (without name oldChildren)
            (addChanges (p ++ [name]) changed newChild (Some oldChild) changes)
      | None =>
          children_loop cs oldChildren (addChanges (p ++ [name]) false newChild None changes)
      end
  end.
End children_loop.

Definition old_children (p : path) (info : FileInfo) (oldInfo : option FileInfo) :=
  match oldInfo with
  | Some o => if isDir p info then fi_children o else []
  | None => []
  end.

Lemma addChanges_unfold p added info oldInfo changes :
  addChanges p added info oldInfo changes =
    let start := match oldInfo with None => changes ++ [mkChange p ChangeAdd] | Some _ => changes end in
    let added := match oldInfo with None => true | Some _ => added end in
    let '(rest, changes') :=
      children_loop p (fi_children info) (old_children p info oldInfo) start in
    let changes' := changes' ++ ((λ nc, mkChange (p ++ [nc.1]) ChangeDelete) <$> rest) in
    if decide ((length changes < length changes')%nat ∧ isDir p info = true ∧ added = false ∧ p ≠ [])
    then take (length changes) changes' ++ mkChange p ChangeModify :: drop (length changes) changes'
    else changes'.
Proof. destruct info; reflexivity. Qed.

Definition diff (p : path) (added : bool) (info : FileInfo) (oldInfo : option FileInfo) : list Change :=
  addChanges p added info oldInfo [].

(** What one child contributes. *)
Definition child_diff (p : path) (olds : list (string * FileInfo)) (nc : string * FileInfo) :
    list Change :=
  match child nc.1 olds with
  | Some o =>
      (if differs o nc.2 then [mkChange (p ++ [nc.1]) ChangeModify] else []) ++
      diff (p ++ [nc.1]) (differs o nc.2) nc.2 (Some o)
  | None => diff (p ++ [nc.1]) false nc.2 None
  end.

Definition gone (cs olds : list (string * FileInfo)) : list (string * FileInfo) :=
  filter (λ nc, nc.1 ∉ cs.*1) olds.

Definition body (p : path) (info : FileInfo) (oldInfo : option FileInfo) : list Change :=
  let olds := old_children p info oldInfo in
  mbind (child_diff p olds) (fi_children info) ++
  ((λ nc, mkChange (p ++ [nc.1]) ChangeDelete) <$> gone (fi_children info) olds).

Lemma filter_ext_in {A} (P Q : A → Prop) `{∀ x, Decision (P x), ∀ x, Decision (Q x)} (l : list A) :
  (∀ x, x ∈ l → P x ↔ Q x) → filter P l = filter Q l.
Proof.
  induction l as [|x l IH]; intros HPQ; [done|].
  assert (filter P l = filter Q l) as E by (apply IH; intros; apply HPQ; by right).
  assert (P x ↔ Q x) as Hx by (apply HPQ; left).
  rewrite !filter_cons, E. repeat case_decide; tauto || done.
Qed.

Lemma children_loop_spec p cs olds changes :
  NoDup cs.*1 →
  (∀ name c a o ch, (name, c) ∈ cs →
    addChanges (p ++ [name]) a c o ch = ch ++ diff (p ++ [name]) a c o) →
  children_loop p cs olds changes =
    (gone cs olds, changes ++ mbind (child_diff p olds) cs).
Proof.
  revert olds changes. induction cs as [|[name c] cs IH]; intros olds changes Hnd Hacc.
  { cbn. rewrite app_nil_r. f_equal. unfold gone. symmetry. induction olds as [|x olds IHo]; [done|].
    rewrite filter_cons, IHo, decide_True; [done|apply not_elem_of_nil]. }
  apply NoDup_cons in Hnd as [Hn Hnd].
  assert (∀ olds', (∀ n, n ≠ name → child n olds' = child n olds) →
    mbind (child_diff p olds') cs = mbind (child_diff p olds) cs) as Hmb.
  { intros olds' Ho. clear -Hn Ho. induction cs as [|[n d] cs IHc]; [done|].
    cbn in Hn. apply not_elem_of_cons in Hn as [Hne Hn]. rewrite !bind_cons, IHc by done.
    f_equal. unfold child_diff. simpl. by rewrite Ho by done. }
  assert (∀ name' c' a o ch, (name', c') ∈ cs →
    addChanges (p ++ [name']) a c' o ch = ch ++ diff (p ++ [name']) a c' o) as Hacc'
    by (intros; apply Hacc; by right).
  rewrite bind_cons. unfold child_diff at 1. cbn [children_loop fst snd].
  destruct (child name olds) as [o|] eqn:E.
  - rewrite IH, Hacc by (done || by left). f_equal.
    + unfold gone, without. rewrite list_filter_filter. apply list_filter_iff. intros [n d]. simpl.
      rewrite not_elem_of_cons. tauto.
    + rewrite Hmb by (intros; by rewrite child_without, decide_False by done).
      rewrite !(assoc_L (++)). do 2 f_equal. destruct (differs o c); [done|by rewrite app_nil_r].
  - rewrite IH, Hacc by (done || by left). f_equal; [|by rewrite (assoc_L (++))].
    unfold gone. apply filter_ext_in. intros [n d] Hin. simpl. rewrite not_elem_of_cons.
    apply child_None in E. split; [|tauto]. split; [|done]. intros ->. destruct E.
    apply list_elem_of_fmap. by exists (name, d).
Qed.

(** What [addChanges] adds at the node itself. *)
Definition own_change (p : path) (added : bool) (info : FileInfo) (oldInfo : option FileInfo) :
    list Change :=
  match oldInfo with
  | None => [mkChange p ChangeAdd]
  | Some _ =>
      if decide (body p info oldInfo ≠ [] ∧ isDir p info = true ∧ added = false ∧ p ≠ [])
      then [mkChange p ChangeModify] else []
  end.

Lemma addChanges_app p info :
  info_wf p info → ∀ added oldInfo changes,
  addChanges p added info oldInfo changes =
    changes ++ own_change p added info oldInfo ++ body p info oldInfo.
Proof.
  induction 1 as [p info Hnd _ _ IH]. intros added oldInfo changes.
  assert (∀ name c a o ch, (name, c) ∈ fi_children info →
    addChanges (p ++ [name]) a c o ch = ch ++ diff (p ++ [name]) a c o) as Hacc.
  { intros name c a o ch Hin. unfold diff. by rewrite !(IH name c Hin). }
  rewrite addChanges_unfold. cbv zeta. rewrite (children_loop_spec p _ _ _ Hnd Hacc).
  rewrite <- (assoc_L (++)). fold (body p info oldInfo).
  unfold own_change. destruct oldInfo as [o|].
  - rewrite length_app. destruct (body p info (Some o)) as [|c b].
    + rewrite decide_False by (intros [? _]; simpl in *; lia).
      rewrite decide_False by (by intros [? _]). done.
    + destruct (decide (c :: b ≠ [] ∧ isDir p info = true ∧ added = false ∧ p ≠ [])) as [[_ ?]|Hn].
      * rewrite decide_True by (simpl; split; [lia|done]).
        by rewrite take_app_length, drop_app_length.
      * rewrite decide_False; [done|]. intros [_ ?]. by destruct Hn.
  - rewrite decide_False by (by intros (_ & _ & ? & _)). by rewrite <- (assoc_L (++)).
Qed.

Lemma diff_eq p added info oldInfo :
  info_wf p info →
  diff p added info oldInfo = own_change p added info oldInfo ++ body p info oldInfo.
Proof. intros. unfold diff. by rewrite addChanges_app. Qed.

(** ** Reported changes, one level down *)

Lemma LookUp_cons info name q : LookUp info (name :: q) = child name (fi_children info) ≫= λ c, LookUp c q.
Proof. simpl. by destruct (child name (fi_children info)). Qed.

Lemma LookUp_app info q1 q2 : LookUp info (q1 ++ q2) = LookUp info q1 ≫= λ c, LookUp c q2.
Proof.
  revert info. induction q1 as [|n q1 IH]; intros info; [done|]. rewrite <- app_comm_cons, !LookUp_cons.
  destruct (child n (fi_children info)); simpl; [apply IH|done].
Qed.

Definition old_child (old : option FileInfo) (name : string) : option FileInfo :=
  old ≫= λ o, child name (fi_children o).

Lemma old_at_cons old name q : old_at old (name :: q) = old_at (old_child old name) q.
Proof. destruct old as [o|]; [|done]. unfold old_at, old_child. simpl. by destruct (child name _). Qed.

Section one_level.
Context (p : path) (old : option FileInfo) (info : FileInfo) (name : string).

Lemma reported_absent q k :
  child name (fi_children info) = None →
  reported p old info (name :: q) k ↔
    q = [] ∧ k = ChangeDelete ∧ is_Some (old_child old name) ∧ isDir p info = true.
Proof.
  intros Hc. assert (∀ q, LookUp info (name :: q) = None) as Hn
    by (intros; by rewrite LookUp_cons, Hc).
  split.
  - destruct k; simpl.
    + intros [(_ & o & n & _ & ? & _)|(o & n & r & _ & ? & _)]; by rewrite Hn in *.
    + intros [[? Hl] _]. by rewrite Hn in Hl.
    + intros (dir & n & d & Hq & Ho & _ & Hd & Hdir). destruct dir as [|n' dir].
      * simpl in *. injection Hq as -> ->. injection Hd as ->. rewrite app_nil_r in Hdir.
        rewrite old_at_cons in Ho. unfold old_at in Ho.
        destruct (old_child old n); [by eauto|]. by destruct Ho.
      * simpl in Hq. injection Hq as <- ->. by rewrite Hn in Hd.
  - intros (-> & -> & [o Ho] & Hd). exists [], name, info. rewrite app_nil_r.
    rewrite old_at_cons, Ho, Hn. repeat split; eauto.
Qed.

Context (d : FileInfo) (Hd : child name (fi_children info) = Some d).
Local Notation oc := (old_child old name).
Local Notation p' := (p ++ [name]).

Lemma LookUp_child q : LookUp info (name :: q) = LookUp d q.
Proof. by rewrite LookUp_cons, Hd. Qed.

Lemma path_child q : p ++ name :: q = p' ++ q.
Proof. by rewrite <- (assoc_L (++)). Qed.

Lemma added_child q : added_at old info (name :: q) ↔ added_at oc d q.
Proof. unfold added_at. by rewrite LookUp_child, old_at_cons. Qed.

Lemma deleted_child q : deleted_at p old info (name :: q) ↔ deleted_at p' oc d q.
Proof.
  unfold deleted_at. split.
  - intros (dir & n & e & Hq & Ho & Hn & He & Hdir). rewrite LookUp_child, old_at_cons in *.
    destruct dir as [|n' dir]; simpl in Hq; injection Hq as <- ->; [discriminate Hn|].
    exists dir, n, e. rewrite LookUp_child in He. rewrite path_child in Hdir. done.
  - intros (dir & n & e & -> & Ho & Hn & He & Hdir). exists (name :: dir), n, e.
    by rewrite !LookUp_child, old_at_cons, path_child.
Qed.

Definition differs_here : Prop := ∃ o, oc = Some o ∧ differs o d = true.

Lemma altered_child q :
  altered_at old info (name :: q) ↔ altered_at oc d q ∨ (q = [] ∧ differs_here).
Proof.
  unfold altered_at. rewrite LookUp_child, old_at_cons. split.
  - intros (_ & o & n & Ho & Hn & Hdif). destruct q as [|m q]; [|left; split; [done|eauto 10]].
    right. split; [done|]. injection Hn as <-. unfold old_at in Ho.
    exists o. destruct (old_child old name) as [o'|]; [|done]. injection Ho as ->. done.
  - intros [[_ H]|[-> (o & Ho & Hdif)]]; (split; [done|]); [done|].
    exists o, d. unfold old_at. by rewrite Ho.
Qed.

Lemma touched_child q :
  touched p old info (name :: q) ↔ touched p' oc d q ∨ (q = [] ∧ differs_here).
Proof. unfold touched. rewrite added_child, deleted_child, altered_child. tauto. Qed.

Lemma parent_child q : parent_at p old info (name :: q) ↔ parent_at p' oc d q.
Proof.
  unfold parent_at. rewrite LookUp_child, old_at_cons, path_child. split.
  - intros (o & n & r & Ho & Hn & Hdir & Hne & Hr & Ht). exists o, n, r.
    rewrite <- app_comm_cons, touched_child in Ht. destruct Ht as [Ht|[Hq _]]; [done|].
    by apply app_eq_nil in Hq as [_ ->].
  - intros (o & n & r & Ho & Hn & Hdir & Hne & Hr & Ht). exists o, n, r.
    rewrite <- app_comm_cons, touched_child. by repeat (split; [done|]); left.
Qed.

Lemma reported_child q k :
  reported p old info (name :: q) k ↔
    reported p' oc d q k ∨ (q = [] ∧ k = ChangeModify ∧ differs_here).
Proof.
  destruct k; simpl.
  - rewrite altered_child, parent_child. intuition.
  - rewrite added_child. intuition congruence.
  - rewrite deleted_child. intuition congruence.
Qed.
End one_level.

(** ** Which changes are in the list *)

(** [c] is what is to be reported of some path; [added] tells that the modification
    of the root itself has been reported already. *)
Definition reports (p : path) (added : bool) (old : option FileInfo) (info : FileInfo) (c : Change) :
    Prop :=
  ∃ q, ch_Path c = p ++ q ∧ (q = [] → ch_Kind c = ChangeModify → added = false) ∧
    reported p old info q (ch_Kind c).

Definition reports_below (p : path) (old : option FileInfo) (info : FileInfo) (c : Change) : Prop :=
  ∃ name q, ch_Path c = p ++ name :: q ∧ reported p old info (name :: q) (ch_Kind c).

Lemma old_children_child p info old name :
  isDir p info = true → child name (old_children p info old) = old_child old name.
Proof. intros Hd. unfold old_children. destruct old as [o|]; [|done]. by rewrite Hd. Qed.

Lemma elem_of_deleted p info old c :
  info_wf p info →
  c ∈ ((λ nc : string * FileInfo, mkChange (p ++ [nc.1]) ChangeDelete) <$>
         gone (fi_children info) (old_children p info old)) ↔
  ∃ name, child name (fi_children info) = None ∧ isDir p info = true ∧
    is_Some (old_child old name) ∧ c = mkChange (p ++ [name]) ChangeDelete.
Proof.
  intros Hwf. rewrite list_elem_of_fmap. unfold gone, old_children. split.
  - intros ([name o] & -> & [Hn Hin]%list_elem_of_filter). exists name.
    destruct old as [o'|]; [|by apply not_elem_of_nil in Hin].
    destruct (isDir p info); [|by apply not_elem_of_nil in Hin].
    split; [by apply child_None|]. split; [done|]. split; [|done].
    destruct (child name (fi_children o')) eqn:E; [simpl; by rewrite E|].
    apply child_None in E. destruct E. apply list_elem_of_fmap. by exists (name, o).
  - intros (name & Hn%child_None & Hd & [o Ho] & ->). rewrite Hd.
    destruct old as [o'|]; [|done]. simpl in Ho.
    destruct (decide (name ∈ (fi_children o').*1)) as [Hin|Hin].
    + apply list_elem_of_fmap in Hin as ([n c] & -> & Hin). exists (n, c). split; [done|].
      by apply list_elem_of_filter.
    + apply child_None in Hin. congruence.
Qed.

Section membership.
Context (p : path) (info : FileInfo) (old : option FileInfo) (Hwf : info_wf p info).
Hypothesis IH : ∀ name d, (name, d) ∈ fi_children info → ∀ added old' c,
  c ∈ diff (p ++ [name]) added d old' ↔ reports (p ++ [name]) added old' d c.

Lemma elem_of_child_diff name d c :
  isDir p info = true → (name, d) ∈ fi_children info →
  c ∈ child_diff p (old_children p info old) (name, d) ↔
  ∃ q, ch_Path c = p ++ name :: q ∧ reported p old info (name :: q) (ch_Kind c).
Proof using Hwf IH.
  intros Hd Hin. inversion Hwf as [? ? Hnd _ _]; subst.
  assert (child name (fi_children info) = Some d) as Hc by (by apply child_Some).
  unfold child_diff. simpl. rewrite old_children_child by done.
  assert (∀ q, p ++ name :: q = (p ++ [name]) ++ q) as Hp by (intros; by rewrite <- (assoc_L (++))).
  setoid_rewrite Hp. setoid_rewrite (reported_child p old info name d Hc).
  unfold differs_here. destruct (old_child old name) as [o|] eqn:Eo.
  - rewrite elem_of_app, (IH name d Hin). unfold reports.
    destruct (differs o d) eqn:Ed.
    + rewrite list_elem_of_singleton. split.
      * intros [->|(q & Hq & _ & Hr)]; [|exists q; split; [done|by left]]. exists []. simpl.
        rewrite app_nil_r. split; [done|]. right. eauto.
      * intros (q & Hq & [Hr|(-> & Hk & _)]).
        -- destruct (decide (q = [] ∧ ch_Kind c = ChangeModify)) as [[-> Hk]|Hne].
           ++ left. destruct c as [cp ck]; simpl in *. by rewrite Hk, Hq, app_nil_r.
           ++ right. exists q. split; [done|]. split; [|done]. intros -> Hk. by destruct Hne.
        -- left. destruct c as [cp ck]; simpl in *. by rewrite Hk, Hq, app_nil_r.
    + rewrite elem_of_nil. split.
      * intros [[]|(q & Hq & _ & Hr)]. exists q. split; [done|by left].
      * intros (q & Hq & [Hr|(_ & _ & o' & [= <-] & Hdif)]); [|congruence]. right. by exists q.
  - rewrite (IH name d Hin). unfold reports. split.
    + intros (q & Hq & _ & Hr). exists q. split; [done|by left].
    + intros (q & Hq & [Hr|(_ & _ & o' & ? & _)]); [|done]. exists q. done.
Qed.

Lemma elem_of_body c : c ∈ body p info old ↔ reports_below p old info c.
Proof using Hwf IH.
  unfold body, reports_below. rewrite elem_of_app, elem_of_deleted by done.
  inversion Hwf as [? ? Hnd Hdir _]; subst.
  destruct (isDir p info) eqn:Hd.
  - split.
    + intros [Hin|(name & Hn & _ & Ho & ->)].
      * apply list_elem_of_bind in Hin as ([name d] & Hc & Hin).
        apply elem_of_child_diff in Hc as [q Hq]; [by exists name, q|done|done].
      * exists name, []. split; [done|]. by apply reported_absent.
    + intros (name & q & Hp & Hr). destruct (child name (fi_children info)) as [d|] eqn:Hc.
      * left. apply list_elem_of_bind. exists (name, d). apply child_Some in Hc as Hin; [|done].
        split; [|done]. apply elem_of_child_diff; [done|done|]. by exists q.
      * right. exists name. apply reported_absent in Hr as (-> & Hk & Ho & _); [|done].
        repeat (split; [done|]). destruct c; simpl in *; by subst.
  - rewrite (Hdir eq_refl). split; [intros [?%not_elem_of_nil|(? & _ & ? & _)]; done|].
    intros (name & q & _ & Hr). apply reported_absent in Hr as (_ & _ & _ & ?); [congruence|].
    by rewrite (Hdir eq_refl).
Qed.

Lemma body_non_empty : body p info old ≠ [] ↔ ∃ r, r ≠ [] ∧ touched p old info r.
Proof using Hwf IH.
  split.
  - intros Hb. destruct (body p info old) as [|c b] eqn:Eb; [done|].
    assert (c ∈ body p info old) as (name & q & _ & Hr)%elem_of_body by (rewrite Eb; left).
    unfold reported in Hr. destruct (ch_Kind c).
    + destruct Hr as [Ha|(o & n & r & _ & _ & _ & _ & _ & Ht)]; [|by exists ((name :: q) ++ r)].
      exists (name :: q). split; [done|]. by right; right.
    + exists (name :: q). split; [done|]. by left.
    + exists (name :: q). split; [done|]. by right; left.
  - intros (r & Hr & Ht) Hb. destruct r as [|name q]; [done|].
    assert (∃ k, reported p old info (name :: q) k) as [k Hk].
    { destruct Ht as [?|[?|?]]; [by exists ChangeAdd|by exists ChangeDelete|].
      exists ChangeModify. by left. }
    apply (not_elem_of_nil (mkChange (p ++ name :: q) k)). rewrite <- Hb. apply elem_of_body.
    by exists name, q.
Qed.

Lemma elem_of_own added c :
  c ∈ own_change p added info old ↔
  ch_Path c = p ∧ (ch_Kind c = ChangeModify → added = false) ∧ reported p old info [] (ch_Kind c).
Proof using Hwf IH.
  pose proof body_non_empty as Hbne.
  assert (∀ o, ¬ altered_at old info [] ∧ (old = Some o → ¬ added_at old info []) ∧
    ¬ deleted_at p old info []) as Hnil.
  { intros o. split; [by intros []|]. split; [by intros -> []|].
    intros (dir & n & d & Hq & _). by destruct dir. }
  unfold own_change. destruct old as [o|].
  - specialize (Hnil o) as (Hna & Hnad & Hnd). case_decide as Hcond.
    + destruct Hcond as (Hb & Hdir & -> & Hp). apply Hbne in Hb as (r & Hr & Ht).
      rewrite list_elem_of_singleton. split.
      * intros ->. simpl. repeat (split; [done|]). right. exists o, info, r.
        rewrite app_nil_r. done.
      * destruct c as [cp ck]. simpl. intros (-> & _ & Hr'). destruct ck; [done|..]; exfalso.
        -- by apply Hnad.
        -- by apply Hnd.
    + rewrite elem_of_nil. split; [done|]. destruct c as [cp ck]. simpl.
      intros (-> & Hk & Hr). destruct ck.
      * destruct Hr as [?|(o' & n & r & Ho & [= <-] & Hdir & Hp & Hne & Ht)]; [done|].
        rewrite app_nil_r in *. apply Hcond. split; [apply Hbne; by exists r|].
        split; [done|]. split; [by apply Hk|done].
      * by apply Hnad.
      * by apply Hnd.
  - rewrite list_elem_of_singleton. split.
    + intros ->. simpl. split; [done|]. split; [done|]. split; [by eexists|done].
    + destruct c as [cp ck]. simpl. intros (-> & _ & Hr). specialize (Hnil info) as (Hna & _ & Hnd).
      destruct ck; [|done|done]. destruct Hr as [?|(o' & n & r & ? & _)]; done.
Qed.
End membership.

Lemma elem_of_diff p info :
  info_wf p info → ∀ added old c, c ∈ diff p added info old ↔ reports p added old info c.
Proof.
  induction 1 as [p info Hnd Hdir Hch IH]. intros added old c.
  assert (info_wf p info) as Hwf by (by constructor).
  rewrite diff_eq, elem_of_app by done. rewrite (elem_of_own p info old Hwf IH).
  rewrite (elem_of_body p info old Hwf IH). unfold reports, reports_below. split.
  - intros [(Hp & Hk & Hr)|(name & q & Hp & Hr)].
    + exists []. rewrite app_nil_r. done.
    + by exists (name :: q).
  - intros ([|name q] & Hp & Hk & Hr).
    + left. rewrite app_nil_r in Hp. auto.
    + right. eauto.
Qed.

(** ** The order of the list *)

(** [b] may come after [a]: it is neither the same path nor a directory above. *)
Definition may_follow (a b : Change) : Prop := ¬ ch_Path b `prefix_of` ch_Path a.

Lemma sorted_app {A} (R : A → A → Prop) l1 l2 :
  StronglySorted R l1 → StronglySorted R l2 → (∀ a b, a ∈ l1 → b ∈ l2 → R a b) →
  StronglySorted R (l1 ++ l2).
Proof.
  intros H1 H2 Hx. induction H1 as [|a l1 H1 IH Ha]; simpl; [done|]. constructor.
  - apply IH. intros x y Hin. apply Hx. by right.
  - apply Forall_app. split; [done|]. apply Forall_forall. intros y Hy. apply Hx; [left|done].
Qed.

Lemma prefix_snoc (p : path) n1 n2 q1 q2 : p ++ n1 :: q1 `prefix_of` p ++ n2 :: q2 → n1 = n2.
Proof. intros [k Hk]. rewrite <- (assoc_L (++)) in Hk. apply (inj (p ++.)) in Hk. by injection Hk. Qed.

(** Changes below different names. *)
Lemma may_follow_below p n1 n2 q1 q2 a b :
  ch_Path a = p ++ n1 :: q1 → ch_Path b = p ++ n2 :: q2 → n1 ≠ n2 → may_follow a b.
Proof. unfold may_follow. intros -> -> Hne Hp. apply Hne. symmetry. by eapply prefix_snoc. Qed.

Lemma sorted_below {A} p (f : A → list Change) (key : A → string) l :
  NoDup (key <$> l) →
  (∀ x, x ∈ l → StronglySorted may_follow (f x)) →
  (∀ x c, x ∈ l → c ∈ f x → ∃ q, ch_Path c = p ++ key x :: q) →
  StronglySorted may_follow (mbind f l).
Proof.
  intros Hnd Hs Hk. induction l as [|x l IH]; [constructor|]. rewrite bind_cons.
  cbn in Hnd. apply NoDup_cons in Hnd as [Hx Hnd]. apply sorted_app.
  - apply Hs. left.
  - apply IH; [done|..]; intros y; intros; [apply Hs|eapply Hk; [|done]]; by right.
  - intros a b Ha Hb. apply list_elem_of_bind in Hb as (y & Hb & Hy).
    destruct (Hk x a) as [q1 Hq1]; [left|done|]. destruct (Hk y b) as [q2 Hq2]; [by right|done|].
    eapply may_follow_below; [done|done|]. intros E. apply Hx. rewrite E.
    apply list_elem_of_fmap. by exists y.
Qed.

Lemma fmap_as_bind {A B} (f : A → B) l : f <$> l = mbind (λ x, [f x]) l.
Proof. induction l as [|x l IH]; [done|]. rewrite bind_cons, fmap_cons. simpl. by rewrite IH. Qed.

Lemma reported_root p old info k :
  is_Some old → reported p old info [] k → k = ChangeModify.
Proof.
  intros [o ->]. destruct k; [done|by intros [_ ?]|].
  intros (dir & n & d & Hq & _). by destruct dir.
Qed.

Lemma child_diff_sorted p olds name d :
  info_wf (p ++ [name]) d →
  (∀ added old, (∀ o, old = Some o → info_wf (p ++ [name]) o) →
     StronglySorted may_follow (diff (p ++ [name]) added d old)) →
  (∀ o, child name olds = Some o → info_wf (p ++ [name]) o) →
  StronglySorted may_follow (child_diff p olds (name, d)).
Proof.
  intros Hwf IH Ho. unfold child_diff. simpl.
  destruct (child name olds) as [o|] eqn:E; [|by apply IH].
  assert (StronglySorted may_follow (diff (p ++ [name]) (differs o d) d (Some o))) as Hs
    by (apply IH; intros ? [= <-]; by apply Ho).
  destruct (differs o d); [|done]. simpl. constructor; [done|]. apply Forall_forall.
  intros c Hc. apply elem_of_diff in Hc as (q & Hq & Hk & Hr); [|done].
  unfold may_follow. rewrite Hq. simpl. destruct q as [|n q].
  - apply reported_root in Hr; [|by eauto]. by specialize (Hk eq_refl Hr).
  - intros Hp%prefix_length. rewrite !length_app in Hp. simpl in Hp. lia.
Qed.

Lemma child_diff_below p olds name d c :
  info_wf (p ++ [name]) d → c ∈ child_diff p olds (name, d) → ∃ q, ch_Path c = p ++ name :: q.
Proof.
  intros Hwf. unfold child_diff. simpl. destruct (child name olds) as [o|].
  - intros [Hc|Hc]%elem_of_app.
    + destruct (differs o d); [|by apply not_elem_of_nil in Hc].
      apply list_elem_of_singleton in Hc as ->. by exists [].
    + apply elem_of_diff in Hc as (q & Hq & _); [|done]. exists q. by rewrite Hq, <- (assoc_L (++)).
  - intros Hc. apply elem_of_diff in Hc as (q & Hq & _); [|done]. exists q.
    by rewrite Hq, <- (assoc_L (++)).
Qed.

Lemma body_sorted p info old :
  info_wf p info → (∀ o, old = Some o → info_wf p o) →
  (∀ name d, (name, d) ∈ fi_children info → ∀ added old',
     (∀ o, old' = Some o → info_wf (p ++ [name]) o) →
     StronglySorted may_follow (diff (p ++ [name]) added d old')) →
  StronglySorted may_follow (body p info old).
Proof.
  intros Hwf Hold IH. inversion Hwf as [? ? Hnd Hdir Hch]; subst.
  assert (NoDup (old_children p info old).*1 ∧
    ∀ n o, (n, o) ∈ old_children p info old → info_wf (p ++ [n]) o) as [Hndo Hwfo].
  { unfold old_children. destruct old as [o|]; [|split; [constructor|by intros ? ? ?%not_elem_of_nil]].
    destruct (Hold o eq_refl) as [? ? Hno _ Hco].
    destruct (isDir _ info); [done|]. split; [constructor|by intros ? ? ?%not_elem_of_nil]. }
  unfold body. apply sorted_app.
  - apply (sorted_below p _ fst); [done|..].
    + intros [name d] Hin. apply child_diff_sorted; [by apply Hch|by apply IH|].
      intros o Ho. apply Hwfo. by apply child_Some in Ho.
    + intros [name d] c Hin Hc. eapply child_diff_below; [by apply Hch|done].
  - rewrite fmap_as_bind. apply (sorted_below p _ fst).
    + unfold gone. clear -Hndo. induction (old_children p info old) as [|x l IHl]; [constructor|].
      cbn in Hndo. apply NoDup_cons in Hndo as [Hx Hl]. rewrite filter_cons. case_decide; [|by apply IHl].
      cbn. constructor; [|by apply IHl]. intros Hin. apply Hx.
      apply list_elem_of_fmap in Hin as (y & -> & [_ Hy]%list_elem_of_filter).
      apply list_elem_of_fmap. by exists y.
    + intros x _. repeat constructor.
    + intros x c _ ->%list_elem_of_singleton. by exists [].
  - intros a b Ha Hb. apply list_elem_of_bind in Ha as ([name d] & Ha & Hin).
    apply child_diff_below in Ha as [q Hq]; [|by apply Hch].
    apply elem_of_deleted in Hb as (name' & Hn%child_None & _ & _ & ->); [|done].
    eapply may_follow_below; [done|done|]. intros ->. apply Hn.
    apply list_elem_of_fmap. by exists (name', d).
Qed.

Lemma diff_sorted p info :
  info_wf p info → ∀ added old, (∀ o, old = Some o → info_wf p o) →
  StronglySorted may_follow (diff p added info old).
Proof.
  induction 1 as [p info Hnd Hdir Hch IH]. intros added old Hold.
  assert (info_wf p info) as Hwf by (by constructor).
  rewrite diff_eq by done. apply sorted_app; [|by apply body_sorted|].
  - unfold own_change. destruct old; [case_decide|]; repeat constructor.
  - intros a b Ha Hb. apply (elem_of_own p info old Hwf) in Ha as [Ha _];
      [|intros; by apply elem_of_diff, Hch].
    apply (elem_of_body p info old Hwf) in Hb as (name & q & Hb & _);
      [|intros; by apply elem_of_diff, Hch].
    unfold may_follow. rewrite Ha, Hb. intros Hp%prefix_length. rewrite length_app in Hp.
    simpl in Hp. lia.
Qed.

(** C31: For any two well-formed trees the list of changes has exactly: an addition
    for every path that only the new tree has, a deletion for every path that only
    the old tree has and whose directory is still one, and a modification for every
    path (the root apart) that both have and whose metadata differ, or that is a
    directory with some other change inside; no path is listed twice, and a
    directory comes before what is in it. *)
Theorem Changes_exact new old :
  info_wf [] new → info_wf [] old →
  (∀ p k, mkChange p k ∈ Changes new (Some old) ↔ reported [] (Some old) new p k) ∧
  StronglySorted may_follow (Changes new (Some old)).
Proof.
  intros Hnew Hold. split.
  - intros p k. unfold Changes. fold (diff [] false new (Some old)).
    rewrite elem_of_diff by done. unfold reports. simpl. split.
    + by intros (q & -> & _ & Hr).
    + intros Hr. by exists p.
  - apply diff_sorted; [done|]. by intros o [= <-].
Qed.

(** ** On concrete trees *)

Definition demo_stat (mode size sec : Z) : StatT := mkStat mode 0 0 0 size (mkTimespec sec 0).
Definition demo_file (size sec : Z) : FileInfo := mkInfo (demo_stat (S_IFREG + 420) size sec) [] [].
Definition demo_dir (cs : list (string * FileInfo)) : FileInfo :=
  mkInfo (demo_stat (S_IFDIR + 493) 4096 7) [] cs.
Definition demo_old : FileInfo :=
  mkInfo nil_stat [] [("etc", demo_dir [("passwd", demo_file 10 1); ("group", demo_file 5 1)]);
                      ("tmp", demo_dir [("x", demo_file 1 1)])].
Definition demo_new : FileInfo :=
  mkInfo nil_stat [] [("etc", demo_dir [("shadow", demo_file 3 2); ("passwd", demo_file 12 2)]);
                      ("tmp", demo_file 0 3)].

(** A test for well-formed trees. *)
Fixpoint info_wfb (p : path) (info : FileInfo) : bool :=
  bool_decide (NoDup (fi_children info).*1) &&
  (isDir p info || bool_decide (length (fi_children info) = 0%nat)) &&
  forallb (λ nc, info_wfb (p ++ [nc.1]) nc.2) (fi_children info).

Lemma info_wfb_sound : ∀ info p, info_wfb p info = true → info_wf p info.
Proof.
  fix IH 1. intros [st cap cs] p. cbn [info_wfb fi_children].
  intros [[Hnd%bool_decide_eq_true Hd]%andb_true_iff Hch]%andb_true_iff. constructor.
  - done.
  - intros E. rewrite E in Hd. apply bool_decide_eq_true in Hd. by destruct cs.
  - cbn [fi_children]. clear Hnd Hd. induction cs as [|[n c] cs IHcs]; intros name d Hin.
    + by apply not_elem_of_nil in Hin.
    + cbn [forallb] in Hch. apply andb_true_iff in Hch as [Hc Hcs].
      apply elem_of_cons in Hin as [[= -> ->]|Hin]; [by apply IH|by apply IHcs].
Qed.

Example Changes_exact_witness :
  Changes demo_new (Some demo_old) =
    [mkChange ["etc"] ChangeModify; mkChange ["etc"; "shadow"] ChangeAdd;
     mkChange ["etc"; "passwd"] ChangeModify; mkChange ["etc"; "group"] ChangeDelete;
     mkChange ["tmp"] ChangeModify] ∧
  StronglySorted may_follow (Changes demo_new (Some demo_old)).
Proof. split; [reflexivity|]. apply (Changes_exact demo_new demo_old); by apply info_wfb_sound. Defined.

(** The test for a directory looks at one bit of the type, which block devices and
    sockets have too: the time of a block device is not compared, and a block device
    that replaces a directory has deletions reported inside it. *)
Definition demo_block (sec : Z) : FileInfo := mkInfo (demo_stat (S_IFBLK + 432) 0 sec) [] [].

Lemma block_device_is_dir :
  Changes (mkInfo nil_stat [] [("sda", demo_block 2)])
    (Some (mkInfo nil_stat [] [("sda", demo_block 1)])) = [] ∧
  Changes (mkInfo nil_stat [] [("sda", demo_block 2)])
    (Some (mkInfo nil_stat [] [("sda", demo_dir [("x", demo_file 1 1)])])) =
    [mkChange ["sda"] ChangeModify; mkChange ["sda"; "x"] ChangeDelete].
Proof. split; reflexivity. Qed.
