(* ===== verification/ChangesWalk.v ===== *)
(** * pkg/archive: collecting the two trees to compare

    The model of pkg/archive/changes_linux.go, which walks two directories in
    parallel and leaves out what has the same inode in both, of
    pkg/archive/changes_other.go, which walks each directory completely, and of
    [ChangesDirs].

    A directory tree of the host, as it is during the walk, is an [ftree].  The
    calls of the operating system that may fail are given by [fails]: the error of
    the call, or [None].  An inode number is the same in the directory entry and in
    the result of [Lstat] (no file system is mounted inside the trees). *)

From S2P Require Import Prelude Changes.

Abbreviation path := (list string) (only parsing).

Inductive ftree := mkFile {
  f_stat : StatT;
  f_dev : Z;
  f_ino : Z;
  f_cap : list Z;
  f_entries : list (string * ftree)
}.

(** [os.FileInfo.IsDir] *)
Definition IsDir (t : ftree) : bool := bool_decide (Z.land (st_mode (f_stat t)) S_IFMT = S_IFDIR).

Fixpoint entry (name : string) (es : list (string * ftree)) : option ftree :=
  match es with
  | [] => None
  | (n, t) :: es => if decide (n = name) then Some t else entry name es
  end.

(** The calls on one of the two directories ([false] is the first one). *)
Inductive syscall_op :=
| Lstat (second : bool) (p : path)
| Readdir (second : bool) (p : path).

Definition entry_le (a b : string * Z) : Prop := String.le a.1 b.1.
#[global] Instance entry_le_dec a b : Decision (entry_le a b) := _.

(** [readdirnames] *)
Definition readdirnames (t : ftree) : list (string * Z) :=
  merge_sort entry_le ((λ e, (e.1, f_ino e.2)) <$> f_entries t).

(** The names in either list, without those that have the same inode in both lists. *)
Fixpoint merge_names (sameDevice : bool) (names1 : list (string * Z)) :
    list (string * Z) → list string :=
  match names1 with
  | [] => λ names2, names2.*1
  | (n1, i1) :: rest1 =>
      fix merge2 (names2 : list (string * Z)) : list string :=
        match names2 with
        | [] => n1 :: rest1.*1
        | (n2, i2) :: rest2 =>
            match String.compare n1 n2 with
            | Lt => n1 :: merge_names sameDevice rest1 names2
            | Eq =>
                if negb (bool_decide (i1 = i2)) || negb sameDevice
                then n1 :: merge_names sameDevice rest1 rest2
                else merge_names sameDevice rest1 rest2
            | Gt => n2 :: merge2 rest2
            end
        end
  end.

(** [parent.children[name] = info] *)
Fixpoint set_child (name : string) (info : FileInfo) (cs : list (string * FileInfo)) :
    list (string * FileInfo) :=
  match cs with
  | [] => [(name, info)]
  | (n, c) :: cs => if decide (n = name) then (n, info) :: cs else (n, c) :: set_child name info cs
  end.

(** Adds [info] to the children of the node at [dir], if there is one. *)
Fixpoint add_child (root : FileInfo) (dir : path) (name : string) (info : FileInfo) :
    option FileInfo :=
  match dir with
  | [] => Some (mkInfo (fi_stat root) (fi_capability root) (set_child name info (fi_children root)))
  | elem :: dir =>
      match child elem (fi_children root) with
      | None => None
      | Some c =>
          match add_child c dir name info with
          | None => None
          | Some c' =>
              Some (mkInfo (fi_stat root) (fi_capability root) (set_child elem c' (fi_children root)))
          end
      end
  end.

(** [info] of a file: [system.FromStatT] keeps what [f_stat] has. *)
Definition file_info (t : ftree) : FileInfo := mkInfo (f_stat t) (f_cap t) [].

(** [filepath.Dir] and [filepath.Base] of a path that is not the root. *)
Definition Dir (p : path) : path := removelast p.
Definition Base (p : path) : string := List.last p "/".

Section walk.
Context (fails : syscall_op → option string).

Definition call {S A} (op : syscall_op) (s : S) (a : A) : S * outcome string A :=
  match fails op with Some e => (s, Err e) | None => (s, Ok a) end.

Definition walkchunk (p : path) (fi : option ftree) (root : FileInfo) :
    FileInfo * outcome string unit :=
  match fi with
  | None => (root, Ok tt)
  | Some t =>
      match add_child root (Dir p) (Base p) (file_info t) with
      | None => (root, Err "collectFileInfoForChanges: Unexpectedly no parent")
      | Some root => (root, Ok tt)
      end
  end.

Abbreviation roots := (FileInfo * FileInfo)%type.

(** Registers the two nodes of [p], unless it is the root. *)
Definition chunks (p : path) (i1 i2 : option ftree) (w : roots) : roots * outcome string unit :=
  if decide (p = []) then (w, Ok tt) else
  let '(r1, e) := walkchunk p i1 w.1 in
  match e with
  | Ok _ => let '(r2, e) := walkchunk p i2 w.2 in ((r1, r2), e)
  | _ => ((r1, w.2), e)
  end.

Definition is_dir (i : option ftree) : bool := match i with Some t => IsDir t | None => false end.

Definition dir_names (second : bool) (p : path) (i : option ftree) (w : roots) :
    roots * outcome string (list (string * Z)) :=
  match i with
  | Some t => if IsDir t then call (Readdir second p) w (readdirnames t) else (w, Ok [])
  | None => (w, Ok [])
  end.

(** [os.Lstat] of a name in one of the two directories, if it is a directory; a
    missing file is no error. *)
Definition lstat_child (second : bool) (p : path) (i : option ftree) (name : string) (w : roots) :
    roots * outcome string (option ftree) :=
  match i with
  | Some t =>
      if IsDir t then call (Lstat second (p ++ [name])) w (entry name (f_entries t)) else (w, Ok None)
  | None => (w, Ok None)
  end.

(** The loop over the names, with the recursive call as an argument. *)
Fixpoint walk_names
    (walk_child : path → option ftree → option ftree → roots → roots * outcome string unit)
    (p : path) (i1 i2 : option ftree) (names : list string) (w : roots) :
    roots * outcome string unit :=
  match names with
  | [] => (w, Ok tt)
  | name :: names =>
      let! (w, c1) := lstat_child false p i1 name w in
      let! (w, c2) := lstat_child true p i2 name w in
      let! (w, _) := walk_child (p ++ [name]) c1 c2 w in
      walk_names walk_child p i1 i2 names w
  end.

(** What [walk] does after it has registered the nodes. *)
Definition walk_dirs
    (walk_child : path → option ftree → option ftree → roots → roots * outcome string unit)
    (p : path) (i1 i2 : option ftree) (w : roots) : roots * outcome string unit :=
  if negb (is_dir i1) && negb (is_dir i2) then (w, Ok tt)
  else
    let sameDevice :=
      match i1, i2 with
      | Some t1, Some t2 => bool_decide (f_dev t1 = f_dev t2)
      | _, _ => false
      end in
    let! (w, names1) := dir_names false p i1 w in
    let! (w, names2) := dir_names true p i2 w in
    walk_names walk_child p i1 i2 (merge_names sameDevice names1 names2) w.

Fixpoint walk (fuel : nat) (p : path) (i1 i2 : option ftree) (w : roots) :
    roots * outcome string unit :=
  match fuel with
  | O => (w, Diverge)
  | S fuel =>
      let! (w, _) := chunks p i1 i2 w in
      walk_dirs (walk fuel) p i1 i2 w
  end.

(** A tree is at most as deep as it has nodes. *)
Fixpoint tree_size (t : ftree) : nat :=
  match t with
  | mkFile _ _ _ _ es => S (foldr (λ e n, tree_size e.2 + n)%nat 0%nat es)
  end.

(** [collectFileInfoForChanges] of changes_linux.go *)
Definition collectFileInfoForChanges (dir1 dir2 : ftree) : outcome string (FileInfo * FileInfo) :=
  let w := (newRootFileInfo, newRootFileInfo) in
  let r :=
    let! (w, i1) := call (Lstat false []) w dir1 in
    let! (w, i2) := call (Lstat true []) w dir2 in
    let! (w, _) := walk (S (tree_size dir1 + tree_size dir2)) [] (Some i1) (Some i2) w in
    (w, Ok w) in
  r.2.

Fixpoint collect_names
    (collect_child : path → ftree → FileInfo → FileInfo * outcome string unit)
    (second : bool) (p : path) (t : ftree) (names : list string) (root : FileInfo) :
    FileInfo * outcome string unit :=
  match names with
  | [] => (root, Ok tt)
  | name :: names =>
      let! (root, c) := call (Lstat second (p ++ [name])) root (entry name (f_entries t)) in
      match c with
      | None => (root, Err "no such file")
      | Some c =>
          let! (root, _) := walkchunk (p ++ [name]) (Some c) root in
          let! (root, _) := collect_child (p ++ [name]) c root in
          collect_names collect_child second p t names root
      end
  end.

(** [filepath.Walk] with the function of [collectFileInfo] below the directory [t]
    at [p]. *)
Fixpoint collect (fuel : nat) (second : bool) (p : path) (t : ftree) (root : FileInfo) :
    FileInfo * outcome string unit :=
  match fuel with
  | O => (root, Diverge)
  | S fuel =>
      if negb (IsDir t) then (root, Ok tt)
      else
        let! (root, names) := call (Readdir second p) root (readdirnames t).*1 in
        collect_names (collect fuel second) second p t names root
  end.

Definition collectFileInfo (second : bool) (sourceDir : ftree) : outcome string FileInfo :=
  let r :=
    let! (root, _) := call (Lstat second []) newRootFileInfo tt in
    let! (root, _) := collect (S (tree_size sourceDir)) second [] sourceDir root in
    (root, Ok root) in
  r.2.

(** [collectFileInfoForChanges] of changes_other.go *)
Definition collectFileInfoForChanges_other (oldDir newDir : ftree) :
    outcome string (FileInfo * FileInfo) :=
  match collectFileInfo false oldDir with
  | Ok r1 =>
      match collectFileInfo true newDir with
      | Ok r2 => Ok (r1, r2)
      | Err e => Err e
      | Panic m => Panic m
      | Diverge => Diverge
      end
  | Err e => Err e
  | Panic m => Panic m
  | Diverge => Diverge
  end.
End walk.

(** [ChangesDirs] with one of the two; the old directory is [None] for "", and then
    a new temporary directory, which may fail to be created. *)
Definition ChangesDirs (collector : ftree → ftree → outcome string (FileInfo * FileInfo))
    (newDir : ftree) (oldDir : option ftree) (TempDir : string + ftree) : outcome string (list Change) :=
  let compare old :=
    match collector old newDir with
    | Ok (oldRoot, newRoot) => Ok (Changes newRoot (Some oldRoot))
    | Err e => Err e
    | Panic m => Panic m
    | Diverge => Diverge
    end in
  match oldDir with
  | Some d => compare d
  | None => match TempDir with inl e => Err e | inr d => compare d end
  end.
