(* ===== verification/ChangesWalkInv.v ===== *)
(** * pkg/archive: the pruned walk finds the same changes

    The walk of changes_linux.go leaves out what has the same inode in both trees;
    the changes between the trees it returns are those between the complete trees
    that changes_other.go collects. *)

From S2P Require Import Prelude Changes ChangesInv ChangesWalk.
#[local] Open Scope nat_scope.

(** ** The names of two directories *)

Definition entry_lt (a b : string * Z) : Prop := entry_le a b ∧ a.1 ≠ b.1.

Lemma compare_lt_le a b : String.compare a b = Lt → String.le a b ∧ a ≠ b.
Proof.
  intros E. split; [unfold String.le, String.leb; by rewrite E|].
  intros ->. pose proof (String.compare_antisym b b) as E'. by rewrite E in E'.
Qed.

Lemma entry_le_lt_neq n1 n2 i2 l (x : string * Z) :
  String.compare n1 n2 = Lt → StronglySorted entry_lt ((n2, i2) :: l) →
  x ∈ (n2, i2) :: l → n1 ≠ x.1.
Proof.
  intros [Hle Hne]%compare_lt_le Hs Hx E. apply elem_of_cons in Hx as [->|Hx]; [done|].
  apply StronglySorted_inv in Hs as [_ Hall]. rewrite Forall_forall in Hall.
  destruct (Hall x Hx) as [Hle' _]. unfold entry_le in Hle'. simpl in *. subst n1.
  apply Hne. by apply (anti_symm String.le).
Qed.

Definition pruned (same : bool) (l1 l2 : list (string * Z)) (n : string) : Prop :=
  same = true ∧ ∃ i, (n, i) ∈ l1 ∧ (n, i) ∈ l2.

Lemma elem_of_fst {B} (n : string) (l : list (string * B)) : n ∈ l.*1 ↔ ∃ i, (n, i) ∈ l.
Proof.
  rewrite list_elem_of_fmap. split.
  - intros ([m i] & -> & Hin). by exists i.
  - intros [i Hin]. by exists (n, i).
Qed.

Lemma merge_names_cons same n1 i1 l1 n2 i2 l2 :
  merge_names same ((n1, i1) :: l1) ((n2, i2) :: l2) =
    match String.compare n1 n2 with
    | Lt => n1 :: merge_names same l1 ((n2, i2) :: l2)
    | Eq => if negb (bool_decide (i1 = i2)) || negb same
            then n1 :: merge_names same l1 l2 else merge_names same l1 l2
    | Gt => n2 :: merge_names same ((n1, i1) :: l1) l2
    end.
Proof. done. Qed.

Lemma head_not_in n i (l : list (string * Z)) :
  StronglySorted entry_lt ((n, i) :: l) → n ∉ l.*1.
Proof.
  intros [_ Hall]%StronglySorted_inv [j Hin]%elem_of_fst.
  rewrite Forall_forall in Hall. by destruct (Hall _ Hin).
Qed.

Lemma sorted_NoDup (l : list (string * Z)) : StronglySorted entry_lt l → NoDup l.*1.
Proof.
  induction l as [|[n i] l IH]; intros Hs; [constructor|]. cbn. constructor.
  - by eapply head_not_in.
  - apply IH. by apply StronglySorted_inv in Hs as [? _].
Qed.

Lemma pruned_in same l1 l2 n : pruned same l1 l2 n → n ∈ l1.*1 ∧ n ∈ l2.*1.
Proof. intros (_ & i & H1 & H2). split; apply elem_of_fst; by exists i. Qed.

Lemma pruned_cons_l same n1 i1 l1 l2 n :
  n ≠ n1 → pruned same ((n1, i1) :: l1) l2 n ↔ pruned same l1 l2 n.
Proof. intros Hn. unfold pruned. setoid_rewrite elem_of_cons. naive_solver. Qed.

Lemma pruned_cons_r same n2 i2 l1 l2 n :
  n ≠ n2 → pruned same l1 ((n2, i2) :: l2) n ↔ pruned same l1 l2 n.
Proof. intros Hn. unfold pruned. setoid_rewrite elem_of_cons. naive_solver. Qed.

Lemma pruned_heads same n i1 i2 l1 l2 :
  n ∉ l1.*1 → n ∉ l2.*1 →
  pruned same ((n, i1) :: l1) ((n, i2) :: l2) n ↔ same = true ∧ i1 = i2.
Proof.
  rewrite !elem_of_fst. intros H1 H2. unfold pruned. setoid_rewrite elem_of_cons. split.
  - intros (Hs & i & [[= <-]|Hi] & [[= <-]|Hi']); naive_solver.
  - intros [-> ->]. split; [done|]. exists i2. auto.
Qed.

(** The merged list has the names of either list, less the pruned ones. *)
Lemma merge_names_spec same l1 l2 :
  StronglySorted entry_lt l1 → StronglySorted entry_lt l2 →
  NoDup (merge_names same l1 l2) ∧
  ∀ n, n ∈ merge_names same l1 l2 ↔ (n ∈ l1.*1 ∨ n ∈ l2.*1) ∧ ¬ pruned same l1 l2 n.
Proof.
  revert l2. induction l1 as [|[n1 i1] l1 IH1]; intros l2 Hs1 Hs2.
  { simpl. split; [by apply sorted_NoDup|]. intros n. split.
    - intros Hn. split; [by right|]. intros [Hi _]%pruned_in. by apply not_elem_of_nil in Hi.
    - intros [[Hn|Hn] _]; [by apply not_elem_of_nil in Hn|done]. }
  induction l2 as [|[n2 i2] l2 IH2].
  { simpl. split; [by apply (sorted_NoDup ((n1, i1) :: l1))|]. intros n. split.
    - intros Hn. split; [by left|]. intros [_ Hi]%pruned_in. by apply not_elem_of_nil in Hi.
    - intros [[Hn|Hn] _]; [done|by apply not_elem_of_nil in Hn]. }
  pose proof (StronglySorted_inv Hs1) as [Hs1' _]. pose proof (StronglySorted_inv Hs2) as [Hs2' _].
  pose proof (head_not_in _ _ _ Hs1) as Hh1. pose proof (head_not_in _ _ _ Hs2) as Hh2.
  rewrite merge_names_cons. destruct (String.compare n1 n2) eqn:Ec.
  - apply String.compare_eq_iff in Ec as <-. destruct (IH1 l2 Hs1' Hs2') as [Hnd Hin].
    assert (∀ n, n ≠ n1 → n ∈ merge_names same l1 l2 ↔
      (n ∈ ((n1, i1) :: l1).*1 ∨ n ∈ ((n1, i2) :: l2).*1) ∧
      ¬ pruned same ((n1, i1) :: l1) ((n1, i2) :: l2) n) as Hne.
    { intros n Hn. rewrite Hin, pruned_cons_l, pruned_cons_r by done. cbn.
      rewrite !elem_of_cons. naive_solver. }
    assert (n1 ∉ merge_names same l1 l2) as Hn1 by (rewrite Hin; tauto).
    destruct (negb (bool_decide (i1 = i2)) || negb same) eqn:Ek.
    + split; [by constructor|]. intros n. rewrite elem_of_cons.
      destruct (decide (n = n1)) as [->|Hn]; [|rewrite Hne by done; tauto].
      rewrite pruned_heads by done. split; [|tauto]. intros _. split; [left; left|].
      intros [-> ->]. by rewrite bool_decide_eq_true_2 in Ek.
    + split; [done|]. intros n. destruct (decide (n = n1)) as [->|Hn]; [|by apply Hne].
      rewrite pruned_heads by done. apply orb_false_iff in Ek as [Ei Es].
      apply negb_false_iff in Ei, Es. apply bool_decide_eq_true in Ei. tauto.
  - destruct (IH1 ((n2, i2) :: l2) Hs1' Hs2) as [Hnd Hin].
    assert (n1 ∉ ((n2, i2) :: l2).*1) as Hn1.
    { intros [i Hi]%elem_of_fst. by apply (entry_le_lt_neq n1 n2 i2 l2 (n1, i) Ec Hs2 Hi). }
    split; [constructor; [rewrite Hin; tauto|done]|]. intros n. rewrite elem_of_cons, Hin.
    destruct (decide (n = n1)) as [->|Hn].
    + split; [|tauto]. intros _. split; [left; left|]. by intros [_ ?]%pruned_in.
    + rewrite pruned_cons_l by done. cbn. rewrite !elem_of_cons. tauto.
  - destruct (IH2 Hs2') as [Hnd Hin]. assert (String.compare n2 n1 = Lt) as Ec'
      by (by rewrite String.compare_antisym, Ec).
    assert (n2 ∉ ((n1, i1) :: l1).*1) as Hn2.
    { intros [i Hi]%elem_of_fst. by apply (entry_le_lt_neq n2 n1 i1 l1 (n2, i) Ec' Hs1 Hi). }
    split; [constructor; [rewrite Hin; tauto|done]|]. intros n. rewrite elem_of_cons, Hin.
    destruct (decide (n = n2)) as [->|Hn].
    + split; [|tauto]. intros _. split; [right; left|]. by intros [? _]%pruned_in.
    + rewrite pruned_cons_r by done. cbn. rewrite !elem_of_cons. tauto.
Qed.

#[global] Instance entry_le_trans : Transitive entry_le.
Proof. intros a b c. unfold entry_le. apply transitivity. Qed.
#[global] Instance entry_le_total : Total entry_le.
Proof. intros a b. unfold entry_le. apply (total String.le). Qed.

(** Directory trees of the host. *)
Inductive ftree_wf : ftree → Prop :=
| ftree_wf_intro t :
    NoDup (f_entries t).*1 → (IsDir t = false → f_entries t = []) →
    (∀ n c, (n, c) ∈ f_entries t → ftree_wf c) → ftree_wf t.

Lemma entry_Some n es c : NoDup es.*1 → entry n es = Some c ↔ (n, c) ∈ es.
Proof.
  induction es as [|[m d] es IH]; [by intros; split; [|intros ?%not_elem_of_nil]|].
  cbn. intros [Hm Hnd]%NoDup_cons. rewrite elem_of_cons. case_decide as E.
  - subst m. split; [intros [= ->]; by left|]. intros [[= ->]|Hin]; [done|].
    destruct Hm. apply elem_of_fst. by exists c.
  - rewrite IH by done. split; [by right|]. intros [[= -> ->]|]; [congruence|done].
Qed.

Lemma entry_wf t n c : ftree_wf t → entry n (f_entries t) = Some c → ftree_wf c.
Proof. intros [? Hnd _ Hch] He. eapply Hch. by apply entry_Some. Qed.

Lemma readdirnames_perm t : readdirnames t ≡ₚ (λ e, (e.1, f_ino e.2)) <$> f_entries t.
Proof. apply merge_sort_Permutation. Qed.

Lemma elem_of_readdirnames t n i :
  ftree_wf t → (n, i) ∈ readdirnames t ↔ ∃ c, entry n (f_entries t) = Some c ∧ f_ino c = i.
Proof.
  intros [? Hnd _ _]. rewrite readdirnames_perm, list_elem_of_fmap. split.
  - intros ([m c] & [= -> ->] & Hin). exists c. split; [by apply entry_Some|done].
  - intros (c & He & <-). exists (n, c). split; [done|]. by apply entry_Some.
Qed.

Lemma readdirnames_fst t n :
  ftree_wf t → n ∈ (readdirnames t).*1 ↔ is_Some (entry n (f_entries t)).
Proof.
  intros Hwf. rewrite elem_of_fst. split.
  - intros [i (c & Hc & _)%elem_of_readdirnames]; [by exists c|done].
  - intros [c Hc]. exists (f_ino c). apply elem_of_readdirnames; [done|]. by exists c.
Qed.

Lemma readdirnames_sorted t : ftree_wf t → StronglySorted entry_lt (readdirnames t).
Proof.
  intros Hwf. destruct Hwf as [t Hnd _ _].
  assert (NoDup (readdirnames t).*1) as Hnd'.
  { rewrite readdirnames_perm, <- list_fmap_compose. exact Hnd. }
  assert (StronglySorted entry_le (readdirnames t)) as Hs
    by (apply StronglySorted_merge_sort; apply _).
  induction Hs as [|x l Hs IH Hall]; [constructor|]. cbn in Hnd'. apply NoDup_cons in Hnd' as [Hx Hl].
  constructor; [by apply IH|]. rewrite Forall_forall in *. intros y Hy. split; [by apply Hall|].
  intros E. apply Hx. rewrite E. apply list_elem_of_fmap. by exists y.
Qed.

(** ** Adding a node to a tree *)

Definition info_attr (i : FileInfo) : StatT * list Z := (fi_stat i, fi_capability i).
Definition attr (root : FileInfo) (q : path) : option (StatT * list Z) := info_attr <$> LookUp root q.

Inductive names_ok : FileInfo → Prop :=
| names_ok_intro i :
    NoDup (fi_children i).*1 → (∀ n c, (n, c) ∈ fi_children i → names_ok c) → names_ok i.

Lemma child_set_child n name i cs :
  child n (set_child name i cs) = if decide (n = name) then Some i else child n cs.
Proof.
  induction cs as [|[m c] cs IH]; simpl.
  - repeat case_decide; congruence.
  - destruct (decide (m = name)) as [->|Hm]; simpl; [|rewrite IH]; repeat case_decide; congruence.
Qed.

Lemma set_child_names name i cs m :
  m ∈ (set_child name i cs).*1 ↔ m = name ∨ m ∈ cs.*1.
Proof.
  induction cs as [|[n c] cs IH]; cbn.
  - rewrite list_elem_of_singleton. split; [by left|]. intros [->|?%not_elem_of_nil]; done.
  - case_decide as E; cbn; rewrite !elem_of_cons, ?IH; [subst n|]; tauto.
Qed.

Lemma set_child_NoDup name i cs : NoDup cs.*1 → NoDup (set_child name i cs).*1.
Proof.
  induction cs as [|[m c] cs IH]; intros Hnd; simpl.
  - apply NoDup_singleton.
  - cbn in Hnd. apply NoDup_cons in Hnd as [Hm Hnd]. case_decide as E; cbn.
    + by constructor.
    + constructor; [|by apply IH]. rewrite set_child_names. naive_solver.
Qed.

Lemma elem_of_set_child n c name i cs :
  (n, c) ∈ set_child name i cs → c = i ∨ (n, c) ∈ cs.
Proof.
  induction cs as [|[m d] cs IH]; simpl.
  - intros [= -> ->]%list_elem_of_singleton. by left.
  - case_decide; rewrite !elem_of_cons; naive_solver.
Qed.

Lemma child_in n cs c : child n cs = Some c → (n, c) ∈ cs.
Proof.
  induction cs as [|[m d] cs IH]; simpl; [done|]. rewrite elem_of_cons.
  case_decide; naive_solver.
Qed.

Lemma add_child_names root dir name i root' :
  names_ok root → names_ok i → add_child root dir name i = Some root' → names_ok root'.
Proof.
  intros Hr Hi. revert root Hr root'. induction dir as [|e dir IH]; intros root Hr root' Ha; simpl in Ha.
  - injection Ha as <-. destruct Hr as [r Hnd Hch]. constructor; simpl.
    + by apply set_child_NoDup.
    + intros n c [->|Hin]%elem_of_set_child; [done|by eapply Hch].
  - destruct (child e (fi_children root)) as [c|] eqn:Ec; [|done].
    destruct (add_child c dir name i) as [c'|] eqn:Ea; [|done]. injection Ha as <-.
    destruct Hr as [r Hnd Hch]. constructor; simpl.
    + by apply set_child_NoDup.
    + intros n d [->|Hin]%elem_of_set_child; [|by eapply Hch].
      eapply IH; [|done]. eapply Hch. by apply child_in.
Qed.

Lemma attr_nil root : attr root [] = Some (info_attr root).
Proof. done. Qed.
Lemma attr_cons root n q : attr root (n :: q) = child n (fi_children root) ≫= λ c, attr c q.
Proof. unfold attr. rewrite LookUp_cons. by destruct (child n (fi_children root)). Qed.

Lemma add_child_attr root dir name i root' :
  fi_children i = [] → add_child root dir name i = Some root' →
  (∀ s, attr root' (dir ++ name :: s) = if decide (s = []) then Some (info_attr i) else None) ∧
  (∀ q, ¬ (dir ++ [name]) `prefix_of` q → attr root' q = attr root q).
Proof.
  intros Hi. revert root root'. induction dir as [|e dir IH]; intros root root' Ha; simpl in Ha.
  - injection Ha as <-. split.
    + intros s. simpl. rewrite attr_cons. simpl. rewrite child_set_child, decide_True by done. simpl.
      destruct s as [|m s]; [done|]. rewrite attr_cons, Hi. done.
    + intros [|m q] Hq; [done|]. rewrite !attr_cons. simpl. rewrite child_set_child.
      case_decide as E; [|done]. subst m. destruct Hq. by apply prefix_cons, prefix_nil.
  - destruct (child e (fi_children root)) as [c|] eqn:Ec; [|done].
    destruct (add_child c dir name i) as [c'|] eqn:Ea; [|done]. injection Ha as <-.
    destruct (IH c c' Ea) as [H1 H2]. split.
    + intros s. rewrite <- app_comm_cons, attr_cons. simpl. rewrite child_set_child, decide_True by done.
      apply H1.
    + intros [|m q] Hq.
      * done.
      * rewrite !attr_cons. simpl. rewrite child_set_child. case_decide as E; [|done]. subst m.
        rewrite Ec. simpl. apply H2. intros Hp. apply Hq. rewrite <- app_comm_cons. by apply prefix_cons.
Qed.

Lemma add_child_Some root dir name i :
  is_Some (attr root dir) → ∃ root', add_child root dir name i = Some root'.
Proof.
  revert root. induction dir as [|e dir IH]; intros root [a Ha]; simpl; [by eexists|].
  rewrite attr_cons in Ha. destruct (child e (fi_children root)) as [c|]; [|done].
  destruct (IH c) as [c' Hc']; [by exists a|]. rewrite Hc'. by eexists.
Qed.

(** ** What is kept of the two trees *)

Definition sub (i : option ftree) (n : string) : option ftree := i ≫= λ t, entry n (f_entries t).
Fixpoint flook (i : option ftree) (q : path) : option ftree :=
  match q with [] => i | n :: q => flook (sub i n) q end.
Definition fattr (i : option ftree) (q : path) : option (StatT * list Z) :=
  (λ t, (f_stat t, f_cap t)) <$> flook i q.

(** The entry [n] of two directories is the same file. *)
Definition same_file (i1 i2 : option ftree) (n : string) : bool :=
  match i1, i2, sub i1 n, sub i2 n with
  | Some t1, Some t2, Some c1, Some c2 =>
      bool_decide (f_dev t1 = f_dev t2) && bool_decide (f_ino c1 = f_ino c2)
  | _, _, _, _ => false
  end.

(** The paths that no same file cuts off. *)
Fixpoint keep (i1 i2 : option ftree) (q : path) : bool :=
  match q with
  | [] => true
  | n :: q => if same_file i1 i2 n then false else keep (sub i1 n) (sub i2 n) q
  end.

Definition side {A} (second : bool) (x1 x2 : A) : A := if second then x2 else x1.
Definition kept (b : bool) (i1 i2 : option ftree) (q : path) : option (StatT * list Z) :=
  if keep i1 i2 q then fattr (side b i1 i2) q else None.

Definition root_of (b : bool) (w : FileInfo * FileInfo) : FileInfo := side b w.1 w.2.
Definition opt_wf (i : option ftree) : Prop := ∀ t, i = Some t → ftree_wf t.

Lemma sub_wf i n : opt_wf i → opt_wf (sub i n).
Proof. intros Hi c Hc. destruct i as [t|]; [|done]. eapply entry_wf; [by apply Hi|done]. Qed.

Lemma sub_leaf i n : opt_wf i → is_dir i = false → sub i n = None.
Proof.
  intros Hi Hd. destruct i as [t|]; [|done]. simpl in *.
  destruct (Hi t eq_refl) as [t' _ He _]. by rewrite (He Hd).
Qed.

Lemma flook_None q : flook None q = None.
Proof. induction q; [done|]. simpl. done. Qed.

Lemma kept_cons b i1 i2 n q :
  kept b i1 i2 (n :: q) = if same_file i1 i2 n then None else kept b (sub i1 n) (sub i2 n) q.
Proof. unfold kept. simpl. destruct (same_file i1 i2 n); [done|]. by destruct b. Qed.

Lemma kept_None b i1 i2 q : side b i1 i2 = None → kept b i1 i2 q = None.
Proof. intros E. unfold kept, fattr. rewrite E, flook_None. by destruct (keep i1 i2 q). Qed.

(** The names that [walk] reads. *)
Definition names_of (i : option ftree) : list (string * Z) :=
  match i with Some t => if IsDir t then readdirnames t else [] | None => [] end.

Lemma names_of_sorted i : opt_wf i → StronglySorted entry_lt (names_of i).
Proof.
  intros Hi. destruct i as [t|]; simpl; [|constructor].
  destruct (IsDir t); [apply readdirnames_sorted; by apply Hi|constructor].
Qed.

Lemma elem_of_names_of i n ino :
  opt_wf i → (n, ino) ∈ names_of i ↔ ∃ c, sub i n = Some c ∧ f_ino c = ino.
Proof.
  intros Hi. destruct i as [t|]; simpl.
  - destruct (IsDir t) eqn:Hd.
    + by rewrite elem_of_readdirnames by (by apply Hi).
    + split; [by intros ?%not_elem_of_nil|]. intros (c & Hc & _).
      pose proof (sub_leaf (Some t) n Hi Hd) as E. simpl in E. congruence.
  - split; [by intros ?%not_elem_of_nil|]. by intros (c & ? & _).
Qed.

Lemma fst_names_of i n : opt_wf i → n ∈ (names_of i).*1 ↔ is_Some (sub i n).
Proof.
  intros Hi. rewrite elem_of_fst. setoid_rewrite (elem_of_names_of i n _ Hi). split.
  - intros (ino & c & Hc & _). by exists c.
  - intros [c Hc]. by exists (f_ino c), c.
Qed.

Lemma pruned_same_file i1 i2 n :
  opt_wf i1 → opt_wf i2 →
  pruned (match i1, i2 with Some t1, Some t2 => bool_decide (f_dev t1 = f_dev t2) | _, _ => false end)
    (names_of i1) (names_of i2) n ↔ same_file i1 i2 n = true.
Proof.
  intros H1 H2. unfold pruned, same_file. setoid_rewrite (elem_of_names_of i1 n _ H1).
  setoid_rewrite (elem_of_names_of i2 n _ H2).
  destruct i1 as [t1|]; [|by split; [intros [? _]|]]. destruct i2 as [t2|]; [|by split; [intros [? _]|]].
  destruct (sub (Some t1) n) as [c1|]; [|by split; [intros (_ & _ & (? & ? & _) & _)|]].
  destruct (sub (Some t2) n) as [c2|]; [|by split; [intros (_ & _ & _ & (? & ? & _))|]].
  rewrite andb_true_iff. split.
  - intros [Hd (i & (? & [= <-] & <-) & (? & [= <-] & Hi))]. split; [done|]. by apply bool_decide_eq_true.
  - intros [Hd Hi%bool_decide_eq_true]. split; [done|]. exists (f_ino c1). split; [by exists c1|by exists c2].
Qed.

(** ** Calls that may fail *)

Section walk_spec.
Context (fails : syscall_op → option string).

(** The call returned, or failed with the error of a call of the operating system. *)
Definition ends {S A} (Q : S → A → Prop) (r : S * outcome string A) : Prop :=
  match r with
  | (s, Ok a) => Q s a
  | (_, Err e) => ∃ op, fails op = Some e
  | _ => False
  end.

Lemma ends_bind {S A B} (P : S → A → Prop) (Q : S → B → Prop) r (f : S → A → S * outcome string B) :
  ends P r → (∀ s a, P s a → ends Q (f s a)) → ends Q (and_then r f).
Proof. intros Hr Hf. destruct r as [s [a|e|m|]]; simpl in *; try done. by apply Hf. Qed.

Lemma ends_mono {S A} (P Q : S → A → Prop) r : ends P r → (∀ s a, P s a → Q s a) → ends Q r.
Proof. intros Hr HPQ. destruct r as [s [a|e|m|]]; simpl in *; try done. by apply HPQ. Qed.

Lemma ends_call {S A} op (s : S) (a : A) : ends (λ s' a', s' = s ∧ a' = a) (call fails op s a).
Proof. unfold call. destruct (fails op) eqn:E; simpl; [by exists op|done]. Qed.

(** ** Registering nodes *)

Definition fresh (p : path) (r : FileInfo) : Prop := ∀ s, attr r (p ++ s) = None.
Definition only_at (p : path) (i : option ftree) (r r' : FileInfo) : Prop :=
  (∀ s, attr r' (p ++ s) = if decide (s = []) then fattr i [] else None) ∧
  (∀ q, ¬ p `prefix_of` q → attr r' q = attr r q) ∧ (names_ok r → names_ok r').

Lemma walkchunk_spec dir name i root :
  fresh (dir ++ [name]) root → (i ≠ None → is_Some (attr root dir)) →
  ∃ root', walkchunk (dir ++ [name]) i root = (root', Ok tt) ∧ only_at (dir ++ [name]) i root root'.
Proof.
  intros Hf Hp. destruct i as [t|]; simpl.
  - unfold Dir, Base. rewrite removelast_last, last_last.
    destruct (add_child_Some root dir name (file_info t)) as [root' Ha]; [by apply Hp|].
    rewrite Ha. exists root'. split; [done|].
    destruct (add_child_attr root dir name (file_info t) root' eq_refl Ha) as [H1 H2].
    split; [|split; [done|]].
    + intros s. rewrite <- (assoc_L (++)). apply H1.
    + intros Hr. eapply add_child_names; [done| |done]. constructor; [constructor|].
      intros n c ?%not_elem_of_nil. done.
  - exists root. split; [done|]. split; [|done]. intros s. rewrite Hf. by case_decide.
Qed.

Lemma chunks_spec dir name i1 i2 w :
  (∀ b, fresh (dir ++ [name]) (root_of b w)) →
  (∀ b, side b i1 i2 ≠ None → is_Some (attr (root_of b w) dir)) →
  ∃ w', chunks (dir ++ [name]) i1 i2 w = (w', Ok tt) ∧
    ∀ b, only_at (dir ++ [name]) (side b i1 i2) (root_of b w) (root_of b w').
Proof.
  intros Hf Hp. unfold chunks. rewrite decide_False by (by destruct dir).
  destruct (walkchunk_spec dir name i1 w.1) as (r1 & -> & H1); [apply (Hf false)|apply (Hp false)|].
  destruct (walkchunk_spec dir name i2 w.2) as (r2 & -> & H2); [apply (Hf true)|apply (Hp true)|].
  exists (r1, r2). split; [done|]. by intros [].
Qed.

(** ** The walk *)

Definition below (p q : path) : Prop := ∃ n s, q = p ++ n :: s.

(** Everything strictly below [p] is [f]; nothing else changed. *)
Definition filled (p : path) (f : path → option (StatT * list Z)) (r r' : FileInfo) : Prop :=
  (∀ n s, attr r' (p ++ n :: s) = f (n :: s)) ∧
  (∀ q, ¬ below p q → attr r' q = attr r q) ∧ (names_ok r → names_ok r').

(** [filled], with the node [p] itself. *)
Definition grown (p : path) (f : path → option (StatT * list Z)) (r r' : FileInfo) : Prop :=
  (∀ s, attr r' (p ++ s) = f s) ∧
  (∀ q, ¬ p `prefix_of` q → attr r' q = attr r q) ∧ (names_ok r → names_ok r').

Lemma grown_of p i f r r1 r2 :
  f [] = fattr i [] → only_at p i r r1 → filled p f r1 r2 → grown p f r r2.
Proof.
  intros Hf (C1 & C2 & C3) (F1 & F2 & F3). split; [|split].
  - intros [|n s]; [|apply F1]. rewrite F2, C1; [done|].
    intros (n & s & E). apply (f_equal length) in E. rewrite !length_app in E. simpl in E. lia.
  - intros q Hq. rewrite F2, C2; [done|done|]. intros (n & s & ->). apply Hq. by apply prefix_app_r.
  - auto.
Qed.

(** What a loop over the names does: [g n] below the name [n]. *)
Definition filled_names (p : path) (g : string → path → option (StatT * list Z))
    (names : list string) (r r' : FileInfo) : Prop :=
  (∀ n s, n ∈ names → attr r' (p ++ n :: s) = g n s) ∧
  (∀ n s, n ∉ names → attr r' (p ++ n :: s) = attr r (p ++ n :: s)) ∧
  (∀ q, ¬ below p q → attr r' q = attr r q) ∧ (names_ok r → names_ok r').

Lemma other_name (p : path) m n s : m ≠ n → ¬ (p ++ [n]) `prefix_of` (p ++ m :: s).
Proof. intros Hm Hpre. by apply prefix_snoc in Hpre. Qed.

Lemma below_name p n q : ¬ below p q → ¬ (p ++ [n]) `prefix_of` q.
Proof. intros Hb [k ->]. apply Hb. exists n, k. by rewrite <- (assoc_L (++)). Qed.

Lemma filled_names_nil p g r : filled_names p g [] r r.
Proof. split; [by intros ? ? ?%not_elem_of_nil|done]. Qed.

Lemma filled_names_cons p g n names r r1 r2 :
  n ∉ names → grown (p ++ [n]) (g n) r r1 → filled_names p g names r1 r2 →
  filled_names p g (n :: names) r r2.
Proof.
  intros Hn (G1 & G2 & G3) (F1 & F2 & F3 & F4). split; [|split; [|split]].
  - intros m s [->|Hm]%elem_of_cons; [|by apply F1]. rewrite F2 by done.
    specialize (G1 s). by rewrite <- (assoc_L (++)) in G1.
  - intros m s [Hm Hm']%not_elem_of_cons. rewrite F2, G2 by (done || by apply other_name). done.
  - intros q Hq. rewrite F3, G2; [done|by apply below_name|done].
  - auto.
Qed.

(** What was fresh below [p], and what was not below [p], after the name [n]. *)
Lemma grown_fresh p n f r r1 m :
  m ≠ n → grown (p ++ [n]) f r r1 → fresh (p ++ [m]) r → fresh (p ++ [m]) r1.
Proof.
  intros Hm (_ & G & _) Hf s. specialize (Hf s). rewrite <- (assoc_L (++)) in *. cbn [app] in *.
  by rewrite G by (by apply other_name).
Qed.

Lemma grown_here p n f r r1 : grown (p ++ [n]) f r r1 → attr r1 p = attr r p.
Proof.
  intros (_ & G & _). apply G. intros Hpre%prefix_length. rewrite length_app in Hpre. simpl in Hpre. lia.
Qed.

Definition osize (i : option ftree) : nat := match i with Some t => tree_size t | None => 0 end.

Lemma sub_size i n c : sub i n = Some c → osize (Some c) < osize i.
Proof.
  destruct i as [[st dev ino cap es]|]; [|done]. simpl. intros He.
  assert (tree_size c ≤ foldr (λ (e : string * ftree) m, tree_size e.2 + m) 0 es); [|lia].
  induction es as [|[m d] es IH]; simpl in *; [done|]. case_decide; simplify_eq; [lia|].
  specialize (IH He). lia.
Qed.

Lemma osize_sub i n : osize (sub i n) ≤ osize i ∧ (i ≠ None → osize (sub i n) < osize i).
Proof.
  destruct (sub i n) as [c|] eqn:E.
  - apply sub_size in E. lia.
  - simpl. split; [lia|]. destruct i as [[]|]; [simpl; lia|done].
Qed.

Lemma lstat_child_spec b p i name w :
  opt_wf i → ends (λ w' c, w' = w ∧ c = sub i name) (lstat_child fails b p i name w).
Proof.
  intros Hi. unfold lstat_child. destruct i as [t|]; [|done]. destruct (IsDir t) eqn:Hd.
  - eapply ends_mono; [apply ends_call|]. by intros s a [-> ->].
  - simpl. split; [done|]. symmetry. by apply (sub_leaf (Some t)).
Qed.

Lemma dir_names_spec b p i w :
  ends (λ w' ns, w' = w ∧ ns = names_of i) (dir_names fails b p i w).
Proof.
  unfold dir_names. destruct i as [t|]; [|done]. simpl. destruct (IsDir t); [|done].
  eapply ends_mono; [apply ends_call|]. by intros s a [-> ->].
Qed.

Section one_directory.
Context (walk_child : path → option ftree → option ftree → FileInfo * FileInfo →
  (FileInfo * FileInfo) * outcome string unit).
Context (p : path) (i1 i2 : option ftree) (Hwf1 : opt_wf i1) (Hwf2 : opt_wf i2).
Hypothesis Hchild : ∀ n w,
  (∀ b, fresh (p ++ [n]) (root_of b w)) →
  (∀ b, side b (sub i1 n) (sub i2 n) ≠ None → is_Some (attr (root_of b w) p)) →
  ends (λ w' _, ∀ b, grown (p ++ [n]) (kept b (sub i1 n) (sub i2 n)) (root_of b w) (root_of b w'))
    (walk_child (p ++ [n]) (sub i1 n) (sub i2 n) w).

Lemma walk_names_spec names w :
  NoDup names →
  (∀ b n, n ∈ names → fresh (p ++ [n]) (root_of b w)) →
  (∀ b, side b i1 i2 ≠ None → is_Some (attr (root_of b w) p)) →
  ends (λ w' _, ∀ b, filled_names p (λ n, kept b (sub i1 n) (sub i2 n)) names (root_of b w) (root_of b w'))
    (walk_names fails walk_child p i1 i2 names w).
Proof using Hwf1 Hwf2 Hchild.
  revert w. induction names as [|n names IH]; intros w Hnd Hf Hp; simpl.
  { intros b. apply filled_names_nil. }
  apply NoDup_cons in Hnd as [Hn Hnd].
  eapply ends_bind; [by apply lstat_child_spec|]. intros w1 c1 [-> ->].
  eapply ends_bind; [by apply lstat_child_spec|]. intros w1 c2 [-> ->].
  eapply ends_bind.
  { apply Hchild; [intros b; apply Hf; left|]. intros b Hs. apply Hp. intros E.
    apply Hs. destruct b; simpl in *; by rewrite E. }
  intros w1 [] Hg. cbn beta in Hg.
  eapply ends_mono; [apply (IH w1 Hnd)|].
  - intros b m Hm. eapply (grown_fresh p n); [by intros ->|apply (Hg b)|]. apply Hf. by right.
  - intros b Hs. rewrite (grown_here _ _ _ _ _ (Hg b)). by apply Hp.
  - intros w2 [] Hfill b. cbn beta in Hfill. by eapply filled_names_cons.
Qed.

Lemma walk_dirs_spec w :
  (∀ b n s, attr (root_of b w) (p ++ n :: s) = None) →
  (∀ b, side b i1 i2 ≠ None → is_Some (attr (root_of b w) p)) →
  ends (λ w' _, ∀ b, filled p (kept b i1 i2) (root_of b w) (root_of b w'))
    (walk_dirs fails walk_child p i1 i2 w).
Proof using Hwf1 Hwf2 Hchild.
  intros He Hp. unfold walk_dirs.
  destruct (negb (is_dir i1) && negb (is_dir i2)) eqn:Hd.
  { apply andb_true_iff in Hd as [Hd1%negb_true_iff Hd2%negb_true_iff]. simpl. intros b.
    split; [|done]. intros n s. rewrite He, kept_cons. destruct (same_file i1 i2 n); [done|].
    symmetry. apply kept_None. destruct b; simpl; by apply sub_leaf. }
  clear Hd. set (sameDevice := match i1 with Some t1 => _ | None => _ end).
  eapply ends_bind; [apply dir_names_spec|]. intros w1 ns1 [-> ->].
  eapply ends_bind; [apply dir_names_spec|]. intros w1 ns2 [-> ->].
  destruct (merge_names_spec sameDevice (names_of i1) (names_of i2)) as [Hnd Hin];
    [by apply names_of_sorted..|].
  eapply ends_mono; [apply walk_names_spec; [done| |done]|].
  { intros b n _ s. rewrite <- (assoc_L (++)). apply He. }
  intros w' [] Hfill b. cbn beta in Hfill. destruct (Hfill b) as (F1 & F2 & F3 & F4). split; [|done].
  intros n s. rewrite kept_cons.
  destruct (decide (n ∈ merge_names sameDevice (names_of i1) (names_of i2))) as [Hn|Hn].
  - rewrite F1 by done. apply Hin in Hn as [_ Hn].
    destruct (same_file i1 i2 n) eqn:Es; [|done]. destruct Hn. by apply pruned_same_file.
  - rewrite F2, He by done. destruct (same_file i1 i2 n) eqn:Es; [done|].
    symmetry. apply kept_None. rewrite Hin, !fst_names_of in Hn by done.
    assert (¬ pruned sameDevice (names_of i1) (names_of i2) n) as Hnp.
    { unfold sameDevice. rewrite pruned_same_file by done. by rewrite Es. }
    rewrite <- !not_eq_None_Some in Hn.
    destruct (sub i1 n) eqn:E1, (sub i2 n) eqn:E2; destruct b; simpl; try done; exfalso; naive_solver.
Qed.
End one_directory.

Lemma walk_spec fuel dir name i1 i2 w :
  opt_wf i1 → opt_wf i2 → osize i1 + osize i2 < fuel →
  (∀ b, fresh (dir ++ [name]) (root_of b w)) →
  (∀ b, side b i1 i2 ≠ None → is_Some (attr (root_of b w) dir)) →
  ends (λ w' _, ∀ b, grown (dir ++ [name]) (kept b i1 i2) (root_of b w) (root_of b w'))
    (walk fails fuel (dir ++ [name]) i1 i2 w).
Proof.
  revert dir name i1 i2 w. induction fuel as [|fuel IH]; intros dir name i1 i2 w H1 H2 Hfuel Hf Hp; [lia|].
  cbn [walk]. destruct (chunks_spec dir name i1 i2 w) as (w1 & -> & Hc); [done|done|]. cbn [and_then].
  destruct (decide (i1 = None ∧ i2 = None)) as [[-> ->]|Hsome].
  { simpl. intros b. destruct (Hc b) as (C1 & C2 & C3). split; [|done]. intros s. rewrite C1.
    rewrite kept_None by (by destruct b). case_decide; [by destruct b|done]. }
  eapply ends_mono.
  - apply walk_dirs_spec; [done|done|..].
    + intros n w2 Hf2 Hp2. apply IH; [by apply sub_wf..| |done|done].
      pose proof (osize_sub i1 n) as [? L1]. pose proof (osize_sub i2 n) as [? L2].
      destruct (decide (i1 = None)) as [->|Hi1]; [|specialize (L1 Hi1); lia].
      assert (i2 ≠ None) as Hi2 by tauto. specialize (L2 Hi2). lia.
    + intros b n s. destruct (Hc b) as (C1 & _ & _). rewrite C1. by rewrite decide_False.
    + intros b Hs. destruct (Hc b) as (C1 & _ & _). specialize (C1 []). rewrite app_nil_r in C1.
      rewrite C1. simpl. destruct (side b i1 i2); [by eexists|done].
  - intros w2 [] Hfill b. cbn beta in Hfill. by eapply grown_of.
Qed.

(** ** The complete walk *)

Section one_complete_directory.
Context (collect_child : path → ftree → FileInfo → FileInfo * outcome string unit).
Context (b : bool) (p : path) (t : ftree).
Hypothesis Hchild : ∀ n c r,
  entry n (f_entries t) = Some c →
  (∀ m s, attr r ((p ++ [n]) ++ m :: s) = None) → is_Some (attr r (p ++ [n])) →
  ends (λ r' _, filled (p ++ [n]) (fattr (Some c)) r r') (collect_child (p ++ [n]) c r).

Lemma collect_names_spec names r :
  NoDup names → (∀ n, n ∈ names → is_Some (entry n (f_entries t))) →
  (∀ n, n ∈ names → fresh (p ++ [n]) r) → is_Some (attr r p) →
  ends (λ r' _, filled_names p (λ n, fattr (sub (Some t) n)) names r r')
    (collect_names fails collect_child b p t names r).
Proof using Hchild.
  revert r. induction names as [|n names IH]; intros r Hnd He Hf Hp; cbn [collect_names].
  { apply filled_names_nil. }
  apply NoDup_cons in Hnd as [Hn Hnd].
  eapply ends_bind; [apply ends_call|]. intros r1 c [-> ->].
  destruct (He n) as [c Hc]; [left|]. rewrite Hc.
  destruct (walkchunk_spec p n (Some c) r) as (r1 & -> & Hr1); [apply Hf; left|done|]. cbn [and_then].
  destruct Hr1 as (C1 & C2 & C3) eqn:E. clear E.
  eapply ends_bind; [apply Hchild; [done|..]|].
  - intros m s. by rewrite C1, decide_False.
  - specialize (C1 []). rewrite app_nil_r in C1. rewrite C1. by eexists.
  - intros r2 [] Hfill. cbn beta in Hfill.
    assert (grown (p ++ [n]) (fattr (sub (Some t) n)) r r2) as Hg.
    { eapply (grown_of _ (Some c)); simpl; rewrite ?Hc; [done|done|]. exact Hfill. }
    eapply ends_mono; [apply (IH r2 Hnd)|].
    + intros m Hm. apply He. by right.
    + intros m Hm. eapply (grown_fresh p n); [by intros ->|done|]. apply Hf. by right.
    + by rewrite (grown_here _ _ _ _ _ Hg).
    + intros r3 [] Hr3. cbn beta in Hr3. by eapply filled_names_cons.
Qed.
End one_complete_directory.

Lemma collect_spec fuel b p t r :
  ftree_wf t → tree_size t < fuel → (∀ n s, attr r (p ++ n :: s) = None) → is_Some (attr r p) →
  ends (λ r' _, filled p (fattr (Some t)) r r') (collect fails fuel b p t r).
Proof.
  revert p t r. induction fuel as [|fuel IH]; intros p t r Hwf Hfuel He Hp; [lia|].
  cbn [collect]. assert (opt_wf (Some t)) as Hopt by (by intros ? [= <-]).
  destruct (IsDir t) eqn:Hd; cbn [negb].
  - eapply ends_bind; [apply ends_call|]. intros r1 names [-> ->].
    eapply ends_mono; [apply collect_names_spec; [|..|done]|].
    + intros n c r1 Hc He1 Hp1. apply IH; [by eapply entry_wf| |done|done].
      pose proof (sub_size (Some t) n c Hc). simpl in *. lia.
    + apply sorted_NoDup. by apply readdirnames_sorted.
    + intros n Hn. by apply readdirnames_fst.
    + intros n _ s. rewrite <- (assoc_L (++)). apply He.
    + intros r1 [] (F1 & F2 & F3 & F4). split; [|done]. intros n s.
      destruct (decide (n ∈ (readdirnames t).*1)) as [Hn|Hn]; [by rewrite F1|].
      rewrite F2, He by done. rewrite readdirnames_fst in Hn by done.
      unfold fattr. simpl. destruct (entry n (f_entries t)); [by destruct Hn|].
      by rewrite flook_None.
  - simpl. split; [|done]. intros n s. rewrite He. unfold fattr. cbn [flook].
    by rewrite (sub_leaf _ _ Hopt Hd), flook_None.
Qed.
End walk_spec.

(** ** Changes in terms of the attributes of paths *)

Definition attrs : Type := path → option (StatT * list Z).

Definition attr_isDir (q : path) (a : StatT * list Z) : bool := isDir q (mkInfo a.1 a.2 []).
Definition attr_differs (a1 a2 : StatT * list Z) : bool :=
  differs (mkInfo a1.1 a1.2 []) (mkInfo a2.1 a2.2 []).

Definition attr_touched (A1 A2 : attrs) (q : path) : Prop :=
  (is_Some (A2 q) ∧ A1 q = None) ∨
  (∃ dir name d, q = dir ++ [name] ∧ is_Some (A1 q) ∧ A2 q = None ∧ A2 dir = Some d ∧
     attr_isDir dir d = true) ∨
  (q ≠ [] ∧ ∃ o n, A1 q = Some o ∧ A2 q = Some n ∧ attr_differs o n = true).
Definition attr_reported (A1 A2 : attrs) (q : path) (k : ChangeType) : Prop :=
  match k with
  | ChangeAdd => is_Some (A2 q) ∧ A1 q = None
  | ChangeDelete =>
      ∃ dir name d, q = dir ++ [name] ∧ is_Some (A1 q) ∧ A2 q = None ∧ A2 dir = Some d ∧
        attr_isDir dir d = true
  | ChangeModify =>
      (q ≠ [] ∧ ∃ o n, A1 q = Some o ∧ A2 q = Some n ∧ attr_differs o n = true) ∨
      (∃ o n r, A1 q = Some o ∧ A2 q = Some n ∧ attr_isDir q n = true ∧ q ≠ [] ∧ r ≠ [] ∧
         attr_touched A1 A2 (q ++ r))
  end.

Lemma attr_Some r q a : attr r q = Some a ↔ ∃ i, LookUp r q = Some i ∧ info_attr i = a.
Proof. unfold attr. rewrite fmap_Some. naive_solver. Qed.
Lemma attr_is_Some r q : is_Some (attr r q) ↔ is_Some (LookUp r q).
Proof. unfold attr. by rewrite fmap_is_Some. Qed.
Lemma attr_None r q : attr r q = None ↔ LookUp r q = None.
Proof. unfold attr. by rewrite fmap_None. Qed.

Section by_attributes.
Context (old new : FileInfo).
Local Notation A1 := (attr old).
Local Notation A2 := (attr new).

Lemma added_attr q : added_at (Some old) new q ↔ is_Some (A2 q) ∧ A1 q = None.
Proof. unfold added_at. by rewrite attr_is_Some, attr_None. Qed.

Lemma deleted_attr q :
  deleted_at [] (Some old) new q ↔
  ∃ dir name d, q = dir ++ [name] ∧ is_Some (A1 q) ∧ A2 q = None ∧ A2 dir = Some d ∧
    attr_isDir dir d = true.
Proof.
  unfold deleted_at. setoid_rewrite (attr_is_Some old q). setoid_rewrite (attr_None new q). split.
  - intros (dir & name & d & H1 & H2 & H3 & H4 & H5). exists dir, name, (info_attr d).
    repeat (split; [done|]). split; [apply attr_Some; by exists d|done].
  - intros (dir & name & d & H1 & H2 & H3 & (i & H4 & <-)%attr_Some & H5).
    by exists dir, name, i.
Qed.

Lemma altered_attr q :
  altered_at (Some old) new q ↔
  q ≠ [] ∧ ∃ o n, A1 q = Some o ∧ A2 q = Some n ∧ attr_differs o n = true.
Proof.
  unfold altered_at. split; (intros [Hq H]; split; [done|]).
  - destruct H as (o & n & Ho & Hn & Hd). exists (info_attr o), (info_attr n).
    split; [apply attr_Some; by exists o|]. split; [apply attr_Some; by exists n|done].
  - destruct H as (? & ? & (o & Ho & <-)%attr_Some & (n & Hn & <-)%attr_Some & Hd).
    by exists o, n.
Qed.

Lemma touched_attr q : touched [] (Some old) new q ↔ attr_touched A1 A2 q.
Proof. unfold touched, attr_touched. by rewrite added_attr, deleted_attr, altered_attr. Qed.

Lemma reported_attr q k : reported [] (Some old) new q k ↔ attr_reported A1 A2 q k.
Proof.
  destruct k; simpl; [|apply added_attr|apply deleted_attr].
  rewrite altered_attr. apply or_iff_compat_l. unfold parent_at. split.
  - intros (o & n & r & Ho & Hn & Hd & Hq & Hr & Ht). exists (info_attr o), (info_attr n), r.
    split; [apply attr_Some; by exists o|]. split; [apply attr_Some; by exists n|].
    repeat (split; [done|]). by apply touched_attr.
  - intros (? & ? & r & (o & Ho & <-)%attr_Some & (n & Hn & <-)%attr_Some & Hd & Hq & Hr & Ht).
    exists o, n, r. repeat (split; [done|]). by apply touched_attr.
Qed.
End by_attributes.

(** Only the values of the attributes matter. *)
Lemma attr_reported_ext (A1 A2 B1 B2 : attrs) q k :
  (∀ q, A1 q = B1 q) → (∀ q, A2 q = B2 q) → attr_reported A1 A2 q k ↔ attr_reported B1 B2 q k.
Proof.
  intros H1 H2. assert (∀ q, attr_touched A1 A2 q ↔ attr_touched B1 B2 q) as Ht.
  { intros q'. unfold attr_touched. setoid_rewrite H1. setoid_rewrite H2. done. }
  destruct k; simpl; setoid_rewrite H1; setoid_rewrite H2; [|done|done]. by setoid_rewrite Ht.
Qed.

Lemma attr_differs_refl a : attr_differs a a = false.
Proof.
  unfold attr_differs, differs, statDifferent, sameFsTimeSpec. simpl.
  repeat case_bool_decide; simpl; congruence.
Qed.

(** ** Leaving out paths with the same attributes *)

Section pruning.
Context (A1 A2 : attrs) (K : path → bool).
Hypothesis K_nil : K [] = true.
Hypothesis K_app : ∀ q r, K q = false → K (q ++ r) = false.
Hypothesis K_same : ∀ q, K q = false → A1 q = A2 q.
Definition cut (A : attrs) : attrs := λ q, if K q then A q else None.

Lemma cut_touched q : attr_touched (cut A1) (cut A2) q ↔ attr_touched A1 A2 q ∧ K q = true.
Proof using K_app.
  unfold attr_touched, cut. destruct (K q) eqn:Hk.
  - assert (∀ dir name, q = dir ++ [name] → K dir = true) as Hdir.
    { intros dir name ->. destruct (K dir) eqn:E; [done|]. by rewrite (K_app _ _ E) in Hk. }
    split.
    + intros [H|[(dir & name & d & Hq & H)|H]]; (split; [|done]); [by left| |by right; right].
      right; left. exists dir, name, d. by rewrite (Hdir _ _ Hq) in H.
    + intros [[H|[(dir & name & d & Hq & H)|H]] _]; [by left| |by right; right].
      right; left. exists dir, name, d. by rewrite (Hdir _ _ Hq).
  - split; [|by intros [_ ?]]. intros [[[? ?] _]|[(? & ? & ? & _ & [? ?] & _)|(_ & ? & ? & ? & _)]]; done.
Qed.

Lemma touched_kept q : attr_touched A1 A2 q → K q = true.
Proof using K_same.
  intros Ht. destruct (K q) eqn:Hk; [done|]. apply K_same in Hk. unfold attr_touched in Ht.
  destruct Ht as [[[a H2] H1]|[(? & ? & ? & _ & [a H1] & H2 & _)|(_ & o & n & H1 & H2 & Hd)]];
    rewrite Hk in H1; [congruence|congruence|].
  rewrite H1 in H2. injection H2 as ->. by rewrite attr_differs_refl in Hd.
Qed.

Lemma cut_touched_same q : attr_touched (cut A1) (cut A2) q ↔ attr_touched A1 A2 q.
Proof using K_app K_same. rewrite cut_touched. split; [tauto|]. intros Ht. split; [done|by apply touched_kept]. Qed.

Lemma cut_reported q k : attr_reported (cut A1) (cut A2) q k ↔ attr_reported A1 A2 q k.
Proof using K_app K_same.
  destruct (K q) eqn:Hk.
  - assert (∀ A, cut A q = A q) as Hc by (intros; unfold cut; by rewrite Hk).
    destruct k; simpl; rewrite ?Hc.
    + setoid_rewrite cut_touched_same. done.
    + done.
    + assert (∀ dir name, q = dir ++ [name] → cut A2 dir = A2 dir) as Hdir.
      { intros dir name ->. unfold cut. destruct (K dir) eqn:E; [done|].
        by rewrite (K_app _ _ E) in Hk. }
      split; intros (dir & name & d & Hq & H); exists dir, name, d.
      * by rewrite (Hdir _ _ Hq) in H.
      * by rewrite (Hdir _ _ Hq).
  - assert (∀ A, cut A q = None) as Hc by (intros; unfold cut; by rewrite Hk).
    assert (¬ attr_touched A1 A2 q) as Hnt by (intros Ht%touched_kept; congruence).
    unfold attr_touched in Hnt. destruct k; simpl; rewrite ?Hc.
    + split; [intros [(_ & ? & ? & ? & _)|(? & ? & ? & ? & _)]; done|].
      intros [H|(o & n & r & _ & _ & _ & _ & _ & Ht%touched_kept)]; [tauto|].
      by rewrite (K_app _ _ Hk) in Ht.
    + split; [by intros [[] _]|tauto].
    + split; [by intros (? & ? & ? & _ & [] & _)|tauto].
Qed.
End pruning.

(** ** The collected trees *)

(** A file of the host is known by its device and inode: an entry that has the same
    inode in two directories of the same device is the same file. *)
Definition inodes_identify (i1 i2 : option ftree) : Prop := ∀ q n d1 d2 c1 c2,
  flook i1 q = Some d1 → flook i2 q = Some d2 → f_dev d1 = f_dev d2 →
  entry n (f_entries d1) = Some c1 → entry n (f_entries d2) = Some c2 →
  f_ino c1 = f_ino c2 → c1 = c2.

Lemma keep_same i1 i2 q :
  inodes_identify i1 i2 → keep i1 i2 q = false → fattr i1 q = fattr i2 q.
Proof.
  revert i1 i2. induction q as [|n q IH]; intros i1 i2 Hid Hk; [done|]. simpl in Hk.
  unfold fattr. cbn [flook]. fold (fattr (sub i1 n) q) (fattr (sub i2 n) q).
  destruct (same_file i1 i2 n) eqn:Es.
  - f_equal. unfold same_file in Es.
    destruct i1 as [t1|], i2 as [t2|]; try done.
    destruct (sub (Some t1) n) as [c1|] eqn:E1, (sub (Some t2) n) as [c2|] eqn:E2; try done.
    apply andb_true_iff in Es as [Hd%bool_decide_eq_true Hi%bool_decide_eq_true].
    f_equal. by apply (Hid [] n t1 t2).
  - apply IH; [|done]. intros r m d1 d2 c1 c2 H1 H2. by apply (Hid (n :: r) m d1 d2).
Qed.

Lemma keep_app i1 i2 q r : keep i1 i2 q = false → keep i1 i2 (q ++ r) = false.
Proof.
  revert i1 i2. induction q as [|n q IH]; intros i1 i2; simpl; [done|].
  destruct (same_file i1 i2 n); [done|]. apply IH.
Qed.

(** The attributes of a complete tree, those of the root excepted. *)
Definition full (t : ftree) : attrs := λ q,
  match q with [] => Some (nil_stat, []) | _ => fattr (Some t) q end.

Lemma IsDir_bit t : IsDir t = true → Z.land (st_mode (f_stat t)) S_IFDIR ≠ 0%Z.
Proof.
  unfold IsDir. rewrite bool_decide_eq_true. intros Hm Hz.
  assert (Z.land (Z.land (st_mode (f_stat t)) S_IFMT) S_IFDIR = 0%Z) as E.
  { rewrite <- Z.land_assoc. exact Hz. }
  by rewrite Hm in E.
Qed.

Lemma flook_app i q r : flook i (q ++ r) = flook (flook i q) r.
Proof. revert i. induction q as [|n q IH]; intros i; [done|]. apply IH. Qed.

Lemma flook_wf i q : opt_wf i → opt_wf (flook i q).
Proof. revert i. induction q as [|n q IH]; intros i Hi; [done|]. apply IH. by apply sub_wf. Qed.

(** Whatever has something below it is a directory. *)
Lemma full_parent_dir t q n a :
  ftree_wf t → full t (q ++ [n]) = Some a → q ≠ [] →
  ∃ d, full t q = Some d ∧ Z.land (st_mode d.1) S_IFDIR ≠ 0%Z.
Proof.
  intros Hwf Ha Hq. assert (opt_wf (Some t)) as Hopt by (by intros ? [= <-]).
  assert (fattr (Some t) (q ++ [n]) = Some a) as Hf by (destruct q; done).
  unfold fattr in Hf. rewrite flook_app in Hf. cbn [flook] in Hf.
  destruct (is_dir (flook (Some t) q)) eqn:Hd.
  2:{ rewrite (sub_leaf _ _ (flook_wf _ q Hopt) Hd) in Hf. done. }
  assert (full t q = fattr (Some t) q) as -> by (by destruct q).
  unfold fattr. destruct (flook (Some t) q) as [d|]; [|done].
  exists (f_stat d, f_cap d). split; [done|]. by apply IsDir_bit.
Qed.

Lemma names_ok_wf r : names_ok r → ∀ p,
  (∀ q n, is_Some (attr r (q ++ [n])) → p ++ q ≠ [] →
     ∃ d, attr r q = Some d ∧ Z.land (st_mode d.1) S_IFDIR ≠ 0%Z) →
  info_wf p r.
Proof.
  induction 1 as [r Hnd Hch IH]. intros p Hdir. constructor; [done| |].
  - intros Hd. destruct (fi_children r) as [|[n c] cs] eqn:E; [done|].
    unfold isDir in Hd. apply orb_false_iff in Hd as [Hp%bool_decide_eq_false Hm].
    destruct (Hdir [] n) as (d & [= <-] & Hbit).
    + simpl. rewrite attr_cons, E. simpl. rewrite decide_True by done. by eexists.
    + by rewrite app_nil_r.
    + apply negb_false_iff, bool_decide_eq_true in Hm. done.
  - intros n c Hin. apply IH with n; [done|]. intros q m Hs Hne.
    assert (child n (fi_children r) = Some c) as Hc by (by apply child_Some).
    destruct (Hdir (n :: q) m) as (d & Hd & Hbit).
    + simpl. by rewrite attr_cons, Hc.
    + by destruct p.
    + exists d. split; [|done]. by rewrite attr_cons, Hc in Hd.
Qed.

Lemma attr_newRoot n s : attr newRootFileInfo (n :: s) = None.
Proof. done. Qed.

Lemma names_ok_newRoot : names_ok newRootFileInfo.
Proof. constructor; [constructor|]. by intros ? ? ?%not_elem_of_nil. Qed.

Lemma filled_root f r' :
  filled [] f newRootFileInfo r' →
  (∀ q, attr r' q = match q with [] => Some (nil_stat, []) | _ => f q end) ∧ names_ok r'.
Proof.
  intros (F1 & F2 & F3). split; [|by apply F3, names_ok_newRoot].
  intros [|n s]; [|apply F1]. rewrite F2; [done|]. intros (? & ? & ?). done.
Qed.

(** A tree whose paths are some of those of [t], closed under parents. *)
Lemma collected_wf t r (K : path → bool) :
  ftree_wf t → (∀ q r, K q = false → K (q ++ r) = false) → names_ok r →
  (∀ q, attr r q = cut K (full t) q) → info_wf [] r.
Proof.
  intros Hwf HK Hn Ha. apply names_ok_wf; [done|]. intros q n [a Hs] Hq. rewrite Ha in *.
  unfold cut in *. destruct (K q) eqn:Ek.
  - destruct (K (q ++ [n])); [|done]. by eapply full_parent_dir.
  - by rewrite (HK _ _ Ek) in Hs.
Qed.

Section collected.
Context (fails : syscall_op → option string) (t1 t2 : ftree) (Hwf1 : ftree_wf t1) (Hwf2 : ftree_wf t2).

Lemma collect_linux_spec :
  match collectFileInfoForChanges fails t1 t2 with
  | Ok w => ∀ b, names_ok (root_of b w) ∧
      ∀ q, attr (root_of b w) q = cut (keep (Some t1) (Some t2)) (full (side b t1 t2)) q
  | Err e => ∃ op, fails op = Some e
  | _ => False
  end.
Proof using Hwf1 Hwf2.
  unfold collectFileInfoForChanges.
  set (w0 := (newRootFileInfo, newRootFileInfo)).
  assert (ends fails (λ w _, ∀ b, filled [] (kept b (Some t1) (Some t2)) newRootFileInfo (root_of b w))
    (walk fails (S (tree_size t1 + tree_size t2)) [] (Some t1) (Some t2) w0)) as Hw.
  { cbn [walk]. unfold chunks. rewrite decide_True by done. cbn [and_then].
    eapply ends_mono; [apply (walk_dirs_spec fails _ [] (Some t1) (Some t2))|].
    - by intros ? [= <-].
    - by intros ? [= <-].
    - intros n w Hf Hp. apply (walk_spec fails _ [] n); [..|done|done].
      + apply sub_wf. by intros ? [= <-].
      + apply sub_wf. by intros ? [= <-].
      + pose proof (proj2 (osize_sub (Some t1) n) ltac:(done)).
        pose proof (proj2 (osize_sub (Some t2) n) ltac:(done)). cbn [osize] in *. lia.
    - intros [] n s; done.
    - intros [] _; by eexists.
    - intros w [] Hfill b. cbn beta in Hfill. specialize (Hfill b). by destruct b. }
  unfold call. destruct (fails (Lstat false [])) eqn:E1; [by exists (Lstat false [])|]. cbn [and_then].
  destruct (fails (Lstat true [])) eqn:E2; [by exists (Lstat true [])|]. cbn [and_then].
  revert Hw. generalize (walk fails (S (tree_size t1 + tree_size t2)) [] (Some t1) (Some t2) w0).
  intros [w [[]|e|m|]] Hw; [|exact Hw|exact Hw|exact Hw]. intros b. destruct (filled_root _ _ (Hw b)) as [Ha Hn]. split; [done|]. intros q. rewrite Ha.
  unfold cut, kept, full. destruct q as [|n s]; [done|]. by destruct b.
Qed.

Lemma collectFileInfo_spec b t :
  ftree_wf t →
  match collectFileInfo fails b t with
  | Ok r => names_ok r ∧ ∀ q, attr r q = full t q
  | Err e => ∃ op, fails op = Some e
  | _ => False
  end.
Proof.
  intros Hwf. unfold collectFileInfo, call.
  destruct (fails (Lstat b [])) eqn:E1; [by exists (Lstat b [])|]. cbn [and_then].
  pose proof (collect_spec fails (S (tree_size t)) b [] t newRootFileInfo Hwf) as Hc.
  destruct (collect fails _ b [] t newRootFileInfo) as [r [[]|e|m|]]; simpl in *.
  - destruct (filled_root (fattr (Some t)) r) as [Ha Hn]; [|done].
    apply Hc; [lia|done|by eexists].
  - apply Hc; [lia|done|by eexists].
  - apply Hc; [lia|done|by eexists].
  - apply Hc; [lia|done|by eexists].
Qed.
End collected.

Lemma may_follow_NoDup l : StronglySorted may_follow l → NoDup l.
Proof.
  induction 1 as [|c l Hs IH Hall]; constructor; [|done]. intros Hin.
  rewrite Forall_forall in Hall. by apply (Hall c Hin).
Qed.

(** C32: For any two well-formed directory trees in which an inode number of a device
    identifies a file, ChangesDirs with the collector of Linux, which leaves out what
    has the same inode on both sides, returns the same changes, up to their order, as
    with the complete collector of the other systems; when it does not return, it
    reports the error of a call of the operating system. *)
Theorem pruned_walk_same_changes fails old new oldDir tmp :
  ftree_wf old → ftree_wf new → inodes_identify (Some old) (Some new) →
  (oldDir = Some old ∨ oldDir = None ∧ tmp = inr old) →
  ∃ l, ChangesDirs (collectFileInfoForChanges_other (λ _, None)) new oldDir tmp = Ok l ∧
    match ChangesDirs (collectFileInfoForChanges fails) new oldDir tmp with
    | Ok l' => l' ≡ₚ l
    | Err e => ∃ op, fails op = Some e
    | _ => False
    end.
Proof.
  intros Hwf1 Hwf2 Hid Hdir.
  assert (∀ c, ChangesDirs c new oldDir tmp = ChangesDirs c new (Some old) tmp) as Hc
    by (by intros c; destruct Hdir as [->|[-> ->]]).
  rewrite !Hc. unfold ChangesDirs, collectFileInfoForChanges_other.
  pose proof (collectFileInfo_spec (λ _, None) false old Hwf1) as H1.
  destruct (collectFileInfo _ false old) as [r1|e|m|]; [|by destruct H1|done|done].
  pose proof (collectFileInfo_spec (λ _, None) true new Hwf2) as H2.
  destruct (collectFileInfo _ true new) as [r2|e|m|]; [|by destruct H2|done|done].
  destruct H1 as [Hn1 Ha1], H2 as [Hn2 Ha2]. eexists. split; [done|].
  pose proof (collect_linux_spec fails old new Hwf1 Hwf2) as Hl.
  destruct (collectFileInfoForChanges fails old new) as [[s1 s2]|e|m|]; try done.
  destruct (Hl false) as [Ns1 As1], (Hl true) as [Ns2 As2]. simpl in Ns1, As1, Ns2, As2.
  set (K := keep (Some old) (Some new)) in *.
  assert (∀ q r, K q = false → K (q ++ r) = false) as HK by (intros; by apply keep_app).
  assert (∀ q, K q = false → full old q = full new q) as Hsame.
  { intros [|n q] Hk; [done|]. by apply (keep_same (Some old) (Some new)). }
  destruct (Changes_exact s2 s1) as [Hes Hss]; [by eapply (collected_wf new)|by eapply (collected_wf old)|].
  destruct (Changes_exact r2 r1) as [Her Hsr];
    [by apply (collected_wf new _ (λ _, true))|by apply (collected_wf old _ (λ _, true))|].
  apply NoDup_Permutation; [by apply may_follow_NoDup..|]. intros [p k].
  rewrite Hes, Her, !reported_attr.
  rewrite (attr_reported_ext _ _ _ _ _ _ As1 As2), (attr_reported_ext _ _ _ _ _ _ Ha1 Ha2).
  by apply cut_reported.
Qed.

(** On trees that share a file. *)
Definition demo_leaf (ino size : Z) : ftree :=
  mkFile (demo_stat (S_IFREG + 420) size 1) 1 ino [] [].
Definition demo_top (ino : Z) (es : list (string * ftree)) : ftree :=
  mkFile (demo_stat (S_IFDIR + 493) 4096 7) 1 ino [] es.
Definition demo_old_dir : ftree := demo_top 10 [("a", demo_leaf 2 5); ("b", demo_leaf 3 6)].
Definition demo_new_dir : ftree := demo_top 11 [("b", demo_leaf 4 7); ("a", demo_leaf 2 5)].

Lemma demo_leaf_wf ino size : ftree_wf (demo_leaf ino size).
Proof. constructor; [constructor|done|]. by intros ? ? ?%not_elem_of_nil. Qed.

Lemma demo_top_wf ino n1 c1 n2 c2 :
  n1 ≠ n2 → ftree_wf c1 → ftree_wf c2 → ftree_wf (demo_top ino [(n1, c1); (n2, c2)]).
Proof.
  intros Hn H1 H2. constructor; [|done|].
  - cbn. constructor; [by rewrite list_elem_of_singleton|]. apply NoDup_singleton.
  - cbn. intros n c [[= -> ->]|[= -> ->]%list_elem_of_singleton]%elem_of_cons; done.
Qed.

Lemma flook_leaf ino size q d :
  flook (Some (demo_leaf ino size)) q = Some d → f_entries d = [].
Proof. destruct q as [|n q]; [by intros [= <-]|]. cbn [flook]. change (sub _ n) with (@None ftree). by rewrite flook_None. Qed.

Lemma demo_inodes : inodes_identify (Some demo_old_dir) (Some demo_new_dir).
Proof.
  intros q n d1 d2 c1 c2 H1 H2 _ E1 E2 Hi. destruct q as [|m q].
  - injection H1 as <-. injection H2 as <-. simpl in E1, E2. repeat case_decide; by simplify_eq.
  - exfalso. cbn [flook] in H1. unfold sub in H1. simpl in H1.
    assert (f_entries d1 = []) as E; [|by rewrite E in E1].
    repeat case_decide; [by eapply flook_leaf..|]. by rewrite flook_None in H1.
Qed.

Example pruned_walk_same_changes_witness :
  ∃ l, ChangesDirs (collectFileInfoForChanges_other (λ _, None)) demo_new_dir (Some demo_old_dir) (inl "")
       = Ok l ∧
    match ChangesDirs (collectFileInfoForChanges (λ _, None)) demo_new_dir (Some demo_old_dir) (inl "") with
    | Ok l' => l' ≡ₚ l
    | Err e => ∃ op : syscall_op, None = Some e
    | _ => False
    end.
Proof.
  apply (pruned_walk_same_changes (λ _, None) demo_old_dir demo_new_dir (Some demo_old_dir) (inl "")).
  - apply demo_top_wf; [done|apply demo_leaf_wf..].
  - apply demo_top_wf; [done|apply demo_leaf_wf..].
  - exact demo_inodes.
  - by left.
Defined.

(** The two collectors on these trees: the shared file is left out. *)
Example demo_collectors :
  ChangesDirs (collectFileInfoForChanges (λ _, None)) demo_new_dir (Some demo_old_dir) (inl "")
    = Ok [mkChange ["b"] ChangeModify] ∧
  collectFileInfoForChanges (λ _, None) demo_old_dir demo_new_dir
    = Ok (mkInfo nil_stat [] [("b", mkInfo (demo_stat (S_IFREG + 420) 6 1) [] [])],
          mkInfo nil_stat [] [("b", mkInfo (demo_stat (S_IFREG + 420) 7 1) [] [])]).
Proof. split; vm_compute; reflexivity. Qed.
