(* ===== verification/TruncIndex.v ===== *)
(** * pkg/truncindex: identifiers by prefix

    The model of pkg/truncindex/truncindex.go.  The trie is the vendored package
    go-patricia, the class [Trie]; what the index relies on is [TrieLaws]: the trie
    is a set of keys, and visiting a subtree gives every key with the prefix once. *)

From S2P Require Import Prelude GoStrings.

Class Trie (R : Type) := {
  trie_New : R;
  trie_Insert : R → string → R * bool;
  trie_Delete : R → string → R * bool;
  (** the keys that [VisitSubtree] passes to the visitor, in order *)
  trie_Subtree : R → string → list string
}.

Class TrieLaws (R : Type) `{Trie R} := {
  trie_keys : R → gset string;
  trie_New_keys : trie_keys trie_New = ∅;
  trie_Insert_keys t k : k ∉ trie_keys t →
    (trie_Insert t k).2 = true ∧ trie_keys (trie_Insert t k).1 = {[k]} ∪ trie_keys t;
  trie_Delete_keys t k : k ∈ trie_keys t →
    (trie_Delete t k).2 = true ∧ trie_keys (trie_Delete t k).1 = trie_keys t ∖ {[k]};
  trie_Subtree_NoDup t p : NoDup (trie_Subtree t p);
  trie_Subtree_keys t p k : k ∈ trie_Subtree t p ↔ k ∈ trie_keys t ∧ HasPrefix k p = true
}.

Inductive trunc_error :=
| ErrEmptyPrefix
| ErrIllegalChar
| ErrNotExist
| ErrAmbiguousPrefix (prefix : string)
| ErrAlreadyExists (id : string)
| ErrInsert (id : string)
| ErrNoSuchID (id : string).

Section trunc_index.
Context {R : Type} `{Trie R}.

Record TruncIndex := mkIndex { ti_trie : R; ti_ids : gset string }.

Definition addID (idx : TruncIndex) (id : string) : TruncIndex * outcome trunc_error unit :=
  if contains_char " " id then (idx, Err ErrIllegalChar)
  else if decide (id = "") then (idx, Err ErrEmptyPrefix)
  else if decide (id ∈ ti_ids idx) then (idx, Err (ErrAlreadyExists id))
  else
    let '(trie, inserted) := trie_Insert (ti_trie idx) id in
    (mkIndex trie ({[id]} ∪ ti_ids idx), if inserted then Ok tt else Err (ErrInsert id)).

(** The errors of the initial identifiers are not reported. *)
Definition NewTruncIndex (ids : list string) : TruncIndex :=
  foldl (λ idx id, (addID idx id).1) (mkIndex trie_New ∅) ids.

Definition TruncIndex_Add (idx : TruncIndex) (id : string) : TruncIndex * outcome trunc_error unit :=
  addID idx id.

Definition TruncIndex_Delete (idx : TruncIndex) (id : string) :
    TruncIndex * outcome trunc_error unit :=
  if decide (id ∉ ti_ids idx ∨ id = "") then (idx, Err (ErrNoSuchID id))
  else
    let '(trie, deleted) := trie_Delete (ti_trie idx) id in
    (mkIndex trie (ti_ids idx ∖ {[id]}), if deleted then Ok tt else Err (ErrNoSuchID id)).

(** The visitor with the identifier found so far; an error ends the visit. *)
Fixpoint visit (keys : list string) (id : string) : string * option trunc_error :=
  match keys with
  | [] => (id, None)
  | prefix :: keys =>
      if decide (id ≠ "") then ("", Some (ErrAmbiguousPrefix prefix)) else visit keys prefix
  end.

Definition TruncIndex_Get (idx : TruncIndex) (s : string) : outcome trunc_error string :=
  if decide (s = "") then Err ErrEmptyPrefix
  else
    match visit (trie_Subtree (ti_trie idx) s) "" with
    | (_, Some e) => Err e
    | (id, None) => if decide (id ≠ "") then Ok id else Err ErrNotExist
    end.

(** [Iterate] visits the whole trie; the identifiers that the handler gets. *)
Definition TruncIndex_Iterate (idx : TruncIndex) : list string := trie_Subtree (ti_trie idx) "".

(** ** The index as a set of identifiers *)

Inductive index_op := OpAdd (id : string) | OpDelete (id : string).

Definition index_call (idx : TruncIndex) (op : index_op) : TruncIndex * outcome trunc_error unit :=
  match op with OpAdd id => TruncIndex_Add idx id | OpDelete id => TruncIndex_Delete idx id end.
Definition index_run (idx : TruncIndex) (ops : list index_op) : TruncIndex :=
  foldl (λ idx op, (index_call idx op).1) idx ops.

(** The specification: a set of identifiers that are not empty and have no space. *)
Definition valid_id (id : string) : bool := negb (contains_char " " id) && bool_decide (id ≠ "").
Definition set_call (S : gset string) (op : index_op) : gset string * outcome trunc_error unit :=
  match op with
  | OpAdd id =>
      if valid_id id then
        if decide (id ∈ S) then (S, Err (ErrAlreadyExists id)) else ({[id]} ∪ S, Ok tt)
      else (S, Err (if contains_char " " id then ErrIllegalChar else ErrEmptyPrefix))
  | OpDelete id => if decide (id ∈ S) then (S ∖ {[id]}, Ok tt) else (S, Err (ErrNoSuchID id))
  end.

Context `{!TrieLaws R}.

Record index_ok (idx : TruncIndex) : Prop := {
  ix_keys : trie_keys (ti_trie idx) = ti_ids idx;
  ix_valid id : id ∈ ti_ids idx → valid_id id = true
}.

Lemma index_call_refines idx op :
  index_ok idx →
  index_ok (index_call idx op).1 ∧
  (ti_ids (index_call idx op).1, (index_call idx op).2) = set_call (ti_ids idx) op.
Proof.
  intros [Hk Hv]. assert (index_ok idx) as Hok by done. destruct op as [id|id]; simpl.
  - unfold TruncIndex_Add, addID, valid_id. destruct (contains_char " " id) eqn:Ec; [done|]. simpl.
    case_decide as He; [by rewrite bool_decide_eq_false_2 by auto|].
    rewrite bool_decide_eq_true_2 by done. case_decide as Hin; [done|].
    destruct (trie_Insert_keys (ti_trie idx) id) as [Hi Hks]; [by rewrite Hk|].
    destruct (trie_Insert (ti_trie idx) id) as [t ins]. simpl in *. subst ins. split; [|done].
    split; simpl; [by rewrite Hks, Hk|]. intros id' [->%elem_of_singleton|Hin']%elem_of_union; [|by apply Hv].
    unfold valid_id. by rewrite Ec, bool_decide_eq_true_2.
  - unfold TruncIndex_Delete. destruct (decide (id ∈ ti_ids idx)) as [Hin|Hin].
    + rewrite decide_False.
      2:{ intros [?| ->]; [done|]. apply Hv in Hin. done. }
      destruct (trie_Delete_keys (ti_trie idx) id) as [Hi Hks]; [by rewrite Hk|].
      destruct (trie_Delete (ti_trie idx) id) as [t del]. simpl in *. subst del. split; [|done].
      split; simpl; [by rewrite Hks, Hk|]. intros id' [Hin' _]%elem_of_difference. by apply Hv.
    + by rewrite decide_True by auto.
Qed.

Lemma NewTruncIndex_ok ids : index_ok (NewTruncIndex ids).
Proof.
  unfold NewTruncIndex.
  assert (index_ok (mkIndex trie_New ∅)) as Hok
    by (split; simpl; [apply trie_New_keys|by intros id ?%elem_of_empty]).
  revert Hok. generalize (mkIndex trie_New ∅). induction ids as [|id ids IH]; intros idx Hok; [done|].
  simpl. apply IH. by apply (index_call_refines idx (OpAdd id)).
Qed.

Lemma index_run_ok idx ops : index_ok idx → index_ok (index_run idx ops).
Proof.
  unfold index_run. revert idx. induction ops as [|op ops IH]; intros idx Hok; simpl; [done|].
  apply IH. by apply index_call_refines.
Qed.

(** The identifiers with a prefix. *)
Definition matching (idx : TruncIndex) (s : string) : gset string :=
  filter (λ id, HasPrefix id s = true) (ti_ids idx).

Lemma elem_of_subtree idx s id :
  index_ok idx → id ∈ trie_Subtree (ti_trie idx) s ↔ id ∈ matching idx s.
Proof. intros [Hk _]. unfold matching. rewrite trie_Subtree_keys, Hk, elem_of_filter. tauto. Qed.

End trunc_index.

(** A set as a trie. *)
#[local] Instance set_trie : Trie (gset string) := {|
  trie_New := ∅;
  trie_Insert t k := ({[k]} ∪ t, bool_decide (k ∉ t));
  trie_Delete t k := (t ∖ {[k]}, bool_decide (k ∈ t));
  trie_Subtree t p := elements (filter (λ k, HasPrefix k p = true) t)
|}.

#[local] Instance set_trie_laws : TrieLaws (gset string).
Proof.
  refine {| trie_keys t := t |}; simpl.
  - done.
  - intros t k Hk. by rewrite bool_decide_eq_true_2.
  - intros t k Hk. by rewrite bool_decide_eq_true_2.
  - intros t p. apply NoDup_elements.
  - intros t p k. rewrite elem_of_elements, elem_of_filter. tauto.
Defined.


(** The error of an ambiguous prefix names an identifier, not the prefix. *)
Lemma ambiguous_names_identifier :
  TruncIndex_Get (NewTruncIndex (R := gset string) ["19b36c2c"; "19b5"]) "19" ≠
    Err (ErrAmbiguousPrefix "19").
Proof. vm_compute. discriminate. Qed.
