(* ===== verification/GoUTF8.v ===== *)
(** * unicode/utf8: text as bytes

    A Go string as the list of its bytes, and the runes that ranging over it
    delivers: [chunks] has each rune with the bytes it was decoded from, an invalid
    byte being the replacement character.  [TrimSpace], [TrimLeftFunc] and [ToLower]
    of package strings; the case tables outside of ASCII are the class [CaseTables].

    Trimming at the end decodes backwards in Go.  As a byte that can start a rune is
    never in the middle of one, the boundaries are the same as forwards. *)

From S2P Require Import Prelude ShellWord.
Open Scope Z_scope.

Abbreviation bytes := (list Z) (only parsing).

Definition RuneError : rune := 65533.

(** A continuation byte. *)
Definition is_cont (b : Z) : bool := between 128 191 b.

(** [DecodeRuneInString] of a string that is not empty: the rune and its width. *)
Definition decode (b0 : Z) (s : bytes) : rune * nat :=
  if decide (b0 < 128) then (b0, 1%nat)
  else match s with
  | b1 :: s =>
      if between 194 223 b0 && is_cont b1 then ((b0 - 192) * 64 + (b1 - 128), 2%nat)
      else match s with
      | b2 :: s =>
          if between 224 239 b0 && is_cont b1 && is_cont b2 &&
             (negb (bool_decide (b0 = 224)) || bool_decide (160 ≤ b1)) &&
             (negb (bool_decide (b0 = 237)) || bool_decide (b1 < 160))
          then ((b0 - 224) * 4096 + (b1 - 128) * 64 + (b2 - 128), 3%nat)
          else match s with
          | b3 :: _ =>
              if between 240 244 b0 && is_cont b1 && is_cont b2 && is_cont b3 &&
                 (negb (bool_decide (b0 = 240)) || bool_decide (144 ≤ b1)) &&
                 (negb (bool_decide (b0 = 244)) || bool_decide (b1 < 144))
              then ((b0 - 240) * 262144 + (b1 - 128) * 4096 + (b2 - 128) * 64 + (b3 - 128), 4%nat)
              else (RuneError, 1%nat)
          | [] => (RuneError, 1%nat)
          end
      | [] => (RuneError, 1%nat)
      end
  | [] => (RuneError, 1%nat)
  end.

(** A code point that has an encoding. *)
Definition valid_rune (r : rune) : bool := between 0 55295 r || between 57344 1114111 r.

(** The conversion [string(r)]. *)
Definition encode (r : rune) : bytes :=
  if negb (valid_rune r) then [239; 191; 189]
  else if decide (r < 128) then [r]
  else if decide (r < 2048) then [192 + r `div` 64; 128 + r `mod` 64]
  else if decide (r < 65536) then
    [224 + r `div` 4096; 128 + (r `div` 64) `mod` 64; 128 + r `mod` 64]
  else
    [240 + r `div` 262144; 128 + (r `div` 4096) `mod` 64; 128 + (r `div` 64) `mod` 64;
     128 + r `mod` 64].

Definition encode_all (rs : runes) : bytes := rs ≫= encode.

(** The runes of a string with their bytes; [skip] bytes belong to the last one. *)
Fixpoint chunks_from (skip : nat) (cur : rune * bytes) (s : bytes) : list (rune * bytes) :=
  match s with
  | [] => [cur]
  | b :: s' =>
      match skip with
      | S skip => chunks_from skip (cur.1, cur.2 ++ [b]) s'
      | O => cur :: (let '(r, w) := decode b s' in chunks_from (pred w) (r, [b]) s')
      end
  end.
Definition chunks (s : bytes) : list (rune * bytes) :=
  match s with
  | [] => []
  | b :: s' => let '(r, w) := decode b s' in chunks_from (pred w) (r, [b]) s'
  end.

(** The bytes of chunks. *)
Definition raw (cs : list (rune * bytes)) : bytes := cs ≫= snd.
Definition runes_of (s : bytes) : runes := (chunks s).*1.

(** ** Laws *)

Lemma decode_width b s : (decode b s).2 = 1%nat ∨ ((decode b s).2 ≤ S (length s))%nat.
Proof. unfold decode. repeat (case_match; simpl; try by left); right; simpl; lia. Qed.

Lemma chunks_from_raw skip cur s : raw (chunks_from skip cur s) = cur.2 ++ s.
Proof.
  revert skip cur. induction s as [|b s IH]; intros skip cur; [done|].
  destruct skip as [|skip]; cbn [chunks_from].
  - destruct (decode b s) as [r w]. unfold raw in *. simpl. by rewrite IH.
  - rewrite IH. simpl. by rewrite <- app_assoc.
Qed.

Lemma chunks_raw s : raw (chunks s) = s.
Proof.
  destruct s as [|b s]; [done|]. cbn [chunks]. destruct (decode b s) as [r w].
  by rewrite chunks_from_raw.
Qed.

(** The bytes of a chunk are taken as they are needed. *)
Lemma chunks_from_skip (w : nat) cur s :
  (w ≤ length s)%nat →
  chunks_from w cur s = (cur.1, cur.2 ++ take w s) :: chunks (drop w s).
Proof.
  revert w cur. induction s as [|b s IH]; intros w cur Hw.
  { destruct w; simpl in Hw; [|lia]. simpl. rewrite app_nil_r. by destruct cur. }
  destruct w as [|w]; cbn [chunks_from].
  - rewrite take_0, app_nil_r, drop_0. by destruct cur.
  - rewrite IH by (simpl in Hw; lia). simpl. by rewrite <- app_assoc.
Qed.

Lemma chunks_cons b s :
  chunks (b :: s) =
    let '(r, w) := decode b s in
    (r, b :: take (pred w) s) :: chunks (drop (pred w) s).
Proof.
  cbn [chunks]. pose proof (decode_width b s) as Hw. destruct (decode b s) as [r w].
  simpl in Hw. rewrite chunks_from_skip by (destruct w; simpl; lia). done.
Qed.

Lemma decode_encode r s b t :
  valid_rune r = true → encode r = b :: t → decode b (t ++ s) = (r, S (length t)).
Proof.
  unfold encode. intros Hv. rewrite Hv. unfold valid_rune, between in Hv.
  apply orb_true_iff in Hv. rewrite !bool_decide_eq_true in Hv. cbn [negb].
  pose proof (Z.div_mod r 64 ltac:(done)). pose proof (Z.mod_pos_bound r 64 ltac:(done)).
  pose proof (Z.div_mod (r `div` 64) 64 ltac:(done)).
  pose proof (Z.mod_pos_bound (r `div` 64) 64 ltac:(done)).
  pose proof (Z.div_mod (r `div` 4096) 64 ltac:(done)).
  pose proof (Z.mod_pos_bound (r `div` 4096) 64 ltac:(done)).
  assert (r `div` 64 `div` 64 = r `div` 4096) as E1 by (by rewrite Z.div_div).
  assert (r `div` 4096 `div` 64 = r `div` 262144) as E2 by (by rewrite Z.div_div).
  rewrite E1 in *. rewrite E2 in *.
  repeat case_decide; intros [= <- <-]; unfold decode, is_cont, between; cbn [app length].
  - by rewrite decide_True.
  - rewrite decide_False by lia. repeat (rewrite bool_decide_eq_true_2 by lia; cbn [andb]). f_equal. lia.
  - rewrite decide_False by lia.
    rewrite (bool_decide_eq_false_2 (194 ≤ _ ≤ 223)) by lia. cbn [andb orb negb].
    assert (224 + r `div` 4096 = 224 → 160 ≤ 128 + r `div` 64 `mod` 64) by lia.
    assert (224 + r `div` 4096 = 237 → 128 + r `div` 64 `mod` 64 < 160) by lia.
    rewrite (bool_decide_eq_true_2 (224 ≤ _ ≤ 239)) by lia.
    rewrite !(bool_decide_eq_true_2 (128 ≤ _ ≤ 191)) by lia. cbn [andb orb negb].
    repeat case_bool_decide; cbn [andb orb negb]; first [f_equal; lia|exfalso; lia].
  - rewrite decide_False by lia.
    rewrite (bool_decide_eq_false_2 (194 ≤ _ ≤ 223)) by lia. cbn [andb orb negb].
    rewrite (bool_decide_eq_false_2 (224 ≤ _ ≤ 239)) by lia. cbn [andb orb negb].
    assert (240 + r `div` 262144 = 240 → 144 ≤ 128 + r `div` 4096 `mod` 64) by lia.
    assert (240 + r `div` 262144 = 244 → 128 + r `div` 4096 `mod` 64 < 144) by lia.
    rewrite (bool_decide_eq_true_2 (240 ≤ _ ≤ 244)) by lia.
    rewrite !(bool_decide_eq_true_2 (128 ≤ _ ≤ 191)) by lia. cbn [andb orb negb].
    repeat case_bool_decide; cbn [andb orb negb]; first [f_equal; lia|exfalso; lia].
Qed.

Lemma encode_cons r : ∃ b t, encode r = b :: t.
Proof. unfold encode. repeat case_match; eauto. Qed.

Lemma chunks_encode r s :
  valid_rune r = true → chunks (encode r ++ s) = (r, encode r) :: chunks s.
Proof.
  intros Hv. destruct (encode_cons r) as (b & t & He). rewrite He. simpl app.
  rewrite chunks_cons, (decode_encode r s b t Hv He). simpl.
  by rewrite take_app_length, drop_app_length.
Qed.

Definition encoded (rs : runes) : list (rune * bytes) := (λ r, (r, encode r)) <$> rs.

Lemma encode_all_cons r rs : encode_all (r :: rs) = encode r ++ encode_all rs.
Proof. done. Qed.

Lemma chunks_encode_all rs s :
  Forall (λ r, valid_rune r = true) rs → chunks (encode_all rs ++ s) = encoded rs ++ chunks s.
Proof.
  induction 1 as [|r rs Hr Hrs IH]; [done|]. rewrite encode_all_cons.
  rewrite <- app_assoc, chunks_encode, IH by done. done.
Qed.

Lemma runes_of_encode_all rs :
  Forall (λ r, valid_rune r = true) rs → runes_of (encode_all rs) = rs.
Proof.
  intros Hrs. unfold runes_of. rewrite <- (app_nil_r (encode_all rs)), chunks_encode_all by done.
  simpl. rewrite app_nil_r. unfold encoded. rewrite <- list_fmap_compose.
  apply list_fmap_id.
Qed.

(** ** Package strings *)

Fixpoint trim_chunks (cs : list (rune * bytes)) : list (rune * bytes) :=
  match cs with
  | [] => []
  | c :: cs' => if IsSpace c.1 then trim_chunks cs' else cs
  end.

(** [strings.TrimLeftFunc(s, unicode.IsSpace)]. *)
Definition TrimLeftSpace (s : bytes) : bytes := raw (trim_chunks (chunks s)).
Definition TrimSpace (s : bytes) : bytes :=
  raw (reverse (trim_chunks (reverse (trim_chunks (chunks s))))).

Class CaseTables := { table_lower : rune → rune }.
Definition rune_lower `{CaseTables} (c : rune) : rune :=
  if decide (c < 128) then (if between 65 90 c then c + 32 else c) else table_lower c.

(** [strings.Map]: up to the first rune that changes the bytes are kept, then runes
    are encoded. *)
Fixpoint lower_chunks `{CaseTables} (changed : bool) (cs : list (rune * bytes)) : bytes :=
  match cs with
  | [] => []
  | (r, b) :: cs =>
      let changed := changed || negb (bool_decide (rune_lower r = r)) in
      (if changed then encode (rune_lower r) else b) ++ lower_chunks changed cs
  end.
Definition ToLower `{CaseTables} (s : bytes) : bytes := lower_chunks false (chunks s).
