(* ===== verification/Dockerfile.v ===== *)
(** * builder/dockerfile/parser: from a Dockerfile to its parse tree

    The model of builder/dockerfile/parser (parser.go, line_parsers.go, utils.go), of
    the table of commands (builder/dockerfile/command), and of the part of
    [dispatch] in builder/dockerfile/evaluator.go that turns the nodes of a statement
    into its list of arguments.

    Texts are lists of bytes (GoUTF8).  The regular expressions of the source are
    written out as functions.  A nil [*Node] is [None]; the children of a node are
    pointers that may be nil.  [LineContinuationRegex] is determined by
    [EscapeToken] and not kept apart.  Decoding a JSON array is the parameter
    [json_strings] (package encoding/json): it gives the elements of the array at the
    start of the text, [None] for one that is not a string.  Errors are values of
    [parse_error] instead of messages. *)

From S2P Require Import Prelude ShellWord GoUTF8.
Open Scope Z_scope.

(** A text of ASCII characters. *)
Definition B (s : string) : bytes :=
  (λ c, Z.of_nat (nat_of_ascii c)) <$> String.list_ascii_of_string s.

(** ** Data *)

Inductive Node := mkNode {
  n_Value : bytes;
  n_Next : option Node;
  n_Children : list (option Node);
  n_Attributes : gmap string bool;
  n_Original : bytes;
  n_Flags : list bytes;
  n_StartLine : Z;
  n_EndLine : Z
}.

Record Directive := mkDirective {
  d_EscapeToken : rune;
  d_LookingForDirectives : bool;
  d_EscapeSeen : bool
}.

Inductive parse_error :=
| ErrInvalidEscape (s : bytes)
| ErrEscapeTwice
| ErrTwoArguments (key : string)
| ErrNoEquals (word : bytes)
| ErrNotStringArray
| ErrNotJSON (msg : string).

Class JSONArrays := { json_strings : bytes → string + list (option bytes) }.

(** A node with a value only, and a list of them linked by [Next]. *)
Definition leaf (v : bytes) (next : option Node) : Node := mkNode v next [] ∅ [] [] 0 0.
Definition chain (vs : list bytes) : option Node :=
  foldr (λ v next, Some (leaf v next)) None vs.

(** ** Regular expressions *)

Definition newline : Z := 10.
Definition hash : Z := 35.
Definition backquote : Z := 96.
Definition is_blank (b : Z) : bool := bool_decide (b ∈ [9; 32]).

(** tokenWhitespace *)
Definition is_token_space (b : Z) : bool := bool_decide (b ∈ [9; 11; 12; 13; 32]).

Fixpoint drop_while (f : Z → bool) (s : bytes) : bytes :=
  match s with
  | [] => []
  | b :: s' => if f b then drop_while f s' else s
  end.

(** [tokenWhitespace.Split(s, -1)], inside a run of spaces or not. *)
Fixpoint split_all (in_run : bool) (cur s : bytes) : list bytes :=
  match s with
  | [] => [cur]
  | b :: s =>
      if is_token_space b then
        if in_run then split_all true cur s else cur :: split_all true [] s
      else split_all false (cur ++ [b]) s
  end.

(** [tokenWhitespace.Split(s, 2)]: the parts before and after the first run. *)
Fixpoint split_two (cur s : bytes) : bytes * option bytes :=
  match s with
  | [] => (cur, None)
  | b :: s' =>
      if is_token_space b then (cur, Some (drop_while is_token_space s'))
      else split_two (cur ++ [b]) s'
  end.

(** tokenComment *)
Definition stripComments (line : bytes) : bytes :=
  match line with
  | b :: rest => if bool_decide (b = hash) && bool_decide (newline ∉ rest) then [] else line
  | [] => []
  end.

Fixpoint strip_bytes (p s : bytes) : option bytes :=
  match p, s with
  | [], _ => Some s
  | a :: p, b :: s => if decide (a = b) then strip_bytes p s else None
  | _, [] => None
  end.

(** tokenEscapeCommand: the bytes that the group "escapechar" matches.  The blanks
    before it are taken as far as a character is left. *)
Definition escape_char (line : bytes) : option bytes :=
  rest ← strip_bytes [hash] line;
  rest ← strip_bytes (B "escape") (drop_while is_blank rest);
  rest ← strip_bytes [equals] (drop_while is_blank rest);
  if decide (newline ∈ rest) then None
  else match chunks (drop_while is_blank rest) with
       | (_, b) :: _ => Some b
       | [] => (λ b, [b]) <$> last rest
       end.

(** LineContinuationRegex: the line without the escape token at its end and the
    blanks after that. *)
Definition strip_continuation (token : rune) (line : bytes) : option bytes :=
  match drop_while is_blank (reverse line) with
  | b :: rest => if decide (b = token) then Some (reverse rest) else None
  | [] => None
  end.

(** ** Directives *)

Definition DefaultEscapeToken : bytes := [backslash].

Definition SetEscapeToken (s : bytes) (d : Directive) : Directive * outcome parse_error unit :=
  match s with
  | [c] =>
      if decide (c = backquote ∨ c = backslash)
      then (mkDirective c (d_LookingForDirectives d) (d_EscapeSeen d), Ok tt)
      else (d, Err (ErrInvalidEscape s))
  | _ => (d, Err (ErrInvalidEscape s))
  end.

(** The directive of a build before anything is read (builder/dockerfile/builder.go). *)
Definition new_directive : Directive :=
  (SetEscapeToken DefaultEscapeToken (mkDirective 0 true false)).1.

(** ** Words *)

Inductive word_phase := inSpaces | inWord | inQuote.
Record word_state := mkWordState {
  w_words : list bytes;
  w_phase : word_phase;
  w_word : bytes;
  w_quote : rune;
  w_blankOK : bool
}.

(** The word is complete; an empty one counts when it was quoted. *)
Definition end_word (st : word_state) : list bytes :=
  if w_blankOK st || negb (bool_decide (w_word st = []))
  then w_words st ++ [w_word st] else w_words st.

Definition set_word (st : word_state) (phase : word_phase) (word : bytes) : word_state :=
  mkWordState (w_words st) phase word (w_quote st) (w_blankOK st).

(** The loop of [parseWords] over the runes that are left. *)
Fixpoint words_loop (token : rune) (st : word_state) (rest : list (rune * bytes)) : list bytes :=
  match rest with
  | [] => match w_phase st with inSpaces => w_words st | _ => end_word st end
  | (ch, _) :: rest =>
      let in_word (st : word_state) :=
        if IsSpace ch then
          words_loop token (mkWordState (end_word st) inSpaces [] (w_quote st) false) rest
        else
          let st := if decide (ch = single_quote ∨ ch = double_quote)
                    then mkWordState (w_words st) inQuote (w_word st) ch true else st in
          if decide (ch = token) then
            match rest with
            | [] => words_loop token st rest
            | (ch', _) :: rest =>
                words_loop token (set_word st (w_phase st) (w_word st ++ encode ch ++ encode ch')) rest
            end
          else words_loop token (set_word st (w_phase st) (w_word st ++ encode ch)) rest in
      match w_phase st with
      | inSpaces =>
          if IsSpace ch then words_loop token st rest
          else in_word (set_word st inWord (w_word st))
      | inWord => in_word st
      | inQuote =>
          let phase := if decide (ch = w_quote st) then inWord else inQuote in
          if decide (ch = token ∧ w_quote st ≠ single_quote) then
            match rest with
            | [] => words_loop token (set_word st inWord (w_word st)) rest
            | (ch', _) :: rest =>
                words_loop token (set_word st phase (w_word st ++ encode ch ++ encode ch')) rest
            end
          else words_loop token (set_word st phase (w_word st ++ encode ch)) rest
      end
  end.

Definition new_words : word_state := mkWordState [] inSpaces [] 0 false.
Definition parseWords (rest : bytes) (d : Directive) : list bytes :=
  words_loop (d_EscapeToken d) new_words (chunks rest).

(** The loop of [extractBuilderFlags], over bytes taken for runes: what is left of
    the line, and the flags. *)
Fixpoint flags_loop (st : word_state) (line : bytes) : bytes * list bytes :=
  match line with
  | [] =>
      match w_phase st with
      | inSpaces => ([], w_words st)
      | _ => ([], if decide (w_word st = B "--") then w_words st else end_word st)
      end
  | ch :: rest =>
      let in_word (st : word_state) :=
        if IsSpace ch then
          if decide (w_word st = B "--") then (line, w_words st)
          else flags_loop (mkWordState (end_word st) inSpaces [] (w_quote st) false) rest
        else if decide (ch = single_quote ∨ ch = double_quote) then
          flags_loop (mkWordState (w_words st) inQuote (w_word st) ch true) rest
        else if decide (ch = backslash) then
          match rest with
          | [] => flags_loop st rest
          | ch' :: rest => flags_loop (set_word st inWord (w_word st ++ encode ch')) rest
          end
        else flags_loop (set_word st inWord (w_word st ++ encode ch)) rest in
      match w_phase st with
      | inSpaces =>
          if IsSpace ch then flags_loop st rest
          else if bool_decide (ch ≠ minus) || bool_decide (head rest ≠ Some minus)
          then (line, w_words st)
          else in_word (set_word st inWord (w_word st))
      | inWord => in_word st
      | inQuote =>
          if decide (ch = w_quote st) then flags_loop (set_word st inWord (w_word st)) rest
          else if decide (ch = backslash) then
            match rest with
            | [] => flags_loop (set_word st inWord (w_word st)) rest
            | ch' :: rest => flags_loop (set_word st inQuote (w_word st ++ encode ch')) rest
            end
          else flags_loop (set_word st inQuote (w_word st ++ encode ch)) rest
      end
  end.

Definition extractBuilderFlags (line : bytes) : bytes * list bytes := flags_loop new_words line.

Section parser.
Context {cases : CaseTables} {json : JSONArrays}.

(** The command, its flags and its arguments. *)
Definition splitCommand (line : bytes) : bytes * list bytes * bytes :=
  let '(cmd, rest) := split_two [] (TrimSpace line) in
  let '(args, flags) :=
    match rest with Some rest => extractBuilderFlags rest | None => ([], []) end in
  (ToLower cmd, flags, TrimSpace args).

(** ** Line parsers *)

Abbreviation line_result := (outcome parse_error (option Node * gmap string bool)).

Definition parseIgnore : line_result := Ok (Some (leaf [] None), ∅).

(** [sub] is [ParseLine] of the rest. *)
Definition parseSubCommand (sub : bytes → Directive * outcome parse_error (bytes * option Node))
    (d : Directive) (rest : bytes) : Directive * line_result :=
  if decide (rest = []) then (d, Ok (None, ∅))
  else
    let! (d, r) := sub rest in
    (d, Ok (Some (mkNode [] None [r.2] ∅ [] [] 0 0), ∅)).

(** The values of the nodes for words of the form name=value. *)
Fixpoint name_values (words : list bytes) : outcome parse_error (list bytes) :=
  match words with
  | [] => Ok []
  | word :: words =>
      match cut_equals word with
      | None => Err (ErrNoEquals word)
      | Some (name, value) =>
          match name_values words with
          | Ok vs => Ok (name :: value :: vs)
          | e => e
          end
      end
  end.

Definition parseNameVal (rest : bytes) (key : string) (d : Directive) : line_result :=
  match parseWords rest d with
  | [] => Ok (None, ∅)
  | word :: words =>
      if decide (equals ∉ word) then
        match split_two [] rest with
        | (name, Some value) => Ok (chain [name; value], ∅)
        | (_, None) => Err (ErrTwoArguments key)
        end
      else
        match name_values (word :: words) with
        | Ok vs => Ok (chain vs, ∅)
        | Err e => Err e
        | Panic m => Panic m
        | Diverge => Diverge
        end
  end.
Definition parseEnv (rest : bytes) (d : Directive) : line_result := parseNameVal rest "ENV" d.
Definition parseLabel (rest : bytes) (d : Directive) : line_result := parseNameVal rest "LABEL" d.

Definition parseNameOrNameVal (rest : bytes) (d : Directive) : line_result :=
  Ok (chain (parseWords rest d), ∅).

Definition parseStringsWhitespaceDelimited (rest : bytes) : line_result :=
  if decide (rest = []) then Ok (None, ∅) else Ok (chain (split_all false [] rest), ∅).

Definition parseString (rest : bytes) : line_result :=
  if decide (rest = []) then Ok (None, ∅) else Ok (chain [rest], ∅).

Definition parseJSON (rest : bytes) : line_result :=
  let rest := TrimLeftSpace rest in
  match strip_bytes (B "[") rest with
  | None => Err (ErrNotJSON "not a JSON array")
  | Some _ =>
      match json_strings rest with
      | inl e => Err (ErrNotJSON e)
      | inr elems =>
          match mapM id elems with
          | None => Err ErrNotStringArray
          | Some strs => Ok (chain strs, {[ "json" := true ]})
          end
      end
  end.

(** An array of other things than strings is an error; what is no JSON is read by
    [other]. *)
Definition json_or (other : line_result) (rest : bytes) : line_result :=
  match parseJSON rest with
  | Ok r => Ok r
  | Err ErrNotStringArray => Err ErrNotStringArray
  | _ => other
  end.

Definition parseMaybeJSON (rest : bytes) : line_result :=
  if decide (rest = []) then Ok (None, ∅) else json_or (Ok (chain [rest], ∅)) rest.
Definition parseMaybeJSONToList (rest : bytes) : line_result :=
  json_or (parseStringsWhitespaceDelimited rest) rest.

Definition parseHealthConfig (rest : bytes) : line_result :=
  let typ := take (length rest - length (drop_while (λ b, negb (IsSpace b)) rest)) rest in
  let cmd := drop_while IsSpace (drop_while (λ b, negb (IsSpace b)) rest) in
  if decide (typ = []) then Ok (None, ∅)
  else
    match parseMaybeJSON cmd with
    | Ok (next, attrs) => Ok (Some (mkNode typ next [] attrs [] [] 0 0), ∅)
    | Err e => Err e
    | Panic m => Panic m
    | Diverge => Diverge
    end.

(** The dispatch table and [fullDispatch]: the first entry whose command it is. *)
Definition fullDispatch (sub : bytes → Directive * outcome parse_error (bytes * option Node))
    (d : Directive) (cmd args : bytes) : Directive * line_result :=
  if decide (cmd ∈ [B "add"; B "copy"; B "volume"]) then (d, parseMaybeJSONToList args)
  else if decide (cmd ∈ [B "cmd"; B "entrypoint"; B "run"; B "shell"]) then
    (d, parseMaybeJSON args)
  else if decide (cmd ∈ [B "from"; B "maintainer"; B "stopsignal"; B "user"; B "workdir"]) then
    (d, parseString args)
  else if decide (cmd = B "env") then (d, parseEnv args d)
  else if decide (cmd = B "label") then (d, parseLabel args d)
  else if decide (cmd = B "arg") then (d, parseNameOrNameVal args d)
  else if decide (cmd = B "expose") then (d, parseStringsWhitespaceDelimited args)
  else if decide (cmd = B "healthcheck") then (d, parseHealthConfig args)
  else if decide (cmd = B "onbuild") then parseSubCommand sub d args
  else (d, parseIgnore).

(** ** Lines *)

Definition no_longer_looking (d : Directive) : Directive :=
  mkDirective (d_EscapeToken d) false (d_EscapeSeen d).

(** [ParseLine] calls itself on a part of the line that is shorter: the length of
    the line is enough fuel. *)
Fixpoint parse_line (fuel : nat) (d : Directive) (line : bytes) :
    Directive * outcome parse_error (bytes * option Node) :=
  match fuel with
  | O => (d, Diverge)
  | S fuel =>
      match (if d_LookingForDirectives d then escape_char (ToLower line) else None) with
      | Some c =>
          if d_EscapeSeen d then (d, Err ErrEscapeTwice)
          else
            let! (d, _) := SetEscapeToken c d in
            (mkDirective (d_EscapeToken d) (d_LookingForDirectives d) true, Ok ([], None))
      | None =>
          let d := no_longer_looking d in
          let line := stripComments line in
          if decide (line = []) then (d, Ok ([], None))
          else
            match strip_continuation (d_EscapeToken d) line with
            | Some line => (d, Ok (line, None))
            | None =>
                let '(cmd, flags, args) := splitCommand line in
                let! (d, r) := fullDispatch (parse_line fuel d) d cmd args in
                (d, Ok ([], Some (mkNode cmd r.1 [] r.2 line flags 0 0)))
            end
      end
  end.
Definition ParseLine (line : bytes) (d : Directive) :
    Directive * outcome parse_error (bytes * option Node) :=
  parse_line (S (length line)) d line.

(** ** Files *)

Definition MaxScanTokenSize : nat := Z.to_nat 65536.

Definition dropCR (line : bytes) : bytes :=
  match reverse line with 13 :: rest => reverse rest | _ => line end.

(** The lines that [bufio.Scanner] delivers; it stops at a line that, with its end,
    does not fit into its buffer. *)
Fixpoint scan_lines (cur s : bytes) : list bytes :=
  match s with
  | [] =>
      if decide (cur = [] ∨ (MaxScanTokenSize ≤ length cur)%nat) then [] else [dropCR cur]
  | b :: s =>
      if decide (b = newline) then
        if decide (MaxScanTokenSize ≤ length cur)%nat then [] else dropCR cur :: scan_lines [] s
      else scan_lines (cur ++ [b]) s
  end.

Definition utf8bom : bytes := [239; 187; 191].

(** The inner loop of [Parse]: the lines that continue [line].  The result is the
    node, or the line at the end of the file, the number of the last line read and
    the lines that are left. *)
Fixpoint continue_lines (d : Directive) (line : bytes) (currentLine : Z) (lines : list bytes) :
    Directive * outcome parse_error (option Node * bytes * Z * list bytes) :=
  match lines with
  | [] => (d, Ok (None, line, currentLine, []))
  | l :: lines =>
      let currentLine := currentLine + 1 in
      if decide (stripComments (TrimSpace l) = []) then continue_lines d line currentLine lines
      else
        let! (d, r) := ParseLine (line ++ l) d in
        match r.2 with
        | Some child => (d, Ok (Some child, r.1, currentLine, lines))
        | None => continue_lines d r.1 currentLine lines
        end
  end.

(** One turn of the outer loop up to the child. *)
Definition parse_statement (d : Directive) (currentLine : Z) (line : bytes) (lines : list bytes) :
    Directive * outcome parse_error (option Node * Z * list bytes) :=
  let! (d, r) := ParseLine line d in
  match r with
  | ((_ :: _) as line, None) =>
      let! (d, r) := continue_lines d line currentLine lines in
      let '(child, line, currentLine, lines) := r in
      match child, line with
      | None, _ :: _ =>
          let! (d, r) := ParseLine line d in
          (d, Ok (r.2, currentLine, lines))
      | _, _ => (d, Ok (child, currentLine, lines))
      end
  | (_, child) => (d, Ok (child, currentLine, lines))
  end.

Definition add_statement (root child : Node) (startLine currentLine : Z) : Node :=
  let child := mkNode (n_Value child) (n_Next child) (n_Children child) (n_Attributes child)
                 (n_Original child) (n_Flags child) startLine currentLine in
  mkNode (n_Value root) (n_Next root) (n_Children root ++ [Some child]) (n_Attributes root)
    (n_Original root) (n_Flags root)
    (if decide (n_StartLine root < 0) then currentLine else n_StartLine root) currentLine.

(** The outer loop; every turn reads a line. *)
Fixpoint parse_loop (fuel : nat) (d : Directive) (root : Node) (currentLine : Z)
    (lines : list bytes) : Directive * outcome parse_error Node :=
  match lines with
  | [] => (d, Ok root)
  | l :: lines =>
      match fuel with
      | O => (d, Diverge)
      | S fuel =>
          let l := if decide (currentLine = 0) then default l (strip_bytes utf8bom l) else l in
          let startLine := currentLine + 1 in
          let! (d, r) := parse_statement d startLine (TrimLeftSpace l) lines in
          let '(child, currentLine, lines) := r in
          parse_loop fuel d
            (match child with
             | Some child => add_statement root child startLine currentLine
             | None => root
             end) currentLine lines
      end
  end.

Definition new_root : Node := mkNode [] None [] ∅ [] [] (-1) 0.
Definition Parse (text : bytes) (d : Directive) : Directive * outcome parse_error Node :=
  let lines := scan_lines [] text in
  parse_loop (length lines) d new_root 0 lines.
End parser.

(** ** From nodes to arguments (builder/dockerfile/evaluator.go) *)

Definition replaceEnvAllowed (cmd : bytes) : bool :=
  bool_decide (cmd ∈ [B "env"; B "label"; B "add"; B "copy"; B "workdir"; B "expose";
                      B "volume"; B "user"; B "stopsignal"; B "arg"]).
Definition allowWordExpansion (cmd : bytes) : bool := bool_decide (cmd = B "expose").

Inductive dispatch_error := OnbuildWithoutArgument | WordError (e : sw_error).

Section dispatch.
Context `{UnicodeTables}.

Definition word_result {A B} (f : A → B) (o : outcome sw_error A) : outcome dispatch_error B :=
  match o with
  | Ok a => Ok (f a)
  | Err e => Err (WordError e)
  | Panic m => Panic m
  | Diverge => Diverge
  end.

(** What the value of one node contributes. *)
Definition expand (cmd : bytes) (envs : list runes) (v : bytes) :
    outcome dispatch_error (list bytes) :=
  if negb (replaceEnvAllowed cmd) then Ok [v]
  else if allowWordExpansion cmd then
    word_result (map encode_all) (ProcessWords (runes_of v) envs)
  else word_result (λ w, [encode_all w]) (ProcessWord (runes_of v) envs).

(** The loop over the nodes after [ast]. *)
Fixpoint expand_next (cmd : bytes) (envs : list runes) (ast : Node) :
    outcome dispatch_error (list bytes) :=
  match n_Next ast with
  | None => Ok []
  | Some ast =>
      match expand cmd envs (n_Value ast) with
      | Ok ws =>
          match expand_next cmd envs ast with
          | Ok ws' => Ok (ws ++ ws')
          | e => e
          end
      | e => e
      end
  end.

Definition dispatch_args (envs : list runes) (ast : Node) : outcome dispatch_error (list bytes) :=
  let cmd := n_Value ast in
  if decide (cmd = B "onbuild") then
    match n_Next ast with
    | None => Err OnbuildWithoutArgument
    | Some next =>
        match n_Children next with
        | Some ast :: _ =>
            match expand_next cmd envs ast with
            | Ok ws => Ok (n_Value ast :: ws)
            | e => e
            end
        | None :: _ => Panic "invalid memory address or nil pointer dereference"
        | [] => Panic "index out of range"
        end
    end
  else expand_next cmd envs ast.
End dispatch.
