(* ===== verification/DockerfileInv.v ===== *)
(** * Correctness of the parser of Dockerfiles: lines

    The parser ends on every text and numbers the statements in order; a statement
    may be spread over lines. *)

From S2P Require Import Prelude ShellWord GoUTF8 Dockerfile.
Open Scope Z_scope.

(** ** Lengths *)

Lemma raw_app cs cs' : raw (cs ++ cs') = raw cs ++ raw cs'.
Proof. unfold raw. by rewrite bind_app. Qed.

Lemma trim_chunks_suffix cs : trim_chunks cs `suffix_of` cs.
Proof.
  induction cs as [|c cs IH]; [done|]. simpl. case_match; [by apply suffix_cons_r|done].
Qed.

Lemma TrimSpace_length s : (length (TrimSpace s) ≤ length s)%nat.
Proof.
  unfold TrimSpace. rewrite <- (chunks_raw s) at 2.
  destruct (trim_chunks_suffix (chunks s)) as [a Ha].
  destruct (trim_chunks_suffix (reverse (trim_chunks (chunks s)))) as [b Hb].
  rewrite Ha at 2. apply (f_equal reverse) in Hb. rewrite reverse_involutive, reverse_app in Hb.
  rewrite Hb at 2. rewrite !raw_app, !length_app. lia.
Qed.

Lemma drop_while_length f s : (length (drop_while f s) ≤ length s)%nat.
Proof. induction s as [|b s IH]; simpl; [lia|]. case_match; simpl; lia. Qed.

Lemma split_two_length cur s a r :
  split_two cur s = (a, Some r) → (length r < length s)%nat.
Proof.
  revert cur. induction s as [|b s IH]; intros cur; simpl; [done|]. case_match.
  - intros [= _ <-]. pose proof (drop_while_length is_token_space s). lia.
  - intros Hs%IH. lia.
Qed.

Lemma flags_loop_length st line : (length (flags_loop st line).1 ≤ length line)%nat.
Proof.
  revert st. induction line as [line IH] using (induction_ltof1 _ length); intros st.
  destruct line as [|ch rest]; [simpl; by destruct (w_phase st)|].
  assert (∀ st, (length (flags_loop st rest).1 ≤ length (ch :: rest))%nat) as H1.
  { intros st'. etransitivity; [apply IH; unfold ltof; simpl; lia|simpl; lia]. }
  assert (∀ st c rest', rest = c :: rest' →
    (length (flags_loop st rest').1 ≤ length (ch :: rest))%nat) as H2.
  { intros st' c rest' ->. etransitivity; [apply IH; unfold ltof; simpl; lia|simpl; lia]. }
  cbn [flags_loop].
  repeat match goal with
  | |- context [match ?x with _ => _ end] =>
      lazymatch x with context [match _ with _ => _ end] => fail | _ => destruct x eqn:? end
  end; subst; try apply H1; try (by eapply H2); simpl; lia.
Qed.

Section parser_inv.
Context {cases : CaseTables} {json : JSONArrays}.

Lemma splitCommand_length line cmd flags args :
  splitCommand line = (cmd, flags, args) → args ≠ [] → (length args < length line)%nat.
Proof.
  unfold splitCommand. pose proof (TrimSpace_length line) as Hl.
  destruct (split_two [] (TrimSpace line)) as [c [r|]] eqn:Hs.
  - apply split_two_length in Hs. unfold extractBuilderFlags.
    pose proof (flags_loop_length new_words r) as Hf.
    destruct (flags_loop new_words r) as [a f]. intros [= _ _ <-] _. simpl in Hf.
    pose proof (TrimSpace_length a). lia.
  - intros [= _ _ <-]. done.
Qed.

(** ** No crashes *)

(** Endings that are no crash, or that an assumption excludes. *)
Ltac no_crash_done :=
  intros;
  first [ by split
        | match goal with
          | Hn : no_crash (Panic ?m) |- _ => by destruct (proj1 Hn m)
          | Hn : no_crash Diverge |- _ => by destruct (proj2 Hn)
          end ].

Lemma name_values_no_crash words : no_crash (name_values words).
Proof.
  induction words as [|w ws IH]; simpl; [by split|].
  destruct (cut_equals w) as [[]|]; [|by split]. revert IH. destruct (name_values ws); no_crash_done.
Qed.

Lemma parseNameVal_no_crash rest key d : no_crash (parseNameVal rest key d).
Proof.
  unfold parseNameVal. destruct (parseWords rest d) as [|w ws]; [by split|]. case_decide.
  - destruct (split_two [] rest) as [? []]; by split.
  - pose proof (name_values_no_crash (w :: ws)) as Hn. revert Hn.
    destruct (name_values (w :: ws)); no_crash_done.
Qed.

Lemma parseMaybeJSON_no_crash rest : no_crash (parseMaybeJSON rest).
Proof.
  unfold parseMaybeJSON, json_or. case_decide; [by split|].
  destruct (parseJSON rest) as [|[]| |]; by split.
Qed.

Lemma parseStrings_no_crash rest : no_crash (parseStringsWhitespaceDelimited rest).
Proof. unfold parseStringsWhitespaceDelimited. case_decide; by split. Qed.

(** The directive after a line: only its first two fields may have changed. *)
Lemma fullDispatch_spec sub d cmd args :
  (args ≠ [] → no_crash (sub args).2 ∧ (sub args).1 = d) →
  no_crash (fullDispatch sub d cmd args).2 ∧ (fullDispatch sub d cmd args).1 = d.
Proof.
  intros Hsub. unfold fullDispatch.
  repeat (case_decide; [try (split; [|done]; cbn [snd])|]).
  - unfold parseMaybeJSONToList, json_or.
    destruct (parseJSON args) as [|[]| |]; first [by split|apply parseStrings_no_crash].
  - apply parseMaybeJSON_no_crash.
  - unfold parseString. case_decide; by split.
  - apply parseNameVal_no_crash.
  - apply parseNameVal_no_crash.
  - by split.
  - apply parseStrings_no_crash.
  - unfold parseHealthConfig. case_decide; [by split|].
    match goal with |- context [parseMaybeJSON ?c] =>
      pose proof (parseMaybeJSON_no_crash c) as Hn; revert Hn;
      destruct (parseMaybeJSON c) as [[]| | |]; no_crash_done end.
  - unfold parseSubCommand. case_decide; [done|].
    destruct Hsub as [[Hs1 Hs2] Hs3]; [done|]. destruct (sub args) as [d' [r|e|m|]]; cbn in *;
      [by split|by split|by destruct (Hs1 m)|done].
  - by split.
Qed.

Lemma SetEscapeToken_no_crash c d : no_crash (SetEscapeToken c d).2.
Proof. unfold SetEscapeToken. repeat case_match; by split. Qed.

Lemma parse_line_spec fuel d line :
  (length line < fuel)%nat →
  no_crash (parse_line fuel d line).2 ∧
  (d_LookingForDirectives d = false → (parse_line fuel d line).1 = d).
Proof.
  revert d line. induction fuel as [|fuel IH]; intros d line Hf; [lia|]. cbn [parse_line].
  destruct (if d_LookingForDirectives d then _ else _) as [c|] eqn:Hc.
  { destruct (d_LookingForDirectives d) eqn:Hl; [|done]. split; [|done].
    destruct (d_EscapeSeen d); [by split|].
    pose proof (SetEscapeToken_no_crash c d) as [Hn1 Hn2].
    destruct (SetEscapeToken c d) as [d' [[]|e|m|]]; cbn in *; [by split..|by destruct (Hn1 m)|done]. }
  assert (d_LookingForDirectives d = false → no_longer_looking d = d) as Hd
    by (intros Hl; destruct d; simpl in *; by subst).
  assert ((length (stripComments line) ≤ length line)%nat) as Hs.
  { unfold stripComments. destruct line as [|b l]; [done|]. destruct (_ && _); simpl; lia. }
  case_decide; [split; [by split|done]|].
  destruct (strip_continuation _ _); [split; [by split|done]|].
  destruct (splitCommand (stripComments line)) as [[cmd flags] args] eqn:Hsplit.
  destruct (fullDispatch_spec (parse_line fuel (no_longer_looking d)) (no_longer_looking d) cmd args)
    as [[H1 H2] H3].
  { intros Hargs. pose proof (splitCommand_length _ _ _ _ Hsplit Hargs).
    destruct (IH (no_longer_looking d) args) as [Hn Hk]; [lia|]. split; [done|]. by apply Hk. }
  destruct (fullDispatch _ _ _ _) as [d' [r|e|m|]]; cbn [and_then fst snd] in *; subst d';
    [by split..|by destruct (H1 m)|done].
Qed.

Lemma ParseLine_no_crash line d : no_crash (ParseLine line d).2.
Proof. apply parse_line_spec. lia. Qed.

Lemma ParseLine_directive line d :
  d_LookingForDirectives d = false → (ParseLine line d).1 = d.
Proof. apply parse_line_spec. lia. Qed.

(** ** The numbers of lines *)

(** [rest] is what is left of [lines], with [n'] - [n] lines read. *)
Definition lines_read (n n' : Z) (lines rest : list bytes) : Prop :=
  ∃ used, lines = used ++ rest ∧ n' = n + Z.of_nat (length used).

Lemma lines_read_cons n n' l lines rest :
  lines_read (n + 1) n' lines rest → lines_read n n' (l :: lines) rest.
Proof. intros (used & -> & ->). exists (l :: used). split; [done|]. simpl. lia. Qed.

Lemma lines_read_refl n lines : lines_read n n lines lines.
Proof. exists []. split; [done|]. simpl. lia. Qed.

Lemma continue_lines_spec d line n lines :
  safe (continue_lines d line n lines)
    (λ _ r, let '(_, _, n', rest) := r in lines_read n n' lines rest) (λ _ _, True).
Proof.
  revert d line n. induction lines as [|l lines IH]; intros d line n; cbn [continue_lines].
  { apply lines_read_refl. }
  case_decide.
  { eapply safe_mono; [apply IH| |done]. intros _ [[[child line'] n'] rest]. apply lines_read_cons. }
  apply safe_bind. pose proof (ParseLine_no_crash (line ++ l) d) as Hn.
  destruct (ParseLine (line ++ l) d) as [d' [[line' child]|e|m|]]; cbn [safe snd] in *;
    [|done|by destruct (proj1 Hn m)|by destruct (proj2 Hn)].
  destruct child; [apply lines_read_cons, lines_read_refl|].
  eapply safe_mono; [apply IH| |done]. intros _ [[[child line''] n'] rest]. apply lines_read_cons.
Qed.

Lemma parse_statement_spec d n line lines :
  safe (parse_statement d n line lines)
    (λ _ r, let '(_, n', rest) := r in lines_read n n' lines rest) (λ _ _, True).
Proof.
  unfold parse_statement. apply safe_bind. pose proof (ParseLine_no_crash line d) as Hn.
  destruct (ParseLine line d) as [d1 [[line1 child]|e|m|]]; cbn [safe snd] in *;
    [|done|by destruct (proj1 Hn m)|by destruct (proj2 Hn)].
  destruct line1 as [|b line1]; [destruct child; apply lines_read_refl|].
  destruct child; [apply lines_read_refl|]. apply safe_bind.
  eapply safe_mono; [apply continue_lines_spec| |done].
  intros d2 [[[child line2] n2] rest] Hread. destruct child, line2 as [|b2 line2]; try done.
  apply safe_bind. pose proof (ParseLine_no_crash (b2 :: line2) d2) as Hn2.
  destruct (ParseLine (b2 :: line2) d2) as [d3 [[line3 child]|e|m|]]; cbn [safe snd] in *;
    [done|done|by destruct (proj1 Hn2 m)|by destruct (proj2 Hn2)].
Qed.

(** Statements in the order of their lines, after line [lo] and up to [hi]. *)
Fixpoint in_order (lo hi : Z) (cs : list (option Node)) : Prop :=
  match cs with
  | [] => lo ≤ hi
  | Some c :: cs => lo < n_StartLine c ≤ n_EndLine c ∧ in_order (n_EndLine c) hi cs
  | None :: _ => False
  end.

Lemma in_order_snoc lo hi hi' cs c :
  in_order lo hi cs → hi < n_StartLine c → n_StartLine c ≤ n_EndLine c → n_EndLine c ≤ hi' →
  in_order lo hi' (cs ++ [Some c]).
Proof.
  revert lo. induction cs as [|[x|] cs IH]; intros lo Hcs ???; simpl in *; [lia| |done].
  destruct Hcs as [Hc Hcs]. split; [done|]. by apply IH.
Qed.

Lemma in_order_weaken lo hi hi' cs : in_order lo hi cs → hi ≤ hi' → in_order lo hi' cs.
Proof.
  revert lo. induction cs as [|[x|] cs IH]; intros lo Hcs Hh; simpl in *; [lia| |done].
  destruct Hcs as [Hc Hcs]. split; [done|]. by apply IH.
Qed.

(** What the root says of its children. *)
Definition root_ok (hi : Z) (root : Node) : Prop :=
  in_order 0 hi (n_Children root) ∧
  match last (n_Children root) with
  | Some (Some c) => n_EndLine root = n_EndLine c
  | _ => n_StartLine root = -1
  end.

Lemma parse_loop_spec fuel d root n lines :
  (length lines ≤ fuel)%nat → root_ok n root →
  safe (parse_loop fuel d root n lines)
    (λ _ root', root_ok (n + Z.of_nat (length lines)) root') (λ _ _, True).
Proof.
  revert d root n lines. induction fuel as [|fuel IH]; intros d root n lines Hf Hroot.
  { destruct lines; simpl in *; [|lia]. by rewrite Z.add_0_r. }
  destruct lines as [|l lines]; cbn [parse_loop]; [simpl; by rewrite Z.add_0_r|].
  apply safe_bind. eapply safe_mono; [apply parse_statement_spec| |done].
  intros d' [[child n'] rest] (used & -> & Hn').
  replace (n + Z.of_nat (length (l :: used ++ rest))) with (n' + Z.of_nat (length rest))
    by (subst n'; simpl; rewrite length_app; lia).
  apply IH; [simpl in Hf; rewrite length_app in Hf; lia|]. destruct Hroot as [Ho Hl].
  destruct child as [c|].
  - split; simpl.
    + eapply in_order_snoc; [done|simpl; lia..].
    + by rewrite last_snoc.
  - split; [|done]. eapply in_order_weaken; [done|]. lia.
Qed.

(** C35: Parsing ends on every text, with a tree or with an error, and never with a
    panic.  The statements of the tree are not nil and in the order of the text: each
    starts after the end of the one before it, and none ends after the last line
    that was read; the root ends where the last statement does. *)
Theorem Parse_numbers_lines text d :
  safe (Parse text d)
    (λ _ root, in_order 0 (Z.of_nat (length (scan_lines [] text))) (n_Children root) ∧
       match last (n_Children root) with
       | Some (Some c) => n_EndLine root = n_EndLine c
       | _ => n_StartLine root = -1
       end)
    (λ _ _, True).
Proof. unfold Parse. by apply (parse_loop_spec _ d new_root 0). Qed.
End parser_inv.
