(* ===== verification/DockerfileLines.v ===== *)
(** * Correctness of the parser of Dockerfiles: continued lines

    A statement that is spread over lines with the escape token, with comments and
    empty lines in between, is parsed as if it stood on one line. *)

From S2P Require Import Prelude ShellWord GoUTF8 Dockerfile DockerfileInv.
Open Scope Z_scope.

Section lines.
Context {cases : CaseTables} {json : JSONArrays}.

(** The first character of a statement: ASCII, no space and no comment. *)
Definition statement_start (c : Z) : bool :=
  between 0 127 c && negb (IsSpace c) && negb (bool_decide (c = hash)).

Lemma statement_start_spec c :
  statement_start c = true → 0 ≤ c < 128 ∧ IsSpace c = false ∧ c ≠ hash.
Proof.
  unfold statement_start, between. rewrite !andb_true_iff, !negb_true_iff.
  rewrite bool_decide_eq_true, bool_decide_eq_false. intros [[? ?] ?]. split_and!; (done || lia).
Qed.

Lemma chunks_ascii c s : c < 128 → chunks (c :: s) = (c, [c]) :: chunks s.
Proof. intros Hc. rewrite chunks_cons. unfold decode. by rewrite decide_True by done. Qed.

Lemma TrimLeftSpace_start c s : statement_start c = true → TrimLeftSpace (c :: s) = c :: s.
Proof.
  intros (Hc & Hs & _)%statement_start_spec. unfold TrimLeftSpace.
  rewrite <- (chunks_raw (c :: s)) at 2. rewrite chunks_ascii by lia. simpl. by rewrite Hs.
Qed.

Lemma escape_char_start c s : statement_start c = true → escape_char (ToLower (c :: s)) = None.
Proof.
  intros (Hc & _ & Hh)%statement_start_spec. unfold ToLower. rewrite chunks_ascii by lia.
  cbn [lower_chunks orb]. cbv zeta.
  assert (∀ x s', x ≠ hash → escape_char (x :: s') = None) as Hx.
  { intros x s' Hne. unfold escape_char. cbn [strip_bytes]. by rewrite decide_False by congruence. }
  assert (rune_lower c = if between 65 90 c then c + 32 else c) as Hl
    by (unfold rune_lower; by rewrite decide_True by lia).
  destruct (between 65 90 c) eqn:Hb; rewrite Hl.
  - unfold between in Hb. apply bool_decide_eq_true in Hb.
    rewrite bool_decide_eq_false_2 by lia. cbn [negb].
    assert (encode (c + 32) = [c + 32]) as ->.
    { unfold encode, valid_rune, between. rewrite (bool_decide_eq_true_2 (0 ≤ _ ≤ _)) by lia.
      cbn [orb negb]. by rewrite decide_True by lia. }
    apply Hx. unfold hash. lia.
  - rewrite bool_decide_eq_true_2 by done. by apply Hx.
Qed.

Lemma stripComments_start c s : statement_start c = true → stripComments (c :: s) = c :: s.
Proof.
  intros (_ & _ & Hh)%statement_start_spec. unfold stripComments.
  by rewrite bool_decide_eq_false_2.
Qed.

(** At a statement, directives are no longer looked for. *)
Lemma ParseLine_start c s d :
  statement_start c = true → ParseLine (c :: s) d = ParseLine (c :: s) (no_longer_looking d).
Proof.
  intros Hc. unfold ParseLine. cbn [parse_line]. rewrite escape_char_start by done.
  assert ((if d_LookingForDirectives d then @None bytes else None) = None) as ->
    by (by destruct (d_LookingForDirectives d)). done.
Qed.

Lemma drop_while_all f s : Forall (λ b, f b = true) s → ∀ t, drop_while f (s ++ t) = drop_while f t.
Proof. induction 1 as [|b s Hb Hs IH]; intros t; [done|]. simpl. by rewrite Hb. Qed.

Lemma strip_continuation_app token a blanks :
  is_blank token = false → Forall (λ b, is_blank b = true) blanks →
  strip_continuation token (a ++ token :: blanks) = Some a.
Proof.
  intros Ht Hb. unfold strip_continuation. rewrite reverse_app, reverse_cons, <- app_assoc.
  rewrite drop_while_all by (by apply Forall_reverse). simpl. rewrite Ht.
  by rewrite decide_True, reverse_involutive.
Qed.

Definition is_escape_token (c : rune) : Prop := c = backslash ∨ c = backquote.

Lemma escape_token_blank c : is_escape_token c → is_blank c = false.
Proof. by intros [->| ->]. Qed.

Lemma ParseLine_continued c a blanks d :
  statement_start c = true → is_escape_token (d_EscapeToken d) →
  Forall (λ b, is_blank b = true) blanks →
  ParseLine ((c :: a) ++ d_EscapeToken d :: blanks) d = (no_longer_looking d, Ok (c :: a, None)).
Proof.
  intros Hc Ht Hb. rewrite <- app_comm_cons, ParseLine_start by done.
  unfold ParseLine. cbn [parse_line no_longer_looking d_LookingForDirectives].
  rewrite stripComments_start by done. rewrite decide_False by done.
  cbn [d_EscapeToken]. rewrite app_comm_cons.
  by rewrite (strip_continuation_app _ _ _ (escape_token_blank _ Ht) Hb).
Qed.

(** A line that is skipped inside of a statement. *)
Definition ignored (l : bytes) : Prop := stripComments (TrimSpace l) = [].

Lemma continue_lines_skip d line n skipped lines :
  Forall ignored skipped →
  continue_lines d line n (skipped ++ lines) =
    continue_lines d line (n + Z.of_nat (length skipped)) lines.
Proof.
  intros Hs. revert n. induction Hs as [|l skipped Hl Hs IH]; intros n; simpl.
  - by rewrite Z.add_0_r.
  - rewrite decide_True by done. rewrite IH. f_equal. lia.
Qed.

(** ** Results without the numbers of lines *)

Definition erase_statement (r : Directive * outcome parse_error (option Node * Z * list bytes)) :
    Directive * outcome parse_error (option Node * list bytes) :=
  let! (d, x) := r in let '(child, _, rest) := x in (d, Ok (child, rest)).

Definition erase_lines
    (r : Directive * outcome parse_error (option Node * bytes * Z * list bytes)) :
    Directive * outcome parse_error (option Node * bytes * list bytes) :=
  let! (d, x) := r in let '(child, line, _, rest) := x in (d, Ok (child, line, rest)).

Lemma continue_lines_erase d line n m lines :
  erase_lines (continue_lines d line n lines) = erase_lines (continue_lines d line m lines).
Proof.
  revert d line n m. induction lines as [|l lines IH]; intros d line n m; [done|].
  cbn [continue_lines]. case_decide; [apply IH|].
  destruct (ParseLine (line ++ l) d) as [d' [[line' [child|]]|e|s|]]; try done. apply IH.
Qed.

(** What [parse_statement] does with the end of the continued lines. *)
Definition after_lines (r : Directive * outcome parse_error (option Node * bytes * list bytes)) :
    Directive * outcome parse_error (option Node * list bytes) :=
  let! (d, x) := r in
  let '(child, line, rest) := x in
  match child, line with
  | None, _ :: _ => let! (d, r) := ParseLine line d in (d, Ok (r.2, rest))
  | _, _ => (d, Ok (child, rest))
  end.

Lemma parse_statement_erase d n line lines :
  erase_statement (parse_statement d n line lines) =
    let! (d, r) := ParseLine line d in
    match r with
    | ((_ :: _) as line, None) => after_lines (erase_lines (continue_lines d line 0 lines))
    | (_, child) => (d, Ok (child, lines))
    end.
Proof.
  unfold parse_statement, erase_statement.
  destruct (ParseLine line d) as [d1 [[[|b l] [child|]]|e|s|]]; try done.
  cbn [and_then]. rewrite (continue_lines_erase d1 (b :: l) 0 n).
  destruct (continue_lines d1 (b :: l) n lines) as [d2 [[[[[child|] [|b2 l2]] n2] rest]|e|s|]]; try done.
  cbn [and_then erase_lines after_lines].
  by destruct (ParseLine (b2 :: l2) d2) as [d3 [[l3 c3]|e|s|]].
Qed.

(** A line of blanks is skipped. *)
Lemma blanks_ignored l : Forall (λ b, is_blank b = true) l → ignored l.
Proof.
  intros Hl. unfold ignored, TrimSpace. assert (trim_chunks (chunks l) = []) as ->; [|done].
  induction Hl as [|b l Hb Hl IH]; [done|]. unfold is_blank in Hb.
  apply bool_decide_eq_true in Hb.
  assert (b = 9 ∨ b = 32) as Hb' by (rewrite !elem_of_cons, elem_of_nil in Hb; naive_solver).
  rewrite chunks_ascii by lia. destruct Hb' as [->| ->]; simpl; done.
Qed.

Lemma strip_continuation_spec token line a :
  strip_continuation token line = Some a →
  ∃ blanks, line = a ++ token :: blanks ∧ Forall (λ b, is_blank b = true) blanks.
Proof.
  assert (∀ s, ∃ p, s = p ++ drop_while is_blank s ∧ Forall (λ b, is_blank b = true) p) as Hd.
  { intros s. induction s as [|b s (p & Hs & Hp)]; [by exists []|]. simpl.
    destruct (is_blank b) eqn:Hb; [|by exists []]. exists (b :: p).
    split; [simpl; by f_equal|by constructor]. }
  unfold strip_continuation. destruct (Hd (reverse line)) as (p & Hs & Hp).
  destruct (drop_while is_blank (reverse line)) as [|b rest]; [done|].
  case_decide; [|done]. intros [= <-]. subst b. exists (reverse p).
  split; [|by apply Forall_reverse]. apply (f_equal reverse) in Hs.
  rewrite reverse_involutive, reverse_app, reverse_cons, <- app_assoc in Hs. done.
Qed.

(** A statement continues with a line that is not empty, or is complete. *)
Lemma ParseLine_progress c a b d d' :
  statement_start c = true → ¬ ignored b →
  ParseLine ((c :: a) ++ b) d ≠ (d', Ok ([], None)).
Proof.
  intros Hc Hb. rewrite <- app_comm_cons, ParseLine_start by done.
  unfold ParseLine. cbn [parse_line no_longer_looking d_LookingForDirectives].
  rewrite stripComments_start by done. rewrite decide_False by done. cbn [d_EscapeToken].
  destruct (strip_continuation _ _) as [l|] eqn:Hs.
  - intros [= _ ->]. apply strip_continuation_spec in Hs as (blanks & Heq & Hbl).
    simpl in Heq. injection Heq as _ Heq. apply Hb, blanks_ignored.
    rewrite <- Heq in Hbl. by apply Forall_app in Hbl as [_ ?].
  - destruct (splitCommand _) as [[cmd flags] args].
    by destruct (fullDispatch _ _ _ _) as [d2 [r|e|m|]].
Qed.

Lemma parse_statement_continued d n m c a blanks skipped b lines :
  statement_start c = true → is_escape_token (d_EscapeToken d) →
  Forall (λ b, is_blank b = true) blanks → Forall ignored skipped → ¬ ignored b →
  erase_statement (parse_statement d n ((c :: a) ++ d_EscapeToken d :: blanks)
                     (skipped ++ b :: lines)) =
  erase_statement (parse_statement d m ((c :: a) ++ b) lines).
Proof.
  intros Hc Ht Hbl Hsk Hb. rewrite !parse_statement_erase.
  rewrite ParseLine_continued by done. cbn [and_then].
  rewrite continue_lines_skip by done. cbn [continue_lines]. rewrite decide_False by done.
  rewrite <- !app_comm_cons. rewrite (ParseLine_start c (a ++ b) d) by done.
  pose proof (ParseLine_progress c a b (no_longer_looking d)) as Hp.
  rewrite <- app_comm_cons in Hp.
  destruct (ParseLine (c :: a ++ b) (no_longer_looking d)) as [d1 [[[|x l] [child|]]|e|s|]];
    try done; cbn [and_then fst snd].
  - by destruct (Hp d1 Hc Hb).
  - by rewrite (continue_lines_erase d1 (x :: l) _ 0).
Qed.

(** ** Whole files *)

Definition erase_numbers (c : Node) : Node :=
  mkNode (n_Value c) (n_Next c) (n_Children c) (n_Attributes c) (n_Original c) (n_Flags c) 0 0.
Definition erase_root (root : Node) : Node :=
  erase_numbers (mkNode (n_Value root) (n_Next root) (map (option_map erase_numbers) (n_Children root))
    (n_Attributes root) (n_Original root) (n_Flags root) 0 0).
Definition erase_result (r : Directive * outcome parse_error Node) :
    Directive * outcome parse_error Node :=
  let! (d, root) := r in (d, Ok (erase_root root)).

Lemma erase_add_child root root' c s s' n n' :
  erase_root root = erase_root root' →
  erase_root (add_statement root c s n) = erase_root (add_statement root' c s' n').
Proof.
  unfold erase_root, erase_numbers, add_statement. simpl. intros [= Hv Hn Hc Ha Ho Hf].
  rewrite !map_app, Hv, Hn, Hc, Ha, Ho, Hf. done.
Qed.

(** Nothing but the numbers depends on where a text stands in the file. *)
Lemma parse_loop_erase fuel fuel' d root root' n n' lines :
  (length lines ≤ fuel)%nat → (length lines ≤ fuel')%nat → 0 < n → 0 < n' →
  erase_root root = erase_root root' →
  erase_result (parse_loop fuel d root n lines) = erase_result (parse_loop fuel' d root' n' lines).
Proof.
  revert fuel' d root root' n n' lines.
  induction fuel as [|fuel IH]; intros fuel' d root root' n n' lines Hf Hf' Hn Hn' Hroot.
  { destruct lines; simpl in *; [|lia]. destruct fuel'; simpl; by rewrite Hroot. }
  destruct lines as [|l lines]; [destruct fuel'; simpl; by rewrite Hroot|].
  destruct fuel' as [|fuel']; [simpl in Hf'; lia|]. cbn [parse_loop].
  rewrite !decide_False by lia. revert Hroot.
  pose proof (parse_statement_erase d (n + 1) (TrimLeftSpace l) lines) as He.
  rewrite <- (parse_statement_erase d (n' + 1)) in He.
  pose proof (parse_statement_spec d (n + 1) (TrimLeftSpace l) lines) as Hs.
  pose proof (parse_statement_spec d (n' + 1) (TrimLeftSpace l) lines) as Hs'.
  destruct (parse_statement d (n + 1) _ _) as [d1 [[[c m] rest]|e|s|]],
    (parse_statement d (n' + 1) _ _) as [d1' [[[c' m'] rest']|e'|s'|]];
    simpl in He; simplify_eq; try done.
  cbn [and_then]. cbn [safe] in Hs, Hs'.
  destruct Hs as (used & Hu & ->), Hs' as (used' & Hu' & ->).
  apply (f_equal length) in Hu, Hu'. rewrite length_app in Hu, Hu'. simpl in Hf, Hf'.
  intros Hroot. apply IH; [lia..|].
  destruct c' as [c|]; [by apply erase_add_child|done].
Qed.

(** C34: Continued lines.  Wherever a statement begins, writing its line [a ++ b] as
    [a] followed by the escape token and blanks, then any empty lines and comments,
    then [b], gives the same statements, the same error and the same directives, up
    to the numbers of lines; [a] starts the statement and [b] is not itself an empty
    line or a comment. *)
Theorem continued_lines_join d root n c a blanks skipped b lines :
  0 ≤ n → statement_start c = true → is_escape_token (d_EscapeToken d) →
  Forall (λ b, is_blank b = true) blanks → Forall ignored skipped → ¬ ignored b →
  let split := ((c :: a) ++ d_EscapeToken d :: blanks) :: skipped ++ b :: lines in
  let joined := ((c :: a) ++ b) :: lines in
  erase_result (parse_loop (length split) d root n split) =
  erase_result (parse_loop (length joined) d root n joined).
Proof.
  intros Hn Hc Ht Hbl Hsk Hb split joined. subst split joined.
  cbn [length parse_loop].
  assert (∀ s, (if decide (n = 0) then default ((c :: a) ++ s) (strip_bytes utf8bom ((c :: a) ++ s))
                else (c :: a) ++ s) = (c :: a) ++ s) as Hbom.
  { intros s. case_decide; [|done]. cbn [app strip_bytes utf8bom].
    rewrite decide_False; [done|]. intros <-. by vm_compute in Hc. }
  rewrite !Hbom. rewrite <- !app_comm_cons, !TrimLeftSpace_start by done. rewrite !app_comm_cons.
  pose proof (parse_statement_continued d (n + 1) (n + 1) c a blanks skipped b lines
    Hc Ht Hbl Hsk Hb) as He.
  pose proof (parse_statement_spec d (n + 1) ((c :: a) ++ d_EscapeToken d :: blanks)
    (skipped ++ b :: lines)) as Hs.
  pose proof (parse_statement_spec d (n + 1) ((c :: a) ++ b) lines) as Hs'.
  destruct (parse_statement d (n + 1) _ (skipped ++ _)) as [d1 [[[x m] rest]|e|s|]],
    (parse_statement d (n + 1) _ lines) as [d1' [[[x' m'] rest']|e'|s'|]];
    simpl in He; simplify_eq; try done.
  cbn [and_then]. cbn [safe] in Hs, Hs'.
  destruct Hs as (used & Hu & ->), Hs' as (used' & Hu' & ->).
  apply (f_equal length) in Hu, Hu'. rewrite ?length_app in *.
  apply parse_loop_erase; [lia..|]. destruct x' as [x|]; [by apply erase_add_child|done].
Qed.
End lines.
