(* ===== verification/DockerfileTrip.v ===== *)
(** * Environment variables of Dockerfiles: a round trip

    A statement ENV whose values are written in quotes, parsed and then processed
    word by word, gives the names and the values back, whatever they contain.  Then
    some behaviours of the parser to note. *)

From S2P Require Import Prelude ShellWord ShellWordInv GoUTF8 Dockerfile DockerfileInv.
From S2P Require Import DockerfileLines.
Open Scope Z_scope.

(** ** Quoting *)

(** A value in single quotes; a single quote of the value in double quotes. *)
Fixpoint quote_pieces (seg v : runes) : list piece :=
  match v with
  | [] => [Single seg]
  | c :: v =>
      if decide (c = single_quote)
      then Single seg :: Double [Lit single_quote] :: quote_pieces [] v
      else quote_pieces (seg ++ [c]) v
  end.
Definition quoted (v : runes) : runes := show_word (quote_pieces [] v).

(** A character of a name: no space, and none that quotes, escapes or assigns. *)
Definition name_rune (c : rune) : bool :=
  valid_rune c && negb (IsSpace c) &&
  bool_decide (c ∉ [single_quote; double_quote; dollar; backslash; backquote; equals]).
Definition env_name (name : runes) : bool :=
  match name with
  | [] => false
  | c :: _ => bool_decide (c ≠ minus) && bool_decide (c ≠ BOM) && forallb name_rune name
  end.

Definition assignment (nv : runes * runes) : runes := nv.1 ++ equals :: quoted nv.2.
Fixpoint assignments (nvs : list (runes * runes)) : runes :=
  match nvs with
  | [] => []
  | [nv] => assignment nv
  | nv :: nvs => assignment nv ++ 32 :: assignments nvs
  end.
Definition env_line (nvs : list (runes * runes)) : runes := B "ENV " ++ assignments nvs.

Definition env_value (v : runes) : bool :=
  forallb valid_rune v && bool_decide (newline ∉ v).

(** ** Quoting and words *)

(** The pieces that quoting makes. *)
Inductive quote_piece : piece → Prop :=
| QSingle s : single_quote ∉ s → quote_piece (Single s)
| QDouble : quote_piece (Double [Lit single_quote]).

Lemma quote_pieces_ok seg v :
  single_quote ∉ seg → Forall quote_piece (quote_pieces seg v).
Proof.
  revert seg. induction v as [|c v IH]; intros seg Hs; cbn [quote_pieces].
  { by repeat constructor. }
  case_decide.
  - constructor; [by constructor|]. constructor; [constructor|]. apply IH. apply not_elem_of_nil.
  - apply IH. rewrite not_elem_of_app, not_elem_of_cons. split_and!; [done|done|apply not_elem_of_nil].
Qed.

Lemma quote_pieces_value envs seg v : word_value envs (quote_pieces seg v) = seg ++ v.
Proof.
  revert seg. induction v as [|c v IH]; intros seg; cbn [quote_pieces].
  { unfold word_value. simpl. by rewrite !app_nil_r. }
  case_decide as Hc.
  - unfold word_value in *. cbn [flat_map piece_value app]. rewrite IH. simpl. by subst c.
  - rewrite IH. by rewrite <- app_assoc.
Qed.

Section env_trip.
Context {uni : UnicodeTables} {cases : CaseTables} {json : JSONArrays}.

Lemma quote_valid ps next : Forall quote_piece ps → valid_list Top ps next = true.
Proof.
  intros Hps. induction Hps as [|p ps Hp Hps IH]; [done|]. rewrite valid_list_cons, IH, andb_true_r.
  destruct Hp; [|by vm_compute]. cbn [valid_piece]. by rewrite bool_decide_eq_true_2.
Qed.

Lemma quoted_head v : ∃ s, quoted v = single_quote :: s.
Proof.
  unfold quoted. assert (∀ seg, ∃ s, show_word (quote_pieces seg v) = single_quote :: s) as Hs;
    [|by apply Hs].
  induction v as [|c v IH]; intros seg; cbn [quote_pieces]; [by eexists|].
  case_decide; [by eexists|apply IH].
Qed.

(** The value comes back. *)
Lemma ProcessWord_quoted v env : ProcessWord (quoted v) env = Ok v.
Proof.
  destruct (ProcessWord_grammar (quote_pieces [] v) env) as [Hw _].
  - unfold valid_word. rewrite quote_valid by (apply quote_pieces_ok, not_elem_of_nil).
    fold (quoted v). by destruct (quoted_head v) as [s ->].
  - unfold quoted. by rewrite Hw, quote_pieces_value.
Qed.

Lemma name_rune_spec c :
  name_rune c = true →
  valid_rune c = true ∧ IsSpace c = false ∧
  c ∉ [single_quote; double_quote; dollar; backslash; backquote; equals].
Proof.
  unfold name_rune. rewrite !andb_true_iff, negb_true_iff, bool_decide_eq_true. tauto.
Qed.

Lemma show_lits name : show_word (Lit <$> name) = name.
Proof. induction name as [|c name IH]; [done|]. simpl. by f_equal. Qed.

(** A name is taken as it is. *)
Lemma ProcessWord_name name env : env_name name = true → ProcessWord name env = Ok name.
Proof.
  intros Hn. destruct (ProcessWord_grammar (Lit <$> name) env) as [Hw _].
  - unfold valid_word. rewrite show_lits. destruct name as [|c name]; [done|].
    unfold env_name in Hn. rewrite !andb_true_iff, !bool_decide_eq_true in Hn.
    destruct Hn as [[_ Hb] Hall]. apply andb_true_iff. split; [|by apply bool_decide_eq_true; simpl; congruence].
    revert Hall. generalize (c :: name). intros l Hall.
    induction l as [|x l IH]; [done|]. cbn [forallb] in Hall. apply andb_true_iff in Hall as [Hx Hl].
    cbn [fmap list_fmap]. rewrite valid_list_cons, IH, andb_true_r by done.
    apply name_rune_spec in Hx as (_ & _ & Hx). cbn [valid_piece]. apply bool_decide_eq_true.
    revert Hx. rewrite !not_elem_of_cons. tauto.
  - rewrite show_lits in Hw. rewrite Hw. f_equal. clear. unfold word_value.
    induction name as [|c name IH]; [done|]. simpl. by f_equal.
Qed.

(** ** The words of a statement *)

Lemma encode_all_app a b : encode_all (a ++ b) = encode_all a ++ encode_all b.
Proof. unfold encode_all. by rewrite bind_app. Qed.

Lemma encoded_app a b : encoded (a ++ b) = encoded a ++ encoded b.
Proof. apply fmap_app. Qed.

Section words.
Context (token : rune) (Htoken : is_escape_token token).

(** A rune that words keep outside of quotes. *)
Definition plain (c : rune) : Prop :=
  IsSpace c = false ∧ c ≠ single_quote ∧ c ≠ double_quote ∧ c ≠ token.

Lemma loop_plain ws w q b s rest :
  Forall plain s →
  words_loop token (mkWordState ws inWord w q b) (encoded s ++ rest) =
    words_loop token (mkWordState ws inWord (w ++ encode_all s) q b) rest.
Proof.
  intros Hs. revert w. induction Hs as [|c s (Hsp & H1 & H2 & H3) Hs IH]; intros w.
  { by rewrite app_nil_r. }
  rewrite encode_all_cons, app_assoc, <- IH. cbn [encoded fmap list_fmap app words_loop w_phase].
  rewrite Hsp. rewrite (decide_False (P := c = single_quote ∨ c = double_quote)) by tauto.
  by rewrite decide_False by done.
Qed.

(** Text between quotes, up to the closing one. *)
Lemma loop_in_quotes ws w q s rest :
  (q = single_quote ∨ q = double_quote ∧ token ∉ s) → q ∉ s →
  words_loop token (mkWordState ws inQuote w q true) (encoded (s ++ [q]) ++ rest) =
    words_loop token (mkWordState ws inWord (w ++ encode_all (s ++ [q])) q true) rest.
Proof.
  intros Hq Hs. assert (q ≠ token) as Hqt.
  { destruct Htoken as [->| ->]; destruct Hq as [->|[-> _]]; done. }
  revert w. induction s as [|c s IH]; intros w.
  - cbn [app encoded fmap list_fmap words_loop w_phase w_quote].
    rewrite (decide_False (P := q = token ∧ _)) by tauto. rewrite decide_True by done.
    unfold set_word; cbn [w_words w_word w_quote w_blankOK]. unfold encode_all; simpl.
    by rewrite app_nil_r.
  - rewrite not_elem_of_cons in Hs. destruct Hs as [Hc Hs].
    cbn [app encoded fmap list_fmap words_loop w_phase w_quote].
    rewrite (decide_False (P := c = token ∧ _)).
    2: { intros [-> Hns]. destruct Hq as [->|[-> Ht]]; [done|]. apply Ht. by left. }
    rewrite decide_False by congruence. unfold set_word; cbn [w_words w_word w_quote w_blankOK].
    fold (encoded (s ++ [q])). rewrite IH.
    + by rewrite encode_all_cons, <- app_assoc.
    + destruct Hq as [?|[? Ht]]; [by left|right]. split; [done|]. by apply not_elem_of_cons in Ht as [_ ?].
    + done.
Qed.

Lemma loop_quotes ws w q0 b q s rest :
  (q = single_quote ∨ q = double_quote ∧ token ∉ s) → q ∉ s →
  words_loop token (mkWordState ws inWord w q0 b) (encoded (q :: s ++ [q]) ++ rest) =
    words_loop token (mkWordState ws inWord (w ++ encode_all (q :: s ++ [q])) q true) rest.
Proof.
  intros Hq Hs. rewrite encode_all_cons, app_assoc, <- loop_in_quotes by done.
  cbn [encoded fmap list_fmap app words_loop w_phase].
  assert (IsSpace q = false ∧ q ≠ token) as [Hsp Hqt].
  { destruct Htoken as [->| ->]; destruct Hq as [->|[-> _]]; done. }
  rewrite Hsp. rewrite (decide_True (P := q = single_quote ∨ q = double_quote)) by tauto.
  by rewrite decide_False by done.
Qed.

Lemma loop_pieces ws w q b ps rest :
  Forall quote_piece ps →
  ∃ q' b', words_loop token (mkWordState ws inWord w q b) (encoded (show_word ps) ++ rest) =
    words_loop token (mkWordState ws inWord (w ++ encode_all (show_word ps)) q' b') rest.
Proof.
  intros Hps. revert w q b. induction Hps as [|p ps Hp Hps IH]; intros w q b.
  { exists q, b. by rewrite app_nil_r. }
  rewrite show_word_cons, encode_all_app, encoded_app, <- app_assoc, (app_assoc w).
  destruct Hp as [s Hs|]; cbn [show_piece flat_map app].
  - rewrite loop_quotes by (done || by left). apply IH.
  - change [double_quote; single_quote; double_quote] with (double_quote :: [single_quote] ++ [double_quote]).
    rewrite loop_quotes; [apply IH| |].
    + right. split; [done|]. rewrite elem_of_cons, elem_of_nil.
      destruct Htoken as [->| ->]; by intros [].
    + by rewrite elem_of_cons, elem_of_nil; intros [].
Qed.

Lemma name_plain name : forallb name_rune name = true → Forall plain name.
Proof.
  rewrite forallb_forall, Forall_forall. intros Hn c Hc.
  destruct (name_rune_spec c) as (_ & Hsp & Hin); [apply Hn; by apply list_elem_of_In|].
  rewrite !not_elem_of_cons in Hin. destruct Hin as (? & ? & ? & ? & ? & ? & _).
  split_and!; [done..|]. destruct Htoken as [->| ->]; done.
Qed.

Lemma loop_start ws q c r rest :
  IsSpace c = false →
  words_loop token (mkWordState ws inSpaces [] q false) ((c, r) :: rest) =
    words_loop token (mkWordState ws inWord [] q false) ((c, r) :: rest).
Proof. intros Hc. cbn [words_loop w_phase]. by rewrite Hc. Qed.

Lemma loop_assignment ws q nv rest :
  env_name nv.1 = true →
  ∃ q' b', words_loop token (mkWordState ws inSpaces [] q false) (encoded (assignment nv) ++ rest) =
    words_loop token (mkWordState ws inWord (encode_all (assignment nv)) q' b') rest.
Proof.
  destruct nv as [[|c name] v]; [done|]. unfold env_name, assignment. cbn [fst snd]. intros Hn.
  apply andb_true_iff in Hn as [_ Hn]. pose proof (name_plain _ Hn) as Hp.
  assert (words_loop token (mkWordState ws inSpaces [] q false)
    (encoded ((c :: name) ++ equals :: quoted v) ++ rest) =
    words_loop token (mkWordState ws inWord [] q false)
    (encoded (((c :: name) ++ [equals]) ++ quoted v) ++ rest)) as ->.
  { rewrite <- app_assoc. apply loop_start. by inversion Hp as [|?? [? _] _]. }
  rewrite encoded_app, <- app_assoc, loop_plain.
  - rewrite app_nil_l.
    destruct (loop_pieces ws (encode_all ((c :: name) ++ [equals])) q false
      (quote_pieces [] v) rest) as (q' & b' & Heq).
    { apply quote_pieces_ok, not_elem_of_nil. }
    exists q', b'. fold (quoted v) in Heq. rewrite Heq.
    by rewrite <- encode_all_app, <- app_assoc.
  - apply Forall_app. split; [done|]. constructor; [|done]. split_and!; [done..|].
    destruct Htoken as [->| ->]; done.
Qed.

Lemma encode_all_not_nil s : s ≠ [] → encode_all s ≠ [].
Proof.
  destruct s as [|c s]; [done|]. rewrite encode_all_cons. destruct (encode_cons c) as (b & t & ->). done.
Qed.

Lemma loop_assignments ws q nvs :
  nvs ≠ [] → Forall (λ nv, env_name nv.1 = true) nvs →
  words_loop token (mkWordState ws inSpaces [] q false) (encoded (assignments nvs)) =
    ws ++ ((λ nv, encode_all (assignment nv)) <$> nvs).
Proof.
  intros Hne Hn. revert ws q Hne. induction Hn as [|nv nvs Hn Hns IH]; intros ws q Hne; [done|].
  assert (∀ w q b, w ≠ [] → end_word (mkWordState ws inWord w q b) = ws ++ [w]) as Hend.
  { intros w q0 b Hw. unfold end_word; cbn. rewrite bool_decide_eq_false_2 by done.
    by rewrite orb_true_r. }
  assert (encode_all (assignment nv) ≠ []) as Hnn.
  { apply encode_all_not_nil. unfold assignment. by destruct nv.1. }
  destruct nvs as [|nv' nvs].
  - cbn [assignments]. rewrite <- (app_nil_r (encoded _)).
    destruct (loop_assignment ws q nv [] Hn) as (q' & b' & ->). cbn [words_loop w_phase].
    by apply Hend.
  - change (assignments (nv :: nv' :: nvs)) with (assignment nv ++ 32 :: assignments (nv' :: nvs)).
    rewrite encoded_app.
    destruct (loop_assignment ws q nv (encoded (32 :: assignments (nv' :: nvs))) Hn) as (q' & b' & ->).
    change (encoded (32 :: assignments (nv' :: nvs)))
      with ((32, encode 32) :: encoded (assignments (nv' :: nvs))).
    cbn [words_loop w_phase]. change (IsSpace 32) with true. cbn [w_quote].
    rewrite IH by done. rewrite Hend by done. by rewrite <- app_assoc.
Qed.
End words.

(** ** Bytes of encoded text *)

(** The bytes of a rune are the rune itself or at least 128, the first one being
    no continuation byte. *)
Lemma encode_bytes c b : b ∈ encode c → b = c ∧ c < 128 ∨ 128 ≤ b.
Proof.
  unfold encode. destruct (negb (valid_rune c)) eqn:Hv.
  { rewrite !elem_of_cons, elem_of_nil. lia. }
  apply negb_false_iff in Hv. unfold valid_rune, between in Hv.
  apply orb_true_iff in Hv. rewrite !bool_decide_eq_true in Hv.
  pose proof (Z.mod_pos_bound c 64 ltac:(done)).
  pose proof (Z.mod_pos_bound (c `div` 64) 64 ltac:(done)).
  pose proof (Z.mod_pos_bound (c `div` 4096) 64 ltac:(done)).
  assert (0 ≤ c `div` 64) by (apply Z.div_pos; lia).
  assert (0 ≤ c `div` 4096) by (apply Z.div_pos; lia).
  assert (0 ≤ c `div` 262144) by (apply Z.div_pos; lia).
  repeat case_decide; rewrite !elem_of_cons, elem_of_nil; lia.
Qed.

Lemma encode_first c : ∃ b t, encode c = b :: t ∧ (b = c ∧ c < 128 ∨ 192 ≤ b < 256).
Proof.
  unfold encode. destruct (negb (valid_rune c)) eqn:Hv; [eexists _, _; split; [done|lia]|].
  apply negb_false_iff in Hv. unfold valid_rune, between in Hv.
  apply orb_true_iff in Hv. rewrite !bool_decide_eq_true in Hv.
  repeat case_decide; (eexists _, _; split; [done|]).
  - lia.
  - pose proof (Z.div_mod c 64 ltac:(done)). pose proof (Z.mod_pos_bound c 64 ltac:(done)). lia.
  - pose proof (Z.div_mod c 4096 ltac:(done)). pose proof (Z.mod_pos_bound c 4096 ltac:(done)). lia.
  - pose proof (Z.div_mod c 262144 ltac:(done)).
    pose proof (Z.mod_pos_bound c 262144 ltac:(done)). lia.
Qed.

Lemma encode_ascii c : 0 ≤ c < 128 → encode c = [c].
Proof.
  intros Hc. unfold encode, valid_rune, between. rewrite (bool_decide_eq_true_2 (0 ≤ _ ≤ _)) by lia.
  cbn [orb negb]. by rewrite decide_True by lia.
Qed.

Lemma encode_all_ascii b rs : b < 128 → b ∈ encode_all rs → b ∈ rs.
Proof.
  intros Hb. unfold encode_all. rewrite list_elem_of_bind.
  intros (c & Hin & Hc). destruct (encode_bytes c b Hin) as [[-> _]|]; [done|lia].
Qed.

Lemma chunks_of_encoded rs : Forall (λ r, valid_rune r = true) rs → chunks (encode_all rs) = encoded rs.
Proof.
  intros Hrs. rewrite <- (app_nil_r (encode_all rs)), chunks_encode_all by done. apply app_nil_r.
Qed.

Lemma raw_encoded rs : raw (encoded rs) = encode_all rs.
Proof.
  induction rs as [|r rs IH]; [done|]. rewrite encode_all_cons, <- IH. done.
Qed.

(** Text that does not begin or end with a space. *)
Lemma TrimSpace_encoded rs c rs' c' :
  Forall (λ r, valid_rune r = true) (c :: rs) → c :: rs = rs' ++ [c'] →
  IsSpace c = false → IsSpace c' = false →
  TrimSpace (encode_all (c :: rs)) = encode_all (c :: rs).
Proof.
  intros Hv Hl Hc Hc'. unfold TrimSpace. rewrite chunks_of_encoded by done.
  assert (trim_chunks (encoded (c :: rs)) = encoded (c :: rs)) as -> by (simpl; by rewrite Hc).
  rewrite Hl, encoded_app. cbn [encoded fmap list_fmap]. rewrite reverse_snoc. cbn [trim_chunks fst].
  rewrite Hc', <- reverse_snoc, reverse_involutive.
  change [(c', encode c')] with (encoded [c']). by rewrite <- encoded_app, raw_encoded.
Qed.

(** ** The text of the statement *)

Definition valid_env (nv : runes * runes) : bool := env_name nv.1 && env_value nv.2.

Lemma quoted_elem v c : c ∈ quoted v → c ∈ v ∨ c = single_quote ∨ c = double_quote.
Proof.
  unfold quoted. assert (∀ seg, c ∈ show_word (quote_pieces seg v) →
    c ∈ seg ++ v ∨ c = single_quote ∨ c = double_quote) as Hs; [|by apply Hs].
  induction v as [|x v IH]; intros seg; cbn [quote_pieces].
  { unfold show_word; simpl. rewrite !app_nil_r, !elem_of_cons, elem_of_app, elem_of_cons, elem_of_nil.
    naive_solver. }
  case_decide as Hx.
  - rewrite !show_word_cons. cbn [show_piece flat_map app].
    rewrite !elem_of_cons, !elem_of_app, !elem_of_cons, elem_of_nil. intros Hc.
    assert (c ∈ show_word (quote_pieces [] v) → c ∈ v ∨ c = single_quote ∨ c = double_quote) as H1
      by apply IH.
    tauto.
  - intros Hc%IH. rewrite <- app_assoc in Hc. done.
Qed.

Lemma quoted_end v : ∃ s, quoted v = s ++ [single_quote].
Proof.
  unfold quoted. assert (∀ seg, ∃ s, show_word (quote_pieces seg v) = s ++ [single_quote]) as Hs;
    [|by apply Hs].
  induction v as [|x v IH]; intros seg; cbn [quote_pieces].
  { exists (single_quote :: seg). unfold show_word; simpl. by rewrite app_nil_r. }
  case_decide as Hx; [|apply IH]. rewrite !show_word_cons. destruct (IH []) as [s ->].
  eexists. by rewrite !app_assoc.
Qed.

Lemma assignments_end nvs : nvs ≠ [] → ∃ s, assignments nvs = s ++ [single_quote].
Proof.
  induction nvs as [|nv nvs IH]; [done|]. intros _. destruct nvs as [|nv' nvs].
  - cbn [assignments]. unfold assignment. destruct (quoted_end nv.2) as [s ->].
    exists (nv.1 ++ equals :: s). by rewrite <- app_assoc.
  - destruct IH as [s Hs]; [done|].
    change (assignments (nv :: nv' :: nvs)) with (assignment nv ++ 32 :: assignments (nv' :: nvs)).
    rewrite Hs. exists (assignment nv ++ 32 :: s). by rewrite <- app_assoc.
Qed.

(** What holds of the runes of names and values, and of the separators, holds of all. *)
Lemma assignments_Forall (P : rune → Prop) nvs :
  Forall (λ nv, Forall P nv.1 ∧ Forall P nv.2) nvs →
  P equals → P 32 → P single_quote → P double_quote → Forall P (assignments nvs).
Proof.
  intros Hn He Hs Hq Hd. assert (∀ nv, Forall P nv.1 → Forall P nv.2 → Forall P (assignment nv)) as H1.
  { intros nv H1 H2. unfold assignment. apply Forall_app. split; [done|]. constructor; [done|].
    apply Forall_forall. intros c [Hc|[->| ->]]%quoted_elem; [|done..].
    by eapply Forall_forall in H2. }
  induction Hn as [|nv nvs [Ha Hb] Hn IH]; [constructor|]. destruct nvs as [|nv' nvs]; [by apply H1|].
  change (assignments (nv :: nv' :: nvs)) with (assignment nv ++ 32 :: assignments (nv' :: nvs)).
  apply Forall_app. split; [by apply H1|]. by constructor.
Qed.

Lemma valid_env_spec nv :
  valid_env nv = true →
  env_name nv.1 = true ∧ Forall (λ c, valid_rune c = true) nv.1 ∧
  Forall (λ c, valid_rune c = true) nv.2 ∧ newline ∉ nv.1 ∧ newline ∉ nv.2.
Proof.
  unfold valid_env, env_value. rewrite !andb_true_iff, bool_decide_eq_true.
  intros (Hn & Hv & Hl). split; [done|].
  assert (Forall (λ c, name_rune c = true) nv.1) as Hall.
  { unfold env_name in Hn. destruct nv.1 as [|c l]; [done|].
    apply andb_true_iff in Hn as [_ Hn]. rewrite forallb_forall in Hn. apply Forall_forall.
    intros x Hx. apply Hn. by apply list_elem_of_In. }
  split_and!; [|by apply Forall_forall; intros x Hx; rewrite forallb_forall in Hv;
    apply Hv, list_elem_of_In| |done].
  - eapply Forall_impl; [exact Hall|]. intros c Hc. by destruct (name_rune_spec c Hc).
  - intros Hin. eapply Forall_forall in Hall; [|exact Hin]. by vm_compute in Hall.
Qed.

(** ** Parsing the statement *)

Lemma cut_equals_app a b : equals ∉ a → cut_equals (a ++ equals :: b) = Some (a, b).
Proof.
  induction a as [|c a IH]; intros Ha; cbn [app cut_equals]; [by rewrite decide_True|].
  apply not_elem_of_cons in Ha as [Hc Ha]. rewrite decide_False by congruence. by rewrite IH.
Qed.

(** The values of the nodes. *)
Definition env_nodes (nvs : list (runes * runes)) : list bytes :=
  nvs ≫= λ nv, [encode_all nv.1; encode_all (quoted nv.2)].

Lemma equals_not_in_name name : env_name name = true → equals ∉ encode_all name.
Proof.
  intros Hn Hin. apply encode_all_ascii in Hin; [|done]. unfold env_name in Hn.
  destruct name as [|c name]; [done|]. apply andb_true_iff in Hn as [_ Hn].
  rewrite forallb_forall in Hn. apply list_elem_of_In, Hn in Hin. by vm_compute in Hin.
Qed.

Lemma encode_assignment nv :
  encode_all (assignment nv) = encode_all nv.1 ++ equals :: encode_all (quoted nv.2).
Proof. unfold assignment. rewrite encode_all_app, encode_all_cons. done. Qed.

Lemma name_values_assignments nvs :
  Forall (λ nv, env_name nv.1 = true) nvs →
  name_values ((λ nv, encode_all (assignment nv)) <$> nvs) = Ok (env_nodes nvs).
Proof.
  induction 1 as [|nv nvs Hn Hns IH]; [done|]. cbn [fmap list_fmap name_values].
  rewrite encode_assignment, cut_equals_app by (by apply equals_not_in_name). by rewrite IH.
Qed.

Lemma parseEnv_assignments nvs d :
  is_escape_token (d_EscapeToken d) → nvs ≠ [] → Forall (λ nv, valid_env nv = true) nvs →
  parseEnv (encode_all (assignments nvs)) d = Ok (chain (env_nodes nvs), ∅).
Proof.
  intros Ht Hne Hv.
  assert (Forall (λ nv, env_name nv.1 = true) nvs) as Hn
    by (eapply Forall_impl; [exact Hv|]; intros nv H%valid_env_spec; apply H).
  unfold parseEnv, parseNameVal, parseWords.
  rewrite chunks_of_encoded.
  2: { apply assignments_Forall; [|done..]. eapply Forall_impl; [exact Hv|].
       intros nv H%valid_env_spec. split; apply H. }
  unfold new_words. rewrite loop_assignments by done. rewrite app_nil_l.
  pose proof (name_values_assignments nvs Hn) as Hval.
  destruct nvs as [|nv nvs]; [done|]. cbn [fmap list_fmap] in *.
  rewrite decide_False.
  - by rewrite Hval.
  - intros Hnot. apply Hnot. rewrite encode_assignment. apply elem_of_app. right. by left.
Qed.

Lemma B_encode : encode_all (B "ENV ") = B "ENV ".
Proof. vm_compute. reflexivity. Qed.

Lemma first_byte_ok c b :
  name_rune c = true → c ≠ minus → (b = c ∧ c < 128 ∨ 192 ≤ b < 256) →
  IsSpace b = false ∧ is_token_space b = false ∧ b ≠ minus.
Proof.
  intros (Hv & Hs & _)%name_rune_spec Hm Hb. destruct Hb as [[-> Hc]|Hb].
  - split_and!; [done| |done]. unfold is_token_space. apply bool_decide_eq_false.
    intros Hin. rewrite !elem_of_cons, elem_of_nil in Hin.
    destruct Hin as [->|[->|[->|[->|[->|[]]]]]]; by vm_compute in Hs.
  - unfold IsSpace, is_token_space, between, minus. split_and!; [|apply bool_decide_eq_false|lia].
    + rewrite !orb_false_iff, !bool_decide_eq_false, !elem_of_cons, elem_of_nil. lia.
    + rewrite !elem_of_cons, elem_of_nil. lia.
Qed.

(** The first byte of the assignments. *)
Lemma assignments_first nvs :
  nvs ≠ [] → Forall (λ nv, valid_env nv = true) nvs →
  ∃ c rs b t, assignments nvs = c :: rs ∧ IsSpace c = false ∧ encode_all (assignments nvs) = b :: t ∧
    IsSpace b = false ∧ is_token_space b = false ∧ b ≠ minus.
Proof.
  intros Hne Hv. destruct nvs as [|nv nvs]; [done|].
  apply Forall_cons in Hv as [(Hn & _)%valid_env_spec _].
  destruct nv as [[|c name] v]; [done|]. unfold env_name in Hn; cbn [fst] in Hn.
  rewrite !andb_true_iff, !bool_decide_eq_true in Hn. destruct Hn as [[Hm _] Hn].
  cbn [forallb] in Hn. apply andb_true_iff in Hn as [Hc _].
  assert (∃ rs, assignments ((c :: name, v) :: nvs) = c :: rs) as [rs Hrs].
  { destruct nvs; by eexists. }
  destruct (encode_first c) as (b & t & Hb & Hfirst).
  exists c, rs, b, (t ++ encode_all rs). rewrite Hrs, encode_all_cons, Hb.
  split_and!; [done|by destruct (name_rune_spec c Hc) as (_ & ? & _)|done|..];
    by destruct (first_byte_ok c b Hc Hm Hfirst) as (? & ? & ?).
Qed.

Lemma splitCommand_env nvs :
  nvs ≠ [] → Forall (λ nv, valid_env nv = true) nvs →
  splitCommand (encode_all (env_line nvs)) = (B "env", [], encode_all (assignments nvs)).
Proof.
  intros Hne Hv.
  destruct (assignments_first nvs Hne Hv) as (c & rs & b & t & Hrs & Hsp & Hb & Hb1 & Hb2 & Hb3).
  destruct (assignments_end nvs Hne) as [s Hend].
  assert (Forall (λ c, valid_rune c = true) (assignments nvs)) as Hvalid.
  { apply assignments_Forall; [|done..]. eapply Forall_impl; [exact Hv|].
    intros nv H%valid_env_spec. split; apply H. }
  unfold splitCommand. assert (TrimSpace (encode_all (env_line nvs)) = encode_all (env_line nvs)) as ->.
  { apply (TrimSpace_encoded _ 69 (B "ENV " ++ s) single_quote); [|by rewrite <- app_assoc, <- Hend|done..].
    do 4 (constructor; [reflexivity|]). done. }
  unfold env_line. rewrite encode_all_app, B_encode.
  change (B "ENV ") with [69; 78; 86; 32]. cbn [app split_two]. 
  change (is_token_space 69) with false. change (is_token_space 78) with false.
  change (is_token_space 86) with false. change (is_token_space 32) with true. cbn [app].
  assert (drop_while is_token_space (encode_all (assignments nvs)) = encode_all (assignments nvs)) as ->.
  { rewrite Hb. cbn [drop_while]. by rewrite Hb2. }
  assert (extractBuilderFlags (encode_all (assignments nvs)) = (encode_all (assignments nvs), [])) as ->.
  { unfold extractBuilderFlags, new_words. rewrite Hb. cbn [flags_loop w_phase]. rewrite Hb1.
    by rewrite bool_decide_eq_true_2. }
  rewrite (Hrs : assignments nvs = _) at 1.
  rewrite (TrimSpace_encoded rs c s single_quote); [by rewrite <- Hrs|by rewrite <- Hrs|by rewrite <- Hrs|done..].
Qed.

Lemma strip_continuation_quote token s :
  is_escape_token token → strip_continuation token (encode_all (s ++ [single_quote])) = None.
Proof.
  intros Ht. unfold strip_continuation. rewrite encode_all_app.
  change (encode_all [single_quote]) with [single_quote]. rewrite reverse_snoc.
  change (drop_while is_blank (single_quote :: reverse (encode_all s)))
    with (single_quote :: reverse (encode_all s)).
  cbv iota beta. rewrite decide_False; [done|]. destruct Ht as [->| ->]; done.
Qed.

(** The node of the statement. *)
Definition env_node (nvs : list (runes * runes)) : Node :=
  mkNode (B "env") (chain (env_nodes nvs)) [] ∅ (encode_all (env_line nvs)) [] 0 0.

Lemma ParseLine_env nvs d :
  is_escape_token (d_EscapeToken d) → nvs ≠ [] → Forall (λ nv, valid_env nv = true) nvs →
  ParseLine (encode_all (env_line nvs)) d = (no_longer_looking d, Ok ([], Some (env_node nvs))).
Proof.
  intros Ht Hne Hv.
  assert (encode_all (env_line nvs) = 69 :: [78; 86; 32] ++ encode_all (assignments nvs)) as Hline.
  { unfold env_line. by rewrite encode_all_app, B_encode. }
  assert (ParseLine (encode_all (env_line nvs)) d =
    ParseLine (encode_all (env_line nvs)) (no_longer_looking d)) as ->
    by (rewrite Hline; by apply ParseLine_start).
  unfold ParseLine. cbn [parse_line no_longer_looking d_LookingForDirectives].
  assert (stripComments (encode_all (env_line nvs)) = encode_all (env_line nvs)) as ->
    by (rewrite Hline; by apply stripComments_start).
  rewrite decide_False by (by rewrite Hline).
  destruct (assignments_end nvs Hne) as [s Hend].
  change (no_longer_looking (no_longer_looking d)) with (no_longer_looking d).
  assert (strip_continuation (d_EscapeToken (no_longer_looking d)) (encode_all (env_line nvs)) = None) as ->.
  { unfold env_line. rewrite Hend, app_assoc. by apply strip_continuation_quote. }
  rewrite splitCommand_env by done.
  match goal with |- context [fullDispatch ?sub ?d0 ?cmd ?args] =>
    change (fullDispatch sub d0 cmd args) with (d0, parseEnv args d0) end.
  by rewrite parseEnv_assignments by done.
Qed.

(** ** The whole file *)

Lemma scan_one_line cur s :
  newline ∉ s → cur ++ s ≠ [] → (length (cur ++ s) < MaxScanTokenSize)%nat →
  scan_lines cur s = [dropCR (cur ++ s)].
Proof.
  revert cur. induction s as [|b s IH]; intros cur Hn Hne Hl; cbn [scan_lines].
  - rewrite app_nil_r in *. rewrite decide_False; [done|]. intros [?|?]; [done|lia].
  - apply not_elem_of_cons in Hn as [Hb Hn]. rewrite decide_False by congruence.
    rewrite IH; [by rewrite <- app_assoc|done|by destruct cur|by rewrite <- app_assoc].
Qed.

Lemma dropCR_quote s : dropCR (s ++ [single_quote]) = s ++ [single_quote].
Proof. unfold dropCR. by rewrite reverse_snoc. Qed.

Lemma scan_env nvs :
  nvs ≠ [] → Forall (λ nv, valid_env nv = true) nvs →
  (length (encode_all (env_line nvs)) < MaxScanTokenSize)%nat →
  scan_lines [] (encode_all (env_line nvs)) = [encode_all (env_line nvs)].
Proof.
  intros Hne Hv Hl. destruct (assignments_end nvs Hne) as [s Hend].
  rewrite scan_one_line; [|..|done]; rewrite ?app_nil_l.
  - unfold env_line. rewrite Hend, app_assoc, encode_all_app. by rewrite dropCR_quote.
  - intros Hin. apply encode_all_ascii in Hin; [|done].
    assert (Forall (λ c, c ≠ newline) (assignments nvs)) as Hall.
    { apply assignments_Forall; [|done..]. eapply Forall_impl; [exact Hv|].
      intros nv (_ & _ & _ & H1 & H2)%valid_env_spec.
      split; apply Forall_forall; intros c Hc ->; done. }
    unfold env_line in Hin. apply elem_of_app in Hin as [Hin|Hin].
    + revert Hin. apply (bool_decide_unpack _). vm_compute. exact I.
    + by eapply Forall_forall in Hin; [|exact Hall].
  - unfold env_line. rewrite encode_all_app, B_encode. done.
Qed.

Lemma Parse_env nvs d :
  is_escape_token (d_EscapeToken d) → nvs ≠ [] → Forall (λ nv, valid_env nv = true) nvs →
  (length (encode_all (env_line nvs)) < MaxScanTokenSize)%nat →
  Parse (encode_all (env_line nvs)) d =
    (no_longer_looking d, Ok (add_statement new_root (env_node nvs) 1 1)).
Proof.
  intros Ht Hne Hv Hl. unfold Parse. rewrite scan_env by done.
  cbn [length parse_loop]. rewrite decide_True by done.
  assert (encode_all (env_line nvs) = 69 :: [78; 86; 32] ++ encode_all (assignments nvs)) as Hline.
  { unfold env_line. by rewrite encode_all_app, B_encode. }
  assert (default (encode_all (env_line nvs)) (strip_bytes utf8bom (encode_all (env_line nvs))) =
    encode_all (env_line nvs)) as -> by (by rewrite Hline).
  assert (TrimLeftSpace (encode_all (env_line nvs)) = encode_all (env_line nvs)) as ->
    by (rewrite Hline; by apply TrimLeftSpace_start).
  unfold parse_statement. by rewrite ParseLine_env.
Qed.

(** ** Dispatch *)

Lemma expand_env envs rs w :
  Forall (λ c, valid_rune c = true) rs → ProcessWord rs envs = Ok w →
  expand (B "env") envs (encode_all rs) = Ok [encode_all w].
Proof.
  intros Hrs Hw. unfold expand.
  change (replaceEnvAllowed (B "env")) with true. change (allowWordExpansion (B "env")) with false.
  cbn [negb]. by rewrite runes_of_encode_all, Hw.
Qed.

Lemma expand_next_Some cmd envs ast next :
  n_Next ast = Some next →
  expand_next cmd envs ast =
    match expand cmd envs (n_Value next) with
    | Ok ws =>
        match expand_next cmd envs next with Ok ws' => Ok (ws ++ ws') | e => e end
    | e => e
    end.
Proof. destruct ast. simpl. by intros ->. Qed.

Lemma expand_chain envs nvs ast :
  n_Next ast = chain (env_nodes nvs) → Forall (λ nv, valid_env nv = true) nvs →
  expand_next (B "env") envs ast = Ok (nvs ≫= λ nv, [encode_all nv.1; encode_all nv.2]).
Proof.
  intros Hast Hv. revert ast Hast. induction Hv as [|nv nvs Hnv Hv IH]; intros ast Hast.
  { destruct ast; simpl in *; by subst. }
  apply valid_env_spec in Hnv as (Hn & Hv1 & Hv2 & _).
  set (value := leaf (encode_all (quoted nv.2)) (chain (env_nodes nvs))).
  rewrite (expand_next_Some _ _ ast (leaf (encode_all nv.1) (Some value)) Hast).
  rewrite (expand_next_Some _ _ (leaf _ _) value) by done. cbn [leaf n_Value value].
  rewrite (expand_env envs nv.1 nv.1) by (done || by apply ProcessWord_name).
  rewrite (expand_env envs (quoted nv.2) nv.2); [|..|apply ProcessWord_quoted].
  - by rewrite IH.
  - apply Forall_forall. intros c [Hc|[->| ->]]%quoted_elem; [|done..].
    by eapply Forall_forall in Hv2.
Qed.

(** C12: Values survive a Dockerfile.  Values of valid characters other than line
    ends, assigned in one ENV statement to names without spaces, quotes, dollar,
    escape or equals signs (and not beginning with a minus sign or a byte order mark),
    are written in quotes; as long as the text is shorter than the 65536 bytes that
    the scanner takes, it is parsed, with either escape token, to one statement, and
    the processing of its words gives the builder exactly the names and the values, in
    any environment. *)
Theorem env_roundtrip nvs d envs :
  is_escape_token (d_EscapeToken d) → nvs ≠ [] → Forall (λ nv, valid_env nv = true) nvs →
  (length (encode_all (env_line nvs)) < MaxScanTokenSize)%nat →
  ∃ root ast, (Parse (encode_all (env_line nvs)) d).2 = Ok root ∧ n_Children root = [Some ast] ∧
    n_Value ast = B "env" ∧
    dispatch_args envs ast = Ok (nvs ≫= λ nv, [encode_all nv.1; encode_all nv.2]).
Proof.
  intros Ht Hne Hv Hl. rewrite Parse_env by done.
  eexists _, _. split; [done|]. split; [done|]. split; [done|].
  unfold dispatch_args. cbn [n_Value env_node add_statement].
  rewrite (decide_False (P := B "env" = B "onbuild")) by done. by apply expand_chain.
Qed.
End env_trip.
