(* ===== verification/DockerfileWitness.v ===== *)
(** * Dockerfiles on concrete inputs

    The theorems on the parser applied to small files, and behaviours of the code
    that its comments and documents do not mention. *)

From S2P Require Import Prelude ShellWord ShellWordInv GoUTF8 Dockerfile DockerfileInv.
From S2P Require Import DockerfileLines DockerfileTrip.
Open Scope Z_scope.

(** Tables for ASCII, and no JSON. *)
#[local] Instance demo_unicode : UnicodeTables :=
  {| table_letter _ := false; table_digit _ := false |}.
#[local] Instance demo_cases : CaseTables := {| table_lower c := c |}.
#[local] Instance demo_json : JSONArrays := {| json_strings _ := inl "no JSON" |}.

(** A=it's "$x", B=two spaces. *)
Definition demo_envs : list (runes * runes) :=
  [(B "A", B "it's " ++ double_quote :: B "$x" ++ [double_quote]); (B "B", B "  ")].

Lemma env_roundtrip_witness :
  ∃ root ast, (Parse (encode_all (env_line demo_envs)) new_directive).2 = Ok root ∧
    n_Children root = [Some ast] ∧ n_Value ast = B "env" ∧
    dispatch_args [B "x=1"] ast =
      Ok [B "A"; B "it's " ++ double_quote :: B "$x" ++ [double_quote]; B "B"; B "  "].
Proof.
  apply (env_roundtrip demo_envs new_directive [B "x=1"]).
  - left. reflexivity.
  - discriminate.
  - repeat constructor.
  - apply (bool_decide_unpack _). vm_compute. exact I.
Defined.

(** RUN a &&, a comment, an empty line, and b. *)
Lemma continued_lines_join_witness :
  erase_result (parse_loop 5 new_directive new_root 0
    [B "RUN a && " ++ [backslash; 32]; B "  # comment"; []; B "  b"; B "USER c"]) =
  erase_result (parse_loop 2 new_directive new_root 0 [B "RUN a &&   b"; B "USER c"]).
Proof.
  apply (continued_lines_join new_directive new_root 0 82 (B "UN a && ") [32]
           [B "  # comment"; []] (B "  b") [B "USER c"]).
  - done.
  - vm_compute. reflexivity.
  - left. reflexivity.
  - repeat constructor.
  - repeat constructor.
  - intros H. vm_compute in H. discriminate H.
Defined.

(** The values of the statements of a text, and the statements themselves. *)
Definition statements (text : bytes) : list (option Node) :=
  match (Parse text new_directive).2 with Ok root => n_Children root | _ => [] end.
Definition commands (text : bytes) : list bytes :=
  map (λ c, default [] (n_Value <$> c)) (statements text).
Definition args_of (envs : list runes) (text : bytes) : list (outcome dispatch_error (list bytes)) :=
  map (λ c, default Diverge (dispatch_args envs <$> c)) (statements text).

(** ** Behaviours of the code to note *)

(** ONBUILD with a comment as its argument: the node of the sub-statement is nil,
    which [dispatch] dereferences. *)
Lemma onbuild_comment_panics :
  args_of [] (B "ONBUILD # nothing") =
    [Panic "invalid memory address or nil pointer dereference"].
Proof. vm_compute. reflexivity. Qed.

(** Two escape tokens at the end of the file: the first pass takes one of them for a
    continuation, the last pass the other one, and the statement is lost. *)
Lemma last_statement_is_lost :
  commands (B "FROM a" ++ newline :: B "RUN b" ++ [backslash; backslash]) = [B "from"] ∧
  commands (B "FROM a" ++ newline :: B "RUN b" ++ [backslash]) = [B "from"; B "run"].
Proof. vm_compute. done. Qed.

(** A line that does not fit into the scanner's buffer ends the file, without an
    error. *)
Lemma long_line_ends_file (c : Z) text :
  c ≠ newline → statements (replicate MaxScanTokenSize c ++ newline :: text) = [].
Proof.
  intros Hc. assert (∀ n cur, (MaxScanTokenSize ≤ length cur + n)%nat →
    scan_lines cur (replicate n c ++ newline :: text) = []) as Hscan.
  { intros n. induction n as [|n IH]; intros cur Hn; cbn [replicate app scan_lines].
    - rewrite decide_True by done. by rewrite decide_True by lia.
    - rewrite decide_False by done. apply IH. rewrite length_app. simpl. lia. }
  unfold statements, Parse. rewrite Hscan by (simpl; lia). done.
Qed.

(** The root starts where its first statement ends. *)
Lemma root_starts_at_end :
  ∃ root, (Parse (B "RUN a " ++ backslash :: newline :: B "b") new_directive).2 = Ok root ∧
    n_StartLine root = 2 ∧ map (option_map n_StartLine) (n_Children root) = [Some 1].
Proof. eexists. split; [vm_compute; reflexivity|]. vm_compute. done. Qed.

(** Flags are read byte by byte: characters outside of ASCII are encoded again, and
    the last byte of U+00E0 is taken for a space. *)
Lemma flags_bytes_as_runes :
  extractBuilderFlags (B "--name=" ++ encode 233 ++ B " x") =
    (B "x", [B "--name=" ++ encode 195 ++ encode 169]) ∧
  extractBuilderFlags (B "--name=" ++ encode 224 ++ B "b x") =
    (B "b x", [B "--name=" ++ encode 195]).
Proof. vm_compute. done. Qed.

(** The escape token that a directive sets is used to split words, but the words are
    then processed with the backslash. *)
Lemma escape_directive_ignored_in_words :
  args_of [B "x=1"] (B "# escape=`" ++ newline :: B "ENV a=`$x") = [Ok [B "a"; B "`1"]] ∧
  args_of [B "x=1"] (B "ENV a=" ++ backslash :: B "$x") = [Ok [B "a"; B "$x"]].
Proof. vm_compute. done. Qed.
