(* ===== verification/ImageDelete.v ===== *)
(** * daemon: finding and deleting images

    The model of daemon/image_delete.go, of [GetImageID] and [GetImage]
    (daemon/image.go), [imageNotExistToErrcode] (daemon/errors.go),
    [LogImageEvent] (daemon/events.go), [ParseIDOrReference]
    (reference/reference.go) and [TruncateID] (pkg/stringid/stringid.go), on top of
    the image store, the tag store and the store of containers.

    [ImageDelete] and its helpers append to a slice of records that they share
    through a pointer: the slice is threaded through as part of the state.  The
    last statement, [return records, daemon.imageDeleteHelper(..., &records, ...)],
    leaves the order in which the variable is read and the function called open in
    the language; the compilers call the function first, and so does the model. *)

From S2P Require Import Prelude GoStrings Layer ImageStore RefStore Container.
Local Open Scope nat_scope.

(** ** Data *)

Record container := mkContainer {
  ct_ID : string;
  ct_ImageID : string;
  ct_State : State
}.

(** types.ImageDelete: one of the two fields is set. *)
Record ImageDeleted := mkDeleted { del_Untagged : string; del_Deleted : string }.

(** An event of the type "image", with its attribute "name"; the labels of the
    image's configuration are left out. *)
Record image_event := mkImageEvent {
  ev_action : string;
  ev_imageID : string;
  ev_name : option string
}.

Record imageDeleteConflict := mkConflict {
  idc_hard : bool;
  idc_used : bool;
  idc_imgID : string;
  idc_message : string
}.

Inductive daemon_error :=
| ErrImageDoesNotExist (RefOrID : string)
| RequestNotFoundError (msg : string)
| RequestConflictError (msg : string)
| DeleteConflict (c : imageDeleteConflict)
| RefStoreError (e : ref_error)
| PlainError (msg : string).

(** conflictType: a set of bits. *)
Definition conflictDependentChild : Z := Z.shiftl 1 0.
Definition conflictRunningContainer : Z := Z.shiftl 1 1.
Definition conflictActiveReference : Z := Z.shiftl 1 2.
Definition conflictStoppedContainer : Z := Z.shiftl 1 3.
Definition conflictHard : Z := Z.lor conflictDependentChild conflictRunningContainer.
Definition conflictSoft : Z := Z.lor conflictActiveReference conflictStoppedContainer.
Definition has_conflict (mask c : Z) : bool := bool_decide (Z.land mask c ≠ 0%Z).

Definition shortLen : nat := 12.
Definition TruncateID (id : string) : string :=
  let id := match cut_at ":" id with Some (_, rest) => rest | None => id end in
  let trimTo := if decide (String.length id < shortLen) then String.length id else shortLen in
  String.substring 0 trimTo id.

Definition idc_Error (idc : imageDeleteConflict) : string :=
  let forceMsg := if idc_hard idc then "cannot be forced" else "must be forced" in
  "conflict: unable to delete " +:+ TruncateID (idc_imgID idc) +:+ " (" +:+ forceMsg +:+
    ") - " +:+ idc_message idc.

(** The verb %q, of a string without characters that it would escape. *)
Definition Sprintf_q (s : string) : string := String "034" s +:+ String "034" "".

Definition is_canonical (r : Named) : bool :=
  match r with canonicalRef _ _ => true | _ => false end.

(** The loop of [isSingleReference]; [None] is its early return. *)
Fixpoint single_ref_loop (repoRefs : list Named) (singleRef : option Named)
    (canonicalRefs : gset string) : option (option Named * gset string) :=
  match repoRefs with
  | [] => Some (singleRef, canonicalRefs)
  | repoRef :: repoRefs =>
      if is_canonical repoRef
      then single_ref_loop repoRefs singleRef ({[Named_Name repoRef]} ∪ canonicalRefs)
      else match singleRef with
           | None => single_ref_loop repoRefs (Some repoRef) canonicalRefs
           | Some _ => None
           end
  end.

Definition isSingleReference (repoRefs : list Named) : bool :=
  match repoRefs with
  | [] => false
  | [_] => true
  | first :: _ =>
      match single_ref_loop repoRefs None ∅ with
      | None => false
      | Some (singleRef, canonicalRefs) =>
          bool_decide (size canonicalRefs = 1) &&
          bool_decide (Named_Name (default first singleRef) ∈ canonicalRefs)
      end
  end.

Definition isImageIDPrefix (imageID possiblePrefix : string) : bool :=
  HasPrefix imageID possiblePrefix ||
  match cut_at ":" imageID with
  | Some (_, rest) => HasPrefix rest possiblePrefix
  | None => false
  end.

(** [Ok (id, None)] when the string is an identifier. *)
Definition ParseIDOrReference `{RefExt} `{ImageExt} (idOrRef : string) :
    outcome string (string * option Named) :=
  let idOrRef := if ValidateID idOrRef then "sha256:" +:+ idOrRef else idOrRef in
  match digest_Validate idOrRef with
  | None => Ok (idOrRef, None)
  | Some _ => obind (ParseNamed idOrRef) (λ ref, Ok ("", Some ref))
  end.

(** The errors of one layer become those of the next. *)
Definition map_error {S E E' A} (f : E → E') (r : S * outcome E A) : S * outcome E' A :=
  match r with
  | (s, Ok a) => (s, Ok a)
  | (s, Err e) => (s, Err (f e))
  | (s, Panic m) => (s, Panic m)
  | (s, Diverge) => (s, Diverge)
  end.

(** An error of which only its presence is looked at. *)
Definition or_nil {S E A} (r : S * outcome E A) : S * outcome E (option A) :=
  match r with
  | (s, Ok a) => (s, Ok (Some a))
  | (s, Err _) => (s, Ok None)
  | (s, Panic m) => (s, Panic m)
  | (s, Diverge) => (s, Diverge)
  end.

Section image_delete.
Context {F L DS Tar Desc : Type}.
Context {be : StoreBackend F} {lg : LayerGetReleaser L} {dset : DigestSet DS}.
Context {ext : LayerExt Tar Desc} {iext : ImageExt} {rext : RefExt}.

(** The daemon, with the parts that deleting an image touches. *)
Record Daemon := mkDaemon {
  dm_imageStore : imageStore F L DS;
  dm_referenceStore : refStore;
  dm_containers : gmap string container;
  dm_events : list image_event
}.

Implicit Types (d : Daemon) (imgID : string) (records : list ImageDeleted).

Definition with_imageStore d (s : imageStore F L DS) : Daemon :=
  mkDaemon s (dm_referenceStore d) (dm_containers d) (dm_events d).
Definition with_referenceStore d (s : refStore) : Daemon :=
  mkDaemon (dm_imageStore d) s (dm_containers d) (dm_events d).
Definition with_event d (e : image_event) : Daemon :=
  mkDaemon (dm_imageStore d) (dm_referenceStore d) (dm_containers d) (dm_events d ++ [e]).

(** A call of the image store. *)
Definition call_images {A} d
    (f : imageStore F L DS → imageStore F L DS * outcome string A) :
    Daemon * outcome daemon_error A :=
  let '(s, r) := f (dm_imageStore d) in map_error PlainError (with_imageStore d s, r).

Definition nil_pointer {S A} (s : S) : S * outcome daemon_error A :=
  (s, Panic "invalid memory address or nil pointer dereference").

(** ** Finding an image (daemon/image.go) *)

(** A tag that is an identifier or a prefix of one, of an image that has a
    reference with this name. *)
Definition search_tag d (ref : Named) : option string :=
  match ref with
  | taggedRef name tag =>
      match imageStore_Search (dm_imageStore d) tag with
      | Ok id =>
          if decide (Exists (λ namedRef, Named_Name namedRef = name)
                       (refStore_References (dm_referenceStore d) id))
          then Some id else None
      | _ => None
      end
  | _ => None
  end.

Definition GetImageID d (refOrID : string) : Daemon * outcome daemon_error string :=
  match ParseIDOrReference refOrID with
  | Err e => (d, Err (PlainError e))
  | Panic m => (d, Panic m)
  | Diverge => (d, Diverge)
  | Ok (id, ref) =>
      if decide (id ≠ "") then
        let! (d, img) := or_nil (call_images d (λ s, imageStore_Get s id)) in
        match img with
        | None => (d, Err (ErrImageDoesNotExist refOrID))
        | Some _ => (d, Ok id)
        end
      else
        match ref with
        | None => nil_pointer d
        | Some ref =>
            match refStore_Get (dm_referenceStore d) ref with
            | Ok id => (d, Ok id)
            | Panic m => (d, Panic m)
            | Diverge => (d, Diverge)
            | Err _ =>
                match search_tag d ref with
                | Some id => (d, Ok id)
                | None =>
                    match imageStore_Search (dm_imageStore d) refOrID with
                    | Ok id => (d, Ok id)
                    | _ => (d, Err (ErrImageDoesNotExist refOrID))
                    end
                end
            end
        end
  end.

Definition GetImage d (refOrID : string) : Daemon * outcome daemon_error Image :=
  let! (d, imgID) := GetImageID d refOrID in
  call_images d (λ s, imageStore_Get s imgID).

Definition imageNotExistToErrcode (err : daemon_error) : daemon_error :=
  match err with
  | ErrImageDoesNotExist refOrID =>
      if contains_char "@" refOrID then RequestNotFoundError ("No such image: " +:+ refOrID)
      else
        match ParseNamed refOrID with
        | Ok ref =>
            let tag := match ref with taggedRef _ t => t | _ => DefaultTag end in
            RequestNotFoundError ("No such image: " +:+ Named_Name ref +:+ ":" +:+ tag)
        | _ => RequestNotFoundError ("No such image: " +:+ refOrID +:+ ":" +:+ DefaultTag)
        end
  | _ => err
  end.

Definition LogImageEvent d (imageID refName action : string) :
    Daemon * outcome daemon_error unit :=
  let! (d, _) := or_nil (GetImage d imageID) in
  let name := if decide (refName ≠ "") then Some refName else None in
  (with_event d (mkImageEvent action imageID name), Ok tt).

(** ** Conflicts (daemon/image_delete.go) *)

Definition getContainerUsingImage d imgID : option container :=
  memoryStore_First (dm_containers d) (λ c, bool_decide (ct_ImageID c = imgID)).

Definition runs_image imgID (c : container) : bool :=
  cs_Running (ct_State c) && bool_decide (ct_ImageID c = imgID).
Definition stopped_on_image imgID (c : container) : bool :=
  negb (cs_Running (ct_State c)) && bool_decide (ct_ImageID c = imgID).

Definition non_empty {A} (l : list A) : bool := bool_decide (0 < length l).

Definition checkImageDeleteConflict d imgID (mask : Z) : option imageDeleteConflict :=
  if has_conflict mask conflictDependentChild &&
     non_empty (imageStore_children (dm_imageStore d) imgID)
  then Some (mkConflict true false imgID "image has dependent child images")
  else
    let rest :=
      if has_conflict mask conflictActiveReference &&
         non_empty (refStore_References (dm_referenceStore d) imgID)
      then Some (mkConflict false false imgID "image is referenced in one or more repositories")
      else if has_conflict mask conflictStoppedContainer
      then (λ c, mkConflict false true imgID
              ("image is being used by stopped container " +:+ TruncateID (ct_ID c))) <$>
           memoryStore_First (dm_containers d) (stopped_on_image imgID)
      else None in
    if has_conflict mask conflictRunningContainer
    then match memoryStore_First (dm_containers d) (runs_image imgID) with
         | Some c => Some (mkConflict true true imgID
             ("image is being used by running container " +:+ TruncateID (ct_ID c)))
         | None => rest
         end
    else rest.

Definition imageIsDangling d imgID : bool :=
  negb (non_empty (refStore_References (dm_referenceStore d) imgID) ||
        non_empty (imageStore_children (dm_imageStore d) imgID)).

(** ** References *)

Definition removeImageRef d (ref : Named) : Daemon * outcome daemon_error Named :=
  match WithDefaultTag ref with
  | None => nil_pointer d
  | Some ref =>
      let '(s, r) := refStore_Delete (dm_referenceStore d) ref in
      let d := with_referenceStore d s in
      match r with
      | Ok (_, None) => (d, Ok ref)
      | Ok (_, Some e) | Err e => (d, Err (RefStoreError e))
      | Panic m => (d, Panic m)
      | Diverge => (d, Diverge)
      end
  end.

(** The daemon and the records. *)
Abbreviation dstate := (Daemon * list ImageDeleted)%type.
Implicit Types (s : dstate).

Definition on_daemon {A} s (f : Daemon → Daemon * outcome daemon_error A) :
    dstate * outcome daemon_error A :=
  let '(d, r) := f s.1 in ((d, s.2), r).
Definition add_record s (r : ImageDeleted) : dstate := (s.1, s.2 ++ [r]).

(** The loop of [removeAllReferencesToImageID], which is also that of
    [ImageDelete] for an identifier. *)
Fixpoint untag_all s imgID (refs : list Named) : dstate * outcome daemon_error unit :=
  match refs with
  | [] => (s, Ok tt)
  | ref :: refs =>
      let! (s, parsedRef) := on_daemon s (λ d, removeImageRef d ref) in
      let! (s, _) := on_daemon s (λ d, LogImageEvent d imgID imgID "untag") in
      untag_all (add_record s (mkDeleted (Named_String parsedRef) "")) imgID refs
  end.

Definition removeAllReferencesToImageID s imgID : dstate * outcome daemon_error unit :=
  untag_all s imgID (refStore_References (dm_referenceStore s.1) imgID).

(** ** Deletion *)

(** The references to the image, the image and its layers, with their records. *)
Definition drop_image s imgID : dstate * outcome daemon_error unit :=
  let! (s, _) := removeAllReferencesToImageID s imgID in
  let! (s, removedLayers) :=
    on_daemon s (λ d, call_images d (λ st, imageStore_Delete st imgID)) in
  let! (s, _) := on_daemon s (λ d, LogImageEvent d imgID imgID "delete") in
  let s := foldl add_record (add_record s (mkDeleted "" imgID))
             (map (λ l, mkDeleted "" (md_ChainID l)) removedLayers) in
  (s, Ok tt).

Fixpoint imageDeleteHelper (fuel : nat) s imgID (force prune quiet : bool) :
    dstate * outcome daemon_error unit :=
  match fuel with
  | O => (s, Diverge)
  | S fuel =>
      let c := if force then conflictHard else Z.lor conflictHard conflictSoft in
      match checkImageDeleteConflict s.1 imgID c with
      | Some conflict =>
          if quiet && (negb (imageIsDangling s.1 imgID) || idc_used conflict)
          then (s, Ok tt) else (s, Err (DeleteConflict conflict))
      | None =>
          let! (s, parent) :=
            on_daemon s (λ d, or_nil (call_images d (λ st, imageStore_GetParent st imgID))) in
          let! (s, _) := drop_image s imgID in
          let parent := default "" parent in
          if negb prune || bool_decide (parent = "") then (s, Ok tt)
          else imageDeleteHelper fuel s parent false true true
      end
  end.

(** The loop of [ImageDelete] that removes the digest references of the
    repository; the references that stay are collected.  The error comes with the
    records that are returned beside it. *)
Fixpoint clean_canonical s (parsedRef : Named) (repoRefs remainingRefs : list Named) :
    dstate * outcome (list ImageDeleted * daemon_error) (list Named) :=
  match repoRefs with
  | [] => (s, Ok remainingRefs)
  | repoRef :: repoRefs =>
      let r := if IsReferenceFullyQualified parsedRef then Ok parsedRef
               else SubstituteReferenceName parsedRef (Named_Name repoRef) in
      match r with
      | Err e => (s, Err ([], PlainError e))
      | Panic m => (s, Panic m)
      | Diverge => (s, Diverge)
      | Ok r =>
          if is_canonical repoRef && bool_decide (Named_Name r = Named_Name repoRef) then
            let! (s', _) := map_error (λ e, (s.2, e)) (on_daemon s (λ d, removeImageRef d repoRef)) in
            clean_canonical (add_record s' (mkDeleted (Named_String repoRef) "")) parsedRef
              repoRefs remainingRefs
          else clean_canonical s parsedRef repoRefs (remainingRefs ++ [repoRef])
      end
  end.

Abbreviation del_result A := (dstate * outcome (list ImageDeleted * daemon_error) A)%type.

(** Returns that drop the records, and the last one, which does not. *)
Definition no_records {A} (r : dstate * outcome daemon_error A) : del_result A :=
  map_error (λ e, ([], e)) r.
Definition with_records {A} (r : dstate * outcome daemon_error A) : del_result A :=
  map_error (λ e, (r.1.2, e)) r.

(** The branch for a repository reference; [Ok false] when references remain and
    the call is over. *)
Definition remove_reference s (imageRef imgID : string) (force : bool) : del_result bool :=
  let repoRefs := refStore_References (dm_referenceStore s.1) imgID in
  match (if negb force && isSingleReference repoRefs
         then getContainerUsingImage s.1 imgID else None) with
  | Some c =>
      (s, Err ([], RequestConflictError ("conflict: unable to remove repository reference " +:+
             Sprintf_q imageRef +:+ " (must force) - container " +:+ TruncateID (ct_ID c) +:+
             " is using its referenced image " +:+ TruncateID imgID)))
  | None =>
      match ParseNamed imageRef with
      | Err e => (s, Err ([], PlainError e))
      | Panic m => (s, Panic m)
      | Diverge => (s, Diverge)
      | Ok parsedRef =>
          let! (s, parsedRef) := no_records (on_daemon s (λ d, removeImageRef d parsedRef)) in
          let! (s, _) := no_records (on_daemon s (λ d, LogImageEvent d imgID imgID "untag")) in
          let s := add_record s (mkDeleted (Named_String parsedRef) "") in
          let repoRefs := refStore_References (dm_referenceStore s.1) imgID in
          let foundRepoTagRef :=
            existsb (λ repoRef, negb (is_canonical repoRef) &&
                       bool_decide (Named_Name parsedRef = Named_Name repoRef)) repoRefs in
          let! (s, repoRefs) :=
            (if negb (is_canonical parsedRef) && negb foundRepoTagRef
             then clean_canonical s parsedRef repoRefs []
             else (s, Ok repoRefs)) in
          (s, Ok (negb (non_empty repoRefs)))
      end
  end.

(** The branch for an identifier. *)
Definition remove_single s imgID (force : bool) : del_result unit :=
  let repoRefs := refStore_References (dm_referenceStore s.1) imgID in
  if isSingleReference repoRefs then
    let c := if force then conflictHard
             else Z.lor conflictHard (Z.ldiff conflictSoft conflictActiveReference) in
    match checkImageDeleteConflict s.1 imgID c with
    | Some conflict => (s, Err ([], DeleteConflict conflict))
    | None => no_records (untag_all s imgID repoRefs)
    end
  else (s, Ok tt).

(** The steps of [ImageDelete] once the image is known.  Every call of the helper
    but the last removes an image: one more than there are images is enough. *)
Definition delete_image s (imageRef imgID : string) (force prune : bool) : del_result unit :=
  let helper s quiet :=
    with_records (imageDeleteHelper (S (size (is_images (dm_imageStore s.1)))) s imgID
                    force prune quiet) in
  if negb (isImageIDPrefix imgID imageRef) then
    let! (s, go_on) := remove_reference s imageRef imgID force in
    if go_on : bool then helper s true else (s, Ok tt)
  else
    let! (s, _) := remove_single s imgID force in
    helper s false.

Definition ImageDelete d (imageRef : string) (force prune : bool) :
    Daemon * outcome (list ImageDeleted * daemon_error) (list ImageDeleted) :=
  let! (d, imgID) :=
    map_error (λ e, ([], imageNotExistToErrcode e)) (GetImageID d imageRef) in
  let '(s, r) := delete_image (d, []) imageRef imgID force prune in
  let! (d, _) := (s.1, r) in (d, Ok s.2).
End image_delete.
Arguments Daemon : clear implicits.
