(* ===== verification/ImageDeleteInv.v ===== *)
(** * Correctness of the deletion of images

    The daemon's stores together: which images, references and records a call of
    [ImageDelete] may remove, when it is refused, and that it always ends.  The
    image store is used through the interfaces of ImageInv and ImageFamily, the tag
    store through the invariant of RefInv. *)

From S2P Require Import Prelude GoStrings Layer ImageStore ImageInv ImageFamily.
From S2P Require Import RefStore RefInv Container ImageDelete.
Local Open Scope nat_scope.

(** Digests of docker/distribution: the empty string is none, and 64 hexadecimal
    characters make one. *)
Class DigestSyntax `{ImageExt} := {
  empty_invalid : ¬ valid_id "";
  hex_valid s : ValidateID s = true → valid_id ("sha256:" +:+ s)
}.

Section image_delete_inv.
Context {F L DS Tar Desc : Type}.
Context {be : StoreBackend F} {lg : LayerGetReleaser L} {dset : DigestSet DS}.
Context {ext : LayerExt Tar Desc} {iext : ImageExt} {rext : RefExt}.
Context {holder : LayerHolder L} {dlaws : DigestSetLaws DS} {bsafe : BackendSafe F}.
Context {rel : ReliableBackend F} {rlaws : RefLaws}.
Context {dsyn : DigestSyntax}.

Abbreviation daemon := (Daemon F L DS).
Abbreviation dstate := (daemon * list ImageDeleted)%type.
Implicit Types (d : daemon) (s : dstate) (imgID id : string) (r ref : Named).

Abbreviation images_of d := (is_images (dm_imageStore d)).
Abbreviation parent_of d := (rb_parent (is_fs (dm_imageStore d))).
Abbreviation bound_to d := (ref_lookup (dm_referenceStore d)).

(** The invariants of the two stores; references have normal names and are bound
    to digests. *)
Record daemon_inv d : Prop := {
  di_images : image_inv (dm_imageStore d);
  di_family : family_inv (dm_imageStore d);
  di_refs : ref_inv (dm_referenceStore d);
  di_bound r id : storable r → bound_to d r = Some id → normal_ref r ∧ valid_id id
}.

(** ** Parsing *)

Lemma WithName_Ok n r : WithName n = Ok r → ∃ n', r = namedRef n' ∧ dist_WithName n' = None.
Proof.
  unfold WithName. destruct (normalize n) as [n'| | |]; simpl; [|done..].
  destruct (validateName n'); simpl; [|done..].
  destruct (dist_WithName n') eqn:Hn; [done|]. intros [= <-]. eauto.
Qed.

Lemma ParseNamed_valid str r : ParseNamed str = Ok r → valid_ref r.
Proof.
  unfold ParseNamed. destruct (dist_ParseNamed str) as [|[[n t] dg]]; [done|].
  destruct (WithName n) as [r0| | |] eqn:Hn; simpl; [|done..].
  apply WithName_Ok in Hn as (n' & -> & Hn').
  unfold WithDigest, WithTag. repeat case_match; intros; simplify_eq/=; done.
Qed.

Lemma WithName_no_crash n : no_crash (WithName n).
Proof.
  unfold WithName, normalize, validateName, no_crash.
  destruct (splitHostname n) as [h rn]. repeat (case_match; simplify_eq/=); naive_solver.
Qed.

Lemma WithTag_no_crash r t : no_crash (WithTag r t).
Proof. unfold WithTag, no_crash. case_match; naive_solver. Qed.

Lemma WithDigest_no_crash r t : no_crash (WithDigest r t).
Proof. unfold WithDigest, no_crash. case_match; naive_solver. Qed.

Lemma obind_no_crash {A B} (o : outcome string A) (k : A → outcome string B) :
  no_crash o → (∀ a, o = Ok a → no_crash (k a)) → no_crash (obind o k).
Proof. intros [H1 H2] Hk. destruct o; simpl; unfold no_crash in *; naive_solver. Qed.

Lemma Substitute_no_crash r n : no_crash (SubstituteReferenceName r n).
Proof.
  unfold SubstituteReferenceName. apply obind_no_crash; [apply WithName_no_crash|].
  intros r' _. destruct r; [by split|apply WithTag_no_crash|apply WithDigest_no_crash].
Qed.

Lemma ParseNamed_no_crash str : no_crash (ParseNamed str).
Proof.
  unfold ParseNamed. destruct (dist_ParseNamed str) as [|[[n t] dg]]; [by split|].
  apply obind_no_crash; [apply WithName_no_crash|]. intros r _.
  repeat case_match; [apply WithDigest_no_crash|apply WithTag_no_crash|by split].
Qed.

(** ** Finding *)

Lemma or_nil_images {A} d (f : imageStore F L DS → imageStore F L DS * outcome string A) x :
  or_none (f (dm_imageStore d)) = (dm_imageStore d, Ok x) →
  or_nil (call_images d f) = (d, Ok x).
Proof.
  unfold call_images. destruct (f _) as [st []]; simpl; intros; simplify_eq;
    by destruct d.
Qed.

Lemma Get_nil d id :
  daemon_inv d → valid_id id →
  ∃ img, or_nil (call_images d (λ st, imageStore_Get st id)) = (d, Ok img).
Proof.
  intros Hd Hid. eexists. apply or_nil_images.
  apply Get_reliable; [apply (di_family _ Hd)|done].
Qed.

Lemma Search_valid d t id :
  daemon_inv d → imageStore_Search (dm_imageStore d) t = Ok id →
  is_Some (images_of d !! id).
Proof.
  intros Hd. unfold imageStore_Search. destruct (ds_Lookup _ t) as [e|x] eqn:Hl; [by destruct e|].
  intros [= <-]. apply ds_Lookup_elem in Hl. rewrite (ii_digests _ (di_images _ Hd)) in Hl.
  by apply elem_of_dom in Hl.
Qed.

Lemma image_valid d id : daemon_inv d → is_Some (images_of d !! id) → valid_id id.
Proof. intros Hd [m Hm]. exact (proj1 (ii_valid _ (di_images _ Hd) id m Hm)). Qed.

Lemma search_tag_valid d r id : daemon_inv d → search_tag d r = Some id → valid_id id.
Proof.
  intros Hd. unfold search_tag. destruct r; [done| |done].
  destruct (imageStore_Search _ _) eqn:Hs; [|done..]. case_decide; [|done].
  intros [= <-]. eapply image_valid; [done|]. by eapply Search_valid.
Qed.

Lemma refStore_Get_spec st ref :
  ref_inv st → valid_ref ref →
  match refStore_Get st ref with
  | Ok id => ∃ r, storable r ∧ ref_lookup st r = Some id
  | Err _ => True
  | _ => False
  end.
Proof.
  intros Hinv Href. pose proof (refStore_Delete_spec st ref Hinv Href) as H.
  destruct (refStore_Get st ref); [|done..]. destruct H as (_ & _ & r & _ & ? & ? & _). eauto.
Qed.

(** [GetImageID] only reads, and returns a digest. *)
Lemma GetImageID_spec d str :
  daemon_inv d →
  ∃ o, GetImageID d str = (d, o) ∧ no_crash o ∧ ∀ id, o = Ok id → valid_id id.
Proof.
  intros Hd. unfold GetImageID, ParseIDOrReference.
  set (str' := if ValidateID str then _ else _).
  destruct (digest_Validate str') as [e|] eqn:Hv.
  - pose proof (ParseNamed_no_crash str') as [Hp1 Hp2].
    destruct (ParseNamed str') as [ref|e'|m|] eqn:Hp;
      [|by eexists; split_and!|by destruct (Hp1 m)|done].
    cbn [obind]. rewrite decide_False by (intros H; by apply H).
    pose proof (refStore_Get_spec (dm_referenceStore d) ref (di_refs _ Hd)
      (ParseNamed_valid _ _ Hp)) as Hg.
    destruct (refStore_Get _ ref) as [id| | |]; [| |done..].
    + destruct Hg as (r & Hr & Hb). eexists. split_and!; [done|by split|].
      intros ? [= <-]. by apply (di_bound _ Hd r id Hr Hb).
    + destruct (search_tag d ref) as [id|] eqn:Ht.
      { eexists. split_and!; [done|by split|]. intros ? [= <-]. by eapply search_tag_valid. }
      destruct (imageStore_Search _ str) as [id| | |] eqn:Hs;
        (eexists; split_and!; [done|by split|]); intros ? [= <-].
      eapply image_valid; [done|]. by eapply Search_valid.
  - rewrite decide_True by (intros ->; by apply empty_invalid).
    destruct (Get_nil d str' Hd Hv) as [img ->]. cbn [and_then].
    destruct img; (eexists; split_and!; [done|by split|]); by intros ? [= <-].
Qed.

Lemma LogImageEvent_spec d id name action :
  daemon_inv d → ∃ e, LogImageEvent d id name action = (with_event d e, Ok tt).
Proof.
  intros Hd. unfold LogImageEvent, GetImage.
  destruct (GetImageID_spec d id Hd) as (o & -> & [Ho1 Ho2] & Hv).
  destruct o as [i|e|m|]; cbn [and_then];
    [|by eexists|by destruct (Ho1 m)|done].
  destruct (Get_nil d i Hd) as [img ->]; [by apply Hv|]. by eexists.
Qed.

Lemma with_event_inv d e : daemon_inv d → daemon_inv (with_event d e).
Proof. by intros []. Qed.

(** ** Removing references *)

(** From [d] to [d'], only references to [imgID] went, and events were added. *)
Record untagged imgID d d' : Prop := {
  ut_inv : daemon_inv d';
  ut_images : dm_imageStore d' = dm_imageStore d;
  ut_containers : dm_containers d' = dm_containers d;
  ut_refs r : storable r →
    bound_to d' r = bound_to d r ∨ bound_to d r = Some imgID ∧ bound_to d' r = None
}.

Lemma untagged_refl imgID d : daemon_inv d → untagged imgID d d.
Proof. intros Hd. split; auto. Qed.

Lemma untagged_trans imgID d1 d2 d3 :
  untagged imgID d1 d2 → untagged imgID d2 d3 → untagged imgID d1 d3.
Proof.
  intros [? Hi1 Hc1 Hr1] [? Hi2 Hc2 Hr2]. split; [done|congruence..|].
  intros r Hr. destruct (Hr1 r Hr) as [H1|[? H1]], (Hr2 r Hr) as [H2|[? H2]];
    rewrite H1 in *; rewrite ?H2; auto.
Qed.

Lemma untagged_event imgID d e : daemon_inv d → untagged imgID d (with_event d e).
Proof. intros Hd. split; [by apply with_event_inv|done..|]. by left. Qed.

(** A reference that stays, or was not there. *)
Lemma untagged_None imgID d d' r :
  untagged imgID d d' → storable r → bound_to d r = None → bound_to d' r = None.
Proof. intros Hu Hr Hn. destruct (ut_refs _ _ _ Hu r Hr) as [->|[_ ?]]; done. Qed.

Lemma unbound_untagged d st' r id :
  daemon_inv d → storable r → bound_to d r = Some id →
  unbound (dm_referenceStore d) r st' → untagged id d (with_referenceStore d st').
Proof.
  intros Hd Hr Hb (Hinv & _ & Hl).
  assert (∀ r', storable r' → bound_to (with_referenceStore d st') r' =
    if decide (r' = r) then None else bound_to d r') as Hl' by done.
  split; [|done..|].
  - split; [apply Hd|apply Hd|done|]. intros r' i Hr'. rewrite Hl' by done.
    case_decide; [done|]. by apply Hd.
  - intros r' Hr'. rewrite Hl' by done. case_decide; [right; by subst|by left].
Qed.

(** The end of a removal, given whether saving failed. *)
Definition removal_end ref (e : option ref_error) : outcome daemon_error Named :=
  match e with None => Ok ref | Some e => Err (RefStoreError e) end.

Lemma tag_default_idem ref : valid_ref ref → tag_default (tag_default ref) = tag_default ref.
Proof. by destruct ref. Qed.

Lemma storable_valid r : storable r → valid_ref r.
Proof. by destruct r. Qed.

Lemma Get_tag_default st ref :
  valid_ref ref → refStore_Get st (tag_default ref) = refStore_Get st ref.
Proof.
  intros Href. destruct (WithDefaultTag_valid ref Href) as [H1 H2]. unfold refStore_Get.
  by rewrite H1, (WithDefaultTag_storable _ H2).
Qed.

(** What [removeImageRef] removes is bound to the image that [Get] finds. *)
Lemma removeImageRef_spec d ref :
  daemon_inv d → valid_ref ref →
  match refStore_Get (dm_referenceStore d) ref with
  | Ok id => ∃ r st' e, storable r ∧ bound_to d r = Some id ∧
      removeImageRef d ref = (with_referenceStore d st', removal_end (tag_default ref) e) ∧
      unbound (dm_referenceStore d) r st' ∧ stands_for (dm_referenceStore d) ref r ∧
      (normal_ref ref → is_Some (bound_to d (tag_default ref)) → r = tag_default ref)
  | _ => removeImageRef d ref = (d, Err (RefStoreError ErrDoesNotExist))
  end.
Proof.
  intros Hd Href. destruct (WithDefaultTag_valid ref Href) as [Hw Hst].
  pose proof (refStore_Delete_spec _ _ (di_refs _ Hd) (storable_valid _ Hst)) as H.
  rewrite Get_tag_default in H by done. unfold removeImageRef. rewrite Hw.
  destruct (refStore_Get _ ref) as [id|e|m|]; [| |done..].
  - destruct H as (st' & e & r & -> & Hr & Hb & Hu & _ & Hsf & Hn). exists r, st', e.
    split_and!; [done..|by destruct e|done| |].
    { unfold stands_for in *. by rewrite (tag_default_idem ref Href) in Hsf. }
    intros Hnr Hs. rewrite <- (tag_default_idem ref Href).
    apply Hn; [by apply tag_default_normal|by rewrite tag_default_idem].
  - destruct H as [_ ->]. by destruct d.
Qed.

(** A reference that the store holds under a normal name. *)
Lemma removeImageRef_bound d r id :
  daemon_inv d → storable r → bound_to d r = Some id →
  ∃ st' e, removeImageRef d r = (with_referenceStore d st', removal_end r e) ∧
    untagged id d (with_referenceStore d st') ∧
    bound_to (with_referenceStore d st') r = None ∧
    ∀ r', storable r' → r' ≠ r → bound_to (with_referenceStore d st') r' = bound_to d r'.
Proof.
  intros Hd Hr Hb. destruct (di_bound _ Hd r id Hr Hb) as [Hn _].
  assert (tag_default r = r) as Hdef by (by destruct r).
  pose proof (removeImageRef_spec d r Hd (storable_valid _ Hr)) as H.
  unfold refStore_Get in H. rewrite WithDefaultTag_storable in H by done.
  rewrite (first_match_self _ r id) in H by done.
  destruct H as (r' & st' & e & Hr' & Hb' & Hrem & Hu & _ & Hsame). rewrite Hdef in *.
  rewrite Hsame in Hu by (done || by eexists). exists st', e.
  split_and!; [done|by apply (unbound_untagged d st' r id)|..].
  - destruct Hu as (_ & _ & Hl). transitivity (ref_lookup st' r); [done|].
    rewrite Hl by done. by rewrite decide_True.
  - intros r'' Hr'' Hne. destruct Hu as (_ & _ & Hl). transitivity (ref_lookup st' r''); [done|].
    rewrite Hl by done. by rewrite decide_False.
Qed.

Definition untag_record r : ImageDeleted := mkDeleted (Named_String r) "".

Lemma untag_all_spec s imgID refs :
  daemon_inv s.1 → NoDup refs →
  (∀ r, r ∈ refs → storable r ∧ bound_to s.1 r = Some imgID) →
  safe (untag_all s imgID refs)
    (λ s' _, untagged imgID s.1 s'.1 ∧ s'.2 = s.2 ++ map untag_record refs ∧
       ∀ r, r ∈ refs → bound_to s'.1 r = None)
    (λ s' e, untagged imgID s.1 s'.1 ∧ ∃ e', e = RefStoreError e').
Proof.
  revert s. induction refs as [|r refs IH]; intros s Hd Hnd Hrefs.
  { simpl. split_and!; [by apply untagged_refl|by rewrite app_nil_r|set_solver]. }
  apply NoDup_cons in Hnd as [Hni Hnd]. destruct (Hrefs r) as [Hr Hb]; [by left|].
  cbn [untag_all]. unfold on_daemon at 1.
  destruct (removeImageRef_bound s.1 r imgID Hd Hr Hb) as (st' & e & -> & Hu & Hgone & Hkeep).
  destruct e as [e|]; cbn [removal_end and_then]; [simpl; by eauto|]. unfold on_daemon. cbn [fst snd].
  destruct (LogImageEvent_spec _ imgID imgID "untag" (ut_inv _ _ _ Hu)) as [ev ->].
  cbn [and_then]. set (s1 := add_record _ _).
  assert (untagged imgID s.1 s1.1) as Hu1
    by (eapply untagged_trans; [done|apply untagged_event, (ut_inv _ _ _ Hu)]).
  eapply safe_mono; [apply (IH s1); [apply (ut_inv _ _ _ Hu1)|done|]|..].
  - intros r' Hr'. destruct (Hrefs r') as [Hs' Hb']; [by right|]. split; [done|].
    transitivity (bound_to s.1 r'); [|done]. apply Hkeep; [done|]. by intros ->.
  - intros s' _ (Hu' & Hrec & Hn). split_and!; [by eapply untagged_trans| |].
    + rewrite Hrec. simpl. by rewrite <- app_assoc.
    + intros r' [->|Hin]%elem_of_cons; [|by apply Hn]. by eapply (untagged_None imgID s1.1).
  - intros s' e' [Hu' He]. split; [by eapply untagged_trans|done].
Qed.

(** Nothing is bound to [id]. *)
Definition unreferenced d id : Prop := ∀ r, storable r → bound_to d r ≠ Some id.

Lemma References_nil d id :
  daemon_inv d → refStore_References (dm_referenceStore d) id = [] ↔ unreferenced d id.
Proof.
  intros Hd. destruct (References_spec _ id (di_refs _ Hd)) as (_ & _ & Hin). split.
  - intros Hnil r Hr Hb. pose proof (proj2 (Hin r) (conj Hr Hb)) as Hr'.
    rewrite Hnil in Hr'. by apply not_elem_of_nil in Hr'.
  - intros Hno. destruct (refStore_References _ id) as [|r l]; [done|].
    destruct (proj1 (Hin r)) as [Hr Hb]; [by left|]. by destruct (Hno r Hr).
Qed.

Lemma removeAll_spec s imgID :
  daemon_inv s.1 →
  safe (removeAllReferencesToImageID s imgID)
    (λ s' _, untagged imgID s.1 s'.1 ∧ unreferenced s'.1 imgID ∧ ∃ l, s'.2 = s.2 ++ l)
    (λ s' e, untagged imgID s.1 s'.1 ∧ ∃ e', e = RefStoreError e').
Proof.
  intros Hd. unfold removeAllReferencesToImageID.
  destruct (References_spec _ imgID (di_refs _ Hd)) as (_ & Hnd & Hin).
  eapply safe_mono; [apply untag_all_spec; [done..|]| |done].
  - intros r. apply Hin.
  - intros s' _ (Hu & Hrec & Hn). split_and!; [done| |by eauto]. intros r Hr Hb.
    destruct (ut_refs _ _ _ Hu r Hr) as [He|[_ ?]]; [|congruence].
    rewrite (Hn r) in Hb; [done|]. apply Hin. split; congruence.
Qed.

(** ** Conflicts *)

Definition has_child d id : Prop := imageStore_children (dm_imageStore d) id ≠ [].
Definition used_by d id (running : bool) : Prop :=
  ∃ k c, dm_containers d !! k = Some c ∧ cs_Running (ct_State c) = running ∧ ct_ImageID c = id.

(** What [c] reports is there, and asked for by [mask]. *)
Definition conflict_real d id (mask : Z) (c : imageDeleteConflict) : Prop :=
  idc_imgID c = id ∧
  match idc_hard c, idc_used c with
  | true, false => has_conflict mask conflictDependentChild = true ∧ has_child d id
  | true, true => has_conflict mask conflictRunningContainer = true ∧ used_by d id true
  | false, false => has_conflict mask conflictActiveReference = true ∧ ¬ unreferenced d id
  | false, true => has_conflict mask conflictStoppedContainer = true ∧ used_by d id false
  end.

(** Nothing that [mask] asks for is there. *)
Definition conflict_free d id (mask : Z) : Prop :=
  (has_conflict mask conflictDependentChild = true → ¬ has_child d id) ∧
  (has_conflict mask conflictRunningContainer = true → ¬ used_by d id true) ∧
  (has_conflict mask conflictActiveReference = true → unreferenced d id) ∧
  (has_conflict mask conflictStoppedContainer = true → ¬ used_by d id false).

Lemma First_spec (m : gmap string container) f :
  match memoryStore_First m f with
  | Some c => ∃ k, m !! k = Some c ∧ f c = true
  | None => ∀ k c, m !! k = Some c → f c = false
  end.
Proof.
  unfold memoryStore_First. pose proof (first_such_spec f (memoryStore_all m)) as H.
  destruct (first_such f _).
  - destruct H as [[k Hk]%elem_of_all Hf]. by eauto.
  - intros k c Hk. apply H, elem_of_all. eauto.
Qed.

Lemma First_running d id :
  match memoryStore_First (dm_containers d) (runs_image id) with
  | Some _ => used_by d id true
  | None => ¬ used_by d id true
  end.
Proof.
  pose proof (First_spec (dm_containers d) (runs_image id)) as H.
  destruct (memoryStore_First _ _) as [c|].
  - destruct H as (k & Hk & [? ?%bool_decide_eq_true]%andb_true_iff). by exists k, c.
  - intros (k & c & Hk & Hr & Hi). specialize (H k c Hk). unfold runs_image in H.
    by rewrite Hr, bool_decide_eq_true_2 in H.
Qed.

Lemma First_stopped d id :
  match memoryStore_First (dm_containers d) (stopped_on_image id) with
  | Some _ => used_by d id false
  | None => ¬ used_by d id false
  end.
Proof.
  pose proof (First_spec (dm_containers d) (stopped_on_image id)) as H.
  destruct (memoryStore_First _ _) as [c|].
  - destruct H as (k & Hk & [?%negb_true_iff ?%bool_decide_eq_true]%andb_true_iff). by exists k, c.
  - intros (k & c & Hk & Hr & Hi). specialize (H k c Hk). unfold stopped_on_image in H.
    by rewrite Hr, bool_decide_eq_true_2 in H.
Qed.

Lemma getContainerUsingImage_spec d id :
  match getContainerUsingImage d id with
  | Some _ => ∃ b, used_by d id b
  | None => ∀ b, ¬ used_by d id b
  end.
Proof.
  unfold getContainerUsingImage. pose proof (First_spec (dm_containers d)
    (λ c, bool_decide (ct_ImageID c = id))) as H. destruct (memoryStore_First _ _) as [c|].
  - destruct H as (k & Hk & ?%bool_decide_eq_true). by exists (cs_Running (ct_State c)), k, c.
  - intros b (k & c & Hk & _ & Hi). specialize (H k c Hk). by rewrite bool_decide_eq_true_2 in H.
Qed.

Lemma non_empty_spec {A} (l : list A) : non_empty l = true ↔ l ≠ [].
Proof. unfold non_empty. rewrite bool_decide_eq_true. destruct l; simpl; split; (done || lia). Qed.

Lemma non_empty_false {A} (l : list A) : non_empty l = false ↔ l = [].
Proof. unfold non_empty. rewrite bool_decide_eq_false. destruct l; simpl; split; (done || lia). Qed.

Lemma check_spec d id mask :
  daemon_inv d →
  match checkImageDeleteConflict d id mask with
  | Some c => conflict_real d id mask c
  | None => conflict_free d id mask
  end.
Proof.
  intros Hd. unfold checkImageDeleteConflict, conflict_free.
  destruct (has_conflict mask conflictDependentChild) eqn:Hm1;
    [destruct (non_empty (imageStore_children _ id)) eqn:Hc|]; cbn [andb].
  { split; [done|]. simpl. split; [done|]. by apply non_empty_spec. }
  1: apply non_empty_false in Hc.
  all: pose proof (First_running d id) as Hrun; pose proof (First_stopped d id) as Hstop.
  all: pose proof (References_nil d id Hd) as Href.
  all: destruct (has_conflict mask conflictRunningContainer) eqn:Hm2;
    [destruct (memoryStore_First _ (runs_image id)); [by split|]|].
  all: destruct (has_conflict mask conflictActiveReference) eqn:Hm3;
    [destruct (non_empty (refStore_References _ id)) eqn:Hr; cbn [andb];
       [apply non_empty_spec in Hr; split; [done|]; simpl; split; [done|]; by rewrite <- Href
       |apply non_empty_false in Hr; rewrite Href in Hr]|cbn [andb]].
  all: destruct (has_conflict mask conflictStoppedContainer) eqn:Hm4;
    [destruct (memoryStore_First _ (stopped_on_image id)); cbn [fmap option_fmap option_map];
     [by split|]|].
  all: split_and!; try done; intros _ Hch; by apply Hch.
Qed.

Definition delete_mask (force : bool) : Z :=
  if force then conflictHard else Z.lor conflictHard conflictSoft.

Lemma conflict_free_delete d id force :
  conflict_free d id (delete_mask force) →
  ¬ has_child d id ∧ ¬ used_by d id true ∧
  (force = false → unreferenced d id ∧ ¬ used_by d id false).
Proof. intros (H1 & H2 & H3 & H4). destruct force; split_and!; (done || auto). Qed.

(** Every conflict is one that the quiet mode keeps silent about. *)
Lemma conflict_quiet d id mask c :
  daemon_inv d → conflict_real d id mask c →
  negb (imageIsDangling d id) || idc_used c = true.
Proof.
  intros Hd [_ Hreal]. unfold imageIsDangling. destruct (idc_used c); [by rewrite orb_true_r|].
  rewrite negb_involutive, orb_false_r. apply orb_true_iff. rewrite !non_empty_spec.
  rewrite (References_nil d id Hd). destruct (idc_hard c); [right|left]; apply Hreal.
Qed.

(** ** Deletions *)

Definition removed d d' id : Prop := is_Some (images_of d !! id) ∧ images_of d' !! id = None.

(** [d'] is [d] after some images were deleted, [imgID] and ancestors of it: what
    goes is used by no running container, by no container at all unless it is
    [imgID] and [force] was given, it has no children left and no references; only
    references to [imgID] go. *)
Record deletion imgID (force : bool) d d' : Prop := {
  dl_inv : daemon_inv d';
  dl_containers : dm_containers d' = dm_containers d;
  dl_kept id : is_Some (images_of d' !! id) → is_Some (images_of d !! id);
  dl_refs r : storable r →
    bound_to d' r = bound_to d r ∨ bound_to d r = Some imgID ∧ bound_to d' r = None;
  dl_running id : removed d d' id → ¬ used_by d id true;
  dl_stopped id : removed d d' id → force = false ∨ id ≠ imgID → ¬ used_by d id false;
  dl_unreferenced id : removed d d' id → unreferenced d' id;
  dl_children id c : removed d d' id → parent_of d c = Some id → removed d d' c;
  dl_chain id : removed d d' id → rtc (λ c p, parent_of d c = Some p) imgID id
}.

Lemma not_removed_same d d' id : images_of d' = images_of d → ¬ removed d d' id.
Proof. unfold removed. intros -> [[m Hm] Hn]. congruence. Qed.

Lemma untagged_deletion imgID force d d' : untagged imgID d d' → deletion imgID force d d'.
Proof.
  intros [Hinv Him Hc Hr].
  assert (∀ id, ¬ removed d d' id) as Hno by (intros id; apply not_removed_same; by rewrite Him).
  split; try done; [by rewrite Him|intros; by edestruct Hno..].
Qed.

Lemma unreferenced_untagged imgID d d' id :
  (∀ r, storable r →
    bound_to d' r = bound_to d r ∨ bound_to d r = Some imgID ∧ bound_to d' r = None) →
  unreferenced d id → unreferenced d' id.
Proof. intros Hr Hu r Hs. destruct (Hr r Hs) as [->|[_ ->]]; [by apply Hu|done]. Qed.

(** One image dropped from the store. *)
Record dropped imgID d d' : Prop := {
  dr_inv : daemon_inv d';
  dr_containers : dm_containers d' = dm_containers d;
  dr_images i : is_Some (images_of d' !! i) ↔ i ≠ imgID ∧ is_Some (images_of d !! i);
  dr_refs r : storable r →
    bound_to d' r = bound_to d r ∨ bound_to d r = Some imgID ∧ bound_to d' r = None;
  dr_parent i : parent_of d' i = if decide (i = imgID) then None else parent_of d i
}.

Lemma dropped_deletion imgID p force d d1 d' :
  conflict_free d imgID (delete_mask force) → dropped imgID d d1 → unreferenced d1 imgID →
  is_Some (images_of d !! imgID) → daemon_inv d →
  deletion p false d1 d' → (∀ r, storable r → bound_to d' r = bound_to d1 r) →
  (∀ id, removed d1 d' id → parent_of d imgID = Some p) →
  deletion imgID force d d'.
Proof.
  intros (Hch & Hrun & Hsoft)%conflict_free_delete Hdr Hun Himg Hd Hdel Hrefs Hp.
  assert (∀ id, removed d d' id ↔ id = imgID ∨ id ≠ imgID ∧ removed d1 d' id) as Hrem.
  { intros id. unfold removed. rewrite (dr_images _ _ _ Hdr). split.
    - intros [Hs Hn]. destruct (decide (id = imgID)); [by left|by right].
    - intros [->|(Hne & [_ Hs] & Hn)]; [|done]. split; [done|].
      destruct (images_of d' !! imgID) eqn:He; [|done].
      destruct (proj1 (dr_images _ _ _ Hdr imgID)) as [[] _]; [|done].
      apply (dl_kept _ _ _ _ Hdel). by rewrite He. }
  assert (∀ id b, used_by d1 id b ↔ used_by d id b) as Huse
    by (intros; unfold used_by; by rewrite (dr_containers _ _ _ Hdr)).
  assert (unreferenced d' imgID) as Hun' by (by eapply unreferenced_untagged, Hun; apply Hdel).
  split.
  - apply Hdel.
  - by rewrite (dl_containers _ _ _ _ Hdel), (dr_containers _ _ _ Hdr).
  - intros id Hs%(dl_kept _ _ _ _ Hdel). by apply (dr_images _ _ _ Hdr) in Hs as [_ ?].
  - intros r Hr. rewrite (Hrefs r Hr). by apply (dr_refs _ _ _ Hdr).
  - intros id [->|[_ Hr]]%Hrem; [done|]. rewrite <- Huse. by apply (dl_running _ _ _ _ Hdel).
  - intros id [->|[Hne Hr]]%Hrem Hf; [|rewrite <- Huse; apply (dl_stopped _ _ _ _ Hdel); auto].
    destruct Hf as [Hf|]; [|done]. by apply Hsoft.
  - intros id [->|[_ Hr]]%Hrem; [done|]. by apply (dl_unreferenced _ _ _ _ Hdel).
  - intros id c [->|[Hne Hr]]%Hrem Hc.
    + exfalso. apply Hch. intros Hnil.
      apply (children_spec _ _ _ (di_family _ Hd) Himg) in Hc. rewrite Hnil in Hc.
      by apply not_elem_of_nil in Hc.
    + apply Hrem. destruct (decide (c = imgID)); [by left|right]. split; [done|].
      apply (dl_children _ _ _ _ Hdel id c Hr). by rewrite (dr_parent _ _ _ Hdr), decide_False.
  - intros id [->|[Hne Hr]]%Hrem; [apply rtc_refl|]. eapply rtc_l; [by eapply Hp|].
    eapply rtc_subrel; [|by apply (dl_chain _ _ _ _ Hdel)]. simpl. intros x y.
    rewrite (dr_parent _ _ _ Hdr). by case_decide.
Qed.

Lemma no_child_empty d id m :
  images_of d !! id = Some m → ¬ has_child d id → im_children m = ∅.
Proof.
  intros Hm Hch. unfold has_child, imageStore_children in Hch. rewrite Hm in Hch.
  apply dec_stable in Hch. by apply elements_empty_inv, leibniz_equiv in Hch.
Qed.

Lemma Delete_dropped d imgID :
  daemon_inv d → ¬ has_child d imgID → is_Some (images_of d !! imgID) →
  let post d' := dropped imgID d d' ∧ dm_referenceStore d' = dm_referenceStore d in
  safe (call_images d (λ st, imageStore_Delete st imgID))
    (λ d' _, post d') (λ d' e, post d' ∧ ∃ e', e = PlainError e').
Proof.
  intros Hd Hch [m Hm]. unfold call_images.
  pose proof (imageStore_Delete_safe _ _ _ (di_images _ Hd) Hm) as Hsafe.
  pose proof (Delete_effect _ _ _ (di_images _ Hd) (di_family _ Hd) Hm) as Heff.
  pose proof (family_Delete _ imgID (di_images _ Hd) (di_family _ Hd)) as Hfam.
  assert (im_children m = ∅) as Hnone by (by eapply no_child_empty). cbn zeta.
  assert (∀ st', deleted imgID (dm_imageStore d) st' →
    st' = (imageStore_Delete (dm_imageStore d) imgID).1 →
    dropped imgID d (with_imageStore d st') ∧
    dm_referenceStore (with_imageStore d st') = dm_referenceStore d) as Hpost.
  { intros st' Hdel ->. split; [|done].
    destruct Heff as (_ & _ & Hp & Himg & Hkeep). destruct Hdel as (Hinv & Hgone & _). split.
    - split; [done..|apply Hd|]. apply (di_bound _ Hd).
    - done.
    - intros i. split.
      + intros [m' Hm']. destruct (Himg i m' Hm') as (Hne & m0 & Hm0 & _).
        split; [done|by eexists].
      + intros [Hne Hs]. by apply Hkeep.
    - by left.
    - intros i. simpl. rewrite Hp, Hnone. case_decide; [done|].
      by rewrite decide_False by (apply not_elem_of_empty). }
  destruct (imageStore_Delete _ imgID) as [st' [a|e|msg|]]; cbn -[with_imageStore] in *;
    [by apply Hpost|split; [by apply Hpost|by eexists]|done..].
Qed.

Lemma untagged_dropped imgID d d1 d2 :
  untagged imgID d d1 → dropped imgID d1 d2 →
  dm_referenceStore d2 = dm_referenceStore d1 → dropped imgID d d2.
Proof.
  intros Hu Hdr Href. split.
  - apply Hdr.
  - by rewrite (dr_containers _ _ _ Hdr), (ut_containers _ _ _ Hu).
  - intros i. rewrite (dr_images _ _ _ Hdr). by rewrite (ut_images _ _ _ Hu).
  - rewrite Href. apply Hu.
  - intros i. rewrite (dr_parent _ _ _ Hdr). by rewrite (ut_images _ _ _ Hu).
Qed.

Lemma dropped_event imgID d d' e : dropped imgID d d' → dropped imgID d (with_event d' e).
Proof. intros []. split; [by apply with_event_inv|done..]. Qed.

Lemma dropped_size imgID d d' :
  dropped imgID d d' → is_Some (images_of d !! imgID) →
  size (images_of d') < size (images_of d).
Proof.
  intros Hdr Himg. rewrite <- !size_dom. apply subset_size. split.
  - intros i. rewrite !elem_of_dom, (dr_images _ _ _ Hdr). by intros [_ ?].
  - intros Hsub. specialize (Hsub imgID). rewrite !elem_of_dom, (dr_images _ _ _ Hdr) in Hsub.
    by destruct Hsub.
Qed.

Lemma foldl_add_record s (l : list ImageDeleted) : foldl add_record s l = (s.1, s.2 ++ l).
Proof.
  revert s. induction l as [|x l IH]; intros s; simpl; [by rewrite app_nil_r; destruct s|].
  rewrite IH. simpl. by rewrite <- app_assoc.
Qed.

(** ** The helper *)

Definition same_refs d d' : Prop := ∀ r, storable r → bound_to d' r = bound_to d r.

(** The image is gone, with its references. *)
Definition gone d imgID : Prop := images_of d !! imgID = None ∧ unreferenced d imgID.

(** The records only grow, and name every image that went. *)
Definition recorded s s' : Prop :=
  (∃ l, s'.2 = s.2 ++ l) ∧ ∀ id, removed s.1 s'.1 id → mkDeleted "" id ∈ s'.2.

Definition helper_Ok imgID (force quiet : bool) s s' : Prop :=
  recorded s s' ∧
  (gone s'.1 imgID ∨
   quiet = true ∧ s' = s ∧ ∃ c, conflict_real s.1 imgID (delete_mask force) c).

Definition no_conflict (e : daemon_error) : Prop :=
  (∀ c, e ≠ DeleteConflict c) ∧ ∀ m, e ≠ RequestConflictError m.

Definition helper_Err imgID (force quiet : bool) s s' (e : daemon_error) : Prop :=
  no_conflict e ∨
  ∃ c, e = DeleteConflict c ∧ quiet = false ∧ s' = s ∧
    conflict_real s.1 imgID (delete_mask force) c.

Definition helper_state imgID (force : bool) s s' : Prop :=
  deletion imgID force s.1 s'.1 ∧ (force = false → same_refs s.1 s'.1).

Lemma helper_refl imgID force s : daemon_inv s.1 → helper_state imgID force s s.
Proof. intros Hd. split; [|done]. by apply untagged_deletion, untagged_refl. Qed.

Lemma GetParent_nil d imgID :
  daemon_inv d → valid_id imgID →
  or_nil (call_images d (λ st, imageStore_GetParent st imgID)) = (d, Ok (parent_of d imgID)).
Proof.
  intros Hd Hid. apply or_nil_images. apply GetParent_reliable; [apply (di_family _ Hd)|done].
Qed.

Lemma same_refs_untagged imgID d d' :
  (∀ r, storable r →
    bound_to d' r = bound_to d r ∨ bound_to d r = Some imgID ∧ bound_to d' r = None) →
  unreferenced d imgID → same_refs d d'.
Proof. intros Hr Hu r Hs. destruct (Hr r Hs) as [|[Hb _]]; [done|]. by destruct (Hu r Hs). Qed.

Lemma recorded_refl s : recorded s s.
Proof.
  split; [exists []; by rewrite app_nil_r|]. intros id []%not_removed_same. done.
Qed.

(** An image was dropped, then [p] pruned: the whole. *)
Lemma prune_state imgID p force s s1 s' :
  daemon_inv s.1 → conflict_free s.1 imgID (delete_mask force) →
  is_Some (images_of s.1 !! imgID) → dropped imgID s.1 s1.1 → unreferenced s1.1 imgID →
  helper_state p false s1 s' → (∀ id, removed s1.1 s'.1 id → parent_of s.1 imgID = Some p) →
  helper_state imgID force s s' ∧ gone s'.1 imgID ∧
  ((∃ l, s1.2 = s.2 ++ l) → mkDeleted "" imgID ∈ s1.2 → recorded s1 s' → recorded s s').
Proof.
  intros Hd Hfree Himg Hdr Hun [Hdel Hrefs] Hp. specialize (Hrefs eq_refl).
  assert (images_of s'.1 !! imgID = None) as Hgone.
  { destruct (images_of s'.1 !! imgID) eqn:He; [|done].
    destruct (proj1 (dr_images _ _ _ Hdr imgID)) as [[] _]; [|done].
    apply (dl_kept _ _ _ _ Hdel). by rewrite He. }
  split_and!.
  - split; [by eapply dropped_deletion|]. intros ->.
    destruct (conflict_free_delete _ _ _ Hfree) as (_ & _ & Hsoft).
    intros r Hr. rewrite (Hrefs r Hr). revert r Hr.
    eapply same_refs_untagged; [apply Hdr|]. by apply Hsoft.
  - split; [done|]. intros r Hr. rewrite (Hrefs r Hr). by apply Hun.
  - intros [l Hl] Hin [[l' Hl'] Hrec]. split.
    + exists (l ++ l'). by rewrite Hl', Hl, app_assoc.
    + intros id [Hs Hn]. destruct (decide (id = imgID)) as [->|Hne].
      * rewrite Hl'. apply elem_of_app. by left.
      * apply Hrec. split; [|done]. by apply (dr_images _ _ _ Hdr).
Qed.

(** The image is not in the store: its references go, and [Delete] fails. *)
Lemma Delete_missing d imgID :
  images_of d !! imgID = None →
  ∃ e, call_images d (λ st, imageStore_Delete st imgID) = (d, Err (PlainError e)).
Proof.
  intros Hn. unfold call_images, imageStore_Delete. rewrite Hn. destruct d. by eexists.
Qed.

Lemma drop_image_spec s imgID force :
  daemon_inv s.1 → conflict_free s.1 imgID (delete_mask force) →
  safe (drop_image s imgID)
    (λ s' _, is_Some (images_of s.1 !! imgID) ∧ dropped imgID s.1 s'.1 ∧
       unreferenced s'.1 imgID ∧ (∃ l, s'.2 = s.2 ++ l) ∧ mkDeleted "" imgID ∈ s'.2)
    (λ s' e, helper_state imgID force s s' ∧ no_conflict e).
Proof.
  intros Hd Hcheck. destruct (conflict_free_delete _ _ _ Hcheck) as (Hch & Hrun & Hsoft).
  assert (∀ s', untagged imgID s.1 s'.1 → helper_state imgID force s s') as Huntag.
  { intros s' Hu. split; [by apply untagged_deletion|].
    intros Hf. eapply same_refs_untagged; [apply Hu|]. by apply Hsoft. }
  unfold drop_image. apply safe_bind. eapply safe_mono; [by apply removeAll_spec|..].
  2: { intros s' e [Hu [e' ->]]. split; [by apply Huntag|done]. }
  intros s1 _ (Hu1 & Hun1 & [l1 Hl1]). unfold on_daemon at 1.
  destruct (images_of s.1 !! imgID) as [m|] eqn:Hm.
  2: { destruct (Delete_missing s1.1 imgID) as [e ->]; [by rewrite (ut_images _ _ _ Hu1)|].
       simpl. split; [by apply Huntag|done]. }
  assert (is_Some (images_of s.1 !! imgID)) as Himg by (by rewrite Hm).
  pose proof (Delete_dropped s1.1 imgID (ut_inv _ _ _ Hu1)) as Hdel.
  unfold has_child in Hdel. rewrite (ut_images _ _ _ Hu1) in Hdel. specialize (Hdel Hch Himg).
  destruct (call_images s1.1 _) as [d2 [layers|e| |]]; cbn [and_then safe] in *; [| |done..].
  2: { destruct Hdel as [[Hdr Href] [e' ->]]. split; [|done].
       eapply (prune_state imgID "" force s (d2, s1.2) (d2, s1.2)); [done|done|done|..].
       - by eapply untagged_dropped.
       - unfold unreferenced. cbn [fst]. by rewrite Href.
       - apply helper_refl, Hdr.
       - intros id []%not_removed_same. done. }
  destruct Hdel as [Hdr Href]. unfold on_daemon. cbn [fst snd].
  destruct (LogImageEvent_spec d2 imgID imgID "delete" (dr_inv _ _ _ Hdr)) as [ev ->].
  cbn [and_then]. rewrite foldl_add_record. cbn [fst snd add_record safe]. split_and!; [done|..].
  - by eapply dropped_event, untagged_dropped.
  - unfold unreferenced. cbn [dm_referenceStore with_event]. by rewrite Href.
  - eexists. rewrite Hl1, <- !app_assoc. reflexivity.
  - set_solver.
Qed.

Lemma helper_spec fuel s imgID (force prune quiet : bool) :
  daemon_inv s.1 → valid_id imgID → size (images_of s.1) < fuel →
  safe (imageDeleteHelper fuel s imgID force prune quiet)
    (λ s' _, helper_state imgID force s s' ∧ helper_Ok imgID force quiet s s')
    (λ s' e, helper_state imgID force s s' ∧ helper_Err imgID force quiet s s' e).
Proof.
  revert s imgID force prune quiet. induction fuel as [|fuel IH];
    intros s imgID force prune quiet Hd Hid Hfuel; [lia|].
  cbn [imageDeleteHelper]. fold (delete_mask force).
  pose proof (check_spec s.1 imgID (delete_mask force) Hd) as Hcheck.
  destruct (checkImageDeleteConflict _ _ _) as [c|].
  { rewrite (conflict_quiet _ _ _ _ Hd Hcheck). pose proof (helper_refl imgID force s Hd).
    destruct quiet; cbn [andb safe]; (split; [done|]); [|right; by exists c].
    split; [apply recorded_refl|]. right. split_and!; [done..|]. by exists c. }
  unfold on_daemon. rewrite (GetParent_nil s.1 imgID Hd Hid). cbn [and_then].
  replace (s.1, s.2) with s by (by destruct s). apply safe_bind.
  eapply safe_mono; [by apply drop_image_spec|..].
  2: { intros s' e [Hst Hne]. split; [done|by left]. }
  intros s3 _ (Himg & Hdr & Hun & Hl & Hin).
  destruct (negb prune || _) eqn:Hstop.
  { destruct (prune_state imgID "" force s s3 s3) as (Hst & Hg & Hrec); try done.
    - apply helper_refl, Hdr.
    - intros id []%not_removed_same. done.
    - split; [done|]. split; [|by left]. apply Hrec; [done..|apply recorded_refl]. }
  apply orb_false_iff in Hstop as [_ Hpar%bool_decide_eq_false].
  destruct (rb_parent _ imgID) as [p|] eqn:Hp; [|done]. change (default "" (Some p)) with p in *.
  assert (valid_id p) as Hvp.
  { eapply image_valid; [done|]. by apply (fi_parent _ (di_family _ Hd) imgID). }
  pose proof (dropped_size _ _ _ Hdr Himg).
  eapply safe_mono; [apply (IH s3 p false true true); [apply Hdr|done|lia]|..].
  all: intros s' e [Hst' Hend];
    destruct (prune_state imgID p force s s3 s') as (Hst & Hg & Hrec); try done;
    (split; [done|]).
  - destruct Hend as [Hrec' _]. split; [by apply Hrec|by left].
  - left. by destruct Hend as [?|(c & _ & ? & _)].
Qed.

(** ** The branch for an identifier *)

Lemma conflict_real_free d id mask mask' c :
  conflict_real d id mask c → conflict_free d id mask' →
  (∀ b, has_conflict mask b = true → has_conflict mask' b = true) → False.
Proof.
  intros [_ Hreal] (H1 & H2 & H3 & H4) Hm.
  destruct (idc_hard c), (idc_used c), Hreal as [Hb Hr];
    [by apply H2; auto|by apply H1; auto|by apply H4; auto|by apply Hr, H3; auto].
Qed.

(** The conflicts looked for before the only reference goes. *)
Definition single_mask (force : bool) : Z :=
  if force then conflictHard
  else Z.lor conflictHard (Z.ldiff conflictSoft conflictActiveReference).

Lemma conflict_real_single d id force c :
  conflict_real d id (single_mask force) c → conflict_real d id (delete_mask force) c.
Proof.
  unfold conflict_real, single_mask, delete_mask.
  destruct force; [done|]. intros [Hi Hc]. split; [done|].
  destruct (idc_hard c), (idc_used c), Hc as [Hm Hc]; (split; [vm_compute; reflexivity|done]).
Qed.

Lemma conflict_free_untagged imgID d d' force :
  untagged imgID d d' → conflict_free d imgID (single_mask force) → unreferenced d' imgID →
  conflict_free d' imgID (delete_mask force).
Proof.
  intros Hu (H1 & H2 & _ & H4) Hun. unfold conflict_free, has_child, used_by in *.
  rewrite (ut_images _ _ _ Hu), (ut_containers _ _ _ Hu).
  destruct force; split_and!; intros; try done;
    (apply H1; vm_compute; reflexivity) || (apply H2; vm_compute; reflexivity) ||
    (apply H4; vm_compute; reflexivity).
Qed.

(** A conflict is real, and nothing was changed before it was found. *)
Definition refused imgID (force : bool) s s' (e : daemon_error) : Prop :=
  no_conflict e ∨
  ∃ c, e = DeleteConflict c ∧ s' = s ∧ conflict_real s.1 imgID (delete_mask force) c.

Lemma remove_single_spec s imgID force :
  daemon_inv s.1 →
  safe (remove_single s imgID force)
    (λ s' _, untagged imgID s.1 s'.1 ∧
       (s' = s ∨ conflict_free s'.1 imgID (delete_mask force)))
    (λ s' e, untagged imgID s.1 s'.1 ∧ refused imgID force s s' e.2).
Proof.
  intros Hd. unfold remove_single. fold (single_mask force).
  destruct (isSingleReference _); [|simpl; split; [by apply untagged_refl|by left]].
  pose proof (check_spec s.1 imgID (single_mask force) Hd) as Hcheck.
  destruct (checkImageDeleteConflict _ _ _) as [c|].
  { simpl. split; [by apply untagged_refl|]. right. exists c. split_and!; [done..|].
    by apply conflict_real_single. }
  pose proof (removeAll_spec s imgID Hd) as Hall. unfold removeAllReferencesToImageID in Hall.
  unfold no_records. destruct (untag_all _ _ _) as [s' [[]|e| |]]; cbn in *; [..|done|done].
  - destruct Hall as (Hu & Hun & _). split; [done|]. right. by eapply conflict_free_untagged.
  - destruct Hall as [Hu [e' ->]]. by split; [|left].
Qed.

Lemma untagged_then imgID force d d1 d2 :
  untagged imgID d d1 → deletion imgID force d1 d2 → deletion imgID force d d2.
Proof.
  intros Hu Hdel.
  assert (∀ id, removed d d2 id ↔ removed d1 d2 id) as Hrem
    by (intros; unfold removed; by rewrite (ut_images _ _ _ Hu)).
  assert (∀ id b, used_by d1 id b ↔ used_by d id b) as Huse
    by (intros; unfold used_by; by rewrite (ut_containers _ _ _ Hu)).
  destruct Hdel as [H1 H2 H3 H4 H5 H6 H7 H8 H9].
  rewrite (ut_images _ _ _ Hu) in H3, H8, H9. split; [done|..].
  - by rewrite H2, (ut_containers _ _ _ Hu).
  - done.
  - intros r Hr. destruct (ut_refs _ _ _ Hu r Hr) as [Ha|[Ha Hb]], (H4 r Hr) as [Hc|[Hc Hd]];
      rewrite ?Ha, ?Hc, ?Hd in *; auto.
  - intros id Hid%Hrem. rewrite <- Huse. auto.
  - intros id Hid%Hrem. rewrite <- Huse. auto.
  - intros id Hid%Hrem. auto.
  - intros id c Hid%Hrem Hc. apply Hrem. eauto.
  - intros id Hid%Hrem. auto.
Qed.

(** ** The branch for a reference *)

Lemma GetImageID_reference d str imgID :
  GetImageID d str = (d, Ok imgID) → isImageIDPrefix imgID str = false →
  ∃ ref, ParseNamed str = Ok ref ∧
    (refStore_Get (dm_referenceStore d) ref = Ok imgID ∨
     ∃ e, refStore_Get (dm_referenceStore d) ref = Err e).
Proof.
  unfold GetImageID, ParseIDOrReference. intros Hget Hpre.
  assert (∀ i, i = str ∨ i = "sha256:" +:+ str → imgID ≠ i) as Hne.
  { intros i Hi ->. destruct Hi as [->| ->]; unfold isImageIDPrefix in Hpre.
    - by rewrite (proj2 (HasPrefix_spec str str)) in Hpre by (exists ""; by rewrite append_nil_r).
    - change ("sha256:" +:+ str) with ("sha256" +:+ String ":" str) in Hpre.
      rewrite (cut_at_append ":" "sha256" str) in Hpre by done.
      rewrite (proj2 (HasPrefix_spec str str)), orb_true_r in Hpre
        by (exists ""; by rewrite append_nil_r). done. }
  destruct (ValidateID str) eqn:Hv.
  { rewrite (hex_valid str Hv : digest_Validate _ = None) in Hget. case_decide; [|done].
    destruct (or_nil _) as [d' [[img|]| | |]]; simpl in Hget; simplify_eq. by destruct (Hne _ (or_intror eq_refl)). }
  destruct (digest_Validate str).
  - destruct (ParseNamed str) as [ref| | |]; cbn [obind] in Hget; [|done..]. exists ref. split; [done|].
    rewrite decide_False in Hget by (intros H; by apply H).
    destruct (refStore_Get _ ref); simplify_eq; by eauto.
  - case_decide; [|done].
    destruct (or_nil _) as [d' [[img|]| | |]]; simpl in Hget; simplify_eq. by destruct (Hne _ (or_introl eq_refl)).
Qed.

(** The references to [imgID] are exactly those of [l]. *)
Definition exactly d imgID (l : list Named) : Prop :=
  ∀ r, r ∈ l ↔ storable r ∧ bound_to d r = Some imgID.

Lemma References_exactly d imgID :
  daemon_inv d → exactly d imgID (refStore_References (dm_referenceStore d) imgID).
Proof. intros Hd. exact (proj2 (proj2 (References_spec _ imgID (di_refs _ Hd)))). Qed.

Lemma exactly_nil d imgID l : exactly d imgID l → l = [] ↔ unreferenced d imgID.
Proof.
  intros Hex. split.
  - intros -> r Hr Hb. eapply not_elem_of_nil, Hex. by split.
  - intros Hun. destruct l as [|r l]; [done|].
    destruct (proj1 (Hex r)) as [Hr Hb]; [by left|]. by destruct (Hun r Hr).
Qed.

(** The references with a tag lead to the same images. *)
Definition same_tags d d' : Prop :=
  ∀ r, storable r → is_canonical r = false → bound_to d' r = bound_to d r.

Lemma clean_canonical_spec s imgID parsedRef refs kept :
  daemon_inv s.1 → NoDup (kept ++ refs) → exactly s.1 imgID (kept ++ refs) →
  safe (clean_canonical s parsedRef refs kept)
    (λ s' out, untagged imgID s.1 s'.1 ∧ same_tags s.1 s'.1 ∧ (∃ l, s'.2 = s.2 ++ l) ∧
       exactly s'.1 imgID out)
    (λ s' e, untagged imgID s.1 s'.1 ∧ no_conflict e.2).
Proof.
  revert s kept. induction refs as [|r refs IH]; intros s kept Hd Hnd Hex.
  { rewrite app_nil_r in Hex. simpl. split_and!; [by apply untagged_refl|done| |done].
    exists []. by rewrite app_nil_r. }
  cbn [clean_canonical]. set (r' := if IsReferenceFullyQualified parsedRef then _ else _).
  assert (no_crash r') as [Hc1 Hc2].
  { unfold r'. destruct (IsReferenceFullyQualified _); [by split|apply Substitute_no_crash]. }
  destruct r' as [r'|e|m|]; [|simpl; by split; [apply untagged_refl|]|by destruct (Hc1 m)|done].
  destruct (_ && _) eqn:Hcan.
  - apply andb_true_iff in Hcan as [Hcan _]. destruct (proj1 (Hex r)) as [Hr Hb]; [apply elem_of_app; right; by left|]. unfold on_daemon.
    rewrite <- Permutation_middle in Hnd. apply NoDup_cons in Hnd as [Hni Hnd].
    destruct (removeImageRef_bound s.1 r imgID Hd Hr Hb) as (st' & e & -> & Hu & Hgone & Hkeep).
    destruct e as [e|]; cbn [removal_end map_error and_then]; [simpl; by split|].
    set (s1 := add_record _ _). assert (untagged imgID s.1 s1.1) as Hu1 by exact Hu.
    eapply safe_mono; [apply (IH s1 kept); [apply Hu1| |]|..].
    + done.
    + intros x. assert (x ∈ kept ++ refs ↔ x ∈ kept ++ r :: refs ∧ x ≠ r) as ->.
      { rewrite <- Permutation_middle, elem_of_cons. split; [|by intros [[]]].
        intros Hx. split; [by right|]. by intros ->. }
      rewrite (Hex x). split.
      * intros [[Hx Hbx] Hne]. split; [done|]. transitivity (bound_to s.1 x); [by apply Hkeep|done].
      * intros [Hx Hbx]. assert (x ≠ r) as Hne.
        { intros ->. cbn [s1 add_record fst] in Hbx. congruence. }
        split; [|done]. split; [done|]. transitivity (bound_to s1.1 x); [by symmetry; apply Hkeep|done].
    + intros s' out (Hu' & Ht' & [l Hl] & Hout). split_and!; [by eapply untagged_trans| | |done].
      { intros x Hx Hxc. rewrite Ht' by done. apply Hkeep; [done|]. by intros ->; congruence. }
      eexists. rewrite Hl. simpl. by rewrite <- app_assoc.
    + intros s' e' [Hu' He]. split; [by eapply untagged_trans|done].
  - apply IH; [done|by rewrite <- app_assoc|by rewrite <- app_assoc].
Qed.

(** The only reference to an image that a container uses stays, unless forced;
    that is found out before anything is changed. *)
Definition kept_for_container imgID (force : bool) s s' (e : daemon_error) : Prop :=
  ∃ m, e = RequestConflictError m ∧ s' = s ∧ force = false ∧ (∃ b, used_by s.1 imgID b) ∧
    isSingleReference (refStore_References (dm_referenceStore s.1) imgID) = true.

(** The reference to [imgID] that [str] stands for went, and no other tag did. *)
Definition untagged_given (str : string) imgID d d' : Prop :=
  ∃ ref r, ParseNamed str = Ok ref ∧ stands_for (dm_referenceStore d) ref r ∧
    storable r ∧ bound_to d r = Some imgID ∧ bound_to d' r = None ∧
    ∀ r', storable r' → is_canonical r' = false → r' ≠ r → bound_to d' r' = bound_to d r'.

Lemma untagged_given_mono str imgID d d1 d2 :
  untagged_given str imgID d d1 → untagged imgID d1 d2 → same_tags d1 d2 →
  untagged_given str imgID d d2.
Proof.
  intros (ref & r & Hp & Hf & Hr & Hb & Hn & Ht) Hu Hs. exists ref, r.
  split_and!; [done..|by eapply untagged_None|]. intros r' Hr' Hc Hne. by rewrite Hs, Ht.
Qed.

Lemma remove_reference_spec s str imgID force :
  daemon_inv s.1 → GetImageID s.1 str = (s.1, Ok imgID) → isImageIDPrefix imgID str = false →
  safe (remove_reference s str imgID force)
    (λ s' go, untagged imgID s.1 s'.1 ∧ (∃ l, s'.2 = s.2 ++ l) ∧ untagged_given str imgID s.1 s'.1 ∧
       (go = true ↔ unreferenced s'.1 imgID))
    (λ s' e, untagged imgID s.1 s'.1 ∧
       (no_conflict e.2 ∨ kept_for_container imgID force s s' e.2)).
Proof.
  intros Hd Hget Hpre. unfold remove_reference.
  destruct (if negb force && _ then _ else _) as [c|] eqn:Hcont.
  { destruct force; [done|]. cbn [negb andb] in Hcont.
    pose proof (getContainerUsingImage_spec s.1 imgID) as Huse.
    destruct (isSingleReference _) eqn:Hsingle; [|done]. rewrite Hcont in Huse.
    simpl. split; [by apply untagged_refl|]. right. eexists. by split_and!. }
  destruct (GetImageID_reference _ _ _ Hget Hpre) as (ref & Hparse & Hfound). rewrite Hparse.
  pose proof (removeImageRef_spec s.1 ref Hd (ParseNamed_valid _ _ Hparse)) as Hrem.
  unfold on_daemon at 1.
  destruct Hfound as [Hf|[e Hf]]; rewrite Hf in Hrem.
  2: { rewrite Hrem. simpl. split; [by apply untagged_refl|by left]. }
  destruct Hrem as (r & st' & e & Hr & Hb & -> & Hu & Hsf & _).
  assert (untagged_given str imgID s.1 (with_referenceStore s.1 st')) as Hsome.
  { exists ref, r. destruct Hu as (_ & _ & Hl). split_and!; [done..| |].
    - transitivity (ref_lookup st' r); [done|]. rewrite Hl by done. by rewrite decide_True.
    - intros r' Hr' _ Hne. transitivity (ref_lookup st' r'); [done|].
      rewrite Hl by done. by rewrite decide_False. }
  pose proof (unbound_untagged s.1 st' r imgID Hd Hr Hb Hu) as Hu1.
  destruct e as [e|]; cbn [removal_end no_records map_error and_then]; [simpl; by split; [|left]|].
  unfold on_daemon. cbn [fst snd].
  destruct (LogImageEvent_spec _ imgID imgID "untag" (ut_inv _ _ _ Hu1)) as [ev ->].
  cbn [no_records map_error and_then]. set (s1 := add_record _ _).
  assert (untagged imgID s.1 s1.1) as Hu2.
  { eapply untagged_trans; [exact Hu1|]. apply (untagged_event imgID _ ev), Hu1. }
  assert (untagged_given str imgID s.1 s1.1) as Hsome1 by done.
  assert (exactly s1.1 imgID (refStore_References (dm_referenceStore s1.1) imgID)) as Hex
    by apply References_exactly, Hu2.
  assert (NoDup (refStore_References (dm_referenceStore s1.1) imgID)) as Hnd
    by (by apply References_spec, Hu2).
  assert (∀ s' (out : list Named), exactly s'.1 imgID out →
    negb (non_empty out) = true ↔ unreferenced s'.1 imgID) as Hgo.
  { intros s' out Hout. rewrite negb_true_iff, non_empty_false. by apply exactly_nil. }
  match goal with |- context [if ?b then _ else (s1, Ok _)] => destruct b end.
  2: { cbn [and_then safe]. split; [done|]. split; [by eexists|]. split; [done|by apply Hgo]. }
  apply safe_bind. eapply safe_mono; [apply (clean_canonical_spec s1 imgID); [apply Hu2|done|done]|..].
  - intros s' out (Hu' & Ht' & [l Hl] & Hout). cbn [safe].
    split; [by eapply untagged_trans|].
    split; [|split; [by eapply untagged_given_mono|by apply Hgo]]. eexists. rewrite Hl. simpl. by rewrite <- app_assoc.
  - intros s' e [Hu' He]. split; [by eapply untagged_trans|by left].
Qed.

(** ** The whole *)

(** What keeps an image without references. *)
Definition in_use d imgID (force : bool) : Prop :=
  has_child d imgID ∨ used_by d imgID true ∨ force = false ∧ used_by d imgID false.

Lemma conflict_in_use imgID force d d1 c :
  untagged imgID d d1 → unreferenced d1 imgID →
  conflict_real d1 imgID (delete_mask force) c → in_use d imgID force.
Proof.
  intros Hu Hun [_ Hreal]. unfold in_use, has_child, used_by in *.
  rewrite (ut_images _ _ _ Hu), (ut_containers _ _ _ Hu) in Hreal.
  destruct (idc_hard c), (idc_used c), Hreal as [Hm Hr];
    [by auto..| |by destruct Hr].
  right; right. split; [|done]. by destruct force.
Qed.

(** A successful call: the image is gone, or a reference was given and the stored
    one that it stands for is gone, with no other tag, and the image stays for its
    other references or because it is in use. *)
Definition delete_Ok (str : string) imgID (force : bool) d d' : Prop :=
  gone d' imgID ∨
  isImageIDPrefix imgID str = false ∧ untagged imgID d d' ∧ untagged_given str imgID d d' ∧
  (¬ unreferenced d' imgID ∨ in_use d imgID force).

Lemma untagged_recorded imgID s s' :
  untagged imgID s.1 s'.1 → (∃ l, s'.2 = s.2 ++ l) → recorded s s'.
Proof.
  intros Hu Hl. split; [done|]. intros id []%not_removed_same. by rewrite (ut_images _ _ _ Hu).
Qed.

Lemma recorded_untagged imgID s s1 s' :
  untagged imgID s.1 s1.1 → s.2 = [] → recorded s1 s' → recorded s s'.
Proof.
  intros Hu Hnil [_ Hrec]. split; [exists s'.2; by rewrite Hnil|].
  intros id Hid. apply Hrec. unfold removed in *. by rewrite (ut_images _ _ _ Hu).
Qed.

Lemma helper_after_untag s s1 imgID (force prune quiet : bool) :
  s.2 = [] → untagged imgID s.1 s1.1 → valid_id imgID →
  safe (with_records (imageDeleteHelper (S (size (images_of s1.1))) s1 imgID force prune quiet))
    (λ s' _, deletion imgID force s.1 s'.1 ∧ recorded s s' ∧
       (gone s'.1 imgID ∨
        quiet = true ∧ s' = s1 ∧ ∃ c, conflict_real s1.1 imgID (delete_mask force) c))
    (λ s' e, deletion imgID force s.1 s'.1 ∧ helper_Err imgID force quiet s1 s' e.2).
Proof.
  intros Hnil Hu Hid. pose proof (helper_spec _ s1 imgID force prune quiet (ut_inv _ _ _ Hu) Hid
    (Nat.lt_succ_diag_r _)) as Hh. unfold with_records.
  destruct (imageDeleteHelper _ s1 _ _ _ _) as [s' [[]|e| |]]; cbn [map_error safe snd] in *;
    [| |done..].
  - destruct Hh as [[Hdel _] [Hrec Hg]].
    split_and!; [by eapply untagged_then|by eapply recorded_untagged|done].
  - destruct Hh as [[Hdel _] He]. split; [by eapply untagged_then|done].
Qed.

Lemma delete_image_spec s str imgID (force prune : bool) :
  daemon_inv s.1 → s.2 = [] → GetImageID s.1 str = (s.1, Ok imgID) → valid_id imgID →
  safe (delete_image s str imgID force prune)
    (λ s' _, deletion imgID force s.1 s'.1 ∧ recorded s s' ∧ delete_Ok str imgID force s.1 s'.1)
    (λ s' e, deletion imgID force s.1 s'.1 ∧
       (refused imgID force s s' e.2 ∨ kept_for_container imgID force s s' e.2)).
Proof.
  intros Hd Hnil Hget Hid. unfold delete_image.
  destruct (isImageIDPrefix imgID str) eqn:Hpre; cbn [negb]; apply safe_bind.
  - eapply safe_mono; [by apply remove_single_spec|..].
    2: { intros s' e [Hu Hr]. split; [by apply untagged_deletion|by left]. }
    intros s1 _ [Hu Hfree].
    eapply safe_mono; [by apply (helper_after_untag s)|..].
    + intros s' _ (Hdel & Hrec & [Hg|[? _]]); [|done]. split_and!; [done..|by left].
    + intros s' e [Hdel He]. split; [done|]. left. destruct He as [?|(c & -> & _ & -> & Hc)].
      * by left.
      * destruct Hfree as [->|Hfree]; [right; by exists c|].
        by destruct (conflict_real_free _ _ _ _ _ Hc Hfree).
  - eapply safe_mono; [by apply remove_reference_spec|..].
    2: { intros s' e [Hu [He|He]]; (split; [by apply untagged_deletion|]); [left; by left|by right]. }
    intros s1 go (Hu & Hl & Hsome & Hgo). destruct go.
    + eapply safe_mono; [by apply (helper_after_untag s)|..].
      * intros s' _ (Hdel & Hrec & Hg). split_and!; [done..|].
        destruct Hg as [Hg|(_ & -> & c & Hc)]; [by left|right]. split_and!; [done..|].
        right. eapply conflict_in_use; [done| |done]. by apply Hgo.
      * intros s' e [Hdel [He|(c & _ & ? & _)]]; [|done]. split; [done|]. left. by left.
    + cbn [safe]. split_and!; [by apply untagged_deletion|by eapply untagged_recorded|].
      right. split_and!; [done..|]. left. by rewrite <- Hgo.
Qed.

(** The end of [ImageDelete], from that of its last part. *)
Lemma ImageDelete_run d str imgID (force prune : bool) :
  daemon_inv d → GetImageID d str = (d, Ok imgID) →
  safe (ImageDelete d str force prune)
    (λ d' recs, deletion imgID force d d' ∧
       (∀ id, removed d d' id → mkDeleted "" id ∈ recs) ∧ delete_Ok str imgID force d d')
    (λ d' e, deletion imgID force d d' ∧
       (no_conflict e.2 ∨
        d' = d ∧ ((∃ c, e.2 = DeleteConflict c ∧ conflict_real d imgID (delete_mask force) c) ∨
                  (∃ m, e.2 = RequestConflictError m) ∧ force = false ∧ ∃ b, used_by d imgID b))).
Proof.
  intros Hd Hget. unfold ImageDelete. rewrite Hget. cbn [map_error and_then].
  destruct (GetImageID_spec d str Hd) as (o & Ho & _ & Hv). rewrite Hget in Ho.
  injection Ho as <-.
  pose proof (delete_image_spec (d, []) str imgID force prune Hd eq_refl Hget (Hv _ eq_refl)) as H.
  destruct (delete_image _ _ _ _ _) as [s' [[]|e| |]]; cbn [and_then safe fst snd] in *;
    [| |done..].
  - destruct H as (Hdel & [_ Hrec] & Hok). done.
  - destruct H as [Hdel He]. split; [done|].
    destruct He as [[He|(c & -> & -> & Hc)]|(m & -> & -> & -> & Hb & _)]; [by left|right..].
    + split; [done|]. left. by exists c.
    + split; [done|]. right. split; [by exists m|done].
Qed.

(** C5: Deleting an image keeps what is in use.  Whatever [ImageDelete] is given
    and whatever it returns, it ends without a panic, and only images on the chain
    of parents from the image it was asked for go: none that a running container
    uses, even when forced; none that a stopped container uses, unless it is that
    very image and the call is forced; none without its children, so no image is
    left with a parent that is gone; and none that is still referenced afterwards.
    References to other images stay.  The invariants of the image store and of the
    tag store are kept.  If no image is found nothing changes. *)
Theorem ImageDelete_keeps_what_is_used d str (force prune : bool) :
  daemon_inv d →
  let '(d', o) := ImageDelete d str force prune in
  no_crash o ∧
  match (GetImageID d str).2 with
  | Ok imgID => deletion imgID force d d'
  | _ => d' = d ∧ ∃ e, o = Err ([], e)
  end.
Proof.
  intros Hd. destruct (GetImageID_spec d str Hd) as (o & Ho & [Hc1 Hc2] & _).
  destruct o as [imgID|e|m|]; [| |by destruct (Hc1 m)|done].
  - pose proof (ImageDelete_run d str imgID force prune Hd Ho) as H. rewrite Ho.
    pose proof (safe_no_panic _ _ _ H) as Hno.
    destruct (ImageDelete d str force prune) as [d' [recs|e| |]]; cbn in *; [..|done|done];
      split; [done|apply H|done|apply H].
  - unfold ImageDelete. rewrite Ho. cbn. split; [by split|]. by split; [|eexists].
Qed.

(** C10: What the answer of [ImageDelete] means.  On success the records name every
    image that went, and either the image and all references to it are gone, or a
    repository reference was given, the stored reference to the image that it stands
    for is gone while every other tag leads where it led, and the image was kept
    because it is still referenced, has children or is used by a container that the
    call may not override.  A conflict that is reported is really there, and
    then nothing at all was changed. *)
Theorem ImageDelete_answer d str imgID (force prune : bool) :
  daemon_inv d → (GetImageID d str).2 = Ok imgID →
  match ImageDelete d str force prune with
  | (d', Ok recs) =>
      (∀ id, removed d d' id → mkDeleted "" id ∈ recs) ∧ delete_Ok str imgID force d d'
  | (d', Err (_, DeleteConflict c)) => d' = d ∧ conflict_real d imgID (delete_mask force) c
  | (d', Err (_, RequestConflictError _)) => d' = d ∧ force = false ∧ ∃ b, used_by d imgID b
  | (_, Err _) => True
  | _ => False
  end.
Proof.
  intros Hd Hget. destruct (GetImageID_spec d str Hd) as (o & Ho & _). rewrite Ho in Hget.
  simpl in Hget. subst o.
  pose proof (ImageDelete_run d str imgID force prune Hd Ho) as H.
  destruct (ImageDelete d str force prune) as [d' [recs|[recs e]| |]]; cbn in H; [by apply H| |done..].
  destruct H as [_ [[H1 H2]|[-> He]]]; [destruct e; naive_solver|].
  destruct He as [(c & -> & Hc)|([m ->] & Hf & Hb)]; done.
Qed.
End image_delete_inv.
