(* ===== verification/ImageDeleteWitness.v ===== *)
(** * Deleting images on concrete inputs

    A daemon on the image store of ImageWitness and the tag store of RefWitness;
    the theorems of ImageDeleteInv applied to it, and some behaviours of the code
    that its comments do not mention. *)

From S2P Require Import Prelude GoStrings OS Layer LayerWitness ImageStore ImageInv ImageFamily.
From S2P Require Import ImageFS ImageWitness RefStore RefInv RefWitness Container.
From S2P Require Import ImageDelete ImageDeleteInv.
Local Open Scope nat_scope.

#[export] Instance demo_digest_syntax : DigestSyntax.
Proof. split; [by vm_compute|]. intros s _. unfold valid_id; simpl. done. Qed.

Abbreviation demo_daemon_type := (Daemon fsBackend (layerStore (list string) nat unit) (gset string)).

(** The images "parent" and "child" of ImageWitness, with the given references and
    containers. *)
Definition demo_daemon (tags : list ref_op) (containers : list container) : demo_daemon_type :=
  mkDaemon demo_family (ref_run (NewReferenceStore None [] ["docker.io"]).1 tags).1
    (list_to_map ((λ c, (ct_ID c, c)) <$> containers)) [].

(** Names are normal and images digests, checked by computation. *)
Definition refs_ok (st : refStore) : bool :=
  bool_decide (map_Forall (λ n repo, WithName n = Ok (namedRef n) ∧
    map_Forall (λ _ id, digest_Validate id = None) repo) (rs_Repositories st)).

Lemma demo_daemon_inv tags containers :
  Forall valid_ref_op tags → refs_ok (dm_referenceStore (demo_daemon tags containers)) = true →
  daemon_inv (demo_daemon tags containers).
Proof.
  intros Htags Hok. split; [apply demo_family_inv..| |].
  - apply ref_run_inv; [apply NewReferenceStore_empty|done].
  - intros r id _ Hb. apply bool_decide_eq_true in Hok. unfold ref_lookup, lookup2 in Hb.
    destruct (rs_Repositories _ !! Named_Name r) as [repo|] eqn:Hrepo; [|done].
    destruct (Hok _ _ Hrepo) as [Hn Hids]. split; [done|]. by apply (Hids _ _ Hb).
Qed.

Definition stopped_container (id img : string) : container := mkContainer id img NewState.
Definition running_container (id img : string) : container :=
  mkContainer id img (SetRunning NewState 42 true 1).

(** [d], an image of it, and how the call ends. *)
Definition images_left (d : demo_daemon_type) : list string :=
  elements (dom (is_images (dm_imageStore d))).

(** The only reference to an image is removed: the image goes, and its parent is
    pruned. *)
Definition demo_tagged : list ref_op := [RAddTag (taggedRef "web" "v1") "sha256:child" false].

Lemma ImageDelete_keeps_what_is_used_witness :
  let d := demo_daemon demo_tagged [] in
  let d' := (ImageDelete d "web:v1" false true).1 in
  images_left d = ["sha256:child"; "sha256:parent"] ∧ images_left d' = [] ∧
  deletion "sha256:child" false d d'.
Proof.
  split; [vm_compute; reflexivity|]. split; [vm_compute; reflexivity|].
  assert (daemon_inv (demo_daemon demo_tagged [])) as Hd
    by (apply demo_daemon_inv; [repeat constructor|vm_compute; reflexivity]).
  pose proof (ImageDelete_keeps_what_is_used (demo_daemon demo_tagged []) "web:v1" false true Hd) as H.
  assert ((GetImageID (demo_daemon demo_tagged []) "web:v1").2 = Ok "sha256:child") as Hid
    by (vm_compute; reflexivity).
  rewrite Hid in H. destruct (ImageDelete _ _ _ _) as [d' o]. exact (proj2 H).
Defined.

(** A running container keeps the parent although the call is forced; nothing is
    changed. *)
Definition demo_busy : demo_daemon_type :=
  demo_daemon demo_tagged [running_container "c1" "sha256:child"].

Lemma ImageDelete_answer_witness :
  ∃ c, ImageDelete demo_busy "child" true true = (demo_busy, Err ([], DeleteConflict c)) ∧
    conflict_real demo_busy "sha256:child" (delete_mask true) c.
Proof.
  assert (daemon_inv demo_busy) as Hd
    by (apply demo_daemon_inv; [repeat constructor|vm_compute; reflexivity]).
  pose proof (ImageDelete_answer demo_busy "child" "sha256:child" true true Hd
    ltac:(vm_compute; reflexivity)) as H.
  assert (match (ImageDelete demo_busy "child" true true).2 with
          | Err ([], DeleteConflict _) => true | _ => false end = true) as Hshape
    by (vm_compute; reflexivity).
  destruct (ImageDelete demo_busy "child" true true) as [d' [recs|[[|] []]| |]];
    try discriminate Hshape.
  destruct H as [-> Hc]. exists c. split; [reflexivity|exact Hc].
Defined.

(** ** Behaviours of the code to note *)

Definition last_refs (d : demo_daemon_type) : list string :=
  map Named_String (refStore_References (dm_referenceStore d) "sha256:child").

(** A tag given without its registry: the digest reference of another repository
    goes as well, although a tag of the same repository remains.  The name of the
    reference is compared with the names of the repositories once as it was given,
    when it differs from all, and once substituted, when it equals any. *)
Definition demo_digests : list ref_op :=
  [RAddTag (taggedRef "docker.io/ubuntu" "v1") "sha256:child" false;
   RAddTag (taggedRef "docker.io/ubuntu" "v2") "sha256:child" false;
   RAddDigest "docker.io/other" "sha256:00" "sha256:child" false].

Lemma unqualified_untag_removes_digests :
  last_refs (ImageDelete (demo_daemon demo_digests []) "ubuntu:v1" false false).1 =
    ["docker.io/ubuntu:v2"] ∧
  last_refs (ImageDelete (demo_daemon demo_digests []) "docker.io/ubuntu:v1" false false).1 =
    ["docker.io/other@sha256:00"; "docker.io/ubuntu:v2"].
Proof. vm_compute. done. Qed.

(** A repository with an identifier in place of the tag names the image, but
    [ImageDelete] of it fails: the reference does not exist. *)
Lemma name_with_id_is_not_deleted :
  (GetImageID (demo_daemon demo_tagged []) "web:child").2 = Ok "sha256:child" ∧
  (ImageDelete (demo_daemon demo_tagged []) "web:child" true true).2 =
    Err ([], RefStoreError ErrDoesNotExist).
Proof. vm_compute. done. Qed.

(** The records of references that are gone are not returned when saving the next
    removal fails. *)
Lemma failed_untag_loses_records :
  let tags := [RAddTag (taggedRef "web" "v1") "sha256:child" false;
               RAddDigest "web" "sha256:00" "sha256:child" false] in
  let d := demo_daemon tags [] in
  let r := dm_referenceStore d in
  let d := with_referenceStore d (mkRefStore (rs_defaultRegistries r) (rs_Repositories r)
             (rs_cache r) (rs_file r) [None; Some "disk full"]) in
  let '(d', o) := ImageDelete d "child" false false in
  o = Err ([], RefStoreError (ErrRef "disk full")) ∧ last_refs d' = [].
Proof. vm_compute. done. Qed.
