(* ===== verification/HostFS.v ===== *)
(** * Files of the host, with links, owners, modes and times

    The file system under pkg/archive: the calls of package os and of the kernel that
    the unpacking and packing of layers make.  A name is the list of the components of
    an absolute path; the names refer to inodes, so that a file can have several names
    (hard links).  Symbolic links are followed as the kernel does it: in every
    component but the last, and in the last where the call says so; 40 links are the
    most that one resolution follows. *)

From S2P Require Import Prelude GoStrings GoPath Changes.

Abbreviation name := (list string) (only parsing).

Inductive errno :=
  ENOENT | ENOTDIR | EEXIST | EISDIR | ELOOP | EPERM | ENOTSUP | EBUSY | EINVAL.
#[global] Instance errno_eq_dec : EqDecision errno.
Proof. solve_decision. Defined.

Inductive ikind :=
| KDir
| KReg (data : string)
| KSymlink (target : string)
| KChar | KBlock | KFifo | KSock.
#[global] Instance ikind_eq_dec : EqDecision ikind.
Proof. solve_decision. Defined.

(** [i_perm] is the mode without the bits of the type. *)
Record inode := mkInode {
  i_kind : ikind;
  i_perm : Z;
  i_uid : Z;
  i_gid : Z;
  i_rdev : Z;
  i_xattrs : gmap string (list Z);
  i_atime : Timespec;
  i_mtime : Timespec
}.

(** [fs_xattr] tells whether extended attributes are supported, [fs_cwd] is the
    working directory of the process. *)
Record fs := mkFs {
  fs_names : gmap (list string) nat;
  fs_inodes : gmap nat inode;
  fs_next : nat;
  fs_xattr : bool;
  fs_cwd : list string
}.

Definition with_names (s : fs) (ns : gmap (list string) nat) : fs :=
  mkFs ns (fs_inodes s) (fs_next s) (fs_xattr s) (fs_cwd s).
Definition with_inodes (s : fs) (ins : gmap nat inode) : fs :=
  mkFs (fs_names s) ins (fs_next s) (fs_xattr s) (fs_cwd s).

(** The inode of a name. *)
Definition node_at (s : fs) (p : name) : option inode :=
  fs_names s !! p ≫= λ i, fs_inodes s !! i.

Definition is_dir (i : inode) : bool := match i_kind i with KDir => true | _ => false end.
Definition is_symlink (i : inode) : bool :=
  match i_kind i with KSymlink _ => true | _ => false end.

(** ** Resolution of paths *)

Definition max_links : nat := 40.

Section namei.
Context (s : fs) (follow : bool).

(** Resolve the components [todo] from the directory [cur]; [rec] continues after a
    symbolic link. *)
Definition namei_go (rec : name → list string → outcome errno (list string)) :=
  fix go (cur : name) (todo : list string) : outcome errno (list string) :=
    match todo with
    | [] => Ok cur
    | c :: todo =>
        match node_at s cur with
        | None => Err ENOENT
        | Some d =>
            if negb (is_dir d) then Err ENOTDIR
            else if decide (c = "" ∨ c = ".") then go cur todo
            else if decide (c = "..") then go (removelast cur) todo
            else
              match node_at s (cur ++ [c]) with
              | None => if decide (todo = []) then Ok (cur ++ [c]) else Err ENOENT
              | Some n =>
                  match i_kind n with
                  | KSymlink t =>
                      if decide (todo = [] ∧ follow = false) then Ok (cur ++ [c])
                      else rec (if IsAbs t then [] else cur) (Split slash t ++ todo)
                  | _ => go (cur ++ [c]) todo
                  end
              end
        end
    end.

Fixpoint namei (links : nat) : name → list string → outcome errno (list string) :=
  namei_go (match links with O => λ _ _, Err ELOOP | S links => namei links end).
End namei.

(** The name that a path refers to; the name itself need not exist. *)
Definition resolve (s : fs) (follow : bool) (path : string) : outcome errno (list string) :=
  if decide (path = "") then Err ENOENT
  else namei s follow max_links (if IsAbs path then [] else fs_cwd s) (Split slash path).

(** ** Calls that read *)

Definition stat_with (follow : bool) (s : fs) (path : string) : outcome errno inode :=
  match resolve s follow path with
  | Ok p => match node_at s p with Some n => Ok n | None => Err ENOENT end
  | Err e => Err e
  | Panic m => Panic m
  | Diverge => Diverge
  end.
Definition os_Lstat := stat_with false.
Definition os_Stat := stat_with true.

Definition os_IsNotExist (e : errno) : bool := bool_decide (e = ENOENT).

(** What the kernel reports of an inode. *)
Definition ifmt (k : ikind) : Z :=
  match k with
  | KDir => 16384 | KReg _ => 32768 | KSymlink _ => 40960
  | KChar => 8192 | KBlock => 24576 | KFifo => 4096 | KSock => 49152
  end.
Definition isize (k : ikind) : Z :=
  match k with
  | KReg d => Z.of_nat (String.length d)
  | KSymlink t => Z.of_nat (String.length t)
  | _ => 0
  end.
Definition stat_of (n : inode) : StatT :=
  mkStat (Z.lor (ifmt (i_kind n)) (i_perm n)) (i_uid n) (i_gid n) (i_rdev n)
    (isize (i_kind n)) (i_mtime n).

(** The number of names of an inode. *)
Definition nlink (s : fs) (i : nat) : nat :=
  size (filter (λ kv : list string * nat, kv.2 = i) (fs_names s)).

(** ** Calls that write *)

Definition lift {A} (s : fs) (r : outcome errno A) : fs * outcome errno A := (s, r).

Definition set_inode (s : fs) (i : nat) (f : inode → inode) : fs :=
  with_inodes s (alter f i (fs_inodes s)).

(** Create an inode under a name that does not exist, in a directory that does. *)
Definition create_at (s : fs) (p : name) (n : inode) : fs :=
  mkFs (<[p := fs_next s]> (fs_names s)) (<[fs_next s := n]> (fs_inodes s))
    (S (fs_next s)) (fs_xattr s) (fs_cwd s).

Definition new_inode (k : ikind) (perm rdev : Z) : inode :=
  mkInode k perm 0 0 rdev ∅ (mkTimespec 0 0) (mkTimespec 0 0).

(** A call that makes a new name: it does not follow a link in the last component. *)
Definition make_name (s : fs) (path : string) (n : inode) : fs * outcome errno unit :=
  let! (s, p) := lift s (resolve s false path) in
  match node_at s p with
  | Some _ => (s, Err EEXIST)
  | None => (create_at s p n, Ok tt)
  end.

Definition os_Mkdir (s : fs) (path : string) (perm : Z) : fs * outcome errno unit :=
  make_name s path (new_inode KDir (Z.land perm 4095) 0).
Definition os_Symlink (s : fs) (target path : string) : fs * outcome errno unit :=
  if decide (target = "") then (s, Err ENOENT)
  else make_name s path (new_inode (KSymlink target) 511 0).
Definition os_Mknod (s : fs) (path : string) (k : ikind) (perm dev : Z) :
    fs * outcome errno unit :=
  make_name s path (new_inode k (Z.land perm 4095) dev).

Definition os_Link (s : fs) (oldname newname : string) : fs * outcome errno unit :=
  let! (s, p) := lift s (resolve s false oldname) in
  match fs_names s !! p, node_at s p with
  | Some i, Some n =>
      let! (s, q) := lift s (resolve s false newname) in
      match node_at s q with
      | Some _ => (s, Err EEXIST)
      | None =>
          if is_dir n then (s, Err EPERM)
          else (with_names s (<[q := i]> (fs_names s)), Ok tt)
      end
  | _, _ => (s, Err ENOENT)
  end.

(** Open for writing, creating the file if needed, without truncating it, and write
    all the data.  What is written to a device or a pipe does not stay. *)
Definition overwrite (old data : string) : string :=
  data +:+ String.substring (String.length data) (String.length old - String.length data) old.
Definition write_data (data : string) (n : inode) : inode :=
  match i_kind n with
  | KReg old =>
      mkInode (KReg (overwrite old data)) (i_perm n) (i_uid n) (i_gid n) (i_rdev n)
        (i_xattrs n) (i_atime n) (i_mtime n)
  | _ => n
  end.
Definition os_WriteFile (s : fs) (path : string) (perm : Z) (data : string) :
    fs * outcome errno unit :=
  let! (s, p) := lift s (resolve s true path) in
  match fs_names s !! p, node_at s p with
  | Some i, Some n =>
      if is_dir n then (s, Err EISDIR) else (set_inode s i (write_data data), Ok tt)
  | _, _ => (create_at s p (new_inode (KReg data) (Z.land perm 4095) 0), Ok tt)
  end.

(** The inode that a path leads to is changed by [f]. *)
Definition change_inode (follow : bool) (s : fs) (path : string) (f : inode → inode) :
    fs * outcome errno unit :=
  let! (s, p) := lift s (resolve s follow path) in
  match fs_names s !! p, node_at s p with
  | Some i, Some _ => (set_inode s i f, Ok tt)
  | _, _ => (s, Err ENOENT)
  end.

(** Changing the owner takes the set-user-ID and set-group-ID bits and the
    capabilities from a file that is not a directory. *)
Definition chown_perm (n : inode) : Z :=
  if is_dir n then i_perm n
  else
    let perm := Z.land (i_perm n) (Z.lnot 2048) in
    if decide (Z.land perm 8 = 0) then perm else Z.land perm (Z.lnot 1024).
Definition set_owner (uid gid : Z) (n : inode) : inode :=
  mkInode (i_kind n) (chown_perm n) uid gid (i_rdev n)
    (if is_dir n then i_xattrs n else delete "security.capability" (i_xattrs n))
    (i_atime n) (i_mtime n).
Definition os_Lchown (s : fs) (path : string) (uid gid : Z) : fs * outcome errno unit :=
  change_inode false s path (set_owner uid gid).

Definition set_perm (perm : Z) (n : inode) : inode :=
  mkInode (i_kind n) (Z.land perm 4095) (i_uid n) (i_gid n) (i_rdev n) (i_xattrs n)
    (i_atime n) (i_mtime n).
Definition os_Chmod (s : fs) (path : string) (perm : Z) : fs * outcome errno unit :=
  change_inode true s path (set_perm perm).

Definition set_times (atime mtime : Timespec) (n : inode) : inode :=
  mkInode (i_kind n) (i_perm n) (i_uid n) (i_gid n) (i_rdev n) (i_xattrs n) atime mtime.
Definition os_Chtimes (s : fs) (path : string) (atime mtime : Timespec) :
    fs * outcome errno unit :=
  change_inode true s path (set_times atime mtime).
Definition LUtimesNano (s : fs) (path : string) (atime mtime : Timespec) :
    fs * outcome errno unit :=
  change_inode false s path (set_times atime mtime).

Definition set_xattr (key : string) (value : list Z) (n : inode) : inode :=
  mkInode (i_kind n) (i_perm n) (i_uid n) (i_gid n) (i_rdev n)
    (<[key := value]> (i_xattrs n)) (i_atime n) (i_mtime n).
Definition Lsetxattr (s : fs) (path key : string) (value : list Z) :
    fs * outcome errno unit :=
  if fs_xattr s then change_inode false s path (set_xattr key value)
  else (s, Err ENOTSUP).
(** [Lgetxattr]: [None] is the nil slice. *)
Definition Lgetxattr (s : fs) (path key : string) : outcome errno (option (list Z)) :=
  match os_Lstat s path with
  | Ok n => if fs_xattr s then Ok (i_xattrs n !! key) else Err ENOTSUP
  | Err e => Err e
  | Panic m => Panic m
  | Diverge => Diverge
  end.

(** [os.RemoveAll]: nothing to remove is no error, and neither is a path through
    something that is not a directory.  The root stays. *)
Definition remove_below (s : fs) (p : name) : fs :=
  with_names s (filter (λ kv : list string * nat, ¬ p `prefix_of` kv.1) (fs_names s)).
Definition os_RemoveAll (s : fs) (path : string) : fs * outcome errno unit :=
  match resolve s false path with
  | Ok [] =>
      (with_names s (filter (λ kv : list string * nat, kv.1 = []) (fs_names s)), Err EBUSY)
  | Ok p => (remove_below s p, Ok tt)
  | Err e =>
      if decide (e = ENOENT ∨ e = ENOTDIR) then (s, Ok tt) else (s, Err e)
  | Panic m => (s, Panic m)
  | Diverge => (s, Diverge)
  end.

(** [os.MkdirAll] of an absolute path: every prefix of the path that does not exist
    is made. *)
Fixpoint mkdir_all (s : fs) (base : string) (cs : list string) (perm : Z) :
    fs * outcome errno unit :=
  match cs with
  | [] => (s, Ok tt)
  | c :: cs =>
      let dir := base +:+ "/" +:+ c in
      let! (s, _) :=
        match os_Stat s dir with
        | Ok n => (s, if is_dir n then Ok tt else Err ENOTDIR)
        | Err e => if os_IsNotExist e then os_Mkdir s dir perm else (s, Err e)
        | Panic m => (s, Panic m)
        | Diverge => (s, Diverge)
        end in
      mkdir_all s dir cs perm
  end.
Definition os_MkdirAll (s : fs) (path : string) (perm : Z) : fs * outcome errno unit :=
  mkdir_all s "" (filter (λ c, c ≠ "") (Split slash path)) perm.

(** The sorted names in a directory. *)

Definition readDirNames (s : fs) (p : name) : list string :=
  merge_sort String.le
    (omap (λ kv : list string * nat,
             match last kv.1 with
             | Some c => if decide (kv.1 = p ++ [c]) then Some c else None
             | None => None
             end) (map_to_list (fs_names s))).
