(* ===== verification/HostFSInv.v ===== *)
(** * Clean paths on the host's file system

    Lemmas about the paths that pkg/archive builds from a clean directory and clean
    relative names, about their resolution where no link is in the way, and about
    what each call does to the inodes of all names. *)

From S2P Require Import Prelude GoStrings GoPath Changes HostFS.

(** ** Clean paths as lists of components *)

Definition P (p : list string) : string := "/" +:+ Join p "/".

Lemma P_abs p : P p = abs_path (rev p).
Proof. unfold P, abs_path. by rewrite rev_involutive. Qed.

Lemma normal_slash p : Forall normal p → Forall (λ w, contains_char slash w = false) p.
Proof. intros Hp. eapply Forall_impl; [done|]. by intros x (_ & _ & _ & Hx). Qed.

Lemma P_inj p q : Forall normal p → Forall normal q → P p = P q → p = q.
Proof.
  intros Hp Hq. rewrite !P_abs. intros H%abs_path_inj; [|by apply Forall_rev..].
  rewrite <- (rev_involutive p), H. apply rev_involutive.
Qed.

Lemma Split_P p : Forall normal p → p ≠ [] → Split slash (P p) = "" :: p.
Proof.
  intros Hp Hne. unfold P.
  change ("/" +:+ Join p "/") with ("" +:+ String slash (Join p "/")).
  rewrite Split_app_sep. rewrite (Split_Join slash) by (done || by apply normal_slash). done.
Qed.

Lemma Split_rel p : Forall normal p → p ≠ [] → Split slash (Join p "/") = p.
Proof. intros Hp Hne. apply (Split_Join slash); [done|by apply normal_slash]. Qed.

Lemma foldl_push_rel st ws :
  Forall normal ws → foldl (push false) st ws = rev ws ++ st.
Proof.
  revert st. induction ws as [|w ws IH]; intros st Hws; [done|].
  apply Forall_cons in Hws as [(H1 & H2 & H3 & _) Hws]. cbn [foldl rev].
  rewrite IH by done. unfold push at 1. rewrite decide_False by naive_solver.
  rewrite decide_False by done. by rewrite <- app_assoc.
Qed.

Lemma IsAbs_String x s : IsAbs (String x s) = bool_decide (x = slash).
Proof.
  unfold IsAbs, HasPrefix. cbn [strip_prefix]. change "/"%char with slash.
  destruct (decide (slash = x)) as [<-|Hne]; simpl; [done|].
  rewrite bool_decide_false; [done|congruence].
Qed.

Lemma IsAbs_rel p : Forall normal p → IsAbs (Join p "/") = false.
Proof.
  destruct p as [|w p]; [done|]. intros [(Hw & _ & _ & Hs) _]%Forall_cons.
  destruct w as [|x w]; [done|]. cbn [contains_char] in Hs.
  apply orb_false_iff in Hs as [Hs _].
  assert (Hj : ∃ t, Join (String x w :: p) "/" = String x t).
  { destruct p; [by exists w|]. rewrite Join_cons. by eexists. }
  destruct Hj as [t ->]. rewrite IsAbs_String. by rewrite bool_decide_eq_false in Hs |- *.
Qed.

Lemma rev_cons_ne {A} (l : list A) : l ≠ [] → ∃ x m, rev l = x :: m ∧ l = rev m ++ [x].
Proof.
  intros Hne. destruct (rev l) as [|x m] eqn:E.
  - destruct Hne. rewrite <- (rev_involutive l). by rewrite E.
  - exists x, m. split; [done|]. rewrite <- (rev_involutive l), E. done.
Qed.

Lemma Clean_rel p : Forall normal p → p ≠ [] → Clean (Join p "/") = Join p "/".
Proof.
  intros Hp Hne. unfold Clean. rewrite IsAbs_rel by done. unfold walk.
  rewrite Split_rel, foldl_push_rel, app_nil_r by done.
  destruct (rev_cons_ne p Hne) as (x & m & E & Hx). rewrite E, <- E.
  by rewrite rev_involutive.
Qed.

Lemma append_slash p : p +:+ "/" = p +:+ String slash "".
Proof. done. Qed.

Lemma Clean_rel_slash p : Forall normal p → p ≠ [] → Clean (Join p "/" +:+ "/") = Join p "/".
Proof.
  intros Hp Hne. rewrite append_slash. unfold Clean.
  assert (Ha : IsAbs (Join p "/" +:+ String slash "") = false).
  { pose proof (IsAbs_rel p Hp) as Ha. destruct (Join p "/") as [|x t] eqn:E.
    - destruct p as [|w [|]]; [by destruct Hne| |].
      + simpl in E. subst w. by apply Forall_cons in Hp as [(H & _) _].
      + rewrite Join_cons in E. by destruct w.
    - change (String x t +:+ String slash "") with (String x (t +:+ String slash "")).
      by rewrite IsAbs_String in Ha |- *. }
  rewrite Ha. rewrite walk_sep. unfold walk.
  rewrite (Split_rel p), (foldl_push_rel [] p), app_nil_r by done.
  change (foldl (push false) (rev p) (Split slash "")) with (rev p).
  destruct (rev_cons_ne p Hne) as (x & m & E & Hx). rewrite E, <- E.
  by rewrite rev_involutive.
Qed.

Lemma P_nonempty p : P p ≠ "".
Proof. done. Qed.

(** Joining a clean directory with something: its components are pushed. *)
Lemma Join_stack d t :
  Forall normal d → filepath_Join (P d) t = abs_path (walk true (rev d) t).
Proof.
  intros Hd. unfold filepath_Join. rewrite decide_False by done.
  change (P d +:+ "/" +:+ t) with (String slash (Join d "/" +:+ String slash t)).
  rewrite Clean_abs, walk_sep. f_equal. f_equal.
  pose proof (walk_abs_path (rev d) [] (Forall_rev Hd)) as Hw.
  rewrite <- P_abs, app_nil_r in Hw. unfold P in Hw.
  change ("/" +:+ Join d "/") with ("" +:+ String slash (Join d "/")) in Hw.
  by rewrite walk_sep in Hw.
Qed.

Lemma Join_rel d q :
  Forall normal d → Forall normal q → q ≠ [] → filepath_Join (P d) (Join q "/") = P (d ++ q).
Proof.
  intros Hd Hq Hne. rewrite Join_stack by done. unfold walk.
  rewrite Split_rel, foldl_push_normal by done. by rewrite P_abs, rev_app_distr.
Qed.

Lemma Join_abs d q :
  Forall normal d → Forall normal q → filepath_Join (P d) (P q) = P (d ++ q).
Proof.
  intros Hd Hq. rewrite Join_stack by done. rewrite (P_abs q), walk_abs_path by by apply Forall_rev.
  by rewrite P_abs, rev_app_distr.
Qed.

Lemma Join_dot d : Forall normal d → filepath_Join (P d) "." = P d.
Proof. intros Hd. rewrite Join_stack by done. by rewrite P_abs. Qed.

Lemma last_app_single {A} (l : list A) (x d : A) : List.last (l ++ [x]) d = x.
Proof. induction l as [|a l IH]; [done|]. simpl. destruct (l ++ [x]) eqn:E; [by destruct l|done]. Qed.

Lemma Split_two_or_more p c :
  Forall normal (p ++ [c]) →
  ∃ a b ws, Split slash (P (p ++ [c])) = a :: b :: ws ∧ a :: b :: ws = ("" :: p) ++ [c].
Proof.
  intros Hp. rewrite Split_P by (done || by destruct p).
  destruct p as [|x p]; [by exists "", c, []|]. by exists "", x, (p ++ [c]).
Qed.

Lemma filepath_Split_P p c :
  Forall normal (p ++ [c]) →
  filepath_Split (P (p ++ [c])) = (Join ("" :: p) "/" +:+ "/", c).
Proof.
  intros Hp. destruct (Split_two_or_more p c Hp) as (a & b & ws & Hs & Hw).
  unfold filepath_Split. rewrite Hs, Hw. by rewrite removelast_last, last_app_single.
Qed.

Lemma Dir_P p c : Forall normal (p ++ [c]) → filepath_Dir (P (p ++ [c])) = P p.
Proof.
  intros Hp. unfold filepath_Dir. rewrite filepath_Split_P by done. cbn [fst].
  apply Forall_app in Hp as [Hp _].
  destruct p as [|x p]; [done|]. rewrite Join_cons, append_slash.
  change ("" +:+ "/" +:+ Join (x :: p) "/") with (P (x :: p)).
  change (P (x :: p) +:+ String slash "") with (String slash (Join (x :: p) "/" +:+ String slash "")).
  rewrite Clean_abs, walk_sep.
  pose proof (walk_abs_path (rev (x :: p)) [] (Forall_rev Hp)) as Hw.
  rewrite <- P_abs, app_nil_r in Hw. unfold P in Hw.
  change ("/" +:+ Join (x :: p) "/") with ("" +:+ String slash (Join (x :: p) "/")) in Hw.
  rewrite walk_sep in Hw. change (walk true [] "") with (@nil string) in Hw. rewrite Hw.
  change (walk true ?st "") with st. by rewrite P_abs.
Qed.

Lemma TrimRight_slash_id s x :
  x ≠ slash → TrimRight (λ c, bool_decide (c = slash)) (s +:+ String x "") = s +:+ String x "".
Proof.
  intros Hx. induction s as [|a s IH].
  - change ("" +:+ String x "") with (String x ""). simpl. by rewrite bool_decide_false.
  - change (String a s +:+ String x "") with (String a (s +:+ String x "")). cbn [TrimRight].
    rewrite IH. destruct s; done.
Qed.

Lemma string_snoc (s : string) : s ≠ "" → ∃ t x, s = t +:+ String x "".
Proof.
  induction s as [|a s IH]; [done|]. intros _. destruct s as [|b s]; [by exists "", a|].
  destruct IH as (t & x & ->); [done|]. by exists (String a t), x.
Qed.

Lemma Join_snoc p c : p ≠ [] → Join (p ++ [c]) "/" = Join p "/" +:+ "/" +:+ c.
Proof.
  induction p as [|w p IH]; [done|]. intros _. destruct p as [|x p]; [done|].
  cbn [app] in *. rewrite !Join_cons, IH by done. by rewrite !append_assoc.
Qed.

Lemma Join_app_ne p r : p ≠ [] → r ≠ [] → Join (p ++ r) "/" = Join p "/" +:+ "/" +:+ Join r "/".
Proof.
  intros Hp Hr. induction p as [|w p IH]; [done|]. destruct p as [|x p]; [by destruct r|].
  cbn [app] in *. rewrite !Join_cons, IH by done. by rewrite !append_assoc.
Qed.

Lemma P_prefix p r : HasPrefix (P (p ++ r)) (P p) = true.
Proof.
  apply HasPrefix_spec. destruct (decide (p = [])) as [->|Hp]; [by exists (Join r "/")|].
  destruct (decide (r = [])) as [->|Hr]; [exists ""; by rewrite app_nil_r, append_nil_r|].
  exists ("/" +:+ Join r "/"). unfold P. by rewrite append_assoc, Join_app_ne.
Qed.

Lemma P_snoc_str p c : ∃ t, P (p ++ [c]) = t +:+ c.
Proof.
  destruct p as [|x p]; [by exists "/"|]. unfold P. rewrite Join_snoc by done.
  exists ("/" +:+ Join (x :: p) "/" +:+ "/"). by rewrite !append_assoc.
Qed.

Lemma Base_P p c : Forall normal (p ++ [c]) → filepath_Base (P (p ++ [c])) = c.
Proof.
  intros Hp. unfold filepath_Base. rewrite decide_False by done.
  assert (Ht : TrimRight (λ c, bool_decide (c = slash)) (P (p ++ [c])) = P (p ++ [c])).
  { destruct (P_snoc_str p c) as [t ->]. apply Forall_app in Hp as [_ [(Hc & _ & _ & Hs) _]%Forall_cons].
    destruct (string_snoc c Hc) as (c' & x & ->). rewrite <- append_assoc.
    apply TrimRight_slash_id. intros ->. rewrite contains_char_app in Hs.
    apply orb_false_iff in Hs as [_ Hs]. cbn [contains_char] in Hs.
    by rewrite bool_decide_true in Hs. }
  rewrite Ht, decide_False by done. by rewrite filepath_Split_P.
Qed.

Lemma Dir_rel p c : Forall normal (p ++ [c]) →
  filepath_Dir (Join (p ++ [c]) "/") = match p with [] => "." | _ => Join p "/" end.
Proof.
  intros Hp. unfold filepath_Dir, filepath_Split. rewrite Split_rel by (done || by destruct p).
  destruct p as [|x p]; [done|]. cbn [app].
  destruct (p ++ [c]) as [|y ws] eqn:E; [by destruct p|].
  rewrite <- E. change (x :: p ++ [c]) with ((x :: p) ++ [c]). rewrite removelast_last. cbn [fst].
  apply Forall_app in Hp as [Hp _]. by apply Clean_rel_slash.
Qed.

Lemma Join_Dir d p c : Forall normal d → Forall normal (p ++ [c]) →
  filepath_Join (P d) (filepath_Dir (Join (p ++ [c]) "/")) = P (d ++ p).
Proof.
  intros Hd Hp. rewrite Dir_rel by done. destruct p as [|x p].
  - by rewrite app_nil_r, Join_dot.
  - apply Join_rel; [done| |done]. by apply Forall_app in Hp as [Hp _].
Qed.

Lemma HasSuffix_rel p : Forall normal p → p ≠ [] → HasSuffix_slash (Join p "/") = false.
Proof.
  intros Hp Hne. unfold HasSuffix_slash. rewrite Split_rel by done.
  apply bool_decide_eq_false. intros [Hl _].
  destruct (rev_cons_ne p Hne) as (x & m & _ & ->). rewrite last_app_single in Hl. subst x.
  by apply Forall_app in Hp as [_ [(H & _) _]%Forall_cons].
Qed.

Lemma drop_shared_app d q : drop_shared d (d ++ q) = ([], q).
Proof. induction d as [|x d IH]; [by destruct q|]. simpl. by rewrite decide_True. Qed.

Lemma elements_P p : Forall normal p → elements (P p) = p.
Proof.
  intros Hp. unfold elements. rewrite decide_False by done. destruct (decide (p = [])) as [->|Hne]; [done|].
  rewrite Split_P by done. rewrite filter_cons_False by (by intros H; apply H).
  induction Hp as [|w p (Hw & _) Hp IH]; [done|]. rewrite filter_cons_True by done. f_equal.
  destruct p; [done|]. by apply IH.
Qed.

Lemma Clean_P p : Forall normal p → Clean (P p) = P p.
Proof. intros Hp. rewrite P_abs. by apply Clean_abs_path, Forall_rev. Qed.

Lemma Rel_P d q : Forall normal d → Forall normal q → q ≠ [] →
  filepath_Rel (P d) (P (d ++ q)) = Ok (Join q "/").
Proof.
  intros Hd Hq Hne. unfold filepath_Rel. rewrite !Clean_P by (try apply Forall_app; done).
  rewrite decide_False; cycle 1.
  { intros Heq%P_inj; [|done|by apply Forall_app]. apply Hne.
    rewrite <- (app_nil_r d) in Heq at 1. by apply app_inv_head in Heq. }
  change (IsAbs (P d)) with true. change (IsAbs (P (d ++ q))) with true. cbn [eqb negb].
  rewrite !elements_P by (try apply Forall_app; done). rewrite drop_shared_app.
  by rewrite decide_False.
Qed.

(** A prefix without a separator lies in the first component. *)
Lemma HasPrefix_first pre w ws :
  contains_char slash pre = false → HasPrefix (Join (w :: ws) "/") pre = true →
  HasPrefix w pre = true.
Proof.
  destruct ws as [|x ws]; [done|]. rewrite Join_cons, !HasPrefix_spec. intros Hs [r Hr].
  revert w Hr. induction pre as [|a pre IH]; intros w Hr; [by exists w|].
  cbn [contains_char] in Hs. apply orb_false_iff in Hs as [Ha Hs].
  rewrite bool_decide_eq_false in Ha. destruct w as [|b w].
  { change ("" +:+ "/" +:+ Join (x :: ws) "/") with (String slash (Join (x :: ws) "/")) in Hr.
    change (String a pre +:+ r) with (String a (pre +:+ r)) in Hr. by injection Hr as <-. }
  change (String b w +:+ "/" +:+ Join (x :: ws) "/") with
    (String b (w +:+ "/" +:+ Join (x :: ws) "/")) in Hr.
  change (String a pre +:+ r) with (String a (pre +:+ r)) in Hr. injection Hr as -> Hr.
  destruct (IH Hs w Hr) as [t ->]. by exists t.
Qed.

Lemma HasPrefix_dotdot w ws : normal w → HasPrefix (Join (w :: ws) "/") "../" = false.
Proof.
  intros (_ & _ & Hw & Hs). destruct (HasPrefix _ _) eqn:E; [|done].
  apply HasPrefix_spec in E as [r E].
  change ("../" +:+ r) with (".." +:+ String slash r) in E. destruct ws as [|x ws].
  - cbn [Join] in E. subst w. by rewrite contains_char_app in Hs.
  - rewrite Join_cons in E. change ("/" +:+ Join (x :: ws) "/") with
      (String slash (Join (x :: ws) "/")) in E.
    apply (f_equal (cut_at slash)) in E. rewrite !cut_at_append in E; [|done|by apply cut_at_None].
    by injection E as E _.
Qed.

(** ** Resolution without links *)

Definition dir_at (s : fs) (p : list string) : Prop :=
  ∃ n, node_at s p = Some n ∧ is_dir n = true.
Definition dirs_above (s : fs) (p : list string) : Prop :=
  dir_at s [] ∧ ∀ q c r, p = q ++ c :: r → dir_at s q.
Definition link_free (s : fs) (p : list string) : Prop :=
  ∀ n, node_at s p = Some n → is_symlink n = false.

Lemma namei_literal s follow rec cur cs :
  Forall normal cs → (∀ q c r, cs = q ++ c :: r → dir_at s (cur ++ q)) →
  (follow = true → link_free s (cur ++ cs)) →
  namei_go s follow rec cur cs = Ok (cur ++ cs).
Proof.
  revert cur. induction cs as [|c cs IH]; intros cur Hn Hd Hl; [by rewrite app_nil_r|].
  apply Forall_cons in Hn as [(H1 & H2 & H3 & _) Hn]. cbn [namei_go].
  destruct (Hd [] c cs eq_refl) as (d & Hcur & Hdir). rewrite app_nil_r in Hcur.
  rewrite Hcur, Hdir. cbn [negb]. rewrite decide_False by naive_solver. rewrite decide_False by done.
  assert (Hgo : namei_go s follow rec (cur ++ [c]) cs = Ok (cur ++ c :: cs)).
  { rewrite IH, <- app_assoc; [done|done| |].
    - intros q c' r ->. specialize (Hd (c :: q) c' r eq_refl). by rewrite <- app_assoc.
    - intros Hf. rewrite <- app_assoc. by apply Hl. }
  destruct cs as [|c' cs].
  - destruct (node_at s (cur ++ [c])) as [n|] eqn:E; [|done].
    destruct (i_kind n) eqn:K; try done. destruct follow; [|done].
    specialize (Hl eq_refl n E). unfold is_symlink in Hl. by rewrite K in Hl.
  - destruct (Hd [c] c' cs eq_refl) as (n & Hc & Hdn). rewrite Hc. unfold is_dir in Hdn.
    by destruct (i_kind n).
Qed.

Lemma namei_unfold s follow links cur cs :
  namei s follow links cur cs =
    namei_go s follow (match links with O => λ _ _, Err ELOOP | S l => namei s follow l end) cur cs.
Proof. by destruct links. Qed.

Lemma resolve_literal s follow p :
  Forall normal p → dirs_above s p → (follow = true → link_free s p) →
  resolve s follow (P p) = Ok p.
Proof.
  intros Hn [(d & Hroot & Hd) Hdirs] Hl. unfold resolve. rewrite decide_False by done.
  change (IsAbs (P p)) with true. cbn iota. rewrite namei_unfold. generalize (match max_links with O => λ _ _, Err ELOOP | S l => namei s follow l end).
  intros rec.
  destruct (decide (p = [])) as [->|Hne].
  - change (Split slash (P [])) with [""; ""]. cbn [namei_go]. rewrite Hroot, Hd. done.
  - rewrite Split_P by done. cbn [namei_go]. rewrite Hroot, Hd. cbn [negb].
    rewrite decide_True by by left. by apply (namei_literal s follow rec []).
Qed.

Lemma resolve_under_file s follow p c n :
  Forall normal (p ++ [c]) → dirs_above s p → node_at s p = Some n → is_dir n = false →
  is_symlink n = false → resolve s follow (P (p ++ [c])) = Err ENOTDIR.
Proof.
  intros Hn [(d & Hroot & Hd) Hdirs] Hp Hnd Hnl. unfold resolve. rewrite decide_False by done.
  change (IsAbs (P (p ++ [c]))) with true. cbn iota. rewrite namei_unfold.
  generalize (match max_links with O => λ _ _, Err ELOOP | S l => namei s follow l end).
  intros rec.
  rewrite Split_P by (done || by destruct p). cbn [namei_go]. rewrite Hroot, Hd. cbn [negb].
  rewrite decide_True by by left. fold (namei_go s follow rec).
  assert (Hgo : ∀ cur cs, Forall normal cs → (∀ q c' r, cs = q ++ c' :: r → dir_at s (cur ++ q)) →
    node_at s (cur ++ cs) = Some n → namei_go s follow rec cur (cs ++ [c]) = Err ENOTDIR).
  { intros cur cs. revert cur. induction cs as [|x cs IH]; intros cur Hcs Hds Hend.
    - rewrite app_nil_r in Hend. cbn [app namei_go]. by rewrite Hend, Hnd.
    - apply Forall_cons in Hcs as [(H1 & H2 & H3 & _) Hcs]. cbn [app namei_go].
      destruct (Hds [] x cs eq_refl) as (dd & Hcur & Hdir). rewrite app_nil_r in Hcur.
      rewrite Hcur, Hdir. cbn [negb]. rewrite decide_False by naive_solver.
      rewrite decide_False by done. fold (namei_go s follow rec).
      assert (Hex : ∃ m, node_at s (cur ++ [x]) = Some m ∧ is_symlink m = false).
      { destruct cs as [|y cs]; [by exists n|]. destruct (Hds [x] y cs eq_refl) as (m & Hm & Hdm).
        exists m. split; [done|]. unfold is_dir in Hdm. unfold is_symlink. by destruct (i_kind m). }
      destruct Hex as (m & Hm & Hlm). rewrite Hm. unfold is_symlink in Hlm.
      assert (Hgo : namei_go s follow rec (cur ++ [x]) (cs ++ [c]) = Err ENOTDIR).
      { apply IH; [done| |by rewrite <- app_assoc]. intros q c' r ->.
        specialize (Hds (x :: q) c' r eq_refl). by rewrite <- app_assoc. }
      by destruct (i_kind m). }
  apply Hgo; [by apply Forall_app in Hn as [Hn _]|done|done].
Qed.

Lemma Lstat_literal s p :
  Forall normal p → dirs_above s p →
  os_Lstat s (P p) = match node_at s p with Some n => Ok n | None => Err ENOENT end.
Proof. intros Hn Hd. unfold os_Lstat, stat_with. by rewrite resolve_literal. Qed.

(** ** What the calls do to the inodes of the names *)

(** The inodes in use are below [fs_next], and every name has one. *)
Record fs_wf (s : fs) : Prop := {
  wf_inode : ∀ p i, fs_names s !! p = Some i → is_Some (fs_inodes s !! i) ∧ (i < fs_next s)%nat;
  wf_dir : ∀ p q i n, fs_names s !! p = Some i → fs_names s !! q = Some i →
    fs_inodes s !! i = Some n → is_dir n = true → p = q
}.

Lemma node_at_Some s p i : fs_names s !! p = Some i → node_at s p = fs_inodes s !! i.
Proof. intros H. unfold node_at. by rewrite H. Qed.
Lemma node_at_name s p n : node_at s p = Some n → ∃ i, fs_names s !! p = Some i ∧ fs_inodes s !! i = Some n.
Proof. unfold node_at. by intros H%bind_Some. Qed.

Lemma node_at_None s p : fs_wf s → node_at s p = None → fs_names s !! p = None.
Proof.
  intros Hwf. unfold node_at. destruct (fs_names s !! p) as [i|] eqn:E; [|done].
  destruct (wf_inode _ Hwf _ _ E) as [[n Hn] _]. simpl. by rewrite Hn.
Qed.

Lemma node_at_create s p n q :
  fs_wf s → node_at (create_at s p n) q = if decide (q = p) then Some n else node_at s q.
Proof.
  intros Hwf. unfold node_at, create_at. cbn [fs_names fs_inodes]. case_decide as E.
  - subst q. rewrite lookup_insert_eq. simpl. by rewrite lookup_insert_eq.
  - rewrite lookup_insert_ne by done. destruct (fs_names s !! q) as [i|] eqn:Hi; [|done]. simpl.
    rewrite lookup_insert_ne; [done|]. intros Hc. apply (wf_inode _ Hwf) in Hi as [_ Hi]. lia.
Qed.

Lemma create_wf s p n : fs_wf s → node_at s p = None → fs_wf (create_at s p n).
Proof.
  intros Hwf Hp. split; unfold create_at; cbn [fs_names fs_inodes fs_next].
  - intros q i [[<- <-]|[Hne Hq]]%lookup_insert_Some.
    + rewrite lookup_insert_eq. split; [by eexists|lia].
    + destruct (wf_inode _ Hwf _ _ Hq) as [Hs Hi]. split; [|lia].
      rewrite lookup_insert_ne by lia. done.
  - intros q r i m [[<- <-]|[Hne Hq]]%lookup_insert_Some [[<- Hi]|[Hne' Hr]]%lookup_insert_Some Hm Hd;
      try done.
    + by apply (wf_inode _ Hwf) in Hr as [_ Hr]; lia.
    + apply (wf_inode _ Hwf) in Hq as [_ Hq]; lia.
    + rewrite lookup_insert_ne in Hm; [by eapply wf_dir|].
      intros <-. apply (wf_inode _ Hwf) in Hq as [_ Hq]; lia.
Qed.

Lemma node_at_remove s p q :
  node_at (remove_below s p) q = if decide (p `prefix_of` q) then None else node_at s q.
Proof.
  unfold node_at, remove_below. cbn [fs_names fs_inodes with_names].
  case_decide as E.
  - by rewrite (proj2 (map_lookup_filter_None _ _ _)); [|right; intros i _ Hn; destruct (Hn E)].
  - destruct (fs_names s !! q) as [i|] eqn:Hq.
    + by rewrite (proj2 (map_lookup_filter_Some _ _ _ i)).
    + rewrite (proj2 (map_lookup_filter_None _ _ _)); [done|by left].
Qed.

Lemma names_remove s p q i :
  fs_names (remove_below s p) !! q = Some i ↔ fs_names s !! q = Some i ∧ ¬ p `prefix_of` q.
Proof. unfold remove_below. cbn [fs_names with_names]. by rewrite map_lookup_filter_Some. Qed.

Lemma remove_wf s p : fs_wf s → fs_wf (remove_below s p).
Proof.
  intros Hwf. split.
  - intros q i [Hq _]%names_remove. by apply (wf_inode _ Hwf) in Hq.
  - intros q r i n [Hq _]%names_remove [Hr _]%names_remove. by apply (wf_dir _ Hwf).
Qed.

Lemma node_at_set s i f q :
  node_at (set_inode s i f) q =
    if decide (fs_names s !! q = Some i) then f <$> node_at s q else node_at s q.
Proof.
  unfold node_at, set_inode. cbn [fs_names fs_inodes with_inodes].
  destruct (fs_names s !! q) as [j|]; [|by case_decide]. simpl. case_decide as E.
  - injection E as ->. by rewrite lookup_alter_eq.
  - rewrite lookup_alter_ne; [done|]. by intros ->.
Qed.

Definition keeps_kind (f : inode → inode) : Prop := ∀ n, i_kind (f n) = i_kind n.

Lemma keeps_dir f n : keeps_kind f → is_dir (f n) = is_dir n.
Proof. intros Hf. unfold is_dir. by rewrite Hf. Qed.

Lemma set_wf s i f : keeps_kind f → fs_wf s → fs_wf (set_inode s i f).
Proof.
  intros Hf Hwf. split; unfold set_inode; cbn [fs_names fs_inodes fs_next with_inodes].
  - intros q j Hq. destruct (wf_inode _ Hwf _ _ Hq) as [Hs Hj]. split; [|done].
    apply lookup_alter_is_Some. done.
  - intros q r j n Hq Hr Hn Hd. apply lookup_alter_Some in Hn as [(<- & n' & Hn & ->)|[_ Hn]].
    + rewrite keeps_dir in Hd by done. by eapply wf_dir.
    + by eapply wf_dir.
Qed.

Lemma dir_at_set s i f q : keeps_kind f → dir_at s q → dir_at (set_inode s i f) q.
Proof.
  intros Hf (n & Hn & Hd). rewrite <- (keeps_dir f n Hf) in Hd. unfold dir_at.
  rewrite node_at_set, Hn. case_decide; [by exists (f n)|].
  exists n. by rewrite keeps_dir in Hd.
Qed.
Lemma dirs_above_set s i f p : keeps_kind f → dirs_above s p → dirs_above (set_inode s i f) p.
Proof. intros Hf [Hr Hd]. split; [by apply dir_at_set|]. intros q c r E. eauto using dir_at_set. Qed.

Lemma change_inode_literal follow s p i n f :
  Forall normal p → dirs_above s p → fs_names s !! p = Some i → node_at s p = Some n →
  (follow = true → is_symlink n = false) →
  change_inode follow s (P p) f = (set_inode s i f, Ok tt).
Proof.
  intros Hn Hd Hi Hp Hl. unfold change_inode, lift.
  rewrite resolve_literal; [|done|done|intros Hf m Hm; rewrite Hp in Hm; injection Hm as <-; auto].
  cbn [and_then]. by rewrite Hi, Hp.
Qed.

Lemma set_set s i f g : set_inode (set_inode s i f) i g = set_inode s i (g ∘ f).
Proof.
  unfold set_inode, with_inodes. cbn [fs_names fs_inodes fs_next fs_xattr fs_cwd].
  f_equal. apply map_eq. intros j. destruct (decide (i = j)) as [->|Hne].
  - rewrite !lookup_alter_eq. by destruct (fs_inodes s !! j).
  - by rewrite !lookup_alter_ne.
Qed.
Lemma set_id s i : set_inode s i id = s.
Proof.
  unfold set_inode, with_inodes. destruct s as [ns ins nx x c]. cbn. f_equal.
  apply map_eq. intros j. destruct (decide (i = j)) as [->|Hne].
  - rewrite lookup_alter_eq. by destruct (ins !! j).
  - by rewrite lookup_alter_ne.
Qed.
