(* ===== verification/Archive.v ===== *)
(** * pkg/archive: packing changes into a layer and unpacking a layer

    The model of pkg/archive/diff.go (UnpackLayer, applyLayerHandler), of
    [createTarFile] and [tarAppender.addTarFile] of archive.go with archive_unix.go,
    of the overlay whiteout conversion (archive_linux.go) and of [ExportChanges] and
    [ChangesSize] of changes.go, over the file system of HostFS.  An archive is the
    list of its entries: a header and the data.  Writing an archive and reading it
    back keeps the headers up to the fractions of seconds and the access times
    ([tar_stream]), which is what archive/tar does.  Modes are those of the kernel;
    [hdr.FileInfo().Mode()] and [tar.FileInfoHeader] convert between the two forms
    without loss. *)

From S2P Require Import Prelude GoStrings GoPath IDTools Changes HostFS.
Open Scope Z_scope.

Inductive typeflag :=
| TypeReg | TypeRegA | TypeLink | TypeSymlink | TypeChar | TypeBlock | TypeDir | TypeFifo
| TypeXGlobalHeader | TypeOther (c : ascii).
#[global] Instance typeflag_eq_dec : EqDecision typeflag.
Proof. solve_decision. Defined.

Record Header := mkHeader {
  h_Name : string;
  h_Mode : Z;
  h_Uid : Z;
  h_Gid : Z;
  h_Size : Z;
  h_ModTime : Timespec;
  h_AccessTime : Timespec;
  h_Typeflag : typeflag;
  h_Linkname : string;
  h_Devmajor : Z;
  h_Devminor : Z;
  h_Xattrs : list (string * list Z)
}.

Definition set_Name (h : Header) (n : string) : Header :=
  mkHeader n (h_Mode h) (h_Uid h) (h_Gid h) (h_Size h) (h_ModTime h) (h_AccessTime h)
    (h_Typeflag h) (h_Linkname h) (h_Devmajor h) (h_Devminor h) (h_Xattrs h).
Definition set_ids (h : Header) (uid gid : Z) : Header :=
  mkHeader (h_Name h) (h_Mode h) uid gid (h_Size h) (h_ModTime h) (h_AccessTime h)
    (h_Typeflag h) (h_Linkname h) (h_Devmajor h) (h_Devminor h) (h_Xattrs h).
Definition set_device (h : Header) (major minor : Z) : Header :=
  mkHeader (h_Name h) (h_Mode h) (h_Uid h) (h_Gid h) (h_Size h) (h_ModTime h)
    (h_AccessTime h) (h_Typeflag h) (h_Linkname h) major minor (h_Xattrs h).
Definition set_link (h : Header) (target : string) : Header :=
  mkHeader (h_Name h) (h_Mode h) (h_Uid h) (h_Gid h) 0 (h_ModTime h) (h_AccessTime h)
    TypeLink target (h_Devmajor h) (h_Devminor h) (h_Xattrs h).
Definition set_Xattrs (h : Header) (xs : list (string * list Z)) : Header :=
  mkHeader (h_Name h) (h_Mode h) (h_Uid h) (h_Gid h) (h_Size h) (h_ModTime h)
    (h_AccessTime h) (h_Typeflag h) (h_Linkname h) (h_Devmajor h) (h_Devminor h) xs.

Inductive archive_error :=
| Errno (e : errno)
| breakoutError (what name : string)
| InvalidAufsHardlink
| UnhandledType (t : typeflag)
| IDError (msg : string)
| TarError (msg : string).

(** ** Whiteouts *)

Definition WhiteoutPrefix : string := ".wh.".
Definition WhiteoutMetaPrefix : string := WhiteoutPrefix +:+ WhiteoutPrefix.
Definition WhiteoutLinkDir : string := WhiteoutMetaPrefix +:+ "plnk".
Definition WhiteoutOpaqueDir : string := WhiteoutMetaPrefix +:+ ".opq".

(** ** Device numbers *)

Definition major (device : Z) : Z := Z.land (Z.shiftr device 8) 4095.
Definition minor (device : Z) : Z :=
  Z.lor (Z.land device 255) (Z.land (Z.shiftr device 12) 1048320).
(** The result is a [uint32]. *)
Definition Mkdev (major minor : Z) : Z :=
  Z.lor (Z.lor (Z.shiftl (Z.land minor 1048320) 12) (Z.shiftl (Z.land major 4095) 8))
    (Z.land minor 255) `mod` 2 ^ 32.

(** ** Extraction of one entry *)

Definition time_before (a b : Timespec) : bool :=
  bool_decide (ts_Sec a < ts_Sec b ∨ ts_Sec a = ts_Sec b ∧ ts_Nsec a < ts_Nsec b).

(** [system.Chtimes] puts a time outside of what the kernel takes to the epoch. *)
Definition maxTime : Timespec := mkTimespec 9223372036 854775807.
Definition unixMinTime : Timespec := mkTimespec 0 0.
Definition clamp_time (t : Timespec) : Timespec :=
  if time_before t unixMinTime || time_before maxTime t then unixMinTime else t.
Definition system_Chtimes (s : fs) (path : string) (atime mtime : Timespec) :
    fs * outcome errno unit :=
  os_Chtimes s path (clamp_time atime) (clamp_time mtime).

Definition errno_result {A} (r : fs * outcome errno A) : fs * outcome archive_error A :=
  match r with
  | (s, Ok a) => (s, Ok a)
  | (s, Err e) => (s, Err (Errno e))
  | (s, Panic m) => (s, Panic m)
  | (s, Diverge) => (s, Diverge)
  end.

Definition handleTarTypeBlockCharFifo (s : fs) (hdr : Header) (path : string) :
    fs * outcome errno unit :=
  let mode := Z.land (h_Mode hdr) 4095 in
  let dev := Mkdev (h_Devmajor hdr) (h_Devminor hdr) in
  match h_Typeflag hdr with
  | TypeBlock => os_Mknod s path KBlock mode dev
  | TypeChar => os_Mknod s path KChar mode dev
  | TypeFifo => os_Mknod s path KFifo mode 0
  | _ => os_Mknod s path (KReg "") mode 0
  end.

(** [os.Lstat(hdr.Linkname)] succeeds and is not a symbolic link. *)
Definition link_target_ok (s : fs) (hdr : Header) : bool :=
  match os_Lstat s (h_Linkname hdr) with Ok fi => negb (is_symlink fi) | _ => false end.

Definition handleLChmod (s : fs) (hdr : Header) (path : string) : fs * outcome errno unit :=
  match h_Typeflag hdr with
  | TypeLink =>
      if link_target_ok s hdr then os_Chmod s path (h_Mode hdr) else (s, Ok tt)
  | TypeSymlink => (s, Ok tt)
  | _ => os_Chmod s path (h_Mode hdr)
  end.

(** The object of the entry. *)
Definition create_object (s : fs) (path extractDir : string) (hdr : Header) (data : string) :
    fs * outcome archive_error unit :=
  match h_Typeflag hdr with
  | TypeDir =>
      match os_Lstat s path with
      | Ok fi =>
          if is_dir fi then (s, Ok tt) else errno_result (os_Mkdir s path (h_Mode hdr))
      | _ => errno_result (os_Mkdir s path (h_Mode hdr))
      end
  | TypeReg | TypeRegA => errno_result (os_WriteFile s path (h_Mode hdr) data)
  | TypeBlock | TypeChar | TypeFifo => errno_result (handleTarTypeBlockCharFifo s hdr path)
  | TypeLink =>
      let targetPath := filepath_Join extractDir (h_Linkname hdr) in
      if negb (HasPrefix targetPath extractDir) then
        (s, Err (breakoutError "invalid hardlink" (h_Linkname hdr)))
      else errno_result (os_Link s targetPath path)
  | TypeSymlink =>
      let targetPath := filepath_Join (filepath_Dir path) (h_Linkname hdr) in
      if negb (HasPrefix targetPath extractDir) then
        (s, Err (breakoutError "invalid symlink" (h_Linkname hdr)))
      else errno_result (os_Symlink s (h_Linkname hdr) path)
  | t => (s, Err (UnhandledType t))
  end.

(** Extended attributes that the file system does not support are skipped. *)
Fixpoint set_xattrs (s : fs) (path : string) (xs : list (string * list Z)) :
    fs * outcome errno unit :=
  match xs with
  | [] => (s, Ok tt)
  | (key, value) :: xs =>
      match Lsetxattr s path key value with
      | (s, Err ENOTSUP) => set_xattrs s path xs
      | (s, Ok _) => set_xattrs s path xs
      | r => r
      end
  end.

Definition set_entry_times (s : fs) (path : string) (hdr : Header) : fs * outcome errno unit :=
  let aTime :=
    if time_before (h_AccessTime hdr) (h_ModTime hdr) then h_ModTime hdr else h_AccessTime hdr in
  match h_Typeflag hdr with
  | TypeLink =>
      if link_target_ok s hdr then system_Chtimes s path aTime (h_ModTime hdr) else (s, Ok tt)
  | TypeSymlink => LUtimesNano s path aTime (h_ModTime hdr)
  | _ => system_Chtimes s path aTime (h_ModTime hdr)
  end.

(** The owner first, since changing it may take other attributes away. *)
Definition set_attributes (s : fs) (path : string) (hdr : Header) (chownOpts : option (Z * Z)) :
    fs * outcome errno unit :=
  let '(uid, gid) := default (h_Uid hdr, h_Gid hdr) chownOpts in
  let! (s, _) := os_Lchown s path uid gid in
  let! (s, _) := set_xattrs s path (h_Xattrs hdr) in
  let! (s, _) := handleLChmod s hdr path in
  set_entry_times s path hdr.

(** [createTarFile] with [Lchown]; [chownOpts] overrides the owner of the header. *)
Definition createTarFile (s : fs) (path extractDir : string) (hdr : Header) (data : string)
    (chownOpts : option (Z * Z)) : fs * outcome archive_error unit :=
  if decide (h_Typeflag hdr = TypeXGlobalHeader) then (s, Ok tt)
  else
    let! (s, _) := create_object s path extractDir hdr data in
    errno_result (set_attributes s path hdr chownOpts).

(** ** UnpackLayer *)

Record TarOptions := mkOptions {
  to_UIDMaps : option (list IDMap);
  to_GIDMaps : option (list IDMap)
}.

(** The variables of the loop of [UnpackLayer], with the file system.
    [u_aufsHardlinks] holds pointers to headers: assigning to a field of one is
    seen by every later use. *)
Record unpack := mkUnpack {
  u_fs : fs;
  u_size : Z;
  u_dirs : list Header;
  u_unpackedPaths : gset string;
  u_aufsTempdir : string;
  u_aufsHardlinks : gmap string Header
}.
Definition with_fs (u : unpack) (s : fs) : unpack :=
  mkUnpack s (u_size u) (u_dirs u) (u_unpackedPaths u) (u_aufsTempdir u) (u_aufsHardlinks u).
Definition add_size (u : unpack) (n : Z) : unpack :=
  mkUnpack (u_fs u) (wrap64 (u_size u + n)) (u_dirs u) (u_unpackedPaths u) (u_aufsTempdir u)
    (u_aufsHardlinks u).
Definition add_dir (u : unpack) (hdr : Header) : unpack :=
  mkUnpack (u_fs u) (u_size u) (u_dirs u ++ [hdr]) (u_unpackedPaths u) (u_aufsTempdir u)
    (u_aufsHardlinks u).
Definition add_path (u : unpack) (path : string) : unpack :=
  mkUnpack (u_fs u) (u_size u) (u_dirs u) ({[path]} ∪ u_unpackedPaths u) (u_aufsTempdir u)
    (u_aufsHardlinks u).
Definition with_tempdir (u : unpack) (d : string) : unpack :=
  mkUnpack (u_fs u) (u_size u) (u_dirs u) (u_unpackedPaths u) d (u_aufsHardlinks u).
Definition with_hardlink (u : unpack) (b : string) (hdr : Header) : unpack :=
  mkUnpack (u_fs u) (u_size u) (u_dirs u) (u_unpackedPaths u) (u_aufsTempdir u)
    (<[b := hdr]> (u_aufsHardlinks u)).

Definition on_fs {A} (u : unpack) (r : fs * outcome archive_error A) :
    unpack * outcome archive_error A := (with_fs u r.1, r.2).
Definition on_errno {A} (u : unpack) (r : fs * outcome errno A) :
    unpack * outcome archive_error A := on_fs u (errno_result r).
Definition id_result {A} (u : unpack) (r : outcome string A) :
    unpack * outcome archive_error A :=
  (u, match r with
      | Ok a => Ok a | Err e => Err (IDError e) | Panic m => Panic m | Diverge => Diverge
      end).

Section unpack.
Context (tempdir dest : string) (options : TarOptions).

(** The directory of the entry is made if it is missing. *)
Definition ensure_parent (u : unpack) (hdr : Header) : unpack * outcome archive_error unit :=
  if HasSuffix_slash (h_Name hdr) then (u, Ok tt)
  else
    let parentPath := filepath_Join dest (filepath_Dir (h_Name hdr)) in
    match os_Lstat (u_fs u) parentPath with
    | Err e =>
        if os_IsNotExist e then on_errno u (os_MkdirAll (u_fs u) parentPath 384) else (u, Ok tt)
    | _ => (u, Ok tt)
    end.

(** Entries of the metadata of AUFS: files below .wh..wh.plnk are kept aside, as the
    targets of hard links.  The result tells whether the entry is done. *)
Definition aufs_metadata (u : unpack) (hdr : Header) (data : string) :
    unpack * outcome archive_error bool :=
  if HasPrefix (h_Name hdr) WhiteoutMetaPrefix then
    let! (u, _) :=
      (if HasPrefix (h_Name hdr) WhiteoutLinkDir && bool_decide (h_Typeflag hdr = TypeReg) then
         let basename := filepath_Base (h_Name hdr) in
         let u := with_hardlink u basename hdr in
         let! (u, _) :=
           (if decide (u_aufsTempdir u = "") then
              let! (u, _) := on_errno u (os_Mkdir (u_fs u) tempdir 448) in
              (with_tempdir u tempdir, Ok tt)
            else (u, Ok tt)) in
         on_fs u (createTarFile (u_fs u) (filepath_Join (u_aufsTempdir u) basename) dest hdr
                    data None)
       else (u, Ok tt)) in
    (u, Ok (negb (bool_decide (h_Name hdr = WhiteoutOpaqueDir))))
  else (u, Ok false).

(** [filepath.Walk] below an opaque directory, with the function that removes what
    the layer did not unpack.  [p] is the path, [n] the name it resolves to. *)
Definition opaque_visit (s : fs) (unpacked : gset string) (dir path : string)
    (err : option errno) : fs * outcome errno unit :=
  match err with
  | Some e => if os_IsNotExist e then (s, Ok tt) else (s, Err e)
  | None =>
      if decide (path = dir) then (s, Ok tt)
      else if decide (path ∈ unpacked) then (s, Ok tt)
      else os_RemoveAll s path
  end.
Fixpoint opaque_walk (fuel : nat) (s : fs) (unpacked : gset string) (dir path : string)
    (info : inode) : fs * outcome errno unit :=
  match fuel with
  | O => (s, Diverge)
  | S fuel =>
      let! (s, _) := opaque_visit s unpacked dir path None in
      if negb (is_dir info) then (s, Ok tt)
      else
        match resolve s true path, os_Stat s path with
        | Ok p, Ok d =>
            if is_dir d then
              (fix visit_names (s : fs) (names : list string) : fs * outcome errno unit :=
                 match names with
                 | [] => (s, Ok tt)
                 | c :: names =>
                     let filename := filepath_Join path c in
                     let! (s, _) :=
                       match os_Lstat s filename with
                       | Ok fi => opaque_walk fuel s unpacked dir filename fi
                       | Err e => opaque_visit s unpacked dir filename (Some e)
                       | Panic m => (s, Panic m)
                       | Diverge => (s, Diverge)
                       end in
                     visit_names s names
                 end) s (readDirNames s p)
            else opaque_visit s unpacked dir path (Some ENOTDIR)
        | _, Err e => opaque_visit s unpacked dir path (Some e)
        | _, _ => opaque_visit s unpacked dir path (Some ENOENT)
        end
  end.

Definition unpack_whiteout (u : unpack) (path base : string) :
    unpack * outcome archive_error unit :=
  let dir := filepath_Dir path in
  if decide (base = WhiteoutOpaqueDir) then
    match os_Lstat (u_fs u) dir with
    | Ok fi =>
        on_errno u (opaque_walk (S (size (fs_names (u_fs u)))) (u_fs u) (u_unpackedPaths u)
                      dir dir fi)
    | Err e => (u, Err (Errno e))
    | Panic m => (u, Panic m)
    | Diverge => (u, Diverge)
    end
  else
    let originalBase := TrimPrefix base WhiteoutPrefix in
    on_errno u (os_RemoveAll (u_fs u) (filepath_Join dir originalBase)).

(** Remove what is in the way of an entry. *)
Definition clear_path (u : unpack) (hdr : Header) (path : string) :
    unpack * outcome archive_error unit :=
  match os_Lstat (u_fs u) path with
  | Ok fi =>
      if is_dir fi && bool_decide (h_Typeflag hdr = TypeDir) then (u, Ok tt)
      else on_errno u (os_RemoveAll (u_fs u) path)
  | _ => (u, Ok tt)
  end.

(** A hard link into .wh..wh.plnk stands for the file that was kept aside: the header
    and the data to use, and the key of the header if it is a shared one. *)
Definition entry_source (u : unpack) (hdr : Header) (data : string) :
    unpack * outcome archive_error (Header * string * option string) :=
  if bool_decide (h_Typeflag hdr = TypeLink) &&
     HasPrefix (Clean (h_Linkname hdr)) WhiteoutLinkDir then
    let linkBasename := filepath_Base (h_Linkname hdr) in
    match u_aufsHardlinks u !! linkBasename with
    | None => (u, Err InvalidAufsHardlink)
    | Some srcHdr =>
        match os_Stat (u_fs u) (filepath_Join (u_aufsTempdir u) linkBasename) with
        | Ok fi =>
            (u, Ok (srcHdr, match i_kind fi with KReg d => d | _ => "" end, Some linkBasename))
        | Err e => (u, Err (Errno e))
        | Panic m => (u, Panic m)
        | Diverge => (u, Diverge)
        end
    end
  else (u, Ok (hdr, data, None)).

(** The owner of the header in terms of the host. *)
Definition map_ids (u : unpack) (root : Z * Z) (srcHdr : Header) :
    unpack * outcome archive_error Header :=
  let! (u, uid) :=
    (if decide (h_Uid srcHdr ≠ root.1) then id_result u (ToHost (h_Uid srcHdr) (to_UIDMaps options))
     else (u, Ok (h_Uid srcHdr))) in
  let! (u, gid) :=
    (if decide (h_Gid srcHdr ≠ root.2) then id_result u (ToHost (h_Gid srcHdr) (to_GIDMaps options))
     else (u, Ok (h_Gid srcHdr))) in
  (u, Ok (set_ids srcHdr uid gid)).

Definition unpack_file (u : unpack) (root : Z * Z) (hdr : Header) (data path : string) :
    unpack * outcome archive_error unit :=
  let! (u, _) := clear_path u hdr path in
  let! (u, src) := entry_source u hdr data in
  let '(srcHdr, srcData, shared) := src in
  let! (u, srcHdr) := map_ids u root srcHdr in
  let u := match shared with Some k => with_hardlink u k srcHdr | None => u end in
  let! (u, _) := on_fs u (createTarFile (u_fs u) path dest srcHdr srcData None) in
  let u := if decide (h_Typeflag hdr = TypeDir) then add_dir u hdr else u in
  (add_path u path, Ok tt).

(** One round of the loop. *)
Definition unpack_entry (u : unpack) (root : Z * Z) (e : Header * string) :
    unpack * outcome archive_error unit :=
  let u := add_size u (h_Size e.1) in
  let hdr := set_Name e.1 (Clean (h_Name e.1)) in
  let! (u, _) := ensure_parent u hdr in
  let! (u, done) := aufs_metadata u hdr e.2 in
  if (done : bool) then (u, Ok tt)
  else
    let path := filepath_Join dest (h_Name hdr) in
    let! (u, rel) := id_result u (filepath_Rel dest path) in
    if HasPrefix rel "../" then (u, Err (breakoutError "is outside" (h_Name hdr)))
    else
      let base := filepath_Base path in
      if HasPrefix base WhiteoutPrefix then unpack_whiteout u path base
      else unpack_file u root hdr e.2 path.

Fixpoint unpack_entries (u : unpack) (root : Z * Z) (es : list (Header * string))
    (rerr : option string) : unpack * outcome archive_error unit :=
  match es with
  | [] => (u, match rerr with None => Ok tt | Some e => Err (TarError e) end)
  | e :: es =>
      let! (u, _) := unpack_entry u root e in
      unpack_entries u root es rerr
  end.

(** The times of the directories are set last. *)
Fixpoint dir_times (u : unpack) (dirs : list Header) : unpack * outcome archive_error unit :=
  match dirs with
  | [] => (u, Ok tt)
  | hdr :: dirs =>
      let! (u, _) :=
        on_errno u (system_Chtimes (u_fs u) (filepath_Join dest (h_Name hdr))
                      (h_AccessTime hdr) (h_ModTime hdr)) in
      dir_times u dirs
  end.

(** [UnpackLayer] of the entries [layer]; reading ends with the error [rerr] if there
    is one.  The deferred call removes the temporary directory. *)
Definition UnpackLayer (s : fs) (layer : list (Header * string)) (rerr : option string) :
    fs * outcome archive_error Z :=
  match GetRootUIDGID (to_UIDMaps options) (to_GIDMaps options) with
  | Ok root =>
      let '(u, r) :=
        let! (u, _) := unpack_entries (mkUnpack s 0 [] ∅ "" ∅) root layer rerr in
        let! (u, _) := dir_times u (u_dirs u) in
        (u, Ok (u_size u)) in
      (if decide (u_aufsTempdir u = "") then u_fs u
       else (os_RemoveAll (u_fs u) (u_aufsTempdir u)).1, r)
  | Err e => (s, Err (IDError e))
  | Panic m => (s, Panic m)
  | Diverge => (s, Diverge)
  end.
End unpack.

(** [applyLayerHandler] without compression; the file system has the umask 0. *)
Definition applyLayerHandler (tempdir dest : string) (options : TarOptions) (s : fs)
    (layer : list (Header * string)) (rerr : option string) : fs * outcome archive_error Z :=
  UnpackLayer tempdir (Clean dest) options s layer rerr.

(** ** Packing *)

Record tarAppender := mkAppender {
  ta_TarWriter : list (Header * string);
  ta_SeenFiles : gmap nat string;
  ta_UIDMaps : option (list IDMap);
  ta_GIDMaps : option (list IDMap);
  ta_overlay : bool
}.

Definition canonicalTarName (name : string) (isDir : bool) : string :=
  if isDir && negb (HasSuffix_slash name) then name +:+ "/" else name.

(** [tar.FileInfoHeader]: [None] is the error of an unknown type; sockets get no
    type flag. *)
Definition FileInfoHeader (n : inode) (link : string) : Header :=
  mkHeader "" (st_mode (stat_of n)) (i_uid n) (i_gid n)
    (match i_kind n with KReg _ => isize (i_kind n) | _ => 0 end) (i_mtime n) (i_atime n)
    (match i_kind n with
     | KDir => TypeDir | KReg _ => TypeReg | KSymlink _ => TypeSymlink | KChar => TypeChar
     | KBlock => TypeBlock | KFifo => TypeFifo | KSock => TypeRegA
     end)
    (match i_kind n with KSymlink _ => link | _ => "" end) 0 0 [].

Definition setHeaderForSpecialDevice (hdr : Header) (n : inode) : Header :=
  let mode := st_mode (stat_of n) in
  if decide (Z.land mode 24576 ≠ 0 ∨ Z.land mode 8192 ≠ 0) then
    set_device hdr (major (i_rdev n)) (minor (i_rdev n))
  else hdr.

(** [overlayWhiteoutConverter.ConvertWrite] *)
Definition ConvertWrite (s : fs) (hdr : Header) (path : string) (fi : inode) :
    outcome errno Header :=
  let hdr :=
    if decide (i_kind fi = KChar ∧ h_Devmajor hdr = 0 ∧ h_Devminor hdr = 0) then
      let '(dir, filename) := filepath_Split (h_Name hdr) in
      mkHeader (filepath_Join dir (WhiteoutPrefix +:+ filename)) 384 (h_Uid hdr) (h_Gid hdr) 0
        (h_ModTime hdr) (h_AccessTime hdr) TypeReg (h_Linkname hdr) (h_Devmajor hdr)
        (h_Devminor hdr) (h_Xattrs hdr)
    else hdr in
  if is_dir fi then
    match Lgetxattr s path "trusted.overlay.opaque" with
    | Ok opaque =>
        Ok (if decide (opaque = Some [121]) then
              mkHeader (filepath_Join (h_Name hdr) WhiteoutOpaqueDir) (Z.land (h_Mode hdr) 511)
                (h_Uid hdr) (h_Gid hdr) 0 (mkTimespec 0 0) (h_AccessTime hdr) TypeReg "" 0 0 []
            else hdr)
    | Err e => Err e
    | Panic m => Panic m
    | Diverge => Diverge
    end
  else Ok hdr.

(** The owner of a file in terms of the container; whiteouts keep theirs. *)
Definition container_ids (ta : tarAppender) (hdr : Header) (n : inode) :
    outcome archive_error Header :=
  if negb (HasPrefix (filepath_Base (h_Name hdr)) WhiteoutPrefix) &&
     (bool_decide (is_Some (ta_UIDMaps ta)) || bool_decide (is_Some (ta_GIDMaps ta))) then
    match ToContainer (i_uid n) (ta_UIDMaps ta), ToContainer (i_gid n) (ta_GIDMaps ta) with
    | Ok uid, Ok gid => Ok (set_ids hdr uid gid)
    | Err e, _ => Err (IDError e)
    | _, Err e => Err (IDError e)
    | _, _ => Diverge
    end
  else Ok hdr.

Definition addTarFile (s : fs) (ta : tarAppender) (path name : string) :
    tarAppender * outcome archive_error unit :=
  match resolve s false path with
  | Ok p =>
      match fs_names s !! p, node_at s p with
      | Some ino, Some fi =>
          let link := match i_kind fi with KSymlink t => t | _ => "" end in
          let name := canonicalTarName name (is_dir fi) in
          let hdr := set_Name (FileInfoHeader fi link) name in
          let hdr := setHeaderForSpecialDevice hdr fi in
          let '(hdr, seen) :=
            (if negb (is_dir fi) && bool_decide (1 < nlink s ino)%nat then
               match ta_SeenFiles ta !! ino with
               | Some oldpath => (set_link hdr oldpath, ta_SeenFiles ta)
               | None => (hdr, <[ino := name]> (ta_SeenFiles ta))
               end
             else (hdr, ta_SeenFiles ta)) in
          let ta := mkAppender (ta_TarWriter ta) seen (ta_UIDMaps ta) (ta_GIDMaps ta)
                      (ta_overlay ta) in
          let hdr :=
            match Lgetxattr s path "security.capability" with
            | Ok (Some capability) => set_Xattrs hdr [("security.capability", capability)]
            | _ => hdr
            end in
          match container_ids ta hdr fi with
          | Ok hdr =>
              match (if ta_overlay ta then ConvertWrite s hdr path fi else Ok hdr) with
              | Ok hdr =>
                  let data :=
                    match h_Typeflag hdr, i_kind fi with
                    | TypeReg, KReg d => if decide (0 < h_Size hdr) then d else ""
                    | _, _ => ""
                    end in
                  (mkAppender (ta_TarWriter ta ++ [(hdr, data)]) seen (ta_UIDMaps ta)
                     (ta_GIDMaps ta) (ta_overlay ta), Ok tt)
              | Err e => (ta, Err (Errno e))
              | Panic m => (ta, Panic m)
              | Diverge => (ta, Diverge)
              end
          | Err e => (ta, Err e)
          | Panic m => (ta, Panic m)
          | Diverge => (ta, Diverge)
          end
      | _, _ => (ta, Err (Errno ENOENT))
      end
  | Err e => (ta, Err (Errno e))
  | Panic m => (ta, Panic m)
  | Diverge => (ta, Diverge)
  end.

(** The string of a change's path, and the order of [changesByPath]. *)
Definition path_string (p : path) : string := "/" +:+ Join p "/".
Definition path_le (a b : Change) : Prop :=
  String.le (path_string (ch_Path a)) (path_string (ch_Path b)).
#[global] Instance path_le_dec a b : Decision (path_le a b) := decide (String.le _ _).

Definition drop1 (s : string) : string := match s with String _ s => s | EmptyString => "" end.

Definition whiteout_header (now : Timespec) (cpath : string) : Header :=
  let whiteOutDir := filepath_Dir cpath in
  let whiteOutBase := filepath_Base cpath in
  let whiteOut := filepath_Join whiteOutDir (WhiteoutPrefix +:+ whiteOutBase) in
  mkHeader (drop1 whiteOut) 0 0 0 0 now now TypeRegA "" 0 0 [].

(** One change; an error is only logged. *)
Definition export_change (s : fs) (now : Timespec) (dir : string) (ta : tarAppender)
    (change : Change) : tarAppender :=
  let cpath := path_string (ch_Path change) in
  match ch_Kind change with
  | ChangeDelete =>
      mkAppender (ta_TarWriter ta ++ [(whiteout_header now cpath, "")]) (ta_SeenFiles ta)
        (ta_UIDMaps ta) (ta_GIDMaps ta) (ta_overlay ta)
  | _ => (addTarFile s ta (filepath_Join dir cpath) (drop1 cpath)).1
  end.

(** Writing and reading an archive loses the fractions of the modification times and
    the access times, which are the zero time (of the year 1) when they are read. *)
Definition whole_seconds (t : Timespec) : Timespec := mkTimespec (ts_Sec t) 0.
Definition zero_time : Timespec := mkTimespec (-62135596800) 0.
Definition tar_stream (e : Header * string) : Header * string :=
  let h := e.1 in
  (mkHeader (h_Name h) (h_Mode h) (h_Uid h) (h_Gid h) (h_Size h) (whole_seconds (h_ModTime h))
     zero_time (h_Typeflag h) (h_Linkname h) (h_Devmajor h)
     (h_Devminor h) (h_Xattrs h), e.2).

Definition ExportChanges (s : fs) (now : Timespec) (dir : string) (changes : list Change)
    (uidMaps gidMaps : option (list IDMap)) : list (Header * string) :=
  let ta := mkAppender [] ∅ uidMaps gidMaps false in
  tar_stream <$>
    ta_TarWriter (foldl (export_change s now dir) ta (merge_sort path_le changes)).

(** ** ChangesSize *)

Definition change_size (s : fs) (newDir : string) (acc : Z * gset nat) (change : Change) :
    Z * gset nat :=
  match ch_Kind change with
  | ChangeDelete => acc
  | _ =>
      match resolve s false (filepath_Join newDir (path_string (ch_Path change))) with
      | Ok p =>
          match fs_names s !! p, node_at s p with
          | Some ino, Some fi =>
              if is_dir fi then acc
              else if decide (1 < nlink s ino)%nat then
                if decide (ino ∈ acc.2) then acc
                else (wrap64 (acc.1 + isize (i_kind fi)), {[ino]} ∪ acc.2)
              else (wrap64 (acc.1 + isize (i_kind fi)), acc.2)
          | _, _ => acc
          end
      | _ => acc
      end
  end.
Definition ChangesSize (s : fs) (newDir : string) (changes : list Change) : Z :=
  (foldl (change_size s newDir) (0, ∅) changes).1.
