(* ===== verification/ArchiveInv.v ===== *)
(** * pkg/archive: a layer brings a directory to the state it was made from

    The changes between two directories, packed by [ExportChanges] and unpacked by
    [UnpackLayer] into the old one, give the new one.  The proof follows the entries
    in the order of the archive: [Inv] describes the destination after a part of the
    changes. *)

From S2P Require Import Prelude GoStrings GoPath IDTools Changes.
From S2P Require Import ChangesInv HostFS HostFSInv Archive.
Open Scope Z_scope.

(** ** Attributes *)

Definition cap_key : string := "security.capability".

(** [m] is what unpacking makes of [n]: times are whole seconds, and those of
    directories are not compared. *)
Record copy_of (n m : inode) : Prop := {
  cp_kind : i_kind m = i_kind n;
  cp_perm : i_perm m = i_perm n;
  cp_uid : i_uid m = i_uid n;
  cp_gid : i_gid m = i_gid n;
  cp_rdev : i_rdev m = i_rdev n;
  cp_cap : i_xattrs m !! cap_key = i_xattrs n !! cap_key;
  cp_time : is_dir n = false → i_mtime m = whole_seconds (i_mtime n)
}.

(** What a file system has, apart from sockets: modes of 12 bits, device numbers of 32
    bits for devices only, links with all permissions and a target, times that the
    kernel takes, no capabilities on directories. *)
Record exportable (n : inode) : Prop := {
  ex_perm : 0 ≤ i_perm n < 4096;
  ex_kind : i_kind n ≠ KSock;
  ex_rdev : match i_kind n with KChar | KBlock => 0 ≤ i_rdev n < 2 ^ 32 | _ => i_rdev n = 0 end;
  ex_link : ∀ t, i_kind n = KSymlink t → i_perm n = 511 ∧ t ≠ "";
  ex_time : clamp_time (whole_seconds (i_mtime n)) = whole_seconds (i_mtime n);
  ex_cap : is_dir n = true → i_xattrs n !! cap_key = None
}.

Lemma land_ifmt k perm : 0 ≤ perm < 4096 → Z.land (Z.lor (ifmt k) perm) 4095 = perm.
Proof.
  intros Hp. rewrite Z.land_lor_distr_l.
  assert (Hk : Z.land (ifmt k) 4095 = 0) by by destruct k.
  rewrite Hk, Z.lor_0_l. change 4095 with (Z.ones 12). rewrite Z.land_ones by lia.
  by rewrite Z.mod_small.
Qed.

Lemma perm_small perm : 0 ≤ perm < 4096 → Z.land perm 4095 = perm.
Proof. intros Hp. change 4095 with (Z.ones 12). rewrite Z.land_ones by lia. by rewrite Z.mod_small. Qed.

(** Device numbers of 32 bits survive the split into major and minor numbers. *)
Lemma Mkdev_major_minor d : 0 ≤ d < 2 ^ 32 → Mkdev (major d) (minor d) = d.
Proof.
  intros Hd. unfold Mkdev, major, minor.
  set (x := Z.lor _ _).
  assert (Hx : x = d); [|rewrite Hx; by apply Z.mod_small].
  subst x. apply Z.bits_inj'. intros k Hk.
  change 4095 with (Z.ones 12). change 255 with (Z.ones 8).
  change 1048320 with (Z.shiftl (Z.ones 12) 8).
  rewrite !Z.lor_spec, !Z.land_spec, !Z.shiftl_spec by done. rewrite !Z.land_spec.
  assert (Ho : ∀ n i, 0 ≤ n → Z.testbit (Z.ones n) i = bool_decide (0 ≤ i < n)).
  { intros n i Hn. destruct (decide (i < 0)) as [Hi|Hi].
    { rewrite Z.testbit_neg_r by done. by rewrite bool_decide_false by lia. }
    destruct (decide (i < n)).
    - rewrite Z.ones_spec_low by lia. by rewrite bool_decide_true by lia.
    - rewrite Z.ones_spec_high by lia. by rewrite bool_decide_false by lia. }
  assert (Hs : ∀ i, Z.testbit (Z.shiftl (Z.ones 12) 8) i = bool_decide (8 ≤ i < 20)).
  { intros i. destruct (decide (i < 0)).
    { rewrite Z.testbit_neg_r by done. by rewrite bool_decide_false by lia. }
    rewrite Z.shiftl_spec, Ho by lia. apply bool_decide_ext. lia. }
  assert (Hh : 32 ≤ k → Z.testbit d k = false).
  { intros H32. rewrite <- (Z.mod_small d (2 ^ 32)) by done. apply Z.mod_pow2_bits_high. lia. }
  assert (Hr : ∀ n i, 0 ≤ i → Z.testbit (Z.shiftr d n) i = Z.testbit d (i + n)).
  { intros n i Hi. by apply Z.shiftr_spec. }
  rewrite ?Z.lor_spec, ?Z.land_spec, !Hs, !Ho by lia.
  destruct (decide (k < 8)); [|destruct (decide (k < 20)); [|destruct (decide (k < 32))]].
  - rewrite !(bool_decide_false (8 ≤ _ < _)), (bool_decide_false (0 ≤ k - 8 < _)) by lia.
    rewrite (bool_decide_true (0 ≤ k < 8)) by lia.
    by destruct (Z.testbit d k); rewrite ?andb_false_r.
  - rewrite (bool_decide_false (8 ≤ k - 12 < 20)), (bool_decide_true (0 ≤ k - 8 < 12)) by lia.
    rewrite (bool_decide_false (0 ≤ k < 8)), (Hr 8) by lia. replace (k - 8 + 8) with k by lia.
    by destruct (Z.testbit d k); rewrite ?andb_false_r, ?andb_true_r, ?orb_true_r, ?orb_false_r.
  - rewrite (bool_decide_true (8 ≤ k - 12 < 20)), (bool_decide_false (0 ≤ k - 8 < 12)) by lia.
    rewrite (bool_decide_false (0 ≤ k < 8)), (bool_decide_false (0 ≤ k - 12 < 8)) by lia.
    rewrite (Hr 12) by lia. replace (k - 12 + 12) with k by lia.
    by destruct (Z.testbit d k); rewrite ?andb_false_r, ?andb_true_r, ?orb_false_l, ?orb_false_r.
  - rewrite (bool_decide_false (8 ≤ k - 12 < 20)), (bool_decide_false (0 ≤ k - 8 < 12)) by lia.
    rewrite (bool_decide_false (0 ≤ k < 8)), Hh by lia. by rewrite !andb_false_r.
Qed.

Fixpoint xattrs_fun (xs : list (string * list Z)) (n : inode) : inode :=
  match xs with [] => n | (k, v) :: xs => xattrs_fun xs (set_xattr k v n) end.

Lemma xattrs_fun_kind xs : keeps_kind (xattrs_fun xs).
Proof. induction xs as [|[k v] xs IH]; intros n; [done|]. simpl. by rewrite IH. Qed.
Lemma owner_kind uid gid : keeps_kind (set_owner uid gid).
Proof. done. Qed.
Lemma perm_kind perm : keeps_kind (set_perm perm).
Proof. done. Qed.
Lemma times_kind a m : keeps_kind (set_times a m).
Proof. done. Qed.
Lemma compose_kind f g : keeps_kind f → keeps_kind g → keeps_kind (g ∘ f).
Proof. intros Hf Hg n. simpl. by rewrite Hg, Hf. Qed.
#[local] Hint Resolve xattrs_fun_kind owner_kind perm_kind times_kind compose_kind : kinds.

Definition entry_atime (hdr : Header) : Timespec :=
  if time_before (h_AccessTime hdr) (h_ModTime hdr) then h_ModTime hdr else h_AccessTime hdr.
Definition bare_attrs (hdr : Header) : inode → inode :=
  xattrs_fun (h_Xattrs hdr) ∘ set_owner (h_Uid hdr) (h_Gid hdr).
Definition link_attrs (hdr : Header) : inode → inode :=
  set_times (entry_atime hdr) (h_ModTime hdr) ∘ bare_attrs hdr.
Definition full_attrs (hdr : Header) : inode → inode :=
  set_times (clamp_time (entry_atime hdr)) (clamp_time (h_ModTime hdr)) ∘
  (set_perm (h_Mode hdr) ∘ bare_attrs hdr).

Lemma bare_attrs_kind hdr : keeps_kind (bare_attrs hdr).
Proof. unfold bare_attrs. auto with kinds. Qed.
#[local] Hint Resolve bare_attrs_kind : kinds.
Lemma full_attrs_kind hdr : keeps_kind (full_attrs hdr).
Proof. unfold full_attrs. auto 6 with kinds. Qed.
Lemma link_attrs_kind hdr : keeps_kind (link_attrs hdr).
Proof. unfold link_attrs. auto with kinds. Qed.
#[local] Hint Resolve full_attrs_kind link_attrs_kind : kinds.

Section attributes.
Context (s : fs) (p : list string) (i : nat) (n : inode) (hdr : Header).
Hypothesis (Hn : Forall normal p) (Hd : dirs_above s p).
Hypothesis (Hi : fs_names s !! p = Some i) (Hp : node_at s p = Some n).

(** A change of the inode at [p] after others. *)
Lemma change_after follow f g :
  keeps_kind f → (follow = true → is_symlink n = false) →
  change_inode follow (set_inode s i f) (P p) g = (set_inode s i (g ∘ f), Ok tt).
Proof.
  intros Hf Hl. rewrite (change_inode_literal _ _ _ i (f n)); [by rewrite set_set|done| |done| |].
  - by apply dirs_above_set.
  - rewrite node_at_set, decide_True by done. by rewrite Hp.
  - intros E. specialize (Hl E). unfold is_symlink in *. by rewrite Hf.
Qed.

Lemma set_xattrs_after f xs :
  keeps_kind f → fs_xattr s = true →
  set_xattrs (set_inode s i f) (P p) xs = (set_inode s i (xattrs_fun xs ∘ f), Ok tt).
Proof.
  intros Hf Hx. revert f Hf. induction xs as [|[k v] xs IH]; intros f Hf; [done|].
  cbn [set_xattrs]. unfold Lsetxattr. change (fs_xattr (set_inode s i f)) with (fs_xattr s).
  rewrite Hx, change_after by done. rewrite IH; [done|]. by apply compose_kind.
Qed.

Lemma attributes_bare :
  fs_xattr s = true →
  (let! (s, _) := os_Lchown s (P p) (h_Uid hdr) (h_Gid hdr) in
   set_xattrs s (P p) (h_Xattrs hdr)) = (set_inode s i (bare_attrs hdr), Ok tt).
Proof.
  intros Hx. unfold os_Lchown. rewrite <- (set_id s i) at 1.
  rewrite change_after by done. cbn [and_then]. by rewrite set_xattrs_after.
Qed.

Lemma set_attributes_split :
  set_attributes s (P p) hdr None =
    let! (s, _) :=
      (let! (s, _) := os_Lchown s (P p) (h_Uid hdr) (h_Gid hdr) in
       set_xattrs s (P p) (h_Xattrs hdr)) in
    let! (s, _) := handleLChmod s hdr (P p) in
    set_entry_times s (P p) hdr.
Proof.
  unfold set_attributes. cbn [default]. by destruct (os_Lchown s (P p) _ _) as [s1 []].
Qed.

Lemma attributes_full :
  fs_xattr s = true → h_Typeflag hdr ≠ TypeSymlink → is_symlink n = false →
  (h_Typeflag hdr = TypeLink → ∀ f, keeps_kind f → link_target_ok (set_inode s i f) hdr = true) →
  set_attributes s (P p) hdr None = (set_inode s i (full_attrs hdr), Ok tt).
Proof.
  intros Hx Ht Hl Hlink. rewrite set_attributes_split, attributes_bare by done. cbn [and_then].
  assert (Hchmod : handleLChmod (set_inode s i (bare_attrs hdr)) hdr (P p) =
    (set_inode s i (set_perm (h_Mode hdr) ∘ bare_attrs hdr), Ok tt)).
  { unfold handleLChmod, os_Chmod. rewrite change_after by auto with kinds.
    destruct (h_Typeflag hdr) eqn:T; try done. by rewrite Hlink by auto with kinds. }
  rewrite Hchmod. cbn [and_then]. unfold set_entry_times, system_Chtimes, os_Chtimes.
  rewrite change_after by auto with kinds. fold (entry_atime hdr).
  destruct (h_Typeflag hdr) eqn:T; try done. by rewrite Hlink by auto with kinds.
Qed.

Lemma attributes_symlink :
  fs_xattr s = true → h_Typeflag hdr = TypeSymlink →
  set_attributes s (P p) hdr None = (set_inode s i (link_attrs hdr), Ok tt).
Proof.
  intros Hx Ht. rewrite set_attributes_split, attributes_bare by done. cbn [and_then].
  unfold handleLChmod, set_entry_times, LUtimesNano. rewrite Ht. cbn [and_then].
  rewrite change_after; [done|auto with kinds|done].
Qed.

Lemma attributes_linked_symlink :
  fs_xattr s = true → h_Typeflag hdr = TypeLink →
  (∀ f, keeps_kind f → link_target_ok (set_inode s i f) hdr = false) →
  set_attributes s (P p) hdr None = (set_inode s i (bare_attrs hdr), Ok tt).
Proof.
  intros Hx Ht Hlink. rewrite set_attributes_split, attributes_bare by done. cbn [and_then].
  unfold handleLChmod, set_entry_times. rewrite Ht, Hlink by auto with kinds. cbn [and_then].
  by rewrite Hlink by auto with kinds.
Qed.
End attributes.

(** ** Headers *)

Definition flag_of (n : inode) : typeflag :=
  match i_kind n with
  | KDir => TypeDir | KReg _ => TypeReg | KSymlink _ => TypeSymlink | KChar => TypeChar
  | KBlock => TypeBlock | KFifo => TypeFifo | KSock => TypeRegA
  end.
Definition data_of (n : inode) : string := match i_kind n with KReg d => d | _ => "" end.
Definition target_of (n : inode) : string := match i_kind n with KSymlink t => t | _ => "" end.
Definition caps_of (n : inode) : list (string * list Z) :=
  match i_xattrs n !! cap_key with Some v => [(cap_key, v)] | None => [] end.

(** The header agrees with the inode, its owner being as the host knows it. *)
Record header_for (n : inode) (hdr : Header) : Prop := {
  hf_mode : h_Mode hdr = st_mode (stat_of n);
  hf_uid : h_Uid hdr = i_uid n;
  hf_gid : h_Gid hdr = i_gid n;
  hf_time : h_ModTime hdr = whole_seconds (i_mtime n);
  hf_caps : h_Xattrs hdr = caps_of n
}.

Lemma cap_after n hdr m :
  exportable n → header_for n hdr → i_kind m = i_kind n →
  (is_dir m = true → i_xattrs m !! cap_key = None) →
  i_xattrs (bare_attrs hdr m) !! cap_key = i_xattrs n !! cap_key.
Proof.
  intros Hex Hh Hk Hcap. unfold bare_attrs. simpl. rewrite (hf_caps _ _ Hh). unfold caps_of.
  assert (Hdm : is_dir m = is_dir n) by (unfold is_dir; by rewrite Hk).
  assert (Hown : i_xattrs (set_owner (h_Uid hdr) (h_Gid hdr) m) !! cap_key = None).
  { simpl. destruct (is_dir m) eqn:E; [by apply Hcap|]. apply lookup_delete_eq. }
  destruct (i_xattrs n !! cap_key) as [v|] eqn:E; [|done]. apply lookup_insert_eq.
Qed.

(** The fields that extended attributes leave alone. *)
Lemma xattrs_fun_fields xs m :
  i_perm (xattrs_fun xs m) = i_perm m ∧ i_uid (xattrs_fun xs m) = i_uid m ∧
  i_gid (xattrs_fun xs m) = i_gid m ∧ i_rdev (xattrs_fun xs m) = i_rdev m ∧
  i_mtime (xattrs_fun xs m) = i_mtime m.
Proof.
  revert m. induction xs as [|[k v] xs IH]; intros m; [done|]. simpl.
  destruct (IH (set_xattr k v m)) as (-> & -> & -> & -> & ->). done.
Qed.

Lemma full_attrs_copy n hdr m :
  exportable n → header_for n hdr → i_kind m = i_kind n → i_rdev m = i_rdev n →
  (is_dir m = true → i_xattrs m !! cap_key = None) → copy_of n (full_attrs hdr m).
Proof.
  intros Hex Hh Hk Hr Hcap. unfold full_attrs.
  destruct (xattrs_fun_fields (h_Xattrs hdr) (set_owner (h_Uid hdr) (h_Gid hdr) m))
    as (Ep & Eu & Eg & Er & Et). split.
  - simpl. by rewrite bare_attrs_kind.
  - simpl. rewrite (hf_mode _ _ Hh). simpl. apply land_ifmt, (ex_perm _ Hex).
  - unfold bare_attrs. simpl. rewrite Eu. apply (hf_uid _ _ Hh).
  - unfold bare_attrs. simpl. rewrite Eg. apply (hf_gid _ _ Hh).
  - unfold bare_attrs. simpl. by rewrite Er.
  - simpl. by apply cap_after.
  - intros _. simpl. rewrite (hf_time _ _ Hh). apply (ex_time _ Hex).
Qed.

Lemma link_attrs_copy n hdr m t :
  exportable n → header_for n hdr → i_kind n = KSymlink t → i_kind m = i_kind n →
  i_rdev m = i_rdev n → i_perm m = 511 → copy_of n (link_attrs hdr m).
Proof.
  intros Hex Hh Ht Hk Hr Hp. destruct (ex_link _ Hex t Ht) as [Hn _].
  destruct (xattrs_fun_fields (h_Xattrs hdr) (set_owner (h_Uid hdr) (h_Gid hdr) m))
    as (Ep & Eu & Eg & Er & Et). unfold link_attrs. split.
  - simpl. by rewrite bare_attrs_kind.
  - unfold bare_attrs. simpl. rewrite Ep, Hn. simpl. unfold chown_perm, is_dir. by rewrite Hk, Ht, Hp.
  - unfold bare_attrs. simpl. rewrite Eu. apply (hf_uid _ _ Hh).
  - unfold bare_attrs. simpl. rewrite Eg. apply (hf_gid _ _ Hh).
  - unfold bare_attrs. simpl. by rewrite Er.
  - simpl. apply cap_after; [done|done|done|]. unfold is_dir. by rewrite Hk, Ht.
  - intros _. apply (hf_time _ _ Hh).
Qed.

Lemma bare_attrs_copy n hdr m t :
  exportable n → header_for n hdr → i_kind n = KSymlink t → copy_of n m →
  copy_of n (bare_attrs hdr m).
Proof.
  intros Hex Hh Ht [Hk Hp Hu Hg Hr Hc Htm]. destruct (ex_link _ Hex t Ht) as [Hn _].
  destruct (xattrs_fun_fields (h_Xattrs hdr) (set_owner (h_Uid hdr) (h_Gid hdr) m))
    as (Ep & Eu & Eg & Er & Et). split.
  - by rewrite bare_attrs_kind.
  - unfold bare_attrs. simpl. rewrite Ep, Hn. simpl. unfold chown_perm, is_dir.
    by rewrite Hk, Ht, Hp, Hn.
  - unfold bare_attrs. simpl. rewrite Eu. apply (hf_uid _ _ Hh).
  - unfold bare_attrs. simpl. rewrite Eg. apply (hf_gid _ _ Hh).
  - unfold bare_attrs. simpl. by rewrite Er.
  - apply cap_after; [done|done|done|]. unfold is_dir. by rewrite Hk, Ht.
  - intros Hd. unfold bare_attrs. simpl. rewrite Et. by apply Htm.
Qed.

Lemma full_attrs_recopy n hdr m :
  exportable n → header_for n hdr → is_dir n = false → copy_of n m → copy_of n (full_attrs hdr m).
Proof.
  intros Hex Hh Hd [Hk Hp Hu Hg Hr Hc Htm]. apply full_attrs_copy; try done.
  unfold is_dir in *. rewrite Hk. by rewrite Hd.
Qed.

(** ** Names that are no whiteouts *)

Definition plain (c : string) : Prop := normal c ∧ HasPrefix c WhiteoutPrefix = false.

Lemma plain_normal q : Forall plain q → Forall normal q.
Proof. intros H. eapply Forall_impl; [done|]. by intros x []. Qed.

Lemma TrimRight_slash s :
  TrimRight (λ c, bool_decide (c = slash)) (s +:+ "/") = TrimRight (λ c, bool_decide (c = slash)) s.
Proof.
  induction s as [|a s IH]; [done|].
  change (String a s +:+ "/") with (String a (s +:+ "/")). cbn [TrimRight]. by rewrite IH.
Qed.

Lemma rel_nonempty q : Forall normal q → q ≠ [] → Join q "/" ≠ "".
Proof.
  destruct q as [|w q]; [done|]. intros [(Hw & _) _]%Forall_cons _. destruct q; [done|].
  rewrite Join_cons. by destruct w.
Qed.

Lemma Base_name p c d :
  Forall normal (p ++ [c]) →
  filepath_Base (canonicalTarName (Join (p ++ [c]) "/") d) = c.
Proof.
  intros Hp. assert (Hne : p ++ [c] ≠ []) by by destruct p.
  unfold canonicalTarName. rewrite HasSuffix_rel by done. rewrite andb_true_r.
  assert (Ht : TrimRight (λ c, bool_decide (c = slash)) (Join (p ++ [c]) "/") = Join (p ++ [c]) "/").
  { pose proof Hp as [_ [(Hc & _ & _ & Hs) _]%Forall_cons]%Forall_app.
    destruct (string_snoc c Hc) as (c' & x & ->).
    assert (∃ t, Join (p ++ [c' +:+ String x ""]) "/" = t +:+ String x "") as [t ->].
    { destruct p; [by exists c'|]. rewrite Join_snoc by done. rewrite <- !append_assoc. by eexists. }
    apply TrimRight_slash_id. intros ->. rewrite contains_char_app in Hs.
    apply orb_false_iff in Hs as [_ Hs]. cbn [contains_char] in Hs. by rewrite bool_decide_true in Hs. }
  assert (Hb : (filepath_Split (Join (p ++ [c]) "/")).2 = c).
  { unfold filepath_Split. rewrite Split_rel by done. destruct p as [|x p]; [done|].
    cbn [app]. destruct (p ++ [c]) as [|y ws] eqn:E; [by destruct p|]. rewrite <- E.
    change (x :: p ++ [c]) with ((x :: p) ++ [c]). by rewrite last_app_single. }
  pose proof (rel_nonempty _ Hp Hne) as Hj. unfold filepath_Base.
  destruct d; rewrite decide_False; rewrite ?TrimRight_slash, ?Ht, ?decide_False; try done.
  by destruct (Join (p ++ [c]) "/").
Qed.

(** ** Packing one file *)

Definition export_header (q : list string) (n : inode) (uid gid : Z) : Header :=
  let dev := bool_decide (Z.land (st_mode (stat_of n)) 24576 ≠ 0 ∨
                          Z.land (st_mode (stat_of n)) 8192 ≠ 0) in
  mkHeader (canonicalTarName (Join q "/") (is_dir n)) (st_mode (stat_of n)) uid gid
    (match i_kind n with KReg _ => isize (i_kind n) | _ => 0 end) (i_mtime n) (i_atime n)
    (flag_of n) (target_of n) (if dev then major (i_rdev n) else 0)
    (if dev then minor (i_rdev n) else 0) (caps_of n).

Section export.
Context (sN : fs) (N : list string) (now : Timespec) (um gm : option (list IDMap)).
Context (q : list string) (k : ChangeType) (n : inode) (j : nat) (uid gid : Z).
Hypothesis (Hk : k ≠ ChangeDelete) (Hq : Forall plain q) (Hne : q ≠ []).
Hypothesis (HN : Forall normal N) (Hdirs : dirs_above sN (N ++ q)) (Hxattr : fs_xattr sN = true).
Hypothesis (Hj : fs_names sN !! (N ++ q) = Some j) (Hnode : node_at sN (N ++ q) = Some n).
Hypothesis (Huid : ToContainer (i_uid n) um = Ok uid) (Hgid : ToContainer (i_gid n) gm = Ok gid).

Definition several : bool := negb (is_dir n) && bool_decide (1 < nlink sN j)%nat.

(** The entry and the table of the seen files after it. *)
Definition export_entry (seen : gmap nat string) : Header * string :=
  match seen !! j with
  | Some oldpath =>
      if several then (set_link (export_header q n uid gid) oldpath, "")
      else (export_header q n uid gid, data_of n)
  | None => (export_header q n uid gid, data_of n)
  end.
Definition export_seen (seen : gmap nat string) : gmap nat string :=
  match seen !! j with
  | Some _ => seen
  | None => if several then <[j := Join q "/"]> seen else seen
  end.

Lemma export_data :
  match flag_of n, i_kind n with
  | TypeReg, KReg d =>
      if decide (0 < match i_kind n with KReg _ => isize (i_kind n) | _ => 0 end) then d else ""
  | _, _ => ""
  end = data_of n.
Proof.
  unfold flag_of, data_of. destruct (i_kind n) as [|d| | | | |]; try done. case_decide as E; [done|].
  simpl in E. destruct d; [done|]. simpl in E. lia.
Qed.

Lemma container_ids_ok ta hdr :
  ta_UIDMaps ta = um → ta_GIDMaps ta = gm → h_Uid hdr = i_uid n → h_Gid hdr = i_gid n →
  h_Name hdr = canonicalTarName (Join q "/") (is_dir n) →
  container_ids ta hdr n = Ok (set_ids hdr uid gid).
Proof.
  intros Em Em' Eu Eg En. unfold container_ids. rewrite En, Em, Em'.
  destruct (rev_cons_ne q Hne) as (c & p & _ & ->).
  rewrite Base_name by by apply plain_normal.
  apply Forall_app in Hq as [_ [[_ ->] _]%Forall_cons]. cbn [negb andb].
  destruct um as [m|], gm as [m'|]; cbn [orb].
  all: rewrite ?Huid, ?Hgid; try done.
  simpl in Huid, Hgid. injection Huid as <-. injection Hgid as <-.
  rewrite <- Eu, <- Eg. by destruct hdr.
Qed.

Lemma export_change_file w seen :
  export_change sN now (P N) (mkAppender w seen um gm false) (mkChange q k) =
    mkAppender (w ++ [export_entry seen]) (export_seen seen) um gm false.
Proof.
  unfold export_change. cbn [ch_Kind ch_Path].
  assert (Hadd : addTarFile sN (mkAppender w seen um gm false)
     (filepath_Join (P N) (path_string q)) (drop1 (path_string q)) =
     (mkAppender (w ++ [export_entry seen]) (export_seen seen) um gm false, Ok tt)).
  2: { destruct k; [by rewrite Hadd|by rewrite Hadd|done]. }
  change (path_string q) with (P q). rewrite Join_abs by (done || by apply plain_normal).
  change (drop1 (P q)) with (Join q "/").
  assert (HNq : Forall normal (N ++ q)) by (apply Forall_app; split; [done|by apply plain_normal]).
  unfold addTarFile. rewrite resolve_literal by done. rewrite Hj, Hnode.
  unfold Lgetxattr. rewrite Lstat_literal, Hnode, Hxattr by done.
  set (hdr0 := setHeaderForSpecialDevice _ _).
  assert (Hhdr : set_Xattrs hdr0 (caps_of n) = export_header q n (i_uid n) (i_gid n)).
  { subst hdr0. unfold setHeaderForSpecialDevice, export_header.
    case_decide as E; [rewrite bool_decide_true by done|rewrite bool_decide_false by done];
      unfold set_device, set_Name, set_Xattrs, FileInfoHeader, flag_of, target_of; simpl; f_equal;
      by destruct (i_kind n). }
  assert (Hxs : ∀ h, h_Xattrs h = [] →
    match i_xattrs n !! cap_key with
    | Some capability => set_Xattrs h [("security.capability", capability)] | None => h
    end = set_Xattrs h (caps_of n)).
  { intros h Hh. unfold caps_of. change "security.capability" with cap_key.
    destruct (i_xattrs n !! cap_key); [done|]. destruct h; simpl in *. by rewrite Hh. }
  assert (Hnil : h_Xattrs hdr0 = []).
  { subst hdr0. unfold setHeaderForSpecialDevice. by case_decide. }
  change "security.capability" with cap_key.
  fold several. unfold export_entry, export_seen. cbn [ta_TarWriter ta_SeenFiles ta_UIDMaps ta_GIDMaps ta_overlay].
  assert (Hfinal : ∀ sn,
    match container_ids (mkAppender w sn um gm false) (set_Xattrs hdr0 (caps_of n)) n with
    | Ok hdr => (mkAppender (w ++ [(hdr, match h_Typeflag hdr, i_kind n with
                    | TypeReg, KReg d => if decide (0 < h_Size hdr) then d else "" | _, _ => "" end)])
                    sn um gm false, @Ok archive_error unit tt)
    | Err e => (mkAppender w sn um gm false, Err e) | Panic m => (mkAppender w sn um gm false, Panic m)
    | Diverge => (mkAppender w sn um gm false, Diverge)
    end = (mkAppender (w ++ [(export_header q n uid gid, data_of n)]) sn um gm false, Ok tt)).
  { intros sn. rewrite Hhdr, container_ids_ok by done.
    change (set_ids (export_header q n (i_uid n) (i_gid n)) uid gid) with (export_header q n uid gid).
    cbn [h_Typeflag h_Size export_header]. by rewrite export_data. }
  assert (Hlink : ∀ sn old,
    container_ids (mkAppender w sn um gm false) (set_Xattrs (set_link hdr0 old) (caps_of n)) n =
      Ok (set_link (export_header q n uid gid) old)).
  { intros sn old. change (set_Xattrs (set_link hdr0 old) (caps_of n)) with
      (set_link (set_Xattrs hdr0 (caps_of n)) old).
    rewrite Hhdr. by rewrite container_ids_ok. }
  destruct several eqn:Hs.
  - destruct (seen !! j) as [old|] eqn:Hseen.
    + rewrite Hxs by done. rewrite Hlink. done.
    + rewrite Hxs, Hfinal by done. f_equal. f_equal. f_equal. unfold canonicalTarName.
      unfold several in Hs. by destruct (is_dir n).
  - rewrite Hxs, Hfinal by done. by destruct (seen !! j).
Qed.
End export.

(** ** Packing a deletion *)

Definition wh (c : string) : string := WhiteoutPrefix +:+ c.

Lemma wh_normal c : normal c → normal (wh c).
Proof. intros (_ & _ & _ & Hc). by split_and!. Qed.

Lemma whiteout_entry now d x :
  Forall normal (d ++ [x]) →
  whiteout_header now (P (d ++ [x])) =
    mkHeader (Join (d ++ [wh x]) "/") 0 0 0 0 now now TypeRegA "" 0 0 [].
Proof.
  intros Hn. unfold whiteout_header. rewrite Dir_P, Base_P by done.
  apply Forall_app in Hn as [Hd [Hx _]%Forall_cons].
  change (WhiteoutPrefix +:+ x) with (Join [wh x] "/"). rewrite Join_rel; [done|done| |done].
  constructor; [|done]. by apply wh_normal.
Qed.

(** Entries that one change after the other adds to the archive. *)
Inductive exports (sN : fs) (now : Timespec) (dir : string) (um gm : option (list IDMap)) :
    gmap nat string → list Change → list (Header * string) → Prop :=
| exports_nil seen : exports sN now dir um gm seen [] []
| exports_cons seen seen' c cs e es :
    (∀ w, export_change sN now dir (mkAppender w seen um gm false) c =
            mkAppender (w ++ [e]) seen' um gm false) →
    exports sN now dir um gm seen' cs es →
    exports sN now dir um gm seen (c :: cs) (e :: es).

Lemma exports_foldl sN now dir um gm seen cs es w :
  exports sN now dir um gm seen cs es →
  ta_TarWriter (foldl (export_change sN now dir) (mkAppender w seen um gm false) cs) = w ++ es.
Proof.
  intros H. revert w. induction H as [seen|seen seen' c cs e es Hc _ IH]; intros w; simpl.
  - by rewrite app_nil_r.
  - rewrite Hc, IH. by rewrite <- app_assoc.
Qed.

(** ** Unpacking one entry *)

Lemma HasPrefix_app_l a b c : HasPrefix (a +:+ b) (a +:+ c) = HasPrefix b c.
Proof. induction a as [|x a IH]; [done|]. unfold HasPrefix in *. simpl. by rewrite decide_True. Qed.

Lemma HasPrefix_shorter w a b : HasPrefix w (a +:+ b) = true → HasPrefix w a = true.
Proof. rewrite !HasPrefix_spec. intros [r Hr]. exists (b +:+ r). by rewrite Hr, append_assoc. Qed.

Lemma plain_meta w ws pre :
  plain w → contains_char slash pre = false →
  HasPrefix (Join (w :: ws) "/") (WhiteoutPrefix +:+ pre) = false.
Proof.
  intros [_ Hw] Hpre. apply not_true_is_false. intros E.
  apply HasPrefix_first in E; [|by rewrite contains_char_app, Hpre].
  apply HasPrefix_shorter in E. congruence.
Qed.

Section step.
Context (tempdir : string) (D : list string) (opts : TarOptions) (root : Z * Z) (u : unpack).
Hypothesis (HD : Forall normal D).

Lemma ensure_parent_ok hdr d x :
  Forall normal (d ++ [x]) → h_Name hdr = Join (d ++ [x]) "/" → dirs_above (u_fs u) (D ++ d) →
  is_Some (node_at (u_fs u) (D ++ d)) → ensure_parent (P D) u hdr = (u, Ok tt).
Proof.
  intros Hq Hname Hdirs [m Hm]. unfold ensure_parent.
  rewrite Hname, HasSuffix_rel, Join_Dir by (done || by destruct d).
  rewrite Lstat_literal; [by rewrite Hm| |done]. apply Forall_app in Hq as [Hq _]. by apply Forall_app.
Qed.

Lemma add_size_fs n : u_fs (add_size u n) = u_fs u.
Proof. done. Qed.
End step.

Section step_file.
Context (tempdir : string) (D : list string) (opts : TarOptions) (root : Z * Z) (u : unpack).
Context (d : list string) (x : string) (e : Header * string).
Hypothesis (HD : Forall normal D).
Hypothesis (Hparent : is_Some (node_at (u_fs u) (D ++ d))) (Hdirs : dirs_above (u_fs u) (D ++ d)).

Lemma unpack_entry_file :
  Forall plain (d ++ [x]) → Clean (h_Name e.1) = Join (d ++ [x]) "/" →
  unpack_entry tempdir (P D) opts u root e =
    unpack_file (P D) opts (add_size u (h_Size e.1)) root (set_Name e.1 (Join (d ++ [x]) "/")) e.2
      (P (D ++ d ++ [x])).
Proof.
  intros Hq Hname. pose proof (plain_normal _ Hq) as Hn. assert (Hne : d ++ [x] ≠ []) by by destruct d.
  unfold unpack_entry. rewrite Hname.
  rewrite (ensure_parent_ok D _ HD _ d x) by done. cbn [and_then].
  assert (Hhead : ∃ w ws, d ++ [x] = w :: ws ∧ plain w).
  { destruct (d ++ [x]) as [|w ws]; [done|]. apply Forall_cons in Hq as [Hw _]. by exists w, ws. }
  destruct Hhead as (w & ws & Hw & Hpw).
  assert (Hmeta : HasPrefix (Join (d ++ [x]) "/") WhiteoutMetaPrefix = false).
  { rewrite Hw. by apply plain_meta. }
  unfold aufs_metadata. cbn [h_Name set_Name]. rewrite Hmeta. cbn [and_then].
  rewrite Join_rel by done. rewrite Rel_P by done. unfold id_result. cbn [and_then].
  rewrite Hw, HasPrefix_dotdot by by destruct Hpw. rewrite <- Hw.
  assert (Hb : filepath_Base (P (D ++ d ++ [x])) = x).
  { rewrite app_assoc. apply Base_P. rewrite <- app_assoc. by apply Forall_app. }
  rewrite Hb. apply Forall_app in Hq as [_ [[_ ->] _]%Forall_cons]. done.
Qed.

Lemma unpack_entry_whiteout :
  Forall plain (d ++ [x]) → h_Name e.1 = Join (d ++ [wh x]) "/" →
  unpack_entry tempdir (P D) opts u root e =
    on_errno (add_size u (h_Size e.1)) (os_RemoveAll (u_fs u) (P (D ++ d ++ [x]))).
Proof.
  intros Hq Hname. pose proof (plain_normal _ Hq) as Hn.
  assert (Hw : Forall normal (d ++ [wh x])).
  { apply Forall_app in Hn as [Hd [Hx _]%Forall_cons]. apply Forall_app. split; [done|].
    constructor; [by apply wh_normal|done]. }
  assert (Hne : d ++ [wh x] ≠ []) by by destruct d.
  pose proof Hq as [Hpd [[Hnx Hpx] _]%Forall_cons]%Forall_app.
  unfold unpack_entry. rewrite Hname, Clean_rel by done.
  rewrite (ensure_parent_ok D _ HD _ d (wh x)) by done. cbn [and_then].
  assert (Hmeta : HasPrefix (Join (d ++ [wh x]) "/") WhiteoutMetaPrefix = false).
  { destruct d as [|w d']; [by unfold WhiteoutMetaPrefix, wh; cbn [app Join]; rewrite HasPrefix_app_l|].
    cbn [app]. apply plain_meta; [|done]. by apply Forall_cons in Hpd as [Hw' _]. }
  unfold aufs_metadata. cbn [h_Name set_Name]. rewrite Hmeta. cbn [and_then].
  rewrite Join_rel by done. rewrite Rel_P by done. unfold id_result. cbn [and_then].
  assert (Hdd : HasPrefix (Join (d ++ [wh x]) "/") "../" = false).
  { destruct (d ++ [wh x]) as [|w ws]; [done|]. apply HasPrefix_dotdot.
    by apply Forall_cons in Hw as [Hw _]. }
  rewrite Hdd.
  assert (HDw : Forall normal ((D ++ d) ++ [wh x])) by (rewrite <- app_assoc; by apply Forall_app).
  rewrite app_assoc, Base_P by done.
  assert (Hpre : HasPrefix (wh x) WhiteoutPrefix = true).
  { apply HasPrefix_spec. by exists x. }
  rewrite Hpre. unfold unpack_whiteout. rewrite decide_False; cycle 1.
  { unfold wh, WhiteoutOpaqueDir, WhiteoutMetaPrefix. intros Heq.
    assert (HasPrefix (WhiteoutPrefix +:+ x) (WhiteoutPrefix +:+ WhiteoutPrefix) = true) as Hp.
    { rewrite Heq. by apply HasPrefix_spec; exists ".opq". }
    rewrite HasPrefix_app_l in Hp. congruence. }
  rewrite Dir_P by done. unfold TrimPrefix, wh. rewrite strip_prefix_app. cbn [default].
  assert (HDd : Forall normal (D ++ d)).
  { apply Forall_app. split; [done|]. by apply plain_normal. }
  assert (Hj : filepath_Join (P (D ++ d)) x = P (D ++ d ++ [x])).
  { rewrite app_assoc. apply (Join_rel (D ++ d) [x]); [done|by constructor|done]. }
  unfold id. by rewrite Hj.
Qed.
End step_file.

(** ** What unpacking one file does *)

Definition cleared (s : fs) (p : list string) (n : inode) : fs :=
  match node_at s p with
  | Some m => if is_dir m && is_dir n then s else remove_below s p
  | None => s
  end.

(** A directory of the destination stays and takes the attributes. *)
Definition merged (s : fs) (p : list string) (n : inode) : bool :=
  match node_at s p with Some m => is_dir m && is_dir n | None => false end.

Record file_post (s : fs) (p : list string) (n : inode) (i : nat) (s2 : fs) : Prop := {
  fp_wf : fs_wf s2;
  fp_xattr : fs_xattr s2 = fs_xattr s;
  fp_cwd : fs_cwd s2 = fs_cwd s;
  fp_next : (fs_next s ≤ fs_next s2)%nat;
  fp_name : fs_names s2 !! p = Some i;
  fp_node : ∃ m, node_at s2 p = Some m ∧ copy_of n m;
  fp_names : ∀ r, ¬ p `prefix_of` r → fs_names s2 !! r = fs_names s !! r;
  fp_nodes : ∀ r, ¬ p `prefix_of` r → node_at s2 r = node_at s r ∨
    (fs_names s !! r = Some i ∧ ∃ m, node_at s2 r = Some m ∧ copy_of n m);
  fp_below : ∀ r, r ≠ [] →
    fs_names s2 !! (p ++ r) = if merged s p n then fs_names s !! (p ++ r) else None;
  fp_below_nodes : ∀ r, r ≠ [] → merged s p n = true → node_at s2 (p ++ r) = node_at s (p ++ r)
}.

Lemma prefix_self_app {A} (p r : list A) : p `prefix_of` p ++ r.
Proof. by exists r. Qed.

Section clear.
Context (s : fs) (p : list string) (n : inode).
Hypothesis (Hwf : fs_wf s).

Lemma cleared_wf : fs_wf (cleared s p n).
Proof. unfold cleared. destruct (node_at s p) as [m|]; [|done]. case_match; [done|]. by apply remove_wf. Qed.

Lemma cleared_outside r : ¬ p `prefix_of` r →
  fs_names (cleared s p n) !! r = fs_names s !! r ∧ node_at (cleared s p n) r = node_at s r.
Proof.
  intros Hr. unfold cleared. destruct (node_at s p) as [m|]; [|done]. case_match; [done|].
  split; [|by rewrite node_at_remove, decide_False].
  destruct (fs_names s !! r) as [i|] eqn:E; [by apply names_remove|].
  destruct (fs_names (remove_below s p) !! r) as [i|] eqn:E'; [|done].
  apply names_remove in E' as [E' _]. congruence.
Qed.

Lemma cleared_merged :
  merged s p n = true → cleared s p n = s ∧ ∃ m, node_at s p = Some m ∧ is_dir m = true ∧ is_dir n = true.
Proof.
  unfold merged, cleared. destruct (node_at s p) as [m|]; [|done]. intros E. rewrite E.
  apply andb_true_iff in E as [? ?]. eauto.
Qed.

(** Nothing is below a name that has no inode, and nothing below a file. *)
Hypothesis (Htree : ∀ r c, is_Some (node_at s (p ++ r ++ [c])) → dir_at s (p ++ r)).

Lemma nothing_below r : (∀ m, node_at s p = Some m → is_dir m = false) → r ≠ [] → node_at s (p ++ r) = None.
Proof.
  intros Hp. induction r as [|c r IH] using rev_ind; [done|]. intros _.
  destruct (node_at s (p ++ r ++ [c])) as [m|] eqn:E; [|done].
  destruct (Htree r c) as (d & Hd & Hdir); [by eexists|].
  destruct (decide (r = [])) as [->|Hne].
  - rewrite app_nil_r in Hd. specialize (Hp d Hd). congruence.
  - rewrite IH in Hd by done. done.
Qed.

Lemma cleared_empty r : merged s p n = false → fs_names (cleared s p n) !! (p ++ r) = None.
Proof.
  intros Hm. unfold merged, cleared in *. destruct (node_at s p) as [m|] eqn:E.
  - rewrite Hm. destruct (fs_names (remove_below s p) !! (p ++ r)) eqn:E'; [|done].
    apply names_remove in E' as [_ E']. destruct E'. apply prefix_self_app.
  - apply node_at_None; [done|]. destruct (decide (r = [])) as [->|Hne]; [by rewrite app_nil_r|].
    apply nothing_below; [|done]. intros m Hm'. congruence.
Qed.

Lemma cleared_dirs : p ≠ [] → dirs_above s p → dirs_above (cleared s p n) p.
Proof.
  intros Hne [Hr Hd].
  assert (Hkeep : ∀ q c r, p = q ++ c :: r → dir_at (cleared s p n) q).
  { intros q c r Heq. destruct (Hd q c r Heq) as (m & Hm & Hdm). exists m. split; [|done].
    destruct (cleared_outside q) as [_ ->]; [|done]. intros [t Ht]. rewrite Ht in Heq.
    apply (f_equal length) in Heq. rewrite !length_app in Heq. simpl in Heq.
    lia. }
  split; [|done]. destruct p as [|c r]; [done|]. by apply (Hkeep [] c r).
Qed.

Lemma cleared_same : fs_xattr (cleared s p n) = fs_xattr s ∧ fs_cwd (cleared s p n) = fs_cwd s ∧
  fs_next (cleared s p n) = fs_next s.
Proof. unfold cleared. destruct (node_at s p); [|done]. by case_match. Qed.
End clear.

Lemma dirs_above_create s p n : fs_wf s → dirs_above s p → p ≠ [] → dirs_above (create_at s p n) p.
Proof.
  intros Hwf [Hr Hd] Hne.
  assert (Hkeep : ∀ q, q ≠ p → dir_at s q → dir_at (create_at s p n) q).
  { intros q Hq (m & Hm & Hdm). exists m. by rewrite node_at_create, decide_False. }
  split; [by apply Hkeep|]. intros q c r Heq. apply Hkeep; [|by eapply Hd]. intros ->.
  apply (f_equal length) in Heq. rewrite length_app in Heq. simpl in Heq. lia.
Qed.

Section created.
Context (s : fs) (p : list string) (n : inode).
Hypothesis (Hwf : fs_wf s) (Hne : p ≠ []) (Hx : fs_xattr s = true).
Hypothesis (Htree : ∀ r c, is_Some (node_at s (p ++ r ++ [c])) → dir_at s (p ++ r)).

(** The three ways an entry comes into being. *)
Lemma post_merged i f m :
  merged s p n = true → fs_names s !! p = Some i → node_at s p = Some m →
  keeps_kind f → copy_of n (f m) → file_post s p n i (set_inode s i f).
Proof.
  intros Hm Hi Hp Hf Hc. destruct (cleared_merged s p n Hm) as (_ & m' & Hm' & Hd & _).
  rewrite Hp in Hm'. injection Hm' as <-.
  split; try done.
  - by apply set_wf.
  - exists (f m). rewrite node_at_set, decide_True, Hp by done. done.
  - intros r Hr. left. rewrite node_at_set. case_decide as E; [|done].
    destruct Hr. rewrite (node_at_Some _ _ _ Hi) in Hp.
    by rewrite (wf_dir _ Hwf p r i m Hi E Hp Hd).
  - intros r Hr. by rewrite Hm.
  - intros r Hr _. rewrite node_at_set, decide_False; [done|]. intros E. apply Hr.
    rewrite (node_at_Some _ _ _ Hi) in Hp. pose proof (wf_dir _ Hwf p (p ++ r) i m Hi E Hp Hd) as Heq.
    rewrite <- (app_nil_r p) in Heq at 1. by apply app_inv_head in Heq.
Qed.

Lemma post_created f n0 :
  merged s p n = false → keeps_kind f → copy_of n (f n0) →
  file_post s p n (fs_next s) (set_inode (create_at (cleared s p n) p n0) (fs_next s) f).
Proof.
  intros Hm Hf Hc. set (s1 := cleared s p n).
  assert (Hwf1 : fs_wf s1) by by apply cleared_wf.
  destruct (cleared_same s p n) as (Ex & Ec & En). fold s1 in Ex, Ec, En.
  assert (Hnone : node_at s1 p = None).
  { pose proof (cleared_empty s p n Hwf Htree [] Hm) as He. rewrite app_nil_r in He.
    unfold node_at. fold s1 in He. by rewrite He. }
  assert (Hnames : ∀ r, fs_names (create_at s1 p n0) !! r = if decide (r = p) then Some (fs_next s1) else fs_names s1 !! r).
  { intros r. unfold create_at. cbn [fs_names]. case_decide as E; [subst r; apply lookup_insert_eq|].
    by rewrite lookup_insert_ne. }
  split.
  - apply set_wf; [done|]. by apply create_wf.
  - done.
  - done.
  - change (fs_next s ≤ S (fs_next s1))%nat. rewrite En. lia.
  - change (fs_names (create_at s1 p n0) !! p = Some (fs_next s)). rewrite Hnames, decide_True by done.
    by rewrite En.
  - exists (f n0). rewrite node_at_set, node_at_create, Hnames, !(decide_True (P := p = p)) by done.
    by rewrite En, decide_True.
  - intros r Hr. change (fs_names (create_at s1 p n0) !! r = fs_names s !! r).
    rewrite Hnames, decide_False by (intros ->; by destruct Hr). by apply cleared_outside.
  - intros r Hr. left. assert (r ≠ p) by (intros ->; by destruct Hr).
    destruct (cleared_outside s p n r Hr) as [Hn1 Hn2].
    rewrite node_at_set, node_at_create, Hnames, !(decide_False (P := r = p)) by done.
    case_decide as E; [|done]. apply (wf_inode _ Hwf1) in E as [_ E]. rewrite En in E. lia.
  - intros r Hr. rewrite Hm. change (fs_names (create_at s1 p n0) !! (p ++ r) = None).
    rewrite Hnames, decide_False; [by apply cleared_empty|]. intros E.
    rewrite <- (app_nil_r p) in E at 2. by apply app_inv_head in E.
  - congruence.
Qed.

Lemma post_linked f i m q0 :
  merged s p n = false → ¬ p `prefix_of` q0 → fs_names s !! q0 = Some i → node_at s q0 = Some m →
  is_dir m = false → keeps_kind f → copy_of n (f m) →
  file_post s p n i
    (set_inode (with_names (cleared s p n) (<[p := i]> (fs_names (cleared s p n)))) i f).
Proof.
  intros Hm Hq0 Hi Hnode Hd Hf Hc. set (s1 := cleared s p n).
  assert (Hwf1 : fs_wf s1) by by apply cleared_wf.
  destruct (cleared_outside s p n q0 Hq0) as [Hi1 Hn1]. fold s1 in Hi1, Hn1.
  rewrite Hi in Hi1. rewrite Hnode in Hn1.
  set (s2 := with_names s1 _).
  assert (Hnames : ∀ r, fs_names s2 !! r = if decide (r = p) then Some i else fs_names s1 !! r).
  { intros r. unfold s2. cbn [fs_names with_names]. case_decide as E; [subst r; apply lookup_insert_eq|].
    by rewrite lookup_insert_ne. }
  assert (Hin : fs_inodes s1 !! i = Some m) by by rewrite <- (node_at_Some s1 q0).
  assert (Hwf2 : fs_wf s2).
  { split.
    - intros r k Hk. rewrite Hnames in Hk. case_decide; [|by apply (wf_inode _ Hwf1) in Hk].
      injection Hk as <-. by apply (wf_inode _ Hwf1) in Hi1.
    - intros r r' k x Hr Hr' Hxk Hdx. change (fs_inodes s1 !! k = Some x) in Hxk.
      rewrite Hnames in Hr, Hr'.
      assert (k ≠ i) by (intros ->; congruence).
      case_decide; [congruence|]. case_decide; [congruence|]. by eapply (wf_dir _ Hwf1). }
  assert (Hshare : ∀ r, fs_names s2 !! r = Some i → node_at (set_inode s2 i f) r = Some (f m)).
  { intros r Hr. rewrite node_at_set, decide_True by done. rewrite (node_at_Some _ _ _ Hr).
    change (fs_inodes s2) with (fs_inodes s1). by rewrite Hin. }
  destruct (cleared_same s p n) as (Ex & Ec & En). fold s1 in Ex, Ec, En.
  assert (Hpi : fs_names s2 !! p = Some i) by by rewrite Hnames, decide_True.
  split.
  - by apply set_wf.
  - done.
  - done.
  - change (fs_next s ≤ fs_next s1)%nat. lia.
  - done.
  - exists (f m). by rewrite Hshare.
  - intros r Hr. change (fs_names s2 !! r = fs_names s !! r).
    rewrite Hnames, decide_False by (intros ->; by destruct Hr). by apply cleared_outside.
  - intros r Hr. assert (r ≠ p) by (intros ->; by destruct Hr).
    destruct (cleared_outside s p n r Hr) as [Hr1 Hr2]. fold s1 in Hr1, Hr2.
    destruct (decide (fs_names s !! r = Some i)) as [E|E].
    + right. split; [done|]. exists (f m). rewrite Hshare; [done|].
      rewrite Hnames, decide_False by done. congruence.
    + left. rewrite node_at_set, Hnames, (decide_False (P := r = p)) by done.
      rewrite decide_False by congruence.
      rewrite <- Hr2. unfold node_at. rewrite Hnames, decide_False by done. done.
  - intros r Hr. rewrite Hm. change (fs_names s2 !! (p ++ r) = None).
    rewrite Hnames, decide_False; [by apply cleared_empty|]. intros E.
    rewrite <- (app_nil_r p) in E at 2. by apply app_inv_head in E.
  - congruence.
Qed.
End created.

(** ** The header of an entry when it is unpacked *)

Definition import_header (q : list string) (n : inode) (uid gid : Z) : Header :=
  set_Name (tar_stream (export_header q n uid gid, "")).1 (Join q "/").

Lemma import_header_for q n : header_for n (import_header q n (i_uid n) (i_gid n)).
Proof. done. Qed.

Lemma device_numbers q n uid gid :
  exportable n → match i_kind n with KChar | KBlock => True | _ => False end →
  Mkdev (h_Devmajor (import_header q n uid gid)) (h_Devminor (import_header q n uid gid)) = i_rdev n.
Proof.
  intros Hex Hk. unfold import_header, export_header. cbn [tar_stream fst set_Name h_Devmajor h_Devminor].
  assert (Hm : Z.land (st_mode (stat_of n)) 24576 ≠ 0).
  { simpl. rewrite Z.land_lor_distr_l. intros [E _]%Z.lor_eq_0_iff. by destruct (i_kind n). }
  rewrite bool_decide_true by by left. apply Mkdev_major_minor.
  pose proof (ex_rdev _ Hex) as Hr. by destruct (i_kind n).
Qed.

Section create.
Context (s : fs) (D q : list string) (n : inode).
Hypothesis (Hpn : Forall normal (D ++ q)) (Hdirs : dirs_above s (D ++ q)).
Hypothesis (Hnone : node_at s (D ++ q) = None) (Hex : exportable n).
Hypothesis (Hlink : ∀ t, i_kind n = KSymlink t →
  HasPrefix (filepath_Join (filepath_Dir (P (D ++ q))) t) (P D) = true).

Lemma make_name_literal m : make_name s (P (D ++ q)) m = (create_at s (D ++ q) m, Ok tt).
Proof. unfold make_name, lift. rewrite resolve_literal by done. cbn [and_then]. by rewrite Hnone. Qed.

Lemma create_fresh :
  ∃ n0, create_object s (P (D ++ q)) (P D) (import_header q n (i_uid n) (i_gid n)) (data_of n) =
          (create_at s (D ++ q) n0, Ok tt) ∧
        i_kind n0 = i_kind n ∧ i_rdev n0 = i_rdev n ∧ i_xattrs n0 = ∅ ∧
        (is_symlink n = true → i_perm n0 = 511).
Proof.
  pose proof (device_numbers q n (i_uid n) (i_gid n) Hex) as Hdev.
  pose proof (ex_rdev _ Hex) as Hr. unfold create_object. set (hdr := import_header _ _ _ _) in *.
  change (h_Typeflag hdr) with (flag_of n). change (h_Linkname hdr) with (target_of n).
  unfold flag_of, target_of, data_of. destruct (i_kind n) as [|dt|t| | | |] eqn:K.
  - rewrite Lstat_literal, Hnone by done. unfold os_Mkdir. rewrite make_name_literal. cbn [errno_result].
    eexists. split; [done|]. repeat split; try done. unfold is_symlink. by rewrite K.
  - unfold os_WriteFile, lift. rewrite resolve_literal; [|done|done|intros _ m Hm; congruence].
    cbn [and_then]. rewrite Hnone. eexists. split; [by destruct (fs_names s !! (D ++ q))|].
    repeat split; try done. unfold is_symlink. by rewrite K.
  - rewrite Hlink by done. destruct (ex_link _ Hex t K) as [_ Ht]. unfold os_Symlink.
    cbn [negb]. rewrite decide_False, make_name_literal by done. cbn [errno_result].
    eexists. split; [done|]. repeat split; done.
  - unfold handleTarTypeBlockCharFifo. change (h_Typeflag hdr) with (flag_of n).
    unfold flag_of. rewrite K. unfold os_Mknod. rewrite make_name_literal. cbn [errno_result].
    eexists. split; [done|]. repeat split; try done; [by apply Hdev|]. unfold is_symlink. by rewrite K.
  - unfold handleTarTypeBlockCharFifo. change (h_Typeflag hdr) with (flag_of n).
    unfold flag_of. rewrite K. unfold os_Mknod. rewrite make_name_literal. cbn [errno_result].
    eexists. split; [done|]. repeat split; try done; [by apply Hdev|]. unfold is_symlink. by rewrite K.
  - unfold handleTarTypeBlockCharFifo. change (h_Typeflag hdr) with (flag_of n).
    unfold flag_of. rewrite K. unfold os_Mknod. rewrite make_name_literal. cbn [errno_result].
    eexists. split; [done|]. repeat split; try done. unfold is_symlink. by rewrite K.
  - by destruct (ex_kind _ Hex).
Qed.
End create.

Section place.
Context (s : fs) (D q : list string) (n : inode).
Hypothesis (Hwf : fs_wf s) (Hx : fs_xattr s = true) (Hne : q ≠ []).
Hypothesis (Hpn : Forall normal (D ++ q)) (Hdirs : dirs_above s (D ++ q)).
Hypothesis (Htree : ∀ r c, is_Some (node_at s ((D ++ q) ++ r ++ [c])) → dir_at s ((D ++ q) ++ r)).
Hypothesis (Hex : exportable n).
Hypothesis (Hplain : ∀ m, node_at s (D ++ q) = Some m → is_dir m = true →
  i_rdev m = 0 ∧ i_xattrs m !! cap_key = None).

Let p := D ++ q.
Let s1 := cleared s p n.

Lemma place_ne : p ≠ [].
Proof. unfold p. by destruct D. Qed.
Lemma place_dirs : dirs_above s1 p.
Proof. pose proof place_ne. by apply cleared_dirs. Qed.

(** An entry of its own. *)
Lemma place_file :
  (∀ t, i_kind n = KSymlink t → HasPrefix (filepath_Join (filepath_Dir (P p)) t) (P D) = true) →
  ∃ i s2, createTarFile s1 (P p) (P D) (import_header q n (i_uid n) (i_gid n)) (data_of n) None =
            (s2, Ok tt) ∧ file_post s p n i s2 ∧
          (merged s p n = true ∧ fs_names s !! p = Some i ∨ i = fs_next s).
Proof.
  intros Hlink. set (hdr := import_header _ _ _ _). unfold createTarFile.
  change (h_Typeflag hdr) with (flag_of n). rewrite decide_False by (unfold flag_of; by destruct (i_kind n)).
  destruct (merged s p n) eqn:Hm.
  - destruct (cleared_merged s p n Hm) as (Hs1 & m & Hp & Hd & Hdn). unfold s1. rewrite Hs1.
    assert (Hkn : i_kind n = KDir) by (unfold is_dir in Hdn; by destruct (i_kind n)).
    assert (Hkm : i_kind m = KDir) by (unfold is_dir in Hd; by destruct (i_kind m)).
    destruct (node_at_name _ _ _ Hp) as (i & Hi & _). exists i, (set_inode s i (full_attrs hdr)).
    split; [|split; [|by left]].
    + unfold create_object. change (h_Typeflag hdr) with (flag_of n). unfold flag_of. rewrite Hkn.
      rewrite Lstat_literal by done. rewrite Hp, Hd. cbn [and_then].
      rewrite (attributes_full _ _ i m); try done.
      * change (h_Typeflag hdr) with (flag_of n). unfold flag_of. by rewrite Hkn.
      * unfold is_symlink. by rewrite Hkm.
      * change (h_Typeflag hdr) with (flag_of n). unfold flag_of. by rewrite Hkn.
    + apply (post_merged s p n Hwf) with m; try done; [apply full_attrs_kind|].
      destruct (Hplain m Hp Hd) as [Hr0 Hc0].
      apply full_attrs_copy; try done; [congruence|].
      pose proof (ex_rdev _ Hex) as Hr. rewrite Hkn in Hr. congruence.
  - assert (Hempty : fs_names s1 !! p = None).
    { pose proof (cleared_empty s p n Hwf Htree [] Hm) as He. by rewrite app_nil_r in He. }
    assert (Hnone : node_at s1 p = None) by (unfold node_at; by rewrite Hempty).
    assert (Hwf1 : fs_wf s1) by by apply cleared_wf.
    destruct (cleared_same s p n) as (Ex & Ec & En). fold s1 in Ex, Ec, En.
    destruct (create_fresh s1 D q n Hpn place_dirs Hnone Hex Hlink) as (n0 & Hcr & Hk & Hr & Hxs & Hperm).
    fold p in Hcr. fold hdr in Hcr. rewrite Hcr. cbn [and_then].
    set (s2 := create_at s1 p n0).
    assert (Hi2 : fs_names s2 !! p = Some (fs_next s1)) by apply lookup_insert_eq.
    assert (Hn2 : node_at s2 p = Some n0) by (unfold s2; by rewrite node_at_create, decide_True).
    assert (Hd2 : dirs_above s2 p) by (apply dirs_above_create; [done|apply place_dirs|apply place_ne]).
    assert (Hx2 : fs_xattr s2 = true) by (change (fs_xattr s1 = true); by rewrite Ex).
    assert (Hdir0 : is_dir n0 = true → i_xattrs n0 !! cap_key = None).
    { intros _. by rewrite Hxs, lookup_empty. }
    destruct (is_symlink n) eqn:Hsym.
    + assert (Hks : ∃ t, i_kind n = KSymlink t).
      { unfold is_symlink in Hsym. destruct (i_kind n); try done. by eexists. }
      destruct Hks as [t Ht].
      exists (fs_next s), (set_inode s2 (fs_next s) (link_attrs hdr)). split; [|split; [|by right]].
      * rewrite (attributes_symlink s2 p (fs_next s1) n0); try done.
        -- by rewrite En.
        -- change (h_Typeflag hdr) with (flag_of n). unfold flag_of. by rewrite Ht.
      * apply post_created; try done; [apply link_attrs_kind|].
        apply link_attrs_copy with t; try done. by apply Hperm.
    + exists (fs_next s), (set_inode s2 (fs_next s) (full_attrs hdr)). split; [|split; [|by right]].
      * rewrite (attributes_full s2 p (fs_next s1) n0); try done.
        -- by rewrite En.
        -- change (h_Typeflag hdr) with (flag_of n). unfold flag_of, is_symlink in *. by destruct (i_kind n).
        -- unfold is_symlink in *. by rewrite Hk.
        -- change (h_Typeflag hdr) with (flag_of n). unfold flag_of. by destruct (i_kind n).
      * apply post_created; try done; [apply full_attrs_kind|]. by apply full_attrs_copy.
Qed.

(** A further name of a file that is there already. *)
Context (q0 : list string) (i : nat) (m : inode).
Hypothesis (Hq0 : Forall normal q0) (Hne0 : q0 ≠ []) (Hother : ¬ p `prefix_of` D ++ q0).
Hypothesis (Hi : fs_names s !! (D ++ q0) = Some i) (Hm : node_at s (D ++ q0) = Some m).
Hypothesis (Hcopy : copy_of n m) (Hnd : is_dir n = false).
Hypothesis (Hdirs0 : dirs_above s (D ++ q0)) (Hcwd : fs_cwd s = D).

Let s2 := with_names s1 (<[p := i]> (fs_names s1)).

Lemma linked_names r : fs_names s2 !! r = if decide (r = p) then Some i else fs_names s1 !! r.
Proof.
  unfold s2. cbn [fs_names with_names]. case_decide as E; [rewrite E; apply lookup_insert_eq|].
  by rewrite lookup_insert_ne.
Qed.

Lemma linked_nodes r : r ≠ p → node_at s2 r = node_at s1 r.
Proof. intros Hr. unfold node_at. rewrite linked_names, decide_False by done. done. Qed.

Lemma linked_dirs r : dirs_above s r → (∀ t c u, r = t ++ c :: u → ¬ p `prefix_of` t) → dirs_above s2 r.
Proof.
  intros [Hr Hd] Hout.
  assert (Hkeep : ∀ t, ¬ p `prefix_of` t → dir_at s t → dir_at s2 t).
  { intros t Ht (x & Hx' & Hdx). exists x. rewrite linked_nodes by (intros ->; by destruct Ht).
    split; [|done]. destruct (cleared_outside s p n t Ht) as [_ E]. by rewrite <- Hx'. }
  split; [|by eauto]. apply Hkeep; [|done]. intros E%prefix_nil_inv. by apply place_ne.
Qed.

Lemma linked_above : dirs_above s2 p ∧ dirs_above s2 (D ++ q0).
Proof.
  split; apply linked_dirs; try done; intros t c u Heq [v Hv].
  - rewrite Hv in Heq. apply (f_equal length) in Heq. rewrite !length_app in Heq. simpl in Heq. lia.
  - apply Hother. exists (v ++ c :: u). by rewrite Heq, Hv, <- app_assoc.
Qed.

Lemma q0_other : D ++ q0 ≠ p.
Proof. intros E. by destruct Hother; rewrite E. Qed.

Lemma linked_target hdr f :
  h_Linkname hdr = Join q0 "/" → keeps_kind f →
  link_target_ok (set_inode s2 i f) hdr = negb (is_symlink m).
Proof.
  intros Hl Hf. unfold link_target_ok, os_Lstat, stat_with, resolve. rewrite Hl.
  rewrite decide_False by by apply rel_nonempty. rewrite IsAbs_rel by done.
  assert (Ec : fs_cwd (set_inode s2 i f) = D).
  { change (fs_cwd s1 = D). rewrite <- Hcwd. apply cleared_same. }
  rewrite Ec, Split_rel, namei_unfold by done.
  rewrite namei_literal; [|done| |done]; cycle 1.
  { intros t c u Heq. apply dir_at_set; [done|]. destruct linked_above as [_ [_ Hd]].
    apply (Hd (D ++ t) c u). by rewrite Heq, <- app_assoc. }
  destruct (cleared_outside s p n (D ++ q0) Hother) as [Hi1 Hn1].
  rewrite node_at_set, linked_names, linked_nodes, (decide_False (P := _ = p)) by apply q0_other.
  unfold s1. rewrite Hi1, Hn1, Hi, Hm, decide_True by done. simpl. unfold is_symlink. by rewrite Hf.
Qed.

Lemma place_link hdr :
  h_Typeflag hdr = TypeLink → h_Linkname hdr = Join q0 "/" → header_for n hdr →
  ∃ s3, createTarFile s1 (P p) (P D) hdr "" None = (s3, Ok tt) ∧ file_post s p n i s3.
Proof.
  intros Ht Hl Hh.
  assert (HD : Forall normal D) by by apply Forall_app in Hpn as [HD _].
  assert (Hmg : merged s p n = false).
  { unfold merged. rewrite Hnd. destruct (node_at s p); [|done]. by rewrite andb_false_r. }
  assert (Hdm : is_dir m = false) by (unfold is_dir in *; by rewrite (cp_kind _ _ Hcopy)).
  assert (Hnone : node_at s1 p = None).
  { pose proof (cleared_empty s p n Hwf Htree [] Hmg) as He. rewrite app_nil_r in He.
    unfold node_at, s1. by rewrite He. }
  destruct (cleared_outside s p n (D ++ q0) Hother) as [Hi1 Hn1]. fold s1 in Hi1, Hn1.
  assert (Hd0 : dirs_above s1 (D ++ q0)).
  { destruct Hdirs0 as [Hr Hd]. assert (Hkeep : ∀ t, ¬ p `prefix_of` t → dir_at s t → dir_at s1 t).
    { intros t Htp (x & Hx' & Hdx). exists x. split; [|done].
      destruct (cleared_outside s p n t Htp) as [_ E]. unfold s1. by rewrite E. }
    split; [apply Hkeep; [|done]; intros E%prefix_nil_inv; by apply place_ne|].
    intros t c v Heq. apply Hkeep; [|by eapply Hd]. intros [w Hw]. apply Hother.
    exists (w ++ c :: v). by rewrite Heq, Hw, <- app_assoc. }
  assert (Hobj : create_object s1 (P p) (P D) hdr "" = (s2, Ok tt)).
  { unfold create_object. rewrite Ht, Hl, Join_rel, P_prefix by done. cbn [negb].
    unfold os_Link, lift. rewrite resolve_literal; [|by apply Forall_app|done|done]. cbn [and_then].
    rewrite Hi1, Hn1, Hi, Hm.
    rewrite resolve_literal; [|done|apply place_dirs|done]. cbn [and_then]. by rewrite Hnone, Hdm. }
  unfold createTarFile. rewrite decide_False by by rewrite Ht. rewrite Hobj. cbn [and_then].
  destruct linked_above as [Hap _].
  assert (Hi2 : fs_names s2 !! p = Some i) by by rewrite linked_names, decide_True.
  assert (Hn2 : node_at s2 p = Some m).
  { rewrite (node_at_Some _ _ _ Hi2). rewrite Hi in Hi1. rewrite Hm in Hn1.
    by rewrite (node_at_Some _ _ _ Hi1) in Hn1. }
  assert (Hx2 : fs_xattr s2 = true).
  { change (fs_xattr s1 = true). rewrite <- Hx. apply cleared_same. }
  destruct (is_symlink n) eqn:Hsym.
  - assert (Hks : ∃ t, i_kind n = KSymlink t).
    { unfold is_symlink in Hsym. destruct (i_kind n); try done. by eexists. }
    destruct Hks as [t Hkt]. exists (set_inode s2 i (bare_attrs hdr)). split.
    + rewrite (attributes_linked_symlink s2 p i m); try done. intros f Hf.
      rewrite linked_target by done. unfold is_symlink. by rewrite (cp_kind _ _ Hcopy), Hkt.
    + apply post_linked with (m := m) (q0 := D ++ q0); try done; [apply bare_attrs_kind|].
      by apply bare_attrs_copy with t.
  - assert (Hsm : is_symlink m = false) by (unfold is_symlink in *; by rewrite (cp_kind _ _ Hcopy)).
    exists (set_inode s2 i (full_attrs hdr)). split.
    + rewrite (attributes_full s2 p i m); try done; [by rewrite Ht|]. intros _ f Hf.
      rewrite linked_target by done. by rewrite Hsm.
    + apply post_linked with (m := m) (q0 := D ++ q0); try done; [apply full_attrs_kind|].
      by apply full_attrs_recopy.
Qed.
End place.
