(* ===== verification/ArchiveTrip.v ===== *)
(** * pkg/archive: the round trip of a layer

    Two directories, the list of changes between them, the archive that
    [ExportChanges] makes of the list and the effect of [UnpackLayer] on the old
    directory. *)

From S2P Require Import Prelude GoStrings GoPath IDTools Changes.
From S2P Require Import ChangesInv HostFS HostFSInv Archive ArchiveInv.
Open Scope Z_scope.

(** ** Directories and their descriptions *)

(** A directory [B] of a file system, with everything below it under a directory, and
    no name that looks like a whiteout. *)
Record tree_ok (s : fs) (B : list string) : Prop := {
  tr_wf : fs_wf s;
  tr_base : Forall normal B;
  tr_above : dirs_above s B;
  tr_root : dir_at s B;
  tr_parent : ∀ q c, is_Some (node_at s (B ++ q ++ [c])) → dir_at s (B ++ q);
  tr_plain : ∀ q, is_Some (node_at s (B ++ q)) → Forall plain q;
  tr_xattr : fs_xattr s = true
}.

Definition cap_bytes (m : inode) : list Z := default [] (i_xattrs m !! cap_key).

(** What [collectFileInfo] collects of a directory. *)
Definition described (s : fs) (B : list string) (info : FileInfo) : Prop :=
  ∀ q, match LookUp info q, node_at s (B ++ q) with
       | Some i, Some m => q = [] ∨ fi_stat i = stat_of m ∧ fi_capability i = cap_bytes m
       | None, None => True
       | _, _ => False
       end.

Definition same_node (o n : inode) : Prop :=
  statDifferent (stat_of o) (stat_of n) = false ∧ cap_bytes o = cap_bytes n.

Lemma above_app s B q :
  dirs_above s B → dir_at s B → (∀ t c r, q = t ++ c :: r → t ≠ [] → dir_at s (B ++ t)) →
  dirs_above s (B ++ q).
Proof.
  intros [Hr Hd] HB Hq. split; [done|]. intros t c r Heq.
  apply app_eq_inv in Heq as [(l & -> & Hl)|(l & -> & Hl)].
  - destruct l as [|x l]; [|injection Hl as -> ->; by apply (Hd t x l)]. by rewrite app_nil_r in *.
  - destruct (decide (l = [])) as [->|Hne]; [by rewrite app_nil_r|]. by apply (Hq l c r).
Qed.

Section trees.
Context (s : fs) (B : list string) (Htr : tree_ok s B).

Lemma tree_prefix q c r : is_Some (node_at s (B ++ q ++ c :: r)) → dir_at s (B ++ q).
Proof.
  revert c. induction r as [|c' r IH] using rev_ind; intros c Hs; [by apply (tr_parent _ _ Htr) in Hs|].
  apply (IH c). replace (q ++ c :: r ++ [c']) with ((q ++ c :: r) ++ [c']) in Hs by by rewrite <- app_assoc.
  apply (tr_parent _ _ Htr) in Hs as (m & Hm & _).
  by exists m.
Qed.

Lemma tree_above_node q : is_Some (node_at s (B ++ q)) → dirs_above s (B ++ q).
Proof.
  intros Hq. apply above_app; [apply (tr_above _ _ Htr)|apply (tr_root _ _ Htr)|].
  intros t c r -> _. by apply (tree_prefix t c r).
Qed.
End trees.

(** The bits of the type and those of the permissions. *)
Lemma land_type perm t : 0 ≤ perm < 4096 → Z.land 4095 t = 0 → Z.land perm t = 0.
Proof. intros Hp Ht. rewrite <- (perm_small perm), <- Z.land_assoc, Ht by done. apply Z.land_0_r. Qed.

Lemma same_mode_ifmt o n :
  0 ≤ i_perm o < 4096 → 0 ≤ i_perm n < 4096 → statDifferent (stat_of o) (stat_of n) = false →
  ifmt (i_kind o) = ifmt (i_kind n).
Proof.
  intros Ho Hn Hst. unfold statDifferent in Hst. rewrite !orb_false_iff in Hst.
  destruct Hst as ((((Hm & _) & _) & _) & _). apply negb_false_iff, bool_decide_eq_true in Hm. simpl in Hm.
  apply (f_equal (λ z, Z.land z 61440)) in Hm. rewrite !Z.land_lor_distr_l in Hm.
  rewrite (land_type (i_perm o)), (land_type (i_perm n)), !Z.lor_0_r in Hm by done.
  by destruct (i_kind o), (i_kind n).
Qed.

Lemma ifmt_dir o n : ifmt (i_kind o) = ifmt (i_kind n) → is_dir o = is_dir n ∧ is_symlink o = is_symlink n.
Proof. unfold is_dir, is_symlink. by destruct (i_kind o), (i_kind n). Qed.

(** ** The changes in terms of the files *)

Section changes.
Context (s0 sN : fs) (D N : list string) (old new : FileInfo).
Hypothesis (H0 : tree_ok s0 D) (HN : tree_ok sN N).
Hypothesis (Hold : described s0 D old) (Hnew : described sN N new).
Hypothesis (Wold : info_wf [] old) (Wnew : info_wf [] new).
Hypothesis (Hperm : ∀ q n, node_at sN (N ++ q) = Some n → 0 ≤ i_perm n < 4096).
Hypothesis (Hperm0 : ∀ q n, node_at s0 (D ++ q) = Some n → 0 ≤ i_perm n < 4096).

Definition new_at (q : list string) : option inode := node_at sN (N ++ q).
Definition old_node (q : list string) : option inode := node_at s0 (D ++ q).
Definition changes : list Change := Changes new (Some old).

Lemma changes_reported q k : mkChange q k ∈ changes ↔ reported [] (Some old) new q k.
Proof.
  unfold changes, Changes. fold (diff [] false new (Some old)). rewrite elem_of_diff by done.
  unfold reports. simpl. split; [by intros (r & -> & _ & Hr)|]. intros Hr. by exists q.
Qed.

Lemma new_LookUp q : is_Some (LookUp new q) ↔ is_Some (new_at q).
Proof.
  specialize (Hnew q). unfold new_at. destruct (LookUp new q), (node_at sN (N ++ q)); naive_solver.
Qed.
Lemma old_LookUp q : is_Some (LookUp old q) ↔ is_Some (old_node q).
Proof.
  specialize (Hold q). unfold old_node. destruct (LookUp old q), (node_at s0 (D ++ q)); naive_solver.
Qed.

Lemma written_exists q k :
  k ≠ ChangeDelete → mkChange q k ∈ changes → q ≠ [] ∧ is_Some (new_at q).
Proof.
  intros Hk. rewrite changes_reported, <- new_LookUp. destruct k; [| |done]; simpl.
  - intros [(Hq & o & n & _ & Hn & _)|(o & n & r & _ & Hn & _ & Hq & _)]; eauto.
  - intros [Hn Ho]. split; [|done]. by intros ->.
Qed.

Lemma deleted_shape q :
  mkChange q ChangeDelete ∈ changes →
  ∃ d x m, q = d ++ [x] ∧ is_Some (old_node q) ∧ new_at q = None ∧ new_at d = Some m ∧
    (d = [] ∨ is_symlink m = false).
Proof.
  rewrite changes_reported. simpl. intros (d & x & di & -> & Ho & Hn & Hd & Hdir).
  assert (Hm : is_Some (new_at d)) by (apply new_LookUp; by eexists). destruct Hm as [m Hm].
  exists d, x, m. split_and!; try done.
  - by apply old_LookUp.
  - apply eq_None_not_Some. rewrite <- new_LookUp, Hn. by intros [].
  - unfold isDir in Hdir. apply orb_true_iff in Hdir as [Hdir|Hdir].
    { left. by apply bool_decide_eq_true in Hdir. }
    destruct (decide (d = [])) as [|Hne]; [by left|]. right.
    specialize (Hnew d). unfold new_at in Hm. rewrite Hd, Hm in Hnew.
    destruct Hnew as [|[Hst _]]; [done|]. rewrite Hst in Hdir. simpl in Hdir.
    apply negb_true_iff, bool_decide_eq_false in Hdir. unfold is_symlink.
    destruct (i_kind m) eqn:K; try done. destruct Hdir. apply Hperm in Hm.
    rewrite Z.land_lor_distr_l, (land_type (i_perm m)) by done. done.
Qed.

Lemma differs_nodes q n o i j :
  q ≠ [] → new_at q = Some n → old_node q = Some o → LookUp new q = Some i → LookUp old q = Some j →
  differs j i = false ↔ same_node o n.
Proof.
  intros Hq Hn Ho Hi Hj. specialize (Hnew q). specialize (Hold q). unfold new_at, old_node in *.
  rewrite Hn, Hi in Hnew. rewrite Ho, Hj in Hold.
  destruct Hnew as [|[Sn Cn]]; [done|]. destruct Hold as [|[So Co]]; [done|].
  unfold differs, same_node. rewrite Sn, Cn, So, Co, orb_false_iff, negb_false_iff, bool_decide_eq_true.
  done.
Qed.

(** What is new or different is written. *)
Lemma written_complete q n :
  q ≠ [] → new_at q = Some n → (∀ o, old_node q = Some o → ¬ same_node o n) →
  ∃ k, k ≠ ChangeDelete ∧ mkChange q k ∈ changes.
Proof.
  intros Hq Hn Ho. assert (Hi : is_Some (LookUp new q)) by (apply new_LookUp; by eexists).
  destruct (LookUp old q) as [j|] eqn:Hj.
  - exists ChangeModify. split; [done|]. apply changes_reported. left. split; [done|].
    destruct Hi as [i Hi]. exists j, i. split_and!; [done|done|].
    assert (is_Some (old_node q)) as [o Hon] by (apply old_LookUp; by eexists).
    destruct (differs j i) eqn:E; [done|]. destruct (Ho o Hon). by apply (differs_nodes q n o i j).
  - exists ChangeAdd. split; [done|]. apply changes_reported. split; [done|]. exact Hj.
Qed.

(** What is no more is below something that is deleted or is no directory any more. *)
Lemma gone_complete q :
  is_Some (old_node q) → new_at q = None →
  ∃ c, c ∈ changes ∧ ch_Path c `prefix_of` q ∧
    (ch_Kind c = ChangeDelete ∨
     ch_Kind c ≠ ChangeDelete ∧ ch_Path c ≠ q ∧ ∃ n, new_at (ch_Path c) = Some n ∧ is_dir n = false).
Proof.
  induction q as [|x q IH] using rev_ind; intros Ho Hn.
  { destruct (tr_root _ _ HN) as (m & Hm & _). unfold new_at in Hn. rewrite app_nil_r in Hn. congruence. }
  destruct (tr_parent _ _ H0 q x Ho) as (o & Hop & Hdo).
  destruct (new_at q) as [n|] eqn:Hnq.
  2: { destruct IH as (c & Hc & Hpre & Hkind); [by eexists|done|]. exists c. split; [done|].
    split; [by apply prefix_app_r|]. destruct Hkind as [|(Hk & Hne & Hnd)]; [by left|]. right.
    split_and!; [done| |done]. intros Heq. rewrite Heq in Hpre.
    apply prefix_length in Hpre. rewrite length_app in Hpre. simpl in Hpre. lia. }
  destruct (is_dir n) eqn:Hd.
  - exists (mkChange (q ++ [x]) ChangeDelete). split; [|split; [done|by left]].
    apply changes_reported. simpl.
    assert (is_Some (LookUp new q)) as [i Hi] by (apply new_LookUp; by eexists).
    exists q, x, i. split_and!; try done.
    + by apply old_LookUp.
    + apply eq_None_not_Some. rewrite new_LookUp, Hn. by intros [].
    + unfold isDir. simpl. destruct (decide (q = [])) as [->|Hq]; [done|].
      specialize (Hnew q). unfold new_at in Hnq. rewrite Hi, Hnq in Hnew.
      destruct Hnew as [|[Hst _]]; [done|]. rewrite Hst. simpl. unfold is_dir in Hd.
      destruct (i_kind n); try done. apply orb_true_iff. right. apply negb_true_iff, bool_decide_eq_false.
      rewrite Z.land_lor_distr_l. simpl. intros [E _]%Z.lor_eq_0_iff. done.
  - assert (Hq : q ≠ []).
    { intros ->. destruct (tr_root _ _ HN) as (m & Hm & Hdm). unfold new_at in Hnq.
      rewrite app_nil_r in Hnq. congruence. }
    destruct (written_complete q n Hq Hnq) as (k & Hk & Hc).
    { intros o' Ho' [Hst _]. unfold old_node in Ho'. rewrite Hop in Ho'. injection Ho' as <-.
      apply same_mode_ifmt, ifmt_dir in Hst as [E _]; [congruence|by eapply Hperm0|by eapply Hperm]. }
    exists (mkChange q k). split; [done|]. split; [by exists [x]|]. right. simpl. split_and!; [done| |by exists n].
    intros E. apply (f_equal length) in E. rewrite length_app in E. simpl in E. lia.
Qed.

(** ** The order of the archive *)

Lemma append_le (a b : string) : String.le a (a +:+ b).
Proof.
  induction a as [|x a IH]; [by destruct b|]. unfold String.le, String.leb in *.
  change (String x a +:+ b) with (String x (a +:+ b)). cbn [String.compare].
  assert (Ascii.compare x x = Eq) as -> by (unfold Ascii.compare; apply N.compare_refl). done.
Qed.
End changes.

#[global] Instance path_le_trans : Transitive path_le.
Proof. intros a b c. unfold path_le. apply transitivity. Qed.
#[global] Instance path_le_total : Total path_le.
Proof. intros a b. unfold path_le. apply (total String.le). Qed.

Lemma prefix_path_le p q : Forall normal q → p `prefix_of` q → String.le (path_string p) (path_string q).
Proof.
  intros Hq [r ->]. pose proof (P_prefix p r) as Hp. apply HasPrefix_spec in Hp as [t Ht].
  unfold path_string. unfold P in Ht. rewrite Ht. apply append_le.
Qed.

Lemma path_string_inj p q : Forall normal p → Forall normal q → path_string p = path_string q → p = q.
Proof. apply P_inj. Qed.

(** Where a change stands in the sorted list: nothing at or below its path is done,
    what is above is. *)
Record next_change (cs done : list Change) (c : Change) : Prop := {
  nx_in : c ∈ cs;
  nx_done : ∀ c', c' ∈ done → c' ∈ cs;
  nx_below : ∀ c', c' ∈ done → ¬ ch_Path c `prefix_of` ch_Path c';
  nx_above : ∀ c', c' ∈ cs → ch_Path c' `prefix_of` ch_Path c → ch_Path c' ≠ ch_Path c → c' ∈ done;
  nx_closed : ∀ c0 c', c0 ∈ done → c' ∈ cs → ch_Path c' `prefix_of` ch_Path c0 → c' ∈ done
}.

Lemma sorted_split (l1 l2 : list Change) a b :
  StronglySorted path_le (l1 ++ l2) → a ∈ l1 → b ∈ l2 → path_le a b.
Proof.
  induction l1 as [|x l1 IH]; intros Hs Ha Hb; [by apply not_elem_of_nil in Ha|].
  apply StronglySorted_inv in Hs as [Hs Hall]. apply elem_of_cons in Ha as [->|Ha]; [|by apply IH].
  rewrite Forall_forall in Hall. apply Hall. set_solver.
Qed.

Lemma sorted_next cs l done c rest :
  l ≡ₚ cs → StronglySorted path_le l → NoDup (ch_Path <$> l) →
  (∀ c, c ∈ cs → Forall normal (ch_Path c)) → l = done ++ c :: rest → next_change cs done c.
Proof.
  intros Hl Hs Hnd Hn ->. assert (Hc : c ∈ cs) by (rewrite <- Hl; set_solver).
  assert (Hin : ∀ c', c' ∈ done → c' ∈ cs) by (intros c' Hc'; rewrite <- Hl; set_solver).
  assert (Heq : ∀ a b, a ∈ cs → b ∈ cs → path_le a b → ch_Path b `prefix_of` ch_Path a →
    ch_Path a = ch_Path b).
  { intros a b Ha Hb Hle Hp. apply path_string_inj; [by apply Hn|by apply Hn|].
    apply (anti_symm String.le); [done|]. apply prefix_path_le; [by apply Hn|done]. }
  assert (Hdiff : ∀ a b, a ∈ done → b ∈ c :: rest → ch_Path a ≠ ch_Path b).
  { intros a b Ha Hb E. rewrite fmap_app in Hnd. apply NoDup_app in Hnd as (_ & Hdis & _).
    apply (Hdis (ch_Path a)); [by apply list_elem_of_fmap_2|]. rewrite E. by apply list_elem_of_fmap_2. }
  assert (Hle : ∀ a b, a ∈ done → b ∈ c :: rest → path_le a b) by (intros a b; by apply sorted_split).
  assert (Hrest : ∀ b, b ∈ c :: rest → b ∈ cs) by (intros b Hb; rewrite <- Hl; set_solver).
  split; [done|done| | |].
  - intros c' Hc' Hpre. apply (Hdiff c' c Hc'); [left|]. apply Heq; [by apply Hin|done| |done].
    by apply Hle; [|left].
  - intros c' Hc' Hpre Hne. rewrite <- Hl in Hc'. apply elem_of_app in Hc' as [|Hc']; [done|].
    apply elem_of_cons in Hc' as [->|Hc']; [done|]. destruct Hne. symmetry.
    apply Heq; [done|by apply Hrest; right| |done].
    apply (sorted_split (done ++ [c]) rest); [by rewrite <- app_assoc|set_solver|done].
  - intros c0 c' Hc0 Hc' Hpre. rewrite <- Hl in Hc'. apply elem_of_app in Hc' as [|Hc']; [done|].
    destruct (Hdiff c0 c' Hc0 Hc'). apply Heq; [by apply Hin|by apply Hrest|by apply Hle|done].
Qed.

(** ** The destination after a part of the changes *)

(** The owner comes back as it was through the two translations. *)
Definition id_ok (maps : option (list IDMap)) (root id : Z) : Prop :=
  ∃ c, ToContainer id maps = Ok c ∧
    if decide (c ≠ root) then ToHost c maps = Ok id else c = id.

Lemma unpack_file_ok D opts u root hdr data p n s2 uid gid :
  Forall normal p → p ≠ [] → dirs_above (u_fs u) p →
  bool_decide (h_Typeflag hdr = TypeDir) = is_dir n →
  (h_Typeflag hdr = TypeLink → HasPrefix (Clean (h_Linkname hdr)) WhiteoutLinkDir = false) →
  (if decide (h_Uid hdr ≠ root.1) then ToHost (h_Uid hdr) (to_UIDMaps opts) = Ok uid
   else h_Uid hdr = uid) →
  (if decide (h_Gid hdr ≠ root.2) then ToHost (h_Gid hdr) (to_GIDMaps opts) = Ok gid
   else h_Gid hdr = gid) →
  createTarFile (cleared (u_fs u) p n) (P p) (P D) (set_ids hdr uid gid) data None = (s2, Ok tt) →
  unpack_file (P D) opts u root hdr data (P p) =
    (add_path (if decide (h_Typeflag hdr = TypeDir) then add_dir (with_fs u s2) hdr
               else with_fs u s2) (P p), Ok tt).
Proof.
  intros Hn Hne Hd Hdir Hlink Hu Hg Hcr. unfold unpack_file.
  assert (Hclear : clear_path u hdr (P p) = (with_fs u (cleared (u_fs u) p n), Ok tt)).
  { unfold clear_path, cleared. rewrite Lstat_literal, Hdir by done.
    destruct (node_at (u_fs u) p) as [m|]; [|by destruct u].
    destruct (is_dir m && is_dir n); [by destruct u|].
    unfold os_RemoveAll. rewrite resolve_literal by done. by destruct p. }
  rewrite Hclear. cbn [and_then].
  assert (Hsrc : ∀ u', entry_source u' hdr data = (u', Ok (hdr, data, None))).
  { intros u'. unfold entry_source. destruct (bool_decide (h_Typeflag hdr = TypeLink)) eqn:E; [|done].
    apply bool_decide_eq_true in E. by rewrite Hlink. }
  rewrite Hsrc. cbn [and_then].
  assert (Hmap : ∀ u', map_ids opts u' root hdr = (u', Ok (set_ids hdr uid gid))).
  { intros u'. unfold map_ids.
    destruct (decide (h_Uid hdr ≠ root.1)); [rewrite Hu|rewrite Hu]; cbn [id_result and_then];
      (destruct (decide (h_Gid hdr ≠ root.2)); rewrite Hg; cbn [id_result and_then]; done). }
  rewrite Hmap. cbn [and_then]. cbn [u_fs with_fs]. rewrite Hcr. unfold on_fs. cbn [fst snd and_then].
  by case_decide.
Qed.

Section trip.
Context (tempdir : string) (s0 sN : fs) (D N : list string) (old new : FileInfo).
Context (opts : TarOptions) (root : Z * Z) (now : Timespec).
Hypothesis (H0 : tree_ok s0 D) (HN : tree_ok sN N).
Hypothesis (Hold : described s0 D old) (Hnew : described sN N new).
Hypothesis (Wold : info_wf [] old) (Wnew : info_wf [] new).
Hypothesis (Hcwd : fs_cwd s0 = D).
Hypothesis (Hex : ∀ q n, node_at sN (N ++ q) = Some n → exportable n).
Hypothesis (Hids : ∀ q n, node_at sN (N ++ q) = Some n →
  id_ok (to_UIDMaps opts) root.1 (i_uid n) ∧ id_ok (to_GIDMaps opts) root.2 (i_gid n)).
Hypothesis (Hlinks : ∀ q n t, q ≠ [] → node_at sN (N ++ q) = Some n → i_kind n = KSymlink t →
  HasPrefix (filepath_Join (filepath_Dir (P (D ++ q))) t) (P D) = true).
Hypothesis (Hdest : ∀ q m, node_at s0 (D ++ q) = Some m →
  0 ≤ i_perm m < 4096 ∧ (is_dir m = true → i_rdev m = 0 ∧ i_xattrs m !! cap_key = None)).

#[local] Abbreviation newq := (new_at sN N).
#[local] Abbreviation oldq := (old_node s0 D).
#[local] Abbreviation cs := (changes old new).
Definition new_ino (q : list string) : option nat := fs_names sN !! (N ++ q).

Lemma trip_perm q n : node_at sN (N ++ q) = Some n → 0 ≤ i_perm n < 4096.
Proof. intros Hn. by apply Hex, ex_perm in Hn. Qed.
Lemma trip_perm0 q n : node_at s0 (D ++ q) = Some n → 0 ≤ i_perm n < 4096.
Proof. intros Hn. by apply Hdest in Hn as [Hn _]. Qed.

#[local] Hint Resolve trip_perm trip_perm0 : core.

Definition written (done : list Change) (q : list string) : Prop :=
  ∃ k, k ≠ ChangeDelete ∧ mkChange q k ∈ done.
Definition gone (done : list Change) (q : list string) : Prop :=
  ∃ c, c ∈ done ∧ ch_Path c `prefix_of` q ∧
    (ch_Kind c = ChangeDelete ∨ ∃ n, newq (ch_Path c) = Some n ∧ is_dir n = false).

Record Inv (done : list Change) (seen : gmap nat string) (u : unpack) : Prop := {
  iv_wf : fs_wf (u_fs u);
  iv_xattr : fs_xattr (u_fs u) = true;
  iv_cwd : fs_cwd (u_fs u) = D;
  iv_next : (fs_next s0 ≤ fs_next (u_fs u))%nat;
  iv_out : ∀ p, (∀ q, q ≠ [] → p ≠ D ++ q) →
    fs_names (u_fs u) !! p = fs_names s0 !! p ∧ node_at (u_fs u) p = node_at s0 p;
  iv_written : ∀ q, written done q → ∃ n m,
    newq q = Some n ∧ node_at (u_fs u) (D ++ q) = Some m ∧ copy_of n m;
  iv_gone : ∀ q, q ≠ [] → ¬ written done q → gone done q → fs_names (u_fs u) !! (D ++ q) = None;
  iv_old : ∀ q, q ≠ [] → ¬ written done q → ¬ gone done q →
    fs_names (u_fs u) !! (D ++ q) = fs_names s0 !! (D ++ q) ∧ node_at (u_fs u) (D ++ q) = oldq q;
  iv_share : ∀ q q' i, fs_names (u_fs u) !! (D ++ q) = Some i →
    fs_names (u_fs u) !! (D ++ q') = Some i → (fs_next s0 ≤ i)%nat → new_ino q = new_ino q';
  iv_seen : ∀ j nm, seen !! j = Some nm → ∃ q i, nm = Join q "/" ∧ written done q ∧
    new_ino q = Some j ∧ fs_names (u_fs u) !! (D ++ q) = Some i ∧ (fs_next s0 ≤ i)%nat;
  iv_dirs : ∀ hdr, hdr ∈ u_dirs u → ∃ q n, h_Name hdr = Join q "/" ∧ written done q ∧
    newq q = Some n ∧ is_dir n = true;
  iv_temp : u_aufsTempdir u = ""
}.

Lemma gone_mono done q q' : gone done q → q `prefix_of` q' → gone done q'.
Proof. intros (c & Hc & Hp & Hk) Hq. exists c. split_and!; [done|by etrans|done]. Qed.

Lemma written_in (done : list Change) q k : (∀ c, c ∈ done → c ∈ cs) → k ≠ ChangeDelete → mkChange q k ∈ done →
  q ≠ [] ∧ is_Some (newq q).
Proof. intros Hin Hk Hc. eapply (written_exists s0 sN D N old new); eauto. Qed.

(** What is in the new directory is not gone unless it is written. *)
Lemma not_gone (done : list Change) q :
  (∀ c, c ∈ done → c ∈ cs) → is_Some (newq q) → ¬ written done q → ¬ gone done q.
Proof.
  intros Hin Hq Hw ([p k] & Hc & [r ->] & Hk). simpl in *.
  destruct r as [|x r].
  - rewrite app_nil_r in *. destruct (decide (k = ChangeDelete)) as [->|Hkd]; [|by apply Hw; exists k].
    apply Hin, (deleted_shape s0 sN D N old new) in Hc as (d & y & m & _ & _ & Hn & _); eauto.
    rewrite Hn in Hq. by destruct Hq.
  - apply (tree_prefix _ _ HN) in Hq as (m & Hm & Hd).
    destruct (decide (k = ChangeDelete)) as [->|Hkd].
    + apply Hin, (deleted_shape s0 sN D N old new) in Hc as (d & y & m' & _ & _ & Hn & _); eauto.
      unfold new_at in Hn. congruence.
    + destruct Hk as [|(n & Hn & Hnd)]; [done|]. unfold new_at in Hn. congruence.
Qed.

Lemma written_snoc done q k' q' : written (done ++ [mkChange q k']) q' ↔
  written done q' ∨ q' = q ∧ k' ≠ ChangeDelete.
Proof.
  unfold written. split.
  - intros (k2 & Hk & [Hc|Hc]%elem_of_app); [left; eauto|]. right.
    apply list_elem_of_singleton in Hc. injection Hc as -> ->. done.
  - intros [(k2 & Hk & Hc)|[-> Hk]]; [exists k2|exists k']; set_solver.
Qed.

Lemma gone_snoc done q k' q' : gone (done ++ [mkChange q k']) q' ↔
  gone done q' ∨ q `prefix_of` q' ∧ (k' = ChangeDelete ∨ ∃ n, newq q = Some n ∧ is_dir n = false).
Proof.
  unfold gone. split.
  - intros (c & [Hc|Hc]%elem_of_app & Hp & Hk); [left; eauto|]. right.
    apply list_elem_of_singleton in Hc. by subst c.
  - intros [(c & Hc & Hp & Hk)|[Hp Hk]].
    + exists c. set_solver.
    + exists (mkChange q k'). split_and!; [set_solver|done|done].
Qed.

Lemma prefix_base t t' : D ++ t `prefix_of` D ++ t' ↔ t `prefix_of` t'.
Proof. split; [apply prefix_app_inv|apply prefix_app]. Qed.

Section state_of.
Context (done : list Change) (seen : gmap nat string) (u : unpack).
Hypothesis (HI : Inv done seen u) (Hin : ∀ c, c ∈ done → c ∈ cs).

(** Where no change is left to be done the destination looks like the new directory. *)
Lemma state_like_new d n :
  d ≠ [] → newq d = Some n → (∀ k', mkChange d k' ∈ cs → mkChange d k' ∈ done) →
  ∃ m, node_at (u_fs u) (D ++ d) = Some m ∧ ifmt (i_kind m) = ifmt (i_kind n).
Proof.
  intros Hd Hn Hdone.
  assert (Hw : (∃ k', k' ≠ ChangeDelete ∧ mkChange d k' ∈ cs) → written done d).
  { intros (k' & Hk' & Hc). exists k'. auto. }
  destruct (oldq d) as [o|] eqn:Ho.
  2: { destruct (iv_written _ _ _ HI d) as (n' & m & Hn' & Hm & Hcp).
    { apply Hw, (written_complete s0 sN D N old new) with n; eauto. intros o. congruence. }
    exists m. split; [done|]. rewrite (cp_kind _ _ Hcp). congruence. }
  destruct (decide (statDifferent (stat_of o) (stat_of n) = false ∧ cap_bytes o = cap_bytes n)) as [Hs|Hs].
  2: { destruct (iv_written _ _ _ HI d) as (n' & m & Hn' & Hm & Hcp).
    { apply Hw, (written_complete s0 sN D N old new) with n; eauto. intros o' Ho' Hs'. apply Hs.
      rewrite Ho in Ho'. injection Ho' as <-. done. }
    exists m. split; [done|]. rewrite (cp_kind _ _ Hcp). congruence. }
  assert (Hfmt : ifmt (i_kind o) = ifmt (i_kind n)).
  { apply same_mode_ifmt; [by eapply trip_perm0|by eapply trip_perm|by destruct Hs]. }
  assert (Hdec : written done d ∨ ¬ written done d).
  { destruct (decide (Exists (λ c, ch_Path c = d ∧ ch_Kind c ≠ ChangeDelete) done)) as [He|He].
    - left. apply Exists_exists in He as ([p k'] & Hc & <- & Hk'). by exists k'.
    - right. intros (k' & Hk' & Hc). apply He, Exists_exists. by exists (mkChange d k'). }
  destruct Hdec as [Hwd|Hwd].
  - destruct (iv_written _ _ _ HI d Hwd) as (n' & m & Hn' & Hm & Hcp).
    exists m. split; [done|]. rewrite (cp_kind _ _ Hcp). congruence.
  - destruct (iv_old _ _ _ HI d Hd Hwd) as [_ Hm].
    { apply not_gone; [done|by eexists|done]. }
    exists o. by rewrite Hm.
Qed.

Lemma base_dirs : dirs_above (u_fs u) D ∧ dir_at (u_fs u) D.
Proof.
  assert (Hkeep : ∀ p, (∀ t, t ≠ [] → p ≠ D ++ t) → dir_at s0 p → dir_at (u_fs u) p).
  { intros p Hp (m & Hm & Hd). exists m. split; [|done].
    by destruct (iv_out _ _ _ HI p Hp) as [_ ->]. }
  assert (Hself : ∀ t, t ≠ [] → D ≠ D ++ t).
  { intros t Ht E. rewrite <- (app_nil_r D) in E at 1. by apply app_inv_head in E. }
  split; [|apply Hkeep; [done|apply (tr_root _ _ H0)]].
  pose proof (tr_above _ _ H0) as [Hr Hd]. split.
  - apply Hkeep; [|done]. intros t Ht E. symmetry in E. apply app_nil in E as [_ E]. done.
  - intros t c r Heq. apply Hkeep; [|by eapply Hd]. intros v Hv ->. rewrite <- app_assoc in Heq.
    apply (Hself (v ++ c :: r)); [by destruct v|done].
Qed.

Lemma new_dirs q1 :
  is_Some (newq q1) →
  (∀ t c r k', q1 = t ++ c :: r → mkChange t k' ∈ cs → mkChange t k' ∈ done) →
  dirs_above (u_fs u) (D ++ q1).
Proof.
  intros Hq1 Hdone. destruct base_dirs as [Ha Hd]. apply above_app; [done|done|].
  intros t c r Heq Ht. rewrite Heq in Hq1. apply (tree_prefix _ _ HN) in Hq1 as (nt & Hnt & Hdt).
  destruct (state_like_new t nt) as (m & Hm & Hfm); [done|done|by intros k'; apply (Hdone t c r)|].
  exists m. split; [done|]. apply ifmt_dir in Hfm as [E _]. congruence.
Qed.

End state_of.

Section one_step.
Context (done : list Change) (seen : gmap nat string) (u : unpack) (q : list string) (k : ChangeType).
Hypothesis (HI : Inv done seen u) (Hnx : next_change cs done (mkChange q k)).

Lemma done_in c : c ∈ done → c ∈ cs.
Proof. apply (nx_done _ _ _ Hnx). Qed.

Lemma not_written_below r : ¬ written done (q ++ r).
Proof. intros (k' & _ & Hc). apply (nx_below _ _ _ Hnx) in Hc. destruct Hc. by exists r. Qed.

Lemma above_done d x r k' : q = d ++ x :: r → mkChange d k' ∈ cs → mkChange d k' ∈ done.
Proof.
  intros Hq Hc. apply (nx_above _ _ _ Hnx); simpl; [done|by exists (x :: r)|].
  rewrite Hq. intros E. apply (f_equal length) in E. rewrite length_app in E. simpl in E. lia.
Qed.

Lemma state_dirs d :
  (∃ x r, q = d ++ x :: r) → is_Some (newq d) →
  dirs_above (u_fs u) (D ++ d) ∧
  ∃ m, node_at (u_fs u) (D ++ d) = Some m ∧
    (d ≠ [] → ∀ n, newq d = Some n → ifmt (i_kind m) = ifmt (i_kind n)).
Proof.
  intros (x & r & Hq) [n Hn]. destruct (base_dirs done seen u HI) as [Ha Hd].
  assert (Hnode : ∃ m, node_at (u_fs u) (D ++ d) = Some m ∧
    (d ≠ [] → ∀ n, newq d = Some n → ifmt (i_kind m) = ifmt (i_kind n))).
  { destruct (decide (d = [])) as [->|Hne].
    - destruct Hd as (m & Hm & _). exists m. by rewrite app_nil_r.
    - destruct (state_like_new done seen u HI done_in d n Hne Hn) as (m & Hm & Hk); [by intros k' Hc; apply (above_done d x r)|].
      exists m. split; [done|]. intros _ n' Hn'. congruence. }
  split; [|done]. apply above_app; [done|done|]. intros t c r' -> Ht.
  assert (Hdir : dir_at sN (N ++ t)) by (apply (tree_prefix _ _ HN t c r'); by eexists).
  destruct Hdir as (nt & Hnt & Hdt).
  destruct (state_like_new done seen u HI done_in t nt) as (m & Hm & Hk); [done|done| |].
  { intros k' Hc. apply (above_done t c (r' ++ x :: r)); [|done]. by rewrite Hq, <- app_assoc. }
  exists m. split; [done|]. destruct (ifmt_dir m nt Hk) as [E _]. congruence.
Qed.

Lemma trip_delete s' u' :
  k = ChangeDelete → q ≠ [] → u_fs u' = s' → u_dirs u' = u_dirs u → u_aufsTempdir u' = u_aufsTempdir u →
  fs_wf s' → fs_xattr s' = true → fs_cwd s' = D → fs_next s' = fs_next (u_fs u) →
  (∀ p, ¬ D ++ q `prefix_of` p →
     fs_names s' !! p = fs_names (u_fs u) !! p ∧ node_at s' p = node_at (u_fs u) p) →
  (∀ p, D ++ q `prefix_of` p → fs_names s' !! p = None) →
  Inv (done ++ [mkChange q k]) seen u'.
Proof.
  intros -> Hq Eu Ed Et Hwf Hx Hc Hn Hout Hbelow.
  assert (Hw : ∀ q', written (done ++ [mkChange q ChangeDelete]) q' → written done q').
  { intros q' [Hw|[_ Hw]]%written_snoc; [done|by destruct Hw]. }
  assert (Hside : ∀ q', written done q' → ¬ D ++ q `prefix_of` D ++ q').
  { intros q' (k' & _ & Hc') Hp. rewrite prefix_base in Hp. exact (nx_below _ _ _ Hnx _ Hc' Hp). }
  assert (Hname : ∀ p i, fs_names s' !! p = Some i → fs_names (u_fs u) !! p = Some i).
  { intros p i Hp. destruct (decide (D ++ q `prefix_of` p)) as [Hb|Hb].
    - rewrite (Hbelow p Hb) in Hp. done.
    - by destruct (Hout p Hb) as [<- _]. }
  split; rewrite ?Eu; try done.
  - rewrite Hn. apply (iv_next _ _ _ HI).
  - intros p Hp. destruct (Hout p) as [-> ->]; [|by apply (iv_out _ _ _ HI)].
    intros [t Ht]. rewrite <- app_assoc in Ht. apply (Hp (q ++ t)); [by destruct q|done].
  - intros q' Hq'%Hw. destruct (Hout _ (Hside q' Hq')) as [_ ->]. by apply (iv_written _ _ _ HI).
  - intros q' Hne Hw' [Hg|[Hp _]]%gone_snoc; [|by apply Hbelow; rewrite prefix_base].
    destruct (fs_names s' !! (D ++ q')) as [i|] eqn:E; [|done]. apply Hname in E.
    rewrite (iv_gone _ _ _ HI q') in E; [done|done| |done]. intros H. apply Hw', written_snoc. by left.
  - intros q' Hne Hw' Hg'. destruct (Hout (D ++ q')) as [-> ->].
    { intros Hp. rewrite prefix_base in Hp. apply Hg', gone_snoc. right. split; [done|by left]. }
    apply (iv_old _ _ _ HI); [done| |].
    + intros H. apply Hw', written_snoc. by left.
    + intros H. apply Hg', gone_snoc. by left.
  - intros q1 q2 i H1%Hname H2%Hname. by apply (iv_share _ _ _ HI).
  - intros j nm Hj. destruct (iv_seen _ _ _ HI j nm Hj) as (q' & i & Hnm & Hwr & Hino & Hi & Hge).
    exists q', i. split_and!; try done; [apply written_snoc; by left|].
    by destruct (Hout _ (Hside q' Hwr)) as [-> _].
  - rewrite Ed. intros hdr Hh. destruct (iv_dirs _ _ _ HI hdr Hh) as (q' & n & Hnm & Hwr & Hr).
    exists q', n. split_and!; try done; [|by destruct Hr..]. apply written_snoc. by left.
  - rewrite Et. apply (iv_temp _ _ _ HI).
Qed.

#[local] Abbreviation um := (to_UIDMaps opts).
#[local] Abbreviation gm := (to_GIDMaps opts).

(** What one change does, in the archive and in the destination. *)
Definition step_ok : Prop :=
  ∃ e seen' u', (∀ w, export_change sN now (P N) (mkAppender w seen um gm false) (mkChange q k) =
                   mkAppender (w ++ [e]) seen' um gm false) ∧
    unpack_entry tempdir (P D) opts u root (tar_stream e) = (u', Ok tt) ∧
    Inv (done ++ [mkChange q k]) seen' u'.

Lemma step_delete : k = ChangeDelete → step_ok.
Proof.
  intros Hk. pose proof (nx_in _ _ _ Hnx) as Hc. rewrite Hk in Hc.
  apply (deleted_shape s0 sN D N old new) in Hc as (d & x & m & Hq & Ho & Hn & Hm & Hl); eauto.
  assert (Hplain : Forall plain (d ++ [x])) by (rewrite <- Hq; by apply (tr_plain _ _ H0)).
  pose proof (plain_normal _ Hplain) as Hnorm. pose proof (tr_base _ _ H0) as HDn.
  set (e := (whiteout_header now (P q), "") : Header * string).
  destruct (state_dirs d) as [Habove (m' & Hm' & Hfmt)]; [by exists x, []|by eexists|].
  assert (Hent : unpack_entry tempdir (P D) opts u root (tar_stream e) =
    on_errno (add_size u (h_Size (tar_stream e).1)) (os_RemoveAll (u_fs u) (P (D ++ q)))).
  { rewrite Hq. apply unpack_entry_whiteout; try done.
    unfold e. rewrite Hq. by rewrite whiteout_entry. }
  assert (Hexp : ∀ w, export_change sN now (P N) (mkAppender w seen um gm false) (mkChange q k) =
    mkAppender (w ++ [e]) seen um gm false) by (intros w; by rewrite Hk).
  assert (Hqne : q ≠ []) by (rewrite Hq; by destruct d).
  assert (HDq : Forall normal (D ++ d ++ [x])) by by apply Forall_app.
  destruct (is_dir m') eqn:Hd.
  - assert (Habove' : dirs_above (u_fs u) (D ++ q)).
    { destruct Habove as [Hr Hab]. split; [done|]. intros t c r Heq. rewrite Hq, app_assoc in Heq.
      destruct (decide (r = [])) as [->|Hrne].
      - apply app_inj_tail in Heq as [<- _]. by exists m'.
      - destruct (rev_cons_ne r Hrne) as (y & r' & _ & ->).
        replace (t ++ c :: rev r' ++ [y]) with ((t ++ c :: rev r') ++ [y]) in Heq by by rewrite <- app_assoc.
        apply app_inj_tail in Heq as [Heq _]. by apply (Hab t c (rev r')). }
    rewrite <- Hq in HDq. exists e, seen.
    assert (Hrm : os_RemoveAll (u_fs u) (P (D ++ q)) = (remove_below (u_fs u) (D ++ q), Ok tt)).
    { unfold os_RemoveAll. rewrite resolve_literal by done. destruct (D ++ q) as [|y l] eqn:E; [|done].
      apply app_nil in E as [_ E]. done. }
    rewrite Hrm in Hent. eexists. split; [done|]. split; [exact Hent|].
    apply trip_delete with (remove_below (u_fs u) (D ++ q)); try done.
    + apply remove_wf, (iv_wf _ _ _ HI).
    + apply (iv_xattr _ _ _ HI).
    + apply (iv_cwd _ _ _ HI).
    + intros p Hp. split; [|by rewrite node_at_remove, decide_False].
      destruct (fs_names (u_fs u) !! p) as [i|] eqn:E; [by apply names_remove|].
      destruct (fs_names (remove_below (u_fs u) (D ++ q)) !! p) as [i|] eqn:E'; [|done].
      apply names_remove in E' as [E' _]. congruence.
    + intros p Hp. destruct (fs_names (remove_below (u_fs u) (D ++ q)) !! p) as [i|] eqn:E'; [|done].
      by apply names_remove in E' as [_ E'].
  - assert (Hdne : d ≠ []).
    { intros ->. rewrite app_nil_r in Hm'. destruct (base_dirs done seen u HI) as [_ (mD & HmD & HdD)]. congruence. }
    destruct Hl as [|Hl]; [done|]. pose proof (Hfmt Hdne m Hm) as Hfm.
    apply ifmt_dir in Hfm as [Ed Es].
    assert (Hrm : os_RemoveAll (u_fs u) (P (D ++ q)) = (u_fs u, Ok tt)).
    { unfold os_RemoveAll. rewrite Hq, app_assoc in *.
      rewrite (resolve_under_file _ _ _ _ m'); try done; congruence. }
    rewrite Hrm in Hent. exists e, seen. eexists. split; [done|]. split; [exact Hent|].
    assert (Hwd : written done d).
    { destruct (decide (Exists (λ c, ch_Path c = d ∧ ch_Kind c ≠ ChangeDelete) done)) as [He|He].
      - apply Exists_exists in He as ([p k'] & Hc & <- & Hk'). by exists k'.
      - exfalso. assert (Hnw : ¬ written done d).
        { intros (k' & Hk' & Hc). apply He, Exists_exists. by exists (mkChange d k'). }
        destruct (iv_old _ _ _ HI d Hdne Hnw) as [_ Hod].
        { apply not_gone; [apply done_in|by eexists|done]. }
        rewrite Hq in Ho. apply (tr_parent _ _ H0) in Ho as (od & Hod' & Hdd).
        unfold old_node in Hod. congruence. }
    apply trip_delete with (u_fs u); try done.
    + apply (iv_wf _ _ _ HI).
    + apply (iv_xattr _ _ _ HI).
    + apply (iv_cwd _ _ _ HI).
    + intros p [t ->]. rewrite <- app_assoc. apply (iv_gone _ _ _ HI).
      * by destruct q.
      * apply not_written_below.
      * destruct Hwd as (k' & Hk' & Hc). exists (mkChange d k'). split; [done|]. simpl. split.
        { rewrite Hq, <- app_assoc. by exists ([x] ++ t). }
        right. exists m. split; [done|congruence].
Qed.

(** Where the inode of a written file comes from. *)
Definition file_origin (n : inode) (i : nat) : Prop :=
  merged (u_fs u) (D ++ q) n = true ∧ fs_names (u_fs u) !! (D ++ q) = Some i ∨
  i = fs_next (u_fs u) ∨
  ∃ q0, fs_names (u_fs u) !! (D ++ q0) = Some i ∧ new_ino q0 = new_ino q ∧ (fs_next s0 ≤ i)%nat.

Definition seen_after (n : inode) (i : nat) (seen' : gmap nat string) : Prop :=
  seen' = seen ∨
  ∃ j, new_ino q = Some j ∧ seen' = <[j := Join q "/"]> seen ∧ is_dir n = false ∧ (fs_next s0 ≤ i)%nat.

Section file.
Context (n : inode).
Hypothesis (Hk : k ≠ ChangeDelete) (Hn : newq q = Some n).

Lemma file_q : q ≠ [].
Proof. eapply (written_exists s0 sN D N old new); eauto. apply (nx_in _ _ _ Hnx). Qed.
Lemma file_plain : Forall plain q.
Proof. apply (tr_plain _ _ HN). by exists n. Qed.
Lemma file_normal : Forall normal (D ++ q).
Proof. apply Forall_app. split; [apply (tr_base _ _ H0)|apply plain_normal, file_plain]. Qed.
Lemma file_dirs : dirs_above (u_fs u) (D ++ q).
Proof. apply (new_dirs done seen u HI done_in); [by eexists|]. intros t c r k' Heq. by apply (above_done t c r). Qed.

Lemma file_not_written r : ¬ written done (q ++ r).
Proof. apply not_written_below. Qed.

Lemma file_old r :
  ¬ gone done (q ++ r) → node_at (u_fs u) (D ++ q ++ r) = oldq (q ++ r).
Proof.
  intros Hg. apply (iv_old _ _ _ HI); [|apply file_not_written|done].
  pose proof file_q. by destruct q.
Qed.

Lemma file_tree r c :
  is_Some (node_at (u_fs u) ((D ++ q) ++ r ++ [c])) → dir_at (u_fs u) ((D ++ q) ++ r).
Proof.
  rewrite <- !app_assoc. intros Hs.
  assert (Hg : ¬ gone done (q ++ r ++ [c])).
  { intros Hg. apply (iv_gone _ _ _ HI) in Hg; [|pose proof file_q; by destruct q|apply file_not_written].
    unfold node_at in Hs. rewrite Hg in Hs. by destruct Hs. }
  assert (Hg' : ¬ gone done (q ++ r)).
  { intros Hg'. apply Hg. eapply gone_mono; [done|]. apply prefix_app. by exists [c]. }
  rewrite file_old in Hs by done. unfold old_node in Hs.
  replace (D ++ q ++ r ++ [c]) with (D ++ (q ++ r) ++ [c]) in Hs by by rewrite <- app_assoc.
  apply (tr_parent _ _ H0) in Hs as (m & Hm & Hd). exists m. split; [|done].
  by rewrite file_old.
Qed.

Lemma file_plain_dir m :
  node_at (u_fs u) (D ++ q) = Some m → is_dir m = true → i_rdev m = 0 ∧ i_xattrs m !! cap_key = None.
Proof.
  intros Hm Hd. pose proof (file_not_written []) as Hw. rewrite app_nil_r in Hw.
  destruct (iv_old _ _ _ HI q file_q Hw) as [_ E].
  { apply not_gone; [apply done_in|by eexists|done]. }
  rewrite E in Hm. by apply Hdest in Hm as [_ Hm]; auto.
Qed.

Lemma file_name : Clean (canonicalTarName (Join q "/") (is_dir n)) = Join q "/".
Proof.
  pose proof file_q. pose proof (plain_normal _ file_plain). unfold canonicalTarName.
  rewrite HasSuffix_rel, andb_true_r by done. destruct (is_dir n); [by apply Clean_rel_slash|by apply Clean_rel].
Qed.

(** The entry with its own data. *)
Lemma effect_plain uid gid :
  ToContainer (i_uid n) um = Ok uid → ToContainer (i_gid n) gm = Ok gid →
  (if decide (uid ≠ root.1) then ToHost uid um = Ok (i_uid n) else uid = i_uid n) →
  (if decide (gid ≠ root.2) then ToHost gid gm = Ok (i_gid n) else gid = i_gid n) →
  ∃ i u', unpack_entry tempdir (P D) opts u root (tar_stream (export_header q n uid gid, data_of n)) =
            (u', Ok tt) ∧
    file_post (u_fs u) (D ++ q) n i (u_fs u') ∧
    (merged (u_fs u) (D ++ q) n = true ∧ fs_names (u_fs u) !! (D ++ q) = Some i ∨ i = fs_next (u_fs u)) ∧
    u_dirs u' = (if is_dir n then u_dirs u ++ [import_header q n uid gid] else u_dirs u) ∧
    u_aufsTempdir u' = u_aufsTempdir u.
Proof.
  intros Hu Hg Hu' Hg'. pose proof file_q as Hq. pose proof file_normal as HDq.
  destruct (place_file (u_fs u) D q n) as (i & s2 & Hcr & Hpost & Horg); try done.
  { apply (iv_wf _ _ _ HI). } { apply (iv_xattr _ _ _ HI). } { apply file_dirs. } { apply file_tree. }
  { by eapply Hex. } { apply file_plain_dir. } { intros t Ht. by apply (Hlinks q n t). }
  destruct (rev_cons_ne q Hq) as (x & d & _ & Hqd).
  assert (Hent : unpack_entry tempdir (P D) opts u root
      (tar_stream (export_header q n uid gid, data_of n)) =
    unpack_file (P D) opts (add_size u (h_Size (export_header q n uid gid))) root
      (import_header q n uid gid) (data_of n) (P (D ++ q))).
  { destruct (state_dirs (rev d)) as [Hab (m & Hm & _)].
    - by exists x, [].
    - assert (dir_at sN (N ++ rev d)) as (m & Hm & _).
      { apply (tr_parent _ _ HN _ x). rewrite <- Hqd. by exists n. }
      by exists m.
    - pose proof file_plain as Hpl. pose proof file_name as Hnm.
      unfold import_header. rewrite Hqd in Hpl, Hnm |- *.
      apply (unpack_entry_file tempdir D opts root u (rev d) x); try done; apply (tr_base _ _ H0). }
  assert (Hfile := unpack_file_ok D opts (add_size u (h_Size (export_header q n uid gid))) root
    (import_header q n uid gid) (data_of n) (D ++ q) n s2 (i_uid n) (i_gid n)).
  eexists i, _. split; [rewrite Hent; apply Hfile|].
  - done.
  - by destruct D.
  - apply file_dirs.
  - change (h_Typeflag (import_header q n uid gid)) with (flag_of n). unfold flag_of, is_dir.
    by destruct (i_kind n).
  - change (h_Typeflag (import_header q n uid gid)) with (flag_of n). unfold flag_of.
    by destruct (i_kind n).
  - done.
  - done.
  - exact Hcr.
  - change (h_Typeflag (import_header q n uid gid)) with (flag_of n). unfold flag_of, is_dir.
    by destruct (i_kind n).
Qed.

(** The entry that is a further name of a file that was written before. *)
Lemma effect_link uid gid j oldpath :
  new_ino q = Some j → seen !! j = Some oldpath → is_dir n = false →
  (if decide (uid ≠ root.1) then ToHost uid um = Ok (i_uid n) else uid = i_uid n) →
  (if decide (gid ≠ root.2) then ToHost gid gm = Ok (i_gid n) else gid = i_gid n) →
  ∃ i u', unpack_entry tempdir (P D) opts u root
            (tar_stream (set_link (export_header q n uid gid) oldpath, "")) = (u', Ok tt) ∧
    file_post (u_fs u) (D ++ q) n i (u_fs u') ∧
    (∃ q0, fs_names (u_fs u) !! (D ++ q0) = Some i ∧ new_ino q0 = new_ino q ∧ (fs_next s0 ≤ i)%nat) ∧
    u_dirs u' = u_dirs u ∧ u_aufsTempdir u' = u_aufsTempdir u.
Proof.
  intros Hj Hseen Hnd Hu' Hg'. pose proof file_q as Hq. pose proof file_normal as HDq.
  destruct (iv_seen _ _ _ HI j oldpath Hseen) as (q0 & i & -> & Hw0 & Hino & Hi & Hge).
  destruct (iv_written _ _ _ HI q0 Hw0) as (n0 & m & Hn0 & Hm & Hcp).
  assert (n0 = n) as ->.
  { unfold new_at, node_at in Hn0, Hn. unfold new_ino in Hino, Hj. rewrite Hino in Hn0. rewrite Hj in Hn.
    simpl in *. congruence. }
  assert (Hp0 : Forall plain q0) by (apply (tr_plain _ _ HN); by exists n).
  pose proof (plain_normal _ Hp0) as Hno0.
  assert (Hq0 : q0 ≠ []).
  { destruct Hw0 as (k' & Hk' & Hc'). eapply (written_exists s0 sN D N old new); eauto. by apply done_in. }
  assert (Hother : ¬ D ++ q `prefix_of` D ++ q0).
  { rewrite prefix_base. destruct Hw0 as (k' & _ & Hc'). apply (nx_below _ _ _ Hnx _ Hc'). }
  assert (Hd0 : dirs_above (u_fs u) (D ++ q0)).
  { apply (new_dirs done seen u HI done_in); [by eexists|]. intros t c r k' Heq Hc'. destruct Hw0 as (k0 & _ & Hc0).
    apply (nx_closed _ _ _ Hnx (mkChange q0 k0)); [done|done|]. simpl. rewrite Heq. by exists (c :: r). }
  set (hdr := set_Name (tar_stream (set_link (export_header q n uid gid) (Join q0 "/"), "")).1 (Join q "/")).
  destruct (place_link (u_fs u) D q n (iv_wf _ _ _ HI) (iv_xattr _ _ _ HI) Hq HDq file_dirs file_tree
    (Hex _ _ Hn) file_plain_dir q0 i m Hno0 Hq0 Hother Hi Hm Hcp Hnd Hd0 (iv_cwd _ _ _ HI)
    (set_ids hdr (i_uid n) (i_gid n))) as (s2 & Hcr & Hpost); try done.
  destruct (rev_cons_ne q Hq) as (x & d & _ & Hqd).
  assert (Hent : unpack_entry tempdir (P D) opts u root
      (tar_stream (set_link (export_header q n uid gid) (Join q0 "/"), "")) =
    unpack_file (P D) opts (add_size u 0) root hdr "" (P (D ++ q))).
  { destruct (state_dirs (rev d)) as [Hab (m1 & Hm1 & _)].
    - by exists x, [].
    - assert (dir_at sN (N ++ rev d)) as (m1 & Hm1 & _).
      { apply (tr_parent _ _ HN _ x). rewrite <- Hqd. by exists n. }
      by exists m1.
    - pose proof file_plain as Hpl. pose proof file_name as Hnm.
      unfold hdr. rewrite Hqd in Hpl, Hnm |- *.
      apply (unpack_entry_file tempdir D opts root u (rev d) x); try done; apply (tr_base _ _ H0). }
  exists i. eexists. split.
  { rewrite Hent. apply (unpack_file_ok D opts _ root hdr "" (D ++ q) n s2 (i_uid n) (i_gid n)); try done.
    - by destruct D.
    - apply file_dirs.
    - unfold hdr. cbn [set_Name tar_stream fst h_Linkname set_link].
      intros _. rewrite Clean_rel by done. destruct q0 as [|w ws]; [done|].
      apply Forall_cons in Hp0 as [Hw _]. by apply (plain_meta w ws (WhiteoutPrefix +:+ "plnk")). }
  split; [done|]. split; [exists q0; split_and!; try done; congruence|]. done.
Qed.

Lemma file_side q' : written done q' → ¬ D ++ q `prefix_of` D ++ q'.
Proof. rewrite prefix_base. intros (k' & _ & Hc'). apply (nx_below _ _ _ Hnx _ Hc'). Qed.

(** An inode that is not older than the run belongs to files that were written. *)
Lemma old_name_small p i :
  (∀ t, t ≠ [] → p = D ++ t → ¬ written done t) → fs_names (u_fs u) !! p = Some i → (i < fs_next s0)%nat.
Proof.
  intros Hp Hi. pose proof (tr_wf _ _ H0) as Hwf0.
  destruct (decide (D `prefix_of` p)) as [[t ->]|Hout].
  - destruct (decide (t = [])) as [->|Ht].
    + rewrite app_nil_r in *. destruct (iv_out _ _ _ HI D) as [E _].
      { intros t Ht E. rewrite <- (app_nil_r D) in E at 1. by apply app_inv_head in E. }
      rewrite E in Hi. by apply (wf_inode _ Hwf0) in Hi as [_ Hi].
    + pose proof (Hp t Ht eq_refl) as Hw.
      assert (Hg : ¬ gone done t).
      { intros Hg. pose proof (iv_gone _ _ _ HI t Ht Hw Hg). congruence. }
      destruct (iv_old _ _ _ HI t Ht Hw Hg) as [E _]. rewrite E in Hi. by apply (wf_inode _ Hwf0) in Hi as [_ Hi].
  - destruct (iv_out _ _ _ HI p) as [E _].
    { intros t Ht ->. apply Hout. by exists t. }
    rewrite E in Hi. by apply (wf_inode _ Hwf0) in Hi as [_ Hi].
Qed.

Section new_state.
Context (i : nat) (u' : unpack) (seen' : gmap nat string).
Hypothesis (Hpost : file_post (u_fs u) (D ++ q) n i (u_fs u')) (Horg : file_origin n i).
Hypothesis (Hseen : seen_after n i seen').
Hypothesis (Hdirs : u_dirs u' = u_dirs u ∨
  ∃ hdr, u_dirs u' = u_dirs u ++ [hdr] ∧ h_Name hdr = Join q "/" ∧ is_dir n = true).
Hypothesis (Htemp : u_aufsTempdir u' = u_aufsTempdir u).

(** Elsewhere an inode is the same, or it is one of the names of the new file. *)
Lemma elsewhere p :
  ¬ D ++ q `prefix_of` p → node_at (u_fs u') p = node_at (u_fs u) p ∨
  (∃ t, t ≠ [] ∧ p = D ++ t ∧ written done t ∧ new_ino t = new_ino q ∧
     ∃ m, node_at (u_fs u') p = Some m ∧ copy_of n m).
Proof.
  intros Hp. destruct (fp_nodes _ _ _ _ _ Hpost p Hp) as [|[Hi Hm]]; [by left|].
  destruct Horg as [[Hmg Hiq]|[->|(q0 & Hi0 & Hino & Hge)]].
  - exfalso. apply Hp. destruct (cleared_merged _ _ _ Hmg) as (_ & m & Hmq & Hd & _).
    rewrite (node_at_Some _ _ _ Hiq) in Hmq.
    by rewrite (wf_dir _ (iv_wf _ _ _ HI) (D ++ q) p i m Hiq Hi Hmq Hd).
  - apply (wf_inode _ (iv_wf _ _ _ HI)) in Hi as [_ Hi]. lia.
  - right. destruct (decide (Exists (λ c, D ++ ch_Path c = p ∧ ch_Kind c ≠ ChangeDelete) done)) as [He|He].
    + apply Exists_exists in He as ([t k'] & Hc' & Heq & Hk'). simpl in *. subst p.
      assert (Hwt : written done t) by by exists k'.
      exists t. split_and!; try done.
      * by destruct (written_in done t k' done_in Hk' Hc').
      * rewrite <- Hino. by apply (iv_share _ _ _ HI t q0 i).
    + exfalso. assert (i < fs_next s0)%nat; [|lia]. apply (old_name_small p); [|done].
      intros t _ -> (k' & Hk' & Hc'). apply He, Exists_exists. by exists (mkChange t k').
Qed.

(** Names that share an inode of this run share one in the new directory. *)
Lemma share_with t i' :
  t ≠ q → fs_names (u_fs u') !! (D ++ t) = Some i' → fs_names (u_fs u) !! (D ++ t) = Some i'.
Proof.
  intros Ht Hi'. destruct (decide (q `prefix_of` t)) as [[r ->]|Hnp].
  - assert (Hr : r ≠ []) by (intros ->; by rewrite app_nil_r in Ht).
    rewrite app_assoc, (fp_below _ _ _ _ _ Hpost r Hr) in Hi'.
    destruct (merged (u_fs u) (D ++ q) n); [|done]. by rewrite app_assoc.
  - by rewrite (fp_names _ _ _ _ _ Hpost) in Hi' by by rewrite prefix_base.
Qed.

Lemma share_own t :
  t ≠ q → fs_names (u_fs u') !! (D ++ t) = Some i → (fs_next s0 ≤ i)%nat → new_ino t = new_ino q.
Proof.
  intros Ht Hi%share_with Hge; [|done]. destruct Horg as [[Hmg Hiq]|[->|(q0 & Hi0 & Hino & _)]].
  - destruct (cleared_merged _ _ _ Hmg) as (_ & m & Hmq & Hd & _).
    rewrite (node_at_Some _ _ _ Hiq) in Hmq.
    pose proof (wf_dir _ (iv_wf _ _ _ HI) (D ++ q) (D ++ t) i m Hiq Hi Hmq Hd) as E.
    apply app_inv_head in E. by destruct Ht.
  - apply (wf_inode _ (iv_wf _ _ _ HI)) in Hi as [_ Hi]. lia.
  - rewrite <- Hino. by apply (iv_share _ _ _ HI t q0 i).
Qed.

Lemma share_after t t' i' :
  fs_names (u_fs u') !! (D ++ t) = Some i' → fs_names (u_fs u') !! (D ++ t') = Some i' →
  (fs_next s0 ≤ i')%nat → new_ino t = new_ino t'.
Proof.
  intros Ht Ht' Hge. pose proof (fp_name _ _ _ _ _ Hpost) as Hiq.
  destruct (decide (t = q)) as [->|Hne], (decide (t' = q)) as [->|Hne']; [done| | |].
  - assert (i' = i) as -> by congruence. symmetry. by apply share_own.
  - assert (i' = i) as -> by congruence. by apply share_own.
  - by apply (iv_share _ _ _ HI t t' i'); [apply share_with|apply share_with|].
Qed.

Lemma inv_file : Inv (done ++ [mkChange q k]) seen' u'.
Proof.
  pose proof file_q as Hq.
  assert (Hiwr : ∀ q', written done q' → written (done ++ [mkChange q k]) q') by (intros; apply written_snoc; by left).
  assert (Hname : ∀ p, ¬ D ++ q `prefix_of` p → fs_names (u_fs u') !! p = fs_names (u_fs u) !! p).
  { apply (fp_names _ _ _ _ _ Hpost). }
  assert (Hng : ¬ gone done q).
  { apply not_gone; [apply done_in|by eexists|]. rewrite <- (app_nil_r q). apply file_not_written. }
  split.
  - apply (fp_wf _ _ _ _ _ Hpost).
  - rewrite (fp_xattr _ _ _ _ _ Hpost). apply (iv_xattr _ _ _ HI).
  - rewrite (fp_cwd _ _ _ _ _ Hpost). apply (iv_cwd _ _ _ HI).
  - pose proof (fp_next _ _ _ _ _ Hpost). pose proof (iv_next _ _ _ HI). lia.
  - intros p Hp. assert (Hpq : ¬ D ++ q `prefix_of` p).
    { intros [t ->]. rewrite <- app_assoc in Hp. apply (Hp (q ++ t)); [by destruct q|done]. }
    rewrite (Hname p Hpq). destruct (iv_out _ _ _ HI p Hp) as [E1 E2]. split; [done|].
    destruct (elsewhere p Hpq) as [->|(t & Ht & -> & _)]; [done|]. by destruct (Hp t Ht).
  - intros q' [Hw|[-> _]]%written_snoc.
    + destruct (iv_written _ _ _ HI q' Hw) as (n' & m & Hn' & Hm & Hcp).
      destruct (elsewhere _ (file_side q' Hw)) as [E|(t & _ & Heq & _ & Hino & m' & Hm' & Hcp')].
      * exists n', m. by rewrite E.
      * apply app_inv_head in Heq as <-. exists n, m'. split_and!; try done.
        rewrite <- Hn. unfold new_at, node_at. unfold new_ino in Hino. by rewrite Hino.
    + destruct (fp_node _ _ _ _ _ Hpost) as (m & Hm & Hcp). by exists n, m.
  - intros q' Hq' Hw' Hg'. rewrite written_snoc in Hw'. apply gone_snoc in Hg'.
    destruct (decide (q `prefix_of` q')) as [[r ->]|Hnp].
    + assert (Hr : r ≠ []) by (intros ->; apply Hw'; right; by rewrite app_nil_r).
      rewrite app_assoc, (fp_below _ _ _ _ _ Hpost r Hr).
      destruct (merged (u_fs u) (D ++ q) n) eqn:Hmg; [|done].
      destruct (cleared_merged _ _ _ Hmg) as (_ & m & _ & _ & Hdn).
      destruct Hg' as [Hg'|[_ [Hkd|(n' & Hn' & Hd')]]]; [|done|congruence].
      rewrite <- app_assoc. apply (iv_gone _ _ _ HI); [done|apply file_not_written|done].
    + rewrite Hname by by rewrite prefix_base. destruct Hg' as [Hg'|[Hp _]]; [|done].
      apply (iv_gone _ _ _ HI); [done| |done]. intros Hw. apply Hw'. by left.
  - intros q' Hq' Hw' Hg'. rewrite written_snoc in Hw'. rewrite gone_snoc in Hg'.
    destruct (decide (q `prefix_of` q')) as [[r ->]|Hnp].
    + assert (Hr : r ≠ []) by (intros ->; apply Hw'; right; by rewrite app_nil_r).
      assert (Hdn : is_dir n = true).
      { destruct (is_dir n) eqn:E; [done|]. destruct Hg'. right. split; [by exists r|]. right. by exists n. }
      assert (Hgr : ¬ gone done (q ++ r)) by (intros Hg; apply Hg'; by left).
      destruct (iv_old _ _ _ HI (q ++ r) Hq' (file_not_written r) Hgr) as [E1 E2].
      rewrite !app_assoc in E1, E2 |- *. rewrite (fp_below _ _ _ _ _ Hpost r Hr).
      destruct (merged (u_fs u) (D ++ q) n) eqn:Hmg.
      * by rewrite (fp_below_nodes _ _ _ _ _ Hpost r Hr Hmg).
      * assert (Hnone : node_at (u_fs u) ((D ++ q) ++ r) = None).
        { apply (nothing_below (u_fs u) (D ++ q)); [apply file_tree| |done].
          intros m Hm. unfold merged in Hmg. rewrite Hm, Hdn, andb_true_r in Hmg. done. }
        rewrite <- E2, Hnone. rewrite (node_at_None _ _ (iv_wf _ _ _ HI) Hnone) in E1. split; [done|].
        unfold node_at. by rewrite (fp_below _ _ _ _ _ Hpost r Hr), Hmg.
    + rewrite Hname by by rewrite prefix_base.
      destruct (iv_old _ _ _ HI q') as [E1 E2]; [done|by intros Hw; apply Hw'; left|by intros Hg; apply Hg'; left|].
      split; [done|]. destruct (elsewhere (D ++ q')) as [->|(t & _ & Heq & Hw & _)]; [by rewrite prefix_base|done|].
      apply app_inv_head in Heq as <-. destruct Hw'. by left.
  - apply share_after.
  - intros j nm Hj.
    assert (Hkeep : seen !! j = Some nm → ∃ q0 i0, nm = Join q0 "/" ∧
      written (done ++ [mkChange q k]) q0 ∧ new_ino q0 = Some j ∧
      fs_names (u_fs u') !! (D ++ q0) = Some i0 ∧ (fs_next s0 ≤ i0)%nat).
    { intros Hs. destruct (iv_seen _ _ _ HI j nm Hs) as (q0 & i0 & Hnm & Hw & Hino & Hi & Hge).
      exists q0, i0. split_and!; auto. rewrite Hname by by apply file_side. done. }
    destruct Hseen as [->|(j' & Hj' & -> & Hnd & Hge)]; [by apply Hkeep|].
    apply lookup_insert_Some in Hj as [[<- <-]|[_ Hj]]; [|by apply Hkeep].
    exists q, i. split_and!; try done; [apply written_snoc; by right|]. apply (fp_name _ _ _ _ _ Hpost).
  - intros hdr Hh.
    assert (Hkeep : hdr ∈ u_dirs u → ∃ q0 n0, h_Name hdr = Join q0 "/" ∧
      written (done ++ [mkChange q k]) q0 ∧ newq q0 = Some n0 ∧ is_dir n0 = true).
    { intros Hin. destruct (iv_dirs _ _ _ HI hdr Hin) as (q0 & n0 & Hnm & Hw & Hn0 & Hd0).
      exists q0, n0. auto. }
    destruct Hdirs as [E|(h & E & Hnm & Hdn)]; rewrite E in Hh; [by apply Hkeep|].
    apply elem_of_app in Hh as [Hh|Hh]; [by apply Hkeep|]. apply list_elem_of_singleton in Hh as ->.
    exists q, n. split_and!; try done. apply written_snoc. by right.
  - rewrite Htemp. apply (iv_temp _ _ _ HI).
Qed.
End new_state.
End file.

Lemma step_file n : k ≠ ChangeDelete → newq q = Some n → step_ok.
Proof.
  intros Hk Hn. destruct (node_at_name _ _ _ Hn) as (j & Hj & _).
  destruct (Hids q n Hn) as [(uid & Hu & Hu') (gid & Hg & Hg')].
  assert (Hexp : ∀ w, export_change sN now (P N) (mkAppender w seen um gm false) (mkChange q k) =
    mkAppender (w ++ [export_entry sN q n j uid gid seen]) (export_seen sN q n j seen) um gm false).
  { intros w. apply export_change_file; try done.
    - by eapply file_plain.
    - by eapply file_q.
    - apply (tr_base _ _ HN).
    - apply (tree_above_node _ _ HN). by exists n.
    - apply (tr_xattr _ _ HN). }
  exists (export_entry sN q n j uid gid seen), (export_seen sN q n j seen).
  unfold export_entry, export_seen in *.
  destruct (several sN n j) eqn:Hsev, (seen !! j) as [oldpath|] eqn:Hs.
  - assert (Hnd : is_dir n = false) by (unfold several in Hsev; by destruct (is_dir n)).
    destruct (effect_link n Hk Hn uid gid j oldpath) as (i & u' & Hun & Hpost & Horg & Hd & Ht); try done.
    exists u'. split_and!; [done|done|]. eapply inv_file; try done.
    + right. by right.
    + by left.
    + by left.
  - assert (Hnd : is_dir n = false) by (unfold several in Hsev; by destruct (is_dir n)).
    destruct (effect_plain n Hk Hn uid gid Hu Hg Hu' Hg') as (i & u' & Hun & Hpost & Horg & Hd & Ht).
    exists u'. split_and!; [done|done|]. eapply inv_file; try done.
    + destruct Horg as [H|H]; [by left|by right; left].
    + right. exists j. split_and!; try done. destruct Horg as [[Hmg _]| ->]; [|apply (iv_next _ _ _ HI)].
      apply cleared_merged in Hmg as (_ & _ & _ & _ & Hd'). congruence.
    + left. by rewrite Hd, Hnd.
  - destruct (effect_plain n Hk Hn uid gid Hu Hg Hu' Hg') as (i & u' & Hun & Hpost & Horg & Hd & Ht).
    exists u'. split_and!; [done|done|]. eapply inv_file; try done.
    + destruct Horg as [H|H]; [by left|by right; left].
    + by left.
    + destruct (is_dir n); [right|by left]. by eexists.
  - destruct (effect_plain n Hk Hn uid gid Hu Hg Hu' Hg') as (i & u' & Hun & Hpost & Horg & Hd & Ht).
    exists u'. split_and!; [done|done|]. eapply inv_file; try done.
    + destruct Horg as [H|H]; [by left|by right; left].
    + by left.
    + destruct (is_dir n); [right|by left]. by eexists.
Qed.

Lemma step : step_ok.
Proof.
  destruct (decide (k = ChangeDelete)) as [Hk|Hk]; [by apply step_delete|].
  assert (is_Some (newq q)) as [n Hn]; [|by apply (step_file n)].
  eapply (written_exists s0 sN D N old new); eauto. apply (nx_in _ _ _ Hnx).
Qed.
End one_step.

(** ** All the entries *)

Definition sorted_changes : list Change := merge_sort path_le cs.

Lemma change_normal c : c ∈ cs → Forall normal (ch_Path c).
Proof.
  destruct c as [q k]. intros Hc. apply plain_normal. simpl.
  destruct (decide (k = ChangeDelete)) as [->|Hk].
  - apply (deleted_shape s0 sN D N old new) in Hc as (d & x & m & _ & Ho & _); eauto.
    by apply (tr_plain _ _ H0).
  - apply (tr_plain _ _ HN). eapply (written_exists s0 sN D N old new); eauto.
Qed.

Lemma changes_nodup : NoDup (ch_Path <$> cs).
Proof.
  assert (Hs : StronglySorted may_follow cs).
  { unfold changes, Changes. fold (diff [] false new (Some old)). apply diff_sorted; [done|].
    by intros o [= <-]. }
  induction Hs as [|c l Hs IH Hall]; [constructor|]. simpl. constructor; [|done].
  intros (c' & E & Hc')%list_elem_of_fmap. rewrite Forall_forall in Hall. apply (Hall c' Hc').
  by rewrite E.
Qed.

Lemma sorted_next_change done c rest : sorted_changes = done ++ c :: rest → next_change cs done c.
Proof.
  intros Heq. assert (Hp : sorted_changes ≡ₚ cs) by apply merge_sort_Permutation.
  apply (sorted_next cs sorted_changes done c rest); [done| | |apply change_normal|done].
  - apply StronglySorted_merge_sort; apply _.
  - rewrite Hp. apply changes_nodup.
Qed.

Lemma run_entries rest done seen u :
  sorted_changes = done ++ rest → Inv done seen u →
  ∃ es seen' u', exports sN now (P N) (to_UIDMaps opts) (to_GIDMaps opts) seen rest es ∧
    unpack_entries tempdir (P D) opts u root (tar_stream <$> es) None = (u', Ok tt) ∧
    Inv sorted_changes seen' u'.
Proof.
  revert done seen u. induction rest as [|[q k] rest IH]; intros done seen u Heq HI.
  { exists [], seen, u. split_and!; [constructor|done|]. by rewrite Heq, app_nil_r. }
  destruct (step done seen u q k HI (sorted_next_change _ _ _ Heq)) as (e & seen1 & u1 & Hexp & Hun & HI1).
  destruct (IH (done ++ [mkChange q k]) seen1 u1) as (es & seen' & u' & Hes & Hun' & HI'); [|done|].
  { by rewrite Heq, <- app_assoc. }
  exists (e :: es), seen', u'. split_and!; [by econstructor| |done].
  cbn [fmap list_fmap unpack_entries]. rewrite Hun. cbn [and_then]. done.
Qed.

Lemma inv_start : Inv [] ∅ (mkUnpack s0 0 [] ∅ "" ∅).
Proof.
  assert (Hw : ∀ q, ¬ written [] q) by (intros q (k & _ & Hc); by apply not_elem_of_nil in Hc).
  assert (Hg : ∀ q, ¬ gone [] q) by (intros q (c & Hc & _); by apply not_elem_of_nil in Hc).
  split; cbn [u_fs u_dirs u_aufsTempdir]; try done.
  - apply (tr_wf _ _ H0).
  - apply (tr_xattr _ _ H0).
  - intros q Hq. by destruct (Hw q).
  - intros q _ _ Hq. by destruct (Hg q).
  - intros q q' i Hi _ Hge. apply (wf_inode _ (tr_wf _ _ H0)) in Hi as [_ Hi]. lia.
  - intros hdr Hh. by apply not_elem_of_nil in Hh.
Qed.

(** ** The times of the directories *)

Lemma inv_dir_time done seen u q n i a b :
  Inv done seen u → q ≠ [] → written done q → newq q = Some n → is_dir n = true →
  fs_names (u_fs u) !! (D ++ q) = Some i →
  Inv done seen (with_fs u (set_inode (u_fs u) i (set_times a b))).
Proof.
  intros HI Hq Hw Hn Hd Hi. destruct (iv_written _ _ _ HI q Hw) as (n' & m & Hn' & Hm & Hcp).
  assert (n' = n) as -> by congruence.
  assert (Hdm : is_dir m = true) by (unfold is_dir in *; by rewrite (cp_kind _ _ Hcp)).
  assert (Hone : ∀ p, fs_names (u_fs u) !! p = Some i → p = D ++ q).
  { intros p Hp. rewrite (node_at_Some _ _ _ Hi) in Hm. by apply (wf_dir _ (iv_wf _ _ _ HI) p (D ++ q) i m). }
  assert (Hsame : ∀ p, p ≠ D ++ q → node_at (set_inode (u_fs u) i (set_times a b)) p = node_at (u_fs u) p).
  { intros p Hp. rewrite node_at_set, decide_False; [done|]. auto. }
  destruct HI as [Iwf Ix Ic In Io Iw Ig Iold Ish Is Idr It].
  split; cbn [u_fs with_fs u_dirs u_aufsTempdir]; try done.
  - by apply set_wf.
  - intros p Hp. rewrite Hsame; [by apply Io|]. by apply Hp.
  - intros q' Hq'. destruct (Iw q' Hq') as (n1 & m1 & Hn1 & Hm1 & Hcp1). exists n1.
    destruct (decide (q' = q)) as [->|Hne].
    + exists (set_times a b m1). split; [done|]. split; [by rewrite node_at_set, decide_True, Hm1|].
      destruct Hcp1. split; try done. intros Hnd. congruence.
    + exists m1. split; [done|]. split; [|done]. rewrite Hsame; [done|]. intros E. by apply app_inv_head in E.
  - intros q' Hq' Hw' Hg'. destruct (Iold q' Hq' Hw' Hg') as [E1 E2]. split; [done|].
    rewrite Hsame; [done|]. intros E. apply app_inv_head in E as ->. done.
Qed.

Lemma dir_times_ok seen hs u :
  Inv sorted_changes seen u →
  (∀ hdr, hdr ∈ hs → ∃ q n, h_Name hdr = Join q "/" ∧ written sorted_changes q ∧
     newq q = Some n ∧ is_dir n = true) →
  ∃ u', dir_times (P D) u hs = (u', Ok tt) ∧ Inv sorted_changes seen u'.
Proof.
  assert (Hp : sorted_changes ≡ₚ cs) by apply merge_sort_Permutation.
  assert (Hin : ∀ c, c ∈ sorted_changes → c ∈ cs) by (intros c; by rewrite Hp).
  revert u. induction hs as [|hdr hs IH]; intros u HI Hhs; [by exists u|]. cbn [dir_times].
  destruct (Hhs hdr) as (q & n & Hname & Hw & Hn & Hd); [left|].
  assert (Hq : q ≠ []) by (destruct Hw as (k & Hk & Hc); by eapply written_in).
  assert (Hno : Forall normal q) by (apply plain_normal, (tr_plain _ _ HN); by exists n).
  destruct (iv_written _ _ _ HI q Hw) as (n' & m & Hn' & Hm & Hcp).
  assert (n' = n) as -> by congruence.
  destruct (node_at_name _ _ _ Hm) as (i & Hi & _).
  rewrite Hname, Join_rel by (done || apply (tr_base _ _ H0)).
  unfold system_Chtimes, os_Chtimes.
  rewrite (change_inode_literal true _ _ i m); [| | |done|done|].
  - cbn [on_errno on_fs errno_result fst snd and_then]. apply IH.
    + by apply inv_dir_time with q n.
    + intros h Hh. apply Hhs. by right.
  - apply Forall_app. split; [apply (tr_base _ _ H0)|done].
  - apply (new_dirs sorted_changes seen u HI Hin); [by eexists|]. intros t c r k' _. by rewrite Hp.
  - intros _. unfold is_dir, is_symlink in *. rewrite (cp_kind _ _ Hcp). by destruct (i_kind n).
Qed.

(** ** The result *)

Hypothesis (Hsame : ∀ q o n, node_at s0 (D ++ q) = Some o → node_at sN (N ++ q) = Some n →
  same_node o n → i_kind o = i_kind n).

Lemma copy_same n m : copy_of n m → same_node m n ∧ i_kind m = i_kind n.
Proof.
  intros [Hk Hpm Hu Hg Hr Hc Ht]. split; [|done]. split; [|unfold cap_bytes; by rewrite Hc].
  unfold statDifferent, stat_of. simpl. rewrite Hk, Hpm, Hu, Hg, Hr.
  rewrite !bool_decide_true by done. simpl.
  destruct (is_dir n) eqn:Hd.
  - assert (E : i_kind n = KDir) by (unfold is_dir in Hd; by destruct (i_kind n)). rewrite E. simpl.
    rewrite bool_decide_true; [done|]. rewrite Z.land_lor_distr_l. unfold S_IFDIR.
    apply Z.bits_inj'. intros b Hb. rewrite Z.lor_spec, !Z.land_spec.
    destruct (Z.testbit 16384 b); [done|]. simpl. by rewrite andb_false_r.
  - rewrite Ht by done. unfold sameFsTimeSpec, whole_seconds. simpl.
    rewrite (bool_decide_true (ts_Sec _ = _)) by done.
    rewrite orb_true_r, (bool_decide_true (isize _ = _)) by done. simpl. by rewrite andb_false_r.
Qed.

Lemma final_view seen u q :
  Inv sorted_changes seen u → q ≠ [] →
  match newq q, node_at (u_fs u) (D ++ q) with
  | Some n, Some m => same_node m n ∧ i_kind m = i_kind n
  | None, None => True
  | _, _ => False
  end.
Proof.
  intros HI Hq. assert (Hp : sorted_changes ≡ₚ cs) by apply merge_sort_Permutation.
  assert (Hin : ∀ c, c ∈ sorted_changes → c ∈ cs) by (intros c; by rewrite Hp).
  destruct (decide (Exists (λ c, ch_Path c = q ∧ ch_Kind c ≠ ChangeDelete) sorted_changes)) as [He|He].
  { apply Exists_exists in He as ([p k] & Hc & <- & Hk).
    simpl. destruct (iv_written _ _ _ HI p) as (n & m & -> & -> & Hcp); [by exists k|].
    by apply copy_same. }
  assert (Hw : ¬ written sorted_changes q).
  { intros (k & Hk & Hc). apply He, Exists_exists. by exists (mkChange q k). }
  destruct (newq q) as [n|] eqn:Hn.
  - destruct (iv_old _ _ _ HI q Hq Hw) as [_ E].
    { apply not_gone; [done|by eexists|done]. }
    rewrite E. destruct (oldq q) as [o|] eqn:Ho.
    + destruct (decide (statDifferent (stat_of o) (stat_of n) = false ∧ cap_bytes o = cap_bytes n)) as [Hs|Hs].
      * split; [done|]. by apply (Hsame q).
      * destruct Hw. destruct (written_complete s0 sN D N old new) with q n as (k & Hk & Hc); eauto.
        { intros o' Ho' Hs'. apply Hs. rewrite Ho in Ho'. by injection Ho' as <-. }
        exists k. by rewrite Hp.
    + destruct Hw. destruct (written_complete s0 sN D N old new) with q n as (k & Hk & Hc); eauto.
      { intros o'. congruence. }
      exists k. by rewrite Hp.
  - destruct (oldq q) as [o|] eqn:Ho.
    + assert (Hg : gone sorted_changes q).
      { destruct (gone_complete s0 sN D N old new) with q as (c & Hc & Hpre & Hk); eauto.
        exists c. rewrite Hp. split_and!; try done. destruct Hk as [|(_ & _ & H)]; [by left|by right]. }
      unfold node_at. rewrite (iv_gone _ _ _ HI q Hq Hw Hg). done.
    + destruct (node_at (u_fs u) (D ++ q)) as [m|] eqn:Hm; [|done].
      assert (Hg : ¬ gone sorted_changes q).
      { intros Hg. pose proof (iv_gone _ _ _ HI q Hq Hw Hg) as E. unfold node_at in Hm. by rewrite E in Hm. }
      destruct (iv_old _ _ _ HI q Hq Hw Hg) as [_ E]. congruence.
Qed.
End trip.

(** What the round trip asks of the two directories: both are well formed and
    described by the trees of file information, the new one has only files that can
    be archived, with owners that the maps translate there and back and with links
    that stay inside, and files that look the same have the same contents.  The
    process works in the destination, as it does in its chroot. *)
Record layer_case (s0 sN : fs) (D N : list string) (old new : FileInfo) (opts : TarOptions)
    (root : Z * Z) : Prop := {
  lc_root : GetRootUIDGID (to_UIDMaps opts) (to_GIDMaps opts) = Ok root;
  lc_dest : tree_ok s0 D;
  lc_new : tree_ok sN N;
  lc_old_info : described s0 D old;
  lc_new_info : described sN N new;
  lc_old_wf : info_wf [] old;
  lc_new_wf : info_wf [] new;
  lc_cwd : fs_cwd s0 = D;
  lc_exportable : ∀ q n, node_at sN (N ++ q) = Some n → exportable n;
  lc_ids : ∀ q n, node_at sN (N ++ q) = Some n →
    id_ok (to_UIDMaps opts) root.1 (i_uid n) ∧ id_ok (to_GIDMaps opts) root.2 (i_gid n);
  lc_links : ∀ q n t, q ≠ [] → node_at sN (N ++ q) = Some n → i_kind n = KSymlink t →
    HasPrefix (filepath_Join (filepath_Dir (P (D ++ q))) t) (P D) = true;
  lc_modes : ∀ q m, node_at s0 (D ++ q) = Some m →
    0 ≤ i_perm m < 4096 ∧ (is_dir m = true → i_rdev m = 0 ∧ i_xattrs m !! cap_key = None);
  lc_contents : ∀ q o n, node_at s0 (D ++ q) = Some o → node_at sN (N ++ q) = Some n →
    same_node o n → i_kind o = i_kind n
}.

