(* ===== verification/ArchiveWitness.v ===== *)
(** * pkg/archive: layers on concrete file systems

    Tests for the conditions of the round trip, a pair of directories that meets
    them, and archives on which [UnpackLayer] does not do what it means to. *)

From S2P Require Import Prelude GoStrings GoPath IDTools Changes.
From S2P Require Import ChangesInv HostFS HostFSInv Archive ArchiveInv ArchiveTrip.
Open Scope Z_scope.

(** ** Tests *)

Definition all_nodes (s : fs) (f : list string → inode → bool) : bool :=
  forallb (λ kv, match fs_inodes s !! kv.2 with Some n => f kv.1 n | None => true end)
    (map_to_list (fs_names s)).

Lemma all_nodes_sound s f p n : all_nodes s f = true → node_at s p = Some n → f p n = true.
Proof.
  unfold all_nodes. rewrite forallb_forall. intros Hall (i & Hi & Hn)%node_at_name.
  specialize (Hall (p, i)). simpl in Hall. rewrite Hn in Hall. apply Hall.
  by apply list_elem_of_In, elem_of_map_to_list.
Qed.

Definition dirb (s : fs) (p : list string) : bool :=
  match node_at s p with Some n => is_dir n | None => false end.
Lemma dirb_sound s p : dirb s p = true → dir_at s p.
Proof. unfold dirb, dir_at. destruct (node_at s p) as [n|]; [|done]. by exists n. Qed.

#[global] Instance normal_dec c : Decision (normal c).
Proof. unfold normal. apply _. Defined.
#[global] Instance plain_dec c : Decision (plain c).
Proof. unfold plain. apply _. Defined.

Definition wfb (s : fs) : bool :=
  let l := map_to_list (fs_names s) in
  forallb (λ kv, bool_decide (is_Some (fs_inodes s !! kv.2)) && bool_decide (kv.2 < fs_next s)%nat) l &&
  forallb (λ kv, forallb (λ kv',
    negb (bool_decide (kv.2 = kv'.2)) || negb (dirb s kv.1) || bool_decide (kv.1 = kv'.1)) l) l.

Lemma wfb_sound s : wfb s = true → fs_wf s.
Proof.
  unfold wfb. rewrite andb_true_iff, !forallb_forall. intros [H1 H2].
  assert (Hin : ∀ p i, fs_names s !! p = Some i → In (p, i) (map_to_list (fs_names s))).
  { intros p i Hp. by apply list_elem_of_In, elem_of_map_to_list. }
  split.
  - intros p i Hp. specialize (H1 _ (Hin p i Hp)). simpl in H1.
    by rewrite andb_true_iff, !bool_decide_eq_true in H1.
  - intros p q i n Hp Hq Hn Hd. specialize (H2 _ (Hin p i Hp)). rewrite forallb_forall in H2.
    specialize (H2 _ (Hin q i Hq)). simpl in H2. rewrite bool_decide_true in H2 by done.
    unfold dirb in H2. rewrite (node_at_Some _ _ _ Hp), Hn, Hd in H2. simpl in H2.
    by apply bool_decide_eq_true in H2.
Qed.

Definition tree_okb (s : fs) (B : list string) : bool :=
  wfb s && bool_decide (Forall normal B) &&
  forallb (λ k, dirb s (take k B)) (seq 0 (S (length B))) && fs_xattr s &&
  all_nodes s (λ p _,
    if decide (B `prefix_of` p ∧ p ≠ B) then dirb s (removelast p) else true) &&
  all_nodes s (λ p _,
    if decide (B `prefix_of` p) then bool_decide (Forall plain (drop (length B) p)) else true).

Lemma tree_okb_sound s B : tree_okb s B = true → tree_ok s B.
Proof.
  unfold tree_okb. rewrite !andb_true_iff.
  intros (((((Hwf & Hn) & Hd) & Hx) & Hpar) & Hpl).
  assert (Hdir : ∀ k, (k ≤ length B)%nat → dir_at s (take k B)).
  { intros k Hk. rewrite forallb_forall in Hd. apply dirb_sound, Hd, in_seq. lia. }
  split.
  - by apply wfb_sound.
  - by apply bool_decide_eq_true in Hn.
  - split; [apply (Hdir 0%nat); lia|]. intros q c r Heq. specialize (Hdir (length q)).
    rewrite Heq, take_app_length in Hdir. apply Hdir. rewrite length_app. lia.
  - specialize (Hdir (length B)). rewrite take_ge in Hdir by done. by apply Hdir.
  - intros q c [n Hq]. apply (all_nodes_sound _ _ _ _ Hpar) in Hq. simpl in Hq.
    rewrite decide_True in Hq; cycle 1.
    { split; [by eexists|]. intros E. apply (f_equal length) in E. rewrite !length_app in E. simpl in E. lia. }
    apply dirb_sound. rewrite app_assoc, removelast_last in Hq. done.
  - intros q [n Hq]. apply (all_nodes_sound _ _ _ _ Hpl) in Hq. simpl in Hq.
    rewrite decide_True, drop_app_length in Hq by (by eexists). by apply bool_decide_eq_true in Hq.
  - done.
Qed.

(** All the nodes of a tree of file information, with their paths. *)
Fixpoint info_paths (info : FileInfo) : list (list string * FileInfo) :=
  ([], info) ::
  (fix go (cs : list (string * FileInfo)) : list (list string * FileInfo) :=
     match cs with
     | [] => []
     | (name, c) :: cs => ((λ qi, (name :: qi.1, qi.2)) <$> info_paths c) ++ go cs
     end) (fi_children info).

Lemma LookUp_paths q : ∀ info i, LookUp info q = Some i → (q, i) ∈ info_paths info.
Proof.
  induction q as [|x q IH]; intros [st cap cs] i Hl.
  - simpl in Hl. injection Hl as <-. left.
  - cbn [LookUp fi_children] in Hl. destruct (child x cs) as [c|] eqn:Hc; [|done].
    apply IH in Hl. cbn [info_paths fi_children]. right.
    induction cs as [|[name d] cs IHcs]; [done|]. simpl in Hc. apply elem_of_app. case_decide as E.
    + injection Hc as ->. left. apply list_elem_of_fmap. exists (q, i). by subst name.
    + right. by apply IHcs.
Qed.

Definition describedb (s : fs) (B : list string) (info : FileInfo) : bool :=
  forallb (λ qi, match node_at s (B ++ qi.1) with
                 | Some m => bool_decide (qi.1 = []) ||
                     bool_decide (fi_stat qi.2 = stat_of m ∧ fi_capability qi.2 = cap_bytes m)
                 | None => false
                 end) (info_paths info) &&
  all_nodes s (λ p _, if decide (B `prefix_of` p)
                      then match LookUp info (drop (length B) p) with Some _ => true | None => false end
                      else true).

Lemma describedb_sound s B info : describedb s B info = true → described s B info.
Proof.
  unfold describedb. rewrite andb_true_iff, forallb_forall. intros [H1 H2] q.
  destruct (LookUp info q) as [i|] eqn:Hl.
  - specialize (H1 (q, i)). simpl in H1.
    destruct (node_at s (B ++ q)) as [m|] eqn:Hm; [|by discriminate H1; apply list_elem_of_In, LookUp_paths].
    assert (Hb := H1 ltac:(by apply list_elem_of_In, LookUp_paths)).
    rewrite orb_true_iff, !bool_decide_eq_true in Hb. done.
  - destruct (node_at s (B ++ q)) as [m|] eqn:Hm; [|done].
    apply (all_nodes_sound _ _ _ _ H2) in Hm. simpl in Hm.
    rewrite decide_True, drop_app_length, Hl in Hm by (by eexists). done.
Qed.

(** ** Two directories *)

Definition demo_time (sec nsec : Z) : Timespec := mkTimespec sec nsec.
Definition demo_inode (k : ikind) (perm uid sec : Z) (xs : gmap string (list Z)) : inode :=
  mkInode k perm uid uid 0 xs (demo_time 0 0) (demo_time sec 500).
Definition demo_fs (names : list (list string * nat)) (ins : list (nat * inode)) (cwd : list string) : fs :=
  mkFs (list_to_map names) (list_to_map ins) 50 true cwd.

(** The destination /d has a file a/x, a file b, and a directory e with a file. *)
Definition demo_dest : fs :=
  demo_fs
    [([], 0); (["d"], 1); (["d"; "a"], 2); (["d"; "a"; "x"], 3); (["d"; "b"], 4);
     (["d"; "e"], 5); (["d"; "e"; "f"], 6); (["d"; "k"], 7)]%nat
    [(0%nat, demo_inode KDir 493 0 1 ∅); (1%nat, demo_inode KDir 493 0 1 ∅);
     (2%nat, demo_inode KDir 493 0 1 ∅); (3%nat, demo_inode (KReg "x") 420 0 1 ∅);
     (4%nat, demo_inode (KReg "bb") 420 0 2 ∅); (5%nat, demo_inode KDir 448 7 1 ∅);
     (6%nat, demo_inode (KReg "f") 420 7 1 ∅); (7%nat, demo_inode (KReg "kept") 420 7 3 ∅)]
    ["d"].
(** In the new directory /n the file a/x is gone, b is a link, e a file with
    capabilities and the set-user-ID bit, and a/y and c are one file. *)
Definition demo_next : fs :=
  demo_fs
    [([], 0); (["n"], 1); (["n"; "a"], 2); (["n"; "a"; "y"], 3); (["n"; "c"], 3);
     (["n"; "b"], 4); (["n"; "e"], 5); (["n"; "k"], 7)]%nat
    [(0%nat, demo_inode KDir 493 0 1 ∅); (1%nat, demo_inode KDir 493 0 1 ∅);
     (2%nat, demo_inode KDir 448 0 1 ∅); (3%nat, demo_inode (KReg "yy") 2541 7 9 ∅);
     (4%nat, demo_inode (KSymlink "a/y") 511 0 4 ∅);
     (5%nat, demo_inode (KReg "prog") 2541 7 5 {[ cap_key := [1; 2] ]});
     (7%nat, demo_inode (KReg "kept") 420 7 3 ∅)]
    [].

Definition demo_info (s : fs) (p : list string) (cs : list (string * FileInfo)) : FileInfo :=
  match node_at s p with
  | Some m => mkInfo (stat_of m) (cap_bytes m) cs
  | None => newRootFileInfo
  end.
Definition demo_dest_info : FileInfo :=
  demo_info demo_dest ["d"]
    [("a", demo_info demo_dest ["d"; "a"] [("x", demo_info demo_dest ["d"; "a"; "x"] [])]);
     ("b", demo_info demo_dest ["d"; "b"] []);
     ("e", demo_info demo_dest ["d"; "e"] [("f", demo_info demo_dest ["d"; "e"; "f"] [])]);
     ("k", demo_info demo_dest ["d"; "k"] [])].
Definition demo_next_info : FileInfo :=
  demo_info demo_next ["n"]
    [("k", demo_info demo_next ["n"; "k"] []); ("b", demo_info demo_next ["n"; "b"] []);
     ("a", demo_info demo_next ["n"; "a"] [("y", demo_info demo_next ["n"; "a"; "y"] [])]);
     ("c", demo_info demo_next ["n"; "c"] []); ("e", demo_info demo_next ["n"; "e"] [])].

Definition no_maps : TarOptions := mkOptions None None.

#[local] Instance exportable_parts n : Decision
  (0 ≤ i_perm n < 4096 ∧ i_kind n ≠ KSock ∧
   match i_kind n with KChar | KBlock => 0 ≤ i_rdev n < 2 ^ 32 | _ => i_rdev n = 0 end ∧
   match i_kind n with KSymlink t => i_perm n = 511 ∧ t ≠ "" | _ => True end ∧
   clamp_time (whole_seconds (i_mtime n)) = whole_seconds (i_mtime n) ∧
   (is_dir n = true → i_xattrs n !! cap_key = None)).
Proof. destruct (i_kind n); apply _. Defined.

Definition exportableb (n : inode) : bool :=
  bool_decide
   (0 ≤ i_perm n < 4096 ∧ i_kind n ≠ KSock ∧
    match i_kind n with KChar | KBlock => 0 ≤ i_rdev n < 2 ^ 32 | _ => i_rdev n = 0 end ∧
    match i_kind n with KSymlink t => i_perm n = 511 ∧ t ≠ "" | _ => True end ∧
    clamp_time (whole_seconds (i_mtime n)) = whole_seconds (i_mtime n) ∧
    (is_dir n = true → i_xattrs n !! cap_key = None)).
Lemma exportableb_sound n : exportableb n = true → exportable n.
Proof.
  unfold exportableb. rewrite bool_decide_eq_true. intros (H1 & H2 & H3 & H4 & H5 & H6). split; try done.
  intros t Ht. by rewrite Ht in H4.
Qed.

Lemma id_ok_none root id : id_ok None root id.
Proof. exists id. split; [done|]. by case_decide. Qed.

(** The only link, the modes of the destination, files that look the same. *)
Definition demo_link (p : list string) (n : inode) : bool :=
  bool_decide (p = ["n"; "b"]) || negb (is_symlink n).
Definition demo_mode (_ : list string) (m : inode) : bool :=
  bool_decide (0 ≤ i_perm m < 4096 ∧ i_rdev m = 0 ∧ i_xattrs m !! cap_key = None).
Definition demo_same (p : list string) (o : inode) : bool :=
  match node_at demo_next ("n" :: drop 1 p) with
  | Some n => statDifferent (stat_of o) (stat_of n) || bool_decide (i_kind o = i_kind n)
  | None => true
  end.

Lemma demo_case : layer_case demo_dest demo_next ["d"] ["n"] demo_dest_info demo_next_info no_maps (0, 0).
Proof.
  split.
  - done.
  - apply tree_okb_sound. vm_compute. done.
  - apply tree_okb_sound. vm_compute. done.
  - apply describedb_sound. vm_compute. done.
  - apply describedb_sound. vm_compute. done.
  - apply info_wfb_sound. vm_compute. done.
  - apply info_wfb_sound. vm_compute. done.
  - done.
  - intros q n Hn. apply exportableb_sound.
    by apply (all_nodes_sound demo_next (λ _ n, exportableb n) _ _ eq_refl Hn).
  - intros q n _. split; apply id_ok_none.
  - intros q n t Hq Hn Ht.
    pose proof (all_nodes_sound demo_next demo_link _ _ eq_refl Hn) as Hb.
    unfold demo_link, is_symlink in Hb. rewrite Ht, orb_false_r in Hb. apply bool_decide_eq_true in Hb.
    injection Hb as ->. vm_compute in Hn. injection Hn as <-. vm_compute in Ht. injection Ht as <-. done.
  - intros q m Hm. pose proof (all_nodes_sound demo_dest demo_mode _ _ eq_refl Hm) as Hb.
    unfold demo_mode in Hb. rewrite bool_decide_eq_true in Hb. naive_solver.
  - intros q o n Ho Hn [Hs _]. pose proof (all_nodes_sound demo_dest demo_same _ _ eq_refl Ho) as Hb.
    unfold demo_same in Hb. simpl in Hb, Hn. rewrite drop_0, Hn, Hs in Hb.
    by apply bool_decide_eq_true in Hb.
Qed.


(** ** Where the checks of UnpackLayer do not hold *)

Definition demo_header (name : string) (t : typeflag) (linkname : string) (uid : Z) : Header :=
  mkHeader name 420 uid uid 0 (demo_time 1 0) (demo_time 1 0) t linkname 0 0 [].

(** An entry with the name ".." passes the test for paths outside of the destination:
    a file of this name replaces the directory that the destination is in. *)
Example dotdot_entry_replaces_parent :
  let '(s, r) := UnpackLayer "/tmp/plnk" "/d/a" no_maps demo_dest
                   [(demo_header ".." TypeReg "" 0, "")] None in
  r = Ok 0 ∧ i_kind <$> node_at demo_dest ["d"] = Some KDir ∧
  i_kind <$> node_at s ["d"] = Some (KReg "") ∧ node_at s ["d"; "k"] = None.
Proof. vm_compute. repeat split; reflexivity. Qed.

(** The directories of an entry outside of the destination are made before the entry
    is refused. *)
Example refused_entry_makes_directories :
  let '(s, r) := UnpackLayer "/tmp/plnk" "/d/a" no_maps demo_dest
                   [(demo_header "../z/f" TypeReg "" 0, "")] None in
  r = Err (breakoutError "is outside" "../z/f") ∧
  node_at demo_dest ["d"; "z"] = None ∧ i_kind <$> node_at s ["d"; "z"] = Some KDir.
Proof. vm_compute. repeat split; reflexivity. Qed.

(** An absolute link passes the test for links that leave the destination, and what
    follows in the archive goes through it. *)
Example absolute_link_is_followed :
  let '(s, r) := UnpackLayer "/tmp/plnk" "/d/a" no_maps demo_dest
                   [(demo_header "l" TypeSymlink "/d/e" 0, "");
                    (demo_header "l/f" TypeReg "" 0, "new")] None in
  r = Ok 0 ∧ i_kind <$> node_at demo_dest ["d"; "e"; "f"] = Some (KReg "f") ∧
  i_kind <$> node_at s ["d"; "e"; "f"] = Some (KReg "new").
Proof. vm_compute. repeat split; reflexivity. Qed.

(** The test of a hard link compares strings: a sibling of the destination whose name
    starts with the name of the destination passes it. *)
Definition demo_siblings : fs :=
  demo_fs [([], 0); (["d"], 1); (["d2"], 2); (["d2"; "s"], 3)]%nat
    [(0%nat, demo_inode KDir 493 0 1 ∅); (1%nat, demo_inode KDir 493 0 1 ∅);
     (2%nat, demo_inode KDir 493 0 1 ∅); (3%nat, demo_inode (KReg "secret") 384 0 1 ∅)] ["d"].
Example hard_link_to_sibling :
  let '(s, r) := UnpackLayer "/tmp/plnk" "/d" no_maps demo_siblings
                   [(demo_header "l" TypeLink "../d2/s" 7, "")] None in
  r = Ok 0 ∧ i_uid <$> node_at demo_siblings ["d2"; "s"] = Some 0 ∧
  i_uid <$> node_at s ["d2"; "s"] = Some 7 ∧ i_kind <$> node_at s ["d"; "l"] = Some (KReg "secret").
Proof. vm_compute. repeat split; reflexivity. Qed.

(** The target of a hard link is looked up relative to the working directory when its
    mode is set.  Outside of the destination this fails, and the file keeps the mode
    that changing the owner left: it has lost the set-user-ID bit. *)
Example hard_link_loses_setuid :
  let layer := ExportChanges demo_next (demo_time 7 7) "/n"
                 (Changes demo_next_info (Some demo_dest_info)) None None in
  let perm_at s p := i_perm <$> node_at s p in
  let run cwd := (UnpackLayer "/tmp/plnk" "/d" no_maps
                    (mkFs (fs_names demo_dest) (fs_inodes demo_dest) 50 true cwd) layer None).1 in
  perm_at demo_next ["n"; "c"] = Some 2541 ∧ perm_at (run ["d"]) ["d"; "c"] = Some 2541 ∧
  perm_at (run []) ["d"; "c"] = Some 493.
Proof. vm_compute. repeat split; reflexivity. Qed.

(** The header of a file in .wh..wh.plnk is shared by all the hard links to it, and
    its owner is translated at each of them: the second link is refused. *)
Example plnk_owner_mapped_twice :
  let maps := Some [mkIDMap 0 100000 65536] in
  let links := [(demo_header ".wh..wh.plnk/1" TypeReg "" 5, "x");
                (demo_header "l" TypeLink ".wh..wh.plnk/1" 5, "");
                (demo_header "m" TypeLink ".wh..wh.plnk/1" 5, "")] in
  (UnpackLayer "/plnk" "/d" (mkOptions maps maps) demo_siblings (take 2 links) None).2 = Ok 0 ∧
  (UnpackLayer "/plnk" "/d" (mkOptions maps maps) demo_siblings links None).2 =
    Err (IDError "Container ID cannot be mapped to a host ID").
Proof. vm_compute. repeat split; reflexivity. Qed.

(** An opaque directory of overlay loses its own entry: the header is replaced by
    that of the marker. *)
Example opaque_directory_has_no_entry :
  let s := demo_fs [([], 0); (["n"], 1); (["n"; "a"], 2)]%nat
             [(0%nat, demo_inode KDir 493 0 1 ∅); (1%nat, demo_inode KDir 493 0 1 ∅);
              (2%nat, demo_inode KDir 448 7 1 {[ "trusted.overlay.opaque" := [121] ]})] [] in
  h_Name ∘ fst <$> ta_TarWriter (addTarFile s (mkAppender [] ∅ None None true) "/n/a" "a").1 =
    ["a/.wh..wh..opq"].
Proof. reflexivity. Qed.
