(* ===== verification/PubSub.v ===== *)
(** * Publishers of messages

    Model of pkg/pubsub/publisher.go.  A publisher hands every message to the
    channels subscribed to it, one goroutine for each, under the read lock of its
    mutex; subscribing and evicting take the write lock.  Goroutines interleave, so
    the publishers and their channels are a transition system: [pub_exec] is one step,
    which is a critical section of the mutex, a send or a receive.  Channels and
    publishers are addresses, because a channel made by one publisher may be handed to
    another one.  The last group of fields of [Chan] and the field [call_fates] of
    [Call] are history, which no operation reads. *)

From S2P Require Import Prelude.

Section pubsub.
Context {V : Type}.

(** ** State *)

Definition topicFunc : Type := V → bool.

Record Chan := mkChan {
  ch_queue : list V;
  ch_cap : nat;
  ch_closed : bool;
  (* history *)
  ch_owner : nat;
  ch_topic : option topicFunc;
  ch_since : nat;
  ch_received : list V;
  ch_order : list nat;
  ch_closes : nat
}.

Record Publisher := mkPublisher {
  pub_buffer : nat;
  pub_timeout : Z;
  pub_subscribers : gmap nat (option topicFunc)
}.

(** What became of a message for one subscriber. *)
Inductive fate := Delivered | Filtered | Skipped.

(** A call of Publish waits for the read lock, holds it while the goroutines of the
    given channels run, or has returned. *)
Inductive progress :=
| Waiting
| Sending (subs : gset nat)
| Returned.

Record Call := mkCall {
  call_pub : nat;
  call_value : V;
  call_progress : progress;
  call_fates : gmap nat fate
}.

Record pstate := mkPstate {
  ps_chans : list Chan;
  ps_pubs : list Publisher;
  ps_calls : list Call;
  ps_panic : option string
}.

Definition no_pubs : pstate := mkPstate [] [] [] None.

Definition with_chan (s : pstate) (ch : nat) (c : Chan) : pstate :=
  mkPstate (<[ch := c]> (ps_chans s)) (ps_pubs s) (ps_calls s) (ps_panic s).
Definition with_pub (s : pstate) (p : nat) (P : Publisher) : pstate :=
  mkPstate (ps_chans s) (<[p := P]> (ps_pubs s)) (ps_calls s) (ps_panic s).
Definition with_call (s : pstate) (i : nat) (k : Call) : pstate :=
  mkPstate (ps_chans s) (ps_pubs s) (<[i := k]> (ps_calls s)) (ps_panic s).
Definition with_panic (s : pstate) (m : string) : pstate :=
  mkPstate (ps_chans s) (ps_pubs s) (ps_calls s) (Some m).

Definition with_subscribers (P : Publisher) (m : gmap nat (option topicFunc)) : Publisher :=
  mkPublisher (pub_buffer P) (pub_timeout P) m.

(** ** Operations *)

Definition NewPublisher (publishTimeout : Z) (buffer : nat) (s : pstate) : pstate * nat :=
  (mkPstate (ps_chans s) (ps_pubs s ++ [mkPublisher buffer publishTimeout ∅])
     (ps_calls s) (ps_panic s), length (ps_pubs s)).

(** [make(chan interface{}, p.buffer)]. *)
Definition make_chan (P : Publisher) (p : nat) (topic : option topicFunc) (s : pstate) : Chan :=
  mkChan [] (pub_buffer P) false p topic (length (ps_calls s)) [] [] 0.

(** A read lock of [p] is held by a call that sends. *)
Definition sends_on (p : nat) (k : Call) : bool :=
  bool_decide (call_pub k = p) &&
  match call_progress k with Sending _ => true | _ => false end.
Definition write_lock_free (s : pstate) (p : nat) : bool :=
  forallb (λ k, negb (sends_on p k)) (ps_calls s).

Definition Publisher_Len (P : Publisher) : nat := size (pub_subscribers P).

Definition Publisher_SubscribeTopic (p : nat) (topic : option topicFunc)
    (s : pstate) : option (pstate * nat) :=
  P ← ps_pubs s !! p;
  if write_lock_free s p then
    let ch := length (ps_chans s) in
    Some (mkPstate (ps_chans s ++ [make_chan P p topic s])
            (<[p := with_subscribers P (<[ch := topic]> (pub_subscribers P))]> (ps_pubs s))
            (ps_calls s) (ps_panic s), ch)
  else None.

Definition Publisher_Subscribe (p : nat) (s : pstate) : option (pstate * nat) :=
  Publisher_SubscribeTopic p None s.

(** [close(ch)]. *)
Definition close_chan (ch : nat) (s : pstate) : option pstate :=
  c ← ps_chans s !! ch;
  let s := with_chan s ch (mkChan (ch_queue c) (ch_cap c) true (ch_owner c) (ch_topic c)
             (ch_since c) (ch_received c) (ch_order c) (S (ch_closes c))) in
  Some (if ch_closed c then with_panic s "close of closed channel" else s).

(** [delete(p.subscribers, sub); close(sub)]. *)
Definition drop_subscriber (p : nat) (sub : nat) (s : pstate) : option pstate :=
  P ← ps_pubs s !! p;
  close_chan sub (with_pub s p (with_subscribers P (delete sub (pub_subscribers P)))).

Definition Publisher_Evict (p : nat) (sub : nat) (s : pstate) : option pstate :=
  if write_lock_free s p then drop_subscriber p sub s else None.

(** The loop of Close over the subscribers. *)
Fixpoint close_loop (p : nat) (subs : list nat) (s : pstate) : option pstate :=
  match subs with
  | [] => Some s
  | sub :: subs =>
      s ← drop_subscriber p sub s;
      match ps_panic s with
      | Some _ => Some s
      | None => close_loop p subs s
      end
  end.

Definition Publisher_Close (p : nat) (s : pstate) : option pstate :=
  P ← ps_pubs s !! p;
  if write_lock_free s p then close_loop p (map_to_list (pub_subscribers P)).*1 s else None.

(** A goroutine calls [p.Publish(v)] and gets to the read lock. *)
Definition call_Publish (p : nat) (v : V) (s : pstate) : pstate :=
  mkPstate (ps_chans s) (ps_pubs s) (ps_calls s ++ [mkCall p v Waiting ∅]) (ps_panic s).

Definition set_progress (k : Call) (st : progress) : Call :=
  mkCall (call_pub k) (call_value k) st (call_fates k).

(** It takes the read lock, and starts the goroutines or returns. *)
Definition Publish_start (i : nat) (s : pstate) : option pstate :=
  k ← ps_calls s !! i;
  P ← ps_pubs s !! call_pub k;
  match call_progress k with
  | Waiting =>
      Some (with_call s i (set_progress k
        (if decide (Publisher_Len P = 0) then Returned
         else Sending (dom (pub_subscribers P)))))
  | _ => None
  end.

(** [wg.Wait()] is over, and the read lock is given back. *)
Definition Publish_end (i : nat) (s : pstate) : option pstate :=
  k ← ps_calls s !! i;
  match call_progress k with
  | Sending subs =>
      if decide (subs = ∅) then Some (with_call s i (set_progress k Returned)) else None
  | _ => None
  end.

(** How the select of sendTopic ends: the message is put into the buffer, is handed
    to a receiver that waits, or the other case of the select is taken. *)
Inductive select := ToQueue | ToReceiver | OtherCase.

Definition settle (k : Call) (ch : nat) (f : fate) (subs : gset nat) : Call :=
  mkCall (call_pub k) (call_value k) (Sending (subs ∖ {[ch]})) (<[ch := f]> (call_fates k)).

Definition push (c : Chan) (i : nat) (v : V) : Chan :=
  mkChan (ch_queue c ++ [v]) (ch_cap c) (ch_closed c) (ch_owner c) (ch_topic c) (ch_since c)
    (ch_received c) (ch_order c ++ [i]) (ch_closes c).
Definition hand (c : Chan) (i : nat) (v : V) : Chan :=
  mkChan (ch_queue c) (ch_cap c) (ch_closed c) (ch_owner c) (ch_topic c) (ch_since c)
    (ch_received c ++ [v]) (ch_order c ++ [i]) (ch_closes c).

(** [topic == nil || topic(v)]. *)
Definition accepts (topic : option topicFunc) (v : V) : bool :=
  match topic with None => true | Some f => f v end.

Definition sendTopic (i ch : nat) (how : select) (s : pstate) : option pstate :=
  k ← ps_calls s !! i;
  P ← ps_pubs s !! call_pub k;
  match call_progress k with
  | Sending subs =>
      if decide (ch ∈ subs) then
        topic ← pub_subscribers P !! ch;
        c ← ps_chans s !! ch;
        if negb (accepts topic (call_value k)) then
          Some (with_call s i (settle k ch Filtered subs))
        else
          match how with
          | ToQueue =>
              if ch_closed c then Some (with_panic s "send on closed channel")
              else if decide (length (ch_queue c) < ch_cap c) then
                Some (with_call (with_chan s ch (push c i (call_value k))) i
                        (settle k ch Delivered subs))
              else None
          | ToReceiver =>
              if ch_closed c then Some (with_panic s "send on closed channel")
              else if decide (ch_queue c = []) then
                Some (with_call (with_chan s ch (hand c i (call_value k))) i
                        (settle k ch Delivered subs))
              else None
          | OtherCase =>
              if Z.ltb 0 (pub_timeout P) then
                (* time.After(p.timeout) *)
                Some (with_call s i (settle k ch Skipped subs))
              else
                (* the default case is taken when the send cannot proceed *)
                if ch_closed c then Some (with_panic s "send on closed channel")
                else if decide (ch_cap c ≤ length (ch_queue c)) then
                  Some (with_call s i (settle k ch Skipped subs))
                else None
          end
      else None
  | _ => None
  end.

(** A receive from the buffer of a channel by its subscriber. *)
Definition receive (ch : nat) (s : pstate) : option pstate :=
  c ← ps_chans s !! ch;
  match ch_queue c with
  | [] => None
  | v :: q =>
      Some (with_chan s ch (mkChan q (ch_cap c) (ch_closed c) (ch_owner c) (ch_topic c)
              (ch_since c) (ch_received c ++ [v]) (ch_order c) (ch_closes c)))
  end.

(** ** Steps *)

Inductive pub_label :=
| LNew (timeout : Z) (buffer : nat)
| LSubscribe (p : nat) (topic : option topicFunc)
| LPublish (p : nat) (v : V)
| LStart (i : nat)
| LSend (i ch : nat) (how : select)
| LEnd (i : nat)
| LReceive (ch : nat)
| LEvict (p ch : nat)
| LClose (p : nat).

(** One step; nothing happens after a panic. *)
Definition pub_exec (s : pstate) (l : pub_label) : option pstate :=
  match ps_panic s with
  | Some _ => None
  | None =>
      match l with
      | LNew timeout buffer => Some (NewPublisher timeout buffer s).1
      | LSubscribe p topic => fst <$> Publisher_SubscribeTopic p topic s
      | LPublish p v => Some (call_Publish p v s)
      | LStart i => Publish_start i s
      | LSend i ch how => sendTopic i ch how s
      | LEnd i => Publish_end i s
      | LReceive ch => receive ch s
      | LEvict p ch => Publisher_Evict p ch s
      | LClose p => Publisher_Close p s
      end
  end.

Fixpoint pub_run (s : pstate) (ls : list pub_label) : option pstate :=
  match ls with
  | [] => Some s
  | l :: ls => s ← pub_exec s l; pub_run s ls
  end.

(** What callers keep to: an open channel is evicted from the publisher that made it. *)
Definition label_ok (s : pstate) (l : pub_label) : Prop :=
  match l with
  | LEvict p ch =>
      ∀ c, ps_chans s !! ch = Some c → ch_closed c = false → ch_owner c = p
  | _ => True
  end.

Definition pub_step (s s' : pstate) : Prop :=
  ∃ l, label_ok s l ∧ pub_exec s l = Some s'.

End pubsub.
Arguments Chan : clear implicits.
Arguments Publisher : clear implicits.
Arguments Call : clear implicits.
Arguments pstate : clear implicits.
Arguments pub_label : clear implicits.
Arguments topicFunc : clear implicits.
