(* ===== verification/PubSubInv.v ===== *)
(** * What a publisher delivers

    The invariant of the publishers of PubSub in every interleaving: the messages a
    subscriber gets are the accepted ones, each at most once; for every call that has
    returned each subscriber of that time got the message, refused it or was skipped;
    no goroutine sends on a closed channel. *)

From S2P Require Import Prelude PubSub.

Section inv.
Context {V : Type}.
Implicit Types (s : pstate V) (c : Chan V) (k : Call V) (P : Publisher V).

(** ** The invariant *)

Definition delivered s (ch i : nat) : Prop :=
  ∃ k, ps_calls s !! i = Some k ∧ call_fates k !! ch = Some Delivered.
Definition value_of s (i : nat) (v : V) : Prop :=
  ∃ k, ps_calls s !! i = Some k ∧ call_value k = v.

Record chan_ok s (ch : nat) c : Prop := {
  cok_bound : length (ch_queue c) ≤ ch_cap c;
  cok_closes : ch_closed c = false ↔ ch_closes c = 0;
  cok_nodup : NoDup (ch_order c);
  cok_order : ∀ i, i ∈ ch_order c ↔ delivered s ch i;
  cok_values : Forall2 (value_of s) (ch_order c) (ch_received c ++ ch_queue c)
}.

Definition sub_ok s (p ch : nat) (topic : option (topicFunc V)) : Prop :=
  ∃ c, ps_chans s !! ch = Some c ∧ ch_closed c = false ∧ ch_owner c = p ∧ ch_topic c = topic.

Definition fate_ok s k (ch : nat) (f : fate) : Prop :=
  ∃ c, ps_chans s !! ch = Some c ∧ ch_owner c = call_pub k ∧
    (f = Filtered ↔ accepts (ch_topic c) (call_value k) = false).

Definition progress_ok s (i : nat) k : Prop :=
  match call_progress k with
  | Waiting => call_fates k = ∅
  | Sending subs => ∃ P, ps_pubs s !! call_pub k = Some P ∧
      subs ⊆ dom (pub_subscribers P) ∧
      ∀ ch, ch ∈ dom (pub_subscribers P) → (ch ∈ subs ↔ call_fates k !! ch = None)
  | Returned => ∀ P ch c, ps_pubs s !! call_pub k = Some P →
      ch ∈ dom (pub_subscribers P) → ps_chans s !! ch = Some c → ch_since c ≤ i →
      is_Some (call_fates k !! ch)
  end.

Record pub_inv s : Prop := {
  pi_chans : ∀ ch c, ps_chans s !! ch = Some c → chan_ok s ch c;
  pi_subs : ∀ p P ch topic, ps_pubs s !! p = Some P →
    pub_subscribers P !! ch = Some topic → sub_ok s p ch topic;
  pi_fates : ∀ i k ch f, ps_calls s !! i = Some k → call_fates k !! ch = Some f →
    fate_ok s k ch f;
  pi_progress : ∀ i k, ps_calls s !! i = Some k → progress_ok s i k;
  pi_panic : ∀ m, ps_panic s = Some m → m = "close of closed channel" ∧
    ∃ ch c, ps_chans s !! ch = Some c ∧ 2 ≤ ch_closes c
}.

Lemma no_pubs_inv : pub_inv no_pubs.
Proof. by split; intros *; rewrite ?lookup_nil. Qed.

(** ** Frames *)

(** A channel keeps what its history records about its making. *)
Definition same_make c c' : Prop :=
  ch_owner c' = ch_owner c ∧ ch_topic c' = ch_topic c ∧ ch_since c' = ch_since c.

Lemma fate_ok_frame s s' k k' ch f :
  (∀ c, ps_chans s !! ch = Some c → ∃ c', ps_chans s' !! ch = Some c' ∧ same_make c c') →
  call_pub k' = call_pub k → call_value k' = call_value k →
  fate_ok s k ch f → fate_ok s' k' ch f.
Proof.
  intros Hc Hp Hv (c & Hl & Ho & Hf). destruct (Hc c Hl) as (c' & Hl' & Ho' & Ht' & _).
  exists c'. by rewrite Ho', Ht', Hp, Hv.
Qed.

(** The calls of [s'] have the values and deliveries to [ch] of those of [s]. *)
Lemma chan_ok_frame s s' ch c :
  (∀ i, delivered s' ch i ↔ delivered s ch i) →
  (∀ i v, value_of s i v → value_of s' i v) →
  chan_ok s ch c → chan_ok s' ch c.
Proof.
  intros Hd Hv [Hb Hcl Hn Ho Hvs]. split; try done.
  - intros i. by rewrite Ho, Hd.
  - eapply Forall2_impl; [exact Hvs|]. auto.
Qed.

Lemma value_lt s i v : value_of s i v → i < length (ps_calls s).
Proof. intros (k & Hk & _). by eapply lookup_lt_Some. Qed.

(** A call that changes its progress keeps what is delivered. *)
Lemma delivered_with_call s i k k' ch j :
  ps_calls s !! i = Some k →
  (call_fates k' !! ch = Some Delivered ↔ call_fates k !! ch = Some Delivered) →
  delivered (with_call s i k') ch j ↔ delivered s ch j.
Proof.
  intros Hk Hf. unfold delivered; simpl. destruct (decide (i = j)) as [<-|Hij].
  - rewrite list_lookup_insert_eq by (by eapply lookup_lt_Some).
    split; [intros (x & [= <-] & Hd)|intros (x & Hx & Hd)].
    + exists k. by rewrite <- Hf.
    + simplify_eq. exists k'. by rewrite Hf.
  - by rewrite list_lookup_insert_ne.
Qed.

Lemma value_with_call s i k k' j v :
  ps_calls s !! i = Some k → call_value k' = call_value k →
  value_of s j v → value_of (with_call s i k') j v.
Proof.
  intros Hk Hv (x & Hx & <-). unfold value_of; simpl. destruct (decide (i = j)) as [<-|Hij].
  - rewrite list_lookup_insert_eq by (by eapply lookup_lt_Some). exists k'. naive_solver.
  - rewrite list_lookup_insert_ne by done. by exists x.
Qed.

Lemma same_make_refl c : same_make c c.
Proof. done. Qed.

Hint Resolve same_make_refl : core.

(** ** Operations that leave channels and subscribers alone *)

Lemma NewPublisher_inv s timeout buffer :
  pub_inv s → pub_inv (NewPublisher timeout buffer s).1.
Proof.
  intros [Hc Hs Hf Hp Hm]. split; simpl; try done.
  - intros ch c Hch. by apply (chan_ok_frame s), Hc.
  - intros p P ch topic [HP|[_ HP]]%lookup_app_Some Ht; [by eapply Hs|].
    apply list_lookup_singleton_Some in HP as [_ <-]. simpl in Ht. by rewrite lookup_empty in Ht.
  - intros i k Hk. specialize (Hp i k Hk). unfold progress_ok in *; simpl.
    destruct (call_progress k); [done|..].
    + destruct Hp as (P & HP & ?). exists P. split; [|done]. by apply lookup_app_l_Some.
    + intros P ch c [HP|[_ HP]]%lookup_app_Some Hd; [by eapply Hp|].
      apply list_lookup_singleton_Some in HP as [_ <-]. simpl in Hd. set_solver.
Qed.

Lemma call_Publish_inv s p v : pub_inv s → pub_inv (call_Publish p v s).
Proof.
  intros [Hc Hs Hf Hp Hm].
  assert (∀ i k, ps_calls (call_Publish p v s) !! i = Some k →
    ps_calls s !! i = Some k ∨ k = mkCall p v Waiting ∅) as Hnew.
  { intros i k [?|[_ Hk]]%lookup_app_Some; [by left|right].
    by apply list_lookup_singleton_Some in Hk as [_ <-]. }
  split; try done.
  - intros ch c Hch. eapply chan_ok_frame; [| |by apply Hc].
    + intros i. split; intros (k & Hk & Hd); exists k; split; try done.
      * by destruct (Hnew i k Hk) as [| ->].
      * by apply lookup_app_l_Some.
    + intros i w (k & Hk & Hw). exists k. split; [|done]. by apply lookup_app_l_Some.
  - intros i k ch f Hk Hd. destruct (Hnew i k Hk) as [?| ->]; [by eapply Hf|].
    simpl in Hd. by rewrite lookup_empty in Hd.
  - intros i k Hk. destruct (Hnew i k Hk) as [Hold| ->]; [exact (Hp i k Hold)|done].
Qed.

(** Changing the progress of a call. *)
Lemma set_progress_inv s i k st :
  pub_inv s → ps_calls s !! i = Some k → progress_ok s i (set_progress k st) →
  pub_inv (with_call s i (set_progress k st)).
Proof.
  intros [Hc Hs Hf Hp Hm] Hk Hst.
  assert (∀ j x, ps_calls (with_call s i (set_progress k st)) !! j = Some x →
    (j = i ∧ x = set_progress k st) ∨ ps_calls s !! j = Some x) as Hnew.
  { intros j x [(-> & <- & _)|[_ ?]]%list_lookup_insert_Some; auto. }
  split; try done.
  - intros ch c Hch. eapply chan_ok_frame; [| |by apply Hc].
    + intros j. by eapply delivered_with_call.
    + intros j w. by eapply value_with_call.
  - intros j x ch f Hx Hd. destruct (Hnew j x Hx) as [[-> ->]|Hold]; [|by eapply Hf].
    exact (Hf i k ch f Hk Hd).
  - intros j x Hx. destruct (Hnew j x Hx) as [[-> ->]|Hold]; [done|]. exact (Hp j x Hold).
Qed.

Lemma Publish_start_inv s s' i : pub_inv s → Publish_start i s = Some s' → pub_inv s'.
Proof.
  intros Hinv (k & Hk & (P & HP & Hst)%bind_Some)%bind_Some.
  destruct (call_progress k) eqn:Hpr; try done. injection Hst as <-.
  pose proof (pi_progress s Hinv i k Hk) as Hw. unfold progress_ok in Hw. rewrite Hpr in Hw.
  apply set_progress_inv; [done..|]. unfold progress_ok; simpl. case_decide as Hlen.
  - apply map_size_empty_inv in Hlen. intros P' ch c HP' Hd. simplify_eq.
    rewrite Hlen in Hd. set_solver.
  - exists P. split; [done|]. split; [done|]. intros ch Hd. by rewrite Hw, lookup_empty.
Qed.

Lemma Publish_end_inv s s' i : pub_inv s → Publish_end i s = Some s' → pub_inv s'.
Proof.
  intros Hinv (k & Hk & Hst)%bind_Some.
  destruct (call_progress k) as [|subs|] eqn:Hpr; try done. case_decide as Hsubs; [|done].
  injection Hst as <-. subst subs.
  pose proof (pi_progress s Hinv i k Hk) as Hw. unfold progress_ok in Hw. rewrite Hpr in Hw.
  destruct Hw as (P & HP & _ & Hd). apply set_progress_inv; [done..|].
  unfold progress_ok; simpl. intros P' ch c HP' Hch _ _. simplify_eq.
  apply not_eq_None_Some. rewrite <- Hd by done. set_solver.
Qed.

(** ** Subscribing *)

Lemma write_lock_free_spec s p i k subs :
  write_lock_free s p = true → ps_calls s !! i = Some k →
  call_progress k = Sending subs → call_pub k ≠ p.
Proof.
  unfold write_lock_free. rewrite forallb_forall. intros Hall Hk Hpr <-.
  specialize (Hall k). rewrite <- list_elem_of_In in Hall.
  specialize (Hall (list_elem_of_lookup_2 _ _ _ Hk)).
  unfold sends_on in Hall. by rewrite bool_decide_eq_true_2, Hpr in Hall.
Qed.

(** A fate is recorded for channels that exist. *)
Lemma delivered_lt s ch i : pub_inv s → delivered s ch i → ch < length (ps_chans s).
Proof.
  intros Hinv (k & Hk & Hd). destruct (pi_fates s Hinv i k ch _ Hk Hd) as (c & Hc & _).
  by eapply lookup_lt_Some.
Qed.

(** Replacing the subscribers of a publisher on which no call sends. *)
Lemma progress_subscribers s s' p P m :
  pub_inv s → write_lock_free s p = true → ps_pubs s !! p = Some P →
  ps_calls s' = ps_calls s →
  ps_pubs s' = <[p := with_subscribers P m]> (ps_pubs s) →
  (∀ ch c', ch ∈ dom m → ps_chans s' !! ch = Some c' →
    length (ps_calls s) ≤ ch_since c' ∨
    ch ∈ dom (pub_subscribers P) ∧
    ∃ c, ps_chans s !! ch = Some c ∧ ch_since c = ch_since c') →
  (∀ ch c', ps_chans s' !! ch = Some c' → ch < length (ps_chans s) →
    ∃ c, ps_chans s !! ch = Some c ∧ ch_since c = ch_since c') →
  ∀ i k, ps_calls s' !! i = Some k → progress_ok s' i k.
Proof.
  intros Hinv Hw HP Hcalls Hpubs Hm Hold i k Hk. rewrite Hcalls in Hk.
  pose proof (pi_progress s Hinv i k Hk) as Hp. unfold progress_ok in *.
  destruct (call_progress k) as [|subs|] eqn:Hpr; [done|..].
  - pose proof (write_lock_free_spec s p i k subs Hw Hk Hpr) as Hne.
    rewrite Hpubs. by rewrite list_lookup_insert_ne by done.
  - intros P' ch c'. rewrite Hpubs.
    intros [(Heq & <- & _)|[Hne HP']]%list_lookup_insert_Some Hd Hc Hsince; simpl in Hd.
    + destruct (Hm ch c' Hd Hc) as [Hlong|(Hin & c & Hco & Hs)].
      * apply lookup_lt_Some in Hk. lia.
      * apply (Hp P ch c); [by rewrite <- Heq|done..|lia].
    + destruct (proj1 (elem_of_dom _ _) Hd) as [topic Ht].
      destruct (pi_subs s Hinv _ _ _ _ HP' Ht) as (c & Hcs & _).
      destruct (Hold ch c' Hc) as (c2 & Hc2 & Hs); [by eapply lookup_lt_Some|].
      apply (Hp P' ch c2); [done..|]. lia.
Qed.

Lemma Subscribe_inv s s' p topic ch :
  pub_inv s → Publisher_SubscribeTopic p topic s = Some (s', ch) → pub_inv s'.
Proof.
  intros Hinv (P & HP & Hst)%bind_Some. destruct (write_lock_free s p) eqn:Hw; [|done].
  set (c0 := make_chan P p topic s) in *. injection Hst as <- <-.
  pose proof Hinv as [Hc Hs Hf Hp Hm].
  split.
  - simpl. intros ch c [Hch|[Hge Hch]]%lookup_app_Some; [by apply (chan_ok_frame s), Hc|].
    apply list_lookup_singleton_Some in Hch as [Hch <-].
    split; simpl; [lia|done|constructor| |constructor].
    intros i. split; [by intros ?%elem_of_nil|].
    intros Hd. apply (delivered_lt s ch i Hinv) in Hd. lia.
  - simpl. intros p' P' ch topic' [(<- & <- & _)|[Hne HP']]%list_lookup_insert_Some Ht; simpl in *.
    + apply lookup_insert_Some in Ht as [[<- <-]|[_ Ht]].
      * exists c0. split; [by apply list_lookup_middle|done].
      * destruct (Hs p P ch topic' HP Ht) as (c & Hch & Hrest). exists c.
        split; [by apply lookup_app_l_Some|done].
    + destruct (Hs p' P' ch topic' HP' Ht) as (c & Hch & Hrest). exists c.
      split; [by apply lookup_app_l_Some|done].
  - simpl. intros i k ch f Hk Hd. eapply fate_ok_frame, (Hf i k); [|done..].
    intros c Hch. exists c. split; [by apply lookup_app_l_Some|done].
  - eapply (progress_subscribers s _ p P (<[length (ps_chans s) := topic]> (pub_subscribers P)));
      [done..| |]; simpl.
    + intros ch c' Hd [Hch|[_ Hch]]%lookup_app_Some.
      * right. rewrite dom_insert, elem_of_union, elem_of_singleton in Hd.
        split; [|by exists c']. destruct Hd as [-> |Hd]; [|done].
        apply lookup_lt_Some in Hch. lia.
      * apply list_lookup_singleton_Some in Hch as [_ <-]. by left.
    + intros ch c' [Hch|[Hge _]]%lookup_app_Some Hlt; [by exists c'|lia].
  - simpl. intros m Hmm. destruct (Hm m Hmm) as (-> & ch & c & Hch & Hcl).
    split; [done|]. exists ch, c. split; [by apply lookup_app_l_Some|done].
Qed.

(** ** Evicting and closing *)

Lemma drop_subscriber_inv s s' p sub :
  pub_inv s → ps_panic s = None → write_lock_free s p = true → label_ok s (LEvict p sub) →
  drop_subscriber p sub s = Some s' →
  pub_inv s' ∧ ps_calls s' = ps_calls s ∧
  ∀ ch c', ps_chans s' !! ch = Some c' → ∃ c, ps_chans s !! ch = Some c ∧ same_make c c'.
Proof.
  intros Hinv Hnp Hw Hok (P & HP & (c & Hc & [= <-])%bind_Some)%bind_Some; simpl in Hc.
  set (c0 := mkChan _ _ true _ _ _ _ _ _).
  pose proof Hinv as [Hcs Hs Hf Hp _]. pose proof (Hcs sub c Hc) as Hcok.
  assert (sub < length (ps_chans s)) as Hlt by (by eapply lookup_lt_Some).
  assert (∀ ch c', <[sub := c0]> (ps_chans s) !! ch = Some c' →
    ∃ c, ps_chans s !! ch = Some c ∧ same_make c c') as Hback.
  { intros ch c' [(<- & <- & _)|[_ ?]]%list_lookup_insert_Some; eauto. by exists c. }
  assert (∀ ch c, ps_chans s !! ch = Some c →
    ∃ c', <[sub := c0]> (ps_chans s) !! ch = Some c' ∧ same_make c c') as Hforth.
  { intros ch x Hx. destruct (decide (sub = ch)) as [<-|Hne].
    - exists c0. rewrite list_lookup_insert_eq by done. by simplify_eq.
    - exists x. by rewrite list_lookup_insert_ne. }
  split; [|by destruct (ch_closed c)]. split.
  - intros ch x. destruct (ch_closed c); simpl;
      (intros [(<- & <- & _)|[_ Hx]]%list_lookup_insert_Some;
       [|by apply (chan_ok_frame s), Hcs]);
      (apply (chan_ok_frame s); [done..|]; destruct Hcok; by split).
  - intros p' P' ch topic HP' Ht.
    assert (sub_ok s p' ch topic ∧ ch ≠ sub) as [(x & Hx & Ho & Hp' & Ht') Hne].
    { assert (<[p := with_subscribers P (delete sub (pub_subscribers P))]> (ps_pubs s) !! p'
        = Some P') as HP2 by (by destruct (ch_closed c)).
      apply list_lookup_insert_Some in HP2 as [(<- & <- & _)|[Hne HP2]]; simpl in Ht.
      - apply lookup_delete_Some in Ht as [Hne Ht]. split; [by eapply Hs|done].
      - pose proof (Hs p' P' ch topic HP2 Ht) as Hsub. split; [done|]. intros ->.
        destruct Hsub as (x & Hx & Ho & Hown & _). simplify_eq.
        apply Hne. symmetry. by apply Hok. }
    exists x. split; [|done].
    destruct (ch_closed c); simpl; by rewrite list_lookup_insert_ne.
  - intros i k ch f Hk Hd. apply (fate_ok_frame s _ k k); [|done..|].
    + intros x Hx. destruct (Hforth ch x Hx) as (c' & Hc' & ?). exists c'.
      split; [|done]. by destruct (ch_closed c).
    + apply (Hf i); [|done]. by destruct (ch_closed c).
  - eapply (progress_subscribers s _ p P (delete sub (pub_subscribers P))); try done.
    + by destruct (ch_closed c).
    + by destruct (ch_closed c).
    + intros ch c' Hd Hc'. right. split; [set_solver|].
      destruct (Hback ch c') as (x & Hx & _ & _ & Hsi); [by destruct (ch_closed c)|]. eauto.
    + intros ch c' Hc' _.
      destruct (Hback ch c') as (x & Hx & _ & _ & Hsi); [by destruct (ch_closed c)|]. eauto.
  - destruct (ch_closed c) eqn:Hcl; simpl; [|by rewrite Hnp]. intros m [= <-].
    split; [done|]. exists sub, c0. rewrite list_lookup_insert_eq by done.
    split; [done|]. simpl. destruct (ch_closes c) eqn:Hz; [|lia].
    apply (cok_closes s sub c Hcok) in Hz. by rewrite Hz in Hcl.
Qed.

Lemma Evict_inv s s' p sub :
  pub_inv s → ps_panic s = None → label_ok s (LEvict p sub) →
  Publisher_Evict p sub s = Some s' → pub_inv s'.
Proof.
  unfold Publisher_Evict. intros Hinv Hnp Hok Hst.
  destruct (write_lock_free s p) eqn:Hw; [|done].
  by destruct (drop_subscriber_inv s s' p sub Hinv Hnp Hw Hok Hst).
Qed.

Lemma close_loop_inv p subs s s' :
  pub_inv s → ps_panic s = None → write_lock_free s p = true →
  (∀ sub c, sub ∈ subs → ps_chans s !! sub = Some c → ch_owner c = p) →
  close_loop p subs s = Some s' → pub_inv s'.
Proof.
  revert s. induction subs as [|sub subs IH]; intros s Hinv Hnp Hw Hown; simpl;
    [by intros [= <-]|]. intros (s1 & H1 & Hst)%bind_Some.
  destruct (drop_subscriber_inv s s1 p sub) as (Hinv1 & Hcalls & Hch); try done.
  { intros c Hc _. apply (Hown sub); [set_solver|done]. }
  destruct (ps_panic s1) eqn:Hp1; [by simplify_eq|].
  apply (IH s1); try done.
  - unfold write_lock_free. by rewrite Hcalls.
  - intros x c Hx Hc. destruct (Hch x c Hc) as (c0 & Hc0 & Ho & _). rewrite Ho.
    apply (Hown x); [set_solver|done].
Qed.

Lemma Close_inv s s' p :
  pub_inv s → ps_panic s = None → Publisher_Close p s = Some s' → pub_inv s'.
Proof.
  intros Hinv Hnp (P & HP & Hst)%bind_Some. destruct (write_lock_free s p) eqn:Hw; [|done].
  eapply (close_loop_inv p _ s s'); [done..| |exact Hst]. intros sub c Hsub Hc.
  apply list_elem_of_fmap in Hsub as ([x topic] & -> & Hx%elem_of_map_to_list).
  destruct (pi_subs s Hinv p P x topic HP Hx) as (c' & Hc' & _ & Ho & _).
  simpl in Hc. congruence.
Qed.

(** ** Sending and receiving *)

Section send.
Context (s : pstate V) (i ch : nat) (k : Call V) (c c' : Chan V) (subs : gset nat).
Context (Hinv : pub_inv s) (Hk : ps_calls s !! i = Some k).
Context (Hpr : call_progress k = Sending subs) (Hch : ch ∈ subs).
Context (Hc : ps_chans s !! ch = Some c).
Context (f : fate).

Let s' : pstate V := with_call (with_chan s ch c') i (settle k ch f subs).

Lemma sending_progress : ∃ P, ps_pubs s !! call_pub k = Some P ∧
  subs ⊆ dom (pub_subscribers P) ∧
  ∀ x, x ∈ dom (pub_subscribers P) → (x ∈ subs ↔ call_fates k !! x = None).
Proof using Hinv Hk Hpr.
  pose proof (pi_progress s Hinv i k Hk) as Hp. unfold progress_ok in Hp. by rewrite Hpr in Hp.
Qed.

Lemma sending_unsettled : call_fates k !! ch = None.
Proof using Hinv Hk Hpr Hch.
  destruct sending_progress as (P & _ & Hsub & Hd). apply Hd; auto.
Qed.

Lemma sending_registered : ∃ P, ps_pubs s !! call_pub k = Some P ∧
  pub_subscribers P !! ch = Some (ch_topic c) ∧ ch_owner c = call_pub k ∧
  ch_closed c = false.
Proof using Hinv Hk Hpr Hch Hc.
  destruct sending_progress as (P & HP & Hsub & _). exists P.
  destruct (proj1 (elem_of_dom _ _) (Hsub ch Hch)) as [topic Ht].
  destruct (pi_subs s Hinv _ P ch topic HP Ht) as (d & Hd & Ho & Hcl & Htp).
  by simplify_eq.
Qed.

Lemma sent_delivered ch2 j :
  delivered s' ch2 j ↔ delivered s ch2 j ∨ (f = Delivered ∧ ch2 = ch ∧ j = i).
Proof using Hinv Hk Hpr Hch.
  pose proof sending_unsettled as Hn. unfold delivered; simpl.
  destruct (decide (i = j)) as [<-|Hij].
  - rewrite list_lookup_insert_eq by (by eapply lookup_lt_Some). split.
    + intros (x & [= <-] & Hd). simpl in Hd.
      apply lookup_insert_Some in Hd as [[<- ->]|[_ Hd]]; [by right|left; by exists k].
    + intros [(x & Hx & Hd)|(-> & -> & _)].
      * simplify_eq. eexists. split; [done|]. simpl. rewrite lookup_insert_ne; [done|].
        intros <-. by rewrite Hn in Hd.
      * eexists. split; [done|]. simpl. by rewrite lookup_insert_eq.
  - rewrite list_lookup_insert_ne by done. split; [by left|]. intros [?|(_ & _ & ->)]; done.
Qed.

Lemma sent_value j v : value_of s j v → value_of s' j v.
Proof using Hk. intros Hv. by apply (value_with_call (with_chan s ch c') i k). Qed.

Lemma sent_inv :
  same_make c c' → ch_closed c' = ch_closed c → ch_closes c' = ch_closes c →
  chan_ok s' ch c' →
  (f = Filtered ↔ accepts (ch_topic c) (call_value k) = false) →
  pub_inv s'.
Proof using Hinv Hk Hpr Hch Hc.
  intros Hmake Hcl Hcls Hok Hf. pose proof Hinv as [Hcs Hs Hfs Hp Hm].
  assert (ch < length (ps_chans s)) as Hlt by (by eapply lookup_lt_Some).
  assert (∀ x d, ps_chans s !! x = Some d →
    ∃ d', ps_chans s' !! x = Some d' ∧ same_make d d' ∧ ch_closed d' = ch_closed d)
    as Hforth.
  { intros x d Hx. unfold s'; simpl. destruct (decide (ch = x)) as [<-|Hne].
    - exists c'. rewrite list_lookup_insert_eq by done. by simplify_eq.
    - exists d. by rewrite list_lookup_insert_ne. }
  assert (∀ j x, ps_calls s' !! j = Some x →
    (j = i ∧ x = settle k ch f subs) ∨ ps_calls s !! j = Some x) as Hnew.
  { intros j x [(-> & <- & _)|[_ ?]]%list_lookup_insert_Some; auto. }
  split.
  - intros x d [(<- & <- & _)|[Hne Hx]]%list_lookup_insert_Some; [done|].
    apply (chan_ok_frame s); [|apply sent_value|by apply Hcs].
    intros j. rewrite sent_delivered. split; [|by left]. by intros [|(_ & -> & _)].
  - intros p P x topic HP Ht. destruct (Hs p P x topic HP Ht) as (d & Hd & Hcl' & Ho & Htp).
    destruct (Hforth x d Hd) as (d' & Hd' & (Ho' & Ht' & _) & Hc'). exists d'.
    by rewrite Hc', Ho', Ht'.
  - intros j x ch2 f2 Hx Hd.
    assert (∀ k2, call_pub x = call_pub k2 → call_value x = call_value k2 →
      fate_ok s k2 ch2 f2 → fate_ok s' x ch2 f2) as Hframe.
    { intros k2 Hpub Hval. apply fate_ok_frame; [|done..]. intros d Hdd.
      destruct (Hforth ch2 d Hdd) as (d' & ? & ? & _). eauto. }
    destruct (Hnew j x Hx) as [[-> ->]|Hold]; [|by apply (Hframe x), (Hfs j x)].
    apply (Hframe k); [done..|]. simpl in Hd.
    apply lookup_insert_Some in Hd as [[<- <-]|[_ Hd]]; [|by apply (Hfs i k)].
    exists c. split; [done|]. split; [|done]. by destruct sending_registered as (P & _ & _ & -> & _).
  - intros j x Hx. destruct (Hnew j x Hx) as [[-> ->]|Hold].
    + destruct sending_progress as (P & HP & Hsub & Hd). exists P. split; [done|].
      split; [set_solver|]. simpl. intros ch2 Hch2. rewrite elem_of_difference, Hd by done.
      rewrite lookup_insert_None, elem_of_singleton. naive_solver.
    + pose proof (Hp j x Hold) as Hpx. unfold progress_ok in *.
      destruct (call_progress x); [done..|]. intros P ch2 d' HP Hch2 Hd' Hle.
      apply list_lookup_insert_Some in Hd' as [(<- & <- & _)|[_ Hd']]; [|by eapply Hpx].
      apply (Hpx P ch c); try done. by destruct Hmake as (_ & _ & <-).
  - intros m Hmm. destruct (Hm m Hmm) as (-> & x & d & Hx & Hcl2). split; [done|].
    destruct (decide (x = ch)) as [-> |Hne].
    + exists ch, c'. unfold s'; simpl. rewrite list_lookup_insert_eq, Hcls by done.
      by simplify_eq.
    + exists x, d. unfold s'; simpl. by rewrite list_lookup_insert_ne.
Qed.
End send.

Lemma with_chan_id s ch c : ps_chans s !! ch = Some c → with_chan s ch c = s.
Proof. intros Hc. unfold with_chan. rewrite list_insert_id by done. by destruct s. Qed.

(** A message that is not delivered. *)
Lemma refused_inv s i ch k c subs f :
  pub_inv s → ps_calls s !! i = Some k → call_progress k = Sending subs → ch ∈ subs →
  ps_chans s !! ch = Some c → f ≠ Delivered →
  (f = Filtered ↔ accepts (ch_topic c) (call_value k) = false) →
  pub_inv (with_call s i (settle k ch f subs)).
Proof.
  intros Hinv Hk Hpr Hch Hc Hf Hacc. rewrite <- (with_chan_id s ch c Hc).
  eapply sent_inv; try done. apply (chan_ok_frame s); [| |by eapply pi_chans].
  - intros j. rewrite sent_delivered by done. naive_solver.
  - intros j v. by apply sent_value.
Qed.

(** A message that is delivered. *)
Lemma delivered_inv s i ch k c c' subs :
  pub_inv s → ps_calls s !! i = Some k → call_progress k = Sending subs → ch ∈ subs →
  ps_chans s !! ch = Some c → accepts (ch_topic c) (call_value k) = true →
  same_make c c' → ch_closed c' = ch_closed c → ch_closes c' = ch_closes c →
  length (ch_queue c') ≤ ch_cap c' → ch_order c' = ch_order c ++ [i] →
  ch_received c' ++ ch_queue c' = (ch_received c ++ ch_queue c) ++ [call_value k] →
  pub_inv (with_call (with_chan s ch c') i (settle k ch Delivered subs)).
Proof.
  intros Hinv Hk Hpr Hch Hc Hacc Hmake Hcl Hcls Hb Ho Hv.
  eapply sent_inv; try done; [|by rewrite Hacc].
  pose proof (pi_chans s Hinv ch c Hc) as [_ Hcl0 Hn Hord Hvs].
  split; rewrite ?Hcl, ?Hcls, ?Ho, ?Hv; try done.
  - apply NoDup_app. split; [done|]. split; [|apply NoDup_singleton].
    intros j Hj%Hord. rewrite list_elem_of_singleton. intros ->. destruct Hj as (x & Hx & Hd).
    simplify_eq. by rewrite (sending_unsettled s i ch k subs) in Hd.
  - intros j. rewrite elem_of_app, Hord, list_elem_of_singleton, sent_delivered by done.
    naive_solver.
  - apply Forall2_app.
    + eapply Forall2_impl; [exact Hvs|]. intros j v. by apply sent_value.
    + constructor; [|constructor]. by apply sent_value; [done|]; exists k.
Qed.

Lemma sendTopic_inv s s' i ch how :
  pub_inv s → sendTopic i ch how s = Some s' → pub_inv s'.
Proof.
  intros Hinv (k & Hk & (P & HP & Hst)%bind_Some)%bind_Some.
  destruct (call_progress k) as [|subs|] eqn:Hpr; try done.
  case_decide as Hch; [|done].
  apply bind_Some in Hst as (topic & Ht & (c & Hc & Hst)%bind_Some).
  destruct (sending_registered s i ch k c subs) as (P' & HP' & Ht' & Hown & Hcl); try done.
  simplify_eq. destruct (accepts (ch_topic c) (call_value k)) eqn:Hacc; simpl in Hst.
  2:{ simplify_eq. by apply (refused_inv s i ch k c). }
  rewrite Hcl in Hst. destruct how; repeat case_match; simplify_eq.
  - apply (delivered_inv s i ch k c); try done; simpl.
    + rewrite length_app; simpl; lia.
    + by rewrite app_assoc.
  - apply (delivered_inv s i ch k c); try done; simpl.
    + by eapply cok_bound, pi_chans.
    + by rewrite e, !app_nil_r.
  - apply (refused_inv s i ch k c); try done. by rewrite Hacc.
  - apply (refused_inv s i ch k c); try done. by rewrite Hacc.
Qed.

Lemma receive_inv s s' ch : pub_inv s → receive ch s = Some s' → pub_inv s'.
Proof.
  intros Hinv (c & Hc & Hst)%bind_Some. destruct (ch_queue c) as [|v q] eqn:Hq; [done|].
  injection Hst as <-. pose proof Hinv as [Hcs Hs Hf Hp Hm].
  set (c' := mkChan q _ _ _ _ _ _ _ _).
  assert (ch < length (ps_chans s)) as Hlt by (by eapply lookup_lt_Some).
  assert (∀ x d, ps_chans s !! x = Some d → ∃ d', ps_chans (with_chan s ch c') !! x = Some d' ∧
    same_make d d' ∧ ch_closed d' = ch_closed d ∧ ch_closes d' = ch_closes d) as Hforth.
  { intros x d Hx. simpl. destruct (decide (ch = x)) as [<-|Hne].
    - exists c'. rewrite list_lookup_insert_eq by done. by simplify_eq.
    - exists d. by rewrite list_lookup_insert_ne. }
  split.
  - intros x d [(<- & <- & _)|[Hne Hx]]%list_lookup_insert_Some; [|by apply (chan_ok_frame s), Hcs].
    pose proof (Hcs ch c Hc) as [Hb Hcl Hn Ho Hvs]. rewrite Hq in Hb, Hvs. simpl in Hb.
    split; simpl; try done; [lia|]. by rewrite <- app_assoc.
  - intros p P x topic HP Ht. destruct (Hs p P x topic HP Ht) as (d & Hd & Hcl & Ho & Htp).
    destruct (Hforth x d Hd) as (d' & Hd' & (Ho' & Ht' & _) & Hc' & _). exists d'.
    by rewrite Hc', Ho', Ht'.
  - intros j k x f Hk Hd. eapply fate_ok_frame, (Hf j k); [|done..]. intros d Hdd.
    destruct (Hforth x d Hdd) as (d' & ? & ? & _). eauto.
  - intros j k Hk. pose proof (Hp j k Hk) as Hpk. unfold progress_ok in *.
    destruct (call_progress k); [done..|]. intros P x d HP Hx Hd Hle.
    apply list_lookup_insert_Some in Hd as [(<- & <- & _)|[_ Hd]]; [|by eapply Hpk].
    by apply (Hpk P ch c).
  - intros m Hmm. destruct (Hm m Hmm) as (-> & x & d & Hx & Hcl). split; [done|].
    destruct (Hforth x d Hx) as (d' & Hd' & _ & _ & Heq). exists x, d'. by rewrite Heq.
Qed.

Lemma pub_exec_inv s s' l :
  pub_inv s → label_ok s l → pub_exec s l = Some s' → pub_inv s'.
Proof.
  intros Hinv Hok. unfold pub_exec. destruct (ps_panic s) eqn:Hnp; [done|].
  destruct l; simpl; intros Hst.
  - injection Hst as <-. by apply NewPublisher_inv.
  - apply fmap_Some in Hst as ([s1 ch] & Hst & ->). by eapply Subscribe_inv.
  - injection Hst as <-. by apply call_Publish_inv.
  - by eapply Publish_start_inv.
  - by eapply sendTopic_inv.
  - by eapply Publish_end_inv.
  - by eapply receive_inv.
  - by eapply Evict_inv.
  - by eapply Close_inv.
Qed.

Lemma pub_steps_inv s : rtc pub_step no_pubs s → pub_inv s.
Proof.
  apply (rtc_invariant pub_step pub_inv); [|apply no_pubs_inv].
  intros s0 s1 Hinv (l & Hok & Hst). by eapply pub_exec_inv.
Qed.

(** ** Publish returns *)

(** Whatever its subscriber does, a goroutine of a call can end. *)
Lemma send_enabled s i ch k subs :
  pub_inv s → ps_panic s = None → ps_calls s !! i = Some k →
  call_progress k = Sending subs → ch ∈ subs →
  ∃ how s' f, sendTopic i ch how s = Some s' ∧ ps_panic s' = None ∧
    ps_calls s' !! i = Some (settle k ch f subs).
Proof.
  intros Hinv Hnp Hk Hpr Hch.
  destruct (sending_progress s i k subs) as (P & HP & Hsub & _); try done.
  destruct (proj1 (elem_of_dom _ _) (Hsub ch Hch)) as [topic Ht].
  destruct (pi_subs s Hinv _ P ch topic HP Ht) as (c & Hc & Hcl & _ & _).
  assert (∀ d f, ps_calls (with_call (with_chan s ch d) i (settle k ch f subs)) !! i =
    Some (settle k ch f subs)) as Hget.
  { intros d f. simpl. apply list_lookup_insert_eq. by eapply lookup_lt_Some. }
  assert (∀ how, sendTopic i ch how s =
    if negb (accepts topic (call_value k)) then Some (with_call s i (settle k ch Filtered subs))
    else sendTopic i ch how s) as Hrej.
  { intros how. destruct (accepts _ _) eqn:Hacc; [done|]. unfold sendTopic.
    rewrite Hk; simpl. rewrite HP; simpl. rewrite Hpr, decide_True by done.
    rewrite Ht; simpl. rewrite Hc; simpl. by rewrite Hacc. }
  destruct (accepts topic (call_value k)) eqn:Hacc; simpl in Hrej.
  2:{ exists OtherCase. eexists _, Filtered. rewrite Hrej. split; [done|]. split; [done|].
      apply (Hget c). }
  clear Hrej. set (how := if decide (Z.ltb 0 (pub_timeout P) = false ∧
    length (ch_queue c) < ch_cap c) then ToQueue else OtherCase).
  exists how. unfold sendTopic. rewrite Hk; simpl. rewrite HP; simpl.
  rewrite Hpr, decide_True by done. rewrite Ht; simpl. rewrite Hc; simpl. rewrite Hacc; simpl.
  subst how. case_decide as Hq.
  - destruct Hq as [_ Hq]. rewrite Hcl, decide_True by done. by eexists _, Delivered.
  - exists (with_call s i (settle k ch Skipped subs)), Skipped.
    split; [|split; [done|apply (Hget c)]].
    destruct (Z.ltb 0 _); [done|]. rewrite Hcl, decide_True; [done|].
    destruct (decide (length (ch_queue c) < ch_cap c)); [naive_solver|lia].
Qed.

(** The steps of call [i] under the lock. *)
Definition own_step (i : nat) (l : pub_label V) : Prop :=
  match l with LSend j _ _ => j = i | LEnd j => j = i | _ => False end.

Lemma Publish_can_return s i k subs :
  pub_inv s → ps_panic s = None → ps_calls s !! i = Some k →
  call_progress k = Sending subs →
  ∃ ls s' k', Forall (own_step i) ls ∧ length ls = S (size subs) ∧
    pub_run s ls = Some s' ∧ ps_calls s' !! i = Some k' ∧ call_progress k' = Returned.
Proof.
  remember (size subs) as n eqn:Hn. revert s k subs Hn.
  induction n as [|n IH]; intros s k subs Hn Hinv Hnp Hk Hpr.
  - symmetry in Hn. apply size_empty_inv in Hn. apply leibniz_equiv in Hn. subst subs.
    exists [LEnd i], (with_call s i (set_progress k Returned)), (set_progress k Returned).
    split; [by repeat constructor|]. split; [done|]. split; [|split; [|done]].
    + simpl. unfold pub_exec. rewrite Hnp. unfold Publish_end. rewrite Hk; simpl.
      by rewrite Hpr, decide_True.
    + simpl. apply list_lookup_insert_eq. by eapply lookup_lt_Some.
  - destruct (size_pos_elem_of subs) as [ch Hch]; [lia|].
    destruct (send_enabled s i ch k subs) as (how & s1 & f & Hst & Hnp1 & Hk1); try done.
    destruct (IH s1 (settle k ch f subs) (subs ∖ {[ch]})) as (ls & s' & k' & Hls & Hlen & Hrun & H');
      try done.
    { rewrite size_difference by set_solver. rewrite size_singleton. lia. }
    { by apply (sendTopic_inv s s1 i ch how). }
    exists (LSend i ch how :: ls), s', k'. split; [by constructor|].
    split; [simpl; by rewrite Hlen|]. split; [|done].
    simpl. unfold pub_exec at 1. rewrite Hnp, Hst. done.
Qed.

(** C36: Publish always returns: in every reachable state without a panic, a call that
    holds the read lock gets rid of its goroutines and of the lock by one step of its
    own for each remaining subscriber and one more, although no subscriber receives
    anything meanwhile; so it never blocks the subscriptions that wait for the lock. *)
Theorem Publish_returns s i k subs :
  rtc pub_step no_pubs s → ps_panic s = None →
  ps_calls s !! i = Some k → call_progress k = Sending subs →
  ∃ ls s' k', Forall (own_step i) ls ∧ length ls = S (size subs) ∧
    pub_run s ls = Some s' ∧ ps_calls s' !! i = Some k' ∧ call_progress k' = Returned.
Proof. intros Hr. by apply Publish_can_return, pub_steps_inv. Qed.
End inv.
