(* ===== verification/Events.v ===== *)
(** * Events of the daemon

    Model of daemon/events/events.go and filter.go, of the actors that
    daemon/events.go makes, and of the filter arguments of the engine API that they
    use (filters.Args).  The service keeps the last 64 events in a slice and hands new
    ones to subscribers through a publisher of PubSub.  [events_exec] is one step of
    the service and of the goroutines around it.  A call of Log appends its event
    under the mutex of the service and then calls Publish, which waits for the lock of
    the publisher; subscribing holds the mutex until the channel is registered. *)

From S2P Require Import Prelude GoStrings RefStore PubSub.

(** ** Filter arguments *)

Abbreviation Args := (gmap string (gmap string bool)).

Definition Args_Len (a : Args) : nat := size a.
Definition Args_Include (a : Args) (field : string) : bool :=
  bool_decide (is_Some (a !! field)).

Definition ExactMatch (a : Args) (field source : string) : bool :=
  match a !! field with
  | None => true
  | Some values =>
      if decide (size values = 0) then true else default false (values !! source)
  end.

Definition FuzzyMatch (a : Args) (field source : string) : bool :=
  ExactMatch a field source ||
  existsb (λ kv : string * bool, HasPrefix source kv.1)
    (map_to_list (default ∅ (a !! field))).

(** One value of a field against the sources. *)
Definition match_kv (sources : gmap string string) (name2match : string) : bool :=
  match cut_at "=" name2match with
  | None => bool_decide (is_Some (sources !! name2match))
  | Some (key, want) => bool_decide (sources !! key = Some want)
  end.

Definition MatchKVList (a : Args) (field : string) (sources : gmap string string) : bool :=
  let values := default ∅ (a !! field) in
  if decide (size values = 0) then true
  else if decide (size sources = 0) then false
  else forallb (λ kv : string * bool, match_kv sources kv.1) (map_to_list values).

(** ** Messages *)

Record Actor := mkActor { ac_ID : string; ac_Attributes : gmap string string }.

Record Message := mkMessage {
  m_Status : string;
  m_ID : string;
  m_From : string;
  m_Type : string;
  m_Action : string;
  m_Actor : Actor;
  m_Time : Z;
  m_TimeNano : Z
}.

#[global] Instance Actor_eq_dec : EqDecision Actor.
Proof. solve_decision. Defined.
#[global] Instance Message_eq_dec : EqDecision Message.
Proof. solve_decision. Defined.

Definition ContainerEventType : string := "container".
Definition DaemonEventType : string := "daemon".
Definition ImageEventType : string := "image".
Definition NetworkEventType : string := "network".
Definition PluginEventType : string := "plugin".
Definition VolumeEventType : string := "volume".

(** The value of a key that may be missing. *)
Definition attribute (attributes : gmap string string) (k : string) : string :=
  default "" (attributes !! k).

(** ** Times

    A time is the number of nanoseconds since the start of 1970; the zero value of
    [time.Time] is the start of the year 1. *)
Abbreviation Time := Z.

Definition zeroTime : Time := (-62135596800 * 10^9)%Z.
Definition IsZero (t : Time) : bool := bool_decide (t = zeroTime).
Definition Unix (t : Time) : Z := (t / 10^9)%Z.
Definition UnixNano (t : Time) : Z := wrap64 t.

(** ** Filters (filter.go) *)

Section filter.
Context `{refext : RefExt}.
Implicit Types (ef : Args) (ev : Message).

Definition stripTag (image : string) : string :=
  match ParseNamed image with
  | Ok ref => Named_Name ref
  | _ => image
  end.

Definition fuzzyMatchName ef ev (eventType : string) : bool :=
  FuzzyMatch ef eventType (ac_ID (m_Actor ev)) ||
  FuzzyMatch ef eventType (attribute (ac_Attributes (m_Actor ev)) "name").

Definition matchDaemon ef ev : bool := fuzzyMatchName ef ev DaemonEventType.
Definition matchContainer ef ev : bool := fuzzyMatchName ef ev ContainerEventType.
Definition matchPlugin ef ev : bool := fuzzyMatchName ef ev PluginEventType.
Definition matchVolume ef ev : bool := fuzzyMatchName ef ev VolumeEventType.
Definition matchNetwork ef ev : bool := fuzzyMatchName ef ev NetworkEventType.

Definition matchImage ef ev : bool :=
  let id := ac_ID (m_Actor ev) in
  let nameAttr := if decide (m_Type ev = ImageEventType) then "name" else "image" in
  let imageName := attribute (ac_Attributes (m_Actor ev)) nameAttr in
  ExactMatch ef "image" id ||
  ExactMatch ef "image" imageName ||
  ExactMatch ef "image" (stripTag id) ||
  ExactMatch ef "image" (stripTag imageName).

Definition matchLabels ef (attributes : gmap string string) : bool :=
  if negb (Args_Include ef "label") then true else MatchKVList ef "label" attributes.

Definition Filter_Include ef ev : bool :=
  ExactMatch ef "event" (m_Action ev) &&
  ExactMatch ef "type" (m_Type ev) &&
  matchDaemon ef ev &&
  matchContainer ef ev &&
  matchPlugin ef ev &&
  matchVolume ef ev &&
  matchNetwork ef ev &&
  matchImage ef ev &&
  matchLabels ef (ac_Attributes (m_Actor ev)).
End filter.

(** ** Actors (daemon/events.go) *)

Definition copyAttributes (attributes : gmap string string)
    (labels : option (gmap string string)) : gmap string string :=
  match labels with
  | None => attributes
  | Some labels => labels ∪ attributes
  end.

(** The type and actor of the event of a container, with its identifier, name, image
    and labels. *)
Definition LogContainerEventWithAttributes (id name image : string)
    (labels : option (gmap string string)) (attributes : gmap string string) :
    string * Actor :=
  let attributes := copyAttributes attributes labels in
  let attributes := if decide (image ≠ "") then <["image" := image]> attributes
                    else attributes in
  let attributes :=
    <["name" := TrimLeft (λ c, bool_decide (c = "/"%char)) name]> attributes in
  (ContainerEventType, mkActor id attributes).

Definition LogPluginEventWithAttributes (pluginID refName : string)
    (attributes : gmap string string) : string * Actor :=
  (PluginEventType, mkActor pluginID (<["name" := refName]> attributes)).

Definition LogVolumeEvent (volumeID : string) (attributes : gmap string string) :
    string * Actor :=
  (VolumeEventType, mkActor volumeID attributes).

Definition LogNetworkEventWithAttributes (id name type : string)
    (attributes : gmap string string) : string * Actor :=
  (NetworkEventType, mkActor id (<["type" := type]> (<["name" := name]> attributes))).

(** The name of the host when the system information is there. *)
Definition LogDaemonEventWithAttributes (id : string) (info : option string)
    (attributes : gmap string string) : string * Actor :=
  let attributes :=
    match info with
    | Some name => if decide (name ≠ "") then <["name" := name]> attributes else attributes
    | None => attributes
    end in
  (DaemonEventType, mkActor id attributes).

(** ** The service (events.go) *)

Definition eventsLimit : nat := 64.
Definition bufferSize : nat := 1024.

(** What a subscriber asked for and the events it was answered with: history. *)
Inductive request :=
| AllEvents
| TopicEvents (since until : Time) (ef : option Args).

Record Events := mkEvents {
  e_events : list Message;
  e_cap : nat;
  e_pub : nat;
  e_ps : pstate Message;
  e_answers : gmap nat (request * list Message)
}.

Definition New : Events :=
  let '(ps, pub) := NewPublisher (100 * 10^6) bufferSize no_pubs in
  mkEvents [] eventsLimit pub ps ∅.

(** [copy(dst, src)]. *)
Definition copy_slice {A : Type} (dst src : list A) : list A :=
  let n := min (length dst) (length src) in take n src ++ drop n dst.

(** The critical section of Log. *)
Definition append_event (events : list Message) (cap : nat) (jm : Message) : list Message :=
  if decide (length events = cap) then
    let events := copy_slice events (drop 1 events) in
    <[length events - 1 := jm]> events
  else events ++ [jm].

(** The message that Log makes. *)
Definition event_message (now : Time) (action eventType : string) (actor : Actor) : Message :=
  let '(id, status, from) :=
    if decide (eventType = ContainerEventType) then
      (ac_ID actor, action, attribute (ac_Attributes actor) "image")
    else if decide (eventType = ImageEventType) then (ac_ID actor, action, "")
    else ("", "", "") in
  mkMessage status id from eventType action actor (Unix now) (UnixNano now).

Definition Events_Log (now : Time) (action eventType : string) (actor : Actor)
    (e : Events) : Events :=
  let jm := event_message now action eventType actor in
  mkEvents (append_event (e_events e) (e_cap e) jm) (e_cap e) (e_pub e)
    (call_Publish (e_pub e) jm (e_ps e)) (e_answers e).

(** The loop of loadBufferedEvents, from the last event to the first. *)
Fixpoint load_loop (since until : Z) (topic : option (topicFunc Message))
    (events : list Message) (buffered : list Message) : list Message :=
  match events with
  | [] => buffered
  | ev :: events =>
      if Z.ltb (m_TimeNano ev) since then buffered
      else if Z.ltb 0 until && Z.ltb until (m_TimeNano ev) then
        load_loop since until topic events buffered
      else
        load_loop since until topic events
          (if accepts topic ev then ev :: buffered else buffered)
  end.

Definition loadBufferedEvents (events : list Message) (since until : Time)
    (topic : option (topicFunc Message)) : list Message :=
  if IsZero since && IsZero until then []
  else
    let sinceNanoUnix := if IsZero since then 0%Z else UnixNano since in
    let untilNanoUnix := if IsZero until then 0%Z else UnixNano until in
    load_loop sinceNanoUnix untilNanoUnix topic (rev events) [].

Section service.
Context `{refext : RefExt}.

Definition filter_topic (ef : option Args) : option (topicFunc Message) :=
  match ef with
  | Some ef => if decide (0 < Args_Len ef) then Some (Filter_Include ef) else None
  | None => None
  end.

(** The events a request is answered with. *)
Definition answer (r : request) (events : list Message) : list Message :=
  match r with
  | AllEvents => events
  | TopicEvents since until ef => loadBufferedEvents events since until (filter_topic ef)
  end.

Definition Events_Subscribe (e : Events) : option (Events * list Message * nat) :=
  let current := e_events e in
  '(ps, l) ← Publisher_Subscribe (e_pub e) (e_ps e);
  Some (mkEvents (e_events e) (e_cap e) (e_pub e) ps
          (<[l := (AllEvents, current)]> (e_answers e)), current, l).

Definition Events_SubscribeTopic (since until : Time) (ef : option Args) (e : Events) :
    option (Events * list Message * nat) :=
  let topic := filter_topic ef in
  let buffered := loadBufferedEvents (e_events e) since until topic in
  '(ps, ch) ← match topic with
              | Some _ => Publisher_SubscribeTopic (e_pub e) topic (e_ps e)
              | None => Publisher_Subscribe (e_pub e) (e_ps e)
              end;
  Some (mkEvents (e_events e) (e_cap e) (e_pub e) ps
          (<[ch := (TopicEvents since until ef, buffered)]> (e_answers e)), buffered, ch).

Definition with_ps (e : Events) (ps : pstate Message) : Events :=
  mkEvents (e_events e) (e_cap e) (e_pub e) ps (e_answers e).

Definition Events_Evict (l : nat) (e : Events) : option Events :=
  with_ps e <$> Publisher_Evict (e_pub e) l (e_ps e).

Definition SubscribersCount (e : Events) : nat :=
  match ps_pubs (e_ps e) !! e_pub e with Some P => Publisher_Len P | None => 0 end.

(** Steps: the calls of the service, and the steps of the goroutines of Publish and of
    the receivers. *)
Inductive events_label :=
| ELog (now : Time) (action eventType : string) (actor : Actor)
| ESubscribe
| ESubscribeTopic (since until : Time) (ef : option Args)
| EEvict (l : nat)
| EStart (i : nat)
| ESend (i ch : nat) (how : select)
| EEnd (i : nat)
| EReceive (ch : nat).

Definition events_exec (e : Events) (l : events_label) : option Events :=
  match ps_panic (e_ps e) with
  | Some _ => None
  | None =>
      match l with
      | ELog now action eventType actor => Some (Events_Log now action eventType actor e)
      | ESubscribe => (λ r, r.1.1) <$> Events_Subscribe e
      | ESubscribeTopic since until ef => (λ r, r.1.1) <$> Events_SubscribeTopic since until ef e
      | EEvict l => Events_Evict l e
      | EStart i => with_ps e <$> Publish_start i (e_ps e)
      | ESend i ch how => with_ps e <$> sendTopic i ch how (e_ps e)
      | EEnd i => with_ps e <$> Publish_end i (e_ps e)
      | EReceive ch => with_ps e <$> receive ch (e_ps e)
      end
  end.

Definition events_step (e e' : Events) : Prop := ∃ l, events_exec e l = Some e'.

Fixpoint events_run (e : Events) (ls : list events_label) : option Events :=
  match ls with
  | [] => Some e
  | l :: ls => e ← events_exec e l; events_run e ls
  end.

(** All events logged so far, in the order in which they were appended. *)
Definition event_log (e : Events) : list Message := call_value <$> ps_calls (e_ps e).
End service.
