(* ===== verification/EventsInv.v ===== *)
(** * What the events service promises

    In every interleaving the slice of the service is the end of the log, a subscriber
    starts from the end of the log at the time of its subscription, and each later
    event is on its way, delivered once, refused by its filter or dropped by the
    timeout: no event falls between the answer and the channel. *)

From S2P Require Import Prelude GoStrings RefStore PubSub PubSubInv Events.

(** ** The last elements of a list *)

Definition last_n {A : Type} (n : nat) (l : list A) : list A := drop (length l - n) l.

Lemma last_n_all {A} n (l : list A) : length l ≤ n → last_n n l = l.
Proof. intros Hl. unfold last_n. by replace (length l - n) with 0 by lia. Qed.

Lemma length_last_n {A} n (l : list A) : length (last_n n l) = min n (length l).
Proof. unfold last_n. rewrite length_drop. lia. Qed.

Lemma last_n_snoc {A} n (l : list A) x :
  last_n (S n) (l ++ [x]) = last_n n l ++ [x].
Proof.
  unfold last_n. rewrite length_app; simpl.
  replace (length l + 1 - S n) with (length l - n) by lia.
  by rewrite drop_app_le by lia.
Qed.

Lemma drop_last_n {A} n (l : list A) :
  S n ≤ length l → drop 1 (last_n (S n) l) = last_n n l.
Proof. intros Hl. unfold last_n. rewrite drop_drop. f_equal. lia. Qed.

(** Copying a slice onto itself from its second element and writing the last one
    leaves the last elements. *)
Lemma append_event_last log n jm :
  append_event (last_n (S n) log) (S n) jm = last_n (S n) (log ++ [jm]).
Proof.
  unfold append_event. rewrite length_last_n, last_n_snoc. case_decide as Hfull.
  - unfold copy_slice. rewrite length_drop, length_last_n.
    replace (S n `min` length log `min` (S n `min` length log - 1)) with n by lia.
    rewrite drop_last_n, take_ge by (rewrite ?length_last_n; lia).
    rewrite length_app, length_drop, !length_last_n.
    replace (n `min` length log + (S n `min` length log - n) - 1)
      with (length (last_n n log) + 0) by (rewrite length_last_n; lia).
    rewrite insert_app_r. f_equal.
    assert (length (drop n (last_n (S n) log)) = 1) as Hd
      by (rewrite length_drop, length_last_n; lia).
    by destruct (drop n (last_n (S n) log)) as [|y [|z t]].
  - rewrite !last_n_all by lia. done.
Qed.

(** ** The events between two dates *)

Lemma List_filter_none {A} (f : A → bool) (l : list A) :
  (∀ x, x ∈ l → f x = false) → List.filter f l = [].
Proof.
  induction l as [|x l IH]; [done|]. intros Hf. simpl. rewrite (Hf x), IH; [done| |set_solver].
  intros y Hy. apply Hf. set_solver.
Qed.

Definition between (since until : Z) (m : Message) : bool :=
  Z.leb since (m_TimeNano m) && (Z.leb until 0 || Z.leb (m_TimeNano m) until).

Definition in_time_order (events : list Message) : Prop :=
  StronglySorted (λ m m', (m_TimeNano m ≤ m_TimeNano m')%Z) events.

Lemma load_loop_filter since until topic events buffered :
  in_time_order events →
  load_loop since until topic (rev events) buffered =
    List.filter (λ m, between since until m && accepts topic m) events ++ buffered.
Proof.
  revert buffered. induction events as [|ev events IH] using rev_ind; intros buffered Hs; [done|].
  rewrite rev_unit, List.filter_app. simpl.
  assert (in_time_order events ∧ ∀ m, m ∈ events → (m_TimeNano m ≤ m_TimeNano ev)%Z) as [Hs' Hle].
  { apply StronglySorted_app in Hs as (Hle & Hs & _). split; [done|].
    intros m Hm. apply Hle; [done|]. by apply list_elem_of_singleton. }
  unfold between at 2. destruct (Z.ltb_spec (m_TimeNano ev) since) as [Hlt|Hge].
  - rewrite (proj2 (Z.leb_gt _ _) Hlt). simpl. rewrite app_nil_r.
    replace (List.filter _ events) with (@nil Message); [done|]. symmetry.
    apply List_filter_none. intros m Hm. unfold between.
    specialize (Hle m Hm). by rewrite (proj2 (Z.leb_gt since (m_TimeNano m))) by lia.
  - rewrite (proj2 (Z.leb_le _ _) Hge). simpl.
    destruct (Z.ltb_spec 0 until), (Z.ltb_spec until (m_TimeNano ev)); simpl;
      rewrite IH by done.
    + rewrite (proj2 (Z.leb_gt until 0)), (proj2 (Z.leb_gt (m_TimeNano ev) until)) by done.
      simpl. by rewrite app_nil_r.
    + rewrite (proj2 (Z.leb_le (m_TimeNano ev) until)), orb_true_r by done. simpl.
      rewrite <- app_assoc. by destruct (accepts topic ev).
    + rewrite (proj2 (Z.leb_le until 0)) by done. simpl. rewrite <- app_assoc.
      by destruct (accepts topic ev).
    + rewrite (proj2 (Z.leb_le until 0)) by done. simpl. rewrite <- app_assoc.
      by destruct (accepts topic ev).
Qed.

(** The loop of loadBufferedEvents, which runs backwards and stops at the first event
    before the start date, gives the events between the dates that the filter accepts,
    when the events are in the order of their times. *)
Lemma loadBufferedEvents_between events since until topic :
  in_time_order events → IsZero since && IsZero until = false →
  loadBufferedEvents events since until topic =
    List.filter (λ m, between (if IsZero since then 0 else UnixNano since)
                        (if IsZero until then 0 else UnixNano until) m
                      && accepts topic m) events.
Proof.
  intros Hs Hz. unfold loadBufferedEvents. rewrite Hz, load_loop_filter by done.
  by rewrite app_nil_r.
Qed.

(** ** What the steps of the publisher leave alone *)

Section frame.
Context {V : Type}.
Implicit Types (s : pstate V).

Definition pub_settings (P : Publisher V) : nat * Z := (pub_buffer P, pub_timeout P).

Definition call_header (k : Call V) : nat * V := (call_pub k, call_value k).

Record ps_frame s s' : Prop := {
  pf_calls : call_header <$> ps_calls s' = call_header <$> ps_calls s;
  pf_chans : ∀ ch c', ps_chans s' !! ch = Some c' →
    ∃ c, ps_chans s !! ch = Some c ∧ same_make c c' ∧ ch_cap c' = ch_cap c;
  pf_pubs : pub_settings <$> ps_pubs s' = pub_settings <$> ps_pubs s
}.

Lemma frame_with_call s i k k' :
  ps_calls s !! i = Some k → call_header k' = call_header k → ps_frame s (with_call s i k').
Proof.
  intros Hk Hv. split; [| |done].
  - simpl. rewrite list_fmap_insert, Hv. apply list_insert_id. by rewrite list_lookup_fmap, Hk.
  - intros ch c' Hc'. by exists c'.
Qed.

Lemma frame_with_chan s ch c c' :
  ps_chans s !! ch = Some c → same_make c c' → ch_cap c' = ch_cap c →
  ps_frame s (with_chan s ch c').
Proof.
  intros Hc Hm Hcap. split; [done| |done]. simpl.
  intros x d [(<- & <- & _)|[_ Hd]]%list_lookup_insert_Some; [by exists c|by exists d].
Qed.

Lemma frame_with_panic s m : ps_frame s (with_panic s m).
Proof. split; [done| |done]. intros ch c' Hc'. by exists c'. Qed.

Lemma frame_with_subscribers s p P m :
  ps_pubs s !! p = Some P → ps_frame s (with_pub s p (with_subscribers P m)).
Proof.
  intros HP. split; [done| |].
  - intros ch c' Hc'. by exists c'.
  - simpl. rewrite list_fmap_insert. apply list_insert_id. by rewrite list_lookup_fmap, HP.
Qed.

#[global] Instance ps_frame_trans : Transitive ps_frame.
Proof.
  intros s1 s2 s3 [Hv1 Hc1 Hp1] [Hv2 Hc2 Hp2]. split; [by rewrite Hv2| |by rewrite Hp2].
  intros ch c3 H3. destruct (Hc2 ch c3 H3) as (c2 & H2 & (Ho & Ht & Hs) & Hcap).
  destruct (Hc1 ch c2 H2) as (c1 & H1 & (Ho' & Ht' & Hs') & Hcap'). exists c1.
  split; [done|]. unfold same_make. by rewrite Ho, Ht, Hs, Hcap.
Qed.

Lemma Publish_start_frame i s s' : Publish_start i s = Some s' → ps_frame s s'.
Proof.
  intros (k & Hk & (P & HP & Hst)%bind_Some)%bind_Some.
  destruct (call_progress k); simplify_eq. by eapply frame_with_call.
Qed.

Lemma Publish_end_frame i s s' : Publish_end i s = Some s' → ps_frame s s'.
Proof.
  intros (k & Hk & Hst)%bind_Some. destruct (call_progress k); simplify_eq.
  case_decide; simplify_eq. by eapply frame_with_call.
Qed.

Lemma delivery_frame s i ch k k' c c' :
  ps_calls s !! i = Some k → ps_chans s !! ch = Some c → call_header k' = call_header k →
  same_make c c' → ch_cap c' = ch_cap c → ps_frame s (with_call (with_chan s ch c') i k').
Proof.
  intros Hk Hc Hv Hm Hcap. transitivity (with_chan s ch c'); [by eapply frame_with_chan|].
  by eapply frame_with_call.
Qed.

Lemma sendTopic_frame i ch how s s' : sendTopic i ch how s = Some s' → ps_frame s s'.
Proof.
  intros (k & Hk & (P & HP & Hst)%bind_Some)%bind_Some.
  destruct (call_progress k) as [|subs|]; try done. case_decide; [|done].
  apply bind_Some in Hst as (topic & _ & (c & Hc & Hst)%bind_Some).
  repeat case_match; simplify_eq;
    first [by apply frame_with_panic|by eapply frame_with_call|by eapply delivery_frame].
Qed.

Lemma receive_frame ch s s' : receive ch s = Some s' → ps_frame s s'.
Proof.
  intros (c & Hc & Hst)%bind_Some. destruct (ch_queue c); simplify_eq.
  by eapply frame_with_chan.
Qed.

Lemma Evict_frame p ch s s' : Publisher_Evict p ch s = Some s' → ps_frame s s'.
Proof.
  unfold Publisher_Evict. case_match; [|done].
  intros (P & HP & (c & Hc & [= <-])%bind_Some)%bind_Some.
  transitivity (with_pub s p (with_subscribers P (delete ch (pub_subscribers P))));
    [by apply frame_with_subscribers|]. simpl in Hc.
  assert (∀ d, same_make c d → ch_cap d = ch_cap c → ps_frame
    (with_pub s p (with_subscribers P (delete ch (pub_subscribers P))))
    (with_chan (with_pub s p (with_subscribers P (delete ch (pub_subscribers P)))) ch d)) as Hd.
  { intros d ??. by eapply frame_with_chan. }
  case_match; [|by apply Hd].
  etransitivity; [|apply frame_with_panic]. by apply Hd.
Qed.
End frame.

(** ** The invariant of the service *)

Section service.
Context `{refext : RefExt}.
Implicit Types (e : Events).

Definition request_topic (r : request) : option (topicFunc Message) :=
  match r with
  | AllEvents => None
  | TopicEvents _ _ ef => filter_topic ef
  end.

(** A channel of the service and the answer its subscriber got. *)
Definition answered e (ch : nat) (c : Chan Message) : Prop :=
  ch_since c ≤ length (event_log e) ∧
  ∃ r a, e_answers e !! ch = Some (r, a) ∧ ch_topic c = request_topic r ∧
    a = answer r (last_n eventsLimit (take (ch_since c) (event_log e))).

Record events_inv e : Prop := {
  ei_ps : pub_inv (e_ps e);
  ei_cap : e_cap e = eventsLimit;
  ei_pub : e_pub e = 0;
  ei_calls : Forall (λ k, call_pub k = 0) (ps_calls (e_ps e));
  ei_ring : e_events e = last_n eventsLimit (event_log e);
  ei_settings : pub_settings <$> ps_pubs (e_ps e) = [(bufferSize, 100 * 10^6)%Z];
  ei_owner : ∀ ch c, ps_chans (e_ps e) !! ch = Some c →
    ch_owner c = 0 ∧ ch_cap c = bufferSize;
  ei_answered : ∀ ch c, ps_chans (e_ps e) !! ch = Some c → answered e ch c
}.

Lemma New_inv : events_inv New.
Proof.
  split; try done. exact (NewPublisher_inv no_pubs _ _ no_pubs_inv).
Qed.

(** A step of the goroutines around the service. *)
Lemma frame_events_inv e ps :
  events_inv e → pub_inv ps → ps_frame (e_ps e) ps → events_inv (with_ps e ps).
Proof.
  intros [Hps Hcap Hpub Hcalls Hring Hset Hown Hans] Hinv [Hv Hc Hp].
  assert (event_log (with_ps e ps) = event_log e) as Hlog.
  { unfold event_log. apply (f_equal (fmap snd)) in Hv. by rewrite <- !list_fmap_compose in Hv. }
  split; try done; rewrite ?Hlog; try done.
  - apply (f_equal (fmap fst)) in Hv. rewrite <- !list_fmap_compose in Hv.
    apply (Forall_fmap call_pub (λ p, p = 0)).
    change (call_pub <$> ps_calls ps = call_pub <$> ps_calls (e_ps e)) in Hv.
    simpl. rewrite Hv. by apply Forall_fmap.
  - simpl. by rewrite Hp.
  - intros ch c' Hc'. destruct (Hc ch c' Hc') as (c & Hch & (Ho & _) & Hcp).
    rewrite Ho, Hcp. by apply (Hown ch).
  - intros ch c' Hc'. destruct (Hc ch c' Hc') as (c & Hch & (_ & Ht & Hs) & _).
    unfold answered. rewrite Hlog, Hs, Ht. exact (Hans ch c Hch).
Qed.

Lemma Log_inv e now action eventType actor :
  events_inv e → events_inv (Events_Log now action eventType actor e).
Proof.
  intros [Hps Hcap Hpub Hcalls Hring Hset Hown Hans]. set (jm := event_message now action eventType actor).
  assert (event_log (Events_Log now action eventType actor e) = event_log e ++ [jm]) as Hlog
    by (unfold event_log; simpl; by rewrite fmap_app).
  split; try done.
  - by apply call_Publish_inv.
  - apply Forall_app_2; [done|]. repeat constructor. simpl. by rewrite Hpub.
  - rewrite Hlog. simpl. rewrite Hcap, Hring. apply append_event_last.
  - intros ch c Hc. destruct (Hans ch c Hc) as (Hs & r & a & Ha & Ht & Heq).
    unfold answered. rewrite Hlog, length_app. split; [lia|]. exists r, a.
    by rewrite take_app_le.
Qed.

(** A subscription of either kind. *)
Lemma subscribed_inv e ps ch r :
  events_inv e → Publisher_SubscribeTopic (e_pub e) (request_topic r) (e_ps e) = Some (ps, ch) →
  events_inv (mkEvents (e_events e) (e_cap e) (e_pub e) ps
                (<[ch := (r, answer r (e_events e))]> (e_answers e))).
Proof.
  intros [Hps Hcap Hpub Hcalls Hring Hset Hown Hans] Hst.
  pose proof (Subscribe_inv _ _ _ _ _ Hps Hst) as Hinv.
  apply bind_Some in Hst as (P & HP & Hst). case_match; [|done].
  rewrite Hpub in HP, Hst. injection Hst as <- <-.
  assert (pub_settings P = (bufferSize, 100 * 10^6)%Z) as HPs.
  { apply (f_equal (lookup 0)) in Hset. rewrite list_lookup_fmap, HP in Hset.
    change (Some (pub_settings P) = Some (bufferSize, 100 * 10^6)%Z) in Hset. congruence. }
  split; try done; simpl.
  - rewrite list_fmap_insert, Hset. simpl. by rewrite <- HPs.
  - intros ch c [Hc|[_ Hc]]%lookup_app_Some; [by apply (Hown ch)|].
    apply list_lookup_singleton_Some in Hc as [_ <-]. simpl. split; [done|]. by injection HPs.
  - intros ch c [Hc|[Hge Hc]]%lookup_app_Some.
    + destruct (Hans ch c Hc) as (Hs & r' & a & Ha & Ht & Heq). split; [done|].
      exists r', a. split; [|done]. simpl. rewrite lookup_insert_ne; [done|].
      intros <-. apply lookup_lt_Some in Hc. lia.
    + apply list_lookup_singleton_Some in Hc as [Hch <-].
      replace ch with (length (ps_chans (e_ps e))) by lia.
      split; simpl; [unfold event_log; by rewrite length_fmap|].
      exists r, (answer r (e_events e)). rewrite lookup_insert_eq. split; [done|].
      split; [done|]. rewrite Hring. f_equal. f_equal. symmetry. apply take_ge.
      unfold event_log. by rewrite length_fmap.
Qed.

Lemma Subscribe_events_inv e e' a l :
  events_inv e → Events_Subscribe e = Some (e', a, l) → events_inv e'.
Proof.
  intros Hinv ([ps ch] & Hst & [= <- <- <-])%bind_Some.
  by apply (subscribed_inv e ps ch AllEvents).
Qed.

Lemma SubscribeTopic_events_inv e e' since until ef a l :
  events_inv e → Events_SubscribeTopic since until ef e = Some (e', a, l) → events_inv e'.
Proof.
  intros Hinv ([ps ch] & Hst & [= <- <- <-])%bind_Some.
  apply (subscribed_inv e ps ch (TopicEvents since until ef)); [done|]. simpl.
  by destruct (filter_topic ef).
Qed.

Lemma events_exec_inv e e' l : events_inv e → events_exec e l = Some e' → events_inv e'.
Proof.
  intros Hinv. unfold events_exec. destruct (ps_panic (e_ps e)) eqn:Hnp; [done|].
  pose proof (ei_ps e Hinv) as Hps.
  destruct l; simpl; intros Hst.
  - injection Hst as <-. by apply Log_inv.
  - apply fmap_Some in Hst as ([[e1 a] ch] & Hst & ->). by eapply Subscribe_events_inv.
  - apply fmap_Some in Hst as ([[e1 a] ch] & Hst & ->). by eapply SubscribeTopic_events_inv.
  - apply fmap_Some in Hst as (ps & Hst & ->).
    apply frame_events_inv; [done| |by eapply Evict_frame].
    eapply Evict_inv; [done..| |exact Hst]. intros c Hc _. rewrite (ei_pub e Hinv).
    by apply (ei_owner e Hinv l).
  - apply fmap_Some in Hst as (ps & Hst & ->).
    apply frame_events_inv; [done|by eapply Publish_start_inv|by eapply Publish_start_frame].
  - apply fmap_Some in Hst as (ps & Hst & ->).
    apply frame_events_inv; [done|by eapply sendTopic_inv|by eapply sendTopic_frame].
  - apply fmap_Some in Hst as (ps & Hst & ->).
    apply frame_events_inv; [done|by eapply Publish_end_inv|by eapply Publish_end_frame].
  - apply fmap_Some in Hst as (ps & Hst & ->).
    apply frame_events_inv; [done|by eapply receive_inv|by eapply receive_frame].
Qed.

Lemma events_reachable_inv e : rtc events_step New e → events_inv e.
Proof.
  apply (rtc_invariant events_step events_inv); [|apply New_inv].
  intros e0 e1 Hinv [l Hst]. by eapply events_exec_inv.
Qed.

(** ** The events a subscriber gets *)

(** Where event [i] of the log is for the subscriber [ch]. *)
Inductive account := OnItsWay | Got | Refused | TimedOut | Missed.

Definition account_of e (ch i : nat) : account :=
  match ps_calls (e_ps e) !! i with
  | None => Missed
  | Some k =>
      match call_fates k !! ch, call_progress k with
      | Some Delivered, _ => Got
      | Some Filtered, _ => Refused
      | Some Skipped, _ => TimedOut
      | None, Waiting => OnItsWay
      | None, Sending subs => if decide (ch ∈ subs) then OnItsWay else Missed
      | None, Returned => Missed
      end
  end.

Definition subscribed e (ch : nat) : Prop :=
  ∃ P, ps_pubs (e_ps e) !! e_pub e = Some P ∧ ch ∈ dom (pub_subscribers P).

Lemma account_got e ch i : account_of e ch i = Got ↔ delivered (e_ps e) ch i.
Proof.
  unfold account_of, delivered. destruct (ps_calls (e_ps e) !! i) as [k|]; [|naive_solver].
  split.
  - intros Ha. exists k. split; [done|]. repeat case_match; congruence.
  - intros (k' & [= <-] & ->). done.
Qed.

Lemma account_missed e ch c i :
  events_inv e → subscribed e ch → ps_chans (e_ps e) !! ch = Some c →
  ch_since c ≤ i → i < length (event_log e) → account_of e ch i ≠ Missed.
Proof.
  intros Hinv (P & HP & Hd) Hc Hs Hi. unfold event_log in Hi. rewrite length_fmap in Hi.
  destruct (lookup_lt_is_Some_2 _ _ Hi) as [k Hk]. unfold account_of. rewrite Hk.
  pose proof (pi_progress _ (ei_ps e Hinv) i k Hk) as Hp. unfold progress_ok in Hp.
  rewrite (Forall_lookup_1 _ _ _ _ (ei_calls e Hinv) Hk), <- (ei_pub e Hinv) in Hp.
  destruct (call_progress k) as [|subs|].
  - by repeat case_match.
  - destruct Hp as (P' & HP' & _ & Hsub). simplify_eq. specialize (Hsub ch Hd).
    destruct (call_fates k !! ch) as [[]|]; try done. rewrite decide_True; [done|].
    by apply Hsub.
  - destruct (Hp P ch c HP Hd Hc Hs) as [f ->]. by destruct f.
Qed.

(** The filter of a subscriber decides between delivery and refusal. *)
Lemma account_filter e ch c i m :
  events_inv e → ps_chans (e_ps e) !! ch = Some c → event_log e !! i = Some m →
  (account_of e ch i = Got → accepts (ch_topic c) m = true) ∧
  (account_of e ch i = Refused → accepts (ch_topic c) m = false).
Proof.
  intros Hinv Hc Hi. unfold event_log in Hi. apply list_lookup_fmap_Some in Hi as (k & -> & Hk).
  unfold account_of. rewrite Hk. pose proof (pi_fates _ (ei_ps e Hinv) i k ch) as Hf.
  destruct (call_fates k !! ch) as [f|]; [|by repeat case_match].
  destruct (Hf f Hk eq_refl) as (c' & Hc' & _ & Hacc). simplify_eq.
  destruct f; (split; [|by intros; apply Hacc]); try done.
  intros _. apply not_false_iff_true. intros Hr. by apply Hacc in Hr.
Qed.

(** The messages of a channel are the events that it was given, in that order. *)
Lemma values_of_order e (idx : list nat) (ms : list Message) :
  Forall2 (value_of (e_ps e)) idx ms → omap (λ i, event_log e !! i) idx = ms.
Proof.
  induction 1 as [|i m idx ms (k & Hk & <-) _ IH]; [done|]. simpl.
  assert (event_log e !! i = Some (call_value k)) as ->
    by (unfold event_log; by rewrite list_lookup_fmap, Hk).
  f_equal. exact IH.
Qed.


(** C37: In every interleaving of the calls of the events service with the goroutines of
    Publish and with the receivers: the service keeps the last 64 events of its log; a
    subscriber is answered with what its request selects among the last 64 events at the
    time of its subscription; from then on, while it is subscribed, every event of the
    log is on its way to it, was delivered, was refused by its filter or was dropped
    after the timeout, so none falls between the answer and the channel; what it
    received and what waits in its channel (1024 messages at most) are exactly the
    events delivered to it, each once, and its filter accepts them; and the service
    panics only when a channel is evicted twice. *)
Theorem events_no_gap e :
  rtc events_step New e →
  e_events e = last_n eventsLimit (event_log e) ∧
  (∀ m, ps_panic (e_ps e) = Some m →
    ∃ ch c, ps_chans (e_ps e) !! ch = Some c ∧ 2 ≤ ch_closes c) ∧
  ∀ ch c, ps_chans (e_ps e) !! ch = Some c →
    answered e ch c ∧
    (∀ i, subscribed e ch → ch_since c ≤ i → i < length (event_log e) →
      account_of e ch i ≠ Missed) ∧
    length (ch_queue c) ≤ bufferSize ∧
    NoDup (ch_order c) ∧
    (∀ i, i ∈ ch_order c ↔ account_of e ch i = Got) ∧
    ch_received c ++ ch_queue c = omap (λ i, event_log e !! i) (ch_order c) ∧
    ∀ i m, event_log e !! i = Some m →
      (account_of e ch i = Got → accepts (ch_topic c) m = true) ∧
      (account_of e ch i = Refused → accepts (ch_topic c) m = false).
Proof.
  intros Hr. pose proof (events_reachable_inv e Hr) as Hinv. pose proof (ei_ps e Hinv) as Hps.
  split; [exact (ei_ring e Hinv)|]. split; [intros m Hm; by apply (pi_panic _ Hps m)|].
  intros ch c Hc. destruct (pi_chans _ Hps ch c Hc) as [Hb _ Hn Ho Hv].
  split; [by apply (ei_answered e Hinv)|]. split; [intros i ???; by eapply account_missed|].
  split; [by destruct (ei_owner e Hinv ch c Hc) as [_ <-]|]. split; [done|].
  split; [intros i; by rewrite Ho, account_got|].
  split; [symmetry; by apply values_of_order|]. intros i m. by apply account_filter.
Qed.
End service.
