(* ===== verification/EventsWitness.v ===== *)
(** * Runs of the events service

    A run in which the theorems of EventsInv and PubSubInv apply, and runs that show
    events given twice, events out of order, events missed by dates, and filters that
    select more or less than their documentation says. *)

From S2P Require Import Prelude GoStrings RefStore RefWitness.
From S2P Require Import PubSub PubSubInv Events EventsInv.

Definition demo_actor (id name : string) : Actor := mkActor id {[ "name" := name ]}.

Definition demo_log (now : Time) (id : string) : events_label :=
  ELog now "start" ContainerEventType (demo_actor id id).

Definition demo_event (now : Time) (id : string) : Message :=
  event_message now "start" ContainerEventType (demo_actor id id).

(** What the subscriber [ch] was answered, and what it received since. *)
Definition demo_seen (ls : list events_label) (ch : nat) :
    option (list string * list string) :=
  match events_run New ls with
  | Some e =>
      match ps_chans (e_ps e) !! ch, e_answers e !! ch with
      | Some c, Some (_, a) => Some (map m_ID a, map m_ID (ch_received c))
      | _, _ => None
      end
  | None => None
  end.

Lemma events_run_steps e ls e' : events_run e ls = Some e' → rtc events_step e e'.
Proof.
  revert e. induction ls as [|l ls IH]; intros e; simpl; [by intros [= <-]|].
  intros (e1 & H1 & Hr)%bind_Some. eapply rtc_l; [by exists l|]. by apply IH.
Qed.

(** One event before the subscription, one delivered after it, one on its way. *)
Definition demo_events_run : list events_label :=
  [ demo_log 10 "a"; EStart 0;
    ESubscribeTopic 1 zeroTime None;
    demo_log 20 "b"; EStart 1; ESend 1 0 ToQueue; EEnd 1; EReceive 0;
    demo_log 30 "c"; EStart 2 ].
Definition demo_events : Events := default New (events_run New demo_events_run).

Lemma events_no_gap_witness :
  e_events demo_events = [demo_event 10 "a"; demo_event 20 "b"; demo_event 30 "c"] ∧
  demo_seen demo_events_run 0 = Some (["a"], ["b"]) ∧
  e_events demo_events = last_n eventsLimit (event_log demo_events) ∧
  ∀ c, ps_chans (e_ps demo_events) !! 0 = Some c →
    account_of demo_events 0 1 = Got ∧ account_of demo_events 0 2 ≠ Missed.
Proof.
  assert (rtc events_step New demo_events) as Hr
    by (apply (events_run_steps New demo_events_run); reflexivity).
  split; [vm_compute; reflexivity|]. split; [vm_compute; reflexivity|].
  destruct (events_no_gap demo_events Hr) as (Hring & _ & Hch). split; [exact Hring|].
  intros c Hc. destruct (Hch 0 c Hc) as (_ & Hgap & _). split; [vm_compute; reflexivity|].
  apply Hgap.
  - eexists. split; [vm_compute; reflexivity|]. apply (bool_decide_unpack _). vm_compute. exact I.
  - injection Hc as <-. vm_compute. lia.
  - vm_compute. lia.
Defined.

Lemma pub_run_steps {V} (s s' : pstate V) ls :
  Forall (λ l, match l with LEvict _ _ => False | _ => True end) ls →
  pub_run s ls = Some s' → rtc pub_step s s'.
Proof.
  intros Hls. revert s. induction Hls as [|l ls Hl _ IH]; intros s; simpl; [by intros [= <-]|].
  intros (s1 & H1 & Hr)%bind_Some. eapply rtc_l; [|by apply IH]. exists l.
  split; [|done]. by destruct l.
Qed.

(** The same run, step by step on the publisher. *)
Definition demo_pub_run : list (pub_label Message) :=
  [ LNew (100 * 10^6) bufferSize; LPublish 0 (demo_event 10 "a"); LStart 0; LSubscribe 0 None;
    LPublish 0 (demo_event 20 "b"); LStart 1; LSend 1 0 ToQueue; LEnd 1; LReceive 0;
    LPublish 0 (demo_event 30 "c"); LStart 2 ].

Lemma Publish_returns_witness :
  ∃ ls s' k', Forall (own_step 2) ls ∧ length ls = 2 ∧
    pub_run (e_ps demo_events) ls = Some s' ∧ ps_calls s' !! 2 = Some k' ∧
    call_progress k' = Returned.
Proof.
  destruct (Publish_returns (e_ps demo_events) 2
    (mkCall 0 (demo_event 30 "c") (Sending {[0]}) ∅) {[0]}) as (ls & s' & k' & Hls & Hlen & H').
  - apply (pub_run_steps no_pubs _ demo_pub_run); [repeat constructor|]. vm_compute. reflexivity.
  - vm_compute. reflexivity.
  - vm_compute. reflexivity.
  - reflexivity.
  - exists ls, s', k'. split; [exact Hls|]. split; [exact Hlen|exact H'].
Defined.

(** ** Runs that are not as expected *)

(** An event that is appended, but not yet published, when a subscriber comes is in its
    answer and in its channel. *)
Lemma event_given_twice :
  demo_seen [demo_log 10 "a"; ESubscribe; EStart 0; ESend 0 0 ToQueue; EEnd 0; EReceive 0] 0 =
    Some (["a"], ["a"]).
Proof. vm_compute. reflexivity. Qed.

(** Events logged one after the other reach a subscriber in the other order. *)
Lemma events_out_of_order :
  demo_seen [ESubscribe; demo_log 10 "a"; demo_log 20 "b";
             EStart 1; ESend 1 0 ToQueue; EEnd 1;
             EStart 0; ESend 0 0 ToQueue; EEnd 0; EReceive 0; EReceive 0] 0 =
    Some ([], ["b"; "a"]).
Proof. vm_compute. reflexivity. Qed.

(** The time of an event is taken before the lock, so the slice need not be in the
    order of the times; an event after the start date is then left out. *)
Lemma load_misses_event :
  demo_seen [demo_log 30 "a"; demo_log 10 "b"; ESubscribeTopic 20 zeroTime None] 0 =
    Some ([], []).
Proof. vm_compute. reflexivity. Qed.

Definition label_args (labels : list string) : Args :=
  {[ "label" := list_to_map ((λ l, (l, true)) <$> labels) ]}.

(** Two label filters select the events with both labels. *)
Lemma label_filters_are_joined :
  let ev := event_message 10 "start" ContainerEventType (mkActor "c" {[ "a" := "1" ]}) in
  Filter_Include (label_args ["a=1"]) ev = true ∧
  Filter_Include (label_args ["b=2"]) ev = false ∧
  Filter_Include (label_args ["a=1"; "b=2"]) ev = false.
Proof. vm_compute. auto. Qed.

(** A filter for a container selects a volume whose name it is a prefix of. *)
Lemma container_filter_selects_volume :
  Filter_Include {[ "container" := {[ "web" := true ]} ]}
    (event_message 10 "mount" VolumeEventType (mkActor "web-data" ∅)) = true.
Proof. vm_compute. reflexivity. Qed.
