(* ===== verification/StatsCollector.v ===== *)
(** * The collector of container statistics

    Model of daemon/stats_collector_unix.go: a map from containers to publishers of
    PubSub, changed under one mutex, and a goroutine that publishes the statistics of
    the containers of the map one after the other.  The methods that change
    subscribers wait for the lock of a publisher while they hold the mutex, so each of
    them is one step.  Containers are identified by the address of their record, a
    string here.  [sc_for] is history: the container of each channel. *)

From S2P Require Import Prelude GoStrings PubSub PubSubInv.

(** ** The usage of the processors of the host *)

(** [strings.Fields] on ASCII text. *)
Fixpoint fields_from (cur : string) (s : string) : list string :=
  match s with
  | EmptyString => if decide (cur = "") then [] else [cur]
  | String c s =>
      if is_space c then
        if decide (cur = "") then fields_from "" s else cur :: fields_from "" s
      else fields_from (cur +:+ String c "") s
  end.
Definition Fields (s : string) : list string := fields_from "" s.

(** [strconv.ParseUint(s, 10, 64)]. *)
Definition ParseUint (s : string) : option Z :=
  if decide (s = "") then None
  else v ← parse_digits 0 s; if Z.ltb v (2^64) then Some v else None.

(** The value of an unsigned integer of 64 bits. *)
Definition wrapu64 (z : Z) : Z := (z `mod` 2^64)%Z.

Definition nanoSecondsPerSecond : Z := 10^9.

(** The sum of the first seven fields of the line of all processors. *)
Fixpoint sum_ticks (parts : list string) (total : Z) : outcome string Z :=
  match parts with
  | [] => Ok total
  | i :: parts =>
      match ParseUint i with
      | Some v => sum_ticks parts (wrapu64 (total + v))
      | None => Err ("Unable to convert value " +:+ i +:+ " to int")
      end
  end.

(** The lines of /proc/stat, each of which ended with a newline; text after the last
    newline ends the loop with an error.  [None] stands for a file that does not open. *)
Fixpoint usage_lines (clockTicksPerSecond : Z) (lines : list string) : outcome string Z :=
  match lines with
  | [] => Err "invalid stat format. Error trying to parse the '/proc/stat' file"
  | line :: lines =>
      match Fields line with
      | [] => Panic "index out of range"
      | name :: parts =>
          if decide (name = "cpu") then
            if decide (length parts < 7) then Err "invalid number of cpu fields"
            else
              match sum_ticks (take 7 parts) 0 with
              | Ok totalClockTicks =>
                  if decide (clockTicksPerSecond = 0%Z) then Panic "integer divide by zero"
                  else Ok (wrapu64 (totalClockTicks * nanoSecondsPerSecond)
                           `div` clockTicksPerSecond)%Z
              | Err e => Err e
              | Panic m => Panic m
              | Diverge => Diverge
              end
          else usage_lines clockTicksPerSecond lines
      end
  end.

Definition getSystemCPUUsage (clockTicksPerSecond : Z) (stat : option (list string)) :
    outcome string Z :=
  match stat with
  | None => Err "open /proc/stat"
  | Some lines => usage_lines clockTicksPerSecond lines
  end.

(** ** The collector *)

Section collector.
Context {St : Type}.

Record statsCollector := mkCollector {
  sc_publishers : gmap string nat;
  sc_ps : pstate St;
  (* the goroutine: the pairs that are left, and the call of Publish it waits for *)
  sc_pairs : list (string * nat);
  sc_call : option nat;
  (* history *)
  sc_for : list string
}.
Implicit Types (s : statsCollector).

Definition newStatsCollector : statsCollector := mkCollector ∅ no_pubs [] None [].

Definition with_pubs s (publishers : gmap string nat) (ps : pstate St) : statsCollector :=
  mkCollector publishers ps (sc_pairs s) (sc_call s) (sc_for s).

Definition collect (c : string) s : option (statsCollector * nat) :=
  let '(publishers, ps, publisher) :=
    match sc_publishers s !! c with
    | Some publisher => (sc_publishers s, sc_ps s, publisher)
    | None =>
        let '(ps, publisher) := NewPublisher (100 * 10^6) 1024 (sc_ps s) in
        (<[c := publisher]> (sc_publishers s), ps, publisher)
    end in
  '(ps, ch) ← Publisher_Subscribe publisher ps;
  Some (mkCollector publishers ps (sc_pairs s) (sc_call s) (sc_for s ++ [c]), ch).

Definition stopCollection (c : string) s : option statsCollector :=
  match sc_publishers s !! c with
  | Some publisher =>
      ps ← Publisher_Close publisher (sc_ps s);
      Some (match ps_panic ps with
            | Some _ => with_pubs s (sc_publishers s) ps
            | None => with_pubs s (delete c (sc_publishers s)) ps
            end)
  | None => Some s
  end.

Definition unsubscribe (c : string) (ch : nat) s : option statsCollector :=
  match sc_publishers s !! c with
  | Some publisher =>
      ps ← Publisher_Evict publisher ch (sc_ps s);
      Some (match ps_panic ps, ps_pubs ps !! publisher with
            | None, Some P =>
                if decide (Publisher_Len P = 0)
                then with_pubs s (delete c (sc_publishers s)) ps
                else with_pubs s (sc_publishers s) ps
            | _, _ => with_pubs s (sc_publishers s) ps
            end)
  | None => Some s
  end.

(** The goroutine: a tick copies the pairs; the usage of the host may be unreadable;
    the statistics of the next container are published unless there is an error, and
    the goroutine waits for the call to return. *)
Definition run_tick s : option statsCollector :=
  match sc_pairs s, sc_call s with
  | [], None => Some (mkCollector (sc_publishers s) (sc_ps s) (map_to_list (sc_publishers s))
                        None (sc_for s))
  | _, _ => None
  end.

Definition run_no_usage s : option statsCollector :=
  match sc_call s with
  | None => Some (mkCollector (sc_publishers s) (sc_ps s) [] None (sc_for s))
  | Some _ => None
  end.

Definition run_pair (stats : option St) s : option statsCollector :=
  match sc_pairs s, sc_call s, stats with
  | _ :: pairs, None, None =>
      Some (mkCollector (sc_publishers s) (sc_ps s) pairs None (sc_for s))
  | (_, publisher) :: pairs, None, Some stats =>
      Some (mkCollector (sc_publishers s) (call_Publish publisher stats (sc_ps s)) pairs
              (Some (length (ps_calls (sc_ps s)))) (sc_for s))
  | _, _, _ => None
  end.

Definition run_return s : option statsCollector :=
  match sc_call s with
  | Some i =>
      match ps_calls (sc_ps s) !! i with
      | Some k =>
          match call_progress k with
          | Returned =>
              Some (mkCollector (sc_publishers s) (sc_ps s) (sc_pairs s) None (sc_for s))
          | _ => None
          end
      | None => None
      end
  | None => None
  end.

Inductive stats_label :=
| SCollect (c : string)
| SStop (c : string)
| SUnsubscribe (c : string) (ch : nat)
| STick
| SNoUsage
| SPair (stats : option St)
| SReturn
| SStart (i : nat)
| SSend (i ch : nat) (how : select)
| SEnd (i : nat)
| SReceive (ch : nat).

Definition with_sc_ps s (ps : pstate St) : statsCollector :=
  with_pubs s (sc_publishers s) ps.

Definition stats_exec s (l : stats_label) : option statsCollector :=
  match ps_panic (sc_ps s) with
  | Some _ => None
  | None =>
      match l with
      | SCollect c => fst <$> collect c s
      | SStop c => stopCollection c s
      | SUnsubscribe c ch => unsubscribe c ch s
      | STick => run_tick s
      | SNoUsage => run_no_usage s
      | SPair stats => run_pair stats s
      | SReturn => run_return s
      | SStart i => with_sc_ps s <$> Publish_start i (sc_ps s)
      | SSend i ch how => with_sc_ps s <$> sendTopic i ch how (sc_ps s)
      | SEnd i => with_sc_ps s <$> Publish_end i (sc_ps s)
      | SReceive ch => with_sc_ps s <$> receive ch (sc_ps s)
      end
  end.

(** A subscriber unsubscribes from the container that its channel was made for, as
    ContainerStats does. *)
Definition stats_label_ok s (l : stats_label) : Prop :=
  match l with
  | SUnsubscribe c ch => sc_for s !! ch = Some c
  | _ => True
  end.

Definition stats_step s s' : Prop := ∃ l, stats_label_ok s l ∧ stats_exec s l = Some s'.

Fixpoint stats_run s (ls : list stats_label) : option statsCollector :=
  match ls with
  | [] => Some s
  | l :: ls => s ← stats_exec s l; stats_run s ls
  end.
End collector.
Arguments statsCollector : clear implicits.
Arguments stats_label : clear implicits.
