(* ===== verification/StatsInv.v ===== *)
(** * Subscribers of container statistics

    In every interleaving an open channel of a subscriber is registered with the
    publisher that the collector runs for its container, and the collector keeps no
    publisher without subscribers.  A panic needs a channel that is closed twice; one
    run shows that this happens without any subscriber unsubscribing twice. *)

From S2P Require Import Prelude GoStrings PubSub PubSubInv StatsCollector.

(** ** The total of the clock ticks *)

Definition sum_Z (vs : list Z) : Z := foldr Z.add 0%Z vs.

Lemma parse_digits_nonneg acc t v : (0 ≤ acc)%Z → parse_digits acc t = Some v → (0 ≤ v)%Z.
Proof.
  revert acc. induction t as [|a t IH]; intros acc Hacc; simpl; [by intros [= <-]|].
  intros (d & Hd & Hv)%bind_Some. eapply IH, Hv.
  unfold digit_value in Hd. case_match; simplify_eq. lia.
Qed.

Lemma ParseUint_nonneg t v : ParseUint t = Some v → (0 ≤ v)%Z.
Proof.
  unfold ParseUint. case_decide; [done|]. intros (d & Hd & Hv)%bind_Some.
  case_match; simplify_eq. by eapply parse_digits_nonneg, Hd.
Qed.

Lemma sum_ticks_exact (parts : list string) (vs : list Z) total :
  Forall2 (λ p v, ParseUint p = Some v) parts vs →
  (0 ≤ total)%Z → (total + sum_Z vs < 2^64)%Z →
  (0 ≤ sum_Z vs)%Z ∧ sum_ticks parts total = Ok (total + sum_Z vs)%Z.
Proof.
  intros Hp. revert total. induction Hp as [|p v parts vs Hv Hps IH]; intros total H0 Hlt.
  - simpl. by rewrite Z.add_0_r.
  - pose proof (ParseUint_nonneg p v Hv) as Hn. simpl in Hlt |- *. rewrite Hv.
    destruct (IH (total + v)%Z) as [Hsum Hs]; [lia|lia|].
    split; [lia|]. unfold wrapu64. rewrite Z.mod_small by lia. rewrite Hs. f_equal. lia.
Qed.

(** The usage is exact as long as the product with the nanoseconds of a second fits. *)
Lemma getSystemCPUUsage_exact clk line lines parts vs :
  Fields line = "cpu" :: parts → 7 ≤ length parts →
  Forall2 (λ p v, ParseUint p = Some v) (take 7 parts) vs →
  (sum_Z vs * nanoSecondsPerSecond < 2^64)%Z → clk ≠ 0%Z →
  getSystemCPUUsage clk (Some (line :: lines)) =
    Ok ((sum_Z vs * nanoSecondsPerSecond) `div` clk)%Z.
Proof.
  intros Hf Hlen Hvs Hlt Hclk. unfold nanoSecondsPerSecond in *.
  assert (0 ≤ sum_Z vs)%Z as H0.
  { clear -Hvs. induction Hvs as [|p v ps vs Hv _ IH]; simpl; [done|].
    apply ParseUint_nonneg in Hv. lia. }
  destruct (sum_ticks_exact (take 7 parts) vs 0 Hvs) as [_ Hs]; [lia|lia|].
  rewrite Z.add_0_l in Hs. simpl. rewrite Hf. rewrite decide_True by done. rewrite decide_False by lia.
  rewrite Hs, decide_False by done. unfold wrapu64, nanoSecondsPerSecond. by rewrite Z.mod_small by lia.
Qed.

Section stats.
Context {St : Type}.
Implicit Types (ps : pstate St) (s : statsCollector St).

(** ** Open channels are registered *)

Definition open_in ps (ch p : nat) : Prop :=
  ∃ c, ps_chans ps !! ch = Some c ∧ ch_closed c = false ∧ ch_owner c = p.
Definition registered ps (ch p : nat) : Prop :=
  ∃ P, ps_pubs ps !! p = Some P ∧ ch ∈ dom (pub_subscribers P).

(** What a step does to registrations and open channels. *)
Definition same_subs ps ps' : Prop :=
  (∀ ch p, registered ps' ch p ↔ registered ps ch p) ∧
  (∀ ch p, open_in ps' ch p ↔ open_in ps ch p) ∧
  length (ps_chans ps') = length (ps_chans ps).

Lemma same_subs_calls ps calls m :
  same_subs ps (mkPstate (ps_chans ps) (ps_pubs ps) calls m).
Proof. by repeat split. Qed.

Lemma same_subs_chan ps ch c c' calls m :
  ps_chans ps !! ch = Some c → ch_closed c' = ch_closed c → ch_owner c' = ch_owner c →
  same_subs ps (mkPstate (<[ch := c']> (ps_chans ps)) (ps_pubs ps) calls m).
Proof.
  intros Hc Hcl Ho. split; [done|]. split; [|simpl; by rewrite length_insert].
  intros x p. unfold open_in; simpl. destruct (decide (ch = x)) as [<-|Hne].
  - rewrite list_lookup_insert_eq by (by eapply lookup_lt_Some).
    split; intros (d & Hd & H1 & H2).
    + injection Hd as <-. exists c. by rewrite <- Hcl, <- Ho.
    + simplify_eq. exists c'. by rewrite Hcl, Ho.
  - by rewrite list_lookup_insert_ne.
Qed.

Lemma Publish_start_subs i ps ps' : Publish_start i ps = Some ps' → same_subs ps ps'.
Proof.
  intros (k & Hk & (P & HP & Hst)%bind_Some)%bind_Some.
  destruct (call_progress k); simplify_eq. apply same_subs_calls.
Qed.
Lemma Publish_end_subs i ps ps' : Publish_end i ps = Some ps' → same_subs ps ps'.
Proof.
  intros (k & Hk & Hst)%bind_Some. destruct (call_progress k); simplify_eq.
  case_decide; simplify_eq. apply same_subs_calls.
Qed.
Lemma sendTopic_subs i ch how ps ps' : sendTopic i ch how ps = Some ps' → same_subs ps ps'.
Proof.
  intros (k & Hk & (P & HP & Hst)%bind_Some)%bind_Some.
  destruct (call_progress k) as [|subs|]; try done. case_decide; [|done].
  apply bind_Some in Hst as (topic & _ & (c & Hc & Hst)%bind_Some).
  repeat case_match; simplify_eq; first
    [exact (same_subs_calls ps _ _)
    |exact (same_subs_chan ps ch c (push c i (call_value k)) _ _ Hc eq_refl eq_refl)
    |exact (same_subs_chan ps ch c (hand c i (call_value k)) _ _ Hc eq_refl eq_refl)].
Qed.
Lemma receive_subs ch ps ps' : receive ch ps = Some ps' → same_subs ps ps'.
Proof.
  intros (c & Hc & Hst)%bind_Some. destruct (ch_queue c); simplify_eq. by eapply same_subs_chan.
Qed.

(** Dropping a subscriber. *)
Lemma drop_effect p sub ps ps' :
  drop_subscriber p sub ps = Some ps' →
  (∀ ch q, registered ps' ch q ↔ registered ps ch q ∧ (q = p → ch ≠ sub)) ∧
  (∀ ch q, open_in ps' ch q ↔ open_in ps ch q ∧ ch ≠ sub) ∧
  length (ps_chans ps') = length (ps_chans ps).
Proof.
  intros (P & HP & (c & Hc & [= <-])%bind_Some)%bind_Some. simpl in Hc.
  assert (sub < length (ps_chans ps)) as Hlt by (by eapply lookup_lt_Some).
  split; [|split].
  - intros ch q. assert (registered (with_pub ps p (with_subscribers P
      (delete sub (pub_subscribers P)))) ch q ↔ registered ps ch q ∧ (q = p → ch ≠ sub)) as Hd;
      [|by destruct (ch_closed c)].
    unfold registered; simpl. destruct (decide (p = q)) as [<-|Hne].
    + rewrite list_lookup_insert_eq by (by eapply lookup_lt_Some). split.
      * intros (P' & [= <-] & Hd). simpl in Hd. split; [exists P|]; set_solver.
      * intros ((P' & HP' & Hd) & Hns). simplify_eq. eexists. split; [done|]. simpl.
        set_solver.
    + rewrite list_lookup_insert_ne by done. naive_solver.
  - intros ch q. assert (∀ m c', ch_closed c' = true →
      (open_in (mkPstate (<[sub := c']> (ps_chans ps)) m (ps_calls ps) (ps_panic ps)) ch q ↔
       open_in ps ch q ∧ ch ≠ sub)) as Hd.
    { intros m c' Hcl. unfold open_in; simpl. destruct (decide (sub = ch)) as [<-|Hne].
      - rewrite list_lookup_insert_eq by done. split; [|naive_solver].
        intros (d & [= <-] & Hd & _). congruence.
      - rewrite list_lookup_insert_ne by done. naive_solver. }
    destruct (ch_closed c); by apply Hd.
  - destruct (ch_closed c); simpl; by rewrite length_insert.
Qed.

Lemma close_loop_effect p subs ps ps' :
  close_loop p subs ps = Some ps' → ps_panic ps' = None →
  (∀ ch q, registered ps' ch q ↔ registered ps ch q ∧ (q = p → ch ∉ subs)) ∧
  (∀ ch q, open_in ps' ch q ↔ open_in ps ch q ∧ ch ∉ subs) ∧
  length (ps_chans ps') = length (ps_chans ps).
Proof.
  revert ps. induction subs as [|sub subs IH]; intros ps; simpl.
  - intros [= <-] _. split; [|split]; [set_solver..|done].
  - intros (ps1 & H1 & Hst)%bind_Some Hnp.
    destruct (drop_effect p sub ps ps1 H1) as (Hr1 & Ho1 & Hl1).
    destruct (ps_panic ps1) eqn:Hp1; [congruence|].
    destruct (IH ps1 Hst Hnp) as (Hr2 & Ho2 & Hl2). split; [|split].
    + intros ch q. rewrite Hr2, Hr1, not_elem_of_cons. tauto.
    + intros ch q. rewrite Ho2, Ho1, not_elem_of_cons. tauto.
    + congruence.
Qed.

(** ** The invariant of the collector *)

Record stats_inv s : Prop := {
  si_ps : pub_inv (sc_ps s);
  si_for : length (sc_for s) = length (ps_chans (sc_ps s));
  si_open : ps_panic (sc_ps s) = None → ∀ ch p, open_in (sc_ps s) ch p →
    registered (sc_ps s) ch p ∧
    ∃ c, sc_for s !! ch = Some c ∧ sc_publishers s !! c = Some p;
  si_used : ps_panic (sc_ps s) = None → ∀ c p, sc_publishers s !! c = Some p →
    ∃ ch, registered (sc_ps s) ch p;
  si_inj : ∀ c c' p, sc_publishers s !! c = Some p → sc_publishers s !! c' = Some p → c = c';
  si_pubs : ∀ c p, sc_publishers s !! c = Some p → p < length (ps_pubs (sc_ps s))
}.

Lemma newStatsCollector_inv : stats_inv newStatsCollector.
Proof.
  split; [apply no_pubs_inv|done| |done..]. intros _ ch p (c & Hc & _). done.
Qed.

(** The subscribers of a publisher that is known are registered and open. *)
Lemma registered_open ps ch p : pub_inv ps → registered ps ch p → open_in ps ch p.
Proof.
  intros Hinv (P & HP & [topic Ht]%elem_of_dom).
  destruct (pi_subs ps Hinv p P ch topic HP Ht) as (c & Hc & Hcl & Ho & _). by exists c.
Qed.

(** Steps that neither subscribe nor close. *)
Lemma quiet_inv s s' :
  stats_inv s → pub_inv (sc_ps s') → same_subs (sc_ps s) (sc_ps s') →
  ps_panic (sc_ps s) = None → length (ps_pubs (sc_ps s')) = length (ps_pubs (sc_ps s)) →
  sc_publishers s' = sc_publishers s → sc_for s' = sc_for s → stats_inv s'.
Proof.
  intros [Hps Hfor Hopen Hused Hinj Hlt] Hps' (Hr & Ho & Hl) Hnp Hpl Hpub Hf.
  split; rewrite ?Hpub, ?Hf, ?Hl, ?Hpl; try done.
  - intros _ ch p. rewrite Ho, Hr. by apply Hopen.
  - intros _ c p Hc. destruct (Hused Hnp c p Hc) as [ch Hch]. exists ch. by apply Hr.
Qed.

Lemma SubscribeTopic_effect p topic ps ps' ch :
  Publisher_SubscribeTopic p topic ps = Some (ps', ch) →
  ch = length (ps_chans ps) ∧ length (ps_chans ps') = S ch ∧
  length (ps_pubs ps') = length (ps_pubs ps) ∧ ps_panic ps' = ps_panic ps ∧
  (∀ x q, registered ps' x q ↔ registered ps x q ∨ (x = ch ∧ q = p)) ∧
  (∀ x q, open_in ps' x q ↔ open_in ps x q ∨ (x = ch ∧ q = p)).
Proof.
  intros (P & HP & Hst)%bind_Some. case_match; [|done]. injection Hst as <- <-.
  split; [done|]. split; [simpl; rewrite length_app; simpl; lia|].
  split; [simpl; by rewrite length_insert|]. split; [done|]. split.
  - intros x q. unfold registered; simpl. destruct (decide (p = q)) as [<-|Hne].
    + rewrite list_lookup_insert_eq by (by eapply lookup_lt_Some). split.
      * intros (P' & [= <-] & Hd). simpl in Hd.
        rewrite dom_insert, elem_of_union, elem_of_singleton in Hd.
        destruct Hd as [-> |Hd]; [by right|]. left. by exists P.
      * intros Hx. eexists. split; [done|]. simpl.
        rewrite dom_insert, elem_of_union, elem_of_singleton.
        destruct Hx as [(P' & HP' & Hd)|[-> _]]; [|by left]. simplify_eq. by right.
    + rewrite list_lookup_insert_ne by done. naive_solver.
  - intros x q. unfold open_in; simpl. split.
    + intros (c & [Hc|[Hge Hc]]%lookup_app_Some & Hcl & Ho); [left; by exists c|].
      apply list_lookup_singleton_Some in Hc as [Hx <-]. right. simpl in Ho. split; [lia|done].
    + intros [(c & Hc & Hrest)|[-> ->]].
      * exists c. split; [by apply lookup_app_l_Some|done].
      * eexists. split; [by apply list_lookup_middle|done].
Qed.

(** The publisher that collect subscribes to. *)
Lemma publisher_for_inv s c publishers ps p :
  stats_inv s → ps_panic (sc_ps s) = None →
  match sc_publishers s !! c with
  | Some publisher => (sc_publishers s, sc_ps s, publisher)
  | None =>
      let '(ps, publisher) := NewPublisher (100 * 10^6) 1024 (sc_ps s) in
      (<[c := publisher]> (sc_publishers s), ps, publisher)
  end = (publishers, ps, p) →
  pub_inv ps ∧ ps_chans ps = ps_chans (sc_ps s) ∧ ps_panic ps = None ∧
  publishers !! c = Some p ∧ (∀ x, x ≠ c → publishers !! x = sc_publishers s !! x) ∧
  (∀ ch q, registered ps ch q ↔ registered (sc_ps s) ch q) ∧
  p < length (ps_pubs ps) ∧ length (ps_pubs (sc_ps s)) ≤ length (ps_pubs ps) ∧
  (∀ x, sc_publishers s !! x = Some p → x = c) ∧
  (∀ x q, sc_publishers s !! x = Some q → publishers !! x = Some q).
Proof.
  intros [Hps Hfor Hopen Hused Hinj Hlt] Hnp.
  destruct (sc_publishers s !! c) as [q|] eqn:Hc.
  - intros [= <- <- <-]. by repeat (split; [solve [eauto]|]).
  - intros [= <- <- <-]. split; [by apply (NewPublisher_inv (sc_ps s))|].
    split; [done|]. split; [done|]. split; [apply lookup_insert_eq|].
    split; [intros x Hx; by apply lookup_insert_ne|]. simpl. rewrite length_app; simpl.
    split; [|split; [lia|split; [lia|split]]].
    + intros ch q. unfold registered; simpl. split; intros (P & HP & Hd).
      * apply lookup_app_Some in HP as [HP|[_ HP]]; [by exists P|].
        apply list_lookup_singleton_Some in HP as [_ <-]. simpl in Hd. set_solver.
      * exists P. split; [by apply lookup_app_l_Some|done].
    + intros x Hx. apply Hlt in Hx. lia.
    + intros x q Hx. rewrite lookup_insert_ne; [done|]. intros ->. congruence.
Qed.

Lemma collect_inv c s s' ch :
  stats_inv s → ps_panic (sc_ps s) = None → collect c s = Some (s', ch) → stats_inv s'.
Proof.
  intros Hinv Hnp. unfold collect. destruct (match sc_publishers s !! c with
    | Some publisher => _ | None => _ end) as [[publishers ps] p] eqn:Hfor.
  destruct (publisher_for_inv s c publishers ps p Hinv Hnp Hfor)
    as (Hps & Hch & Hnp1 & Hc & Hother & Hreg & Hp & Hle & Hone & Hkeep).
  intros ([ps' ch'] & Hst & [= <- <-])%bind_Some.
  pose proof (Subscribe_inv _ _ _ _ _ Hps Hst) as Hps'.
  destruct (SubscribeTopic_effect _ _ _ _ _ Hst) as (-> & Hlen & Hpl & Hnp2 & Hr & Ho).
  pose proof Hinv as [_ Hf Hopen Hused Hinj Hlt]. rewrite Hch in *.
  assert (∀ x q, open_in ps x q ↔ open_in (sc_ps s) x q) as Hop
    by (intros x q; unfold open_in; by rewrite Hch).
  split; simpl; [done|rewrite length_app, Hlen; simpl; lia| | | |].
  - intros _ x q [Hx%Hop|[-> ->]]%Ho.
    + destruct (Hopen Hnp x q Hx) as (Hxr & c' & Hc' & Hq).
      split; [apply Hr; left; by apply Hreg|]. exists c'.
      split; [by apply lookup_app_l_Some|by apply Hkeep].
    + split; [apply Hr; by right|]. exists c. split; [|done]. rewrite <- Hf.
      by apply list_lookup_middle.
  - intros _ x q Hx. destruct (decide (x = c)) as [-> |Hne].
    + exists (length (ps_chans (sc_ps s))). apply Hr. right. split; [done|congruence].
    + rewrite Hother in Hx by done. destruct (Hused Hnp x q Hx) as [y Hy].
      exists y. apply Hr. left. by apply Hreg.
  - intros x y q Hx Hy. destruct (decide (x = c)) as [-> |Hxc], (decide (y = c)) as [-> |Hyc];
      [done|..].
    + rewrite Hother in Hy by done. simplify_eq. symmetry. by apply Hone.
    + rewrite Hother in Hx by done. simplify_eq. by apply Hone.
    + rewrite Hother in Hx, Hy by done. by apply (Hinj x y q).
  - intros x q Hx. rewrite Hpl. destruct (decide (x = c)) as [-> |Hxc]; [congruence|].
    rewrite Hother in Hx by done. apply Hlt in Hx. lia.
Qed.

Lemma drop_pubs_length p sub ps ps' :
  drop_subscriber p sub ps = Some ps' → length (ps_pubs ps') = length (ps_pubs ps).
Proof.
  intros (P & HP & (c & Hc & [= <-])%bind_Some)%bind_Some.
  destruct (ch_closed c); simpl; by rewrite length_insert.
Qed.

Lemma close_loop_pubs_length p subs ps ps' :
  close_loop p subs ps = Some ps' → length (ps_pubs ps') = length (ps_pubs ps) ∧
    length (ps_chans ps') = length (ps_chans ps).
Proof.
  revert ps. induction subs as [|sub subs IH]; intros ps; simpl; [by intros [= <-]|].
  intros (ps1 & H1 & Hst)%bind_Some. pose proof (drop_pubs_length _ _ _ _ H1) as Hp.
  destruct (drop_effect _ _ _ _ H1) as (_ & _ & Hl).
  destruct (ps_panic ps1); [simplify_eq; split; congruence|].
  destruct (IH ps1 Hst) as [Hp2 Hl2]. split; congruence.
Qed.

(** After a panic only the parts of the invariant that do not depend on it remain. *)
Lemma panicked_inv s ps m :
  stats_inv s → pub_inv ps → ps_panic ps = Some m →
  length (ps_chans ps) = length (ps_chans (sc_ps s)) →
  length (ps_pubs ps) = length (ps_pubs (sc_ps s)) →
  stats_inv (with_pubs s (sc_publishers s) ps).
Proof.
  intros [Hps Hfor Hopen Hused Hinj Hlt] Hinv Hp Hl Hpl.
  split; simpl; rewrite ?Hp, ?Hl, ?Hpl; done.
Qed.

(** A publisher that has no subscribers left leaves the map. *)
Lemma remove_publisher_inv s ps c p :
  stats_inv s → pub_inv ps → ps_panic (sc_ps s) = None →
  sc_publishers s !! c = Some p →
  length (ps_chans ps) = length (ps_chans (sc_ps s)) →
  length (ps_pubs ps) = length (ps_pubs (sc_ps s)) →
  (∀ ch, ¬ registered ps ch p) →
  (∀ ch q, q ≠ p → registered ps ch q ↔ registered (sc_ps s) ch q) →
  (∀ ch q, open_in ps ch q → open_in (sc_ps s) ch q) →
  (∀ ch, ¬ open_in ps ch p) →
  stats_inv (with_pubs s (delete c (sc_publishers s)) ps).
Proof.
  intros [Hps Hfor Hopen Hused Hinj Hlt] Hinv Hnp Hc Hl Hpl Hnr Hr Ho Hno.
  split; simpl; rewrite ?Hl, ?Hpl; try done.
  - intros _ ch q Hq. assert (q ≠ p) as Hne by (intros ->; by apply (Hno ch)).
    destruct (Hopen Hnp ch q (Ho ch q Hq)) as (Hreg & c' & Hc' & Hp').
    split; [by apply Hr|]. exists c'. split; [done|]. rewrite lookup_delete_ne; [done|].
    intros <-. congruence.
  - intros _ c' q [Hne Hq]%lookup_delete_Some. destruct (Hused Hnp c' q Hq) as [ch Hch].
    exists ch. apply Hr; [|done]. intros ->. apply Hne. by apply (Hinj c c' p).
  - intros c1 c2 q [_ H1]%lookup_delete_Some [_ H2]%lookup_delete_Some. by apply (Hinj c1 c2 q).
  - intros c1 q [_ H1]%lookup_delete_Some. by apply (Hlt c1).
Qed.

Lemma stopCollection_inv c s s' :
  stats_inv s → ps_panic (sc_ps s) = None → stopCollection c s = Some s' → stats_inv s'.
Proof.
  intros Hinv Hnp. unfold stopCollection.
  destruct (sc_publishers s !! c) as [p|] eqn:Hc; [|by intros [= <-]].
  intros (ps & Hcl & [= <-])%bind_Some.
  pose proof (Close_inv _ _ _ (si_ps s Hinv) Hnp Hcl) as Hps.
  apply bind_Some in Hcl as (P & HP & Hcl). destruct (write_lock_free _ _); [|done].
  destruct (close_loop_pubs_length _ _ _ _ Hcl) as [Hpl Hl].
  destruct (ps_panic ps) eqn:Hp; [by eapply panicked_inv|].
  destruct (close_loop_effect _ _ _ _ Hcl Hp) as (Hr & Ho & _).
  assert (∀ ch, ¬ registered ps ch p) as Hnone.
  { intros ch ((P' & HP' & Hd) & Hnot)%Hr. simplify_eq. apply (Hnot eq_refl).
    apply elem_of_dom in Hd as [topic Ht]. apply list_elem_of_fmap. exists (ch, topic).
    split; [done|]. by apply elem_of_map_to_list. }
  eapply remove_publisher_inv; try done.
  - intros ch q Hne. rewrite Hr. naive_solver.
  - intros ch q [H _]%Ho. exact H.
  - intros ch [Hop Hnot]%Ho. destruct (si_open s Hinv Hnp ch p Hop) as [Hreg _].
    apply (Hnone ch), Hr. done.
Qed.

Lemma unsubscribe_inv c ch s s' :
  stats_inv s → ps_panic (sc_ps s) = None → sc_for s !! ch = Some c →
  unsubscribe c ch s = Some s' → stats_inv s'.
Proof.
  intros Hinv Hnp Hfor. unfold unsubscribe.
  destruct (sc_publishers s !! c) as [p|] eqn:Hc; [|by intros [= <-]].
  intros (ps & Hev & [= <-])%bind_Some.
  assert (∀ q, open_in (sc_ps s) ch q → q = p) as Hown.
  { intros q Hop. destruct (si_open s Hinv Hnp ch q Hop) as (_ & c' & Hc' & Hq). congruence. }
  assert (pub_inv ps) as Hps.
  { eapply Evict_inv; [apply (si_ps s Hinv)|done| |exact Hev]. intros d Hd Hcl.
    apply Hown. by exists d. }
  unfold Publisher_Evict in Hev. destruct (write_lock_free _ _); [|done].
  destruct (drop_effect _ _ _ _ Hev) as (Hr & Ho & Hl).
  pose proof (drop_pubs_length _ _ _ _ Hev) as Hpl.
  destruct (ps_panic ps) eqn:Hp; [by eapply panicked_inv|].
  assert (∃ P, ps_pubs ps !! p = Some P) as [P HP].
  { apply lookup_lt_is_Some. rewrite Hpl. by apply (si_pubs s Hinv c). }
  rewrite HP. case_decide as Hlen.
  - assert (∀ x, ¬ registered ps x p) as Hnone.
    { intros x (P' & HP' & Hd). simplify_eq. apply map_size_empty_inv in Hlen.
      rewrite Hlen in Hd. set_solver. }
    eapply remove_publisher_inv; try done.
    + intros x q Hne. rewrite Hr. naive_solver.
    + intros x q [H _]%Ho. exact H.
    + intros x [Hop Hne]%Ho. destruct (si_open s Hinv Hnp x p Hop) as [Hreg _].
      apply (Hnone x), Hr. done.
  - destruct Hinv as [Hps0 Hf Hopen Hused Hinj Hlt].
    split; simpl; rewrite ?Hl, ?Hpl; try done.
    + intros _ x q [Hop Hne]%Ho. destruct (Hopen Hnp x q Hop) as [Hreg Hrest].
      split; [by apply Hr|done].
    + intros _ c' q Hq. destruct (decide (q = p)) as [-> |Hne].
      * destruct (map_choose (pub_subscribers P)) as (x & topic & Hx).
        { intros Hem. apply Hlen. by apply map_size_empty_iff. }
        exists x, P. split; [done|]. by apply elem_of_dom.
      * destruct (Hused Hnp c' q Hq) as [x Hx]. exists x. apply Hr. done.
Qed.

Lemma stats_exec_inv s s' l :
  stats_inv s → stats_label_ok s l → stats_exec s l = Some s' → stats_inv s'.
Proof.
  intros Hinv Hok. unfold stats_exec. destruct (ps_panic (sc_ps s)) eqn:Hnp; [done|].
  pose proof (si_ps s Hinv) as Hps.
  assert (∀ ps, pub_inv ps → same_subs (sc_ps s) ps →
    length (ps_pubs ps) = length (ps_pubs (sc_ps s)) → stats_inv (with_sc_ps s ps)) as Hquiet
    by (intros ps ???; by apply (quiet_inv s)).
  assert (∀ ps', ps' = sc_ps s → same_subs (sc_ps s) ps') as Hrefl
    by (intros ps' ->; by repeat split).
  destruct l; simpl; intros Hst.
  - apply fmap_Some in Hst as ([s1 ch] & Hst & ->). by eapply collect_inv.
  - by eapply stopCollection_inv.
  - by eapply unsubscribe_inv.
  - unfold run_tick in Hst. repeat case_match; simplify_eq. apply (quiet_inv s); eauto.
  - unfold run_no_usage in Hst. case_match; simplify_eq. apply (quiet_inv s); eauto.
  - unfold run_pair in Hst. repeat case_match; simplify_eq.
    + apply (quiet_inv s); [done|by apply call_Publish_inv|apply same_subs_calls|done..].
    + apply (quiet_inv s); eauto.
  - unfold run_return in Hst. repeat case_match; simplify_eq. apply (quiet_inv s); eauto.
  - apply fmap_Some in Hst as (ps & Hst & ->).
    apply Hquiet; [by eapply Publish_start_inv|by eapply Publish_start_subs|].
    apply bind_Some in Hst as (k & Hk & (P & HP & Hst)%bind_Some). by case_match; simplify_eq.
  - apply fmap_Some in Hst as (ps & Hst & ->).
    apply Hquiet; [by eapply sendTopic_inv|by eapply sendTopic_subs|].
    apply bind_Some in Hst as (k & Hk & (P & HP & Hst)%bind_Some).
    destruct (call_progress k); try done. case_match; [|done].
    apply bind_Some in Hst as (topic & _ & (c & Hc & Hst)%bind_Some).
    by repeat case_match; simplify_eq.
  - apply fmap_Some in Hst as (ps & Hst & ->).
    apply Hquiet; [by eapply Publish_end_inv|by eapply Publish_end_subs|].
    apply bind_Some in Hst as (k & Hk & Hst). by repeat case_match; simplify_eq.
  - apply fmap_Some in Hst as (ps & Hst & ->).
    apply Hquiet; [by eapply receive_inv|by eapply receive_subs|].
    apply bind_Some in Hst as (c & Hc & Hst). by repeat case_match; simplify_eq.
Qed.

(** C38: In every interleaving of the methods of the statistics collector, of its
    goroutine and of the receivers, where a subscriber unsubscribes from the container
    it subscribed to: no goroutine sends on a closed channel, and a panic is the second
    closing of some channel; otherwise every channel that is still open is registered
    with the publisher that the collector runs for the container of its subscriber, and
    every publisher the collector runs has a subscriber. *)
Theorem stats_subscribers_served s :
  rtc stats_step newStatsCollector s →
  match ps_panic (sc_ps s) with
  | Some m => m = "close of closed channel" ∧
      ∃ ch c, ps_chans (sc_ps s) !! ch = Some c ∧ 2 ≤ ch_closes c
  | None =>
      (∀ ch c, ps_chans (sc_ps s) !! ch = Some c → ch_closed c = false →
        ∃ name p P, sc_for s !! ch = Some name ∧ sc_publishers s !! name = Some p ∧
          ps_pubs (sc_ps s) !! p = Some P ∧ ch ∈ dom (pub_subscribers P)) ∧
      (∀ name p, sc_publishers s !! name = Some p →
        ∃ P, ps_pubs (sc_ps s) !! p = Some P ∧ 0 < Publisher_Len P)
  end.
Proof.
  intros Hr. assert (stats_inv s) as Hinv.
  { revert Hr. apply (rtc_invariant stats_step stats_inv); [|apply newStatsCollector_inv].
    intros s0 s1 Hinv (l & Hok & Hst). by eapply stats_exec_inv. }
  destruct (ps_panic (sc_ps s)) eqn:Hp; [by apply (pi_panic _ (si_ps s Hinv))|]. split.
  - intros ch c Hc Hcl. destruct (si_open s Hinv Hp ch (ch_owner c)) as ((P & HP & Hd) & n & Hn & Hpn);
      [by exists c|]. by exists n, (ch_owner c), P.
  - intros name p Hn. destruct (si_used s Hinv Hp name p Hn) as (ch & P & HP & Hd).
    exists P. split; [done|]. unfold Publisher_Len. apply Nat.neq_0_lt_0.
    intros Hz%map_size_empty_inv. rewrite Hz in Hd. set_solver.
Qed.
End stats.

(** ** Runs *)

Lemma stats_run_steps {St} (s s' : statsCollector St) ls :
  Forall (λ l, match l with SUnsubscribe _ _ => False | _ => True end) ls →
  stats_run s ls = Some s' → rtc stats_step s s'.
Proof.
  intros Hls. revert s. induction Hls as [|l ls Hl _ IH]; intros s; simpl; [by intros [= <-]|].
  intros (s1 & H1 & Hr)%bind_Some. eapply rtc_l; [|by apply IH]. exists l.
  split; [|done]. by destruct l.
Qed.

Definition demo_stats_run : list (stats_label nat) :=
  [SCollect "c"; SCollect "c"; STick; SPair (Some 5); SStart 0; SSend 0 1 ToQueue;
   SSend 0 0 ToQueue; SEnd 0; SReturn].
Definition demo_stats : statsCollector nat :=
  default newStatsCollector (stats_run newStatsCollector demo_stats_run).

Lemma stats_subscribers_served_witness :
  ps_panic (sc_ps demo_stats) = None ∧
  ∃ P, ps_pubs (sc_ps demo_stats) !! 0 = Some P ∧ 0 < Publisher_Len P.
Proof.
  assert (rtc stats_step newStatsCollector demo_stats) as Hr
    by (apply (stats_run_steps _ _ demo_stats_run); [repeat constructor|reflexivity]).
  split; [reflexivity|].
  exact (proj2 (stats_subscribers_served demo_stats Hr) "c" 0 eq_refl).
Defined.

(** A subscriber whose channel was closed by stopCollection, and who unsubscribes after
    another one has subscribed to the same container, closes its channel again: the
    panic leaves the mutexes of the collector and of the publisher locked. *)
Lemma unsubscribe_after_stop_panics :
  (λ s : statsCollector nat, ps_panic (sc_ps s)) <$>
    stats_run newStatsCollector [SCollect "c"; SStop "c"; SCollect "c"; SUnsubscribe "c" 0] =
  Some (Some "close of closed channel").
Proof. vm_compute. reflexivity. Qed.

(** The product of the ticks and the nanoseconds of a second wraps around: with a
    hundred ticks a second, after 2^64 / 10^9 ticks the usage starts again at zero. *)
Lemma system_usage_wraps :
  getSystemCPUUsage 100 (Some ["cpu  18446744073 0 0 0 0 0 0 0 0 0"]) = Ok 184467440730000000%Z ∧
  getSystemCPUUsage 100 (Some ["cpu  18446744074 0 0 0 0 0 0 0 0 0"]) = Ok 2904483%Z.
Proof. vm_compute. auto. Qed.
