(* ===== verification/MFlag.v ===== *)
(** * Command-line flags

    Model of pkg/mflag/flag.go, the parser of the flags of the docker commands.  A
    flag has several names, long names with a further dash and deprecated names with a
    leading #, and all of them lead to one record, which the model keeps in a heap.
    Values are those of the package, or of a type of the caller (class [CustomValue]),
    which also stands for floats and durations.  The messages and usage texts that
    parsing prints are left out, except the warnings about deprecated names.
    Merging of flag sets is not modelled. *)

From S2P Require Import Prelude GoStrings ShellWord GoUTF8.
#[local] Open Scope nat_scope.

(** ** Values *)

Class CustomValue (X : Type) := {
  x_Set : X → string → X * option string;
  x_String : X → string;
  x_IsBoolFlag : X → bool
}.

(** Digits in a base: [strconv] takes 0-9, a-z and A-Z for digits. *)
Definition base_digit (c : ascii) : option Z :=
  let n := nat_of_ascii c in
  if decide (48 ≤ n ≤ 57) then Some (Z.of_nat n - 48)%Z
  else if decide (97 ≤ n ≤ 122) then Some (Z.of_nat n - 87)%Z
  else if decide (65 ≤ n ≤ 90) then Some (Z.of_nat n - 55)%Z
  else None.

Inductive num_error := ErrSyntax | ErrRange.

(** The loop over the digits, which stops at the first bad digit or overflow. *)
Fixpoint base_digits (base maxVal : Z) (s : string) (n : Z) : Z * option num_error :=
  match s with
  | EmptyString => (n, None)
  | String c s =>
      match base_digit c with
      | Some v =>
          if Z.leb base v then (0%Z, Some ErrSyntax)
          else
            let n := (n * base + v)%Z in
            if Z.ltb maxVal n then (maxVal, Some ErrRange) else base_digits base maxVal s n
      | None => (0%Z, Some ErrSyntax)
      end
  end.

(** [strconv.ParseUint(s, 0, bitSize)]. *)
Definition ParseUint0 (s : string) (bitSize : Z) : Z * option num_error :=
  let maxVal := (2 ^ bitSize - 1)%Z in
  match s with
  | EmptyString => (0%Z, Some ErrSyntax)
  | String "0" (String "x" r) | String "0" (String "X" r) =>
      match r with
      | EmptyString => (0%Z, Some ErrSyntax)
      | _ => base_digits 16 maxVal r 0
      end
  | String "0" _ => base_digits 8 maxVal s 0
  | _ => base_digits 10 maxVal s 0
  end.

(** [strconv.ParseInt(s, 0, bitSize)]. *)
Definition ParseInt0 (s : string) (bitSize : Z) : Z * option num_error :=
  let '(neg, digits) :=
    match s with
    | String "+" r => (false, r)
    | String "-" r => (true, r)
    | _ => (false, s)
    end in
  match ParseUint0 digits bitSize with
  | (_, Some ErrSyntax) => (0%Z, Some ErrSyntax)
  | (un, err) =>
      let cutoff := (2 ^ (bitSize - 1))%Z in
      if negb neg && Z.leb cutoff un then ((cutoff - 1)%Z, Some ErrRange)
      else if neg && Z.ltb cutoff un then ((- cutoff)%Z, Some ErrRange)
      else (if neg then (- un)%Z else un, err)
  end.

(** [strconv.ParseBool]. *)
Definition ParseBool (s : string) : bool * option num_error :=
  if decide (s ∈ ["1"; "t"; "T"; "true"; "TRUE"; "True"]) then (true, None)
  else if decide (s ∈ ["0"; "f"; "F"; "false"; "FALSE"; "False"]) then (false, None)
  else (false, Some ErrSyntax).

Section flags.
Context {X : Type} `{custom : CustomValue X}.

Inductive Value :=
| boolValue (b : bool)
| intValue (z : Z)
| int64Value (z : Z)
| uintValue (z : Z)
| uint64Value (z : Z)
| uint16Value (z : Z)
| stringValue (s : string)
| customValue (x : X).

Inductive set_error :=
| NumError (e : num_error)
| CustomError (e : string).

Definition boolValue_Set (s : string) : Value * option set_error :=
  let '(v, err) := ParseBool s in (boolValue v, NumError <$> err).
Definition intValue_Set (s : string) : Value * option set_error :=
  let '(v, err) := ParseInt0 s 64 in (intValue v, NumError <$> err).
Definition int64Value_Set (s : string) : Value * option set_error :=
  let '(v, err) := ParseInt0 s 64 in (int64Value v, NumError <$> err).
Definition uintValue_Set (s : string) : Value * option set_error :=
  let '(v, err) := ParseUint0 s 64 in (uintValue v, NumError <$> err).
Definition uint64Value_Set (s : string) : Value * option set_error :=
  let '(v, err) := ParseUint0 s 64 in (uint64Value v, NumError <$> err).
Definition uint16Value_Set (s : string) : Value * option set_error :=
  let '(v, err) := ParseUint0 s 16 in (uint16Value v, NumError <$> err).
Definition stringValue_Set (s : string) : Value * option set_error := (stringValue s, None).

(** The value is replaced even when there is an error. *)
Definition Value_Set (v : Value) (s : string) : Value * option set_error :=
  match v with
  | boolValue _ => boolValue_Set s
  | intValue _ => intValue_Set s
  | int64Value _ => int64Value_Set s
  | uintValue _ => uintValue_Set s
  | uint64Value _ => uint64Value_Set s
  | uint16Value _ => uint16Value_Set s
  | stringValue _ => stringValue_Set s
  | customValue x => let '(x, err) := x_Set x s in (customValue x, CustomError <$> err)
  end.

Definition Value_String (v : Value) : string :=
  match v with
  | boolValue b => if b then "true" else "false"
  | intValue z | int64Value z | uintValue z | uint64Value z | uint16Value z => Sprintf_d z
  | stringValue s => s
  | customValue x => x_String x
  end.

Definition IsBoolFlag (v : Value) : bool :=
  match v with
  | boolValue _ => true
  | customValue x => x_IsBoolFlag x
  | _ => false
  end.

(** ** Flag sets *)

Inductive ErrorHandling := ContinueOnError | ExitOnError | PanicOnError.
Inductive nArgRequirementType := Exact | Max | Min.

Record Flag := mkFlag {
  fl_Names : list string;
  fl_Usage : string;
  fl_Value : Value;
  fl_DefValue : string
}.

Record FlagSet := mkFlagSet {
  fs_name : string;
  fs_parsed : bool;
  fs_flags : list Flag;
  fs_actual : gmap string nat;
  fs_formal : gmap string nat;
  fs_args : list string;
  fs_errorHandling : ErrorHandling;
  fs_nArgRequirements : list (nArgRequirementType * Z);
  (* warnings: a deprecated name and what replaces it, if anything *)
  fs_warnings : list (string * option string)
}.
Implicit Types (fs : FlagSet).

Definition with_args fs (args : list string) : FlagSet :=
  mkFlagSet (fs_name fs) (fs_parsed fs) (fs_flags fs) (fs_actual fs) (fs_formal fs) args
    (fs_errorHandling fs) (fs_nArgRequirements fs) (fs_warnings fs).
Definition with_flags fs (flags : list Flag) : FlagSet :=
  mkFlagSet (fs_name fs) (fs_parsed fs) flags (fs_actual fs) (fs_formal fs) (fs_args fs)
    (fs_errorHandling fs) (fs_nArgRequirements fs) (fs_warnings fs).
Definition with_formal fs (formal : gmap string nat) : FlagSet :=
  mkFlagSet (fs_name fs) (fs_parsed fs) (fs_flags fs) (fs_actual fs) formal (fs_args fs)
    (fs_errorHandling fs) (fs_nArgRequirements fs) (fs_warnings fs).
Definition with_actual fs (actual : gmap string nat) : FlagSet :=
  mkFlagSet (fs_name fs) (fs_parsed fs) (fs_flags fs) actual (fs_formal fs) (fs_args fs)
    (fs_errorHandling fs) (fs_nArgRequirements fs) (fs_warnings fs).
Definition with_warning fs (w : string * option string) : FlagSet :=
  mkFlagSet (fs_name fs) (fs_parsed fs) (fs_flags fs) (fs_actual fs) (fs_formal fs) (fs_args fs)
    (fs_errorHandling fs) (fs_nArgRequirements fs) (fs_warnings fs ++ [w]).

Definition NewFlagSet (name : string) (errorHandling : ErrorHandling) : FlagSet :=
  mkFlagSet name false [] ∅ ∅ [] errorHandling [] [].

Definition Init fs (name : string) (errorHandling : ErrorHandling) : FlagSet :=
  mkFlagSet name (fs_parsed fs) (fs_flags fs) (fs_actual fs) (fs_formal fs) (fs_args fs)
    errorHandling (fs_nArgRequirements fs) (fs_warnings fs).

Definition get_flag fs (a : nat) : option Flag := fs_flags fs !! a.
Definition Lookup fs (name : string) : option nat := fs_formal fs !! name.
Definition IsSet fs (name : string) : bool := bool_decide (is_Some (fs_actual fs !! name)).
Definition NFlag fs : nat := size (fs_actual fs).
Definition IsEmpty fs : bool := bool_decide (size (fs_actual fs) = 0).
Definition NArg fs : nat := length (fs_args fs).
Definition Arg fs (i : Z) : string :=
  if Z.ltb i 0 then "" else default "" (fs_args fs !! Z.to_nat i).
Definition isZeroValue (value : string) : bool := bool_decide (value ∈ ["false"; ""; "0"]).

(** Writing a value through a flag. *)
Definition set_value (f : Flag) (v : Value) : Flag :=
  mkFlag (fl_Names f) (fl_Usage f) v (fl_DefValue f).
Definition store fs (a : nat) (v : Value) : FlagSet :=
  match fs_flags fs !! a with
  | Some f => with_flags fs (<[a := set_value f v]> (fs_flags fs))
  | None => fs
  end.

(** [FlagSet.Var]: the panic for a name that is there keeps the names before it. *)
Fixpoint add_names fs (a : nat) (names : list string) : FlagSet * outcome string unit :=
  match names with
  | [] => (fs, Ok tt)
  | name :: names =>
      let name := TrimPrefix name "#" in
      match fs_formal fs !! name with
      | Some _ =>
          (fs, Panic (if decide (fs_name fs = "") then "flag redefined: " +:+ name
                      else fs_name fs +:+ " flag redefined: " +:+ name))
      | None => add_names (with_formal fs (<[name := a]> (fs_formal fs))) a names
      end
  end.

Definition Var fs (value : Value) (names : list string) (usage : string) :
    FlagSet * outcome string unit :=
  let a := length (fs_flags fs) in
  let flag := mkFlag names usage value (Value_String value) in
  add_names (with_flags fs (fs_flags fs ++ [flag])) a names.

Definition BoolVar fs (names : list string) (value : bool) (usage : string) :=
  Var fs (boolValue value) names usage.
Definition IntVar fs (names : list string) (value : Z) (usage : string) :=
  Var fs (intValue value) names usage.
Definition Int64Var fs (names : list string) (value : Z) (usage : string) :=
  Var fs (int64Value value) names usage.
Definition UintVar fs (names : list string) (value : Z) (usage : string) :=
  Var fs (uintValue value) names usage.
Definition Uint64Var fs (names : list string) (value : Z) (usage : string) :=
  Var fs (uint64Value value) names usage.
Definition Uint16Var fs (names : list string) (value : Z) (usage : string) :=
  Var fs (uint16Value value) names usage.
Definition StringVar fs (names : list string) (value : string) (usage : string) :=
  Var fs (stringValue value) names usage.

(** [FlagSet.Set]. *)
Definition FlagSet_Set fs (name value : string) : FlagSet * option (set_error + string) :=
  match fs_formal fs !! name with
  | None => (fs, Some (inr ("no such flag -" +:+ name)))
  | Some a =>
      match fs_flags fs !! a with
      | None => (fs, None)
      | Some flag =>
          let '(v, err) := Value_Set (fl_Value flag) value in
          let fs := store fs a v in
          match err with
          | Some e => (fs, Some (inl e))
          | None => (with_actual fs (<[name := a]> (fs_actual fs)), None)
          end
      end
  end.

Definition Require fs (type : nArgRequirementType) (n : Z) : FlagSet :=
  mkFlagSet (fs_name fs) (fs_parsed fs) (fs_flags fs) (fs_actual fs) (fs_formal fs) (fs_args fs)
    (fs_errorHandling fs) (fs_nArgRequirements fs ++ [(type, n)]) (fs_warnings fs).

(** The name of a command has no characters that are escaped between quotes. *)
Definition check_arg fs (req : nArgRequirementType * Z) : option string :=
  let n := Z.of_nat (NArg fs) in
  let arguments := if decide (req.2 = 1%Z) then "1 argument"
                   else Sprintf_d (req.2) +:+ " arguments" in
  let str (kind : string) :=
    String (ascii_of_nat 34) (fs_name fs) +:+ String (ascii_of_nat 34) " requires " +:+ kind +:+
    arguments in
  match req.1 with
  | Exact => if decide (n ≠ req.2) then Some (str "") else None
  | Max => if Z.ltb req.2 n then Some (str "a maximum of ") else None
  | Min => if Z.ltb n req.2 then Some (str "a minimum of ") else None
  end.

(** The message of the first requirement that is not met. *)
Fixpoint check_args fs (reqs : list (nArgRequirementType * Z)) : string :=
  match reqs with
  | [] => ""
  | req :: reqs =>
      match check_arg fs req with Some m => m | None => check_args fs reqs end
  end.
Definition CheckArgs fs : string := check_args fs (fs_nArgRequirements fs).

(** ** Parsing *)

Definition dquote : ascii := ascii_of_nat 34.
Definition squote : ascii := ascii_of_nat 39.

Fixpoint last_char (d : ascii) (s : string) : ascii :=
  match s with EmptyString => d | String c s => last_char c s end.
Fixpoint drop_last (s : string) : string :=
  match s with
  | EmptyString | String _ EmptyString => EmptyString
  | String c s => String c (drop_last s)
  end.

Definition trimQuotes (str : string) : outcome string string :=
  match str with
  | EmptyString => Ok str
  | String c r =>
      let quoted q := bool_decide (c = q) && bool_decide (last_char c r = q) in
      if quoted dquote || quoted squote then
        match r with
        | EmptyString => Panic "slice bounds out of range"
        | _ => Ok (drop_last r)
        end
      else Ok str
  end.

Inductive flag_error :=
| ErrHelp
| BadSyntax (s : string)
| NotDefined (name : string)
| InvalidBool (value name : string) (e : set_error)
| NeedsArgument (name : string)
| InvalidValue (value name : string) (e : set_error).

(** What parseOne returns without a final error: a flag was seen, there is none, or
    the letters of the name have to be tried. *)
Inductive one := Seen | NoFlag | ErrRetry (name : string).

(** The first name from a position on that is not deprecated. *)
Fixpoint replacement (names : list string) : outcome flag_error (option string) :=
  match names with
  | [] => Ok None
  | name :: names =>
      if decide (name = "") then Panic "index out of range"
      else if HasPrefix name "#" then replacement names else Ok (Some name)
  end.

(** The warnings for a name that the flag has as a deprecated one. *)
Fixpoint warn_deprecated fs (name : string) (names : list string) :
    FlagSet * outcome flag_error unit :=
  match names with
  | [] => (fs, Ok tt)
  | n :: rest =>
      if decide (n = "#" +:+ name) then
        match replacement names with
        | Ok r => warn_deprecated (with_warning fs (name, r)) name rest
        | Err e => (fs, Err e)
        | Panic m => (fs, Panic m)
        | Diverge => (fs, Diverge)
        end
      else warn_deprecated fs name rest
  end.

(** The end of parseOne, when the value is set. *)
Definition mark_actual fs (name : string) (a : nat) (flag : Flag) :
    FlagSet * outcome flag_error one :=
  let fs := with_actual fs (<[name := a]> (fs_actual fs)) in
  let! (fs, _) := warn_deprecated fs name (fl_Names flag) in (fs, Ok Seen).

(** The value of a flag that is defined. *)
Definition parse_value fs (name : string) (a : nat) (flag : Flag) (value : option string) :
    FlagSet * outcome flag_error one :=
  if IsBoolFlag (fl_Value flag) then
    match value with
    | Some value =>
        let '(v, err) := Value_Set (fl_Value flag) value in
        let fs := store fs a v in
        match err with
        | Some e => (fs, Err (InvalidBool value name e))
        | None => mark_actual fs name a flag
        end
    | None =>
        (* the error is not looked at *)
        let '(v, _) := Value_Set (fl_Value flag) "true" in
        mark_actual (store fs a v) name a flag
    end
  else
    let '(fs, value) :=
      match value, fs_args fs with
      | None, arg :: args => (with_args fs args, Some arg)
      | _, _ => (fs, value)
      end in
    match value with
    | None => (fs, Err (NeedsArgument name))
    | Some value =>
        let '(v, err) := Value_Set (fl_Value flag) value in
        let fs := store fs a v in
        match err with
        | Some e => (fs, Err (InvalidValue value name e))
        | None => mark_actual fs name a flag
        end
    end.

(** A name with the value after its equals sign, without quotes. *)
Definition name_value (name : string) : outcome flag_error (string * option string) :=
  match cut_at "=" name with
  | Some (name, value) =>
      match trimQuotes value with
      | Ok value => Ok (name, Some value)
      | Err m | Panic m => Panic m
      | Diverge => Diverge
      end
  | None => Ok (name, None)
  end.

(** The rest of parseOne, when the argument is a flag and was taken away. *)
Definition parse_flag fs (name : string) : FlagSet * outcome flag_error one :=
  match name_value name with
  | Ok (name, value) =>
      match fs_formal fs !! name with
      | None =>
          if decide (name ∈ ["-help"; "help"; "h"]) then (fs, Err ErrHelp)
          else if HasPrefix name "-" then (fs, Err (NotDefined name))
          else (fs, Ok (ErrRetry name))
      | Some a =>
          match fs_flags fs !! a with
          | Some flag => parse_value fs name a flag value
          | None => (fs, Panic "nil flag")
          end
      end
  | Err e => (fs, Err e)
  | Panic m => (fs, Panic m)
  | Diverge => (fs, Diverge)
  end.

Definition parseOne fs : FlagSet * outcome flag_error one :=
  match fs_args fs with
  | [] => (fs, Ok NoFlag)
  | s :: args =>
      match s with
      | EmptyString => (fs, Ok NoFlag)
      | String c name =>
          if decide (c ≠ "-"%char ∨ name = "") then (fs, Ok NoFlag)
          else if decide (name = "-") then (with_args fs args, Ok NoFlag)
          else if HasPrefix name "=" then (fs, Err (BadSyntax s))
          else parse_flag (with_args fs args) name
      end
  end.

(** [strings.Split(name, "")]: the characters; an invalid byte is replaced, except in
    the last piece. *)
Definition string_bytes (s : string) : list Z :=
  (λ c, Z.of_nat (nat_of_ascii c)) <$> String.list_ascii_of_string s.
Definition bytes_string (b : list Z) : string :=
  String.string_of_list_ascii ((λ z, ascii_of_nat (Z.to_nat z)) <$> b).
Fixpoint explode (cs : list (rune * list Z)) : list string :=
  match cs with
  | [] => []
  | [(_, b)] => [bytes_string b]
  | (r, _) :: cs => bytes_string (encode r) :: explode cs
  end.
Definition letters_of (name : string) : list string := explode (chunks (string_bytes name)).

(** The loop over the letters of a name that is not defined. *)
Fixpoint parse_letters fs (name : string) (letters : list string) :
    FlagSet * outcome flag_error unit :=
  match letters with
  | [] => (fs, Ok tt)
  | letter :: letters =>
      let fs := with_args fs (("-" +:+ letter) :: fs_args fs) in
      match parseOne fs with
      | (fs, Ok Seen) | (fs, Ok NoFlag) => parse_letters fs name letters
      | (fs, Ok (ErrRetry _)) | (fs, Err _) => (fs, Err (NotDefined name))
      | (fs, Panic m) => (fs, Panic m)
      | (fs, Diverge) => (fs, Diverge)
      end
  end.

(** How a failed Parse ends: it returns the error or leaves the process. *)
Inductive parse_end :=
| Failed (e : flag_error)
| Exited (code : Z).

Definition handle_error fs (e : flag_error) : FlagSet * outcome parse_end unit :=
  match fs_errorHandling fs with
  | ContinueOnError => (fs, Err (Failed e))
  | ExitOnError => (fs, Err (Exited 125))
  | PanicOnError => (fs, Panic "flag error")
  end.

Fixpoint parse_loop (fuel : nat) fs : FlagSet * outcome parse_end unit :=
  match fuel with
  | O => (fs, Diverge)
  | S fuel =>
      match parseOne fs with
      | (fs, Ok Seen) => parse_loop fuel fs
      | (fs, Ok NoFlag) => (fs, Ok tt)
      | (fs, Ok (ErrRetry name)) =>
          if decide (1 < String.length name) then
            match parse_letters fs name (letters_of name) with
            | (fs, Ok _) => parse_loop fuel fs
            | (fs, Err e) => handle_error fs e
            | (fs, Panic m) => (fs, Panic m)
            | (fs, Diverge) => (fs, Diverge)
            end
          else handle_error fs (NotDefined name)
      | (fs, Err e) => handle_error fs e
      | (fs, Panic m) => (fs, Panic m)
      | (fs, Diverge) => (fs, Diverge)
      end
  end.

Definition start_parse fs (arguments : list string) : FlagSet :=
  mkFlagSet (fs_name fs) true (fs_flags fs) (fs_actual fs) (fs_formal fs) arguments
    (fs_errorHandling fs) (fs_nArgRequirements fs) (fs_warnings fs).

Definition FlagSet_Parse fs (arguments : list string) : FlagSet * outcome parse_end unit :=
  parse_loop (S (length arguments)) (start_parse fs arguments).

(** [FlagSet.ParseFlags]: usage texts are left out; the help flag and a wrong number of
    arguments leave the process. *)
Definition ParseFlags fs (args : list string) (withHelp : bool) :
    FlagSet * outcome parse_end unit :=
  let help := length (fs_flags fs) in
  let '(fs, defined) :=
    if withHelp then BoolVar fs ["#help"; "-help"] false "Print usage" else (fs, Ok tt) in
  match defined with
  | Ok _ =>
      let! (fs, _) := FlagSet_Parse fs args in
      match (if withHelp then fl_Value <$> fs_flags fs !! help else None) with
      | Some (boolValue true) => (fs, Err (Exited 0))
      | _ => if decide (CheckArgs fs = "") then (fs, Ok tt) else (fs, Err (Exited 1))
      end
  | Err m | Panic m => (fs, Panic m)
  | Diverge => (fs, Diverge)
  end.
End flags.
Arguments Value : clear implicits.
Arguments Flag : clear implicits.
Arguments FlagSet : clear implicits.
