(* ===== verification/MFlagInv.v ===== *)
(** * What parsing of flags does

    Parsing ends on every argument list and leaves a suffix of it; on a command line
    written from flags and values it has the effect of setting these flags one after
    the other, with the error of the first value that is refused. *)

From S2P Require Import Prelude GoStrings ShellWord GoUTF8 MFlag.
#[local] Open Scope nat_scope.

(** ** The letters of a name *)

Lemma bytes_string_cons b bs : bytes_string (b :: bs) ≠ "".
Proof. done. Qed.

Lemma explode_ne cs l : (∀ r b, (r, b) ∈ cs → b ≠ []) → l ∈ explode cs → l ≠ "".
Proof.
  induction cs as [|[r b] cs IH]; intros Hb; [by intros ?%elem_of_nil|].
  destruct cs as [|[r' b'] cs].
  - intros ->%list_elem_of_singleton. destruct b as [|z b]; [|done].
    by destruct (Hb r []); [left|].
  - change (explode ((r, b) :: (r', b') :: cs))
      with (bytes_string (encode r) :: explode ((r', b') :: cs)).
    intros [-> |Hl]%elem_of_cons.
    + destruct (encode_cons r) as (z & t & ->). done.
    + apply IH; [|done]. intros x y Hxy. apply (Hb x). by right.
Qed.

Lemma chunks_ne s r b : (r, b) ∈ chunks s → b ≠ [].
Proof.
  remember (length s) as n eqn:Hn. revert s Hn.
  induction n as [n IH] using lt_wf_ind. intros [|z s] Hn; [by intros ?%elem_of_nil|].
  rewrite chunks_cons. destruct (decode z s) as [x w]. intros [[= -> ->]|Hin]%elem_of_cons; [done|].
  eapply (IH (length (drop (pred w) s))); [|done|exact Hin]. rewrite length_drop. simpl in Hn. lia.
Qed.

Lemma letters_of_ne name l : l ∈ letters_of name → l ≠ "".
Proof. apply explode_ne. intros r b. apply chunks_ne. Qed.

(** The letters of ASCII text are its characters. *)
Definition is_ascii (c : ascii) : Prop := nat_of_ascii c < 128.

Lemma byte_ascii c : ascii_of_nat (Z.to_nat (Z.of_nat (nat_of_ascii c))) = c.
Proof. by rewrite Nat2Z.id, ascii_nat_embedding. Qed.

Lemma letters_of_ascii cs :
  Forall is_ascii cs →
  letters_of (String.string_of_list_ascii cs) = (λ c, String c "") <$> cs.
Proof.
  unfold letters_of, string_bytes. intros Hcs.
  rewrite String.list_ascii_of_string_of_list_ascii.
  induction Hcs as [|c cs Hc Hcs IH]; [done|]. rewrite fmap_cons, chunks_cons.
  unfold decode. rewrite decide_True by (unfold is_ascii in Hc; lia).
  cbn [pred take drop]. unfold explode; fold explode.
  assert (bytes_string [Z.of_nat (nat_of_ascii c)] = String c "") as Hb.
  { unfold bytes_string. simpl. by rewrite byte_ascii. }
  assert (encode (Z.of_nat (nat_of_ascii c)) = [Z.of_nat (nat_of_ascii c)]) as Henc.
  { unfold is_ascii in Hc. unfold encode, valid_rune, between.
    rewrite (bool_decide_eq_true_2 (0 ≤ _ ≤ 55295)%Z) by lia. simpl.
    by rewrite decide_True by lia. }
  destruct cs as [|c' cs]; [simpl; by rewrite Hb|].
  destruct (chunks _) as [|[r b] ch] eqn:Hch.
  { exfalso. rewrite fmap_cons, chunks_cons in Hch. by destruct (decode _ _). }
  rewrite IH, Henc, Hb. done.
Qed.

Section flags.
Context {X : Type} `{custom : CustomValue X}.
Implicit Types (fs : FlagSet X).

(** ** Progress *)

Lemma store_args fs a v : fs_args (store fs a v) = fs_args fs.
Proof. unfold store. by case_match. Qed.

Lemma replacement_returns names : ∃ r, replacement names = Ok r ∨ ∃ m, replacement names = Panic m.
Proof.
  induction names as [|n names IH]; simpl; [by eexists; left|].
  case_decide; [by exists None; right; eexists|]. destruct (HasPrefix n "#"); [done|].
  by eexists; left.
Qed.

Lemma warn_deprecated_args fs name names fs' o :
  warn_deprecated fs name names = (fs', o) → fs_args fs' = fs_args fs ∧ o ≠ Diverge.
Proof.
  revert fs. induction names as [|n names IH]; intros fs; cbn [warn_deprecated];
    [by intros [= <- <-]|].
  case_decide; [|apply IH].
  destruct (replacement_returns (n :: names)) as [r [-> |[m ->]]]; [|by intros [= <- <-]].
  intros Hw. by apply IH in Hw.
Qed.

Lemma mark_actual_args fs name a flag fs' o :
  mark_actual fs name a flag = (fs', o) → fs_args fs' = fs_args fs ∧ o ≠ Diverge.
Proof.
  unfold mark_actual. destruct (warn_deprecated _ _ _) as [fs1 [| | |]] eqn:Hw;
    apply warn_deprecated_args in Hw as [Ha Hd]; simpl; intros [= <- <-]; done.
Qed.

Lemma parse_value_args fs name a flag value fs' o :
  parse_value fs name a flag value = (fs', o) →
  fs_args fs' `suffix_of` fs_args fs ∧ o ≠ Diverge.
Proof.
  assert (∀ fs1 fs2 o2 v, fs_args fs1 `suffix_of` fs_args fs →
    mark_actual (store fs1 a v) name a flag = (fs2, o2) →
    fs_args fs2 `suffix_of` fs_args fs ∧ o2 ≠ Diverge) as Hmark.
  { intros fs1 fs2 o2 v Hs Hm. apply mark_actual_args in Hm as [-> ?]. by rewrite store_args. }
  unfold parse_value. destruct (IsBoolFlag _).
  - destruct value as [value|].
    + destruct (Value_Set _ _) as [v [e|]]; [intros [= <- <-]; by rewrite store_args|].
      by apply Hmark.
    + destruct (Value_Set _ _) as [v e]. by apply Hmark.
  - destruct value as [value|].
    + destruct (Value_Set _ _) as [v [e|]]; [intros [= <- <-]; by rewrite store_args|].
      by apply Hmark.
    + destruct (fs_args fs) as [|arg args] eqn:Hargs; [intros [= <- <-]; by rewrite Hargs|].
      assert (fs_args (with_args fs args) `suffix_of` arg :: args) as Hsuf
        by (simpl; apply suffix_cons_r; done).
      destruct (Value_Set _ _) as [v [e|]]; [intros [= <- <-]; by rewrite store_args|].
      by apply Hmark.
Qed.

(** An argument that is not a flag. *)
Definition no_flag (s : string) : bool :=
  match s with
  | EmptyString => true
  | String c name => bool_decide (c ≠ "-"%char ∨ name = "")
  end.

Lemma trimQuotes_returns v : (∃ r, trimQuotes v = Ok r) ∨ ∃ m, trimQuotes v = Panic m.
Proof. destruct v as [|c [|c2 r]]; simpl; [eauto|..]; case_match; eauto. Qed.

Lemma parse_flag_args fs name fs' o :
  parse_flag fs name = (fs', o) → fs_args fs' `suffix_of` fs_args fs ∧ o ≠ Diverge.
Proof.
  unfold parse_flag, name_value.
  assert (∀ n v, match fs_formal fs !! n with
    | None => if decide (n ∈ ["-help"; "help"; "h"]) then (fs, Err ErrHelp)
              else if HasPrefix n "-" then (fs, Err (NotDefined n))
              else (fs, Ok (ErrRetry n))
    | Some a => match fs_flags fs !! a with
                | Some flag => parse_value fs n a flag v
                | None => (fs, Panic "nil flag")
                end
    end = (fs', o) → fs_args fs' `suffix_of` fs_args fs ∧ o ≠ Diverge) as Hrest.
  { intros n v. repeat case_match; try (by intros [= <- <-]). apply parse_value_args. }
  destruct (cut_at "=" name) as [[n v]|]; [|apply Hrest].
  destruct (trimQuotes_returns v) as [[r ->]|[m ->]]; [apply Hrest|by intros [= <- <-]].
Qed.

(** What parseOne does to the arguments. *)
Lemma parseOne_args fs fs' o :
  parseOne fs = (fs', o) →
  o ≠ Diverge ∧
  match fs_args fs with
  | [] => o = Ok NoFlag ∧ fs_args fs' = []
  | s :: args =>
      if no_flag s then o = Ok NoFlag ∧ fs_args fs' = s :: args
      else fs_args fs' `suffix_of` args ∨ (∃ e, o = Err e) ∧ fs_args fs' = s :: args
  end.
Proof.
  unfold parseOne. destruct (fs_args fs) as [|s args] eqn:Hargs; [by intros [= <- <-]|].
  destruct s as [|c name]; [by intros [= <- <-]|]. unfold no_flag.
  case_decide as Hno; [rewrite bool_decide_eq_true_2 by done; by intros [= <- <-]|].
  rewrite bool_decide_eq_false_2 by done.
  case_decide; [intros [= <- <-]; split; [done|by left]|].
  destruct (HasPrefix name "="); [intros [= <- <-]; split; [done|right; eauto]|].
  intros [Hsuf Hd]%parse_flag_args. split; [done|]. by left.
Qed.

(** The letters leave a suffix of the arguments too. *)
Lemma parse_letters_args fs name letters fs' o :
  (∀ l, l ∈ letters → l ≠ "") → parse_letters fs name letters = (fs', o) →
  o ≠ Diverge ∧ (∀ u, o = Ok u → fs_args fs' `suffix_of` fs_args fs).
Proof.
  revert fs. induction letters as [|l letters IH]; intros fs Hne; cbn [parse_letters];
    [by intros [= <- <-]|].
  destruct (parseOne _) as [fs1 o1] eqn:H1. apply parseOne_args in H1 as [Hd H1].
  cbn [fs_args with_args] in H1.
  assert (no_flag ("-" +:+ l) = false) as Hf.
  { apply bool_decide_eq_false_2. intros [?| ->]; [done|]. by apply (Hne ""); [left|]. }
  rewrite Hf in H1.
  destruct o1 as [[| |n]|e|m|]; [| |by intros [= <- <-]..|done];
    (destruct H1 as [Hs|[[e He] _]]; [|done]);
    (intros Hl; destruct (IH fs1) as [? Hr]; [intros x Hx; apply Hne; by right|exact Hl|];
     split; [done|]; intros u Hu; etransitivity; [by apply (Hr u)|done]).
Qed.

(** Enough fuel for any argument list. *)
Lemma parse_loop_returns fuel fs :
  length (fs_args fs) < fuel →
  (parse_loop fuel fs).2 ≠ Diverge ∧
  ∀ u, (parse_loop fuel fs).2 = Ok u → fs_args (parse_loop fuel fs).1 `suffix_of` fs_args fs.
Proof.
  revert fs. induction fuel as [|fuel IH]; intros fs Hlen; [lia|]. cbn [parse_loop].
  assert (∀ fs1 e, (handle_error fs1 e).2 ≠ Diverge ∧ ∀ u, (handle_error fs1 e).2 ≠ Ok u) as Herr
    by (intros fs1 e; unfold handle_error; by case_match).
  assert (∀ fs1 e, (handle_error fs1 e).2 ≠ Diverge ∧ ∀ u, (handle_error fs1 e).2 = Ok u →
    fs_args (handle_error fs1 e).1 `suffix_of` fs_args fs) as Herr'
    by (intros fs1 e; destruct (Herr fs1 e) as [? Hno]; split; [done|]; by intros u ?%Hno).
  destruct (parseOne fs) as [fs1 o1] eqn:H1. apply parseOne_args in H1 as [Hd H1].
  assert (∀ s args, fs_args fs = s :: args → fs_args fs1 `suffix_of` args →
    ∀ fs2, fs_args fs2 `suffix_of` fs_args fs1 →
    (parse_loop fuel fs2).2 ≠ Diverge ∧ ∀ u, (parse_loop fuel fs2).2 = Ok u →
      fs_args (parse_loop fuel fs2).1 `suffix_of` fs_args fs) as Hnext.
  { intros s args Hargs Hs fs2 Hs2. rewrite Hargs in *. simpl in Hlen.
    apply suffix_length in Hs as Hl1. apply suffix_length in Hs2 as Hl2.
    destruct (IH fs2) as [? Hr]; [lia|]. split; [done|]. intros u Hu.
    etransitivity; [by apply (Hr u)|]. etransitivity; [done|]. by apply suffix_cons_r. }
  destruct o1 as [[| |n]|e|m|]; [| | |by apply Herr'|done|done].
  - destruct (fs_args fs) as [|s args] eqn:Hargs; [naive_solver|].
    destruct (no_flag s); [naive_solver|]. destruct H1 as [H1|[[e He] _]]; [|done].
    by apply (Hnext s args).
  - split; [done|]. intros u _. simpl. destruct (fs_args fs) as [|s args]; [by destruct H1 as [_ ->]|].
    destruct (no_flag s); [by destruct H1 as [_ ->]|]. destruct H1 as [H1|[_ ->]]; [|done].
    by apply suffix_cons_r.
  - destruct (fs_args fs) as [|s args] eqn:Hargs; [naive_solver|].
    destruct (no_flag s); [naive_solver|]. destruct H1 as [H1|[[e He] _]]; [|done].
    case_decide; [|by apply Herr'].
    destruct (parse_letters fs1 n (letters_of n)) as [fs2 o2] eqn:H2.
    apply parse_letters_args in H2 as [Hd2 H2]; [|by apply letters_of_ne].
    destruct o2 as [u|e|m|]; [|by apply Herr'|done|done].
    apply (Hnext s args); [done..|]. by apply (H2 u).
Qed.

(** ** Command lines *)

(** A flag on a command line: without a value, with its value in quotes after an equals
    sign, with the value as the next argument, or several letters after one dash. *)
Inductive item :=
| Switch (name : string)
| Assign (name value : string)
| Separate (name value : string)
| Cluster (letters : list ascii).

Definition quoted (value : string) : string := String dquote (value +:+ String dquote "").

Definition item_text (it : item) : list string :=
  match it with
  | Switch name => ["-" +:+ name]
  | Assign name value => ["-" +:+ name +:+ "=" +:+ quoted value]
  | Separate name value => ["-" +:+ name; value]
  | Cluster letters => ["-" +:+ String.string_of_list_ascii letters]
  end.
Definition texts (items : list item) : list string := items ≫= item_text.

(** The flags an item sets, with the values. *)
Definition item_sets (it : item) : list (string * string) :=
  match it with
  | Switch name => [(name, "true")]
  | Assign name value | Separate name value => [(name, value)]
  | Cluster letters => (λ c, (String c "", "true")) <$> letters
  end.

(** Setting flags one after the other. *)
Fixpoint set_all fs (sets : list (string * string)) :
    FlagSet X * option (string * string * (set_error + string)) :=
  match sets with
  | [] => (fs, None)
  | (name, value) :: sets =>
      match FlagSet_Set fs name value with
      | (fs, None) => set_all fs sets
      | (fs, Some e) => (fs, Some (name, value, e))
      end
  end.

(** The error of Parse for a value that is refused. *)
Definition refused fs (name value : string) (e : set_error + string) : flag_error :=
  match e, fs_formal fs !! name ≫= λ a, fs_flags fs !! a with
  | inl e, Some flag =>
      if IsBoolFlag (fl_Value flag) then InvalidBool value name e else InvalidValue value name e
  | _, _ => NotDefined name
  end.

(** Setting the flags of items: the arguments after the flags are left, or after an
    error those after the refused item. *)
Fixpoint run_items fs (items : list item) (tail rest : list string) :
    FlagSet X * outcome parse_end unit :=
  match items with
  | [] => (with_args fs rest, Ok tt)
  | it :: items =>
      match set_all fs (item_sets it) with
      | (fs, None) => run_items fs items tail rest
      | (fs, Some (name, value, e)) =>
          handle_error (with_args fs (texts items ++ tail)) (refused fs name value e)
      end
  end.

(** A name of a flag, which is not a deprecated one. *)
Definition known fs (name : string) (f : Flag X) : Prop :=
  name ≠ "" ∧ name ≠ "-" ∧ contains_char "=" name = false ∧
  "#" +:+ name ∉ fl_Names f ∧
  ∃ a, fs_formal fs !! name = Some a ∧ fs_flags fs !! a = Some f.

Definition is_bool (v : Value X) : bool := match v with boolValue _ => true | _ => false end.

Definition item_ok fs (it : item) : Prop :=
  match it with
  | Switch name => ∃ f, known fs name f ∧ is_bool (fl_Value f) = true
  | Assign name _ => ∃ f, known fs name f
  | Separate name _ => ∃ f, known fs name f ∧ IsBoolFlag (fl_Value f) = false
  | Cluster letters =>
      1 < length letters ∧
      Forall (λ c, is_ascii c ∧ ∃ f, known fs (String c "") f ∧ is_bool (fl_Value f) = true) letters ∧
      fs_formal fs !! String.string_of_list_ascii letters = None ∧
      String.string_of_list_ascii letters ∉ ["-help"; "help"; "h"]
  end.

(** Where the flags end: at an argument that is none, or at two dashes. *)
Definition ends_flags (tail rest : list string) : Prop :=
  tail = rest ∧ (∀ s, head rest = Some s → no_flag s = true) ∨ tail = "--" :: rest.

(** *** What setting a flag keeps *)

Definition flag_shape (f : Flag X) : list string * bool * bool :=
  (fl_Names f, is_bool (fl_Value f), IsBoolFlag (fl_Value f)).

Definition same_shape fs fs' : Prop :=
  fs_formal fs' = fs_formal fs ∧ flag_shape <$> fs_flags fs' = flag_shape <$> fs_flags fs.

(** A type of values of the caller does not turn into boolean flags or back. *)
Class CustomLaws : Prop :=
  x_Set_bool : ∀ (x : X) s, x_IsBoolFlag (x_Set x s).1 = x_IsBoolFlag x.
Context {laws : CustomLaws}.

Lemma Value_Set_shape v s :
  is_bool (Value_Set v s).1 = is_bool v ∧ IsBoolFlag (Value_Set v s).1 = IsBoolFlag v.
Proof using laws.
  destruct v; simpl;
    unfold boolValue_Set, intValue_Set, int64Value_Set, uintValue_Set, uint64Value_Set, uint16Value_Set;
    repeat case_match; try done.
  split; [done|]. simpl. by rewrite <- (x_Set_bool x s), H.
Qed.

Lemma FlagSet_Set_shape fs name value : same_shape fs (FlagSet_Set fs name value).1.
Proof using laws.
  unfold FlagSet_Set. destruct (fs_formal fs !! name) as [a|]; [|done].
  destruct (fs_flags fs !! a) as [f|] eqn:Ha; [|done].
  pose proof (Value_Set_shape (fl_Value f) value) as [Hb Hi].
  destruct (Value_Set _ _) as [v err]. simpl in Hb, Hi.
  assert (same_shape fs (store fs a v)) as Hs.
  { unfold store. rewrite Ha. split; [done|]. simpl. rewrite list_fmap_insert.
    apply list_insert_id. rewrite list_lookup_fmap, Ha. simpl. unfold flag_shape. simpl.
    by rewrite Hb, Hi. }
  by destruct err.
Qed.

Lemma known_shape fs fs' name f :
  same_shape fs fs' → known fs name f →
  ∃ f', known fs' name f' ∧ flag_shape f' = flag_shape f.
Proof.
  intros [Hf Hs] (Hne & Hd & Heq & Hdep & a & Ha & Hfl).
  assert (flag_shape <$> fs_flags fs' !! a = Some (flag_shape f)) as Hl.
  { by rewrite <- list_lookup_fmap, Hs, list_lookup_fmap, Hfl. }
  apply fmap_Some in Hl as (f' & Hf' & Hsh). exists f'. split; [|done].
  assert (fl_Names f' = fl_Names f) as Hn by (unfold flag_shape in Hsh; congruence).
  split; [done|]. split; [done|]. split; [done|]. rewrite Hn, Hf. split; [done|]. by exists a.
Qed.

Lemma item_ok_shape fs fs' it : same_shape fs fs' → item_ok fs it → item_ok fs' it.
Proof.
  intros Hs. destruct it as [n|n v|n v|cs]; simpl.
  - intros (f & Hk & Hb). destruct (known_shape fs fs' n f Hs Hk) as (f' & Hk' & Hsh).
    exists f'. split; [done|]. unfold flag_shape in Hsh. congruence.
  - intros (f & Hk). destruct (known_shape fs fs' n f Hs Hk) as (f' & Hk' & _). by exists f'.
  - intros (f & Hk & Hb). destruct (known_shape fs fs' n f Hs Hk) as (f' & Hk' & Hsh).
    exists f'. split; [done|]. unfold flag_shape in Hsh. congruence.
  - intros (Hlen & Hcs & Hnone & Hhelp). split; [done|]. split; [|by destruct Hs as [-> _]].
    eapply Forall_impl; [exact Hcs|]. intros c (Ha & f & Hk & Hb). split; [done|].
    destruct (known_shape fs fs' _ f Hs Hk) as (f' & Hk' & Hsh). exists f'. split; [done|].
    unfold flag_shape in Hsh. congruence.
Qed.

Lemma set_all_shape fs sets : same_shape fs (set_all fs sets).1.
Proof using laws.
  revert fs. induction sets as [|[n v] sets IH]; intros fs; [done|]. simpl.
  pose proof (FlagSet_Set_shape fs n v) as [Hf Hs].
  destruct (FlagSet_Set fs n v) as [fs1 [e|]]; [done|]. destruct (IH fs1) as [Hf1 Hs1].
  split; simpl in *; congruence.
Qed.

(** *** One item *)

Lemma Set_with_args fs args n v :
  FlagSet_Set (with_args fs args) n v =
    (with_args (FlagSet_Set fs n v).1 args, (FlagSet_Set fs n v).2).
Proof.
  unfold FlagSet_Set, store. simpl. destruct (fs_formal fs !! n) as [a|]; [|done]. simpl.
  destruct (fs_flags fs !! a) as [f|] eqn:Ha; [|done]. simpl.
  destruct (Value_Set _ _) as [w [e|]]; [done|]. done.
Qed.

Lemma not_deprecated fs name names :
  "#" +:+ name ∉ names → warn_deprecated fs name names = (fs, Ok tt).
Proof.
  induction names as [|n names IH]; [done|]. intros [Hn Hr]%not_elem_of_cons.
  cbn [warn_deprecated]. rewrite decide_False by congruence. by apply IH.
Qed.

(** A flag with a value is set. *)
Lemma parse_value_sets fs name a f value :
  fs_formal fs !! name = Some a → fs_flags fs !! a = Some f → "#" +:+ name ∉ fl_Names f →
  parse_value fs name a f (Some value) =
    match FlagSet_Set fs name value with
    | (fs', None) => (fs', Ok Seen)
    | (fs', Some e) => (fs', Err (refused fs name value e))
    end.
Proof.
  intros Ha Hf Hdep. unfold parse_value, FlagSet_Set, refused, mark_actual. rewrite Ha. simpl.
  rewrite Hf. destruct (Value_Set (fl_Value f) value) as [v [e|]]; destruct (IsBoolFlag (fl_Value f));
    rewrite ?not_deprecated by done; done.
Qed.

Lemma Value_Set_true (v : Value X) :
  is_bool v = true → Value_Set v "true" = (boolValue true, None) ∧ IsBoolFlag v = true.
Proof. by destruct v. Qed.

(** A switch is set to true. *)
Lemma parse_value_switch fs name a f :
  fs_formal fs !! name = Some a → fs_flags fs !! a = Some f → "#" +:+ name ∉ fl_Names f →
  is_bool (fl_Value f) = true →
  parse_value fs name a f None = ((FlagSet_Set fs name "true").1, Ok Seen) ∧
  (FlagSet_Set fs name "true").2 = None.
Proof.
  intros Ha Hf Hdep Hb. destruct (Value_Set_true _ Hb) as [Hv Hi].
  unfold parse_value, FlagSet_Set, mark_actual. rewrite Ha. simpl. rewrite Hf, Hi, Hv.
  by rewrite not_deprecated.
Qed.

(** An argument that is a flag. *)
Lemma parseOne_dash fs name args :
  fs_args fs = ("-" +:+ name) :: args → name ≠ "" → name ≠ "-" → HasPrefix name "=" = false →
  parseOne fs = parse_flag (with_args fs args) name.
Proof.
  intros Hargs Hne Hd Hp. unfold parseOne. rewrite Hargs.
  change ("-" +:+ name) with (String "-" name). cbv beta match.
  rewrite (decide_False (P := _ ∨ _)) by naive_solver. by rewrite decide_False, Hp by done.
Qed.

Lemma no_equals_prefix name t :
  name ≠ "" → contains_char "=" name = false → HasPrefix (name +:+ t) "=" = false.
Proof.
  destruct name as [|c name]; [done|]. intros _. simpl. unfold HasPrefix. simpl.
  destruct (decide ("="%char = c)) as [<-|]; [|done]. by rewrite bool_decide_eq_true_2.
Qed.

Lemma drop_last_snoc s c : drop_last (s +:+ String c "") = s.
Proof.
  induction s as [|a s IH]; [done|]. rewrite append_cons. cbn [drop_last].
  destruct (s +:+ String c "") as [|b t] eqn:Hs; [by destruct s|]. by rewrite IH.
Qed.

Lemma last_char_snoc d s c : last_char d (s +:+ String c "") = c.
Proof. revert d. induction s as [|a s IH]; intros d; simpl; [done|]. apply IH. Qed.

Lemma trimQuotes_quoted v : trimQuotes (quoted v) = Ok v.
Proof.
  unfold quoted, trimQuotes. rewrite last_char_snoc, drop_last_snoc.
  rewrite bool_decide_eq_true_2 by done. simpl. by destruct v.
Qed.

Lemma name_value_assign name v :
  contains_char "=" name = false →
  name_value (name +:+ "=" +:+ quoted v) = Ok (name, Some v).
Proof.
  intros Hn%cut_at_None. unfold name_value. change ("=" +:+ quoted v) with (String "=" (quoted v)).
  rewrite cut_at_append by done. by rewrite trimQuotes_quoted.
Qed.

Lemma name_value_plain name : contains_char "=" name = false → name_value name = Ok (name, None).
Proof. intros Hn%cut_at_None. unfold name_value. by rewrite Hn. Qed.

Lemma append_neq_dash name t : contains_char "=" (name +:+ "=" +:+ t) = true → name +:+ "=" +:+ t ≠ "-".
Proof. intros Hc Heq. by rewrite Heq in Hc. Qed.

(** The steps of the loop for one item that is not a cluster. *)
Lemma parseOne_assign fs name v f args :
  known fs name f → fs_args fs = ("-" +:+ name +:+ "=" +:+ quoted v) :: args →
  parseOne fs =
    match FlagSet_Set (with_args fs args) name v with
    | (fs', None) => (fs', Ok Seen)
    | (fs', Some e) => (fs', Err (refused (with_args fs args) name v e))
    end.
Proof.
  intros (Hne & Hd & Heq & Hdep & a & Ha & Hf) Hargs.
  rewrite (parseOne_dash fs (name +:+ "=" +:+ quoted v) args); [|done|by destruct name| |].
  - unfold parse_flag. rewrite name_value_assign by done. cbn [fs_formal with_args fs_flags].
    rewrite Ha, Hf. by apply parse_value_sets.
  - apply append_neq_dash. rewrite !contains_char_app. simpl. by rewrite orb_true_r.
  - by apply no_equals_prefix.
Qed.

Lemma parseOne_separate fs name v f args :
  known fs name f → IsBoolFlag (fl_Value f) = false →
  fs_args fs = ("-" +:+ name) :: v :: args →
  parseOne fs =
    match FlagSet_Set (with_args fs args) name v with
    | (fs', None) => (fs', Ok Seen)
    | (fs', Some e) => (fs', Err (refused (with_args fs args) name v e))
    end.
Proof.
  intros (Hne & Hd & Heq & Hdep & a & Ha & Hf) Hb Hargs.
  rewrite (parseOne_dash fs name (v :: args)); [|done..|].
  - unfold parse_flag. rewrite name_value_plain by done. cbn [fs_formal with_args fs_flags].
    rewrite Ha, Hf. rewrite <- (parse_value_sets (with_args fs args) name a f v) by done.
    unfold parse_value. by rewrite Hb.
  - rewrite <- (append_nil_r name). by apply no_equals_prefix.
Qed.

Lemma parseOne_switch fs name f args :
  known fs name f → is_bool (fl_Value f) = true → fs_args fs = ("-" +:+ name) :: args →
  parseOne fs = ((FlagSet_Set (with_args fs args) name "true").1, Ok Seen) ∧
  (FlagSet_Set (with_args fs args) name "true").2 = None.
Proof.
  intros (Hne & Hd & Heq & Hdep & a & Ha & Hf) Hb Hargs.
  rewrite (parseOne_dash fs name args); [|done..|].
  - unfold parse_flag. rewrite name_value_plain by done. cbn [fs_formal with_args fs_flags].
    rewrite Ha, Hf. by apply parse_value_switch.
  - rewrite <- (append_nil_r name). by apply no_equals_prefix.
Qed.

(** *** Letters after one dash *)

Lemma with_args_id fs : with_args fs (fs_args fs) = fs.
Proof. by destruct fs. Qed.

Lemma set_all_with_args fs args sets :
  set_all (with_args fs args) sets = (with_args (set_all fs sets).1 args, (set_all fs sets).2).
Proof.
  revert fs. induction sets as [|[n v] sets IH]; intros fs; [done|]. simpl.
  rewrite Set_with_args. destruct (FlagSet_Set fs n v) as [fs1 [e|]]; simpl; [done|]. apply IH.
Qed.

Lemma same_shape_trans fs1 fs2 fs3 :
  same_shape fs1 fs2 → same_shape fs2 fs3 → same_shape fs1 fs3.
Proof. intros [Hf Hs] [Hf' Hs']. split; congruence. Qed.

Definition letter_ok fs (c : ascii) : Prop :=
  is_ascii c ∧ ∃ f, known fs (String c "") f ∧ is_bool (fl_Value f) = true.

Lemma letter_ok_shape fs fs' c : same_shape fs fs' → letter_ok fs c → letter_ok fs' c.
Proof.
  intros Hs (Ha & f & Hk & Hb). split; [done|].
  destruct (known_shape fs fs' _ f Hs Hk) as (f' & Hk' & Hsh). exists f'. split; [done|].
  unfold flag_shape in Hsh. congruence.
Qed.

Lemma parse_letters_sets fs name cs :
  Forall (letter_ok fs) cs →
  parse_letters fs name ((λ c, String c "") <$> cs) =
    ((set_all fs (item_sets (Cluster cs))).1, Ok tt) ∧
  (set_all fs (item_sets (Cluster cs))).2 = None.
Proof using laws.
  revert fs. induction cs as [|c cs IH]; intros fs Hcs; [done|].
  apply Forall_cons in Hcs as [(Ha & f & Hk & Hb) Hcs].
  cbn [fmap list_fmap item_sets parse_letters set_all].
  set (fs1 := with_args fs _).
  destruct (parseOne_switch fs1 (String c "") f (fs_args fs)) as [-> Hn]; [done|done|done|].
  change (with_args fs1 (fs_args fs)) with (with_args fs (fs_args fs)) in *.
  rewrite with_args_id in *. pose proof (FlagSet_Set_shape fs (String c "") "true") as Hs.
  destruct (FlagSet_Set fs (String c "") "true") as [fs2 e]. simpl in Hn, Hs. subst e. simpl.
  apply IH. eapply Forall_impl; [exact Hcs|]. intros x. by apply letter_ok_shape.
Qed.

Lemma letters_text_no_equals fs cs :
  Forall (letter_ok fs) cs → contains_char "=" (String.string_of_list_ascii cs) = false.
Proof.
  induction 1 as [|c cs (_ & f & (_ & _ & Heq & _) & _) _ IH]; [done|]. simpl in *.
  rewrite IH. by rewrite orb_false_r in Heq |- *.
Qed.

Lemma parseOne_cluster fs cs args :
  item_ok fs (Cluster cs) →
  fs_args fs = ("-" +:+ String.string_of_list_ascii cs) :: args →
  parseOne fs = (with_args fs args, Ok (ErrRetry (String.string_of_list_ascii cs))).
Proof.
  intros (Hlen & Hcs & Hnone & Hhelp) Hargs.
  pose proof (letters_text_no_equals fs cs Hcs) as Heq.
  destruct cs as [|c [|c2 cs]]; [simpl in Hlen; lia..|].
  apply Forall_cons in Hcs as [(_ & f & (_ & Hd & _) & _) _].
  set (name := String.string_of_list_ascii (c :: c2 :: cs)) in *.
  rewrite (parseOne_dash fs name args); [|done..|].
  - unfold parse_flag. rewrite name_value_plain by done. cbn [fs_formal with_args].
    rewrite Hnone, decide_False by done.
    assert (HasPrefix name "-" = false) as ->; [|done].
    unfold HasPrefix, name. simpl. destruct (decide ("-"%char = c)) as [<-|]; [done|done].
  - rewrite <- (append_nil_r name). by apply no_equals_prefix.
Qed.

Lemma string_of_list_length cs : String.length (String.string_of_list_ascii cs) = length cs.
Proof. induction cs as [|c cs IH]; simpl; [done|]. by rewrite IH. Qed.

(** *** The loop *)

Lemma refused_shape fs fs' name value e :
  same_shape fs fs' → refused fs' name value e = refused fs name value e.
Proof.
  intros [Hf Hs]. unfold refused. rewrite Hf. destruct (fs_formal fs !! name) as [a|]; [|done].
  simpl. assert (flag_shape <$> fs_flags fs' !! a = flag_shape <$> fs_flags fs !! a) as Hl
    by (by rewrite <- !list_lookup_fmap, Hs).
  destruct (fs_flags fs' !! a), (fs_flags fs !! a); try done. simpl in Hl.
  unfold flag_shape in Hl. injection Hl as _ _ Hi. by rewrite Hi.
Qed.

Definition clustered (it : item) : bool := match it with Cluster _ => true | _ => false end.

(** A step that sets one flag. *)
Definition one_step fs (it : item) (args : list string) (fs' : FlagSet X) (o : outcome flag_error one) :
    Prop :=
  match set_all fs (item_sets it) with
  | (fs1, None) => fs' = with_args fs1 args ∧ o = Ok Seen
  | (fs1, Some (name, value, e)) =>
      fs' = with_args fs1 args ∧ o = Err (refused fs1 name value e)
  end.

Lemma parse_single fs it args :
  item_ok fs it → clustered it = false →
  fs_args fs = item_text it ++ args →
  one_step fs it args (parseOne fs).1 (parseOne fs).2.
Proof using laws.
  intros Hok Hno Hargs. unfold one_step.
  assert (∀ n v, parseOne fs =
      match FlagSet_Set (with_args fs args) n v with
      | (fs', None) => (fs', Ok Seen)
      | (fs', Some e) => (fs', Err (refused (with_args fs args) n v e))
      end →
    match set_all fs [(n, v)] with
    | (fs1, None) => (parseOne fs).1 = with_args fs1 args ∧ (parseOne fs).2 = Ok Seen
    | (fs1, Some (name, value, e)) =>
        (parseOne fs).1 = with_args fs1 args ∧ (parseOne fs).2 = Err (refused fs1 name value e)
    end) as Hset.
  { intros n v ->. rewrite Set_with_args. simpl.
    pose proof (FlagSet_Set_shape fs n v) as Hs.
    destruct (FlagSet_Set fs n v) as [fs1 [e|]]; simpl in *; [|done]. split; [done|].
    by rewrite (refused_shape fs fs1), (refused_shape fs (with_args fs args)). }
  destruct it as [n|n v|n v|cs]; simpl in *; [| | |done].
  - destruct Hok as (f & Hk & Hb). apply (Hset n "true").
    destruct (parseOne_switch fs n f args Hk Hb Hargs) as [-> Hn].
    by destruct (FlagSet_Set _ n "true") as [fs1 e]; simpl in *; subst e.
  - destruct Hok as (f & Hk). apply (Hset n v). by apply (parseOne_assign fs n v f).
  - destruct Hok as (f & Hk & Hb). apply (Hset n v). by apply (parseOne_separate fs n v f).
Qed.

Lemma parse_loop_end fuel fs tail rest :
  ends_flags tail rest → parse_loop (S fuel) (with_args fs tail) = (with_args fs rest, Ok tt).
Proof.
  intros [[-> Hno]| ->]; [|done]. cbn [parse_loop].
  assert (parseOne (with_args fs rest) = (with_args fs rest, Ok NoFlag)) as ->; [|done].
  unfold parseOne. cbn [fs_args with_args]. destruct rest as [|s rest]; [done|].
  specialize (Hno s eq_refl). unfold no_flag in Hno. destruct s as [|c name]; [done|].
  apply bool_decide_eq_true in Hno. by rewrite decide_True.
Qed.

Lemma parse_items fuel fs items tail rest :
  Forall (item_ok fs) items → ends_flags tail rest →
  length (texts items ++ tail) < fuel →
  parse_loop fuel (with_args fs (texts items ++ tail)) = run_items fs items tail rest.
Proof using laws.
  revert fs fuel. induction items as [|it items IH]; intros fs fuel Hok Hend Hlen.
  { destruct fuel as [|fuel]; [simpl in Hlen; lia|]. by apply parse_loop_end. }
  apply Forall_cons in Hok as [Hit Hok]. destruct fuel as [|fuel]; [lia|].
  assert (texts (it :: items) ++ tail = item_text it ++ texts items ++ tail) as Htx
    by (unfold texts; simpl; by rewrite <- app_assoc).
  rewrite Htx in *. cbn [run_items parse_loop].
  assert (∃ t ts, item_text it = t :: ts) as (t & ts & Htt) by (destruct it; eauto).
  rewrite length_app, Htt in Hlen. simpl in Hlen.
  pose proof (set_all_shape fs (item_sets it)) as Hsh.
  assert (∀ fs1, same_shape fs fs1 →
    parse_loop fuel (with_args fs1 (texts items ++ tail)) = run_items fs1 items tail rest) as Hnext.
  { intros fs1 Hs. apply IH; [|done|lia]. eapply Forall_impl; [exact Hok|].
    intros x. by apply item_ok_shape. }
  destruct (clustered it) eqn:Hno; [destruct it as [| | |cs]; [done..|]|].
  2:{ pose proof (parse_single (with_args fs (item_text it ++ texts items ++ tail)) it
      (texts items ++ tail) Hit Hno eq_refl) as Hone.
    unfold one_step in Hone. rewrite set_all_with_args in Hone.
    destruct (parseOne _) as [fs' o]. simpl in Hone, Hsh.
    destruct (set_all fs (item_sets it)) as [fs1 [[[n v] e]|]]; destruct Hone as [-> ->]; simpl.
    { done. }
    exact (Hnext fs1 Hsh). }
  cbn [item_text app].
  rewrite (parseOne_cluster (with_args fs (("-" +:+ String.string_of_list_ascii cs)
    :: texts items ++ tail)) cs (texts items ++ tail) Hit eq_refl).
  pose proof Hit as (Hl & Hcs & _). rewrite decide_True by (by rewrite string_of_list_length).
  rewrite letters_of_ascii by (eapply Forall_impl; [exact Hcs|]; naive_solver).
  match goal with
  | |- context [with_args (with_args fs ?a) ?b] =>
      change (with_args (with_args fs a) b) with (with_args fs b)
  end.
  destruct (parse_letters_sets (with_args fs (texts items ++ tail))
    (String.string_of_list_ascii cs) cs Hcs) as [-> Hn].
  rewrite set_all_with_args in *. simpl in *.
  destruct (set_all fs _) as [fs1 e]; simpl in *; subst e. by apply Hnext.
Qed.

(** C40: Parsing flags terminates on every argument list, with a result, an error or a
    panic (a value that is a single quote character makes it panic), and when it
    succeeds it leaves a suffix of the arguments.  On a command line made of defined
    flags under names that are not deprecated (switches, values in quotes after an
    equals sign whatever they contain, values in the next argument, letters after one
    dash), ended by two dashes or by an argument that is no flag, it is the same as
    setting these flags by their names one after the other: the flag set ends in the
    same state with the arguments after the flags left, or with the error of the first
    value that its flag refuses. *)
Theorem Parse_sets_flags fs :
  (∀ arguments, (FlagSet_Parse fs arguments).2 ≠ Diverge ∧
    ∀ u, (FlagSet_Parse fs arguments).2 = Ok u →
      fs_args (FlagSet_Parse fs arguments).1 `suffix_of` arguments) ∧
  ∀ items tail rest, Forall (item_ok fs) items → ends_flags tail rest →
    FlagSet_Parse fs (texts items ++ tail) =
      run_items (start_parse fs (texts items ++ tail)) items tail rest.
Proof using laws.
  split.
  - intros arguments. apply (parse_loop_returns (S (length arguments)) (start_parse fs arguments)).
    simpl. lia.
  - intros items tail rest Hok Hend. unfold FlagSet_Parse.
    rewrite <- (parse_items (S (length (texts items ++ tail))) (start_parse fs (texts items ++ tail))
      items tail rest); [done| |done|lia].
    eapply Forall_impl; [exact Hok|]. intros it. by apply item_ok_shape.
Qed.
End flags.
