(* ===== verification/MFlagWitness.v ===== *)
(** * Command lines

    A command line on which the theorem of MFlagInv applies, and two on which parsing
    of flags does not do what it means to. *)

From S2P Require Import Prelude GoStrings MFlag MFlagInv.
#[local] Open Scope nat_scope.

(** No values of other types: a type without elements. *)
#[local] Instance no_custom : CustomValue Empty_set :=
  {| x_Set (x : Empty_set) _ := match x with end;
     x_String (x : Empty_set) := match x with end;
     x_IsBoolFlag (x : Empty_set) := match x with end |}.
#[local] Instance no_custom_laws : CustomLaws (X := Empty_set).
Proof. intros []. Qed.

Definition demo_flags : FlagSet Empty_set :=
  let fs := NewFlagSet "run" ContinueOnError in
  let fs := (BoolVar fs ["i"; "-interactive"] false "").1 in
  let fs := (BoolVar fs ["t"; "-tty"] false "").1 in
  let fs := (StringVar fs ["-name"] "" "").1 in
  (IntVar fs ["c"; "-cpu-shares"] 0 "").1.

Definition demo_items : list item :=
  [Cluster ["i"%char; "t"%char]; Assign "-name" "a=b"; Separate "c" "0x10"].

(** What is set, the values, and the arguments that are left. *)
Definition demo_result (r : FlagSet Empty_set * outcome parse_end unit) :=
  (fl_Value <$> fs_flags r.1, fs_args r.1, r.2).

Lemma Parse_sets_flags_witness :
  (FlagSet_Parse demo_flags (texts demo_items ++ ["--"; "image"; "-x"])).2 = Ok tt ∧
  FlagSet_Parse demo_flags (texts demo_items ++ ["--"; "image"; "-x"]) =
    run_items (start_parse demo_flags (texts demo_items ++ ["--"; "image"; "-x"])) demo_items
      ["--"; "image"; "-x"] ["image"; "-x"] ∧
  demo_result (FlagSet_Parse demo_flags (texts demo_items ++ ["--"; "image"; "-x"])) =
    ([boolValue true; boolValue true; stringValue "a=b"; intValue 16], ["image"; "-x"], Ok tt).
Proof.
  split; [vm_compute; reflexivity|]. split; [|vm_compute; reflexivity].
  apply (proj2 (Parse_sets_flags demo_flags)); [|by right].
  assert (∀ name a f, fs_formal demo_flags !! name = Some a → fs_flags demo_flags !! a = Some f →
    name ≠ "" → name ≠ "-" → contains_char "=" name = false → "#" +:+ name ∉ fl_Names f →
    known demo_flags name f) as Hk by (intros name a f ??????; repeat (split; [done|]); by exists a).
  assert (∀ c a f, is_ascii c → fs_formal demo_flags !! String c "" = Some a →
    fs_flags demo_flags !! a = Some f → String c "" ≠ "-" → contains_char "=" (String c "") = false →
    "#" +:+ String c "" ∉ fl_Names f → is_bool (fl_Value f) = true →
    is_ascii c ∧ ∃ f, known demo_flags (String c "") f ∧ is_bool (fl_Value f) = true) as Hletter.
  { intros c a f ???????. split; [done|]. exists f. split; [|done]. by apply (Hk _ a). }
  apply Forall_cons; split; [|apply Forall_cons; split; [|apply Forall_cons; split; [|constructor]]].
  - split; [simpl; lia|]. split; [|split; [reflexivity|]].
    + apply Forall_cons; split; [|apply Forall_cons; split; [|constructor]].
      * eapply (Hletter "i"%char 0); try reflexivity; try done;
          apply (bool_decide_unpack _); vm_compute; exact I.
      * eapply (Hletter "t"%char 1); try reflexivity; try done;
          apply (bool_decide_unpack _); vm_compute; exact I.
    + apply (bool_decide_unpack _). vm_compute. exact I.
  - eexists. eapply (Hk "-name" 2); try reflexivity; try done.
    apply (bool_decide_unpack _). vm_compute. exact I.
  - eexists. split; [eapply (Hk "c" 3)|]; try reflexivity; try done.
    apply (bool_decide_unpack _). vm_compute. exact I.
Defined.

(** A value that is one quote makes parsing panic. *)
Lemma lone_quote_panics :
  (FlagSet_Parse demo_flags ["--name=" +:+ String dquote ""]).2 =
    Panic "slice bounds out of range".
Proof. vm_compute. reflexivity. Qed.

(** The value after an equals sign is lost when the letters are tried: -it=false sets
    both flags. *)
Lemma cluster_drops_value :
  demo_result (FlagSet_Parse demo_flags ["-it=false"]) =
    ([boolValue true; boolValue true; stringValue ""; intValue 0], [], Ok tt).
Proof. vm_compute. reflexivity. Qed.

(** A dash among the letters is skipped. *)
Lemma dash_letter_is_skipped :
  demo_result (FlagSet_Parse demo_flags ["-i-t"; "image"]) =
    ([boolValue true; boolValue true; stringValue ""; intValue 0], ["image"], Ok tt).
Proof. vm_compute. reflexivity. Qed.
