(* ===== verification/TarExport.v ===== *)
(** * image/tarexport: saving and loading images

    Model of image/tarexport (tarexport.go, save.go, load.go), of [CreateID],
    [HistoryFromConfig] and [MakeConfigFromV1Config] (image/v1/imagev1.go) and of
    [DetectCompression] and [DecompressStream] (pkg/archive/archive.go), on top of the
    image store, the layer store and the tag store.

    Save writes a temporary directory that is packed into a tar stream, and Load works
    on the directory into which the stream was unpacked.  Packing and unpacking is the
    archive package (see Archive); here a directory is handed over, a map from paths
    (lists of names) to files, links and directories.  A script of failures may make
    any call on the directory fail.  Times of files, progress output, and the sources
    of foreign layers, which only the layer store of Windows has, are left out. *)

From S2P Require Import Prelude GoStrings GoPath Symlink Layer ImageStore RefStore ImageDelete.
#[local] Open Scope nat_scope.

(** ** Legacy images (image/v1) *)

(** [V1Image]: times are texts, and what the code only copies is one field. *)
Record V1Image := mkV1 {
  v1_ID : string;
  v1_Parent : string;
  v1_Comment : string;
  v1_Created : string;
  v1_Author : string;
  v1_Cmd : list string;
  v1_other : string
}.
Definition v1_zero : V1Image := mkV1 "" "" "" "" "" [] "".
Definition with_v1_ID (v : V1Image) (id : string) : V1Image :=
  mkV1 id (v1_Parent v) (v1_Comment v) (v1_Created v) (v1_Author v) (v1_Cmd v) (v1_other v).
Definition with_v1_Parent (v : V1Image) (parent : string) : V1Image :=
  mkV1 (v1_ID v) parent (v1_Comment v) (v1_Created v) (v1_Author v) (v1_Cmd v) (v1_other v).

Record manifestItem := mkManifestItem {
  mi_Config : string;
  mi_RepoTags : list string;
  mi_Layers : list string;
  mi_Parent : string
}.

(** [encoding/json] on the types of these packages ([image_V1] is the part [V1Image] of a
    configuration that decodes; a map of raw messages is a map of texts), [LessThan] of
    engine-api's versions, and the decompressors of the standard library and of xz. *)
Inductive Compression := Uncompressed | Bzip2 | Gzip | Xz.
Class TarExportExt := {
  v1_Marshal : V1Image → string + string;
  v1_Unmarshal : string → string + V1Image;
  image_V1 : string → V1Image;
  map_Marshal : gmap string string → string + string;
  map_Unmarshal : string → string + gmap string string;
  json_string : string → string;
  json_RootFS : RootFS → string;
  json_Histories : list History → string;
  json_docker_version : string → string + string;
  json_parent : string → string + string;
  versions_LessThan : string → string → bool;
  manifest_Encode : list manifestItem → string;
  manifest_Decode : string → string + list manifestItem;
  repositories_Encode : gmap string (gmap string string) → string;
  repositories_Decode : string → string + gmap string (gmap string string);
  decompress : Compression → string → string + string
}.

(** [Digest.Hex]: it panics for a text without a colon. *)
Definition digest_Hex (d : string) : outcome string string :=
  match cut_at ":" d with
  | Some (_, hex) => Ok hex
  | None => Panic ("could not find ':' in digest: " +:+ d)
  end.

Section legacy.
Context {Tar Desc : Type} {ext : LayerExt Tar Desc} {text : TarExportExt}.

Definition of_either {A} (r : string + A) : outcome string A :=
  match r with inl e => Err e | inr a => Ok a end.

Definition HistoryFromConfig (imageJSON : string) (emptyLayer : bool) : outcome string History :=
  obind (of_either (v1_Unmarshal imageJSON)) (λ v,
  Ok (mkHistory (v1_Created v) (v1_Author v) (Join (v1_Cmd v) " ") (v1_Comment v) emptyLayer)).

Definition CreateID (v1Image : V1Image) (layerID parent : string) : outcome string string :=
  obind (of_either (v1_Marshal (with_v1_ID v1Image ""))) (λ v1JSON,
  obind (of_either (map_Unmarshal v1JSON)) (λ config,
  let config := <["layer_id" := json_string layerID]> config in
  let config :=
    if decide (parent ≠ "") then <["parent" := json_string parent]> config else config in
  obind (of_either (map_Marshal config)) (λ configJSON,
  Ok (digest_FromBytes configJSON)))).

Definition noFallbackMinVersion : string := "1.8.3".

Definition MakeConfigFromV1Config (imageJSON : string) (rootfs : RootFS)
    (history : list History) : outcome string string :=
  obind (of_either (json_docker_version imageJSON)) (λ dver,
  obind (if versions_LessThan dver noFallbackMinVersion
         then obind (of_either (v1_Unmarshal imageJSON)) (λ v, of_either (v1_Marshal v))
         else Ok imageJSON) (λ imageJSON,
  obind (of_either (map_Unmarshal imageJSON)) (λ c,
  let c := foldr delete c ["id"; "parent"; "Size"; "parent_id"; "layer_id"; "throwaway"] in
  let c := <["history" := json_Histories history]> (<["rootfs" := json_RootFS rootfs]> c) in
  of_either (map_Marshal c)))).
End legacy.

(** ** Compression (pkg/archive) *)

(** The first bytes of compressed files. *)
Definition magic (c : Compression) : string :=
  let chars := foldr (λ n, String (ascii_of_nat n)) "" in
  match c with
  | Uncompressed => ""
  | Bzip2 => chars [66; 90; 104]
  | Gzip => chars [31; 139; 8]
  | Xz => chars [253; 55; 122; 88; 90; 0]
  end.

(** No two of them are prefixes of the same text, so the order does not matter. *)
Definition DetectCompression (source : string) : Compression :=
  default Uncompressed
    (head (filter (λ c, HasPrefix source (magic c) = true) [Bzip2; Gzip; Xz])).

Definition DecompressStream `{TarExportExt} (archive : string) : outcome string string :=
  match DetectCompression archive with
  | Uncompressed => Ok archive
  | c => of_either (decompress c archive)
  end.

(** ** Directories *)

Inductive node := NDir | NFile (data : string) | NLink (target : string).
Abbreviation tree := (gmap (list string) node).

(** The names of a path below [tmp]. *)
Definition rel_path (tmp p : string) : option (list string) :=
  Split slash <$> strip_prefix (tmp +:+ "/") p.

(** Some part of the way is a file. *)
Definition through_file (t : tree) (cs : list string) : bool :=
  existsb (λ k, match t !! take k cs with Some (NFile _) => true | _ => false end)
    (seq 0 (length cs)).

Definition tree_Lstat (t : tree) (tmp p : string) : stat :=
  match rel_path tmp p with
  | None => NotExist
  | Some cs =>
      if through_file t cs then StatErr "not a directory"
      else match t !! cs with
           | None => NotExist
           | Some (NLink _) => IsLink
           | Some _ => NotLink
           end
  end.

Definition tree_Readlink (t : tree) (tmp p : string) : string + string :=
  match rel_path tmp p ≫= λ cs, t !! cs with
  | Some (NLink target) => inr target
  | _ => inl "invalid argument"
  end.

(** Opening and reading a path without links; a directory is opened but not read. *)
Inductive open_error := IsNotExist | OpenError (e : string) | ReadError (e : string).
Definition tree_Read (t : tree) (tmp p : string) : open_error + string :=
  match rel_path tmp p with
  | None => inl IsNotExist
  | Some cs =>
      if through_file t cs then inl (OpenError "not a directory")
      else match t !! cs with
           | None => inl IsNotExist
           | Some (NFile data) => inr data
           | Some NDir => inl (ReadError "is a directory")
           | Some (NLink _) => inl (OpenError "too many levels of symbolic links")
           end
  end.
Definition open_error_string (e : open_error) : string :=
  match e with IsNotExist => "no such file or directory" | OpenError e | ReadError e => e end.
Definition read_file (t : tree) (tmp p : string) : outcome string string :=
  match tree_Read t tmp p with inr data => Ok data | inl e => Err (open_error_string e) end.

Definition safePath (t : tree) (tmp p : string) : outcome string string :=
  FollowSymlinkInScope (tree_Lstat t tmp) (tree_Readlink t tmp) (inl "getwd")
    (filepath_Join tmp p) tmp.

Definition manifestFileName : string := "manifest.json".
Definition legacyLayerFileName : string := "layer.tar".
Definition legacyConfigFileName : string := "json".
Definition legacyVersionFileName : string := "VERSION".
Definition legacyRepositoriesFileName : string := "repositories".

(** ** Links between images *)

Record parentLink := mkParentLink { pl_id : string; pl_parentID : string }.

Definition validatedParentLinks (pl : list parentLink) : list parentLink :=
  (λ p, if existsb (λ p2, bool_decide (pl_id p2 = pl_parentID p ∧ pl_id p2 ≠ pl_id p)) pl
        then p else mkParentLink (pl_id p) "") <$> pl.

(** The comparison of the entries is [reflect.DeepEqual]. *)
Definition checkValidParent (img parent : Image) : bool :=
  if decide (img_History img = [] ∧ img_History parent = []) then true
  else if decide (length (img_History img) ≠ S (length (img_History parent))) then false
  else bool_decide (take (length (img_History parent)) (img_History img) = img_History parent).

(** ** The exporter *)

(** What it uses of layer.Store besides Get and Release; [st_Register] is given the bytes
    of the tar stream and the chain identifier of the parent. *)
Class LayerRegistry (L : Type) := {
  st_Register : L → string → string → L * outcome string Layer;
  st_DiffID : L → Layer → string;
  st_TarStream : L → Layer → L * outcome string string
}.

(** The order in which a range statement visits a map. *)
Class MapOrder := { map_range : ∀ {A}, gmap string A → list (string * A) }.

Section tarexport.
Context {F L DS Desc : Type}.
Context {be : StoreBackend F} {lg : LayerGetReleaser L} {reg : LayerRegistry L}.
Context {dset : DigestSet DS} {ext : LayerExt string Desc} {iext : ImageExt} {rext : RefExt}.
Context {text : TarExportExt} {order : MapOrder}.

(** The image store and the exporter share the layer store.  Events are an image and an
    action; [te_out] is what was written to the client. *)
Record tarexporter := mkExporter {
  te_is : imageStore F L DS;
  te_rs : refStore;
  te_events : list (string * string);
  te_out : list string
}.
Implicit Types (l : tarexporter).

Definition with_is l (s : imageStore F L DS) : tarexporter :=
  mkExporter s (te_rs l) (te_events l) (te_out l).
Definition with_rs l (s : refStore) : tarexporter :=
  mkExporter (te_is l) s (te_events l) (te_out l).
Definition print l (s : string) : tarexporter :=
  mkExporter (te_is l) (te_rs l) (te_events l) (te_out l ++ [s]).
Definition log_event l (id action : string) : tarexporter :=
  mkExporter (te_is l) (te_rs l) (te_events l ++ [(id, action)]) (te_out l).

(** Calls of the image store and of the layer store. *)
Definition on_is {A} l (f : imageStore F L DS → imageStore F L DS * outcome string A) :
    tarexporter * outcome string A :=
  let '(s, r) := f (te_is l) in (with_is l s, r).
Definition on_ls {A} l (f : L → L * outcome string A) : tarexporter * outcome string A :=
  on_is l (λ s, call_ls s f).

(** ** Loading (load.go) *)

Definition setLoadedTag l (ref : Named) (imgID : string) : tarexporter * outcome string unit :=
  let l :=
    match refStore_Get (te_rs l) ref with
    | Ok prevID =>
        if decide (prevID ≠ imgID)
        then print l ("The image " +:+ Named_String ref +:+
               " already exists, renaming the old one with ID " +:+ prevID +:+ " to empty string")
        else l
    | _ => l
    end in
  let '(rs, r) := refStore_AddTag (te_rs l) ref imgID true in
  (with_rs l rs,
   match r with
   | Ok _ => Ok tt
   | Err (ErrRef e) => Err e
   | Err ErrDoesNotExist => Err "reference does not exist"
   | Panic m => Panic m
   | Diverge => Diverge
   end).

(** The caller drops the error. *)
Definition set_tag l (ref : Named) (imgID : string) : tarexporter * outcome string unit :=
  ignore_error (setLoadedTag l ref imgID).

Definition loadLayer (t : tree) (tmp : string) l (filename : string) (rootFS : RootFS) :
    tarexporter * outcome string Layer :=
  let! (l, rawTar) := (l, read_file t tmp filename) in
  let! (l, inflatedLayerData) := (l, DecompressStream rawTar) in
  on_ls l (λ s, st_Register s inflatedLayerData (RootFS_ChainID rootFS)).

(** The layers that are released when Load returns, the last one first. *)
Abbreviation lstate := (tarexporter * list Layer)%type.
Definition on_te {A} (s : lstate) (f : tarexporter → tarexporter * outcome string A) :
    lstate * outcome string A :=
  let '(l, r) := f s.1 in ((l, s.2), r).

Fixpoint release_all l (held : list Layer) : tarexporter * outcome string unit :=
  match held with
  | [] => (l, Ok tt)
  | r :: held =>
      let! (l, _) := or_none (on_ls l (λ s, lg_Release s r)) in release_all l held
  end.

(** The layers of an image, from the bottom. *)
Fixpoint load_layers (t : tree) (tmp : string) (s : lstate) (rootFS : RootFS)
    (layers : list (string * string)) : lstate * outcome string unit :=
  match layers with
  | [] => (s, Ok tt)
  | (diffID, path) :: layers =>
      let! (s, layerPath) := (s, safePath t tmp path) in
      let r := RootFS_Append rootFS diffID in
      let! (s, found) := or_none (on_te s (λ l, on_ls l (λ x, lg_Get x (RootFS_ChainID r)))) in
      let! (s, newLayer) :=
        match found with
        | Some newLayer => (s, Ok newLayer)
        | None => on_te s (λ l, loadLayer t tmp l layerPath rootFS)
        end in
      let s := (s.1, newLayer :: s.2) in
      if decide (diffID ≠ st_DiffID (is_ls (te_is s.1)) newLayer)
      then (s, Err "invalid diffID for layer")
      else load_layers t tmp s r layers
  end.

(** The tags of an image; the count of the ones that were set. *)
Fixpoint load_tags l (imgID : string) (repoTags : list string) :
    tarexporter * outcome string nat :=
  match repoTags with
  | [] => (l, Ok 0)
  | repoTag :: repoTags =>
      match ParseNamed repoTag with
      | Ok (taggedRef name tag) =>
          let ref := taggedRef name tag in
          let! (l, _) := set_tag l ref imgID in
          let l := print l ("Loaded image: " +:+ Named_String ref) in
          let! (l, n) := load_tags l imgID repoTags in
          (l, Ok (S n))
      | Ok _ => (l, Err ("invalid tag " +:+ Sprintf_q repoTag))
      | Err e => (l, Err e)
      | Panic m => (l, Panic m)
      | Diverge => (l, Diverge)
      end
  end.

(** One item of the manifest: the image, and the count of its tags. *)
Definition load_item (t : tree) (tmp : string) (s : lstate) (m : manifestItem) :
    lstate * outcome string (string * nat) :=
  let! (s, configPath) := (s, safePath t tmp (mi_Config m)) in
  let! (s, config) := (s, read_file t tmp configPath) in
  let! (s, img) := (s, NewFromJSON config) in
  match img_RootFS img with
  | None => (s, Panic "invalid memory address or nil pointer dereference")
  | Some imgFS =>
      if decide (length (mi_Layers m) ≠ length (rfs_DiffIDs imgFS))
      then (s, Err "invalid manifest, layers length mismatch")
      else
        let! (s, _) :=
          load_layers t tmp s (mkRootFS (rfs_Type imgFS) []) (zip (rfs_DiffIDs imgFS) (mi_Layers m)) in
        let! (s, imgID) := on_te s (λ l, on_is l (λ x, imageStore_Create x config)) in
        let! (s, count) := on_te s (λ l, load_tags l imgID (mi_RepoTags m)) in
        ((log_event s.1 imgID "load", s.2), Ok (imgID, count))
  end.

(** The items of the manifest: the links to the parents, the message with the
    identifiers and the count of tags, which starts again with every item. *)
Fixpoint load_items (t : tree) (tmp : string) (s : lstate) (manifest : list manifestItem)
    (links : list parentLink) (imageIDsStr : string) (imageRefCount : nat) :
    lstate * outcome string (list parentLink * string * nat) :=
  match manifest with
  | [] => (s, Ok (links, imageIDsStr, imageRefCount))
  | m :: manifest =>
      let! (s, loaded) := load_item t tmp s m in
      load_items t tmp s manifest (links ++ [mkParentLink loaded.1 (mi_Parent m)])
        (imageIDsStr +:+ "Loaded image ID: " +:+ loaded.1 +:+ String "010" "") loaded.2
  end.

Definition setParentID l (id parentID : string) : tarexporter * outcome string unit :=
  let! (l, img) := on_is l (λ s, imageStore_Get s id) in
  let! (l, parent) := on_is l (λ s, imageStore_Get s parentID) in
  if checkValidParent img parent
  then on_is l (λ s, imageStore_SetParent s id parentID)
  else (l, Err ("image " +:+ img_computedID parent +:+ " is not a valid parent for " +:+
                img_computedID img)).

Fixpoint set_parents l (links : list parentLink) : tarexporter * outcome string unit :=
  match links with
  | [] => (l, Ok tt)
  | p :: links =>
      let! (l, _) :=
        if decide (pl_parentID p ≠ "") then setParentID l (pl_id p) (pl_parentID p)
        else (l, Ok tt) in
      set_parents l links
  end.

(** Load with a manifest, up to the deferred releases. *)
Definition load_manifest (t : tree) (tmp : string) (s : lstate) (manifest : list manifestItem) :
    lstate * outcome string unit :=
  let! (s, r) := load_items t tmp s manifest [] "" 0 in
  let '(links, imageIDsStr, imageRefCount) := r in
  let! (s, _) := on_te s (λ l, set_parents l (validatedParentLinks links)) in
  (if decide (imageRefCount = 0) then (print s.1 imageIDsStr, s.2) else s, Ok tt).

(** Deferred calls run whatever the outcome is. *)
Definition with_releases (r : lstate * outcome string unit) : tarexporter * outcome string unit :=
  let '(s, o) := r in
  let '(l, o') := release_all s.1 s.2 in
  (l, match o' with Ok _ | Err _ => o | _ => o' end).

(** ** Loading the old format *)

(** The exporter and the images that were loaded, by their old identifiers. *)
Abbreviation legacy_state := (tarexporter * gmap string string)%type.
Definition on_legacy {A} (s : legacy_state) (f : tarexporter → tarexporter * outcome string A) :
    legacy_state * outcome string A :=
  let '(l, r) := f s.1 in ((l, s.2), r).

(** The end of legacyLoadImage, when the parent is loaded. *)
Definition legacy_image (t : tree) (tmp : string) l (oldID imageJSON parentID : string) :
    tarexporter * outcome string string :=
  let! (l, base) :=
    if decide (parentID ≠ "") then
      let! (l, parentImg) := on_is l (λ x, imageStore_Get x parentID) in
      match img_RootFS parentImg with
      | Some rootFS => (l, Ok (rootFS, img_History parentImg))
      | None => (l, Panic "invalid memory address or nil pointer dereference")
      end
    else (l, Ok (NewRootFS, [])) in
  let! (l, layerPath) := (l, safePath t tmp (filepath_Join oldID legacyLayerFileName)) in
  let! (l, newLayer) := loadLayer t tmp l layerPath base.1 in
  let rootFS := RootFS_Append base.1 (st_DiffID (is_ls (te_is l)) newLayer) in
  let! (l, h) := (l, HistoryFromConfig imageJSON false) in
  let! (l, config) := (l, MakeConfigFromV1Config imageJSON rootFS (base.2 ++ [h])) in
  let! (l, imgID) := on_is l (λ x, imageStore_Create x config) in
  let! (l, _) := on_ls l (λ x, lg_Release x newLayer) in
  let! (l, _) :=
    if decide (parentID ≠ "") then on_is l (λ x, imageStore_SetParent x imgID parentID)
    else (l, Ok tt) in
  (l, Ok imgID).

(** The loop that loads the parent looks it up again after the call, which only
    succeeds when the parent is in the map (see [legacyLoadImage_loads]). *)
Fixpoint legacyLoadImage (fuel : nat) (t : tree) (tmp oldID : string) (s : legacy_state) :
    legacy_state * outcome string unit :=
  match fuel with
  | O => (s, Diverge)
  | S fuel =>
      if decide (is_Some (s.2 !! oldID)) then (s, Ok tt)
      else
        let! (s, configPath) := (s, safePath t tmp (filepath_Join oldID legacyConfigFileName)) in
        let! (s, imageJSON) := (s, read_file t tmp configPath) in
        let! (s, parent) := (s, of_either (json_parent imageJSON)) in
        let! (s, parentID) :=
          if decide (parent ≠ "") then
            match s.2 !! parent with
            | Some parentID => (s, Ok parentID)
            | None =>
                let! (s, _) := legacyLoadImage fuel t tmp parent s in
                match s.2 !! parent with
                | Some parentID => (s, Ok parentID)
                | None => (s, Diverge)
                end
            end
          else (s, Ok "") in
        let! (s, imgID) := on_legacy s (λ l, legacy_image t tmp l oldID imageJSON parentID) in
        ((s.1, <[oldID := imgID]> s.2), Ok tt)
  end.

Fixpoint legacy_dirs (fuel : nat) (t : tree) (tmp : string) (s : legacy_state)
    (dirs : list string) : legacy_state * outcome string unit :=
  match dirs with
  | [] => (s, Ok tt)
  | d :: dirs =>
      let! (s, _) := legacyLoadImage fuel t tmp d s in legacy_dirs fuel t tmp s dirs
  end.

(** The directories at the top, in the order of their names. *)
Definition tree_dirs (t : tree) : list string :=
  merge_sort String.le
    (omap (λ kv, match kv with ([name], NDir) => Some name | _ => None end) (map_to_list t)).

(** The tags of a repository. *)
Fixpoint legacy_tags (s : legacy_state) (name : string) (tags : list (string * string)) :
    legacy_state * outcome string unit :=
  match tags with
  | [] => (s, Ok tt)
  | (tag, oldID) :: tags =>
      match s.2 !! oldID with
      | None => (s, Err ("invalid target ID: " +:+ oldID))
      | Some imgID =>
          let! (s, named) := (s, WithName name) in
          let! (s, ref) := (s, WithTag named tag) in
          let! (s, _) := on_legacy s (λ l, set_tag l ref imgID) in
          legacy_tags s name tags
      end
  end.

Fixpoint legacy_repositories (s : legacy_state)
    (repositories : list (string * gmap string string)) : legacy_state * outcome string unit :=
  match repositories with
  | [] => (s, Ok tt)
  | (name, tagMap) :: repositories =>
      let! (s, _) := legacy_tags s name (map_range tagMap) in
      legacy_repositories s repositories
  end.

(** Every call inside a call of legacyLoadImage is for a parent: with more fuel than
    there are files, running out means that an image is its own ancestor. *)
Definition legacyLoad (t : tree) (tmp : string) l : tarexporter * outcome string unit :=
  let r :=
    let! (s, _) := legacy_dirs (S (S (size t))) t tmp (l, ∅) (tree_dirs t) in
    let! (s, repositoriesPath) := (s, safePath t tmp legacyRepositoriesFileName) in
    match tree_Read t tmp repositoriesPath with
    | inl IsNotExist =>
        (* Close of a nil file *)
        (s, Err "invalid argument")
    | inl (OpenError e | ReadError e) => (s, Err e)
    | inr data =>
        let! (s, repositories) := (s, of_either (repositories_Decode data)) in
        legacy_repositories s (map_range repositories)
    end in
  (r.1.1, r.2).

(** [Load], of the directory that the stream was unpacked to, or of the error of
    unpacking. *)
Definition Load l (unpacked : string + tree) (tmp : string) : tarexporter * outcome string unit :=
  match unpacked with
  | inl e => (l, Err e)
  | inr t =>
      let! (l, manifestPath) := (l, safePath t tmp manifestFileName) in
      match tree_Read t tmp manifestPath with
      | inl IsNotExist => legacyLoad t tmp l
      | inl (OpenError _) => (l, Err "invalid argument") (* Close of a nil file *)
      | inl (ReadError e) => (l, Err e)
      | inr data =>
          let! (l, manifest) := (l, of_either (manifest_Decode data)) in
          with_releases (load_manifest t tmp (l, []) manifest)
      end
  end.

(** ** Saving (save.go) *)

Record imageDescriptor := mkDescr { id_refs : list Named; id_layers : list string }.

Record saveSession := mkSession {
  ss_te : tarexporter;
  ss_tree : tree;
  ss_faults : list (option string);
  ss_images : gmap string imageDescriptor;
  ss_savedLayers : gset string;
  ss_diffIDPaths : gmap string string
}.
Implicit Types (s : saveSession).

Definition on_session {A} s (f : tarexporter → tarexporter * outcome string A) :
    saveSession * outcome string A :=
  let '(l, r) := f (ss_te s) in
  (mkSession l (ss_tree s) (ss_faults s) (ss_images s) (ss_savedLayers s) (ss_diffIDPaths s), r).

(** A call on the directory: the next fault, or the new contents. *)
Definition on_dir s (f : tree → outcome string tree) : saveSession * outcome string unit :=
  let with_tree t fs :=
    mkSession (ss_te s) t fs (ss_images s) (ss_savedLayers s) (ss_diffIDPaths s) in
  match ss_faults s with
  | Some e :: fs => (with_tree (ss_tree s) fs, Err e)
  | fs =>
      match f (ss_tree s) with
      | Ok t => (with_tree t (tail fs), Ok tt)
      | Err e => (with_tree (ss_tree s) (tail fs), Err e)
      | Panic m => (s, Panic m)
      | Diverge => (s, Diverge)
      end
  end.
Definition os_Mkdir (p : list string) (t : tree) : outcome string tree :=
  if decide (is_Some (t !! p)) then Err "file exists" else Ok (<[p := NDir]> t).
Definition os_WriteFile (p : list string) (data : string) (t : tree) : outcome string tree :=
  Ok (<[p := NFile data]> t).
Definition os_Symlink (p : list string) (target : string) (t : tree) : outcome string tree :=
  if decide (is_Some (t !! p)) then Err "file exists" else Ok (<[p := NLink target]> t).

(** [addAssoc]. *)
Definition addAssoc (imgDescr : gmap string imageDescriptor) (id : string) (ref : option Named) :
    gmap string imageDescriptor :=
  let d := default (mkDescr [] []) (imgDescr !! id) in
  let tagged :=
    match ref with
    | None | Some (canonicalRef _ _) => None
    | Some (taggedRef name tag) => Some (taggedRef name tag)
    | Some (namedRef name) =>
        match WithTag (namedRef name) DefaultTag with Ok tagged => Some tagged | _ => None end
    end in
  let d :=
    match tagged with
    | None => d
    | Some tagged =>
        if existsb (λ t, bool_decide (Named_String tagged = Named_String t)) (id_refs d) then d
        else mkDescr (id_refs d ++ [tagged]) (id_layers d)
    end in
  <[id := d]> imgDescr.

Definition ref_outcome (r : outcome ref_error string) : outcome string string :=
  match r with
  | Ok a => Ok a
  | Err ErrDoesNotExist => Err "reference does not exist"
  | Err (ErrRef e) => Err e
  | Panic m => Panic m
  | Diverge => Diverge
  end.

(** What one name adds. *)
Definition parse_name l (name : string) (imgDescr : gmap string imageDescriptor) :
    tarexporter * outcome string (gmap string imageDescriptor) :=
  let search := obind (imageStore_Search (te_is l) name) (λ imgID, Ok (addAssoc imgDescr imgID None)) in
  match ParseIDOrReference name with
  | Ok (id, ref) =>
      if decide (id ≠ "") then
        let! (l, _) := on_is l (λ x, imageStore_Get x id) in (l, Ok (addAssoc imgDescr id None))
      else
        match ref with
        | None => (l, Panic "invalid memory address or nil pointer dereference")
        | Some ref =>
            if decide (Named_Name ref = "sha256") then (l, search)
            else if IsNameOnly ref then
              match refStore_ReferencesByName (te_rs l) ref with
              | [] => (l, search)
              | assocs =>
                  (l, Ok (foldl (λ d a, addAssoc d a.2 (Some a.1)) imgDescr assocs))
              end
            else
              (l, obind (ref_outcome (refStore_Get (te_rs l) ref)) (λ imgID,
                  Ok (addAssoc imgDescr imgID (Some ref))))
        end
  | Err e => (l, Err e)
  | Panic m => (l, Panic m)
  | Diverge => (l, Diverge)
  end.

Fixpoint parseNames l (names : list string) (imgDescr : gmap string imageDescriptor) :
    tarexporter * outcome string (gmap string imageDescriptor) :=
  match names with
  | [] => (l, Ok imgDescr)
  | name :: names =>
      let! (l, imgDescr) := parse_name l name imgDescr in parseNames l names imgDescr
  end.

(** The layer with its files, while a reference on it is held. *)
Definition save_layer_tar s (tmp legacyID : string) (r : Layer) : saveSession * outcome string unit :=
  let outDir := filepath_Join tmp legacyID in
  let diffID := st_DiffID (is_ls (te_is (ss_te s))) r in
  let! (s, _) :=
    match ss_diffIDPaths s !! diffID with
    | Some oldPath =>
        let! (s, relPath) := (s, filepath_Rel outDir oldPath) in
        ignore_error (on_dir s (os_Symlink [legacyID; legacyLayerFileName] relPath))
    | None =>
        let! (s, _) := on_dir s (os_WriteFile [legacyID; legacyLayerFileName] "") in
        let! (s, arch) := on_session s (λ l, on_ls l (λ x, st_TarStream x r)) in
        let! (s, _) := on_dir s (os_WriteFile [legacyID; legacyLayerFileName] arch) in
        (mkSession (ss_te s) (ss_tree s) (ss_faults s) (ss_images s) (ss_savedLayers s)
           (<[diffID := filepath_Join outDir legacyLayerFileName]> (ss_diffIDPaths s)), Ok tt)
    end in
  (mkSession (ss_te s) (ss_tree s) (ss_faults s) (ss_images s)
     ({[legacyID]} ∪ ss_savedLayers s) (ss_diffIDPaths s), Ok tt).

(** A deferred release, of which only a panic is seen. *)
Definition session_release {A} (r : saveSession * outcome string A) (ref : Layer) :
    saveSession * outcome string A :=
  let '(s, o) := r in
  let '(s, o') := or_none (on_session s (λ l, on_ls l (λ x, lg_Release x ref))) in
  (s, match o' with Ok _ | Err _ => o | Panic m => Panic m | Diverge => Diverge end).

Definition saveLayer s (tmp id : string) (legacyImg : V1Image) : saveSession * outcome string unit :=
  let legacyID := v1_ID legacyImg in
  if decide (legacyID ∈ ss_savedLayers s) then (s, Ok tt)
  else
    let! (s, _) := on_dir s (os_Mkdir [legacyID]) in
    let! (s, _) := on_dir s (os_WriteFile [legacyID; legacyVersionFileName] "1.0") in
    let! (s, imageConfig) := (s, of_either (v1_Marshal legacyImg)) in
    let! (s, _) := on_dir s (os_WriteFile [legacyID; legacyConfigFileName] imageConfig) in
    let! (s, r) := on_session s (λ l, on_ls l (λ x, lg_Get x id)) in
    session_release (save_layer_tar s tmp legacyID r) r.

(** The loop of saveImage: [rootFS] is the part that is done; the result is the names of
    the directories. *)
Fixpoint save_layers s (tmp : string) (v1Img : V1Image) (rootFS : RootFS) (diffIDs : list string)
    (parent : string) (layers : list string) : saveSession * outcome string (list string) :=
  match diffIDs with
  | [] => (s, Ok layers)
  | diffID :: diffIDs =>
      let img := if decide (diffIDs = []) then v1Img else v1_zero in
      let rootFS := RootFS_Append rootFS diffID in
      let! (s, v1ID) := (s, CreateID img (RootFS_ChainID rootFS) parent) in
      let! (s, hex) := (s, digest_Hex v1ID) in
      let! (s, parentHex) :=
        (s, if decide (parent ≠ "") then digest_Hex parent else Ok (v1_Parent img)) in
      let img := with_v1_Parent (with_v1_ID img hex) parentHex in
      let! (s, _) := saveLayer s tmp (RootFS_ChainID rootFS) img in
      save_layers s tmp v1Img rootFS diffIDs v1ID (layers ++ [hex])
  end.

Definition saveImage s (tmp id : string) : saveSession * outcome string unit :=
  let! (s, img) := on_session s (λ l, on_is l (λ x, imageStore_Get x id)) in
  match img_RootFS img with
  | None => (s, Panic "invalid memory address or nil pointer dereference")
  | Some rootFS =>
      if decide (rfs_DiffIDs rootFS = []) then (s, Err "empty export - not implemented")
      else
        let! (s, layers) :=
          save_layers s tmp (image_V1 (img_rawJSON img)) (mkRootFS (rfs_Type rootFS) [])
            (rfs_DiffIDs rootFS) "" [] in
        let! (s, hex) := (s, digest_Hex id) in
        let! (s, _) := on_dir s (os_WriteFile [hex +:+ ".json"] (img_rawJSON img)) in
        (mkSession (ss_te s) (ss_tree s) (ss_faults s)
           (alter (λ d, mkDescr (id_refs d) layers) id (ss_images s))
           (ss_savedLayers s) (ss_diffIDPaths s), Ok tt)
  end.

(** The tags of an image in the file of repositories, for the name of its last layer. *)
Definition legacy_refs (refs : list Named) (top : string)
    (repos : gmap string (gmap string string)) : gmap string (gmap string string) :=
  foldl (λ repos ref,
    match ref with taggedRef name tag => insert2 name tag top repos | _ => repos end) repos refs.

(** The loop of save. *)
Fixpoint save_images s (tmp : string) (ids : list string) (manifest : list manifestItem)
    (links : list parentLink) (repos : gmap string (gmap string string)) :
    saveSession * outcome string (list manifestItem * list parentLink * gmap string (gmap string string)) :=
  match ids with
  | [] => (s, Ok (manifest, links, repos))
  | id :: ids =>
      let! (s, _) := saveImage s tmp id in
      let d := default (mkDescr [] []) (ss_images s !! id) in
      match last (id_layers d) with
      | None => (s, Panic "index out of range")
      | Some top =>
          let! (s, hex) := (s, digest_Hex id) in
          let item := mkManifestItem (hex +:+ ".json") (Named_String <$> id_refs d)
            ((λ x, filepath_Join x legacyLayerFileName) <$> id_layers d) "" in
          let! (s, parentID) :=
            or_none (on_session s (λ l, on_is l (λ x, imageStore_GetParent x id))) in
          let! (s, _) := on_session s (λ l, (log_event l id "save", Ok tt)) in
          save_images s tmp ids (manifest ++ [item])
            (links ++ [mkParentLink id (default "" parentID)]) (legacy_refs (id_refs d) top repos)
      end
  end.

Definition with_parent (m : manifestItem) (p : parentLink) : manifestItem :=
  if decide (pl_parentID p ≠ "")
  then mkManifestItem (mi_Config m) (mi_RepoTags m) (mi_Layers m) (pl_parentID p) else m.

Definition save s (tmp : string) : saveSession * outcome string tree :=
  let! (s, r) := save_images s tmp (map_range (ss_images s)).*1 [] [] ∅ in
  let '(manifest, links, repos) := r in
  let manifest := zip_with with_parent manifest (validatedParentLinks links) in
  let! (s, _) :=
    if decide (repos ≠ ∅)
    then on_dir s (os_WriteFile [legacyRepositoriesFileName] (repositories_Encode repos))
    else (s, Ok tt) in
  let! (s, _) := on_dir s (os_WriteFile [manifestFileName] (manifest_Encode manifest)) in
  (s, Ok (ss_tree s)).

(** [Save], up to the packing of the directory. *)
Definition Save l (names : list string) (tmp : string) (faults : list (option string)) :
    tarexporter * outcome string tree :=
  let! (l, images) := parseNames l names ∅ in
  let '(s, o) := save (mkSession l ∅ faults images ∅ ∅) tmp in (ss_te s, o).
End tarexport.
Arguments tarexporter : clear implicits.
Arguments saveSession : clear implicits.
