(* ===== verification/TarExportInv.v ===== *)
(** * Loading and saving keep account of the layers

    What saving and loading of images do to the references on layers, whatever is in
    the archive and whatever fails. *)

From S2P Require Import Prelude GoStrings GoPath Symlink Layer ImageStore ImageInv RefStore RefInv ImageDelete TarExport.
#[local] Open Scope nat_scope.

(** Getting and registering a layer add the reference that they return and no other;
    releasing and reading add none. *)
Class LayerClient (L : Type) `{LayerGetReleaser L} `{!LayerHolder L} `{LayerRegistry L} := {
  lc_Get_new s c c' r' : lg_ok s → lg_ref (lg_Get s c).1 c' r' →
    lg_ref s c' r' ∨ (lg_Get s c).2 = Ok r';
  lc_Release_new s c r c' r' : lg_ok s → lg_ref s c r →
    lg_ref (lg_Release s r).1 c' r' → lg_ref s c' r';
  lc_Register s data parent : lg_ok s →
    safe (st_Register s data parent)
      (λ s' r, lg_ok s' ∧ (∃ c, lg_ref s' c r) ∧
         (∀ c' r', lg_ref s c' r' → lg_ref s' c' r' ∧ r' ≠ r) ∧
         ∀ c' r', lg_ref s' c' r' → lg_ref s c' r' ∨ r' = r)
      (λ s' _, lg_ok s' ∧ ∀ c' r', lg_ref s' c' r' ↔ lg_ref s c' r');
  lc_TarStream s c r : lg_ok s → lg_ref s c r →
    safe (st_TarStream s r) (λ s' _, lg_ok s' ∧ ∀ c' r', lg_ref s' c' r' ↔ lg_ref s c' r')
      (λ s' _, lg_ok s' ∧ ∀ c' r', lg_ref s' c' r' ↔ lg_ref s c' r')
}.

Section accounts.
Context {F L DS Desc : Type}.
Context {be : StoreBackend F} {lg : LayerGetReleaser L} {holder : LayerHolder L}.
Context {reg : LayerRegistry L} {client : LayerClient L}.
Context {dset : DigestSet DS} {ext : LayerExt string Desc} {iext : ImageExt} {rext : RefExt}.
Context {dlaws : DigestSetLaws DS} {bsafe : BackendSafe F} {rlaws : RefLaws}.
Context {text : TarExportExt} {order : MapOrder}.

Abbreviation store := (imageStore F L DS).
Implicit Types (st : store) (id c : string) (m : imageMeta) (r : Layer) (held : list Layer).

(** An image of the store holds the reference. *)
Definition owned st r : Prop := ∃ id m, is_images st !! id = Some m ∧ im_layer m = Some r.

(** Since the state [st0], where every image stays, the references are the ones of then,
    the ones of images, and [held]. *)
Record accounts st0 (I : gset string) held st : Prop := {
  ac_inv : image_inv st;
  ac_images id m : is_images st0 !! id = Some m →
    ∃ m', is_images st !! id = Some m' ∧ im_layer m' = im_layer m;
  ac_loaded id : id ∈ I → is_Some (is_images st !! id);
  ac_held r : r ∈ held → (∃ c, lg_ref (is_ls st) c r) ∧ ¬ owned st r ∧
    ∀ c, ¬ lg_ref (is_ls st0) c r;
  ac_distinct : NoDup held;
  ac_old c r : lg_ref (is_ls st0) c r → lg_ref (is_ls st) c r;
  ac_new c r : lg_ref (is_ls st) c r → lg_ref (is_ls st0) c r ∨ r ∈ held ∨ owned st r
}.

Lemma accounts_start st : image_inv st → accounts st ∅ [] st.
Proof. intros Hinv. split; try done; [eauto|by intros r ?%elem_of_nil|constructor|auto]. Qed.

Lemma accounts_loaded st0 I held st id :
  accounts st0 I held st → is_Some (is_images st !! id) → accounts st0 ({[id]} ∪ I) held st.
Proof. intros [] Hid. split; try done. set_solver. Qed.

(** The images keep their layers and the references are the same. *)
Lemma accounts_same st0 I held st st' :
  accounts st0 I held st → image_inv st' →
  (∀ id, im_layer <$> is_images st' !! id = im_layer <$> is_images st !! id) →
  (∀ c r, lg_ref (is_ls st') c r ↔ lg_ref (is_ls st) c r) →
  accounts st0 I held st'.
Proof.
  intros [] Hinv Himg Href.
  assert (∀ r, owned st' r ↔ owned st r) as Hown.
  { intros r. unfold owned. split; intros (id & m & Hm & Hr); specialize (Himg id);
      rewrite Hm in Himg; symmetry in Himg || idtac;
      [destruct (is_images st !! id) as [m'|] eqn:Hm'|destruct (is_images st' !! id) as [m'|] eqn:Hm'];
      simpl in Himg; simplify_eq; exists id, m'; split; congruence. }
  split; [done| | | |done|by intros; apply Href, ac_old0|].
  2:{ intros id Hid. specialize (Himg id). destruct (ac_loaded0 id Hid) as [m Hm].
    rewrite Hm in Himg. by destruct (is_images st' !! id). }
  - intros id m Hm. destruct (ac_images0 id m Hm) as (m' & Hm' & Hl). specialize (Himg id).
    rewrite Hm' in Himg. destruct (is_images st' !! id) as [m2|]; simplify_eq/=.
    exists m2. split; congruence.
  - intros r Hr. destruct (ac_held0 r Hr) as ([c Hc] & Hno & Hold). rewrite Hown.
    split_and!; [|done..]. exists c. by apply Href.
  - intros c r Hr%Href. rewrite Hown. by apply ac_new0.
Qed.

Lemma accounts_same_mem st0 I held st st' :
  accounts st0 I held st → image_inv st' → same_mem st st' → accounts st0 I held st'.
Proof.
  intros Hac Hinv [Hi Hl]. apply (accounts_same _ _ _ st); [done..| |]; intros; by rewrite ?Hi, ?Hl.
Qed.

(** A reference of an image was held when the image was made, so it is not a new one. *)
Lemma owned_ref st r : image_inv st → owned st r → ∃ c, lg_ref (is_ls st) c r.
Proof.
  intros Hinv (id & m & Hm & Hr). destruct (ii_layer _ Hinv id m Hm) as (? & ? & rfs & _ & _ & _ & Hl).
  rewrite Hr in Hl. destruct Hl as [_ Hl]. by eexists.
Qed.

(** Taking a new reference. *)
Lemma accounts_take st0 I held st s r c :
  accounts st0 I held st → lg_ok s → lg_ref s c r →
  (∀ c' r', lg_ref (is_ls st) c' r' → lg_ref s c' r' ∧ r' ≠ r) →
  (∀ c' r', lg_ref s c' r' → lg_ref (is_ls st) c' r' ∨ r' = r) →
  accounts st0 I (r :: held) (with_ls st s).
Proof.
  intros Hac Hok Hr Hkeep Hnew. destruct Hac. split; simpl; try done.
  - apply inv_with_ls; [done..|]. intros; by apply Hkeep.
  - intros r' [->|Hr']%elem_of_cons.
    + split_and!; [by exists c| |].
      * intros Hown. destruct (owned_ref st r) as [c' Hc']; [done| |by destruct (Hkeep c' r Hc')].
        done.
      * intros c' Hc'%ac_old0. by destruct (Hkeep c' r Hc').
    + destruct (ac_held0 r' Hr') as ([c' Hc'] & Hno & Hold). split_and!; [|done..].
      exists c'. by apply Hkeep.
  - apply NoDup_cons. split; [|done]. intros Hin. destruct (ac_held0 r Hin) as ([c' Hc'] & _).
    by destruct (Hkeep c' r Hc').
  - intros c' r' Hr'%ac_old0. by apply Hkeep.
  - intros c' r' [Hr'| ->]%Hnew; [|right; left; by apply elem_of_cons; left].
    destruct (ac_new0 c' r' Hr') as [|[]]; [by left|right; left; by apply elem_of_cons; right|].
    by right; right.
Qed.

(** The references stay. *)
Lemma accounts_ls st0 I held st s :
  accounts st0 I held st → lg_ok s → (∀ c r, lg_ref s c r ↔ lg_ref (is_ls st) c r) →
  accounts st0 I held (with_ls st s).
Proof.
  intros Hac Hok Href. apply (accounts_same _ _ _ st); [done| |done|done].
  apply inv_with_ls; [apply Hac|done|]. intros. by apply Href.
Qed.

(** ** Calls of the layer store *)

Lemma get_accounts st0 I held st c :
  accounts st0 I held st →
  safe (call_ls st (λ s, lg_Get s c))
    (λ st' r, accounts st0 I (r :: held) st' ∧ is_images st' = is_images st ∧ lg_ref (is_ls st') c r)
    (λ st' _, accounts st0 I held st').
Proof.
  intros Hac. pose proof (ii_ls _ (ac_inv _ _ _ _ Hac)) as Hok. unfold call_ls.
  pose proof (lg_Get_spec (is_ls st) c Hok) as Hget.
  pose proof (λ c' r', lc_Get_new (is_ls st) c c' r' Hok) as Hnew.
  destruct (lg_Get (is_ls st) c) as [s [r|e| |]]; simpl in *; [| |done..].
  - destruct Hget as (Hok' & Hr & Hkeep). split_and!; [|done..].
    apply (accounts_take _ _ _ _ _ _ c); [done..|]. intros c' r' Hr'.
    destruct (Hnew c' r' Hr') as [|[= <-]]; [by left|by right].
  - destruct Hget as (Hok' & Hkeep). apply accounts_ls; [done..|]. intros c' r'.
    split; [|by apply Hkeep]. intros Hr'. by destruct (Hnew c' r' Hr').
Qed.

Lemma register_accounts st0 I held st data parent :
  accounts st0 I held st →
  safe (call_ls st (λ s, st_Register s data parent))
    (λ st' r, accounts st0 I (r :: held) st' ∧ is_images st' = is_images st)
    (λ st' _, accounts st0 I held st').
Proof.
  intros Hac. pose proof (ii_ls _ (ac_inv _ _ _ _ Hac)) as Hok. unfold call_ls.
  pose proof (lc_Register (is_ls st) data parent Hok) as H.
  destruct (st_Register (is_ls st) data parent) as [s [r|e| |]]; simpl in *; [| |done..].
  - destruct H as (Hok' & [c Hr] & Hkeep & Hnew). split; [|done].
    by apply (accounts_take _ _ _ _ _ _ c).
  - destruct H as [Hok' Hsame]. by apply accounts_ls.
Qed.

Lemma release_accounts st0 I held st r :
  accounts st0 I (r :: held) st →
  safe (call_ls st (λ s, lg_Release s r))
    (λ st' _, accounts st0 I held st' ∧ is_images st' = is_images st)
    (λ st' _, accounts st0 I held st' ∧ is_images st' = is_images st).
Proof.
  intros Hac. pose proof (ac_inv _ _ _ _ Hac) as Hinv. pose proof (ii_ls _ Hinv) as Hok.
  destruct (ac_held _ _ _ _ Hac r) as ([c Hc] & Hno & Hold); [by apply elem_of_cons; left|].
  unfold call_ls. pose proof (lg_Release_spec (is_ls st) c r Hok Hc) as Hrel.
  pose proof (λ c' r', lc_Release_new (is_ls st) c r c' r' Hok Hc) as Hnew.
  assert (∀ s, lg_ok s ∧ (∀ c', ¬ lg_ref s c' r) ∧
      (∀ c' r', lg_ref (is_ls st) c' r' → r' ≠ r → lg_ref s c' r') →
    (∀ c' r', lg_ref s c' r' → lg_ref (is_ls st) c' r') → accounts st0 I held (with_ls st s)) as Hpost.
  { intros s (Hok' & Hgone & Hkeep) Hn. destruct Hac. apply NoDup_cons in ac_distinct0 as [Hni Hnd].
    split; simpl; try done.
    - apply inv_with_ls; [done..|]. intros id m l c' Hm Hl Hr'. apply Hkeep; [done|].
      intros ->. apply Hno. by exists id, m.
    - intros r' Hr'. destruct (ac_held0 r') as ([c' Hc'] & Hno' & Hold'); [by apply elem_of_cons; right|].
      split_and!; [|done..]. exists c'. apply Hkeep; [done|]. by intros ->.
    - intros c' r' Hr'. apply Hkeep; [by apply ac_old0|]. intros ->. by apply (Hold c').
    - intros c' r' Hr'. destruct (ac_new0 c' r' (Hn _ _ Hr')) as [|[[->|]%elem_of_cons|]]; auto.
      by destruct (Hgone c'). }
  destruct (lg_Release (is_ls st) r) as [s [a|e| |]]; simpl in *; [| |done..]; split; auto.
Qed.

(** ** Calls of the image store *)

(** A new image takes over the reference on its layer. *)
Lemma accounts_insert st0 I held st st' id l :
  accounts st0 I (option_list l ++ held) st → image_inv st' →
  is_images st !! id = None → is_images st' = <[id := mkImageMeta l ∅]> (is_images st) →
  is_ls st' = is_ls st → accounts st0 I held st'.
Proof.
  intros Hac Hinv Hnew Himg Hls.
  assert (∀ r, owned st' r ↔ owned st r ∨ l = Some r) as Hown.
  { intros r. unfold owned. rewrite Himg. split.
    - intros (i & m & Hm & Hr). rewrite lookup_insert in Hm. case_decide; simplify_eq/=; [by right|].
      left. by exists i, m.
    - intros [(i & m & Hm & Hr)| ->]; [exists i, m|by exists id, (mkImageMeta (Some r) ∅); rewrite lookup_insert_eq].
      rewrite lookup_insert_ne; [done|]. intros ->. congruence. }
  destruct Hac. split; [done| | | | | |].
  2:{ intros i Hi. rewrite Himg, lookup_insert_is_Some'. right. by apply ac_loaded0. }
  - intros i m Hm. destruct (ac_images0 i m Hm) as (m' & Hm' & Hl). exists m'. split; [|done].
    rewrite Himg, lookup_insert_ne; [done|]. intros ->. congruence.
  - intros r Hr. destruct (ac_held0 r) as ([c Hc] & Hno & Hold); [apply elem_of_app; by right|].
    split_and!; [exists c; by rewrite Hls| |done]. rewrite Hown. intros [|Hl]; [done|].
    apply NoDup_app in ac_distinct0 as (_ & Hd & _). apply (Hd r); [|done]. rewrite Hl. simpl.
    by apply list_elem_of_singleton.
  - by apply NoDup_app in ac_distinct0 as (_ & _ & ?).
  - intros c r Hr. rewrite Hls. by apply ac_old0.
  - intros c r Hr. rewrite Hls in Hr. rewrite Hown.
    destruct (ac_new0 c r Hr) as [|[[Hl|]%elem_of_app|]]; auto.
    right; right; right. by destruct l; [apply list_elem_of_singleton in Hl as ->|apply elem_of_nil in Hl].
Qed.

Lemma retain_accounts st0 I held st c :
  accounts st0 I held st →
  safe (retain_layer st c)
    (λ st' l, accounts st0 I (option_list l ++ held) st' ∧ is_images st' = is_images st ∧
       match l with
       | None => c = ""
       | Some l => c ≠ "" ∧ lg_ref (is_ls st') c l ∧
           ∀ id m r, is_images st' !! id = Some m → im_layer m = Some r → l ≠ r
       end)
    (λ st' _, accounts st0 I held st').
Proof.
  intros Hac. unfold retain_layer. case_decide; [done|]. apply safe_bind.
  eapply safe_mono; [by apply get_accounts| |done]. intros st' r (Hac' & Himg & Hr). simpl.
  split_and!; try done. intros id m r' Hm Hr' <-.
  destruct (ac_held _ _ _ _ Hac' r) as (_ & Hno & _); [by apply elem_of_cons; left|].
  apply Hno. by exists id, m.
Qed.

Lemma create_accounts st0 I held st config :
  accounts st0 I held st → has_rootfs config →
  safe (imageStore_Create st config)
    (λ st' id, accounts st0 I held st' ∧ id = digest_FromBytes config ∧ is_Some (is_images st' !! id))
    (λ st' _, accounts st0 I held st').
Proof.
  intros Hac Hroot. unfold imageStore_Create.
  destruct (json_Unmarshal config) as [|img] eqn:Hj; [done|].
  destruct (Hroot img Hj) as [rfs Hr]. rewrite Hr. case_decide; [done|]. apply safe_bind.
  eapply safe_mono; [apply (keeps_call_fs st _ (λ id, id = digest_FromBytes config ∧ valid_id id));
    [apply Hac|apply bs_Set]| |].
  2:{ intros st' e [Hinv Hm]. by apply (accounts_same_mem _ _ _ st). }
  intros st1 id ([-> Hid] & Hinv1 & Hm1). simpl.
  apply (accounts_same_mem _ _ _ _ st1) in Hac; [|done..]. unfold create_locked.
  case_decide as Hin; [done|]. apply eq_None_not_Some in Hin. apply safe_bind.
  eapply safe_mono; [by apply retain_accounts| |done]. intros st2 l (Hac2 & Himg & Hl). simpl.
  eapply (inv_add_image st2 _ config img rfs l); [apply Hac2|done..|]. intros d -> Hinv'. simpl.
  split_and!; [|done|by rewrite lookup_insert_eq; eauto].
  eapply (accounts_insert _ _ _ st2); [done|done| |done|done]. by rewrite Himg.
Qed.

Lemma image_get_accounts st0 I held st id :
  accounts st0 I held st → valid_id id →
  safe (imageStore_Get st id) (λ st' img, accounts st0 I held st' ∧ decoded id img)
    (λ st' _, accounts st0 I held st').
Proof.
  intros Hac Hid. eapply safe_mono; [apply imageStore_Get_keeps; [apply Hac|done]| |].
  - intros st' img (Hd & Hinv & Hm). split; [|done]. by apply (accounts_same_mem _ _ _ st).
  - intros st' e (Hinv & Hm). by apply (accounts_same_mem _ _ _ st).
Qed.

Lemma images_valid_id st id : image_inv st → is_Some (is_images st !! id) → valid_id id.
Proof. intros Hinv [m Hm]. by destruct (ii_valid _ Hinv id m Hm). Qed.

Lemma SetParent_ls st id p : is_ls (imageStore_SetParent st id p).1 = is_ls st.
Proof.
  unfold imageStore_SetParent, unlink_parent, imageStore_GetParent, call_fs, or_none.
  repeat (case_match; simplify_eq/=; try done).
Qed.

Lemma set_parent_accounts st0 I held st id p :
  accounts st0 I held st → valid_id id →
  safe (imageStore_SetParent st id p) (λ st' _, accounts st0 I held st')
    (λ st' _, accounts st0 I held st').
Proof.
  intros Hac Hid. pose proof (SetParent_ls st id p) as Hls.
  pose proof (imageStore_SetParent_safe st id p (ac_inv _ _ _ _ Hac) Hid) as H.
  assert (∀ st', is_ls st' = is_ls st → image_inv st' ∧ same_layers st st' →
    accounts st0 I held st') as Hpost.
  { intros st' Heq [Hinv Hsame]. apply (accounts_same _ _ _ st); [done..|]. by rewrite Heq. }
  destruct (imageStore_SetParent st id p) as [st' []]; simpl in *; eauto.
Qed.

(** ** The exporter *)

Abbreviation exporter := (tarexporter F L DS).
Implicit Types (l : exporter).

(** Since [l0] the layers are accounted for, and a tag is as it was or leads to an image
    in [I]. *)
Record te_accounts (l0 : exporter) (I : gset string) held l : Prop := {
  ta_accounts : accounts (te_is l0) I held (te_is l);
  ta_refs : ref_inv (te_rs l);
  ta_tags ref : storable ref → ref_lookup (te_rs l) ref = ref_lookup (te_rs l0) ref ∨
    ∃ id, id ∈ I ∧ ref_lookup (te_rs l) ref = Some id
}.

Lemma te_accounts_loaded l0 I held l id :
  te_accounts l0 I held l → is_Some (is_images (te_is l) !! id) →
  te_accounts l0 ({[id]} ∪ I) held l.
Proof.
  intros [Ha Hr Ht] Hid. split; [by apply accounts_loaded|done|].
  intros ref Href. destruct (Ht ref Href) as [|(i & Hi & Hl)]; [by left|right]. exists i. set_solver.
Qed.

Lemma te_accounts_is l0 I held held' l st :
  te_accounts l0 I held l → accounts (te_is l0) I held' st → te_accounts l0 I held' (with_is l st).
Proof. intros [] Ha. by split. Qed.

Lemma on_is_accounts {A} l0 I held (held' : A → list Layer) l f (Q : store → A → Prop) :
  te_accounts l0 I held l →
  (accounts (te_is l0) I held (te_is l) →
   safe (f (te_is l)) (λ st a, accounts (te_is l0) I (held' a) st ∧ Q st a)
     (λ st _, accounts (te_is l0) I held st)) →
  safe (on_is l f) (λ l' a, te_accounts l0 I (held' a) l' ∧ Q (te_is l') a)
    (λ l' _, te_accounts l0 I held l').
Proof.
  intros Ht Hf. specialize (Hf (ta_accounts _ _ _ _ Ht)). unfold on_is.
  destruct (f (te_is l)) as [st [a|e| |]]; simpl in *; [|by eapply te_accounts_is|done..].
  destruct Hf. split; [by eapply te_accounts_is|done].
Qed.

(** Outcomes that do not depend on the state. *)
Lemma safe_pure {S A B} (s : S) (o : outcome string A) (k : S → A → S * outcome string B) Q
    (R : S → Prop) :
  no_crash o → R s → (∀ a, o = Ok a → safe (k s a) Q (λ s' _, R s')) →
  safe (and_then (s, o) k) Q (λ s' _, R s').
Proof. intros [Hp Hd] HR Hk. destruct o; simpl; [by apply Hk|done|by destruct (Hp _ eq_refl)|done]. Qed.

Lemma no_crash_either {A} (r : string + A) : no_crash (of_either r).
Proof. by destruct r. Qed.

Lemma no_crash_obind {A B} (o : outcome string A) (k : A → outcome string B) :
  no_crash o → (∀ a, o = Ok a → no_crash (k a)) → no_crash (obind o k).
Proof. intros [Hp Hd] Hk. destruct o; simpl; [by apply Hk|by split|by destruct (Hp _ eq_refl)|done]. Qed.

Lemma no_crash_read t tmp p : no_crash (read_file t tmp p).
Proof. unfold read_file. destruct (tree_Read t tmp p); by split. Qed.

Lemma no_crash_safePath t tmp p : no_crash (safePath t tmp p).
Proof. by apply FollowSymlinkInScope_ends. Qed.

Lemma no_crash_decompress data : no_crash (DecompressStream data).
Proof. unfold DecompressStream. case_match; [by split|apply no_crash_either..]. Qed.

Lemma no_crash_NewFromJSON config : no_crash (NewFromJSON config).
Proof. unfold NewFromJSON. repeat case_match; by split. Qed.

Lemma WithName_ok name ref :
  WithName name = Ok ref → ∃ n, ref = namedRef n ∧ dist_WithName n = None.
Proof.
  unfold WithName, obind. repeat (case_match; try done). intros [= <-]. by eexists.
Qed.

Lemma no_crash_WithName name : no_crash (WithName name).
Proof.
  unfold WithName, normalize, validateName.
  repeat first [apply no_crash_obind; [|intros ? _]|case_match|case_decide|by split].
Qed.

Lemma no_crash_WithTag ref tag : no_crash (WithTag ref tag).
Proof. unfold WithTag. case_match; by split. Qed.

Lemma no_crash_ParseNamed s : no_crash (ParseNamed s).
Proof.
  unfold ParseNamed. case_match; [by split|]. destruct p as [[name tag] digest].
  apply no_crash_obind; [apply no_crash_WithName|]. intros r _.
  unfold WithDigest, WithTag. repeat case_match; by split.
Qed.

Lemma WithTag_storable n tag ref :
  dist_WithName n = None → WithTag (namedRef n) tag = Ok ref → storable ref.
Proof. unfold WithTag. intros Hn. case_match; [|done]. intros [= <-]. by split. Qed.

Lemma ParseNamed_storable s name tag :
  ParseNamed s = Ok (taggedRef name tag) → storable (taggedRef name tag).
Proof.
  unfold ParseNamed. case_match; [done|]. destruct p as [[n t] d].
  destruct (WithName n) as [r| | |] eqn:Hn; simpl; try done.
  apply WithName_ok in Hn as (n' & -> & Hn). case_decide; [unfold WithDigest; by case_match|].
  case_decide; [|done]. by apply WithTag_storable.
Qed.

(** ** Loading with a manifest *)

Lemma set_tag_accounts l0 I held l ref id :
  te_accounts l0 I held l → storable ref → id ∈ I →
  safe (set_tag l ref id)
    (λ l' _, te_accounts l0 I held l' ∧ is_images (te_is l') = is_images (te_is l)) (λ _ _, False).
Proof.
  intros Ht Href Hid. unfold set_tag, setLoadedTag.
  set (l1 := match refStore_Get (te_rs l) ref with Ok _ => _ | _ => _ end).
  assert (te_is l1 = te_is l ∧ te_rs l1 = te_rs l) as [His Hrs]
    by (subst l1; case_match; [case_match|..]; done).
  destruct Ht as [Ha Hr Htags].
  assert (valid_ref ref ∧ tag_default ref = ref) as [Hv Hdef] by (by destruct ref).
  pose proof (refStore_AddTag_spec (te_rs l1) ref id true) as Hadd. rewrite Hrs in Hadd.
  specialize (Hadd Hr Hv). rewrite Hrs. rewrite Hdef in Hadd.
  assert (∀ rs, rs = te_rs l ∨ bound (te_rs l) ref id rs →
    te_accounts l0 I held (with_rs l1 rs) ∧ is_images (te_is (with_rs l1 rs)) = is_images (te_is l)) as Hpost.
  { intros rs Hb. split; [|simpl; by rewrite His]. split; simpl; [by rewrite His|..].
    - by destruct Hb as [->|(? & _)].
    - intros ref' Href'. destruct Hb as [->|(_ & _ & Hl)]; [by apply Htags|].
      rewrite Hl by done. case_decide; [|by apply Htags]. right. by exists id. }
  destruct (refStore_AddTag (te_rs l) ref id true) as [rs [u|[]| |]]; simpl in *; [| | |done..].
  - apply Hpost. right. apply Hadd.
  - apply Hpost. destruct Hadd as [->|[Hb _]]; auto.
  - apply Hpost. destruct Hadd as [->|[Hb _]]; auto.
Qed.

Lemma loadLayer_accounts l0 I held t tmp l filename rootFS :
  te_accounts l0 I held l →
  safe (loadLayer t tmp l filename rootFS) (λ l' r, te_accounts l0 I (r :: held) l')
    (λ l' _, te_accounts l0 I held l').
Proof.
  intros Ht. unfold loadLayer. apply safe_pure; [apply no_crash_read|done|]. intros rawTar _.
  apply safe_pure; [apply no_crash_decompress|done|]. intros data _.
  eapply safe_mono; [apply (on_is_accounts l0 I held (λ r, r :: held) l _ (λ _ _, True) Ht)| |done].
  - intros Ha. eapply safe_mono; [by apply register_accounts| |done]. naive_solver.
  - naive_solver.
Qed.

Lemma te_get_accounts l0 I held l c :
  te_accounts l0 I held l →
  safe (on_ls l (λ x, lg_Get x c)) (λ l' r, te_accounts l0 I (r :: held) l')
    (λ l' _, te_accounts l0 I held l').
Proof.
  intros Ht. eapply safe_mono;
    [apply (on_is_accounts l0 I held (λ r, r :: held) l _ (λ _ _, True) Ht)| |done].
  - intros Ha. eapply safe_mono; [by apply get_accounts| |done]. naive_solver.
  - naive_solver.
Qed.

Lemma te_create_accounts l0 I held l config :
  te_accounts l0 I held l → has_rootfs config →
  safe (on_is l (λ x, imageStore_Create x config))
    (λ l' id, te_accounts l0 ({[id]} ∪ I) held l' ∧ id = digest_FromBytes config)
    (λ l' _, te_accounts l0 I held l').
Proof.
  intros Ht Hroot. eapply safe_mono; [apply (on_is_accounts l0 I held (λ _, held) l _
    (λ st id, is_Some (is_images st !! id) ∧ id = digest_FromBytes config) Ht)| |done].
  - intros Ha. eapply safe_mono; [by apply create_accounts| |done]. naive_solver.
  - intros l' id (Ht' & Hid & Heq). split; [|done]. by apply te_accounts_loaded.
Qed.

Abbreviation lstate := (exporter * list Layer)%type.
Implicit Types (s : lstate).

(** A call on the exporter, with the layers beside it. *)
Lemma on_te_safe {A} s (f : exporter → exporter * outcome string A) Q (R : lstate → Prop) :
  safe (f s.1) (λ l a, Q (l, s.2) a) (λ l _, R (l, s.2)) →
  safe (on_te s f) Q (λ s' _, R s').
Proof. unfold on_te. by destruct (f s.1) as [l []]. Qed.

(** The layers that Load has to release are accounted for. *)
Definition settled l0 s : Prop := ∃ I, te_accounts l0 I s.2 s.1.

Lemma load_layers_accounts l0 I t tmp s rootFS layers :
  te_accounts l0 I s.2 s.1 →
  safe (load_layers t tmp s rootFS layers) (λ s' _, te_accounts l0 I s'.2 s'.1)
    (λ s' _, te_accounts l0 I s'.2 s'.1).
Proof.
  revert s rootFS. induction layers as [|[diffID path] layers IH]; intros s rootFS Ht; [done|].
  cbn [load_layers].
  apply (safe_pure s _ _ _ (λ s, te_accounts l0 I s.2 s.1)); [apply no_crash_safePath|done|].
  intros layerPath _. cbn zeta. apply safe_bind. destruct s as [l held]; simpl in Ht.
  assert (∀ l' r, te_accounts l0 I (r :: held) l' →
    safe (if decide (diffID ≠ st_DiffID (is_ls (te_is l')) r)
          then ((l', r :: held), Err "invalid diffID for layer")
          else load_layers t tmp (l', r :: held) (RootFS_Append rootFS diffID) layers)
      (λ s' _, te_accounts l0 I s'.2 s'.1) (λ s' _, te_accounts l0 I s'.2 s'.1)) as Hnext.
  { intros l' r Hr. case_decide; [done|]. by apply IH. }
  pose proof (te_get_accounts l0 I held l (RootFS_ChainID (RootFS_Append rootFS diffID)) Ht) as Hget.
  unfold on_te. simpl. destruct (on_ls l _) as [l1 [r|e| |]]; simpl in *; [by apply Hnext| |done..].
  pose proof (loadLayer_accounts l0 I held t tmp l1 layerPath rootFS Hget) as Hload.
  unfold or_none. simpl. destruct (loadLayer _ _ _ _ _) as [l2 [r|e'| |]]; simpl in *; [|done..].
  by apply Hnext.
Qed.

Lemma load_tags_accounts l0 I held l id tags :
  te_accounts l0 I held l → id ∈ I →
  safe (load_tags l id tags) (λ l' _, te_accounts l0 I held l') (λ l' _, te_accounts l0 I held l').
Proof.
  intros Ht Hid. revert l Ht. induction tags as [|tag tags IH]; intros l Ht; [done|]. cbn [load_tags].
  pose proof (no_crash_ParseNamed tag) as [Hp Hd].
  destruct (ParseNamed tag) as [[]|e|m|] eqn:Htag; [done| |done|done|by destruct (Hp m)|done].
  apply ParseNamed_storable in Htag. apply safe_bind.
  eapply safe_mono; [by apply set_tag_accounts| |done]. intros l1 _ [Ht1 _]. simpl.
  apply safe_bind. eapply safe_mono; [apply (IH (print l1 _))|done|done]. by destruct Ht1.
Qed.

Lemma load_item_accounts l0 I t tmp s (item : manifestItem) :
  te_accounts l0 I s.2 s.1 →
  safe (load_item t tmp s item) (λ s' a, te_accounts l0 ({[a.1]} ∪ I) s'.2 s'.1) (λ s' _, settled l0 s').
Proof.
  intros Ht. unfold load_item. assert (settled l0 s) as Hs by (by exists I).
  apply safe_pure; [apply no_crash_safePath|done|]. intros configPath _.
  apply safe_pure; [apply no_crash_read|done|]. intros config _.
  apply safe_pure; [apply no_crash_NewFromJSON|done|]. intros img Himg. simpl.
  destruct (NewFromJSON_Ok _ _ Himg) as (img0 & rfs & Hdec & Hrfs0 & ->). case_decide; [done|].
  apply safe_bind. eapply safe_mono; [by apply load_layers_accounts| |by exists I].
  intros s1 [] Ht1. apply safe_bind, on_te_safe.
  eapply safe_mono; [apply (te_create_accounts l0 I s1.2 s1.1 config Ht1)| |by exists I].
  { intros img1 Heq. rewrite Hdec in Heq. injection Heq as <-. by rewrite Hrfs0. }
  intros l1 id [Ht2 _]. apply safe_bind, on_te_safe.
  eapply safe_mono; [apply (load_tags_accounts l0 ({[id]} ∪ I)); [done|set_solver]| |by eexists].
  intros l2 n [Ha Hr Htags]. by split.
Qed.

Definition links_in (I : gset string) (links : list parentLink) : Prop :=
  Forall (λ p, pl_id p ∈ I) links.

Lemma load_items_accounts l0 I t tmp s manifest links msg n :
  te_accounts l0 I s.2 s.1 → links_in I links →
  safe (load_items t tmp s manifest links msg n)
    (λ s' a, ∃ I', te_accounts l0 I' s'.2 s'.1 ∧ links_in I' a.1.1) (λ s' _, settled l0 s').
Proof.
  revert I s links msg n. induction manifest as [|item manifest IH]; intros I s links msg n Ht Hl.
  { by exists I. }
  cbn [load_items]. apply safe_bind. eapply safe_mono; [by apply load_item_accounts| |done].
  intros s' [id k] Ht'. simpl in *. apply (IH ({[id]} ∪ I)); [done|].
  apply Forall_app. split; [|by repeat constructor; simpl; set_solver].
  eapply Forall_impl; [exact Hl|]. set_solver.
Qed.

(** A parent that is left in the links is one of the images that were loaded. *)
Lemma validated_links I links :
  links_in I links →
  Forall (λ p, pl_id p ∈ I ∧ (pl_parentID p ≠ "" → pl_parentID p ∈ I)) (validatedParentLinks links).
Proof.
  intros Hl. unfold validatedParentLinks. apply Forall_fmap, Forall_forall. intros p Hp.
  unfold links_in in Hl. rewrite Forall_forall in Hl. pose proof (Hl p Hp) as Hin. simpl.
  destruct (existsb _ links) eqn:He; simpl; [|by split]. split; [done|]. intros _. apply existsb_exists in He as (p2 & Hp2 & Heq).
  apply list_elem_of_In in Hp2. apply bool_decide_eq_true in Heq as [<- _]. by apply Hl.
Qed.

Lemma loaded_valid l0 I held l id : te_accounts l0 I held l → id ∈ I → valid_id id.
Proof.
  intros [Ha _ _] Hid. apply (images_valid_id (te_is l)); [apply Ha|]. by apply (ac_loaded _ _ _ _ Ha).
Qed.

Lemma setParentID_accounts l0 I held l id parentID :
  te_accounts l0 I held l → id ∈ I → parentID ∈ I →
  safe (setParentID l id parentID) (λ l' _, te_accounts l0 I held l')
    (λ l' _, te_accounts l0 I held l').
Proof.
  intros Ht Hid Hp. unfold setParentID.
  pose proof (loaded_valid _ _ _ _ _ Ht Hid) as Hvid. pose proof (loaded_valid _ _ _ _ _ Ht Hp) as Hvp.
  assert (∀ l i, te_accounts l0 I held l → valid_id i →
    safe (on_is l (λ x, imageStore_Get x i)) (λ l' _, te_accounts l0 I held l')
      (λ l' _, te_accounts l0 I held l')) as Hget.
  { intros l1 i Ht1 Hi. eapply safe_mono;
      [apply (on_is_accounts l0 I held (λ _, held) l1 _ (λ _ _, True) Ht1)|naive_solver|done].
    intros Ha. eapply safe_mono; [by apply image_get_accounts|naive_solver|done]. }
  apply safe_bind. eapply safe_mono; [by apply Hget| |done]. intros l1 img Ht1.
  apply safe_bind. eapply safe_mono; [by apply Hget| |done]. intros l2 parent Ht2. case_match; [|done].
  eapply safe_mono; [apply (on_is_accounts l0 I held (λ _, held) l2 _ (λ _ _, True) Ht2)|naive_solver|done].
  intros Ha. eapply safe_mono; [by apply set_parent_accounts|naive_solver|done].
Qed.

Lemma set_parents_accounts l0 I held l links :
  te_accounts l0 I held l →
  Forall (λ p, pl_id p ∈ I ∧ (pl_parentID p ≠ "" → pl_parentID p ∈ I)) links →
  safe (set_parents l links) (λ l' _, te_accounts l0 I held l') (λ l' _, te_accounts l0 I held l').
Proof.
  intros Ht Hl. revert l Ht. induction Hl as [|p links [Hid Hp] _ IH]; intros l Ht; [done|].
  cbn [set_parents]. apply safe_bind. apply (safe_mono _ (λ l' _, te_accounts l0 I held l') _ (λ l' _, te_accounts l0 I held l'));
    [|intros l' [] Hl'; by apply IH|done].
  case_decide; [|done]. apply setParentID_accounts; auto.
Qed.

Lemma release_all_accounts l0 I held l :
  te_accounts l0 I held l →
  safe (release_all l held) (λ l' _, te_accounts l0 I [] l') (λ _ _, False).
Proof.
  revert l. induction held as [|r held IH]; intros l Ht; [done|]. cbn [release_all]. apply safe_bind.
  pose proof (release_accounts (te_is l0) I held (te_is l) r (ta_accounts _ _ _ _ Ht)) as Hr.
  unfold on_ls, on_is. destruct (call_ls _ _) as [st [a|e| |]]; simpl in *; [| |done..];
    apply IH; eapply te_accounts_is; naive_solver.
Qed.

(** Load with a manifest: everything that was taken is given back. *)
Lemma load_manifest_accounts l t tmp manifest :
  image_inv (te_is l) → ref_inv (te_rs l) →
  safe (with_releases (load_manifest t tmp (l, []) manifest))
    (λ l' _, ∃ I, te_accounts l I [] l') (λ l' _, ∃ I, te_accounts l I [] l').
Proof.
  intros Hinv Href.
  assert (te_accounts l ∅ [] l) as Ht by (split; [by apply accounts_start|done|by left]).
  assert (safe (load_manifest t tmp (l, []) manifest) (λ s _, settled l s) (λ s _, settled l s)) as Hs.
  { unfold load_manifest. apply safe_bind.
    eapply safe_mono; [apply (load_items_accounts l ∅)| |done]; [done|by constructor|].
    intros s [[links msg] n] (I & Ht1 & Hl). simpl in Hl. apply safe_bind, on_te_safe.
    eapply safe_mono; [apply (set_parents_accounts l I s.2); [done|by apply validated_links]| |by exists I].
    intros l1 _ [Ha Hr Htags]. case_decide; exists I; by split. }
  unfold with_releases. destruct (load_manifest _ _ _ _) as [s o].
  assert (settled l s → ∃ l' u, release_all s.1 s.2 = (l', Ok u) ∧ ∃ I, te_accounts l I [] l') as Hrel.
  { intros [I HI]. pose proof (release_all_accounts l I s.2 s.1 HI) as Hr.
    destruct (release_all s.1 s.2) as [l' []]; simpl in Hr; try done. eauto 6. }
  destruct o; simpl in Hs; [| |done..]; destruct (Hrel Hs) as (l' & u & -> & HI); done.
Qed.
End accounts.
