(* ===== verification/TarExportLegacy.v ===== *)
(** * Loading images of the old format

    Loading an archive without a manifest ends unless an image is its own ancestor, and
    leaves at most one layer without an owner when it fails. *)

From S2P Require Import Prelude GoStrings GoPath Symlink Layer ImageStore ImageInv RefStore RefInv ImageDelete TarExport TarExportInv.
#[local] Open Scope nat_scope.

(** A configuration that was made with a rootfs decodes to it. *)
Class RootFSLaw `{ImageExt} `{TarExportExt} := {
  made_rootfs c r config img : c !! "rootfs" = Some (json_RootFS r) → map_Marshal c = inr config →
    json_Unmarshal config = inr img → is_Some (img_RootFS img)
}.

(** [safe], where the call may also not return when [D] holds. *)
Definition safe_or {S A : Type} (D : Prop) (r : S * outcome string A) (Q : S → A → Prop)
    (R : S → Prop) : Prop :=
  match r with (_, Diverge) => D | _ => safe r Q (λ s _, R s) end.

Lemma safe_or_bind {S A B} D (r : S * outcome string A) (k : S → A → S * outcome string B) Q R :
  safe_or D r (λ s a, safe_or D (k s a) Q R) R → safe_or D (and_then r k) Q R.
Proof. by destruct r as [s []]. Qed.

Lemma safe_or_safe {S A} D (r : S * outcome string A) Q R :
  safe r Q (λ s _, R s) → safe_or D r Q R.
Proof. by destruct r as [s []]. Qed.

Lemma safe_or_mono {S A} (D D' : Prop) (r : S * outcome string A) Q Q' (R R' : S → Prop) :
  safe_or D r Q R → (D → D') → (∀ s a, Q s a → Q' s a) → (∀ s, R s → R' s) → safe_or D' r Q' R'.
Proof. destruct r as [s []]; simpl; auto. Qed.

Lemma safe_or_pure {S A B} D (s : S) (o : outcome string A) (k : S → A → S * outcome string B) Q R :
  no_crash o → R s → (∀ a, o = Ok a → safe_or D (k s a) Q R) → safe_or D (and_then (s, o) k) Q R.
Proof. intros [Hp Hd] HR Hk. destruct o; simpl; [by apply Hk|done|by destruct (Hp _ eq_refl)|done]. Qed.

(** ** Chains of parents *)

Section chains.
Context {text : TarExportExt}.
Implicit Types (t : tree) (tmp x y : string).

(** The parent that the file of an image names. *)
Definition legacy_parent t tmp x : option string :=
  match safePath t tmp (filepath_Join x legacyConfigFileName) with
  | Ok p =>
      match read_file t tmp p with
      | Ok data =>
          match json_parent data with
          | inr parent => if decide (parent ≠ "") then Some parent else None
          | inl _ => None
          end
      | _ => None
      end
  | _ => None
  end.

Definition parent_step t tmp x y : Prop := legacy_parent t tmp x = Some y.

(** [n] generations of ancestors. *)
Inductive ancestors t tmp : nat → string → list string → Prop :=
| ancestors_nil x : ancestors t tmp 0 x []
| ancestors_cons n x y ys :
    parent_step t tmp x y → ancestors t tmp n y ys → ancestors t tmp (S n) x (y :: ys).

Lemma ancestors_length t tmp n x ys : ancestors t tmp n x ys → length ys = n.
Proof. by induction 1; simpl; f_equal. Qed.

Lemma ancestors_reach t tmp n x ys y :
  ancestors t tmp n x ys → y ∈ ys → tc (parent_step t tmp) x y.
Proof.
  induction 1 as [|n x z ys Hs _ IH]; [by intros ?%elem_of_nil|].
  intros [->|Hy]%elem_of_cons; [by apply tc_once|]. eapply tc_l; [done|]. by apply IH.
Qed.

Lemma ancestors_repeat t tmp n x ys :
  ancestors t tmp n x ys → ¬ NoDup ys → ∃ y, tc (parent_step t tmp) y y.
Proof.
  induction 1 as [|n x y ys Hs Ha IH]; [intros []; constructor|].
  intros Hnd. destruct (decide (y ∈ ys)) as [Hin|Hni].
  - exists y. by eapply ancestors_reach.
  - apply IH. intros Hd. apply Hnd. by constructor.
Qed.

(** The parents that the files of a directory name. *)
Definition named_parents t : list string :=
  omap (λ kv, match kv.2 with
              | NFile data => match json_parent data with inr p => Some p | inl _ => None end
              | _ => None
              end) (map_to_list t).

Lemma omap_length {A B} (f : A → option B) (xs : list A) : length (omap f xs) ≤ length xs.
Proof.
  induction xs as [|x xs IH]; [done|]. unfold omap in *. cbn [list_omap length].
  destruct (f x); cbn [length]; lia.
Qed.

Lemma parent_named t tmp x y : parent_step t tmp x y → y ∈ named_parents t.
Proof.
  unfold parent_step, legacy_parent, read_file, tree_Read.
  destruct (safePath _ _ _) as [p| | |]; try done.
  destruct (rel_path tmp p) as [cs|]; [|done]. destruct (through_file t cs); [done|].
  destruct (t !! cs) as [[|data|]|] eqn:Hcs; try done.
  destruct (json_parent data) as [|parent] eqn:Hj; [done|]. case_decide; [|done]. intros [= <-].
  apply list_elem_of_omap. exists (cs, NFile data). split; [by apply elem_of_map_to_list|].
  simpl. by rewrite Hj.
Qed.

Lemma ancestors_named t tmp n x ys : ancestors t tmp n x ys → Forall (.∈ named_parents t) ys.
Proof. induction 1; constructor; [by eapply parent_named|done]. Qed.

(** More generations than files: some image is its own ancestor. *)
Lemma ancestors_cycle t tmp n x ys :
  ancestors t tmp n x ys → size t < n → ∃ y, tc (parent_step t tmp) y y.
Proof.
  intros Ha Hn. apply (ancestors_repeat t tmp n x ys Ha). intros Hnd.
  pose proof (ancestors_named _ _ _ _ _ Ha) as Hin. rewrite Forall_forall in Hin.
  pose proof (NoDup_submseteq _ _ Hnd Hin) as Hs%submseteq_length.
  pose proof (ancestors_length _ _ _ _ _ Ha).
  assert (length (named_parents t) ≤ size t) as Hl
    by (unfold named_parents; etrans; [apply omap_length|]; by rewrite length_map_to_list).
  lia.
Qed.
End chains.

(** ** Accounts *)

Section legacy.
Context {F L DS Desc : Type}.
Context {be : StoreBackend F} {lg : LayerGetReleaser L} {holder : LayerHolder L}.
Context {reg : LayerRegistry L} {client : LayerClient L}.
Context {dset : DigestSet DS} {ext : LayerExt string Desc} {iext : ImageExt} {rext : RefExt}.
Context {dlaws : DigestSetLaws DS} {bsafe : BackendSafe F} {rlaws : RefLaws}.
Context {text : TarExportExt} {order : MapOrder} {rootlaw : RootFSLaw}.

Abbreviation exporter := (tarexporter F L DS).
Implicit Types (l : exporter) (I : gset string).

(** At most one layer has lost its owner. *)
Definition leaks l0 l : Prop := ∃ I held, length held ≤ 1 ∧ te_accounts l0 I held l.

Lemma made_has_rootfs json rootFS history config :
  MakeConfigFromV1Config json rootFS history = Ok config → has_rootfs config.
Proof.
  unfold MakeConfigFromV1Config.
  destruct (json_docker_version json) as [|v]; [done|]. simpl.
  destruct (if versions_LessThan _ _ then _ else _) as [j| | |]; try done. simpl.
  destruct (map_Unmarshal j) as [|c]; [done|]. simpl.
  destruct (map_Marshal _) as [|conf] eqn:Hm; [done|]. intros [= <-] img Himg.
  eapply made_rootfs; [|exact Hm|exact Himg]. rewrite lookup_insert_ne by done. by rewrite lookup_insert_eq.
Qed.

Lemma no_crash_made json rootFS history : no_crash (MakeConfigFromV1Config json rootFS history).
Proof.
  unfold MakeConfigFromV1Config. repeat (apply no_crash_obind; [|intros ? _]); try apply no_crash_either.
  case_match; [|by split]. apply no_crash_obind; intros; apply no_crash_either.
Qed.

Lemma no_crash_history json b : no_crash (HistoryFromConfig json b).
Proof. apply no_crash_obind; [apply no_crash_either|]. by split. Qed.

(** Reading an image that was loaded. *)
Lemma te_image_get l0 I held l id :
  te_accounts l0 I held l → id ∈ I →
  safe (on_is l (λ x, imageStore_Get x id))
    (λ l' img, te_accounts l0 I held l' ∧ is_Some (img_RootFS img)) (λ l' _, te_accounts l0 I held l').
Proof.
  intros Ht Hid. eapply safe_mono; [apply (on_is_accounts l0 I held (λ _, held) l _
    (λ _ img, is_Some (img_RootFS img)) Ht)|done|done].
  intros Ha. eapply safe_mono; [apply image_get_accounts; [done|by eapply loaded_valid]| |done].
  intros st img (Hst & config & img0 & r & _ & _ & _ & Hr & _). rewrite Hr. eauto.
Qed.

Lemma te_release l0 I held l r :
  te_accounts l0 I (r :: held) l →
  safe (on_ls l (λ x, lg_Release x r)) (λ l' _, te_accounts l0 I held l')
    (λ l' _, te_accounts l0 I held l').
Proof.
  intros Ht. pose proof (release_accounts (te_is l0) I held (te_is l) r (ta_accounts _ _ _ _ Ht)) as Hr.
  unfold on_ls, on_is. destruct (call_ls _ _) as [st [a|e| |]]; simpl in *; [| |done..];
    eapply te_accounts_is; naive_solver.
Qed.

Lemma te_set_parent l0 I held l id p :
  te_accounts l0 I held l → id ∈ I →
  safe (on_is l (λ x, imageStore_SetParent x id p)) (λ l' _, te_accounts l0 I held l')
    (λ l' _, te_accounts l0 I held l').
Proof.
  intros Ht Hid. eapply safe_mono;
    [apply (on_is_accounts l0 I held (λ _, held) l _ (λ _ _, True) Ht)|naive_solver|done].
  intros Ha. eapply safe_mono;
    [apply set_parent_accounts; [done|by eapply loaded_valid]|naive_solver|done].
Qed.

Lemma leaks_none l0 I l : te_accounts l0 I [] l → leaks l0 l.
Proof. intros Ht. exists I, []. simpl. split; [lia|done]. Qed.
Lemma leaks_one l0 I r l : te_accounts l0 I [r] l → leaks l0 l.
Proof. intros Ht. exists I, [r]. simpl. split; [lia|done]. Qed.

Lemma legacy_image_accounts l0 I t tmp l oldID json parentID :
  te_accounts l0 I [] l → (parentID = "" ∨ parentID ∈ I) →
  safe (legacy_image t tmp l oldID json parentID)
    (λ l' id, te_accounts l0 ({[id]} ∪ I) [] l') (λ l' _, leaks l0 l').
Proof.
  intros Ht Hp. unfold legacy_image. apply safe_bind.
  apply (safe_mono _ (λ l' _, te_accounts l0 I [] l') _ (λ l' _, te_accounts l0 I [] l'));
    [|clear l Ht; intros l base Ht|intros l' e Hl; exact (leaks_none _ _ _ Hl)].
  { case_decide; [|done]. destruct Hp as [|Hp]; [done|]. apply safe_bind.
    eapply safe_mono; [by apply te_image_get| |done]. by intros l' img [Ht' [r ->]]. }
  apply safe_pure; [apply no_crash_safePath|exact (leaks_none _ _ _ Ht)|]. intros layerPath _.
  apply safe_bind. eapply safe_mono; [by apply loadLayer_accounts| |intros l' e Hl; exact (leaks_none _ _ _ Hl)].
  clear l Ht. intros l r Ht. cbn zeta.
  apply safe_pure; [apply no_crash_history|exact (leaks_one _ _ _ _ Ht)|]. intros h _.
  apply safe_pure; [apply no_crash_made|exact (leaks_one _ _ _ _ Ht)|]. intros config Hc. apply safe_bind.
  eapply safe_mono; [apply te_create_accounts; [exact Ht|by eapply made_has_rootfs]| |intros l' e Hl; exact (leaks_one _ _ _ _ Hl)].
  clear l Ht Hc. intros l id [Ht _]. apply safe_bind.
  eapply safe_mono; [by apply te_release| |intros l' e Hl; exact (leaks_none _ _ _ Hl)].
  clear l Ht. intros l md Ht. apply safe_bind.
  apply (safe_mono _ (λ l' _, te_accounts l0 ({[id]} ∪ I) [] l') _
    (λ l' _, te_accounts l0 ({[id]} ∪ I) [] l')); [|done|intros l' e Hl; exact (leaks_none _ _ _ Hl)].
  case_decide; [|done]. apply te_set_parent; [done|set_solver].
Qed.

Abbreviation legacy_state := (exporter * gmap string string)%type.
Implicit Types (s : legacy_state).

(** The images in the map were loaded. *)
Definition legacy_accounts l0 I s : Prop :=
  te_accounts l0 I [] s.1 ∧ map_Forall (λ _ id, id ∈ I) s.2.

Lemma legacyLoadImage_loads l0 fuel t tmp oldID I s :
  legacy_accounts l0 I s →
  safe_or (∃ ys, ancestors t tmp fuel oldID ys) (legacyLoadImage fuel t tmp oldID s)
    (λ s' _, is_Some (s'.2 !! oldID) ∧ ∃ I', legacy_accounts l0 I' s')
    (λ s', leaks l0 s'.1).
Proof.
  revert oldID I s. induction fuel as [|fuel IH]; intros oldID I s Hs.
  { simpl. exists []. constructor. }
  assert (leaks l0 s.1) as Hleak by (destruct Hs as [Ht _]; by eapply leaks_none).
  cbn [legacyLoadImage]. case_decide as Hin; [by split; [|exists I]|].
  apply (safe_or_pure _ s _ _ _ (λ s, leaks l0 s.1)); [apply no_crash_safePath|done|]. intros p Hp.
  apply (safe_or_pure _ s _ _ _ (λ s, leaks l0 s.1)); [apply no_crash_read|done|]. intros json Hj.
  apply (safe_or_pure _ s _ _ _ (λ s, leaks l0 s.1)); [apply no_crash_either|done|]. intros parent Hparent.
  assert (parent ≠ "" → parent_step t tmp oldID parent) as Hstep.
  { intros Hne. unfold parent_step, legacy_parent. rewrite Hp, Hj.
    destruct (json_parent json); [done|]. injection Hparent as ->. by rewrite decide_True. }
  apply safe_or_bind.
  apply (safe_or_mono (∃ ys, ancestors t tmp (S fuel) oldID ys) _ _
    (λ s' parentID, ∃ I', legacy_accounts l0 I' s' ∧ (parentID = "" ∨ parentID ∈ I'))
    _ (λ s', leaks l0 s'.1)); [|done| |done].
  - case_decide as Hne; [|simpl; exists I; split; [done|by left]].
    destruct (s.2 !! parent) as [parentID|] eqn:Hl.
    { exists I. split; [done|]. right. by apply (proj2 Hs parent). }
    apply safe_or_bind. eapply safe_or_mono; [by apply (IH parent I)| | |done].
    + intros [ys Hys]. exists (parent :: ys). constructor; auto.
    + intros s1 [] ([id Hid] & I' & Hs1). rewrite Hid.
      exists I'. split; [done|]. right. by apply (proj2 Hs1 parent).
  - intros s1 parentID (I' & Hs1 & Hpid). apply safe_or_bind, safe_or_safe.
    pose proof (legacy_image_accounts l0 I' t tmp s1.1 oldID json parentID (proj1 Hs1) Hpid) as Hi.
    unfold on_legacy. destruct (legacy_image _ _ _ _ _ _) as [l [id|e| |]]; simpl in *; [|done..].
    split; [by rewrite lookup_insert_eq|]. exists ({[id]} ∪ I'). split; [done|]. simpl.
    apply map_Forall_insert_2; [set_solver|]. eapply map_Forall_impl; [exact (proj2 Hs1)|]. set_solver.
Qed.

Definition own_ancestor t tmp : Prop := ∃ x, tc (parent_step t tmp) x x.

Lemma legacy_dirs_loads l0 t tmp dirs I s :
  legacy_accounts l0 I s →
  safe_or (own_ancestor t tmp) (legacy_dirs (S (S (size t))) t tmp s dirs)
    (λ s' _, ∃ I', legacy_accounts l0 I' s') (λ s', leaks l0 s'.1).
Proof.
  revert I s. induction dirs as [|d dirs IH]; intros I s Hs; [by exists I|].
  cbn [legacy_dirs]. apply safe_or_bind.
  eapply safe_or_mono; [by apply (legacyLoadImage_loads l0 _ _ _ _ I)| | |done].
  - intros [ys Hys]. eapply ancestors_cycle; [exact Hys|lia].
  - intros s' [] (_ & I' & Hs'). by apply (IH I').
Qed.

Lemma legacy_tags_accounts l0 I name tags s :
  legacy_accounts l0 I s →
  safe (legacy_tags s name tags) (λ s' _, legacy_accounts l0 I s') (λ s' _, leaks l0 s'.1).
Proof.
  revert s. induction tags as [|[tag oldID] tags IH]; intros s Hs; [done|]. cbn [legacy_tags].
  pose proof (leaks_none _ _ _ (proj1 Hs)) as Hleak.
  destruct (s.2 !! oldID) as [id|] eqn:Hid; [|done].
  apply (safe_pure s _ _ _ (λ s, leaks l0 s.1)); [apply no_crash_WithName|done|].
  intros named (n & -> & Hn)%WithName_ok.
  apply (safe_pure s _ _ _ (λ s, leaks l0 s.1)); [apply no_crash_WithTag|done|].
  intros ref Href. apply safe_bind.
  pose proof (set_tag_accounts l0 I [] s.1 ref id (proj1 Hs)) as Htag. unfold on_legacy.
  assert (id ∈ I) as Hin by (by apply (proj2 Hs oldID)).
  specialize (Htag (WithTag_storable _ _ _ Hn Href) Hin).
  destruct (set_tag s.1 ref id) as [l [u|e| |]]; simpl in *; [|done..].
  apply IH. split; [apply Htag|apply Hs].
Qed.

Lemma legacy_repositories_accounts l0 I repos s :
  legacy_accounts l0 I s →
  safe (legacy_repositories s repos) (λ s' _, legacy_accounts l0 I s') (λ s' _, leaks l0 s'.1).
Proof.
  revert s. induction repos as [|[name tags] repos IH]; intros s Hs; [done|].
  cbn [legacy_repositories]. apply safe_bind.
  eapply safe_mono; [by apply legacy_tags_accounts| |done]. intros s' []. apply IH.
Qed.

Lemma legacyLoad_accounts l t tmp :
  image_inv (te_is l) → ref_inv (te_rs l) →
  safe_or (own_ancestor t tmp) (legacyLoad t tmp l) (λ l' _, ∃ I, te_accounts l I [] l')
    (λ l', leaks l l').
Proof.
  intros Hinv Href.
  assert (legacy_accounts l ∅ (l, ∅)) as Hs.
  { split; [|apply map_Forall_empty]. split; [by apply accounts_start|done|by left]. }
  unfold legacyLoad.
  match goal with |- safe_or _ ((?r).1.1, _) _ _ =>
    assert (safe_or (own_ancestor t tmp) r (λ s' _, ∃ I, legacy_accounts l I s')
      (λ s', leaks l s'.1)) as H; [|revert H; generalize r] end.
  - apply safe_or_bind. eapply safe_or_mono; [by apply (legacy_dirs_loads l t tmp _ ∅)|done| |done].
    intros s [] [I Hs1]. pose proof (leaks_none _ _ _ (proj1 Hs1)) as Hleak.
    apply (safe_or_pure _ s _ _ _ (λ s, leaks l s.1)); [apply no_crash_safePath|done|].
    intros p _. destruct (tree_Read t tmp p) as [[]|data]; [done..|].
    apply (safe_or_pure _ s _ _ _ (λ s, leaks l s.1)); [apply no_crash_either|done|].
    intros repos _. apply safe_or_safe. eapply safe_mono; [by apply (legacy_repositories_accounts l I)| |done].
    intros s' u Hs'. by exists I.
  - intros [[l' m] [u|e| |]]; simpl; try done. intros [I [Ht _]]. by exists I.
Qed.

(** An archive that Load takes for one of the old format. *)
Definition old_format (unpacked : string + tree) tmp : Prop :=
  ∃ t p, unpacked = inr t ∧ safePath t tmp manifestFileName = Ok p ∧
    tree_Read t tmp p = inl IsNotExist.

(** Between two states of the exporter no image and no reference on a layer is lost, every
    new reference belongs to an image or is one of [left_over], and a tag is what it was
    or leads to an image of the store. *)
Record accounted_for l l' (left_over : list Layer) : Prop := {
  af_images_inv : image_inv (te_is l');
  af_refs_inv : ref_inv (te_rs l');
  af_images id m : is_images (te_is l) !! id = Some m →
    ∃ m', is_images (te_is l') !! id = Some m' ∧ im_layer m' = im_layer m;
  af_old c r : lg_ref (is_ls (te_is l)) c r → lg_ref (is_ls (te_is l')) c r;
  af_new c r : lg_ref (is_ls (te_is l')) c r →
    lg_ref (is_ls (te_is l)) c r ∨ owned (te_is l') r ∨ r ∈ left_over;
  af_tags ref : storable ref → ref_lookup (te_rs l') ref = ref_lookup (te_rs l) ref ∨
    ∃ id, ref_lookup (te_rs l') ref = Some id ∧ is_Some (is_images (te_is l') !! id)
}.

Lemma te_accounted l I held l' : te_accounts l I held l' → accounted_for l l' held.
Proof.
  intros [Ha Hr Htags]. split; try (done || apply Ha).
  - intros c r Hc. destruct (ac_new _ _ _ _ Ha c r Hc) as [|[]]; auto.
  - intros ref Hs. destruct (Htags ref Hs) as [|(id & Hid & Hl)]; [by left|right].
    exists id. split; [done|]. by apply (ac_loaded _ _ _ _ Ha).
Qed.

(** What Load ends with, when it ends. *)
Definition load_post l (unpacked : string + tree) tmp l' (o : outcome string unit) : Prop :=
  ∃ left_over, accounted_for l l' left_over ∧ length left_over ≤ 1 ∧
    (o = Ok tt ∨ ¬ old_format unpacked tmp → left_over = []).

Lemma load_post_clean l unpacked tmp I l' o :
  te_accounts l I [] l' → load_post l unpacked tmp l' o.
Proof. intros Ht. exists []. split_and!; [by eapply te_accounted|simpl; lia|done]. Qed.

(** C11: Whatever is in the archive and whatever call fails, Load ends without a panic, and
    it ends unless the archive is of the old format and makes an image its own ancestor.
    When it ends, no image and no reference on a layer that was there is lost, every other
    reference belongs to an image (one may be left over when an archive of the old format
    fails), both stores keep their invariants, and a tag is what it was or leads to an
    image in the store. *)
Theorem Load_accounts_for_layers l unpacked tmp :
  image_inv (te_is l) → ref_inv (te_rs l) →
  match Load l unpacked tmp with
  | (l', Ok u) => load_post l unpacked tmp l' (Ok u)
  | (l', Err e) => load_post l unpacked tmp l' (Err e)
  | (_, Panic _) => False
  | (_, Diverge) => old_format unpacked tmp ∧ ∃ t, unpacked = inr t ∧ own_ancestor t tmp
  end.
Proof.
  intros Hinv Href.
  assert (te_accounts l ∅ [] l) as H0 by (split; [by apply accounts_start|done|by left]).
  pose proof (λ o, load_post_clean l unpacked tmp ∅ l o H0) as Hsame. unfold Load.
  destruct unpacked as [e|t]; [by apply Hsame|].
  pose proof (no_crash_safePath t tmp manifestFileName) as [Hsp Hsd].
  destruct (safePath t tmp manifestFileName) as [p|e|m|] eqn:Hpath;
    [|by apply Hsame|by destruct (Hsp m)|done]. cbn [and_then].
  destruct (tree_Read t tmp p) as [[|e|e]|data] eqn:Hread; [|by apply Hsame..|].
  - pose proof (legacyLoad_accounts l t tmp Hinv Href) as Hold.
    assert (old_format (inr t) tmp) as Hf by (by exists t, p).
    destruct (legacyLoad t tmp l) as [l' [[]|e|m|]]; simpl in Hold; [| |done|by eauto].
    + destruct Hold as [I HI]. by eapply load_post_clean.
    + destruct Hold as (I & held & Hlen & HI). exists held.
      split_and!; [by eapply te_accounted|done|by intros [|]].
  - destruct (manifest_Decode data) as [e|manifest]; [by apply Hsame|]. simpl.
    pose proof (load_manifest_accounts l t tmp manifest Hinv Href) as Hm.
    destruct (with_releases _) as [l' [[]|e|m|]]; simpl in Hm; [| |done..];
      destruct Hm as [I HI]; by eapply load_post_clean.
Qed.
End legacy.
