(* ===== verification/TarExportLayer.v ===== *)
(** * The layer store as the store of the exporter

    The layer store of package layer, with [TarStream] (layer/ro_layer.go), keeps what
    loading and saving of images rely on: registering a layer adds the reference that it
    returns and no other, whatever the driver and the metadata store answer. *)

From S2P Require Import Prelude Layer LayerInv LayerSafe ImageStore ImageInv ImageLayer TarExport TarExportInv.
#[local] Open Scope nat_scope.

(** What assembles a layer's tar stream from the driver's files and the recorded
    headers: the tar-split library, for a chain identifier and a cache identifier. *)
Class TarSplit (D M : Type) := { assembleTarTo : D → M → string → string → D * (string + string) }.

Section tar_export_layer.
Context {D M T Desc : Type}.
Context {drv : Driver D string} {meta : MetadataStore M T Desc} {ext : LayerExt string Desc}.
Context {split : TarSplit D M}.

Abbreviation store := (layerStore D M Desc).
Implicit Types (ls : store) (c : string) (r : Layer).

(** [TarStream]: the bytes are verified while they are read. *)
Definition roLayer_TarStream ls (l : Layer) : store * outcome string string :=
  match ls_ro ls !! Layer_loc l with
  | None => (ls, Panic "invalid memory address or nil pointer dereference")
  | Some rl =>
      let '(d, data) := assembleTarTo (ls_driver ls) (ls_store ls) (rl_chainID rl) (rl_cacheID rl) in
      (with_driver ls d,
       match data with
       | inl e => Err e
       | inr data =>
           if decide (tar_Digest data = rl_diffID rl) then Ok data
           else Err ("could not verify layer data for: " +:+ rl_diffID rl)
       end)
  end.

#[global] Instance layerStore_Registry : LayerRegistry store := {|
  st_Register ls data parent := map_error layer_error_string (layerStore_Register ls data parent);
  st_DiffID ls r := from_option rl_diffID "" (ls_ro ls !! Layer_loc r);
  st_TarStream := roLayer_TarStream
|}.

(** ** References *)

Definition same_refs ls ls' : Prop := ∀ c r, returns_ref c ls' r ↔ returns_ref c ls r.

#[local] Instance same_refs_preorder : PreOrder same_refs.
Proof. split; [done|]. intros a b d H1 H2 c r. by rewrite (H2 c r). Qed.

Lemma same_refs_heap ls ls' :
  ls_layerMap ls' = ls_layerMap ls → same_upto_count (ls_ro ls') (ls_ro ls) → same_refs ls ls'.
Proof.
  intros Hm Hro c r. unfold returns_ref. rewrite Hm.
  split; intros (n & l & rl & -> & Hc & Hl & Hr).
  - destruct (same_upto_count_refs _ _ _ _ Hro Hl) as (rl' & Hl' & Hrefs).
    exists n, l, rl'. by rewrite Hrefs.
  - symmetry in Hro. destruct (same_upto_count_refs _ _ _ _ Hro Hl) as (rl' & Hl' & Hrefs).
    exists n, l, rl'. by rewrite Hrefs.
Qed.

Lemma same_refs_memory ls ls' : same_memory ls ls' → same_refs ls ls'.
Proof. intros (Hm & _ & Hro & _). apply same_refs_heap; [done|]. by rewrite Hro. Qed.

(** Releasing inside the store loses no reference and adds none. *)
Lemma same_refs_release ls ls' : release_frame ls ls' → same_refs ls ls'.
Proof.
  intros Hf c r. split; [|by apply returns_ref_stable].
  destruct Hf as (Hsub & _ & _ & _ & _ & Hro). intros (n & l & rl & -> & Hc & Hl & Hr).
  destruct (same_upto_count_refs _ _ _ _ Hro Hl) as (rl' & Hl' & Hrefs).
  exists n, l, rl'. rewrite Hrefs. split_and!; [done|by apply Hsub|done..].
Qed.

Lemma same_refs_retain ls ls' c p : getWithoutLock ls c = (ls', p) → same_refs ls ls'.
Proof.
  unfold getWithoutLock. destruct (ls_layerMap ls !! c) as [l|]; intros [= <- _]; [|done].
  apply same_refs_heap; [done|]. intros l'. simpl. destruct (decide (l = l')) as [->|Hne].
  - rewrite lookup_alter_eq. by destruct (ls_ro ls !! l').
  - by rewrite lookup_alter_ne.
Qed.

(** [r] is new, and the only new one. *)
Definition adds_ref ls ls' r : Prop :=
  (∀ c' r', returns_ref c' ls r' → returns_ref c' ls' r' ∧ r' ≠ r) ∧
  (∀ c' r', returns_ref c' ls' r' → returns_ref c' ls r' ∨ r' = r).

Lemma adds_ref_same ls ls1 ls2 ls' r :
  same_refs ls ls1 → adds_ref ls1 ls2 r → same_refs ls2 ls' → adds_ref ls ls' r.
Proof.
  intros H1 [Hk Hn] H2. split; intros c' r' Hr'.
  - apply H1, Hk in Hr' as [Hr' Hne]. split; [by apply H2|done].
  - apply H2, Hn in Hr' as [Hr'|]; [left; by apply H1|by right].
Qed.

Lemma getReference_adds held ls l :
  layer_inv held ls → live ls l →
  adds_ref ls (roLayer_getReference ls l).1 (roLayer_getReference ls l).2.
Proof.
  intros Hinv Hlive. unfold roLayer_getReference. split; simpl.
  - intros c r (n & l' & rl & -> & Hc & Hl & Hr).
    destruct (inv_refs _ _ Hinv l' rl _ (ex_intro _ c Hc) Hl Hr) as (n' & [= <-] & Hn).
    split; [|intros [= Heq _]; lia]. destruct (decide (l = l')) as [->|Hne].
    + eexists n, l', _. simpl. rewrite lookup_alter_eq, Hl. split_and!; [done..|]. simpl. set_solver.
    + exists n, l', rl. simpl. by rewrite lookup_alter_ne.
  - intros c r (n & l' & rl & -> & Hc & Hl & Hr). simpl in Hc, Hl.
    destruct (decide (l = l')) as [->|Hne].
    + rewrite lookup_alter_eq in Hl. apply fmap_Some in Hl as (rl0 & Hl0 & ->). simpl in Hr.
      apply elem_of_union in Hr as [Hr%elem_of_singleton|Hr]; [by right|left].
      by exists n, l', rl0.
    + rewrite lookup_alter_ne in Hl by done. left. by exists n, l', rl.
Qed.

Lemma same_refs_publish held ls rl :
  layer_inv held ls → rl_references rl = ∅ → ls_layerMap ls !! rl_chainID rl = None →
  same_refs ls (publish ls rl).
Proof.
  intros Hinv Hrefs Hnew c r. pose proof (ls_next_fresh _ _ Hinv) as Hfresh. unfold publish, returns_ref.
  simpl. split; intros (n & l & rl' & -> & Hc & Hl & Hr).
  - destruct (decide (l = ls_next ls)) as [->|Hne].
    + rewrite lookup_insert_eq in Hl. injection Hl as <-. rewrite Hrefs in Hr. set_solver.
    + rewrite lookup_insert_ne in Hl by done. exists n, l, rl'. split_and!; [done| |done..].
      destruct (decide (c = rl_chainID rl)) as [->|Hcn].
      * rewrite lookup_insert_eq in Hc. injection Hc as <-. done.
      * by rewrite lookup_insert_ne in Hc.
  - exists n, l, rl'. rewrite !lookup_insert_ne; [done|congruence|congruence].
Qed.

(** ** Registering *)

Lemma safe_conj {S E A} (r : S * outcome E A) Q R Q' R' :
  safe r Q R → safe r Q' R' → safe r (λ s a, Q s a ∧ Q' s a) (λ s e, R s e ∧ R' s e).
Proof. by destruct r as [s []]. Qed.

Lemma register_publish_refs held ls (tx : T) rl :
  layer_inv (hold (rl_parent rl) held) ls →
  rl_referenceCount rl = 1%Z → rl_references rl = ∅ →
  depth_room (ls_ro ls) (rl_parent rl) → rl_chainID rl = chain_id_of (ls_ro ls) rl →
  safe (register_publish ls tx rl) (λ ls' a, adds_ref ls ls' a.1) (λ ls' _, same_refs ls ls').
Proof.
  intros Hinv Hrc Hrefs Hroom Hid. unfold register_publish.
  destruct (getWithoutLock ls (rl_chainID rl)) as [ls1 [l|]] eqn:Hget.
  - destruct (getWithoutLock_inv _ _ _ _ _ Hinv Hget) as [Hinv1 Hlive].
    eapply (adds_ref_same _ ls1); [by eapply same_refs_retain|by eapply getReference_adds|done].
  - unfold getWithoutLock in Hget.
    destruct (ls_layerMap ls !! rl_chainID rl) eqn:Hnone; [done|]. injection Hget as <-.
    apply safe_bind. eapply safe_mono; [apply call_store_safe| |intros ls' e; apply same_refs_memory].
    intros ls' [] Hm. pose proof Hm as (Hm1 & _ & Hm3 & _).
    apply (inv_same_memory _ _ _ Hm) in Hinv.
    assert (layer_inv (ls_next ls' :: held) (publish ls' rl)) as Hpub.
    { apply inv_publish; [done| |done|done| |]; rewrite <- ?Hm1, <- ?Hm3; done. }
    assert (same_refs ls' (publish ls' rl)) as Hsame
      by (eapply same_refs_publish; [exact Hinv|done|by rewrite <- Hm1]).
    eapply (adds_ref_same _ (publish ls' rl)); [|apply (getReference_adds _ _ _ Hpub)|done].
    + etrans; [by apply same_refs_memory|done].
    + exists (rl_chainID rl). simpl. apply lookup_insert_eq.
Qed.

Lemma register_body_refs held ls (ts : string) (p : option loc) pid descriptor :
  layer_inv (hold p held) ls → depth_room (ls_ro ls) p →
  safe (register_body ls ts p pid descriptor) (λ ls' a, adds_ref ls ls' a.1)
    (λ ls' _, same_refs ls ls').
Proof.
  intros Hinv Hroom. unfold register_body. simpl. apply safe_bind.
  eapply safe_mono; [apply call_driver_safe| |intros ls1 e Hm; by apply same_refs_memory].
  intros ls1 [] Hm. assert (same_refs ls ls1) as H01 by (by apply same_refs_memory).
  apply (inv_same_memory _ ls ls1) in Hinv; [|exact Hm].
  assert (ls_ro ls1 = ls_ro ls) as Hro by (by destruct Hm as (_ & _ & ? & _)).
  clear Hm. destruct (Meta_StartTransaction _) as [m [e|tx]]; simpl; [done|].
  apply defer_cleanup_safe.
  - intros lsa lsb a Hm Ha. apply (adds_ref_same ls ls lsa lsb); [done|exact Ha|by apply same_refs_memory].
  - intros lsa lsb e Hm Ha. etrans; [exact Ha|by apply same_refs_memory].
  - set (ls2 := with_store ls1 m).
    assert (layer_inv (hold p held) ls2) as Hinv2 by (by apply (inv_same_memory _ ls1)).
    apply safe_bind. eapply safe_mono; [apply register_prepare_safe| |].
    + simpl. intros q ->. destruct (live_lookup _ ls2 q Hinv2); [|eauto].
      apply (inv_held _ _ Hinv2), elem_of_hold. by left.
    + intros ls3 rl (Hm & (Hpar & Hrc & Hrefs) & Hdiff & Hid). simpl in *.
      assert (same_refs ls ls3) as H03.
      { trans ls1; [done|]. trans ls2; [done|]. by apply same_refs_memory. }
      eapply safe_mono; [apply (register_publish_refs held)|..]; rewrite ?Hpar.
      * by apply (inv_same_memory _ ls2).
      * done.
      * done.
      * destruct Hm as (_ & _ & <- & _). simpl. by rewrite Hro.
      * by destruct Hm as (_ & _ & <- & _).
      * intros ls' a Ha. by apply (adds_ref_same _ ls3 ls').
      * intros ls' e Ha. by trans ls3.
    + intros ls3 e Hm. trans ls1; [done|]. trans ls2; [done|]. by apply same_refs_memory.
Qed.

(** The deferred release of the parent. *)
Lemma defer_release_refs {A} held ls p (r : store * outcome layer_error (A * bool)) (Q : store → A * bool → Prop) :
  (∀ ls1 ls2 a, release_frame ls1 ls2 → Q ls1 a → Q ls2 a) →
  safe r (λ ls' a, layer_inv (if a.2 then p :: held else held) ls' ∧ Q ls' a)
    (λ ls' _, layer_inv (p :: held) ls' ∧ same_refs ls ls') →
  safe (defer_release p r) Q (λ ls' _, same_refs ls ls').
Proof.
  intros HQ. destruct r as [ls1 o]. unfold defer_release.
  assert (layer_inv (p :: held) ls1 →
    ∃ ls' res, releaseLayer ls1 p = (ls', res) ∧ release_frame ls1 ls' ∧
      (∀ m, res ≠ Panic m) ∧ res ≠ Diverge) as Hrel.
  { intros Hinv. pose proof (releaseLayer_safe held ls1 p Hinv) as Hs.
    destruct (releaseLayer ls1 p) as [ls' res]. exists ls', res. split; [done|].
    destruct res; simpl in *; naive_solver. }
  destruct o as [[a [|]]|e|m|]; simpl; [intros [H Ha]|by intros [_ Ha]|intros [H Hs]|done..];
    destruct (Hrel H) as (ls' & res & -> & Hf & Hp & Hd).
  - assert (Q ls' (a, true)) by (by eapply HQ). destruct res; simpl; naive_solver.
  - assert (same_refs ls ls') by (trans ls1; [done|by apply same_refs_release]).
    destruct res; simpl; naive_solver.
Qed.

Lemma registerWithDescriptor_refs held ls (ts : string) parent descriptor :
  layer_inv held ls →
  safe (registerWithDescriptor ls ts parent descriptor) (λ ls' r, adds_ref ls ls' r)
    (λ ls' _, same_refs ls ls').
Proof.
  intros Hinv. unfold registerWithDescriptor. apply safe_bind.
  apply safe_mono with (Q := λ ls' a, adds_ref ls ls' a.1) (R := λ ls' _, same_refs ls ls'); [|done..].
  destruct (decide (parent ≠ "")) as [Hpar|Hpar]; unfold layerStore_get.
  2:{ by apply (register_body_refs held ls ts None). }
  destruct (getWithoutLock ls parent) as [ls1 [p|]] eqn:Hget;
    [|unfold getWithoutLock in Hget; by destruct (ls_layerMap ls !! parent); simplify_eq].
  destruct (getWithoutLock_inv _ _ _ _ _ Hinv Hget) as [Hinv1 Hlive].
  destruct (live_lookup _ _ _ Hinv1 Hlive) as [prl Hprl]. rewrite Hprl.
  destruct (inv_chain _ _ Hinv1 p Hlive) as (ps & Hc & _ & _).
  rewrite (roLayer_depth_chain _ _ _ ps Hc).
  2: { pose proof (chain_length _ _ _ Hc). unfold heap_fuel. lia. }
  assert (same_refs ls ls1) as H01 by (by eapply same_refs_retain).
  apply (defer_release_refs held).
  { intros lsa lsb a Hf Ha. apply (adds_ref_same ls ls lsa lsb); [done|exact Ha|by apply same_refs_release]. }
  case_decide; [done|].
  assert (depth_room (ls_ro ls1) (Some p)) as Hroom.
  { intros q ps' [= <-] Hc'. rewrite (chain_fun _ _ _ _ Hc' Hc). lia. }
  eapply safe_mono; [eapply safe_conj; [apply (register_body_safe held ls1 ts (Some p)); [done|exact Hroom]|
    apply (register_body_refs held ls1 ts (Some p)); [done|exact Hroom]]|..].
  - intros ls' a [[Hi _] Ha]. split; [done|]. by apply (adds_ref_same _ ls1 ls').
  - intros ls' e [Hi Hs]. split; [done|]. by trans ls1.
Qed.

#[global] Program Instance layerStore_Client : LayerClient store := {}.
Next Obligation.
  intros ls c c' r' Hinv. cbn [lg_Get layerStore_GetReleaser]. simpl. unfold layerStore_Get.
  destruct (getWithoutLock ls c) as [ls1 [l|]] eqn:Hget; simpl.
  - destruct (getWithoutLock_inv _ _ _ _ _ Hinv Hget) as [Hinv1 Hlive]. intros Hr.
    destruct (proj2 (getReference_adds _ ls1 l Hinv1 Hlive) c' r' Hr) as [Hr'| ->]; [left|by right].
    by apply (same_refs_retain _ _ _ _ Hget).
  - intros Hr. left. by apply (same_refs_retain _ _ _ _ Hget).
Qed.
Next Obligation.
  intros ls c r c' r' Hinv (n & l & rl & -> & Hc & Hl & Hr). cbn [lg_Release layerStore_GetReleaser lg_ref layerStore_Holder].
  unfold layerStore_Release; simpl. rewrite Hl, (inv_map_key _ _ _ _ _ Hinv Hc Hl), Hc, Hl.
  unfold roLayer_hasReference. rewrite bool_decide_eq_true_2 by done.
  assert (layer_inv [l] (roLayer_deleteReference ls l (referencedCacheLayer n l))) as Hdel.
  { eapply deleteReference_inv; [done| |done..]. by exists c. }
  pose proof (releaseLayer_safe [] _ l Hdel) as Hrel.
  destruct (releaseLayer _ l) as [ls' o]. intros Hr'.
  assert (returns_ref c' ls' r') as Hr1 by (by destruct o). clear Hr'.
  assert (release_frame (roLayer_deleteReference ls l (referencedCacheLayer n l)) ls') as Hf
    by (destruct o; simpl in *; naive_solver).
  apply (same_refs_release _ _ Hf) in Hr1. destruct Hr1 as (n' & l' & rl' & -> & Hc' & Hl' & Hr'').
  simpl in Hc', Hl'. destruct (decide (l = l')) as [->|Hne].
  - rewrite lookup_alter_eq, Hl in Hl'. injection Hl' as <-. simpl in Hr''.
    exists n', l', rl. split_and!; [done..|set_solver].
  - rewrite lookup_alter_ne in Hl' by done. by exists n', l', rl'.
Qed.
Next Obligation.
  intros ls data parent Hinv. cbn [st_Register layerStore_Registry].
  eapply safe_mono; [eapply (safe_map_error _ _ _ _ (λ ls' _, layer_inv [] ls' ∧ same_refs ls ls')); [apply safe_conj;
    [apply (registerWithDescriptor_safe [] ls data parent empty_Descriptor Hinv)|
     apply (registerWithDescriptor_refs [] ls data parent empty_Descriptor Hinv)]|]|..].
  - intros ls' e [Hi Hs]. exact (conj Hi Hs).
  - intros ls' r [[Hi Hr] [Hk Hn]]. split_and!; [done|eexists; exact Hr|done|done].
  - intros ls' e Hs. exact Hs.
Qed.
Next Obligation.
  intros ls c r Hinv (n & l & rl & -> & Hc & Hl & Hr). cbn [st_TarStream layerStore_Registry].
  unfold roLayer_TarStream. simpl. rewrite Hl. destruct (assembleTarTo _ _ _ _) as [d data].
  assert (layer_inv [] (with_driver ls d) ∧ same_refs ls (with_driver ls d)) as Hs.
  { split; [by apply (inv_same_memory _ ls)|by apply same_refs_memory]. }
  destruct data; [exact Hs|]. case_decide; exact Hs.
Qed.
End tar_export_layer.
