(* ===== verification/TarExportPath.v ===== *)
(** * Paths in a temporary directory

    What the exporter's calls of [filepath.Join], [filepath.Rel] and
    [FollowSymlinkInScope] give for the files of a saved image. *)

From S2P Require Import Prelude GoStrings GoPath Symlink Layer ImageStore RefStore ImageDelete TarExport.
#[local] Open Scope nat_scope.

(** Components from the root down. *)
Definition path_of (cs : list string) : string := abs_path (rev cs).

Lemma Join_path tmp p :
  Forall normal tmp → filepath_Join (path_of tmp) p = path_of (rev (walk true (rev tmp) p)).
Proof.
  intros Hn. unfold filepath_Join, path_of. rewrite decide_False by done. unfold abs_path at 1.
  change (("/" +:+ Join (rev (rev tmp)) "/") +:+ "/" +:+ p) with
    (String slash (Join (rev (rev tmp)) "/" +:+ String slash p)).
  rewrite Clean_abs, walk_sep, rev_involutive. do 2 f_equal.
  assert (walk true [] (abs_path (rev tmp)) = rev tmp) as Hw
    by (rewrite walk_abs_path; [by rewrite app_nil_r|by apply Forall_rev]).
  unfold abs_path in Hw. change ("/" +:+ Join (rev (rev tmp)) "/") with
    ("" +:+ String slash (Join (rev (rev tmp)) "/")) in Hw. rewrite walk_sep in Hw.
  change (walk true [] "") with (@nil string) in Hw. rewrite rev_involutive in Hw. by rewrite Hw, rev_involutive.
Qed.

Lemma walk_one_normal st c : normal c → walk true st c = c :: st.
Proof.
  intros (H1 & H2 & H3 & H4). rewrite walk_one by done. unfold push.
  rewrite decide_False by naive_solver. by rewrite decide_False.
Qed.

Lemma walk_two_normal st c d : normal c → normal d → walk true st (c +:+ "/" +:+ d) = d :: c :: st.
Proof.
  intros Hc Hd. change ("/" +:+ d) with (String slash d).
  by rewrite walk_sep, (walk_one_normal _ c Hc), (walk_one_normal _ d Hd).
Qed.

Lemma Join_one tmp c :
  Forall normal tmp → normal c → filepath_Join (path_of tmp) c = path_of (tmp ++ [c]).
Proof.
  intros Hn Hc. rewrite Join_path by done. rewrite walk_one_normal by done. simpl.
  by rewrite rev_involutive.
Qed.

Lemma Join_two tmp c d :
  Forall normal tmp → normal c → normal d →
  filepath_Join (path_of tmp) (c +:+ "/" +:+ d) = path_of (tmp ++ [c; d]).
Proof.
  intros Hn Hc Hd. rewrite Join_path by done. rewrite walk_two_normal by done. simpl.
  by rewrite rev_involutive, <- app_assoc.
Qed.

(** The relative path of a layer. *)
Lemma Join_relative c d : normal c → normal d → filepath_Join c d = c +:+ "/" +:+ d.
Proof.
  intros Hc Hd. pose proof Hc as (Hc1 & Hc2 & Hc3 & Hc4). pose proof Hd as (Hd1 & Hd2 & Hd3 & Hd4).
  unfold filepath_Join. rewrite decide_False by done. unfold Clean.
  assert (IsAbs (c +:+ "/" +:+ d) = false) as ->.
  { apply not_true_is_false. intros [r Hr]%HasPrefix_spec. destruct c as [|x c]; [done|].
    injection Hr as -> _. done. }
  change ("/" +:+ d) with (String slash d). rewrite walk_sep. unfold walk.
  rewrite !Split_no_sep by done. simpl.
  assert (∀ st x, normal x → push false st x = x :: st) as Hp.
  { intros st x (? & ? & ? & ?). unfold push. rewrite decide_False by naive_solver. by rewrite decide_False. }
  by rewrite !Hp.
Qed.

Lemma path_of_app tmp cs :
  tmp ≠ [] → cs ≠ [] → path_of (tmp ++ cs) = path_of tmp +:+ "/" +:+ Join cs "/".
Proof.
  intros Ht Hc. unfold path_of, abs_path. rewrite !rev_involutive, Join_app by done.
  by rewrite append_assoc.
Qed.

Lemma rel_path_of tmp cs :
  tmp ≠ [] → cs ≠ [] → Forall normal cs → rel_path (path_of tmp) (path_of (tmp ++ cs)) = Some cs.
Proof.
  intros Ht Hc Hn. unfold rel_path. rewrite path_of_app by done.
  rewrite <- append_assoc, strip_prefix_app. simpl. f_equal. apply Split_Join; [done|].
  eapply Forall_impl; [exact Hn|]. by intros x (_ & _ & _ & ?).
Qed.

(** ** Following links *)

(** No part of the way is a link, or a file that is gone through. *)
Definition plain_path (t : tree) (cs : list string) : Prop :=
  ∀ ks, ks `prefix_of` cs → ks ≠ [] → through_file t ks = false ∧ ∀ x, t !! ks ≠ Some (NLink x).

Section follow.
Context (t : tree) (tmp : list string) (Htmp : Forall normal tmp) (Hne : tmp ≠ []).

Lemma Lstat_plain cs :
  cs ≠ [] → Forall normal cs → through_file t cs = false → (∀ x, t !! cs ≠ Some (NLink x)) →
  tree_Lstat t (path_of tmp) (path_of (tmp ++ cs)) = NotExist ∨
  tree_Lstat t (path_of tmp) (path_of (tmp ++ cs)) = NotLink.
Proof using Hne.
  intros Hc Hn Ht Hl. unfold tree_Lstat. rewrite rel_path_of, Ht by done.
  destruct (t !! cs) as [[| |x]|]; auto. by destruct (Hl x).
Qed.

Lemma plain_no_links cs :
  Forall normal cs → plain_path t cs → no_links (tree_Lstat t (path_of tmp)) (rev tmp) (rev cs).
Proof using Hne.
  intros Hn Hp st' [k Hk] Hst. apply (f_equal (@rev string)) in Hk.
  rewrite rev_involutive, rev_app_distr in Hk.
  assert (rev st' `prefix_of` cs) as Hpre by (exists (rev k); done).
  assert (rev st' ≠ []) as Hr by (by apply rev_ne_nil).
  destruct (Hp (rev st') Hpre Hr) as [Hf Hl].
  replace (abs_path (st' ++ rev tmp)) with (path_of (tmp ++ rev st'))
    by (unfold path_of; by rewrite rev_app_distr, rev_involutive).
  apply Lstat_plain; [done| |done..]. rewrite Hk in Hn. by apply Forall_app in Hn as [Hn _].
Qed.

Lemma safePath_plain p cs :
  filepath_Join (path_of tmp) p = path_of (tmp ++ cs) →
  cs ≠ [] → Forall normal cs → plain_path t cs → length cs ≤ maxIter →
  safePath t (path_of tmp) p = Ok (path_of (tmp ++ cs)).
Proof using Htmp Hne.
  intros Hj Hc Hn Hp Hlen. unfold safePath. rewrite Hj. unfold path_of. rewrite rev_app_distr.
  rewrite FollowSymlinkInScope_link_free.
  - by rewrite decide_True by (by rewrite length_rev).
  - apply Forall_app. split; by apply Forall_rev.
  - by apply plain_no_links.
  - by apply rev_ne_nil.
Qed.

Abbreviation lstat := (tree_Lstat t (path_of tmp)).
Abbreviation follow := (eval_loop lstat (tree_Readlink t (path_of tmp))).
Abbreviation at_buffer := (buffer_at lstat (rev tmp)).

(** One component of the path. *)
Lemma follow_step fuel b p rest :
  p ≠ "" → contains_char slash p = false →
  follow (S fuel) (path_of tmp) b (p +:+ "/" +:+ rest) =
    let cleanP := Clean ("/" +:+ b +:+ p) in
    if decide (cleanP = "/") then follow fuel (path_of tmp) "" rest
    else
      let fullP := Clean (path_of tmp +:+ cleanP) in
      match lstat fullP with
      | NotExist | NotLink => follow fuel (path_of tmp) (b +:+ p +:+ "/") rest
      | StatErr e => Err e
      | IsLink =>
          match tree_Readlink t (path_of tmp) fullP with
          | inl e => Err e
          | inr dest =>
              follow fuel (path_of tmp) (if IsAbs dest then "" else b) (dest +:+ "/" +:+ rest)
          end
      end.
Proof using.
  intros Hp Hs. change ("/" +:+ rest) with (String slash rest). cbn [eval_loop].
  rewrite decide_False by (by destruct p). rewrite cut_at_append by (by apply cut_at_None).
  cbn [default from_option id]. by rewrite decide_False.
Qed.

Lemma follow_plain fuel b st c rest :
  at_buffer b st → normal c → plain_path t (rev (c :: st)) →
  follow (S fuel) (path_of tmp) b (c +:+ "/" +:+ rest) =
    follow fuel (path_of tmp) (b +:+ c +:+ "/") rest ∧ at_buffer (b +:+ c +:+ "/") (c :: st).
Proof using Htmp Hne.
  intros Hb Hc Hp. pose proof Hc as (Hc1 & _ & _ & Hc4). pose proof (ba_normal _ _ _ _ Hb) as Hst.
  rewrite follow_step by done. cbn zeta.
  rewrite (buffer_clean _ _ _ _ _ Hb), walk_one_normal by done.
  assert (Forall normal (c :: st)) as Hn by (by constructor).
  rewrite decide_False; [|intros Heq; change "/" with (abs_path []) in Heq; by apply abs_path_inj in Heq].
  assert (lstat (abs_path ((c :: st) ++ rev tmp)) = NotExist ∨
          lstat (abs_path ((c :: st) ++ rev tmp)) = NotLink) as Hl.
  { destruct (Hp (rev (c :: st))) as [Hf Hlink]; [done|by apply rev_ne_nil|].
    replace (abs_path ((c :: st) ++ rev tmp)) with (path_of (tmp ++ rev (c :: st)))
      by (unfold path_of; by rewrite rev_app_distr, rev_involutive).
    apply Lstat_plain; [by apply rev_ne_nil|by apply Forall_rev|done..]. }
  assert (at_buffer (b +:+ c +:+ "/") (c :: st)) as Hb'.
  { pose proof (buffer_push lstat (rev tmp) b st c Hb Hc4) as H.
    rewrite walk_one_normal in H by done. by apply H. }
  split; [|done].
  change (path_of tmp +:+ abs_path (c :: st)) with (abs_path (rev tmp) +:+ abs_path (c :: st)).
  rewrite Clean_root_app by (done || by apply Forall_rev).
  by destruct Hl as [->| ->].
Qed.

(** The last component may come without its separator. *)
Lemma follow_last fuel b p :
  contains_char slash p = false → p ≠ "" →
  follow (S fuel) (path_of tmp) b p = follow (S fuel) (path_of tmp) b (p +:+ "/" +:+ "").
Proof using.
  intros Hs Hp. rewrite follow_step by done. cbn [eval_loop]. rewrite decide_False by done.
  apply cut_at_None in Hs. rewrite Hs. cbn [default from_option id]. by rewrite decide_False.
Qed.

Lemma follow_end fuel b st :
  at_buffer b st → follow fuel (path_of tmp) b "" = Ok (path_of (tmp ++ rev st)).
Proof using Htmp.
  intros Hb. pose proof (eval_loop_free lstat (tree_Readlink t (path_of tmp)) fuel (rev tmp) b st []) as H.
  rewrite decide_True in H by (simpl; lia). unfold path_of at 4. rewrite rev_app_distr, rev_involutive.
  apply H; [by apply Forall_rev|done|done|]. apply (ba_links _ _ _ _ Hb).
Qed.

Lemma plain_path_prefix cs cs' : cs `prefix_of` cs' → plain_path t cs' → plain_path t cs.
Proof using. intros Hp H ks Hks. apply H. by etrans. Qed.

(** The link itself: the loop goes on with its target. *)
Lemma follow_link fuel b v f dest :
  at_buffer b [v] → normal v → normal f → through_file t [v; f] = false →
  t !! [v; f] = Some (NLink dest) → IsAbs dest = false →
  follow (S fuel) (path_of tmp) b f = follow fuel (path_of tmp) b (dest +:+ "/" +:+ "").
Proof using Htmp Hne.
  intros Hb Hv Hf Hthrough Hlink Habs. pose proof Hf as (Hf1 & _ & _ & Hf4).
  assert (Forall normal [v; f]) as Hvf by (constructor; [done|by constructor]).
  rewrite follow_last, follow_step by done. cbn zeta.
  rewrite (buffer_clean _ _ _ _ _ Hb), walk_one_normal by done.
  rewrite decide_False; cycle 1.
  { intros Heq. change "/" with (abs_path []) in Heq.
    apply abs_path_inj in Heq; [done|by apply (Forall_rev Hvf)|done]. }
  change (path_of tmp +:+ abs_path [f; v]) with (abs_path (rev tmp) +:+ abs_path [f; v]).
  rewrite Clean_root_app by (by apply Forall_rev || by apply (Forall_rev Hvf)).
  change ([f; v] ++ rev tmp) with (rev [v; f] ++ rev tmp). rewrite <- rev_app_distr.
  change (abs_path (rev (tmp ++ [v; f]))) with (path_of (tmp ++ [v; f])).
  assert (tree_Readlink t (path_of tmp) (path_of (tmp ++ [v; f])) = inr dest) as Hread
    by (unfold tree_Readlink; rewrite rel_path_of by done; cbn [mbind option_bind]; by rewrite Hlink).
  unfold tree_Lstat at 1. rewrite rel_path_of by done. by rewrite Hthrough, Hlink, Hread, Habs.
Qed.

(** A link to a file in a sibling directory. *)
Lemma safePath_link v o f p :
  filepath_Join (path_of tmp) p = path_of (tmp ++ [v; f]) →
  normal v → normal o → normal f →
  plain_path t [v] → plain_path t [o; f] → through_file t [v; f] = false →
  t !! [v; f] = Some (NLink ("../" +:+ o +:+ "/" +:+ f)) →
  safePath t (path_of tmp) p = Ok (path_of (tmp ++ [o; f])).
Proof using Htmp Hne.
  intros Hj Hv Ho Hf Hpv Hpo Hthrough Hlink.
  pose proof Hv as (Hv1 & _ & Hv3 & Hv4). pose proof Hf as (Hf1 & _ & _ & Hf4).
  unfold safePath. rewrite Hj. unfold FollowSymlinkInScope, Abs.
  change (IsAbs (path_of ?x)) with true. cbn iota.
  assert (∀ cs, Forall normal cs → Clean (path_of cs) = path_of cs) as Hclean
    by (intros cs Hcs; by apply Clean_abs_path, Forall_rev).
  assert (Forall normal [v; f]) as Hvf by (constructor; [done|by constructor]).
  rewrite !Hclean by (try apply Forall_app; done). unfold evalSymlinksInScope. rewrite Hclean by done.
  rewrite decide_False; cycle 1.
  { unfold path_of. rewrite rev_app_distr. intros Heq.
    apply abs_path_inj in Heq; [|apply Forall_app; split; by apply Forall_rev|by apply Forall_rev].
    apply (f_equal length) in Heq. rewrite length_app in Heq. simpl in Heq. lia. }
  rewrite path_of_app by done. rewrite strip_prefix_app. rewrite decide_False; cycle 1.
  { intros Heq. apply Hne. change "/" with (abs_path []) in Heq.
    apply abs_path_inj in Heq; [|by apply Forall_rev|done].
    apply (f_equal (@rev string)) in Heq. by rewrite rev_involutive in Heq. }
  cbn [Join].
  change ("/" +:+ v +:+ "/" +:+ f) with (path_of [v; f]). change (HasPrefix (path_of [v; f]) "/") with true.
  cbn iota. rewrite Hclean by done.
  change (S maxIter) with (S (S (S (S (S (S (S 249))))))).
  unfold path_of at 4. rewrite eval_loop_slash. cbn [rev app Join].
  destruct (follow_plain 254 "" [] v f (buffer_empty _ _) Hv Hpv) as [-> Hb].
  rewrite (follow_link _ _ v f ("../" +:+ o +:+ "/" +:+ f)) by done.
  change (("../" +:+ o +:+ "/" +:+ f) +:+ "/" +:+ "") with (".." +:+ "/" +:+ ((o +:+ "/" +:+ f) +:+ "/" +:+ "")).
  rewrite follow_step by done. cbn zeta.
  rewrite (buffer_clean _ _ _ _ _ Hb). change (walk true [v] "..") with (push true [v] "..").
  assert (push true [v] ".." = []) as ->.
  { unfold push. rewrite decide_False by naive_solver. rewrite decide_True by done. by rewrite decide_False. }
  rewrite decide_True by done. rewrite !append_assoc.
  destruct (follow_plain 251 "" [] o (f +:+ "/" +:+ "") (buffer_empty _ _) Ho) as [-> Hb1].
  { apply (plain_path_prefix _ [o; f]); [by exists [f]|done]. }
  destruct (follow_plain 250 _ [o] f "" Hb1 Hf Hpo) as [-> Hb2]. by rewrite (follow_end _ _ [f; o]).
Qed.
End follow.

(** ** Relative paths *)

Lemma elements_path cs : cs ≠ [] → Forall normal cs → elements (path_of cs) = cs.
Proof.
  intros Hne Hn. unfold elements. rewrite decide_False; [|by unfold path_of, abs_path].
  unfold path_of, abs_path. rewrite rev_involutive.
  change ("/" +:+ Join cs "/") with ("" +:+ String slash (Join cs "/")).
  rewrite Split_app_sep. change (Split slash "") with [""].
  rewrite Split_Join; [|done|eapply Forall_impl; [exact Hn|]; by intros x (_ & _ & _ & ?)].
  simpl. rewrite filter_cons_False by naive_solver. clear Hne.
  induction Hn as [|x cs (Hx & _) _ IH]; [done|]. rewrite filter_cons_True by done. by rewrite IH.
Qed.

Lemma drop_shared_path cs b t : drop_shared (cs ++ b) (cs ++ t) = drop_shared b t.
Proof. induction cs as [|x cs IH]; [done|]. simpl. by rewrite decide_True. Qed.

Lemma Rel_sibling tmp v o f :
  Forall normal tmp → normal v → normal o → normal f → v ≠ o →
  filepath_Rel (path_of (tmp ++ [v])) (path_of (tmp ++ [o; f])) = Ok ("../" +:+ o +:+ "/" +:+ f).
Proof.
  intros Ht Hv Ho Hf Hne.
  assert (Forall normal (tmp ++ [v])) as H1 by (apply Forall_app; split; [done|by constructor]).
  assert (Forall normal (tmp ++ [o; f])) as H2
    by (apply Forall_app; split; [done|constructor; [done|by constructor]]).
  assert (∀ cs, Forall normal cs → Clean (path_of cs) = path_of cs) as Hclean
    by (intros cs Hcs; by apply Clean_abs_path, Forall_rev).
  unfold filepath_Rel. rewrite !Hclean by done. rewrite decide_False; cycle 1.
  { intros Heq. apply abs_path_inj in Heq; [|by apply Forall_rev..].
    apply (f_equal length) in Heq. rewrite !length_rev, !length_app in Heq. simpl in Heq. lia. }
  change (IsAbs (path_of ?x)) with true. cbn [negb eqb].
  rewrite !elements_path by (done || by destruct tmp). rewrite drop_shared_path. simpl.
  rewrite decide_False by done. simpl. rewrite decide_False; [done|].
  destruct Hv as (_ & _ & Hv & _). by intros [= ?].
Qed.

Lemma read_plain t tmp cs data :
  tmp ≠ [] → cs ≠ [] → Forall normal cs → through_file t cs = false → t !! cs = Some (NFile data) →
  tree_Read t (path_of tmp) (path_of (tmp ++ cs)) = inr data.
Proof. intros Ht Hc Hn Hf Hd. unfold tree_Read. by rewrite rel_path_of, Hf, Hd. Qed.
