(* ===== verification/TarExportLoad.v ===== *)
(** * Loading a directory that holds images

    With stores whose calls do not fail, Load of a directory in which the images of a
    manifest are written as Save writes them succeeds, and the images, their layers,
    their parents and their tags are in the stores. *)

From S2P Require Import Prelude GoStrings GoPath Symlink Layer LayerInv ImageStore ImageInv ImageFamily RefStore RefInv ImageDelete TarExport TarExportInv TarExportPath.
#[local] Open Scope nat_scope.

(** ** What is relied on *)

Definition hex_name (h : string) : Prop := h ≠ "" ∧ forall_chars is_hex h = true.

(** Digests are those of SHA-256, written in hexadecimal; that of a stream is not empty. *)
Class HexDigests {Tar Desc : Type} `{LayerExt Tar Desc} := {
  hd_hex c : ∃ h, digest_FromBytes c = "sha256:" +:+ h ∧ hex_name h;
  hd_tar t : tar_Digest t ≠ ""
}.

(** A tar stream that is stored as it is. *)
Definition tar_ok {Desc : Type} `{LayerExt string Desc} (data : string) : Prop :=
  DetectCompression data = Uncompressed ∧ NewInputTarStream data = None.

(** The layers with the diff identifiers [ds], from the bottom: [look] gives the stream
    and the parent of a chain identifier. *)
Definition layered {Desc : Type} `{LayerExt string Desc} (look : string → option (string * string))
    (ds : list string) : Prop :=
  ∀ p d, p ++ [d] `prefix_of` ds →
    ∃ data, tar_Digest data = d ∧ look (CreateChainID (p ++ [d])) = Some (data, CreateChainID p).

(** A layer store without I/O errors: [lc_layer s c] is the tar stream and the parent of
    the layer [c].  Releasing a reference keeps the layers below every other one. *)
Class ReliableLayers (L : Type) {Desc : Type} `{LayerExt string Desc} `{LayerGetReleaser L}
    `{!LayerHolder L} `{LayerRegistry L} := {
  lc_layer : L → string → option (string * string);
  rl_Get s c : lg_ok s →
    (∀ c', lc_layer (lg_Get s c).1 c' = lc_layer s c') ∧
    match lc_layer s c with
    | Some _ => ∃ r, (lg_Get s c).2 = Ok r
    | None => ∃ e, (lg_Get s c).2 = Err e
    end;
  rl_content s c r : lg_ok s → lg_ref s c r →
    ∃ data p, lc_layer s c = Some (data, p) ∧ st_DiffID s r = tar_Digest data ∧
      (st_TarStream s r).2 = Ok data ∧ ∀ c', lc_layer (st_TarStream s r).1 c' = lc_layer s c';
  rl_Register s data ds : lg_ok s → NewInputTarStream data = None → layered (lc_layer s) ds →
    length ds < maxLayerDepth → lc_layer s (CreateChainID (ds ++ [tar_Digest data])) = None →
    ∃ s' r, st_Register s data (CreateChainID ds) = (s', Ok r) ∧
      lg_ref s' (CreateChainID (ds ++ [tar_Digest data])) r ∧
      ∀ c, lc_layer s' c = if decide (c = CreateChainID (ds ++ [tar_Digest data]))
                           then Some (data, CreateChainID ds) else lc_layer s c;
  rl_Release s c r : lg_ok s → lg_ref s c r →
    (∃ md, (lg_Release s r).2 = Ok md) ∧
    ∀ ds r0 p, r0 ≠ r → lg_ref s (CreateChainID ds) r0 → layered (lc_layer s) ds →
      p `prefix_of` ds → p ≠ [] →
      lc_layer (lg_Release s r).1 (CreateChainID p) = lc_layer s (CreateChainID p)
}.

(** ** Names *)

Lemma hex_char_name c h :
  is_hex c = false → forall_chars is_hex h = true → contains_char c h = false.
Proof.
  intros Hc. induction h as [|x h IH]; [done|]. simpl. intros [Hx Hh]%andb_true_iff.
  rewrite IH by done. rewrite bool_decide_eq_false_2; [done|]. intros ->. congruence.
Qed.

Lemma hex_normal h : hex_name h → normal h.
Proof.
  intros [Hne Hh]. repeat split; [done|by intros ->|by intros ->|]. by apply hex_char_name.
Qed.

Lemma hex_json_normal h : hex_name h → normal (h +:+ ".json").
Proof.
  intros [Hne Hh]. assert (∃ x h', h = String x h' ∧ is_hex x = true) as (x & h' & -> & Hx).
  { destruct h as [|x h']; [done|]. simpl in Hh. apply andb_true_iff in Hh as [??]. eauto. }
  repeat split; [done|by intros [= -> _]|by intros [= -> _]|].
  rewrite contains_char_app. by rewrite hex_char_name.
Qed.

Lemma layer_name_normal : normal legacyLayerFileName.
Proof. repeat split; by vm_compute. Qed.

(** The path of a layer's stream in the manifest. *)
Lemma layer_path v : hex_name v → filepath_Join v legacyLayerFileName = v +:+ "/" +:+ legacyLayerFileName.
Proof. intros Hv. apply Join_relative; [by apply hex_normal|apply layer_name_normal]. Qed.

(** ** Directories *)

(** The directory [v] holds the stream of the layer [d], or a link to it. *)
Definition saved_layer {Desc : Type} `{LayerExt string Desc} (t : tree) (v d : string) : Prop :=
  hex_name v ∧ t !! [v] = Some NDir ∧ ∃ data, tar_ok data ∧ tar_Digest data = d ∧
    (t !! [v; legacyLayerFileName] = Some (NFile data) ∨
     ∃ o, hex_name o ∧ t !! [o] = Some NDir ∧
       t !! [o; legacyLayerFileName] = Some (NFile data) ∧
       t !! [v; legacyLayerFileName] =
         Some (NLink ("../" +:+ o +:+ "/" +:+ legacyLayerFileName))).

Section directories.
Context {Desc : Type} {ext : LayerExt string Desc}.
Context (t : tree) (tmp : list string) (Htmp : Forall normal tmp) (Hne : tmp ≠ []).
Context (Hroot : t !! [] = None).

Lemma through_one c : through_file t [c] = false.
Proof using Hroot. unfold through_file. simpl. by rewrite Hroot. Qed.
Lemma through_two c d : t !! [c] = Some NDir → through_file t [c; d] = false.
Proof using Hroot. intros Hc. unfold through_file. simpl. by rewrite Hroot, Hc. Qed.

Lemma prefix_two (ks : list string) c d : ks `prefix_of` [c; d] → ks ≠ [] → ks = [c] ∨ ks = [c; d].
Proof using.
  intros [k Hk] Hks. destruct ks as [|x [|y [|z ks]]]; simplify_eq/=; auto.
Qed.

Lemma plain_one c x : t !! [c] = Some x → (∀ y, x ≠ NLink y) → plain_path t [c].
Proof using Hroot.
  intros Hc Hx ks [k Hk] Hks. destruct ks as [|y [|z ks]]; simplify_eq/=.
  split; [by apply through_one|]. intros y0 Heq. naive_solver.
Qed.

Lemma plain_two c d data :
  t !! [c] = Some NDir → t !! [c; d] = Some (NFile data) → plain_path t [c; d].
Proof using Hroot.
  intros Hc Hd ks Hks Hk. destruct (prefix_two ks c d Hks Hk) as [->| ->].
  - split; [apply through_one|]. intros x Heq. naive_solver.
  - split; [by apply through_two|]. intros x Heq. naive_solver.
Qed.

(** Finding and reading the stream of a layer. *)
Lemma read_layer v d :
  saved_layer t v d →
  ∃ p data, safePath t (path_of tmp) (filepath_Join v legacyLayerFileName) = Ok p ∧
    read_file t (path_of tmp) p = Ok data ∧ tar_ok data ∧ tar_Digest data = d.
Proof using Htmp Hne Hroot.
  intros (Hv & Hdir & data & Hok & Hd & Hfile). pose proof (hex_normal v Hv) as Hvn.
  pose proof layer_name_normal as Hfn. rewrite layer_path by done.
  assert (∀ c, normal c → Forall normal [c; legacyLayerFileName]) as Hn
    by (intros; constructor; [done|by constructor]).
  destruct Hfile as [Hfile|(o & Ho & Hodir & Hfile & Hlink)].
  - exists (path_of (tmp ++ [v; legacyLayerFileName])), data. split_and!; [|..|done|done].
    + apply safePath_plain; [done..|by apply Join_two|done|by apply Hn|by eapply plain_two|simpl; unfold maxIter; lia].
    + unfold read_file. rewrite (read_plain t tmp _ data); [done..|by apply Hn| |done]. by apply through_two.
  - pose proof (hex_normal o Ho) as Hon.
    exists (path_of (tmp ++ [o; legacyLayerFileName])), data. split_and!; [|..|done|done].
    + apply (safePath_link t tmp Htmp Hne v o legacyLayerFileName); try done.
      * by apply Join_two.
      * by eapply plain_one.
      * by eapply plain_two.
      * by apply through_two.
    + unfold read_file. rewrite (read_plain t tmp _ data); [done..|by apply Hn| |done]. by apply through_two.
Qed.

(** A file at the top. *)
Lemma read_top name data :
  normal name → t !! [name] = Some (NFile data) →
  ∃ p, safePath t (path_of tmp) name = Ok p ∧ tree_Read t (path_of tmp) p = inr data.
Proof using Htmp Hne Hroot.
  intros Hn Hf. assert (Forall normal [name]) as Hns by (by constructor).
  exists (path_of (tmp ++ [name])). split.
  - apply safePath_plain; [done..|by apply Join_one|done|done|by eapply plain_one|simpl; unfold maxIter; lia].
  - by apply read_plain; [| | |apply through_one|].
Qed.
End directories.

(** ** Layers *)

Lemma layered_nil {Desc : Type} `{LayerExt string Desc} look : layered look [].
Proof. intros p d [k Hk]. by destruct p. Qed.

Lemma layered_look {Desc : Type} `{LayerExt string Desc} look look' ds :
  (∀ c x, look c = Some x → look' c = Some x) → layered look ds → layered look' ds.
Proof. intros Hl Hds p d Hp. destruct (Hds p d Hp) as (data & Hd & Hc). exists data. auto. Qed.

Lemma layered_same {Desc : Type} `{LayerExt string Desc} look look' ds :
  (∀ p, p `prefix_of` ds → p ≠ [] → look' (CreateChainID p) = look (CreateChainID p)) →
  layered look ds → layered look' ds.
Proof.
  intros Hl Hds p d Hp. destruct (Hds p d Hp) as (data & Hd & Hc). exists data.
  split; [done|]. rewrite Hl; [done..|]. by destruct p.
Qed.

Lemma layered_prefix {Desc : Type} `{LayerExt string Desc} look ds ds' :
  ds' `prefix_of` ds → layered look ds → layered look ds'.
Proof. intros Hp Hds p d Hpd. apply Hds. by etrans. Qed.

Lemma prefix_snoc_inv {A} (p ds : list A) (x d : A) :
  p ++ [x] `prefix_of` ds ++ [d] → p ++ [x] `prefix_of` ds ∨ p = ds ∧ x = d.
Proof.
  intros [k Hk]. destruct (decide (k = [])) as [->|Hne].
  - rewrite app_nil_r in Hk. apply app_inj_tail in Hk as [-> ->]. by right.
  - left. destruct (exists_last Hne) as (k' & y & ->). rewrite app_assoc in Hk.
    apply app_inj_tail in Hk as [-> _]. by exists k'.
Qed.

Lemma layered_snoc {Desc : Type} `{LayerExt string Desc} look ds data :
  layered look ds → look (CreateChainID (ds ++ [tar_Digest data])) = Some (data, CreateChainID ds) →
  layered look (ds ++ [tar_Digest data]).
Proof.
  intros Hds Hd p x [Hp|[-> ->]]%prefix_snoc_inv; [by apply Hds|]. by exists data.
Qed.

(** A layer that is stored under the chain identifier of one of the layers in [dss] is
    that layer. *)
Definition agrees {Desc : Type} `{LayerExt string Desc} (look : string → option (string * string))
    (dss : list (list string)) : Prop :=
  ∀ ds p d data q, ds ∈ dss → p ++ [d] `prefix_of` ds →
    look (CreateChainID (p ++ [d])) = Some (data, q) → tar_Digest data = d ∧ q = CreateChainID p.

(** No two of the layers in [dss] have the same chain identifier. *)
Definition chains_distinct {Desc : Type} `{LayerExt string Desc} (dss : list (list string)) : Prop :=
  ∀ ds ds' p p' d d', ds ∈ dss → ds' ∈ dss → p ++ [d] `prefix_of` ds → p' ++ [d'] `prefix_of` ds' →
    CreateChainID (p ++ [d]) = CreateChainID (p' ++ [d']) → d = d' ∧ CreateChainID p = CreateChainID p'.

Lemma layered_distinct {Desc : Type} `{LayerExt string Desc} look dss :
  Forall (layered look) dss → chains_distinct dss.
Proof.
  intros Hl ds ds' p p' d d' Hds Hds' Hp Hp' Heq. rewrite Forall_forall in Hl.
  destruct (Hl ds Hds p d Hp) as (data & Hd & Hc), (Hl ds' Hds' p' d' Hp') as (data' & Hd' & Hc').
  rewrite Heq, Hc' in Hc. by simplify_eq.
Qed.

Section loading.
Context {F L DS Desc : Type}.
Context {be : StoreBackend F} {lg : LayerGetReleaser L} {holder : LayerHolder L}.
Context {reg : LayerRegistry L} {client : LayerClient L}.
Context {dset : DigestSet DS} {ext : LayerExt string Desc} {iext : ImageExt} {rext : RefExt}.
Context {dlaws : DigestSetLaws DS} {bsafe : BackendSafe F} {rlaws : RefLaws}.
Context {text : TarExportExt} {order : MapOrder}.
Context {rel : ReliableBackend F} {rlayers : ReliableLayers L} {hexd : HexDigests}.

Abbreviation store := (imageStore F L DS).
Abbreviation exporter := (tarexporter F L DS).
Implicit Types (st : store) (l : exporter) (s : L).

(** The layer store moved on without losing anything. *)
Record grows (s s' : L) : Prop := {
  gr_refs c r : lg_ref s c r → lg_ref s' c r;
  gr_layers c x : lc_layer s c = Some x → lc_layer s' c = Some x
}.
#[local] Instance grows_preorder : PreOrder grows.
Proof. split; [by split|]. intros a b c [] []. split; auto. Qed.

Section directory.
Context (t : tree) (tmp : list string) (Htmp : Forall normal tmp) (Hne : tmp ≠ []).
Context (Hroot : t !! [] = None).
Context (dss : list (list string)) (Hdist : chains_distinct dss).

(** Getting or registering one layer. *)
Lemma load_layer_ok l held ds d v :
  lg_ok (is_ls (te_is l)) → agrees (lc_layer (is_ls (te_is l))) dss →
  layered (lc_layer (is_ls (te_is l))) ds → saved_layer t v d → length ds < maxLayerDepth →
  (∃ ds', ds' ∈ dss ∧ ds ++ [d] `prefix_of` ds') →
  ∀ ty layers, ∃ s' r,
    let st' := with_ls (te_is l) s' in
    load_layers t (path_of tmp) (l, held) (mkRootFS ty ds)
      ((d, filepath_Join v legacyLayerFileName) :: layers) =
    load_layers t (path_of tmp) (with_is l st', r :: held) (mkRootFS ty (ds ++ [d])) layers ∧
    lg_ok s' ∧ grows (is_ls (te_is l)) s' ∧ agrees (lc_layer s') dss ∧ layered (lc_layer s') (ds ++ [d]).
Proof using Htmp Hne Hroot Hdist client hexd.
  intros Hok Hag Hds Hfile Hdepth (ds' & Hin & Hpre) ty layers.
  set (s := is_ls (te_is l)) in *. set (c := CreateChainID (ds ++ [d])).
  destruct (read_layer t tmp Htmp Hne Hroot v d Hfile) as (p & data & Hpath & Hread & [Hplain Htar] & Hd).
  pose proof (lg_Get_spec s c Hok) as Hspec. destruct (rl_Get s c Hok) as [Hlook Hget].
  assert (∀ s' r, lg_ok s' → lg_ref s' c r → layered (lc_layer s') (ds ++ [d]) →
    st_DiffID s' r = d) as Hdiff.
  { intros s' r Hok' Hr Hl. destruct (rl_content s' c r Hok' Hr) as (data' & q & Hc & -> & _).
    destruct (Hl ds d ltac:(done)) as (data2 & <- & Hc2). fold c in Hc2. congruence. }
  cbn [load_layers]. rewrite Hpath. cbn [and_then]. unfold on_te, on_ls, on_is, call_ls. cbn [fst snd].
  change (RootFS_ChainID (RootFS_Append (mkRootFS ty ds) d)) with c. fold s.
  destruct (lc_layer s c) as [[data0 q]|] eqn:Hc.
  - destruct Hget as [r Hr]. destruct (lg_Get s c) as [s' o]. simpl in *. subst o.
    destruct Hspec as (Hok' & Href & Hkeep). destruct (Hag ds' ds d data0 q Hin Hpre Hc) as [Hd0 ->].
    assert (layered (lc_layer s') (ds ++ [d])) as Hl'.
    { rewrite <- Hd0. apply layered_snoc.
      - eapply layered_look; [|exact Hds]. intros c' x. by rewrite Hlook.
      - rewrite Hd0, Hlook. done. }
    exists s', r. unfold or_none. cbn [and_then fst snd te_is with_is is_ls with_ls].
    rewrite decide_False by (intros Hn; apply Hn; symmetry; by apply Hdiff).
    split; [done|]. split_and!; [done| | |done].
    + split; [intros c' r' Hr'; by apply Hkeep|]. intros c' x. by rewrite Hlook.
    + intros e p' d' da q' He Hp'. rewrite Hlook. by apply (Hag e).
  - destruct Hget as [e He]. destruct (lg_Get s c) as [s1 o]. simpl in *. subst o.
    destruct Hspec as (Hok1 & Hkeep1).
    assert (layered (lc_layer s1) ds) as Hds1
      by (eapply layered_look; [|exact Hds]; intros c' x; by rewrite Hlook).
    destruct (rl_Register s1 data ds Hok1 Htar Hds1 Hdepth) as (s' & r & Hreg & Href & Hnew).
    { rewrite Hd. fold c. by rewrite Hlook. }
    pose proof (lc_Register s1 data (CreateChainID ds) Hok1) as Hsafe. rewrite Hreg in Hsafe.
    destruct Hsafe as (Hok' & _ & Hkeep' & _). rewrite Hd in Href, Hnew. fold c in Href, Hnew.
    unfold loadLayer. rewrite Hread. cbn [and_then]. unfold DecompressStream. rewrite Hplain. cbn [and_then].
    unfold on_ls, on_is, call_ls. cbn [fst snd te_is with_is is_ls with_ls].
    change (RootFS_ChainID (mkRootFS ty ds)) with (CreateChainID ds). rewrite Hreg. cbn [and_then fst snd].
    assert (layered (lc_layer s') (ds ++ [d])) as Hl'.
    { rewrite <- Hd. apply layered_snoc.
      - eapply layered_look; [|exact Hds1]. intros c' x Hx. rewrite Hnew. case_decide; [|done].
        subst c'. rewrite Hlook, Hc in Hx. done.
      - rewrite Hd. fold c. rewrite Hnew. by rewrite decide_True. }
    exists s', r. cbn [fst snd te_is with_is is_ls with_ls].
    rewrite decide_False by (intros Hn; apply Hn; symmetry; by apply Hdiff).
    split; [done|]. split_and!; [done| | |done].
    + split; [intros c' r' Hr'; by apply Hkeep', Hkeep1|]. intros c' x Hx. rewrite Hnew.
      case_decide; [|by rewrite Hlook]. subst c'. by rewrite Hc in Hx.
    + intros e' p' d' da q' He' Hp'. rewrite Hnew. case_decide as Heq; [|rewrite Hlook; by apply (Hag e')].
      intros [= <- <-]. destruct (Hdist e' ds' p' ds d' d He' Hin Hp' Hpre Heq) as [-> ->]. done.
Qed.

Lemma load_layers_ok l held ds rest vs ty :
  lg_ok (is_ls (te_is l)) → agrees (lc_layer (is_ls (te_is l))) dss →
  layered (lc_layer (is_ls (te_is l))) ds → Forall2 (saved_layer t) vs rest →
  length (ds ++ rest) ≤ maxLayerDepth → ds ++ rest ∈ dss →
  ∃ s' held',
    load_layers t (path_of tmp) (l, held) (mkRootFS ty ds)
      (zip rest ((λ v, filepath_Join v legacyLayerFileName) <$> vs)) =
    ((with_is l (with_ls (te_is l) s'), held'), Ok tt) ∧
    lg_ok s' ∧ grows (is_ls (te_is l)) s' ∧ agrees (lc_layer s') dss ∧ layered (lc_layer s') (ds ++ rest).
Proof using Htmp Hne Hroot Hdist client hexd.
  intros Hok Hag Hds Hfiles. revert l held ds Hok Hag Hds.
  induction Hfiles as [|v d vs rest Hfile _ IH]; intros l held ds Hok Hag Hds Hlen Hin.
  { exists (is_ls (te_is l)), held. rewrite app_nil_r. split; [|done]. by destruct l as [[] ? ? ?]. }
  assert (ds ++ d :: rest = (ds ++ [d]) ++ rest) as Heq by (by rewrite <- app_assoc).
  destruct (load_layer_ok l held ds d v Hok Hag Hds Hfile) with (ty := ty)
    (layers := zip rest ((λ v, filepath_Join v legacyLayerFileName) <$> vs))
    as (s1 & r & Hstep & Hok1 & Hgr1 & Hag1 & Hds1).
  { rewrite length_app in Hlen. simpl in Hlen. lia. }
  { exists (ds ++ d :: rest). split; [done|]. rewrite Heq. by exists rest. }
  cbn [fmap list_fmap zip zip_with]. rewrite Hstep.
  destruct (IH (with_is l (with_ls (te_is l) s1)) (r :: held) (ds ++ [d])) as (s2 & held2 & -> & Hok2 & Hgr2 & Hag2 & Hds2);
    [done..|by rewrite <- Heq|by rewrite <- Heq|].
  exists s2, held2. split; [done|]. rewrite Heq. split_and!; [done|by etrans|done|done].
Qed.
End directory.
End loading.
