(* ===== verification/TarExportItems.v ===== *)
(** * Loading the images of a manifest

    Load of a directory that holds images as Save writes them succeeds on stores without
    I/O errors, and afterwards the images, their layers, their parents and their tags are
    in the stores. *)

From S2P Require Import Prelude GoStrings GoPath Symlink Layer LayerInv ImageStore ImageInv ImageFamily RefStore RefInv ImageDelete TarExport TarExportInv TarExportPath TarExportLoad.
#[local] Open Scope nat_scope.

(** An image as it is written: its configuration, the diff identifiers of its layers, the
    directories of the layers, its tags and its parent. *)
Record packed := mkPacked {
  pk_config : string;
  pk_ds : list string;
  pk_vs : list string;
  pk_refs : list Named;
  pk_parent : string
}.

Definition hex_of (d : string) : string := from_option snd "" (cut_at ":" d).

(** A tag that is read back from its text and that the tag store takes. *)
Definition tag_ok `{RefExt} (r : Named) : Prop :=
  storable r ∧ ParseNamed (Named_String r) = Ok r ∧
  ∃ name tag, r = taggedRef name tag ∧ name ≠ "sha256".

Section items.
Context {F L DS Desc : Type}.
Context {be : StoreBackend F} {lg : LayerGetReleaser L} {holder : LayerHolder L}.
Context {reg : LayerRegistry L} {client : LayerClient L}.
Context {dset : DigestSet DS} {ext : LayerExt string Desc} {iext : ImageExt} {rext : RefExt}.
Context {dlaws : DigestSetLaws DS} {bsafe : BackendSafe F} {rlaws : RefLaws}.
Context {text : TarExportExt} {order : MapOrder}.
Context {rel : ReliableBackend F} {rlayers : ReliableLayers L} {hexd : HexDigests}.

Abbreviation store := (imageStore F L DS).
Abbreviation exporter := (tarexporter F L DS).
Abbreviation look st := (lc_layer (is_ls st)).
Implicit Types (st : store) (l : exporter) (p : packed) (ps qs : list packed).

Definition pk_id p : string := digest_FromBytes (pk_config p).
Definition pk_item p : manifestItem :=
  mkManifestItem (hex_of (pk_id p) +:+ ".json") (Named_String <$> pk_refs p)
    ((λ v, filepath_Join v legacyLayerFileName) <$> pk_vs p) (pk_parent p).

(** The configuration decodes, has layers, and the digest is that of no other one. *)
Definition config_ok (config : string) (ds : list string) : Prop :=
  config ≠ "" ∧ ds ≠ [] ∧ length ds ≤ maxLayerDepth ∧
  (∀ c, digest_FromBytes c = digest_FromBytes config → c = config) ∧
  ∃ img ty, json_Unmarshal config = inr img ∧ img_RootFS img = Some (mkRootFS ty ds) ∧
    non_empty_layers (img_History img) ≤ length ds.

Record packed_ok (t : tree) p : Prop := {
  po_config : t !! [hex_of (pk_id p) +:+ ".json"] = Some (NFile (pk_config p));
  po_image : config_ok (pk_config p) (pk_ds p);
  po_layers : Forall2 (saved_layer t) (pk_vs p) (pk_ds p);
  po_refs : Forall tag_ok (pk_refs p)
}.

(** ** Creating an image *)

Lemma chain_nonempty look ds : ds ≠ [] → layered look ds → CreateChainID ds ≠ "".
Proof using hexd.
  intros Hne Hl. destruct (exists_last Hne) as (ps & d & ->).
  destruct (Hl ps d) as (data & <- & _); [done|]. unfold CreateChainID.
  rewrite createChainIDFromParent_app. simpl. case_decide; [apply hd_tar|].
  match goal with |- digest_FromBytes ?x ≠ _ => destruct (hd_hex x) as (h & -> & _) end. done.
Qed.

Lemma create_ok st config ds :
  image_inv st → family_inv st → layered (look st) ds → config_ok config ds →
  ∃ st', imageStore_Create st config = (st', Ok (digest_FromBytes config)) ∧
    family_inv st' ∧ is_Some (is_images st' !! digest_FromBytes config) ∧
    (∀ i, is_Some (is_images st !! i) → is_Some (is_images st' !! i)) ∧
    (∀ c, look st' c = look st c) ∧
    (∀ i, rb_content (is_fs st') i =
       if decide (i = digest_FromBytes config) then Some config else rb_content (is_fs st) i) ∧
    ∀ i, rb_parent (is_fs st') i = rb_parent (is_fs st) i.
Proof using client hexd dlaws bsafe.
  intros Hinv Hfam Hl (Hne & Hds & _ & Huniq & img & ty & Hj & Hr & Hhist).
  assert (has_rootfs config) as Hroot by (intros img' Hj'; rewrite Hj in Hj'; simplify_eq; eauto).
  pose proof (family_Create st config Hfam Hroot) as Hfam'.
  pose proof (imageStore_Create_safe st config Hinv Hroot) as Hsafe.
  revert Hfam' Hsafe. unfold imageStore_Create. rewrite Hj, Hr. simpl.
  rewrite decide_False by lia. unfold call_fs.
  destruct (rb_Set (is_fs st) config (fi_ok _ Hfam)) as [[? _]|(f & Hset & Hok & Hc & Hp)]; [done|].
  pose proof (bs_Set (is_fs st) config) as Hvalid. rewrite Hset in *. destruct Hvalid as [_ Hvalid].
  cbn [and_then]. unfold create_locked.
  destruct (decide (is_Some (is_images (with_fs st f) !! digest_FromBytes config))) as [Hin|Hin].
  { intros Hfam' Hsafe. exists (with_fs st f). split_and!; done. }
  unfold retain_layer. rewrite decide_False by (by eapply chain_nonempty).
  unfold call_ls. change (RootFS_ChainID (mkRootFS ty ds)) with (CreateChainID ds). simpl.
  destruct (rl_Get (is_ls st) (CreateChainID ds) (ii_ls _ Hinv)) as [Hlook Hget].
  destruct (exists_last Hds) as (ps & d & Heq). destruct (Hl ps d) as (data & Hd & Hcl); [by rewrite Heq|].
  rewrite <- Heq in Hcl. rewrite Hcl in Hget. destruct Hget as [r Hr'].
  destruct (lg_Get (is_ls st) (CreateChainID ds)) as [s o]. simpl in *. subst o. simpl.
  destruct (ds_Add_valid (is_digestSet st) (digest_FromBytes config) Hvalid) as [Hadd _].
  destruct (ds_Add _ _) as [dset' e]. simpl in Hadd. subst e. intros Hfam' Hsafe. simpl in *.
  eexists. split; [done|]. simpl. split_and!; try done.
  - by eexists; rewrite lookup_insert_eq.
  - intros i Hi. rewrite lookup_insert. case_decide; [done|done].
Qed.

(** ** Tags *)

Lemma AddTag_reliable (rs : refStore) ref id :
  rs_faults rs = [] → tag_ok ref →
  ∃ rs', refStore_AddTag rs ref id true = (rs', Ok tt) ∧ rs_faults rs' = [].
Proof using.
  intros Hf (_ & _ & n & tag & -> & Hn). cbn. unfold addReference. simpl. rewrite decide_False by done.
  unfold refStore_save. simpl. destruct (lookup2 _ _ _); simpl; rewrite Hf; by eexists.
Qed.

Lemma set_tag_ok l ref id :
  ref_inv (te_rs l) → rs_faults (te_rs l) = [] → tag_ok ref →
  ∃ l', set_tag l ref id = (l', Ok tt) ∧ te_is l' = te_is l ∧ ref_inv (te_rs l') ∧
    rs_faults (te_rs l') = [] ∧
    ∀ r, storable r → ref_lookup (te_rs l') r = if decide (r = ref) then Some id else ref_lookup (te_rs l) r.
Proof using rlaws.
  intros Hinv Hf Href. unfold set_tag, setLoadedTag.
  set (l1 := match refStore_Get (te_rs l) ref with Ok _ => _ | _ => _ end).
  assert (te_is l1 = te_is l ∧ te_rs l1 = te_rs l) as [His Hrs]
    by (subst l1; case_match; [case_match|..]; done).
  clearbody l1. rewrite Hrs. pose proof Href as (Hst & _ & n & tag & -> & _).
  pose proof (refStore_AddTag_spec (te_rs l) (taggedRef n tag) id true Hinv Hst) as Hadd.
  destruct (AddTag_reliable (te_rs l) (taggedRef n tag) id Hf Href) as (rs' & Heq & Hf').
  rewrite Heq in *. destruct Hadd as ((Hinv' & _ & Hl) & _). simpl.
  eexists. split; [done|]. simpl. by split_and!.
Qed.

Lemma load_tags_ok l id refs :
  ref_inv (te_rs l) → rs_faults (te_rs l) = [] → Forall tag_ok refs →
  ∃ l', load_tags l id (Named_String <$> refs) = (l', Ok (length refs)) ∧ te_is l' = te_is l ∧
    ref_inv (te_rs l') ∧ rs_faults (te_rs l') = [] ∧
    ∀ r, storable r → ref_lookup (te_rs l') r = if decide (r ∈ refs) then Some id else ref_lookup (te_rs l) r.
Proof using rlaws.
  intros Hinv Hf Hrefs. revert l Hinv Hf.
  induction Hrefs as [|ref refs Href _ IH]; intros l Hinv Hf.
  { exists l. split_and!; try done. }
  rewrite fmap_cons. cbn [load_tags]. pose proof Href as (_ & Hparse & n & tag & -> & _). rewrite Hparse.
  destruct (set_tag_ok l (taggedRef n tag) id Hinv Hf Href) as (l1 & -> & His & Hinv1 & Hf1 & Hl1).
  cbn [and_then]. set (l2 := print l1 _).
  destruct (IH l2) as (l' & Heq & His' & Hinv' & Hf' & Hl'); [done..|].
  rewrite Heq. cbn [and_then]. exists l'. split_and!; [done|by rewrite His'|done..|].
  intros r Hr. rewrite Hl' by done. simpl. rewrite Hl1 by done.
  destruct (decide (r ∈ refs)) as [Hin|Hin]; [by rewrite decide_True by (by apply elem_of_cons; right)|].
  destruct (decide (r = taggedRef n tag)) as [Heq'|Hne].
  - by rewrite decide_True by (by apply elem_of_cons; left).
  - rewrite decide_False; [done|]. by intros [|]%elem_of_cons.
Qed.

(** ** Parents *)

Definition history_of (config : string) : list History :=
  match json_Unmarshal config with inr img => img_History img | inl _ => [] end.

(** What [checkValidParent] tests, of the histories of two configurations. *)
Definition valid_parent (config parent : string) : bool :=
  checkValidParent (mkImage "" None (history_of config) "" "") (mkImage "" None (history_of parent) "" "").

Lemma image_Get_ok st id config img :
  rb_ok (is_fs st) → rb_content (is_fs st) id = Some config → json_Unmarshal config = inr img →
  is_Some (img_RootFS img) →
  imageStore_Get st id = (st, Ok (mkImage (default "" (rb_parent (is_fs st) id)) (img_RootFS img)
                                    (img_History img) config id)).
Proof.
  intros Hok Hc Hj [r Hr]. assert (valid_id id) as Hv by (eapply rb_valid; [apply Hok|by eauto]).
  pose proof (Get_reliable st id Hok Hv) as Hget. rewrite Hc in Hget. simpl in Hget.
  unfold NewFromJSON in Hget. rewrite Hj, Hr in Hget.
  destruct (imageStore_Get st id) as [st' [img'|e| |]]; simplify_eq/=. by rewrite Hr.
Qed.

Lemma SetParent_ok st id parent :
  image_inv st → family_inv st → is_Some (rb_content (is_fs st) id) → is_Some (is_images st !! parent) →
  ∃ st', imageStore_SetParent st id parent = (st', Ok tt) ∧ image_inv st' ∧ family_inv st' ∧
    is_ls st' = is_ls st ∧ (∀ i, is_Some (is_images st !! i) → is_Some (is_images st' !! i)) ∧
    (∀ i, rb_content (is_fs st') i = rb_content (is_fs st) i) ∧
    ∀ i, rb_parent (is_fs st') i = if decide (i = id) then Some parent else rb_parent (is_fs st) i.
Proof.
  intros Hinv Hfam Hc [m Hm]. assert (valid_id id) as Hv by (eapply rb_valid; [apply Hfam|done]).
  pose proof (family_SetParent st id parent Hinv Hfam Hc) as Hfam'.
  pose proof (imageStore_SetParent_safe st id parent Hinv Hv) as Hsafe.
  revert Hfam' Hsafe. unfold imageStore_SetParent. rewrite Hm.
  rewrite unlink_parent_reliable by (done || apply Hfam). cbn [and_then]. unfold call_fs.
  set (st1 := update_children (λ c, {[id]} ∪ c) parent _).
  assert (is_fs st1 = is_fs st ∧ is_ls st1 = is_ls st) as [Hfs Hls]
    by (unfold st1; by destruct (rb_parent (is_fs st) id)).
  assert (∀ i, is_Some (is_images st !! i) → is_Some (is_images st1 !! i)) as Hdom.
  { intros i Hi. unfold st1. apply elem_of_dom. rewrite update_children_dom, elem_of_dom. by apply unlink_dom. }
  rewrite Hfs. destruct (rb_SetMetadata (is_fs st) id parent (fi_ok _ Hfam) Hc) as (f & -> & Hok & Hcf & Hpf).
  intros Hfam' [Hinv' _]. simpl in Hfam'. exists (with_fs st1 f). by split_and!.
Qed.

Lemma setParentID_ok l id parent config pconfig ds ds' :
  image_inv (te_is l) → family_inv (te_is l) → is_Some (is_images (te_is l) !! parent) →
  rb_content (is_fs (te_is l)) id = Some config → rb_content (is_fs (te_is l)) parent = Some pconfig →
  config_ok config ds → config_ok pconfig ds' → valid_parent config pconfig = true →
  ∃ st', setParentID l id parent = (with_is l st', Ok tt) ∧ image_inv st' ∧ family_inv st' ∧
    is_ls st' = is_ls (te_is l) ∧ (∀ i, is_Some (is_images (te_is l) !! i) → is_Some (is_images st' !! i)) ∧
    (∀ i, rb_content (is_fs st') i = rb_content (is_fs (te_is l)) i) ∧
    ∀ i, rb_parent (is_fs st') i = if decide (i = id) then Some parent else rb_parent (is_fs (te_is l)) i.
Proof.
  intros Hinv Hfam Hin Hc Hpc (_ & _ & _ & _ & img & ty & Hj & Hr & _) (_ & _ & _ & _ & img' & ty' & Hj' & Hr' & _).
  unfold valid_parent, history_of, checkValidParent. rewrite Hj, Hj'. simpl. intros Hvalid.
  destruct (SetParent_ok (te_is l) id parent Hinv Hfam) as (st' & Hset & Hrest); [by eauto|done|].
  exists st'. split; [|done]. unfold setParentID, on_is.
  assert (with_is l (te_is l) = l) as Hl by (by destruct l).
  rewrite (image_Get_ok _ _ _ _ (fi_ok _ Hfam) Hc Hj) by (by rewrite Hr). cbn [and_then].
  rewrite Hl, (image_Get_ok _ _ _ _ (fi_ok _ Hfam) Hpc Hj') by (by rewrite Hr'). cbn [and_then].
  rewrite Hl. unfold checkValidParent. simpl. by rewrite Hvalid, Hset.
Qed.

(** ** The items of the manifest *)

Lemma digest_hex c : ∃ h, digest_FromBytes c = "sha256:" +:+ h ∧ hex_of (digest_FromBytes c) = h ∧ hex_name h.
Proof. destruct (hd_hex c) as (h & -> & Hh). by exists h. Qed.

Section directory.
Context (t : tree) (tmp : list string) (Htmp : Forall normal tmp) (Hne : tmp ≠ []).
Context (Hroot : t !! [] = None).
Context (dss : list (list string)) (Hdist : chains_distinct dss) (l0 : exporter).

(** The images [ps] are loaded, with the references [held]; the rest is as in [l0]. *)
Record loaded (ps : list packed) l (held : list Layer) : Prop := {
  ld_accounts : te_accounts l0 (list_to_set (pk_id <$> ps)) held l;
  ld_family : family_inv (te_is l);
  ld_faults : rs_faults (te_rs l) = [];
  ld_agrees : agrees (look (te_is l)) dss;
  ld_images p : p ∈ ps →
    rb_content (is_fs (te_is l)) (pk_id p) = Some (pk_config p) ∧ layered (look (te_is l)) (pk_ds p);
  ld_contents i : (∀ p, p ∈ ps → i ≠ pk_id p) →
    rb_content (is_fs (te_is l)) i = rb_content (is_fs (te_is l0)) i;
  ld_parents i : rb_parent (is_fs (te_is l)) i = rb_parent (is_fs (te_is l0)) i;
  ld_refs p r : p ∈ ps → r ∈ pk_refs p → storable r →
    ∃ p', p' ∈ ps ∧ r ∈ pk_refs p' ∧ ref_lookup (te_rs l) r = Some (pk_id p');
  ld_tags r : storable r → (∀ p, p ∈ ps → r ∉ pk_refs p) →
    ref_lookup (te_rs l) r = ref_lookup (te_rs l0) r
}.

Lemma load_item_ok ps l held p :
  loaded ps l held → packed_ok t p → pk_ds p ∈ dss →
  ∃ l' held', load_item t (path_of tmp) (l, held) (pk_item p) =
      ((l', held'), Ok (pk_id p, length (pk_refs p))) ∧ loaded (ps ++ [p]) l' held'.
Proof using Htmp Hne Hroot Hdist client hexd dlaws bsafe rlaws.
  intros Hld [Hfile Himg Hlayers Hrefs] Hds.
  pose proof (load_item_accounts l0 _ t (path_of tmp) (l, held) (pk_item p) (ld_accounts _ _ _ Hld)) as Hacc.
  pose proof (ac_inv _ _ _ _ (ta_accounts _ _ _ _ (ld_accounts _ _ _ Hld))) as Hinv.
  destruct (digest_hex (pk_config p)) as (h & Hid & Hhex & Hname). fold (pk_id p) in Hhex, Hid.
  destruct (read_top t tmp Htmp Hne Hroot (hex_of (pk_id p) +:+ ".json") (pk_config p)) as (path & Hpath & Hread);
    [by rewrite Hhex; apply hex_json_normal|done|].
  pose proof Himg as (_ & _ & Hlen & Huniq & img & ty & Hj & Hr & _).
  destruct (load_layers_ok t tmp Htmp Hne Hroot dss Hdist l held [] (pk_ds p) (pk_vs p) ty)
    as (s' & held' & Hll & Hok' & Hgr & Hag' & Hl'); [apply Hinv|apply Hld|apply layered_nil|done..|].
  revert Hacc. unfold load_item. simpl. rewrite Hpath. cbn [and_then]. unfold read_file. rewrite Hread.
  cbn [and_then]. unfold NewFromJSON. rewrite Hj, Hr. cbn [and_then img_RootFS rfs_DiffIDs rfs_Type].
  rewrite decide_False; [|intros Hn; apply Hn; rewrite length_fmap; by apply Forall2_length in Hlayers].
  rewrite Hll. cbn [and_then]. unfold on_te, on_is. cbn [fst snd te_is with_is].
  set (st1 := with_ls (te_is l) s').
  destruct (create_ok st1 (pk_config p) (pk_ds p)) as (st2 & Hcreate & Hfam2 & Hin2 & Himgs2 & Hlook2 & Hcont2 & Hpar2);
    [apply inv_with_ls; [done..|]; intros; by apply Hgr|by apply family_ls, Hld|done..|].
  rewrite Hcreate. cbn [and_then fst snd]. change (digest_FromBytes (pk_config p)) with (pk_id p) in *.
  destruct (load_tags_ok (with_is (with_is l st1) st2) (pk_id p) (pk_refs p))
    as (l3 & Htags & His3 & _ & Hf3 & Hl3); [apply (ta_refs _ _ _ _ (ld_accounts _ _ _ Hld))|apply Hld|done|].
  rewrite Htags. cbn [and_then fst snd]. intros Hacc. simpl in Hacc.
  exists (log_event l3 (pk_id p) "load"), held'. split; [done|].
  assert (∀ c x, look (te_is l) c = Some x → look st2 c = Some x) as Hgrow
    by (intros c x Hx; rewrite Hlook2; exact (gr_layers _ _ Hgr c x Hx)).
  split; simpl; rewrite ?His3; simpl; try done.
  - rewrite fmap_app, list_to_set_app_L. simpl.
    replace (list_to_set (pk_id <$> ps) ∪ ({[pk_id p]} ∪ ∅)) with ({[pk_id p]} ∪ list_to_set (pk_id <$> ps) : gset string) by set_solver.
    done.
  - intros e q d data c He Hq. rewrite Hlook2. exact (Hag' e q d data c He Hq).
  - intros q [Hq| ->%list_elem_of_singleton]%elem_of_app.
    + destruct (ld_images _ _ _ Hld q Hq) as [Hc Hl]. split; [|by eapply layered_look].
      rewrite Hcont2. case_decide as Heq; [|done]. f_equal. symmetry. by apply Huniq.
    + split; [rewrite Hcont2; by rewrite decide_True|]. eapply layered_look; [|exact Hl'].
      intros c x. by rewrite Hlook2.
  - intros i Hi. rewrite Hcont2, decide_False by (apply Hi, elem_of_app; right; by left).
    apply (ld_contents _ _ _ Hld). intros q Hq. apply Hi, elem_of_app. by left.
  - intros i. rewrite Hpar2. apply Hld.
  - intros q r Hq Hqr Hst. rewrite Hl3 by done. case_decide as Hin.
    + exists p. split_and!; [apply elem_of_app; right; by left|done..].
    + apply elem_of_app in Hq as [Hq| ->%list_elem_of_singleton]; [|done].
      destruct (ld_refs _ _ _ Hld q r Hq Hqr Hst) as (p' & Hp' & Hr' & Hlk). exists p'.
      split_and!; [apply elem_of_app; by left|done..].
  - intros r Hst Hno. rewrite Hl3 by done. rewrite decide_False by (apply Hno, elem_of_app; right; by left).
    apply (ld_tags _ _ _ Hld); [done|]. intros q Hq. apply Hno, elem_of_app. by left.
Qed.

Definition link_of p : parentLink := mkParentLink (pk_id p) (pk_parent p).

Lemma load_items_ok ps qs l held msg n :
  loaded ps l held → Forall (packed_ok t) qs → Forall (λ p, pk_ds p ∈ dss) qs →
  ∃ l' held' msg' n', load_items t (path_of tmp) (l, held) (pk_item <$> qs) (link_of <$> ps) msg n =
      ((l', held'), Ok (link_of <$> ps ++ qs, msg', n')) ∧ loaded (ps ++ qs) l' held'.
Proof using Htmp Hne Hroot Hdist client hexd dlaws bsafe rlaws.
  intros Hld Hqs Hin. revert ps l held msg n Hld Hin.
  induction Hqs as [|q qs Hq _ IH]; intros ps l held msg n Hld Hin.
  { rewrite app_nil_r. eauto 6. }
  apply Forall_cons in Hin as [Hqin Hin]. rewrite fmap_cons. cbn [load_items].
  destruct (load_item_ok ps l held q Hld Hq Hqin) as (l1 & held1 & -> & Hld1). cbn [and_then fst snd].
  match goal with |- context [load_items _ _ _ _ ?ls ?m ?k] =>
    replace ls with (link_of <$> ps ++ [q]) by (by rewrite fmap_app);
    destruct (IH (ps ++ [q]) l1 held1 m k Hld1 Hin) as (l' & held' & msg' & n' & -> & Hld') end.
  rewrite <- !app_assoc in *. eauto 6.
Qed.

(** ** The parents *)

(** The parent of every image is another one that is loaded, and valid. *)
Definition parents_ok (ps : list packed) : Prop :=
  ∀ p, p ∈ ps → pk_parent p ≠ "" →
    ∃ q, q ∈ ps ∧ pk_id q = pk_parent p ∧ pk_id q ≠ pk_id p ∧ valid_parent (pk_config p) (pk_config q) = true.

Lemma validated_same ps : parents_ok ps → validatedParentLinks (link_of <$> ps) = link_of <$> ps.
Proof using.
  intros Hps. unfold validatedParentLinks. apply list_eq_same_length with (n := length ps);
    [by rewrite !length_fmap..|]. intros i x y _. rewrite !list_lookup_fmap.
  destruct (ps !! i) as [p|] eqn:Hp; [|done]. simpl. intros [= <-] [= <-].
  destruct (existsb _ _) eqn:He; [done|]. unfold link_of. simpl. f_equal.
  destruct (decide (pk_parent p = "")) as [->|Hpar]; [done|].
  destruct (Hps p) as (q & Hq & Hid & Hne' & _); [by eapply list_elem_of_lookup_2|done|].
  rewrite <- not_true_iff_false in He. destruct He. apply existsb_exists. exists (link_of q).
  split; [apply list_elem_of_In, list_elem_of_fmap_2, Hq|]. by apply bool_decide_eq_true_2.
Qed.

(** The images of [qs] have their parents now. *)
Record parented (qs : list packed) l l' : Prop := {
  pa_inv : image_inv (te_is l');
  pa_family : family_inv (te_is l');
  pa_refs : te_rs l' = te_rs l;
  pa_layers : is_ls (te_is l') = is_ls (te_is l);
  pa_images i : is_Some (is_images (te_is l) !! i) → is_Some (is_images (te_is l') !! i);
  pa_contents i : rb_content (is_fs (te_is l')) i = rb_content (is_fs (te_is l)) i;
  pa_parents q : q ∈ qs → pk_parent q ≠ "" → rb_parent (is_fs (te_is l')) (pk_id q) = Some (pk_parent q);
  pa_others i : (∀ q, q ∈ qs → pk_parent q ≠ "" → i ≠ pk_id q) →
    rb_parent (is_fs (te_is l')) i = rb_parent (is_fs (te_is l)) i
}.

Definition in_store (ps : list packed) l : Prop :=
  ∀ p, p ∈ ps → is_Some (is_images (te_is l) !! pk_id p) ∧
    rb_content (is_fs (te_is l)) (pk_id p) = Some (pk_config p).

Lemma set_parents_ok ps qs l :
  image_inv (te_is l) → family_inv (te_is l) → in_store ps l → Forall (packed_ok t) ps →
  parents_ok ps → qs ⊆ ps → NoDup (pk_id <$> qs) →
  ∃ l', set_parents l (link_of <$> qs) = (l', Ok tt) ∧ parented qs l l'.
Proof using bsafe.
  intros Hinv Hfam Hin Hps Hpar. revert l Hinv Hfam Hin.
  induction qs as [|q qs IH]; intros l Hinv Hfam Hin Hsub Hnd.
  { exists l. split; [done|]. by split; try done; intros ? ?%elem_of_nil. }
  rewrite fmap_cons in Hnd. apply NoDup_cons in Hnd as [Hnq Hnd].
  assert (qs ⊆ ps) as Hsub' by (intros x Hx; apply Hsub, elem_of_cons; by right).
  assert (q ∈ ps) as Hq by (apply Hsub, elem_of_cons; by left).
  rewrite fmap_cons. cbn [set_parents link_of pl_id pl_parentID].
  destruct (decide (pk_parent q = "")) as [Hnone|Hsome].
  - rewrite (decide_False (P := pk_parent q ≠ "")) by auto. cbn [and_then].
    destruct (IH l Hinv Hfam Hin Hsub' Hnd) as (l' & -> & []). exists l'. split; [done|]. split; try done.
    + intros p [->|Hp]%elem_of_cons; [done|auto].
    + intros i Hi. apply pa_others0. intros p Hp. apply Hi, elem_of_cons. by right.
  - rewrite (decide_True (P := pk_parent q ≠ "")) by done.
    destruct (Hpar q Hq Hsome) as (q' & Hq' & Hid & Hne' & Hvalid).
    destruct (Hin q Hq) as [_ Hc], (Hin q' Hq') as [Him' Hc']. rewrite Hid in Him', Hc'.
    rewrite Forall_forall in Hps.
    destruct (setParentID_ok l (pk_id q) (pk_parent q) _ _ _ _ Hinv Hfam Him' Hc Hc'
      (po_image _ _ (Hps q Hq)) (po_image _ _ (Hps q' Hq')) Hvalid)
      as (st' & -> & Hinv' & Hfam' & Hls' & Himg' & Hcont' & Hp'). cbn [and_then].
    destruct (IH (with_is l st') Hinv' Hfam') as (l' & -> & Hl'); [|done|done|].
    { intros p Hp. destruct (Hin p Hp). simpl. rewrite Hcont'. split; [by apply Himg'|done]. }
    exists l'. split; [done|]. destruct Hl'. simpl in *. split; try done.
    + by rewrite pa_layers0.
    + intros i Hi. by apply pa_images0, Himg'.
    + intros i. by rewrite pa_contents0.
    + intros p [->|Hp]%elem_of_cons Hpp; [|auto]. rewrite pa_others0; [rewrite Hp'; by rewrite decide_True|].
      intros p' Hp'' _ Heq. apply Hnq. rewrite Heq. by apply list_elem_of_fmap_2.
    + intros i Hi. rewrite pa_others0; [|intros p Hp; apply Hi, elem_of_cons; by right].
      rewrite Hp', decide_False; [done|]. apply Hi; [by apply elem_of_cons; left|done].
Qed.

(** ** Releasing what was held *)

Lemma release_all_ok I held l ps :
  te_accounts l0 I held l → in_store ps l → Forall (packed_ok t) ps →
  (∀ p, p ∈ ps → layered (look (te_is l)) (pk_ds p)) →
  ∃ s', release_all l held = (with_is l (with_ls (te_is l) s'), Ok tt) ∧
    te_accounts l0 I [] (with_is l (with_ls (te_is l) s')) ∧
    ∀ p, p ∈ ps → layered (lc_layer s') (pk_ds p).
Proof using client hexd.
  revert l. induction held as [|r held IH]; intros l Ht Hin Hps Hl.
  { exists (is_ls (te_is l)). assert (with_is l (with_ls (te_is l) (is_ls (te_is l))) = l) as Heq
      by (by destruct l as [[] ? ? ?]). rewrite Heq. by split_and!. }
  pose proof (ta_accounts _ _ _ _ Ht) as Ha. pose proof (ac_inv _ _ _ _ Ha) as Hinv.
  destruct (ac_held _ _ _ _ Ha r) as ([c Hc] & Hno & _); [by apply elem_of_cons; left|].
  destruct (rl_Release (is_ls (te_is l)) c r (ii_ls _ Hinv) Hc) as [[md Hmd] Hkeep].
  pose proof (release_accounts (te_is l0) I held (te_is l) r Ha) as Hrel.
  cbn [release_all]. unfold on_ls, on_is. unfold call_ls in *.
  destruct (lg_Release (is_ls (te_is l)) r) as [s1 o]. simpl in *. subst o. destruct Hrel as [Hrel _].
  cbn [or_none and_then]. set (l1 := with_is l (with_ls (te_is l) s1)).
  destruct (IH l1) as (s' & Heq & Ht' & Hl'); [by eapply te_accounts_is|done|done| |].
  - intros p Hp. simpl. destruct (Hin p Hp) as [[m Hm] _].
    destruct (ii_layer _ Hinv _ _ Hm) as (config & img & rfs & Hdig & Hj & Hr & Hlay).
    rewrite Forall_forall in Hps. destruct (po_image _ _ (Hps p Hp)) as (_ & Hds & _ & Huniq & img' & ty & Hj' & Hr' & _).
    apply Huniq in Hdig as ->. rewrite Hj in Hj'. simplify_eq.
    pose proof (chain_nonempty _ _ Hds (Hl p Hp)) as Hch.
    destruct (im_layer m) as [r0|] eqn:Hm0; [|done]. destruct Hlay as [_ Hr0].
    eapply layered_same; [|by apply Hl]. intros q Hq Hq'. apply (Hkeep (pk_ds p) r0); [|done|by apply Hl|done..].
    intros ->. apply Hno. by exists (pk_id p), m.
  - exists s'. rewrite Heq. by split_and!.
Qed.

(** ** Loading *)

(** The images [ps] are in the stores with their layers, parents and tags; whatever else
    was there is as it was, and no reference on a layer is left over. *)
Record restored ps l : Prop := {
  rt_accounts : ∃ I, te_accounts l0 I [] l;
  rt_family : family_inv (te_is l);
  rt_images : in_store ps l;
  rt_layers p : p ∈ ps → layered (look (te_is l)) (pk_ds p);
  rt_parents p : p ∈ ps → pk_parent p ≠ "" → rb_parent (is_fs (te_is l)) (pk_id p) = Some (pk_parent p);
  rt_tags p r : p ∈ ps → r ∈ pk_refs p →
    ∃ p', p' ∈ ps ∧ r ∈ pk_refs p' ∧ ref_lookup (te_rs l) r = Some (pk_id p');
  rt_other_contents i : (∀ p, p ∈ ps → i ≠ pk_id p) →
    rb_content (is_fs (te_is l)) i = rb_content (is_fs (te_is l0)) i;
  rt_other_parents i : (∀ p, p ∈ ps → pk_parent p ≠ "" → i ≠ pk_id p) →
    rb_parent (is_fs (te_is l)) i = rb_parent (is_fs (te_is l0)) i;
  rt_other_tags r : storable r → (∀ p, p ∈ ps → r ∉ pk_refs p) →
    ref_lookup (te_rs l) r = ref_lookup (te_rs l0) r
}.

(** What is relied on in the stores that are loaded into. *)
Record destination l : Prop := {
  dn_images : image_inv (te_is l);
  dn_family : family_inv (te_is l);
  dn_refs : ref_inv (te_rs l);
  dn_faults : rs_faults (te_rs l) = [];
  dn_agrees : agrees (look (te_is l)) dss
}.

Lemma manifest_normal : normal manifestFileName.
Proof using. repeat split; by vm_compute. Qed.

Lemma load_manifest_ok ps :
  destination l0 → Forall (packed_ok t) ps → Forall (λ p, pk_ds p ∈ dss) ps →
  parents_ok ps → NoDup (pk_id <$> ps) →
  ∃ l', with_releases (load_manifest t (path_of tmp) (l0, []) (pk_item <$> ps)) = (l', Ok tt) ∧
    restored ps l'.
Proof using Htmp Hne Hroot Hdist client hexd dlaws bsafe rlaws.
  intros [Hinv Hfam Href Hf Hag] Hps Hin Hpar Hnd.
  assert (loaded [] l0 []) as H0.
  { split; try done; [|by intros ? ?%elem_of_nil|by intros ? ? ?%elem_of_nil].
    split; [by apply accounts_start|done|by left]. }
  unfold load_manifest.
  destruct (load_items_ok [] ps l0 [] "" 0 H0 Hps Hin) as (l1 & held1 & msg & n & Heq & Hld).
  simpl in Heq, Hld. rewrite Heq. cbn [and_then]. rewrite validated_same by done.
  pose proof (ld_accounts _ _ _ Hld) as Ht. pose proof (ta_accounts _ _ _ _ Ht) as Ha.
  assert (in_store ps l1) as Hst.
  { intros p Hp. split; [|by apply (ld_images _ _ _ Hld)]. apply (ac_loaded _ _ _ _ Ha).
    apply elem_of_list_to_set. by apply list_elem_of_fmap_2. }
  destruct (set_parents_ok ps ps l1 (ac_inv _ _ _ _ Ha) (ld_family _ _ _ Hld) Hst Hps Hpar)
    as (l2 & Hset & Hpa); [done..|].
  pose proof (set_parents_accounts l0 _ held1 l1 (link_of <$> ps) Ht) as Hacc.
  rewrite Hset in Hacc. unfold on_te. cbn [fst snd]. rewrite Hset. cbn [and_then fst snd].
  set (s3 := if decide (n = 0) then _ else _).
  assert (te_is s3.1 = te_is l2 ∧ te_rs s3.1 = te_rs l2 ∧ s3.2 = held1) as (His3 & Hrs3 & Hheld)
    by (subst s3; by case_decide).
  clearbody s3. unfold with_releases. destruct s3 as [l3 held3]. simpl in *. subst held3.
  assert (te_accounts l0 (list_to_set (pk_id <$> ps)) held1 l3) as Ht3.
  { destruct Hacc as [Ha' Hr' Htags']; [|split; rewrite ?His3, ?Hrs3; done].
    apply Forall_fmap, Forall_forall. intros p Hp. simpl.
    split; [by apply elem_of_list_to_set, list_elem_of_fmap_2|]. intros Hpp.
    destruct (Hpar p Hp Hpp) as (q & Hq & <- & _). by apply elem_of_list_to_set, list_elem_of_fmap_2. }
  assert (in_store ps l3) as Hst3.
  { intros p Hp. rewrite His3. destruct (Hst p Hp). rewrite (pa_contents _ _ _ Hpa).
    split; [by apply (pa_images _ _ _ Hpa)|done]. }
  destruct (release_all_ok _ held1 l3 ps Ht3 Hst3 Hps) as (s' & -> & Ht' & Hl').
  { intros p Hp. rewrite His3, (pa_layers _ _ _ Hpa). by apply (ld_images _ _ _ Hld). }
  eexists. split; [done|]. split; [by eexists|..]; simpl; rewrite ?His3, ?Hrs3; try done.
  - apply family_ls, (pa_family _ _ _ Hpa).
  - intros p Hp. destruct (Hst3 p Hp) as [Hi Hc]. by rewrite His3 in Hi, Hc.
  - intros p. apply (pa_parents _ _ _ Hpa).
  - intros p r Hp Hr. rewrite (pa_refs _ _ _ Hpa). apply (ld_refs _ _ _ Hld p r Hp Hr).
    rewrite Forall_forall in Hps. pose proof (po_refs _ _ (Hps p Hp)) as Hrefs.
    rewrite Forall_forall in Hrefs. by apply Hrefs.
  - intros i Hi. rewrite (pa_contents _ _ _ Hpa). by apply (ld_contents _ _ _ Hld).
  - intros i Hi. rewrite (pa_others _ _ _ Hpa) by done. apply Hld.
  - intros r Hr Hno. rewrite (pa_refs _ _ _ Hpa). by apply (ld_tags _ _ _ Hld).
Qed.

(** A directory with a manifest. *)
Lemma Load_ok ps data :
  t !! [manifestFileName] = Some (NFile data) → manifest_Decode data = inr (pk_item <$> ps) →
  destination l0 → Forall (packed_ok t) ps → Forall (λ p, pk_ds p ∈ dss) ps →
  parents_ok ps → NoDup (pk_id <$> ps) →
  ∃ l', Load l0 (inr t) (path_of tmp) = (l', Ok tt) ∧ restored ps l'.
Proof using Htmp Hne Hroot Hdist client hexd dlaws bsafe rlaws.
  intros Hfile Hdec Hdn Hps Hin Hpar Hnd. unfold Load.
  destruct (read_top t tmp Htmp Hne Hroot manifestFileName data manifest_normal Hfile) as (path & -> & Hread).
  cbn [and_then]. rewrite Hread, Hdec. cbn [and_then of_either]. by apply load_manifest_ok.
Qed.
End directory.
End items.
