(* ===== verification/TarExportSave.v ===== *)
(** * The directory that Save writes

    With stores without I/O errors, Save of images whose layers are in the store
    succeeds, and the directory holds the images as Load reads them. *)

From S2P Require Import Prelude GoStrings GoPath Symlink Layer LayerInv ImageStore ImageInv ImageFamily RefStore RefInv ImageDelete TarExport TarExportInv TarExportPath TarExportLoad TarExportItems.
#[local] Open Scope nat_scope.

Lemma hex_not_json v h : hex_name v → v ≠ h +:+ ".json".
Proof.
  intros [_ Hv] ->. pose proof (hex_char_name "." (h +:+ ".json") ltac:(done) Hv) as Hc.
  rewrite contains_char_app in Hc. apply orb_false_iff in Hc as [_ Hc]. done.
Qed.

Lemma saved_layer_mono {Desc : Type} `{LayerExt string Desc} (t t' : tree) v d :
  t ⊆ t' → saved_layer t v d → saved_layer t' v d.
Proof.
  intros Hsub (Hv & Hdir & data & Hok & Hd & Hfile). pose proof (λ k x, lookup_weaken t t' k x) as Hw.
  split; [done|]. split; [by apply Hw|]. exists data. split_and!; [done..|].
  destruct Hfile as [Hfile|(o & Ho & Hod & Hof & Hl)]; [left; by apply Hw|right].
  exists o. split_and!; [done|by apply Hw..].
Qed.

(** Values that are always encoded, and manifests that are read back; a range statement
    visits every entry once. *)
Class EncodingLaws `{TarExportExt} `{MapOrder} := {
  el_v1 v : ∃ c m, v1_Marshal v = inr c ∧ map_Unmarshal c = inr m;
  el_map m : ∃ c, map_Marshal m = inr c;
  el_manifest m : manifest_Decode (manifest_Encode m) = inr m;
  el_range {A} (m : gmap string A) : map_range m ≡ₚ map_to_list m
}.

Section saving.
Context {F L DS Desc : Type}.
Context {be : StoreBackend F} {lg : LayerGetReleaser L} {holder : LayerHolder L}.
Context {reg : LayerRegistry L} {client : LayerClient L}.
Context {dset : DigestSet DS} {ext : LayerExt string Desc} {iext : ImageExt} {rext : RefExt}.
Context {text : TarExportExt} {order : MapOrder}.
Context {rel : ReliableBackend F} {rlayers : ReliableLayers L} {hexd : HexDigests} {enc : EncodingLaws}.

Abbreviation store := (imageStore F L DS).
Abbreviation exporter := (tarexporter F L DS).
Abbreviation session := (saveSession F L DS).
Implicit Types (st : store) (l : exporter) (s : session).

Section source.
Context (tmp : list string) (Htmp : Forall normal tmp) (Hne : tmp ≠ []).
Context (dss : list (list string)) (fs : F).

(** The layers [dss] are in the store, and somebody holds a reference on each. *)
Record source st : Prop := {
  sr_fs : is_fs st = fs;
  sr_ok : lg_ok (is_ls st);
  sr_layer ds p d : ds ∈ dss → p ++ [d] `prefix_of` ds →
    ∃ data, tar_ok data ∧ tar_Digest data = d ∧
      lc_layer (is_ls st) (CreateChainID (p ++ [d])) = Some (data, CreateChainID p);
  sr_ref ds : ds ∈ dss → ∃ r, lg_ref (is_ls st) (CreateChainID ds) r
}.

(** Besides [r]. *)
Definition borrowed st r : Prop :=
  source st ∧ ∀ ds, ds ∈ dss → ∃ r0, lg_ref (is_ls st) (CreateChainID ds) r0 ∧ r0 ≠ r.

Lemma source_layered st ds : source st → ds ∈ dss → layered (lc_layer (is_ls st)) ds.
Proof using.
  intros Hs Hds p d Hp. destruct (sr_layer _ Hs ds p d Hds Hp) as (data & _ & Hd & Hc). by exists data.
Qed.

Lemma source_same st (s : L) :
  source st → lg_ok s → (∀ c r, lg_ref (is_ls st) c r → lg_ref s c r) →
  (∀ c, lc_layer s c = lc_layer (is_ls st) c) → source (with_ls st s).
Proof using.
  intros [] Hok Hr Hl. split; simpl; [done..| |].
  - intros ds p d Hds Hp. rewrite Hl. eauto.
  - intros ds Hds. destruct (sr_ref0 ds Hds) as [r ?]. eauto.
Qed.

Lemma source_Get st ds p d :
  source st → ds ∈ dss → p ++ [d] `prefix_of` ds →
  ∃ (s : L) r, lg_Get (is_ls st) (CreateChainID (p ++ [d])) = (s, Ok r) ∧ borrowed (with_ls st s) r ∧
    lg_ref s (CreateChainID (p ++ [d])) r.
Proof using client.
  intros Hs Hds Hp. set (c := CreateChainID (p ++ [d])).
  destruct (sr_layer _ Hs ds p d Hds Hp) as (data & _ & _ & Hc). fold c in Hc.
  destruct (rl_Get (is_ls st) c (sr_ok _ Hs)) as [Hlook Hget]. rewrite Hc in Hget. destruct Hget as [r Hr].
  pose proof (lg_Get_spec (is_ls st) c (sr_ok _ Hs)) as Hspec.
  destruct (lg_Get (is_ls st) c) as [s o]. simpl in *. subst o. destruct Hspec as (Hok & Href & Hkeep).
  exists s, r. split; [done|]. split; [|done]. split.
  - apply source_same; [done..|intros c' r' Hr'; by apply Hkeep|done].
  - intros ds' Hds'. destruct (sr_ref _ Hs ds' Hds') as [r0 Hr0]. exists r0. by apply Hkeep.
Qed.

Lemma source_TarStream st r c :
  borrowed st r → lg_ref (is_ls st) c r →
  ∃ (s : L) data q, st_TarStream (is_ls st) r = (s, Ok data) ∧ lc_layer (is_ls st) c = Some (data, q) ∧
    borrowed (with_ls st s) r ∧ lg_ref s c r.
Proof using client.
  intros [Hs Hb] Hr. destruct (rl_content (is_ls st) c r (sr_ok _ Hs) Hr) as (data & q & Hc & _ & Hts & Hlook).
  pose proof (lc_TarStream (is_ls st) c r (sr_ok _ Hs) Hr) as Hspec.
  destruct (st_TarStream (is_ls st) r) as [s o]. simpl in *. subst o. destruct Hspec as [Hok Hrefs].
  exists s, data, q. split_and!; [done|done| |by apply Hrefs]. split.
  - apply source_same; [done..|intros c' r' Hr'; by apply Hrefs|done].
  - intros ds Hds. destruct (Hb ds Hds) as (r0 & Hr0 & Hn). exists r0. split; [by apply Hrefs|done].
Qed.

Lemma source_Release st r c :
  borrowed st r → lg_ref (is_ls st) c r →
  ∃ (s : L) md, lg_Release (is_ls st) r = (s, Ok md) ∧ source (with_ls st s).
Proof using client.
  intros [Hs Hb] Hr. destruct (rl_Release (is_ls st) c r (sr_ok _ Hs) Hr) as [[md Hmd] Hkeep].
  pose proof (lg_Release_spec (is_ls st) c r (sr_ok _ Hs) Hr) as Hspec.
  destruct (lg_Release (is_ls st) r) as [s o]. simpl in *. subst o. destruct Hspec as (Hok & _ & Hrefs).
  exists s, md. split; [done|]. split; simpl; [apply Hs|done| |].
  - intros ds p d Hds Hp. destruct (Hb ds Hds) as (r0 & Hr0 & Hn).
    rewrite (Hkeep ds r0); [by apply (sr_layer _ Hs ds)|done|done|by apply source_layered|done|by destruct p].
  - intros ds Hds. destruct (Hb ds Hds) as (r0 & Hr0 & Hn). exists r0. by apply Hrefs.
Qed.

(** ** The session *)

(** The directories of the layers and their diff identifiers. *)
Context (pairs : list (string * string)).
Context (Hpairs : ∀ v d d', (v, d) ∈ pairs → (v, d') ∈ pairs → d = d').

(** The files are the directories of saved layers and the configurations of the images
    [done], given by their digests in hexadecimal. *)
Record session_ok (done : list string) s : Prop := {
  so_faults : ss_faults s = [];
  so_source : source (te_is (ss_te s));
  so_done : Forall hex_name done;
  so_saved v : v ∈ ss_savedLayers s → ∃ d, (v, d) ∈ pairs ∧ saved_layer (ss_tree s) v d;
  so_keys k : is_Some (ss_tree s !! k) →
    (∃ v rest, k = v :: rest ∧ v ∈ ss_savedLayers s) ∨ ∃ h, h ∈ done ∧ k = [h +:+ ".json"];
  so_paths d path : ss_diffIDPaths s !! d = Some path →
    ∃ o data, hex_name o ∧ path = path_of (tmp ++ [o; legacyLayerFileName]) ∧
      ss_tree s !! [o] = Some NDir ∧ ss_tree s !! [o; legacyLayerFileName] = Some (NFile data) ∧
      tar_ok data ∧ tar_Digest data = d
}.

Lemma fresh_dir done s v rest :
  session_ok done s → hex_name v → v ∉ ss_savedLayers s → ss_tree s !! (v :: rest) = None.
Proof using.
  intros Hs Hv Hnew. destruct (ss_tree s !! (v :: rest)) eqn:Hk; [|done].
  destruct (so_keys _ _ Hs (v :: rest)) as [(v' & rest' & [= -> ->] & Hin)|(h & _ & [= Heq _])];
    [by eauto|done|]. by apply (hex_not_json v h) in Heq.
Qed.

Lemma on_dir_ok s f t :
  ss_faults s = [] → f (ss_tree s) = Ok t →
  on_dir s f = (mkSession (ss_te s) t [] (ss_images s) (ss_savedLayers s) (ss_diffIDPaths s), Ok tt).
Proof using. intros Hf Ht. unfold on_dir. by rewrite Hf, Ht. Qed.

(** The tree changed inside the new directory [v] only. *)
Definition only_in (v : string) (t t' : tree) : Prop := ∀ k, (∀ rest, k ≠ v :: rest) → t' !! k = t !! k.

Lemma only_in_insert v t rest x t' : only_in v t t' → only_in v t (<[v :: rest := x]> t').
Proof using. intros Ho k Hk. rewrite lookup_insert_ne; [by apply Ho|]. intros <-. by destruct (Hk rest). Qed.

Lemma only_in_grows v t t' : (∀ rest, t !! (v :: rest) = None) → only_in v t t' → t ⊆ t'.
Proof using.
  intros Hnew Ho. apply map_subseteq_spec. intros k x Hk. rewrite Ho; [done|].
  intros rest ->. by rewrite Hnew in Hk.
Qed.

(** Adding the directory [v]. *)
Lemma session_add done s te t' v d paths :
  session_ok done s → hex_name v → v ∉ ss_savedLayers s → only_in v (ss_tree s) t' →
  source (te_is te) → (v, d) ∈ pairs → saved_layer t' v d →
  (∀ d' path, paths !! d' = Some path → ss_diffIDPaths s !! d' = Some path ∨
     path = path_of (tmp ++ [v; legacyLayerFileName]) ∧ ∃ data,
       t' !! [v; legacyLayerFileName] = Some (NFile data) ∧ tar_ok data ∧ tar_Digest data = d') →
  session_ok done (mkSession te t' [] (ss_images s) ({[v]} ∪ ss_savedLayers s) paths).
Proof using Hne.
  intros Hs Hv Hnew Ho Hsrc Hp Hl Hpaths.
  pose proof (only_in_grows v _ _ (λ rest, fresh_dir done s v rest Hs Hv Hnew) Ho) as Hsub.
  split; simpl; [done|done|apply Hs| | |].
  - intros v' [->%elem_of_singleton|Hv']%elem_of_union; [by exists d|].
    destruct (so_saved _ _ Hs v' Hv') as (d' & Hp' & Hl'). exists d'. split; [done|]. by eapply saved_layer_mono.
  - intros k Hk. destruct (decide (head k = Some v)) as [Hh|Hh].
    + destruct k as [|v' rest]; simplify_eq/=. left. exists v, rest. split; [done|].
      apply elem_of_union. left. by apply elem_of_singleton.
    + rewrite Ho in Hk by (by intros rest ->). destruct (so_keys _ _ Hs k Hk) as [(v' & rest & -> & Hin)|Hc]; [left|by right].
      exists v', rest. split; [done|]. apply elem_of_union. by right.
  - intros d' path [Hold|(-> & data & Hdata & Hok & Hd)]%Hpaths.
    + destruct (so_paths _ _ Hs d' path Hold) as (o & data & Ho' & -> & Hod & Hof & Hok & Hd).
      exists o, data. split_and!; [done|done|by eapply lookup_weaken..|done|done].
    + exists v, data. destruct Hl as (_ & Hdir & _). by split_and!.
Qed.

Lemma session_release_ok te t faults images saved paths r c :
  borrowed (te_is te) r → lg_ref (is_ls (te_is te)) c r →
  ∃ te', session_release (mkSession te t faults images saved paths, Ok tt) r =
      (mkSession te' t faults images saved paths, Ok tt) ∧ source (te_is te').
Proof using client.
  intros Hb Hr. destruct (source_Release _ r c Hb Hr) as (x & md & Hrel & Hs).
  unfold session_release, on_session, on_ls, on_is, call_ls. cbn [ss_te]. rewrite Hrel.
  eexists. split; [done|]. exact Hs.
Qed.

(** The stream of a layer, while the reference [r] on it is held: [t3] is the tree with the
    new directory. *)
Section stream.
Context (done : list string) (s : session) (d v c : string) (data : string).
Context (te1 : exporter) (t3 : tree) (r : Layer) (q : string).
Context (Hs : session_ok done s) (Hv : hex_name v) (Hnew : v ∉ ss_savedLayers s) (Hpair : (v, d) ∈ pairs).
Context (Ho3 : only_in v (ss_tree s) t3) (Hdir3 : t3 !! [v] = Some NDir).
Context (Hnone3 : t3 !! [v; legacyLayerFileName] = None).
Context (Hb : borrowed (te_is te1) r) (Hr : lg_ref (is_ls (te_is te1)) c r).
Context (Hlook : lc_layer (is_ls (te_is te1)) c = Some (data, q)) (Htar : tar_ok data) (Hd : tar_Digest data = d).

(** A link to a stream that was written before. *)
Lemma link_stream_ok old :
  ss_diffIDPaths s !! d = Some old →
  ∃ rel, filepath_Rel (path_of (tmp ++ [v])) old = Ok rel ∧
    let t4 := <[[v; legacyLayerFileName] := NLink rel]> t3 in
    only_in v (ss_tree s) t4 ∧ saved_layer t4 v d.
Proof using Htmp Hne Hs Hv Hnew Ho3 Hdir3.
  pose proof (λ rest, fresh_dir done s v rest Hs Hv Hnew) as Hfresh. intros Hold.
  destruct (so_paths _ _ Hs d old Hold) as (o & data0 & Ho & -> & Hod & Hof & Htar0 & Hd0).
  assert (v ≠ o) as Hvo by (intros <-; by rewrite (Hfresh []) in Hod).
  exists ("../" +:+ o +:+ "/" +:+ legacyLayerFileName).
  split; [apply Rel_sibling; [done|by apply hex_normal..|apply layer_name_normal|done]|].
  intros t4. assert (only_in v (ss_tree s) t4) as Ho4 by (by apply only_in_insert). split; [done|].
  pose proof (only_in_grows v _ _ Hfresh Ho4) as Hsub.
  split; [done|]. split; [unfold t4; by rewrite lookup_insert_ne|]. exists data0. split_and!; [done..|right].
  exists o. split_and!; [done|by eapply lookup_weaken..|]. unfold t4. by rewrite lookup_insert_eq.
Qed.

Lemma save_layer_tar_ok :
  ∃ s', session_release (save_layer_tar (mkSession te1 t3 [] (ss_images s) (ss_savedLayers s) (ss_diffIDPaths s))
      (path_of tmp) v r) r = (s', Ok tt) ∧ session_ok done s' ∧
    ss_tree s ⊆ ss_tree s' ∧ saved_layer (ss_tree s') v d ∧ ss_images s' = ss_images s.
Proof using Htmp Hne client Hs Hv Hnew Hpair Ho3 Hdir3 Hnone3 Hb Hr Hlook Htar Hd.
  pose proof (λ rest, fresh_dir done s v rest Hs Hv Hnew) as Hfresh.
  destruct (rl_content _ c r (sr_ok _ (proj1 Hb)) Hr) as (data' & q' & Hlook' & Hdiff & _).
  assert (data' = data) as -> by congruence.
  unfold save_layer_tar. cbn [ss_te ss_diffIDPaths ss_tree]. rewrite Hdiff, Hd.
  rewrite (Join_one tmp v Htmp (hex_normal v Hv)).
  destruct (ss_diffIDPaths s !! d) as [old|] eqn:Hold.
  - destruct (link_stream_ok old Hold) as (relp & -> & Ho4 & Hl). cbn [and_then].
    erewrite on_dir_ok; [|done|by unfold os_Symlink; cbn [ss_tree]; rewrite decide_False by (rewrite Hnone3; by intros [])].
    cbn [ignore_error and_then ss_te ss_tree ss_images ss_savedLayers ss_diffIDPaths ss_faults].
    edestruct (session_release_ok te1) as (te2 & -> & Hsrc); [exact Hb|exact Hr|].
    eexists. split; [done|]. split; [|split_and!; [by eapply only_in_grows|done..]].
    apply (session_add done s te2 _ v d); try done. by left.
  - erewrite on_dir_ok; [|done|done]. cbn [and_then]. unfold on_session, on_ls, on_is, call_ls.
    cbn [ss_te ss_tree ss_images ss_savedLayers ss_diffIDPaths ss_faults].
    destruct (source_TarStream _ r c Hb Hr) as (x2 & data2 & q2 & -> & Hlook2 & Hb2 & Hr2).
    assert (data2 = data) as -> by congruence. cbn [and_then].
    erewrite on_dir_ok; [|done|done]. cbn [and_then ss_te ss_tree ss_images ss_savedLayers ss_diffIDPaths ss_faults].
    rewrite (Join_one (tmp ++ [v]) legacyLayerFileName);
      [|by apply Forall_app; split; [|constructor; [apply hex_normal|]]|apply layer_name_normal].
    rewrite <- app_assoc. edestruct (session_release_ok (with_is te1 (with_ls (te_is te1) x2)))
      as (te3 & -> & Hsrc); [exact Hb2|exact Hr2|].
    set (t4 := <[[v; legacyLayerFileName] := NFile data]> _).
    assert (only_in v (ss_tree s) t4) as Ho4 by (by repeat apply only_in_insert).
    assert (t4 !! [v; legacyLayerFileName] = Some (NFile data)) as Hf4 by (unfold t4; by rewrite lookup_insert_eq).
    assert (saved_layer t4 v d) as Hl.
    { split; [done|]. split; [unfold t4; by rewrite !lookup_insert_ne|]. exists data. by split_and!; [..|left]. }
    eexists. split; [done|]. split; [|split_and!; [by eapply only_in_grows|done..]].
    apply (session_add done s te3 t4 v d); try done.
    intros d' path. rewrite lookup_insert. case_decide as Heq; [|by left].
    intros [= <-]. right. split; [done|]. exists data. by subst d'.
Qed.
End stream.

Lemma saveLayer_ok done s ds p d img cfg :
  session_ok done s → hex_name (v1_ID img) → (v1_ID img, d) ∈ pairs → ds ∈ dss → p ++ [d] `prefix_of` ds →
  v1_Marshal img = inr cfg →
  ∃ s', saveLayer s (path_of tmp) (CreateChainID (p ++ [d])) img = (s', Ok tt) ∧ session_ok done s' ∧
    ss_tree s ⊆ ss_tree s' ∧ saved_layer (ss_tree s') (v1_ID img) d ∧ ss_images s' = ss_images s.
Proof using Htmp Hne Hpairs client.
  intros Hs Hv Hpair Hds Hp Hcfg. set (v := v1_ID img) in *. unfold saveLayer. fold v.
  destruct (decide (v ∈ ss_savedLayers s)) as [Hin|Hnew].
  { exists s. split_and!; [done..| |done]. destruct (so_saved _ _ Hs v Hin) as (d' & Hp' & Hl).
    by rewrite (Hpairs v d d' Hpair Hp'). }
  pose proof (λ rest, fresh_dir done s v rest Hs Hv Hnew) as Hfresh.
  rewrite (on_dir_ok s (os_Mkdir [v]) (<[[v] := NDir]> (ss_tree s)));
    [|apply Hs|unfold os_Mkdir; rewrite Hfresh; by rewrite decide_False by (by intros [])].
  cbn [and_then]. erewrite on_dir_ok; [|done|done]. cbn [and_then]. rewrite Hcfg. cbn [and_then of_either].
  erewrite on_dir_ok; [|done|done]. cbn [and_then ss_te ss_tree ss_images ss_savedLayers ss_diffIDPaths].
  destruct (source_Get _ ds p d (so_source _ _ Hs) Hds Hp) as (x1 & r & Hget & Hb & Hr).
  unfold on_session at 1. unfold on_ls, on_is, call_ls. cbn [ss_te]. rewrite Hget. cbn [and_then].
  destruct (sr_layer _ (proj1 Hb) ds p d Hds Hp) as (data & Htar & Hd & Hlook).
  cbn [ss_te ss_tree ss_images ss_savedLayers ss_diffIDPaths ss_faults].
  eapply (save_layer_tar_ok done s d v _ data _ _ r); try done.
  - by repeat apply only_in_insert.
  - by rewrite !lookup_insert_ne, lookup_insert_eq by done.
  - rewrite !lookup_insert_ne by done. apply Hfresh.
Qed.

(** ** The layers of an image *)

Definition v1_id (img : V1Image) (layerID parent : string) : string :=
  match CreateID img layerID parent with Ok id => id | _ => "" end.

(** The names of the directories of the layers [ds], above the layers [pre]. *)
Fixpoint v1_names (v1Img : V1Image) (pre ds : list string) (parent : string) : list string :=
  match ds with
  | [] => []
  | d :: ds =>
      let id := v1_id (if decide (ds = []) then v1Img else v1_zero) (CreateChainID (pre ++ [d])) parent in
      hex_of id :: v1_names v1Img (pre ++ [d]) ds id
  end.

Lemma CreateID_ok img layerID parent :
  CreateID img layerID parent = Ok (v1_id img layerID parent) ∧
  ∃ c, v1_id img layerID parent = digest_FromBytes c.
Proof using enc.
  unfold v1_id, CreateID. destruct (el_v1 (with_v1_ID img "")) as (c & m & -> & Hm). simpl. rewrite Hm. simpl.
  match goal with |- context [map_Marshal ?x] => destruct (el_map x) as [c' ->] end. simpl. eauto.
Qed.

Lemma digest_Hex_ok c : digest_Hex (digest_FromBytes c) = Ok (hex_of (digest_FromBytes c)).
Proof using hexd. destruct (hd_hex c) as (h & -> & _). done. Qed.

Lemma save_layers_ok done s v1Img ty pre ds parent layers :
  session_ok done s → pre ++ ds ∈ dss → parent = "" ∨ (∃ c, parent = digest_FromBytes c) →
  zip (v1_names v1Img pre ds parent) ds ⊆ pairs →
  ∃ s', save_layers s (path_of tmp) v1Img (mkRootFS ty pre) ds parent layers =
      (s', Ok (layers ++ v1_names v1Img pre ds parent)) ∧ session_ok done s' ∧ ss_tree s ⊆ ss_tree s' ∧
    Forall2 (saved_layer (ss_tree s')) (v1_names v1Img pre ds parent) ds ∧ ss_images s' = ss_images s.
Proof using Htmp Hne Hpairs client hexd enc.
  revert s pre parent layers. induction ds as [|d ds IH]; intros s pre parent layers Hs Hin Hparent Hsub.
  { exists s. simpl. rewrite app_nil_r. by split_and!. }
  cbn [save_layers v1_names] in *. set (img := if decide (ds = []) then v1Img else v1_zero) in *.
  change (RootFS_ChainID (RootFS_Append (mkRootFS ty pre) d)) with (CreateChainID (pre ++ [d])).
  destruct (CreateID_ok img (CreateChainID (pre ++ [d])) parent) as [-> [c Hc]].
  set (id := v1_id img (CreateChainID (pre ++ [d])) parent) in *. cbn [and_then].
  assert (digest_Hex id = Ok (hex_of id)) as -> by (rewrite Hc; apply digest_Hex_ok). cbn [and_then].
  assert (∃ ph, (if decide (parent ≠ "") then digest_Hex parent else Ok (v1_Parent img)) = Ok ph) as [ph ->].
  { case_decide; [|eauto]. destruct Hparent as [->|[c' ->]]; [done|]. rewrite digest_Hex_ok. eauto. }
  cbn [and_then]. set (img' := with_v1_Parent (with_v1_ID img (hex_of id)) ph).
  destruct (el_v1 img') as (cfg & _ & Hcfg & _).
  destruct (saveLayer_ok done s (pre ++ d :: ds) pre d img' cfg Hs) as (s1 & -> & Hs1 & Hsub1 & Hl1 & Him1);
    [|apply Hsub; by left|done|by exists ds; rewrite <- app_assoc|done|].
  { simpl. rewrite Hc. by destruct (digest_hex c) as (h & _ & -> & Hh). }
  cbn [and_then]. rewrite cons_middle, app_assoc in Hin.
  change (RootFS_Append (mkRootFS ty pre) d) with (mkRootFS ty (pre ++ [d])).
  destruct (IH s1 (pre ++ [d]) id (layers ++ [hex_of id]) Hs1 Hin) as (s2 & -> & Hs2 & Hsub2 & Hl2 & Him2);
    [by eauto|intros x Hx; apply Hsub; by right|].
  exists s2. rewrite <- app_assoc. split_and!; [done|done|by etrans| |by rewrite Him2].
  constructor; [|done]. by eapply saved_layer_mono.
Qed.

(** ** Images *)

Context (Hfs : rb_ok fs).

Definition content_of (id : string) : string := default "" (rb_content fs id).
Definition parent_of (id : string) : string := default "" (rb_parent fs id).
Definition ds_of (config : string) : list string :=
  match json_Unmarshal config with inr img => from_option rfs_DiffIDs [] (img_RootFS img) | inl _ => [] end.
Definition names_of (config : string) : list string := v1_names (image_V1 config) [] (ds_of config) "".

(** An image of the source that can be saved. *)
Record saveable (id : string) : Prop := {
  sv_content : is_Some (rb_content fs id);
  sv_id : digest_FromBytes (content_of id) = id;
  sv_config : config_ok (content_of id) (ds_of (content_of id));
  sv_layers : ds_of (content_of id) ∈ dss;
  sv_pairs : zip (names_of (content_of id)) (ds_of (content_of id)) ⊆ pairs
}.

Lemma saveable_hex id : saveable id → digest_Hex id = Ok (hex_of id).
Proof using hexd. intros Hid. rewrite <- (sv_id _ Hid). apply digest_Hex_ok. Qed.

Lemma on_session_same {A} s (f : exporter → exporter * outcome string A) o :
  f (ss_te s) = (ss_te s, o) → on_session s f = (s, o).
Proof using. intros Hf. unfold on_session. rewrite Hf. by destruct s. Qed.

Lemma on_is_same {A} l (f : store → store * outcome string A) o :
  f (te_is l) = (te_is l, o) → on_is l f = (l, o).
Proof using. intros Hf. unfold on_is. rewrite Hf. by destruct l. Qed.

(** The configuration of an image. *)
Lemma session_config done s h config images :
  session_ok done s → hex_name h → h ∉ done →
  session_ok (h :: done) (mkSession (ss_te s) (<[[h +:+ ".json"] := NFile config]> (ss_tree s)) []
    images (ss_savedLayers s) (ss_diffIDPaths s)) ∧
  ss_tree s ⊆ <[[h +:+ ".json"] := NFile config]> (ss_tree s).
Proof using.
  intros Hs Hh Hnew. assert (ss_tree s ⊆ <[[h +:+ ".json"] := NFile config]> (ss_tree s)) as Hsub.
  { apply insert_subseteq. destruct (ss_tree s !! [h +:+ ".json"]) eqn:Hk; [|done].
    destruct (so_keys _ _ Hs [h +:+ ".json"]) as [(v & rest & [= <- <-] & Hin)|(h' & Hin & [= Heq])]; [by eauto|..].
    - destruct (so_saved _ _ Hs _ Hin) as (d & _ & Hv & _). by apply (hex_not_json _ h) in Hv.
    - destruct (append_last_inj "." h h' "json" "json" eq_refl eq_refl Heq) as [-> _]. done. }
  split; [|done]. split; simpl; [done|apply Hs|constructor; [done|apply Hs]|..].
  - intros v Hv. destruct (so_saved _ _ Hs v Hv) as (d & Hp & Hl). exists d. split; [done|]. by eapply saved_layer_mono.
  - intros k. rewrite lookup_insert. case_decide as Hk.
    + intros _. right. exists h. split; [by left|done].
    + intros [?|(h' & Hin & ->)]%(so_keys _ _ Hs); [by left|right]. exists h'. split; [by right|done].
  - intros d path Hp. destruct (so_paths _ _ Hs d path Hp) as (o & data & ? & ? & ? & ? & ? & ?).
    exists o, data. split_and!; [done|done|by eapply lookup_weaken..|done|done].
Qed.

Lemma saveImage_ok done s id :
  session_ok done s → saveable id → hex_of id ∉ done →
  ∃ s', saveImage s (path_of tmp) id = (s', Ok tt) ∧ session_ok (hex_of id :: done) s' ∧
    ss_tree s ⊆ ss_tree s' ∧ ss_tree s' !! [hex_of id +:+ ".json"] = Some (NFile (content_of id)) ∧
    Forall2 (saved_layer (ss_tree s')) (names_of (content_of id)) (ds_of (content_of id)) ∧
    ss_images s' = alter (λ d, mkDescr (id_refs d) (names_of (content_of id))) id (ss_images s).
Proof using Htmp Hne Hpairs client hexd enc Hfs.
  intros Hs Hid Hnew. destruct (sv_config _ Hid) as (_ & Hds & _ & _ & img & ty & Hj & Hr & _).
  assert (rb_content (is_fs (te_is (ss_te s))) id = Some (content_of id)) as Hc.
  { rewrite (sr_fs _ (so_source _ _ Hs)). unfold content_of. by destruct (sv_content _ Hid) as [c ->]. }
  unfold saveImage. erewrite on_session_same; [|apply on_is_same, (image_Get_ok _ _ (content_of id) img);
    [by rewrite (sr_fs _ (so_source _ _ Hs))|exact Hc|done|by rewrite Hr]].
  cbn [and_then img_RootFS img_rawJSON]. rewrite Hr. cbn [rfs_DiffIDs rfs_Type].
  rewrite decide_False by done.
  destruct (save_layers_ok done s (image_V1 (content_of id)) ty [] (ds_of (content_of id)) "" [])
    as (s1 & -> & Hs1 & Hsub1 & Hl1 & Him1); [done|apply Hid|by left|apply Hid|].
  cbn [and_then]. rewrite (saveable_hex id Hid). cbn [and_then].
  erewrite on_dir_ok; [|apply Hs1|done]. cbn [and_then ss_te ss_tree ss_images ss_savedLayers ss_diffIDPaths ss_faults].
  assert (hex_name (hex_of id)) as Hh.
  { rewrite <- (sv_id _ Hid). by destruct (digest_hex (content_of id)) as (h & _ & -> & Hh). }
  destruct (session_config done s1 (hex_of id) (content_of id)
    (alter (λ d, mkDescr (id_refs d) (names_of (content_of id))) id (ss_images s1)) Hs1 Hh Hnew) as [Hs2 Hsub2].
  eexists. split; [done|]. split; [exact Hs2|]. simpl. split_and!.
  - by etrans.
  - apply lookup_insert_eq.
  - eapply Forall2_impl; [exact Hl1|]. intros v d. by apply saved_layer_mono.
  - by rewrite Him1.
Qed.

Definition refs_of (images : gmap string imageDescriptor) (id : string) : list Named :=
  id_refs (default (mkDescr [] []) (images !! id)).
Definition pack (images : gmap string imageDescriptor) (parent : string → string) (id : string) : packed :=
  mkPacked (content_of id) (ds_of (content_of id)) (names_of (content_of id)) (refs_of images id) (parent id).

(** The image is written. *)
Definition written (t : tree) (id : string) : Prop :=
  t !! [hex_of id +:+ ".json"] = Some (NFile (content_of id)) ∧
  Forall2 (saved_layer t) (names_of (content_of id)) (ds_of (content_of id)).

Lemma written_mono t t' id : t ⊆ t' → written t id → written t' id.
Proof using.
  intros Hsub [Hc Hl]. split; [by eapply lookup_weaken|].
  eapply Forall2_impl; [exact Hl|]. intros v d. by apply saved_layer_mono.
Qed.

Lemma GetParent_session done s id :
  session_ok done s → saveable id →
  or_none (on_session s (λ l, on_is l (λ x, imageStore_GetParent x id))) = (s, Ok (rb_parent fs id)).
Proof using Hfs Hne.
  intros Hs Hid. pose proof (sr_fs _ (so_source _ _ Hs)) as Heq.
  assert (valid_id id) as Hv by (eapply rb_valid; [exact Hfs|apply Hid]).
  pose proof (GetParent_reliable (te_is (ss_te s)) id) as Hp. rewrite Heq in Hp. specialize (Hp Hfs Hv).
  unfold on_session, on_is. destruct (imageStore_GetParent (te_is (ss_te s)) id) as [st o].
  assert (st = te_is (ss_te s)) as -> by (by destruct o; simplify_eq/=).
  replace (with_is (ss_te s) (te_is (ss_te s))) with (ss_te s) by (by destruct (ss_te s)).
  destruct s. destruct o; simpl in *; congruence.
Qed.

Lemma names_last config : config_ok config (ds_of config) → ∃ top, last (names_of config) = Some top.
Proof using.
  intros (_ & Hds & _). unfold names_of. destruct (ds_of config) as [|d ds]; [done|]. simpl.
  rewrite last_cons. destruct (last _); eauto.
Qed.

Lemma alter_descr images id layers i :
  let images' := alter (λ d, mkDescr (id_refs d) layers) id images in
  refs_of images' i = refs_of images i ∧ (is_Some (images !! i) → is_Some (images' !! i)).
Proof using.
  simpl. unfold refs_of. rewrite lookup_alter. case_decide; [|done]. subst i.
  destruct (images !! id); simpl; [|done]. eauto.
Qed.

Lemma save_images_ok done s ids manifest links repos :
  session_ok done s → Forall saveable ids → NoDup ((hex_of <$> ids) ++ done) →
  (∀ id, id ∈ ids → is_Some (ss_images s !! id)) →
  ∃ s' done' repos', save_images s (path_of tmp) ids manifest links repos =
      (s', Ok (manifest ++ ((λ id, pk_item (pack (ss_images s) (λ _, "") id)) <$> ids),
               links ++ ((λ id, mkParentLink id (parent_of id)) <$> ids), repos')) ∧
    session_ok done' s' ∧ ss_tree s ⊆ ss_tree s' ∧ Forall (written (ss_tree s')) ids.
Proof using Htmp Hne Hpairs client hexd enc Hfs.
  intros Hs Hids. revert done s manifest links repos Hs.
  induction Hids as [|id ids Hid _ IH]; intros done s manifest links repos Hs Hnd Him.
  { exists s, done, repos. simpl. rewrite !app_nil_r. by split_and!. }
  rewrite fmap_cons in Hnd. simpl in Hnd. apply NoDup_cons in Hnd as [Hnew Hnd].
  apply not_elem_of_app in Hnew as [Hnew1 Hnew2]. cbn [save_images].
  destruct (saveImage_ok done s id Hs Hid Hnew2) as (s1 & -> & Hs1 & Hsub1 & Hc1 & Hl1 & Him1).
  cbn [and_then]. destruct (Him id) as [d0 Hd0]; [by left|].
  rewrite Him1, lookup_alter_eq, Hd0. cbn [fmap option_fmap option_map default Datatypes.id id_layers id_refs].
  destruct (names_last _ (sv_config _ Hid)) as [top Htop]. rewrite Htop.
  rewrite (saveable_hex id Hid). cbn [and_then]. rewrite (GetParent_session _ s1 id Hs1 Hid). cbn [and_then].
  set (s2 := mkSession (log_event (ss_te s1) id "save") (ss_tree s1) (ss_faults s1) (ss_images s1)
    (ss_savedLayers s1) (ss_diffIDPaths s1)).
  assert (session_ok (hex_of id :: done) s2) as Hs2 by (by destruct Hs1).
  match goal with |- context [save_images _ _ _ ?m ?ls ?rp] =>
    destruct (IH (hex_of id :: done) s2 m ls rp Hs2) as (s' & done' & repos' & Heq & Hs' & Hsub' & Hw') end.
  { rewrite <- Permutation_middle. apply NoDup_cons. split; [by apply not_elem_of_app|done]. }
  { intros i Hi. simpl. rewrite Him1. apply alter_descr, Him. by right. }
  unfold on_session. cbn [and_then]. fold s2. rewrite Heq. exists s', done', repos'.
  split; [|split_and!; [done|by etrans|]].
  - assert (∀ i, pack (ss_images s2) (λ _, "") i = pack (ss_images s) (λ _, "") i) as Hpack.
    { intros i. unfold pack. simpl. rewrite Him1. f_equal. apply alter_descr. }
    rewrite (list_fmap_ext _ (λ id, pk_item (pack (ss_images s) (λ _, "") id)) ids) by (intros; by rewrite Hpack).
    rewrite <- !app_assoc, !fmap_cons. simpl. do 5 f_equal. unfold pack, pk_item, pk_id, refs_of. simpl.
    by rewrite (sv_id _ Hid), Hd0.
  - constructor; [|done]. eapply written_mono; [|by split]. exact Hsub'.
Qed.

(** ** The whole directory *)

(** The parent of an image, when it is saved too. *)
Definition saved_parent (ids : list string) (id : string) : string :=
  if decide (parent_of id ∈ ids ∧ parent_of id ≠ id) then parent_of id else "".

Lemma validated_parents ids :
  validatedParentLinks ((λ id, mkParentLink id (parent_of id)) <$> ids) =
  (λ id, mkParentLink id (saved_parent ids id)) <$> ids.
Proof using.
  unfold validatedParentLinks. rewrite <- list_fmap_compose. apply list_fmap_ext. intros i id _.
  simpl. unfold saved_parent. match goal with |- (if ?b then _ else _) = _ => destruct b eqn:He end.
  - apply existsb_exists in He as (q & Hq & Heq). apply bool_decide_eq_true in Heq as [Heq Hn].
    apply list_elem_of_In, list_elem_of_fmap in Hq as (q' & -> & Hq). simpl in *.
    by rewrite decide_True by (by subst q').
  - rewrite decide_False; [done|]. intros [Hin Hn]. rewrite <- not_true_iff_false in He. apply He.
    apply existsb_exists. exists (mkParentLink (parent_of id) (parent_of (parent_of id))).
    split; [apply list_elem_of_In, list_elem_of_fmap; eauto|]. by apply bool_decide_eq_true_2.
Qed.

Lemma zip_parents images (ids : list string) (parent : string → string) :
  zip_with with_parent ((λ id, pk_item (pack images (λ _, "") id)) <$> ids)
    ((λ id, mkParentLink id (parent id)) <$> ids) = pk_item <$> (pack images parent <$> ids).
Proof using.
  induction ids as [|id ids IH]; [done|]. rewrite !fmap_cons. simpl. rewrite IH. f_equal.
  unfold with_parent. simpl. case_decide as Hp; [done|]. unfold pack, pk_item. simpl.
  by destruct (decide (parent id = "")) as [->|].
Qed.

Lemma fresh_top done s x rest :
  session_ok done s → is_hex x = false → ss_tree s !! [String x rest] = None.
Proof using.
  intros Hs Hx. destruct (ss_tree s !! [String x rest]) eqn:Hk; [|done].
  destruct (so_keys _ _ Hs [String x rest]) as [(v & r & [= <- <-] & Hin)|(h & Hin & [= Heq])]; [by eauto|..].
  - destruct (so_saved _ _ Hs _ Hin) as (d & _ & (_ & Hv) & _). simpl in Hv. by rewrite Hx in Hv.
  - pose proof (so_done _ _ Hs) as Hd. rewrite Forall_forall in Hd. destruct (Hd h Hin) as [Hn Hh].
    destruct h as [|y h]; [done|]. simpl in *. injection Heq as -> _. by rewrite Hx in Hh.
Qed.

Lemma hex_of_inj id id' : saveable id → saveable id' → hex_of id = hex_of id' → id = id'.
Proof using hexd.
  intros Hid Hid'. rewrite <- (sv_id _ Hid), <- (sv_id _ Hid').
  destruct (digest_hex (content_of id)) as (h & -> & -> & _).
  destruct (digest_hex (content_of id')) as (h' & -> & -> & _). by intros ->.
Qed.

Lemma range_NoDup {A} (m : gmap string A) :
  NoDup (map_range m).*1 ∧ ∀ id, id ∈ (map_range m).*1 ↔ is_Some (m !! id).
Proof using enc.
  split.
  - rewrite (el_range m). apply NoDup_fst_map_to_list.
  - intros id. rewrite (el_range m), list_elem_of_fmap. split.
    + intros ([id' x] & -> & Hx%elem_of_map_to_list). eauto.
    + intros [x Hx]. exists (id, x). split; [done|]. by apply elem_of_map_to_list.
Qed.

(** The images that are written, in the order of the manifest. *)
Definition packed_images (images : gmap string imageDescriptor) : list packed :=
  let ids := (map_range images).*1 in pack images (saved_parent ids) <$> ids.

Lemma save_ok l images :
  source (te_is l) → (∀ id, is_Some (images !! id) → saveable id) →
  ∃ s' t, save (mkSession l ∅ [] images ∅ ∅) (path_of tmp) = (s', Ok t) ∧
    t !! [] = None ∧ t !! [manifestFileName] = Some (NFile (manifest_Encode (pk_item <$> packed_images images))) ∧
    Forall (written t) (map_range images).*1.
Proof using Htmp Hne Hpairs client hexd enc Hfs.
  intros Hsrc Hall. set (s0 := mkSession l ∅ [] images ∅ ∅). set (ids := (map_range images).*1).
  destruct (range_NoDup images) as [Hnd Hids]. fold ids in Hnd, Hids.
  assert (Forall saveable ids) as Hsv by (apply Forall_forall; intros id Hid; by apply Hall, Hids).
  assert (session_ok [] s0) as H0.
  { split; simpl; try done. by intros k []. }
  destruct (save_images_ok [] s0 ids [] [] ∅ H0 Hsv) as (s1 & done & repos & Heq & Hs1 & _ & Hw).
  { rewrite app_nil_r. apply NoDup_fmap_2_strong; [|done]. intros id id' Hid Hid'. rewrite Forall_forall in Hsv.
    apply hex_of_inj; by apply Hsv. }
  { intros id Hid. by apply Hids. }
  unfold save. change (map_range (ss_images s0)).*1 with ids. rewrite Heq. cbn [and_then].
  simpl (ss_images s0). rewrite !app_nil_l, validated_parents, zip_parents.
  change (pack images (saved_parent ids) <$> ids) with (packed_images images).
  set (data := manifest_Encode _).
  assert (∀ t, ss_tree s1 ⊆ t → t !! [manifestFileName] = None → t !! [] = None →
    let t' := <[[manifestFileName] := NFile data]> t in
    t' !! [] = None ∧ t' !! [manifestFileName] = Some (NFile data) ∧ Forall (written t') ids) as Hend.
  { intros t Hsub Hnone Hroot. simpl. rewrite lookup_insert_eq, lookup_insert_ne by done. split_and!; [done..|].
    eapply Forall_impl; [exact Hw|]. intros id. apply written_mono. etrans; [exact Hsub|]. by apply insert_subseteq. }
  assert (ss_tree s1 !! [] = None) as Hroot.
  { destruct (ss_tree s1 !! []) eqn:Hk; [|done]. by destruct (so_keys _ _ Hs1 []) as [(v & r & ? & _)|(h & _ & ?)]; [by eauto|..]. }
  assert (ss_tree s1 !! [manifestFileName] = None) as Hman by (by eapply fresh_top).
  assert (ss_tree s1 !! [legacyRepositoriesFileName] = None) as Hrep by (by eapply fresh_top).
  case_decide; cbn [and_then].
  - erewrite on_dir_ok; [|apply Hs1|done]. cbn [and_then].
    erewrite on_dir_ok; [|done|done]. cbn [and_then ss_tree]. eexists _, _. split; [done|].
    apply Hend; [by apply insert_subseteq|by rewrite lookup_insert_ne|by rewrite lookup_insert_ne].
  - erewrite on_dir_ok; [|apply Hs1|done]. cbn [and_then ss_tree]. eexists _, _. split; [done|]. by apply Hend.
Qed.
End source.
End saving.
