(* ===== verification/TarExportTrip.v ===== *)
(** * Saving images and loading them elsewhere

    What Save writes for the images of one daemon, Load brings into the stores of another
    one: the images with the same identifiers and configurations, their layers, their
    parents and their tags. *)

From S2P Require Import Prelude GoStrings GoPath Symlink Layer LayerInv ImageStore ImageInv ImageFamily RefStore RefInv ImageDelete TarExport TarExportInv TarExportPath TarExportLoad TarExportItems TarExportSave.
#[local] Open Scope nat_scope.

Section trip.
Context {F L DS Desc : Type}.
Context {be : StoreBackend F} {lg : LayerGetReleaser L} {holder : LayerHolder L}.
Context {reg : LayerRegistry L} {client : LayerClient L}.
Context {dset : DigestSet DS} {ext : LayerExt string Desc} {iext : ImageExt} {rext : RefExt}.
Context {dlaws : DigestSetLaws DS} {bsafe : BackendSafe F} {rlaws : RefLaws}.
Context {text : TarExportExt} {order : MapOrder}.
Context {rel : ReliableBackend F} {rlayers : ReliableLayers L} {hexd : HexDigests} {enc : EncodingLaws}.

Abbreviation exporter := (tarexporter F L DS).
Abbreviation images_type := (gmap string imageDescriptor).
Abbreviation fs_of l := (is_fs (te_is l)).
Abbreviation look l := (lc_layer (is_ls (te_is l))).
Implicit Types (l : exporter) (images : images_type) (id : string).

Definition ids_of images : list string := (map_range images).*1.

(** The layers of the images, and their directories with the diff identifiers. *)
Definition layers_of l images : list (list string) := (λ id, ds_of (content_of (fs_of l) id)) <$> ids_of images.
Definition layer_dirs l images : list (string * string) :=
  ids_of images ≫= λ id, zip (names_of (content_of (fs_of l) id)) (ds_of (content_of (fs_of l) id)).

(** The images are in the stores of [l], with configurations that can be created, layers
    whose streams are not compressed and parents that fit; their tags are read back from
    their texts; different layers have different directories. *)
Record trip_source l images : Prop := {
  ts_inv : image_inv (te_is l);
  ts_family : family_inv (te_is l);
  ts_stored id : is_Some (images !! id) → is_Some (is_images (te_is l) !! id);
  ts_config id : is_Some (images !! id) →
    config_ok (content_of (fs_of l) id) (ds_of (content_of (fs_of l) id));
  ts_layers id p d : is_Some (images !! id) → p ++ [d] `prefix_of` ds_of (content_of (fs_of l) id) →
    ∃ data, tar_ok data ∧ tar_Digest data = d ∧ look l (CreateChainID (p ++ [d])) = Some (data, CreateChainID p);
  ts_refs id descr : images !! id = Some descr → Forall tag_ok (id_refs descr);
  ts_parent id parent : is_Some (images !! id) → is_Some (images !! parent) →
    rb_parent (fs_of l) id = Some parent → parent ≠ id →
    valid_parent (content_of (fs_of l) id) (content_of (fs_of l) parent) = true;
  ts_dirs v d d' : (v, d) ∈ layer_dirs l images → (v, d') ∈ layer_dirs l images → d = d'
}.

(** [l'] is [l0] with the images of [l]. *)
Record copied l images l0 l' : Prop := {
  cp_inv : image_inv (te_is l') ∧ ref_inv (te_rs l');
  cp_image id : is_Some (images !! id) →
    is_Some (is_images (te_is l') !! id) ∧ rb_content (fs_of l') id = rb_content (fs_of l) id ∧
    layered (look l') (ds_of (content_of (fs_of l) id));
  cp_parent id parent : is_Some (images !! id) → is_Some (images !! parent) →
    rb_parent (fs_of l) id = Some parent → parent ≠ id → rb_parent (fs_of l') id = Some parent;
  cp_tag id descr ref : images !! id = Some descr → ref ∈ id_refs descr →
    ∃ id' descr', images !! id' = Some descr' ∧ ref ∈ id_refs descr' ∧ ref_lookup (te_rs l') ref = Some id';
  cp_other_image id : images !! id = None → rb_content (fs_of l') id = rb_content (fs_of l0) id ∧
    rb_parent (fs_of l') id = rb_parent (fs_of l0) id;
  cp_other_tag ref : storable ref → (∀ id descr, images !! id = Some descr → ref ∉ id_refs descr) →
    ref_lookup (te_rs l') ref = ref_lookup (te_rs l0) ref;
  cp_references c r : lg_ref (is_ls (te_is l')) c r →
    lg_ref (is_ls (te_is l0)) c r ∨ owned (te_is l') r
}.

Section images.
Context (l : exporter) (images : images_type) (Hsrc : trip_source l images).
Abbreviation content := (content_of (fs_of l)).

Lemma elem_of_ids id : id ∈ ids_of images ↔ is_Some (images !! id).
Proof using enc. by apply range_NoDup. Qed.

Lemma trip_content id : is_Some (images !! id) →
  rb_content (fs_of l) id = Some (content id) ∧ digest_FromBytes (content id) = id.
Proof using Hsrc bsafe.
  intros Hid. destruct (fi_content _ (ts_family _ _ Hsrc) id) as (c & Hc & _); [by apply (ts_stored _ _ Hsrc)|].
  unfold content_of. rewrite Hc. split; [done|]. simpl.
  assert (valid_id id) as Hv by (eapply rb_valid; [apply (ts_family _ _ Hsrc)|by eauto]).
  destruct (rb_Get (fs_of l) id (fi_ok _ (ts_family _ _ Hsrc)) Hv) as [e Hget].
  pose proof (bs_Get (fs_of l) id Hv) as Hs. rewrite Hget, Hc in Hs. exact Hs.
Qed.

Lemma trip_saveable id : is_Some (images !! id) → saveable (layers_of l images) (fs_of l) (layer_dirs l images) id.
Proof using Hsrc bsafe enc.
  intros Hid. destruct (trip_content id Hid) as [Hc Hd]. apply elem_of_ids in Hid as Hin. split.
  - by rewrite Hc.
  - done.
  - by apply (ts_config _ _ Hsrc).
  - unfold layers_of. apply list_elem_of_fmap. eauto.
  - intros x Hx. unfold layer_dirs. apply list_elem_of_bind. eauto.
Qed.

Lemma trip_image_source : source (layers_of l images) (fs_of l) (te_is l).
Proof using Hsrc enc hexd bsafe.
  pose proof (ts_inv _ _ Hsrc) as Hinv.
  assert (∀ ds, ds ∈ layers_of l images → ∃ id, ds = ds_of (content id) ∧ is_Some (images !! id)) as Hel.
  { intros ds (id & -> & Hid)%list_elem_of_fmap. exists id. by rewrite elem_of_ids in Hid. }
  split; [done|apply Hinv|..].
  - intros ds p d (id & -> & Hid)%Hel Hp. by apply (ts_layers _ _ Hsrc id).
  - intros ds (id & -> & Hid)%Hel. destruct (ts_stored _ _ Hsrc id Hid) as [m Hm].
    destruct (ii_layer _ Hinv id m Hm) as (c & img & rfs & Hdig & Hj & Hr & Hlay).
    destruct (ts_config _ _ Hsrc id Hid) as (_ & Hds & _ & Huniq & img' & ty & Hj' & Hr' & _).
    destruct (trip_content id Hid) as [_ Hd]. rewrite <- Hd in Hdig. apply Huniq in Hdig as ->.
    rewrite Hj in Hj'. simplify_eq.
    assert (layered (look l) (ds_of (content id))) as Hl.
    { intros p d Hp. destruct (ts_layers _ _ Hsrc id p d Hid Hp) as (data & _ & Hdd & Hc). eauto. }
    pose proof (chain_nonempty _ _ Hds Hl). destruct (im_layer m) as [r|]; [|done]. destruct Hlay as [_ Hlay]. by exists r.
Qed.

Lemma pack_id id : is_Some (images !! id) → pk_id (pack (fs_of l) images (saved_parent (fs_of l) (ids_of images)) id) = id.
Proof using Hsrc bsafe. intros Hid. unfold pk_id, pack. simpl. by apply trip_content. Qed.

Lemma elem_of_packed p :
  p ∈ packed_images (fs_of l) images ↔
  ∃ id, is_Some (images !! id) ∧ p = pack (fs_of l) images (saved_parent (fs_of l) (ids_of images)) id.
Proof using enc.
  unfold packed_images. rewrite list_elem_of_fmap. fold (ids_of images).
  split; intros (id & H1 & H2); exists id; [by rewrite elem_of_ids in H2|by rewrite elem_of_ids].
Qed.

Lemma saved_parent_spec id parent :
  saved_parent (fs_of l) (ids_of images) id = parent → parent ≠ "" →
  rb_parent (fs_of l) id = Some parent ∧ is_Some (images !! parent) ∧ parent ≠ id.
Proof using enc.
  unfold saved_parent, parent_of. intros <-. case_decide as Hp; [|done]. intros Hne.
  destruct (rb_parent (fs_of l) id) as [q|]; [|done]. simpl in *. by rewrite elem_of_ids in Hp.
Qed.

Lemma trip_parents : parents_ok (packed_images (fs_of l) images).
Proof using Hsrc bsafe enc.
  intros p (id & Hid & ->)%elem_of_packed. simpl. intros Hne.
  destruct (saved_parent_spec id _ eq_refl Hne) as (Hp & Hin & Hn).
  set (parent := saved_parent (fs_of l) (ids_of images) id) in *.
  exists (pack (fs_of l) images (saved_parent (fs_of l) (ids_of images)) parent).
  rewrite !pack_id by done. split_and!; [apply elem_of_packed; eauto|done..|].
  simpl. by apply (ts_parent _ _ Hsrc).
Qed.

Lemma trip_packed t :
  Forall (written (fs_of l) t) (ids_of images) →
  Forall (packed_ok t) (packed_images (fs_of l) images) ∧
  Forall (λ p, pk_ds p ∈ layers_of l images) (packed_images (fs_of l) images).
Proof using Hsrc bsafe enc.
  intros Hw. rewrite Forall_forall in Hw. split; apply Forall_forall; intros p (id & Hid & ->)%elem_of_packed.
  - destruct (Hw id) as [Hc Hl]; [by apply elem_of_ids|]. split; simpl; [|by apply (ts_config _ _ Hsrc)|done|].
    + by rewrite pack_id.
    + unfold refs_of. destruct Hid as [descr Hd]. rewrite Hd. by eapply (ts_refs _ _ Hsrc).
  - simpl. apply list_elem_of_fmap. exists id. by rewrite elem_of_ids.
Qed.

Lemma trip_NoDup : NoDup (pk_id <$> packed_images (fs_of l) images).
Proof using Hsrc bsafe enc.
  unfold packed_images. fold (ids_of images). rewrite <- list_fmap_compose.
  rewrite (list_fmap_ext _ (λ id, id) (ids_of images)).
  - rewrite list_fmap_id. by apply range_NoDup.
  - intros i id Hid. apply pack_id, elem_of_ids. by eapply list_elem_of_lookup_2.
Qed.

Lemma trip_distinct : chains_distinct (layers_of l images).
Proof using Hsrc enc bsafe hexd.
  apply (layered_distinct (look l)), Forall_forall. intros ds Hds.
  exact (source_layered _ _ _ _ trip_image_source Hds).
Qed.

Lemma restored_copied l0 l' :
  restored l0 (packed_images (fs_of l) images) l' → copied l images l0 l'.
Proof using Hsrc bsafe enc hexd.
  intros [[I Hacc] Hfam Him Hlay Hpar Htags Hoc Hop Hot].
  assert (∀ id, is_Some (images !! id) →
    pack (fs_of l) images (saved_parent (fs_of l) (ids_of images)) id ∈ packed_images (fs_of l) images) as Hel
    by (intros id Hid; apply elem_of_packed; eauto).
  set (packs := pack (fs_of l) images (saved_parent (fs_of l) (ids_of images))) in *.
  split.
  - split; [apply (ac_inv _ _ _ _ (ta_accounts _ _ _ _ Hacc))|apply (ta_refs _ _ _ _ Hacc)].
  - intros id Hid. destruct (Him _ (Hel id Hid)) as [Hi Hc]. rewrite pack_id in Hi, Hc by done.
    split_and!; [done| |by apply (Hlay _ (Hel id Hid))]. rewrite Hc. symmetry. by apply trip_content.
  - intros id parent Hid Hin Hp Hn.
    assert (saved_parent (fs_of l) (ids_of images) id = parent) as Hsp.
    { unfold saved_parent, parent_of. rewrite Hp. simpl. by rewrite decide_True by (by rewrite elem_of_ids). }
    pose proof (Hpar _ (Hel id Hid)) as H. rewrite pack_id in H by done. simpl in H. rewrite Hsp in H. apply H.
    destruct (trip_content parent Hin) as [_ <-]. destruct (digest_hex (content parent)) as (h & -> & _). done.
  - intros id descr ref Hid Href. destruct (Htags (packs id) ref) as (p & Hp & Hr & Hl); [by apply Hel; eauto| |].
    { unfold packs, pack, refs_of. simpl. by rewrite Hid. }
    apply elem_of_packed in Hp as (id' & [descr' Hd'] & ->). rewrite pack_id in Hl by eauto.
    exists id', descr'. split_and!; [done| |done]. simpl in Hr. unfold refs_of in Hr. by rewrite Hd' in Hr.
  - intros id Hnone. assert (∀ p, p ∈ packed_images (fs_of l) images → id ≠ pk_id p) as Hne.
    { intros p (id' & Hid' & ->)%elem_of_packed. rewrite pack_id by done. intros <-. by destruct Hid' as [? ?]; simplify_eq. }
    split; [by apply Hoc|]. apply Hop. intros p Hp _. by apply Hne.
  - intros ref Hst Hno. apply Hot; [done|]. intros p (id & [descr Hd] & ->)%elem_of_packed. simpl.
    unfold refs_of. rewrite Hd. by apply (Hno id).
  - intros c r Hr. destruct (ac_new _ _ _ _ (ta_accounts _ _ _ _ Hacc) c r Hr) as [|[Hin|]]; [by left| |by right].
    by apply elem_of_nil in Hin.
Qed.
End images.

(** C3: Images that are saved by one daemon and loaded by another one arrive there:
    Save writes a directory, Load of it succeeds, and the second daemon then holds
    every image under the same identifier with the same configuration, all its layers,
    its parent when that was saved too, and its tags; its other images and tags are as
    they were, and every new reference on a layer belongs to an image.  The stores of
    both are consistent and do not fail, and have the same contents under the same
    layer identifier ([destination]); each image that is saved ([trip_source]) has a
    decodable configuration with 1 to 125 layers whose digest no other text has, layer
    streams that are not taken for compressed ones, tags that are parsed back from
    their text and are not of a repository named sha256, and a parent, if any was
    saved, whose history fits; different layers have different directory names. *)
Theorem save_load_roundtrip l names tmp l1 images l0 tmp' :
  Forall normal tmp → tmp ≠ [] → Forall normal tmp' → tmp' ≠ [] →
  parseNames l names ∅ = (l1, Ok images) → trip_source l1 images →
  destination (layers_of l1 images) l0 →
  ∃ l1' t l', Save l names (path_of tmp) [] = (l1', Ok t) ∧
    Load l0 (inr t) (path_of tmp') = (l', Ok tt) ∧ copied l1 images l0 l'.
Proof using client dlaws bsafe rlaws hexd enc.
  intros Htmp Hne Htmp' Hne' Hparse Hsrc Hdst.
  destruct (save_ok tmp Htmp Hne (layers_of l1 images) (fs_of l1) (layer_dirs l1 images) (ts_dirs _ _ Hsrc)
    (fi_ok _ (ts_family _ _ Hsrc)) l1 images (trip_image_source _ _ Hsrc) (trip_saveable _ _ Hsrc))
    as (s' & t & Hsave & Hroot & Hman & Hw).
  destruct (trip_packed _ _ Hsrc t Hw) as [Hps Hin].
  destruct (Load_ok t tmp' Htmp' Hne' Hroot (layers_of l1 images) (trip_distinct _ _ Hsrc) l0
    (packed_images (fs_of l1) images) _ Hman (el_manifest _) Hdst Hps Hin (trip_parents _ _ Hsrc) (trip_NoDup _ _ Hsrc))
    as (l' & Hload & Hres).
  exists (ss_te s'), t, l'. split_and!; [|done|by apply restored_copied].
  unfold Save. rewrite Hparse. cbn [and_then]. by rewrite Hsave.
Qed.
End trip.
