(* ===== verification/TarExportWitness.v ===== *)
(** * Saving and loading images on concrete inputs

    Configurations are finite maps written as texts, digests the texts in
    hexadecimal; the theorem on Load applied to an archive, and some behaviours of the
    code that its comments do not mention. *)

From S2P Require Import Prelude GoStrings OS Layer LayerInv LayerSafe LayerWitness ImageStore ImageInv ImageLayer ImageFamily ImageFS.
From S2P Require Import ImageWitness RefStore RefInv RefWitness ImageDelete TarExport TarExportInv TarExportLegacy TarExportLayer TarExportLoad.
#[local] Open Scope nat_scope.

(** ** Texts *)

(** A word ends with the character [stop]; both marks are escaped in it. *)
Definition stop : ascii := "001".
Definition esc : ascii := "002".
Definition push_char (c : ascii) (r : option (list string)) : option (list string) :=
  match r with Some (w :: ws) => Some (String c w :: ws) | _ => None end.
Fixpoint word (w rest : string) : string :=
  match w with
  | EmptyString => String stop rest
  | String c w =>
      if decide (c = stop) then String esc (String "a" (word w rest))
      else if decide (c = esc) then String esc (String "b" (word w rest))
      else String c (word w rest)
  end.
Fixpoint unwords (s : string) : option (list string) :=
  match s with
  | EmptyString => Some []
  | String c s =>
      if decide (c = stop) then cons "" <$> unwords s
      else if decide (c = esc) then
        match s with
        | String x s => push_char (if decide (x = "a"%char) then stop else esc) (unwords s)
        | EmptyString => None
        end
      else push_char c (unwords s)
  end.
Lemma unwords_word w rest : unwords (word w rest) = cons w <$> unwords rest.
Proof.
  induction w as [|c w IH]; [done|]. simpl. destruct (decide (c = stop)) as [->|H1]; [simpl; rewrite IH|
    destruct (decide (c = esc)) as [->|H2]; [simpl; rewrite IH|simpl; rewrite !decide_False, IH by done]];
    by destruct (unwords rest).
Qed.

(** Types whose values are written as texts. *)
Class Text (A : Type) := {
  to_text : A → string;
  of_text : string → option A;
  of_to_text a : of_text (to_text a) = Some a
}.
#[export] Instance string_text : Text string := {| to_text s := s; of_text := Some; of_to_text _ := eq_refl |}.
#[local] Obligation Tactic := idtac.
#[export] Program Instance list_text {A} `{Text A} : Text (list A) := {|
  to_text l := foldr (λ x, word (to_text x)) "" l;
  of_text s := unwords s ≫= mapM of_text
|}.
Next Obligation.
  intros A ? l. cbv beta. assert (unwords (foldr (λ x, word (to_text x)) "" l) = Some (to_text <$> l)) as ->.
  { induction l as [|x l IH]; [done|]. simpl. by rewrite unwords_word, IH. }
  cbn [mbind option_bind]. apply mapM_fmap_Some, of_to_text.
Qed.
(** Through a type that is written. *)
Program Definition text_via {A B} `{Text B} (f : A → B) (g : B → option A)
    (Hg : ∀ a, g (f a) = Some a) : Text A := {|
  to_text a := to_text (f a); of_text s := of_text s ≫= g
|}.
Next Obligation. intros A B ? f g Hg a. cbv beta. rewrite of_to_text. apply Hg. Qed.

Definition entry_words {A} `{Text A} (kv : string * A) : list string := [kv.1; to_text kv.2].
Definition words_entry {A} `{Text A} (ws : list string) : option (string * A) :=
  match ws with [k; v] => pair k <$> of_text v | _ => None end.
Lemma map_of_entries {A} `{Text A} (m : gmap string A) :
  list_to_map <$> mapM words_entry (entry_words <$> map_to_list m) = Some m.
Proof.
  rewrite mapM_fmap_Some; [by rewrite <- (list_to_map_to_list m) at 2|].
  intros [k x]. simpl. by rewrite of_to_text.
Qed.
#[export] Instance map_text {A} `{Text A} : Text (gmap string A) :=
  text_via (λ m, entry_words <$> map_to_list m) (λ l, list_to_map <$> mapM words_entry l) map_of_entries.

(** The digest of a text is the text itself in hexadecimal. *)
Definition hex_char (a b c d : bool) : ascii :=
  let n := Nat.b2n a + 2 * Nat.b2n b + 4 * Nat.b2n c + 8 * Nat.b2n d in
  default "0"%char (String.get n "0123456789abcdef").
Fixpoint hex_bytes (s : string) : string :=
  match s with
  | EmptyString => ""
  | String (Ascii a b c d e f g h) s => String (hex_char a b c d) (String (hex_char e f g h) (hex_bytes s))
  end.
Definition toy_digest (s : string) : string := "sha256:0" +:+ hex_bytes s.

Lemma hex_char_inj a b c d a' b' c' d' :
  hex_char a b c d = hex_char a' b' c' d' → a = a' ∧ b = b' ∧ c = c' ∧ d = d'.
Proof. by destruct a, b, c, d, a', b', c', d'. Qed.
Lemma toy_digest_inj s s' : toy_digest s = toy_digest s' → s = s'.
Proof.
  unfold toy_digest. intros H%(inj (String.append "sha256:0")). revert s' H.
  induction s as [|[a b c d e f g h] s IH]; intros [|[] s']; simpl; try done.
  intros [= (-> & -> & -> & ->)%hex_char_inj (-> & -> & -> & ->)%hex_char_inj ->%IH]. done.
Qed.
Lemma toy_digest_hex s : hex_name ("0" +:+ hex_bytes s).
Proof.
  split; [done|]. change (forall_chars is_hex (hex_bytes s) = true).
  induction s as [|[a b c d e f g h] s IH]; [done|]. simpl. rewrite IH.
  by destruct a, b, c, d, e, f, g, h.
Qed.

#[export] Instance toy_ext : LayerExt string unit := {|
  digest_FromBytes := toy_digest;
  tar_Digest := toy_digest;
  NewInputTarStream _ := None;
  GenerateRandomID n := String (Ascii.ascii_of_nat (97 + n)) "";
  empty_Descriptor := tt;
  Descriptor_Digest _ := ""
|}.

(** ** Configurations *)

Definition history_words (h : History) : list string :=
  [h_Created h; h_Author h; h_CreatedBy h; h_Comment h; if h_EmptyLayer h then "true" else "false"].
Definition words_history (ws : list string) : option History :=
  match ws with [a; b; c; d; e] => Some (mkHistory a b c d (bool_decide (e = "true"))) | _ => None end.
Lemma history_of_words h : words_history (history_words h) = Some h.
Proof. by destruct h as [a b c d []]. Qed.
#[export] Instance History_text : Text History := text_via history_words words_history history_of_words.

Definition rootfs_words (r : RootFS) : list string := rfs_Type r :: rfs_DiffIDs r.
Definition words_rootfs (ws : list string) : option RootFS :=
  match ws with ty :: ds => Some (mkRootFS ty ds) | [] => None end.
Lemma rootfs_of_words r : words_rootfs (rootfs_words r) = Some r.
Proof. by destruct r. Qed.
#[export] Instance RootFS_text : Text RootFS := text_via rootfs_words words_rootfs rootfs_of_words.

Definition item_words (m : manifestItem) : list string :=
  [mi_Config m; to_text (mi_RepoTags m); to_text (mi_Layers m); mi_Parent m].
Definition words_item (ws : list string) : option manifestItem :=
  match ws with
  | [a; b; c; d] => tags ← of_text b; layers ← of_text c; Some (mkManifestItem a tags layers d)
  | _ => None
  end.
Lemma item_of_words m : words_item (item_words m) = Some m.
Proof.
  destruct m as [a b c d]. unfold words_item, item_words. cbn [mi_Config mi_RepoTags mi_Layers mi_Parent].
  rewrite of_to_text. cbn [mbind option_bind]. by rewrite of_to_text.
Qed.
#[export] Instance manifestItem_text : Text manifestItem := text_via item_words words_item item_of_words.

Definition parse_text (c : string) : string + gmap string string :=
  match of_text c with Some m => inr m | None => inl "invalid character" end.
Lemma parse_to_text m : parse_text (to_text m) = inr m.
Proof. unfold parse_text. by rewrite of_to_text. Qed.
Definition text_field (c key : string) : string + string :=
  match parse_text c with inr m => inr (default "" (m !! key)) | inl e => inl e end.
Definition toy_image (c : string) : string + Image :=
  match parse_text c with
  | inl e => inl e
  | inr m => inr (mkImage "" ((λ r, default NewRootFS (of_text r)) <$> m !! "rootfs")
                 (default [] (m !! "history" ≫= of_text)) "" "")
  end.
#[export] Instance toy_iext : ImageExt := {|
  json_Unmarshal := toy_image;
  digest_Validate := demo_validate
|}.

Definition toy_v1 (m : gmap string string) : V1Image :=
  let get k := default "" (m !! k) in
  mkV1 (get "id") (get "parent") (get "comment") (get "created") (get "author")
    (default [] (m !! "cmd" ≫= of_text)) (get "other").
Definition toy_v1_map (v : V1Image) : gmap string string :=
  list_to_map [("id", v1_ID v); ("parent", v1_Parent v); ("comment", v1_Comment v);
    ("created", v1_Created v); ("author", v1_Author v); ("cmd", to_text (v1_Cmd v));
    ("other", v1_other v)].

#[export] Instance toy_text : TarExportExt := {|
  v1_Marshal v := inr (to_text (toy_v1_map v));
  v1_Unmarshal c := match parse_text c with inr m => inr (toy_v1 m) | inl e => inl e end;
  image_V1 c := match parse_text c with inr m => toy_v1 m | inl _ => v1_zero end;
  map_Marshal m := inr (to_text m);
  map_Unmarshal := parse_text;
  json_string s := s;
  json_RootFS := to_text;
  json_Histories := to_text;
  json_docker_version c := text_field c "docker_version";
  json_parent c := text_field c "parent";
  versions_LessThan _ _ := false;
  manifest_Encode := to_text;
  manifest_Decode c := match of_text c with Some m => inr m | None => inl "invalid character" end;
  repositories_Encode := to_text;
  repositories_Decode c := match of_text c with Some m => inr m | None => inl "invalid character" end;
  decompress _ _ := inl "corrupt input"
|}.
#[export] Instance toy_order : MapOrder := {| map_range A m := map_to_list m |}.

#[export] Instance toy_digest_laws : DigestLaws.
Proof.
  split.
  - intros c. done.
  - intros c. by exists ("0" +:+ hex_bytes c).
  - intros id. unfold valid_id; simpl. unfold demo_validate.
    destruct (cut_at ":" id); [by eauto|done].
Qed.
#[export] Program Instance toy_digest_set_laws : DigestSetLaws (gset string) := {| ds_elems d := d |}.
Next Obligation. done. Qed.
Next Obligation. intros d x Hx. simpl. by rewrite decide_True. Qed.
Next Obligation. intros d x Hx. simpl. by rewrite decide_True. Qed.
Next Obligation. intros d t x. simpl. repeat case_decide; intros; simplify_eq; done. Qed.
Next Obligation. intros d x Hx _. simpl. by rewrite decide_True. Qed.

#[export] Instance toy_rootfs : RootFSLaw.
Proof.
  split. intros c r config img Hc Hm. change (inr (to_text c) = inr config :> string + string) in Hm.
  injection Hm as <-. change (toy_image (to_text c) = inr img → is_Some (img_RootFS img)).
  unfold toy_image. rewrite parse_to_text. intros [= <-]. cbn [img_RootFS]. by rewrite Hc.
Qed.

(** ** An exporter with empty stores *)

#[export] Instance demo_split : TarSplit (list string) nat := {| assembleTarTo d _ _ _ := (d, inl "not found") |}.

Abbreviation demo_exporter := (tarexporter fsBackend (layerStore (list string) nat unit) (gset string)).
Definition empty_exporter : demo_exporter :=
  mkExporter (NewImageStore (demo_fs []) demo_store).1 (NewReferenceStore None [] ["docker.io"]).1 [] [].

Lemma empty_exporter_inv : image_inv (te_is empty_exporter) ∧ ref_inv (te_rs empty_exporter).
Proof.
  split; [|apply NewReferenceStore_empty].
  pose proof (NewImageStore_safe (DS := gset string) (demo_fs []) demo_store) as H.
  assert (lg_ok demo_store) as Hs by apply empty_store_inv. apply (safe_state _ _ (H Hs)).
Qed.

Definition step (by_ : string) : History := mkHistory "" "" by_ "" false.
Definition config_of (layers history : list string) : string :=
  to_text (list_to_map [("rootfs", to_text (mkRootFS (rfs_Type NewRootFS) (toy_digest <$> layers)));
                        ("history", to_text (step <$> history))] : gmap string string).
Definition tmp_dir : string := "/tmp/docker-import".

(** A manifest whose second image names a layer that the archive does not hold. *)
Definition torn_archive : tree := list_to_map [
  (["aa"], NDir); (["aa"; "layer.tar"], NFile "base"); (["bb"], NDir); (["bb"; "layer.tar"], NFile "apq");
  (["one.json"], NFile (config_of ["base"] ["ADD"])); (["two.json"], NFile (config_of ["base"; "app"] ["ADD"; "RUN"]));
  (["manifest.json"], NFile (to_text
    [mkManifestItem "one.json" ["web:v1"] ["aa/layer.tar"] "";
     mkManifestItem "two.json" [] ["aa/layer.tar"; "bb/layer.tar"] ""]))].
Definition image_ids (l : demo_exporter) : list string := elements (dom (is_images (te_is l))).
Definition layer_ids (l : demo_exporter) : list string := elements (dom (ls_layerMap (is_ls (te_is l)))).

Lemma Load_accounts_for_layers_witness :
  let r := Load empty_exporter (inr torn_archive) tmp_dir in
  (r.2, image_ids r.1, layer_ids r.1) =
    (Err "invalid diffID for layer", [toy_digest (config_of ["base"] ["ADD"])], [toy_digest "base"]) ∧
  load_post empty_exporter (inr torn_archive) tmp_dir r.1 r.2.
Proof.
  cbv zeta. split; [vm_compute; reflexivity|].
  destruct empty_exporter_inv as [Hi Hr].
  pose proof (Load_accounts_for_layers empty_exporter (inr torn_archive) tmp_dir Hi Hr) as H.
  assert (match (Load empty_exporter (inr torn_archive) tmp_dir).2 with
          | Err _ => true | _ => false end = true) as Hshape by (vm_compute; reflexivity).
  destruct (Load _ _ _) as [l' [u|e| |]]; try discriminate Hshape. exact H.
Defined.

(** ** Behaviours of the code to note *)

Definition old_image (parent : string) : string :=
  to_text (<["parent" := parent]> ∅ : gmap string string).

(** Two images of the old format that are each other's parents: the call for an image
    calls itself for the parent, and never returns. *)
Definition cyclic_archive : tree := list_to_map [
  (["aa"], NDir); (["aa"; "json"], NFile (old_image "bb"));
  (["bb"], NDir); (["bb"; "json"], NFile (old_image "aa"))].
Lemma cyclic_parents_never_return : (Load empty_exporter (inr cyclic_archive) tmp_dir).2 = Diverge.
Proof. vm_compute. reflexivity. Qed.

(** An archive of the old format without the file of repositories is loaded, but the call
    returns the error of closing a file that was not opened. *)
Definition untagged_archive : tree := list_to_map [
  (["aa"], NDir); (["aa"; "json"], NFile (old_image "")); (["aa"; "layer.tar"], NFile "base")].
Lemma no_repositories_is_an_error :
  let r := Load empty_exporter (inr untagged_archive) tmp_dir in
  r.2 = Err "invalid argument" ∧ length (image_ids r.1) = 1.
Proof. cbv zeta. split; vm_compute; reflexivity. Qed.

(** An image of the old format that cannot be written: its layer stays in the layer store
    with a reference that nobody holds. *)
Definition full_disk : list (option fault) := None :: repeat (Some (mkFault "no space left on device" ∅)) 8.
Definition full_exporter : demo_exporter :=
  mkExporter (NewImageStore (demo_fs full_disk) demo_store).1 (te_rs empty_exporter) [] [].
Lemma old_format_leaks_layer :
  let r := Load full_exporter (inr untagged_archive) tmp_dir in
  (r.2, image_ids r.1, layer_ids r.1) = (Err "no space left on device", [], [toy_digest "base"]).
Proof. vm_compute. reflexivity. Qed.

(** The file of repositories cannot be written: the tag is not stored, the client is told
    that it is, and the call succeeds. *)
Definition one_archive (tags : list string) : tree := list_to_map [
  (["aa"], NDir); (["aa"; "layer.tar"], NFile "base"); (["one.json"], NFile (config_of ["base"] ["ADD"]));
  (["manifest.json"], NFile (to_text [mkManifestItem "one.json" tags ["aa/layer.tar"] ""]))].
Lemma failed_tag_is_announced :
  let l := mkExporter (te_is empty_exporter) (NewReferenceStore None [None; None; Some "disk full"] ["docker.io"]).1 [] [] in
  let r := Load l (inr (one_archive ["web:v1"])) tmp_dir in
  (r.2, te_out r.1) = (Ok tt, ["Loaded image: web:v1"]) ∧ rs_file (te_rs r.1) = Some ∅.
Proof. cbv zeta. split; vm_compute; reflexivity. Qed.

(** The identifiers are only told when the last image of the manifest has no tag,
    whatever tags the other ones have; here the second image is not mentioned at all. *)
Definition order_archive (tags tags' : list string) : tree := list_to_map [
  (["aa"], NDir); (["aa"; "layer.tar"], NFile "base");
  (["one.json"], NFile (config_of ["base"] ["ADD"])); (["two.json"], NFile (config_of ["base"] ["COPY"]));
  (["manifest.json"], NFile (to_text
    [mkManifestItem "one.json" tags ["aa/layer.tar"] "";
     mkManifestItem "two.json" tags' ["aa/layer.tar"] ""]))].
Lemma untagged_image_not_told :
  let r := Load empty_exporter (inr (order_archive [] ["web:v1"])) tmp_dir in
  (r.2, te_out r.1) = (Ok tt, ["Loaded image: web:v1"]) ∧ length (image_ids r.1) = 2.
Proof. cbv zeta. split; vm_compute; reflexivity. Qed.

(** Images without a history may be made each other's parents. *)
Definition id_of (layers history : list string) : string := toy_digest (config_of layers history).
Definition twins_archive : tree := list_to_map [
  (["aa"], NDir); (["aa"; "layer.tar"], NFile "base"); (["bb"], NDir); (["bb"; "layer.tar"], NFile "app");
  (["one.json"], NFile (config_of ["base"] [])); (["two.json"], NFile (config_of ["app"] []));
  (["manifest.json"], NFile (to_text
    [mkManifestItem "one.json" [] ["aa/layer.tar"] (id_of ["app"] []);
     mkManifestItem "two.json" [] ["bb/layer.tar"] (id_of ["base"] [])]))].
Lemma twins_are_parents :
  let r := Load empty_exporter (inr twins_archive) tmp_dir in
  let parent id := (imageStore_GetParent (te_is r.1) id).2 in
  r.2 = Ok tt ∧ parent (id_of ["base"] []) = Ok (id_of ["app"] []) ∧
  parent (id_of ["app"] []) = Ok (id_of ["base"] []).
Proof. cbv zeta. split; [|split]; vm_compute; reflexivity. Qed.

(** A layer whose first file has a name that starts with BZh is taken for compressed data
    when it is loaded, as the stream of a layer starts with that name. *)
Lemma archive_taken_for_bzip2 rest : DetectCompression ("BZh" +:+ rest) = Bzip2.
Proof.
  unfold DetectCompression. by rewrite filter_cons_True.
Qed.
