(* ===== verification/TarExportTripWitness.v ===== *)
(** * Saving and loading images with a layer store in memory

    A layer store that keeps every stream it is given, which satisfies what the round
    trip of images relies on, and the round trip applied to a daemon with three images. *)

From S2P Require Import Prelude GoStrings GoPath OS Layer LayerInv ImageStore ImageInv ImageFamily ImageFS.
From S2P Require Import ImageWitness RefStore RefInv RefWitness ImageDelete TarExport TarExportInv TarExportPath.
From S2P Require Import TarExportLoad TarExportItems TarExportSave TarExportTrip TarExportWitness.
#[local] Open Scope nat_scope.

(** ** The layer store *)

(** Streams with their parents by chain identifiers, and the references that are out. *)
Record shelf := mkShelf {
  sh_layers : gmap string (string * string);
  sh_refs : gmap nat string;
  sh_next : nat
}.
Implicit Types (s : shelf).

Definition sh_take s (c : string) : shelf * outcome string Layer :=
  (mkShelf (sh_layers s) (<[sh_next s := c]> (sh_refs s)) (S (sh_next s)),
   Ok (referencedCacheLayer (sh_next s) 0)).
Definition sh_chain s (r : Layer) : option string :=
  match r with referencedCacheLayer n 0 => sh_refs s !! n | _ => None end.
Definition sh_Get s (c : string) : shelf * outcome string Layer :=
  if decide (is_Some (sh_layers s !! c)) then sh_take s c else (s, Err "layer does not exist").
Definition sh_Release s (r : Layer) : shelf * outcome string (list Metadata) :=
  match r with
  | referencedCacheLayer n 0 => (mkShelf (sh_layers s) (delete n (sh_refs s)) (sh_next s), Ok [])
  | _ => (s, Err "layer does not exist")
  end.
Definition sh_Register s (data parent : string) : shelf * outcome string Layer :=
  let c := createChainIDFromParent parent [tar_Digest data] in
  if decide (parent ≠ "" ∧ sh_layers s !! parent = None) then (s, Err "layer does not exist")
  else if decide (is_Some (sh_layers s !! c)) then sh_take s c
  else sh_take (mkShelf (<[c := (data, parent)]> (sh_layers s)) (sh_refs s) (sh_next s)) c.
Definition sh_stream s (r : Layer) : option string := c ← sh_chain s r; x ← sh_layers s !! c; Some x.1.

#[export] Instance shelf_GetReleaser : LayerGetReleaser shelf := {| lg_Get := sh_Get; lg_Release := sh_Release |}.
#[export] Instance shelf_Registry : LayerRegistry shelf := {|
  st_Register := sh_Register;
  st_DiffID s r := from_option tar_Digest "" (sh_stream s r);
  st_TarStream s r := (s, from_option Ok (Err "layer does not exist") (sh_stream s r))
|}.

(** References are numbered, and their layers are there. *)
Definition sh_ok s : Prop :=
  ∀ n c, sh_refs s !! n = Some c → n < sh_next s ∧ is_Some (sh_layers s !! c).
Definition sh_ref s (c : string) (r : Layer) : Prop := sh_chain s r = Some c.

Lemma sh_take_spec s c s' r :
  sh_ok s → is_Some (sh_layers s !! c) → sh_take s c = (s', Ok r) →
  sh_ok s' ∧ sh_ref s' c r ∧ (∀ c' r', sh_ref s c' r' → sh_ref s' c' r' ∧ r' ≠ r) ∧
  ∀ c' r', sh_ref s' c' r' → sh_ref s c' r' ∨ r' = r.
Proof.
  intros Hok Hc [= <- <-]. unfold sh_ref, sh_ok. simpl. split_and!.
  - intros n c'. rewrite lookup_insert. case_decide; [intros [= <-]; subst; split; [lia|done]|].
    intros Hn%Hok. split; [lia|apply Hn].
  - by rewrite lookup_insert_eq.
  - intros c' [n [|]|] Hn; try done. simpl in Hn. destruct (Hok n c' Hn) as [Hlt _].
    split; [|intros [= ->]; lia]. simpl. rewrite lookup_insert_ne; [done|lia].
  - intros c' [n [|]|]; simpl; try done. rewrite lookup_insert. case_decide; [subst; by right|by left].
Qed.

#[export] Program Instance shelf_Holder : LayerHolder shelf := {| lg_ok := sh_ok; lg_ref := sh_ref |}.
Next Obligation.
  intros s c Hok. cbn [lg_Get shelf_GetReleaser]. unfold sh_Get. case_decide as Hc; [|done].
  destruct (sh_take s c) as [s' o] eqn:Ht. pose proof Ht as [= _ <-].
  destruct (sh_take_spec s c s' _ Hok Hc Ht) as (? & ? & ? & _). by split_and!.
Qed.
Next Obligation.
  intros s c r Hok Hr. cbn [lg_Release shelf_GetReleaser]. destruct r as [n [|]|]; try done. simpl.
  unfold sh_ok, sh_ref in *. simpl in *. split_and!.
  - intros n' c' [_ Hn']%lookup_delete_Some. by apply Hok.
  - intros c'. by rewrite lookup_delete_eq.
  - intros c' [n' [|]|] Hr' Hne; try done. simpl in *. rewrite lookup_delete_ne; [done|]. by intros ->.
Qed.

Lemma sh_Register_spec s data parent :
  sh_ok s →
  match sh_Register s data parent with
  | (s', Ok r) =>
      let c := createChainIDFromParent parent [tar_Digest data] in
      sh_ok s' ∧ sh_ref s' c r ∧ (∀ c' r', sh_ref s c' r' → sh_ref s' c' r' ∧ r' ≠ r) ∧
      (∀ c' r', sh_ref s' c' r' → sh_ref s c' r' ∨ r' = r) ∧
      sh_layers s' = if decide (is_Some (sh_layers s !! c)) then sh_layers s
                     else <[c := (data, parent)]> (sh_layers s)
  | (s', _) => s' = s ∧ parent ≠ "" ∧ sh_layers s !! parent = None
  end.
Proof.
  intros Hok. unfold sh_Register. set (c := createChainIDFromParent parent [tar_Digest data]).
  case_decide; [done|]. case_decide as Hc.
  - destruct (sh_take s c) as [s' o] eqn:Ht. pose proof Ht as [= Hs <-]. rewrite <- Hs.
    destruct (sh_take_spec s c s' _ Hok Hc Ht) as (? & ? & ? & ?). subst s'. by split_and!.
  - set (s1 := mkShelf _ _ _). assert (sh_ok s1) as Hok1.
    { intros n c' Hn. destruct (Hok n c' Hn). split; [done|]. simpl. rewrite lookup_insert. by case_decide. }
    destruct (sh_take s1 c) as [s' o] eqn:Ht. pose proof Ht as [= Hs <-]. rewrite <- Hs.
    destruct (sh_take_spec s1 c s' (referencedCacheLayer (sh_next s) 0) Hok1) as (? & ? & ? & ?); [simpl; rewrite lookup_insert_eq; eauto|done|].
    subst s'. by split_and!.
Qed.

#[export] Program Instance shelf_Client : LayerClient shelf.
Next Obligation.
  intros s c c' r' Hok. cbn [lg_Get shelf_GetReleaser]. unfold sh_Get. case_decide as Hc; [|by left].
  destruct (sh_take s c) as [s' o] eqn:Ht. pose proof Ht as [= _ <-].
  destruct (sh_take_spec s c s' _ Hok Hc Ht) as (_ & _ & _ & Hnew). simpl. intros [| ->]%Hnew; [by left|by right].
Qed.
Next Obligation.
  intros s c r c' r' Hok Hr. cbn [lg_Release shelf_GetReleaser]. destruct r as [n [|]|]; try done. simpl.
  unfold sh_ref. destruct r' as [n' [|]|]; try done. simpl. by intros [_ ?]%lookup_delete_Some.
Qed.
Next Obligation.
  intros s data parent Hok. cbn [st_Register shelf_Registry]. pose proof (sh_Register_spec s data parent Hok) as H.
  destruct (sh_Register s data parent) as [s' [r|e| |]] eqn:Hr.
  - destruct H as (? & ? & ? & ? & _). split_and!; [done|eauto|done..].
  - destruct H as (-> & _). done.
  - exfalso. revert Hr. unfold sh_Register. by repeat case_decide.
  - exfalso. revert Hr. unfold sh_Register. by repeat case_decide.
Qed.
Next Obligation.
  intros s c r Hok Hr. cbn [st_TarStream shelf_Registry]. by destruct (sh_stream s r).
Qed.

#[export] Program Instance shelf_Reliable : ReliableLayers shelf := {| lc_layer s c := sh_layers s !! c |}.
Next Obligation.
  intros s c Hok. cbn [lg_Get shelf_GetReleaser]. unfold sh_Get.
  destruct (sh_layers s !! c) eqn:Hc; [rewrite decide_True by eauto|rewrite decide_False by (by intros [])];
    (split; [done|by eexists]).
Qed.
Next Obligation.
  intros s c r Hok Hr. cbn [st_DiffID st_TarStream shelf_Registry]. unfold sh_stream.
  rewrite Hr. simpl. assert (∃ x, sh_layers s !! c = Some x) as [[data p] Hc].
  { unfold lg_ref, shelf_Holder, sh_ref in Hr. destruct r as [n [|]|]; try done. by destruct (Hok n c Hr). }
  rewrite Hc. simpl. exists data, p. by split_and!.
Qed.
Next Obligation.
  intros s data ds Hok _ Hl _ Hnew. cbn [st_Register shelf_Registry].
  pose proof (sh_Register_spec s data (CreateChainID ds) Hok) as H.
  assert (CreateChainID (ds ++ [tar_Digest data]) = createChainIDFromParent (CreateChainID ds) [tar_Digest data]) as Hc
    by apply createChainIDFromParent_app.
  rewrite <- Hc in H. destruct (sh_Register s data (CreateChainID ds)) as [s' [r|e| |]].
  { destruct H as (? & ? & _ & _ & Hlay). exists s', r. split_and!; [done..|]. intros c. rewrite Hlay.
    rewrite decide_False by (rewrite Hnew; by intros []). rewrite lookup_insert.
    repeat case_decide; congruence. }
  all: destruct H as (_ & Hne & Hnone); destruct (decide (ds = [])) as [->|Hds]; [done|];
    destruct (exists_last Hds) as (p & d & ->); destruct (Hl p d) as (x & _ & Hx); [done|]; congruence.
Qed.
Next Obligation.
  intros s c r Hok Hr. cbn [lg_Release shelf_GetReleaser]. destruct r as [n [|]|]; try done. simpl. split; [by eexists|done].
Qed.

(** ** Two daemons *)

Definition put s (x : string * string) : shelf := (sh_Register s x.1 x.2).1.
Definition filled (xs : list (string * string)) : shelf := foldl put (mkShelf ∅ ∅ 0) xs.

Lemma filled_ok xs : sh_ok (filled xs).
Proof.
  unfold filled. assert (sh_ok (mkShelf ∅ ∅ 0)) as Hok by (by intros n c).
  revert Hok. generalize (mkShelf ∅ ∅ 0). induction xs as [|[data parent] xs IH]; [done|].
  intros s Hok. apply IH. unfold put. simpl. pose proof (sh_Register_spec s data parent Hok) as H.
  destruct (sh_Register s data parent) as [s' []]; simpl; [apply H|destruct H as [-> _]; done..].
Qed.

Abbreviation trip_store := (imageStore fsBackend shelf (gset string)).
Abbreviation trip_exporter := (tarexporter fsBackend shelf (gset string)).

(** A daemon with the given layers, images and tags. *)
Definition daemon_images (xs : list (string * string)) (ops : list image_op) : trip_store :=
  (image_run (NewImageStore (demo_fs []) (filled xs)).1 ops).1.
Definition daemon (xs : list (string * string)) (ops : list image_op) (tags : list ref_op) : trip_exporter :=
  mkExporter (daemon_images xs ops) (ref_run (NewReferenceStore None [] ["docker.io"]).1 tags).1 [] [].

(** The second layer of the child has the same stream as the only layer of the tool. *)
Definition source_daemon : trip_exporter :=
  daemon [("base", ""); ("app", toy_digest "base"); ("app", "")]
    [ICreate (config_of ["base"] ["ADD"]); ICreate (config_of ["base"; "app"] ["ADD"; "RUN"]);
     ICreate (config_of ["app"] ["COPY"]); ISetParent (id_of ["base"; "app"] ["ADD"; "RUN"]) (id_of ["base"] ["ADD"])]
    [RAddTag (taggedRef "web" "v1") (id_of ["base"; "app"] ["ADD"; "RUN"]) false;
     RAddTag (taggedRef "web" "base") (id_of ["base"] ["ADD"]) false;
     RAddTag (taggedRef "tool" "v1") (id_of ["app"] ["COPY"]) false].

(** It has another image that is tagged web:v1, and the lowest layer. *)
Definition target_daemon : trip_exporter :=
  daemon [("base", "")] [ICreate (config_of ["base"] ["OTHER"])]
    [RAddTag (taggedRef "web" "v1") (id_of ["base"] ["OTHER"]) false;
     RAddTag (taggedRef "other" "v1") (id_of ["base"] ["OTHER"]) false].
Definition save_names : list string := ["web"; "tool:v1"].
Definition save_dir : list string := ["tmp"; "docker-export-1"].
Definition load_dir : list string := ["tmp"; "docker-import-2"].

(** ** What the daemons satisfy *)

Lemma config_rootfs layers history : has_rootfs (config_of layers history).
Proof.
  intros img. change (toy_image (config_of layers history) = inr img → is_Some (img_RootFS img)).
  unfold toy_image, config_of. rewrite parse_to_text. by intros [= <-].
Qed.

Lemma new_images_inv xs :
  image_inv (NewImageStore (DS := gset string) (demo_fs []) (filled xs)).1 ∧
  family_inv (NewImageStore (DS := gset string) (demo_fs []) (filled xs)).1.
Proof.
  split.
  - pose proof (NewImageStore_safe (DS := gset string) (demo_fs []) (filled xs) (filled_ok xs)) as H.
    apply (safe_state _ _ H).
  - split; simpl.
    + apply (proj2 (newFSStore_ok "/var/lib/docker/image")).
    + by intros id [].
    + intros c p. unfold fs_parent; simpl. destruct (cut_at ":" c) as [[]|]; [|done]. by simpl.
    + done.
Qed.

Lemma source_inv : image_inv (te_is source_daemon) ∧ family_inv (te_is source_daemon).
Proof.
  apply family_run; [apply new_images_inv..|].
  split; [split; [apply config_rootfs|done]|]. split; [split; [apply config_rootfs|done]|].
  split; [split; [apply config_rootfs|done]|]. split; [|done]. split; [done|]. vm_compute. by eexists.
Qed.
Lemma target_inv : image_inv (te_is target_daemon) ∧ family_inv (te_is target_daemon).
Proof.
  apply family_run; [apply new_images_inv..|]. split; [|done]. split; [apply config_rootfs|done].
Qed.
Lemma target_refs : ref_inv (te_rs target_daemon) ∧ rs_faults (te_rs target_daemon) = [].
Proof.
  split; [|vm_compute; reflexivity]. apply ref_run_inv; [apply NewReferenceStore_empty|]. by repeat constructor.
Qed.

#[export] Instance toy_hex : HexDigests.
Proof. split; [|done]. intros c. exists ("0" +:+ hex_bytes c). split; [done|apply toy_digest_hex]. Qed.
#[export] Instance toy_encoding : EncodingLaws.
Proof.
  split; [| |intros m|done].
  - intros v. exists (to_text (toy_v1_map v)), (toy_v1_map v). split; [done|apply parse_to_text].
  - intros m. by exists (to_text m).
  - change (match of_text (to_text m) with Some m => inr m | None => inl "invalid character" end = inr m :> string + list manifestItem).
    by rewrite of_to_text.
Qed.

(** ** Checks by computation *)

Definition config_okb (config : string) : bool :=
  bool_decide (config ≠ "") && bool_decide (ds_of config ≠ []) && bool_decide (length (ds_of config) ≤ maxLayerDepth) &&
  match json_Unmarshal config with
  | inr img => bool_decide (is_Some (img_RootFS img)) && bool_decide (non_empty_layers (img_History img) ≤ length (ds_of config))
  | inl _ => false
  end.
Lemma config_okb_sound config : config_okb config = true → config_ok config (ds_of config).
Proof.
  unfold config_okb. rewrite !andb_true_iff, !bool_decide_eq_true. intros [[[H1 H2] H3] H4].
  split_and!; [done..|intros c; apply toy_digest_inj|]. unfold ds_of in *.
  destruct (json_Unmarshal config) as [|img]; [done|]. apply andb_true_iff in H4 as [Hr Hh].
  apply bool_decide_eq_true in Hr as [[ty ds] Hr], Hh. exists img, ty. rewrite Hr in *. done.
Qed.

(** Every layer of [ds] passes. *)
Definition every_layer (f : list string → string → bool) (ds : list string) : bool :=
  forallb (λ k, match ds !! k with Some d => f (take k ds) d | None => true end) (seq 0 (length ds)).
Lemma every_layer_sound f ds p d : every_layer f ds = true → p ++ [d] `prefix_of` ds → f p d = true.
Proof.
  intros Hf [rest Heq]. rewrite <- app_assoc in Heq. simpl in Heq. subst ds.
  unfold every_layer in Hf. rewrite forallb_forall in Hf.
  specialize (Hf (length p)). rewrite list_lookup_middle, take_app_length in Hf by done.
  apply Hf, in_seq. rewrite length_app. simpl. lia.
Qed.

#[export] Instance Compression_eq_dec : EqDecision Compression.
Proof. solve_decision. Defined.
Definition layer_okb (look : string → option (string * string)) (p : list string) (d : string) : bool :=
  match look (CreateChainID (p ++ [d])) with
  | Some (data, q) => bool_decide (DetectCompression data = Uncompressed) &&
      bool_decide (tar_Digest data = d) && bool_decide (q = CreateChainID p)
  | None => false
  end.
Definition agreesb (look : string → option (string * string)) (p : list string) (d : string) : bool :=
  match look (CreateChainID (p ++ [d])) with
  | Some (data, q) => bool_decide (tar_Digest data = d) && bool_decide (q = CreateChainID p)
  | None => true
  end.
Definition tag_okb (r : Named) : bool :=
  match r, ParseNamed (Named_String r) with
  | taggedRef name tag, Ok r' => bool_decide (r' = r) && bool_decide (name ≠ "sha256") &&
      bool_decide (dist_WithName name = None) && dist_valid_tag tag
  | _, _ => false
  end.
Lemma tag_okb_sound r : tag_okb r = true → tag_ok r.
Proof.
  unfold tag_okb. destruct r as [|name tag|]; [done| |done].
  destruct (ParseNamed _) eqn:Hp; [|done..]. rewrite !andb_true_iff, !bool_decide_eq_true.
  intros [[[-> Hn] Hw] Ht]. by split_and!; [..|exists name, tag].
Qed.

Section check.
Context (l l0 : trip_exporter) (images : gmap string imageDescriptor).
Abbreviation content := (content_of (is_fs (te_is l))).

Definition image_okb (id : string) (descr : imageDescriptor) : bool :=
  bool_decide (is_Some (is_images (te_is l) !! id)) && config_okb (content id) &&
  every_layer (layer_okb (lc_layer (is_ls (te_is l)))) (ds_of (content id)) &&
  forallb tag_okb (id_refs descr) &&
  match rb_parent (is_fs (te_is l)) id with
  | Some parent => valid_parent (content id) (content parent)
  | None => true
  end.
Definition source_okb : bool :=
  forallb (λ kv, image_okb kv.1 kv.2) (map_to_list images) &&
  forallb (λ x, forallb (λ y, bool_decide (x.1 = y.1 → x.2 = y.2)) (layer_dirs l images)) (layer_dirs l images).

Lemma source_okb_sound :
  image_inv (te_is l) → family_inv (te_is l) → source_okb = true → trip_source l images.
Proof.
  intros Hinv Hfam [Hall Hdirs]%andb_true_iff. rewrite forallb_forall in Hall.
  assert (∀ id descr, images !! id = Some descr → image_okb id descr = true) as Hok.
  { intros id descr Hid. apply (Hall (id, descr)), list_elem_of_In. by apply elem_of_map_to_list. }
  clear Hall. unfold image_okb in Hok. setoid_rewrite andb_true_iff in Hok. setoid_rewrite andb_true_iff in Hok.
  setoid_rewrite andb_true_iff in Hok. setoid_rewrite andb_true_iff in Hok.
  split; [done..| | | | | |].
  - intros id [descr Hid]. destruct (Hok id descr Hid) as [[[[Hs _] _] _] _]. by apply bool_decide_eq_true in Hs.
  - intros id [descr Hid]. destruct (Hok id descr Hid) as [[[[_ Hc] _] _] _]. by apply config_okb_sound.
  - intros id p d [descr Hid] Hp. destruct (Hok id descr Hid) as [[[_ Hl] _] _].
    pose proof (every_layer_sound _ _ p d Hl Hp) as H. unfold layer_okb in H.
    destruct (lc_layer _ _) as [[data q]|]; [|done]. rewrite !andb_true_iff, !bool_decide_eq_true in H.
    destruct H as [[Hd Ht] ->]. by exists data.
  - intros id descr Hid. destruct (Hok id descr Hid) as [[_ Hr] _]. rewrite forallb_forall in Hr.
    apply Forall_forall. intros r Hin. by apply tag_okb_sound, Hr, list_elem_of_In.
  - intros id parent [descr Hid] _ Hp _. destruct (Hok id descr Hid) as [_ Hv]. by rewrite Hp in Hv.
  - intros v d d' H1 H2. rewrite forallb_forall in Hdirs. apply list_elem_of_In in H1, H2.
    specialize (Hdirs _ H1). rewrite forallb_forall in Hdirs. specialize (Hdirs _ H2).
    apply bool_decide_eq_true in Hdirs. by apply Hdirs.
Qed.

Lemma agreesb_sound dss :
  forallb (every_layer (agreesb (lc_layer (is_ls (te_is l0))))) dss = true →
  agrees (lc_layer (is_ls (te_is l0))) dss.
Proof.
  rewrite forallb_forall. intros Hall ds p d data q Hds%list_elem_of_In Hp Hc.
  pose proof (every_layer_sound _ _ p d (Hall ds Hds) Hp) as H. unfold agreesb in H. rewrite Hc in H.
  by rewrite andb_true_iff, !bool_decide_eq_true in H.
Qed.
End check.

(** ** The round trip *)

(** Names that are not identifiers are looked up without reading images. *)
Definition no_id (name : string) : bool :=
  match ParseIDOrReference name with Ok (id, _) => bool_decide (id = "") | _ => true end.
Lemma parseNames_same (l : trip_exporter) names images :
  forallb no_id names = true → (parseNames l names images).1 = l.
Proof.
  revert images. induction names as [|name names IH]; intros images; [done|]. simpl. intros [Hn Hns]%andb_true_iff.
  assert ((parse_name l name images).1 = l) as Heq.
  { unfold parse_name, no_id in *. destruct (ParseIDOrReference name) as [[id [ref|]]|e|m|]; try done;
      apply bool_decide_eq_true in Hn as ->; simpl; [|done].
    case_decide; [done|]. destruct (IsNameOnly ref); [|done].
    by destruct (refStore_ReferencesByName _ ref). }
  destruct (parse_name l name images) as [l' []]; simpl in *; subst l'; [by apply IH|done..].
Qed.

Definition saved_images : gmap string imageDescriptor :=
  match (parseNames source_daemon save_names ∅).2 with Ok images => images | _ => ∅ end.

Lemma names_parsed : parseNames source_daemon save_names ∅ = (source_daemon, Ok saved_images).
Proof.
  assert (forallb no_id save_names = true) as Hn by (vm_compute; reflexivity).
  pose proof (parseNames_same source_daemon save_names ∅ Hn) as Hl.
  assert (match (parseNames source_daemon save_names ∅).2 with Ok _ => true | _ => false end = true) as Hok
    by (vm_compute; reflexivity).
  unfold saved_images. destruct (parseNames source_daemon save_names ∅) as [l [images|e|m|]]; try discriminate Hok.
  simpl in *. by rewrite Hl.
Qed.

Lemma trip_source_daemon : trip_source source_daemon saved_images.
Proof. apply source_okb_sound; [apply source_inv..|]. vm_compute. reflexivity. Qed.
Lemma trip_target_daemon : destination (layers_of source_daemon saved_images) target_daemon.
Proof.
  split; [apply target_inv..|apply target_refs|apply target_refs|].
  apply agreesb_sound. vm_compute. reflexivity.
Qed.

Lemma dirs_normal : Forall normal save_dir ∧ Forall normal load_dir.
Proof. split; (constructor; [|constructor; [|constructor]]); repeat split; by vm_compute. Qed.

Lemma save_load_roundtrip_witness :
  size saved_images = 3 ∧
  ∃ l1 t l', Save source_daemon save_names (path_of save_dir) [] = (l1, Ok t) ∧
    Load target_daemon (inr t) (path_of load_dir) = (l', Ok tt) ∧
    copied source_daemon saved_images target_daemon l'.
Proof.
  split; [vm_compute; reflexivity|].
  refine (save_load_roundtrip source_daemon save_names save_dir source_daemon saved_images target_daemon load_dir
    (proj1 dirs_normal) _ (proj2 dirs_normal) _ names_parsed trip_source_daemon trip_target_daemon); discriminate.
Defined.

(** ** A behaviour of the code to note *)

(** The link to a stream that was written before cannot be made: Save succeeds, and its
    archive cannot be loaded. *)
Lemma failed_link_is_not_noticed :
  match Save source_daemon save_names (path_of save_dir) (repeat None 14 ++ [Some "no space left on device"]) with
  | (_, Ok t) => match Load target_daemon (inr t) (path_of load_dir) with
                 | (_, Err e) => e = "no such file or directory"
                 | _ => False
                 end
  | _ => False
  end.
Proof. vm_compute. reflexivity. Qed.
